(* ===== verification/_CoqProject ===== *)
-Q . S2P
Prelude.v
Domain.v
GroupPolicy.v
GroupPolicySnapshot.v
GroupPolicyInv.v
GroupPolicyRehydrate.v
CanonicalCbor.v
CborSpec.v
CborEncode.v
CborDecode.v
CborFields.v
WirePrimitives.v
WireValues.v
MembershipCommand.v
MembershipInv.v
MembershipProps.v
MembershipSnapshot.v
MembershipReload.v
MembershipDigest.v
MembershipDemo.v
IdentityLog.v
IdentityLogProjection.v
IdentityLogCodec.v
IdentityLogInv.v
IdentityLogProps.v
IdentityLogPages.v
IdentityLogPageProps.v
IdentityLogRead.v
IdentityLogDemo.v
AgentHost.v
AgentRegistry.v
Connector.v
ConnectorHead.v
ConnectorInv.v
ConnectorSteps.v
ConnectorReload.v
ConnectorFencing.v
ConnectorRefine.v
ConnectorDemo.v
BindingSet.v
BindingInv.v
BindingReconfigure.v
BindingReload.v
AgentRouter.v
AgentRunInv.v
AgentRunProps.v
AgentRoutes.v
RouterDemo.v
AgentGrants.v
AgentGrantProps.v
GrantDemo.v
ResponseCache.v
ResponseCacheProps.v
CacheDemo.v
ControlProof.v
ControlCredential.v
ControlCredentialProps.v
Enrollment.v
RuntimeClaims.v
CommandLog.v
CommandLogProps.v
ControlDemo.v
TransportAdmission.v
TransportAdmissionProps.v
AdmissionDemo.v
AuthorizationIndex.v
IndexDemo.v
HostTypes.v
HostSupervisor.v
HostSupervisorProps.v
HostEffects.v
HostJournal.v
HostJournalProps.v
HostRequest.v
HostRecovery.v
HostInstall.v
HostDemo.v
PublicFeed.v
PublicFeedProps.v
PublicFeedDemo.v
