(* ===== verification/Prelude.v ===== *)
(** * Dirextalk vNext Server: a verification library

    The server is a Rust workspace of about fifty crates.  The crates below hold
    its decision logic as pure code, without I/O; the node binaries and the
    persistence crates load an aggregate from the database, call one of its
    methods and store the result.  This library models those pure crates and
    proves what the callers rely on.

    ** The program's parts and the files that model them

    - [crates/dtx-domain]: revisions, UUIDv7 identifiers and self-certifying
      public identifiers.  [Domain.v].
    - [crates/dtx-group-policy]: who owns, administers and belongs to a group,
      its invitations and the join workflow.  [GroupPolicy.v] has the aggregate
      and one definition per command of [policy/aggregate.rs];
      [GroupPolicySnapshot.v] the snapshot, the persistence image and the
      validator of [policy/types.rs] and [policy/validation.rs];
      [GroupPolicyInv.v] the invariant and the theorems on reachable groups;
      [GroupPolicyRehydrate.v] what can be reloaded.
    - [crates/dtx-wire/src/canonical_cbor.rs]: deterministic CBOR.
      [CanonicalCbor.v] has encoder and parser, [CborSpec.v] the format as a
      function, [CborEncode.v] and [CborDecode.v] relate the code to it,
      [CborFields.v] has the lemmas on field maps that the typed codecs share.
    - [crates/dtx-wire/src/primitives.rs] and [version.rs]: SHA-256 digests
      ([WirePrimitives.v]); safe integers, timestamps, versions, keys, signatures
      and their encodings ([WireValues.v]).
    - [crates/dtx-membership-command]: the replay-safe book of join requests and
      approvals and its exchange with the commit Sequencer.
      [MembershipCommand.v] has the data, the request digest and the reducer,
      [MembershipSnapshot.v] the durable image and its validation,
      [MembershipInv.v] the invariant, [MembershipProps.v] the protocol
      theorems, [MembershipReload.v] save and reload, [MembershipDigest.v] what a
      request digest binds, [MembershipDemo.v] a worked example.
    - [crates/dtx-identity-log]: the signed hash chain of an identity.
      [IdentityLog.v] has certificates and events ([certificates.rs],
      [events.rs], [constants_and_errors.rs]), [IdentityLogProjection.v] the log
      aggregate ([projection.rs]), [IdentityLogCodec.v] the decoders
      ([decoding.rs]), [IdentityLogPages.v] pages ([pages.rs]);
      [IdentityLogInv.v] and [IdentityLogProps.v] the invariant and the theorems
      on logs, [IdentityLogPageProps.v] those on pages, [IdentityLogDemo.v] a
      worked example.  [crates/dtx-identity-persistence]: of its repository, how a
      page is read from the tables ([read_page] of [repository_impl.rs] and the row
      decoders of [repository_reads.rs]).  [IdentityLogRead.v], Module [PageRead],
      which also shows that every stored log is served.
    - [crates/dtx-agent-host/src/host.rs]: a registered machine and its
      credential.  [AgentHost.v], Module [Host].
    - [crates/dtx-agent-registry]: installations and their devices
      ([installation.rs], [device.rs]).  [AgentRegistry.v], Modules
      [Installation] and [Device].  Descriptor versions and the conversation
      grants of an agent ([definition.rs], [grant.rs]).  [AgentGrants.v], Modules
      [Definitions] and [Grant]; [AgentGrantProps.v] the histories of a grant,
      [GrantDemo.v] examples.
    - [crates/dtx-connect-registry/src/connector.rs]: connectors, their boots,
      leases, heartbeats and revisions.  [Connector.v] has the aggregate,
      [ConnectorHead.v] the two fixed-size heads of the online path;
      [ConnectorInv.v] and [ConnectorSteps.v] the invariant and its preservation,
      [ConnectorReload.v] save and reload, [ConnectorFencing.v] lease fences,
      [ConnectorRefine.v] the heads against the aggregate, [ConnectorDemo.v]
      examples.
    - [crates/dtx-connect-registry/src/binding.rs]: which installation runs on
      which connector, and in which order.  [BindingSet.v], Module [Binding];
      [BindingInv.v], [BindingReconfigure.v] and [BindingReload.v] the invariant,
      the bulk reconfiguration, save and reload.
    - [crates/dtx-agent-router]: plans and runs.  [AgentRouter.v], Module
      [Router]; [AgentRunInv.v] the run as a step relation, [AgentRunProps.v] the
      theorems on runs, [AgentRoutes.v] the routes from registry to run,
      [RouterDemo.v] examples.
    - [crates/dtx-http-cache]: a bounded response cache that coalesces concurrent
      loads.  [ResponseCache.v], Module [Cache], has the critical sections as
      functions and the requests as steps of a transition system;
      [ResponseCacheProps.v] the theorems on all interleavings, [CacheDemo.v]
      examples.
    - [crates/dtx-agent-control]: how a connector enrols, proves possession of its
      keys, rotates its credential and receives commands.  [ControlProof.v],
      Module [Control]: digests and signed statements ([digest.rs], [proof.rs]);
      [ControlCredential.v], Module [Credential]: credentials and their
      authorization ([credential.rs]), with its histories in
      [ControlCredentialProps.v]; [Enrollment.v]: one-time intents
      ([enrollment.rs]); [RuntimeClaims.v], Modules [Text] and [Claims]: reports
      of a runtime ([claims.rs]) and the checks on text; [CommandLog.v], Module
      [Command]: the durable log of commands ([command.rs] and the command bodies
      of [route_bootstrap.rs]), with its histories in [CommandLogProps.v];
      [ControlDemo.v] examples.
    - [crates/dtx-agent-control-server/src/transport_admission.rs]: token buckets
      and concurrency limits in front of the control stream.
      [TransportAdmission.v], Module [Admission]; [TransportAdmissionProps.v] the
      guard with its outstanding permits as a transition system,
      [AdmissionDemo.v] examples.  [authorization_index.rs]: the view of all
      credentials that admits a certificate.  [AuthorizationIndex.v], Module
      [Index]; [IndexDemo.v] an example.
    - [crates/dtx-agent-host-supervisor] and [bins/dtx-agent-host-supervisor]: the
      connectors of one machine.  [HostTypes.v] has the data ([types.rs]),
      [HostSupervisor.v] the ports as classes and the coordinator ([ports.rs],
      [supervisor.rs]), [HostJournal.v] the operation journal on a disk that can
      fail ([linux/journal.rs]), [HostRequest.v] the release catalog and one
      operator request from reload to answer ([catalog.rs], [production.rs],
      [wire.rs]).  [HostSupervisorProps.v] has the lifecycle as a specification
      and the coordinator against it on any ports, [HostEffects.v] the order of
      its effects, [HostJournalProps.v] the journal operations on a valid file,
      [HostRecovery.v] requests that are interrupted and sent again,
      [HostInstall.v] the first install, [HostDemo.v] a worked example.
    - [crates/dtx-public-feed]: the signed public feed of a channel or an agent.
      [PublicFeed.v], Module [Feed]: events, codec, head and cursor;
      [PublicFeedProps.v] the codec and the histories, [PublicFeedDemo.v] a
      worked example.

    The group policy supplies the scope of a membership command; commands, events
    and pages are hashed through the CBOR encoder under a domain separator; the
    identifiers they contain are those of the domain crate.  A connector is
    registered on an active host; a binding ties an enabled installation with an
    active device to a connector; the router resolves a plan from the bindings
    and creates the run from it.  An enrolment consumes an intent and yields the
    first credential of a connector; a command of the log asks for the rotation
    that replaces it; the index mirrors the authorizations.  The supervisor of a
    host meets the journal, the catalog, the providers and the processes only
    through the classes of [HostSupervisor.v]: its own theorems hold for every
    instance of them, the theorems on requests for the journal of
    [HostJournal.v], the catalog of [HostRequest.v] and any providers and
    processes.

    ** How code becomes definitions

    A method taking [&self] is a function returning [result], a method taking
    [&mut self] an [ST] program, which keeps the assignments made before an
    error.  [reject e when P] is [if P { return Err(e) }].  A [BTreeMap] is a
    [gmap] iterated in key order ([btree_iter]).  A [w]-bit integer is the [Z] it
    denotes, with the checked operations of the source.  A loop with early
    return is [try_fold].  A panic is [None], and a theorem shows it absent.  A
    component's commands form a type of operations with a [step] function;
    [run_all step ops] is a history in which failing commands take part too.

    Code outside the repository is a parameter with its documented behaviour as
    hypotheses: SHA-256, Ed25519 verification and key validation, the text form
    of the [uuid] crate, base64url.  The JSON texts of the journal are parameters too, used
    only as the input of hashes and for the size of the file.

    ** What the theorems show

    Group policy: an invariant of every reachable group; commands are atomic and
    advance the revision by one; authority, provenance of members, invitation
    capacity, the end of an administrator term; the validator accepts exactly
    the images of valid groups; which commands make a group that no longer
    loads.  CBOR: the encoder equals the reference format within its limits,
    decoding inverts encoding and accepts canonical bytes only.  Membership:
    consistency of the book, exact replay, finality of receipts, no submit
    while an earlier one is uncertain, one exact intent per workflow,
    authenticity of commits, save and reload, binding of the digest; the loader
    accepts more than reachable books.  Identity log: [append] is exactly six
    authority rules on a verified chain; authority changes are signed by their
    holders, revoked devices stay dead, the head hash binds the history, bytes
    of events and pages are canonical; a log in the tables is served page by page
    from cursor 0 to its head, and a reader that follows the pages holds it; no
    [expect] fires on a value that the constructors or decoders return.

    Control plane: hosts, devices, connectors, bindings and runs reload from
    their images; retired credentials and superseded fences are refused for
    ever; the control and heartbeat heads refine the connector aggregate, with
    the one gap in which a live lease is locked out and a retry of its request is
    refused by the head; plans resolved from the
    bindings are accepted; a run has one execution lease and can always be
    settled; the run loader accepts more than reachable runs.  Grants: authority
    grows only with confirmation, a changed grant fences earlier runs.  Response
    cache: an answer from the cache is not older than the last invalidation of
    its key, the counters are exact and bounded, flights drain unless a request
    is dropped at an unguarded point.

    Agent control: a signature covers one statement; enrolment demands exactly
    what its contract says, an intent is used once and then never changes; a new
    pending credential comes from a rotation signed with both keys or from a reissue
    of the same generation, and a superseded credential stays dead; commands are delivered in
    order, the backlog is bounded; intents, authorizations and claims reload from
    their images, a command log exactly if no generation was skipped between two
    of its commands.  Transport admission: a hello is admitted exactly when
    its limits allow it in the state after the clean-up, permits are accounted for, and the rate of admissions
    over any window is bounded if entries outlive a full refill.  The index
    admits exactly what the credential aggregate admits.

    Host supervisor: whatever the ports answer, a call takes at most one step of
    the connector lifecycle or changes nothing, a removed connector stays
    removed, effects follow a durable intent, a completed operation is answered
    from the journal, a snapshot reloads.  With the file journal, a request that
    was interrupted at any point succeeds when it is sent again and would succeed
    undisturbed, with the effects of the undisturbed request or, where its operation
    is completed on disk, with the recorded answer.  The first install of a connector
    is never applied: the journal refuses it and a pending operation is left behind,
    unless the material had expired.

    Public feed: the head implements exactly the well-formed histories of one
    publisher up to a tombstone, its hash binds the history, event bytes are
    exact and cursors survive their text form.

    ** Bounds and fuel

    The CBOR recursion follows the nesting depth, which the code bounds by
    [MAX_DEPTH]: [levels] is [MAX_DEPTH + 1 - depth], so no run stops for want of
    fuel.  The Base32 loop takes five bits per iteration, so the number of bits
    is enough fuel.  All other recursion is structural.  An encoded identity
    event has at most 4867 bytes, so the pages that the server builds stay within
    the limits of the codec; a public feed event has at most 38007.

    ** Not modelled

    SQL persistence but for the page reader of the identity log, HTTP and gRPC servers, push delivery and the node binaries
    (I/O); cryptography and TLS (libraries); generated wire types, protocol
    tooling and test kits; serde and [Display] glue.  Of the agent control plane,
    the gRPC server and its repositories are I/O around the aggregates modelled
    here.  Of the host supervisor, the Linux process controller and the
    credential and material providers are instances of the ports; file
    permissions, locking between processes and the text of frames are left out:
    a request starts from the decoded configuration, catalog and frame. *)

From stdpp Require Import prelude gmap sorting strings.
From stdpp Require Export prelude gmap sorting strings.

Declare Scope dtx_scope.
Delimit Scope dtx_scope with dtx.
Open Scope dtx_scope.
Open Scope Z_scope.

(** ** Fallible code: Rust's [Result] *)

Inductive result (E A : Type) : Type :=
| Ok (a : A)
| Err (e : E).
Arguments Ok {E A} a.
Arguments Err {E A} e.

Global Instance result_eq_dec `{EqDecision E, EqDecision A} :
  EqDecision (result E A).
Proof. solve_decision. Defined.

Global Instance result_ret {E} : MRet (result E) := λ A a, Ok a.
Global Instance result_bind {E} : MBind (result E) := λ A B f m,
  match m with Ok a => f a | Err e => Err e end.
Global Instance result_fmap {E} : FMap (result E) := λ A B f m,
  match m with Ok a => Ok (f a) | Err e => Err e end.

(** [Option::ok_or], [Result::map_err] and [Result::ok]. *)
Definition ok_or {E A} (o : option A) (e : E) : result E A :=
  match o with Some a => Ok a | None => Err e end.

Definition map_err {E F A} (f : E → F) (r : result E A) : result F A :=
  match r with Ok a => Ok a | Err e => Err (f e) end.

Definition result_ok {E A} (r : result E A) : option A :=
  match r with Ok a => Some a | Err _ => None end.

(** [if cond { return Err(e) }] *)
Definition reject_if {E} (P : Prop) `{!Decision P} (e : E) : result E unit :=
  if decide P then Err e else Ok tt.

Notation "'reject' e 'when' P" := (reject_if P e)
  (at level 70, e at level 9, P at level 69) : dtx_scope.

(** ** Stateful code: [&mut self] methods returning [Result]

    The state survives an error: a method that has assigned a field before it
    returns [Err] keeps that assignment, as in Rust. *)

Definition ST (S E A : Type) : Type := S → result E A * S.

Global Instance ST_ret {S E} : MRet (ST S E) := λ A a s, (Ok a, s).
Global Instance ST_bind {S E} : MBind (ST S E) := λ A B f m s,
  match m s with
  | (Ok a, s') => f a s'
  | (Err e, s') => (Err e, s')
  end.

Definition lift {S E A} (r : result E A) : ST S E A := λ s, (r, s).
Definition get {S E} : ST S E S := λ s, (Ok s, s).
Definition modify {S E} (f : S → S) : ST S E unit := λ s, (Ok tt, f s).
Definition throw {S E A} (e : E) : ST S E A := λ s, (Err e, s).

(** A call of a [&mut self] method in statement position of another program. *)
Definition exec {S E A} (m : ST S E A) (s : S) : S := (m s).2.

(** ** Field update, [self.field = value] *)

Class Field {R T : Type} (proj : R → T) : Type := upd : (T → T) → R → R.
Arguments upd {R T} proj {_} _ _ /.

Notation "r <| p := v |>" := (upd p (λ _, v) r)
  (at level 1, left associativity, p at level 200,
   format "r <| p  :=  v |>") : dtx_scope.

(** Setters from the record written out: [field_of eta proj] updates the field
    [proj] of [eta r = {| .. := proj r; .. |}]. *)
Ltac field_of eta proj :=
  let t := eval unfold eta in eta in
  lazymatch eval pattern proj in t with
  | ?F _ =>
      lazymatch type of proj with
      | ?R → ?T =>
          let g := eval cbv beta in (λ (f : T → T) (r : R), F (λ x, f (proj x)) r) in
          exact g
      end
  end.

(** ** Sequences of operations

    [run_all step ops s] is the state after the operations [ops], failing ones
    included. *)

Definition run_all {S O} (step : O → S → S) (ops : list O) (s : S) : S :=
  foldl (λ s o, step o s) s ops.

Lemma run_all_inv {S O} (step : O → S → S) (P : S → Prop) ops s :
  (∀ o s, o ∈ ops → P s → P (step o s)) → P s → P (run_all step ops s).
Proof.
  revert s. induction ops as [|o ops IH]; intros s Hstep Hs; [done|].
  apply IH; [|apply Hstep; [left|done]]. intros o' s' Ho. apply Hstep. by right.
Qed.

Lemma run_all_app {S O} (step : O → S → S) ops ops' s :
  run_all step (ops ++ ops') s = run_all step ops' (run_all step ops s).
Proof. apply foldl_app. Qed.

(** ** Machine integers

    A [w]-bit integer is the [Z] it denotes; the operations that can leave the
    range are the checked ones of the source. *)

Definition u16_max : Z := 2 ^ 16 - 1.
Definition u32_max : Z := 2 ^ 32 - 1.
Definition u64_max : Z := 2 ^ 64 - 1.
Definition i64_min : Z := - 2 ^ 63.
Definition i64_max : Z := 2 ^ 63 - 1.

Definition checked (lo hi z : Z) : option Z :=
  if decide (lo ≤ z ≤ hi) then Some z else None.

Definition u32_checked_add (x y : Z) : option Z := checked 0 u32_max (x + y).
Definition u32_checked_sub (x y : Z) : option Z := checked 0 u32_max (x - y).
Definition u64_checked_add (x y : Z) : option Z := checked 0 u64_max (x + y).
Definition i64_checked_add (x y : Z) : option Z := checked i64_min i64_max (x + y).
Definition i64_checked_sub (x y : Z) : option Z := checked i64_min i64_max (x - y).

Lemma checked_Some lo hi z r : checked lo hi z = Some r ↔ r = z ∧ lo ≤ z ≤ hi.
Proof. unfold checked. case_decide; naive_solver. Qed.

Lemma checked_None lo hi z : checked lo hi z = None ↔ ¬ (lo ≤ z ≤ hi).
Proof. unfold checked. case_decide; naive_solver. Qed.

(** ** Reasoning about [result] and [ST] programs *)

Section result_lemmas.
Context {E A B : Type}.

Lemma result_bind_Ok (m : result E A) (f : A → result E B) b :
  m ≫= f = Ok b ↔ ∃ a, m = Ok a ∧ f a = Ok b.
Proof. destruct m; naive_solver. Qed.

Lemma ok_or_Ok (o : option A) (e : E) a : ok_or o e = Ok a ↔ o = Some a.
Proof. destruct o; naive_solver. Qed.

Lemma map_err_Ok {F} (f : E → F) (r : result E A) a :
  map_err f r = Ok a ↔ r = Ok a.
Proof. destruct r; naive_solver. Qed.

Lemma reject_if_Ok (P : Prop) `{!Decision P} (e : E) u :
  reject_if P e = Ok u ↔ ¬ P.
Proof. unfold reject_if. destruct u. case_decide; naive_solver. Qed.

Lemma reject_if_Err (P : Prop) `{!Decision P} (e e' : E) :
  reject_if P e = Err e' ↔ P ∧ e' = e.
Proof. unfold reject_if. case_decide; naive_solver. Qed.
End result_lemmas.

(** Steps through a [result] program that is to succeed: one goal per guard. *)
Ltac ok_step :=
  lazymatch goal with
  | |- (reject_if _ _ ≫= _) = Ok _ =>
      apply result_bind_Ok; exists tt; split; [apply reject_if_Ok|]
  | |- (ok_or _ _ ≫= _) = Ok _ =>
      apply result_bind_Ok; eexists; split; [apply ok_or_Ok|]
  | |- (_ ≫= _) = Ok _ => apply result_bind_Ok; eexists; split
  end.

Section st_lemmas.
Context {S E A B : Type}.

Lemma st_bind_Ok (m : ST S E A) (f : A → ST S E B) s b s'' :
  (m ≫= f) s = (Ok b, s'') ↔
  ∃ a s', m s = (Ok a, s') ∧ f a s' = (Ok b, s'').
Proof.
  unfold mbind, ST_bind.
  destruct (m s) as [[a|e] s'] eqn:Hm; naive_solver.
Qed.

Lemma lift_Ok (r : result E A) (s s' : S) a :
  lift r s = (Ok a, s') ↔ r = Ok a ∧ s' = s.
Proof. unfold lift. naive_solver. Qed.

Lemma get_Ok (s s' a : S) : get (E := E) s = (Ok a, s') ↔ a = s ∧ s' = s.
Proof. unfold get. naive_solver. Qed.

Lemma modify_Ok (f : S → S) (s s' : S) u :
  modify (E := E) f s = (Ok u, s') ↔ s' = f s.
Proof. unfold modify. destruct u. naive_solver. Qed.

Lemma mret_Ok (a b : A) (s s' : S) :
  (mret a : ST S E A) s = (Ok b, s') ↔ b = a ∧ s' = s.
Proof. unfold mret, ST_ret. naive_solver. Qed.

(** A program that only reads, one that cannot fail, and one that leaves the
    state alone whenever it fails. *)
Definition readonly (m : ST S E A) : Prop := ∀ s, (m s).2 = s.
Definition nofail (m : ST S E A) : Prop := ∀ s, ∃ a, (m s).1 = Ok a.
Definition atomic (m : ST S E A) : Prop :=
  ∀ s e s', m s = (Err e, s') → s' = s.
End st_lemmas.

Lemma exec_Ok {S E A} (m : ST S E A) s a s' : m s = (Ok a, s') → exec m s = s'.
Proof. unfold exec. by intros ->. Qed.

(** An operation that fails changes nothing. *)
Lemma exec_atomic {S E A} (m : ST S E A) s :
  atomic m → exec m s = s ∨ ∃ a, m s = (Ok a, exec m s).
Proof.
  intros Hm. unfold exec. destruct (m s) as [[a|e] s'] eqn:Hs; cbn; [eauto|].
  left. by apply Hm in Hs.
Qed.

Create HintDb st discriminated.

Section st_closure.
Context {S E A B : Type}.

Lemma readonly_lift (r : result E A) : readonly (S := S) (lift r).
Proof. done. Qed.

Lemma readonly_get : readonly (E := E) (get (S := S)).
Proof. done. Qed.

Lemma readonly_mret (a : A) : readonly (mret a : ST S E A).
Proof. done. Qed.

Lemma atomic_readonly (m : ST S E A) : readonly m → atomic m.
Proof. intros Hm s e s' Hs. specialize (Hm s). by rewrite Hs in Hm. Qed.

Lemma atomic_bind_read (m : ST S E A) (f : A → ST S E B) :
  readonly m → (∀ a, atomic (f a)) → atomic (m ≫= f).
Proof.
  intros Hm Hf s e s''. unfold mbind, ST_bind.
  specialize (Hm s). destruct (m s) as [[a|e'] s'] eqn:Hs; simpl in *; subst.
  - apply Hf.
  - naive_solver.
Qed.

Lemma nofail_mret (a : A) : nofail (mret a : ST S E A).
Proof. intros s. by exists a. Qed.

Lemma nofail_modify (f : S → S) : nofail (modify (E := E) f).
Proof. intros s. by exists tt. Qed.

Lemma nofail_bind (m : ST S E A) (f : A → ST S E B) :
  nofail m → (∀ a, nofail (f a)) → nofail (m ≫= f).
Proof.
  intros Hm Hf s. destruct (Hm s) as [a Ha]. unfold mbind, ST_bind.
  destruct (m s) as [r s'] eqn:Hs; simpl in *; subst. apply Hf.
Qed.

Lemma atomic_nofail (m : ST S E A) : nofail m → atomic m.
Proof. intros Hm s e s' Hs. destruct (Hm s) as [a Ha]. by rewrite Hs in Ha. Qed.

Lemma atomic_bind_nofail (m : ST S E A) (f : A → ST S E B) :
  atomic m → (∀ a, nofail (f a)) → atomic (m ≫= f).
Proof.
  intros Hm Hf s e s''. unfold mbind, ST_bind. destruct (m s) as [[a|e'] s'] eqn:Hs.
  - intros H. destruct (Hf a s') as [b Hb]. by rewrite H in Hb.
  - intros [= <- <-]. by eapply Hm.
Qed.
End st_closure.

#[export] Hint Resolve readonly_lift readonly_get readonly_mret atomic_readonly
  atomic_bind_read nofail_mret nofail_modify nofail_bind atomic_nofail : st.

(** A program made of reads and checks followed by assignments is atomic. *)
Ltac solve_nofail :=
  repeat first [apply nofail_mret | apply nofail_modify
               | apply nofail_bind; [|intros ?]].
Ltac solve_atomic :=
  repeat first
    [ apply atomic_nofail; solve [solve_nofail]
    | apply atomic_readonly; first [apply readonly_lift | apply readonly_get]
    | apply atomic_bind_read; [first [apply readonly_lift | apply readonly_get]|intros ?] ].

(** [st_inv H] takes a successful run [H : m s = (Ok r, s')] apart: one
    hypothesis per guard that was passed and one equation per read or write. *)
Ltac st_inv_step H :=
  lazymatch type of H with
  | (?m ≫= ?f) ?s = (Ok ?b, ?s') =>
      let Hrun := fresh "Hrun" in
      apply st_bind_Ok in H as (? & ? & Hrun & H);
      st_inv_step Hrun; st_inv_step H
  | lift ?r ?s = (Ok ?a, ?s') => apply lift_Ok in H as [H ->]; res_inv H
  | get ?s = (Ok ?a, ?s') => apply get_Ok in H as [-> ->]
  | modify ?f ?s = (Ok ?a, ?s') => apply modify_Ok in H as ->
  | mret ?a ?s = (Ok ?b, ?s') => apply mret_Ok in H as [-> ->]
  | throw ?e ?s = (Ok ?b, ?s') => discriminate H
  | _ => idtac
  end
with res_inv H :=
  lazymatch type of H with
  | (?m ≫= ?f) = Ok ?b =>
      let Hres := fresh "Hres" in
      apply result_bind_Ok in H as (? & Hres & H); res_inv Hres; res_inv H
  | reject_if ?P ?e = Ok ?u => apply reject_if_Ok in H
  | ok_or ?o ?e = Ok ?a => apply ok_or_Ok in H
  | map_err ?f ?r = Ok ?a => apply map_err_Ok in H
  | Ok ?a = Ok ?b => try (injection H as H; try subst)
  | mret ?a = Ok ?b => try (injection H as H; try subst)
  | Err ?a = Ok ?b => discriminate H
  | _ => idtac
  end.
Ltac st_inv H := st_inv_step H.

(** Steps through a program that is to succeed: one goal per guard. *)
Ltac st_step :=
  lazymatch goal with
  | |- (lift (reject_if _ _) ≫= _) _ = (Ok _, _) =>
      apply st_bind_Ok; exists tt; eexists; split;
      [apply lift_Ok; split; [apply reject_if_Ok|reflexivity]|]
  | |- (lift (ok_or _ _) ≫= _) _ = (Ok _, _) =>
      apply st_bind_Ok; eexists _, _; split;
      [apply lift_Ok; split; [apply ok_or_Ok|reflexivity]|]
  | |- (get ≫= _) _ = (Ok _, _) =>
      apply st_bind_Ok; eexists _, _; split; [apply get_Ok; split; reflexivity|]
  | |- (modify _ ≫= _) _ = (Ok _, _) =>
      apply st_bind_Ok; exists tt; eexists; split; [apply modify_Ok; reflexivity|]
  | |- (_ ≫= _) _ = (Ok _, _) => apply st_bind_Ok; eexists _, _; split
  end.

(** ** Loops with early return: [for x in xs { body? }] *)

Fixpoint try_fold {E S A} (f : S → A → result E S) (l : list A) (s : S) : result E S :=
  match l with
  | [] => Ok s
  | x :: l => match f s x with Ok s' => try_fold f l s' | Err e => Err e end
  end.

Section try_fold.
Context {E S A : Type} (f : S → A → result E S).

Lemma try_fold_app l k s :
  try_fold f (l ++ k) s =
  match try_fold f l s with Ok s' => try_fold f k s' | Err e => Err e end.
Proof.
  revert s. induction l as [|x l IH]; intros s; simpl; [done|].
  by destruct (f s x).
Qed.

(** A loop whose body is a guard [G] and an update [u]: it runs to its end
    exactly when every iteration passes its guard. *)
Lemma try_fold_guarded (G : S → A → Prop) (u : S → A → S) l s s' :
  (∀ s x s', f s x = Ok s' ↔ G s x ∧ s' = u s x) →
  try_fold f l s = Ok s' ↔
  (∀ pre x post, l = pre ++ x :: post → G (foldl u s pre) x) ∧ s' = foldl u s l.
Proof.
  intros Hf. revert s. induction l as [|x l IH]; intros s; simpl.
  { split; [|naive_solver]. intros [= <-]. split; [|done]. by intros [] ? ?. }
  destruct (f s x) as [s1|] eqn:Hx.
  - apply Hf in Hx as [HG ->]. rewrite IH. split; intros [Hall ->]; (split; [|done]).
    + intros [|y pre] z post; simpl; intros [= -> ->]; [done|]. by apply (Hall pre z post).
    + intros pre z post ->. by apply (Hall (x :: pre) z post).
  - split; [done|]. intros [Hall _]. specialize (Hall [] x l eq_refl). simpl in Hall.
    destruct (Hf s x (u s x)) as [_ Hok]. rewrite Hok in Hx; [done|naive_solver].
Qed.

Context (P : S → list A → Prop).

(** What the loop establishes when it runs to its end. *)
Lemma try_fold_inv l s s' :
  P s [] →
  (∀ pre x post s s1, l = pre ++ x :: post → P s pre → f s x = Ok s1 →
    P s1 (pre ++ [x])) →
  try_fold f l s = Ok s' → P s' l.
Proof.
  intros H0 Hstep.
  cut (∀ pre l' s, l = pre ++ l' → P s pre → try_fold f l' s = Ok s' → P s' l).
  { intros H. by apply (H [] l s). }
  intros pre l'. revert pre.
  induction l' as [|x l' IH]; intros pre s0 Hl HP; simpl; intros Hf; simplify_eq.
  - by rewrite app_nil_r.
  - destruct (f s0 x) as [s1|] eqn:Hx; [|done].
    apply (IH (pre ++ [x]) s1); [by rewrite <-(assoc_L (++))| |done].
    eapply Hstep; eauto.
Qed.

(** That it does run to its end when every iteration can proceed. *)
Lemma try_fold_total l s :
  P s [] →
  (∀ pre x post s, l = pre ++ x :: post → P s pre →
    ∃ s1, f s x = Ok s1 ∧ P s1 (pre ++ [x])) →
  ∃ s', try_fold f l s = Ok s' ∧ P s' l.
Proof.
  intros H0 Hstep.
  cut (∀ l' pre s, l = pre ++ l' → P s pre →
    ∃ s', try_fold f l' s = Ok s' ∧ P s' l).
  { intros H. by apply (H l [] s). }
  induction l' as [|x l' IH]; intros pre s0 Hl HP; simpl.
  - exists s0. split; [done|]. subst. by rewrite app_nil_r.
  - destruct (Hstep pre x l' s0 Hl HP) as (s1 & -> & HP1).
    apply (IH (pre ++ [x])); [by rewrite <-(assoc_L (++))|done].
Qed.
End try_fold.

(** ** Rust's [Ord]: a total order given by a comparison *)

Class Ord (A : Type) : Type := {
  compare : A → A → comparison;
  compare_eq x y : compare x y = Eq ↔ x = y;
  compare_opp x y : compare y x = CompOpp (compare x y);
  compare_lt_trans x y z : compare x y = Lt → compare y z = Lt → compare x z = Lt
}.

Definition ord_lt {A} `{Ord A} (x y : A) : Prop := compare x y = Lt.
Definition ord_le {A} `{Ord A} (x y : A) : Prop := compare x y ≠ Gt.

Global Instance ord_lt_dec {A} `{Ord A} : RelDecision (ord_lt (A := A)).
Proof. intros x y. unfold ord_lt. apply _. Defined.
Global Instance ord_le_dec {A} `{Ord A} : RelDecision (ord_le (A := A)).
Proof. intros x y. unfold ord_le. apply _. Defined.

Section ord.
Context {A : Type} `{Ord A}.

Lemma compare_refl (x : A) : compare x x = Eq.
Proof. by apply compare_eq. Qed.

Lemma compare_gt_lt (x y : A) : compare x y = Gt ↔ compare y x = Lt.
Proof. rewrite (compare_opp x y). by destruct (compare x y). Qed.

Lemma ord_le_cases (x y : A) : ord_le x y ↔ ord_lt x y ∨ x = y.
Proof.
  unfold ord_le, ord_lt. rewrite <-compare_eq.
  destruct (compare x y); naive_solver.
Qed.

Global Instance ord_lt_irrefl : Irreflexive (ord_lt (A := A)).
Proof. intros x. unfold complement, ord_lt. by rewrite compare_refl. Qed.

Global Instance ord_lt_trans : Transitive (ord_lt (A := A)).
Proof. intros x y z. apply compare_lt_trans. Qed.

Global Instance ord_le_trans : Transitive (ord_le (A := A)).
Proof.
  intros x y z. rewrite !ord_le_cases.
  intros [Hxy| ->] [Hyz| ->]; auto. left. by transitivity y.
Qed.

Global Instance ord_le_total : Total (ord_le (A := A)).
Proof.
  intros x y. unfold ord_le. rewrite (compare_opp x y).
  destruct (compare x y); naive_solver.
Qed.

Global Instance ord_le_antisymm : AntiSymm (=) (ord_le (A := A)).
Proof.
  intros x y. rewrite !ord_le_cases. intros [Hxy|?] [Hyx|?]; try done.
  by destruct (irreflexivity ord_lt x (transitivity Hxy Hyx)).
Qed.
End ord.

Global Instance Z_ord : Ord Z.
Proof.
  refine {| compare := Z.compare |}.
  - apply Z.compare_eq_iff.
  - intros. apply Z.compare_antisym.
  - intros x y z. rewrite !Z.compare_lt_iff. lia.
Defined.

(** [#[derive(Ord)]] on a newtype or struct: compare the fields in order. *)
Definition ord_by {A B} `{Ord B} (f : A → B) `{!Inj (=) (=) f} : Ord A.
Proof.
  refine {| compare x y := compare (f x) (f y) |}.
  - intros x y. rewrite compare_eq. split; [apply (inj f)|by intros ->].
  - intros. apply compare_opp.
  - intros x y z. apply compare_lt_trans.
Defined.

Definition then_compare (c d : comparison) : comparison :=
  match c with Eq => d | _ => c end.

Global Instance prod_ord {A B} `{Ord A, Ord B} : Ord (A * B).
Proof.
  refine {| compare x y := then_compare (compare x.1 y.1) (compare x.2 y.2) |}.
  - intros [a b] [a' b']; simpl.
    pose proof (compare_eq a a') as Ha. pose proof (compare_eq b b') as Hb.
    destruct (compare a a') eqn:?; simpl; split; intros; naive_solver.
  - intros [a b] [a' b']; simpl. rewrite (compare_opp a a'), (compare_opp b b').
    by destruct (compare a a').
  - intros [a1 b1] [a2 b2] [a3 b3]; simpl.
    destruct (compare a1 a2) eqn:H1; simpl; try done.
    + apply compare_eq in H1 as ->. destruct (compare a2 a3); simpl; try done.
      apply compare_lt_trans.
    + intros _. destruct (compare a2 a3) eqn:H2; simpl; try done.
      * apply compare_eq in H2 as ->. by rewrite H1.
      * by rewrite (compare_lt_trans _ _ _ H1 H2).
Defined.

(** Slices compare lexicographically, a proper prefix first. *)
Fixpoint list_compare {A} `{Ord A} (l k : list A) : comparison :=
  match l, k with
  | [], [] => Eq
  | [], _ :: _ => Lt
  | _ :: _, [] => Gt
  | x :: l, y :: k => then_compare (compare x y) (list_compare l k)
  end.

Global Instance list_ord {A} `{Ord A} : Ord (list A).
Proof.
  refine {| compare := list_compare |}.
  - induction x as [|a x IH]; intros [|b y]; simpl; try naive_solver.
    pose proof (compare_eq a b) as Hab. specialize (IH y).
    destruct (compare a b); simpl; naive_solver.
  - induction x as [|a x IH]; intros [|b y]; simpl; try done.
    rewrite (compare_opp a b), (IH y). by destruct (compare a b).
  - induction x as [|a x IH]; intros [|b y] [|c z]; simpl; try done.
    destruct (compare a b) eqn:H1; simpl; try done.
    + apply compare_eq in H1 as ->. destruct (compare b c); simpl; try done. apply IH.
    + intros _. destruct (compare b c) eqn:H2; simpl; try done.
      * apply compare_eq in H2 as ->. by rewrite H1.
      * by rewrite (compare_lt_trans _ _ _ H1 H2).
Defined.

(** ** [BTreeMap] and [BTreeSet]: finite maps and sets iterated in key order *)

Section btree.
Context {K : Type} `{EqDecision K, Countable K, Ord K} {V : Type}.

Definition entry_le (x y : K * V) : Prop := ord_le x.1 y.1.
Global Instance entry_le_dec : RelDecision entry_le.
Proof. intros x y. unfold entry_le. apply _. Defined.
Global Instance entry_le_total : Total entry_le.
Proof. intros x y. apply (total ord_le). Qed.
Global Instance entry_le_trans : Transitive entry_le.
Proof. intros x y z. apply (transitivity (R := ord_le)). Qed.

(** [map.iter()] *)
Definition btree_iter (m : gmap K V) : list (K * V) :=
  merge_sort entry_le (map_to_list m).

(** [map.values()] *)
Definition btree_values (m : gmap K V) : list V := (btree_iter m).*2.

(** [set.iter()] *)
Definition bset_iter (s : gset K) : list K := merge_sort ord_le (elements s).

Lemma btree_iter_perm m : btree_iter m ≡ₚ map_to_list m.
Proof. apply merge_sort_Permutation. Qed.

Lemma elem_of_btree_iter m k v : (k, v) ∈ btree_iter m ↔ m !! k = Some v.
Proof. by rewrite btree_iter_perm, elem_of_map_to_list. Qed.

Lemma elem_of_btree_values m v : v ∈ btree_values m ↔ ∃ k, m !! k = Some v.
Proof.
  unfold btree_values. rewrite list_elem_of_fmap. split.
  - intros ([k v'] & -> & Hin). exists k. by apply elem_of_btree_iter.
  - intros [k Hk]. exists (k, v). by rewrite elem_of_btree_iter.
Qed.

Lemma btree_iter_NoDup_keys m : NoDup (btree_iter m).*1.
Proof. rewrite btree_iter_perm. apply NoDup_fst_map_to_list. Qed.

Lemma length_btree_iter m : length (btree_iter m) = size m.
Proof. by rewrite btree_iter_perm, length_map_to_list. Qed.

Lemma list_to_map_btree_iter m : list_to_map (btree_iter m) = m.
Proof.
  rewrite (list_to_map_proper _ (map_to_list m)); [apply list_to_map_to_list| |].
  - apply btree_iter_NoDup_keys.
  - apply btree_iter_perm.
Qed.

Lemma btree_iter_sorted m : StronglySorted entry_le (btree_iter m).
Proof. apply StronglySorted_merge_sort; apply _. Qed.

Lemma btree_iter_empty : btree_iter ∅ = [].
Proof. unfold btree_iter. by rewrite map_to_list_empty. Qed.

Lemma elem_of_bset_iter s k : k ∈ bset_iter s ↔ k ∈ s.
Proof. unfold bset_iter. by rewrite merge_sort_Permutation, elem_of_elements. Qed.

Lemma bset_iter_perm s : bset_iter s ≡ₚ elements s.
Proof. apply merge_sort_Permutation. Qed.

Lemma bset_iter_NoDup s : NoDup (bset_iter s).
Proof. rewrite bset_iter_perm. apply NoDup_elements. Qed.

Lemma list_to_set_bset_iter s : list_to_set (bset_iter s) = s.
Proof. apply set_eq. intros k. by rewrite elem_of_list_to_set, elem_of_bset_iter. Qed.
End btree.

(** ** Collections rebuilt and counted by loops *)

Lemma NoDup_fmap_eq {A B} (f : A → B) (l : list A) x y :
  NoDup (f <$> l) → x ∈ l → y ∈ l → f x = f y → x = y.
Proof.
  intros Hnd [i Hi]%list_elem_of_lookup_1 [j Hj]%list_elem_of_lookup_1 Hf.
  assert (i = j) as ->; [|congruence].
  eapply (NoDup_lookup _ _ _ _ Hnd); rewrite list_lookup_fmap; [by rewrite Hi|]. rewrite Hj. cbn. by rewrite Hf.
Qed.

Section btree_values.
Context {K : Type} `{EqDecision K, Countable K, Ord K} {V : Type}.
Implicit Types m : gmap K V.

Lemma btree_values_perm m : btree_values m ≡ₚ (map_to_list m).*2.
Proof. unfold btree_values. by rewrite btree_iter_perm. Qed.

Lemma btree_values_empty : btree_values (∅ : gmap K V) = [].
Proof. unfold btree_values. by rewrite btree_iter_empty. Qed.

Lemma btree_values_insert m k v :
  m !! k = None → btree_values (<[k := v]> m) ≡ₚ v :: btree_values m.
Proof. intros. by rewrite !btree_values_perm, map_to_list_insert. Qed.

Lemma btree_values_delete m k v :
  m !! k = Some v → btree_values m ≡ₚ v :: btree_values (delete k m).
Proof. intros. by rewrite !btree_values_perm, <-(map_to_list_delete m k v). Qed.
End btree_values.

(** How many elements of [l] have key [k]. *)
Definition count_by {A K} `{EqDecision K} (key : A → K) (k : K) (l : list A) : Z :=
  Z.of_nat (length (filter (λ x, key x = k) l)).

Section count_by.
Context {A K : Type} `{EqDecision K} (key : A → K).

Global Instance count_by_proper k : Proper ((≡ₚ) ==> (=)) (count_by key k).
Proof. intros l l' Hl. unfold count_by. by rewrite Hl. Qed.

Lemma count_by_nil k : count_by key k [] = 0.
Proof. done. Qed.

Lemma count_by_cons k x l :
  count_by key k (x :: l) = (if decide (key x = k) then 1 else 0) + count_by key k l.
Proof. unfold count_by. rewrite filter_cons. case_decide; simpl; lia. Qed.

Lemma count_by_app k l l' : count_by key k (l ++ l') = count_by key k l + count_by key k l'.
Proof. unfold count_by. rewrite filter_app, length_app. lia. Qed.

Lemma count_by_nonneg k l : 0 ≤ count_by key k l.
Proof. unfold count_by. lia. Qed.

Lemma count_by_pos k x l : x ∈ l → key x = k → 1 ≤ count_by key k l.
Proof.
  intros (l1 & l2 & ->)%list_elem_of_split Hk.
  rewrite count_by_app, count_by_cons, decide_True by done.
  pose proof (count_by_nonneg k l1). pose proof (count_by_nonneg k l2). lia.
Qed.
End count_by.

(** [for x in l { m.insert(key(x), x); }] and [for x in l { s.insert(key(x)); }] *)
Definition index_by {A K} `{Countable K} (key : A → K) (m : gmap K A) (l : list A) : gmap K A :=
  foldl (λ m x, <[key x := x]> m) m l.

Definition collect_by {A K} `{Countable K} (key : A → K) (s : gset K) (l : list A) : gset K :=
  foldl (λ s x, {[key x]} ∪ s) s l.

Definition tally_by {A K} `{Countable K} (key : A → K) (m : gmap K Z) (l : list A) : gmap K Z :=
  foldl (λ m x, <[key x := default 0 (m !! key x) + 1]> m) m l.

Section index_by.
Context {A K : Type} `{Countable K} (key : A → K).
Implicit Types l : list A.

Lemma elem_of_collect_by s l k : k ∈ collect_by key s l ↔ k ∈ s ∨ k ∈ key <$> l.
Proof.
  unfold collect_by. revert s. induction l as [|x l IH]; intros s; simpl; [set_solver|].
  rewrite IH. set_solver.
Qed.

Lemma collect_by_eq s l : collect_by key s l = s ∪ list_to_set (key <$> l).
Proof. apply set_eq. intros k. rewrite elem_of_collect_by. set_solver. Qed.

Lemma tally_by_count l m k :
  default 0 (tally_by key m l !! k) = default 0 (m !! k) + count_by key k l.
Proof.
  unfold tally_by. revert m. induction l as [|x l IH]; intros m; simpl.
  { rewrite count_by_nil. lia. }
  rewrite IH, count_by_cons. destruct (decide (key x = k)) as [->|Hne].
  - rewrite lookup_insert_eq. simpl. lia.
  - rewrite lookup_insert_ne by done. lia.
Qed.

Lemma index_by_other m l k : k ∉ key <$> l → index_by key m l !! k = m !! k.
Proof.
  unfold index_by. revert m. induction l as [|x l IH]; intros m; simpl; [done|].
  intros [? ?]%not_elem_of_cons. by rewrite IH, lookup_insert_ne.
Qed.

Lemma lookup_index_by m l k x :
  NoDup (key <$> l) →
  index_by key m l !! k = Some x ↔
  (x ∈ l ∧ key x = k) ∨ (k ∉ key <$> l ∧ m !! k = Some x).
Proof.
  revert m. induction l as [|y l IH]; intros m; simpl.
  { intros _. set_solver. }
  intros [Hy Hnd]%NoDup_cons. unfold index_by in *. simpl. rewrite IH by done.
  rewrite !elem_of_cons, lookup_insert_Some. split.
  - intros [[]|[? [[<- <-]|[]]]]; [naive_solver|naive_solver|].
    right. naive_solver.
  - intros [[[->|?] <-]|[? ?]]; [|naive_solver|naive_solver].
    right. naive_solver.
Qed.

Lemma lookup_index_by_empty l k x :
  NoDup (key <$> l) → index_by key ∅ l !! k = Some x ↔ x ∈ l ∧ key x = k.
Proof.
  intros. rewrite lookup_index_by, lookup_empty by done. naive_solver.
Qed.

(** Keys fresh at every iteration are distinct keys. *)
Lemma fresh_prefix_NoDup s l :
  (∀ pre x post, l = pre ++ x :: post → key x ∉ collect_by key s pre) ↔
  NoDup (key <$> l) ∧ ∀ x, x ∈ l → key x ∉ s.
Proof.
  split.
  - induction l as [|x l IH] using rev_ind; intros Hf.
    { split; [constructor|]. set_solver. }
    destruct IH as [Hnd Hs].
    { intros pre y post ->. apply (Hf pre y (post ++ [x])). by rewrite <-(assoc_L (++)). }
    assert (key x ∉ collect_by key s l) as Hx by (by eapply (Hf l x [])).
    rewrite elem_of_collect_by in Hx. rewrite fmap_app. split.
    + apply NoDup_app. split_and!; [done| |apply NoDup_singleton]. set_solver.
    + set_solver.
  - intros [Hnd Hs] pre x post ->. rewrite elem_of_collect_by.
    rewrite fmap_app in Hnd. apply NoDup_app in Hnd as (_ & Hd & _).
    intros [?|?]; [by apply (Hs x); [set_solver|]|].
    apply (Hd (key x)); [done|]. set_solver.
Qed.

Lemma distinct_prefix_NoDup l :
  (∀ pre x post, l = pre ++ x :: post → key x ∉ key <$> pre) ↔ NoDup (key <$> l).
Proof.
  pose proof (fresh_prefix_NoDup ∅ l) as Hf. setoid_rewrite elem_of_collect_by in Hf.
  split.
  - intros Hp. apply Hf. intros pre x post Hl. specialize (Hp _ _ _ Hl). set_solver.
  - intros Hnd pre x post Hl. destruct Hf as [_ Hf].
    assert (key x ∉@{gset K} ∅) by set_solver.
    refine (λ Hin, Hf _ pre x post Hl (or_intror Hin)). split; [done|]. set_solver.
Qed.

Lemma index_by_None l k : index_by key ∅ l !! k = None ↔ k ∉ key <$> l.
Proof.
  unfold index_by. induction l as [|x l IH] using rev_ind; [set_solver|].
  rewrite foldl_app, fmap_app. cbn. rewrite lookup_insert_None, IH. set_solver.
Qed.

Context `{Ord K}.

Lemma btree_values_keyed_NoDup (m : gmap K A) :
  (∀ k x, m !! k = Some x → key x = k) → NoDup (key <$> btree_values m).
Proof.
  intros Hkey. unfold btree_values. rewrite <-list_fmap_compose.
  rewrite (list_fmap_ext _ fst (btree_iter m)); [apply btree_iter_NoDup_keys|].
  intros i [k x] Hi%list_elem_of_lookup_2%elem_of_btree_iter. by apply Hkey.
Qed.

(** Rebuilding a map from its values, each filed under its own key. *)
Lemma index_by_btree_values (m : gmap K A) :
  (∀ k x, m !! k = Some x → key x = k) → index_by key ∅ (btree_values m) = m.
Proof.
  intros Hkey. apply map_eq. intros k. apply option_eq. intros x.
  rewrite lookup_index_by_empty by (by apply btree_values_keyed_NoDup).
  rewrite elem_of_btree_values. naive_solver.
Qed.
End index_by.

Lemma list_fmap_self {A} (f : A → A) (l : list A) : (∀ x, x ∈ l → f x = x) → f <$> l = l.
Proof.
  induction l as [|x l IH]; intros Hf; [done|].
  cbn. rewrite (Hf x) by set_solver. f_equal. apply IH. set_solver.
Qed.

Lemma prefix_forall {A} (P : A → Prop) l :
  (∀ pre x post, l = pre ++ x :: post → P x) ↔ ∀ x, x ∈ l → P x.
Proof.
  split.
  - intros H x (pre & post & ->)%list_elem_of_split. by eapply H.
  - intros H pre x post ->. apply H. set_solver.
Qed.

Section rebuild.
Context {K : Type} `{EqDecision K, Countable K, Ord K}.

Lemma list_to_set_iff (l : list K) (s : gset K) :
  (NoDup l ∧ s = list_to_set l) ↔ l ≡ₚ bset_iter s.
Proof.
  split.
  - intros [Hnd ->]. apply NoDup_Permutation; [done|apply bset_iter_NoDup|].
    intros x. by rewrite elem_of_bset_iter, elem_of_list_to_set.
  - intros Hl. split; [rewrite Hl; apply bset_iter_NoDup|].
    apply set_eq. intros x. by rewrite elem_of_list_to_set, Hl, elem_of_bset_iter.
Qed.

Lemma index_by_iff {A} (key : A → K) (l : list A) (m : gmap K A) :
  (NoDup (key <$> l) ∧ m = index_by key ∅ l) ↔
  l ≡ₚ btree_values m ∧ ∀ k x, m !! k = Some x → key x = k.
Proof.
  split.
  - intros [Hnd ->].
    assert (Hkey : ∀ k x, index_by key ∅ l !! k = Some x → key x = k).
    { intros k x Hx. by apply lookup_index_by_empty in Hx as [_ ?]. }
    split; [|done]. apply NoDup_Permutation.
    + by eapply NoDup_fmap_1.
    + eapply NoDup_fmap_1. by apply btree_values_keyed_NoDup.
    + intros x. rewrite elem_of_btree_values. split.
      * intros Hx. exists (key x). by apply lookup_index_by_empty.
      * intros [k Hk]. by apply lookup_index_by_empty in Hk as [? _].
  - intros [Hl Hkey]. assert (Hnd : NoDup (key <$> l)).
    { rewrite Hl. by apply btree_values_keyed_NoDup. }
    split; [done|]. apply map_eq. intros k. apply option_eq. intros x.
    rewrite lookup_index_by_empty, Hl, elem_of_btree_values by done. naive_solver.
Qed.

Lemma list_to_map_iff {V} (l : list (K * V)) (m : gmap K V) :
  (NoDup l.*1 ∧ m = foldl (λ m e, <[e.1 := e.2]> m) ∅ l) ↔ l ≡ₚ btree_iter m.
Proof.
  assert (Hfold : ∀ l : list (K * V), NoDup l.*1 → ∀ m0 : gmap K V,
    foldl (λ m e, <[e.1 := e.2]> m) m0 l = list_to_map l ∪ m0).
  { clear l m. induction l as [|[k v] l IH]; intros Hnd m0; cbn in *.
    { by rewrite (left_id_L ∅ (∪)). }
    apply NoDup_cons in Hnd as [Hk Hnd]. rewrite IH by done.
    rewrite <-insert_union_l, insert_union_r; [done|].
    by apply not_elem_of_list_to_map_1. }
  split.
  - intros [Hnd ->]. rewrite Hfold, (right_id_L ∅ (∪)) by done.
    rewrite btree_iter_perm. by rewrite map_to_list_to_map.
  - intros Hl. assert (Hnd : NoDup l.*1) by (rewrite Hl; apply btree_iter_NoDup_keys).
    split; [done|]. rewrite Hfold, (right_id_L ∅ (∪)) by done.
    rewrite <-(list_to_map_btree_iter m). by apply list_to_map_proper; [rewrite <-Hl|].
Qed.
End rebuild.

(** ** Bytes, text and big-endian numbers

    A byte is a [Z] in [[0, 256)]; a [&str] is the list of its UTF-8 bytes. *)

Definition bytes : Type := list Z.
Definition is_byte (b : Z) : Prop := 0 ≤ b < 256.

Fixpoint str (s : string) : bytes :=
  match s with
  | EmptyString => []
  | String a s => Z.of_nat (Ascii.nat_of_ascii a) :: str s
  end.

(** [str::strip_prefix] and [str::starts_with] on the bytes. *)
Fixpoint strip_prefix (p l : bytes) : option bytes :=
  match p, l with
  | [], _ => Some l
  | x :: p, y :: l => if decide (x = y) then strip_prefix p l else None
  | _ :: _, [] => None
  end.

Definition starts_with (p l : bytes) : bool :=
  match strip_prefix p l with Some _ => true | None => false end.

Lemma strip_prefix_Some p l k : strip_prefix p l = Some k ↔ l = p ++ k.
Proof.
  revert l. induction p as [|x p IH]; intros [|y l]; simpl; try naive_solver.
  case_decide; naive_solver.
Qed.

(** The number a digit list denotes, most significant digit first. *)
Definition be_value (base : Z) (l : list Z) : Z := foldl (λ n d, n * base + d) 0 l.

Definition digits (base : Z) (l : list Z) : Prop := Forall (λ d, 0 ≤ d < base) l.

Section be_value.
Context (base : Z) (Hbase : 1 < base).

Lemma be_value_snoc l d : be_value base (l ++ [d]) = be_value base l * base + d.
Proof. unfold be_value. by rewrite foldl_app. Qed.

Lemma be_value_inj l k :
  digits base l → digits base k → length l = length k →
  be_value base l = be_value base k → l = k.
Proof using Hbase.
  revert k. induction l as [|d l IH] using rev_ind; intros k Hl Hk Hlen Hv.
  { by destruct k. }
  destruct k as [|d' k _] using rev_ind.
  { rewrite length_app in Hlen; simpl in Hlen; lia. }
  rewrite !be_value_snoc in Hv. rewrite !length_app in Hlen; simpl in Hlen.
  apply Forall_app in Hl as [Hl Hd], Hk as [Hk Hd'].
  rewrite Forall_singleton in Hd, Hd'.
  destruct (Z.div_mod_unique base (be_value base l) (be_value base k) d d')
    as [Hv' ->]; [left; lia|left; lia|lia|].
  f_equal. apply IH; done || lia.
Qed.

Lemma be_value_bound l : digits base l → 0 ≤ be_value base l < base ^ Z.of_nat (length l).
Proof using Hbase.
  induction l as [|d l IH] using rev_ind; intros Hl; [done|].
  apply Forall_app in Hl as [Hl Hd]. rewrite Forall_singleton in Hd. specialize (IH Hl).
  rewrite be_value_snoc, length_app, Nat2Z.inj_add, Z.pow_add_r by lia.
  simpl. rewrite Z.pow_1_r. nia.
Qed.
End be_value.

(** Shifts, masks and joins of unsigned words as arithmetic. *)
Lemma lor_shiftl_add x y n :
  0 ≤ n → 0 ≤ y < 2 ^ n → Z.lor (Z.shiftl x n) y = x * 2 ^ n + y.
Proof.
  intros Hn Hy. rewrite <-Z.shiftl_mul_pow2 by done. rewrite Z.add_nocarry_lxor.
  - symmetry. apply Z.bits_inj'. intros i Hi. rewrite Z.lxor_spec, Z.lor_spec.
    destruct (decide (i < n)).
    + rewrite Z.shiftl_spec_low by done. by destruct (Z.testbit y i).
    + rewrite <-(Z.mod_small y (2 ^ n)), Z.mod_pow2_bits_high by lia.
      by destruct (Z.testbit _ i).
  - apply Z.bits_inj'. intros i Hi. rewrite Z.land_spec, Z.bits_0.
    destruct (decide (i < n)).
    + by rewrite Z.shiftl_spec_low.
    + rewrite <-(Z.mod_small y (2 ^ n)), Z.mod_pow2_bits_high by lia. apply andb_false_r.
Qed.

Lemma land_mask x n : 0 ≤ n → Z.land x (2 ^ n - 1) = x mod 2 ^ n.
Proof. intros. by rewrite <-Z.land_ones, Z.ones_equiv, Z.sub_1_r by done. Qed.
