(* ===== verification/Domain.v ===== *)
(** * Domain primitives: revisions, UUIDv7 identifiers and public identifiers

    Models [crates/dtx-domain]: [revision.rs], [ids.rs] and [public_id.rs].
    The [uuid], [sha2] and [ed25519-dalek] crates are parameters. *)

From S2P Require Import Prelude.

(** ** [revision.rs] *)

Notation Revision := Z (only parsing).

Module Revision.
Inductive RevisionError : Type := OutOfRange | Overflow.

Definition INITIAL : Revision := 1.
Definition MAX : Z := Z.shiftl 1 53 - 1.

Definition new (value : Z) : result RevisionError Revision :=
  reject OutOfRange when (value = 0 ∨ value > MAX);;
  Ok value.

Definition checked_next (self : Revision) : result RevisionError Revision :=
  reject Overflow when (self = MAX);;
  Ok (self + 1).

Definition valid (r : Revision) : Prop := 1 ≤ r ≤ MAX.

Lemma MAX_value : MAX = 2 ^ 53 - 1.
Proof. done. Qed.

Lemma checked_next_Ok r r' : checked_next r = Ok r' ↔ r ≠ MAX ∧ r' = r + 1.
Proof. unfold checked_next, reject_if. case_decide; naive_solver. Qed.

Lemma checked_next_valid r r' : valid r → checked_next r = Ok r' → valid r'.
Proof. unfold valid. intros ? [? ->]%checked_next_Ok. lia. Qed.
End Revision.

(** ** [ids.rs]: one type per identifier kind *)

Inductive IdKind : Type :=
| KTenant | KEvent | KRequest | KAudit | KOutbox | KSecret | KAggregate | KDevice
| KDeviceSessionChallenge | KDeviceSession | KKeyPackage | KMailbox | KEnvelope
| KDeviceEnrollmentChallenge | KConversation | KInstallation | KInviteCapability
| KAgentDevice | KHost | KConnector | KEnrollmentIntent | KConnectorCredential
| KBoot | KLease | KBinding | KGrant | KHostCredential | KConsent | KApproval
| KProvisioningDelivery | KProvisioningRecipientKey | KAgentRouteBootstrap
| KAgentRouteRecipient | KAgentRouteDelivery | KRouteHealthKey | KRun | KRunOffer
| KRunLease | KArtifact | KJob | KJobStep | KJobEvidence | KJoinRequest | KWorker
| KCloudConnection | KJobResource | KManagedService | KServiceOperation
| KDirectoryRegistration | KIndexer.

(** A UUID is its 128-bit value; [Uuid]'s order is that of its bytes. *)
Record UuidV7Id (k : IdKind) : Type := UuidV7 { as_uuid : Z }.
Arguments UuidV7 {k} _.
Arguments as_uuid {k} _.

Global Instance as_uuid_inj k : Inj (=) (=) (as_uuid (k := k)).
Proof. intros [x] [y]; simpl; congruence. Qed.
Global Instance UuidV7Id_eq_dec k : EqDecision (UuidV7Id k).
Proof. solve_decision. Defined.
Global Program Instance UuidV7Id_countable k : Countable (UuidV7Id k) :=
  inj_countable' as_uuid UuidV7 _.
Next Obligation. by intros k []. Qed.
Global Instance UuidV7Id_ord k : Ord (UuidV7Id k) := ord_by as_uuid.

Notation TenantId := (UuidV7Id KTenant).
Notation DeviceId := (UuidV7Id KDevice).
Notation ConversationId := (UuidV7Id KConversation).
Notation InviteCapabilityId := (UuidV7Id KInviteCapability).
Notation JoinRequestId := (UuidV7Id KJoinRequest).
Notation InstallationId := (UuidV7Id KInstallation).
Notation HostId := (UuidV7Id KHost).
Notation ConnectorId := (UuidV7Id KConnector).
Notation BindingId := (UuidV7Id KBinding).
Notation BootId := (UuidV7Id KBoot).
Notation LeaseId := (UuidV7Id KLease).
Notation RunId := (UuidV7Id KRun).
Notation RunOfferId := (UuidV7Id KRunOffer).
Notation RunLeaseId := (UuidV7Id KRunLease).

(** Parsing, over the [uuid] crate. *)
Module UuidV7.
Inductive IdParseError : Type :=
| InvalidUuid
| NonCanonicalText
| UnsupportedVersion (actual : option Z)
| UnsupportedVariant (actual : Z).

Section parse.
(** [Uuid::parse_str], [Uuid::hyphenated().to_string()],
    [Uuid::get_variant] (with the number of [Variant::RFC4122]) and
    [Uuid::get_version_num]. *)
Context (parse_str : bytes → option Z) (hyphenated : Z → bytes)
  (get_variant get_version_num : Z → Z) (RFC4122 : Z).

Definition parse_uuid_v7 (value : bytes) : result IdParseError Z :=
  uuid ← ok_or (parse_str value) InvalidUuid;
  reject NonCanonicalText when (hyphenated uuid ≠ value);;
  let actual_variant := get_variant uuid in
  reject (UnsupportedVariant actual_variant) when (actual_variant ≠ RFC4122);;
  let actual := Some (get_version_num uuid) in
  reject (UnsupportedVersion actual) when (actual ≠ Some 7);;
  Ok uuid.

Definition from_str {k} (value : bytes) : result IdParseError (UuidV7Id k) :=
  UuidV7 <$> parse_uuid_v7 value.

Definition to_string {k} (id : UuidV7Id k) : bytes := hyphenated (as_uuid id).

Definition try_from_uuid {k} (value : Z) : result IdParseError (UuidV7Id k) :=
  from_str (hyphenated value).

(** The values that [from_str] accepts: the domain's identifiers. *)
Definition valid {k} (id : UuidV7Id k) : Prop :=
  get_variant (as_uuid id) = RFC4122 ∧ get_version_num (as_uuid id) = 7.

Lemma from_str_canonical {k} value (id : UuidV7Id k) :
  from_str value = Ok id → to_string id = value ∧ valid id.
Proof.
  unfold from_str, parse_uuid_v7. intros H.
  destruct (parse_str value) as [u|]; [|done]; simpl in H.
  unfold reject_if in H. repeat case_decide; simplify_eq/=.
  unfold to_string, valid; simpl.
  split_and!; apply dec_stable; congruence.
Qed.

(** The documented law of the crate: [parse_str] reads back what
    [hyphenated] prints. *)
Context (parse_hyphenated : ∀ u, parse_str (hyphenated u) = Some u).

Lemma uuid_from_str_to_string {k} (id : UuidV7Id k) :
  valid id → from_str (to_string id) = Ok id.
Proof using parse_hyphenated.
  intros [Hvar Hver]. unfold from_str, parse_uuid_v7, to_string.
  rewrite parse_hyphenated; simpl. unfold reject_if.
  rewrite !decide_False by (rewrite ?Hvar, ?Hver; tauto). by destruct id.
Qed.
End parse.
End UuidV7.

(** ** [public_id.rs] *)

Module PublicId.
Definition PUBLIC_ID_LENGTH : nat := 57.
Definition ENCODED_DIGEST_LENGTH : nat := 52.
Definition BASE32_ALPHABET : bytes := str "abcdefghijklmnopqrstuvwxyz234567".

Inductive PublicIdParseError : Type :=
| InvalidLength (actual : nat)
| InvalidPrefix (expected : bytes)
| InvalidCharacter
| NonCanonicalTrailingBits.

(** [u16] shift and the [buffer &= ...] mask of both loops. *)
Definition u16_shl (x n : Z) : Z := Z.land (Z.shiftl x n) u16_max.
Definition keep_low (buffer bits : Z) : Z :=
  Z.land buffer (if decide (bits = 0) then 0 else Z.shiftl 1 bits - 1).

(** The state of both loops; [output] is the part of the array that is filled
    in, so [output_index] is its length. *)
Record b32 : Type := B32 { output : bytes; buffer : Z; bits : Z }.

Definition alphabet_at (i : Z) : Z := BASE32_ALPHABET !!! Z.to_nat i.

(** [while bits >= 5]: an iteration takes 5 bits away, so [bits] itself is
    enough fuel. *)
Fixpoint encode_drain (fuel : nat) (s : b32) : b32 :=
  match fuel with
  | O => s
  | S fuel =>
      if decide (s.(bits) >= 5) then
        let bits := s.(bits) - 5 in
        let alphabet_index := Z.land (Z.shiftr s.(buffer) bits) 0x1f in
        encode_drain fuel
          (B32 (s.(output) ++ [alphabet_at alphabet_index])
               (keep_low s.(buffer) bits) bits)
      else s
  end.

Definition encode_byte (s : b32) (byte : Z) : b32 :=
  let buffer := Z.lor (u16_shl s.(buffer) 8) byte in
  let bits := s.(bits) + 8 in
  encode_drain (Z.to_nat bits) (B32 s.(output) buffer bits).

Definition encode_base32 (digest : bytes) : bytes :=
  let s := foldl encode_byte (B32 [] 0 0) digest in
  if decide (s.(bits) > 0) then
    let alphabet_index := Z.land (u16_shl s.(buffer) (5 - s.(bits))) 0x1f in
    s.(output) ++ [alphabet_at alphabet_index]
  else s.(output).

(** [BASE32_ALPHABET.iter().position(..)] *)
Definition alphabet_position (character : Z) : option Z :=
  (λ p, Z.of_nat p.1) <$> list_find (eq character) BASE32_ALPHABET.

Definition decode_char (s : b32) (character : Z) : result PublicIdParseError b32 :=
  alphabet_index ← ok_or (alphabet_position character) InvalidCharacter;
  let buffer := Z.lor (u16_shl s.(buffer) 5) alphabet_index in
  let bits := s.(bits) + 5 in
  if decide (bits >= 8) then
    let bits := bits - 8 in
    let output :=
      if decide (length s.(output) < 32)%nat
      then s.(output) ++ [Z.shiftr buffer bits] else s.(output) in
    Ok (B32 output (keep_low buffer bits) bits)
  else Ok (B32 s.(output) buffer bits).

Definition decode_base32 (value : bytes) : result PublicIdParseError bytes :=
  s ← try_fold decode_char value (B32 [] 0 0);
  reject NonCanonicalTrailingBits
    when (length s.(output) ≠ 32%nat ∨ s.(bits) ≠ 4 ∨ s.(buffer) ≠ 0);;
  Ok s.(output).

Definition parse_public_id (prefix value : bytes) : result PublicIdParseError bytes :=
  reject (InvalidLength (length value)) when (length value ≠ PUBLIC_ID_LENGTH);;
  encoded ← ok_or (strip_prefix prefix value) (InvalidPrefix prefix);
  decode_base32 encoded.
End PublicId.

Module Base32.
Import PublicId.

(** The loops move bits between [output] and [buffer] and lose none: read as
    base-[2^w] digits, [output] followed by [buffer] is always the number
    read so far. *)
Definition holds (w : Z) (ds : list Z) (buffer bits v n : Z) : Prop :=
  digits (2 ^ w) ds ∧ 0 ≤ bits ∧ 0 ≤ buffer < 2 ^ bits ∧
  be_value (2 ^ w) ds * 2 ^ bits + buffer = v ∧
  w * Z.of_nat (length ds) + bits = n.

Lemma u16_shl_small x n : 0 ≤ n → 0 ≤ x → x * 2 ^ n < 2 ^ 16 → u16_shl x n = Z.shiftl x n.
Proof.
  intros. unfold u16_shl, u16_max. rewrite land_mask, Z.shiftl_mul_pow2 by done.
  apply Z.mod_small. lia.
Qed.

Lemma keep_low_mod buffer bits : 0 ≤ bits → keep_low buffer bits = buffer mod 2 ^ bits.
Proof.
  intros. unfold keep_low. case_decide as Hb.
  - subst. by rewrite Z.land_0_r, Z.mod_1_r.
  - by rewrite Z.shiftl_mul_pow2, Z.mul_1_l, land_mask.
Qed.

(** Taking one digit out of the buffer. *)
Lemma holds_emit w ds buffer bits v n :
  0 < w ≤ bits → holds w ds buffer bits v n →
  0 ≤ Z.shiftr buffer (bits - w) < 2 ^ w ∧
  holds w (ds ++ [Z.shiftr buffer (bits - w)]) (buffer mod 2 ^ (bits - w)) (bits - w) v n.
Proof.
  intros Hw (Hds & Hb & Hbuf & Hv & Hn). rewrite Z.shiftr_div_pow2 by lia.
  assert (Hp : 2 ^ bits = 2 ^ w * 2 ^ (bits - w)).
  { rewrite <-Z.pow_add_r by lia. f_equal. lia. }
  assert (0 < 2 ^ (bits - w)) by (apply Z.pow_pos_nonneg; lia).
  assert (Hd : 0 ≤ buffer / 2 ^ (bits - w) < 2 ^ w).
  { split; [apply Z.div_pos; lia|]. apply Z.div_lt_upper_bound; lia. }
  split; [done|]. split; [|split; [|split; [|split]]].
  - apply Forall_app. split; [done|]. by apply Forall_singleton.
  - lia.
  - apply Z.mod_pos_bound. lia.
  - rewrite be_value_snoc. rewrite <-Hv, Hp.
    rewrite (Z.div_mod buffer (2 ^ (bits - w))) at 3 by lia. ring.
  - rewrite length_app; simpl. lia.
Qed.

(** Reading [k] more bits into the buffer. *)
Lemma holds_push w k ds buffer bits v n d :
  0 ≤ k → 0 ≤ d < 2 ^ k → holds w ds buffer bits v n →
  holds w ds (Z.lor (Z.shiftl buffer k) d) (bits + k) (v * 2 ^ k + d) (n + k).
Proof.
  intros Hk Hd (Hds & Hb & Hbuf & <- & <-). rewrite lor_shiftl_add by done.
  assert (0 < 2 ^ k) by (apply Z.pow_pos_nonneg; lia).
  unfold holds. rewrite Z.pow_add_r by lia.
  split; [|split; [|split; [|split]]]; [done|lia|nia|ring|lia].
Qed.

Lemma holds_nil w : holds w [] 0 0 0 0.
Proof. unfold holds, digits. rewrite Z.mul_0_r. split_and!; done || apply Forall_nil_2. Qed.

Lemma encode_drain_holds fuel ds s v n :
  s.(output) = alphabet_at <$> ds → holds 5 ds s.(buffer) s.(bits) v n →
  s.(bits) ≤ Z.of_nat fuel →
  ∃ ds', (encode_drain fuel s).(output) = alphabet_at <$> ds' ∧
    holds 5 ds' (encode_drain fuel s).(buffer) (encode_drain fuel s).(bits) v n ∧
    (encode_drain fuel s).(bits) < 5.
Proof.
  revert ds s. induction fuel as [|fuel IH]; intros ds s Hout Hs Hf; simpl.
  { exists ds. split_and!; [done..|]. destruct Hs as (_ & ? & _). lia. }
  case_decide; [|exists ds; split_and!; [done..|lia]].
  destruct (holds_emit 5 ds s.(buffer) s.(bits) v n) as [Hd Hs']; [lia|done|].
  apply (IH (ds ++ [Z.shiftr s.(buffer) (s.(bits) - 5)])); simpl.
  - rewrite Hout, fmap_app; simpl. do 2 f_equal.
    change 31 with (2 ^ 5 - 1). by rewrite land_mask, Z.mod_small.
  - by rewrite keep_low_mod by lia.
  - lia.
Qed.

Lemma encode_loop_holds digest :
  digits 256 digest →
  ∃ ds, let s := foldl encode_byte (B32 [] 0 0) digest in
    s.(output) = alphabet_at <$> ds ∧
    holds 5 ds s.(buffer) s.(bits) (be_value 256 digest) (8 * Z.of_nat (length digest)) ∧
    s.(bits) < 5.
Proof.
  induction digest as [|b digest IH] using rev_ind; intros Hd.
  { exists []. split; [done|]. split; [apply holds_nil|done]. }
  apply Forall_app in Hd as [Hd Hb]. rewrite Forall_singleton in Hb.
  destruct (IH Hd) as (ds & Hout & Hs & Hlt). rewrite foldl_app; simpl.
  set (s := foldl _ _ digest) in *.
  rewrite be_value_snoc, length_app, Nat2Z.inj_add, Z.mul_add_distr_l.
  destruct (Hs) as (_ & Hb0 & Hbuf & _ & _).
  assert (2 ^ s.(bits) ≤ 2 ^ 4) by (apply Z.pow_le_mono_r; lia).
  unfold encode_byte.
  apply encode_drain_holds with (ds := ds); simpl; [done| |lia].
  rewrite u16_shl_small by lia. by apply (holds_push 5 8).
Qed.

(** A digest's encoding is the 52-digit numeral of [16 * digest]. *)
Lemma encode_base32_digits digest :
  digits 256 digest → length digest = 32%nat →
  ∃ ds, encode_base32 digest = alphabet_at <$> ds ∧ digits 32 ds ∧
    length ds = ENCODED_DIGEST_LENGTH ∧ be_value 32 ds = be_value 256 digest * 16.
Proof.
  intros Hd Hlen. destruct (encode_loop_holds digest Hd) as (ds & Hout & Hs & Hlt).
  unfold encode_base32. set (s := foldl _ _ digest) in *.
  destruct Hs as (Hds & Hb & Hbuf & Hv & Hn). rewrite Hlen in Hn.
  assert (s.(bits) = 1 ∧ length ds = 51%nat) as [Hbits Hl] by lia.
  rewrite Hbits in *. rewrite decide_True by lia.
  change 31 with (2 ^ 5 - 1). rewrite land_mask, u16_shl_small, Z.shiftl_mul_pow2 by lia.
  rewrite Z.mod_small by lia. exists (ds ++ [s.(buffer) * 2 ^ (5 - 1)]). split_and!.
  - by rewrite Hout, fmap_app.
  - apply Forall_app. split; [done|]. apply Forall_singleton. lia.
  - by rewrite length_app, Hl.
  - rewrite be_value_snoc. change (2 ^ 5) with 32 in Hv. lia.
Qed.

(** The alphabet is read back by [position]. *)
Lemma alphabet_position_at i : 0 ≤ i < 32 → alphabet_position (alphabet_at i) = Some i.
Proof.
  intros Hi. cut (∀ n, (n < 32)%nat →
    alphabet_position (alphabet_at (Z.of_nat n)) = Some (Z.of_nat n)).
  { intros H. rewrite <-(Z2Nat.id i) by lia. apply H. lia. }
  intros n Hn. do 32 (destruct n as [|n]; [reflexivity|]). lia.
Qed.

Lemma alphabet_position_Some c i :
  alphabet_position c = Some i → c = alphabet_at i ∧ 0 ≤ i < 32.
Proof.
  unfold alphabet_position. intros ([n x] & Hfind & ->)%fmap_Some.
  apply list_find_Some in Hfind as (Hn & <- & _). simpl.
  pose proof (lookup_lt_Some _ _ _ Hn) as Hlt. simpl in Hlt.
  unfold alphabet_at. rewrite Nat2Z.id. split; [|lia].
  by rewrite (list_lookup_total_correct _ _ _ Hn).
Qed.

Lemma decode_char_holds s ds d :
  holds 8 s.(output) s.(buffer) s.(bits) (be_value 32 ds) (5 * Z.of_nat (length ds)) →
  s.(bits) < 8 → 0 ≤ d < 32 → (length ds < 52)%nat →
  ∃ s', decode_char s (alphabet_at d) = Ok s' ∧ s'.(bits) < 8 ∧
    holds 8 s'.(output) s'.(buffer) s'.(bits)
      (be_value 32 (ds ++ [d])) (5 * Z.of_nat (length (ds ++ [d]))).
Proof.
  intros Hs Hlt Hd Hlen. unfold decode_char.
  rewrite alphabet_position_at by done. cbn [ok_or mbind result_bind].
  rewrite be_value_snoc, length_app, Nat2Z.inj_add, Z.mul_add_distr_l.
  destruct (Hs) as (_ & Hb & Hbuf & _ & Hn).
  assert (2 ^ s.(bits) ≤ 2 ^ 7) by (apply Z.pow_le_mono_r; lia).
  rewrite u16_shl_small by lia.
  apply (holds_push 8 5) with (d := d) in Hs; [|lia..].
  case_decide.
  - rewrite decide_True by lia. eexists. split; [done|]; simpl. split; [lia|].
    rewrite keep_low_mod by lia. by apply holds_emit; [lia|].
  - eexists. split; [done|]; simpl. split; [lia|]. done.
Qed.

Lemma decode_loop_holds ds :
  digits 32 ds → (length ds ≤ 52)%nat →
  ∃ s, try_fold decode_char (alphabet_at <$> ds) (B32 [] 0 0) = Ok s ∧ s.(bits) < 8 ∧
    holds 8 s.(output) s.(buffer) s.(bits) (be_value 32 ds) (5 * Z.of_nat (length ds)).
Proof.
  induction ds as [|d ds IH] using rev_ind; intros Hd Hlen.
  { eexists. split; [done|]. split; [done|]. apply holds_nil. }
  apply Forall_app in Hd as [Hd Hb]. rewrite Forall_singleton in Hb.
  rewrite length_app in Hlen; simpl in Hlen.
  destruct IH as (s & Hrun & Hlt & Hs); [done|lia|].
  rewrite fmap_app, try_fold_app, Hrun. simpl.
  destruct (decode_char_holds s ds d) as (s' & -> & ? & ?); [done|done|done|lia|].
  by exists s'.
Qed.

(** Decoding 52 digits succeeds exactly when the numeral is a multiple of 16. *)
Lemma decode_base32_digits ds :
  digits 32 ds → length ds = 52%nat →
  match decode_base32 (alphabet_at <$> ds) with
  | Ok out => digits 256 out ∧ length out = 32%nat ∧ be_value 256 out * 16 = be_value 32 ds
  | Err e => e = NonCanonicalTrailingBits ∧ be_value 32 ds mod 16 ≠ 0
  end.
Proof.
  intros Hd Hlen. unfold decode_base32.
  destruct (decode_loop_holds ds) as (s & -> & Hlt & Hs); [done|lia|].
  destruct Hs as (Hout & Hb & Hbuf & Hv & Hn). rewrite Hlen in Hn.
  assert (s.(bits) = 4 ∧ length s.(output) = 32%nat) as [Hbits Hl] by lia.
  rewrite Hbits in *. change (2 ^ 8) with 256 in *. simpl. unfold reject_if.
  case_decide as Hc; simpl.
  - split; [done|]. rewrite <-Hv, Z.add_comm, Z.mod_add, Z.mod_small by lia. tauto.
  - split_and!; [done|done|lia].
Qed.

Lemma decode_base32_chars value out :
  decode_base32 value = Ok out →
  ∃ ds, value = alphabet_at <$> ds ∧ digits 32 ds.
Proof.
  unfold decode_base32. intros (s & Hrun & _)%result_bind_Ok.
  revert Hrun. generalize (B32 [] 0 0). induction value as [|c value IH]; intros s0; simpl.
  { intros _. exists []. split; [done|]. apply Forall_nil_2. }
  unfold decode_char at 1. destruct (alphabet_position c) as [i|] eqn:Hi; [|done].
  apply alphabet_position_Some in Hi as [-> Hi]. cbn [ok_or mbind result_bind].
  case_decide; intros Hrun; apply IH in Hrun as (ds & -> & Hds);
    exists (i :: ds); (split; [done|]); by apply Forall_cons.
Qed.

Lemma decode_encode digest :
  digits 256 digest → length digest = 32%nat →
  decode_base32 (encode_base32 digest) = Ok digest.
Proof.
  intros Hd Hlen.
  destruct (encode_base32_digits digest Hd Hlen) as (ds & -> & Hds & Hl & Hv).
  pose proof (decode_base32_digits ds Hds Hl) as Hdec.
  destruct (decode_base32 _) as [out|e].
  - destruct Hdec as (Hout & Hlo & Hvo). f_equal.
    apply (be_value_inj 256); [lia|done..|congruence|lia].
  - destruct Hdec as [_ []]. rewrite Hv. by apply Z.mod_mul.
Qed.

Lemma encode_decode value out :
  length value = 52%nat → decode_base32 value = Ok out →
  digits 256 out ∧ length out = 32%nat ∧ encode_base32 out = value.
Proof.
  intros Hlen Hdec.
  destruct (decode_base32_chars _ _ Hdec) as (ds & -> & Hds). rewrite length_fmap in Hlen.
  pose proof (decode_base32_digits ds Hds Hlen) as H. rewrite Hdec in H.
  destruct H as (Hout & Hlo & Hv). split_and!; [done..|].
  destruct (encode_base32_digits out Hout Hlo) as (ds' & -> & Hds' & Hl' & Hv').
  f_equal. apply (be_value_inj 32); [lia|done..| |lia].
  by rewrite Hl'.
Qed.
End Base32.

(** ** The public identifier types *)

Inductive PublicKind : Type := KIdentity | KChannel | KAgent.

Record PublicIdOf (k : PublicKind) : Type := MkPublicId { digest_bytes : bytes }.
Arguments MkPublicId {k} _.
Arguments digest_bytes {k} _.

Global Instance digest_bytes_inj k : Inj (=) (=) (digest_bytes (k := k)).
Proof. intros [x] [y]; simpl; congruence. Qed.
Global Instance PublicIdOf_eq_dec k : EqDecision (PublicIdOf k).
Proof. solve_decision. Defined.
Global Program Instance PublicIdOf_countable k : Countable (PublicIdOf k) :=
  inj_countable' digest_bytes MkPublicId _.
Next Obligation. by intros k []. Qed.
Global Instance PublicIdOf_ord k : Ord (PublicIdOf k) := ord_by digest_bytes.

Notation IdentityId := (PublicIdOf KIdentity).
Notation ChannelId := (PublicIdOf KChannel).
Notation AgentId := (PublicIdOf KAgent).

Module PublicIds.
Import PublicId.

(** The [$prefix] and [$domain] of the three [define_public_id!] uses. *)
Definition prefix (k : PublicKind) : bytes :=
  match k with
  | KIdentity => str "dtxi1"
  | KChannel => str "dtxc1"
  | KAgent => str "dtxa1"
  end.

Definition domain (k : PublicKind) : bytes :=
  match k with
  | KIdentity => str "dirextalk.identity.v1" ++ [0]
  | KChannel => str "dirextalk.channel.v1" ++ [0]
  | KAgent => str "dirextalk.agent.v1" ++ [0]
  end.

(** A digest is a [[u8; 32]]. *)
Definition valid {k} (id : PublicIdOf k) : Prop :=
  digits 256 (digest_bytes id) ∧ length (digest_bytes id) = 32%nat.

Definition to_string {k} (id : PublicIdOf k) : bytes :=
  prefix k ++ encode_base32 (digest_bytes id).

Definition from_str (k : PublicKind) (value : bytes) :
    result PublicIdParseError (PublicIdOf k) :=
  MkPublicId <$> parse_public_id (prefix k) value.

Section derive.
(** [sha2::Sha256] over the concatenation of the updates. *)
Context (sha256 : bytes → bytes).

Definition derive_digest (domain key : bytes) : bytes := sha256 (domain ++ key).
Definition derive (k : PublicKind) (key : bytes) : PublicIdOf k :=
  MkPublicId (derive_digest (domain k) key).
Definition verify_subject_key {k} (id : PublicIdOf k) (key : bytes) : bool :=
  bool_decide (id = derive k key).
End derive.

(** [PublicSubjectId] *)
Inductive PublicSubjectId : Type :=
| Identity (id : IdentityId)
| Channel (id : ChannelId)
| Agent (id : AgentId).

Global Instance PublicSubjectId_eq_dec : EqDecision PublicSubjectId.
Proof. solve_decision. Defined.

Definition subject_to_string (s : PublicSubjectId) : bytes :=
  match s with
  | Identity id => to_string id
  | Channel id => to_string id
  | Agent id => to_string id
  end.

Definition subject_valid (s : PublicSubjectId) : Prop :=
  match s with Identity id => valid id | Channel id => valid id | Agent id => valid id end.

Definition subject_from_str (value : bytes) : result PublicIdParseError PublicSubjectId :=
  if starts_with (str "dtxi1") value then Identity <$> from_str KIdentity value
  else if starts_with (str "dtxc1") value then Channel <$> from_str KChannel value
  else if starts_with (str "dtxa1") value then Agent <$> from_str KAgent value
  else Err (InvalidPrefix (str "dtxi1, dtxc1, or dtxa1")).

Lemma length_prefix k : length (prefix k) = 5%nat.
Proof. by destruct k. Qed.

Lemma strip_prefix_app p l : strip_prefix p (p ++ l) = Some l.
Proof. by apply strip_prefix_Some. Qed.

Lemma from_str_to_string {k} (id : PublicIdOf k) :
  valid id → from_str k (to_string id) = Ok id.
Proof.
  intros [Hd Hlen]. unfold from_str, parse_public_id, to_string.
  destruct (Base32.encode_base32_digits _ Hd Hlen) as (ds & He & _ & Hl & _).
  assert (length (encode_base32 (digest_bytes id)) = 52%nat) as Hel
    by (by rewrite He, length_fmap).
  unfold reject_if. rewrite decide_False.
  2: { rewrite length_app, length_prefix, Hel. unfold PUBLIC_ID_LENGTH. lia. }
  cbn [mbind result_bind]. rewrite strip_prefix_app. cbn [ok_or mbind result_bind].
  rewrite Base32.decode_encode by done. by destruct id.
Qed.

Lemma from_str_Ok k value (id : PublicIdOf k) :
  from_str k value = Ok id → valid id ∧ to_string id = value.
Proof.
  unfold from_str, parse_public_id. intros H.
  unfold reject_if in H. case_decide as Hlen; [done|].
  cbn [mbind result_bind] in H.
  destruct (strip_prefix (prefix k) value) as [e|] eqn:Hp; [|done].
  apply strip_prefix_Some in Hp as ->. cbn [ok_or mbind result_bind] in H.
  rewrite length_app, length_prefix in Hlen. unfold PUBLIC_ID_LENGTH in Hlen.
  destruct (decode_base32 e) as [out|] eqn:Hd; [|done]. simplify_eq/=.
  apply Base32.encode_decode in Hd as (Hdig & Hl & He); [|lia].
  split; [done|]. unfold to_string; simpl. by rewrite He.
Qed.

(** Public identifiers have exactly one spelling: a text parses as a
    subject of some kind if and only if it is what that subject prints as.
    Parsing therefore inverts printing, rejects every other spelling of the
    same digest (non-zero trailing bits, upper case, wrong length), and the
    three kinds never accept each other's text. *)
Theorem public_subject_text_canonical value s :
  subject_from_str value = Ok s ↔ subject_valid s ∧ subject_to_string s = value.
Proof.
  unfold subject_from_str. split.
  - unfold starts_with.
    destruct (strip_prefix (str "dtxi1") value); [|
      destruct (strip_prefix (str "dtxc1") value); [|
        destruct (strip_prefix (str "dtxa1") value); [|done]]];
    (destruct (from_str _ value) as [id|] eqn:Hf; [|done]); intros [= <-];
    by apply from_str_Ok in Hf.
  - intros [Hv <-]. destruct s as [id|id|id]; simpl in *;
      by rewrite from_str_to_string.
Qed.
End PublicIds.
