(* ===== verification/GroupPolicy.v ===== *)
(** * Group authorization policy: data and commands

    Models [crates/dtx-group-policy/src/policy/types.rs] and [aggregate.rs]:
    the owner/administrator/member roles of one group, its invitations, and the
    join workflow pending -> reserved -> approved.  A [&mut self] method is an
    [ST] program over the aggregate, so an error keeps whatever the method had
    assigned before returning it. *)

From S2P Require Import Prelude Domain.

Definition MAX_ADMINS : nat := 5.

Inductive GroupScope : Type :=
| PrivateConversation (id : ConversationId)
| ControlledPublicChannel (id : ChannelId).

Inductive GroupRole : Type := RoleOwner | RoleAdmin | RoleMember.

Inductive InviteIssuerAuthority : Type :=
| AuthorityOwner
| AuthorityAdmin (authorization_generation : Revision).

Record InviteCapability : Type := {
  inv_invite_id : InviteCapabilityId;
  inv_scope : GroupScope;
  inv_issuer_id : IdentityId;
  inv_target_id : option IdentityId;
  inv_max_uses : Z;
  inv_use_count : Z;
  inv_reserved_use_count : Z;
  inv_expires_at_ms : Z;
  inv_revoked : bool;
  inv_policy_revision : Revision;
  inv_issuer_authority : InviteIssuerAuthority
}.

Record PendingJoinRequest : Type := {
  pend_request_id : JoinRequestId;
  pend_candidate_id : IdentityId;
  pend_invite_id : InviteCapabilityId;
  pend_requested_at_ms : Z
}.

Record ReservedJoin : Type := {
  res_request_id : JoinRequestId;
  res_candidate_id : IdentityId;
  res_invite_id : InviteCapabilityId;
  res_reserved_by : IdentityId;
  res_reserved_authority : InviteIssuerAuthority;
  res_reserved_at_ms : Z;
  res_policy_revision : Revision
}.

Record ApprovedJoin : Type := {
  app_request_id : JoinRequestId;
  app_candidate_id : IdentityId;
  app_invite_id : InviteCapabilityId;
  app_approved_by : IdentityId;
  app_approved_at_ms : Z;
  app_policy_revision : Revision
}.

(** [issuer_admin_authorization_generation] and
    [reserved_admin_authorization_generation] *)
Definition admin_authorization_generation (a : InviteIssuerAuthority) : option Revision :=
  match a with AuthorityOwner => None | AuthorityAdmin g => Some g end.

Inductive GroupPolicyError : Type :=
| RevisionConflict (current : Revision)
| Unauthorized
| OwnerCannotBeAdmin
| OwnerCannotBeRemoved
| AlreadyAdmin
| NotAdmin
| AdminLimitReached
| CounterExhausted
| InviteAlreadyExists
| InvalidInviteUseLimit
| InvalidInviteExpiry
| InviteNotFound
| InviteAlreadyRevoked
| AlreadyMember
| MemberNotFound
| JoinRequestAlreadyPending
| CandidateJoinInFlight
| PendingJoinNotFound
| AlreadyApproved
| JoinAlreadyReserved
| ReservedJoinNotFound
| ReservationInvariantViolation
| InviteTargetMismatch
| InviteExpired
| InviteRevoked
| InviteUseLimitReached
| InviteIssuerNoLongerAuthorized.

Record GroupPolicy : Type := {
  scope : GroupScope;
  owner_id : IdentityId;
  administrators : gset IdentityId;
  administrator_authorization_generations : gmap IdentityId Revision;
  members : gset IdentityId;
  invitations : gmap InviteCapabilityId InviteCapability;
  pending_joins : gmap JoinRequestId PendingJoinRequest;
  reserved_joins : gmap JoinRequestId ReservedJoin;
  approved_joins : gmap JoinRequestId ApprovedJoin;
  revision : Revision
}.

Global Instance GroupScope_eq_dec : EqDecision GroupScope.
Proof. solve_decision. Defined.
Global Instance InviteIssuerAuthority_eq_dec : EqDecision InviteIssuerAuthority.
Proof. solve_decision. Defined.
Global Instance InviteCapability_eq_dec : EqDecision InviteCapability.
Proof. solve_decision. Defined.

(** The fields the methods assign. *)
Global Instance inv_use_count_field : Field inv_use_count := λ f i,
  {| inv_invite_id := i.(inv_invite_id); inv_scope := i.(inv_scope);
     inv_issuer_id := i.(inv_issuer_id); inv_target_id := i.(inv_target_id);
     inv_max_uses := i.(inv_max_uses); inv_use_count := f i.(inv_use_count);
     inv_reserved_use_count := i.(inv_reserved_use_count);
     inv_expires_at_ms := i.(inv_expires_at_ms); inv_revoked := i.(inv_revoked);
     inv_policy_revision := i.(inv_policy_revision);
     inv_issuer_authority := i.(inv_issuer_authority) |}.
Global Instance inv_reserved_use_count_field : Field inv_reserved_use_count := λ f i,
  {| inv_invite_id := i.(inv_invite_id); inv_scope := i.(inv_scope);
     inv_issuer_id := i.(inv_issuer_id); inv_target_id := i.(inv_target_id);
     inv_max_uses := i.(inv_max_uses); inv_use_count := i.(inv_use_count);
     inv_reserved_use_count := f i.(inv_reserved_use_count);
     inv_expires_at_ms := i.(inv_expires_at_ms); inv_revoked := i.(inv_revoked);
     inv_policy_revision := i.(inv_policy_revision);
     inv_issuer_authority := i.(inv_issuer_authority) |}.
Global Instance inv_revoked_field : Field inv_revoked := λ f i,
  {| inv_invite_id := i.(inv_invite_id); inv_scope := i.(inv_scope);
     inv_issuer_id := i.(inv_issuer_id); inv_target_id := i.(inv_target_id);
     inv_max_uses := i.(inv_max_uses); inv_use_count := i.(inv_use_count);
     inv_reserved_use_count := i.(inv_reserved_use_count);
     inv_expires_at_ms := i.(inv_expires_at_ms); inv_revoked := f i.(inv_revoked);
     inv_policy_revision := i.(inv_policy_revision);
     inv_issuer_authority := i.(inv_issuer_authority) |}.
Global Instance administrators_field : Field administrators := λ f p,
  Build_GroupPolicy p.(scope) p.(owner_id) (f p.(administrators))
    p.(administrator_authorization_generations) p.(members) p.(invitations)
    p.(pending_joins) p.(reserved_joins) p.(approved_joins) p.(revision).
Global Instance generations_field : Field administrator_authorization_generations := λ f p,
  Build_GroupPolicy p.(scope) p.(owner_id) p.(administrators)
    (f p.(administrator_authorization_generations)) p.(members) p.(invitations)
    p.(pending_joins) p.(reserved_joins) p.(approved_joins) p.(revision).
Global Instance members_field : Field members := λ f p,
  Build_GroupPolicy p.(scope) p.(owner_id) p.(administrators)
    p.(administrator_authorization_generations) (f p.(members)) p.(invitations)
    p.(pending_joins) p.(reserved_joins) p.(approved_joins) p.(revision).
Global Instance invitations_field : Field invitations := λ f p,
  Build_GroupPolicy p.(scope) p.(owner_id) p.(administrators)
    p.(administrator_authorization_generations) p.(members) (f p.(invitations))
    p.(pending_joins) p.(reserved_joins) p.(approved_joins) p.(revision).
Global Instance pending_joins_field : Field pending_joins := λ f p,
  Build_GroupPolicy p.(scope) p.(owner_id) p.(administrators)
    p.(administrator_authorization_generations) p.(members) p.(invitations)
    (f p.(pending_joins)) p.(reserved_joins) p.(approved_joins) p.(revision).
Global Instance reserved_joins_field : Field reserved_joins := λ f p,
  Build_GroupPolicy p.(scope) p.(owner_id) p.(administrators)
    p.(administrator_authorization_generations) p.(members) p.(invitations)
    p.(pending_joins) (f p.(reserved_joins)) p.(approved_joins) p.(revision).
Global Instance approved_joins_field : Field approved_joins := λ f p,
  Build_GroupPolicy p.(scope) p.(owner_id) p.(administrators)
    p.(administrator_authorization_generations) p.(members) p.(invitations)
    p.(pending_joins) p.(reserved_joins) (f p.(approved_joins)) p.(revision).
Global Instance revision_field : Field revision := λ f p,
  Build_GroupPolicy p.(scope) p.(owner_id) p.(administrators)
    p.(administrator_authorization_generations) p.(members) p.(invitations)
    p.(pending_joins) p.(reserved_joins) p.(approved_joins) (f p.(revision)).

(** ** Queries *)

Definition new (scope : GroupScope) (owner_id : IdentityId) : GroupPolicy :=
  {| scope := scope; owner_id := owner_id; administrators := ∅;
     administrator_authorization_generations := ∅; members := {[ owner_id ]};
     invitations := ∅; pending_joins := ∅; reserved_joins := ∅; approved_joins := ∅;
     revision := Revision.INITIAL |}.

Definition role_of (self : GroupPolicy) (identity_id : IdentityId) : option GroupRole :=
  if decide (identity_id = self.(owner_id)) then Some RoleOwner
  else if decide (identity_id ∈ self.(administrators)) then Some RoleAdmin
  else if decide (identity_id ∈ self.(members)) then Some RoleMember
  else None.

Definition is_member (self : GroupPolicy) (identity_id : IdentityId) : bool :=
  bool_decide (identity_id ∈ self.(members)).

Definition admin_count (self : GroupPolicy) : nat := size self.(administrators).

Definition can_issue_invite (self : GroupPolicy) (identity_id : IdentityId) : bool :=
  match role_of self identity_id with
  | Some RoleOwner | Some RoleAdmin => true
  | _ => false
  end.

Definition can_approve_join (self : GroupPolicy) (identity_id : IdentityId) : bool :=
  can_issue_invite self identity_id.

(** ** Private guards *)

Definition next_mutation_revision (self : GroupPolicy) (expected_revision : Revision) :
    result GroupPolicyError Revision :=
  reject (RevisionConflict self.(revision)) when (expected_revision ≠ self.(revision));;
  map_err (λ _, CounterExhausted) (Revision.checked_next self.(revision)).

Definition ensure_owner (self : GroupPolicy) (actor_id : IdentityId) :
    result GroupPolicyError unit :=
  if decide (actor_id = self.(owner_id)) then Ok tt else Err Unauthorized.

Definition ensure_invite_authority (self : GroupPolicy) (actor_id : IdentityId) :
    result GroupPolicyError unit :=
  if can_issue_invite self actor_id then Ok tt else Err Unauthorized.

Definition ensure_approval_authority (self : GroupPolicy) (actor_id : IdentityId) :
    result GroupPolicyError unit :=
  if can_approve_join self actor_id then Ok tt else Err Unauthorized.

Definition candidate_has_active_join (self : GroupPolicy) (candidate_id : IdentityId) : bool :=
  existsb (λ pending, bool_decide (pending.(pend_candidate_id) = candidate_id))
    (btree_values self.(pending_joins))
  || existsb (λ reserved, bool_decide (reserved.(res_candidate_id) = candidate_id))
       (btree_values self.(reserved_joins)).

(** An authority term is current: the owner, or an administrator still in the
    generation it was granted in. *)
Definition authority_is_current (self : GroupPolicy) (who : IdentityId)
    (authority : InviteIssuerAuthority) : bool :=
  match authority with
  | AuthorityOwner => bool_decide (who = self.(owner_id))
  | AuthorityAdmin authorization_generation =>
      bool_decide (who ∈ self.(administrators)) &&
      match self.(administrator_authorization_generations) !! who with
      | Some current => bool_decide (current = authorization_generation)
      | None => false
      end
  end.

Definition invite_issuer_authority_is_current (self : GroupPolicy)
    (invite : InviteCapability) : bool :=
  authority_is_current self invite.(inv_issuer_id) invite.(inv_issuer_authority).

Definition ensure_invite_usable (self : GroupPolicy) (invite : InviteCapability)
    (candidate_id : IdentityId) (now_ms : Z) : result GroupPolicyError unit :=
  reject InviteRevoked when (invite.(inv_revoked) = true);;
  reject InviteExpired when (now_ms >= invite.(inv_expires_at_ms));;
  reject InviteTargetMismatch
    when (match invite.(inv_target_id) with
          | Some target => bool_decide (target ≠ candidate_id)
          | None => false
          end = true);;
  reject InviteIssuerNoLongerAuthorized
    when (invite_issuer_authority_is_current self invite = false);;
  occupied_uses ← ok_or (u32_checked_add invite.(inv_use_count)
                           invite.(inv_reserved_use_count)) InviteUseLimitReached;
  reject InviteUseLimitReached when (occupied_uses >= invite.(inv_max_uses));;
  Ok tt.

Definition invite_issuer_authority (self : GroupPolicy) (actor_id : IdentityId) :
    result GroupPolicyError InviteIssuerAuthority :=
  if decide (actor_id = self.(owner_id)) then Ok AuthorityOwner
  else if decide (actor_id ∈ self.(administrators)) then
    ok_or (AuthorityAdmin <$> self.(administrator_authorization_generations) !! actor_id)
      Unauthorized
  else Err Unauthorized.

Definition next_admin_authorization_generation (self : GroupPolicy)
    (administrator_id : IdentityId) : result GroupPolicyError Revision :=
  match self.(administrator_authorization_generations) !! administrator_id with
  | None => Ok Revision.INITIAL
  | Some generation => map_err (λ _, CounterExhausted) (Revision.checked_next generation)
  end.

(** ** Commands *)

Definition Cmd (A : Type) : Type := ST GroupPolicy GroupPolicyError A.

(** [self.revision = next_revision] *)
Definition set_revision (r : Revision) : Cmd unit := modify (λ s, s <| revision := r |>).

(** [self.invitations.get_mut(id)] followed by an assignment through it. *)
Definition update_invite (invite_id : InviteCapabilityId)
    (f : InviteCapability → InviteCapability) : Cmd unit :=
  modify (λ s, s <| invitations := alter f invite_id s.(invitations) |>).

Definition grant_admin (expected_revision : Revision) (actor_id administrator_id : IdentityId) :
    Cmd Revision :=
  self ← get;
  next_revision ← lift (next_mutation_revision self expected_revision);
  lift (ensure_owner self actor_id);;
  lift (reject OwnerCannotBeAdmin when (administrator_id = self.(owner_id)));;
  lift (reject AlreadyAdmin when (administrator_id ∈ self.(administrators)));;
  lift (reject AdminLimitReached when (MAX_ADMINS ≤ size self.(administrators))%nat);;
  authorization_generation ← lift (next_admin_authorization_generation self administrator_id);
  modify (λ s, s <| administrators := {[ administrator_id ]} ∪ s.(administrators) |>);;
  modify (λ s, s <| administrator_authorization_generations :=
    <[ administrator_id := authorization_generation ]>
      s.(administrator_authorization_generations) |>);;
  modify (λ s, s <| members := {[ administrator_id ]} ∪ s.(members) |>);;
  set_revision next_revision;;
  mret next_revision.

Definition revoke_admin (expected_revision : Revision) (actor_id administrator_id : IdentityId) :
    Cmd Revision :=
  self ← get;
  next_revision ← lift (next_mutation_revision self expected_revision);
  lift (ensure_owner self actor_id);;
  lift (reject OwnerCannotBeAdmin when (administrator_id = self.(owner_id)));;
  lift (reject NotAdmin when (administrator_id ∉ self.(administrators)));;
  modify (λ s, s <| administrators := s.(administrators) ∖ {[ administrator_id ]} |>);;
  set_revision next_revision;;
  mret next_revision.

Definition remove_member (expected_revision : Revision) (actor_id member_id : IdentityId) :
    Cmd Revision :=
  self ← get;
  next_revision ← lift (next_mutation_revision self expected_revision);
  lift (ensure_owner self actor_id);;
  lift (reject OwnerCannotBeRemoved when (member_id = self.(owner_id)));;
  lift (reject MemberNotFound when (member_id ∉ self.(members)));;
  modify (λ s, s <| administrators := s.(administrators) ∖ {[ member_id ]} |>);;
  modify (λ s, s <| members := s.(members) ∖ {[ member_id ]} |>);;
  set_revision next_revision;;
  mret next_revision.

Definition issue_invite (expected_revision : Revision) (actor_id : IdentityId)
    (invite_id : InviteCapabilityId) (target_id : option IdentityId)
    (max_uses expires_at_ms now_ms : Z) : Cmd InviteCapability :=
  self ← get;
  next_revision ← lift (next_mutation_revision self expected_revision);
  issuer_authority ← lift (invite_issuer_authority self actor_id);
  lift (reject InviteAlreadyExists when (is_Some (self.(invitations) !! invite_id)));;
  lift (reject InvalidInviteUseLimit when (max_uses = 0));;
  lift (reject InvalidInviteExpiry when (expires_at_ms ≤ now_ms));;
  let invite :=
    {| inv_invite_id := invite_id; inv_scope := self.(scope); inv_issuer_id := actor_id;
       inv_target_id := target_id; inv_max_uses := max_uses; inv_use_count := 0;
       inv_reserved_use_count := 0; inv_expires_at_ms := expires_at_ms;
       inv_revoked := false; inv_policy_revision := expected_revision;
       inv_issuer_authority := issuer_authority |} in
  modify (λ s, s <| invitations := <[ invite_id := invite ]> s.(invitations) |>);;
  set_revision next_revision;;
  mret invite.

Definition revoke_invite (expected_revision : Revision) (actor_id : IdentityId)
    (invite_id : InviteCapabilityId) : Cmd Revision :=
  self ← get;
  next_revision ← lift (next_mutation_revision self expected_revision);
  lift (ensure_invite_authority self actor_id);;
  invite ← lift (ok_or (self.(invitations) !! invite_id) InviteNotFound);
  lift (reject InviteAlreadyRevoked when (invite.(inv_revoked) = true));;
  update_invite invite_id (λ invite, invite <| inv_revoked := true |>);;
  set_revision next_revision;;
  mret next_revision.

Definition request_join (expected_revision : Revision) (actor_id candidate_id : IdentityId)
    (request_id : JoinRequestId) (invite_id : InviteCapabilityId) (now_ms : Z) :
    Cmd PendingJoinRequest :=
  self ← get;
  next_revision ← lift (next_mutation_revision self expected_revision);
  lift (reject Unauthorized when (actor_id ≠ candidate_id));;
  lift (reject AlreadyMember when (candidate_id ∈ self.(members)));;
  lift (reject JoinRequestAlreadyPending when (is_Some (self.(pending_joins) !! request_id)));;
  lift (reject JoinAlreadyReserved when (is_Some (self.(reserved_joins) !! request_id)));;
  lift (reject AlreadyApproved when (is_Some (self.(approved_joins) !! request_id)));;
  lift (reject CandidateJoinInFlight
          when (candidate_has_active_join self candidate_id = true));;
  invite ← lift (ok_or (self.(invitations) !! invite_id) InviteNotFound);
  lift (ensure_invite_usable self invite candidate_id now_ms);;
  let pending :=
    {| pend_request_id := request_id; pend_candidate_id := candidate_id;
       pend_invite_id := invite_id; pend_requested_at_ms := now_ms |} in
  modify (λ s, s <| pending_joins := <[ request_id := pending ]> s.(pending_joins) |>);;
  set_revision next_revision;;
  mret pending.

Definition reserve_join (expected_revision : Revision) (actor_id : IdentityId)
    (request_id : JoinRequestId) (now_ms : Z) : Cmd ReservedJoin :=
  self ← get;
  next_revision ← lift (next_mutation_revision self expected_revision);
  lift (ensure_approval_authority self actor_id);;
  reservation_authority ← lift (invite_issuer_authority self actor_id);
  lift (reject AlreadyApproved when (is_Some (self.(approved_joins) !! request_id)));;
  lift (reject JoinAlreadyReserved when (is_Some (self.(reserved_joins) !! request_id)));;
  pending ← lift (ok_or (self.(pending_joins) !! request_id) PendingJoinNotFound);
  lift (reject AlreadyMember when (pending.(pend_candidate_id) ∈ self.(members)));;
  invite ← lift (ok_or (self.(invitations) !! pending.(pend_invite_id)) InviteNotFound);
  lift (ensure_invite_usable self invite pending.(pend_candidate_id) now_ms);;
  count ← lift (ok_or (u32_checked_add invite.(inv_reserved_use_count) 1)
                  InviteUseLimitReached);
  update_invite pending.(pend_invite_id)
    (λ invite, invite <| inv_reserved_use_count := count |>);;
  modify (λ s, s <| pending_joins := delete request_id s.(pending_joins) |>);;
  let reservation :=
    {| res_request_id := request_id; res_candidate_id := pending.(pend_candidate_id);
       res_invite_id := pending.(pend_invite_id); res_reserved_by := actor_id;
       res_reserved_authority := reservation_authority; res_reserved_at_ms := now_ms;
       res_policy_revision := expected_revision |} in
  modify (λ s, s <| reserved_joins := <[ request_id := reservation ]> s.(reserved_joins) |>);;
  set_revision next_revision;;
  mret reservation.

Definition validate_reserved_join_authority (self : GroupPolicy) (request_id : JoinRequestId) :
    result GroupPolicyError unit :=
  reservation ← ok_or (self.(reserved_joins) !! request_id) ReservedJoinNotFound;
  let still_authorized :=
    authority_is_current self reservation.(res_reserved_by)
      reservation.(res_reserved_authority) in
  if still_authorized then Ok tt else Err InviteIssuerNoLongerAuthorized.

(** The first counter is assigned before the second addition is checked. *)
Definition finalize_reserved_join (expected_revision : Revision) (request_id : JoinRequestId)
    (finalized_at_ms : Z) : Cmd ApprovedJoin :=
  self ← get;
  next_revision ← lift (next_mutation_revision self expected_revision);
  lift (reject AlreadyApproved when (is_Some (self.(approved_joins) !! request_id)));;
  reservation ← lift (ok_or (self.(reserved_joins) !! request_id) ReservedJoinNotFound);
  lift (reject AlreadyMember when (reservation.(res_candidate_id) ∈ self.(members)));;
  invite ← lift (ok_or (self.(invitations) !! reservation.(res_invite_id))
                   ReservationInvariantViolation);
  reserved_count ← lift (ok_or (u32_checked_sub invite.(inv_reserved_use_count) 1)
                           ReservationInvariantViolation);
  update_invite reservation.(res_invite_id)
    (λ invite, invite <| inv_reserved_use_count := reserved_count |>);;
  count ← lift (ok_or (u32_checked_add invite.(inv_use_count) 1) InviteUseLimitReached);
  update_invite reservation.(res_invite_id) (λ invite, invite <| inv_use_count := count |>);;
  modify (λ s, s <| reserved_joins := delete request_id s.(reserved_joins) |>);;
  modify (λ s, s <| members := {[ reservation.(res_candidate_id) ]} ∪ s.(members) |>);;
  let approved :=
    {| app_request_id := request_id; app_candidate_id := reservation.(res_candidate_id);
       app_invite_id := reservation.(res_invite_id);
       app_approved_by := reservation.(res_reserved_by);
       app_approved_at_ms := finalized_at_ms;
       app_policy_revision := reservation.(res_policy_revision) |} in
  modify (λ s, s <| approved_joins := <[ request_id := approved ]> s.(approved_joins) |>);;
  set_revision next_revision;;
  mret approved.

Definition release_join_reservation (expected_revision : Revision)
    (request_id : JoinRequestId) : Cmd ReservedJoin :=
  self ← get;
  next_revision ← lift (next_mutation_revision self expected_revision);
  reservation ← lift (ok_or (self.(reserved_joins) !! request_id) ReservedJoinNotFound);
  invite ← lift (ok_or (self.(invitations) !! reservation.(res_invite_id))
                   ReservationInvariantViolation);
  reserved_count ← lift (ok_or (u32_checked_sub invite.(inv_reserved_use_count) 1)
                           ReservationInvariantViolation);
  update_invite reservation.(res_invite_id)
    (λ invite, invite <| inv_reserved_use_count := reserved_count |>);;
  modify (λ s, s <| reserved_joins := delete request_id s.(reserved_joins) |>);;
  set_revision next_revision;;
  mret reservation.

Definition approve_join (expected_revision : Revision) (actor_id : IdentityId)
    (request_id : JoinRequestId) (now_ms : Z) : Cmd ApprovedJoin :=
  self ← get;
  next_revision ← lift (next_mutation_revision self expected_revision);
  lift (ensure_approval_authority self actor_id);;
  lift (reject AlreadyApproved when (is_Some (self.(approved_joins) !! request_id)));;
  pending ← lift (ok_or (self.(pending_joins) !! request_id) PendingJoinNotFound);
  lift (reject AlreadyMember when (pending.(pend_candidate_id) ∈ self.(members)));;
  invite ← lift (ok_or (self.(invitations) !! pending.(pend_invite_id)) InviteNotFound);
  lift (ensure_invite_usable self invite pending.(pend_candidate_id) now_ms);;
  count ← lift (ok_or (u32_checked_add invite.(inv_use_count) 1) InviteUseLimitReached);
  update_invite pending.(pend_invite_id) (λ invite, invite <| inv_use_count := count |>);;
  modify (λ s, s <| members := {[ pending.(pend_candidate_id) ]} ∪ s.(members) |>);;
  modify (λ s, s <| pending_joins := delete request_id s.(pending_joins) |>);;
  let approved :=
    {| app_request_id := request_id; app_candidate_id := pending.(pend_candidate_id);
       app_invite_id := pending.(pend_invite_id); app_approved_by := actor_id;
       app_approved_at_ms := now_ms; app_policy_revision := expected_revision |} in
  modify (λ s, s <| approved_joins := <[ request_id := approved ]> s.(approved_joins) |>);;
  set_revision next_revision;;
  mret approved.

(** The methods that change the aggregate, as one command type. *)
Inductive Command : Type :=
| GrantAdmin (actor_id administrator_id : IdentityId)
| RevokeAdmin (actor_id administrator_id : IdentityId)
| RemoveMember (actor_id member_id : IdentityId)
| IssueInvite (actor_id : IdentityId) (invite_id : InviteCapabilityId)
    (target_id : option IdentityId) (max_uses expires_at_ms now_ms : Z)
| RevokeInvite (actor_id : IdentityId) (invite_id : InviteCapabilityId)
| RequestJoin (actor_id candidate_id : IdentityId) (request_id : JoinRequestId)
    (invite_id : InviteCapabilityId) (now_ms : Z)
| ReserveJoin (actor_id : IdentityId) (request_id : JoinRequestId) (now_ms : Z)
| FinalizeReservedJoin (request_id : JoinRequestId) (finalized_at_ms : Z)
| ReleaseJoinReservation (request_id : JoinRequestId)
| ApproveJoin (actor_id : IdentityId) (request_id : JoinRequestId) (now_ms : Z).

Definition discard {A} (m : Cmd A) : Cmd unit := m;; mret tt.

Definition run (expected_revision : Revision) (c : Command) : Cmd unit :=
  match c with
  | GrantAdmin a i => discard (grant_admin expected_revision a i)
  | RevokeAdmin a i => discard (revoke_admin expected_revision a i)
  | RemoveMember a i => discard (remove_member expected_revision a i)
  | IssueInvite a i t m e n => discard (issue_invite expected_revision a i t m e n)
  | RevokeInvite a i => discard (revoke_invite expected_revision a i)
  | RequestJoin a c r i n => discard (request_join expected_revision a c r i n)
  | ReserveJoin a r n => discard (reserve_join expected_revision a r n)
  | FinalizeReservedJoin r n => discard (finalize_reserved_join expected_revision r n)
  | ReleaseJoinReservation r => discard (release_join_reservation expected_revision r)
  | ApproveJoin a r n => discard (approve_join expected_revision a r n)
  end.
