(* ===== verification/GroupPolicySnapshot.v ===== *)
(** * Group authorization policy: snapshots and rehydration

    Models the snapshot and persistence-image parts of
    [crates/dtx-group-policy/src/policy/types.rs], [GroupPolicy::snapshot] of
    [aggregate.rs], and the sequential validator of [validation.rs].  A loop
    with early return is a [try_fold] over the loop's local variables. *)

From S2P Require Import Prelude Domain GroupPolicy.

Record GroupPolicySnapshot : Type := {
  snap_scope : GroupScope;
  snap_owner_id : IdentityId;
  snap_administrators : list IdentityId;
  snap_administrator_authorization_generations : list (IdentityId * Revision);
  snap_members : list IdentityId;
  snap_invitations : list InviteCapability;
  snap_pending_joins : list PendingJoinRequest;
  snap_reserved_joins : list ReservedJoin;
  snap_approved_joins : list ApprovedJoin;
  snap_revision : Revision
}.

Inductive GroupPolicySnapshotError : Type := InvalidSnapshot (reason : string).

Definition snapshot (self : GroupPolicy) : GroupPolicySnapshot :=
  {| snap_scope := self.(scope);
     snap_owner_id := self.(owner_id);
     snap_administrators := bset_iter self.(administrators);
     snap_administrator_authorization_generations :=
       btree_iter self.(administrator_authorization_generations);
     snap_members := bset_iter self.(members);
     snap_invitations := btree_values self.(invitations);
     snap_pending_joins := btree_values self.(pending_joins);
     snap_reserved_joins := btree_values self.(reserved_joins);
     snap_approved_joins := btree_values self.(approved_joins);
     snap_revision := self.(revision) |}.

(** ** [validation.rs] *)

Local Notation Res := (result GroupPolicySnapshotError).

Definition collect_snapshot_set {T} `{Countable T} (values : list T)
    (duplicate_reason : string) : Res (gset T) :=
  try_fold (λ (values_by_key : gset T) value,
    reject (InvalidSnapshot duplicate_reason) when (value ∈ values_by_key);;
    Ok ({[ value ]} ∪ values_by_key)) values ∅.

Definition increment_snapshot_count (counts : gmap InviteCapabilityId Z)
    (invite_id : InviteCapabilityId) (overflow_reason : string) :
    Res (gmap InviteCapabilityId Z) :=
  count ← ok_or (u32_checked_add (default 0 (counts !! invite_id)) 1)
            (InvalidSnapshot overflow_reason);
  Ok (<[ invite_id := count ]> counts).

(** The [for (identity_id, generation) in ...] loop. *)
Definition check_generation (snap : GroupPolicySnapshot)
    (generations : gmap IdentityId Revision) (entry : IdentityId * Revision) :
    Res (gmap IdentityId Revision) :=
  reject (InvalidSnapshot "duplicate or owner administrator generation")
    when (entry.1 = snap.(snap_owner_id) ∨ is_Some (generations !! entry.1));;
  Ok (<[ entry.1 := entry.2 ]> generations).

(** The [match authority] of the invitation and of the reservation loops. *)
Definition check_authority (snap : GroupPolicySnapshot)
    (generations : gmap IdentityId Revision) (who : IdentityId)
    (authority : InviteIssuerAuthority) (owner_reason admin_reason : string) : Res unit :=
  match authority with
  | AuthorityOwner =>
      reject (InvalidSnapshot owner_reason) when (who ≠ snap.(snap_owner_id))
  | AuthorityAdmin authorization_generation =>
      reject (InvalidSnapshot admin_reason)
        when (match generations !! who with
              | Some current => bool_decide (current < authorization_generation)
              | None => true
              end = true)
  end.

Definition check_invitation (snap : GroupPolicySnapshot)
    (generations : gmap IdentityId Revision)
    (invitations : gmap InviteCapabilityId InviteCapability) (invite : InviteCapability) :
    Res (gmap InviteCapabilityId InviteCapability) :=
  reject (InvalidSnapshot "invalid invitation scope or use limit")
    when (invite.(inv_scope) ≠ snap.(snap_scope) ∨ invite.(inv_max_uses) = 0);;
  occupied_uses ← ok_or (u32_checked_add invite.(inv_use_count)
                           invite.(inv_reserved_use_count))
                    (InvalidSnapshot "invitation use count overflow");
  reject (InvalidSnapshot "invalid invitation use or policy revision")
    when (occupied_uses > invite.(inv_max_uses)
          ∨ invite.(inv_policy_revision) > snap.(snap_revision));;
  check_authority snap generations invite.(inv_issuer_id) invite.(inv_issuer_authority)
    "owner invitation has another issuer" "invitation authority generation mismatch";;
  reject (InvalidSnapshot "duplicate invitation")
    when (is_Some (invitations !! invite.(inv_invite_id)));;
  Ok (<[ invite.(inv_invite_id) := invite ]> invitations).

(** The local variables of the three join loops. *)
Record Joins : Type := MkJoins {
  seen_join_ids : gset JoinRequestId;
  active_candidates : gset IdentityId;
  acc_pending : gmap JoinRequestId PendingJoinRequest;
  expected_reservations : gmap InviteCapabilityId Z;
  acc_reserved : gmap JoinRequestId ReservedJoin;
  expected_uses : gmap InviteCapabilityId Z;
  acc_approved : gmap JoinRequestId ApprovedJoin
}.

Section joins.
Context (snap : GroupPolicySnapshot) (members : gset IdentityId)
  (generations : gmap IdentityId Revision)
  (invitations : gmap InviteCapabilityId InviteCapability).

Definition check_pending (s : Joins) (pending : PendingJoinRequest) : Res Joins :=
  reject (InvalidSnapshot "invalid pending join")
    when (pending.(pend_request_id) ∈ s.(seen_join_ids)
          ∨ invitations !! pending.(pend_invite_id) = None
          ∨ pending.(pend_candidate_id) ∈ members
          ∨ pending.(pend_candidate_id) ∈ s.(active_candidates));;
  Ok (MkJoins ({[ pending.(pend_request_id) ]} ∪ s.(seen_join_ids))
        ({[ pending.(pend_candidate_id) ]} ∪ s.(active_candidates))
        (<[ pending.(pend_request_id) := pending ]> s.(acc_pending))
        s.(expected_reservations) s.(acc_reserved) s.(expected_uses) s.(acc_approved)).

Definition check_reserved (s : Joins) (reserved : ReservedJoin) : Res Joins :=
  reject (InvalidSnapshot "invalid membership reservation")
    when (reserved.(res_request_id) ∈ s.(seen_join_ids)
          ∨ invitations !! reserved.(res_invite_id) = None
          ∨ reserved.(res_candidate_id) ∈ members
          ∨ reserved.(res_candidate_id) ∈ s.(active_candidates)
          ∨ reserved.(res_policy_revision) > snap.(snap_revision));;
  check_authority snap generations reserved.(res_reserved_by)
    reserved.(res_reserved_authority)
    "owner reservation has another issuer" "reservation authority generation mismatch";;
  counts ← increment_snapshot_count s.(expected_reservations) reserved.(res_invite_id)
             "reservation count overflow";
  Ok (MkJoins ({[ reserved.(res_request_id) ]} ∪ s.(seen_join_ids))
        ({[ reserved.(res_candidate_id) ]} ∪ s.(active_candidates))
        s.(acc_pending) counts
        (<[ reserved.(res_request_id) := reserved ]> s.(acc_reserved))
        s.(expected_uses) s.(acc_approved)).

Definition check_approved (s : Joins) (approved : ApprovedJoin) : Res Joins :=
  reject (InvalidSnapshot "invalid approved join")
    when (approved.(app_request_id) ∈ s.(seen_join_ids)
          ∨ invitations !! approved.(app_invite_id) = None
          ∨ approved.(app_candidate_id) ∉ members
          ∨ approved.(app_policy_revision) > snap.(snap_revision));;
  counts ← increment_snapshot_count s.(expected_uses) approved.(app_invite_id)
             "approved use count overflow";
  Ok (MkJoins ({[ approved.(app_request_id) ]} ∪ s.(seen_join_ids))
        s.(active_candidates) s.(acc_pending) s.(expected_reservations)
        s.(acc_reserved) counts
        (<[ approved.(app_request_id) := approved ]> s.(acc_approved))).

(** The final loop over [invitations]. *)
Definition check_counters (s : Joins) (_ : unit)
    (entry : InviteCapabilityId * InviteCapability) : Res unit :=
  reject (InvalidSnapshot "invitation counters do not match join history")
    when (default 0 (s.(expected_reservations) !! entry.1)
            ≠ entry.2.(inv_reserved_use_count)
          ∨ default 0 (s.(expected_uses) !! entry.1) ≠ entry.2.(inv_use_count)).
End joins.

Definition group_policy_from_snapshot (snap : GroupPolicySnapshot) : Res GroupPolicy :=
  members ← collect_snapshot_set snap.(snap_members) "duplicate member";
  reject (InvalidSnapshot "owner is not a member") when (snap.(snap_owner_id) ∉ members);;
  administrators ← collect_snapshot_set snap.(snap_administrators) "duplicate administrator";
  reject (InvalidSnapshot "administrator limit exceeded")
    when (MAX_ADMINS < size administrators)%nat;;
  reject (InvalidSnapshot "owner is an administrator")
    when (snap.(snap_owner_id) ∈ administrators);;
  reject (InvalidSnapshot "administrator is not a member")
    when (¬ administrators ⊆ members);;
  generations ← try_fold (check_generation snap)
    snap.(snap_administrator_authorization_generations) ∅;
  reject (InvalidSnapshot "administrator lacks authority generation")
    when (existsb (λ identity_id, bool_decide (generations !! identity_id = None))
            (bset_iter administrators) = true);;
  invitations ← try_fold (check_invitation snap generations) snap.(snap_invitations) ∅;
  let start := MkJoins ∅ ∅ ∅ ∅ ∅ ∅ ∅ in
  s ← try_fold (check_pending members invitations) snap.(snap_pending_joins) start;
  s ← try_fold (check_reserved snap members generations invitations)
        snap.(snap_reserved_joins) s;
  s ← try_fold (check_approved snap members invitations) snap.(snap_approved_joins) s;
  try_fold (check_counters s) (btree_iter invitations) tt;;
  Ok {| scope := snap.(snap_scope);
        owner_id := snap.(snap_owner_id);
        administrators := administrators;
        administrator_authorization_generations := generations;
        members := members;
        invitations := invitations;
        pending_joins := s.(acc_pending);
        reserved_joins := s.(acc_reserved);
        approved_joins := s.(acc_approved);
        revision := snap.(snap_revision) |}.

Definition try_from_snapshot (snap : GroupPolicySnapshot) : Res GroupPolicy :=
  group_policy_from_snapshot snap.

(** ** The storage-neutral persistence image *)

Inductive GroupAuthorityPersistence : Type :=
| PersistedOwner
| PersistedAdmin (authorization_generation : Revision).

Record GroupInvitePersistence : Type := {
  pinv_invite_id : InviteCapabilityId;
  pinv_issuer_id : IdentityId;
  pinv_target_id : option IdentityId;
  pinv_max_uses : Z;
  pinv_use_count : Z;
  pinv_reserved_use_count : Z;
  pinv_expires_at_ms : Z;
  pinv_revoked : bool;
  pinv_policy_revision : Revision;
  pinv_issuer_authority : GroupAuthorityPersistence
}.

Record GroupPendingJoinPersistence : Type := {
  ppend_request_id : JoinRequestId;
  ppend_candidate_id : IdentityId;
  ppend_invite_id : InviteCapabilityId;
  ppend_requested_at_ms : Z
}.

Record GroupReservedJoinPersistence : Type := {
  pres_request_id : JoinRequestId;
  pres_candidate_id : IdentityId;
  pres_invite_id : InviteCapabilityId;
  pres_reserved_by : IdentityId;
  pres_reserved_authority : GroupAuthorityPersistence;
  pres_reserved_at_ms : Z;
  pres_policy_revision : Revision
}.

Record GroupApprovedJoinPersistence : Type := {
  papp_request_id : JoinRequestId;
  papp_candidate_id : IdentityId;
  papp_invite_id : InviteCapabilityId;
  papp_approved_by : IdentityId;
  papp_approved_at_ms : Z;
  papp_policy_revision : Revision
}.

Record GroupPolicyPersistenceImage : Type := {
  img_scope : GroupScope;
  img_owner_id : IdentityId;
  img_administrators : list IdentityId;
  img_administrator_authorization_generations : list (IdentityId * Revision);
  img_members : list IdentityId;
  img_invitations : list GroupInvitePersistence;
  img_pending_joins : list GroupPendingJoinPersistence;
  img_reserved_joins : list GroupReservedJoinPersistence;
  img_approved_joins : list GroupApprovedJoinPersistence;
  img_revision : Revision
}.

Definition authority_persistence (authority : InviteIssuerAuthority) :
    GroupAuthorityPersistence :=
  match authority with
  | AuthorityOwner => PersistedOwner
  | AuthorityAdmin g => PersistedAdmin g
  end.

Definition authority_from_persistence (authority : GroupAuthorityPersistence) :
    InviteIssuerAuthority :=
  match authority with
  | PersistedOwner => AuthorityOwner
  | PersistedAdmin g => AuthorityAdmin g
  end.

(** The closures of [persistence_image]. *)
Definition invite_image (i : InviteCapability) : GroupInvitePersistence :=
  {| pinv_invite_id := i.(inv_invite_id); pinv_issuer_id := i.(inv_issuer_id);
     pinv_target_id := i.(inv_target_id); pinv_max_uses := i.(inv_max_uses);
     pinv_use_count := i.(inv_use_count);
     pinv_reserved_use_count := i.(inv_reserved_use_count);
     pinv_expires_at_ms := i.(inv_expires_at_ms); pinv_revoked := i.(inv_revoked);
     pinv_policy_revision := i.(inv_policy_revision);
     pinv_issuer_authority := authority_persistence i.(inv_issuer_authority) |}.

Definition pending_image (p : PendingJoinRequest) : GroupPendingJoinPersistence :=
  {| ppend_request_id := p.(pend_request_id); ppend_candidate_id := p.(pend_candidate_id);
     ppend_invite_id := p.(pend_invite_id);
     ppend_requested_at_ms := p.(pend_requested_at_ms) |}.

Definition reserved_image (r : ReservedJoin) : GroupReservedJoinPersistence :=
  {| pres_request_id := r.(res_request_id); pres_candidate_id := r.(res_candidate_id);
     pres_invite_id := r.(res_invite_id); pres_reserved_by := r.(res_reserved_by);
     pres_reserved_authority := authority_persistence r.(res_reserved_authority);
     pres_reserved_at_ms := r.(res_reserved_at_ms);
     pres_policy_revision := r.(res_policy_revision) |}.

Definition approved_image (a : ApprovedJoin) : GroupApprovedJoinPersistence :=
  {| papp_request_id := a.(app_request_id); papp_candidate_id := a.(app_candidate_id);
     papp_invite_id := a.(app_invite_id); papp_approved_by := a.(app_approved_by);
     papp_approved_at_ms := a.(app_approved_at_ms);
     papp_policy_revision := a.(app_policy_revision) |}.

Definition persistence_image (s : GroupPolicySnapshot) : GroupPolicyPersistenceImage :=
  {| img_scope := s.(snap_scope);
     img_owner_id := s.(snap_owner_id);
     img_administrators := s.(snap_administrators);
     img_administrator_authorization_generations :=
       s.(snap_administrator_authorization_generations);
     img_members := s.(snap_members);
     img_invitations := invite_image <$> s.(snap_invitations);
     img_pending_joins := pending_image <$> s.(snap_pending_joins);
     img_reserved_joins := reserved_image <$> s.(snap_reserved_joins);
     img_approved_joins := approved_image <$> s.(snap_approved_joins);
     img_revision := s.(snap_revision) |}.

(** The closures of [try_from_persistence_image]; every invitation takes the
    image's own scope. *)
Definition invite_of_image (image_scope : GroupScope) (i : GroupInvitePersistence) :
    InviteCapability :=
  {| inv_invite_id := i.(pinv_invite_id); inv_scope := image_scope;
     inv_issuer_id := i.(pinv_issuer_id); inv_target_id := i.(pinv_target_id);
     inv_max_uses := i.(pinv_max_uses); inv_use_count := i.(pinv_use_count);
     inv_reserved_use_count := i.(pinv_reserved_use_count);
     inv_expires_at_ms := i.(pinv_expires_at_ms); inv_revoked := i.(pinv_revoked);
     inv_policy_revision := i.(pinv_policy_revision);
     inv_issuer_authority := authority_from_persistence i.(pinv_issuer_authority) |}.

Definition pending_of_image (p : GroupPendingJoinPersistence) : PendingJoinRequest :=
  {| pend_request_id := p.(ppend_request_id); pend_candidate_id := p.(ppend_candidate_id);
     pend_invite_id := p.(ppend_invite_id);
     pend_requested_at_ms := p.(ppend_requested_at_ms) |}.

Definition reserved_of_image (r : GroupReservedJoinPersistence) : ReservedJoin :=
  {| res_request_id := r.(pres_request_id); res_candidate_id := r.(pres_candidate_id);
     res_invite_id := r.(pres_invite_id); res_reserved_by := r.(pres_reserved_by);
     res_reserved_authority := authority_from_persistence r.(pres_reserved_authority);
     res_reserved_at_ms := r.(pres_reserved_at_ms);
     res_policy_revision := r.(pres_policy_revision) |}.

Definition approved_of_image (a : GroupApprovedJoinPersistence) : ApprovedJoin :=
  {| app_request_id := a.(papp_request_id); app_candidate_id := a.(papp_candidate_id);
     app_invite_id := a.(papp_invite_id); app_approved_by := a.(papp_approved_by);
     app_approved_at_ms := a.(papp_approved_at_ms);
     app_policy_revision := a.(papp_policy_revision) |}.

Definition try_from_persistence_image (image : GroupPolicyPersistenceImage) :
    Res GroupPolicySnapshot :=
  let snap :=
    {| snap_scope := image.(img_scope);
       snap_owner_id := image.(img_owner_id);
       snap_administrators := image.(img_administrators);
       snap_administrator_authorization_generations :=
         image.(img_administrator_authorization_generations);
       snap_members := image.(img_members);
       snap_invitations := invite_of_image image.(img_scope) <$> image.(img_invitations);
       snap_pending_joins := pending_of_image <$> image.(img_pending_joins);
       snap_reserved_joins := reserved_of_image <$> image.(img_reserved_joins);
       snap_approved_joins := approved_of_image <$> image.(img_approved_joins);
       snap_revision := image.(img_revision) |} in
  try_from_snapshot snap;;
  Ok snap.
