(* ===== verification/GroupPolicyInv.v ===== *)
(** * Group authorization policy: invariant and command theorems

    The invariant of the aggregate of [GroupPolicy.v], its preservation by
    every command, and what the commands promise: bounded invitations,
    irrevocable loss of an administrator term, atomic failure. *)

From S2P Require Import Prelude Domain GroupPolicy.

(** ** The invariant *)

Record roles_ok (owner : IdentityId) (admins : gset IdentityId)
    (gens : gmap IdentityId Revision) (members : gset IdentityId) : Prop := {
  ro_owner_member : owner ∈ members;
  ro_owner_admin : owner ∉ admins;
  ro_limit : (size admins ≤ MAX_ADMINS)%nat;
  ro_admins_members : admins ⊆ members;
  ro_owner_gen : gens !! owner = None;
  ro_admins_gen a : a ∈ admins → is_Some (gens !! a);
  ro_gen_valid a g : gens !! a = Some g → Revision.valid g
}.

(** An authority term that some point of the history could have held. *)
Definition authority_known (owner : IdentityId) (gens : gmap IdentityId Revision)
    (who : IdentityId) (authority : InviteIssuerAuthority) : Prop :=
  match authority with
  | AuthorityOwner => who = owner
  | AuthorityAdmin g => ∃ current, gens !! who = Some current ∧ g ≤ current
  end.

Record invite_ok (p : GroupPolicy) (id : InviteCapabilityId) (i : InviteCapability) : Prop := {
  io_id : i.(inv_invite_id) = id;
  io_scope : i.(inv_scope) = p.(scope);
  io_max : 0 < i.(inv_max_uses) ≤ u32_max;
  io_limit : i.(inv_use_count) + i.(inv_reserved_use_count) ≤ i.(inv_max_uses);
  io_revision : i.(inv_policy_revision) ≤ p.(revision);
  io_authority : authority_known p.(owner_id) p.(administrator_authorization_generations)
                   i.(inv_issuer_id) i.(inv_issuer_authority);
  io_uses : i.(inv_use_count) = count_by app_invite_id id (btree_values p.(approved_joins));
  io_reserved : i.(inv_reserved_use_count)
                = count_by res_invite_id id (btree_values p.(reserved_joins))
}.

Record pending_ok (p : GroupPolicy) (id : JoinRequestId) (x : PendingJoinRequest) : Prop := {
  po_id : x.(pend_request_id) = id;
  po_invite : is_Some (p.(invitations) !! x.(pend_invite_id))
}.

Record reserved_ok (p : GroupPolicy) (id : JoinRequestId) (x : ReservedJoin) : Prop := {
  rso_id : x.(res_request_id) = id;
  rso_invite : is_Some (p.(invitations) !! x.(res_invite_id));
  rso_revision : x.(res_policy_revision) ≤ p.(revision);
  rso_authority : authority_known p.(owner_id) p.(administrator_authorization_generations)
                    x.(res_reserved_by) x.(res_reserved_authority)
}.

Record approved_ok (p : GroupPolicy) (id : JoinRequestId) (x : ApprovedJoin) : Prop := {
  ao_id : x.(app_request_id) = id;
  ao_invite : is_Some (p.(invitations) !! x.(app_invite_id));
  ao_revision : x.(app_policy_revision) ≤ p.(revision)
}.

(** The candidates with an admission in flight, one entry per workflow. *)
Definition active (p : GroupPolicy) : list IdentityId :=
  (pend_candidate_id <$> btree_values p.(pending_joins)) ++
  (res_candidate_id <$> btree_values p.(reserved_joins)).

Record core (p : GroupPolicy) : Prop := {
  core_revision : Revision.valid p.(revision);
  core_roles : roles_ok p.(owner_id) p.(administrators)
                 p.(administrator_authorization_generations) p.(members);
  core_invites id i : p.(invitations) !! id = Some i → invite_ok p id i;
  core_pending id x : p.(pending_joins) !! id = Some x → pending_ok p id x;
  core_reserved id x : p.(reserved_joins) !! id = Some x → reserved_ok p id x;
  core_approved id x : p.(approved_joins) !! id = Some x → approved_ok p id x;
  core_disj_pr id : is_Some (p.(pending_joins) !! id) → p.(reserved_joins) !! id = None;
  core_disj_pa id : is_Some (p.(pending_joins) !! id) → p.(approved_joins) !! id = None;
  core_disj_ra id : is_Some (p.(reserved_joins) !! id) → p.(approved_joins) !! id = None;
  core_active : NoDup (active p)
}.

(** The arguments of a command are values of their Rust types. *)
Definition command_typed (c : Command) : Prop :=
  match c with
  | IssueInvite _ _ _ max_uses _ _ => 0 ≤ max_uses ≤ u32_max
  | _ => True
  end.

(** ** Reading the guards *)

Section guards.
Context (s : GroupPolicy).

Lemma next_mutation_revision_Ok e r :
  next_mutation_revision s e = Ok r →
  e = s.(revision) ∧ r = s.(revision) + 1 ∧ s.(revision) ≠ Revision.MAX.
Proof.
  unfold next_mutation_revision, reject_if. case_decide; simpl; [done|].
  intros [? ->]%map_err_Ok%Revision.checked_next_Ok. naive_solver.
Qed.

Lemma ensure_owner_Ok a u : ensure_owner s a = Ok u → a = s.(owner_id).
Proof. unfold ensure_owner. by case_decide. Qed.

Lemma invite_issuer_authority_Ok a auth :
  invite_issuer_authority s a = Ok auth →
  authority_known s.(owner_id) s.(administrator_authorization_generations) a auth ∧
  authority_is_current s a auth = true.
Proof.
  unfold invite_issuer_authority. case_decide.
  { intros [= <-]. simpl. by rewrite bool_decide_true. }
  case_decide; [|done].
  destruct (_ !! a) as [g|] eqn:Hg; simpl; [|done]. intros [= <-]. simpl.
  split; [by exists g|]. by rewrite Hg, !bool_decide_true.
Qed.

Lemma next_generation_Ok i g :
  next_admin_authorization_generation s i = Ok g →
  (∀ a c, s.(administrator_authorization_generations) !! a = Some c → Revision.valid c) →
  Revision.valid g ∧
  ∀ c, s.(administrator_authorization_generations) !! i = Some c → c < g.
Proof.
  unfold next_admin_authorization_generation. destruct (_ !! i) as [c|] eqn:Hc.
  - intros Hn%map_err_Ok Hv. split; [|intros ? [= <-]].
    + eapply Revision.checked_next_valid; eauto.
    + apply Revision.checked_next_Ok in Hn as [_ ->]. lia.
  - intros [= <-] _. split; [done|naive_solver].
Qed.

Lemma candidate_inactive c :
  candidate_has_active_join s c ≠ true → c ∉ active s.
Proof.
  unfold candidate_has_active_join, active. intros Hn.
  rewrite elem_of_app, !list_elem_of_fmap. intros [(x & -> & Hx)|(x & -> & Hx)]; apply Hn;
    apply orb_true_iff; [left|right]; apply existsb_exists; exists x;
    (split; [by apply list_elem_of_In|by apply bool_decide_true]).
Qed.

Lemma ensure_invite_usable_Ok i c n u :
  ensure_invite_usable s i c n = Ok u →
  i.(inv_revoked) = false ∧ n < i.(inv_expires_at_ms) ∧
  (∀ t, i.(inv_target_id) = Some t → t = c) ∧
  authority_is_current s i.(inv_issuer_id) i.(inv_issuer_authority) = true ∧
  i.(inv_use_count) + i.(inv_reserved_use_count) < i.(inv_max_uses).
Proof.
  unfold ensure_invite_usable, invite_issuer_authority_is_current. intros H. res_inv H.
  match goal with H : u32_checked_add _ _ = _ |- _ =>
    apply checked_Some in H as [-> ?] end.
  split_and!; [by destruct (inv_revoked i)|lia| |by destruct (authority_is_current _ _ _)|lia].
  intros t Ht. rewrite Ht in *. apply dec_stable. intros Hne.
  by match goal with H : bool_decide _ ≠ true |- _ => rewrite bool_decide_true in H end.
Qed.
End guards.

(** ** Frame lemmas *)

Definition gens_le (g g' : gmap IdentityId Revision) : Prop :=
  ∀ a c, g !! a = Some c → ∃ c', g' !! a = Some c' ∧ c ≤ c'.

(** What later states keep of earlier ones. *)
Record extends (p p' : GroupPolicy) : Prop := {
  ext_scope : p'.(scope) = p.(scope);
  ext_owner : p'.(owner_id) = p.(owner_id);
  ext_gens : gens_le p.(administrator_authorization_generations)
               p'.(administrator_authorization_generations);
  ext_revision : p.(revision) ≤ p'.(revision);
  ext_invites id : is_Some (p.(invitations) !! id) → is_Some (p'.(invitations) !! id)
}.

Section frame.
Context (p p' : GroupPolicy) (Hext : extends p p').

Lemma authority_known_mono who auth :
  authority_known p.(owner_id) p.(administrator_authorization_generations) who auth →
  authority_known p'.(owner_id) p'.(administrator_authorization_generations) who auth.
Proof using Hext.
  destruct Hext as [_ Ho Hg _ _]. destruct auth as [|g]; simpl; [by rewrite Ho|].
  intros (c & Hc & Hle). destruct (Hg _ _ Hc) as (c' & ? & ?). exists c'. split; [done|lia].
Qed.

Lemma pending_ok_mono id x : pending_ok p id x → pending_ok p' id x.
Proof using Hext. destruct Hext. intros []. constructor; auto. Qed.

Lemma reserved_ok_mono id x : reserved_ok p id x → reserved_ok p' id x.
Proof using Hext.
  intros []. pose proof (ext_revision _ _ Hext). pose proof (ext_invites _ _ Hext).
  constructor; auto using authority_known_mono. lia.
Qed.

Lemma approved_ok_mono id x : approved_ok p id x → approved_ok p' id x.
Proof using Hext. destruct Hext. intros []. constructor; auto. lia. Qed.

Lemma invite_ok_mono id i :
  invite_ok p id i →
  count_by app_invite_id id (btree_values p'.(approved_joins))
    = count_by app_invite_id id (btree_values p.(approved_joins)) →
  count_by res_invite_id id (btree_values p'.(reserved_joins))
    = count_by res_invite_id id (btree_values p.(reserved_joins)) →
  invite_ok p' id i.
Proof using Hext.
  intros [] Ha Hr. pose proof (ext_revision _ _ Hext). pose proof (ext_scope _ _ Hext).
  constructor; rewrite ?Ha, ?Hr; auto using authority_known_mono; [congruence|lia].
Qed.
End frame.

Lemma gens_le_refl g : gens_le g g.
Proof. intros a c Hc. by exists c. Qed.

Lemma gens_le_insert g a c :
  (∀ c', g !! a = Some c' → c' < c) → gens_le g (<[a := c]> g).
Proof.
  intros Hlt b c' Hb. destruct (decide (a = b)) as [->|Hne].
  - exists c. rewrite lookup_insert_eq. split; [done|]. specialize (Hlt _ Hb). lia.
  - exists c'. by rewrite lookup_insert_ne.
Qed.

Lemma count_none {A} (key : A → InviteCapabilityId) id l :
  (∀ x, x ∈ l → key x ≠ id) → count_by key id l = 0.
Proof.
  induction l as [|x l IH]; intros Hl; [done|].
  rewrite count_by_cons, decide_False, IH by set_solver. lia.
Qed.

(** An invitation no join refers to has zero counters. *)
Lemma core_unreferenced p id :
  core p → p.(invitations) !! id = None →
  count_by app_invite_id id (btree_values p.(approved_joins)) = 0 ∧
  count_by res_invite_id id (btree_values p.(reserved_joins)) = 0.
Proof.
  intros Hc Hid. split; apply count_none;
    intros x [k Hk]%elem_of_btree_values <-;
    [destruct (core_approved p Hc _ _ Hk)|destruct (core_reserved p Hc _ _ Hk)];
    rewrite Hid in *; by eapply is_Some_None.
Qed.

Create HintDb policy discriminated.
#[export] Hint Resolve gens_le_refl pending_ok_mono reserved_ok_mono approved_ok_mono
  core_pending core_reserved core_approved core_invites core_roles core_active
  core_disj_pr core_disj_pa core_disj_ra core_revision : policy.

(** [cmd_inv H] turns a successful command into the guards it passed. *)
Ltac cmd_guards :=
  repeat match goal with
  | H : next_mutation_revision _ _ = Ok _ |- _ =>
      apply next_mutation_revision_Ok in H as (-> & -> & ?)
  | H : ensure_owner _ _ = Ok _ |- _ => apply ensure_owner_Ok in H as ->
  | H : ¬ is_Some (_ !! _) |- _ => apply eq_None_not_Some in H
  | H : u32_checked_add _ _ = Some _ |- _ => apply checked_Some in H as [-> ?]
  | H : u32_checked_sub _ _ = Some _ |- _ => apply checked_Some in H as [-> ?]
  | H : ¬ (_ ∉ _) |- _ => apply dec_stable in H
  | x : () |- _ => destruct x
  end.
Ltac simpl_fields :=
  unfold upd, inv_use_count_field, inv_reserved_use_count_field, inv_revoked_field,
    administrators_field, generations_field, members_field, invitations_field,
    pending_joins_field, reserved_joins_field, approved_joins_field, revision_field in *;
  cbn in *.
Ltac cmd_inv H :=
  unfold grant_admin, revoke_admin, remove_member, issue_invite, revoke_invite,
    request_join, reserve_join, finalize_reserved_join, release_join_reservation,
    approve_join, update_invite, set_revision in H;
  st_inv H; simpl_fields; cmd_guards.

Ltac solve_extends := constructor; cbn; auto with policy; try lia.

(** ** Preservation *)

Section same_joins.
Context (p p' : GroupPolicy) (Hc : core p) (Hext : extends p p')
  (Hpend : p'.(pending_joins) = p.(pending_joins))
  (Hres : p'.(reserved_joins) = p.(reserved_joins))
  (Happ : p'.(approved_joins) = p.(approved_joins)).

Lemma core_same_joins :
  Revision.valid p'.(revision) →
  roles_ok p'.(owner_id) p'.(administrators) p'.(administrator_authorization_generations)
    p'.(members) →
  (∀ id i, p'.(invitations) !! id = Some i → invite_ok p' id i) →
  core p'.
Proof using All.
  intros Hrev Hroles Hinv. constructor; rewrite ?Hpend, ?Hres, ?Happ; auto.
  - intros. eapply pending_ok_mono; eauto with policy.
  - intros. eapply reserved_ok_mono; eauto with policy.
  - intros. eapply approved_ok_mono; eauto with policy.
  - by apply core_disj_pr.
  - by apply core_disj_pa.
  - by apply core_disj_ra.
  - unfold active. rewrite Hpend, Hres. by apply core_active.
Qed.

Lemma invite_ok_same_joins id i : invite_ok p id i → invite_ok p' id i.
Proof using All. intros. eapply invite_ok_mono; eauto; by rewrite ?Happ, ?Hres. Qed.
End same_joins.

Lemma next_valid p : core p → p.(revision) ≠ Revision.MAX → Revision.valid (p.(revision) + 1).
Proof. intros [Hr _ _ _ _ _ _ _ _ _] ?. unfold Revision.valid in *. lia. Qed.
#[export] Hint Resolve next_valid : policy.

(** The commands that change roles. *)
Lemma core_roles_command p admins gens members :
  core p → p.(revision) ≠ Revision.MAX →
  roles_ok p.(owner_id) admins gens members →
  gens_le p.(administrator_authorization_generations) gens →
  core (Build_GroupPolicy p.(scope) p.(owner_id) admins gens members p.(invitations)
          p.(pending_joins) p.(reserved_joins) p.(approved_joins) (p.(revision) + 1)).
Proof.
  intros Hc Hmax Hroles Hg.
  assert (extends p (Build_GroupPolicy p.(scope) p.(owner_id) admins gens members
    p.(invitations) p.(pending_joins) p.(reserved_joins) p.(approved_joins)
    (p.(revision) + 1))) as Hext by solve_extends.
  apply (core_same_joins p); cbn; auto with policy.
  intros id i Hi. eapply invite_ok_same_joins; eauto with policy.
Qed.

Lemma grant_admin_core e a i p r p' :
  core p → grant_admin e a i p = (Ok r, p') → core p'.
Proof.
  intros Hc H. cmd_inv H.
  destruct (core_roles p Hc).
  match goal with H : next_admin_authorization_generation _ _ = _ |- _ =>
    apply next_generation_Ok in H as [Hgv Hlt]; [|done] end.
  apply core_roles_command; auto using gens_le_insert.
  constructor.
  - by apply elem_of_union_r.
  - apply not_elem_of_union. split; [by apply not_elem_of_singleton|done].
  - rewrite size_union, size_singleton by set_solver. unfold MAX_ADMINS in *. lia.
  - by apply union_mono_l.
  - by rewrite lookup_insert_ne.
  - intros b Hb. destruct (decide (i = b)) as [->|Hne].
    + by rewrite lookup_insert_eq.
    + rewrite lookup_insert_ne by done. apply elem_of_union in Hb as [Hb|Hb]; [|auto].
      by apply elem_of_singleton in Hb.
  - intros b g [[-> ->]|[_ ?]]%lookup_insert_Some; eauto.
Qed.

Lemma roles_ok_shrink owner admins gens members i :
  roles_ok owner admins gens members → i ≠ owner →
  roles_ok owner (admins ∖ {[i]}) gens members ∧
  roles_ok owner (admins ∖ {[i]}) gens (members ∖ {[i]}).
Proof.
  intros [] Hi. assert (size (admins ∖ {[i]}) ≤ size admins)%nat.
  { apply subseteq_size. set_solver. }
  split; constructor; eauto; try lia;
    try (intros ? [? _]%elem_of_difference; by eauto); clear -Hi ro_owner_member0
      ro_owner_admin0 ro_admins_members0; set_solver.
Qed.

Lemma revoke_admin_core e a i p r p' :
  core p → revoke_admin e a i p = (Ok r, p') → core p'.
Proof.
  intros Hc H. cmd_inv H.
  apply core_roles_command; auto with policy.
  by apply roles_ok_shrink; [apply core_roles|].
Qed.

Lemma remove_member_core e a i p r p' :
  core p → remove_member e a i p = (Ok r, p') → core p'.
Proof.
  intros Hc H. cmd_inv H.
  apply core_roles_command; auto with policy.
  by apply roles_ok_shrink; [apply core_roles|].
Qed.

Lemma issue_invite_core e a i t m x n p r p' :
  0 ≤ m ≤ u32_max → core p → issue_invite e a i t m x n p = (Ok r, p') → core p'.
Proof.
  intros Hm Hc H. cmd_inv H.
  match goal with H : invite_issuer_authority _ _ = _ |- _ =>
    apply invite_issuer_authority_Ok in H as [Hauth _] end.
  match goal with |- core ?q => assert (extends p q) as Hext end.
  { solve_extends. intros id Hid. rewrite lookup_insert_is_Some'. auto. }
  apply (core_same_joins p); cbn; auto with policy.
  intros id j [[<- <-]|[Hne Hj]]%lookup_insert_Some.
  - destruct (core_unreferenced p i) as [Ha Hr]; [done|done|].
    constructor; cbn; auto; lia.
  - eapply invite_ok_same_joins; eauto with policy.
Qed.

Lemma revoke_invite_core e a i p r p' :
  core p → revoke_invite e a i p = (Ok r, p') → core p'.
Proof.
  intros Hc H. cmd_inv H.
  match goal with |- core ?q => assert (extends p q) as Hext end.
  { solve_extends. intros id Hid. by rewrite lookup_alter_is_Some. }
  apply (core_same_joins p); cbn; auto with policy.
  intros id j. rewrite lookup_alter_Some. intros [(-> & k & Hk & ->)|[Hne Hj]].
  - pose proof (invite_ok_same_joins _ _ Hc Hext eq_refl eq_refl eq_refl _ _
      (core_invites _ Hc _ _ Hk)) as []. by constructor.
  - eapply invite_ok_same_joins; eauto with policy.
Qed.

(** The commands that move a join and adjust one invitation's counters. *)
Lemma invites_alter_ok p p' target f :
  core p → extends p p' → p'.(invitations) = alter f target p.(invitations) →
  (∀ id, id ≠ target →
    count_by app_invite_id id (btree_values p'.(approved_joins))
      = count_by app_invite_id id (btree_values p.(approved_joins)) ∧
    count_by res_invite_id id (btree_values p'.(reserved_joins))
      = count_by res_invite_id id (btree_values p.(reserved_joins))) →
  (∀ i, p.(invitations) !! target = Some i → invite_ok p' target (f i)) →
  ∀ id i, p'.(invitations) !! id = Some i → invite_ok p' id i.
Proof.
  intros Hc Hext Heq Hcnt Htgt id i. rewrite Heq, lookup_alter_Some.
  intros [(-> & k & Hk & ->)|[Hne Hi]]; [by apply Htgt|].
  destruct (Hcnt id) as [Ha Hr]; [congruence|].
  eapply invite_ok_mono; eauto with policy.
Qed.

Lemma active_request p id x s' :
  p.(pending_joins) !! id = None →
  s'.(pending_joins) = <[id := x]> p.(pending_joins) →
  s'.(reserved_joins) = p.(reserved_joins) →
  active s' ≡ₚ x.(pend_candidate_id) :: active p.
Proof.
  intros Hid Hp Hr. unfold active. by rewrite Hp, Hr, btree_values_insert.
Qed.

Lemma active_reserve p id x y s' :
  p.(pending_joins) !! id = Some x → p.(reserved_joins) !! id = None →
  s'.(pending_joins) = delete id p.(pending_joins) →
  s'.(reserved_joins) = <[id := y]> p.(reserved_joins) →
  y.(res_candidate_id) = x.(pend_candidate_id) →
  active s' ≡ₚ active p.
Proof.
  intros Hid Hn Hp Hr Hy. unfold active. rewrite Hp, Hr, btree_values_insert by done.
  rewrite (btree_values_delete p.(pending_joins) id x) by done.
  csimpl. rewrite Hy. by rewrite Permutation_middle.
Qed.

Lemma active_unreserve p id x s' :
  p.(reserved_joins) !! id = Some x →
  s'.(pending_joins) = p.(pending_joins) →
  s'.(reserved_joins) = delete id p.(reserved_joins) →
  active p ≡ₚ x.(res_candidate_id) :: active s'.
Proof.
  intros Hid Hp Hr. unfold active. rewrite Hp, Hr.
  rewrite (btree_values_delete p.(reserved_joins) id x) by done.
  csimpl. by rewrite Permutation_middle.
Qed.

Lemma active_approve p id x s' :
  p.(pending_joins) !! id = Some x →
  s'.(pending_joins) = delete id p.(pending_joins) →
  s'.(reserved_joins) = p.(reserved_joins) →
  active p ≡ₚ x.(pend_candidate_id) :: active s'.
Proof.
  intros Hid Hp Hr. unfold active. rewrite Hp, Hr.
  by rewrite (btree_values_delete p.(pending_joins) id x) by done.
Qed.

Lemma count_insert {A} (key : A → InviteCapabilityId) (m : gmap JoinRequestId A) id x k :
  m !! id = None →
  count_by key k (btree_values (<[id := x]> m))
  = (if decide (key x = k) then 1 else 0) + count_by key k (btree_values m).
Proof. intros. by rewrite btree_values_insert, count_by_cons. Qed.

Lemma count_delete {A} (key : A → InviteCapabilityId) (m : gmap JoinRequestId A) id x k :
  m !! id = Some x →
  count_by key k (btree_values (delete id m))
  = count_by key k (btree_values m) - (if decide (key x = k) then 1 else 0).
Proof. intros. rewrite (btree_values_delete m id x), count_by_cons by done. lia. Qed.

Lemma roles_ok_admit owner admins gens members i :
  roles_ok owner admins gens members → roles_ok owner admins gens ({[i]} ∪ members).
Proof. intros []. constructor; eauto; [by apply elem_of_union_r|]. by apply union_subseteq_r'. Qed.

Lemma NoDup_active_tail c p s' : core p → active p ≡ₚ c :: active s' → NoDup (active s').
Proof.
  intros Hc Hp. pose proof (core_active p Hc) as Hnd. rewrite Hp in Hnd.
  by apply NoDup_cons in Hnd as [_ ?].
Qed.

Lemma NoDup_active_perm p s' : core p → active s' ≡ₚ active p → NoDup (active s').
Proof. intros Hc ->. by apply core_active. Qed.

Lemma request_join_core e a c q i n p r p' :
  core p → request_join e a c q i n p = (Ok r, p') → core p'.
Proof.
  intros Hc H. cmd_inv H.
  match goal with H : candidate_has_active_join _ _ ≠ _ |- _ =>
    apply candidate_inactive in H end.
  match goal with |- core ?s => assert (extends p s) as Hext by solve_extends end.
  constructor; cbn; auto with policy.
  - intros id j Hj. eapply invite_ok_mono; eauto with policy.
  - intros id x [[<- <-]|[_ Hx]]%lookup_insert_Some; eauto with policy.
    constructor; eauto.
  - intros. eapply reserved_ok_mono; eauto with policy.
  - intros. eapply approved_ok_mono; eauto with policy.
  - intros id [<-|[_ ?]]%lookup_insert_is_Some; auto with policy.
  - intros id [<-|[_ ?]]%lookup_insert_is_Some; auto with policy.
  - rewrite active_request by done. constructor; auto with policy.
Qed.

Lemma reserve_join_core e a q n p r p' :
  core p → reserve_join e a q n p = (Ok r, p') → core p'.
Proof.
  intros Hc H. cmd_inv H.
  match goal with H : invite_issuer_authority _ _ = _ |- _ =>
    apply invite_issuer_authority_Ok in H as [Hauth _] end.
  match goal with H : ensure_invite_usable _ _ _ _ = _ |- _ =>
    apply ensure_invite_usable_Ok in H as (_ & _ & _ & _ & Hroom) end.
  match goal with |- core ?s => assert (extends p s) as Hext end.
  { solve_extends. intros id Hid. by rewrite lookup_alter_is_Some. }
  constructor; cbn; auto with policy.
  - refine (invites_alter_ok p _ _ _ Hc Hext eq_refl _ _); cbn.
    + intros id Hne. rewrite count_insert by done. cbn. by rewrite decide_False.
    + intros k Hk. pose proof (core_invites p Hc _ _ Hk) as []. simplify_eq.
      constructor; cbn; auto; try lia.
      rewrite count_insert by done. cbn. rewrite decide_True by done. lia.
  - intros id x [_ Hx]%lookup_delete_Some. eauto with policy.
  - intros id x [[<- <-]|[_ Hx]]%lookup_insert_Some; eauto with policy.
    constructor; cbn; auto; [by rewrite lookup_alter_is_Some|lia].
  - intros. eapply approved_ok_mono; eauto with policy.
  - intros id [x [Hne Hx]%lookup_delete_Some].
    rewrite lookup_insert_ne by done. apply (core_disj_pr p Hc). eauto.
  - intros id [x [Hne Hx]%lookup_delete_Some]. apply (core_disj_pa p Hc). eauto.
  - intros id [<-|[_ ?]]%lookup_insert_is_Some; auto with policy.
  - apply (NoDup_active_perm p); [done|]. by eapply active_reserve.
Qed.

Lemma finalize_reserved_join_core e q n p r p' :
  core p → finalize_reserved_join e q n p = (Ok r, p') → core p'.
Proof.
  intros Hc H. cmd_inv H.
  match goal with H : reserved_joins p !! q = Some ?x |- _ =>
    rename H into Hres, x into rj; pose proof (core_reserved p Hc _ _ Hres) as Hrj end.
  match goal with |- core ?s => assert (extends p s) as Hext end.
  { solve_extends. intros id Hid. by rewrite !lookup_alter_is_Some. }
  rewrite alter_alter_eq in *.
  constructor; cbn; auto using roles_ok_admit with policy.
  - refine (invites_alter_ok p _ _ _ Hc Hext eq_refl _ _); cbn.
    + intros id Hne. rewrite count_insert, (count_delete _ _ _ rj) by done. cbn.
      rewrite !decide_False by done. lia.
    + intros k Hk. pose proof (core_invites p Hc _ _ Hk) as []. simplify_eq.
      constructor; cbn; auto; try lia;
        rewrite ?count_insert, ?(count_delete _ _ _ rj) by done; cbn;
        rewrite decide_True by done; lia.
  - intros. eapply pending_ok_mono; eauto with policy.
  - intros id x [_ Hx]%lookup_delete_Some. eauto with policy.
  - intros id x [[<- <-]|[_ Hx]]%lookup_insert_Some; eauto with policy.
    destruct Hrj. constructor; cbn; auto; [by rewrite lookup_alter_is_Some|lia].
  - intros id Hid. rewrite lookup_delete_None. auto with policy.
  - intros id Hid. rewrite lookup_insert_ne; auto with policy.
    intros ->. rewrite (core_disj_pr p Hc) in Hres by done. done.
  - intros id [x [Hne Hx]%lookup_delete_Some].
    rewrite lookup_insert_ne by done. apply (core_disj_ra p Hc). eauto.
  - eapply (NoDup_active_tail _ p); [done|]. by eapply active_unreserve.
Qed.

Lemma release_join_reservation_core e q p r p' :
  core p → release_join_reservation e q p = (Ok r, p') → core p'.
Proof.
  intros Hc H. cmd_inv H.
  match goal with H : reserved_joins p !! q = Some ?x |- _ => rename x into rj end.
  match goal with |- core ?s => assert (extends p s) as Hext end.
  { solve_extends. intros id Hid. by rewrite lookup_alter_is_Some. }
  constructor; cbn; auto with policy.
  - refine (invites_alter_ok p _ _ _ Hc Hext eq_refl _ _); cbn.
    + intros id Hne. rewrite (count_delete _ _ _ rj) by done.
      rewrite !decide_False by done. lia.
    + intros k Hk. pose proof (core_invites p Hc _ _ Hk) as []. simplify_eq.
      constructor; cbn; auto; try lia.
      rewrite (count_delete _ _ _ rj), decide_True by done. lia.
  - intros. eapply pending_ok_mono; eauto with policy.
  - intros id x [_ Hx]%lookup_delete_Some. eauto with policy.
  - intros. eapply approved_ok_mono; eauto with policy.
  - intros id Hid. rewrite lookup_delete_None. auto with policy.
  - intros id [x [Hne Hx]%lookup_delete_Some]. apply (core_disj_ra p Hc). eauto.
  - eapply (NoDup_active_tail _ p); [done|]. by eapply active_unreserve.
Qed.

Lemma approve_join_core e a q n p r p' :
  core p → approve_join e a q n p = (Ok r, p') → core p'.
Proof.
  intros Hc H. cmd_inv H.
  match goal with H : ensure_invite_usable _ _ _ _ = _ |- _ =>
    apply ensure_invite_usable_Ok in H as (_ & _ & _ & _ & Hroom) end.
  match goal with H : pending_joins p !! q = Some ?x |- _ => rename H into Hpend, x into pj end.
  match goal with |- core ?s => assert (extends p s) as Hext end.
  { solve_extends. intros id Hid. by rewrite lookup_alter_is_Some. }
  constructor; cbn; auto using roles_ok_admit with policy.
  - refine (invites_alter_ok p _ _ _ Hc Hext eq_refl _ _); cbn.
    + intros id Hne. rewrite count_insert by done. cbn. by rewrite decide_False.
    + intros k Hk. pose proof (core_invites p Hc _ _ Hk) as []. simplify_eq.
      constructor; cbn; auto; try lia.
      rewrite count_insert by done. cbn. rewrite decide_True by done. lia.
  - intros id x [_ Hx]%lookup_delete_Some. eauto with policy.
  - intros. eapply reserved_ok_mono; eauto with policy.
  - intros id x [[<- <-]|[_ Hx]]%lookup_insert_Some; eauto with policy.
    constructor; cbn; auto; [rewrite lookup_alter_is_Some; eauto|lia].
  - intros id [x [Hne Hx]%lookup_delete_Some]. apply (core_disj_pr p Hc). eauto.
  - intros id [x [Hne Hx]%lookup_delete_Some].
    rewrite lookup_insert_ne by done. apply (core_disj_pa p Hc). eauto.
  - intros id Hid. rewrite lookup_insert_ne; auto with policy.
    intros ->. pose proof (core_disj_pr p Hc id (mk_is_Some _ _ Hpend)) as Hn.
    rewrite Hn in Hid. by destruct Hid.
  - eapply (NoDup_active_tail _ p); [done|]. by eapply active_approve.
Qed.

(** ** The commands as a transition system *)

Lemma new_roles_ok (owner : IdentityId) : roles_ok owner ∅ ∅ {[owner]}.
Proof.
  constructor; [set_solver|set_solver| |set_solver|by rewrite lookup_empty|set_solver|].
  - rewrite size_empty. lia.
  - intros a g. by rewrite lookup_empty.
Qed.

Lemma new_core scope owner : core (new scope owner).
Proof.
  constructor; cbn; auto using new_roles_ok; try by intros ? ?; rewrite lookup_empty.
  - done.
  - unfold active; cbn. rewrite !btree_values_empty. constructor.
Qed.

Lemma discard_Ok {A} (m : Cmd A) p u p' :
  discard m p = (Ok u, p') → ∃ a, m p = (Ok a, p').
Proof. unfold discard. intros H. st_inv H. eauto. Qed.

Lemma run_core e c p u p' : command_typed c → core p → run e c p = (Ok u, p') → core p'.
Proof.
  intros Ht Hc H. destruct c; cbn [run] in H; apply discard_Ok in H as [a H];
    [eapply grant_admin_core|eapply revoke_admin_core|eapply remove_member_core
    |eapply issue_invite_core|eapply revoke_invite_core|eapply request_join_core
    |eapply reserve_join_core|eapply finalize_reserved_join_core
    |eapply release_join_reservation_core|eapply approve_join_core]; eassumption.
Qed.

Lemma discard_Err {A} (m : Cmd A) p e p' :
  discard m p = (Err e, p') → m p = (Err e, p').
Proof.
  unfold discard, mbind, ST_bind. destruct (m p) as [[a|err] q]; [done|].
  by intros [= -> ->].
Qed.

(** The one command that assigns before its last check: the check cannot fail
    where the invariant holds. *)
Lemma finalize_reserved_join_Err e q n p err p' :
  core p → finalize_reserved_join e q n p = (Err err, p') → p' = p.
Proof.
  intros Hc. unfold finalize_reserved_join, mbind, ST_bind, get, lift.
  destruct (next_mutation_revision p e); [|by intros [= _ <-]].
  destruct (reject_if _ AlreadyApproved); [|by intros [= _ <-]].
  destruct (ok_or _ ReservedJoinNotFound) as [rj|] eqn:Hrj; [|by intros [= _ <-]].
  destruct (reject_if _ AlreadyMember); [|by intros [= _ <-]].
  destruct (ok_or _ ReservationInvariantViolation) as [i|] eqn:Hi; [|by intros [= _ <-]].
  destruct (ok_or (u32_checked_sub _ _) _) as [k|] eqn:Hk; [|by intros [= _ <-]].
  apply ok_or_Ok in Hrj, Hi. apply ok_or_Ok, checked_Some in Hk as [-> Hk].
  destruct (core_invites p Hc _ _ Hi) as [_ _ Hmax Hlim _ _ Hu _].
  pose proof (count_by_nonneg app_invite_id rj.(res_invite_id) (btree_values p.(approved_joins))).
  assert (u32_checked_add i.(inv_use_count) 1 = Some (i.(inv_use_count) + 1)) as ->
    by (apply checked_Some; lia).
  done.
Qed.

Lemma run_Err e c p err p' : core p → run e c p = (Err err, p') → p' = p.
Proof.
  intros Hc H. destruct c; cbn [run] in H; apply discard_Err in H;
    try (by eapply finalize_reserved_join_Err); revert H;
    (match goal with |- ?m _ = _ → _ => cut (atomic m) end; [intros Ha; apply Ha|]);
    unfold grant_admin, revoke_admin, remove_member, issue_invite, revoke_invite,
      request_join, reserve_join, release_join_reservation, approve_join,
      update_invite, set_revision; solve_atomic.
Qed.

Inductive step : GroupPolicy → GroupPolicy → Prop :=
| step_command e c p : command_typed c → step p (exec (run e c) p).

Definition steps : GroupPolicy → GroupPolicy → Prop := rtc step.

Definition reachable (p : GroupPolicy) : Prop := ∃ scope owner, steps (new scope owner) p.

(** A step either fails and changes nothing or is a successful command. *)
Lemma step_inv p p' :
  core p → step p p' → p' = p ∨ ∃ e c, command_typed c ∧ run e c p = (Ok tt, p').
Proof.
  intros Hc Hs. destruct Hs as [e c p Ht]. unfold exec.
  destruct (run e c p) as [[[]|err] p'] eqn:Hr; simpl; eauto.
  left. by eapply run_Err.
Qed.

(** Rule induction over successful commands: the form every history theorem uses. *)
Lemma steps_ind_core (P : GroupPolicy → Prop) :
  (∀ e c p p', core p → command_typed c → run e c p = (Ok tt, p') → P p → P p') →
  ∀ p p', core p → P p → steps p p' → core p' ∧ P p'.
Proof.
  intros Hstep p p' Hc HP Hs. induction Hs as [p|p q p' Hpq Hqp IH]; [done|].
  destruct (step_inv _ _ Hc Hpq) as [->|(e & c & Ht & Hr)]; [by apply IH|].
  apply IH; eauto using run_core.
Qed.

Lemma steps_core p p' : core p → steps p p' → core p'.
Proof. intros Hc Hs. by destruct (steps_ind_core (λ _, True) ltac:(done) p p'). Qed.

(** ** What the commands promise *)

(** A successful command observed the current revision, advances it by one and
    keeps scope, owner, authority history and invitations. *)
Lemma run_Ok_extends e c p u p' :
  core p → run e c p = (Ok u, p') →
  e = p.(revision) ∧ p'.(revision) = p.(revision) + 1 ∧ extends p p'.
Proof.
  intros Hc H. pose proof (ro_gen_valid _ _ _ _ (core_roles p Hc)) as Hv.
  destruct c; cbn [run] in H; apply discard_Ok in H as [a H]; cmd_inv H;
    (split; [done|split; [done|]]); solve_extends;
    try (intros id Hid; by rewrite ?lookup_insert_is_Some', ?lookup_alter_is_Some; auto).
  apply gens_le_insert.
  match goal with H : next_admin_authorization_generation _ _ = _ |- _ =>
    by apply next_generation_Ok in H as [_ ?] end.
Qed.

(** C5. Optimistic concurrency of the group aggregate: every command either
    succeeds, in which case it was given exactly the current revision, which it
    advances by one, or fails and leaves the whole aggregate untouched (even
    [finalize_reserved_join], which assigns a counter before its last check). *)
Theorem command_revision_and_atomicity e c p :
  core p →
  match run e c p with
  | (Ok _, p') => e = p.(revision) ∧ p'.(revision) = p.(revision) + 1
  | (Err _, p') => p' = p
  end.
Proof.
  intros Hc. destruct (run e c p) as [[u|err] p'] eqn:H.
  - apply run_Ok_extends in H as (? & ? & _); auto.
  - by eapply run_Err.
Qed.

(** C1. The invariant of the group aggregate holds in every state a sequence of
    commands can reach from a new group, whatever the commands answered: at
    most five administrators, all of them members, the owner among the members
    and not an administrator, invitation counters that equal the join records
    they count, request identifiers in one workflow only, and at most one
    workflow in flight per candidate. *)
Theorem reachable_core p : reachable p → core p.
Proof. intros (scope & owner & Hs). eapply steps_core; [apply new_core|done]. Qed.

(** Where the authority to admit, invite and administer comes from. *)
Definition authorized (p : GroupPolicy) (c : Command) : Prop :=
  match c with
  | GrantAdmin actor _ | RevokeAdmin actor _ | RemoveMember actor _ =>
      actor = p.(owner_id)
  | IssueInvite actor _ _ _ _ _ | RevokeInvite actor _
  | ReserveJoin actor _ _ | ApproveJoin actor _ _ =>
      actor = p.(owner_id) ∨ actor ∈ p.(administrators)
  | RequestJoin actor candidate _ _ _ => actor = candidate
  | FinalizeReservedJoin q _ | ReleaseJoinReservation q =>
      is_Some (p.(reserved_joins) !! q)
  end.

Lemma can_issue_invite_true p a :
  can_issue_invite p a = true ↔ a = p.(owner_id) ∨ a ∈ p.(administrators).
Proof. unfold can_issue_invite, role_of. repeat case_decide; naive_solver. Qed.

(** C6. No command takes effect without authority: role changes need the owner,
    invitations and approvals need the owner or a current administrator, a join
    request needs the candidate itself, and a remote outcome needs a
    reservation. *)
Theorem command_authorized e c p p' :
  core p → run e c p = (Ok tt, p') → authorized p c.
Proof.
  intros Hc H. destruct c; cbn [run] in H; apply discard_Ok in H as [x H]; cmd_inv H; cbn;
    eauto;
    try (match goal with
         | H : ensure_invite_authority _ _ = Ok _ |- _ => unfold ensure_invite_authority in H
         | H : ensure_approval_authority _ _ = Ok _ |- _ =>
             unfold ensure_approval_authority, can_approve_join in H
         end; apply can_issue_invite_true; by destruct (can_issue_invite _ _)).
  - match goal with H : invite_issuer_authority _ _ = _ |- _ =>
      unfold invite_issuer_authority in H; repeat case_decide; auto; done end.
  - apply dec_stable. done.
Qed.

(** ** Administrator terms *)

(** The term [g] of administrator [i] is over: it was superseded, or it is the
    latest one and [i] is no longer an administrator. *)
Definition term_over (i : IdentityId) (g : Revision) (p : GroupPolicy) : Prop :=
  ∃ current, p.(administrator_authorization_generations) !! i = Some current ∧
    (g < current ∨ (g ≤ current ∧ i ∉ p.(administrators))).

Lemma term_over_not_current i g p :
  term_over i g p → authority_is_current p i (AuthorityAdmin g) = false.
Proof.
  intros (current & Hc & Hg). unfold authority_is_current. rewrite Hc.
  destruct Hg as [?|[? ?]].
  - rewrite andb_comm, bool_decide_false by lia. done.
  - by rewrite bool_decide_false.
Qed.

Lemma term_over_step i g e c p p' :
  core p → run e c p = (Ok tt, p') → term_over i g p → term_over i g p'.
Proof.
  intros Hc H (current & Hcur & Hg).
  pose proof (ro_gen_valid _ _ _ _ (core_roles p Hc)) as Hv.
  destruct c; cbn [run] in H; apply discard_Ok in H as [x H]; cmd_inv H;
    try (by exists current).
  - match goal with H : next_admin_authorization_generation _ _ = _ |- _ =>
      apply next_generation_Ok in H as [_ Hlt]; [|done] end.
    destruct (decide (i = administrator_id)) as [<-|Hne].
    + eexists. cbn. rewrite lookup_insert_eq. split; [done|].
      specialize (Hlt _ Hcur). left. lia.
    + exists current. cbn. rewrite lookup_insert_ne by done. split; [done|].
      destruct Hg as [?|[? ?]]; [by left|]. right. split; [done|]. set_solver.
  - exists current. split; [done|]. cbn. destruct Hg as [?|[? ?]]; [by left|].
    right. split; [done|]. set_solver.
  - exists current. split; [done|]. cbn. destruct Hg as [?|[? ?]]; [by left|].
    right. split; [done|]. set_solver.
Qed.

(** C3. Losing an administrator term is permanent: once an administrator has
    been revoked or removed, no later command sequence, a new grant to the same
    identity included, makes an invitation issued under the lost term usable
    again or revalidates a reservation made under it. *)
Theorem revoked_term_is_dead i g p p' :
  core p → term_over i g p → steps p p' →
  (∀ id inv candidate now, p'.(invitations) !! id = Some inv →
     inv.(inv_issuer_id) = i → inv.(inv_issuer_authority) = AuthorityAdmin g →
     ∃ err, ensure_invite_usable p' inv candidate now = Err err) ∧
  (∀ q rj, p'.(reserved_joins) !! q = Some rj →
     rj.(res_reserved_by) = i → rj.(res_reserved_authority) = AuthorityAdmin g →
     validate_reserved_join_authority p' q = Err InviteIssuerNoLongerAuthorized).
Proof.
  intros Hc Ht Hs.
  destruct (steps_ind_core (term_over i g)) with (p := p) (p' := p') as [Hc' Ht'];
    [intros; by eapply term_over_step|done..|].
  apply term_over_not_current in Ht'. split.
  - intros id inv c n _ Hi Ha.
    destruct (ensure_invite_usable p' inv c n) as [u|err] eqn:Hu; [|by exists err].
    apply ensure_invite_usable_Ok in Hu as (_ & _ & _ & Hcur & _). by rewrite Hi, Ha, Ht' in Hcur.
  - intros q rj Hq Hi Ha. unfold validate_reserved_join_authority. rewrite Hq. cbn.
    by rewrite Hi, Ha, Ht'.
Qed.

(** The two commands that end a term. *)
Lemma revoke_ends_term e a i p p' g :
  core p → p.(administrator_authorization_generations) !! i = Some g →
  (run e (RevokeAdmin a i) p = (Ok tt, p') ∨ run e (RemoveMember a i) p = (Ok tt, p')) →
  term_over i g p'.
Proof.
  intros Hc Hg [H|H]; cbn [run] in H; apply discard_Ok in H as [x H]; cmd_inv H;
    exists g; (split; [done|]); right; (split; [lia|]); cbn; set_solver.
Qed.

(** ** Invitations and membership *)

(** C4. An invitation never admits more than it allows: in every reachable
    state the joins approved through it and the reservations that still hold
    one of its uses number at most [max_uses], and its two stored counters are
    exactly those numbers. *)
Theorem invite_capacity p id inv :
  reachable p → p.(invitations) !! id = Some inv →
  let approved := count_by app_invite_id id (btree_values p.(approved_joins)) in
  let reserved := count_by res_invite_id id (btree_values p.(reserved_joins)) in
  inv.(inv_use_count) = approved ∧ inv.(inv_reserved_use_count) = reserved ∧
  approved + reserved ≤ inv.(inv_max_uses).
Proof.
  intros (scope & owner & Hs) Hi. pose proof (steps_core _ _ (new_core scope owner) Hs) as Hc.
  destruct (core_invites p Hc _ _ Hi) as [_ _ _ Hlim _ _ Hu Hr]. cbn zeta.
  rewrite <-Hu, <-Hr. done.
Qed.

(** A non-owner member has an approved join or an administrator grant behind it. *)
Definition admitted (p : GroupPolicy) : Prop :=
  ∀ m, m ∈ p.(members) → m = p.(owner_id) ∨
    is_Some (p.(administrator_authorization_generations) !! m) ∨
    ∃ q a, p.(approved_joins) !! q = Some a ∧ a.(app_candidate_id) = m.

Lemma admitted_step e c p p' :
  core p → run e c p = (Ok tt, p') → admitted p → admitted p'.
Proof.
  intros Hc H Ha m Hm.
  destruct c; cbn [run] in H; apply discard_Ok in H as [x H]; cmd_inv H;
    try (by apply Ha).
  - rewrite lookup_insert_is_Some'. apply elem_of_union in Hm as [Hm|Hm].
    + apply elem_of_singleton in Hm as ->. eauto.
    + destruct (Ha m Hm) as [?|[?|?]]; auto.
  - apply Ha. set_solver.
  - apply elem_of_union in Hm as [Hm|Hm].
    + apply elem_of_singleton in Hm as ->. right; right. eexists _, _.
      by rewrite lookup_insert_eq.
    + destruct (Ha m Hm) as [?|[?|(q & a & Hq & ?)]]; auto.
      right; right. exists q, a. rewrite lookup_insert_ne; [done|naive_solver].
  - apply elem_of_union in Hm as [Hm|Hm].
    + apply elem_of_singleton in Hm as ->. right; right. eexists _, _.
      by rewrite lookup_insert_eq.
    + destruct (Ha m Hm) as [?|[?|(q & a & Hq & ?)]]; auto.
      right; right. exists q, a. rewrite lookup_insert_ne; [done|naive_solver].
Qed.

(** Nobody is a member by accident: in every reachable state a member is
    the owner, was granted administrator rights by the owner, or is the
    candidate of an approved join through an invitation of this group. *)
Theorem member_provenance p m :
  reachable p → m ∈ p.(members) →
  m = p.(owner_id) ∨
  is_Some (p.(administrator_authorization_generations) !! m) ∨
  ∃ q a inv, p.(approved_joins) !! q = Some a ∧ a.(app_candidate_id) = m ∧
    p.(invitations) !! a.(app_invite_id) = Some inv ∧ inv.(inv_scope) = p.(scope).
Proof.
  intros (scope & owner & Hs) Hm.
  destruct (steps_ind_core admitted) with (p := new scope owner) (p' := p) as [Hc Ha].
  - intros; by eapply admitted_step.
  - apply new_core.
  - intros k Hk. left. cbn in *. set_solver.
  - done.
  - destruct (Ha m Hm) as [?|[?|(q & a & Hq & ?)]]; auto. right; right.
    destruct (core_approved p Hc _ _ Hq) as [_ [inv Hi] _]. exists q, a, inv.
    destruct (core_invites p Hc _ _ Hi). auto.
Qed.

Definition keeps_approvals (p0 p : GroupPolicy) : Prop :=
  ∀ q a, p0.(approved_joins) !! q = Some a → p.(approved_joins) !! q = Some a.

Lemma keeps_approvals_step p0 e c p p' :
  run e c p = (Ok tt, p') → keeps_approvals p0 p → keeps_approvals p0 p'.
Proof.
  intros H Ha q a Hq. specialize (Ha q a Hq).
  destruct c; cbn [run] in H; apply discard_Ok in H as [x H]; cmd_inv H; try done;
    (rewrite lookup_insert_ne; [done|congruence]).
Qed.

(** The admission history is append-only and a request identifier is
    single-use: an approval record is never changed or dropped, and once a
    request is approved no later command can request, reserve, approve,
    finalize or release it again. *)
Theorem approval_is_final p p' q a :
  core p → p.(approved_joins) !! q = Some a → steps p p' →
  p'.(approved_joins) !! q = Some a ∧
  ∀ e c p'', run e c p' = (Ok tt, p'') →
    match c with
    | RequestJoin _ _ r _ _ | ReserveJoin _ r _ | ApproveJoin _ r _
    | FinalizeReservedJoin r _ | ReleaseJoinReservation r => r ≠ q
    | _ => True
    end.
Proof.
  intros Hc Hq Hs.
  destruct (steps_ind_core (keeps_approvals p)) with (p := p) (p' := p') as [Hc' Ha].
  { intros. by eapply keeps_approvals_step. } { done. } { by intros ? ?. } { done. }
  specialize (Ha q a Hq). split; [done|].
  intros e c p'' H. destruct c; cbn [run] in H; try done; apply discard_Ok in H as [x H];
    cmd_inv H; try congruence.
  intros ->. match goal with H : reserved_joins p' !! q = Some _ |- _ =>
    rewrite (core_disj_ra p' Hc') in Ha by eauto end. done.
Qed.

(** A remote outcome can always be recorded: while a reservation is held
    for a candidate who is not yet a member, both [finalize_reserved_join] and
    [release_join_reservation] succeed at the current revision, whatever
    happened to the invitation or its issuer since (expiry, revocation, loss of
    office); finalizing admits exactly that candidate and consumes one use,
    releasing gives the use back. *)
Theorem reservation_can_be_settled p q rj now :
  core p → p.(reserved_joins) !! q = Some rj → p.(revision) ≠ Revision.MAX →
  rj.(res_candidate_id) ∉ p.(members) →
  (∃ a p', finalize_reserved_join p.(revision) q now p = (Ok a, p') ∧
     p'.(members) = {[ rj.(res_candidate_id) ]} ∪ p.(members) ∧
     p'.(reserved_joins) = delete q p.(reserved_joins) ∧
     p'.(approved_joins) = <[ q := a ]> p.(approved_joins) ∧
     a.(app_candidate_id) = rj.(res_candidate_id) ∧
     a.(app_approved_by) = rj.(res_reserved_by)) ∧
  (∃ p', release_join_reservation p.(revision) q p = (Ok rj, p') ∧
     p'.(members) = p.(members) ∧ p'.(approved_joins) = p.(approved_joins) ∧
     p'.(reserved_joins) = delete q p.(reserved_joins)).
Proof.
  intros Hc Hq Hmax Hm.
  destruct (core_reserved p Hc _ _ Hq) as [_ [i Hi] _ _].
  destruct (core_invites p Hc _ _ Hi) as [_ _ Hmx Hlim _ _ Hu Hr].
  pose proof (count_by_nonneg app_invite_id rj.(res_invite_id) (btree_values p.(approved_joins))).
  assert (1 ≤ i.(inv_reserved_use_count)).
  { rewrite Hr. eapply count_by_pos; [|done]. apply elem_of_btree_values. eauto. }
  assert (u32_checked_sub i.(inv_reserved_use_count) 1 = Some (i.(inv_reserved_use_count) - 1))
    as Hsub by (apply checked_Some; lia).
  assert (u32_checked_add i.(inv_use_count) 1 = Some (i.(inv_use_count) + 1))
    as Hadd by (apply checked_Some; lia).
  assert (next_mutation_revision p p.(revision) = Ok (p.(revision) + 1)) as Hnext.
  { unfold next_mutation_revision, Revision.checked_next, reject_if.
    by rewrite !decide_False by tauto. }
  split.
  - unfold finalize_reserved_join, mbind, ST_bind, get, lift. rewrite Hnext.
    rewrite (core_disj_ra p Hc q) by eauto. cbn. rewrite Hq. cbn.
    unfold reject_if. rewrite !decide_False by (done || by intros []).
    rewrite Hi. cbn. rewrite Hsub. cbn.
    rewrite Hadd. cbn. by eexists _, _.
  - unfold release_join_reservation, mbind, ST_bind, get, lift. rewrite Hnext.
    rewrite Hq. cbn. rewrite Hi. cbn. rewrite Hsub. cbn. by eexists.
Qed.

(** ** A concrete group, for the theorems' witnesses *)

(** Commands run in order, each at the revision it finds. *)
Definition run_all (cs : list Command) (p : GroupPolicy) : GroupPolicy :=
  foldl (λ p c, exec (run p.(revision) c) p) p cs.

Lemma steps_run_all cs p : Forall command_typed cs → steps p (run_all cs p).
Proof.
  revert p. induction cs as [|c cs IH]; intros p Hcs; [apply rtc_refl|].
  apply Forall_cons in Hcs as [Hc Hcs]. cbn.
  eapply rtc_l; [by apply step_command|]. by apply IH.
Qed.

Module Demo.
Definition person (n : Z) : IdentityId := MkPublicId (replicate 32 n).
Definition owner : IdentityId := person 1.
Definition alice : IdentityId := person 2.
Definition bob : IdentityId := person 3.
Definition carol : IdentityId := person 4.
Definition invite1 : InviteCapabilityId := UuidV7 17.
Definition request1 : JoinRequestId := UuidV7 21.
Definition request2 : JoinRequestId := UuidV7 22.
Definition group : GroupPolicy := new (PrivateConversation (UuidV7 5)) owner.

(** Alice is an administrator and has invited; Bob's join is reserved. *)
Definition to_reserved : list Command :=
  [ GrantAdmin owner alice; IssueInvite alice invite1 None 2 1000 10;
    RequestJoin bob bob request1 invite1 20; ReserveJoin alice request1 30 ].
(** Bob has joined and Carol's request is pending. *)
Definition to_joined : list Command :=
  to_reserved ++ [ FinalizeReservedJoin request1 40;
                   RequestJoin carol carol request2 invite1 50 ].

Definition reserved_group : GroupPolicy := run_all to_reserved group.
Definition joined_group : GroupPolicy := run_all to_joined group.
(** Alice loses office while she holds the reservation for Bob. *)
Definition revoked_group : GroupPolicy :=
  run_all [ RevokeAdmin owner alice ] reserved_group.

Lemma typed_reserved : Forall command_typed to_reserved.
Proof. repeat constructor; cbn; unfold u32_max; lia. Qed.
Lemma typed_joined : Forall command_typed to_joined.
Proof. repeat constructor; cbn; unfold u32_max; lia. Qed.

Lemma core_reserved_group : core reserved_group.
Proof. eapply steps_core; [apply new_core|]. apply steps_run_all, typed_reserved. Qed.
Lemma core_joined_group : core joined_group.
Proof. eapply steps_core; [apply new_core|]. apply steps_run_all, typed_joined. Qed.
Lemma reachable_joined_group : reachable joined_group.
Proof. eexists _, _. apply steps_run_all, typed_joined. Qed.
Lemma core_revoked_group : core revoked_group.
Proof.
  eapply steps_core; [apply core_reserved_group|]. apply steps_run_all. by repeat constructor.
Qed.

Lemma command_revision_and_atomicity_witness :
  core reserved_group ∧
  match run 5 (FinalizeReservedJoin request1 40) reserved_group with
  | (Ok _, p') => 5 = reserved_group.(revision) ∧ p'.(revision) = reserved_group.(revision) + 1
  | (Err _, p') => p' = reserved_group
  end.
Proof.
  split; [exact core_reserved_group|].
  apply (command_revision_and_atomicity 5 (FinalizeReservedJoin request1 40)).
  exact core_reserved_group.
Defined.

Lemma reachable_core_witness :
  core joined_group ∧ size joined_group.(members) = 3%nat.
Proof.
  split; [apply (reachable_core joined_group); exact reachable_joined_group|].
  vm_compute. reflexivity.
Defined.

Lemma command_authorized_witness :
  alice ≠ owner ∧ authorized reserved_group (RevokeInvite alice invite1).
Proof.
  split; [by intros [=]|].
  apply (command_authorized 5 _ _ (exec (run 5 (RevokeInvite alice invite1)) reserved_group)).
  - exact core_reserved_group.
  - vm_compute. reflexivity.
Defined.

Lemma revoked_term_is_dead_witness :
  ∃ rj, (run_all [GrantAdmin owner alice] revoked_group).(reserved_joins) !! request1 = Some rj ∧
  alice ∈ (run_all [GrantAdmin owner alice] revoked_group).(administrators) ∧
  validate_reserved_join_authority (run_all [GrantAdmin owner alice] revoked_group) request1
    = Err InviteIssuerNoLongerAuthorized.
Proof.
  eexists. split; [vm_compute; reflexivity|]. split.
  - apply (bool_decide_unpack _). vm_compute. exact I.
  - eapply (revoked_term_is_dead alice 1 revoked_group).
    + exact core_revoked_group.
    + exists 1. split; [vm_compute; reflexivity|]. right. split; [lia|].
      apply (bool_decide_unpack _). vm_compute. exact I.
    + apply steps_run_all. by repeat constructor.
    + vm_compute. reflexivity.
    + vm_compute. reflexivity.
    + vm_compute. reflexivity.
Defined.

Lemma invite_capacity_witness :
  ∃ inv, joined_group.(invitations) !! invite1 = Some inv ∧ inv.(inv_max_uses) = 2 ∧
  inv.(inv_use_count) = count_by app_invite_id invite1 (btree_values joined_group.(approved_joins)).
Proof.
  eexists. split; [vm_compute; reflexivity|]. split; [reflexivity|].
  apply (invite_capacity joined_group invite1); [exact reachable_joined_group|].
  vm_compute. reflexivity.
Defined.

Lemma member_provenance_witness :
  bob = joined_group.(owner_id) ∨
  is_Some (joined_group.(administrator_authorization_generations) !! bob) ∨
  ∃ q a inv, joined_group.(approved_joins) !! q = Some a ∧ a.(app_candidate_id) = bob ∧
    joined_group.(invitations) !! a.(app_invite_id) = Some inv ∧
    inv.(inv_scope) = joined_group.(scope).
Proof.
  apply (member_provenance joined_group bob); [exact reachable_joined_group|].
  apply (bool_decide_unpack _). vm_compute. exact I.
Defined.

Lemma approval_is_final_witness :
  ∃ a, joined_group.(approved_joins) !! request1 = Some a ∧
  (run_all [RemoveMember owner bob] joined_group).(approved_joins) !! request1 = Some a.
Proof.
  eexists. split; [vm_compute; reflexivity|].
  apply (approval_is_final joined_group _ request1).
  - exact core_joined_group.
  - vm_compute. reflexivity.
  - apply steps_run_all. by repeat constructor.
Defined.

Lemma reservation_can_be_settled_witness :
  ∃ a p', finalize_reserved_join revoked_group.(revision) request1 99 revoked_group = (Ok a, p').
Proof.
  edestruct (reservation_can_be_settled revoked_group request1) as [(a & p' & Ha & _) _].
  - exact core_revoked_group.
  - vm_compute. reflexivity.
  - vm_compute. discriminate.
  - apply (bool_decide_unpack _). vm_compute. exact I.
  - exists a, p'. exact Ha.
Defined.
End Demo.
