(* ===== verification/GroupPolicyRehydrate.v ===== *)
(** * Group authorization policy: what rehydration accepts

    The validator of [GroupPolicySnapshot.v] accepts exactly the images of
    aggregates that satisfy the invariant of [GroupPolicyInv.v] together with
    [persistable], which relates members to join records.  Commands keep the
    invariant; which of them keep [persistable] is settled here too. *)

From S2P Require Import Prelude Domain GroupPolicy GroupPolicySnapshot GroupPolicyInv.

(** What rehydration asks beyond the invariant. *)
Record persistable (p : GroupPolicy) : Prop := {
  ps_pending q x : p.(pending_joins) !! q = Some x → x.(pend_candidate_id) ∉ p.(members);
  ps_reserved q x : p.(reserved_joins) !! q = Some x → x.(res_candidate_id) ∉ p.(members);
  ps_approved q x : p.(approved_joins) !! q = Some x → x.(app_candidate_id) ∈ p.(members)
}.

(** The numeric fields are values of their Rust types. *)
Record snapshot_typed (s : GroupPolicySnapshot) : Prop := {
  st_revision : Revision.valid s.(snap_revision);
  st_gens a g : (a, g) ∈ s.(snap_administrator_authorization_generations) → Revision.valid g;
  st_invites i : i ∈ s.(snap_invitations) →
    0 ≤ i.(inv_max_uses) ≤ u32_max ∧ 0 ≤ i.(inv_use_count) ∧ 0 ≤ i.(inv_reserved_use_count)
}.

(** The lists of a snapshot hold an aggregate's collections, in any order. *)
Record represents (s : GroupPolicySnapshot) (p : GroupPolicy) : Prop := {
  rp_scope : p.(scope) = s.(snap_scope);
  rp_owner : p.(owner_id) = s.(snap_owner_id);
  rp_revision : p.(revision) = s.(snap_revision);
  rp_admins : s.(snap_administrators) ≡ₚ bset_iter p.(administrators);
  rp_gens : s.(snap_administrator_authorization_generations)
            ≡ₚ btree_iter p.(administrator_authorization_generations);
  rp_members : s.(snap_members) ≡ₚ bset_iter p.(members);
  rp_invites : s.(snap_invitations) ≡ₚ btree_values p.(invitations);
  rp_pending : s.(snap_pending_joins) ≡ₚ btree_values p.(pending_joins);
  rp_reserved : s.(snap_reserved_joins) ≡ₚ btree_values p.(reserved_joins);
  rp_approved : s.(snap_approved_joins) ≡ₚ btree_values p.(approved_joins)
}.

(** ** The loops of the validator *)

Lemma collect_snapshot_set_iff {T} `{Countable T, Ord T} (l : list T) r s :
  collect_snapshot_set l r = Ok s ↔ l ≡ₚ bset_iter s.
Proof.
  rewrite <-list_to_set_iff. unfold collect_snapshot_set.
  rewrite (try_fold_guarded _ (λ s x, x ∉ s) (λ s x, {[x]} ∪ s)).
  2: { intros s0 x s1. rewrite result_bind_Ok. setoid_rewrite reject_if_Ok. naive_solver. }
  pose proof (fresh_prefix_NoDup id ∅ l) as Hf. unfold collect_by in Hf.
  pose proof (collect_by_eq id ∅ l) as He. unfold collect_by in He.
  cbn in *. rewrite Hf, He, list_fmap_id. rewrite (left_id_L ∅ (∪)).
  split.
  - by intros [[? _] ->].
  - intros [? ->]. split; [split; [done|set_solver]|done].
Qed.

Lemma check_generations_iff s l m :
  try_fold (check_generation s) l ∅ = Ok m ↔
  l ≡ₚ btree_iter m ∧ m !! s.(snap_owner_id) = None.
Proof.
  rewrite (try_fold_guarded _
    (λ m e, e.1 ≠ s.(snap_owner_id) ∧ m !! e.1 = None) (λ m e, <[e.1 := e.2]> m)).
  2: { intros m0 x m1. unfold check_generation. rewrite result_bind_Ok.
       setoid_rewrite reject_if_Ok. setoid_rewrite eq_None_not_Some. naive_solver. }
  rewrite <-list_to_map_iff.
  assert (Hdom : ∀ l k, foldl (λ (m : gmap IdentityId Revision) e, <[e.1 := e.2]> m) ∅ l !! k
    = None ↔ k ∉ l.*1).
  { clear l. intros l k. induction l as [|e l IH] using rev_ind; [set_solver|].
    rewrite foldl_app, fmap_app. cbn. rewrite lookup_insert_None, IH. set_solver. }
  split.
  - intros [Hg ->]. rewrite Hdom. split; [split; [|done]|].
    + apply (distinct_prefix_NoDup fst). intros pre x post Hl.
      apply Hdom. by apply Hg in Hl as [_ ?].
    + intros ([k v] & Hk & Hin)%list_elem_of_fmap.
      apply list_elem_of_split in Hin as (pre & post & ->).
      destruct (Hg pre (k, v) post eq_refl) as [Ho _]. done.
  - intros [[Hnd ->] Ho]. rewrite Hdom in Ho. split; [|done].
    intros pre x post Hl. split.
    + intros Hx. apply Ho. rewrite <-Hx, Hl. apply list_elem_of_fmap_2. set_solver.
    + rewrite Hdom. by eapply (distinct_prefix_NoDup fst).
Qed.

Lemma check_authority_iff s gens who auth r1 r2 u :
  check_authority s gens who auth r1 r2 = Ok u ↔
  authority_known s.(snap_owner_id) gens who auth.
Proof.
  destruct auth as [|g]; cbn; rewrite reject_if_Ok.
  - split; [apply dec_stable|tauto].
  - destruct (gens !! who) as [c|]; [|naive_solver].
    rewrite bool_decide_eq_true. naive_solver lia.
Qed.

(** The conditions on one invitation that do not look at the joins. *)
Definition invite_plain (s : GroupPolicySnapshot) (gens : gmap IdentityId Revision)
    (i : InviteCapability) : Prop :=
  i.(inv_scope) = s.(snap_scope) ∧ i.(inv_max_uses) ≠ 0 ∧
  0 ≤ i.(inv_use_count) + i.(inv_reserved_use_count) ≤ u32_max ∧
  i.(inv_use_count) + i.(inv_reserved_use_count) ≤ i.(inv_max_uses) ∧
  i.(inv_policy_revision) ≤ s.(snap_revision) ∧
  authority_known s.(snap_owner_id) gens i.(inv_issuer_id) i.(inv_issuer_authority).

Lemma check_invitation_iff s gens m i m' :
  check_invitation s gens m i = Ok m' ↔
  (m !! i.(inv_invite_id) = None ∧ invite_plain s gens i) ∧
  m' = <[ i.(inv_invite_id) := i ]> m.
Proof.
  unfold check_invitation, invite_plain. split.
  - intros H. res_inv H.
    match goal with H : check_authority _ _ _ _ _ _ = _ |- _ =>
      apply check_authority_iff in H end.
    match goal with H : u32_checked_add _ _ = _ |- _ => apply checked_Some in H as [-> ?] end.
    rewrite <-eq_None_not_Some in *. subst. split_and!; try tauto; try lia.
    apply dec_stable. tauto.
  - intros [(Hn & Hs & Hm & Hu & Hl & Hr & Ha) ->].
    ok_step; [naive_solver|]. ok_step; [by apply checked_Some|].
    ok_step; [lia|]. ok_step; [by apply (check_authority_iff _ _ _ _ _ _ tt)|].
    ok_step; [by apply eq_None_not_Some|done].
Qed.

Lemma check_invitations_iff s gens l m :
  try_fold (check_invitation s gens) l ∅ = Ok m ↔
  (l ≡ₚ btree_values m ∧ ∀ k x, m !! k = Some x → inv_invite_id x = k) ∧
  ∀ i, i ∈ l → invite_plain s gens i.
Proof.
  rewrite (try_fold_guarded _
    (λ m i, m !! i.(inv_invite_id) = None ∧ invite_plain s gens i)
    (λ m i, <[ i.(inv_invite_id) := i ]> m)) by apply check_invitation_iff.
  rewrite <-index_by_iff, <-(prefix_forall (invite_plain s gens) l).
  split.
  - intros [Hg ->]. split; [split; [|done]|].
    2: { intros pre x post Hl. by apply Hg in Hl as [_ ?]. }
    apply distinct_prefix_NoDup. intros pre x post Hl.
    apply index_by_None. by apply Hg in Hl as [? _].
  - intros [[Hnd ->] Hp]. split; [|done]. intros pre x post Hl. split; [|by eapply Hp].
    apply index_by_None. by eapply distinct_prefix_NoDup.
Qed.

(** ** The three join loops *)

Definition push_pending (s : Joins) (x : PendingJoinRequest) : Joins :=
  MkJoins ({[ x.(pend_request_id) ]} ∪ s.(seen_join_ids))
    ({[ x.(pend_candidate_id) ]} ∪ s.(active_candidates))
    (<[ x.(pend_request_id) := x ]> s.(acc_pending))
    s.(expected_reservations) s.(acc_reserved) s.(expected_uses) s.(acc_approved).

Definition push_reserved (s : Joins) (x : ReservedJoin) : Joins :=
  MkJoins ({[ x.(res_request_id) ]} ∪ s.(seen_join_ids))
    ({[ x.(res_candidate_id) ]} ∪ s.(active_candidates)) s.(acc_pending)
    (<[ x.(res_invite_id) := default 0 (s.(expected_reservations) !! x.(res_invite_id)) + 1 ]>
      s.(expected_reservations))
    (<[ x.(res_request_id) := x ]> s.(acc_reserved)) s.(expected_uses) s.(acc_approved).

Definition push_approved (s : Joins) (x : ApprovedJoin) : Joins :=
  MkJoins ({[ x.(app_request_id) ]} ∪ s.(seen_join_ids)) s.(active_candidates)
    s.(acc_pending) s.(expected_reservations) s.(acc_reserved)
    (<[ x.(app_invite_id) := default 0 (s.(expected_uses) !! x.(app_invite_id)) + 1 ]>
      s.(expected_uses))
    (<[ x.(app_request_id) := x ]> s.(acc_approved)).

Lemma foldl_push_pending l s :
  foldl push_pending s l =
  MkJoins (collect_by pend_request_id s.(seen_join_ids) l)
    (collect_by pend_candidate_id s.(active_candidates) l)
    (index_by pend_request_id s.(acc_pending) l)
    s.(expected_reservations) s.(acc_reserved) s.(expected_uses) s.(acc_approved).
Proof. revert s. induction l as [|x l IH]; intros s; [by destruct s|]. cbn. by rewrite IH. Qed.

Lemma foldl_push_reserved l s :
  foldl push_reserved s l =
  MkJoins (collect_by res_request_id s.(seen_join_ids) l)
    (collect_by res_candidate_id s.(active_candidates) l) s.(acc_pending)
    (tally_by res_invite_id s.(expected_reservations) l)
    (index_by res_request_id s.(acc_reserved) l) s.(expected_uses) s.(acc_approved).
Proof. revert s. induction l as [|x l IH]; intros s; [by destruct s|]. cbn. by rewrite IH. Qed.

Lemma foldl_push_approved l s :
  foldl push_approved s l =
  MkJoins (collect_by app_request_id s.(seen_join_ids) l) s.(active_candidates)
    s.(acc_pending) s.(expected_reservations) s.(acc_reserved)
    (tally_by app_invite_id s.(expected_uses) l)
    (index_by app_request_id s.(acc_approved) l).
Proof. revert s. induction l as [|x l IH]; intros s; [by destruct s|]. cbn. by rewrite IH. Qed.

Lemma increment_snapshot_count_iff m id r m' :
  increment_snapshot_count m id r = Ok m' ↔
  0 ≤ default 0 (m !! id) + 1 ≤ u32_max ∧ m' = <[ id := default 0 (m !! id) + 1 ]> m.
Proof.
  unfold increment_snapshot_count, u32_checked_add. rewrite result_bind_Ok.
  setoid_rewrite ok_or_Ok. setoid_rewrite checked_Some. split.
  - intros (? & [-> ?] & [= <-]). done.
  - intros [? ->]. eexists. done.
Qed.

(** A tally that fits: no prefix overflows [u32]. *)
Definition tally_fits {A} (key : A → InviteCapabilityId) (m : gmap InviteCapabilityId Z)
    (l : list A) : Prop :=
  ∀ pre x post, l = pre ++ x :: post →
    0 ≤ default 0 (tally_by key m pre !! key x) + 1 ≤ u32_max.

Section loops.
Context (snap : GroupPolicySnapshot) (members : gset IdentityId)
  (gens : gmap IdentityId Revision)
  (invs : gmap InviteCapabilityId InviteCapability).

Definition pending_plain (x : PendingJoinRequest) : Prop :=
  is_Some (invs !! x.(pend_invite_id)) ∧ x.(pend_candidate_id) ∉ members.
Definition reserved_plain (x : ReservedJoin) : Prop :=
  is_Some (invs !! x.(res_invite_id)) ∧ x.(res_candidate_id) ∉ members ∧
  x.(res_policy_revision) ≤ snap.(snap_revision) ∧
  authority_known snap.(snap_owner_id) gens x.(res_reserved_by) x.(res_reserved_authority).
Definition approved_plain (x : ApprovedJoin) : Prop :=
  is_Some (invs !! x.(app_invite_id)) ∧ x.(app_candidate_id) ∈ members ∧
  x.(app_policy_revision) ≤ snap.(snap_revision).

Lemma pending_loop_iff l s0 s :
  try_fold (check_pending members invs) l s0 = Ok s ↔
  (NoDup (pend_request_id <$> l) ∧ ∀ x, x ∈ l → x.(pend_request_id) ∉ s0.(seen_join_ids)) ∧
  (NoDup (pend_candidate_id <$> l) ∧
    ∀ x, x ∈ l → x.(pend_candidate_id) ∉ s0.(active_candidates)) ∧
  (∀ x, x ∈ l → pending_plain x) ∧ s = foldl push_pending s0 l.
Proof.
  rewrite (try_fold_guarded _
    (λ s x, x.(pend_request_id) ∉ s.(seen_join_ids) ∧
      x.(pend_candidate_id) ∉ s.(active_candidates) ∧ pending_plain x) push_pending).
  2: { intros s1 x s2. unfold check_pending, pending_plain. rewrite result_bind_Ok.
       setoid_rewrite reject_if_Ok. rewrite <-not_eq_None_Some. naive_solver. }
  rewrite <-!fresh_prefix_NoDup, <-(prefix_forall pending_plain).
  setoid_rewrite foldl_push_pending. cbn. split.
  - intros [Hg ->]. split_and!; [| | |done]; intros pre x post Hl;
      destruct (Hg _ _ _ Hl); tauto.
  - intros (Ha & Hb & Hp & ->). split; [|done]. intros pre x post Hl.
    split; [by eapply Ha|split; [by eapply Hb|by eapply Hp]].
Qed.

Lemma reserved_loop_iff l s0 s :
  try_fold (check_reserved snap members gens invs) l s0 = Ok s ↔
  (NoDup (res_request_id <$> l) ∧ ∀ x, x ∈ l → x.(res_request_id) ∉ s0.(seen_join_ids)) ∧
  (NoDup (res_candidate_id <$> l) ∧
    ∀ x, x ∈ l → x.(res_candidate_id) ∉ s0.(active_candidates)) ∧
  (∀ x, x ∈ l → reserved_plain x) ∧ tally_fits res_invite_id s0.(expected_reservations) l ∧
  s = foldl push_reserved s0 l.
Proof.
  rewrite (try_fold_guarded _
    (λ s x, x.(res_request_id) ∉ s.(seen_join_ids) ∧
      x.(res_candidate_id) ∉ s.(active_candidates) ∧ reserved_plain x ∧
      0 ≤ default 0 (s.(expected_reservations) !! x.(res_invite_id)) + 1 ≤ u32_max)
    push_reserved).
  2: { intros s1 x s2. unfold check_reserved, reserved_plain. split.
       - intros H. res_inv H.
         match goal with H : check_authority _ _ _ _ _ _ = _ |- _ =>
           apply check_authority_iff in H end.
         match goal with H : increment_snapshot_count _ _ _ = _ |- _ =>
           apply increment_snapshot_count_iff in H as [? ->] end.
         rewrite <-not_eq_None_Some. subst. split; [|done]. split_and!; try tauto; lia.
       - intros [(? & ? & (Hi & ? & ? & ?) & ?) ->]. rewrite <-not_eq_None_Some in Hi.
         ok_step; [naive_solver lia|].
         ok_step; [by apply (check_authority_iff _ _ _ _ _ _ tt)|].
         by ok_step; [by apply increment_snapshot_count_iff|]. }
  rewrite <-!fresh_prefix_NoDup, <-(prefix_forall reserved_plain). unfold tally_fits.
  setoid_rewrite foldl_push_reserved. cbn. split.
  - intros [Hg ->]. split_and!; [| | | |done]; intros pre x post Hl;
      destruct (Hg _ _ _ Hl); tauto.
  - intros (Ha & Hb & Hp & Hf & ->). split; [|done]. intros pre x post Hl.
    split; [by eapply Ha|split; [by eapply Hb|split; [by eapply Hp|by eapply Hf]]].
Qed.

Lemma approved_loop_iff l s0 s :
  try_fold (check_approved snap members invs) l s0 = Ok s ↔
  (NoDup (app_request_id <$> l) ∧ ∀ x, x ∈ l → x.(app_request_id) ∉ s0.(seen_join_ids)) ∧
  (∀ x, x ∈ l → approved_plain x) ∧ tally_fits app_invite_id s0.(expected_uses) l ∧
  s = foldl push_approved s0 l.
Proof.
  rewrite (try_fold_guarded _
    (λ s x, x.(app_request_id) ∉ s.(seen_join_ids) ∧ approved_plain x ∧
      0 ≤ default 0 (s.(expected_uses) !! x.(app_invite_id)) + 1 ≤ u32_max)
    push_approved).
  2: { intros s1 x s2. unfold check_approved, approved_plain. split.
       - intros H. res_inv H.
         match goal with H : increment_snapshot_count _ _ _ = _ |- _ =>
           apply increment_snapshot_count_iff in H as [? ->] end.
         rewrite <-not_eq_None_Some. subst. split; [|done].
         split_and!; try tauto; try lia. apply dec_stable. tauto.
       - intros [(? & (Hi & ? & ?) & ?) ->]. rewrite <-not_eq_None_Some in Hi.
         ok_step; [naive_solver lia|].
         by ok_step; [by apply increment_snapshot_count_iff|]. }
  rewrite <-!fresh_prefix_NoDup, <-(prefix_forall approved_plain). unfold tally_fits.
  setoid_rewrite foldl_push_approved. cbn. split.
  - intros [Hg ->]. split_and!; [| | |done]; intros pre x post Hl;
      destruct (Hg _ _ _ Hl); tauto.
  - intros (Ha & Hp & Hf & ->). split; [|done]. intros pre x post Hl.
    split; [by eapply Ha|split; [by eapply Hp|by eapply Hf]].
Qed.
End loops.

Lemma check_counters_iff s l u :
  try_fold (check_counters s) l tt = Ok u ↔
  ∀ id i, (id, i) ∈ l →
    default 0 (s.(expected_reservations) !! id) = i.(inv_reserved_use_count) ∧
    default 0 (s.(expected_uses) !! id) = i.(inv_use_count).
Proof.
  rewrite (try_fold_guarded _ (λ _ e,
    default 0 (s.(expected_reservations) !! e.1) = e.2.(inv_reserved_use_count) ∧
    default 0 (s.(expected_uses) !! e.1) = e.2.(inv_use_count)) (λ _ _, tt)).
  2: { intros [] [id i] []. unfold check_counters. rewrite reject_if_Ok. cbn.
       split; [intros ?; split; [lia|done]|lia]. }
  rewrite prefix_forall. split.
  - intros [H _] id i Hin. apply (H _ Hin).
  - intros H. split; [intros [id i]; apply H|by destruct u, (foldl _ _ _)].
Qed.

Lemma admins_have_gens_iff (admins : gset IdentityId) (gens : gmap IdentityId Revision) :
  existsb (λ i, bool_decide (gens !! i = None)) (bset_iter admins) ≠ true ↔
  ∀ a, a ∈ admins → is_Some (gens !! a).
Proof.
  rewrite existsb_exists. split.
  - intros H a Ha. apply not_eq_None_Some. intros Hn. apply H. exists a.
    by rewrite <-list_elem_of_In, elem_of_bset_iter, bool_decide_eq_true.
  - intros H (a & Ha & Hn). apply bool_decide_eq_true in Hn.
    rewrite <-list_elem_of_In, elem_of_bset_iter in Ha.
    apply H in Ha. rewrite Hn in Ha. by destruct Ha.
Qed.

Lemma tally_fits_bound {A} (key : A → InviteCapabilityId) l :
  (∀ x, x ∈ l → count_by key (key x) l ≤ u32_max) → tally_fits key ∅ l.
Proof.
  intros Hb pre x post ->. rewrite tally_by_count, lookup_empty. cbn.
  pose proof (count_by_nonneg key (key x) pre). pose proof (count_by_nonneg key (key x) post).
  specialize (Hb x ltac:(set_solver)).
  rewrite count_by_app, count_by_cons, decide_True in Hb by done. lia.
Qed.

Definition start : Joins := MkJoins ∅ ∅ ∅ ∅ ∅ ∅ ∅.

(** The validator as one conjunction of conditions on the rebuilt collections. *)
Record accepted (s : GroupPolicySnapshot) (p : GroupPolicy) : Prop := {
  ac_owner : p.(owner_id) ∈ p.(members);
  ac_owner_admin : p.(owner_id) ∉ p.(administrators);
  ac_limit : (size p.(administrators) ≤ MAX_ADMINS)%nat;
  ac_subset : p.(administrators) ⊆ p.(members);
  ac_owner_gen : p.(administrator_authorization_generations) !! p.(owner_id) = None;
  ac_admin_gens a : a ∈ p.(administrators) →
    is_Some (p.(administrator_authorization_generations) !! a);
  ac_invites i : i ∈ s.(snap_invitations) →
    invite_plain s p.(administrator_authorization_generations) i;
  ac_pending x : x ∈ s.(snap_pending_joins) → pending_plain p.(members) p.(invitations) x;
  ac_reserved x : x ∈ s.(snap_reserved_joins) →
    reserved_plain s p.(members) p.(administrator_authorization_generations) p.(invitations) x;
  ac_approved x : x ∈ s.(snap_approved_joins) →
    approved_plain s p.(members) p.(invitations) x;
  ac_ids : NoDup ((pend_request_id <$> s.(snap_pending_joins)) ++
                  (res_request_id <$> s.(snap_reserved_joins)) ++
                  (app_request_id <$> s.(snap_approved_joins)));
  ac_candidates : NoDup ((pend_candidate_id <$> s.(snap_pending_joins)) ++
                         (res_candidate_id <$> s.(snap_reserved_joins)));
  ac_fits_reserved : tally_fits res_invite_id ∅ s.(snap_reserved_joins);
  ac_fits_approved : tally_fits app_invite_id ∅ s.(snap_approved_joins);
  ac_counters id i : p.(invitations) !! id = Some i →
    count_by res_invite_id id s.(snap_reserved_joins) = i.(inv_reserved_use_count) ∧
    count_by app_invite_id id s.(snap_approved_joins) = i.(inv_use_count);
  ac_keys_i k x : p.(invitations) !! k = Some x → x.(inv_invite_id) = k;
  ac_keys_p k x : p.(pending_joins) !! k = Some x → x.(pend_request_id) = k;
  ac_keys_r k x : p.(reserved_joins) !! k = Some x → x.(res_request_id) = k;
  ac_keys_a k x : p.(approved_joins) !! k = Some x → x.(app_request_id) = k
}.

Lemma app_NoDup_keys {K} (l l' : list K) :
  NoDup l → NoDup l' → (∀ k, k ∈ l' → k ∉ l) → NoDup (l ++ l').
Proof. intros. apply NoDup_app. naive_solver. Qed.

Lemma try_from_snapshot_sound s p :
  try_from_snapshot s = Ok p → represents s p ∧ accepted s p.
Proof.
  unfold try_from_snapshot, group_policy_from_snapshot. intros H. res_inv H.
  repeat match goal with
  | H : collect_snapshot_set _ _ = Ok _ |- _ => apply collect_snapshot_set_iff in H
  | H : ¬ ¬ (_ ⊆ _) |- _ => apply dec_stable in H
  | H : ¬ (_ ∉ _) |- _ => apply dec_stable in H
  | H : existsb _ _ ≠ true |- _ => rewrite admins_have_gens_iff in H
  | H : try_fold (check_generation _) _ _ = Ok _ |- _ =>
      apply check_generations_iff in H as [? ?]
  | H : try_fold (check_invitation _ _) _ _ = Ok _ |- _ =>
      apply check_invitations_iff in H as [[? ?] ?]
  | H : try_fold (check_pending _ _) _ _ = Ok _ |- _ =>
      apply pending_loop_iff in H as ((? & _) & (? & _) & ? & ->)
  | H : try_fold (check_reserved _ _ _ _) _ _ = Ok _ |- _ =>
      apply reserved_loop_iff in H as ((? & ?) & (? & ?) & ? & ? & ->)
  | H : try_fold (check_approved _ _ _) _ _ = Ok _ |- _ =>
      apply approved_loop_iff in H as ((? & ?) & ? & ? & ->)
  | H : try_fold (check_counters _) _ _ = Ok _ |- _ => rewrite check_counters_iff in H
  end.
  rewrite ?foldl_push_approved, ?foldl_push_reserved, ?foldl_push_pending in *. cbn in *.
  assert (HP : _) by exact (proj1 (index_by_iff pend_request_id _ _) (conj H4 eq_refl)).
  assert (HR : _) by exact (proj1 (index_by_iff res_request_id _ _) (conj H7 eq_refl)).
  assert (HA : _) by exact (proj1 (index_by_iff app_request_id _ _) (conj H13 eq_refl)).
  setoid_rewrite elem_of_collect_by in H8. setoid_rewrite elem_of_collect_by in H10.
  setoid_rewrite elem_of_collect_by in H14. setoid_rewrite elem_of_collect_by in H14.
  split; [constructor; cbn; tauto|].
  constructor; cbn; auto; try tauto; try lia.
  - apply app_NoDup_keys; [done| |].
    + apply app_NoDup_keys; [done..|].
      intros k (z & -> & Hz)%list_elem_of_fmap. specialize (H14 z Hz). tauto.
    + intros k [Hk|Hk]%elem_of_app; apply list_elem_of_fmap in Hk as (z & -> & Hz);
        [specialize (H8 z Hz)|specialize (H14 z Hz)]; tauto.
  - apply app_NoDup_keys; [done..|].
    intros k (z & -> & Hz)%list_elem_of_fmap. specialize (H10 z Hz). tauto.
  - intros id i Hi. apply elem_of_btree_iter, Hres11 in Hi. by rewrite !tally_by_count in Hi.
Qed.

Lemma NoDup_app_keys {K} (l l' : list K) :
  NoDup (l ++ l') → NoDup l ∧ NoDup l' ∧ ∀ k, k ∈ l' → k ∉ l.
Proof. intros (? & ? & ?)%NoDup_app. naive_solver. Qed.

Lemma try_from_snapshot_complete s p :
  represents s p → accepted s p → try_from_snapshot s = Ok p.
Proof.
  intros [Hsc Ho Hrev Hadm Hgens Hmem Hinv Hpend Hres Happ] Hac. destruct Hac.
  rewrite Ho in *.
  apply NoDup_app_keys in ac_ids0 as (Hp & (Hr & Ha & Hra)%NoDup_app_keys & Hpra).
  apply NoDup_app_keys in ac_candidates0 as (Hcp & Hcr & Hcpr).
  destruct (proj2 (index_by_iff pend_request_id _ _) (conj Hpend ac_keys_p0)) as [_ Hep].
  destruct (proj2 (index_by_iff res_request_id _ _) (conj Hres ac_keys_r0)) as [_ Her].
  destruct (proj2 (index_by_iff app_request_id _ _) (conj Happ ac_keys_a0)) as [_ Hea].
  unfold try_from_snapshot, group_policy_from_snapshot.
  ok_step; [by apply collect_snapshot_set_iff|]. ok_step; [tauto|].
  ok_step; [by apply collect_snapshot_set_iff|]. ok_step; [lia|]. ok_step; [done|].
  ok_step; [tauto|]. ok_step; [by apply check_generations_iff|].
  ok_step; [by apply admins_have_gens_iff|]. ok_step; [by apply check_invitations_iff|].
  ok_step; [apply pending_loop_iff; split_and!; [done|set_solver|done|set_solver|done|done]|].
  rewrite foldl_push_pending. cbn.
  ok_step; [apply reserved_loop_iff; split_and!; [done| |done| |done|done|done]|].
  { intros x Hx. cbn. rewrite elem_of_collect_by. intros [|Hin]; [set_solver|].
    eapply Hpra; [|done]. apply elem_of_app. left. by apply list_elem_of_fmap_2. }
  { intros x Hx. cbn. rewrite elem_of_collect_by. intros [|Hin]; [set_solver|].
    eapply Hcpr; [|done]. by apply list_elem_of_fmap_2. }
  rewrite foldl_push_reserved. cbn.
  ok_step; [apply approved_loop_iff; split_and!; [done| |done|done|done]|].
  { intros x Hx. cbn. rewrite !elem_of_collect_by. intros [[|Hin]|Hin]; [set_solver| |].
    - eapply Hpra; [|done]. apply elem_of_app. right. by apply list_elem_of_fmap_2.
    - eapply Hra; [|done]. by apply list_elem_of_fmap_2. }
  rewrite foldl_push_approved. cbn.
  ok_step; [apply check_counters_iff with (u := tt)|].
  { intros id i Hi%elem_of_btree_iter. cbn. rewrite !tally_by_count, !lookup_empty. cbn.
    rewrite !Z.add_0_l. auto. }
  rewrite <-Hep, <-Her, <-Hea. destruct p; cbn in *. by subst.
Qed.

(** ** The validator is the invariant *)

Section accepted_core.
Context (s : GroupPolicySnapshot) (p : GroupPolicy) (Hrep : represents s p).

Lemma accepted_core : snapshot_typed s → accepted s p → core p ∧ persistable p.
Proof using Hrep.
  intros Hty Hac.
  destruct Hrep as [Hsc Ho Hrev Hadm Hgens Hmem Hinv Hpend Hres Happ].
  assert (Hin_i : ∀ id i, p.(invitations) !! id = Some i → i ∈ s.(snap_invitations))
    by (intros; rewrite Hinv; apply elem_of_btree_values; eauto).
  assert (Hin_p : ∀ id x, p.(pending_joins) !! id = Some x → x ∈ s.(snap_pending_joins))
    by (intros; rewrite Hpend; apply elem_of_btree_values; eauto).
  assert (Hin_r : ∀ id x, p.(reserved_joins) !! id = Some x → x ∈ s.(snap_reserved_joins))
    by (intros; rewrite Hres; apply elem_of_btree_values; eauto).
  assert (Hin_a : ∀ id x, p.(approved_joins) !! id = Some x → x ∈ s.(snap_approved_joins))
    by (intros; rewrite Happ; apply elem_of_btree_values; eauto).
  destruct (NoDup_app_keys _ _ (ac_ids _ _ Hac))
    as (Hp & (Hr & Ha & Hra)%NoDup_app_keys & Hpra).
  assert (Hdisj : ∀ id x y, p.(pending_joins) !! id = Some x →
    y = id → y ∈ (res_request_id <$> s.(snap_reserved_joins)) ++
              (app_request_id <$> s.(snap_approved_joins)) → False).
  { intros id x y Hx -> Hy. apply (Hpra id Hy).
    rewrite <-(ac_keys_p _ _ Hac _ _ Hx). apply list_elem_of_fmap_2. eauto. }
  split; [constructor|constructor].
  - rewrite Hrev. apply Hty.
  - constructor; try apply Hac.
    intros a g Hg. apply (st_gens s Hty a). rewrite Hgens. by apply elem_of_btree_iter.
  - intros id i Hi. destruct (ac_invites _ _ Hac i (Hin_i _ _ Hi)) as (? & ? & ? & ? & ? & ?).
    destruct (ac_counters _ _ Hac _ _ Hi) as [Hcr Hca].
    pose proof (st_invites s Hty i (Hin_i _ _ Hi)).
    constructor; rewrite ?Hsc, ?Ho, ?Hrev, <-?Hres, <-?Happ; auto; try lia.
    by apply (ac_keys_i _ _ Hac).
  - intros id x Hx. destruct (ac_pending _ _ Hac x (Hin_p _ _ Hx)).
    constructor; [by apply (ac_keys_p _ _ Hac)|done].
  - intros id x Hx. destruct (ac_reserved _ _ Hac x (Hin_r _ _ Hx)) as (? & ? & ? & ?).
    constructor; rewrite ?Ho, ?Hrev; auto. by apply (ac_keys_r _ _ Hac).
  - intros id x Hx. destruct (ac_approved _ _ Hac x (Hin_a _ _ Hx)) as (? & ? & ?).
    constructor; rewrite ?Hrev; auto. by apply (ac_keys_a _ _ Hac).
  - intros id [x Hx]. destruct (p.(reserved_joins) !! id) as [y|] eqn:Hy; [exfalso|done].
    apply (Hdisj id x _ Hx (ac_keys_r _ _ Hac _ _ Hy)). apply elem_of_app. left.
    apply list_elem_of_fmap_2. eauto.
  - intros id [x Hx]. destruct (p.(approved_joins) !! id) as [y|] eqn:Hy; [exfalso|done].
    apply (Hdisj id x _ Hx (ac_keys_a _ _ Hac _ _ Hy)). apply elem_of_app. right.
    apply list_elem_of_fmap_2. eauto.
  - intros id [x Hx]. destruct (p.(approved_joins) !! id) as [y|] eqn:Hy; [exfalso|done].
    apply (Hra id).
    + rewrite <-(ac_keys_a _ _ Hac _ _ Hy). apply list_elem_of_fmap_2. eauto.
    + rewrite <-(ac_keys_r _ _ Hac _ _ Hx). apply list_elem_of_fmap_2. eauto.
  - unfold active. rewrite <-Hpend, <-Hres. apply (ac_candidates _ _ Hac).
  - intros q x Hx. by destruct (ac_pending _ _ Hac x (Hin_p _ _ Hx)).
  - intros q x Hx. by destruct (ac_reserved _ _ Hac x (Hin_r _ _ Hx)) as (_ & ? & _).
  - intros q x Hx. by destruct (ac_approved _ _ Hac x (Hin_a _ _ Hx)) as (_ & ? & _).
Qed.
End accepted_core.

Lemma core_count_res p id :
  core p → is_Some (p.(invitations) !! id) →
  count_by res_invite_id id (btree_values p.(reserved_joins)) ≤ u32_max ∧
  count_by app_invite_id id (btree_values p.(approved_joins)) ≤ u32_max.
Proof.
  intros Hc [i Hi]. destruct (core_invites p Hc _ _ Hi) as [_ _ Hm Hl _ _ Hu Hr].
  pose proof (count_by_nonneg res_invite_id id (btree_values p.(reserved_joins))).
  pose proof (count_by_nonneg app_invite_id id (btree_values p.(approved_joins))). lia.
Qed.

Lemma core_keys p :
  core p →
  (∀ k x, p.(invitations) !! k = Some x → x.(inv_invite_id) = k) ∧
  (∀ k x, p.(pending_joins) !! k = Some x → x.(pend_request_id) = k) ∧
  (∀ k x, p.(reserved_joins) !! k = Some x → x.(res_request_id) = k) ∧
  (∀ k x, p.(approved_joins) !! k = Some x → x.(app_request_id) = k).
Proof.
  intros Hc. split_and!; intros k x Hx.
  - apply (core_invites p Hc _ _ Hx).
  - apply (core_pending p Hc _ _ Hx).
  - apply (core_reserved p Hc _ _ Hx).
  - apply (core_approved p Hc _ _ Hx).
Qed.

Section core_accepted.
Context (s : GroupPolicySnapshot) (p : GroupPolicy) (Hrep : represents s p)
  (Hc : core p) (Hps : persistable p).

Lemma core_ids_NoDup :
  NoDup ((pend_request_id <$> s.(snap_pending_joins)) ++
         (res_request_id <$> s.(snap_reserved_joins)) ++
         (app_request_id <$> s.(snap_approved_joins))).
Proof using All.
  destruct Hrep as [_ _ _ _ _ _ _ Hpend Hres Happ]. rewrite Hpend, Hres, Happ.
  destruct (core_keys p Hc) as (_ & Hkp & Hkr & Hka).
  apply app_NoDup_keys; [by apply btree_values_keyed_NoDup|apply app_NoDup_keys|].
  - by apply btree_values_keyed_NoDup.
  - by apply btree_values_keyed_NoDup.
  - intros k0 (x & -> & [k Hk]%elem_of_btree_values)%list_elem_of_fmap
      (y & Hy & [k' Hk']%elem_of_btree_values)%list_elem_of_fmap.
    rewrite (Hka _ _ Hk), (Hkr _ _ Hk') in Hy. subst.
    by rewrite (core_disj_ra p Hc k') in Hk by eauto.
  - intros k0 Hk0 (y & Hy & [k' Hk']%elem_of_btree_values)%list_elem_of_fmap.
    rewrite (Hkp _ _ Hk') in Hy. subst k'.
    apply elem_of_app in Hk0 as [(x & -> & [k Hk]%elem_of_btree_values)%list_elem_of_fmap
      |(x & -> & [k Hk]%elem_of_btree_values)%list_elem_of_fmap].
    + rewrite (Hkr _ _ Hk) in Hk'. by rewrite (core_disj_pr p Hc k) in Hk by eauto.
    + rewrite (Hka _ _ Hk) in Hk'. by rewrite (core_disj_pa p Hc k) in Hk by eauto.
Qed.

Lemma core_accepted : accepted s p.
Proof using All.
  pose proof core_ids_NoDup as Hids.
  destruct Hrep as [Hsc Ho Hrev Hadm Hgens Hmem Hinv Hpend Hres Happ].
  destruct (core_roles p Hc), (core_keys p Hc) as (? & ? & ? & ?).
  destruct Hps as [Hpp Hpr Hpa]. constructor; auto.
  - intros i Hi. rewrite Hinv in Hi. apply elem_of_btree_values in Hi as [id Hi].
    destruct (core_invites p Hc _ _ Hi) as [_ ? Hm ? ? ? Hu Hr].
    pose proof (count_by_nonneg res_invite_id id (btree_values p.(reserved_joins))).
    pose proof (count_by_nonneg app_invite_id id (btree_values p.(approved_joins))).
    unfold invite_plain. rewrite <-Hsc, <-Ho, <-Hrev. split_and!; auto; lia.
  - intros x Hx. rewrite Hpend in Hx. apply elem_of_btree_values in Hx as [id Hx].
    destruct (core_pending p Hc _ _ Hx). split; eauto.
  - intros x Hx. rewrite Hres in Hx. apply elem_of_btree_values in Hx as [id Hx].
    destruct (core_reserved p Hc _ _ Hx). unfold reserved_plain.
    rewrite <-Hrev, <-Ho. split_and!; eauto.
  - intros x Hx. rewrite Happ in Hx. apply elem_of_btree_values in Hx as [id Hx].
    destruct (core_approved p Hc _ _ Hx). unfold approved_plain.
    rewrite <-Hrev. split_and!; eauto.
  - rewrite Hpend, Hres. by apply core_active.
  - apply tally_fits_bound. intros x Hx. rewrite Hres in *.
    apply elem_of_btree_values in Hx as [id Hx].
    by apply core_count_res, (core_reserved p Hc _ _ Hx).
  - apply tally_fits_bound. intros x Hx. rewrite Happ in *.
    apply elem_of_btree_values in Hx as [id Hx].
    by apply core_count_res, (core_approved p Hc _ _ Hx).
  - intros id i Hi. destruct (core_invites p Hc _ _ Hi). by rewrite Hres, Happ.
Qed.
End core_accepted.

Lemma snapshot_represents p : represents (snapshot p) p.
Proof. by constructor. Qed.

Lemma snapshot_is_typed p : core p → snapshot_typed (snapshot p).
Proof.
  intros Hc. constructor; cbn.
  - by apply core_revision.
  - intros a g Hg%elem_of_btree_iter. eapply ro_gen_valid; [by apply core_roles|done].
  - intros i [id Hi]%elem_of_btree_values.
    destruct (core_invites p Hc _ _ Hi) as [_ _ Hm _ _ _ Hu Hr].
    pose proof (count_by_nonneg res_invite_id id (btree_values p.(reserved_joins))).
    pose proof (count_by_nonneg app_invite_id id (btree_values p.(approved_joins))). lia.
Qed.

Lemma try_from_snapshot_iff s p :
  snapshot_typed s →
  try_from_snapshot s = Ok p ↔ represents s p ∧ core p ∧ persistable p.
Proof.
  intros Hty. split.
  - intros [Hrep Hac]%try_from_snapshot_sound. split; [done|]. by eapply accepted_core.
  - intros (Hrep & Hc & Hps). apply try_from_snapshot_complete; [done|]. by apply core_accepted.
Qed.

Lemma index_by_unique {K A} `{Countable K, !Ord K} (key : A → K) (l : list A) (m m' : gmap K A) :
  l ≡ₚ btree_values m → (∀ k x, m !! k = Some x → key x = k) →
  l ≡ₚ btree_values m' → (∀ k x, m' !! k = Some x → key x = k) → m = m'.
Proof.
  intros Hl Hk Hl' Hk'.
  destruct (proj2 (index_by_iff key l m) (conj Hl Hk)) as [_ ->].
  by destruct (proj2 (index_by_iff key l m') (conj Hl' Hk')) as [_ ->].
Qed.

Lemma represents_unique s p p' :
  represents s p → represents s p' → core p → core p' → p = p'.
Proof.
  intros [? ? ? Hadm Hgens Hmem Hinv Hpend Hres Happ]
    [? ? ? Hadm' Hgens' Hmem' Hinv' Hpend' Hres' Happ'] Hc Hc'.
  apply list_to_set_iff in Hadm as [_ Hadm], Hadm' as [_ Hadm'],
    Hmem as [_ Hmem], Hmem' as [_ Hmem'].
  apply list_to_map_iff in Hgens as [_ Hgens], Hgens' as [_ Hgens'].
  destruct (core_keys p Hc) as (Ki & Kp & Kr & Ka), (core_keys p' Hc') as (Ki' & Kp' & Kr' & Ka').
  pose proof (index_by_unique _ _ _ _ Hinv Ki Hinv' Ki').
  pose proof (index_by_unique _ _ _ _ Hpend Kp Hpend' Kp').
  pose proof (index_by_unique _ _ _ _ Hres Kr Hres' Kr').
  pose proof (index_by_unique _ _ _ _ Happ Ka Happ' Ka').
  destruct p, p'; cbn in *; congruence.
Qed.

(** C2. Rehydration accepts exactly the valid aggregates: a snapshot whose
    numbers fit their types is accepted, and rebuilt as [p], if and only if its
    lists hold the collections of [p], [p] satisfies the aggregate invariant,
    and its join records agree with its member set.  Nothing inconsistent is
    repaired or let through, and nothing consistent is refused. *)
Theorem rehydration_accepts_exactly s p :
  snapshot_typed s →
  try_from_snapshot s = Ok p ↔ represents s p ∧ core p ∧ persistable p.
Proof. apply try_from_snapshot_iff. Qed.

Lemma persistable_iff_roundtrip p :
  core p → try_from_snapshot (snapshot p) = Ok p ↔ persistable p.
Proof.
  intros Hc. rewrite try_from_snapshot_iff by (by apply snapshot_is_typed).
  split; [naive_solver|]. auto using snapshot_represents.
Qed.

Lemma rejected_unless_persistable p :
  core p → ¬ persistable p → ∃ err, try_from_snapshot (snapshot p) = Err err.
Proof.
  intros Hc Hn. destruct (try_from_snapshot (snapshot p)) as [p'|err] eqn:H; [|by exists err].
  apply try_from_snapshot_iff in H as (Hrep & Hc' & Hp'); [|by apply snapshot_is_typed].
  by rewrite (represents_unique _ _ _ (snapshot_represents p) Hrep Hc Hc') in Hn.
Qed.

Lemma image_of_snapshot_inv s :
  (∀ i, i ∈ s.(snap_invitations) → i.(inv_scope) = s.(snap_scope)) →
  try_from_persistence_image (persistence_image s) = (try_from_snapshot s;; Ok s).
Proof.
  intros Hs. unfold try_from_persistence_image. cbn.
  rewrite <-!list_fmap_compose.
  rewrite (list_fmap_self (pending_of_image ∘ pending_image)) by (by intros []).
  rewrite (list_fmap_self (reserved_of_image ∘ reserved_image)) by (by intros [????[]??]).
  rewrite (list_fmap_self (approved_of_image ∘ approved_image)) by (by intros []).
  rewrite (list_fmap_self (invite_of_image s.(snap_scope) ∘ invite_image)).
  - by destruct s.
  - intros i Hi%Hs. destruct i as [? sc ????????[]]; cbn in *; by subst.
Qed.

(** Snapshots round-trip: taking the snapshot of a valid aggregate,
    storing it as the normalized persistence image, reading it back and
    rehydrating it gives the same snapshot and the same aggregate. *)
Theorem snapshot_roundtrip p :
  core p → persistable p →
  try_from_snapshot (snapshot p) = Ok p ∧
  try_from_persistence_image (persistence_image (snapshot p)) = Ok (snapshot p).
Proof.
  intros Hc Hp. apply persistable_iff_roundtrip in Hp; [|done]. split; [done|].
  rewrite image_of_snapshot_inv; [by rewrite Hp|].
  intros i [id Hi]%elem_of_btree_values. by destruct (core_invites p Hc _ _ Hi).
Qed.

(** ** Which commands leave a state that can be stored and loaded again *)

Definition keeps_persistable (p : GroupPolicy) (c : Command) : Prop :=
  match c with
  | GrantAdmin _ i => i ∉ active p
  | RemoveMember _ i =>
      ∀ q a, p.(approved_joins) !! q = Some a → a.(app_candidate_id) ≠ i
  | _ => True
  end.

Lemma elem_of_active p c :
  c ∈ active p ↔
  (∃ q x, p.(pending_joins) !! q = Some x ∧ x.(pend_candidate_id) = c) ∨
  (∃ q x, p.(reserved_joins) !! q = Some x ∧ x.(res_candidate_id) = c).
Proof.
  unfold active. rewrite elem_of_app, !list_elem_of_fmap.
  setoid_rewrite elem_of_btree_values. naive_solver.
Qed.

Lemma persistable_active p :
  persistable p ↔
  (∀ c, c ∈ active p → c ∉ p.(members)) ∧
  (∀ q a, p.(approved_joins) !! q = Some a → a.(app_candidate_id) ∈ p.(members)).
Proof.
  setoid_rewrite elem_of_active. split.
  - intros []. split; [|done]. intros c [(q & x & ? & <-)|(q & x & ? & <-)]; eauto.
  - intros [Ha ?]. constructor; [| |done]; intros q x Hx; apply Ha; eauto.
Qed.

Lemma persistable_admit p p' c :
  persistable p → core p → active p ≡ₚ c :: active p' →
  p'.(members) = {[ c ]} ∪ p.(members) →
  (∀ q a, p'.(approved_joins) !! q = Some a →
     a.(app_candidate_id) = c ∨ p.(approved_joins) !! q = Some a) →
  persistable p'.
Proof.
  rewrite !persistable_active. intros [Ha Hap] Hc Hperm Hm Happ. rewrite Hm.
  pose proof (core_active p Hc) as Hnd. rewrite Hperm in Hnd.
  apply NoDup_cons in Hnd as [Hc1 _]. split.
  - intros k Hk. assert (k ∈ active p) by (rewrite Hperm; by apply list_elem_of_further).
    intros [->%elem_of_singleton|Hin]%elem_of_union; [done|]. by apply (Ha k).
  - intros q a Hq. apply elem_of_union. destruct (Happ q a Hq) as [->|Hq']; [left|right].
    + by apply elem_of_singleton.
    + by eapply Hap.
Qed.

Lemma persistable_same p p' :
  persistable p → active p' ≡ₚ active p →
  p'.(members) = p.(members) → p'.(approved_joins) = p.(approved_joins) → persistable p'.
Proof.
  rewrite !persistable_active. intros [Ha Hap] Hperm Hm Happ. rewrite Hm, Happ.
  split; [|done]. intros c. rewrite Hperm. apply Ha.
Qed.

Lemma persistable_step e c p p' :
  core p → persistable p → run e c p = (Ok tt, p') →
  persistable p' ↔ keeps_persistable p c.
Proof.
  intros Hc Hp H. pose proof (proj1 (persistable_active p) Hp) as [Ha Hap].
  destruct c; cbn [run keeps_persistable] in *; apply discard_Ok in H as [r H];
    cmd_inv H.
  - rewrite persistable_active. cbn. split.
    + intros [Ha' _] Hin. apply (Ha' _ Hin). by apply elem_of_union_l, elem_of_singleton.
    + intros Hn. split; [|intros; apply elem_of_union_r; eauto].
      intros k Hk [->%elem_of_singleton|Hm]%elem_of_union; [done|]. by apply (Ha k).
  - split; [done|]. intros _. by eapply persistable_same.
  - rewrite persistable_active. cbn. split.
    + intros [_ Hap'] q a Hq. apply Hap' in Hq. set_solver.
    + intros Hn. split; [intros k Hk; specialize (Ha k Hk); set_solver|].
      intros q a Hq. apply elem_of_difference. split; [by eapply Hap|].
      intros Heq%elem_of_singleton. by eapply Hn.
  - split; [done|]. intros _. by eapply persistable_same.
  - split; [done|]. intros _. by eapply persistable_same.
  - split; [done|]. intros _. rewrite persistable_active. cbn. split; [|done].
    intros k. erewrite (active_request p) by done. intros [->|Hk]%elem_of_cons; auto.
  - split; [done|]. intros _. eapply persistable_same; [done| |done..].
    by eapply active_reserve.
  - split; [done|]. intros _. eapply persistable_admit; [done|done|by eapply active_unreserve|done|].
    cbn. intros q a [[-> <-]|[_ Hq]]%lookup_insert_Some; auto.
  - split; [done|]. intros _. rewrite persistable_active. cbn. split; [|done].
    intros k Hk. apply Ha. match type of Hk with _ ∈ active ?s =>
      rewrite (active_unreserve p request_id _ s ltac:(eassumption) eq_refl eq_refl) end.
    by apply list_elem_of_further.
  - split; [done|]. intros _. eapply persistable_admit; [done|done|by eapply active_approve|done|].
    cbn. intros q a [[-> <-]|[_ Hq]]%lookup_insert_Some; auto.
Qed.

(** C7. Exactly two commands can leave a state that storage will refuse to
    load: after any successful command on a loadable aggregate, the new
    aggregate round-trips if and only if the command was not a [grant_admin] of
    a candidate with a join in flight and not a [remove_member] of someone whose
    admission is on record. *)
Theorem command_keeps_loadable e c p p' :
  core p → persistable p → command_typed c → run e c p = (Ok tt, p') →
  try_from_snapshot (snapshot p') = Ok p' ↔ keeps_persistable p c.
Proof.
  intros Hc Hp Ht H. rewrite persistable_iff_roundtrip by (by eapply run_core).
  by eapply persistable_step.
Qed.

(** Removing an invited member makes the group unloadable:
    [remove_member] keeps the immutable approval record of the removed member,
    and the validator demands that every approved candidate is a current
    member, so the snapshot of the resulting aggregate is always rejected. *)
Theorem remove_approved_member_unloadable e actor p p' q a :
  core p → persistable p → p.(approved_joins) !! q = Some a →
  run e (RemoveMember actor a.(app_candidate_id)) p = (Ok tt, p') →
  ∃ err, try_from_snapshot (snapshot p') = Err err.
Proof.
  intros Hc Hp Hq H. apply rejected_unless_persistable.
  { refine (run_core _ _ _ _ _ _ Hc H). exact I. }
  rewrite (persistable_step _ _ _ _ Hc Hp H). cbn. intros Hn. by eapply Hn.
Qed.

(** Granting administrator rights to a candidate whose join is pending or
    reserved makes the group unloadable: [grant_admin] admits the identity but
    leaves its join in flight, and the validator demands that no candidate with
    a join in flight is a member. *)
Theorem grant_active_candidate_unloadable e actor p p' i :
  core p → persistable p → i ∈ active p →
  run e (GrantAdmin actor i) p = (Ok tt, p') →
  ∃ err, try_from_snapshot (snapshot p') = Err err.
Proof.
  intros Hc Hp Hi H. apply rejected_unless_persistable.
  { refine (run_core _ _ _ _ _ _ Hc H). exact I. }
  rewrite (persistable_step _ _ _ _ Hc Hp H). cbn. tauto.
Qed.

Module RehydrateDemo.
Import Demo.

Lemma persistable_joined : persistable joined_group.
Proof.
  apply persistable_iff_roundtrip; [exact core_joined_group|]. vm_compute. reflexivity.
Qed.

Lemma rehydration_accepts_exactly_witness :
  represents (snapshot joined_group) joined_group ∧ core joined_group ∧
  persistable joined_group.
Proof.
  apply (rehydration_accepts_exactly (snapshot joined_group)).
  - apply snapshot_is_typed. exact core_joined_group.
  - vm_compute. reflexivity.
Defined.

Lemma snapshot_roundtrip_witness :
  try_from_snapshot (snapshot joined_group) = Ok joined_group.
Proof.
  apply (snapshot_roundtrip joined_group); [exact core_joined_group|exact persistable_joined].
Defined.

(** Approving Carol keeps the group loadable. *)
Lemma command_keeps_loadable_witness :
  let p' := exec (run 7 (ApproveJoin owner request2 60)) joined_group in
  try_from_snapshot (snapshot p') = Ok p'.
Proof.
  apply (command_keeps_loadable 7 (ApproveJoin owner request2 60) joined_group).
  - exact core_joined_group.
  - exact persistable_joined.
  - exact I.
  - vm_compute. reflexivity.
  - exact I.
Defined.

(** Bob joined through an invitation; removing him makes the group unloadable. *)
Lemma remove_approved_member_unloadable_witness :
  ∃ err, try_from_snapshot
    (snapshot (exec (run 7 (RemoveMember owner bob)) joined_group)) = Err err.
Proof.
  eapply (remove_approved_member_unloadable 7 owner joined_group _ request1).
  - exact core_joined_group.
  - exact persistable_joined.
  - vm_compute. reflexivity.
  - vm_compute. reflexivity.
Defined.

(** Carol's request is pending; making her an administrator does the same. *)
Lemma grant_active_candidate_unloadable_witness :
  ∃ err, try_from_snapshot
    (snapshot (exec (run 7 (GrantAdmin owner carol)) joined_group)) = Err err.
Proof.
  apply (grant_active_candidate_unloadable 7 owner joined_group _ carol).
  - exact core_joined_group.
  - exact persistable_joined.
  - apply (bool_decide_unpack _). vm_compute. exact I.
  - vm_compute. reflexivity.
Defined.
End RehydrateDemo.
