(* ===== verification/CanonicalCbor.v ===== *)
(** * Deterministic CBOR: the encoder and the parser

    Models [crates/dtx-wire/src/canonical_cbor.rs].  [Encoder] and [Parser] are
    states of [ST] programs.  Recursion follows the nesting depth, which the
    code bounds by [MAX_DEPTH]: the argument [levels] is [MAX_DEPTH + 1 - depth],
    so [depth > MAX_DEPTH] is [levels = 0].  [usize] is taken to be 64 bits
    wide. *)

From S2P Require Import Prelude.

Definition MAX_ENCODED_BYTES : Z := 1024 * 1024.
Definition MAX_DEPTH : nat := 32.
Definition MAX_CONTAINER_ENTRIES : Z := 4096.
Definition MAX_TOTAL_ITEMS : Z := 65536.

Inductive CanonicalValue : Type :=
| Unsigned (n : Z)
| Negative (z : Z)
| Bytes (b : bytes)
| Text (s : bytes)
| Array (vs : list CanonicalValue)
| Map (es : list (CanonicalValue * CanonicalValue))
| Bool (b : bool)
| Null.

Inductive CanonicalCborError : Type :=
| InputTooLarge
| DepthLimit
| ContainerTooLarge
| UnexpectedEnd
| ReservedAdditionalInformation
| IndefiniteLength
| NonPreferredArgument
| InvalidNegativeValue
| IntegerOutOfRange
| LengthOutOfRange
| InvalidUtf8
| MapKeyOrder
| DuplicateMapKey
| TagNotAllowed
| FloatingPointNotAllowed
| SimpleValueNotAllowed
| TrailingBytes.

(** [u16::to_be_bytes] and its wider versions, and [from_be_bytes]. *)
Fixpoint to_be_bytes (n : nat) (x : Z) : bytes :=
  match n with
  | O => []
  | S n => to_be_bytes n (x / 256) ++ [x mod 256]
  end.

Definition from_be_bytes (b : bytes) : Z := be_value 256 b.

(** [std::str::from_utf8]: the well-formed byte sequences of Unicode. *)
Definition cont (b : Z) : bool := bool_decide (0x80 ≤ b ≤ 0xbf).
Definition within (lo hi b : Z) : bool := bool_decide (lo ≤ b ≤ hi).

Fixpoint utf8_valid (b : bytes) : bool :=
  match b with
  | [] => true
  | b0 :: r0 =>
      if within 0 0x7f b0 then utf8_valid r0 else
      match r0 with
      | [] => false
      | b1 :: r1 =>
          if within 0xc2 0xdf b0 then cont b1 && utf8_valid r1 else
          match r1 with
          | [] => false
          | b2 :: r2 =>
              if within 0xe0 0xef b0 then
                (if decide (b0 = 0xe0) then within 0xa0 0xbf b1
                 else if decide (b0 = 0xed) then within 0x80 0x9f b1
                 else cont b1) && cont b2 && utf8_valid r2
              else
                match r2 with
                | [] => false
                | b3 :: r3 =>
                    within 0xf0 0xf4 b0 &&
                    (if decide (b0 = 0xf0) then within 0x90 0xbf b1
                     else if decide (b0 = 0xf4) then within 0x80 0x8f b1
                     else cont b1) && cont b2 && cont b3 && utf8_valid r3
                end
          end
      end
  end.

(** [for x in xs { body(x)?; }] over a mutable state. *)
Fixpoint for_each {S E A} (body : A → ST S E unit) (l : list A) : ST S E unit :=
  match l with
  | [] => mret tt
  | x :: l => body x;; for_each body l
  end.

(** ** The encoder *)

Record Encoder : Type := MkEncoder { output : bytes; enc_items : Z }.
Definition Enc (A : Type) : Type := ST Encoder CanonicalCborError A.

Definition len {A} (l : list A) : Z := Z.of_nat (length l).

Definition Encoder_new : Encoder := MkEncoder [] 0.

Section encoder.
Context (max_encoded_bytes : Z).

Definition check_container (entries : Z) : result CanonicalCborError unit :=
  if decide (entries > MAX_CONTAINER_ENTRIES) then Err ContainerTooLarge else Ok tt.

Definition charge_items (count : Z) : Enc unit :=
  self ← get;
  items ← lift (ok_or (u64_checked_add self.(enc_items) count) ContainerTooLarge);
  modify (λ s, MkEncoder s.(output) items);;
  lift (if decide (items > MAX_TOTAL_ITEMS) then Err ContainerTooLarge else Ok tt).

Definition write (b : bytes) : Enc unit :=
  self ← get;
  new_length ← lift (ok_or (u64_checked_add (len self.(output)) (len b)) InputTooLarge);
  lift (reject InputTooLarge when (new_length > max_encoded_bytes));;
  modify (λ s, MkEncoder (s.(output) ++ b) s.(enc_items)).

Definition write_head (major argument : Z) : Enc unit :=
  let marker := Z.shiftl major 5 in
  if decide (argument < 24) then write [Z.lor marker argument]
  else if decide (argument ≤ 0xff) then write [Z.lor marker 0x18; argument]
  else if decide (argument ≤ u16_max) then
    write [Z.lor marker 0x19];; write (to_be_bytes 2 argument)
  else if decide (argument ≤ u32_max) then
    write [Z.lor marker 0x1a];; write (to_be_bytes 4 argument)
  else write [Z.lor marker 0x1b];; write (to_be_bytes 8 argument).

Definition write_length (major length : Z) : Enc unit :=
  length ← lift (ok_or (checked 0 u64_max length) LengthOutOfRange);
  write_head major length.

(** The first loop of the map case: every key is encoded on its own. *)
Definition encode_key (encode : CanonicalValue → Enc unit)
    (acc : list (bytes * CanonicalValue) * Z) (entry : CanonicalValue * CanonicalValue) :
    Enc (list (bytes * CanonicalValue) * Z) :=
  let '(sorted, pending_key_bytes) := acc in
  let '(key, value) := entry in
  let '(r, key_encoder) := encode key Encoder_new in
  lift r;;
  charge_items key_encoder.(enc_items);;
  pending_key_bytes ← lift (ok_or (u64_checked_add pending_key_bytes
                                     (len key_encoder.(output))) InputTooLarge);
  self ← get;
  projected_bytes ← lift (ok_or (u64_checked_add (len self.(output)) pending_key_bytes)
                            InputTooLarge);
  lift (reject InputTooLarge when (projected_bytes > max_encoded_bytes));;
  mret (sorted ++ [(key_encoder.(output), value)], pending_key_bytes).

Fixpoint encode_keys (encode : CanonicalValue → Enc unit)
    (acc : list (bytes * CanonicalValue) * Z)
    (entries : list (CanonicalValue * CanonicalValue)) :
    Enc (list (bytes * CanonicalValue) * Z) :=
  match entries with
  | [] => mret acc
  | entry :: entries =>
      acc ← encode_key encode acc entry;
      encode_keys encode acc entries
  end.

(** [sorted.windows(2).any(|pair| pair[0].0 == pair[1].0)] *)
Fixpoint has_equal_neighbours {A} (l : list (bytes * A)) : bool :=
  match l with
  | x :: ((y :: _) as l) => bool_decide (x.1 = y.1) || has_equal_neighbours l
  | _ => false
  end.

Definition key_le {A} (x y : bytes * A) : Prop := ord_le x.1 y.1.
Global Instance key_le_dec {A} : RelDecision (key_le (A := A)).
Proof. intros x y. unfold key_le. apply _. Defined.

Fixpoint encode (levels : nat) (value : CanonicalValue) : Enc unit :=
  match levels with
  | O => throw DepthLimit
  | S levels =>
      charge_items 1;;
      match value with
      | Unsigned value => write_head 0 value
      | Negative value =>
          lift (reject InvalidNegativeValue when (value >= 0));;
          argument ← lift (ok_or (checked 0 u64_max (-1 - value)) IntegerOutOfRange);
          write_head 1 argument
      | Bytes value => write_length 2 (len value);; write value
      | Text value => write_length 3 (len value);; write value
      | Array values =>
          lift (check_container (len values));;
          write_length 4 (len values);;
          for_each (encode levels) values
      | Map entries =>
          lift (check_container (len entries));;
          '(unsorted, _) ← encode_keys (encode levels) ([], 0) entries;
          let sorted := merge_sort key_le unsorted in
          lift (reject DuplicateMapKey when (has_equal_neighbours sorted = true));;
          write_length 5 (len sorted);;
          for_each (λ entry, write entry.1;; encode levels entry.2) sorted
      | Bool false => write [0xf4]
      | Bool true => write [0xf5]
      | Null => write [0xf6]
      end
  end.
End encoder.

Definition encode_deterministic_cbor_with_limit (value : CanonicalValue)
    (max_encoded_bytes : Z) : result CanonicalCborError bytes :=
  reject InputTooLarge when (max_encoded_bytes = 0);;
  let '(r, encoder) := encode max_encoded_bytes (S MAX_DEPTH) value Encoder_new in
  r;;
  Ok encoder.(output).

Definition encode_deterministic_cbor (value : CanonicalValue) :
    result CanonicalCborError bytes :=
  encode_deterministic_cbor_with_limit value MAX_ENCODED_BYTES.

(** ** The parser *)

Record Parser : Type := MkParser { position : nat; par_items : Z }.
Definition Par (A : Type) : Type := ST Parser CanonicalCborError A.

Section parser.
Context (input : bytes) (max_encoded_bytes : Z).

Definition read_byte : Par Z :=
  self ← get;
  value ← lift (ok_or (input !! self.(position)) UnexpectedEnd);
  modify (λ s, MkParser (S s.(position)) s.(par_items));;
  mret value.

(** [input.get(position..end)] *)
Definition slice (from to : nat) : option bytes :=
  if decide (from ≤ to ≤ length input)%nat
  then Some (take (to - from) (drop from input)) else None.

Definition read_exact (length : Z) : Par bytes :=
  self ← get;
  end_ ← lift (ok_or (u64_checked_add (Z.of_nat self.(position)) length) UnexpectedEnd);
  b ← lift (ok_or (slice self.(position) (Z.to_nat end_)) UnexpectedEnd);
  modify (λ s, MkParser (Z.to_nat end_) s.(par_items));;
  mret b.

Definition read_argument (additional : Z) : Par Z :=
  if decide (additional ≤ 23) then mret additional
  else if decide (additional = 24) then
    value ← read_byte;
    lift (if decide (value < 24) then Err NonPreferredArgument else Ok value)
  else if decide (additional = 25) then
    b ← read_exact 2;
    let value := from_be_bytes b in
    lift (if decide (value ≤ 0xff) then Err NonPreferredArgument else Ok value)
  else if decide (additional = 26) then
    b ← read_exact 4;
    let value := from_be_bytes b in
    lift (if decide (value ≤ u16_max) then Err NonPreferredArgument else Ok value)
  else if decide (additional = 27) then
    b ← read_exact 8;
    let value := from_be_bytes b in
    lift (if decide (value ≤ u32_max) then Err NonPreferredArgument else Ok value)
  else if decide (additional ≤ 30) then throw ReservedAdditionalInformation
  else throw IndefiniteLength.

Definition read_length (additional : Z) : Par Z :=
  length ← read_argument additional;
  length ← lift (ok_or (checked 0 u64_max length) LengthOutOfRange);
  lift (reject InputTooLarge when (length > max_encoded_bytes));;
  mret length.

Definition read_container_length (additional : Z) : Par Z :=
  length ← read_length additional;
  lift (reject ContainerTooLarge when (length > MAX_CONTAINER_ENTRIES));;
  mret length.

(** [for _ in 0..length { values.push(parse()?) }] *)
Fixpoint parse_array (parse : Par CanonicalValue) (length : nat)
    (values : list CanonicalValue) : Par (list CanonicalValue) :=
  match length with
  | O => mret values
  | S length =>
      value ← parse;
      parse_array parse length (values ++ [value])
  end.

Fixpoint parse_map (parse : Par CanonicalValue) (length : nat) (previous_key : option bytes)
    (entries : list (CanonicalValue * CanonicalValue)) :
    Par (list (CanonicalValue * CanonicalValue)) :=
  match length with
  | O => mret entries
  | S length =>
      self ← get;
      let key_start := self.(position) in
      key_value ← parse;
      self ← get;
      key ← lift (ok_or (slice key_start self.(position)) UnexpectedEnd);
      lift (match previous_key with
            | None => Ok tt
            | Some previous =>
                match compare previous key with
                | Eq => Err DuplicateMapKey
                | Gt => Err MapKeyOrder
                | Lt => Ok tt
                end
            end);;
      value ← parse;
      parse_map parse length (Some key) (entries ++ [(key_value, value)])
  end.

Definition charge_item : Par unit :=
  self ← get;
  items ← lift (ok_or (u64_checked_add self.(par_items) 1) ContainerTooLarge);
  modify (λ s, MkParser s.(position) items);;
  lift (reject ContainerTooLarge when (items > MAX_TOTAL_ITEMS)).

(** The [match major] of [parse_value]; [parse] is the recursive call at
    [depth + 1]. *)
Definition parse_body (parse : Par CanonicalValue) (initial : Z) : Par CanonicalValue :=
  let major := Z.shiftr initial 5 in
  let additional := Z.land initial 0x1f in
  if decide (major = 0) then
    value ← read_argument additional;
    mret (Unsigned value)
  else if decide (major = 1) then
    argument ← read_argument additional;
    lift (reject IntegerOutOfRange when (argument > i64_max));;
    value ← lift (ok_or (checked i64_min i64_max (-1 - argument)) IntegerOutOfRange);
    mret (Negative value)
  else if decide (major = 2 ∨ major = 3) then
    length ← read_length additional;
    b ← read_exact length;
    if decide (major = 2) then mret (Bytes b)
    else
      lift (reject InvalidUtf8 when (utf8_valid b = false));;
      mret (Text b)
  else if decide (major = 4) then
    length ← read_container_length additional;
    values ← parse_array parse (Z.to_nat length) [];
    mret (Array values)
  else if decide (major = 5) then
    length ← read_container_length additional;
    entries ← parse_map parse (Z.to_nat length) None [];
    mret (Map entries)
  else if decide (major = 6) then throw TagNotAllowed
  else if decide (additional = 20) then mret (Bool false)
  else if decide (additional = 21) then mret (Bool true)
  else if decide (additional = 22) then mret Null
  else if decide (25 ≤ additional ≤ 27) then throw FloatingPointNotAllowed
  else if decide (additional = 31) then throw IndefiniteLength
  else throw SimpleValueNotAllowed.

Fixpoint parse_value (levels : nat) : Par CanonicalValue :=
  match levels with
  | O => throw DepthLimit
  | S levels =>
      charge_item;;
      initial ← read_byte;
      parse_body (parse_value levels) initial
  end.
End parser.

Definition decode_deterministic_cbor_with_limit (input : bytes) (max_encoded_bytes : Z) :
    result CanonicalCborError CanonicalValue :=
  reject InputTooLarge when (max_encoded_bytes = 0 ∨ len input > max_encoded_bytes);;
  let '(r, parser) :=
    parse_value input max_encoded_bytes (S MAX_DEPTH) (MkParser 0 0) in
  value ← r;
  reject TrailingBytes when (parser.(position) ≠ length input);;
  Ok value.

Definition decode_deterministic_cbor (input : bytes) :
    result CanonicalCborError CanonicalValue :=
  decode_deterministic_cbor_with_limit input MAX_ENCODED_BYTES.

Definition validate_deterministic_cbor (input : bytes) : result CanonicalCborError unit :=
  (λ _, tt) <$> decode_deterministic_cbor input.

(** Spot checks of both directions. *)
Example encode_sample :
  encode_deterministic_cbor (Map [(Unsigned 2, Bool true); (Unsigned 1, Text (str "hi"))])
  = Ok [0xa2; 0x01; 0x62; 0x68; 0x69; 0x02; 0xf5].
Proof. vm_compute. reflexivity. Qed.

Example decode_sample :
  decode_deterministic_cbor [0xa2; 0x01; 0x62; 0x68; 0x69; 0x02; 0xf5]
  = Ok (Map [(Unsigned 1, Text (str "hi")); (Unsigned 2, Bool true)]).
Proof. vm_compute. reflexivity. Qed.
