(* ===== verification/CborSpec.v ===== *)
(** * Deterministic CBOR: the format as a function

    [spec] says what the encoding of a value is, without buffers, limits or
    incremental checks.  [CborEncode.v] and [CborDecode.v] relate the encoder
    and the parser of [CanonicalCbor.v] to it. *)

From S2P Require Import Prelude CanonicalCbor.

(** The values that the Rust type can hold. *)
Inductive value_ok : CanonicalValue → Prop :=
| ok_unsigned n : 0 ≤ n ≤ u64_max → value_ok (Unsigned n)
| ok_negative z : i64_min ≤ z ≤ i64_max → value_ok (Negative z)
| ok_bytes b : Forall is_byte b → value_ok (Bytes b)
| ok_text b : Forall is_byte b → utf8_valid b = true → value_ok (Text b)
| ok_array vs : Forall value_ok vs → value_ok (Array vs)
| ok_map es : Forall (λ e, value_ok e.1 ∧ value_ok e.2) es → value_ok (Map es)
| ok_bool b : value_ok (Bool b)
| ok_null : value_ok Null.

Definition head (major argument : Z) : bytes :=
  if decide (argument < 24) then [Z.lor (Z.shiftl major 5) argument]
  else if decide (argument ≤ 0xff) then [Z.lor (Z.shiftl major 5) 0x18; argument]
  else if decide (argument ≤ u16_max) then
    Z.lor (Z.shiftl major 5) 0x19 :: to_be_bytes 2 argument
  else if decide (argument ≤ u32_max) then
    Z.lor (Z.shiftl major 5) 0x1a :: to_be_bytes 4 argument
  else Z.lor (Z.shiftl major 5) 0x1b :: to_be_bytes 8 argument.

(** What encoding a value yields: its bytes, the number of items it counts for,
    and the value itself with every map in key order. *)
Record item : Type := Item { it_bytes : bytes; it_items : Z; it_value : CanonicalValue }.

Definition entry_bytes (e : item * item) : bytes := e.1.(it_bytes) ++ e.2.(it_bytes).
Definition entry_items (e : item * item) : Z := e.1.(it_items) + e.2.(it_items).
Definition entry_value (e : item * item) : CanonicalValue * CanonicalValue :=
  (e.1.(it_value), e.2.(it_value)).
Definition entry_key_le (e f : item * item) : Prop :=
  ord_le e.1.(it_bytes) f.1.(it_bytes).
Global Instance entry_key_le_dec : RelDecision entry_key_le.
Proof. intros e f. unfold entry_key_le. apply _. Defined.

Definition Zsum {A} (f : A → Z) (l : list A) : Z := foldr (λ x n, f x + n) 0 l.

Definition keys_of (es : list (item * item)) : list bytes := (λ e, e.1.(it_bytes)) <$> es.

Fixpoint spec (levels : nat) (v : CanonicalValue) : option item :=
  match levels with
  | O => None
  | S levels =>
      match v with
      | Unsigned n => Some (Item (head 0 n) 1 v)
      | Negative z => guard (z < 0);; Some (Item (head 1 (-1 - z)) 1 v)
      | Bytes b => Some (Item (head 2 (len b) ++ b) 1 v)
      | Text b => Some (Item (head 3 (len b) ++ b) 1 v)
      | Array vs =>
          guard (len vs ≤ MAX_CONTAINER_ENTRIES);;
          items ← mapM (spec levels) vs;
          Some (Item (head 4 (len vs) ++ concat (it_bytes <$> items))
                  (1 + Zsum it_items items) (Array (it_value <$> items)))
      | Map es =>
          guard (len es ≤ MAX_CONTAINER_ENTRIES);;
          entries ← mapM (λ e, k ← spec levels e.1; x ← spec levels e.2; Some (k, x)) es;
          guard (NoDup (keys_of entries));;
          let sorted := merge_sort entry_key_le entries in
          Some (Item (head 5 (len es) ++ concat (entry_bytes <$> sorted))
                  (1 + Zsum entry_items entries) (Map (entry_value <$> sorted)))
      | Bool false => Some (Item [0xf4] 1 v)
      | Bool true => Some (Item [0xf5] 1 v)
      | Null => Some (Item [0xf6] 1 v)
      end
  end.

(** Two values that differ at most in the order of map entries. *)
Inductive same_value : CanonicalValue → CanonicalValue → Prop :=
| same_refl v : same_value v v
| same_array vs ws : Forall2 same_value vs ws → same_value (Array vs) (Array ws)
| same_map es fs gs :
    es ≡ₚ fs → Forall2 (λ e f, same_value e.1 f.1 ∧ same_value e.2 f.2) fs gs →
    same_value (Map es) (Map gs).

(** ** Sorting by key *)

Lemma merge_sort_fmap {A B} (f : A → B) (R : relation A) (R' : relation B)
    `{!RelDecision R, !RelDecision R'} l :
  (∀ x y, R x y ↔ R' (f x) (f y)) →
  merge_sort R' (f <$> l) = f <$> merge_sort R l.
Proof.
  intros HR.
  assert (Hm : ∀ l1 l2, list_merge R' (f <$> l1) (f <$> l2) = f <$> list_merge R l1 l2).
  { induction l1 as [|x1 l1 IH1]; intros l2; [by destruct l2|].
    induction l2 as [|x2 l2 IH2]; [done|]. cbn.
    destruct (decide (R x1 x2)) as [H1|H1]; destruct (decide (R' (f x1) (f x2))) as [H2|H2];
      rewrite HR in H1; try done; cbn; f_equal.
    - apply (IH1 (x2 :: l2)).
    - apply IH2. }
  set (F := fmap (M := list) (fmap (M := option) (fmap (M := list) f))).
  assert (Hs : ∀ st l, merge_list_to_stack R' (F st) (f <$> l)
    = F (merge_list_to_stack R st l)).
  { induction st as [|[l'|] st IH]; intros k; cbn; try done. rewrite Hm, IH. done. }
  assert (Hk : ∀ st, merge_stack R' (F st) = f <$> merge_stack R st).
  { induction st as [|[l'|] st IH]; cbn; try done. by rewrite IH, Hm. }
  unfold merge_sort.
  assert (Ha : ∀ l st, merge_sort_aux R' (F st) (f <$> l)
    = f <$> merge_sort_aux R st l).
  { clear l. induction l as [|x l IH]; intros st; cbn; [apply Hk|].
    rewrite <-IH. f_equal. apply (Hs st [x]). }
  apply (Ha l []).
Qed.

Global Instance entry_key_le_total : Total entry_key_le.
Proof. intros e f. apply (total ord_le). Qed.
Global Instance entry_key_le_trans : Transitive entry_key_le.
Proof. intros e f g. apply (transitivity (R := ord_le)). Qed.

Lemma keys_of_inj es e f :
  NoDup (keys_of es) → e ∈ es → f ∈ es → e.1.(it_bytes) = f.1.(it_bytes) → e = f.
Proof.
  unfold keys_of. induction es as [|x es IH]; cbn; [set_solver|].
  intros [Hx Hnd]%NoDup_cons He Hf Heq.
  assert (∀ y, y ∈ es → y.1.(it_bytes) ∈ (λ e, e.1.(it_bytes)) <$> es) as Hin.
  { intros y Hy. by apply (list_elem_of_fmap_2 (λ e : item * item, e.1.(it_bytes))). }
  apply elem_of_cons in He as [->|He], Hf as [->|Hf]; auto;
    exfalso; apply Hx; [rewrite Heq|rewrite <-Heq]; auto.
Qed.

Lemma sorted_entries_unique es fs :
  NoDup (keys_of es) → es ≡ₚ fs →
  StronglySorted entry_key_le es → StronglySorted entry_key_le fs → es = fs.
Proof.
  intros Hnd Hp He Hf. apply (StronglySorted_unique_strong entry_key_le); [|done..].
  intros e f Hein Hfin H1 H2. apply (keys_of_inj es); [done..|by rewrite Hp|].
  by apply (anti_symm ord_le).
Qed.

Lemma merge_sort_entries_perm es fs :
  NoDup (keys_of es) → es ≡ₚ fs → merge_sort entry_key_le es = merge_sort entry_key_le fs.
Proof.
  intros Hnd Hp. apply sorted_entries_unique.
  - unfold keys_of. by rewrite merge_sort_Permutation.
  - by rewrite !merge_sort_Permutation.
  - apply StronglySorted_merge_sort; apply _.
  - apply StronglySorted_merge_sort; apply _.
Qed.

Lemma merge_sort_entries_id es :
  NoDup (keys_of es) → StronglySorted entry_key_le es → merge_sort entry_key_le es = es.
Proof.
  intros Hnd Hs. symmetry. apply sorted_entries_unique; [done| |done|].
  - by rewrite merge_sort_Permutation.
  - apply StronglySorted_merge_sort; apply _.
Qed.

(** ** Facts about the format *)

Lemma guard_Some {A} (P : Prop) `{!Decision P} (m : option A) x :
  (guard P;; m) = Some x ↔ P ∧ m = Some x.
Proof. case_guard; naive_solver. Qed.

Definition spec_entry (levels : nat) (e : CanonicalValue * CanonicalValue) :
    option (item * item) :=
  k ← spec levels e.1; x ← spec levels e.2; Some (k, x).

Lemma spec_entry_Some levels e ix :
  spec_entry levels e = Some ix ↔ spec levels e.1 = Some ix.1 ∧ spec levels e.2 = Some ix.2.
Proof.
  unfold spec_entry. destruct ix as [k x], (spec levels e.1), (spec levels e.2); naive_solver.
Qed.

Lemma spec_Negative levels z it :
  spec (S levels) (Negative z) = Some it ↔ z < 0 ∧ it = Item (head 1 (-1 - z)) 1 (Negative z).
Proof. cbn. rewrite guard_Some. naive_solver. Qed.

Lemma spec_Array levels vs it :
  spec (S levels) (Array vs) = Some it ↔
  len vs ≤ MAX_CONTAINER_ENTRIES ∧
  ∃ items, mapM (spec levels) vs = Some items ∧
    it = Item (head 4 (len vs) ++ concat (it_bytes <$> items))
           (1 + Zsum it_items items) (Array (it_value <$> items)).
Proof.
  cbn. rewrite guard_Some. rewrite bind_Some. naive_solver.
Qed.

Lemma spec_Map levels es it :
  spec (S levels) (Map es) = Some it ↔
  len es ≤ MAX_CONTAINER_ENTRIES ∧
  ∃ entries, mapM (spec_entry levels) es = Some entries ∧ NoDup (keys_of entries) ∧
    it = Item (head 5 (len es) ++ concat (entry_bytes <$> merge_sort entry_key_le entries))
           (1 + Zsum entry_items entries)
           (Map (entry_value <$> merge_sort entry_key_le entries)).
Proof.
  cbn. rewrite guard_Some. rewrite bind_Some. setoid_rewrite guard_Some. naive_solver.
Qed.

Lemma Zsum_nonneg {A} (f : A → Z) l : (∀ x, x ∈ l → 0 ≤ f x) → 0 ≤ Zsum f l.
Proof.
  induction l as [|x l IH]; intros H; [done|]. change (0 ≤ f x + Zsum f l).
  pose proof (H x ltac:(set_solver)). assert (0 ≤ Zsum f l) by (apply IH; set_solver). lia.
Qed.

Lemma Zsum_app {A} (f : A → Z) l k : Zsum f (l ++ k) = Zsum f l + Zsum f k.
Proof. unfold Zsum. induction l as [|x l IH]; cbn; [done|]. rewrite IH. lia. Qed.

Global Instance Zsum_proper {A} (f : A → Z) : Proper ((≡ₚ) ==> (=)) (Zsum f).
Proof. intros l k. unfold Zsum. induction 1; cbn; lia. Qed.

Lemma mapM_Some_Forall2 {A B} (f : A → option B) l k :
  mapM f l = Some k ↔ Forall2 (λ x y, f x = Some y) l k.
Proof. apply mapM_Some. Qed.

Lemma mapM_perm_Some {A B} (f : A → option B) l l' k :
  l ≡ₚ l' → mapM f l = Some k → ∃ k', mapM f l' = Some k' ∧ k ≡ₚ k'.
Proof.
  intros Hp. revert k. induction Hp as [|x l l' Hp IH|x y l|l1 l2 l3 _ IH1 _ IH2]; intros k.
  - cbn. intros [= <-]. by exists [].
  - cbn. intros (y & Hy & (k0 & Hk & [= <-])%bind_Some)%bind_Some.
    destruct (IH _ Hk) as (k' & Hk' & Hp'). exists (y :: k'). rewrite Hy, Hk'. cbn.
    split; [done|]. by rewrite Hp'.
  - cbn. destruct (f x) as [a|], (f y) as [b|], (mapM f l) as [c|]; cbn; try done.
    intros [= <-]. eexists. split; [done|]. by apply perm_swap.
  - intros (k2 & H2 & P2)%IH1. destruct (IH2 _ H2) as (k3 & H3 & P3).
    exists k3. split; [done|]. by rewrite P2.
Qed.

Lemma spec_items_pos levels v it : spec levels v = Some it → 1 ≤ it.(it_items).
Proof.
  revert v it. induction levels as [|levels IH]; [done|].
  intros v it. destruct v as [n|z|b|b|vs|es|[]|];
    try (cbn; intros [= <-]; cbn; lia).
  - cbn. rewrite guard_Some. intros [_ [= <-]]. cbn. lia.
  - intros (_ & items & Hm & ->)%spec_Array. cbn.
    assert (0 ≤ Zsum it_items items); [|lia]. apply Zsum_nonneg. intros x Hx.
    apply mapM_Some_Forall2 in Hm.
    apply list_elem_of_lookup in Hx as [i Hi].
    destruct (Forall2_lookup_r _ _ _ _ _ Hm Hi) as (v & _ & Hv%IH). lia.
  - intros (_ & entries & Hm & _ & ->)%spec_Map. cbn.
    assert (0 ≤ Zsum entry_items entries); [|lia]. apply Zsum_nonneg. intros x Hx.
    apply mapM_Some_Forall2 in Hm. apply list_elem_of_lookup in Hx as [i Hi].
    destruct (Forall2_lookup_r _ _ _ _ _ Hm Hi) as (v & _ & [Hk%IH Hv%IH]%spec_entry_Some).
    unfold entry_items. lia.
Qed.

(** The encoding does not depend on the order of map entries. *)
Lemma spec_same levels v w : same_value v w → spec levels v = spec levels w.
Proof.
  revert v w. induction levels as [|levels IH]; [done|].
  intros v w Hvw. destruct Hvw as [v|vs ws Hall|es fs gs Hp Hall]; [done| |].
  - assert (Hm : mapM (spec levels) vs = mapM (spec levels) ws).
    { clear -IH Hall. induction Hall as [|v w vs ws Hvw _ IHf]; [done|].
      cbn. by rewrite (IH _ _ Hvw), IHf. }
    cbn. unfold len. rewrite (Forall2_length _ _ _ Hall), Hm. done.
  - assert (Hm : mapM (spec_entry levels) fs = mapM (spec_entry levels) gs).
    { clear -IH Hall. induction Hall as [|e f es fs [H1 H2] _ IHf]; [done|].
      assert (spec_entry levels e = spec_entry levels f) as He
        by (unfold spec_entry; by rewrite (IH _ _ H1), (IH _ _ H2)).
      cbn [mapM]. by rewrite He, IHf. }
    apply option_eq. intros it. rewrite !spec_Map.
    assert (Hlen : len es = len gs).
    { unfold len. by rewrite Hp, (Forall2_length _ _ _ Hall). }
    rewrite Hlen. split; intros (Hl & entries & He & Hnd & ->); (split; [done|]).
    + pose proof (mapM_perm_Some _ _ _ _ Hp He) as (entries' & He' & Hpe).
      exists entries'. rewrite <-Hm. split; [done|].
      split; [unfold keys_of; by rewrite <-Hpe|].
      by rewrite (merge_sort_entries_perm _ _ Hnd Hpe), Hpe.
    + rewrite <-Hm in He. symmetry in Hp.
      pose proof (mapM_perm_Some _ _ _ _ Hp He) as (entries' & He' & Hpe).
      exists entries'. split; [done|]. split; [unfold keys_of; by rewrite <-Hpe|].
      by rewrite (merge_sort_entries_perm _ _ Hnd Hpe), Hpe.
Qed.

Lemma Forall2_perm_r {A B} (P : A → B → Prop) l k k' :
  Forall2 P l k → k ≡ₚ k' → ∃ l', l ≡ₚ l' ∧ Forall2 P l' k'.
Proof.
  intros Hf Hp. revert l Hf.
  induction Hp as [|y k k' _ IH|y z k|k1 k2 k3 _ IH1 _ IH2]; intros l Hf.
  - exists l. by inversion Hf.
  - inversion Hf as [|x ? l0 ? Hx Hl]; subst. destruct (IH _ Hl) as (l' & Hp & Hf').
    exists (x :: l'). split; [by rewrite Hp|by constructor].
  - inversion Hf as [|x ? l0 ? Hx Hl]; subst. inversion Hl as [|x' ? l1 ? Hx' Hl']; subst.
    exists (x' :: x :: l1). split; [apply perm_swap|]. by repeat constructor.
  - destruct (IH1 _ Hf) as (l2 & P2 & F2). destruct (IH2 _ F2) as (l3 & P3 & F3).
    exists l3. split; [by rewrite P2|done].
Qed.

(** The value an encoding stands for is the encoded one. *)
Lemma spec_value_same levels v it : spec levels v = Some it → same_value v it.(it_value).
Proof.
  revert v it. induction levels as [|levels IH]; [done|].
  intros v it. destruct v as [n|z|b|b|vs|es|[]|];
    try (cbn; intros [= <-]; constructor).
  - cbn. rewrite guard_Some. intros [_ [= <-]]. constructor.
  - intros (_ & items & Hm & ->)%spec_Array. cbn. constructor.
    apply mapM_Some_Forall2 in Hm. apply Forall2_fmap_r.
    eapply Forall2_impl; [exact Hm|]. eauto.
  - intros (_ & entries & Hm & _ & ->)%spec_Map. cbn.
    apply mapM_Some_Forall2 in Hm.
    destruct (Forall2_perm_r _ _ _ (merge_sort entry_key_le entries) Hm) as (fs & Hp & Hf).
    { by rewrite merge_sort_Permutation. }
    apply (same_map es fs); [done|]. apply Forall2_fmap_r.
    eapply Forall2_impl; [exact Hf|]. intros e f [H1 H2]%spec_entry_Some. cbn. eauto.
Qed.

(** ** Heads *)

Lemma length_to_be_bytes n x : length (to_be_bytes n x) = n.
Proof. revert x. induction n as [|n IH]; intros x; [done|]. cbn. rewrite length_app, IH. cbn. lia. Qed.

Lemma to_be_bytes_digits n x : digits 256 (to_be_bytes n x).
Proof.
  revert x. induction n as [|n IH]; intros x; [constructor|]. cbn.
  apply Forall_app. split; [apply IH|]. apply Forall_singleton. apply Z.mod_pos_bound. lia.
Qed.

Lemma from_to_be_bytes n x :
  0 ≤ x < 256 ^ Z.of_nat n → from_be_bytes (to_be_bytes n x) = x.
Proof.
  revert x. induction n as [|n IH]; intros x Hx.
  - change (256 ^ Z.of_nat 0) with 1 in Hx. cbn. lia.
  - cbn [to_be_bytes]. unfold from_be_bytes in *. rewrite be_value_snoc, IH.
    + pose proof (Z.div_mod x 256). lia.
    + rewrite Nat2Z.inj_succ, Z.pow_succ_r in Hx by lia.
      split; [apply Z.div_pos; lia|]. apply Z.div_lt_upper_bound; lia.
Qed.

Lemma to_from_be_bytes b : digits 256 b → to_be_bytes (length b) (from_be_bytes b) = b.
Proof.
  intros Hb. apply (be_value_inj 256); [lia|apply to_be_bytes_digits|done| |].
  - by rewrite length_to_be_bytes.
  - apply from_to_be_bytes. apply be_value_bound; [lia|done].
Qed.

Lemma head_nonempty major arg : 1 ≤ len (head major arg).
Proof. unfold head, len. repeat case_decide; cbn; lia. Qed.

Lemma spec_nonempty levels v it :
  spec levels v = Some it → ∃ b rest, it.(it_bytes) = b :: rest ∧ 1 ≤ len it.(it_bytes).
Proof.
  assert (Hh : ∀ major arg rest, ∃ b tl, head major arg ++ rest = b :: tl ∧
    1 ≤ len (head major arg ++ rest)).
  { intros major arg rest. unfold head, len.
    repeat case_decide; eexists _, _; (split; [reflexivity|]); cbn; lia. }
  destruct levels as [|levels]; [done|].
  destruct v as [n|z|b|b|vs|es|[]|].
  - intros [= <-]. cbn. rewrite <-(app_nil_r (head 0 n)). apply Hh.
  - cbn. rewrite guard_Some. intros [_ [= <-]]. cbn.
    rewrite <-(app_nil_r (head 1 _)). apply Hh.
  - intros [= <-]. apply Hh.
  - intros [= <-]. apply Hh.
  - intros (_ & its & _ & ->)%spec_Array. apply Hh.
  - intros (_ & its & _ & _ & ->)%spec_Map. apply Hh.
  - intros [= <-]. by eexists _, _.
  - intros [= <-]. by eexists _, _.
  - intros [= <-]. by eexists _, _.
Qed.
