(* ===== verification/CborEncode.v ===== *)
(** * Deterministic CBOR: the encoder implements the format

    The encoder of [CanonicalCbor.v] succeeds exactly when [spec] is defined and
    the result fits the byte and item limits, and then writes [spec]'s bytes. *)

From S2P Require Import Prelude CanonicalCbor CborSpec.

Section encode.
Context (max : Z) (Hmax : 0 ≤ max ≤ u64_max).

(** The limits hold between writes. *)
Definition enc_ok (st : Encoder) : Prop :=
  len st.(output) ≤ max ∧ 0 ≤ st.(enc_items) ≤ MAX_TOTAL_ITEMS.

Definition fits (st : Encoder) (b : bytes) (n : Z) : Prop :=
  len st.(output) + len b ≤ max ∧ st.(enc_items) + n ≤ MAX_TOTAL_ITEMS.

(** [m] appends [b] and counts [n] items, exactly when that fits. *)
Definition emits (m : Enc unit) (b : bytes) (n : Z) : Prop :=
  0 ≤ n ∧ ∀ st u st', enc_ok st →
    m st = (Ok u, st') ↔
    fits st b n ∧ st' = MkEncoder (st.(output) ++ b) (st.(enc_items) + n).

Definition fails {A} (m : Enc A) : Prop := ∀ st a st', enc_ok st → m st ≠ (Ok a, st').

(** [m] behaves as the format says it should. *)
Definition follows (m : Enc unit) (o : option (bytes * Z)) : Prop :=
  match o with Some (b, n) => emits m b n | None => fails m end.

Lemma len_app {A} (l k : list A) : len (l ++ k) = len l + len k.
Proof. unfold len. rewrite length_app. lia. Qed.

Lemma len_nonneg {A} (l : list A) : 0 ≤ len l.
Proof. unfold len. lia. Qed.

Lemma enc_ok_after st b n :
  enc_ok st → 0 ≤ n → fits st b n →
  enc_ok (MkEncoder (st.(output) ++ b) (st.(enc_items) + n)).
Proof. unfold enc_ok, fits. cbn. rewrite len_app. lia. Qed.

Lemma fits_app st b c n k :
  0 ≤ n → 0 ≤ k →
  fits st (b ++ c) (n + k) ↔
  fits st b n ∧ fits (MkEncoder (st.(output) ++ b) (st.(enc_items) + n)) c k.
Proof.
  unfold fits. cbn. rewrite !len_app. pose proof (len_nonneg c). lia.
Qed.

Lemma emits_ret : emits (mret tt) [] 0.
Proof.
  split; [done|]. intros [o i] [] st' Hok. unfold mret, ST_ret, fits. cbn.
  change (len []) with 0. rewrite app_nil_r, !Z.add_0_r. destruct Hok as [? ?]. cbn in *.
  split; [intros [= <-]; split; [lia|done]|by intros [_ ->]].
Qed.

Lemma emits_seq m1 m2 b1 b2 n1 n2 :
  emits m1 b1 n1 → emits m2 b2 n2 → emits (m1;; m2) (b1 ++ b2) (n1 + n2).
Proof.
  intros [Hn1 H1] [Hn2 H2]. split; [lia|]. intros st u st' Hok.
  rewrite st_bind_Ok, fits_app by done. split.
  - intros ([] & st1 & [Hf ->]%H1 & Hr); [|done].
    apply H2 in Hr as [Hf2 ->]; [|by apply enc_ok_after].
    split; [done|]. cbn. by rewrite (assoc_L (++)), Z.add_assoc.
  - intros [[Hf1 Hf2] ->]. exists tt. eexists. split; [by apply H1|].
    apply H2; [by apply enc_ok_after|]. split; [done|]. cbn.
    by rewrite (assoc_L (++)), Z.add_assoc.
Qed.

Lemma fails_seq_l {A B} (m1 : Enc A) (f : A → Enc B) : fails m1 → fails (m1 ≫= f).
Proof.
  intros H1 st b st' Hok (a & st1 & Ha & _)%st_bind_Ok. by eapply H1.
Qed.

Lemma fails_seq_r {B} (m1 : Enc unit) (m2 : Enc B) b n :
  emits m1 b n → fails m2 → fails (m1;; m2).
Proof.
  intros [Hn H1] H2 st c st' Hok (u & st1 & [Hf ->]%H1 & Hr)%st_bind_Ok; [|done].
  eapply H2; [|exact Hr]. by apply enc_ok_after.
Qed.

Lemma follows_seq m1 m2 b n o :
  emits m1 b n → follows m2 o →
  follows (m1;; m2) ('(c, k) ← o; Some (b ++ c, n + k)).
Proof.
  intros H1. destruct o as [[c k]|]; cbn; [apply emits_seq, H1|].
  by eapply fails_seq_r.
Qed.

Lemma follows_lift_ok {A} (r : result CanonicalCborError A) a (m : A → Enc unit) o :
  r = Ok a → follows (m a) o → follows (lift r ≫= m) o.
Proof. intros ->. done. Qed.

Lemma follows_lift_err {A B} (r : result CanonicalCborError A) e (m : A → Enc B) :
  r = Err e → fails (lift r ≫= m).
Proof. intros -> st b st' _. done. Qed.

Lemma follows_check n m o :
  n ≤ MAX_CONTAINER_ENTRIES → follows m o → follows (lift (check_container n);; m) o.
Proof.
  intros Hn. apply (follows_lift_ok (check_container n) tt (λ _, m)).
  unfold check_container. by rewrite decide_False by lia.
Qed.

Lemma emits_write b : emits (write max b) b 0.
Proof using Hmax.
  split; [done|]. intros [o i] [] st' [Ho Hi]. unfold write, fits. cbn in *.
  rewrite Z.add_0_r. split.
  - intros H. st_inv H. cbn in *.
    match goal with H : u64_checked_add _ _ = _ |- _ => apply checked_Some in H as [-> ?] end.
    split; [lia|done].
  - intros [[Hl _] ->]. unfold mbind, ST_bind, get, lift, modify. cbn.
    assert (u64_checked_add (len o) (len b) = Some (len o + len b)) as ->.
    { apply checked_Some. pose proof (len_nonneg o). pose proof (len_nonneg b). lia. }
    cbn. unfold reject_if. by rewrite decide_False by lia.
Qed.

Lemma emits_charge n : 0 ≤ n → n ≤ MAX_TOTAL_ITEMS → emits (charge_items n) [] n.
Proof.
  intros Hn Hle. split; [done|]. intros [o i] [] st' [Ho Hi]. unfold charge_items, fits.
  cbn in *. rewrite app_nil_r. change (len []) with 0.
  unfold mbind, ST_bind, get, lift, modify. cbn.
  assert (u64_checked_add i n = Some (i + n)) as ->.
  { apply checked_Some. unfold MAX_TOTAL_ITEMS, u64_max in *. lia. }
  cbn. case_decide; split; naive_solver lia.
Qed.

Lemma emits_head major arg : emits (write_head max major arg) (head major arg) 0.
Proof using Hmax.
  unfold write_head, head. repeat case_decide; try apply emits_write;
    match goal with |- emits _ (?x :: ?l) _ => change (x :: l) with ([x] ++ l) end;
    apply (emits_seq _ _ _ _ 0 0); apply emits_write.
Qed.

Lemma emits_length major n : 0 ≤ n ≤ u64_max →
  emits (write_length max major n) (head major n) 0.
Proof using Hmax.
  intros Hn. unfold write_length.
  assert (checked 0 u64_max n = Some n) as -> by (by apply checked_Some).
  apply emits_head.
Qed.

Lemma emits_blob major b :
  emits (write_length max major (len b);; write max b) (head major (len b) ++ b) 0.
Proof using Hmax.
  destruct (decide (len b ≤ u64_max)) as [Hb|Hb].
  - apply (emits_seq _ _ _ _ 0 0); [|apply emits_write].
    apply emits_length. pose proof (len_nonneg b). lia.
  - split; [done|]. intros st u st' [Ho _]. unfold write_length.
    assert (checked 0 u64_max (len b) = None) as -> by (apply checked_None; lia).
    split; [done|]. intros [[Hl _] _]. rewrite len_app in Hl.
    pose proof (len_nonneg st.(output)). pose proof (len_nonneg (head major (len b))). lia.
Qed.

Definition parts_total (ps : list (bytes * Z)) : bytes * Z := (concat ps.*1, Zsum snd ps).

Lemma for_each_follows {A} (f : A → Enc unit) (g : A → option (bytes * Z)) l :
  (∀ x, x ∈ l → follows (f x) (g x)) →
  follows (for_each f l) (parts_total <$> mapM g l).
Proof.
  induction l as [|x l IH]; intros Hf; [apply emits_ret|]. cbn [for_each mapM].
  assert (IHl : follows (for_each f l) (parts_total <$> mapM g l)) by (apply IH; set_solver).
  specialize (Hf x ltac:(set_solver)). destruct (g x) as [[b n]|]; cbn; [|by apply fails_seq_l].
  destruct (mapM g l) as [ps|]; cbn in *; [|by eapply fails_seq_r].
  by apply emits_seq.
Qed.

Definition out_of (it : item) : bytes * Z := (it.(it_bytes), it.(it_items)).

Lemma mapM_fmap_out {A B C} (f : A → option B) (g : B → C) l :
  mapM (λ x, g <$> f x) l = (λ k, g <$> k) <$> mapM f l.
Proof.
  induction l as [|x l IH]; [done|]. cbn. rewrite IH.
  destruct (f x); cbn; [|done]. by destruct (mapM f l).
Qed.

Lemma parts_total_out its :
  parts_total (out_of <$> its) = (concat (it_bytes <$> its), Zsum it_items its).
Proof.
  unfold parts_total. f_equal.
  - by rewrite <-list_fmap_compose.
  - induction its as [|it its IH]; [done|]. cbn. by f_equal.
Qed.

(** ** Maps *)

Section keys.
Context (levels : nat)
  (IH : ∀ v, value_ok v → follows (encode max levels v) (out_of <$> spec levels v)).

Lemma key_run k st :
  value_ok k →
  match encode max levels k Encoder_new with
  | (Ok _, ke) => ∃ it, spec levels k = Some it ∧ ke = MkEncoder it.(it_bytes) it.(it_items) ∧
      len it.(it_bytes) ≤ max ∧ it.(it_items) ≤ MAX_TOTAL_ITEMS
  | (Err _, _) => ∀ it, spec levels k = Some it → enc_ok st →
      ¬ (len st.(output) + len it.(it_bytes) ≤ max ∧
         st.(enc_items) + it.(it_items) ≤ MAX_TOTAL_ITEMS)
  end.
Proof using IH Hmax.
  intros Hk. specialize (IH k Hk).
  assert (Hnew : enc_ok Encoder_new).
  { unfold enc_ok, MAX_TOTAL_ITEMS. change (len (output Encoder_new)) with 0. cbn. lia. }
  destruct (encode max levels k Encoder_new) as [[u|e] ke] eqn:Hr;
    destruct (spec levels k) as [it|] eqn:Hs; cbn in IH.
  - destruct IH as [_ Hit]. apply Hit in Hr as [[Hl Hn] ->]; [|done].
    change (len (output Encoder_new)) with 0 in *. cbn in *. exists it.
    split_and!; [done|done|lia|lia].
  - by apply IH in Hr.
  - intros it' [= <-] [Ho Hi] [Hl Hn]. destruct IH as [Hpos Hit].
    pose proof (len_nonneg st.(output)).
    assert (encode max levels k Encoder_new =
      (Ok tt, MkEncoder it.(it_bytes) it.(it_items))) as Hok.
    { apply Hit; [done|]. unfold fits. change (len (output Encoder_new)) with 0. cbn.
      split; [lia|done]. }
    congruence.
  - done.
Qed.

Definition key_sizes (ks : list item) : Z := Zsum (λ k, len k.(it_bytes)) ks.

Lemma encode_keys_inv es acc st r st' :
  Forall (λ e : CanonicalValue * CanonicalValue, value_ok e.1) es → enc_ok st →
  encode_keys max (encode max levels) acc es st = (Ok r, st') →
  ∃ ks, mapM (spec levels) es.*1 = Some ks ∧
    r.1 = acc.1 ++ zip (it_bytes <$> ks) es.*2 ∧
    st' = MkEncoder st.(output) (st.(enc_items) + Zsum it_items ks) ∧ enc_ok st'.
Proof using IH Hmax.
  revert acc st. induction es as [|[k v] es IHes]; intros [l p] st Hok Hst Hr; cbn in Hr.
  { st_inv Hr. exists []. cbn. rewrite app_nil_r, Z.add_0_r. by destruct st. }
  apply Forall_cons in Hok as [Hk Hok]. cbn in Hk.
  pose proof (key_run k st Hk) as Hkey.
  destruct (encode max levels k Encoder_new) as [[[]|e] ke]; [|st_inv Hr].
  destruct Hkey as (it & Hs & -> & Hlen & Hit).
  apply st_bind_Ok in Hr as (acc1 & st1 & Hr1 & Hr2). st_inv Hr1.
  pose proof (spec_items_pos _ _ _ Hs).
  match goal with H : charge_items _ _ = _ |- _ => rename H into Hc end. cbn in *.
  apply emits_charge in Hc as [Hf ->]; [|lia|done|done].
  rewrite app_nil_r in *.
  assert (Hst1 : enc_ok (MkEncoder st.(output) (st.(enc_items) + it.(it_items)))).
  { unfold fits, enc_ok in *. cbn. lia. }
  apply IHes in Hr2 as (ks & Hks & -> & -> & Hst2); [|done|done].
  exists (it :: ks). cbn in *. rewrite Hs. cbn. rewrite Hks. cbn.
  split; [done|]. split; [by rewrite <-(assoc_L (++))|]. by rewrite Z.add_assoc.
Qed.

Lemma encode_keys_run es acc st ks :
  Forall (λ e : CanonicalValue * CanonicalValue, value_ok e.1) es → enc_ok st →
  mapM (spec levels) es.*1 = Some ks → 0 ≤ acc.2 →
  len st.(output) + acc.2 + key_sizes ks ≤ max →
  st.(enc_items) + Zsum it_items ks ≤ MAX_TOTAL_ITEMS →
  encode_keys max (encode max levels) acc es st =
  (Ok (acc.1 ++ zip (it_bytes <$> ks) es.*2, acc.2 + key_sizes ks),
   MkEncoder st.(output) (st.(enc_items) + Zsum it_items ks)).
Proof using IH Hmax.
  revert acc st ks. induction es as [|[k v] es IHes]; intros [l p] st ks Hok Hst Hks Hp Hl Hn.
  { cbn in Hks. injection Hks as <-. cbn. rewrite app_nil_r, !Z.add_0_r. by destruct st. }
  apply Forall_cons in Hok as [Hk Hok]. cbn in Hk, Hks, Hp.
  destruct (spec levels k) as [it|] eqn:Hs; cbn in Hks; [|done].
  destruct (mapM (spec levels) es.*1) as [ks'|] eqn:Hks'; cbn in Hks; [|done].
  injection Hks as <-.
  change (key_sizes (it :: ks')) with (len it.(it_bytes) + key_sizes ks') in *.
  change (Zsum it_items (it :: ks')) with (it.(it_items) + Zsum it_items ks') in *.
  pose proof (spec_items_pos _ _ _ Hs) as Hpos.
  assert (Hsum : 0 ≤ Zsum it_items ks').
  { apply Zsum_nonneg. intros x Hx. apply mapM_Some_Forall2 in Hks'.
    apply list_elem_of_lookup in Hx as [i Hi].
    destruct (Forall2_lookup_r _ _ _ _ _ Hks' Hi) as (w & _ & Hw%spec_items_pos). lia. }
  assert (Hsz : 0 ≤ key_sizes ks') by (apply Zsum_nonneg; intros; apply len_nonneg).
  pose proof (len_nonneg st.(output)). pose proof (len_nonneg it.(it_bytes)). cbn in Hl.
  pose proof (key_run k st Hk) as Hkey.
  cbn [encode_keys]. unfold encode_key.
  destruct (encode max levels k Encoder_new) as [[[]|e] ke].
  2: { exfalso. apply (Hkey it Hs Hst). lia. }
  destruct Hkey as (it' & Hs' & -> & Hlen & Hit).
  assert (it' = it) as -> by congruence.
  assert (Hc : charge_items it.(it_items) st = (Ok tt,
    MkEncoder st.(output) (st.(enc_items) + it.(it_items)))).
  { apply emits_charge; [lia|done|done|]. rewrite app_nil_r. split; [|done].
    unfold fits. change (len []) with 0. destruct Hst. lia. }
  unfold enc_ok in Hst. st_step.
  - st_step; [by apply lift_Ok|]. st_step; [exact Hc|].
    st_step; [apply checked_Some; split; [reflexivity|cbn; lia]|]. st_step.
    st_step; [apply checked_Some; split; [reflexivity|cbn; lia]|]. st_step; [cbn; lia|].
    by apply mret_Ok.
  - rewrite IHes with (ks := ks'); cbn [output enc_items fst snd];
      [|done|unfold enc_ok; cbn; lia|done|lia|lia|lia].
    rewrite <-(assoc_L (++)), !Z.add_assoc. done.
Qed.

(** Sorting the encoder's pairs is sorting the format's entries. *)
Definition pair_of (p : bytes * CanonicalValue) (e : item * item) : Prop :=
  p.1 = e.1.(it_bytes) ∧ spec levels p.2 = Some e.2.

Lemma spec_entry_keys es entries :
  mapM (spec_entry levels) es = Some entries → mapM (spec levels) es.*1 = Some entries.*1.
Proof.
  rewrite !mapM_Some_Forall2. intros H. apply Forall2_fmap.
  eapply Forall2_impl; [exact H|]. intros e f [? ?]%spec_entry_Some. done.
Qed.

Definition first_le (z z' : (item * item) * CanonicalValue) : Prop := entry_key_le z.1 z'.1.
Global Instance first_le_dec : RelDecision first_le.
Proof. intros z z'. unfold first_le. apply _. Defined.

Lemma sorted_pairs es entries :
  mapM (spec_entry levels) es = Some entries →
  Forall2 pair_of (merge_sort key_le (zip (it_bytes <$> entries.*1) es.*2))
    (merge_sort entry_key_le entries).
Proof.
  intros H%mapM_Some_Forall2.
  set (f (z : (item * item) * CanonicalValue) := (z.1.1.(it_bytes), z.2)).
  assert (∃ zs, f <$> zs = zip (it_bytes <$> entries.*1) es.*2 ∧ zs.*1 = entries ∧
    Forall (λ z, pair_of (f z) z.1) zs) as (zs & <- & <- & Hzs).
  { induction H as [|e g es entries [H1 H2]%spec_entry_Some _ (zs & Hz1 & Hz2 & Hzs)].
    - by exists [].
    - exists ((g, e.2) :: zs). cbn. rewrite Hz1, Hz2. split_and!; [done|done|].
      by constructor. }
  pose proof (merge_sort_fmap f first_le key_le zs ltac:(done)) as ->.
  pose proof (merge_sort_fmap fst first_le entry_key_le zs ltac:(done)) as ->.
  rewrite <-(merge_sort_Permutation first_le) in Hzs.
  induction Hzs; constructor; auto.
Qed.

Lemma neighbours_NoDup {A} (l : list (bytes * A)) :
  StronglySorted key_le l → has_equal_neighbours l ≠ true ↔ NoDup l.*1.
Proof.
  induction l as [|x l IHl]; intros Hs; [split; [constructor|done]|].
  apply StronglySorted_inv in Hs as [Hs Hx]. specialize (IHl Hs).
  destruct l as [|y l]; [split; [intros _; apply NoDup_singleton|done]|].
  cbn [has_equal_neighbours]. rewrite orb_true_iff, bool_decide_eq_true.
  change ((x :: y :: l).*1) with (x.1 :: (y :: l).*1). rewrite NoDup_cons, <-IHl.
  split.
  - intros Hn. split; [|tauto]. intros (z & Hz & Hin)%list_elem_of_fmap. apply Hn. left.
    apply (anti_symm ord_le).
    + rewrite Forall_forall in Hx. apply Hx. set_solver.
    + rewrite Hz. apply StronglySorted_inv in Hs as [_ Hy]. rewrite Forall_forall in Hy.
      apply elem_of_cons in Hin as [->|Hin]; [|by apply Hy].
      unfold ord_le. by rewrite compare_refl.
  - intros [Hx' Hn] [Heq|]; [|done]. apply Hx'. rewrite Heq. set_solver.
Qed.

Lemma pair_of_keys l entries : Forall2 pair_of l entries → l.*1 = keys_of entries.
Proof. induction 1 as [|p e l entries [Hk _] _ IHf]; [done|]. cbn. by rewrite Hk, IHf. Qed.

Global Instance key_le_total {A} : Total (key_le (A := A)).
Proof. intros x y. apply (total ord_le). Qed.
Global Instance key_le_trans {A} : Transitive (key_le (A := A)).
Proof. intros x y z. apply (transitivity (R := ord_le)). Qed.

Definition value_part (p : bytes * CanonicalValue) : option (bytes * Z) :=
  (λ it, (p.1 ++ it.(it_bytes), it.(it_items))) <$> spec levels p.2.

Lemma values_follow l :
  Forall (λ p : bytes * CanonicalValue, value_ok p.2) l →
  follows (for_each (λ p, write max p.1;; encode max levels p.2) l)
    (parts_total <$> mapM value_part l).
Proof using IH Hmax.
  intros Hl. apply for_each_follows. intros p Hp. rewrite Forall_forall in Hl.
  pose proof (follows_seq _ _ _ _ _ (emits_write p.1) (IH _ (Hl p Hp))) as H.
  unfold value_part. destruct (spec levels p.2) as [it|]; exact H.
Qed.

Lemma value_parts_total l entries :
  Forall2 pair_of l entries →
  parts_total <$> mapM value_part l
  = Some (concat (entry_bytes <$> entries), Zsum (λ e, e.2.(it_items)) entries).
Proof.
  intros H. assert (mapM value_part l =
    Some ((λ e, (entry_bytes e, e.2.(it_items))) <$> entries)) as ->.
  { induction H as [|p e l entries [Hk Hv] _ IHf]; [done|].
    assert (value_part p = Some (entry_bytes e, e.2.(it_items))) as Hp
      by (unfold value_part, entry_bytes; by rewrite Hv, Hk).
    cbn [mapM]. by rewrite Hp, IHf. }
  cbn. f_equal. unfold parts_total. f_equal.
  - by rewrite <-list_fmap_compose.
  - clear. induction entries as [|e es IHe]; [done|]. cbn. by f_equal.
Qed.

(** The statements of the map case. *)
Definition map_body (entries : list (CanonicalValue * CanonicalValue)) : Enc unit :=
  '(unsorted, _) ← encode_keys max (encode max levels) ([], 0) entries;
  let sorted := merge_sort key_le unsorted in
  lift (reject DuplicateMapKey when (has_equal_neighbours sorted = true));;
  write_length max 5 (len sorted);;
  for_each (λ entry, write max entry.1;; encode max levels entry.2) sorted.

Definition map_out (es : list (CanonicalValue * CanonicalValue)) : option (bytes * Z) :=
  entries ← mapM (spec_entry levels) es;
  guard (NoDup (keys_of entries));;
  Some (head 5 (len es) ++ concat (entry_bytes <$> merge_sort entry_key_le entries),
        Zsum entry_items entries).

Lemma len_sorted es (ks : list item) :
  length ks = length es →
  len (merge_sort key_le (zip (it_bytes <$> ks) (snd (A := CanonicalValue)
    (B := CanonicalValue) <$> es))) = len es.
Proof.
  intros Hl. unfold len. f_equal. rewrite merge_sort_Permutation.
  rewrite length_zip_with, !length_fmap. lia.
Qed.

Lemma elem_of_zip_r' {A B} (l : list A) (k : list B) p : p ∈ zip l k → p.2 ∈ k.
Proof.
  revert k. induction l as [|x l IHl]; intros [|y k]; cbn; set_solver.
Qed.

(** What follows the key loop, from any list of encoded keys. *)
Lemma map_tail_follows es ks :
  Forall (λ e : CanonicalValue * CanonicalValue, value_ok e.1 ∧ value_ok e.2) es →
  len es ≤ MAX_CONTAINER_ENTRIES → mapM (spec levels) es.*1 = Some ks →
  let sorted := merge_sort key_le (zip (it_bytes <$> ks) es.*2) in
  follows (write_length max 5 (len sorted);;
           for_each (λ entry, write max entry.1;; encode max levels entry.2) sorted)
    ('(c, k) ← parts_total <$> mapM value_part sorted; Some (head 5 (len es) ++ c, 0 + k)).
Proof using IH Hmax.
  intros Hok Hle Hks. cbn zeta. apply mapM_Some_Forall2, Forall2_length in Hks.
  rewrite length_fmap in Hks. rewrite len_sorted by done. apply follows_seq.
  - apply emits_length. pose proof (len_nonneg es). unfold MAX_CONTAINER_ENTRIES, u64_max in *.
    lia.
  - apply values_follow. rewrite merge_sort_Permutation.
    apply Forall_forall. intros [b v] Hin%elem_of_zip_r'. cbn in *.
    apply list_elem_of_fmap in Hin as (e & -> & He).
    rewrite Forall_forall in Hok. by apply Hok.
Qed.

Lemma spec_entry_None es ks :
  mapM (spec levels) es.*1 = Some ks → mapM (spec_entry levels) es = None →
  mapM value_part (merge_sort key_le (zip (it_bytes <$> ks) es.*2)) = None.
Proof.
  intros Hks Hn. apply mapM_None in Hn. apply mapM_None.
  rewrite merge_sort_Permutation.
  apply mapM_Some_Forall2 in Hks. revert ks Hks.
  induction Hn as [e es Hn|e es Hn IHn]; intros ks Hks; inversion Hks; subst; cbn.
  - left. unfold spec_entry in Hn. unfold value_part. cbn.
    destruct (spec levels e.1); [|done]. cbn in Hn. by destruct (spec levels e.2).
  - right. by apply IHn.
Qed.

Lemma key_sizes_le entries :
  key_sizes entries.*1 ≤ len (concat (entry_bytes <$> entries)).
Proof.
  unfold key_sizes, Zsum, entry_bytes. induction entries as [|e es IHe]; cbn; [done|].
  rewrite !len_app. pose proof (len_nonneg e.2.(it_bytes)). lia.
Qed.

Lemma len_concat_perm (l k : list bytes) : l ≡ₚ k → len (concat l) = len (concat k).
Proof. induction 1; cbn; rewrite ?len_app; lia. Qed.

Lemma Zsum_entry_items entries :
  Zsum entry_items entries = Zsum it_items entries.*1 + Zsum (λ e, e.2.(it_items)) entries.
Proof.
  unfold Zsum, entry_items. induction entries as [|e es IHe]; cbn; lia.
Qed.

Lemma sorted_distinct es entries :
  mapM (spec_entry levels) es = Some entries →
  has_equal_neighbours (merge_sort key_le (zip (it_bytes <$> entries.*1) es.*2)) ≠ true ↔
  NoDup (keys_of entries).
Proof.
  intros Hent. rewrite neighbours_NoDup by (apply StronglySorted_merge_sort; apply _).
  rewrite (pair_of_keys _ _ (sorted_pairs _ _ Hent)). unfold keys_of.
  by rewrite (merge_sort_Permutation entry_key_le).
Qed.

Lemma mapM_items_nonneg vs ks : mapM (spec levels) vs = Some ks → 0 ≤ Zsum it_items ks.
Proof.
  intros Hks%mapM_Some_Forall2. apply Zsum_nonneg. intros x Hx.
  apply list_elem_of_lookup in Hx as [i Hi].
  destruct (Forall2_lookup_r _ _ _ _ _ Hks Hi) as (w & _ & Hw%spec_items_pos). lia.
Qed.

Lemma map_body_follows es :
  Forall (λ e : CanonicalValue * CanonicalValue, value_ok e.1 ∧ value_ok e.2) es →
  len es ≤ MAX_CONTAINER_ENTRIES → follows (map_body es) (map_out es).
Proof using IH Hmax.
  intros Hok Hle.
  assert (Hok1 : Forall (λ e : CanonicalValue * CanonicalValue, value_ok e.1) es)
    by (eapply Forall_impl; [exact Hok|]; naive_solver).
  unfold map_out. destruct (mapM (spec_entry levels) es) as [entries|] eqn:Hent; cbn.
  - pose proof (spec_entry_keys _ _ Hent) as Hks.
    pose proof (map_tail_follows es _ Hok Hle Hks) as Htail. cbn zeta in Htail.
    pose proof (sorted_pairs _ _ Hent) as Hpair.
    rewrite (value_parts_total _ _ Hpair) in Htail. cbn in Htail.
    pose proof (sorted_distinct _ _ Hent) as Hnb.
    set (sorted := merge_sort key_le (zip (it_bytes <$> entries.*1) es.*2)) in *.
    assert (Hz : Zsum (λ e, e.2.(it_items)) (merge_sort entry_key_le entries)
      = Zsum (λ e, e.2.(it_items)) entries) by (by rewrite merge_sort_Permutation).
    rewrite Hz in Htail. destruct Htail as [Hpos Htail].
    assert (Hsz : key_sizes entries.*1
      ≤ len (concat (entry_bytes <$> merge_sort entry_key_le entries))).
    { rewrite (len_concat_perm _ (entry_bytes <$> entries)); [apply key_sizes_le|].
      by rewrite merge_sort_Permutation. }
    pose proof (mapM_items_nonneg _ _ Hks) as Hki.
    case_guard as Hnd; cbn.
    + split; [rewrite Zsum_entry_items; lia|]. intros st u st' Hst. rewrite Zsum_entry_items.
      unfold fits. split.
      * unfold map_body. intros ([un p] & st1 & Hk & Hr)%st_bind_Ok.
        apply encode_keys_inv in Hk as (ks & Hks' & Hun & -> & Hst1); [|done..].
        assert (ks = entries.*1) as -> by congruence. cbn in Hun. subst un.
        fold sorted in Hr. apply st_bind_Ok in Hr as ([] & st2 & [Hrej ->]%lift_Ok & Hr).
        apply Htail in Hr as [[Hf1 Hf2] ->]; [|done]. cbn in *.
        split; [lia|]. f_equal. lia.
      * intros [[Hf1 Hf2] ->]. rewrite len_app in Hf1. unfold map_body.
        pose proof (head_nonempty 5 (len es)). destruct (Hst) as [Ho Hi].
        assert (Hst1 : enc_ok (MkEncoder st.(output) (st.(enc_items) + Zsum it_items entries.*1))).
        { unfold enc_ok. cbn. lia. }
        apply st_bind_Ok. eexists _, _. split.
        { apply (encode_keys_run es ([], 0) st entries.*1); cbn; auto; lia. }
        cbn. fold sorted. st_step; [by apply Hnb|]. apply Htail; [done|].
        unfold fits. cbn. rewrite len_app. split; [lia|]. f_equal. lia.
    + intros st u st' Hst ([un p] & st1 & Hk & Hr)%st_bind_Ok.
      apply encode_keys_inv in Hk as (ks & Hks' & Hun & -> & Hst1); [|done..].
      assert (ks = entries.*1) as -> by congruence. cbn in Hun. subst un.
      fold sorted in Hr.
      apply st_bind_Ok in Hr as ([] & st2 & [Hrej%reject_if_Ok _]%lift_Ok & _).
      by apply Hnb in Hrej.
  - intros st u st' Hst ([un p] & st1 & Hk & Hr)%st_bind_Ok.
    apply encode_keys_inv in Hk as (ks & Hks & Hun & -> & Hst1); [|done..].
    cbn in Hun. subst un.
    pose proof (map_tail_follows es _ Hok Hle Hks) as Htail. cbn zeta in Htail.
    rewrite spec_entry_None in Htail by done. cbn in Htail.
    apply st_bind_Ok in Hr as ([] & st2 & [_ ->]%lift_Ok & Hr). by apply Htail in Hr.
Qed.
End keys.

(** ** The encoder *)

Lemma encode_follows levels v :
  value_ok v → follows (encode max levels v) (out_of <$> spec levels v).
Proof using Hmax.
  revert v. induction levels as [|levels IH]; intros v Hv; [by intros st u st' _|].
  assert (Hone : emits (charge_items 1) [] 1) by (apply emits_charge; done).
  assert (Hcharge : ∀ m o, follows m o →
    follows (charge_items 1;; m) ('(c, k) ← o; Some (c, 1 + k))).
  { intros m o Hm. apply (follows_seq _ _ [] 1); done. }
  destruct Hv as [n Hn|z Hz|b Hb|b Hb _|vs Hvs|es Hes|[]|]; cbn [encode spec].
  - apply (Hcharge _ (Some (_, 0))), emits_head.
  - case_guard as Hneg; cbn.
    + apply (Hcharge _ (Some (_, 0))). eapply follows_lift_ok; [apply reject_if_Ok with (u := tt); lia|].
      eapply follows_lift_ok; [|apply emits_head]. apply ok_or_Ok, checked_Some.
      unfold i64_min, u64_max in *. split; [done|lia].
    + eapply fails_seq_r; [done|]. eapply follows_lift_err. apply reject_if_Err. split; [lia|done].
  - apply (Hcharge _ (Some (_, 0))), emits_blob.
  - apply (Hcharge _ (Some (_, 0))), emits_blob.
  - case_guard as Hlen; cbn.
    2: { eapply fails_seq_r; [done|]. eapply follows_lift_err. unfold check_container.
         by rewrite decide_True by lia. }
    assert (Hloop : follows (for_each (encode max levels) vs)
      (parts_total <$> mapM (λ v, out_of <$> spec levels v) vs)).
    { apply for_each_follows. intros v Hin. rewrite Forall_forall in Hvs. auto. }
    rewrite mapM_fmap_out in Hloop.
    assert (Hloop' : follows (for_each (encode max levels) vs)
      ((λ its, (concat (it_bytes <$> its), Zsum it_items its)) <$> mapM (spec levels) vs)).
    { destruct (mapM (spec levels) vs) as [its|]; [|exact Hloop].
      change (follows (for_each (encode max levels) vs) (Some (parts_total (out_of <$> its))))
        in Hloop. by rewrite parts_total_out in Hloop. }
    pose proof (len_nonneg vs) as Hnn.
    assert (Hl : emits (write_length max 4 (len vs)) (head 4 (len vs)) 0).
    { apply emits_length. unfold MAX_CONTAINER_ENTRIES, u64_max in *. lia. }
    pose proof (Hcharge _ _ (follows_check _ _ _ Hlen (follows_seq _ _ _ _ _ Hl Hloop'))) as H.
    destruct (mapM (spec levels) vs) as [its|]; exact H.
  - case_guard as Hlen; cbn.
    2: { eapply fails_seq_r; [done|]. eapply follows_lift_err. unfold check_container.
         by rewrite decide_True by lia. }
    pose proof (Hcharge _ _ (follows_check _ _ _ Hlen
      (map_body_follows levels IH es Hes Hlen))) as H.
    unfold map_out in H. change (mapM (λ e, _) es) with (mapM (spec_entry levels) es).
    destruct (mapM (spec_entry levels) es) as [entries|]; cbn in H |- *; [|exact H].
    case_guard; exact H.
  - apply (Hcharge _ (Some (_, 0))), emits_write.
  - apply (Hcharge _ (Some (_, 0))), emits_write.
  - apply (Hcharge _ (Some (_, 0))), emits_write.
Qed.
End encode.

(** The encoder's incremental checks amount to the two limits on the result. *)
Lemma encode_with_limit_iff v max b :
  value_ok v → 0 ≤ max ≤ u64_max →
  encode_deterministic_cbor_with_limit v max = Ok b ↔
  ∃ it, spec (S MAX_DEPTH) v = Some it ∧ it.(it_bytes) = b ∧
    len b ≤ max ∧ it.(it_items) ≤ MAX_TOTAL_ITEMS.
Proof.
  intros Hv Hmax. unfold encode_deterministic_cbor_with_limit.
  generalize (S MAX_DEPTH). intros levels.
  pose proof (encode_follows max Hmax levels v Hv) as H.
  assert (Hnew : enc_ok max Encoder_new).
  { unfold enc_ok, MAX_TOTAL_ITEMS. change (len (output Encoder_new)) with 0. cbn. lia. }
  rewrite result_bind_Ok. setoid_rewrite reject_if_Ok.
  destruct (encode max levels v Encoder_new) as [r st] eqn:Hr. split.
  - intros (_ & Hz & ([] & -> & [= <-])%result_bind_Ok).
    destruct (spec levels v) as [it|]; cbn in H; [|by apply H in Hr].
    destruct H as [_ H]. apply H in Hr as [[Hl Hn] ->]; [|done].
    exists it. change (len (output Encoder_new)) with 0 in *. cbn in *. auto.
  - intros (it & Hs & <- & Hl & Hn). rewrite Hs in H. destruct H as [_ H].
    destruct (H Encoder_new tt (MkEncoder it.(it_bytes) it.(it_items)) Hnew) as [_ Hrun].
    rewrite Hr in Hrun. unfold fits in Hrun. change (len (output Encoder_new)) with 0 in Hrun.
    cbn in Hrun. specialize (Hrun ltac:(split; [lia|done])). injection Hrun as -> ->.
    exists tt. split; [|done]. intros Hz.
    destruct (spec_nonempty _ _ _ Hs) as (? & ? & _ & ?). lia.
Qed.
