(* ===== verification/CborDecode.v ===== *)
(** * Deterministic CBOR: the parser implements the format

    The parser of [CanonicalCbor.v] accepts exactly the encodings that [spec]
    produces.  The codec theorems follow: round trips in both directions,
    one spelling per value, independence of map-entry order. *)

From S2P Require Import Prelude CanonicalCbor CborSpec CborEncode.

(** ** The initial byte *)

Lemma initial_value major add :
  0 ≤ add < 32 → Z.lor (Z.shiftl major 5) add = major * 32 + add.
Proof. intros. by rewrite lor_shiftl_add by lia. Qed.

Lemma initial_major major add :
  0 ≤ add < 32 → Z.shiftr (Z.lor (Z.shiftl major 5) add) 5 = major.
Proof.
  intros. rewrite initial_value, Z.shiftr_div_pow2 by lia. change (2 ^ 5) with 32.
  rewrite Z.div_add_l, Z.div_small by lia. lia.
Qed.

Lemma initial_additional major add :
  0 ≤ add < 32 → Z.land (Z.lor (Z.shiftl major 5) add) 0x1f = add.
Proof.
  intros. rewrite initial_value by lia. change 31 with (2 ^ 5 - 1).
  rewrite land_mask by lia. change (2 ^ 5) with 32.
  rewrite Z.add_comm, Z.mod_add by lia. apply Z.mod_small. lia.
Qed.

Lemma initial_split initial :
  is_byte initial →
  0 ≤ Z.shiftr initial 5 < 8 ∧ 0 ≤ Z.land initial 0x1f < 32 ∧
  Z.lor (Z.shiftl (Z.shiftr initial 5) 5) (Z.land initial 0x1f) = initial.
Proof.
  unfold is_byte. intros Hb. change 31 with (2 ^ 5 - 1).
  rewrite land_mask, Z.shiftr_div_pow2 by lia. change (2 ^ 5) with 32.
  pose proof (Z.mod_pos_bound initial 32 ltac:(lia)).
  split; [split; [apply Z.div_pos; lia|apply Z.div_lt_upper_bound; lia]|].
  split; [done|]. rewrite initial_value by lia. pose proof (Z.div_mod initial 32). lia.
Qed.

(** ** Reading back what was written *)

Section reads.
Context (input : bytes) (max : Z) (Hin : len input ≤ max) (Hmax : max ≤ u64_max).

(** At any place where [input] continues with [b], [m] consumes [b], counts [n]
    items and returns [x]. *)
Definition reads {A} (m : Par A) (b : bytes) (x : A) (n : Z) : Prop :=
  ∀ pre post n0, input = pre ++ b ++ post → 0 ≤ n0 → n0 + n ≤ MAX_TOTAL_ITEMS →
    m (MkParser (length pre) n0) = (Ok x, MkParser (length pre + length b) (n0 + n)).

Lemma reads_ret {A} (x : A) : reads (mret x) [] x 0.
Proof.
  intros pre post n0 _ _ _. cbn. by rewrite Nat.add_0_r, Z.add_0_r.
Qed.

Lemma reads_bind {A B} (m : Par A) (f : A → Par B) b1 x n1 b2 y n2 :
  reads m b1 x n1 → reads (f x) b2 y n2 → 0 ≤ n1 → 0 ≤ n2 →
  reads (m ≫= f) (b1 ++ b2) y (n1 + n2).
Proof.
  intros H1 H2 Hn1 Hn2 pre post n0 Hi Hn0 Hn. st_step.
  - apply (H1 pre (b2 ++ post)); [by rewrite Hi, <-(assoc_L (++))|done|lia].
  - rewrite <-length_app.
    rewrite (H2 (pre ++ b1) post); [|by rewrite Hi, <-!(assoc_L (++))|lia|lia].
    rewrite !length_app. do 2 f_equal; lia.
Qed.

Lemma reads_lift {A B} (r : result CanonicalCborError A) x (f : A → Par B) b y n :
  r = Ok x → reads (f x) b y n → reads (lift r ≫= f) b y n.
Proof. intros -> H. done. Qed.

Lemma reads_byte b : reads (read_byte input) [b] b 0.
Proof.
  intros pre post n0 Hi _ _. unfold read_byte. st_step.
  st_step; [cbn; rewrite Hi; by apply list_lookup_middle|]. st_step.
  apply mret_Ok. split; [done|]. cbn. f_equal; lia.
Qed.

Lemma reads_exact b : reads (read_exact input (len b)) b b 0.
Proof using Hin Hmax.
  intros pre post n0 Hi _ _. unfold read_exact. st_step.
  assert (Hl : len input = len pre + len b + len post)
    by (rewrite Hi, !len_app; lia).
  unfold len in *. cbn.
  st_step; [apply checked_Some; split; [reflexivity|lia]|].
  st_step. { unfold slice. rewrite decide_True by (cbn; lia). reflexivity. }
  st_step. apply mret_Ok. cbn. split; [|f_equal; lia].
  rewrite Hi, drop_app_length. replace (_ - _)%nat with (length b) by lia.
  by rewrite take_app_length.
Qed.

Lemma reads_be k lo arg :
  0 ≤ arg < 256 ^ Z.of_nat k → lo < arg →
  reads (b ← read_exact input (Z.of_nat k);
         lift (if decide (from_be_bytes b ≤ lo) then Err NonPreferredArgument
               else Ok (from_be_bytes b))) (to_be_bytes k arg) arg 0.
Proof using Hin Hmax.
  intros Hr Hlo. rewrite <-(app_nil_r (to_be_bytes k arg)).
  apply (reads_bind _ _ _ (to_be_bytes k arg) 0 [] arg 0); [| |done..].
  - replace (Z.of_nat k) with (len (to_be_bytes k arg))
      by (unfold len; by rewrite length_to_be_bytes). apply reads_exact.
  - rewrite from_to_be_bytes by done. rewrite decide_False by lia. apply reads_ret.
Qed.

(** The additional information of a head. *)
Lemma head_reads major arg :
  0 ≤ major < 8 → 0 ≤ arg ≤ u64_max →
  ∃ initial rest, head major arg = initial :: rest ∧
    Z.shiftr initial 5 = major ∧ reads (read_argument input (Z.land initial 0x1f)) rest arg 0.
Proof using Hin Hmax.
  intros Hm Ha. unfold head, u64_max, u32_max, u16_max in *.
  repeat case_decide; eexists _, _; (split; [reflexivity|]);
    rewrite ?initial_major, ?initial_additional by lia; (split; [done|]);
    unfold read_argument, u32_max, u16_max.
  - rewrite decide_True by lia. apply reads_ret.
  - rewrite decide_False, decide_True by lia. rewrite <-(app_nil_r [arg]).
    apply (reads_bind _ _ [arg] arg 0 [] arg 0); [apply reads_byte| |done..].
    rewrite decide_False by lia. apply reads_ret.
  - rewrite !decide_False, decide_True by lia. apply (reads_be 2); cbn; lia.
  - rewrite !decide_False, decide_True by lia. apply (reads_be 4); cbn; lia.
  - rewrite !decide_False, decide_True by lia. apply (reads_be 8); cbn; lia.
Qed.

Lemma reads_charge : reads charge_item [] tt 1.
Proof.
  intros pre post n0 _ Hn0 Hn. unfold charge_item. st_step.
  unfold MAX_TOTAL_ITEMS in *.
  st_step; [apply checked_Some; split; [reflexivity|unfold u64_max; cbn; lia]|]. st_step.
  apply lift_Ok. split; [apply reject_if_Ok; unfold MAX_TOTAL_ITEMS; cbn; lia|].
  cbn. f_equal. lia.
Qed.

Lemma reads_length add rest arg :
  reads (read_argument input add) rest arg 0 → 0 ≤ arg ≤ max →
  reads (read_length input max add) rest arg 0.
Proof using Hmax.
  intros Hr Ha. rewrite <-(app_nil_r rest).
  apply (reads_bind _ _ rest arg 0 [] arg 0); [done| |done..].
  eapply reads_lift; [apply ok_or_Ok, checked_Some; split; [reflexivity|lia]|].
  eapply reads_lift; [apply reject_if_Ok with (u := tt); lia|]. apply reads_ret.
Qed.

Lemma reads_container_length add rest arg :
  reads (read_argument input add) rest arg 0 → 0 ≤ arg ≤ max → arg ≤ MAX_CONTAINER_ENTRIES →
  reads (read_container_length input max add) rest arg 0.
Proof using Hmax.
  intros Hr Ha Hc. rewrite <-(app_nil_r rest).
  apply (reads_bind _ _ rest arg 0 [] arg 0); [by apply reads_length| |done..].
  eapply reads_lift; [apply reject_if_Ok with (u := tt); lia|]. apply reads_ret.
Qed.

Lemma parse_array_reads (parse : Par CanonicalValue) its acc :
  (∀ it, it ∈ its → reads parse it.(it_bytes) it.(it_value) it.(it_items) ∧ 0 ≤ it.(it_items)) →
  reads (parse_array parse (length its) acc) (concat (it_bytes <$> its))
    (acc ++ (it_value <$> its)) (Zsum it_items its).
Proof.
  revert acc. induction its as [|it its IH]; intros acc Hits.
  { cbn. rewrite app_nil_r. apply reads_ret. }
  destruct (Hits it ltac:(set_solver)) as [Hit Hn].
  cbn [length parse_array fmap list_fmap concat].
  change (Zsum it_items (it :: its)) with (it.(it_items) + Zsum it_items its).
  eapply reads_bind; [exact Hit| |done|apply Zsum_nonneg; set_solver].
  replace (acc ++ it_value it :: (it_value <$> its))
    with ((acc ++ [it_value it]) ++ (it_value <$> its)) by (by rewrite <-(assoc_L (++))).
  apply IH. set_solver.
Qed.

Lemma slice_middle pre b post :
  input = pre ++ b ++ post → slice input (length pre) (length pre + length b) = Some b.
Proof.
  intros ->. unfold slice. rewrite decide_True by (rewrite !length_app; lia).
  rewrite drop_app_length. replace (_ - _)%nat with (length b) by lia.
  by rewrite take_app_length.
Qed.

Definition key_lt (e f : item * item) : Prop := ord_lt e.1.(it_bytes) f.1.(it_bytes).

Lemma parse_map_reads (parse : Par CanonicalValue) es prev acc :
  (∀ e, e ∈ es → (reads parse e.1.(it_bytes) e.1.(it_value) e.1.(it_items) ∧ 0 ≤ e.1.(it_items)) ∧
    (reads parse e.2.(it_bytes) e.2.(it_value) e.2.(it_items) ∧ 0 ≤ e.2.(it_items))) →
  StronglySorted key_lt es →
  (∀ k e, prev = Some k → e ∈ es → ord_lt k e.1.(it_bytes)) →
  reads (parse_map input parse (length es) prev acc) (concat (entry_bytes <$> es))
    (acc ++ (entry_value <$> es)) (Zsum entry_items es).
Proof.
  revert prev acc. induction es as [|e es IH]; intros prev acc Hes Hs Hprev.
  { cbn. rewrite app_nil_r. apply reads_ret. }
  destruct (Hes e ltac:(set_solver)) as [[Hk Hkn] [Hv Hvn]].
  apply StronglySorted_inv in Hs as [Hs He]. rewrite Forall_forall in He.
  assert (Hsum : 0 ≤ Zsum entry_items es).
  { apply Zsum_nonneg. intros x Hx. destruct (Hes x ltac:(set_solver)) as [[_ ?] [_ ?]].
    unfold entry_items. lia. }
  intros pre post n0 Hi Hn0 Hn. cbn [fmap list_fmap concat] in Hi |- *.
  unfold entry_bytes at 1 in Hi. rewrite <-!(assoc_L (++)) in Hi.
  change (Zsum entry_items (e :: es))
    with (e.1.(it_items) + e.2.(it_items) + Zsum entry_items es) in *.
  cbn [length parse_map]. st_step. st_step; [apply (Hk pre _ n0 Hi); lia|]. st_step.
  st_step; [apply (slice_middle _ _ _ Hi)|]. st_step.
  { apply lift_Ok. split; [|reflexivity]. destruct prev as [k|]; [|reflexivity].
    specialize (Hprev k e eq_refl ltac:(set_solver)). unfold ord_lt in Hprev.
    by rewrite Hprev. }
  st_step.
  { rewrite <-length_app. apply (Hv (pre ++ it_bytes e.1) (concat (entry_bytes <$> es) ++ post));
      [by rewrite <-(assoc_L (++))|lia|lia]. }
  rewrite <-!length_app.
  rewrite (IH (Some (it_bytes e.1)) _ ltac:(set_solver) Hs)
    with (pre := (pre ++ it_bytes e.1) ++ it_bytes e.2) (post := post);
    [|intros k f [= <-] Hf; by apply He|by rewrite <-!(assoc_L (++))|lia|lia].
  rewrite <-(assoc_L (++)). apply (f_equal2 pair); [done|].
  change (entry_bytes e) with (e.1.(it_bytes) ++ e.2.(it_bytes)). rewrite !length_app. f_equal; lia.
Qed.

Lemma reads_if {A} (m : Par A) b x n : (len b ≤ max → reads m b x n) → reads m b x n.
Proof using Hin.
  intros H pre post n0 Hi. apply (H ltac:(rewrite Hi, !len_app in Hin;
    pose proof (len_nonneg pre); pose proof (len_nonneg post); lia) pre post n0 Hi).
Qed.

Lemma parse_value_reads levels major arg tail v n :
  0 ≤ major < 8 → 0 ≤ arg ≤ u64_max → 0 ≤ n →
  (∀ initial rest, Z.shiftr initial 5 = major →
     reads (read_argument input (Z.land initial 0x1f)) rest arg 0 →
     reads (parse_body input max (parse_value input max levels) initial) (rest ++ tail) v n) →
  reads (parse_value input max (S levels)) (head major arg ++ tail) v (1 + n).
Proof using Hin Hmax.
  intros Hm Ha Hn Hbody. destruct (head_reads major arg Hm Ha) as (initial & rest & -> & Hs & Hr).
  change ((initial :: rest) ++ tail) with ([] ++ [initial] ++ (rest ++ tail)).
  cbn [parse_value].
  eapply reads_bind; [apply reads_charge| |done|done].
  change n with (0 + n).
  eapply reads_bind; [apply reads_byte| |done|done]. by apply Hbody.
Qed.

Lemma len_concat_ge {A} (f : A → bytes) (l : list A) :
  (∀ x, x ∈ l → 1 ≤ len (f x)) → len l ≤ len (concat (f <$> l)).
Proof.
  induction l as [|x l IH]; intros H; [done|]. cbn [fmap list_fmap concat]. rewrite len_app.
  specialize (H x ltac:(set_solver)) as Hx. assert (len l ≤ len (concat (f <$> l))).
  { apply IH. set_solver. }
  change (len (x :: l)) with (Z.of_nat (S (length l))). unfold len in *. lia.
Qed.

Lemma strict_of_sorted es :
  NoDup (keys_of es) → StronglySorted entry_key_le es → StronglySorted key_lt es.
Proof.
  induction es as [|e es IH]; intros Hnd Hs; [constructor|].
  apply NoDup_cons in Hnd as [He Hnd]. apply StronglySorted_inv in Hs as [Hs Hle].
  constructor; [by apply IH|]. apply Forall_forall. intros f Hf.
  rewrite Forall_forall in Hle. specialize (Hle f Hf).
  apply ord_le_cases in Hle as [?|Heq]; [done|].
  exfalso. apply He. unfold keys_of. change (it_bytes e.1) with (it_bytes e.1) in He.
  rewrite Heq. by apply (list_elem_of_fmap_2 (λ e : item * item, it_bytes e.1)).
Qed.

Section children.
Context (levels : nat)
  (IH : ∀ v it, value_ok v → spec levels v = Some it →
    reads (parse_value input max levels) it.(it_bytes) it.(it_value) it.(it_items)).

Lemma child_reads v it :
  value_ok v → spec levels v = Some it →
  (reads (parse_value input max levels) it.(it_bytes) it.(it_value) it.(it_items) ∧
   0 ≤ it.(it_items)) ∧ 1 ≤ len it.(it_bytes).
Proof using IH.
  intros Hv Hs. pose proof (spec_items_pos _ _ _ Hs).
  destruct (spec_nonempty _ _ _ Hs) as (? & ? & _ & ?).
  split; [split; [by apply (IH v)|lia]|done].
Qed.

Lemma array_reads vs it :
  Forall value_ok vs → spec (S levels) (Array vs) = Some it →
  reads (parse_value input max (S levels)) it.(it_bytes) it.(it_value) it.(it_items).
Proof using IH Hin Hmax.
  intros Hvs (Hlen & its & Hm & ->)%spec_Array. cbn [it_bytes it_value it_items].
  apply mapM_Some_Forall2 in Hm.
  assert (Hits : ∀ it, it ∈ its → (reads (parse_value input max levels) (it_bytes it)
    (it_value it) (it_items it) ∧ 0 ≤ it_items it) ∧ 1 ≤ len (it_bytes it)).
  { intros it [i Hi]%list_elem_of_lookup.
    destruct (Forall2_lookup_r _ _ _ _ _ Hm Hi) as (v & Hv & Hs).
    rewrite Forall_forall in Hvs. apply (child_reads v); [|done].
    apply Hvs. by eapply list_elem_of_lookup_2. }
  pose proof (len_concat_ge it_bytes its ltac:(intros; by apply Hits)) as Hge.
  assert (Hsum : 0 ≤ Zsum it_items its) by (apply Zsum_nonneg; intros; by apply Hits).
  assert (len vs = len its) as Heq by (unfold len; by rewrite (Forall2_length _ _ _ Hm)).
  rewrite Heq in *. apply reads_if. rewrite len_app. intros Hl.
  pose proof (len_nonneg its). pose proof (len_nonneg (head 4 (len its))).
  apply (parse_value_reads levels 4); [lia|lia|done|].
  intros initial rest Hs Hr. unfold parse_body. rewrite Hs.
  rewrite !decide_False, decide_True by lia.
  rewrite <-(Z.add_0_l (Zsum it_items its)).
  eapply reads_bind; [apply reads_container_length; [exact Hr|lia|done]| |done|done].
  unfold len. rewrite Nat2Z.id.
  rewrite <-(app_nil_r (concat _)), <-(Z.add_0_r (Zsum it_items its)).
  eapply reads_bind; [|apply reads_ret|done|done].
  apply (parse_array_reads _ its []). intros; by apply Hits.
Qed.

Lemma map_reads es it :
  Forall (λ e : CanonicalValue * CanonicalValue, value_ok e.1 ∧ value_ok e.2) es →
  spec (S levels) (Map es) = Some it →
  reads (parse_value input max (S levels)) it.(it_bytes) it.(it_value) it.(it_items).
Proof using IH Hin Hmax.
  intros Hes (Hlen & entries & Hm & Hnd & ->)%spec_Map. cbn [it_bytes it_value it_items].
  apply mapM_Some_Forall2 in Hm.
  set (sorted := merge_sort entry_key_le entries).
  assert (Hperm : sorted ≡ₚ entries) by apply merge_sort_Permutation.
  assert (Hits : ∀ e, e ∈ sorted →
    ((reads (parse_value input max levels) e.1.(it_bytes) e.1.(it_value) e.1.(it_items) ∧
      0 ≤ e.1.(it_items)) ∧
     (reads (parse_value input max levels) e.2.(it_bytes) e.2.(it_value) e.2.(it_items) ∧
      0 ≤ e.2.(it_items))) ∧ 1 ≤ len (entry_bytes e)).
  { intros e He. rewrite Hperm in He. apply list_elem_of_lookup in He as [i Hi].
    destruct (Forall2_lookup_r _ _ _ _ _ Hm Hi) as (v & Hv & [Hk Hx]%spec_entry_Some).
    rewrite Forall_forall in Hes. apply list_elem_of_lookup_2, Hes in Hv as [Hv1 Hv2].
    destruct (child_reads _ _ Hv1 Hk), (child_reads _ _ Hv2 Hx). split; [done|].
    unfold entry_bytes. rewrite len_app. lia. }
  pose proof (len_concat_ge entry_bytes sorted ltac:(intros; by apply Hits)) as Hge.
  rewrite <-Hperm. assert (Hsum : 0 ≤ Zsum entry_items sorted).
  { apply Zsum_nonneg. intros e [[[_ ?] [_ ?]] _]%Hits. unfold entry_items. lia. }
  assert (len es = len sorted) as Heq by (unfold len; by rewrite (Forall2_length _ _ _ Hm), Hperm).
  rewrite Heq in *. apply reads_if. rewrite len_app. intros Hl.
  pose proof (len_nonneg sorted). pose proof (len_nonneg (head 5 (len sorted))).
  apply (parse_value_reads levels 5); [lia|lia|done|].
  intros initial rest Hs Hr. unfold parse_body. rewrite Hs.
  rewrite !decide_False, decide_True by lia.
  rewrite <-(Z.add_0_l (Zsum entry_items sorted)).
  eapply reads_bind; [apply reads_container_length; [exact Hr|lia|done]| |done|done].
  unfold len. rewrite Nat2Z.id.
  rewrite <-(app_nil_r (concat _)), <-(Z.add_0_r (Zsum entry_items sorted)).
  eapply reads_bind; [|apply reads_ret|done|done].
  apply (parse_map_reads _ sorted None []); [intros; by apply Hits| |done].
  apply strict_of_sorted; [unfold keys_of; by rewrite Hperm|].
  apply StronglySorted_merge_sort; apply _.
Qed.
End children.

Lemma blob_reads levels major b v :
  major = 2 ∨ major = 3 →
  reads (if decide (major = 2) then mret (Bytes b)
         else (lift (reject InvalidUtf8 when (utf8_valid b = false));; mret (Text b))) [] v 0 →
  reads (parse_value input max (S levels)) (head major (len b) ++ b) v 1.
Proof using Hin Hmax.
  intros Hm Hv. apply reads_if. rewrite len_app. intros Hl.
  pose proof (len_nonneg b). pose proof (len_nonneg (head major (len b))).
  apply (parse_value_reads levels major (len b) b v 0); [lia|lia|done|].
  intros initial rest Hs Hr. unfold parse_body. rewrite Hs.
  rewrite (decide_False (P := major = 0)), (decide_False (P := major = 1)),
    (decide_True (P := major = 2 ∨ major = 3)) by lia.
  apply (reads_bind _ _ rest (len b) 0 b v 0); [apply reads_length; [done|lia]| |done..].
  rewrite <-(app_nil_r b) at 2.
  apply (reads_bind _ _ b b 0 [] v 0); [apply reads_exact|exact Hv|done..].
Qed.

Lemma simple_reads levels b v :
  (b = 0xf4 ∧ v = Bool false) ∨ (b = 0xf5 ∧ v = Bool true) ∨ (b = 0xf6 ∧ v = Null) →
  reads (parse_value input max (S levels)) [b] v 1.
Proof.
  intros Hb. change [b] with ([] ++ [b] ++ []). cbn [parse_value].
  apply (reads_bind _ _ [] tt 1 _ v 0); [apply reads_charge| |done..].
  apply (reads_bind _ _ [b] b 0 [] v 0); [apply reads_byte| |done..].
  destruct Hb as [[-> ->]|[[-> ->]|[-> ->]]]; apply reads_ret.
Qed.

(** The parser reads every encoding the format defines. *)
Lemma spec_reads levels v it :
  value_ok v → spec levels v = Some it →
  reads (parse_value input max levels) it.(it_bytes) it.(it_value) it.(it_items).
Proof using Hin Hmax.
  revert v it. induction levels as [|levels IH]; [done|]. intros v it Hv.
  destruct Hv as [n Hn|z Hz|b Hb|b Hb Hutf|vs Hvs|es Hes|[]|].
  - intros [= <-]. cbn [it_bytes it_value it_items]. rewrite <-(app_nil_r (head 0 n)).
    apply (parse_value_reads levels 0 n [] _ 0); [lia|done|done|].
    intros initial rest Hs Hr. unfold parse_body. rewrite Hs, decide_True by done.
    apply (reads_bind _ _ rest n 0 [] _ 0); [done|apply reads_ret|done..].
  - cbn. rewrite guard_Some. intros [Hneg [= <-]]. cbn [it_bytes it_value it_items].
    rewrite <-(app_nil_r (head 1 _)). unfold i64_min, i64_max in Hz.
    apply (parse_value_reads levels 1 (-1 - z) [] _ 0); [lia|unfold u64_max; lia|done|].
    intros initial rest Hs Hr. unfold parse_body. rewrite Hs, decide_False, decide_True by lia.
    apply (reads_bind _ _ rest (-1 - z) 0 [] _ 0); [done| |done..].
    eapply reads_lift; [apply reject_if_Ok with (u := tt); unfold i64_max; lia|].
    eapply reads_lift; [apply ok_or_Ok, checked_Some; split; [reflexivity|]|].
    { unfold i64_min, i64_max. lia. }
    replace (-1 - (-1 - z)) with z by lia. apply reads_ret.
  - intros [= <-]. apply blob_reads; [lia|apply reads_ret].
  - intros [= <-]. apply blob_reads; [lia|].
    rewrite decide_False by lia.
    eapply reads_lift; [apply reject_if_Ok with (u := tt); by rewrite Hutf|apply reads_ret].
  - by apply array_reads.
  - by apply map_reads.
  - intros [= <-]. apply simple_reads. auto.
  - intros [= <-]. apply simple_reads. auto.
  - intros [= <-]. apply simple_reads. auto.
Qed.
End reads.

(** ** What was read is an encoding *)

Section sound.
Context (input : bytes) (max : Z) (Hbytes : Forall is_byte input).

Definition parsed (st st' : Parser) (b : bytes) (n : Z) : Prop :=
  drop st.(position) input = b ++ drop st'.(position) input ∧
  st'.(position) = (st.(position) + length b)%nat ∧
  st'.(par_items) = st.(par_items) + n.

Lemma parsed_nil st : parsed st st [] 0.
Proof. split_and!; [done|cbn; lia|lia]. Qed.

Lemma parsed_app st1 st2 st3 b1 b2 n1 n2 :
  parsed st1 st2 b1 n1 → parsed st2 st3 b2 n2 → parsed st1 st3 (b1 ++ b2) (n1 + n2).
Proof.
  intros (Hd1 & Hp1 & Hn1) (Hd2 & Hp2 & Hn2). split_and!.
  - by rewrite Hd1, Hd2, (assoc_L (++)).
  - rewrite length_app. lia.
  - lia.
Qed.

Lemma parsed_slice st st' b n :
  parsed st st' b n → (st'.(position) ≤ length input)%nat →
  slice input st.(position) st'.(position) = Some b.
Proof.
  intros (Hd & Hp & _) Hle. unfold slice. rewrite decide_True by lia.
  rewrite Hd, Hp. replace (_ - _)%nat with (length b) by lia. by rewrite take_app_length.
Qed.

Lemma read_byte_sound st x st' :
  read_byte input st = (Ok x, st') → parsed st st' [x] 0 ∧ is_byte x.
Proof using Hbytes.
  unfold read_byte. intros H. st_inv H. rename Hrun into Hx. split.
  - split_and!; cbn; [by apply drop_S|lia|lia].
  - rewrite Forall_lookup in Hbytes. by eapply Hbytes.
Qed.

Lemma slice_Some from to b :
  slice input from to = Some b →
  drop from input = b ++ drop to input ∧ to = (from + length b)%nat.
Proof.
  unfold slice. case_decide; [|done]. intros [= <-].
  rewrite length_take, length_drop. split; [|lia].
  rewrite <-(take_drop (to - from) (drop from input)) at 1. f_equal.
  rewrite drop_drop. f_equal. lia.
Qed.

Lemma read_exact_sound n st b st' :
  0 ≤ n → read_exact input n st = (Ok b, st') →
  parsed st st' b 0 ∧ len b = n ∧ Forall is_byte b.
Proof using Hbytes.
  unfold read_exact. intros Hn H. st_inv H.
  match goal with H : u64_checked_add _ _ = _ |- _ => apply checked_Some in H as [-> ?] end.
  match goal with H : slice _ _ _ = _ |- _ => apply slice_Some in H as [Hd Hto] end.
  split; [split_and!; cbn; [done|done|lia]|]. split; [unfold len; lia|].
  apply (Forall_drop _ st.(position)) in Hbytes as Hb'. rewrite Hd in Hb'.
  by apply Forall_app in Hb' as [? _].
Qed.

Lemma be_argument_sound k lo st arg st' :
  (b ← read_exact input (Z.of_nat k);
   lift (if decide (from_be_bytes b ≤ lo) then Err NonPreferredArgument
         else Ok (from_be_bytes b))) st = (Ok arg, st') →
  ∃ b, parsed st st' b 0 ∧ b = to_be_bytes k arg ∧ lo < arg ∧ 0 ≤ arg < 256 ^ Z.of_nat k.
Proof using Hbytes.
  intros (b & st1 & Hb & Hr)%st_bind_Ok. apply read_exact_sound in Hb as (Hp & Hl & Hf); [|lia].
  apply lift_Ok in Hr as [Hr ->]. case_decide; [done|]. injection Hr as <-.
  assert (length b = k) as <- by (unfold len in Hl; lia).
  exists b. split; [done|]. split; [symmetry; by apply to_from_be_bytes|].
  split; [lia|]. by apply be_value_bound.
Qed.

Lemma read_argument_sound add st arg st' :
  0 ≤ add < 32 → read_argument input add st = (Ok arg, st') →
  ∃ rest, parsed st st' rest 0 ∧ 0 ≤ arg ≤ u64_max ∧
    ∀ major, head major arg = Z.lor (Z.shiftl major 5) add :: rest.
Proof using Hbytes.
  intros Hadd. unfold read_argument, u64_max, u32_max, u16_max.
  repeat case_decide; subst; try done; intros Hr.
  - st_inv Hr. exists []. split; [apply parsed_nil|]. split; [lia|].
    intros major. unfold head, u32_max, u16_max. by rewrite decide_True by lia.
  - apply st_bind_Ok in Hr as (x & st1 & [Hp Hx]%read_byte_sound & [Hv ->]%lift_Ok).
    unfold is_byte in Hx. case_decide; [done|]. injection Hv as <-.
    exists [x]. split; [done|]. split; [lia|]. intros major. unfold head, u32_max, u16_max.
    by rewrite decide_False, decide_True by lia.
  - apply (be_argument_sound 2) in Hr as (b & Hp & -> & Hlo & Hhi). cbn in Hhi.
    eexists. split; [done|]. split; [lia|]. intros major. unfold head, u32_max, u16_max.
    by rewrite !decide_False, decide_True by lia.
  - apply (be_argument_sound 4) in Hr as (b & Hp & -> & Hlo & Hhi). cbn in Hhi.
    eexists. split; [done|]. split; [lia|]. intros major. unfold head, u32_max, u16_max.
    by rewrite !decide_False, decide_True by lia.
  - apply (be_argument_sound 8) in Hr as (b & Hp & -> & Hlo & Hhi). cbn in Hhi.
    eexists. split; [done|]. split; [lia|]. intros major. unfold head, u32_max, u16_max.
    by rewrite !decide_False by lia.
Qed.

Lemma read_length_sound add st arg st' :
  0 ≤ add < 32 → read_length input max add st = (Ok arg, st') →
  ∃ rest, parsed st st' rest 0 ∧ 0 ≤ arg ≤ u64_max ∧
    ∀ major, head major arg = Z.lor (Z.shiftl major 5) add :: rest.
Proof using Hbytes.
  intros Hadd H. unfold read_length in H. apply st_bind_Ok in H as (a & st1 & Ha & H).
  apply read_argument_sound in Ha; [|done]. st_inv H.
  match goal with H : checked _ _ _ = _ |- _ => apply checked_Some in H as [-> _] end. done.
Qed.

Lemma read_container_length_sound add st arg st' :
  0 ≤ add < 32 → read_container_length input max add st = (Ok arg, st') →
  arg ≤ MAX_CONTAINER_ENTRIES ∧
  ∃ rest, parsed st st' rest 0 ∧ 0 ≤ arg ≤ u64_max ∧
    ∀ major, head major arg = Z.lor (Z.shiftl major 5) add :: rest.
Proof using Hbytes.
  intros Hadd H. unfold read_container_length in H. apply st_bind_Ok in H as (a & st1 & Ha & H).
  apply read_length_sound in Ha; [|done]. st_inv H. split; [lia|done].
Qed.

Lemma charge_item_sound st u st' :
  0 ≤ st.(par_items) → charge_item st = (Ok u, st') →
  parsed st st' [] 1 ∧ 0 ≤ st'.(par_items) ≤ MAX_TOTAL_ITEMS.
Proof.
  unfold charge_item. intros Hi H. st_inv H.
  match goal with H : u64_checked_add _ _ = _ |- _ => apply checked_Some in H as [-> ?] end.
  split; [split_and!; cbn; [done|lia|lia]|]. cbn. lia.
Qed.

(** A successful parse: the bytes consumed are the encoding of the result. *)
Definition sound_run (levels : nat) (st : Parser) (v : CanonicalValue) (st' : Parser)
    (it : item) : Prop :=
  spec levels v = Some it ∧ it.(it_value) = v ∧ value_ok v ∧
  parsed st st' it.(it_bytes) it.(it_items) ∧ 0 ≤ st'.(par_items) ≤ MAX_TOTAL_ITEMS ∧
  (st'.(position) ≤ length input)%nat.

Definition sound_parser (levels : nat) (parse : Par CanonicalValue) : Prop :=
  ∀ st v st', 0 ≤ st.(par_items) → parse st = (Ok v, st') →
    ∃ it, sound_run levels st v st' it.

Definition settled (st : Parser) : Prop := 0 ≤ st.(par_items) ≤ MAX_TOTAL_ITEMS.

Definition item_ok (levels : nat) (it : item) : Prop :=
  spec levels it.(it_value) = Some it ∧ value_ok it.(it_value).

Section children.
Context (levels : nat) (parse : Par CanonicalValue) (Hparse : sound_parser levels parse).

Lemma parse_array_sound n acc st vs st' :
  settled st → parse_array parse n acc st = (Ok vs, st') →
  ∃ its, length its = n ∧ vs = acc ++ (it_value <$> its) ∧ Forall (item_ok levels) its ∧
    parsed st st' (concat (it_bytes <$> its)) (Zsum it_items its) ∧ settled st'.
Proof using Hparse Hbytes.
  revert acc st. induction n as [|n IH]; intros acc st Hst; cbn.
  { intros H. st_inv H. exists []. cbn. rewrite app_nil_r.
    split_and!; [done|done|constructor|apply parsed_nil|done]. }
  intros (v & st1 & Hv & Hr)%st_bind_Ok.
  apply Hparse in Hv as (it & Hs & Hval & Hok & Hp & Hst1 & _); [|apply Hst].
  apply IH in Hr as (its & Hl & -> & Hall & Hp2 & Hst2); [|done].
  exists (it :: its). cbn. rewrite <-(assoc_L (++)), Hval, Hl. cbn.
  split_and!; [done|done| | |done].
  - constructor; [|done]. unfold item_ok. by rewrite Hval.
  - by eapply parsed_app.
Qed.

Lemma parse_map_sound n prev acc st entries st' :
  settled st → parse_map input parse n prev acc st = (Ok entries, st') →
  ∃ es, length es = n ∧ entries = acc ++ (entry_value <$> es) ∧
    Forall (λ e, item_ok levels e.1 ∧ item_ok levels e.2) es ∧
    StronglySorted key_lt es ∧
    (∀ k e, prev = Some k → e ∈ es → ord_lt k e.1.(it_bytes)) ∧
    parsed st st' (concat (entry_bytes <$> es)) (Zsum entry_items es) ∧ settled st'.
Proof using Hparse Hbytes.
  revert prev acc st. induction n as [|n IH]; intros prev acc st Hst.
  { intros H. cbn in H. st_inv H. exists []. cbn. rewrite app_nil_r.
    split_and!; [done|done|constructor|constructor|set_solver|apply parsed_nil|done]. }
  cbn [parse_map]. intros H.
  apply st_bind_Ok in H as (? & ? & [-> ->]%get_Ok & H).
  apply st_bind_Ok in H as (kv & st1 & Hk & H).
  apply Hparse in Hk as (k & Hks & Hkv & Hkok & Hkp & Hst1 & Hpos1); [|apply Hst].
  apply st_bind_Ok in H as (? & ? & [-> ->]%get_Ok & H).
  apply st_bind_Ok in H as (kb & ? & [Hkb%ok_or_Ok ->]%lift_Ok & H).
  rewrite (parsed_slice _ _ _ _ Hkp Hpos1) in Hkb. injection Hkb as <-.
  apply st_bind_Ok in H as (u & ? & [Hcmp ->]%lift_Ok & H).
  apply st_bind_Ok in H as (xv & st2 & Hx & H).
  apply Hparse in Hx as (x & Hxs & Hxv & Hxok & Hxp & Hst2 & _); [|apply Hst1].
  apply IH in H as (es & Hl & -> & Hall & Hsort & Hprev & Hp & Hst3); [|done].
  exists ((k, x) :: es). split_and!; [cbn; by rewrite Hl| | | | | |done].
  - cbn. rewrite <-(assoc_L (++)). unfold entry_value at 2. cbn. by rewrite Hkv, Hxv.
  - constructor; [|done]. unfold item_ok. cbn. by rewrite Hkv, Hxv.
  - constructor; [done|]. apply Forall_forall. intros f Hf. by apply (Hprev _ f eq_refl).
  - intros q e -> He. assert (Hqk : ord_lt q (it_bytes k)).
    { unfold ord_lt. by destruct (compare q (it_bytes k)) eqn:Hc. }
    apply elem_of_cons in He as [->|He]; [done|]. transitivity (it_bytes k); [done|]. by apply Hprev.
  - pose proof (parsed_app _ _ _ _ _ _ _ (parsed_app _ _ _ _ _ _ _ Hkp Hxp) Hp) as Hpp.
    exact Hpp.
Qed.
End children.

Lemma key_lt_le es : StronglySorted key_lt es → StronglySorted entry_key_le es.
Proof.
  induction 1 as [|e es _ IH He]; constructor; [done|].
  eapply Forall_impl; [exact He|]. intros f Hf. apply ord_le_cases. by left.
Qed.

Lemma key_lt_NoDup es : StronglySorted key_lt es → NoDup (keys_of es).
Proof.
  induction 1 as [|e es _ IH He]; [constructor|]. apply NoDup_cons. split; [|done].
  unfold keys_of. intros (f & Hf & Hin)%list_elem_of_fmap. rewrite Forall_forall in He.
  specialize (He f Hin). unfold key_lt in He. rewrite Hf in He.
  by apply (irreflexivity ord_lt) in He.
Qed.

Lemma items_spec levels its :
  Forall (item_ok levels) its →
  mapM (spec levels) (it_value <$> its) = Some its ∧ Forall value_ok (it_value <$> its).
Proof.
  intros H. split.
  - apply mapM_Some_Forall2. induction H as [|it its [Hs _] _ IH]; constructor; auto.
  - apply Forall_fmap. eapply Forall_impl; [exact H|]. by intros it [_ ?].
Qed.

Lemma entries_spec levels es :
  Forall (λ e, item_ok levels e.1 ∧ item_ok levels e.2) es →
  mapM (spec_entry levels) (entry_value <$> es) = Some es ∧
  Forall (λ e : CanonicalValue * CanonicalValue, value_ok e.1 ∧ value_ok e.2)
    (entry_value <$> es).
Proof.
  intros H. split.
  - apply mapM_Some_Forall2.
    induction H as [|e es [[Hk _] [Hx _]] _ IH]; constructor; [|done].
    by apply spec_entry_Some.
  - apply Forall_fmap. eapply Forall_impl; [exact H|]. by intros e [[_ ?] [_ ?]].
Qed.

(** The body after the initial byte, whose head it completes. *)
Lemma parse_body_sound levels parse initial st v st' :
  sound_parser levels parse → is_byte initial → settled st →
  parse_body input max parse initial st = (Ok v, st') →
  ∃ rest n, spec (S levels) v = Some (Item (initial :: rest) (1 + n) v) ∧ value_ok v ∧
    parsed st st' rest n ∧ settled st'.
Proof using Hbytes.
  intros Hparse Hb Hst. unfold parse_body.
  destruct (initial_split initial Hb) as (Hmaj & Hadd & Hinit).
  generalize dependent (Z.land initial 31). generalize dependent (Z.shiftr initial 5).
  intros major Hmaj add Hadd Hinit.
  assert (Hsame : ∀ st2 b, parsed st st2 b 0 → settled st2).
  { intros st2 b (_ & _ & Hn). unfold settled in *. lia. }
  case_decide as H0; [|case_decide as H1; [|case_decide as H2; [|case_decide as H4;
    [|case_decide as H5; [|case_decide as H6; [done|]]]]]].
  - intros (arg & st1 & Ha & Hr)%st_bind_Ok. st_inv Hr.
    apply read_argument_sound in Ha as (rest & Hp & Hu & Hh); [|done].
    exists rest, 0. cbn. rewrite H0 in Hinit. rewrite Hh, Hinit. split; [done|split; [by constructor|split; [done|by eapply Hsame]]].
  - intros (arg & st1 & Ha & Hr)%st_bind_Ok. st_inv Hr.
    match goal with H : checked _ _ _ = _ |- _ => apply checked_Some in H as [-> Hz] end.
    apply read_argument_sound in Ha as (rest & Hp & Hu & Hh); [|done].
    exists rest, 0. rewrite spec_Negative. replace (-1 - (-1 - arg)) with arg by lia.
    rewrite H1 in Hinit. rewrite Hh, Hinit. split; [split; [lia|done]|split; [by constructor|split; [done|by eapply Hsame]]].
  - intros (n & st1 & Ha & Hr)%st_bind_Ok.
    apply read_length_sound in Ha as (rest & Hp & Hu & Hh); [|done].
    apply st_bind_Ok in Hr as (b & st2 & Hx & Hr).
    apply read_exact_sound in Hx as (Hp2 & Hl & Hf); [|lia].
    pose proof (parsed_app _ _ _ _ _ _ _ Hp Hp2) as Hpp.
    exists (rest ++ b), 0. case_decide as Hm2; st_inv Hr; cbn; rewrite Hl, Hh.
    + rewrite Hm2 in Hinit. rewrite Hinit. split; [done|split; [by constructor|split; [done|by eapply Hsame]]].
    + assert (major = 3) as Hm3 by lia. rewrite Hm3 in Hinit. rewrite Hinit.
      split; [done|split; [|split; [done|by eapply Hsame]]].
      constructor; [done|]. by destruct (utf8_valid b).
  - intros (n & st1 & Ha & Hr)%st_bind_Ok.
    apply read_container_length_sound in Ha as (Hle & rest & Hp & Hu & Hh); [|done].
    apply st_bind_Ok in Hr as (vs & st2 & Hx & Hr). st_inv Hr.
    eapply parse_array_sound in Hx as (its & Hl & -> & Hall & Hp2 & Hst2); [|done|by eauto].
    destruct (items_spec _ _ Hall) as [Hm Hok]. cbn [app] in *.
    exists (rest ++ concat (it_bytes <$> its)), (Zsum it_items its).
    assert (len (it_value <$> its) = n) as Hn by (unfold len; rewrite length_fmap; lia).
    split; [|split; [by apply ok_array|split; [by apply (parsed_app _ _ _ _ _ _ _ Hp Hp2)|done]]].
    apply spec_Array. rewrite Hn. split; [done|]. exists its. split; [done|].
    rewrite H4 in Hinit. by rewrite Hh, Hinit.
  - intros (n & st1 & Ha & Hr)%st_bind_Ok.
    apply read_container_length_sound in Ha as (Hle & rest & Hp & Hu & Hh); [|done].
    apply st_bind_Ok in Hr as (vs & st2 & Hx & Hr). st_inv Hr.
    eapply parse_map_sound in Hx as (es & Hl & -> & Hall & Hsort & _ & Hp2 & Hst2); [|done|by eauto].
    destruct (entries_spec _ _ Hall) as [Hm Hok]. cbn [app] in *.
    exists (rest ++ concat (entry_bytes <$> es)), (Zsum entry_items es).
    assert (len (entry_value <$> es) = n) as Hn by (unfold len; rewrite length_fmap; lia).
    split; [|split; [by apply ok_map|split; [by apply (parsed_app _ _ _ _ _ _ _ Hp Hp2)|done]]].
    apply spec_Map. rewrite Hn. split; [done|]. exists es.
    pose proof (key_lt_NoDup _ Hsort). split; [done|]. split; [done|].
    rewrite merge_sort_entries_id by auto using key_lt_le.
    rewrite H5 in Hinit. rewrite Hh, Hinit. done.
  - assert (major = 7) as H7 by lia. rewrite H7, initial_value in Hinit by done.
    repeat case_decide; try done; intros Hr; st_inv Hr; exists [], 0; subst add;
      rewrite <-Hinit; (split; [reflexivity|split; [constructor|split; [apply parsed_nil|done]]]).
Qed.

Lemma parse_value_sound levels : sound_parser levels (parse_value input max levels).
Proof using Hbytes.
  induction levels as [|levels IH]; intros st v st' Hi; [done|]. cbn [parse_value].
  intros (u & st1 & [Hp1 Hst1]%charge_item_sound & H)%st_bind_Ok; [|done].
  apply st_bind_Ok in H as (b & st2 & [Hp2 Hb]%read_byte_sound & H).
  assert (settled st2) by (destruct Hp2 as (_ & _ & Hn); unfold settled; lia).
  eapply parse_body_sound in H as (rest & n & Hs & Hok & Hp3 & Hst3); [|done..].
  pose proof (parsed_app _ _ _ _ _ _ _ Hp1 (parsed_app _ _ _ _ _ _ _ Hp2 Hp3)) as Hp.
  eexists. split; [exact Hs|]. split; [done|]. split; [done|].
  split; [exact Hp|]. split; [exact Hst3|].
  destruct Hp2 as (Hd & Hpos2 & _), Hp3 as (Hd3 & Hpos3 & _).
  apply (f_equal length) in Hd, Hd3. rewrite length_app, !length_drop in Hd, Hd3.
  cbn in Hd, Hpos2. lia.
Qed.
End sound.

(** ** The codec *)

#[local] Opaque spec.

Lemma decode_of_spec v it max :
  value_ok v → max ≤ u64_max → spec (S MAX_DEPTH) v = Some it →
  len it.(it_bytes) ≤ max → it.(it_items) ≤ MAX_TOTAL_ITEMS →
  decode_deterministic_cbor_with_limit it.(it_bytes) max = Ok it.(it_value).
Proof.
  unfold decode_deterministic_cbor_with_limit. generalize (S MAX_DEPTH).
  intros levels Hv Hmax Hs Hl Hn.
  pose proof (spec_reads it.(it_bytes) max Hl Hmax _ _ _ Hv Hs [] [] 0) as Hrun.
  rewrite app_nil_r in Hrun. specialize (Hrun eq_refl ltac:(lia) ltac:(lia)).
  change (length []) with 0%nat in Hrun.
  destruct (spec_nonempty _ _ _ Hs) as (_ & _ & _ & Hne).
  ok_step; [lia|]. rewrite Hrun.
  ok_step; [reflexivity|]. ok_step; [cbn; lia|]. done.
Qed.

Lemma decode_with_limit_Ok b max v :
  Forall is_byte b → decode_deterministic_cbor_with_limit b max = Ok v →
  ∃ it, spec (S MAX_DEPTH) v = Some it ∧ it.(it_value) = v ∧ it.(it_bytes) = b ∧
    value_ok v ∧ len b ≤ max ∧ it.(it_items) ≤ MAX_TOTAL_ITEMS.
Proof.
  unfold decode_deterministic_cbor_with_limit. generalize (S MAX_DEPTH). intros levels Hb.
  pose proof (parse_value_sound b max Hb levels (MkParser 0 0)) as Hsound.
  destruct (parse_value b max levels (MkParser 0 0)) as [r st'].
  intros ([] & Hlim%reject_if_Ok & H)%result_bind_Ok.
  apply result_bind_Ok in H as (w & -> & H).
  apply result_bind_Ok in H as ([] & Hpos%reject_if_Ok & [= <-]).
  destruct (Hsound w st') as (it & Hs & Hval & Hok & (Hd & Hp & Hn) & Hst & _); [done|done|].
  exists it. split; [done|]. split; [done|]. split; [|split; [done|split; [lia|cbn in *; lia]]].
  cbn [position] in Hd, Hp, Hpos. rewrite drop_0 in Hd.
  apply dec_stable in Hpos. rewrite Hpos, drop_all, app_nil_r in Hd. done.
Qed.

(** C33. What is encoded can be decoded: whenever the encoder produces bytes for
    a value under some size limit, the decoder accepts them under the same
    limit and returns that value, with the entries of its maps in key order. *)
Theorem decode_encode_roundtrip v max b :
  value_ok v → 0 ≤ max ≤ u64_max →
  encode_deterministic_cbor_with_limit v max = Ok b →
  ∃ w, decode_deterministic_cbor_with_limit b max = Ok w ∧ same_value v w.
Proof.
  intros Hv Hmax (it & Hs & <- & Hl & Hn)%encode_with_limit_iff; [|done|done].
  exists it.(it_value). split; [by apply (decode_of_spec v); [|lia|..]|].
  by eapply spec_value_same.
Qed.

(** The accepted encodings are canonical: whatever the decoder accepts, the
    encoder reproduces byte for byte from the decoded value.  So no two byte
    strings decode to the same value, and hashing or signing the bytes is
    hashing or signing the value. *)
Theorem decoded_bytes_canonical b max v :
  Forall is_byte b → 0 ≤ max ≤ u64_max →
  decode_deterministic_cbor_with_limit b max = Ok v →
  value_ok v ∧ encode_deterministic_cbor_with_limit v max = Ok b.
Proof.
  intros Hb Hmax (it & Hs & Hval & <- & Hok & Hl & Hn)%decode_with_limit_Ok; [|done].
  split; [done|]. apply encode_with_limit_iff; [done|done|]. by exists it.
Qed.

(** An encoding identifies a value up to the order of map entries: values
    that differ only in that order have the same encoding, and values with the
    same encoding are spellings of one value. *)
Theorem encoding_identifies_value v w max b :
  value_ok v → value_ok w → 0 ≤ max ≤ u64_max →
  encode_deterministic_cbor_with_limit v max = Ok b →
  (same_value v w → encode_deterministic_cbor_with_limit w max = Ok b) ∧
  (encode_deterministic_cbor_with_limit w max = Ok b → ∃ u, same_value v u ∧ same_value w u).
Proof.
  intros Hv Hw Hmax Hev. pose proof Hev as (it & Hs & Hb & Hl & Hn)%encode_with_limit_iff;
    [|done|done]. split.
  - intros Hsame. apply encode_with_limit_iff; [done|done|].
    rewrite <-(spec_same _ _ _ Hsame). by exists it.
  - intros (it' & Hs' & Hb' & _ & Hn')%encode_with_limit_iff; [|done|done].
    subst b. exists it.(it_value). split; [by eapply spec_value_same|].
    pose proof (decode_of_spec v it max Hv ltac:(lia) Hs Hl Hn) as Hd.
    rewrite <-Hb' in Hd, Hl.
    rewrite (decode_of_spec w it' max Hw ltac:(lia) Hs' Hl Hn') in Hd.
    injection Hd as <-. by eapply spec_value_same.
Qed.

(** The encoder's limits are exact: it succeeds precisely on the values the
    format covers (nesting, container sizes, distinct keys) whose encoding fits
    the byte limit and whose item count fits the item budget; the checks it
    makes on the way reject nothing else and let nothing else through. *)
Theorem encoder_limits_exact v max b :
  value_ok v → 0 ≤ max ≤ u64_max →
  encode_deterministic_cbor_with_limit v max = Ok b ↔
  ∃ it, spec (S MAX_DEPTH) v = Some it ∧ it.(it_bytes) = b ∧
    len b ≤ max ∧ it.(it_items) ≤ MAX_TOTAL_ITEMS.
Proof. apply encode_with_limit_iff. Qed.

#[local] Transparent spec.

Module CborDemo.
Definition sample : CanonicalValue :=
  Map [(Unsigned 2, Array [Negative (-5); Null]); (Unsigned 1, Text (str "hi"))].
Definition sample_sorted : CanonicalValue :=
  Map [(Unsigned 1, Text (str "hi")); (Unsigned 2, Array [Negative (-5); Null])].
Definition sample_bytes : bytes :=
  [0xa2; 0x01; 0x62; 0x68; 0x69; 0x02; 0x82; 0x24; 0xf6].

Lemma sample_ok : value_ok sample.
Proof. repeat constructor; cbn; unfold u64_max, i64_min, i64_max; lia. Qed.
Lemma sample_sorted_ok : value_ok sample_sorted.
Proof. repeat constructor; cbn; unfold u64_max, i64_min, i64_max; lia. Qed.
Lemma sample_bytes_ok : Forall is_byte sample_bytes.
Proof. repeat constructor; lia. Qed.
Lemma limit_ok : 0 ≤ MAX_ENCODED_BYTES ≤ u64_max.
Proof. done. Qed.

Lemma decode_encode_roundtrip_witness :
  ∃ w, decode_deterministic_cbor_with_limit sample_bytes MAX_ENCODED_BYTES = Ok w ∧
    same_value sample w.
Proof.
  apply (decode_encode_roundtrip sample).
  - exact sample_ok.
  - exact limit_ok.
  - vm_compute. reflexivity.
Defined.

Lemma decoded_bytes_canonical_witness :
  encode_deterministic_cbor_with_limit sample_sorted MAX_ENCODED_BYTES = Ok sample_bytes.
Proof.
  apply (decoded_bytes_canonical sample_bytes MAX_ENCODED_BYTES).
  - exact sample_bytes_ok.
  - exact limit_ok.
  - vm_compute. reflexivity.
Defined.

Lemma encoding_identifies_value_witness :
  encode_deterministic_cbor_with_limit sample_sorted MAX_ENCODED_BYTES = Ok sample_bytes.
Proof.
  apply (encoding_identifies_value sample sample_sorted).
  - exact sample_ok.
  - exact sample_sorted_ok.
  - exact limit_ok.
  - vm_compute. reflexivity.
  - eapply same_map; [apply perm_swap|]. repeat constructor.
Defined.

Lemma encoder_limits_exact_witness :
  ∃ it, spec (S MAX_DEPTH) sample = Some it ∧ it.(it_bytes) = sample_bytes ∧
    len sample_bytes ≤ MAX_ENCODED_BYTES ∧ it.(it_items) ≤ MAX_TOTAL_ITEMS.
Proof.
  apply (encoder_limits_exact sample).
  - exact sample_ok.
  - exact limit_ok.
  - vm_compute. reflexivity.
Defined.
End CborDemo.
