(* ===== verification/CborFields.v ===== *)
(** * Canonical maps with numbered fields

    The records that the protocol hashes, signs and sends are CBOR maps with the
    keys 1, 2, 3, ...  This file bounds the encoding of such maps and of their
    leaves, and states the text form of identifiers that the [uuid] crate
    documents. *)

From S2P Require Import Prelude Domain CanonicalCbor CborSpec CborEncode CborDecode.

(** ** Small maps with increasing integer keys *)

(** A value that encodes in [size] bytes and [items] items and that the encoder
    does not reorder. *)
Definition small (levels : nat) (size items : Z) (v : CanonicalValue) : Prop :=
  ∃ it, spec levels v = Some it ∧ it.(it_value) = v ∧
    len it.(it_bytes) ≤ size ∧ it.(it_items) ≤ items.

Definition int_key (e : Z * CanonicalValue) : CanonicalValue * CanonicalValue :=
  (Unsigned e.1, e.2).

Lemma head_small n : 0 ≤ n < 24 → head 0 n = [n].
Proof. intros Hn. unfold head. rewrite decide_True by lia. by rewrite Z.shiftl_0_l. Qed.

Lemma length_head_small major n : n < 24 → len (head major n) = 1.
Proof. intros Hn. unfold head. by rewrite decide_True by lia. Qed.

Lemma ord_lt_singleton x y : x < y → ord_lt [x] [y].
Proof. intros Hxy. unfold ord_lt. simpl. by rewrite (proj2 (Z.compare_lt_iff x y)). Qed.

(** The entries of such a map, encoded. *)
Definition int_item (k : Z) : item := Item [k] 1 (Unsigned k).

Lemma int_entries levels size items fs :
  Forall (λ e, 0 ≤ e.1 < 24 ∧ small (S levels) size items e.2) fs →
  ∃ entries, mapM (spec_entry (S levels)) (int_key <$> fs) = Some entries ∧
    entry_value <$> entries = int_key <$> fs ∧
    entries.*1 = int_item <$> fs.*1 ∧
    Forall (λ e, len e.2.(it_bytes) ≤ size ∧ e.2.(it_items) ≤ items) entries.
Proof.
  induction 1 as [|[k v] fs [Hk (it & Hs & Hv & Hl & Hi)] _ (es & Hm & He & Hk' & Hall)].
  { by exists []. }
  cbn [fst snd] in *. exists ((int_item k, it) :: es). split_and!.
  - change (int_key <$> (k, v) :: fs) with ((Unsigned k, v) :: (int_key <$> fs)).
    cbn [mapM]. rewrite Hm. unfold spec_entry at 1. cbn [fst snd]. rewrite Hs. simpl.
    by rewrite head_small.
  - cbn. rewrite He. unfold entry_value, int_key at 1; simpl. by rewrite Hv.
  - cbn. by rewrite Hk'.
  - by constructor.
Qed.

Lemma int_entries_sorted (entries : list (item * item)) ks :
  entries.*1 = int_item <$> ks → StronglySorted Z.lt ks → StronglySorted key_lt entries.
Proof.
  intros Heq Hs. revert entries Heq. induction Hs as [|k ks Hks IH Hlt]; intros [|e es] Heq;
    simplify_eq/=; constructor.
  - by apply IH.
  - apply Forall_forall. intros f Hf. unfold key_lt.
    assert (f.1 ∈ es.*1) as Hin by (by apply list_elem_of_fmap_2).
    match goal with H : es.*1 = _ |- _ => rewrite H in Hin end.
    apply list_elem_of_fmap in Hin as (k' & -> & Hk').
    match goal with H : e.1 = _ |- _ => rewrite H end. simpl. apply ord_lt_singleton.
    rewrite Forall_forall in Hlt. by apply Hlt.
Qed.

Lemma int_entries_total (size items : Z) (entries : list (item * item)) ks :
  0 ≤ size → 0 ≤ items → entries.*1 = int_item <$> ks →
  Forall (λ e, len e.2.(it_bytes) ≤ size ∧ e.2.(it_items) ≤ items) entries →
  len (concat (entry_bytes <$> entries)) ≤ len entries * (1 + size) ∧
  Zsum entry_items entries ≤ len entries * (1 + items).
Proof.
  intros Hsz Hit Heq Hall. revert ks Heq.
  induction Hall as [|[i v] es [Hl Hi] _ IH]; intros [|k ks] Heq; simplify_eq/=; [done|].
  destruct (IH ks) as [H1 H2]; [done|]. unfold len in *. simpl length in *.
  rewrite length_app. unfold entry_items at 1. simpl it_items.
  rewrite !Nat2Z.inj_succ, Nat2Z.inj_add, !Z.mul_succ_l. lia.
Qed.

Lemma small_int_map levels size items n fs :
  0 ≤ size → 0 ≤ items → len fs ≤ n → n < 24 →
  StronglySorted Z.lt fs.*1 →
  Forall (λ e, 0 ≤ e.1 < 24 ∧ small (S levels) size items e.2) fs →
  small (S (S levels)) (1 + n * (1 + size)) (1 + n * (1 + items)) (Map (int_key <$> fs)).
Proof.
  intros Hsz Hit Hn Hn' Hsort Hall.
  destruct (int_entries _ _ _ _ Hall) as (entries & Hm & Hv & Hk & Hb).
  pose proof (int_entries_sorted _ _ Hk Hsort) as Hlt.
  pose proof (key_lt_NoDup _ Hlt) as Hnd. pose proof (key_lt_le _ Hlt) as Hle.
  pose proof (int_entries_total size items entries _ Hsz Hit Hk Hb) as [Ht1 Ht2].
  assert (len entries = len fs) as Hlen.
  { unfold len. rewrite <-(length_fmap fst entries), Hk. by rewrite !length_fmap. }
  assert (len (int_key <$> fs) = len fs) as Hlen' by (unfold len; by rewrite length_fmap).
  eexists. split.
  - apply spec_Map. rewrite Hlen'. split; [unfold MAX_CONTAINER_ENTRIES; lia|].
    exists entries. by rewrite (merge_sort_entries_id entries).
  - simpl. rewrite Hv. split; [done|]. rewrite len_app, length_head_small by lia.
    rewrite Hlen in *. pose proof (len_nonneg fs). nia.
Qed.

(** ** Leaves *)

Definition ascii_text (b : bytes) : Prop := Forall (λ c, 0 ≤ c < 128) b.

Lemma ascii_utf8 b : ascii_text b → Forall is_byte b ∧ utf8_valid b = true.
Proof.
  induction 1 as [|c b Hc _ [IH1 IH2]]; [done|]. split.
  - constructor; [unfold is_byte; lia|done].
  - cbn [utf8_valid]. unfold within at 1. rewrite bool_decide_true by lia. done.
Qed.

Lemma head_len major n : 0 ≤ n ≤ 255 → len (head major n) ≤ 2.
Proof.
  intros Hn. unfold head. repeat case_decide; unfold len; simpl; lia.
Qed.

Lemma small_text levels b n : len b ≤ n → n ≤ 255 → small (S levels) (2 + n) 1 (Text b).
Proof.
  intros Hb Hn. eexists. split; [done|]. simpl. split_and!; try done.
  rewrite len_app. pose proof (len_nonneg b). pose proof (head_len 3 (len b)). lia.
Qed.

Lemma small_bytes levels b n : len b ≤ n → n ≤ 255 → small (S levels) (2 + n) 1 (Bytes b).
Proof.
  intros Hb Hn. eexists. split; [done|]. simpl. split_and!; try done.
  rewrite len_app. pose proof (len_nonneg b). pose proof (head_len 2 (len b)). lia.
Qed.

Lemma small_unsigned levels n : small (S levels) 9 1 (Unsigned n).
Proof.
  eexists. split; [done|]. simpl. split_and!; try done.
  unfold head. repeat case_decide; unfold len; simpl; rewrite ?length_app; simpl; lia.
Qed.

Lemma small_null levels : small (S levels) 1 1 Null.
Proof. eexists. done. Qed.

Lemma small_weaken levels s i s' i' v :
  s ≤ s' → i ≤ i' → small levels s i v → small levels s' i' v.
Proof. intros Hs Hi (it & ? & ? & ? & ?). exists it. split_and!; try done; lia. Qed.

(** The text of a public identifier. *)
Lemma alphabet_ascii i : 0 ≤ i < 32 → 0 ≤ PublicId.alphabet_at i < 128.
Proof.
  intros Hi. cut (∀ n, (n < 32)%nat → 0 ≤ PublicId.alphabet_at (Z.of_nat n) < 128).
  { intros H. rewrite <-(Z2Nat.id i) by lia. apply H. lia. }
  intros n Hn. do 32 (destruct n as [|n]; [vm_compute; split; [discriminate|reflexivity]|]). lia.
Qed.

Lemma public_text_shape {k} (id : PublicIdOf k) :
  PublicIds.valid id →
  ascii_text (PublicIds.to_string id) ∧ len (PublicIds.to_string id) = 57.
Proof.
  intros [Hd Hl]. unfold PublicIds.to_string.
  destruct (Base32.encode_base32_digits _ Hd Hl) as (ds & -> & Hds & Hlen & _). split.
  - apply Forall_app. split.
    + destruct k; vm_compute; repeat (constructor; [split; [discriminate|reflexivity]|]); constructor.
    + apply Forall_fmap. eapply Forall_impl; [done|]. intros i Hi. by apply alphabet_ascii.
  - unfold len. rewrite length_app, PublicIds.length_prefix, length_fmap, Hlen. done.
Qed.

Lemma public_to_string_inj {k} (x y : PublicIdOf k) :
  PublicIds.valid x → PublicIds.valid y →
  PublicIds.to_string x = PublicIds.to_string y → x = y.
Proof.
  intros Hx Hy Heq. apply PublicIds.from_str_to_string in Hx, Hy. rewrite Heq in Hx. congruence.
Qed.

Lemma cons_pair_inj {A B} (k : A) (v w : B) l m : (k, v) :: l = (k, w) :: m → v = w ∧ l = m.
Proof. by intros [= -> ->]. Qed.

Global Instance int_key_inj : Inj (=) (=) int_key.
Proof. intros [k v] [k' v']. unfold int_key; simpl. by intros [= -> ->]. Qed.

(** ** The text of a UUID *)

(** A [Uuid] is 128 bits wide. *)
Definition uuid_range (u : Z) : Prop := 0 ≤ u < 2 ^ 128.

(** The documented text form of the [uuid] crate: 36 ASCII characters, and
    different identifiers have different texts. *)
Class HyphenatedText (hyphenated : Z → bytes) : Prop := {
  hyphenated_length u : uuid_range u → len (hyphenated u) = 36;
  hyphenated_ascii u : uuid_range u → ascii_text (hyphenated u);
  hyphenated_inj u v : uuid_range u → uuid_range v → hyphenated u = hyphenated v → u = v
}.

Definition id_valid {k} (id : UuidV7Id k) : Prop := uuid_range (as_uuid id).

(** ** Values that always encode

    [compact d size items v]: [v] is nested at most [d] deep and encodes, without
    reordering, in [size] bytes and [items] items. *)

Definition compact (d : nat) (size items : Z) (v : CanonicalValue) : Prop :=
  value_ok v ∧ ∀ levels, (d ≤ levels)%nat → small levels size items v.

Lemma compact_weaken d s i d' s' i' v :
  (d ≤ d')%nat → s ≤ s' → i ≤ i' → compact d s i v → compact d' s' i' v.
Proof.
  intros Hd Hs Hi [Hv H]. split; [done|]. intros levels Hl.
  eapply small_weaken; [done|done|]. apply H. lia.
Qed.

Lemma compact_leaf size items v :
  value_ok v → (∀ levels, small (S levels) size items v) → compact 1 size items v.
Proof. intros Hv H. split; [done|]. intros [|levels] Hl; [lia|done]. Qed.

Lemma compact_unsigned n : 0 ≤ n ≤ u64_max → compact 1 9 1 (Unsigned n).
Proof. intros. apply compact_leaf; [by constructor|]. intros. apply small_unsigned. Qed.

Lemma compact_null : compact 1 1 1 Null.
Proof. apply compact_leaf; [constructor|]. intros. apply small_null. Qed.

Lemma head_width major n : len (head major n) ≤ 9.
Proof. unfold head. repeat case_decide; unfold len; simpl; lia. Qed.

Lemma compact_negative z : i64_min ≤ z < 0 → compact 1 9 1 (Negative z).
Proof.
  intros Hz. apply compact_leaf; [constructor; unfold i64_max, i64_min in *; lia|]. intros levels.
  eexists. split; [apply spec_Negative; split; [lia|done]|]. simpl.
  split_and!; [done|apply head_width|done].
Qed.

Lemma compact_bytes b n : Forall is_byte b → len b ≤ n → compact 1 (9 + n) 1 (Bytes b).
Proof.
  intros Hb Hn. apply compact_leaf; [by constructor|]. intros levels.
  eexists. split; [done|]. simpl. split_and!; [done| |done].
  rewrite len_app. pose proof (head_width 2 (len b)). lia.
Qed.

Lemma compact_text b n : ascii_text b → len b ≤ n → compact 1 (9 + n) 1 (Text b).
Proof.
  intros Hb Hn. destruct (ascii_utf8 b Hb). apply compact_leaf; [by constructor|]. intros levels.
  eexists. split; [done|]. simpl. split_and!; [done| |done].
  rewrite len_app. pose proof (head_width 3 (len b)). lia.
Qed.

(** The map with the keys [k], [k + 1], ... *)
Fixpoint number_from (k : Z) (vs : list CanonicalValue) : list (CanonicalValue * CanonicalValue) :=
  match vs with
  | [] => []
  | v :: vs => (Unsigned k, v) :: number_from (k + 1) vs
  end.

Fixpoint pair_from (k : Z) (vs : list CanonicalValue) : list (Z * CanonicalValue) :=
  match vs with
  | [] => []
  | v :: vs => (k, v) :: pair_from (k + 1) vs
  end.

Lemma number_from_pairs k vs : number_from k vs = int_key <$> pair_from k vs.
Proof. revert k. induction vs as [|v vs IH]; intros k; cbn; [done|]. by rewrite IH. Qed.

Lemma pair_from_spec k vs :
  len (pair_from k vs) = len vs ∧ StronglySorted Z.lt (pair_from k vs).*1 ∧
  Forall (λ e, k ≤ e.1 < k + len vs ∧ e.2 ∈ vs) (pair_from k vs).
Proof.
  revert k. induction vs as [|v vs IH]; intros k; cbn.
  { split_and!; [done|constructor|constructor]. }
  destruct (IH (k + 1)) as (Hl & Hs & Hall). unfold len in *. cbn. split_and!.
  - lia.
  - constructor; [done|]. apply Forall_fmap. eapply Forall_impl; [done|]. intros e [? _]. cbn. lia.
  - constructor; cbn; [split; [lia|set_solver]|]. eapply Forall_impl; [done|].
    intros e [? ?]. split; [lia|set_solver].
Qed.

Lemma compact_numbered d size items n vs :
  0 ≤ size → 0 ≤ items → len vs ≤ n → n < 23 → Forall (compact (S d) size items) vs →
  compact (S (S d)) (1 + n * (1 + size)) (1 + n * (1 + items)) (Map (number_from 1 vs)).
Proof.
  intros Hsz Hit Hn Hn' Hall. rewrite number_from_pairs.
  destruct (pair_from_spec 1 vs) as (Hl & Hs & Hp). rewrite Forall_forall in Hall. rewrite Forall_forall in Hp.
  split.
  - constructor. apply Forall_fmap, Forall_forall. intros [k v] [Hk Hv]%Hp. cbn in *.
    split; [constructor; unfold u64_max; lia|]. by apply Hall.
  - intros [|[|levels]] Hd; [lia|lia|]. apply small_int_map; [done|done|lia|lia|done|].
    apply Forall_forall. intros [k v] [Hk Hv]%Hp. cbn in *. split; [lia|]. apply Hall; [done|lia].
Qed.

Lemma compact_array d size items n vs :
  0 ≤ size → 0 ≤ items → len vs ≤ n → n ≤ MAX_CONTAINER_ENTRIES →
  Forall (compact d size items) vs →
  compact (S d) (9 + n * size) (1 + n * items) (Array vs).
Proof.
  intros Hsz Hit Hn Hn' Hall. split.
  { constructor. eapply Forall_impl; [done|]. by intros v [? _]. }
  intros [|levels] Hd; [lia|].
  assert (∃ its, mapM (spec levels) vs = Some its ∧ it_value <$> its = vs ∧
    len (concat (it_bytes <$> its)) ≤ len vs * size ∧ Zsum it_items its ≤ len vs * items)
    as (its & Hm & Hv & H1 & H2).
  { clear Hn. induction Hall as [|v vs [_ Hv] _ (its & Hm & Heq & H1 & H2)].
    { by exists []. }
    destruct (Hv levels ltac:(lia)) as (it & Hs & Hi & Hb & Hc). exists (it :: its).
    cbn [mapM]. rewrite Hs, Hm. cbn. rewrite Heq, Hi. split_and!; [done|done| |].
    - rewrite len_app. unfold len in *. cbn [length]. lia.
    - change (foldr _ 0 its) with (Zsum it_items its). unfold len in *. cbn [length]. lia. }
  eexists. split; [apply spec_Array; split; [lia|by exists its]|].
  cbn [it_value it_bytes it_items]. rewrite Hv. split; [done|].
  rewrite len_app. pose proof (head_width 4 (len vs)). pose proof (len_nonneg vs). nia.
Qed.

(** The same with a bound for each field. *)
Lemma sized_entries levels fs sis :
  Forall2 (λ e si, 0 ≤ e.1 < 24 ∧ small (S levels) si.1 si.2 e.2) fs sis →
  ∃ entries, mapM (spec_entry (S levels)) (int_key <$> fs) = Some entries ∧
    entry_value <$> entries = int_key <$> fs ∧
    entries.*1 = int_item <$> fs.*1 ∧
    len (concat (entry_bytes <$> entries)) ≤ Zsum (λ si, 1 + si.1) sis ∧
    Zsum entry_items entries ≤ Zsum (λ si, 1 + si.2) sis.
Proof.
  induction 1 as [|[k v] [size items] fs sis [Hk (it & Hs & Hv & Hl & Hi)] _
    (es & Hm & He & Hk' & H1 & H2)]; [by exists []|].
  cbn [fst snd] in *. exists ((int_item k, it) :: es). split_and!.
  - change (int_key <$> (k, v) :: fs) with ((Unsigned k, v) :: (int_key <$> fs)).
    cbn [mapM]. rewrite Hm. unfold spec_entry at 1. cbn [fst snd]. rewrite Hs. simpl.
    by rewrite head_small.
  - cbn. rewrite He. unfold entry_value, int_key at 1; simpl. by rewrite Hv.
  - cbn. by rewrite Hk'.
  - change (len ((k :: it.(it_bytes)) ++ concat (entry_bytes <$> es)) ≤
      1 + size + Zsum (λ si, 1 + si.1) sis). rewrite len_app. unfold len in *. cbn [length]. lia.
  - change (1 + it.(it_items) + Zsum entry_items es ≤ 1 + items + Zsum (λ si, 1 + si.2) sis). lia.
Qed.

Lemma sized_pairs d k vs sis :
  0 ≤ k → k + len vs ≤ 24 → Forall2 (λ si v, compact (S d) si.1 si.2 v) sis vs →
  ∀ levels, (d ≤ levels)%nat →
    Forall2 (λ e si, 0 ≤ e.1 < 24 ∧ small (S levels) si.1 si.2 e.2) (pair_from k vs) sis.
Proof.
  intros Hk Hl H levels Hd. revert k Hk Hl. induction H as [|si v sis vs Hv _ IH]; intros k Hk Hl.
  { constructor. }
  unfold len in *. cbn [length] in Hl. cbn [pair_from]. constructor.
  - cbn. split; [lia|]. apply Hv. lia.
  - apply IH; lia.
Qed.

Lemma compact_sized d sis vs :
  len vs < 23 → Forall2 (λ si v, compact (S d) si.1 si.2 v) sis vs →
  compact (S (S d)) (1 + Zsum (λ si, 1 + si.1) sis) (1 + Zsum (λ si, 1 + si.2) sis)
    (Map (number_from 1 vs)).
Proof.
  intros Hl Hall. rewrite number_from_pairs.
  destruct (pair_from_spec 1 vs) as (Hlen & Hs & Hp). split.
  - constructor. apply Forall_fmap, Forall_forall. intros [k v] Hin.
    rewrite Forall_forall in Hp. destruct (Hp _ Hin) as [Hk Hv]. cbn in *.
    split; [constructor; unfold u64_max; lia|].
    apply list_elem_of_lookup in Hv as [i Hi].
    destruct (Forall2_lookup_r _ _ _ _ _ Hall Hi) as (si & _ & [Hok _]). done.
  - intros [|[|levels]] Hd; [lia|lia|].
    pose proof (sized_pairs d 1 vs sis ltac:(lia) ltac:(lia) Hall levels ltac:(lia)) as Hsz.
    destruct (sized_entries _ _ _ Hsz) as (entries & Hm & Hv & Hk & H1 & H2).
    pose proof (int_entries_sorted _ _ Hk Hs) as Hlt.
    assert (len (int_key <$> pair_from 1 vs) = len vs) as Hlen'
      by (unfold len in *; by rewrite length_fmap).
    eexists. split.
    + apply spec_Map. rewrite Hlen'. split; [unfold MAX_CONTAINER_ENTRIES; lia|].
      exists entries. split; [done|]. split; [by apply key_lt_NoDup|].
      by rewrite (merge_sort_entries_id entries (key_lt_NoDup _ Hlt) (key_lt_le _ Hlt)).
    + cbn [it_value it_bytes it_items]. rewrite Hv. split; [done|].
      rewrite len_app, length_head_small by lia. lia.
Qed.

(** Such a value passes every limit of the encoder, and its bytes give it back. *)
Lemma compact_encodes d size items v :
  compact d size items v → (d ≤ S MAX_DEPTH)%nat →
  size ≤ MAX_ENCODED_BYTES → items ≤ MAX_TOTAL_ITEMS →
  ∃ b, encode_deterministic_cbor v = Ok b ∧ len b ≤ size ∧ decode_deterministic_cbor b = Ok v.
Proof.
  intros [Hv H] Hd Hsz Hit. destruct (H _ Hd) as (it & Hs & Hval & Hl & Hi).
  assert (0 ≤ MAX_ENCODED_BYTES ≤ u64_max) by (unfold MAX_ENCODED_BYTES, u64_max; lia).
  exists it.(it_bytes). split_and!; [|done|].
  - apply encode_with_limit_iff; [done|done|]. exists it. split_and!; [done|done|lia|lia].
  - rewrite <-Hval. apply (decode_of_spec v); [done|lia|done|lia|lia].
Qed.

(** ** What the parser can return

    As [value_ok], with [Negative] below zero. *)

Inductive parsed_ok : CanonicalValue → Prop :=
| parsed_unsigned n : 0 ≤ n ≤ u64_max → parsed_ok (Unsigned n)
| parsed_negative z : i64_min ≤ z < 0 → parsed_ok (Negative z)
| parsed_bytes b : Forall is_byte b → parsed_ok (Bytes b)
| parsed_text b : Forall is_byte b → utf8_valid b = true → parsed_ok (Text b)
| parsed_array vs : Forall parsed_ok vs → parsed_ok (Array vs)
| parsed_map es : Forall (λ e, parsed_ok e.1 ∧ parsed_ok e.2) es → parsed_ok (Map es)
| parsed_bool b : parsed_ok (Bool b)
| parsed_null : parsed_ok Null.

Lemma spec_parsed_ok levels v it : value_ok v → spec levels v = Some it → parsed_ok v.
Proof.
  revert v it. induction levels as [|levels IH]; [done|].
  intros v it Hv. inversion Hv as [| | | |vs Hall|es Hall| |]; subst; try by constructor.
  - intros [? _]%spec_Negative. constructor. lia.
  - intros (_ & its & Hm%mapM_Some_Forall2 & _)%spec_Array. constructor.
    apply Forall_forall. intros w [i Hi]%list_elem_of_lookup.
    destruct (Forall2_lookup_l _ _ _ _ _ Hm Hi) as (x & _ & Hx).
    eapply IH; [|done]. rewrite Forall_lookup in Hall. by eapply Hall.
  - intros (_ & entries & Hm%mapM_Some_Forall2 & _)%spec_Map. constructor.
    apply Forall_forall. intros e [i Hi]%list_elem_of_lookup.
    destruct (Forall2_lookup_l _ _ _ _ _ Hm Hi) as (x & _ & [H1 H2]%spec_entry_Some).
    rewrite Forall_lookup in Hall. destruct (Hall _ _ Hi). eauto.
Qed.

Lemma compact_parsed_ok d size items v : compact d size items v → parsed_ok v.
Proof. intros [Hv H]. destruct (H d (le_n d)) as (it & Hs & _). by eapply spec_parsed_ok. Qed.

Lemma decoded_parsed_ok b v :
  Forall is_byte b → decode_deterministic_cbor b = Ok v → parsed_ok v.
Proof.
  intros Hb (it & Hs & _ & _ & Hv & _)%decode_with_limit_Ok; [|done]. by eapply spec_parsed_ok.
Qed.

(** ** Values that the encoder does not reorder *)

Definition stable (v : CanonicalValue) : Prop :=
  ∀ levels it, spec levels v = Some it → it.(it_value) = v.

Lemma stable_unsigned n : stable (Unsigned n).
Proof. by intros [|levels] it; [done|]; intros [= <-]. Qed.
Lemma stable_bytes b : stable (Bytes b).
Proof. by intros [|levels] it; [done|]; intros [= <-]. Qed.
Lemma stable_text b : stable (Text b).
Proof. by intros [|levels] it; [done|]; intros [= <-]. Qed.
Lemma stable_bool b : stable (Bool b).
Proof. destruct b; by intros [|levels] it; [done|]; intros [= <-]. Qed.

Lemma stable_array vs : Forall stable vs → stable (Array vs).
Proof.
  intros Hall [|levels] it; [done|]. intros (_ & its & Hm & ->)%spec_Array. cbn. f_equal.
  apply mapM_Some_Forall2 in Hm. induction Hm as [|v x vs its Hv _ IH]; [done|].
  apply Forall_cons in Hall as [Hs Hall]. cbn. rewrite (Hs _ _ Hv), IH by done. done.
Qed.

Lemma stable_numbered vs : len vs < 23 → Forall stable vs → stable (Map (number_from 1 vs)).
Proof.
  intros Hl Hall [|levels] it; [done|]. intros (_ & entries & Hm & _ & ->)%spec_Map. cbn.
  destruct levels as [|levels].
  { destruct vs as [|v vs]; [|by cbn in Hm]. cbn in Hm. by injection Hm as <-. }
  assert (∀ k, 0 ≤ k → k + len vs < 24 →
    mapM (spec_entry (S levels)) (number_from k vs) = Some entries →
    entry_value <$> entries = number_from k vs ∧ entries.*1 = int_item <$> (pair_from k vs).*1)
    as Hkey.
  { clear Hm Hl. revert entries. induction vs as [|v vs IH]; intros entries k Hk Hlt Hm;
      cbn [number_from pair_from mapM] in *.
    { by injection Hm as <-. }
    apply Forall_cons in Hall as [Hs Hall]. unfold len in *. cbn [length] in Hlt.
    apply bind_Some in Hm as ([i x] & [H1 H2]%spec_entry_Some & Hm).
    apply bind_Some in Hm as (es & Hm & [= <-]). cbn [fst snd] in *.
    cbn [spec] in H1. injection H1 as <-. rewrite head_small by lia.
    destruct (IH Hall es (k + 1)) as [He Hf]; [lia|lia|done|].
    cbn. rewrite He, Hf. unfold entry_value; cbn. by rewrite (Hs _ _ H2). }
  destruct (Hkey 1) as [He Hf]; [lia|lia|done|].
  destruct (pair_from_spec 1 vs) as (_ & Hsort & _).
  pose proof (int_entries_sorted _ _ Hf Hsort) as Hlt.
  rewrite (merge_sort_entries_id entries (key_lt_NoDup _ Hlt) (key_lt_le _ Hlt)). by rewrite He.
Qed.

Lemma stable_roundtrip v b :
  value_ok v → stable v → encode_deterministic_cbor v = Ok b →
  decode_deterministic_cbor b = Ok v ∧ b ≠ [] ∧ len b ≤ MAX_ENCODED_BYTES.
Proof.
  assert (0 ≤ MAX_ENCODED_BYTES ≤ u64_max) by (unfold MAX_ENCODED_BYTES, u64_max; lia).
  intros Hv Hst (it & Hs & <- & Hl & Hi)%encode_with_limit_iff; [|done|done]. split_and!; [| |done].
  - transitivity (Ok (E := CanonicalCborError) it.(it_value)); [|by rewrite (Hst _ _ Hs)].
    apply (decode_of_spec v); done || lia.
  - destruct (spec_nonempty _ _ _ Hs) as (x & r & -> & _). done.
Qed.

(** ** Encodings are bytes *)

Lemma initial_is_byte major x : 0 ≤ major ≤ 7 → 0 ≤ x < 32 → is_byte (Z.lor (Z.shiftl major 5) x).
Proof. intros Hm Hx. rewrite lor_shiftl_add by lia. unfold is_byte. lia. Qed.

Lemma head_bytes major arg : 0 ≤ major ≤ 7 → 0 ≤ arg → Forall is_byte (head major arg).
Proof.
  intros Hm Ha. unfold head, u16_max, u32_max in *.
  repeat case_decide; cbn [app];
    repeat (apply Forall_cons_2; [solve [apply initial_is_byte; lia | unfold is_byte; lia]|]);
    try apply Forall_nil_2; apply to_be_bytes_digits.
Qed.

Lemma spec_bytes levels v it : value_ok v → spec levels v = Some it → Forall is_byte it.(it_bytes).
Proof.
  revert v it. induction levels as [|levels IH]; [done|].
  intros v it Hv. inversion Hv as [n Hn|z Hz|b Hb|b Hb Hu|vs Hall|es Hall|[]|]; subst.
  - intros [= <-]. apply head_bytes; lia.
  - intros [? ->]%spec_Negative. apply head_bytes; lia.
  - intros [= <-]. apply Forall_app. split; [|done]. apply head_bytes; [lia|apply len_nonneg].
  - intros [= <-]. apply Forall_app. split; [|done]. apply head_bytes; [lia|apply len_nonneg].
  - intros (_ & its & Hm%mapM_Some_Forall2 & ->)%spec_Array. apply Forall_app.
    split; [apply head_bytes; [lia|apply len_nonneg]|].
    apply Forall_concat, Forall_fmap, Forall_forall. intros x [i Hi]%list_elem_of_lookup.
    destruct (Forall2_lookup_r _ _ _ _ _ Hm Hi) as (w & Hw & Hx). cbn.
    eapply IH; [|done]. rewrite Forall_lookup in Hall. by eapply Hall.
  - intros (_ & entries & Hm%mapM_Some_Forall2 & _ & ->)%spec_Map. apply Forall_app.
    split; [apply head_bytes; [lia|apply len_nonneg]|].
    apply Forall_concat, Forall_fmap. rewrite merge_sort_Permutation.
    apply Forall_forall. intros x [i Hi]%list_elem_of_lookup.
    destruct (Forall2_lookup_r _ _ _ _ _ Hm Hi) as (w & Hw & [H1 H2]%spec_entry_Some). cbn.
    rewrite Forall_lookup in Hall. destruct (Hall _ _ Hw) as [Hk Hx].
    unfold entry_bytes. apply Forall_app.
    split; [eapply IH; [|exact H1]; done|eapply IH; [|exact H2]; done].
  - intros [= <-]. by apply Forall_singleton.
  - intros [= <-]. by apply Forall_singleton.
  - intros [= <-]. by apply Forall_singleton.
Qed.

Lemma encoded_is_bytes v b :
  value_ok v → encode_deterministic_cbor v = Ok b → Forall is_byte b.
Proof.
  assert (0 ≤ MAX_ENCODED_BYTES ≤ u64_max) by (unfold MAX_ENCODED_BYTES, u64_max; lia).
  intros Hv (it & Hs & <- & _)%encode_with_limit_iff; [|done|done]. by eapply spec_bytes.
Qed.
