(* ===== verification/WirePrimitives.v ===== *)
(** * Wire primitives: SHA-256 digests

    Models [Sha256Digest] of [crates/dtx-wire/src/primitives.rs]: the 32-byte
    digest, its domain-separated computation and its tagged text form.  The
    hash function itself ([sha2::Sha256]) is a parameter. *)

From S2P Require Import Prelude.

Record Sha256Digest : Type := from_bytes { as_bytes : bytes }.

Global Instance as_bytes_inj : Inj (=) (=) as_bytes.
Proof. intros [x] [y]; simpl; congruence. Qed.
Global Instance Sha256Digest_eq_dec : EqDecision Sha256Digest.
Proof. solve_decision. Defined.
Global Program Instance Sha256Digest_countable : Countable Sha256Digest :=
  inj_countable' as_bytes from_bytes _.
Next Obligation. by intros []. Qed.
Global Instance Sha256Digest_ord : Ord Sha256Digest := ord_by as_bytes.

(** The array type [[u8; 32]]. *)
Definition digest_valid (d : Sha256Digest) : Prop :=
  digits 256 (as_bytes d) ∧ length (as_bytes d) = 32%nat.

(** [Sha256] over the concatenation of the two updates. *)
Definition hash_domain (sha256 : bytes → bytes) (domain message : bytes) : Sha256Digest :=
  from_bytes (sha256 (domain ++ message)).

Inductive EncodedPrimitiveError : Type :=
| WrongAlgorithm
| InvalidLength (expected actual : Z)
| InvalidEncoding
| InvalidPublicKey.

Definition SHA256_PREFIX : bytes := str "sha256:".

(** [{byte:02x}] *)
Definition hex_char (n : Z) : Z := if decide (n < 10) then 48 + n else 87 + n.
Definition hex_byte (byte : Z) : bytes := [hex_char (byte / 16); hex_char (byte mod 16)].

(** [Display::fmt] *)
Definition digest_to_string (d : Sha256Digest) : bytes :=
  SHA256_PREFIX ++ (as_bytes d ≫= hex_byte).

Definition is_ascii_digit (c : Z) : bool := bool_decide (48 ≤ c ≤ 57).
Definition is_lower_hex_letter (c : Z) : bool := bool_decide (97 ≤ c ≤ 102).

(** [char::to_digit(16)] and [u8::from_str_radix(_, 16)]: an optional plus sign,
    at least one digit, and the value must fit. *)
Definition to_digit16 (c : Z) : option Z :=
  if is_ascii_digit c then Some (c - 48)
  else if is_lower_hex_letter c then Some (c - 87)
  else if bool_decide (65 ≤ c ≤ 70) then Some (c - 55)
  else None.

Definition u8_from_str_radix16 (s : bytes) : option Z :=
  let digits := match s with 43 :: (_ :: _) as rest => rest | _ => s end in
  match digits with
  | [] => None
  | _ => ds ← mapM to_digit16 digits; checked 0 255 (be_value 16 ds)
  end.

(** The loop over the output array: byte [index] is read from
    [encoded[2 * index .. 2 * index + 2]]. *)
Fixpoint parse_hex_pairs (n : nat) (encoded : bytes) : result EncodedPrimitiveError bytes :=
  match n with
  | O => Ok []
  | S n =>
      byte ← ok_or (u8_from_str_radix16 (take 2 encoded)) InvalidEncoding;
      rest ← parse_hex_pairs n (drop 2 encoded);
      Ok (byte :: rest)
  end.

(** [FromStr::from_str] *)
Definition digest_from_str (value : bytes) : result EncodedPrimitiveError Sha256Digest :=
  encoded ← ok_or (strip_prefix SHA256_PREFIX value) WrongAlgorithm;
  reject (InvalidLength 64 (Z.of_nat (length encoded)))
    when (Z.of_nat (length encoded) ≠ 64);;
  reject InvalidEncoding
    when (forallb (λ c, is_ascii_digit c || is_lower_hex_letter c) encoded = false);;
  bytes ← parse_hex_pairs 32 encoded;
  Ok (from_bytes bytes).

(** ** The text of a digest *)

Definition is_lower_hex (c : Z) : Prop := 48 ≤ c ≤ 57 ∨ 97 ≤ c ≤ 102.

Lemma is_lower_hex_true c : is_ascii_digit c || is_lower_hex_letter c = true ↔ is_lower_hex c.
Proof.
  unfold is_ascii_digit, is_lower_hex_letter, is_lower_hex.
  by rewrite orb_true_iff, !bool_decide_eq_true.
Qed.

Lemma hex_char_lower n : 0 ≤ n < 16 → is_lower_hex (hex_char n).
Proof. unfold hex_char, is_lower_hex. case_decide; lia. Qed.

Lemma to_digit16_hex_char n : 0 ≤ n < 16 → to_digit16 (hex_char n) = Some n.
Proof.
  intros Hn. unfold hex_char, to_digit16, is_ascii_digit, is_lower_hex_letter.
  repeat case_decide; repeat case_bool_decide; try lia; f_equal; lia.
Qed.

Lemma hex_char_to_digit16 c : is_lower_hex c →
  ∃ n, to_digit16 c = Some n ∧ 0 ≤ n < 16 ∧ hex_char n = c.
Proof.
  unfold is_lower_hex, to_digit16, is_ascii_digit, is_lower_hex_letter, hex_char. intros Hc.
  repeat case_bool_decide; try lia; eexists; (split; [done|]); case_decide; lia.
Qed.

(** The sign is never present when the first character is a hex digit. *)
Lemma from_str_radix_pair c d :
  is_lower_hex c → is_lower_hex d →
  ∃ byte, u8_from_str_radix16 [c; d] = Some byte ∧ 0 ≤ byte < 256 ∧ hex_byte byte = [c; d].
Proof.
  intros Hc Hd. destruct (hex_char_to_digit16 c Hc) as (x & Hx & ? & <-).
  destruct (hex_char_to_digit16 d Hd) as (y & Hy & ? & <-).
  exists (x * 16 + y). unfold u8_from_str_radix16.
  assert (∀ A (a b : A), match hex_char x with 43 => a | _ => b end = b) as Hplus.
  { intros A a b. unfold is_lower_hex in Hc.
    repeat match goal with |- match ?z with _ => _ end = _ => destruct z; try done end; lia. }
  split_and!; [|lia|lia|].
  - replace (match hex_char x with 43 => _ | _ => _ end)
      with [hex_char x; hex_char y]
      by (repeat match goal with |- _ = match ?z with _ => _ end =>
            destruct z eqn:?; try done end; unfold is_lower_hex in Hc; lia).
    simpl. rewrite Hx, Hy. simpl. unfold be_value; simpl. apply checked_Some. lia.
  - unfold hex_byte. rewrite Z.div_add_l, (Z.div_small y), Z.add_0_r by lia.
    by rewrite Z.add_comm, Z.mod_add, Z.mod_small by lia.
Qed.

Lemma parse_hex_pairs_Ok n encoded :
  length encoded = (2 * n)%nat → Forall is_lower_hex encoded →
  ∃ b, parse_hex_pairs n encoded = Ok b ∧ digits 256 b ∧ length b = n ∧ b ≫= hex_byte = encoded.
Proof.
  revert encoded. induction n as [|n IH]; intros encoded Hlen Hall.
  { destruct encoded; [|done]. exists []. split_and!; try done. constructor. }
  destruct encoded as [|c [|d encoded]]; simpl in Hlen; [lia|lia|].
  inversion_clear Hall as [|?? Hc Hall']. inversion_clear Hall' as [|?? Hd Hall].
  destruct (from_str_radix_pair c d Hc Hd) as (byte & Hbyte & Hb & Hhex).
  destruct (IH encoded ltac:(lia) Hall) as (b & Hb' & Hdig & Hl & Hcat).
  exists (byte :: b). split_and!.
  - cbn [parse_hex_pairs]. change (take 2 (c :: d :: encoded)) with [c; d].
    change (drop 2 (c :: d :: encoded)) with encoded. rewrite Hbyte; cbn. by rewrite Hb'.
  - by constructor.
  - simpl. lia.
  - change ((byte :: b) ≫= hex_byte) with (hex_byte byte ++ (b ≫= hex_byte)).
    by rewrite Hhex, Hcat.
Qed.

Lemma high_nibble x : 0 ≤ x < 256 → 0 ≤ x / 16 < 16.
Proof. intros. split; [apply Z.div_pos|apply Z.div_lt_upper_bound]; lia. Qed.

Lemma hex_text_lower b : digits 256 b → Forall is_lower_hex (b ≫= hex_byte).
Proof.
  induction 1 as [|x b Hx _ IH]; cbn; [constructor|].
  constructor; [by apply hex_char_lower, high_nibble|].
  constructor; [apply hex_char_lower, Z.mod_pos_bound; lia|done].
Qed.

Lemma hex_byte_inj x y : 0 ≤ x < 256 → 0 ≤ y < 256 → hex_byte x = hex_byte y → x = y.
Proof.
  intros Hx Hy [= H1 H2].
  pose proof (to_digit16_hex_char (x / 16) (high_nibble x Hx)) as Hx1.
  pose proof (to_digit16_hex_char (y / 16) (high_nibble y Hy)) as Hy1.
  pose proof (to_digit16_hex_char (x mod 16) (Z.mod_pos_bound x 16 ltac:(lia))) as Hx2.
  pose proof (to_digit16_hex_char (y mod 16) (Z.mod_pos_bound y 16 ltac:(lia))) as Hy2.
  rewrite H1, Hy1 in Hx1. rewrite H2, Hy2 in Hx2. simplify_eq.
  rewrite (Z.div_mod x 16), (Z.div_mod y 16) by lia. congruence.
Qed.

Lemma hex_text_inj b c : digits 256 b → digits 256 c → b ≫= hex_byte = c ≫= hex_byte → b = c.
Proof.
  intros Hb. revert c. induction Hb as [|x b Hx _ IH]; intros [|y c] Hc; cbn; try done.
  intros [= H1 H2 H]. inversion_clear Hc. f_equal; [|by apply IH].
  apply hex_byte_inj; [done..|]. unfold hex_byte. congruence.
Qed.

Lemma length_hex_text (b : bytes) : length (b ≫= hex_byte) = (2 * length b)%nat.
Proof.
  induction b as [|x b IH]; [done|].
  change ((x :: b) ≫= hex_byte) with (hex_byte x ++ (b ≫= hex_byte)).
  rewrite length_app, IH. simpl. lia.
Qed.

(** The tagged text of a digest is canonical: [Sha256Digest::from_str]
    accepts a string exactly when it is the [Display] text of a 32-byte digest,
    and returns that digest. *)
Theorem digest_text_canonical value d :
  digest_from_str value = Ok d ↔ digest_valid d ∧ digest_to_string d = value.
Proof.
  unfold digest_from_str, digest_to_string. split.
  - intros H. res_inv H. apply strip_prefix_Some in Hres as ->.
    apply not_false_is_true, Is_true_true, forallb_True in Hres1.
    destruct (parse_hex_pairs_Ok 32 x) as (b & Hb & Hdig & Hl & Hcat).
    { lia. }
    { eapply Forall_impl; [done|]. intros c Hc. by apply is_lower_hex_true, Is_true_true. }
    rewrite Hb in Hres2. injection Hres2 as <-. split; [done|]. cbn. by rewrite Hcat.
  - intros [[Hdig Hlen] <-].
    assert (Hl : length (as_bytes d ≫= hex_byte) = (2 * 32)%nat) by (rewrite length_hex_text; lia).
    pose proof (hex_text_lower _ Hdig) as Hlow.
    destruct (parse_hex_pairs_Ok 32 _ Hl Hlow) as (b & Hb & Hdig' & Hl' & Hcat).
    apply result_bind_Ok. exists (as_bytes d ≫= hex_byte). split.
    { apply ok_or_Ok. by apply strip_prefix_Some. }
    ok_step; [lia|]. ok_step.
    { apply not_false_iff_true, Is_true_true, forallb_True. eapply Forall_impl; [done|].
      intros c Hc. by apply Is_true_true, is_lower_hex_true. }
    rewrite Hb. cbn. f_equal. destruct d as [bs]. f_equal. by apply hex_text_inj.
Qed.
