(* ===== verification/WireValues.v ===== *)
(** * Wire values: versions, bounded numbers, keys and signatures

    Models [crates/dtx-wire/src/version.rs] and the remaining primitives of
    [crates/dtx-wire/src/primitives.rs] that have a canonical encoding, with the
    key validation of [crates/dtx-domain/src/public_id.rs].  The [ed25519-dalek]
    and [uuid] crates are the classes [Ed25519] and [UuidCrate]. *)

From S2P Require Import Prelude Domain CanonicalCbor CborSpec CborFields WirePrimitives.

(** The trait [CanonicalEncode]. *)
Class CanonicalEncode (A : Type) : Type := to_canonical_value : A → CanonicalValue.

Global Instance Sha256Digest_encode : CanonicalEncode Sha256Digest := λ d, Bytes (as_bytes d).

(** ** [version.rs] *)

Record ProtocolVersion : Type := ProtocolVersion_new { major : Z; minor : Z }.
Record WireVersion : Type := WireVersion_new
  { protocol : ProtocolVersion; minimum_reader : ProtocolVersion }.

Global Instance ProtocolVersion_eq_dec : EqDecision ProtocolVersion.
Proof. solve_decision. Defined.
Global Instance WireVersion_eq_dec : EqDecision WireVersion.
Proof. solve_decision. Defined.

Definition version_pair (v : ProtocolVersion) : Z * Z := (v.(major), v.(minor)).
Global Instance version_pair_inj : Inj (=) (=) version_pair.
Proof. intros [] []. unfold version_pair; simpl. congruence. Qed.
Global Instance ProtocolVersion_ord : Ord ProtocolVersion := ord_by version_pair.

Global Instance ProtocolVersion_encode : CanonicalEncode ProtocolVersion := λ v,
  Map [(Unsigned 1, Unsigned v.(major)); (Unsigned 2, Unsigned v.(minor))].
Global Instance WireVersion_encode : CanonicalEncode WireVersion := λ w,
  Map [(Unsigned 1, to_canonical_value w.(protocol));
       (Unsigned 2, to_canonical_value w.(minimum_reader))].

Inductive VersionError : Type :=
| InvalidVersionRange (protocol minimum : ProtocolVersion)
| UnsupportedMajor (reader_major message_major : Z)
| ReaderTooOld (reader minimum : ProtocolVersion).

Definition ensure_readable (reader : ProtocolVersion) (wire : WireVersion) :
    result VersionError unit :=
  reject (InvalidVersionRange wire.(protocol) wire.(minimum_reader))
    when (wire.(protocol).(major) ≠ wire.(minimum_reader).(major)
          ∨ ord_lt wire.(protocol) wire.(minimum_reader));;
  reject (UnsupportedMajor reader.(major) wire.(protocol).(major))
    when (reader.(major) ≠ wire.(protocol).(major));;
  reject (ReaderTooOld reader wire.(minimum_reader))
    when (ord_lt reader wire.(minimum_reader));;
  Ok tt.

(** ** [SafeUint] *)

Definition MAX_SAFE_UINT : Z := Z.shiftl 1 53 - 1.

Record SafeUint : Type := MkSafeUint { uint_get : Z }.
Global Instance SafeUint_eq_dec : EqDecision SafeUint.
Proof. solve_decision. Defined.

Record SafeUintError : Type := MkSafeUintError { uint_actual : Z }.

Definition SafeUint_new (value : Z) : result SafeUintError SafeUint :=
  if decide (value > MAX_SAFE_UINT) then Err (MkSafeUintError value) else Ok (MkSafeUint value).

Global Instance SafeUint_encode : CanonicalEncode SafeUint := λ n, Unsigned n.(uint_get).

(** ** [UtcMillis] *)

Definition MIN_UTC_MILLIS : Z := -62135596800000.
Definition MAX_UTC_MILLIS : Z := 253402300799999.

Record UtcMillis : Type := MkUtcMillis { utc_get : Z }.
Global Instance UtcMillis_eq_dec : EqDecision UtcMillis.
Proof. solve_decision. Defined.

Record UtcMillisError : Type := MkUtcMillisError { utc_actual : Z }.

Definition UtcMillis_new (value : Z) : result UtcMillisError UtcMillis :=
  if decide (value < MIN_UTC_MILLIS ∨ value > MAX_UTC_MILLIS)
  then Err (MkUtcMillisError value) else Ok (MkUtcMillis value).

Global Instance UtcMillis_encode : CanonicalEncode UtcMillis := λ t,
  if decide (t.(utc_get) >= 0) then Unsigned t.(utc_get) else Negative t.(utc_get).

(** ** Ed25519 keys and signatures *)

(** What the code calls of [ed25519-dalek]: [VerifyingKey::from_bytes],
    [to_edwards().compress().to_bytes()], [is_weak] and [verify_strict]. *)
Class Ed25519 : Type := {
  VerifyingKey : Type;
  vk_from_bytes : bytes → option VerifyingKey;
  vk_compress : VerifyingKey → bytes;
  vk_is_weak : VerifyingKey → bool;
  verify_strict : VerifyingKey → bytes → bytes → bool
}.

(** [Sha256::digest] *)
Class Sha256 : Type := sha256 : bytes → bytes.

(** SHA-256 has 32-byte outputs. *)
Class Sha256Laws `{Sha256} : Prop := {
  sha256_bytes b : digits 256 (sha256 b);
  sha256_length b : length (sha256 b) = 32%nat
}.

Record SigningPublicKey : Type := MkSigningKey { key_bytes : bytes }.
Record Ed25519Signature : Type := MkSignature { sig_bytes : bytes }.
Global Instance SigningPublicKey_eq_dec : EqDecision SigningPublicKey.
Proof. solve_decision. Defined.
Global Instance Ed25519Signature_eq_dec : EqDecision Ed25519Signature.
Proof. solve_decision. Defined.

Global Instance SigningPublicKey_encode : CanonicalEncode SigningPublicKey := λ k,
  Bytes k.(key_bytes).
Global Instance Ed25519Signature_encode : CanonicalEncode Ed25519Signature := λ s,
  Bytes s.(sig_bytes).

Inductive PublicKeyError : Type := InvalidKeyEncoding | NonCanonicalEncoding | WeakKey.

Section keys.
Context `{Ed25519}.

(** [Ed25519PublicKey::try_from] *)
Definition Ed25519PublicKey_try_from (value : bytes) : result PublicKeyError bytes :=
  key ← ok_or (vk_from_bytes value) InvalidKeyEncoding;
  reject NonCanonicalEncoding when (vk_compress key ≠ value);;
  reject WeakKey when (vk_is_weak key = true);;
  Ok value.

Definition SigningPublicKey_try_from (value : bytes) :
    result EncodedPrimitiveError SigningPublicKey :=
  key ← map_err (λ _, InvalidPublicKey) (Ed25519PublicKey_try_from value);
  Ok (MkSigningKey key).

(** The values of the type: 32 bytes that [try_from] accepts. *)
Definition key_valid (k : SigningPublicKey) : Prop :=
  digits 256 k.(key_bytes) ∧ length k.(key_bytes) = 32%nat ∧
  ∃ vk, vk_from_bytes k.(key_bytes) = Some vk ∧ vk_compress vk = k.(key_bytes) ∧
    vk_is_weak vk = false.

Lemma try_from_valid b k :
  digits 256 b → length b = 32%nat →
  SigningPublicKey_try_from b = Ok k ↔ key_valid k ∧ k.(key_bytes) = b.
Proof.
  intros Hd Hl. unfold SigningPublicKey_try_from, Ed25519PublicKey_try_from. split.
  - intros Hr. res_inv Hr. res_inv Hres. cbn. split; [|done]. split_and!; [done|done|].
    eexists. split_and!; [done|by apply dec_stable|by apply not_true_is_false].
  - intros [(_ & _ & vk & Hvk & Hc & Hw) <-]. rewrite Hvk. cbn. unfold reject_if.
    rewrite !decide_False by (rewrite ?Hw, ?Hc; naive_solver).
    by destruct k.
Qed.
End keys.

Definition signature_valid (s : Ed25519Signature) : Prop :=
  digits 256 s.(sig_bytes) ∧ length s.(sig_bytes) = 64%nat.

(** ** The [uuid] crate *)

Class UuidCrate : Type := {
  parse_str : bytes → option Z;
  hyphenated : Z → bytes;
  get_variant : Z → Z;
  get_version_num : Z → Z;
  RFC4122 : Z
}.

(** Its documented behaviour: identifiers are 128 bits wide, are printed as 36
    ASCII characters, and parsing inverts printing. *)
Class UuidLaws `{UuidCrate} : Prop := {
  uuid_text :: HyphenatedText hyphenated;
  parse_range b u : parse_str b = Some u → uuid_range u;
  parse_hyphenated u : uuid_range u → parse_str (hyphenated u) = Some u
}.

Definition uuid_from_str `{UuidCrate} {k} (value : bytes) :
    result UuidV7.IdParseError (UuidV7Id k) :=
  UuidV7.from_str parse_str hyphenated get_variant get_version_num RFC4122 value.

Definition uuid_valid `{UuidCrate} {k} (id : UuidV7Id k) : Prop :=
  id_valid id ∧ UuidV7.valid get_variant get_version_num RFC4122 id.

Lemma uuid_from_str_iff `{UuidCrate} `{!UuidLaws} {k} value (id : UuidV7Id k) :
  uuid_from_str value = Ok id ↔ uuid_valid id ∧ UuidV7.to_string hyphenated id = value.
Proof.
  unfold uuid_from_str. split.
  - intros Hr. pose proof (UuidV7.from_str_canonical _ _ _ _ _ _ _ Hr) as [Ht Hv].
    split; [|done]. split; [|done].
    unfold UuidV7.from_str, UuidV7.parse_uuid_v7 in Hr.
    destruct (parse_str value) as [u|] eqn:Hp; [|done]. apply parse_range in Hp. simpl in Hr.
    unfold reject_if in Hr. repeat case_decide; simplify_eq/=. done.
  - intros [[Hr [Hvar Hver]] <-]. unfold UuidV7.from_str, UuidV7.parse_uuid_v7, UuidV7.to_string.
    rewrite parse_hyphenated by done; simpl. unfold reject_if.
    rewrite !decide_False by (rewrite ?Hvar, ?Hver; tauto). by destruct id.
Qed.

(** ** Value ranges and encodings *)

Definition uint_valid (n : SafeUint) : Prop := 0 ≤ n.(uint_get) ≤ MAX_SAFE_UINT.
Definition utc_valid (t : UtcMillis) : Prop := MIN_UTC_MILLIS ≤ t.(utc_get) ≤ MAX_UTC_MILLIS.
Definition version_valid (v : ProtocolVersion) : Prop :=
  0 ≤ v.(major) ≤ u16_max ∧ 0 ≤ v.(minor) ≤ u16_max.
Definition wire_valid (w : WireVersion) : Prop :=
  version_valid w.(protocol) ∧ version_valid w.(minimum_reader).

Lemma SafeUint_new_Ok n u : 0 ≤ n → SafeUint_new n = Ok u ↔ uint_valid u ∧ u.(uint_get) = n.
Proof.
  intros Hn. unfold SafeUint_new, uint_valid. case_decide; split; try done.
  - intros [? <-]. lia.
  - intros [= <-]. cbn. lia.
  - intros [? <-]. by destruct u.
Qed.

Lemma UtcMillis_new_Ok n t : UtcMillis_new n = Ok t ↔ utc_valid t ∧ t.(utc_get) = n.
Proof.
  unfold UtcMillis_new, utc_valid. case_decide; split; try done.
  - intros [? <-]. lia.
  - intros [= <-]. cbn. lia.
  - intros [? <-]. by destruct t.
Qed.

Lemma digest_compact d : digest_valid d → compact 1 73 1 (to_canonical_value d).
Proof.
  intros [Hd Hl]. eapply compact_weaken, (compact_bytes _ 32); [lia|lia|lia|done|].
  unfold len. by rewrite Hl.
Qed.

Lemma key_compact `{Ed25519} k : key_valid k → compact 1 73 1 (to_canonical_value k).
Proof.
  intros (Hd & Hl & _). eapply compact_weaken, (compact_bytes _ 32); [lia|lia|lia|done|].
  unfold len. by rewrite Hl.
Qed.

Lemma signature_compact s : signature_valid s → compact 1 73 1 (to_canonical_value s).
Proof.
  intros (Hd & Hl). eapply compact_weaken, (compact_bytes _ 64); [lia|lia|lia|done|].
  unfold len. by rewrite Hl.
Qed.

Lemma uint_compact n : uint_valid n → compact 1 73 1 (to_canonical_value n).
Proof.
  unfold uint_valid. change MAX_SAFE_UINT with (2 ^ 53 - 1). intros Hn.
  eapply compact_weaken, compact_unsigned; [lia|lia|lia|]. unfold u64_max. lia.
Qed.

Lemma utc_compact t : utc_valid t → compact 1 73 1 (to_canonical_value t).
Proof.
  unfold utc_valid, MIN_UTC_MILLIS, MAX_UTC_MILLIS. intros Ht.
  unfold to_canonical_value, UtcMillis_encode. case_decide.
  - eapply compact_weaken, compact_unsigned; [lia|lia|lia|]. unfold u64_max. lia.
  - eapply compact_weaken, compact_negative; [lia|lia|lia|]. unfold i64_min. lia.
Qed.

Lemma version_compact v : version_valid v → compact 2 21 5 (to_canonical_value v).
Proof.
  intros [H1 H2]. apply (compact_numbered 0 9 1 2 [Unsigned v.(major); Unsigned v.(minor)]);
    try done. unfold u16_max in *.
  repeat apply Forall_cons_2; try apply Forall_nil_2; apply compact_unsigned; unfold u64_max; lia.
Qed.

Lemma wire_compact w : wire_valid w → compact 3 45 13 (to_canonical_value w).
Proof.
  intros [H1 H2]. apply (compact_numbered 1 21 5 2
    [to_canonical_value w.(protocol); to_canonical_value w.(minimum_reader)]); try done.
  repeat apply Forall_cons_2; try apply Forall_nil_2; by apply version_compact.
Qed.

Lemma public_text_compact {k} (id : PublicIdOf k) :
  PublicIds.valid id → compact 1 73 1 (Text (PublicIds.to_string id)).
Proof.
  intros Hid. destruct (public_text_shape id Hid) as [Ha Hl].
  eapply compact_weaken, (compact_text _ 57); [lia|lia|lia|done|lia].
Qed.

Lemma uuid_text_compact `{UuidCrate} `{!UuidLaws} {k} (id : UuidV7Id k) :
  id_valid id → compact 1 73 1 (Text (UuidV7.to_string hyphenated id)).
Proof.
  intros Hid. unfold UuidV7.to_string.
  eapply compact_weaken, (compact_text _ 36); [lia|lia|lia|by apply hyphenated_ascii|].
  by rewrite hyphenated_length.
Qed.

(** A reader accepts a message exactly when both are on one major line and the
    reader is at least the minimum the message asks for. *)
Lemma ensure_readable_Ok reader wire :
  ensure_readable reader wire = Ok tt ↔
  reader.(major) = wire.(protocol).(major) ∧
  wire.(minimum_reader).(major) = wire.(protocol).(major) ∧
  wire.(minimum_reader).(minor) ≤ wire.(protocol).(minor) ∧
  wire.(minimum_reader).(minor) ≤ reader.(minor).
Proof.
  assert (∀ v w, ord_lt v w ↔ v.(major) < w.(major) ∨ v.(major) = w.(major) ∧ v.(minor) < w.(minor))
    as Hlt.
  { intros [a b] [c d]. unfold ord_lt. cbn. unfold then_compare.
    destruct (Z.compare_spec a c); rewrite ?Z.compare_lt_iff; naive_solver lia. }
  unfold ensure_readable, reject_if. repeat case_decide; cbn; rewrite ?Hlt in *; naive_solver lia.
Qed.
