(* ===== verification/MembershipCommand.v ===== *)
(** * Membership commands: data, request digests and the command book

    Models [crates/dtx-membership-command/src/membership/header.rs],
    [codec.rs] and the reducer half of [book.rs]: the replay-safe book of join
    requests and approvals and its interaction with the commit Sequencer.
    [MembershipSnapshot.v] models the storage half.  A [&mut self] method is an
    [ST] program over the book.  The [uuid] crate's hyphenated text and SHA-256
    are the parameters [hyphenated] and [sha256]. *)

From S2P Require Import Prelude Domain GroupPolicy CanonicalCbor WirePrimitives.

(** ** [header.rs]: identities, contexts and receipts *)

Definition MEMBERSHIP_COMMAND_REQUEST_HASH_DOMAIN : bytes :=
  str "dirextalk.membership-command-request.v1" ++ [0].
Definition MEMBERSHIP_COMMAND_REQUEST_V2_HASH_DOMAIN : bytes :=
  str "dirextalk.membership-command-request.v2" ++ [0].

Notation RequestId := (UuidV7Id KRequest).

Record MembershipCommandId : Type := CommandId { request_id : RequestId }.

Record MembershipFence : Type := {
  fence_policy_revision : Revision;
  fence_sequencer_head : Sha256Digest
}.

Record MembershipCommandContext : Type := {
  ctx_command_id : MembershipCommandId;
  ctx_idempotency_key_hash : Sha256Digest;
  ctx_scope : GroupScope;
  ctx_actor_identity_id : IdentityId;
  ctx_actor_device_id : DeviceId;
  ctx_join_request_id : JoinRequestId;
  ctx_candidate_identity_id : IdentityId;
  ctx_candidate_device_id : DeviceId;
  ctx_invite_id : InviteCapabilityId;
  ctx_fence : MembershipFence;
  ctx_candidate_key_package_digest : option Sha256Digest
}.

Record JoinRequestCommand : Type := {
  jr_context : MembershipCommandContext;
  jr_request_digest : Sha256Digest
}.

Record ApproveJoinCommand : Type := {
  aj_context : MembershipCommandContext;
  aj_authorization_digest : Sha256Digest;
  aj_request_digest : Sha256Digest
}.

Record MembershipCommitReference : Type := {
  ref_scope : GroupScope;
  ref_command_id : MembershipCommandId;
  ref_request_digest : Sha256Digest;
  ref_committed_digest : Sha256Digest
}.

Inductive MembershipAdmission : Type :=
| Applied (reference : MembershipCommitReference)
| AdmissionAlreadyMember (reference : MembershipCommitReference).

Definition commit_reference (self : MembershipAdmission) : MembershipCommitReference :=
  match self with Applied reference | AdmissionAlreadyMember reference => reference end.

Inductive MembershipRejection : Type := PolicyDenied | StaleFence | AdmissionDenied.

Inductive MembershipCommandPhase : Type :=
| PendingApproval
| PendingCommit
| Reconciling
| Committed (admission : MembershipAdmission)
| Rejected (rejection : MembershipRejection).

Definition is_terminal (self : MembershipCommandPhase) : bool :=
  match self with Committed _ | Rejected _ => true | _ => false end.

Record MembershipReceipt : Type := {
  rc_command_id : MembershipCommandId;
  rc_request_digest : Sha256Digest;
  rc_phase : MembershipCommandPhase
}.

Inductive CandidateMembership : Type :=
| NotMember
| CandidateAlreadyMember (reference : MembershipCommitReference).

Inductive SequencerResolution : Type :=
| ResolutionCommitted (reference : MembershipCommitReference)
| ResolutionRejected (rejection : MembershipRejection)
| Absent
| Unknown.

Record SequencerSubmit : Type := {
  sub_scope : GroupScope;
  sub_command_id : MembershipCommandId;
  sub_request_digest : Sha256Digest;
  sub_join_request_id : JoinRequestId;
  sub_actor_identity_id : IdentityId;
  sub_actor_device_id : DeviceId;
  sub_candidate_identity_id : IdentityId;
  sub_candidate_device_id : DeviceId;
  sub_invite_id : InviteCapabilityId;
  sub_fence : MembershipFence;
  sub_authorization_digest : Sha256Digest
}.

Record SequencerQuery : Type := {
  qry_scope : GroupScope;
  qry_command_id : MembershipCommandId;
  qry_request_digest : Sha256Digest
}.

Inductive SequencerAction : Type :=
| Submit (submit : SequencerSubmit)
| Query (query : SequencerQuery).

(** ** [codec.rs]: command kinds and errors *)

Inductive CommandKind : Type := RequestJoin | ApproveJoin.

Definition code (self : CommandKind) : Z :=
  match self with RequestJoin => 1 | ApproveJoin => 2 end.

Inductive MembershipCommandError : Type :=
| IdempotencyConflict
| CommandIdConflict
| ActorCandidateMismatch
| JoinRequestConflict
| JoinRequestNotFound
| JoinRequestMismatch
| JoinCommitInFlight
| JoinWorkflowTerminal
| CommandNotFound
| CommandNotReady
| CommitReferenceMismatch
| TerminalResolutionConflict
| InvariantViolation.

(** ** [book.rs]: the records of the book *)

Record IdempotencyLookup : Type := {
  il_scope : GroupScope;
  il_actor_identity_id : IdentityId;
  il_idempotency_key_hash : Sha256Digest
}.

Definition IdempotencyLookup_new (context : MembershipCommandContext) : IdempotencyLookup :=
  {| il_scope := context.(ctx_scope);
     il_actor_identity_id := context.(ctx_actor_identity_id);
     il_idempotency_key_hash := context.(ctx_idempotency_key_hash) |}.

Record StoredCommand : Type := {
  sc_kind : CommandKind;
  sc_request_digest : Sha256Digest;
  sc_workflow_id : option JoinRequestId;
  sc_terminal_phase : option MembershipCommandPhase
}.

Definition StoredCommand_workflow (kind : CommandKind) (request_digest : Sha256Digest)
    (workflow_id : JoinRequestId) : StoredCommand :=
  {| sc_kind := kind; sc_request_digest := request_digest;
     sc_workflow_id := Some workflow_id; sc_terminal_phase := None |}.

Definition StoredCommand_terminal (kind : CommandKind) (request_digest : Sha256Digest)
    (terminal_phase : MembershipCommandPhase) : StoredCommand :=
  {| sc_kind := kind; sc_request_digest := request_digest;
     sc_workflow_id := None; sc_terminal_phase := Some terminal_phase |}.

Inductive WorkflowPhase : Type :=
| WPendingApproval
| WPendingCommit (approval_command_id : MembershipCommandId)
    (approval_context : MembershipCommandContext) (authorization_digest : Sha256Digest)
| WReconciling (approval_command_id : MembershipCommandId)
    (approval_context : MembershipCommandContext) (authorization_digest : Sha256Digest)
| WCommitted (admission : MembershipAdmission)
| WRejected (rejection : MembershipRejection).

Definition as_public (self : WorkflowPhase) : MembershipCommandPhase :=
  match self with
  | WPendingApproval => PendingApproval
  | WPendingCommit _ _ _ => PendingCommit
  | WReconciling _ _ _ => Reconciling
  | WCommitted admission => Committed admission
  | WRejected rejection => Rejected rejection
  end.

Record JoinWorkflow : Type := {
  wf_context : MembershipCommandContext;
  wf_phase : WorkflowPhase
}.

Definition JoinWorkflow_pending (context : MembershipCommandContext) : JoinWorkflow :=
  {| wf_context := context; wf_phase := WPendingApproval |}.

(** *** Equality and order *)

Global Instance request_id_inj : Inj (=) (=) request_id.
Proof. intros [x] [y]; simpl; congruence. Qed.
Global Instance MembershipCommandId_eq_dec : EqDecision MembershipCommandId.
Proof. solve_decision. Defined.
Global Program Instance MembershipCommandId_countable : Countable MembershipCommandId :=
  inj_countable' request_id CommandId _.
Next Obligation. by intros []. Qed.
Global Instance MembershipCommandId_ord : Ord MembershipCommandId := ord_by request_id.

(** [#[derive(Ord)]] of [GroupScope]: by variant, then by identifier. *)
Definition scope_key (s : GroupScope) : Z * (ConversationId * ChannelId) :=
  match s with
  | PrivateConversation id => (0, (id, MkPublicId []))
  | ControlledPublicChannel id => (1, (UuidV7 0, id))
  end.
Definition scope_of_key (k : Z * (ConversationId * ChannelId)) : GroupScope :=
  if decide (k.1 = 0) then PrivateConversation k.2.1 else ControlledPublicChannel k.2.2.

Lemma scope_of_scope_key s : scope_of_key (scope_key s) = s.
Proof. by destruct s. Qed.
Global Instance scope_key_inj : Inj (=) (=) scope_key.
Proof. intros s t H. by rewrite <-(scope_of_scope_key s), H, scope_of_scope_key. Qed.
Global Instance GroupScope_countable : Countable GroupScope :=
  inj_countable' scope_key scope_of_key scope_of_scope_key.
Global Instance GroupScope_ord : Ord GroupScope := ord_by scope_key.

Definition lookup_key (l : IdempotencyLookup) : GroupScope * (IdentityId * Sha256Digest) :=
  (l.(il_scope), (l.(il_actor_identity_id), l.(il_idempotency_key_hash))).
Definition lookup_of_key (k : GroupScope * (IdentityId * Sha256Digest)) : IdempotencyLookup :=
  {| il_scope := k.1; il_actor_identity_id := k.2.1; il_idempotency_key_hash := k.2.2 |}.

Lemma lookup_of_lookup_key l : lookup_of_key (lookup_key l) = l.
Proof. by destruct l. Qed.
Global Instance lookup_key_inj : Inj (=) (=) lookup_key.
Proof. intros s t H. by rewrite <-(lookup_of_lookup_key s), H, lookup_of_lookup_key. Qed.
Global Instance IdempotencyLookup_eq_dec : EqDecision IdempotencyLookup.
Proof. solve_decision. Defined.
Global Instance IdempotencyLookup_countable : Countable IdempotencyLookup :=
  inj_countable' lookup_key lookup_of_key lookup_of_lookup_key.
Global Instance IdempotencyLookup_ord : Ord IdempotencyLookup := ord_by lookup_key.

Global Instance CommandKind_eq_dec : EqDecision CommandKind.
Proof. solve_decision. Defined.
Global Instance MembershipFence_eq_dec : EqDecision MembershipFence.
Proof. solve_decision. Defined.
Global Instance MembershipCommandContext_eq_dec : EqDecision MembershipCommandContext.
Proof. solve_decision. Defined.
Global Instance MembershipCommitReference_eq_dec : EqDecision MembershipCommitReference.
Proof. solve_decision. Defined.
Global Instance MembershipAdmission_eq_dec : EqDecision MembershipAdmission.
Proof. solve_decision. Defined.
Global Instance MembershipRejection_eq_dec : EqDecision MembershipRejection.
Proof. solve_decision. Defined.
Global Instance MembershipCommandPhase_eq_dec : EqDecision MembershipCommandPhase.
Proof. solve_decision. Defined.
Global Instance SequencerResolution_eq_dec : EqDecision SequencerResolution.
Proof. solve_decision. Defined.
Global Instance StoredCommand_eq_dec : EqDecision StoredCommand.
Proof. solve_decision. Defined.
Global Instance WorkflowPhase_eq_dec : EqDecision WorkflowPhase.
Proof. solve_decision. Defined.
Global Instance JoinWorkflow_eq_dec : EqDecision JoinWorkflow.
Proof. solve_decision. Defined.

(** *** The book *)

Record MembershipCommandBook : Type := Book {
  commands : gmap MembershipCommandId StoredCommand;
  idempotency : gmap IdempotencyLookup MembershipCommandId;
  workflows : gmap JoinRequestId JoinWorkflow
}.

Global Instance commands_field : Field commands := λ f b,
  Book (f b.(commands)) b.(idempotency) b.(workflows).
Global Instance idempotency_field : Field idempotency := λ f b,
  Book b.(commands) (f b.(idempotency)) b.(workflows).
Global Instance workflows_field : Field workflows := λ f b,
  Book b.(commands) b.(idempotency) (f b.(workflows)).
Global Instance wf_phase_field : Field wf_phase := λ f w,
  {| wf_context := w.(wf_context); wf_phase := f w.(wf_phase) |}.

Notation Res := (result MembershipCommandError) (only parsing).
Notation Cmd := (ST MembershipCommandBook MembershipCommandError) (only parsing).

(** ** [codec.rs]: request digests *)

Section digest.
Context (hyphenated : Z → bytes) (sha256 : bytes → bytes).

Definition uuid_text {k} (id : UuidV7Id k) : CanonicalValue :=
  Text (UuidV7.to_string hyphenated id).
Definition public_text {k} (id : PublicIdOf k) : CanonicalValue :=
  Text (PublicIds.to_string id).

Definition scope_value (scope : GroupScope) : CanonicalValue :=
  let '(kind, identifier) :=
    match scope with
    | PrivateConversation identifier => (1, uuid_text identifier)
    | ControlledPublicChannel identifier => (2, public_text identifier)
    end in
  Map [(Unsigned 1, Unsigned kind); (Unsigned 2, identifier)].

(** The map that [command_digest] builds, and the domain it hashes under. *)
Definition command_fields (kind : CommandKind) (context : MembershipCommandContext)
    (authorization_digest : option Sha256Digest) : list (CanonicalValue * CanonicalValue) :=
  [ (Unsigned 1, Unsigned (code kind));
    (Unsigned 2, uuid_text context.(ctx_command_id).(request_id));
    (Unsigned 3, scope_value context.(ctx_scope));
    (Unsigned 4, public_text context.(ctx_actor_identity_id));
    (Unsigned 5, uuid_text context.(ctx_actor_device_id));
    (Unsigned 6, uuid_text context.(ctx_join_request_id));
    (Unsigned 7, public_text context.(ctx_candidate_identity_id));
    (Unsigned 8, uuid_text context.(ctx_candidate_device_id));
    (Unsigned 9, uuid_text context.(ctx_invite_id));
    (Unsigned 10, Unsigned context.(ctx_fence).(fence_policy_revision));
    (Unsigned 11, Bytes (as_bytes context.(ctx_fence).(fence_sequencer_head)));
    (Unsigned 12, match authorization_digest with
                  | Some digest => Bytes (as_bytes digest)
                  | None => Null
                  end) ] ++
  match context.(ctx_candidate_key_package_digest) with
  | Some candidate_key_package_digest =>
      [(Unsigned 13, Bytes (as_bytes candidate_key_package_digest))]
  | None => []
  end.

Definition command_domain (context : MembershipCommandContext) : bytes :=
  match context.(ctx_candidate_key_package_digest) with
  | Some _ => MEMBERSHIP_COMMAND_REQUEST_V2_HASH_DOMAIN
  | None => MEMBERSHIP_COMMAND_REQUEST_HASH_DOMAIN
  end.

(** [None] is the panic of the [expect]; [transcript_bounded] of
    [MembershipDigest.v] shows that it cannot happen. *)
Definition command_digest (kind : CommandKind) (context : MembershipCommandContext)
    (authorization_digest : option Sha256Digest) : option Sha256Digest :=
  match encode_deterministic_cbor (Map (command_fields kind context authorization_digest)) with
  | Ok bytes => Some (hash_domain sha256 (command_domain context) bytes)
  | Err _ => None
  end.

Definition join_request_digest (context : MembershipCommandContext) : option Sha256Digest :=
  command_digest RequestJoin context None.

Definition JoinRequestCommand_new (context : MembershipCommandContext) :
    option JoinRequestCommand :=
  request_digest ← join_request_digest context;
  Some {| jr_context := context; jr_request_digest := request_digest |}.

Definition ApproveJoinCommand_new (context : MembershipCommandContext)
    (authorization_digest : Sha256Digest) : option ApproveJoinCommand :=
  request_digest ← command_digest ApproveJoin context (Some authorization_digest);
  Some {| aj_context := context; aj_authorization_digest := authorization_digest;
          aj_request_digest := request_digest |}.
End digest.

Definition workflow_context_matches (request candidate : MembershipCommandContext) : bool :=
  bool_decide (request.(ctx_scope) = candidate.(ctx_scope)) &&
  bool_decide (request.(ctx_join_request_id) = candidate.(ctx_join_request_id)) &&
  bool_decide (request.(ctx_candidate_identity_id) = candidate.(ctx_candidate_identity_id)) &&
  bool_decide (request.(ctx_candidate_device_id) = candidate.(ctx_candidate_device_id)) &&
  bool_decide (request.(ctx_invite_id) = candidate.(ctx_invite_id)) &&
  bool_decide (request.(ctx_candidate_key_package_digest) =
               candidate.(ctx_candidate_key_package_digest)).

Definition matches (self : JoinWorkflow) (context : MembershipCommandContext) : bool :=
  workflow_context_matches self.(wf_context) context.

Definition validate_commit_reference (reference : MembershipCommitReference)
    (scope : GroupScope) (command_id : MembershipCommandId)
    (request_digest : Sha256Digest) : Res unit :=
  if decide (reference.(ref_scope) = scope ∧ reference.(ref_command_id) = command_id ∧
             reference.(ref_request_digest) = request_digest)
  then Ok tt else Err CommitReferenceMismatch.

(** ** [book.rs]: the reducer *)

Definition MembershipCommandBook_new : MembershipCommandBook := Book ∅ ∅ ∅.

Definition receipt_for (self : MembershipCommandBook) (command_id : MembershipCommandId) :
    Res MembershipReceipt :=
  command ← ok_or (self.(commands) !! command_id) CommandNotFound;
  phase ← match command.(sc_workflow_id), command.(sc_terminal_phase) with
          | Some workflow_id, None =>
              ok_or ((λ w, as_public w.(wf_phase)) <$> self.(workflows) !! workflow_id)
                InvariantViolation
          | None, Some phase => Ok phase
          | _, _ => Err InvariantViolation
          end;
  Ok {| rc_command_id := command_id;
        rc_request_digest := command.(sc_request_digest);
        rc_phase := phase |}.

Definition receipt (self : MembershipCommandBook) (command_id : MembershipCommandId) :
    Res MembershipReceipt :=
  receipt_for self command_id.

Definition existing_or_conflict (self : MembershipCommandBook)
    (command_id : MembershipCommandId) (request_digest : Sha256Digest)
    (lookup : IdempotencyLookup) : Res (option MembershipReceipt) :=
  match self.(commands) !! command_id with
  | Some existing =>
      reject CommandIdConflict when (existing.(sc_request_digest) ≠ request_digest);;
      Some <$> receipt_for self command_id
  | None =>
      match self.(idempotency) !! lookup with
      | Some existing_id =>
          existing ← ok_or (self.(commands) !! existing_id) InvariantViolation;
          reject IdempotencyConflict when (existing.(sc_request_digest) ≠ request_digest);;
          Some <$> receipt_for self existing_id
      | None => Ok None
      end
  end.

(** [self.commands.insert], [self.idempotency.insert] and
    [self.workflows.insert] *)
Definition put_command (command_id : MembershipCommandId) (c : StoredCommand) : Cmd unit :=
  modify (λ b, b <| commands := <[command_id := c]> b.(commands) |>).
Definition put_idempotency (l : IdempotencyLookup) (command_id : MembershipCommandId) : Cmd unit :=
  modify (λ b, b <| idempotency := <[l := command_id]> b.(idempotency) |>).
Definition put_workflow (workflow_id : JoinRequestId) (w : JoinWorkflow) : Cmd unit :=
  modify (λ b, b <| workflows := <[workflow_id := w]> b.(workflows) |>).

(** The tail call [self.receipt_for(command_id)] *)
Definition return_receipt (command_id : MembershipCommandId) : Cmd MembershipReceipt :=
  self ← get; lift (receipt_for self command_id).

Definition record_join_request (command : JoinRequestCommand)
    (candidate_membership : CandidateMembership) : Cmd MembershipReceipt :=
  let context := command.(jr_context) in
  self ← get;
  existing ← lift (existing_or_conflict self context.(ctx_command_id)
                     command.(jr_request_digest) (IdempotencyLookup_new context));
  match existing with
  | Some receipt => mret receipt
  | None =>
      lift (reject ActorCandidateMismatch when
        (context.(ctx_actor_identity_id) ≠ context.(ctx_candidate_identity_id)));;
      match candidate_membership with
      | CandidateAlreadyMember reference =>
          lift (reject CommitReferenceMismatch when
            (reference.(ref_scope) ≠ context.(ctx_scope)));;
          let phase := Committed (AdmissionAlreadyMember reference) in
          put_command context.(ctx_command_id)
            (StoredCommand_terminal RequestJoin command.(jr_request_digest) phase);;
          put_idempotency (IdempotencyLookup_new context) context.(ctx_command_id);;
          return_receipt context.(ctx_command_id)
      | NotMember =>
          lift (reject JoinRequestConflict when
            (is_Some (self.(workflows) !! context.(ctx_join_request_id))));;
          put_command context.(ctx_command_id)
            (StoredCommand_workflow RequestJoin command.(jr_request_digest)
               context.(ctx_join_request_id));;
          put_idempotency (IdempotencyLookup_new context) context.(ctx_command_id);;
          put_workflow context.(ctx_join_request_id) (JoinWorkflow_pending context);;
          return_receipt context.(ctx_command_id)
      end
  end.

Definition approve_join (command : ApproveJoinCommand)
    (candidate_membership : CandidateMembership) : Cmd MembershipReceipt :=
  let context := command.(aj_context) in
  self ← get;
  existing ← lift (existing_or_conflict self context.(ctx_command_id)
                     command.(aj_request_digest) (IdempotencyLookup_new context));
  match existing with
  | Some receipt => mret receipt
  | None =>
      workflow ← lift (ok_or (self.(workflows) !! context.(ctx_join_request_id))
                         JoinRequestNotFound);
      lift (reject JoinRequestMismatch when (matches workflow context = false));;
      match candidate_membership with
      | CandidateAlreadyMember reference =>
          lift (reject CommitReferenceMismatch when
            (reference.(ref_scope) ≠ context.(ctx_scope)));;
          let phase := Committed (AdmissionAlreadyMember reference) in
          put_command context.(ctx_command_id)
            (StoredCommand_terminal ApproveJoin command.(aj_request_digest) phase);;
          put_idempotency (IdempotencyLookup_new context) context.(ctx_command_id);;
          match workflow.(wf_phase) with
          | WPendingApproval | WPendingCommit _ _ _ | WReconciling _ _ _ =>
              put_workflow context.(ctx_join_request_id)
                (workflow <| wf_phase := WCommitted (AdmissionAlreadyMember reference) |>)
          | WCommitted _ | WRejected _ => mret tt
          end;;
          return_receipt context.(ctx_command_id)
      | NotMember =>
          match workflow.(wf_phase) with
          | WPendingApproval =>
              put_command context.(ctx_command_id)
                (StoredCommand_workflow ApproveJoin command.(aj_request_digest)
                   context.(ctx_join_request_id));;
              put_idempotency (IdempotencyLookup_new context) context.(ctx_command_id);;
              put_workflow context.(ctx_join_request_id)
                (workflow <| wf_phase := WPendingCommit context.(ctx_command_id) context
                                           command.(aj_authorization_digest) |>);;
              return_receipt context.(ctx_command_id)
          | WPendingCommit _ _ _ | WReconciling _ _ _ => throw JoinCommitInFlight
          | WCommitted _ | WRejected _ => throw JoinWorkflowTerminal
          end
      end
  end.

Definition next_sequencer_action (self : MembershipCommandBook)
    (command_id : MembershipCommandId) : Res (option SequencerAction) :=
  command ← ok_or (self.(commands) !! command_id) CommandNotFound;
  match command.(sc_workflow_id) with
  | None => Ok None
  | Some workflow_id =>
      if decide (command.(sc_kind) ≠ ApproveJoin) then Ok None else
      workflow ← ok_or (self.(workflows) !! workflow_id) InvariantViolation;
      Ok match workflow.(wf_phase) with
         | WPendingCommit approval_command_id approval_context authorization_digest =>
             if decide (approval_command_id = command_id) then
               Some (Submit
                 {| sub_scope := approval_context.(ctx_scope);
                    sub_command_id := command_id;
                    sub_request_digest := command.(sc_request_digest);
                    sub_join_request_id := approval_context.(ctx_join_request_id);
                    sub_actor_identity_id := approval_context.(ctx_actor_identity_id);
                    sub_actor_device_id := approval_context.(ctx_actor_device_id);
                    sub_candidate_identity_id := approval_context.(ctx_candidate_identity_id);
                    sub_candidate_device_id := approval_context.(ctx_candidate_device_id);
                    sub_invite_id := approval_context.(ctx_invite_id);
                    sub_fence := approval_context.(ctx_fence);
                    sub_authorization_digest := authorization_digest |})
             else None
         | WReconciling approval_command_id _ _ =>
             if decide (approval_command_id = command_id) then
               Some (Query {| qry_scope := workflow.(wf_context).(ctx_scope);
                              qry_command_id := command_id;
                              qry_request_digest := command.(sc_request_digest) |})
             else None
         | _ => None
         end
  end.

(** The inner match of [observe_sequencer_resolution] for the command that
    owns the intent; [reconciling] is [matches!(workflow.phase, Reconciling { .. })]. *)
Definition resolve_intent (reconciling : bool) (command_id : MembershipCommandId)
    (approval_context : MembershipCommandContext) (authorization_digest : Sha256Digest)
    (scope : GroupScope) (request_digest : Sha256Digest)
    (resolution : SequencerResolution) : Res WorkflowPhase :=
  match resolution with
  | Unknown => Ok (WReconciling command_id approval_context authorization_digest)
  | Absent =>
      if reconciling then Ok (WPendingCommit command_id approval_context authorization_digest)
      else Err CommandNotReady
  | ResolutionRejected rejection => Ok (WRejected rejection)
  | ResolutionCommitted reference =>
      validate_commit_reference reference scope command_id request_digest;;
      Ok (WCommitted (Applied reference))
  end.

(** [inl] is an early [return] of the receipt, [inr] the next phase. *)
Definition resolve_phase (command_id : MembershipCommandId) (command : StoredCommand)
    (workflow : JoinWorkflow) (resolution : SequencerResolution) : Res (unit + WorkflowPhase) :=
  match workflow.(wf_phase) with
  | WPendingCommit approval_command_id approval_context authorization_digest =>
      if decide (approval_command_id = command_id) then
        inr <$> resolve_intent false command_id approval_context authorization_digest
                  workflow.(wf_context).(ctx_scope) command.(sc_request_digest) resolution
      else Err CommandNotReady
  | WReconciling approval_command_id approval_context authorization_digest =>
      if decide (approval_command_id = command_id) then
        inr <$> resolve_intent true command_id approval_context authorization_digest
                  workflow.(wf_context).(ctx_scope) command.(sc_request_digest) resolution
      else Err CommandNotReady
  | WCommitted admission =>
      if decide (resolution = ResolutionCommitted (commit_reference admission))
      then Ok (inl tt) else Err TerminalResolutionConflict
  | WRejected rejection =>
      if decide (resolution = ResolutionRejected rejection)
      then Ok (inl tt) else Err TerminalResolutionConflict
  | WPendingApproval => Err CommandNotReady
  end.

Definition observe_sequencer_resolution (command_id : MembershipCommandId)
    (resolution : SequencerResolution) : Cmd MembershipReceipt :=
  self ← get;
  command ← lift (ok_or (self.(commands) !! command_id) CommandNotFound);
  lift (reject CommandNotReady when (command.(sc_kind) ≠ ApproveJoin));;
  workflow_id ← lift (ok_or command.(sc_workflow_id) CommandNotReady);
  workflow ← lift (ok_or (self.(workflows) !! workflow_id) InvariantViolation);
  next ← lift (resolve_phase command_id command workflow resolution);
  match next with
  | inl _ => return_receipt command_id
  | inr next_phase =>
      put_workflow workflow_id (workflow <| wf_phase := next_phase |>);;
      return_receipt command_id
  end.

Definition reject_locally (command_id : MembershipCommandId)
    (rejection : MembershipRejection) : Cmd MembershipReceipt :=
  self ← get;
  command ← lift (ok_or (self.(commands) !! command_id) CommandNotFound);
  workflow_id ← lift (ok_or command.(sc_workflow_id) CommandNotReady);
  workflow ← lift (ok_or (self.(workflows) !! workflow_id) InvariantViolation);
  match command.(sc_kind), workflow.(wf_phase) with
  | RequestJoin, WPendingApproval =>
      modify (λ b, b <| workflows := delete workflow_id b.(workflows) |>);;
      put_command command_id
        (StoredCommand_terminal RequestJoin command.(sc_request_digest) (Rejected rejection));;
      return_receipt command_id
  | ApproveJoin, WPendingCommit approval_command_id _ _ =>
      lift (reject CommandNotReady when (approval_command_id ≠ command_id));;
      put_workflow workflow_id (workflow <| wf_phase := WRejected rejection |>);;
      return_receipt command_id
  | _, _ => throw CommandNotReady
  end.
