(* ===== verification/MembershipInv.v ===== *)
(** * Membership commands: the reachable books

    The operations of [MembershipCommand.v] as labelled steps, the state changes
    they make ([change]), the invariant of every reachable book ([wf]) and what
    a sequence of steps can do to a receipt and to the Sequencer intent. *)

From S2P Require Import Prelude Domain GroupPolicy CanonicalCbor WirePrimitives.
From S2P Require Import MembershipCommand.

(** ** Operations and reachability *)

Inductive BookOp : Type :=
| OpRecord (command : JoinRequestCommand) (membership : CandidateMembership)
| OpApprove (command : ApproveJoinCommand) (membership : CandidateMembership)
| OpObserve (command_id : MembershipCommandId) (resolution : SequencerResolution)
| OpReject (command_id : MembershipCommandId) (rejection : MembershipRejection).

Definition run_op (op : BookOp) : Cmd MembershipReceipt :=
  match op with
  | OpRecord command membership => record_join_request command membership
  | OpApprove command membership => approve_join command membership
  | OpObserve command_id resolution => observe_sequencer_resolution command_id resolution
  | OpReject command_id rejection => reject_locally command_id rejection
  end.

(** The stored commands that the constructors build. *)
Notation linked kind digest w := (StoredCommand_workflow kind digest w).
Notation closed kind digest phase := (StoredCommand_terminal kind digest phase).

Definition set_phase (w : JoinRequestId) (wf : JoinWorkflow) (p : WorkflowPhase)
    (b : MembershipCommandBook) : MembershipCommandBook :=
  Book b.(commands) b.(idempotency) (<[w := wf <| wf_phase := p |>]> b.(workflows)).

Definition add_command (ctx : MembershipCommandContext) (sc : StoredCommand)
    (b : MembershipCommandBook) : MembershipCommandBook :=
  Book (<[ctx.(ctx_command_id) := sc]> b.(commands))
    (<[IdempotencyLookup_new ctx := ctx.(ctx_command_id)]> b.(idempotency)) b.(workflows).

(** Neither the command identity nor the idempotency key is taken. *)
Definition unused (b : MembershipCommandBook) (ctx : MembershipCommandContext) : Prop :=
  b.(commands) !! ctx.(ctx_command_id) = None ∧
  b.(idempotency) !! IdempotencyLookup_new ctx = None.

Definition open_phase (p : WorkflowPhase) : Prop :=
  match p with WCommitted _ | WRejected _ => False | _ => True end.
Global Instance open_phase_dec p : Decision (open_phase p).
Proof. destruct p; apply _. Defined.

(** Everything an operation can do to the book. *)
Inductive change (b : MembershipCommandBook) : BookOp → MembershipCommandBook → Prop :=
| ch_record_member cmd ref :
    unused b cmd.(jr_context) →
    cmd.(jr_context).(ctx_actor_identity_id) = cmd.(jr_context).(ctx_candidate_identity_id) →
    ref.(ref_scope) = cmd.(jr_context).(ctx_scope) →
    change b (OpRecord cmd (CandidateAlreadyMember ref))
      (add_command cmd.(jr_context)
         (closed RequestJoin cmd.(jr_request_digest) (Committed (AdmissionAlreadyMember ref))) b)
| ch_record cmd :
    unused b cmd.(jr_context) →
    cmd.(jr_context).(ctx_actor_identity_id) = cmd.(jr_context).(ctx_candidate_identity_id) →
    b.(workflows) !! cmd.(jr_context).(ctx_join_request_id) = None →
    change b (OpRecord cmd NotMember)
      (set_phase cmd.(jr_context).(ctx_join_request_id)
         (JoinWorkflow_pending cmd.(jr_context)) WPendingApproval
         (add_command cmd.(jr_context)
            (linked RequestJoin cmd.(jr_request_digest)
               cmd.(jr_context).(ctx_join_request_id)) b))
| ch_approve_member cmd ref wf p :
    unused b cmd.(aj_context) →
    b.(workflows) !! cmd.(aj_context).(ctx_join_request_id) = Some wf →
    matches wf cmd.(aj_context) = true →
    ref.(ref_scope) = cmd.(aj_context).(ctx_scope) →
    p = (if decide (open_phase wf.(wf_phase)) then WCommitted (AdmissionAlreadyMember ref)
         else wf.(wf_phase)) →
    change b (OpApprove cmd (CandidateAlreadyMember ref))
      (set_phase cmd.(aj_context).(ctx_join_request_id) wf p
         (add_command cmd.(aj_context)
            (closed ApproveJoin cmd.(aj_request_digest)
               (Committed (AdmissionAlreadyMember ref))) b))
| ch_approve cmd wf :
    unused b cmd.(aj_context) →
    b.(workflows) !! cmd.(aj_context).(ctx_join_request_id) = Some wf →
    matches wf cmd.(aj_context) = true →
    wf.(wf_phase) = WPendingApproval →
    change b (OpApprove cmd NotMember)
      (set_phase cmd.(aj_context).(ctx_join_request_id) wf
         (WPendingCommit cmd.(aj_context).(ctx_command_id) cmd.(aj_context)
            cmd.(aj_authorization_digest))
         (add_command cmd.(aj_context)
            (linked ApproveJoin cmd.(aj_request_digest)
               cmd.(aj_context).(ctx_join_request_id)) b))
| ch_observe c res sc w wf ctx auth reconciling p :
    b.(commands) !! c = Some sc → sc.(sc_kind) = ApproveJoin →
    sc.(sc_workflow_id) = Some w → b.(workflows) !! w = Some wf →
    wf.(wf_phase) = (if reconciling : bool then WReconciling c ctx auth
                     else WPendingCommit c ctx auth) →
    resolve_intent reconciling c ctx auth wf.(wf_context).(ctx_scope)
      sc.(sc_request_digest) res = Ok p →
    change b (OpObserve c res) (set_phase w wf p b)
| ch_reject_request c rej sc w wf :
    b.(commands) !! c = Some sc → sc.(sc_kind) = RequestJoin →
    sc.(sc_workflow_id) = Some w → b.(workflows) !! w = Some wf →
    wf.(wf_phase) = WPendingApproval →
    change b (OpReject c rej)
      (Book (<[c := closed RequestJoin sc.(sc_request_digest) (Rejected rej)]> b.(commands))
         b.(idempotency) (delete w b.(workflows)))
| ch_reject_intent c rej sc w wf ctx auth :
    b.(commands) !! c = Some sc → sc.(sc_kind) = ApproveJoin →
    sc.(sc_workflow_id) = Some w → b.(workflows) !! w = Some wf →
    wf.(wf_phase) = WPendingCommit c ctx auth →
    change b (OpReject c rej) (set_phase w wf (WRejected rej) b).

Lemma set_same_phase w wf b :
  b.(workflows) !! w = Some wf → set_phase w wf wf.(wf_phase) b = b.
Proof.
  intros Hw. unfold set_phase. destruct b as [cs ids ws], wf; simpl in *.
  f_equal. by apply insert_id.
Qed.

(** What [existing_or_conflict] answers when nothing is retained. *)
Lemma existing_None b ctx d :
  existing_or_conflict b ctx.(ctx_command_id) d (IdempotencyLookup_new ctx) = Ok None ↔
  unused b ctx.
Proof.
  unfold existing_or_conflict, unused.
  destruct (commands b !! _) as [sc|] eqn:Hc.
  { split; [|naive_solver]. unfold reject_if. case_decide; [done|].
    cbn. by destruct (receipt_for b _). }
  destruct (idempotency b !! _) as [c|] eqn:Hi; [|naive_solver].
  split; [|naive_solver]. destruct (commands b !! c); [|done]. cbn.
  unfold reject_if. case_decide; [done|]. cbn. by destruct (receipt_for b _).
Qed.

(** The command an operation is about. *)
Definition op_id (op : BookOp) : MembershipCommandId :=
  match op with
  | OpRecord command _ => command.(jr_context).(ctx_command_id)
  | OpApprove command _ => command.(aj_context).(ctx_command_id)
  | OpObserve command_id _ | OpReject command_id _ => command_id
  end.

Lemma existing_Some b c d l rc :
  existing_or_conflict b c d l = Ok (Some rc) → ∃ c', receipt_for b c' = Ok rc.
Proof.
  unfold existing_or_conflict. intros H. repeat case_match; try done.
  - res_inv H. destruct (receipt_for b c) eqn:?; naive_solver.
  - res_inv H. destruct (receipt_for b _) eqn:?; naive_solver.
Qed.

Lemma return_receipt_run c b r b' :
  return_receipt c b = (r, b') → r = receipt_for b c ∧ b' = b.
Proof. by intros [= <- <-]. Qed.

(** Every record that a read follows a link to is there. *)
Record sound_reads (b : MembershipCommandBook) : Prop := {
  sr_receipt c : is_Some (b.(commands) !! c) → ∃ r, receipt_for b c = Ok r;
  sr_key l c : b.(idempotency) !! l = Some c → is_Some (b.(commands) !! c);
  sr_workflow c sc w : b.(commands) !! c = Some sc → sc.(sc_workflow_id) = Some w →
    b.(workflows) !! w ≠ None
}.

Definition outcome (op : BookOp) (b : MembershipCommandBook)
    (r : Res MembershipReceipt) (b' : MembershipCommandBook) : Prop :=
  (b' = b ∧ (∀ rc, r = Ok rc → ∃ c, receipt_for b c = Ok rc) ∧
   (sound_reads b → r ≠ Err InvariantViolation)) ∨
  (change b op b' ∧ r = receipt_for b' (op_id op)).

Lemma outcome_err op b e :
  (sound_reads b → e ≠ InvariantViolation) → outcome op b (Err e) b.
Proof. left. split_and!; [done|by intros|naive_solver]. Qed.

Lemma outcome_replay op b rc c : receipt_for b c = Ok rc → outcome op b (Ok rc) b.
Proof. left. split_and!; [done| |done]. intros ? [= <-]. eauto. Qed.

Lemma outcome_read op b c :
  is_Some (b.(commands) !! c) → outcome op b (receipt_for b c) b.
Proof.
  intros Hc. destruct (receipt_for b c) eqn:Hr; [by eapply outcome_replay|].
  apply outcome_err. intros Hb. destruct (sr_receipt _ Hb c Hc). congruence.
Qed.

Lemma existing_sound b c d l e :
  existing_or_conflict b c d l = Err e → sound_reads b → e ≠ InvariantViolation.
Proof.
  intros Hex Hb ->. revert Hex. unfold existing_or_conflict.
  destruct (commands b !! c) as [sc|] eqn:Hc.
  { unfold reject_if. case_decide; [done|]. cbn.
    destruct (sr_receipt _ Hb c) as [r ->]; [by rewrite Hc|done]. }
  destruct (idempotency b !! l) as [c'|] eqn:Hl; [|done].
  pose proof (sr_key _ Hb _ _ Hl) as [sc Hsc]. rewrite Hsc. cbn.
  unfold reject_if. case_decide; [done|]. cbn.
  destruct (sr_receipt _ Hb c') as [r ->]; [by rewrite Hsc|done].
Qed.

Lemma resolve_intent_err rc c ctx auth s d res e :
  resolve_intent rc c ctx auth s d res = Err e → e ≠ InvariantViolation.
Proof.
  destruct res; simpl; [|by intros ?|by destruct rc; intros; simplify_eq|by intros ?].
  unfold validate_commit_reference. by case_decide; cbn; intros; simplify_eq.
Qed.

#[local] Hint Extern 1 (sound_reads _ → _ ≠ InvariantViolation) =>
  first [by intros _ | eapply existing_sound; eassumption
        | intros _; eapply resolve_intent_err; eassumption
        | let Hb := fresh in intros Hb; by edestruct (sr_workflow _ Hb); eauto] : core.
#[local] Hint Resolve outcome_err outcome_replay : core.

Lemma record_outcome cmd m b r b' :
  record_join_request cmd m b = (r, b') → outcome (OpRecord cmd m) b r b'.
Proof.
  unfold record_join_request. intros H. cbv [mbind ST_bind get lift] in H.
  destruct (existing_or_conflict _ _ _ _) as [[rc|]|e] eqn:Hex; simplify_eq; auto.
  { apply existing_Some in Hex as [c Hc]. cbv [mret ST_ret] in H. simplify_eq. eauto. }
  apply existing_None in Hex. unfold reject_if in H. case_decide as Hact; simplify_eq; auto.
  try apply dec_stable in Hact. destruct m as [|ref].
  - case_decide as Hw; simplify_eq; auto. apply eq_None_not_Some in Hw.
    apply return_receipt_run in H as [-> ->]. right. split; [by constructor|done].
  - case_decide as Hs; simplify_eq; auto. try apply dec_stable in Hs.
    apply return_receipt_run in H as [-> ->]. right. split; [by constructor|done].
Qed.

Lemma approve_outcome cmd m b r b' :
  approve_join cmd m b = (r, b') → outcome (OpApprove cmd m) b r b'.
Proof.
  unfold approve_join. intros H. cbv [mbind ST_bind get lift] in H.
  destruct (existing_or_conflict _ _ _ _) as [[rc|]|e] eqn:Hex; simplify_eq; auto.
  { apply existing_Some in Hex as [c Hc]. cbv [mret ST_ret] in H. simplify_eq. eauto. }
  apply existing_None in Hex.
  destruct (workflows b !! _) as [wf|] eqn:Hw; cbn in H; simplify_eq; auto.
  unfold reject_if in H. case_decide as Hm; simplify_eq; auto.
  apply not_false_is_true in Hm. destruct m as [|ref].
  - destruct (wf_phase wf) eqn:Hp; cbv [throw] in H; simplify_eq/=; auto.
    apply return_receipt_run in H as [-> ->]. right. split; [by eapply ch_approve|done].
  - case_decide as Hs; simplify_eq; auto. try apply dec_stable in Hs.
    assert (∀ p, p = (if decide (open_phase wf.(wf_phase))
                      then WCommitted (AdmissionAlreadyMember ref) else wf.(wf_phase)) →
      b' = set_phase cmd.(aj_context).(ctx_join_request_id) wf p
             (add_command cmd.(aj_context) (closed ApproveJoin cmd.(aj_request_digest)
               (Committed (AdmissionAlreadyMember ref))) b) ∧
      r = receipt_for b' cmd.(aj_context).(ctx_command_id)) as Hb.
    { intros p ->. pose proof (f_equal workflows (set_same_phase _ _ _ Hw)) as Hsame.
      unfold set_phase in Hsame. cbn [workflows] in Hsame.
      destruct (wf_phase wf) eqn:Hp; apply return_receipt_run in H as [-> ->];
        (split; [|done]); case_decide as Ho; cbn in Ho; try done;
        unfold set_phase, add_command; cbn [commands idempotency workflows]; by rewrite Hsame. }
    destruct (Hb _ eq_refl) as [-> ->]. right. split; [by eapply ch_approve_member|done].
Qed.

Lemma observe_outcome c res b r b' :
  observe_sequencer_resolution c res b = (r, b') → outcome (OpObserve c res) b r b'.
Proof.
  unfold observe_sequencer_resolution. intros H. cbv [mbind ST_bind get lift] in H.
  destruct (commands b !! c) as [sc|] eqn:Hc; cbn in H; simplify_eq; auto.
  unfold reject_if in H. case_decide as Hk; simplify_eq; auto. try apply dec_stable in Hk.
  destruct (sc_workflow_id sc) as [w|] eqn:Hid; cbn in H; simplify_eq; auto.
  destruct (workflows b !! w) as [wf|] eqn:Hw; cbn in H; simplify_eq; auto.
  unfold resolve_phase in H.
  destruct (wf_phase wf) as [|a ctx auth|a ctx auth|adm|rej] eqn:Hp; simplify_eq; auto.
  - case_decide; simplify_eq; auto.
    destruct (resolve_intent _ _ _ _ _ _ _) eqn:Hr; simplify_eq/=; auto.
    apply return_receipt_run in H as [-> ->]. right. split; [|done]. by eapply (ch_observe b c res sc w wf ctx auth false).
  - case_decide; simplify_eq; auto.
    destruct (resolve_intent _ _ _ _ _ _ _) eqn:Hr; simplify_eq/=; auto.
    apply return_receipt_run in H as [-> ->]. right. split; [|done]. by eapply (ch_observe b c res sc w wf ctx auth true).
  - case_decide; simplify_eq/=; auto. apply return_receipt_run in H as [-> ->].
    apply outcome_read. by rewrite Hc.
  - case_decide; simplify_eq/=; auto. apply return_receipt_run in H as [-> ->].
    apply outcome_read. by rewrite Hc.
Qed.

Lemma reject_outcome c rej b r b' :
  reject_locally c rej b = (r, b') → outcome (OpReject c rej) b r b'.
Proof.
  unfold reject_locally. intros H. cbv [mbind ST_bind get lift] in H.
  destruct (commands b !! c) as [sc|] eqn:Hc; cbn in H; simplify_eq; auto.
  destruct (sc_workflow_id sc) as [w|] eqn:Hid; cbn in H; simplify_eq; auto.
  destruct (workflows b !! w) as [wf|] eqn:Hw; cbn in H; simplify_eq; auto.
  unfold reject_if in H.
  destruct (sc_kind sc) eqn:Hk, (wf_phase wf) as [|a ctx auth| | |] eqn:Hp;
    cbv [throw] in H; simplify_eq/=; auto.
  - apply return_receipt_run in H as [-> ->]. right. split; [|done].
    by apply (ch_reject_request b c rej sc w wf).
  - case_decide; simplify_eq/=; auto. apply return_receipt_run in H as [-> ->].
    right. split; [|done].
    by eapply ch_reject_intent.
Qed.

Lemma run_op_outcome op b r b' : run_op op b = (r, b') → outcome op b r b'.
Proof.
  destruct op; simpl;
    auto using record_outcome, approve_outcome, observe_outcome, reject_outcome.
Qed.

(** ** The invariant *)

Section invariant.
Context (hyphenated : Z → bytes) (sha256 : bytes → bytes).
Local Notation join_digest := (join_request_digest hyphenated sha256).
Local Notation approval_digest ctx auth :=
  (command_digest hyphenated sha256 ApproveJoin ctx (Some auth)).

(** Operations whose command value was built by its constructor. *)
Definition authored (op : BookOp) : Prop :=
  match op with
  | OpRecord cmd _ => JoinRequestCommand_new hyphenated sha256 cmd.(jr_context) = Some cmd
  | OpApprove cmd _ =>
      ApproveJoinCommand_new hyphenated sha256 cmd.(aj_context)
        cmd.(aj_authorization_digest) = Some cmd
  | _ => True
  end.

Inductive steps : MembershipCommandBook → list BookOp → MembershipCommandBook → Prop :=
| steps_nil b : steps b [] b
| steps_cons b op r b1 ops b2 :
    authored op → run_op op b = (r, b1) → steps b1 ops b2 → steps b (op :: ops) b2.

Definition reachable (b : MembershipCommandBook) : Prop :=
  ∃ ops, steps MembershipCommandBook_new ops b.

(** A command record is linked to a workflow or has its own final disposition. *)
Inductive command_shape : StoredCommand → Prop :=
| shape_linked kind d w : command_shape (linked kind d w)
| shape_member kind d ref :
    command_shape (closed kind d (Committed (AdmissionAlreadyMember ref)))
| shape_rejected d rej : command_shape (closed RequestJoin d (Rejected rej)).

Definition command_scope (b : MembershipCommandBook) (sc : StoredCommand) : option GroupScope :=
  match sc.(sc_workflow_id), sc.(sc_terminal_phase) with
  | Some w, _ => (λ wf, wf.(wf_context).(ctx_scope)) <$> b.(workflows) !! w
  | None, Some (Committed adm) => Some (commit_reference adm).(ref_scope)
  | None, _ => None
  end.

(** What a workflow's phase says about the command records. *)
Definition phase_ok (cs : gmap MembershipCommandId StoredCommand) (w : JoinRequestId)
    (ctx : MembershipCommandContext) (p : WorkflowPhase) : Prop :=
  match p with
  | WPendingApproval => ∀ c d, cs !! c ≠ Some (linked ApproveJoin d w)
  | WPendingCommit a actx auth | WReconciling a actx auth =>
      workflow_context_matches ctx actx = true ∧ actx.(ctx_command_id) = a ∧
      ∃ d, cs !! a = Some (linked ApproveJoin d w) ∧ approval_digest actx auth = Some d
  | WCommitted (Applied ref) =>
      ref.(ref_scope) = ctx.(ctx_scope) ∧
      cs !! ref.(ref_command_id) = Some (linked ApproveJoin ref.(ref_request_digest) w)
  | WCommitted (AdmissionAlreadyMember ref) =>
      ref.(ref_scope) = ctx.(ctx_scope) ∧
      ∃ c d, cs !! c = Some (closed ApproveJoin d (Committed (AdmissionAlreadyMember ref)))
  | WRejected _ => ∃ a d, cs !! a = Some (linked ApproveJoin d w)
  end.

Record workflow_ok (b : MembershipCommandBook) (w : JoinRequestId) (wf : JoinWorkflow) : Prop := {
  wo_id : wf.(wf_context).(ctx_join_request_id) = w;
  wo_self : wf.(wf_context).(ctx_actor_identity_id) = wf.(wf_context).(ctx_candidate_identity_id);
  wo_request : ∃ d, join_digest wf.(wf_context) = Some d ∧
    b.(commands) !! wf.(wf_context).(ctx_command_id) = Some (linked RequestJoin d w);
  wo_key : b.(idempotency) !! IdempotencyLookup_new wf.(wf_context) =
    Some wf.(wf_context).(ctx_command_id);
  wo_phase : phase_ok b.(commands) w wf.(wf_context) wf.(wf_phase)
}.

Record wf (b : MembershipCommandBook) : Prop := {
  inv_key_command l c : b.(idempotency) !! l = Some c → is_Some (b.(commands) !! c);
  inv_command_key c sc : b.(commands) !! c = Some sc → ∃ l, b.(idempotency) !! l = Some c;
  inv_key_inj l1 l2 c :
    b.(idempotency) !! l1 = Some c → b.(idempotency) !! l2 = Some c → l1 = l2;
  inv_key_scope l c sc s :
    b.(idempotency) !! l = Some c → b.(commands) !! c = Some sc →
    command_scope b sc = Some s → l.(il_scope) = s;
  inv_shape c sc : b.(commands) !! c = Some sc → command_shape sc;
  inv_linked c kind d w :
    b.(commands) !! c = Some (linked kind d w) → is_Some (b.(workflows) !! w);
  inv_one_request c d w f :
    b.(commands) !! c = Some (linked RequestJoin d w) → b.(workflows) !! w = Some f →
    f.(wf_context).(ctx_command_id) = c;
  inv_one_approval c1 c2 d1 d2 w :
    b.(commands) !! c1 = Some (linked ApproveJoin d1 w) →
    b.(commands) !! c2 = Some (linked ApproveJoin d2 w) → c1 = c2;
  inv_workflow w f : b.(workflows) !! w = Some f → workflow_ok b w f
}.

Lemma wf_new : wf MembershipCommandBook_new.
Proof. split; intros *; simpl; rewrite lookup_empty; done. Qed.

(** *** Adding a command

    The clauses about command records and replay keys, for any workflows. *)
Record keyed (b : MembershipCommandBook) : Prop := {
  kd_key_command l c : b.(idempotency) !! l = Some c → is_Some (b.(commands) !! c);
  kd_command_key c sc : b.(commands) !! c = Some sc → ∃ l, b.(idempotency) !! l = Some c;
  kd_key_inj l1 l2 c :
    b.(idempotency) !! l1 = Some c → b.(idempotency) !! l2 = Some c → l1 = l2
}.

Lemma wf_keyed b : wf b → keyed b.
Proof. intros []. by split. Qed.

Lemma keyed_add b ctx sc :
  keyed b → unused b ctx → keyed (add_command ctx sc b).
Proof.
  intros [H1 H2 H3] [Hc Hl]. split; simpl.
  - intros l c. rewrite !lookup_insert_Some. intros [[<- <-]|[_ Hlc]].
    + rewrite lookup_insert_eq. eauto.
    + destruct (H1 _ _ Hlc) as [sc' Hsc']. destruct (decide (ctx_command_id ctx = c)) as [<-|].
      * rewrite lookup_insert_eq. eauto.
      * rewrite lookup_insert_ne by done. eauto.
  - intros c sc'. rewrite lookup_insert_Some. intros [[<- <-]|[Hne Hcc]].
    + exists (IdempotencyLookup_new ctx). apply lookup_insert_eq.
    + destruct (H2 _ _ Hcc) as [l Hll]. exists l. rewrite lookup_insert_ne; [done|].
      intros <-. congruence.
  - intros l1 l2 c. rewrite !lookup_insert_Some.
    intros [[<- <-]|[? H1']] [[<- ?]|[? H2']]; try done.
    + destruct (H1 _ _ H2'). congruence.
    + subst. destruct (H1 _ _ H1'). congruence.
    + by eapply H3.
Qed.

Lemma phase_ok_add cs c sc w ctx p :
  cs !! c = None → (∀ d, sc ≠ linked ApproveJoin d w) →
  phase_ok cs w ctx p → phase_ok (<[c := sc]> cs) w ctx p.
Proof.
  intros Hc Hsc.
  assert (∀ c' sc', cs !! c' = Some sc' → <[c := sc]> cs !! c' = Some sc') as Hold.
  { intros c' sc' Hc'. rewrite lookup_insert_ne; [done|]. intros <-. congruence. }
  destruct p as [|a actx auth|a actx auth|[ref|ref]|rej]; simpl.
  - intros Hall c' d. rewrite lookup_insert_Some. naive_solver.
  - naive_solver.
  - naive_solver.
  - naive_solver.
  - intros (? & c' & d & ?). split; [done|]. exists c', d. auto.
  - intros (c' & d & ?). exists c', d. auto.
Qed.

Lemma workflow_ok_add b ctx sc w f :
  keyed b → unused b ctx → (∀ d, sc ≠ linked ApproveJoin d w) →
  workflow_ok b w f → workflow_ok (add_command ctx sc b) w f.
Proof.
  intros Hk [Hc Hl] Hsc [H1 H2 (d & Hd & Hreq) H4 H5]. split; simpl; try done.
  - exists d. split; [done|]. rewrite lookup_insert_ne; [done|]. intros Heq. congruence.
  - rewrite lookup_insert_ne; [done|]. intros Heq. congruence.
  - by apply phase_ok_add.
Qed.

Lemma workflow_ok_commands cs i ws ws' w f :
  workflow_ok (Book cs i ws) w f → workflow_ok (Book cs i ws') w f.
Proof. intros []. by split. Qed.

(** A command that is not linked to a workflow. *)
Lemma wf_add_closed b ctx sc :
  wf b → unused b ctx → command_shape sc → sc.(sc_workflow_id) = None →
  (∀ s, command_scope b sc = Some s → ctx.(ctx_scope) = s) →
  wf (add_command ctx sc b).
Proof.
  intros Hwf Hun Hsh Hnone Hscope. pose proof (keyed_add b ctx sc (wf_keyed _ Hwf) Hun) as [].
  assert (∀ kind d w c, commands (add_command ctx sc b) !! c = Some (linked kind d w) →
    commands b !! c = Some (linked kind d w)) as Hlink.
  { intros kind d w c. simpl. rewrite lookup_insert_Some. intros [[_ ->]|[_ ?]]; done. }
  split; try done.
  - intros l c sc' s. simpl. rewrite !lookup_insert_Some.
    intros [[<- <-]|[Hl Hlc]] [[Hc <-]|[Hc Hcc]] Hs; try done.
    + by apply Hscope.
    + subst. destruct Hun as [Hun _]. destruct (inv_key_command _ Hwf _ _ Hlc). congruence.
    + by eapply (inv_key_scope _ Hwf).
  - intros c sc'. simpl. rewrite lookup_insert_Some. intros [[_ <-]|[_ ?]]; [done|].
    by eapply (inv_shape _ Hwf).
  - intros c kind d w Hc%Hlink. by eapply (inv_linked _ Hwf).
  - intros c d w f Hc%Hlink. by eapply (inv_one_request _ Hwf).
  - intros c1 c2 d1 d2 w H1%Hlink H2%Hlink. by eapply (inv_one_approval _ Hwf).
  - intros w f Hw. apply workflow_ok_add; [by apply wf_keyed|done| |by apply (inv_workflow _ Hwf)].
    intros d ->. done.
Qed.

Lemma command_scope_set_phase b w f p sc :
  b.(workflows) !! w = Some f → command_scope (set_phase w f p b) sc = command_scope b sc.
Proof.
  intros Hw. unfold command_scope. destruct (sc_workflow_id sc) as [w'|]; [|done]. simpl.
  destruct (decide (w = w')) as [<-|]; [by rewrite lookup_insert_eq, Hw|].
  by rewrite lookup_insert_ne.
Qed.

(** A workflow that moves to another phase. *)
Lemma wf_set_phase b w f p :
  wf b → b.(workflows) !! w = Some f → phase_ok b.(commands) w f.(wf_context) p →
  wf (set_phase w f p b).
Proof.
  intros Hwf Hw Hp. destruct (Hwf). split; try done.
  - intros l c sc s Hl Hc. rewrite command_scope_set_phase by done. by apply (inv_key_scope0 l c).
  - intros c kind d w' Hc. simpl. destruct (decide (w = w')) as [<-|].
    + rewrite lookup_insert_eq. eauto.
    + rewrite lookup_insert_ne by done. by eapply inv_linked0.
  - intros c d w' f' Hc. simpl. rewrite lookup_insert_Some. intros [[<- <-]|[_ Hw']].
    + exact (inv_one_request0 _ _ _ _ Hc Hw).
    + by eapply inv_one_request0.
  - intros w' f'. simpl. rewrite lookup_insert_Some. intros [[<- <-]|[_ Hw']].
    + destruct (inv_workflow0 _ _ Hw). by split.
    + destruct (inv_workflow0 _ _ Hw'). by split.
Qed.

Lemma matches_spec ctx ctx' :
  workflow_context_matches ctx ctx' = true ↔
  ctx.(ctx_scope) = ctx'.(ctx_scope) ∧
  ctx.(ctx_join_request_id) = ctx'.(ctx_join_request_id) ∧
  ctx.(ctx_candidate_identity_id) = ctx'.(ctx_candidate_identity_id) ∧
  ctx.(ctx_candidate_device_id) = ctx'.(ctx_candidate_device_id) ∧
  ctx.(ctx_invite_id) = ctx'.(ctx_invite_id) ∧
  ctx.(ctx_candidate_key_package_digest) = ctx'.(ctx_candidate_key_package_digest).
Proof. unfold workflow_context_matches. rewrite !andb_true_iff, !bool_decide_eq_true. tauto. Qed.

(** A command linked to workflow [w], which takes the value [f] with it. *)
Lemma wf_add_linked b ctx kind d w f :
  wf b → unused b ctx → f.(wf_context).(ctx_scope) = ctx.(ctx_scope) →
  (∀ g, b.(workflows) !! w = Some g → g.(wf_context) = f.(wf_context)) →
  (kind = RequestJoin → f.(wf_context).(ctx_command_id) = ctx.(ctx_command_id)) →
  (∀ c' d', kind = RequestJoin → b.(commands) !! c' ≠ Some (linked RequestJoin d' w)) →
  (∀ c' d', kind = ApproveJoin → b.(commands) !! c' ≠ Some (linked ApproveJoin d' w)) →
  workflow_ok (add_command ctx (linked kind d w) b) w f →
  wf (Book (<[ctx.(ctx_command_id) := linked kind d w]> b.(commands))
        (<[IdempotencyLookup_new ctx := ctx.(ctx_command_id)]> b.(idempotency))
        (<[w := f]> b.(workflows))).
Proof.
  intros Hwf Hun Hsc Hold Hreq Hnreq Hnapp Hok.
  destruct (keyed_add b ctx (linked kind d w) (wf_keyed _ Hwf) Hun) as [K1 K2 K3].
  split; [exact K1|exact K2|exact K3|..]; simpl.
  - intros l c sc s. rewrite !lookup_insert_Some.
    intros [[<- <-]|[Hl Hlc]] [[Hc <-]|[Hc Hcc]]; try done.
    + unfold command_scope. simpl. rewrite lookup_insert_eq. simpl. naive_solver congruence.
    + subst. destruct Hun as [Hun _]. destruct (inv_key_command _ Hwf _ _ Hlc). congruence.
    + intros Hs. eapply (inv_key_scope _ Hwf _ _ _ s Hlc Hcc). revert Hs. unfold command_scope.
      destruct (sc_workflow_id sc) as [w'|] eqn:Hid; [|done]. simpl.
      destruct (decide (w = w')) as [<-|]; [|by rewrite lookup_insert_ne].
      pose proof (inv_shape _ Hwf _ _ Hcc) as Hsh. destruct Hsh; simplify_eq/=.
      destruct (inv_linked _ Hwf _ _ _ _ Hcc) as [g Hg].
      rewrite lookup_insert_eq, Hg; simpl. by rewrite (Hold g Hg).
  - intros c sc. rewrite lookup_insert_Some. intros [[_ <-]|[_ ?]]; [constructor|].
    by eapply (inv_shape _ Hwf).
  - intros c k' d' w'. rewrite lookup_insert_Some. intros [[_ [= -> -> ->]]|[_ Hc]].
    + rewrite lookup_insert_eq. eauto.
    + apply lookup_insert_is_Some'. right. by eapply (inv_linked _ Hwf).
  - intros c d' w' f'. rewrite !lookup_insert_Some.
    intros [[<- [= -> -> ->]]|[_ Hc]] [[Hw <-]|[Hw Hf]]; simplify_eq; auto.
    + destruct kind; [|]. 2: { destruct (inv_linked _ Hwf _ _ _ _ Hc) as [g Hg].
        rewrite <-(Hold g Hg). by eapply (inv_one_request _ Hwf). }
      exfalso. by eapply Hnreq.
    + by eapply (inv_one_request _ Hwf).
  - intros c1 c2 d1 d2 w'. rewrite !lookup_insert_Some.
    intros [[<- [= -> -> ->]]|[_ H1]] [[<- H2]|[_ H2]]; simplify_eq/=; try done.
    + exfalso. by eapply Hnapp.
    + exfalso. by eapply Hnapp.
    + by eapply (inv_one_approval _ Hwf).
  - intros w' f'. rewrite lookup_insert_Some. intros [[<- <-]|[Hne Hf]].
    + destruct Hok. by split.
    + apply (workflow_ok_commands _ _ b.(workflows)). apply (workflow_ok_add b ctx);
        [by apply wf_keyed|done|by intros d' [=]|by apply (inv_workflow _ Hwf)].
Qed.

Lemma JoinRequestCommand_new_Some ctx cmd :
  JoinRequestCommand_new hyphenated sha256 ctx = Some cmd →
  cmd.(jr_context) = ctx ∧ join_digest ctx = Some cmd.(jr_request_digest).
Proof.
  unfold JoinRequestCommand_new. destruct (join_digest ctx) eqn:?; naive_solver.
Qed.

Lemma ApproveJoinCommand_new_Some ctx auth cmd :
  ApproveJoinCommand_new hyphenated sha256 ctx auth = Some cmd →
  cmd.(aj_context) = ctx ∧ cmd.(aj_authorization_digest) = auth ∧
  approval_digest ctx auth = Some cmd.(aj_request_digest).
Proof.
  unfold ApproveJoinCommand_new. destruct (command_digest _ _ _ _ _) eqn:?; naive_solver.
Qed.

Lemma wf_record b cmd :
  wf b → authored (OpRecord cmd NotMember) → unused b cmd.(jr_context) →
  cmd.(jr_context).(ctx_actor_identity_id) = cmd.(jr_context).(ctx_candidate_identity_id) →
  b.(workflows) !! cmd.(jr_context).(ctx_join_request_id) = None →
  wf (set_phase cmd.(jr_context).(ctx_join_request_id)
        (JoinWorkflow_pending cmd.(jr_context)) WPendingApproval
        (add_command cmd.(jr_context)
           (linked RequestJoin cmd.(jr_request_digest)
              cmd.(jr_context).(ctx_join_request_id)) b)).
Proof.
  intros Hwf Hauth Hun Hact Hw. simpl in Hauth.
  apply JoinRequestCommand_new_Some in Hauth as [_ Hd].
  assert (∀ c kind d, b.(commands) !! c ≠
    Some (linked kind d cmd.(jr_context).(ctx_join_request_id))) as Hno.
  { intros c kind d Hc. destruct (inv_linked _ Hwf _ _ _ _ Hc). congruence. }
  apply (wf_add_linked b cmd.(jr_context)); try done.
  - intros g Hg. congruence.
  - split; simpl; try done.
    + exists cmd.(jr_request_digest). by rewrite lookup_insert_eq.
    + by rewrite lookup_insert_eq.
    + intros c d. rewrite lookup_insert_Some. intros [[_ ?]|[_ ?]]; [done|]. by eapply Hno.
Qed.

Lemma wf_approve b cmd f :
  wf b → authored (OpApprove cmd NotMember) → unused b cmd.(aj_context) →
  b.(workflows) !! cmd.(aj_context).(ctx_join_request_id) = Some f →
  matches f cmd.(aj_context) = true → f.(wf_phase) = WPendingApproval →
  wf (set_phase cmd.(aj_context).(ctx_join_request_id) f
        (WPendingCommit cmd.(aj_context).(ctx_command_id) cmd.(aj_context)
           cmd.(aj_authorization_digest))
        (add_command cmd.(aj_context)
           (linked ApproveJoin cmd.(aj_request_digest)
              cmd.(aj_context).(ctx_join_request_id)) b)).
Proof.
  intros Hwf Hauth Hun Hw Hm Hp. simpl in Hauth.
  apply ApproveJoinCommand_new_Some in Hauth as (_ & _ & Hd).
  destruct (inv_workflow _ Hwf _ _ Hw) as [H1 H2 (d & Hjd & Hreq) H4 H5].
  rewrite Hp in H5. simpl in H5. destruct Hun as [Hc Hl].
  apply (wf_add_linked b cmd.(aj_context)); try done.
  - simpl. by apply matches_spec in Hm as (? & _).
  - intros g Hg. simplify_eq. done.
  - split; simpl; try done.
    + exists d. split; [done|]. rewrite lookup_insert_ne; [done|]. congruence.
    + rewrite lookup_insert_ne; [done|]. congruence.
    + split_and!; [done|done|]. exists cmd.(aj_request_digest).
      by rewrite lookup_insert_eq.
Qed.

Lemma wf_approve_member b cmd ref f p :
  wf b → unused b cmd.(aj_context) →
  b.(workflows) !! cmd.(aj_context).(ctx_join_request_id) = Some f →
  matches f cmd.(aj_context) = true →
  ref.(ref_scope) = cmd.(aj_context).(ctx_scope) →
  p = (if decide (open_phase f.(wf_phase)) then WCommitted (AdmissionAlreadyMember ref)
       else f.(wf_phase)) →
  wf (set_phase cmd.(aj_context).(ctx_join_request_id) f p
        (add_command cmd.(aj_context)
           (closed ApproveJoin cmd.(aj_request_digest)
              (Committed (AdmissionAlreadyMember ref))) b)).
Proof.
  intros Hwf Hun Hw Hm Hs Hp. apply wf_set_phase; [|done|].
  - apply wf_add_closed; try done; [constructor|]. by intros s [= <-].
  - simpl. subst p. case_decide as Ho.
    + simpl. split; [rewrite Hs; by apply matches_spec in Hm as (-> & _)|].
      eexists _, _. apply lookup_insert_eq.
    + apply phase_ok_add; [by destruct Hun|done|].
      apply (inv_workflow _ Hwf _ _ Hw).
Qed.

Lemma wf_reject_request b c rej d w f :
  wf b → b.(commands) !! c = Some (linked RequestJoin d w) →
  b.(workflows) !! w = Some f → f.(wf_phase) = WPendingApproval →
  wf (Book (<[c := closed RequestJoin d (Rejected rej)]> b.(commands))
        b.(idempotency) (delete w b.(workflows))).
Proof.
  intros Hwf Hc Hw Hp. destruct (Hwf) as [I1 I2 I3 I4 I5 I6 I7 I8 I9].
  assert (∀ kind d' w' c', <[c := closed RequestJoin d (Rejected rej)]> b.(commands) !! c' =
    Some (linked kind d' w') → c' ≠ c ∧ b.(commands) !! c' = Some (linked kind d' w') ∧ w' ≠ w)
    as Hlink.
  { intros kind d' w' c'. rewrite lookup_insert_Some. intros [[_ ?]|[Hne Hc']]; [done|].
    split_and!; [done|done|]. intros ->. destruct kind.
    - apply Hne. by rewrite <-(I7 _ _ _ _ Hc Hw), <-(I7 _ _ _ _ Hc' Hw).
    - pose proof (wo_phase _ _ _ (I9 _ _ Hw)) as Hph. rewrite Hp in Hph. by eapply Hph. }
  split; simpl.
  - intros l c' Hl. apply lookup_insert_is_Some'. right. eauto.
  - intros c' sc. rewrite lookup_insert_Some. intros [[<- _]|[_ ?]]; eauto.
  - exact I3.
  - intros l c' sc s Hl. rewrite lookup_insert_Some. intros [[<- <-]|[Hne Hc']]; [done|].
    intros Hs. apply (I4 l c' sc s Hl Hc'). unfold command_scope in *.
    destruct (sc_workflow_id sc) as [w'|]; [|done]. simpl in Hs.
    destruct (decide (w = w')) as [<-|]; [by rewrite lookup_delete_eq in Hs|].
    by rewrite lookup_delete_ne in Hs.
  - intros c' sc. rewrite lookup_insert_Some. intros [[_ <-]|[_ ?]]; [constructor|eauto].
  - intros c' kind d' w' (_ & Hc' & Hne)%Hlink. rewrite lookup_delete_ne by done. eauto.
  - intros c' d' w' f' (_ & Hc' & Hne)%Hlink. rewrite lookup_delete_ne by done. eauto.
  - intros c1 c2 d1 d2 w' (_ & H1 & _)%Hlink (_ & H2 & _)%Hlink. eauto.
  - intros w' f' [Hne Hf]%lookup_delete_Some. destruct (I9 _ _ Hf) as [O1 O2 (d' & Hd' & O3) O4 O5].
    assert (∀ c' sc', b.(commands) !! c' = Some sc' → c' ≠ c →
      <[c := closed RequestJoin d (Rejected rej)]> b.(commands) !! c' = Some sc') as Hkeep.
    { intros c' sc' Hc' Hn. by rewrite lookup_insert_ne. }
    split; simpl; try done.
    + exists d'. split; [done|]. apply Hkeep; [done|]. intros Heq. rewrite Heq, Hc in O3. simplify_eq.
    + assert (∀ c' d'' w'', b.(commands) !! c' = Some (linked ApproveJoin d'' w'') →
        <[c := closed RequestJoin d (Rejected rej)]> b.(commands) !! c' =
        Some (linked ApproveJoin d'' w'')) as Hkeepa.
      { intros. apply Hkeep; [done|]. intros ->. by simplify_eq. }
      destruct (wf_phase f') as [|a actx auth|a actx auth|[ref|ref]|rj]; simpl in *.
      * intros c' d'' (_ & Hx & _)%Hlink. by eapply O5.
      * naive_solver.
      * naive_solver.
      * naive_solver.
      * destruct O5 as (? & c' & d'' & Hc'). split; [done|]. exists c', d''.
        apply Hkeep; [done|]. intros ->. by simplify_eq.
      * destruct O5 as (a & d'' & ?). eauto.
Qed.

Lemma linked_shape sc w :
  command_shape sc → sc.(sc_workflow_id) = Some w →
  sc = linked sc.(sc_kind) sc.(sc_request_digest) w.
Proof. intros [] ?; simplify_eq/=; done. Qed.

Lemma wf_observe b c res sc w f ctx auth (reconciling : bool) p :
  wf b → b.(commands) !! c = Some sc → sc.(sc_kind) = ApproveJoin →
  sc.(sc_workflow_id) = Some w → b.(workflows) !! w = Some f →
  f.(wf_phase) = (if reconciling then WReconciling c ctx auth else WPendingCommit c ctx auth) →
  resolve_intent reconciling c ctx auth f.(wf_context).(ctx_scope)
    sc.(sc_request_digest) res = Ok p →
  wf (set_phase w f p b).
Proof.
  intros Hwf Hc Hk Hid Hw Hp Hr.
  pose proof (linked_shape _ _ (inv_shape _ Hwf _ _ Hc) Hid) as Hsc. rewrite Hk in Hsc.
  pose proof (wo_phase _ _ _ (inv_workflow _ Hwf _ _ Hw)) as Hph.
  assert (phase_ok b.(commands) w f.(wf_context) (WReconciling c ctx auth)) as Hint.
  { rewrite Hp in Hph. by destruct reconciling. }
  rewrite Hsc in Hc. apply wf_set_phase; [done|done|].
  destruct res as [ref|rj| |]; simpl in Hr.
  - res_inv Hr. unfold validate_commit_reference in Hres. case_decide as Hv; [|done].
    destruct Hv as (Hs & Hcid & Hd). simpl. by rewrite Hs, Hcid, Hd.
  - simplify_eq. simpl. eauto.
  - destruct reconciling; simplify_eq. exact Hint.
  - simplify_eq. exact Hint.
Qed.

Lemma wf_change b op b' : wf b → authored op → change b op b' → wf b'.
Proof.
  intros Hwf Hauth Hch. destruct Hch as [cmd ref|cmd|cmd ref f p|cmd f
    |c res sc w f ctx auth rc p Hc Hk Hid Hw Hp Hr|c rej sc w f Hc Hk Hid Hw Hp
    |c rej sc w f ctx auth Hc Hk Hid Hw Hp].
  - apply wf_add_closed; try done; [constructor|]. by intros s [= <-].
  - by apply wf_record.
  - by apply wf_approve_member.
  - by apply wf_approve.
  - by eapply wf_observe.
  - pose proof (linked_shape _ _ (inv_shape _ Hwf _ _ Hc) Hid) as Hsc. rewrite Hk in Hsc.
    eapply wf_reject_request; try done. congruence.
  - pose proof (linked_shape _ _ (inv_shape _ Hwf _ _ Hc) Hid) as Hsc. rewrite Hk in Hsc.
    apply wf_set_phase; [done|done|]. simpl. exists c, sc.(sc_request_digest). congruence.
Qed.

(** ** Runs of operations *)

Lemma wf_receipt b c sc : wf b → b.(commands) !! c = Some sc → ∃ r, receipt_for b c = Ok r.
Proof.
  intros Hwf Hc. unfold receipt_for. rewrite Hc. simpl.
  pose proof (inv_shape _ Hwf _ _ Hc) as Hsh. destruct Hsh; simpl; eauto.
  destruct (inv_linked _ Hwf _ _ _ _ Hc) as [f ->]. simpl. eauto.
Qed.

Lemma change_records b op b' : change b op b' → is_Some (b'.(commands) !! op_id op).
Proof. destruct 1; simpl; rewrite ?lookup_insert_eq; eauto. Qed.

Lemma run_op_step b op r b' :
  wf b → authored op → run_op op b = (r, b') →
  wf b' ∧ (b' = b ∨ change b op b' ∧ ∃ rc, r = Ok rc ∧ receipt_for b' (op_id op) = Ok rc).
Proof.
  intros Hwf Hauth [[-> _]|[Hch ->]]%run_op_outcome; [by auto|].
  pose proof (wf_change _ _ _ Hwf Hauth Hch) as Hwf'. split; [done|]. right. split; [done|].
  destruct (change_records _ _ _ Hch) as [sc Hsc].
  destruct (wf_receipt _ _ _ Hwf' Hsc) as [rc Hrc]. eauto.
Qed.

Lemma wf_sound_reads b : wf b → sound_reads b.
Proof.
  intros Hwf. split.
  - intros c [sc Hc]. by eapply wf_receipt.
  - apply (inv_key_command _ Hwf).
  - intros c sc w Hc Hid. rewrite (linked_shape _ _ (inv_shape _ Hwf _ _ Hc) Hid) in Hc.
    destruct (inv_linked _ Hwf _ _ _ _ Hc). congruence.
Qed.

Lemma run_op_failed b op e b' :
  wf b → authored op → run_op op b = (Err e, b') → b' = b ∧ e ≠ InvariantViolation.
Proof.
  intros Hwf Hauth [(-> & _ & Hv)|[Hch Hr]]%run_op_outcome.
  - split; [done|]. intros ->. by apply Hv; [apply wf_sound_reads|].
  - destruct (change_records _ _ _ Hch) as [sc Hsc].
    destruct (wf_receipt _ _ _ (wf_change _ _ _ Hwf Hauth Hch) Hsc). congruence.
Qed.

Lemma steps_wf b ops b' : steps b ops b' → wf b → wf b'.
Proof.
  induction 1 as [|b op r b1 ops b2 Hauth Hrun _ IH]; [done|]. intros Hwf.
  by apply IH, (run_op_step _ _ _ _ Hwf Hauth Hrun).
Qed.

Lemma reachable_wf b : reachable b → wf b.
Proof. intros [ops Hops]. by eapply steps_wf, wf_new. Qed.

(** A relation between books that every step respects holds along a run. *)
Lemma steps_carry (R : MembershipCommandBook → Prop) (ok : BookOp → Prop) b ops b' :
  (∀ b op b1, wf b → authored op → ok op → change b op b1 → R b → R b1) →
  steps b ops b' → wf b → Forall ok ops → R b → R b'.
Proof.
  intros Hstep Hops. induction Hops as [|b op r b1 ops b2 Hauth Hrun _ IH]; [done|].
  intros Hwf Hok HR. inversion_clear Hok as [|?? Hop Hops].
  destruct (run_op_step _ _ _ _ Hwf Hauth Hrun) as [Hwf1 [->|[Hch _]]]; [by apply IH|].
  apply IH; [done|done|]. by eapply (Hstep b op b1).
Qed.

(** *** What a change does to one command and to one workflow *)

Lemma change_command b op b' c sc :
  change b op b' → b.(commands) !! c = Some sc →
  b'.(commands) !! c = Some sc ∨
  ∃ rej w f, op = OpReject c rej ∧ sc.(sc_kind) = RequestJoin ∧ sc.(sc_workflow_id) = Some w ∧
    b.(workflows) !! w = Some f ∧ f.(wf_phase) = WPendingApproval ∧
    b'.(commands) !! c = Some (closed RequestJoin sc.(sc_request_digest) (Rejected rej)).
Proof.
  intros Hch Hc. destruct Hch as [cmd ref [Hn _]|cmd [Hn _]|cmd ref f p [Hn _]|cmd f [Hn _]
    | |c' rej sc' w f Hc' Hk Hid Hw Hp| ]; simpl; auto;
    try (left; rewrite lookup_insert_ne; [done|]; intros <-; congruence).
  destruct (decide (c' = c)) as [->|]; [|left; by rewrite lookup_insert_ne].
  right. rewrite Hc in Hc'. simplify_eq. exists rej, w, f. by rewrite lookup_insert_eq.
Qed.

Lemma change_key b op b' l c :
  change b op b' → b.(idempotency) !! l = Some c → b'.(idempotency) !! l = Some c.
Proof.
  intros Hch Hl. destruct Hch as [cmd ref [_ Hn]|cmd [_ Hn]|cmd ref f p [_ Hn]|cmd f [_ Hn]
    | | | ]; simpl; auto; (rewrite lookup_insert_ne; [done|]); intros <-; congruence.
Qed.

(** The intent of command [c] while it is in flight. *)
Definition intent (c : MembershipCommandId) (ctx : MembershipCommandContext)
    (auth : Sha256Digest) (p : WorkflowPhase) : Prop :=
  p = WPendingCommit c ctx auth ∨ p = WReconciling c ctx auth.

Inductive phase_move (w : JoinRequestId) : BookOp → WorkflowPhase → WorkflowPhase → Prop :=
| mv_same op p : phase_move w op p p
| mv_approve cmd :
    cmd.(aj_context).(ctx_join_request_id) = w →
    phase_move w (OpApprove cmd NotMember) WPendingApproval
      (WPendingCommit cmd.(aj_context).(ctx_command_id) cmd.(aj_context)
         cmd.(aj_authorization_digest))
| mv_member cmd ref p :
    cmd.(aj_context).(ctx_join_request_id) = w → open_phase p →
    phase_move w (OpApprove cmd (CandidateAlreadyMember ref)) p
      (WCommitted (AdmissionAlreadyMember ref))
| mv_unknown c ctx auth p :
    intent c ctx auth p → phase_move w (OpObserve c Unknown) p (WReconciling c ctx auth)
| mv_absent c ctx auth :
    phase_move w (OpObserve c Absent) (WReconciling c ctx auth) (WPendingCommit c ctx auth)
| mv_commit c ref ctx auth p :
    intent c ctx auth p → ref.(ref_command_id) = c →
    phase_move w (OpObserve c (ResolutionCommitted ref)) p (WCommitted (Applied ref))
| mv_remote_reject c rej ctx auth p :
    intent c ctx auth p → phase_move w (OpObserve c (ResolutionRejected rej)) p (WRejected rej)
| mv_local_reject c rej ctx auth :
    phase_move w (OpReject c rej) (WPendingCommit c ctx auth) (WRejected rej).

Lemma resolve_intent_move w (reconciling : bool) c ctx auth s d res p :
  resolve_intent reconciling c ctx auth s d res = Ok p →
  phase_move w (OpObserve c res)
    (if reconciling then WReconciling c ctx auth else WPendingCommit c ctx auth) p.
Proof.
  assert (intent c ctx auth
    (if reconciling then WReconciling c ctx auth else WPendingCommit c ctx auth)) as Hint.
  { destruct reconciling; [by right|by left]. }
  destruct res as [ref|rej| |]; simpl; intros Hr.
  - res_inv Hr. unfold validate_commit_reference in Hres. case_decide as Hv; [|done].
    by eapply mv_commit, Hv.
  - simplify_eq. by eapply mv_remote_reject.
  - destruct reconciling; simplify_eq. constructor.
  - simplify_eq. by constructor.
Qed.

Lemma set_phase_lookup b w f p w' f' :
  b.(workflows) !! w' = Some f' → b.(workflows) !! w = Some f →
  (set_phase w f p b).(workflows) !! w' =
  Some (f' <| wf_phase := if decide (w = w') then p else f'.(wf_phase) |>).
Proof.
  intros Hw' Hw. simpl. case_decide as Heq.
  - subst. rewrite lookup_insert_eq. congruence.
  - rewrite lookup_insert_ne by done. rewrite Hw'. by destruct f'.
Qed.

Lemma change_workflow b op b' w f :
  change b op b' → b.(workflows) !! w = Some f →
  (∃ p, b'.(workflows) !! w = Some (f <| wf_phase := p |>) ∧ phase_move w op f.(wf_phase) p) ∨
  ∃ c rej, op = OpReject c rej ∧ f.(wf_phase) = WPendingApproval ∧
    b'.(workflows) !! w = None.
Proof.
  assert (f = f <| wf_phase := f.(wf_phase) |>) as Hid by (by destruct f).
  intros Hch Hw.
  destruct Hch as [cmd ref Hun|cmd Hun Hact Hnone|cmd ref g p Hun Hg Hm Hs Hp|cmd g Hun Hg Hm Hp
    |c res sc w' g ctx auth rc p Hc Hk Hsid Hg Hp Hr|c rej sc w' g Hc Hk Hsid Hg Hp
    |c rej sc w' g ctx auth Hc Hk Hsid Hg Hp].
  - left. exists f.(wf_phase). rewrite <-Hid. split; [done|constructor].
  - left. exists f.(wf_phase). rewrite <-Hid. split; [|constructor]. simpl.
    rewrite lookup_insert_ne; [done|]. congruence.
  - left. eexists. split; [by apply set_phase_lookup|]. revert Hp.
    destruct (decide (_ = w)) as [<-|]; [|constructor]. intros ->. simplify_eq.
    case_decide; [by constructor|constructor].
  - left. eexists. split; [by apply set_phase_lookup|]. case_decide; [|constructor]. simplify_eq.
    rewrite Hp. by constructor.
  - left. eexists. split; [by apply set_phase_lookup|]. case_decide; [|constructor]. simplify_eq.
    rewrite Hp. by eapply resolve_intent_move.
  - destruct (decide (w' = w)) as [->|].
    + right. exists c, rej. simplify_eq. simpl. by rewrite lookup_delete_eq.
    + left. exists f.(wf_phase). rewrite <-Hid. split; [|constructor]. simpl.
      by rewrite lookup_delete_ne.
  - left. eexists. split; [by apply set_phase_lookup|]. case_decide; [|constructor]. simplify_eq.
    rewrite Hp. constructor.
Qed.
End invariant.
