(* ===== verification/MembershipProps.v ===== *)
(** * Membership commands: replay, receipts and the Sequencer protocol

    The properties of every book that the operations can produce: failed
    operations change nothing, accepted commands replay to their receipt, a
    receipt only moves along the protocol and is stable once final, and the
    Sequencer is asked to commit one exact intent per join workflow. *)

From S2P Require Import Prelude Domain GroupPolicy CanonicalCbor WirePrimitives.
From S2P Require Import MembershipCommand MembershipInv.

(** ** Receipts of a well-formed book *)

Lemma receipt_for_Ok b c r :
  receipt_for b c = Ok r ↔
  ∃ sc, b.(commands) !! c = Some sc ∧ r.(rc_command_id) = c ∧
    r.(rc_request_digest) = sc.(sc_request_digest) ∧
    match sc.(sc_workflow_id), sc.(sc_terminal_phase) with
    | Some w, None => ∃ f, b.(workflows) !! w = Some f ∧ r.(rc_phase) = as_public f.(wf_phase)
    | None, Some p => r.(rc_phase) = p
    | _, _ => False
    end.
Proof.
  unfold receipt_for. split.
  - intros H. res_inv H. exists x. split_and!; try done.
    destruct (sc_workflow_id x), (sc_terminal_phase x); simplify_eq/=; try done.
    apply ok_or_Ok, fmap_Some in Hres0 as (f & ? & ->). eauto.
  - intros (sc & Hc & <- & Hd & Hm). rewrite Hc. simpl. destruct r as [c d p]; simpl in *.
    destruct (sc_workflow_id sc), (sc_terminal_phase sc); try done.
    + destruct Hm as (f & -> & ->). simpl. by rewrite Hd.
    + by subst.
Qed.

(** How the phase of a receipt may move under one operation. *)
Inductive phase_step : BookOp → MembershipCommandPhase → MembershipCommandPhase → Prop :=
| ps_same op p : phase_step op p p
| ps_approved cmd : phase_step (OpApprove cmd NotMember) PendingApproval PendingCommit
| ps_member cmd ref p :
    is_terminal p = false →
    phase_step (OpApprove cmd (CandidateAlreadyMember ref)) p
      (Committed (AdmissionAlreadyMember ref))
| ps_uncertain c : phase_step (OpObserve c Unknown) PendingCommit Reconciling
| ps_absent c : phase_step (OpObserve c Absent) Reconciling PendingCommit
| ps_committed c ref p :
    p = PendingCommit ∨ p = Reconciling → ref.(ref_command_id) = c →
    phase_step (OpObserve c (ResolutionCommitted ref)) p (Committed (Applied ref))
| ps_remote_reject c rej p :
    p = PendingCommit ∨ p = Reconciling →
    phase_step (OpObserve c (ResolutionRejected rej)) p (Rejected rej)
| ps_local_reject c rej p :
    p = PendingApproval ∨ p = PendingCommit →
    phase_step (OpReject c rej) p (Rejected rej).

Lemma phase_move_step w op p p' :
  phase_move w op p p' → phase_step op (as_public p) (as_public p').
Proof.
  destruct 1 as [| |cmd ref p|c ctx auth p Hi| |c ref ctx auth p Hi|c rej ctx auth p Hi|]; simpl;
    try (by constructor); try (destruct Hi as [->| ->]; by constructor; auto).
  - constructor. by destruct p.
  - constructor. auto.
Qed.

Section props.
Context (hyphenated : Z → bytes) (sha256 : bytes → bytes).
Local Notation wf := (wf hyphenated sha256).
Local Notation authored := (authored hyphenated sha256).
Local Notation steps := (steps hyphenated sha256).
Local Notation reachable := (reachable hyphenated sha256).

Lemma receipt_change b op b' c r :
  wf b → wf b' → change b op b' → receipt_for b c = Ok r →
  ∃ r', receipt_for b' c = Ok r' ∧ r'.(rc_request_digest) = r.(rc_request_digest) ∧
    phase_step op r.(rc_phase) r'.(rc_phase).
Proof.
  intros Hwf Hwf' Hch (sc & Hc & Hid & Hd & Hm)%receipt_for_Ok.
  destruct (change_command _ _ _ _ _ Hch Hc)
    as [Hc'|(rej & w & f & -> & Hk & Hsid & Hw & Hp & Hc')].
  - pose proof (inv_shape _ _ _ Hwf _ _ Hc) as Hsh.
    destruct (sc_workflow_id sc) as [w|] eqn:Hsid, (sc_terminal_phase sc) as [p|] eqn:Ht; try done.
    + destruct Hm as (f & Hw & Hp).
      destruct (change_workflow _ _ _ _ _ Hch Hw) as [(p & Hw' & Hmv)|(c' & rej & -> & Hpf & Hw')].
      * exists {| rc_command_id := c; rc_request_digest := sc.(sc_request_digest);
                 rc_phase := as_public p |}. split_and!; [|done|].
        { apply receipt_for_Ok. exists sc. rewrite Hsid, Ht. split_and!; try done. by eexists. }
        rewrite Hp. by eapply phase_move_step.
      * exfalso. rewrite (linked_shape _ _ Hsh Hsid) in Hc'.
        destruct (inv_linked _ _ _ Hwf' _ _ _ _ Hc'). congruence.
    + exists r. split_and!; [|done|constructor]. apply receipt_for_Ok. exists sc.
      rewrite Hsid, Ht. by split_and!.
  - exists {| rc_command_id := c; rc_request_digest := sc.(sc_request_digest);
             rc_phase := Rejected rej |}. split_and!; [|done|].
    { apply receipt_for_Ok. eexists. by split_and!. }
    rewrite Hsid in Hm. destruct (sc_terminal_phase sc); [done|].
    destruct Hm as (f' & Hw' & ->). simplify_eq. rewrite Hp. simpl. constructor. auto.
Qed.

Lemma step_receipt b op res b' c r :
  wf b → authored op → run_op op b = (res, b') → receipt_for b c = Ok r →
  ∃ r', receipt_for b' c = Ok r' ∧ r'.(rc_request_digest) = r.(rc_request_digest) ∧
    phase_step op r.(rc_phase) r'.(rc_phase).
Proof.
  intros Hwf Hauth Hrun Hr.
  destruct (run_op_step _ _ _ _ _ _ Hwf Hauth Hrun) as [Hwf' [->|[Hch _]]].
  - exists r. split_and!; [done|done|constructor].
  - exact (receipt_change _ _ _ _ _ Hwf Hwf' Hch Hr).
Qed.

Lemma phase_step_terminal op p p' : phase_step op p p' → is_terminal p = true → p' = p.
Proof. destruct 1 as [| | | | |? ? ? []|? ? ? []|? ? ? []]; subst; try done; simpl; congruence. Qed.

Lemma receipt_id b c r : receipt_for b c = Ok r → r.(rc_command_id) = c.
Proof. by intros (? & ? & ? & ?)%receipt_for_Ok. Qed.

Lemma receipt_eq b b' c r r' :
  receipt_for b c = Ok r → receipt_for b' c = Ok r' →
  r'.(rc_request_digest) = r.(rc_request_digest) → r'.(rc_phase) = r.(rc_phase) → r' = r.
Proof.
  intros Hr%receipt_id Hr'%receipt_id. destruct r, r'; simpl in *. congruence.
Qed.

(** Along a run a receipt keeps its digest, and keeps everything once final. *)
Lemma steps_receipt b ops b' c r :
  wf b → steps b ops b' → receipt_for b c = Ok r →
  ∃ r', receipt_for b' c = Ok r' ∧ r'.(rc_request_digest) = r.(rc_request_digest) ∧
    (is_terminal r.(rc_phase) = true → r' = r).
Proof.
  intros Hwf Hops Hr.
  apply (steps_carry hyphenated sha256 (λ b', ∃ r', receipt_for b' c = Ok r' ∧
    r'.(rc_request_digest) = r.(rc_request_digest) ∧
    (is_terminal r.(rc_phase) = true → r' = r)) (λ _, True) b ops b'); [|done..| |].
  - intros b1 op b2 Hwf1 Hauth _ Hch (r1 & Hr1 & Hd & Ht).
    pose proof (wf_change _ _ _ _ _ Hwf1 Hauth Hch) as Hwf2.
    destruct (receipt_change _ _ _ _ _ Hwf1 Hwf2 Hch Hr1) as (r2 & Hr2 & Hd2 & Hps).
    exists r2. split_and!; [done|congruence|]. intros Hterm. specialize (Ht Hterm). subst r1.
    apply (receipt_eq b1 b2 c); try done. by eapply phase_step_terminal.
  - by apply Forall_true.
  - eauto.
Qed.

(** ** Properties *)

(** In every book that a sequence of operations produces from the empty
    book, replay keys and commands correspond one to one, every command is
    either linked to an existing workflow or final on its own, each workflow has
    exactly one join request and at most one linked approval, and the phase of a
    workflow agrees with the commands that put it there. *)
Theorem reachable_book_consistent b : reachable b → wf b.
Proof. apply reachable_wf. Qed.

(** An operation that returns an error leaves the book exactly as it was,
    and no operation on a reachable book ever reports an inconsistent state. *)
Theorem failed_operation_changes_nothing b op e b' :
  reachable b → authored op → run_op op b = (Err e, b') →
  b' = b ∧ e ≠ InvariantViolation.
Proof. intros Hb. by apply run_op_failed, reachable_wf. Qed.

(** One operation moves the receipt of any command only along the protocol
    [phase_step]: approval, uncertainty, verified absence, commit of the very
    command that was submitted, remote or local rejection, or nothing. *)
Theorem receipt_follows_protocol b op res b' c r :
  reachable b → authored op → run_op op b = (res, b') → receipt b c = Ok r →
  ∃ r', receipt b' c = Ok r' ∧ r'.(rc_request_digest) = r.(rc_request_digest) ∧
    phase_step op r.(rc_phase) r'.(rc_phase).
Proof. intros Hb. by apply step_receipt, reachable_wf. Qed.

(** A receipt whose phase is committed or rejected is returned unchanged
    after any further operations. *)
Theorem terminal_receipt_final b ops b' c r :
  reachable b → receipt b c = Ok r → is_terminal r.(rc_phase) = true →
  steps b ops b' → receipt b' c = Ok r.
Proof.
  intros Hb Hr Ht Hops.
  destruct (steps_receipt _ _ _ _ _ (reachable_wf _ _ _ Hb) Hops Hr) as (r' & Hr' & _ & Heq).
  by rewrite <-(Heq Ht).
Qed.

(** Two submissions of the same command, whatever member fact accompanies them. *)
Definition retry (op op' : BookOp) : Prop :=
  match op, op' with
  | OpRecord command _, OpRecord command' _ => command = command'
  | OpApprove command _, OpApprove command' _ => command = command'
  | _, _ => False
  end.

Lemma existing_hit b c d l r :
  receipt_for b c = Ok r → r.(rc_request_digest) = d →
  existing_or_conflict b c d l = Ok (Some r).
Proof.
  intros Hr <-. pose proof Hr as (sc & Hc & _ & Hd & _)%receipt_for_Ok.
  unfold existing_or_conflict. rewrite Hc, Hd. unfold reject_if.
  rewrite decide_False by tauto. cbn. by rewrite Hr.
Qed.

(** The command a submission carries: its context and request digest. *)
Definition op_command (op : BookOp) : option (MembershipCommandContext * Sha256Digest) :=
  match op with
  | OpRecord command _ => Some (command.(jr_context), command.(jr_request_digest))
  | OpApprove command _ => Some (command.(aj_context), command.(aj_request_digest))
  | _ => None
  end.

Lemma op_command_id op ctx d : op_command op = Some (ctx, d) → op_id op = ctx.(ctx_command_id).
Proof. destruct op; naive_solver. Qed.

(** A submission first looks for what is retained of it. *)
Lemma run_op_existing b op ctx d :
  op_command op = Some (ctx, d) →
  match existing_or_conflict b ctx.(ctx_command_id) d (IdempotencyLookup_new ctx) with
  | Ok (Some r) => run_op op b = (Ok r, b)
  | Ok None => True
  | Err e => run_op op b = (Err e, b)
  end.
Proof.
  destruct op as [cmd m|cmd m| |]; simpl; try done; intros [= <- <-].
  - unfold record_join_request. cbv [mbind ST_bind get lift].
    by destruct (existing_or_conflict _ _ _ _) as [[]|].
  - unfold approve_join. cbv [mbind ST_bind get lift].
    by destruct (existing_or_conflict _ _ _ _) as [[]|].
Qed.

Lemma retry_hit b op ctx r :
  op_command op = Some (ctx, r.(rc_request_digest)) → receipt_for b (op_id op) = Ok r →
  run_op op b = (Ok r, b).
Proof.
  intros Hop Hr. pose proof (run_op_existing b _ _ _ Hop) as Hrun.
  rewrite (op_command_id _ _ _ Hop) in Hr. by rewrite (existing_hit _ _ _ _ r) in Hrun.
Qed.

Lemma existing_own b c d l r :
  existing_or_conflict b c d l = Ok (Some r) → r.(rc_command_id) = c →
  receipt_for b c = Ok r ∧ r.(rc_request_digest) = d.
Proof.
  unfold existing_or_conflict. intros H Hid. destruct (commands b !! c) as [sc|] eqn:Hc.
  - res_inv H. apply dec_stable in Hres. destruct (receipt_for b c) eqn:Hr; simplify_eq/=.
    split; [done|]. apply receipt_for_Ok in Hr as (sc' & Hc' & _ & -> & _). congruence.
  - destruct (idempotency b !! l); [|done]. res_inv H.
    destruct (receipt_for b _) eqn:Hr; simplify_eq/=.
    pose proof (receipt_id _ _ _ Hr). apply receipt_for_Ok in Hr as (? & ? & _). congruence.
Qed.

(** What an accepted command leaves behind. *)
Lemma accepted_receipt b op ctx d r b' :
  op_command op = Some (ctx, d) → run_op op b = (Ok r, b') → r.(rc_command_id) = op_id op →
  receipt_for b' (op_id op) = Ok r ∧ r.(rc_request_digest) = d.
Proof.
  intros Hop Hrun Hid. rewrite (op_command_id _ _ _ Hop) in *.
  pose proof (run_op_existing b _ _ _ Hop) as Hex.
  destruct (existing_or_conflict _ _ _ _) as [[rc|]|e] eqn:Hq; [|clear Hex|congruence].
  { rewrite Hrun in Hex. simplify_eq. by eapply existing_own. }
  apply existing_None in Hq as [Hnone _].
  destruct (run_op_outcome _ _ _ _ Hrun) as [(-> & Hr & _)|[Hch Hr]].
  - destruct (Hr r eq_refl) as [c Hc]. rewrite (receipt_id _ _ _ Hc) in Hid. subst c.
    apply receipt_for_Ok in Hc as (? & ? & _). congruence.
  - rewrite (op_command_id _ _ _ Hop) in Hr. split; [done|]. symmetry in Hr.
    apply receipt_for_Ok in Hr as (sc & Hsc & _ & -> & _).
    destruct Hch; simplify_eq/=; rewrite lookup_insert_eq in Hsc; by simplify_eq.
Qed.

(** C32. Once a join request or an approval has been accepted under its own
    command identity, submitting the same command again, after any further
    operations and with any member fact, changes nothing and returns the
    command's current receipt; a final receipt is the one first returned. *)
Theorem accepted_command_replays b op r b1 ops b2 op' :
  reachable b → authored op → run_op op b = (Ok r, b1) → r.(rc_command_id) = op_id op →
  steps b1 ops b2 → retry op op' →
  ∃ r', run_op op' b2 = (Ok r', b2) ∧ receipt b2 (op_id op) = Ok r' ∧
    r'.(rc_request_digest) = r.(rc_request_digest) ∧
    (is_terminal r.(rc_phase) = true → r' = r).
Proof.
  intros Hb Hauth Hrun Hid Hops Hretry. apply reachable_wf in Hb as Hwf.
  assert (∃ ctx d, op_command op = Some (ctx, d) ∧ op_command op' = Some (ctx, d))
    as (ctx & d & Hop & Hop').
  { destruct op, op'; simpl in *; subst; eauto; done. }
  destruct (accepted_receipt _ _ _ _ _ _ Hop Hrun Hid) as [Hr Hd].
  destruct (run_op_step _ _ _ _ _ _ Hwf Hauth Hrun) as [Hwf1 _].
  destruct (steps_receipt _ _ _ _ _ Hwf1 Hops Hr) as (r' & Hr' & Hd' & Ht).
  exists r'. split_and!; try done.
  apply (retry_hit _ _ ctx); [congruence|].
  by rewrite (op_command_id _ _ _ Hop'), <-(op_command_id _ _ _ Hop).
Qed.

(** ** The Sequencer protocol *)

Lemma next_action_Ok b c a :
  next_sequencer_action b c = Ok (Some a) ↔
  ∃ sc w f, b.(commands) !! c = Some sc ∧ sc.(sc_kind) = ApproveJoin ∧
    sc.(sc_workflow_id) = Some w ∧ b.(workflows) !! w = Some f ∧
    match a with
    | Submit s => ∃ ctx auth, f.(wf_phase) = WPendingCommit c ctx auth ∧
        s = {| sub_scope := ctx.(ctx_scope); sub_command_id := c;
               sub_request_digest := sc.(sc_request_digest);
               sub_join_request_id := ctx.(ctx_join_request_id);
               sub_actor_identity_id := ctx.(ctx_actor_identity_id);
               sub_actor_device_id := ctx.(ctx_actor_device_id);
               sub_candidate_identity_id := ctx.(ctx_candidate_identity_id);
               sub_candidate_device_id := ctx.(ctx_candidate_device_id);
               sub_invite_id := ctx.(ctx_invite_id); sub_fence := ctx.(ctx_fence);
               sub_authorization_digest := auth |}
    | Query q => ∃ ctx auth, f.(wf_phase) = WReconciling c ctx auth ∧
        q = {| qry_scope := f.(wf_context).(ctx_scope); qry_command_id := c;
               qry_request_digest := sc.(sc_request_digest) |}
    end.
Proof.
  unfold next_sequencer_action. split.
  - intros H. res_inv H. destruct (sc_workflow_id x) as [w|] eqn:Hid; [|done].
    destruct (decide (sc_kind x = ApproveJoin)) as [Hk|Hk]; [|by rewrite decide_True in H].
    rewrite decide_False in H by tauto. res_inv H.
    exists x, w, x0. split_and!; try done.
    destruct (wf_phase x0) eqn:Hp; simplify_eq; try done;
      case_decide; simplify_eq; eauto.
  - intros (sc & w & f & Hc & Hk & Hid & Hw & Ha). rewrite Hc. simpl. rewrite Hid.
    rewrite Hk, decide_False by tauto. rewrite Hw. simpl.
    destruct a; destruct Ha as (ctx & auth & -> & ->); by rewrite decide_True.
Qed.

(** The workflow of command [c] is past its uncertain submit. *)
Definition awaiting (c : MembershipCommandId) (w : JoinRequestId)
    (ok : WorkflowPhase → Prop) (sc : StoredCommand) (b : MembershipCommandBook) : Prop :=
  b.(commands) !! c = Some sc ∧ ∃ f, b.(workflows) !! w = Some f ∧ ok f.(wf_phase).

Lemma awaiting_change c w (ok : WorkflowPhase → Prop) sc b op b' :
  sc.(sc_kind) = ApproveJoin → ¬ ok WPendingApproval →
  (∀ p p', ok p → phase_move w op p p' → ok p') →
  change b op b' → awaiting c w ok sc b → awaiting c w ok sc b'.
Proof.
  intros Hk Hnp Hmv Hch (Hc & f & Hw & Hok). split.
  - destruct (change_command _ _ _ _ _ Hch Hc) as [?|(? & ? & ? & ? & ? & ?)]; [done|congruence].
  - destruct (change_workflow _ _ _ _ _ Hch Hw) as [(p & Hw' & Hp)|(? & ? & _ & Hp & _)].
    + exists (f <| wf_phase := p |>). split; [done|]. simpl. by eapply Hmv.
    + by rewrite Hp in Hok.
Qed.

Lemma awaiting_steps c w (ok : WorkflowPhase → Prop) (allowed : BookOp → Prop) sc b ops b' :
  sc.(sc_kind) = ApproveJoin → ¬ ok WPendingApproval →
  (∀ op p p', allowed op → ok p → phase_move w op p p' → ok p') →
  wf b → steps b ops b' → Forall allowed ops →
  awaiting c w ok sc b → awaiting c w ok sc b'.
Proof.
  intros Hk Hnp Hmv Hwf Hops Hall.
  apply (steps_carry hyphenated sha256 _ allowed b ops b'); try done.
  intros b1 op b2 _ _ Hop Hch. apply (awaiting_change c w ok sc _ op); [done|done| |done].
  intros p p'. by apply Hmv.
Qed.

Lemma closed_phase_stays w op p p' : ¬ open_phase p → phase_move w op p p' → p' = p.
Proof.
  intros Hp. destruct 1 as [| | |c ctx auth p Hi| |c ref ctx auth p Hi|c rej ctx auth p Hi|];
    try done; simpl in *; try tauto; by destruct Hi as [->| ->]; simpl in Hp; tauto.
Qed.

(** C31. After an uncertain submit the Sequencer is only queried: as long as no
    linearizable lookup has reported the command absent, no sequence of
    operations makes the book offer the command for another submit. *)
Theorem no_resubmit_before_absence b c q ops b' s :
  reachable b → next_sequencer_action b c = Ok (Some (Query q)) → steps b ops b' →
  Forall (λ op, op ≠ OpObserve c Absent) ops →
  next_sequencer_action b' c ≠ Ok (Some (Submit s)).
Proof.
  intros Hb (sc & w & f & Hc & Hk & Hid & Hw & ctx & auth & Hp & _)%next_action_Ok Hops Hall.
  intros (sc' & w' & f' & Hc' & _ & Hid' & Hw' & ctx' & auth' & Hp' & _)%next_action_Ok.
  destruct (awaiting_steps c w (λ p, p = WReconciling c ctx auth ∨ ¬ open_phase p)
    (λ op, op ≠ OpObserve c Absent) sc b ops b') as (Hc2 & f2 & Hw2 & Hf2); try done.
  - intros [?|Hn]; [done|]. by apply Hn.
  - intros op p p' Hop [->|Hcl] Hmv; [|right; by rewrite (closed_phase_stays _ _ _ _ Hcl Hmv)].
    inversion Hmv as [| | |c' ctx1 auth1 p1 Hi| |c' ref ctx1 auth1 p1 Hi|c' rej ctx1 auth1 p1 Hi|];
      subst; simpl; auto.
    destruct Hi; simplify_eq. by left.
  - by apply reachable_wf.
  - split; [done|]. exists f. split; [done|]. by left.
  - simplify_eq. rewrite Hp' in Hf2. destruct Hf2 as [?|Hn]; [done|]. by apply Hn.
Qed.

(** The submit payload of an approval command. *)
Definition submit_of (cmd : ApproveJoinCommand) : SequencerSubmit :=
  let ctx := cmd.(aj_context) in
  {| sub_scope := ctx.(ctx_scope);
     sub_command_id := ctx.(ctx_command_id);
     sub_request_digest := cmd.(aj_request_digest);
     sub_join_request_id := ctx.(ctx_join_request_id);
     sub_actor_identity_id := ctx.(ctx_actor_identity_id);
     sub_actor_device_id := ctx.(ctx_actor_device_id);
     sub_candidate_identity_id := ctx.(ctx_candidate_identity_id);
     sub_candidate_device_id := ctx.(ctx_candidate_device_id);
     sub_invite_id := ctx.(ctx_invite_id);
     sub_fence := ctx.(ctx_fence);
     sub_authorization_digest := cmd.(aj_authorization_digest) |}.

(** Whatever is offered for submit is one approval command as it was
    authored, for the join request it approves, and it is the same payload
    every time it is offered again, also after it was re-armed. *)
Theorem submit_is_the_approval b c s :
  reachable b → next_sequencer_action b c = Ok (Some (Submit s)) →
  (∃ cmd f, ApproveJoinCommand_new hyphenated sha256 cmd.(aj_context)
              cmd.(aj_authorization_digest) = Some cmd ∧
     s = submit_of cmd ∧ cmd.(aj_context).(ctx_command_id) = c ∧
     b.(workflows) !! cmd.(aj_context).(ctx_join_request_id) = Some f ∧
     matches f cmd.(aj_context) = true) ∧
  ∀ ops b' s', steps b ops b' →
    next_sequencer_action b' c = Ok (Some (Submit s')) → s' = s.
Proof.
  intros Hb%reachable_wf (sc & w & f & Hc & Hk & Hid & Hw & ctx & auth & Hp & ->)%next_action_Ok.
  pose proof (inv_workflow _ _ _ Hb _ _ Hw) as [Ho _ _ _ Hph]. rewrite Hp in Hph.
  destruct Hph as (Hm & Hcid & d & Hc' & Hd). rewrite Hc in Hc'. injection Hc' as ->. split.
  - exists {| aj_context := ctx; aj_authorization_digest := auth; aj_request_digest := d |}, f.
    simpl. unfold ApproveJoinCommand_new. rewrite Hd. unfold submit_of; simpl. rewrite Hcid.
    pose proof Hm as (_ & Hj & _)%matches_spec. rewrite <-Hj, Ho. done.
  - intros ops b' s' Hops
      (sc' & w' & f' & Hc' & _ & Hid' & Hw' & ctx' & auth' & Hp' & ->)%next_action_Ok.
    destruct (awaiting_steps c w (λ p, intent c ctx auth p ∨ ¬ open_phase p)
      (λ _, True) (linked ApproveJoin d w) b ops b') as (Hc2 & f2 & Hw2 & Hf2); try done.
    + intros [[?|?]|Hn]; [done..|]. by apply Hn.
    + intros op p p' _ [Hi|Hcl] Hmv; [|right; by rewrite (closed_phase_stays _ _ _ _ Hcl Hmv)].
      destruct Hi as [->| ->];
        inversion Hmv as [| | |c1 ctx1 auth1 p1 Hi| |c1 ref ctx1 auth1 p1 Hi
          |c1 rej ctx1 auth1 p1 Hi|]; subst; simpl; unfold intent; auto;
        destruct Hi; simplify_eq; auto.
    + by apply Forall_true.
    + split; [done|]. exists f. split; [done|]. left. by left.
    + simplify_eq/=. rewrite Hp' in Hf2. destruct Hf2 as [[Hi|Hi]|Hn]; simplify_eq; [done|].
      exfalso. by apply Hn.
Qed.

(** A join workflow has at most one Sequencer action outstanding: two
    commands of the same workflow that both have a next action are the same
    command. *)
Theorem one_action_per_workflow b c1 c2 a1 a2 :
  reachable b →
  next_sequencer_action b c1 = Ok (Some a1) → next_sequencer_action b c2 = Ok (Some a2) →
  b.(commands) !! c1 ≫= sc_workflow_id = b.(commands) !! c2 ≫= sc_workflow_id →
  c1 = c2.
Proof.
  intros Hb%reachable_wf (sc1 & w1 & f1 & Hc1 & Hk1 & Hid1 & _)%next_action_Ok
    (sc2 & w2 & f2 & Hc2 & Hk2 & Hid2 & _)%next_action_Ok Heq.
  rewrite Hc1, Hc2 in Heq. simpl in Heq. rewrite Hid1, Hid2 in Heq. injection Heq as ->.
  pose proof (linked_shape _ _ (inv_shape _ _ _ Hb _ _ Hc1) Hid1) as Hs1.
  pose proof (linked_shape _ _ (inv_shape _ _ _ Hb _ _ Hc2) Hid2) as Hs2.
  rewrite Hs1, Hk1 in Hc1. rewrite Hs2, Hk2 in Hc2. by eapply (inv_one_approval _ _ _ Hb).
Qed.

(** Some workflow was finished by the commit [ref]. *)
Definition applied (ref : MembershipCommitReference) (b : MembershipCommandBook) : Prop :=
  ∃ w f, b.(workflows) !! w = Some f ∧ f.(wf_phase) = WCommitted (Applied ref).

Lemma applied_change ref b op b' :
  change b op b' → applied ref b' →
  applied ref b ∨ op = OpObserve ref.(ref_command_id) (ResolutionCommitted ref).
Proof.
  intros Hch (w & f & Hw & Hp). unfold applied.
  assert (∀ w' g p b0, b0.(workflows) = b.(workflows) → b.(workflows) !! w' = Some g →
    (set_phase w' g p b0).(workflows) !! w = Some f →
    (∃ w f, b.(workflows) !! w = Some f ∧ f.(wf_phase) = WCommitted (Applied ref)) ∨
    p = WCommitted (Applied ref)) as Hset.
  { intros w' g p b0 Heq Hg. simpl. rewrite Heq, lookup_insert_Some.
    intros [[<- <-]|[_ ?]]; [by right|left; eauto]. }
  destruct Hch as [cmd r Hun|cmd Hun Hact Hnone|cmd r g p Hun Hg Hm Hs Hph|cmd g Hun Hg Hm Hph
    |c res sc w' g ctx auth rc p Hc Hk Hsid Hg Hph Hr|c rej sc w' g Hc Hk Hsid Hg Hph
    |c rej sc w' g ctx auth Hc Hk Hsid Hg Hph].
  - left. eauto.
  - left. simpl in Hw. apply lookup_insert_Some in Hw as [[<- <-]|[_ ?]]; [done|eauto].
  - apply Hset in Hw as [?| ->]; [by left| |done..]. case_decide; [done|]. left. eauto.
  - by apply Hset in Hw as [?|?]; [left| |..].
  - apply Hset in Hw as [?| ->]; [by left| |done..]. right.
    pose proof (resolve_intent_move w _ _ _ _ _ _ _ _ Hr) as Hmv.
    inversion Hmv; subst; try done; by destruct rc.
  - left. simpl in Hw. apply lookup_delete_Some in Hw as [_ Hw]. eauto.
  - by apply Hset in Hw as [?|?]; [left| |..].
Qed.

(** A receipt reports a commit as applied only after the Sequencer's
    resolution with that very reference was observed, and the reference names
    the approval of the receipt's workflow: its command, digest and scope. *)
Theorem applied_commit_was_observed ops b c r ref :
  steps MembershipCommandBook_new ops b → receipt b c = Ok r →
  r.(rc_phase) = Committed (Applied ref) →
  OpObserve ref.(ref_command_id) (ResolutionCommitted ref) ∈ ops ∧
  ∃ w f, b.(commands) !! c ≫= sc_workflow_id = Some w ∧ b.(workflows) !! w = Some f ∧
    ref.(ref_scope) = f.(wf_context).(ctx_scope) ∧
    b.(commands) !! ref.(ref_command_id) =
      Some (StoredCommand_workflow ApproveJoin ref.(ref_request_digest) w).
Proof.
  intros Hops (sc & Hc & _ & _ & Hm)%receipt_for_Ok Hph.
  pose proof (steps_wf _ _ _ _ _ Hops (wf_new _ _)) as Hwf.
  pose proof (inv_shape _ _ _ Hwf _ _ Hc) as Hsh.
  destruct (sc_workflow_id sc) as [w|] eqn:Hid, (sc_terminal_phase sc) as [p|] eqn:Ht; try done.
  2: { subst p. destruct Hsh; simplify_eq/=; congruence. }
  destruct Hm as (f & Hw & Hp). rewrite Hph in Hp.
  assert (f.(wf_phase) = WCommitted (Applied ref)) as Hpf.
  { by destruct (wf_phase f); simplify_eq/=. }
  split.
  - cut (applied ref b → applied ref MembershipCommandBook_new ∨
      OpObserve ref.(ref_command_id) (ResolutionCommitted ref) ∈ ops).
    { intros Hcut. destruct Hcut as [(w' & f' & Hw' & _)|?]; [by exists w, f| |done].
      simpl in Hw'. by rewrite lookup_empty in Hw'. }
    clear -Hops. generalize (wf_new hyphenated sha256). intros Hwf.
    induction Hops as [|b op res b1 ops b2 Hauth Hrun Hrest IH]; [auto|].
    destruct (run_op_step _ _ _ _ _ _ Hwf Hauth Hrun) as [Hwf1 Hcase].
    intros Ha. destruct (IH Hwf1 Ha) as [Ha1|?]; [|right; set_solver].
    destruct Hcase as [->|[Hch _]]; [by left|].
    destruct (applied_change _ _ _ _ Hch Ha1) as [?| ->]; [by left|right; set_solver].
  - exists w, f. rewrite Hc. simpl. pose proof (inv_workflow _ _ _ Hwf _ _ Hw) as [_ _ _ _ Hok].
    rewrite Hpf in Hok. naive_solver.
Qed.
End props.
