(* ===== verification/MembershipSnapshot.v ===== *)
(** * Membership commands: the durable image of the book

    Models the storage half of
    [crates/dtx-membership-command/src/membership/book.rs] and [codec.rs]:
    [snapshot], [try_from_snapshot] and the graph validation, and shows that
    every reachable book is restored exactly from its own image. *)

From S2P Require Import Prelude Domain GroupPolicy CanonicalCbor WirePrimitives.
From S2P Require Import MembershipCommand MembershipInv.

(** ** The storage-neutral records of [header.rs] *)

Inductive MembershipCommandKind : Type := KindRequestJoin | KindApproveJoin.

Record MembershipIdempotencyPersistence : Type := {
  ip_scope : GroupScope;
  ip_actor_identity_id : IdentityId;
  ip_idempotency_key_hash : Sha256Digest
}.

Record MembershipCommandPersistence : Type := {
  cp_command_id : MembershipCommandId;
  cp_kind : MembershipCommandKind;
  cp_request_digest : Sha256Digest;
  cp_workflow_id : option JoinRequestId;
  cp_terminal_phase : option MembershipCommandPhase;
  cp_idempotency : MembershipIdempotencyPersistence
}.

Inductive MembershipWorkflowPersistencePhase : Type :=
| PPendingApproval
| PPendingCommit (approval_command_id : MembershipCommandId)
    (approval_context : MembershipCommandContext) (authorization_digest : Sha256Digest)
| PReconciling (approval_command_id : MembershipCommandId)
    (approval_context : MembershipCommandContext) (authorization_digest : Sha256Digest)
| PCommitted (admission : MembershipAdmission)
| PRejected (rejection : MembershipRejection).

Record MembershipWorkflowPersistence : Type := {
  wp_join_request_id : JoinRequestId;
  wp_context : MembershipCommandContext;
  wp_phase : MembershipWorkflowPersistencePhase
}.

Record MembershipCommandBookSnapshot : Type := {
  snap_commands : list MembershipCommandPersistence;
  snap_workflows : list MembershipWorkflowPersistence
}.

Definition persistence_kind (self : CommandKind) : MembershipCommandKind :=
  match self with RequestJoin => KindRequestJoin | ApproveJoin => KindApproveJoin end.
Definition kind_from_persistence (kind : MembershipCommandKind) : CommandKind :=
  match kind with KindRequestJoin => RequestJoin | KindApproveJoin => ApproveJoin end.

Definition lookup_persistence (self : IdempotencyLookup) : MembershipIdempotencyPersistence :=
  {| ip_scope := self.(il_scope); ip_actor_identity_id := self.(il_actor_identity_id);
     ip_idempotency_key_hash := self.(il_idempotency_key_hash) |}.
Definition lookup_from_persistence (value : MembershipIdempotencyPersistence) :
    IdempotencyLookup :=
  {| il_scope := value.(ip_scope); il_actor_identity_id := value.(ip_actor_identity_id);
     il_idempotency_key_hash := value.(ip_idempotency_key_hash) |}.

Definition persistence_phase (self : WorkflowPhase) : MembershipWorkflowPersistencePhase :=
  match self with
  | WPendingApproval => PPendingApproval
  | WPendingCommit id ctx auth => PPendingCommit id ctx auth
  | WReconciling id ctx auth => PReconciling id ctx auth
  | WCommitted admission => PCommitted admission
  | WRejected rejection => PRejected rejection
  end.
Definition phase_from_persistence (phase : MembershipWorkflowPersistencePhase) : WorkflowPhase :=
  match phase with
  | PPendingApproval => WPendingApproval
  | PPendingCommit id ctx auth => WPendingCommit id ctx auth
  | PReconciling id ctx auth => WReconciling id ctx auth
  | PCommitted admission => WCommitted admission
  | PRejected rejection => WRejected rejection
  end.

(** ** [snapshot] *)

Definition command_row (lookup : IdempotencyLookup) (command_id : MembershipCommandId)
    (command : StoredCommand) : MembershipCommandPersistence :=
  {| cp_command_id := command_id;
     cp_kind := persistence_kind command.(sc_kind);
     cp_request_digest := command.(sc_request_digest);
     cp_workflow_id := command.(sc_workflow_id);
     cp_terminal_phase := command.(sc_terminal_phase);
     cp_idempotency := lookup_persistence lookup |}.

Definition workflow_row (e : JoinRequestId * JoinWorkflow) : MembershipWorkflowPersistence :=
  {| wp_join_request_id := e.1;
     wp_context := e.2.(wf_context);
     wp_phase := persistence_phase e.2.(wf_phase) |}.

(** The first loop: the replay key of each command. *)
Definition invert_idempotency (m : gmap IdempotencyLookup MembershipCommandId) :
    Res (gmap MembershipCommandId IdempotencyLookup) :=
  try_fold (λ by_command e,
      reject InvariantViolation when (is_Some (by_command !! e.2));;
      Ok (<[e.2 := e.1]> by_command))
    (btree_iter m) ∅.

Definition snapshot (self : MembershipCommandBook) : Res MembershipCommandBookSnapshot :=
  idempotency_by_command ← invert_idempotency self.(idempotency);
  rest ← try_fold (λ '(by_command, rows) e,
             lookup ← ok_or (by_command !! e.1) InvariantViolation;
             Ok (delete e.1 by_command, rows ++ [command_row lookup e.1 e.2]))
           (btree_iter self.(commands)) (idempotency_by_command, []);
  reject InvariantViolation when (rest.1 ≠ ∅);;
  Ok {| snap_commands := rest.2;
        snap_workflows := workflow_row <$> btree_iter self.(workflows) |}.

(** ** Graph validation *)

Definition scope_for_command (command : MembershipCommandPersistence)
    (ws : gmap JoinRequestId JoinWorkflow) : Res GroupScope :=
  match command.(cp_workflow_id) with
  | None => Ok command.(cp_idempotency).(ip_scope)
  | Some workflow_id =>
      ok_or ((λ w, w.(wf_context).(ctx_scope)) <$> ws !! workflow_id) InvariantViolation
  end.

Definition scope_for_stored_command (command : StoredCommand)
    (ws : gmap JoinRequestId JoinWorkflow) : Res (option GroupScope) :=
  match command.(sc_workflow_id), command.(sc_terminal_phase) with
  | Some workflow_id, None =>
      ok_or ((λ w, Some w.(wf_context).(ctx_scope)) <$> ws !! workflow_id) InvariantViolation
  | None, Some (Committed admission) => Ok (Some (commit_reference admission).(ref_scope))
  | None, Some (Rejected _) | None, None => Ok None
  | _, _ => Err InvariantViolation
  end.

Definition validate_terminal_command (command : StoredCommand)
    (phase : MembershipCommandPhase) : Res unit :=
  match command.(sc_kind), phase with
  | RequestJoin, Rejected _
  | RequestJoin, Committed (AdmissionAlreadyMember _)
  | ApproveJoin, Committed (AdmissionAlreadyMember _) => Ok tt
  | _, _ => Err InvariantViolation
  end.

(** [approvals.next()] twice on the filtered iterator. *)
Definition single_workflow_approval (book : MembershipCommandBook) (workflow_id : JoinRequestId) :
    Res (option (MembershipCommandId * StoredCommand)) :=
  match filter (λ e : MembershipCommandId * StoredCommand,
            e.2.(sc_kind) = ApproveJoin ∧ e.2.(sc_workflow_id) = Some workflow_id)
          (btree_iter book.(commands)) with
  | [] => Ok None
  | [approval] => Ok (Some approval)
  | _ :: _ :: _ => Err InvariantViolation
  end.

Section validation.
Context (hyphenated : Z → bytes) (sha256 : bytes → bytes).

(** The digest comparisons compute the digest anew; see [command_digest] for
    the impossible case of a panic. *)
Definition is_approval_digest (context : MembershipCommandContext)
    (authorization_digest digest : Sha256Digest) : bool :=
  bool_decide (aj_request_digest <$>
    ApproveJoinCommand_new hyphenated sha256 context authorization_digest = Some digest).

Definition is_request_digest (context : MembershipCommandContext) (digest : Sha256Digest) : bool :=
  bool_decide (join_request_digest hyphenated sha256 context = Some digest).

Definition validate_workflow_command (command_id : MembershipCommandId)
    (command : StoredCommand) (workflow : JoinWorkflow) : Res unit :=
  match command.(sc_kind) with
  | RequestJoin =>
      if is_request_digest workflow.(wf_context) command.(sc_request_digest)
      then Ok tt else Err InvariantViolation
  | ApproveJoin =>
      match workflow.(wf_phase) with
      | WPendingCommit approval_command_id approval_context authorization_digest
      | WReconciling approval_command_id approval_context authorization_digest =>
          if bool_decide (approval_command_id = command_id) &&
             workflow_context_matches workflow.(wf_context) approval_context &&
             is_approval_digest approval_context authorization_digest command.(sc_request_digest)
          then Ok tt else Err InvariantViolation
      | WCommitted _ | WRejected _ => Ok tt
      | WPendingApproval => Err InvariantViolation
      end
  end.

(** [WorkflowPhase::validate] *)
Definition validate_phase (self : WorkflowPhase) (workflow_id : JoinRequestId)
    (context : MembershipCommandContext) (book : MembershipCommandBook) : Res unit :=
  match self with
  | WPendingApproval => Ok tt
  | WPendingCommit approval_command_id approval_context authorization_digest
  | WReconciling approval_command_id approval_context authorization_digest =>
      reject InvariantViolation when (workflow_context_matches context approval_context = false);;
      command ← ok_or (book.(commands) !! approval_command_id) InvariantViolation;
      reject InvariantViolation when
        (command.(sc_kind) ≠ ApproveJoin ∨ command.(sc_workflow_id) ≠ Some workflow_id ∨
         is_approval_digest approval_context authorization_digest
           command.(sc_request_digest) = false);;
      Ok tt
  | WCommitted (Applied reference) =>
      approval ← single_workflow_approval book workflow_id;
      match approval with
      | None => Err InvariantViolation
      | Some (approval_command_id, approval) =>
          reject InvariantViolation when
            (reference.(ref_scope) ≠ context.(ctx_scope) ∨
             approval_command_id ≠ reference.(ref_command_id) ∨
             approval.(sc_request_digest) ≠ reference.(ref_request_digest));;
          Ok tt
      end
  | WCommitted (AdmissionAlreadyMember reference) =>
      reject InvariantViolation when (reference.(ref_scope) ≠ context.(ctx_scope));;
      _ ← single_workflow_approval book workflow_id;
      if existsb (λ command,
           bool_decide (command.(sc_kind) = ApproveJoin) &&
           bool_decide (command.(sc_workflow_id) = None) &&
           bool_decide (command.(sc_terminal_phase) =
                        Some (Committed (AdmissionAlreadyMember reference))))
         (btree_values book.(commands))
      then Ok tt else Err InvariantViolation
  | WRejected _ =>
      approval ← single_workflow_approval book workflow_id;
      match approval with Some _ => Ok tt | None => Err InvariantViolation end
  end.

(** The three loops of [validate_snapshot_graph]. *)
Definition check_key (self : MembershipCommandBook) (mapped_commands : gset MembershipCommandId)
    (e : IdempotencyLookup * MembershipCommandId) : Res (gset MembershipCommandId) :=
  command ← ok_or (self.(commands) !! e.2) InvariantViolation;
  reject InvariantViolation when (e.2 ∈ mapped_commands);;
  scope ← scope_for_stored_command command self.(workflows);
  match scope with
  | Some scope => reject InvariantViolation when (e.1.(il_scope) ≠ scope)
  | None => Ok tt
  end;;
  Ok ({[e.2]} ∪ mapped_commands).

Definition check_command (self : MembershipCommandBook)
    (e : MembershipCommandId * StoredCommand) : Res unit :=
  match e.2.(sc_workflow_id), e.2.(sc_terminal_phase) with
  | Some workflow_id, None =>
      workflow ← ok_or (self.(workflows) !! workflow_id) InvariantViolation;
      validate_workflow_command e.1 e.2 workflow
  | None, Some phase =>
      if is_terminal phase then validate_terminal_command e.2 phase else Err InvariantViolation
  | _, _ => Err InvariantViolation
  end.

Definition has_request (self : MembershipCommandBook) (workflow_id : JoinRequestId)
    (workflow : JoinWorkflow) : bool :=
  existsb (λ '(command_id, command),
      bool_decide (command.(sc_kind) = RequestJoin) &&
      bool_decide (command.(sc_workflow_id) = Some workflow_id) &&
      is_request_digest workflow.(wf_context) command.(sc_request_digest) &&
      existsb (λ '(lookup, mapped),
          bool_decide (mapped = command_id) &&
          bool_decide (lookup = IdempotencyLookup_new workflow.(wf_context)))
        (btree_iter self.(idempotency)))
    (btree_iter self.(commands)).

Definition check_workflow (self : MembershipCommandBook)
    (e : JoinRequestId * JoinWorkflow) : Res unit :=
  reject InvariantViolation when
    (e.2.(wf_context).(ctx_join_request_id) ≠ e.1 ∨
     e.2.(wf_context).(ctx_actor_identity_id) ≠ e.2.(wf_context).(ctx_candidate_identity_id));;
  reject InvariantViolation when (has_request self e.1 e.2 = false);;
  validate_phase e.2.(wf_phase) e.1 e.2.(wf_context) self.

Definition validate_snapshot_graph (self : MembershipCommandBook) : Res unit :=
  mapped_commands ← try_fold (check_key self) (btree_iter self.(idempotency)) ∅;
  reject InvariantViolation when (size mapped_commands ≠ size self.(commands));;
  try_fold (λ _, check_command self) (btree_iter self.(commands)) tt;;
  try_fold (λ _, check_workflow self) (btree_iter self.(workflows)) tt.

(** ** [try_from_snapshot] *)

Definition load_workflow (ws : gmap JoinRequestId JoinWorkflow)
    (persisted : MembershipWorkflowPersistence) : Res (gmap JoinRequestId JoinWorkflow) :=
  reject InvariantViolation when
    (persisted.(wp_join_request_id) ≠ persisted.(wp_context).(ctx_join_request_id) ∨
     persisted.(wp_context).(ctx_actor_identity_id) ≠
       persisted.(wp_context).(ctx_candidate_identity_id) ∨
     is_Some (ws !! persisted.(wp_join_request_id)));;
  Ok (<[persisted.(wp_join_request_id) :=
         {| wf_context := persisted.(wp_context);
            wf_phase := phase_from_persistence persisted.(wp_phase) |}]> ws).

Definition stored_command (persisted : MembershipCommandPersistence) : StoredCommand :=
  {| sc_kind := kind_from_persistence persisted.(cp_kind);
     sc_request_digest := persisted.(cp_request_digest);
     sc_workflow_id := persisted.(cp_workflow_id);
     sc_terminal_phase := persisted.(cp_terminal_phase) |}.

Definition load_command (ws : gmap JoinRequestId JoinWorkflow)
    (s : gmap MembershipCommandId StoredCommand * gmap IdempotencyLookup MembershipCommandId)
    (persisted : MembershipCommandPersistence) :
    Res (gmap MembershipCommandId StoredCommand * gmap IdempotencyLookup MembershipCommandId) :=
  scope ← scope_for_command persisted ws;
  reject InvariantViolation when (persisted.(cp_idempotency).(ip_scope) ≠ scope);;
  let lookup := lookup_from_persistence persisted.(cp_idempotency) in
  reject InvariantViolation when
    (is_Some (s.2 !! lookup) ∨ is_Some (s.1 !! persisted.(cp_command_id)));;
  Ok (<[persisted.(cp_command_id) := stored_command persisted]> s.1,
      <[lookup := persisted.(cp_command_id)]> s.2).

Definition try_from_snapshot (s : MembershipCommandBookSnapshot) : Res MembershipCommandBook :=
  ws ← try_fold load_workflow s.(snap_workflows) ∅;
  loaded ← try_fold (load_command ws) s.(snap_commands) (∅, ∅);
  let book := Book loaded.1 loaded.2 ws in
  validate_snapshot_graph book;;
  Ok book.
End validation.
