(* ===== verification/MembershipReload.v ===== *)
(** * Membership commands: saving and reloading the book

    Every reachable book has an image and is restored exactly from it; a book
    that was loaded is saved as the rows it was loaded from; and the rows that
    the loader accepts are not only those of reachable books. *)

From S2P Require Import Prelude Domain GroupPolicy CanonicalCbor WirePrimitives.
From S2P Require Import MembershipCommand MembershipInv MembershipSnapshot.

(** ** Loops *)

(** A loop that only checks. *)
Lemma try_fold_checks {E A} (check : A → result E unit) l :
  (∀ x, x ∈ l → check x = Ok tt) → try_fold (λ _, check) l tt = Ok tt.
Proof.
  induction l as [|x l IH]; intros Hall; [done|]. simpl.
  rewrite (Hall x) by set_solver. apply IH. set_solver.
Qed.

Lemma swap_NoDup {K V} `{Countable K, !Ord K} (m : gmap K V) :
  (∀ k1 k2 v, m !! k1 = Some v → m !! k2 = Some v → k1 = k2) →
  NoDup (btree_iter m).*2.
Proof.
  intros Hinj. pose proof (btree_iter_NoDup_keys m) as Hnd.
  assert (∀ k v, (k, v) ∈ btree_iter m → m !! k = Some v) as Hin.
  { intros k v. by rewrite elem_of_btree_iter. }
  induction (btree_iter m) as [|[k v] l IH]; simpl in *; [constructor|].
  apply NoDup_cons in Hnd as [Hk Hnd]. constructor.
  - intros ([k' v'] & Hv & Hkv)%list_elem_of_fmap. simpl in Hv. subst v'. apply Hk.
    rewrite (Hinj k k' v); [by apply (list_elem_of_fmap_2 fst) in Hkv| |]; apply Hin; set_solver.
  - apply IH; [done|]. intros. apply Hin. set_solver.
Qed.

Lemma lookup_foldl_insert {A K V} `{Countable K} (key : A → K) (val : A → V) l (k : K) (v : V) :
  NoDup (key <$> l) →
  foldl (λ m x, <[key x := val x]> m) (∅ : gmap K V) l !! k = Some v ↔ ∃ x, x ∈ l ∧ key x = k ∧ val x = v.
Proof.
  induction l as [|x l IH] using rev_ind; intros Hnd; simpl; [set_solver|].
  rewrite fmap_app in Hnd. apply NoDup_app in Hnd as (Hnd & Hd & _).
  rewrite foldl_app. simpl. rewrite lookup_insert_Some, (IH Hnd). split.
  - intros [[<- <-]|[_ (y & ? & ? & ?)]]; [exists x|exists y]; set_solver.
  - intros (y & [Hy|Hy]%elem_of_app & <- & <-).
    + right. split; [|eauto]. intros Heq. apply (Hd (key y)); [set_solver|]. rewrite <-Heq. set_solver.
    + left. by apply list_elem_of_singleton in Hy as ->.
Qed.

Lemma foldl_insert_None {A K V} `{Countable K} (key : A → K) (val : A → V) l (k : K) :
  foldl (λ m x, <[key x := val x]> m) (∅ : gmap K V) l !! k = None ↔ k ∉ key <$> l.
Proof.
  induction l as [|x l IH] using rev_ind; [set_solver|].
  rewrite foldl_app, fmap_app. cbn. rewrite lookup_insert_None, IH. set_solver.
Qed.

(** ** Saving *)

Section save.
Context (b : MembershipCommandBook) (Hb : keyed b).

Lemma invert_idempotency_Ok :
  ∃ m, invert_idempotency b.(idempotency) = Ok m ∧
    ∀ c l, m !! c = Some l ↔ b.(idempotency) !! l = Some c.
Proof using Hb.
  unfold invert_idempotency. eexists. split.
  - apply (try_fold_guarded _ (λ m e, m !! e.2 = None) (λ m e, <[e.2 := e.1]> m)).
    { intros m e m'. unfold reject_if. rewrite eq_None_not_Some. case_decide; cbn; naive_solver. }
    split; [|done]. intros pre e post Heq. apply foldl_insert_None.
    pose proof (swap_NoDup _ (kd_key_inj _ Hb)) as Hnd. rewrite Heq, fmap_app in Hnd.
    apply NoDup_app in Hnd as (_ & Hd & _). intros Hin. apply (Hd e.2); [done|]. cbn. set_solver.
  - intros c l. rewrite lookup_foldl_insert by apply (swap_NoDup _ (kd_key_inj _ Hb)). split.
    + intros ([l' c'] & Hin & <- & <-). by apply elem_of_btree_iter.
    + intros Hl. exists (l, c). by rewrite elem_of_btree_iter.
Qed.

(** The rows of the image: each command with its one replay key. *)
Definition image_rows (rows : list MembershipCommandPersistence) : Prop :=
  Forall2 (λ e row, ∃ l, b.(idempotency) !! l = Some e.1 ∧ row = command_row l e.1 e.2)
    (btree_iter b.(commands)) rows.

Lemma snapshot_keyed :
  ∃ s, snapshot b = Ok s ∧ image_rows s.(snap_commands) ∧
    s.(snap_workflows) = workflow_row <$> btree_iter b.(workflows).
Proof using Hb.
  destruct invert_idempotency_Ok as (m0 & Hinv & Hm0). unfold snapshot. rewrite Hinv. simpl.
  set (body := λ '(by_command, rows) e, _).
  destruct (try_fold_total body (λ s pre,
    Forall2 (λ e row, ∃ l, b.(idempotency) !! l = Some e.1 ∧ row = command_row l e.1 e.2) pre s.2 ∧
    ∀ c, s.1 !! c = if decide (c ∈ pre.*1) then None else m0 !! c)
    (btree_iter b.(commands)) (m0, [])) as ([m rows] & Hfold & Hrows & Hm).
  { split; [constructor|]. intros c. case_decide as Hin; [|done]. by apply elem_of_nil in Hin. }
  { intros pre [c sc] post [m rows] Heq [Hrows Hm].
    assert (Hc : b.(commands) !! c = Some sc).
    { apply elem_of_btree_iter. rewrite Heq. set_solver. }
    destruct (kd_command_key _ Hb _ _ Hc) as [l Hl].
    pose proof (btree_iter_NoDup_keys b.(commands)) as Hnd. rewrite Heq, fmap_app in Hnd.
    apply NoDup_app in Hnd as (_ & Hd & _).
    assert (c ∉ pre.*1) as Hc'. { intros Hin. apply (Hd c Hin). cbn. set_solver. }
    simpl in Hm. pose proof (Hm c) as Hmc. rewrite decide_False in Hmc by done.
    exists (delete c m, rows ++ [command_row l c sc]). split_and!.
    - unfold body. simpl. rewrite Hmc. by rewrite (proj2 (Hm0 c l) Hl).
    - simpl. apply Forall2_app; [done|]. constructor; [|constructor]. eauto.
    - intros c'. simpl. rewrite fmap_app. destruct (decide (c = c')) as [<-|Hne].
      + rewrite lookup_delete_eq, decide_True; [done|]. set_solver.
      + rewrite lookup_delete_ne by done. rewrite Hm. repeat case_decide; set_solver. }
  unfold mbind, result_bind in Hfold |- *. rewrite Hfold. simpl in *.
  assert (m = ∅) as ->.
  { apply map_empty. intros c. rewrite Hm. case_decide as Hin; [done|].
    destruct (m0 !! c) as [l|] eqn:Hl; [|done]. apply Hm0 in Hl.
    destruct (kd_key_command _ Hb _ _ Hl) as [sc Hsc]. exfalso. apply Hin.
    apply list_elem_of_fmap. exists (c, sc). by rewrite elem_of_btree_iter. }
  eexists. unfold reject_if. rewrite decide_False by tauto. done.
Qed.
End save.

(** ** The graph of a well-formed book is accepted *)

Section graph.
Context (hyphenated : Z → bytes) (sha256 : bytes → bytes).
Context (b : MembershipCommandBook) (Hwf : wf hyphenated sha256 b).

Lemma scope_for_stored_Ok c sc :
  b.(commands) !! c = Some sc →
  scope_for_stored_command sc b.(workflows) = Ok (command_scope b sc).
Proof using Hwf.
  intros Hc. pose proof (inv_shape _ _ _ Hwf _ _ Hc) as Hsh. destruct Hsh; try done.
  unfold scope_for_stored_command, command_scope; simpl.
  by destruct (inv_linked _ _ _ Hwf _ _ _ _ Hc) as [f ->].
Qed.

Lemma check_keys_Ok :
  ∃ mapped, try_fold (check_key b) (btree_iter b.(idempotency)) ∅ = Ok mapped ∧
    mapped = list_to_set (btree_iter b.(idempotency)).*2.
Proof using Hwf.
  apply (try_fold_total (check_key b) (λ s pre, s = list_to_set pre.*2)); [done|].
  intros pre [l c] post s Heq ->.
  assert (Hl : b.(idempotency) !! l = Some c).
  { apply elem_of_btree_iter. rewrite Heq. set_solver. }
  destruct (inv_key_command _ _ _ Hwf _ _ Hl) as [sc Hc].
  eexists. split; [|by rewrite fmap_app, list_to_set_app_L, (comm_L (∪)); cbn; rewrite (right_id_L ∅ (∪))].
  unfold check_key. simpl. rewrite Hc. simpl. rewrite (scope_for_stored_Ok c sc Hc).
  ok_step.
  - rewrite elem_of_list_to_set. intros Hin.
    pose proof (swap_NoDup _ (inv_key_inj _ _ _ Hwf)) as Hnd. rewrite Heq, fmap_app in Hnd.
    apply NoDup_app in Hnd as (_ & Hd & _). apply (Hd c Hin). cbn. set_solver.
  - simpl. destruct (command_scope b sc) as [s|] eqn:Hs; [|done].
    unfold reject_if. rewrite decide_False; [done|].
    intros Hne. apply Hne. by eapply (inv_key_scope _ _ _ Hwf).
Qed.

Lemma mapped_size :
  size (list_to_set (btree_iter b.(idempotency)).*2 : gset MembershipCommandId) =
  size b.(commands).
Proof using Hwf.
  rewrite <-size_dom. f_equal. apply set_eq. intros c.
  rewrite elem_of_list_to_set, elem_of_dom, list_elem_of_fmap. split.
  - intros ([l c'] & -> & Hl). apply elem_of_btree_iter in Hl.
    by eapply (inv_key_command _ _ _ Hwf).
  - intros [sc Hc]. destruct (inv_command_key _ _ _ Hwf _ _ Hc) as [l Hl].
    exists (l, c). by rewrite elem_of_btree_iter.
Qed.

Lemma is_approval_digest_true ctx auth d :
  command_digest hyphenated sha256 ApproveJoin ctx (Some auth) = Some d →
  is_approval_digest hyphenated sha256 ctx auth d = true.
Proof.
  intros Hd. unfold is_approval_digest, ApproveJoinCommand_new. rewrite Hd. simpl.
  by rewrite bool_decide_true.
Qed.

Lemma check_command_Ok c sc :
  b.(commands) !! c = Some sc → check_command hyphenated sha256 b (c, sc) = Ok tt.
Proof using Hwf.
  intros Hc. unfold check_command. simpl.
  pose proof (inv_shape _ _ _ Hwf _ _ Hc) as Hsh.
  destruct Hsh as [kind d w|kind d ref|d rej]; simpl; [|by destruct kind|done].
  destruct (inv_linked _ _ _ Hwf _ _ _ _ Hc) as [f Hf]. rewrite Hf. simpl.
  destruct (inv_workflow _ _ _ Hwf _ _ Hf) as [_ _ (d' & Hd' & Hreq) _ Hph].
  unfold validate_workflow_command. destruct kind; simpl.
  - pose proof (inv_one_request _ _ _ Hwf _ _ _ _ Hc Hf) as Hid. rewrite Hid, Hc in Hreq.
    simplify_eq. unfold is_request_digest. by rewrite bool_decide_true.
  - assert (∀ a actx auth, phase_ok hyphenated sha256 b.(commands) w f.(wf_context)
        (WPendingCommit a actx auth) →
      bool_decide (a = c) && workflow_context_matches f.(wf_context) actx &&
      is_approval_digest hyphenated sha256 actx auth d = true) as Hint.
    { intros a actx auth (Hm & Hid & d2 & Ha & Hd2).
      pose proof (inv_one_approval _ _ _ Hwf _ _ _ _ _ Ha Hc) as ->.
      rewrite Ha in Hc. simplify_eq. rewrite bool_decide_true, Hm by done. simpl.
      by apply is_approval_digest_true. }
    destruct (wf_phase f) as [|a actx auth|a actx auth| |] eqn:Hp; simpl in *.
    + exfalso. by eapply Hph.
    + by rewrite (Hint _ _ _ Hph).
    + by rewrite (Hint _ _ _ Hph).
    + done.
    + done.
Qed.

Lemma has_request_true w f :
  b.(workflows) !! w = Some f → has_request hyphenated sha256 b w f = true.
Proof using Hwf.
  intros Hf. destruct (inv_workflow _ _ _ Hwf _ _ Hf) as [_ _ (d & Hd & Hreq) Hkey _].
  unfold has_request. apply existsb_exists. eexists (_, _). split.
  { by apply list_elem_of_In, elem_of_btree_iter. }
  rewrite !andb_true_iff. split_and!; [by rewrite bool_decide_eq_true..| |].
  - unfold is_request_digest. by rewrite bool_decide_eq_true.
  - apply existsb_exists. eexists (_, _). split.
    { by apply list_elem_of_In, elem_of_btree_iter. }
    by rewrite andb_true_iff, !bool_decide_eq_true.
Qed.

Lemma single_approval_Ok w :
  ∃ o, single_workflow_approval b w = Ok o ∧
    ∀ c d, b.(commands) !! c = Some (StoredCommand_workflow ApproveJoin d w) →
      o = Some (c, StoredCommand_workflow ApproveJoin d w).
Proof using Hwf.
  unfold single_workflow_approval. set (l := filter _ _).
  assert (∀ c sc, (c, sc) ∈ l ↔ b.(commands) !! c = Some sc ∧
    sc = StoredCommand_workflow ApproveJoin sc.(sc_request_digest) w) as Hl.
  { intros c sc. unfold l. rewrite list_elem_of_filter, elem_of_btree_iter. simpl. split.
    - intros [[Hk Hid] Hc]. split; [done|].
      rewrite (linked_shape _ _ (inv_shape _ _ _ Hwf _ _ Hc) Hid) at 1. by rewrite Hk.
    - intros [Hc Hsc]. split; [|done]. by rewrite Hsc. }
  assert (NoDup l) as Hnd.
  { apply NoDup_filter. eapply (NoDup_fmap_1 fst), btree_iter_NoDup_keys. }
  destruct l as [|[c1 sc1] [|[c2 sc2] l]].
  - exists None. split; [done|]. intros c d Hc.
    exfalso.
    by apply (elem_of_nil (c, StoredCommand_workflow ApproveJoin d w)), Hl.
  - eexists. split; [done|]. intros c d Hc.
    pose proof (proj2 (Hl c _) (conj Hc eq_refl)) as Hin. apply list_elem_of_singleton in Hin. congruence.
  - exfalso. destruct (proj1 (Hl c1 sc1)) as [H1 E1]; [set_solver|].
    destruct (proj1 (Hl c2 sc2)) as [H2 E2]; [set_solver|].
    rewrite E1 in H1. rewrite E2 in H2.
    pose proof (inv_one_approval _ _ _ Hwf _ _ _ _ _ H1 H2) as ->.
    rewrite H1 in H2. apply NoDup_cons in Hnd as [Hn _]. apply Hn.
    rewrite E1, E2. injection H2 as ->. set_solver.
Qed.

Lemma validate_phase_Ok w f :
  b.(workflows) !! w = Some f →
  validate_phase hyphenated sha256 f.(wf_phase) w f.(wf_context) b = Ok tt.
Proof using Hwf.
  intros Hf. pose proof (wo_phase _ _ _ _ _ (inv_workflow _ _ _ Hwf _ _ Hf)) as Hph.
  destruct (single_approval_Ok w) as (o & Ho & Hall).
  assert (∀ a actx auth, phase_ok hyphenated sha256 b.(commands) w f.(wf_context)
      (WPendingCommit a actx auth) →
    validate_phase hyphenated sha256 (WPendingCommit a actx auth) w f.(wf_context) b = Ok tt) as Hint.
  { intros a actx auth (Hm & Hid & d & Ha & Hd). simpl. rewrite Hm, Ha. simpl. unfold reject_if.
    simpl. rewrite decide_False; [done|].
    rewrite (is_approval_digest_true _ _ _ Hd). naive_solver. }
  destruct (wf_phase f) as [|a actx auth|a actx auth|[ref|ref]|rej]; simpl in Hph.
  - done.
  - by apply Hint.
  - by apply Hint.
  - destruct Hph as [Hs Hc]. simpl. rewrite Ho, (Hall _ _ Hc). simpl.
    unfold reject_if. rewrite decide_False; [done|]. naive_solver.
  - destruct Hph as (Hs & c & d & Hc). simpl. unfold reject_if.
    rewrite decide_False by tauto. simpl. rewrite Ho. simpl.
    rewrite (proj2 (existsb_exists _ _)); [done|]. eexists. split.
    { apply list_elem_of_In, elem_of_btree_values. by exists c. }
    by rewrite !andb_true_iff, !bool_decide_eq_true.
  - destruct Hph as (a & d & Ha). simpl. by rewrite Ho, (Hall _ _ Ha).
Qed.

Lemma validate_graph_Ok : validate_snapshot_graph hyphenated sha256 b = Ok tt.
Proof using Hwf.
  unfold validate_snapshot_graph. destruct check_keys_Ok as (mapped & -> & ->). simpl.
  ok_step; [rewrite mapped_size; tauto|].
  apply result_bind_Ok. exists tt. split; apply try_fold_checks.
  - intros [c sc] Hc%elem_of_btree_iter. by apply check_command_Ok.
  - intros [w f] Hf%elem_of_btree_iter. unfold check_workflow. simpl.
    destruct (inv_workflow _ _ _ Hwf _ _ Hf) as [H1 H2 _ _ _].
    ok_step; [tauto|]. ok_step; [by rewrite has_request_true|]. by apply validate_phase_Ok.
Qed.
End graph.

(** ** Loading *)

Definition row_workflow (p : MembershipWorkflowPersistence) : JoinWorkflow :=
  {| wf_context := p.(wp_context); wf_phase := phase_from_persistence p.(wp_phase) |}.
Definition row_lookup (p : MembershipCommandPersistence) : IdempotencyLookup :=
  lookup_from_persistence p.(cp_idempotency).

Definition workflow_row_ok (p : MembershipWorkflowPersistence) : Prop :=
  p.(wp_join_request_id) = p.(wp_context).(ctx_join_request_id) ∧
  p.(wp_context).(ctx_actor_identity_id) = p.(wp_context).(ctx_candidate_identity_id).

Lemma load_workflows_Ok l ws :
  try_fold load_workflow l ∅ = Ok ws ↔
  (∀ p, p ∈ l → workflow_row_ok p) ∧ NoDup (wp_join_request_id <$> l) ∧
  ws = foldl (λ m p, <[p.(wp_join_request_id) := row_workflow p]> m) ∅ l.
Proof.
  rewrite (try_fold_guarded _
    (λ m p, workflow_row_ok p ∧ m !! p.(wp_join_request_id) = None)
    (λ m p, <[p.(wp_join_request_id) := row_workflow p]> m)).
  2: { intros m p m'. unfold load_workflow, workflow_row_ok, reject_if.
       rewrite eq_None_not_Some. case_decide; cbn; [naive_solver|].
       split; [|naive_solver]. intros [= <-]. split; [|done].
       split; [split; apply dec_stable; tauto|tauto]. }
  rewrite <-distinct_prefix_NoDup, <-prefix_forall. setoid_rewrite foldl_insert_None.
  split.
  - intros [Hall ->]. split_and!; [| |done]; intros; by eapply Hall.
  - intros (H1 & H2 & ->). split; [|done]. intros pre x post Hl. split; [by eapply H1|by eapply H2].
Qed.

Definition command_row_ok (ws : gmap JoinRequestId JoinWorkflow)
    (p : MembershipCommandPersistence) : Prop :=
  scope_for_command p ws = Ok p.(cp_idempotency).(ip_scope).

Definition loaded (l : list MembershipCommandPersistence) :
    gmap MembershipCommandId StoredCommand * gmap IdempotencyLookup MembershipCommandId :=
  (foldl (λ m p, <[p.(cp_command_id) := stored_command p]> m) ∅ l,
   foldl (λ m p, <[row_lookup p := p.(cp_command_id)]> m) ∅ l).

Lemma load_commands_Ok ws l s :
  try_fold (load_command ws) l (∅, ∅) = Ok s ↔
  (∀ p, p ∈ l → command_row_ok ws p) ∧ NoDup (cp_command_id <$> l) ∧ NoDup (row_lookup <$> l) ∧
  s = loaded l.
Proof.
  rewrite (try_fold_guarded _
    (λ m p, command_row_ok ws p ∧ m.1 !! p.(cp_command_id) = None ∧ m.2 !! row_lookup p = None)
    (λ m p, (<[p.(cp_command_id) := stored_command p]> m.1,
             <[row_lookup p := p.(cp_command_id)]> m.2))).
  2: { intros m p m'. unfold load_command, command_row_ok, reject_if, row_lookup.
       rewrite !eq_None_not_Some. destruct (scope_for_command p ws) as [sc|]; cbn; [|naive_solver].
       repeat case_decide; cbn; naive_solver. }
  assert (∀ l, foldl (λ m p, (<[p.(cp_command_id) := stored_command p]> m.1,
             <[row_lookup p := p.(cp_command_id)]> m.2)) (∅, ∅) l = loaded l) as Hfold.
  { clear. unfold loaded. intros l. induction l as [|x l IH] using rev_ind; [done|].
    by rewrite !foldl_app, IH. }
  rewrite Hfold, <-!distinct_prefix_NoDup, <-prefix_forall.
  setoid_rewrite Hfold. unfold loaded; simpl. setoid_rewrite foldl_insert_None.
  split.
  - intros [Hall ->]. split_and!; [| | |done]; intros; by eapply Hall.
  - intros (H1 & H2 & H3 & ->). split; [|done]. intros pre x post Hl.
    split_and!; [by eapply H1|by eapply H2|by eapply H3].
Qed.

Lemma lookup_loaded l :
  NoDup (cp_command_id <$> l) → NoDup (row_lookup <$> l) →
  (∀ c sc, (loaded l).1 !! c = Some sc ↔
     ∃ p, p ∈ l ∧ p.(cp_command_id) = c ∧ stored_command p = sc) ∧
  (∀ k c, (loaded l).2 !! k = Some c ↔
     ∃ p, p ∈ l ∧ row_lookup p = k ∧ p.(cp_command_id) = c).
Proof.
  intros H1 H2. split; intros; unfold loaded; simpl; by rewrite lookup_foldl_insert.
Qed.

Lemma loaded_keyed l ws :
  NoDup (cp_command_id <$> l) → NoDup (row_lookup <$> l) →
  keyed (Book (loaded l).1 (loaded l).2 ws).
Proof.
  intros H1 H2. destruct (lookup_loaded l H1 H2) as [Hc Hk]. split; cbn [commands idempotency].
  - intros k c (p & Hp & _ & <-)%Hk. exists (stored_command p). apply Hc. eauto.
  - intros c sc (p & Hp & <- & _)%Hc. exists (row_lookup p). apply Hk. eauto.
  - intros k1 k2 c (p & Hp & <- & <-)%Hk (q & Hq & <- & Heq)%Hk.
    by rewrite (NoDup_fmap_eq cp_command_id l p q).
Qed.

Lemma row_of_stored p : command_row (row_lookup p) p.(cp_command_id) (stored_command p) = p.
Proof. by destruct p as [? [] ? ? ? []]. Qed.
Lemma stored_of_row l c sc : stored_command (command_row l c sc) = sc.
Proof. by destruct sc as [[] ? ? ?]. Qed.
Lemma lookup_of_row l c sc : row_lookup (command_row l c sc) = l.
Proof. by destruct l. Qed.
Lemma row_of_workflow p : workflow_row (p.(wp_join_request_id), row_workflow p) = p.
Proof. by destruct p as [? ? []]. Qed.
Lemma workflow_of_row w f : row_workflow (workflow_row (w, f)) = f.
Proof. by destruct f as [? []]. Qed.

(** ** The image and the book determine each other *)

Lemma image_rows_ids b rows : image_rows b rows → cp_command_id <$> rows = (btree_iter b.(commands)).*1.
Proof.
  intros Hrows. induction Hrows as [|e row es rows (l & _ & ->) _ IH]; [done|].
  cbn. f_equal. apply IH.
Qed.

Lemma image_rows_NoDup b rows : image_rows b rows → NoDup (cp_command_id <$> rows).
Proof. intros ->%image_rows_ids. apply btree_iter_NoDup_keys. Qed.

Lemma elem_of_image_rows b rows p :
  keyed b → image_rows b rows →
  p ∈ rows ↔ ∃ l c sc, b.(commands) !! c = Some sc ∧ b.(idempotency) !! l = Some c ∧
    p = command_row l c sc.
Proof.
  intros Hk Hrows. unfold image_rows in Hrows. split.
  - intros [i Hi]%list_elem_of_lookup.
    destruct (Forall2_lookup_r _ _ _ _ _ Hrows Hi) as ([c sc] & He & l & Hl & ->).
    apply list_elem_of_lookup_2, elem_of_btree_iter in He. by exists l, c, sc.
  - intros (l & c & sc & Hc & Hl & ->).
    pose proof Hc as Hin. apply elem_of_btree_iter, list_elem_of_lookup in Hin as [i Hi].
    destruct (Forall2_lookup_l _ _ _ _ _ Hrows Hi) as (row & Hrow & l' & Hl' & ->). simpl in *.
    rewrite (kd_key_inj _ Hk l l' c) by done. by eapply list_elem_of_lookup_2.
Qed.

Lemma loaded_image b rows :
  keyed b → image_rows b rows →
  NoDup (row_lookup <$> rows) ∧ loaded rows = (b.(commands), b.(idempotency)).
Proof.
  intros Hk Hrows. pose proof (image_rows_NoDup _ _ Hrows) as Hnd.
  assert (NoDup (row_lookup <$> rows)) as Hnd'.
  { apply NoDup_fmap_2_strong; [|by eapply NoDup_fmap_1].
    intros x y (l & c & sc & Hc & Hl & ->)%(elem_of_image_rows b) ; [|done|done].
    intros (l' & c' & sc' & Hc' & Hl' & ->)%(elem_of_image_rows b); [|done|done].
    rewrite !lookup_of_row. intros ->. congruence. }
  split; [done|]. destruct (lookup_loaded rows Hnd Hnd') as [H1 H2].
  rewrite (surjective_pairing (loaded rows)). f_equal; apply map_eq; intros k;
    apply option_eq; intros v; rewrite ?H1, ?H2;
    setoid_rewrite (elem_of_image_rows b rows _ Hk Hrows).
  - split.
    + intros (p & (l & c & sc & Hc & Hl & ->) & <- & <-). by rewrite stored_of_row.
    + intros Hc. destruct (kd_command_key _ Hk _ _ Hc) as [l Hl].
      exists (command_row l k v). rewrite stored_of_row. split_and!; try done. by exists l, k, v.
  - split.
    + intros (p & (l & c & sc & Hc & Hl & ->) & <- & <-). by rewrite lookup_of_row.
    + intros Hl. destruct (kd_key_command _ Hk _ _ Hl) as [sc Hc].
      exists (command_row k v sc). rewrite lookup_of_row. split_and!; try done. by exists k, v, sc.
Qed.

Lemma loaded_workflows (ws : gmap JoinRequestId JoinWorkflow) :
  NoDup (wp_join_request_id <$> (workflow_row <$> btree_iter ws)) ∧
  foldl (λ m p, <[p.(wp_join_request_id) := row_workflow p]> m) ∅
    (workflow_row <$> btree_iter ws) = ws.
Proof.
  assert (NoDup (wp_join_request_id <$> (workflow_row <$> btree_iter ws))) as Hnd.
  { rewrite <-list_fmap_compose. apply btree_iter_NoDup_keys. }
  split; [done|]. apply map_eq. intros w. apply option_eq. intros f.
  rewrite lookup_foldl_insert by done. split.
  - intros (p & ([w' f'] & -> & Hin)%list_elem_of_fmap & <- & <-).
    rewrite workflow_of_row. by apply elem_of_btree_iter.
  - intros Hw. exists (workflow_row (w, f)). rewrite workflow_of_row. split_and!; try done.
    apply list_elem_of_fmap_2. by apply elem_of_btree_iter.
Qed.

Section reload.
Context (hyphenated : Z → bytes) (sha256 : bytes → bytes).

Lemma reload_wf b :
  wf hyphenated sha256 b →
  ∃ s, snapshot b = Ok s ∧ try_from_snapshot hyphenated sha256 s = Ok b.
Proof.
  intros Hwf. pose proof (wf_keyed _ _ _ Hwf) as Hk.
  destruct (snapshot_keyed b Hk) as (s & Hs & Hrows & Hws). exists s. split; [done|].
  destruct (loaded_workflows b.(workflows)) as [Hnd Hw].
  destruct (loaded_image b _ Hk Hrows) as [Hnd' Hl].
  unfold try_from_snapshot. ok_step.
  { apply load_workflows_Ok. rewrite Hws. split_and!; [|done|done].
    intros p ([w f] & -> & Hin%elem_of_btree_iter)%list_elem_of_fmap.
    destruct (inv_workflow _ _ _ Hwf _ _ Hin). by split. }
  ok_step.
  { apply load_commands_Ok. split_and!; [|by eapply image_rows_NoDup|done|done].
    intros p (l & c & sc & Hc & Hlk & ->)%(elem_of_image_rows b); [|done|done].
    unfold command_row_ok, scope_for_command. simpl.
    destruct (sc_workflow_id sc) as [w|] eqn:Hid; [|done].
    pose proof (linked_shape _ _ (inv_shape _ _ _ Hwf _ _ Hc) Hid) as Hsh.
    rewrite Hsh in Hc. destruct (inv_linked _ _ _ Hwf _ _ _ _ Hc) as [f Hf]. rewrite Hf. simpl.
    f_equal. symmetry. apply (inv_key_scope _ _ _ Hwf _ _ _ _ Hlk Hc).
    unfold command_scope. simpl. by rewrite Hf. }
  destruct b as [cs ids ws]. simpl in *.
  by rewrite (validate_graph_Ok _ _ (Book cs ids ws)).
Qed.

(** Saving and reloading is the identity: every reachable book has a
    durable image, and [try_from_snapshot] accepts that image and returns the
    very same commands, replay keys and workflows. *)
Theorem book_snapshot_roundtrip b :
  reachable hyphenated sha256 b →
  ∃ s, snapshot b = Ok s ∧ try_from_snapshot hyphenated sha256 s = Ok b.
Proof. intros Hb. by eapply reload_wf, reachable_wf. Qed.

(** A book that was loaded from durable rows is saved as those rows again,
    up to their order: loading neither drops nor invents a row. *)
Theorem loaded_book_saves_same_rows s b :
  try_from_snapshot hyphenated sha256 s = Ok b →
  ∃ s', snapshot b = Ok s' ∧ s'.(snap_commands) ≡ₚ s.(snap_commands) ∧
    s'.(snap_workflows) ≡ₚ s.(snap_workflows).
Proof.
  unfold try_from_snapshot. intros H. res_inv H.
  apply load_workflows_Ok in Hres as (_ & Hndw & ->).
  apply load_commands_Ok in Hres0 as (_ & Hnd & Hnd' & ->).
  destruct s as [rows wrows]; simpl in *.
  set (ws := foldl _ _ wrows). set (bk := Book _ _ _).
  pose proof (loaded_keyed rows ws Hnd Hnd') as Hk.
  destruct (snapshot_keyed bk Hk) as (s' & Hs & Hrows & Hws).
  exists s'. split_and!; [done| |].
  - apply NoDup_Permutation.
    + eapply NoDup_fmap_1, (image_rows_NoDup bk _ Hrows).
    + by eapply NoDup_fmap_1.
    + intros p. rewrite (elem_of_image_rows bk _ p Hk Hrows).
      destruct (lookup_loaded rows Hnd Hnd') as [H1 H2]. split.
      * intros (l & c & sc & (q & Hq & Hqc & <-)%H1 & (q' & Hq' & <- & Hqc')%H2 & ->).
        rewrite (NoDup_fmap_eq cp_command_id rows q q') in Hqc |- * by congruence.
        rewrite <-Hqc'. by rewrite row_of_stored.
      * intros Hp. exists (row_lookup p), p.(cp_command_id), (stored_command p).
        rewrite row_of_stored. split_and!; [apply H1; eauto|apply H2; eauto|done].
  - rewrite Hws. apply NoDup_Permutation.
    + eapply NoDup_fmap_1, loaded_workflows.
    + by eapply NoDup_fmap_1.
    + intros p. rewrite list_elem_of_fmap. split.
      * intros ([w f] & -> & (q & Hq & <- & <-)%elem_of_btree_iter%lookup_foldl_insert); [|done].
        by rewrite row_of_workflow.
      * intros Hp. exists (p.(wp_join_request_id), row_workflow p). split; [by rewrite row_of_workflow|].
        apply elem_of_btree_iter, lookup_foldl_insert; eauto.
Qed.
End reload.
