(* ===== verification/MembershipDigest.v ===== *)
(** * Membership commands: the request digest binds the command

    [command_digest] hashes the deterministic CBOR of a fixed map.  The
    transcript of a valid command always fits the encoder's limits, and two
    commands with the same digest are the same command, unless they exhibit a
    collision of the hash function. *)

From S2P Require Import Prelude Domain GroupPolicy CanonicalCbor CborSpec CborEncode.
From S2P Require Import CborDecode CborFields WirePrimitives MembershipCommand.

(** ** The transcript *)

Section transcript.
Context (hyphenated : Z → bytes).

Context {HT : HyphenatedText hyphenated}.

Definition scope_valid (s : GroupScope) : Prop :=
  match s with
  | PrivateConversation id => id_valid id
  | ControlledPublicChannel id => PublicIds.valid id
  end.

Definition option_valid (d : option Sha256Digest) : Prop :=
  match d with Some d => digest_valid d | None => True end.

(** The values that the Rust type can hold. *)
Record context_valid (ctx : MembershipCommandContext) : Prop := {
  cv_command : id_valid ctx.(ctx_command_id).(request_id);
  cv_scope : scope_valid ctx.(ctx_scope);
  cv_actor : PublicIds.valid ctx.(ctx_actor_identity_id);
  cv_actor_device : id_valid ctx.(ctx_actor_device_id);
  cv_join : id_valid ctx.(ctx_join_request_id);
  cv_candidate : PublicIds.valid ctx.(ctx_candidate_identity_id);
  cv_candidate_device : id_valid ctx.(ctx_candidate_device_id);
  cv_invite : id_valid ctx.(ctx_invite_id);
  cv_revision : Revision.valid ctx.(ctx_fence).(fence_policy_revision);
  cv_head : digest_valid ctx.(ctx_fence).(fence_sequencer_head);
  cv_key_package : option_valid ctx.(ctx_candidate_key_package_digest)
}.

Definition digest_bytes_value (d : option Sha256Digest) : CanonicalValue :=
  match d with Some digest => Bytes (as_bytes digest) | None => Null end.

(** The transcript as numbered fields. *)
Definition scope_fields (s : GroupScope) : list (Z * CanonicalValue) :=
  match s with
  | PrivateConversation id => [(1, Unsigned 1); (2, uuid_text hyphenated id)]
  | ControlledPublicChannel id => [(1, Unsigned 2); (2, public_text id)]
  end.

Definition numbered_fields (kind : CommandKind) (ctx : MembershipCommandContext)
    (auth : option Sha256Digest) : list (Z * CanonicalValue) :=
  [ (1, Unsigned (code kind)); (2, uuid_text hyphenated ctx.(ctx_command_id).(request_id));
    (3, scope_value hyphenated ctx.(ctx_scope)); (4, public_text ctx.(ctx_actor_identity_id));
    (5, uuid_text hyphenated ctx.(ctx_actor_device_id));
    (6, uuid_text hyphenated ctx.(ctx_join_request_id));
    (7, public_text ctx.(ctx_candidate_identity_id));
    (8, uuid_text hyphenated ctx.(ctx_candidate_device_id));
    (9, uuid_text hyphenated ctx.(ctx_invite_id));
    (10, Unsigned ctx.(ctx_fence).(fence_policy_revision));
    (11, Bytes (as_bytes ctx.(ctx_fence).(fence_sequencer_head)));
    (12, digest_bytes_value auth) ] ++
  match ctx.(ctx_candidate_key_package_digest) with
  | Some d => [(13, Bytes (as_bytes d))]
  | None => []
  end.

Lemma command_fields_numbered kind ctx auth :
  command_fields hyphenated kind ctx auth = int_key <$> numbered_fields kind ctx auth.
Proof.
  unfold command_fields, numbered_fields. rewrite fmap_app.
  by destruct (ctx_candidate_key_package_digest ctx), auth.
Qed.

Lemma scope_value_numbered s : scope_value hyphenated s = Map (int_key <$> scope_fields s).
Proof. by destruct s. Qed.

Lemma uuid_text_small levels {k} (id : UuidV7Id k) :
  id_valid id → small (S levels) 59 1 (uuid_text hyphenated id).
Proof using HT.
  intros Hid. eapply small_weaken, (small_text _ _ 36); [lia|lia| |lia].
  unfold UuidV7.to_string. by rewrite hyphenated_length.
Qed.

Lemma public_text_small levels {k} (id : PublicIdOf k) :
  PublicIds.valid id → small (S levels) 59 1 (public_text id).
Proof.
  intros Hid. eapply small_weaken, (small_text _ _ 57); [lia|lia| |lia].
  destruct (public_text_shape id Hid) as [_ ->]. done.
Qed.

Lemma digest_small levels d : digest_valid d → small (S levels) 59 1 (Bytes (as_bytes d)).
Proof.
  intros [_ Hl]. eapply small_weaken, (small_bytes _ _ 32); [lia|lia| |lia].
  unfold len. rewrite Hl. done.
Qed.

Lemma scope_small levels s :
  scope_valid s → small (S (S levels)) 121 5 (scope_value hyphenated s).
Proof using HT.
  intros Hs. rewrite scope_value_numbered.
  eapply small_weaken, (small_int_map _ 59 1 2); [lia|lia|lia|lia| |lia| |].
  - by destruct s.
  - destruct s; repeat constructor.
  - destruct s as [id|id]; simpl in Hs;
      (constructor; [split; [simpl; lia|]; eapply small_weaken, small_unsigned; lia|]);
      (constructor; [split; [simpl; lia|]|constructor]).
    + by apply uuid_text_small.
    + by apply public_text_small.
Qed.

Lemma uuid_text_ok {k} (id : UuidV7Id k) : id_valid id → value_ok (uuid_text hyphenated id).
Proof using HT.
  intros Hid. destruct (ascii_utf8 (UuidV7.to_string hyphenated id)); [|by constructor].
  unfold UuidV7.to_string. by apply hyphenated_ascii.
Qed.

Lemma public_text_ok {k} (id : PublicIdOf k) : PublicIds.valid id → value_ok (public_text id).
Proof.
  intros Hid. destruct (public_text_shape id Hid) as [Ha _].
  destruct (ascii_utf8 _ Ha). by constructor.
Qed.

Lemma digest_ok d : digest_valid d → value_ok (Bytes (as_bytes d)).
Proof. intros [Hd _]. by constructor. Qed.

Lemma revision_ok r : Revision.valid r → value_ok (Unsigned r).
Proof. intros Hr. constructor. unfold Revision.valid in Hr. rewrite Revision.MAX_value in Hr. unfold u64_max. lia. Qed.

Lemma scope_ok s : scope_valid s → value_ok (scope_value hyphenated s).
Proof using HT.
  intros Hs. assert (∀ n, 0 ≤ n ≤ 2 → value_ok (Unsigned n)) as Hn.
  { intros n Hn. constructor. unfold u64_max. lia. }
  rewrite scope_value_numbered. constructor. apply Forall_fmap.
  destruct s as [id|id]; simpl in Hs;
    (apply Forall_cons; split; [split; apply Hn; simpl; lia|]);
    (apply Forall_cons; split; [split; [apply Hn; simpl; lia|]|by apply Forall_nil_2]).
  - by apply uuid_text_ok.
  - by apply public_text_ok.
Qed.

(** Every field is within the value type and small. *)
Lemma fields_ok kind ctx auth :
  context_valid ctx → option_valid auth →
  Forall (λ e, 0 ≤ e.1 < 24 ∧ value_ok e.2 ∧ small (S (S 30)) 121 5 e.2)
    (numbered_fields kind ctx auth).
Proof using HT.
  intros [] Hauth.
  assert (∀ k (id : UuidV7Id k), id_valid id →
    value_ok (uuid_text hyphenated id) ∧ small (S (S 30)) 121 5 (uuid_text hyphenated id)) as Hu.
  { intros k id Hid. split; [by apply uuid_text_ok|].
    eapply small_weaken, uuid_text_small; [lia|lia|done]. }
  assert (∀ k (id : PublicIdOf k), PublicIds.valid id →
    value_ok (public_text id) ∧ small (S (S 30)) 121 5 (public_text id)) as Hp.
  { intros k id Hid. split; [by apply public_text_ok|].
    eapply small_weaken, public_text_small; [lia|lia|done]. }
  assert (∀ d, digest_valid d →
    value_ok (Bytes (as_bytes d)) ∧ small (S (S 30)) 121 5 (Bytes (as_bytes d))) as Hd.
  { intros d Hd. split; [by apply digest_ok|]. eapply small_weaken, digest_small; [lia|lia|done]. }
  assert (∀ n, value_ok (Unsigned n) →
    value_ok (Unsigned n) ∧ small (S (S 30)) 121 5 (Unsigned n)) as Hn.
  { intros n Hn. split; [done|]. eapply small_weaken, small_unsigned; lia. }
  unfold numbered_fields. apply Forall_app. split.
  - repeat (apply Forall_cons; split; [split; [simpl; lia|]; cbn [snd]|]); [..|constructor]; auto.
    + apply Hn. constructor. destruct kind; done.
    + split; [by apply scope_ok|by apply scope_small].
    + by apply Hn, revision_ok.
    + destruct auth as [d|]; [by apply Hd|]. split; [constructor|].
      eapply small_weaken, small_null; lia.
  - destruct (ctx_candidate_key_package_digest ctx) as [d|]; constructor; [|constructor].
    split; [simpl; lia|]. by apply Hd.
Qed.

Lemma numbered_fields_sorted kind ctx auth :
  StronglySorted Z.lt (numbered_fields kind ctx auth).*1 ∧
  len (numbered_fields kind ctx auth) ≤ 13.
Proof.
  unfold numbered_fields. destruct (ctx_candidate_key_package_digest ctx); cbn;
    (split; [repeat constructor|done]).
Qed.

Definition transcript (kind : CommandKind) (ctx : MembershipCommandContext)
    (auth : option Sha256Digest) : CanonicalValue := Map (command_fields hyphenated kind ctx auth).

Lemma transcript_small kind ctx auth :
  context_valid ctx → option_valid auth →
  value_ok (transcript kind ctx auth) ∧
  small (S MAX_DEPTH) 1587 79 (transcript kind ctx auth).
Proof using HT.
  intros Hctx Hauth. pose proof (fields_ok kind ctx auth Hctx Hauth) as Hall.
  unfold transcript. rewrite command_fields_numbered. split.
  - constructor. apply Forall_fmap. eapply Forall_impl; [done|].
    intros [k v] (Hk & Hv & _). simpl in *. split; [|done]. constructor. unfold u64_max. lia.
  - destruct (numbered_fields_sorted kind ctx auth) as [Hs Hl].
    eapply small_weaken, (small_int_map 31 121 5 13); [lia|lia|lia|lia|done|lia|done|].
    eapply Forall_impl; [done|]. intros e (? & _ & ?). done.
Qed.

(** The encoder accepts the transcript, and the bytes determine it. *)
Lemma transcript_encodes kind ctx auth :
  context_valid ctx → option_valid auth →
  ∃ b, encode_deterministic_cbor (transcript kind ctx auth) = Ok b ∧ len b ≤ 1587 ∧
    decode_deterministic_cbor b = Ok (transcript kind ctx auth).
Proof using HT.
  intros Hctx Hauth.
  destruct (transcript_small kind ctx auth Hctx Hauth) as (Hv & it & Hs & Hval & Hl & Hi).
  assert (len it.(it_bytes) ≤ MAX_ENCODED_BYTES) by (unfold MAX_ENCODED_BYTES; lia).
  assert (it.(it_items) ≤ MAX_TOTAL_ITEMS) by (unfold MAX_TOTAL_ITEMS; lia).
  assert (0 ≤ MAX_ENCODED_BYTES ≤ u64_max) by (unfold MAX_ENCODED_BYTES, u64_max; lia).
  exists it.(it_bytes). split_and!; [|done|].
  - apply encode_with_limit_iff; [done|done|]. eauto.
  - rewrite <-Hval. by apply (decode_of_spec (transcript kind ctx auth)); [|lia|..].
Qed.

(** Equal transcripts come from the same command. *)
Definition same_command (kind kind' : CommandKind) (ctx ctx' : MembershipCommandContext)
    (auth auth' : option Sha256Digest) : Prop :=
  kind = kind' ∧ auth = auth' ∧
  ctx = {| ctx_command_id := ctx'.(ctx_command_id);
           ctx_idempotency_key_hash := ctx.(ctx_idempotency_key_hash);
           ctx_scope := ctx'.(ctx_scope);
           ctx_actor_identity_id := ctx'.(ctx_actor_identity_id);
           ctx_actor_device_id := ctx'.(ctx_actor_device_id);
           ctx_join_request_id := ctx'.(ctx_join_request_id);
           ctx_candidate_identity_id := ctx'.(ctx_candidate_identity_id);
           ctx_candidate_device_id := ctx'.(ctx_candidate_device_id);
           ctx_invite_id := ctx'.(ctx_invite_id);
           ctx_fence := ctx'.(ctx_fence);
           ctx_candidate_key_package_digest := ctx'.(ctx_candidate_key_package_digest) |}.

Lemma uuid_text_inj {k} (x y : UuidV7Id k) :
  id_valid x → id_valid y → uuid_text hyphenated x = uuid_text hyphenated y → x = y.
Proof using HT.
  intros Hx Hy [= Heq]. apply (inj as_uuid). by apply hyphenated_inj.
Qed.

Lemma public_text_inj {k} (x y : PublicIdOf k) :
  PublicIds.valid x → PublicIds.valid y → public_text x = public_text y → x = y.
Proof. intros Hx Hy [= Heq]. by apply public_to_string_inj. Qed.

Lemma scope_value_inj s t :
  scope_valid s → scope_valid t → scope_value hyphenated s = scope_value hyphenated t → s = t.
Proof using HT.
  destruct s as [x|x], t as [y|y]; simpl; intros Hx Hy Heq; try discriminate.
  - f_equal. apply uuid_text_inj; [done|done|].
    by apply (f_equal (λ v, match v with Map [_; (_, x)] => x | _ => Null end)) in Heq.
  - f_equal. apply public_text_inj; [done|done|].
    by apply (f_equal (λ v, match v with Map [_; (_, x)] => x | _ => Null end)) in Heq.
Qed.

Lemma digest_bytes_value_inj d e : digest_bytes_value d = digest_bytes_value e → d = e.
Proof. destruct d as [[]|], e as [[]|]; simpl; congruence. Qed.

Lemma transcript_inj kind kind' ctx ctx' auth auth' :
  context_valid ctx → context_valid ctx' →
  transcript kind ctx auth = transcript kind' ctx' auth' →
  same_command kind kind' ctx ctx' auth auth'.
Proof using HT.
  intros [] [] Heq. unfold transcript in Heq. rewrite !command_fields_numbered in Heq.
  apply (f_equal (λ v, match v with Map es => es | _ => [] end)) in Heq.
  apply (inj (fmap int_key)) in Heq.
  unfold numbered_fields in Heq. apply app_inj_1 in Heq as [Hl Hkp]; [|done].
  apply cons_pair_inj in Hl as [Hkind Hl]. apply cons_pair_inj in Hl as [Hcmd Hl].
  apply cons_pair_inj in Hl as [Hscope Hl]. apply cons_pair_inj in Hl as [Hactor Hl].
  apply cons_pair_inj in Hl as [Hadev Hl]. apply cons_pair_inj in Hl as [Hjoin Hl].
  apply cons_pair_inj in Hl as [Hcand Hl]. apply cons_pair_inj in Hl as [Hcdev Hl].
  apply cons_pair_inj in Hl as [Hinv Hl]. apply cons_pair_inj in Hl as [Hrev Hl].
  apply cons_pair_inj in Hl as [Hhead Hl]. apply cons_pair_inj in Hl as [Hauth _].
  apply uuid_text_inj in Hcmd, Hadev, Hjoin, Hcdev, Hinv; [|done..].
  apply public_text_inj in Hactor, Hcand; [|done..]. apply scope_value_inj in Hscope; [|done..].
  apply digest_bytes_value_inj in Hauth. injection Hrev as Hrev. injection Hhead as Hhead.
  apply (inj as_bytes) in Hhead.
  assert (ctx_candidate_key_package_digest ctx = ctx_candidate_key_package_digest ctx') as Hkpd.
  { destruct (ctx_candidate_key_package_digest ctx) as [[]|],
      (ctx_candidate_key_package_digest ctx') as [[]|]; simplify_eq; done. }
  unfold same_command. split_and!; [by destruct kind, kind'|done|].
  destruct ctx as [[] ? ? ? ? ? ? ? ? [] ?], ctx' as [[] ? ? ? ? ? ? ? ? [] ?]. cbn in *. congruence.
Qed.

(** The [expect] of [command_digest] cannot fire: for every valid command
    context the transcript is accepted by the deterministic CBOR encoder, in at
    most 1587 bytes, so a request digest always exists. *)
Theorem command_digest_never_panics sha256 kind ctx auth :
  context_valid ctx → option_valid auth →
  ∃ b, encode_deterministic_cbor (Map (command_fields hyphenated kind ctx auth)) = Ok b ∧
    len b ≤ 1587 ∧
    command_digest hyphenated sha256 kind ctx auth =
      Some (hash_domain sha256 (command_domain ctx) b).
Proof using HT.
  intros Hctx Hauth. destruct (transcript_encodes kind ctx auth Hctx Hauth) as (b & Hb & Hl & _).
  exists b. unfold transcript in Hb. split_and!; [done|done|].
  unfold command_digest. by rewrite Hb.
Qed.

Lemma command_domain_inj ctx ctx' x y :
  command_domain ctx ++ x = command_domain ctx' ++ y → x = y.
Proof.
  intros Heq. apply app_inj_1 in Heq as [_ ?]; [done|]. unfold command_domain.
  by destruct (ctx_candidate_key_package_digest ctx), (ctx_candidate_key_package_digest ctx').
Qed.

(** A request digest binds its command: the digests of two valid commands
    are hashes of two byte strings, whatever the hash function, and those
    strings are equal only if the commands agree on kind, authorization and
    every context field except the idempotency key.  Two different commands
    with one digest are therefore a collision of SHA-256 itself. *)
Theorem digest_binds_command kind kind' ctx ctx' auth auth' :
  context_valid ctx → context_valid ctx' → option_valid auth → option_valid auth' →
  ∃ x y,
    (∀ sha256, command_digest hyphenated sha256 kind ctx auth = Some (from_bytes (sha256 x))) ∧
    (∀ sha256, command_digest hyphenated sha256 kind' ctx' auth' = Some (from_bytes (sha256 y))) ∧
    (x = y → same_command kind kind' ctx ctx' auth auth').
Proof using HT.
  intros Hctx Hctx' Hauth Hauth'.
  destruct (transcript_encodes kind ctx auth Hctx Hauth) as (b & Hb & _ & Hd).
  destruct (transcript_encodes kind' ctx' auth' Hctx' Hauth') as (b' & Hb' & _ & Hd').
  exists (command_domain ctx ++ b), (command_domain ctx' ++ b').
  unfold command_digest, transcript in *. rewrite Hb, Hb'. split_and!; [done..|].
  intros ->%command_domain_inj. apply transcript_inj; [done..|]. unfold transcript. congruence.
Qed.
End transcript.
