(* ===== verification/MembershipDemo.v ===== *)
(** * Membership commands: worked examples

    One join request, its approval and the Sequencer exchange, with concrete
    functions in place of the [uuid] crate's text and of SHA-256.  The examples
    instantiate the theorems of the other files and show which durable rows the
    loader accepts beyond those of reachable books. *)

From S2P Require Import Prelude Domain GroupPolicy CanonicalCbor CborSpec CborFields WirePrimitives.
From S2P Require Import MembershipCommand MembershipInv MembershipProps MembershipSnapshot.
From S2P Require Import MembershipReload MembershipDigest.

Module MembershipDemo.

(** ** Concrete parameters *)

(** The hyphenated form of the 32 hexadecimal digits. *)
Definition hyphenate (t : bytes) : bytes :=
  take 8 t ++ [45] ++ take 4 (drop 8 t) ++ [45] ++ take 4 (drop 12 t) ++ [45] ++
  take 4 (drop 16 t) ++ [45] ++ drop 20 t.
Definition unhyphenate (t : bytes) : bytes :=
  take 8 t ++ take 4 (drop 9 t) ++ take 4 (drop 14 t) ++ take 4 (drop 19 t) ++ drop 24 t.
Definition hyphenated (u : Z) : bytes := hyphenate (to_be_bytes 16 u ≫= hex_byte).

(** A hash function for the examples: a checksum of the input. *)
Definition checksum (b : bytes) : Z := foldl (λ n d, Z.land (3 * n + d) 0xffffffff) 0 b.
Definition sha256 (b : bytes) : bytes := to_be_bytes 32 (checksum b).

Lemma hyphenate_32 (t : bytes) :
  length t = 32%nat →
  unhyphenate (hyphenate t) = t ∧ length (hyphenate t) = 36%nat ∧
  ∀ P : Z → Prop, P 45 → Forall P t → Forall P (hyphenate t).
Proof.
  intros Hl. do 32 (destruct t as [|? t]; [discriminate Hl|]). destruct t; [|discriminate Hl].
  split_and!; [reflexivity|reflexivity|]. intros P H45 Hall.
  rewrite !Forall_cons in Hall. cbn. rewrite !Forall_cons. tauto.
Qed.

Lemma hex_digits_length u : length (to_be_bytes 16 u ≫= hex_byte) = 32%nat.
Proof. by rewrite length_hex_text, length_to_be_bytes. Qed.

Global Instance hyphenated_text : HyphenatedText hyphenated.
Proof.
  split.
  - intros u _. unfold hyphenated, len.
    by destruct (hyphenate_32 _ (hex_digits_length u)) as (_ & -> & _).
  - intros u _. apply (hyphenate_32 _ (hex_digits_length u)); [lia|].
    eapply Forall_impl; [apply hex_text_lower, to_be_bytes_digits|].
    unfold is_lower_hex. intros c. lia.
  - intros u v Hu Hv Heq. unfold hyphenated in Heq. apply (f_equal unhyphenate) in Heq.
    rewrite (proj1 (hyphenate_32 _ (hex_digits_length u))) in Heq.
    rewrite (proj1 (hyphenate_32 _ (hex_digits_length v))) in Heq.
    apply hex_text_inj in Heq; [|apply to_be_bytes_digits..].
    apply (f_equal from_be_bytes) in Heq. unfold uuid_range in *.
    by rewrite !from_to_be_bytes in Heq by (change (256 ^ Z.of_nat 16) with (2 ^ 128); lia).
Qed.

(** ** The cast *)

Definition digest (n : Z) : Sha256Digest := from_bytes (replicate 32 n).
Definition identity (n : Z) : IdentityId := MkPublicId (replicate 32 n).
Definition scope : GroupScope := PrivateConversation (UuidV7 1).

Definition context (n : Z) (actor : Z) : MembershipCommandContext :=
  {| ctx_command_id := CommandId (UuidV7 n);
     ctx_idempotency_key_hash := digest n;
     ctx_scope := scope;
     ctx_actor_identity_id := identity actor;
     ctx_actor_device_id := UuidV7 (100 + actor);
     ctx_join_request_id := UuidV7 7;
     ctx_candidate_identity_id := identity 2;
     ctx_candidate_device_id := UuidV7 102;
     ctx_invite_id := UuidV7 9;
     ctx_fence := {| fence_policy_revision := 1; fence_sequencer_head := digest 3 |};
     ctx_candidate_key_package_digest := Some (digest 4) |}.

Definition request_context := context 11 2.
Definition approval_context := context 12 1.
Definition approval_id : MembershipCommandId := CommandId (UuidV7 12).
Definition request_id_ : MembershipCommandId := CommandId (UuidV7 11).

Definition request_digest : Sha256Digest := Eval vm_compute in
  default (digest 0) (join_request_digest hyphenated sha256 request_context).
Definition approval_digest : Sha256Digest := Eval vm_compute in
  default (digest 0) (command_digest hyphenated sha256 ApproveJoin approval_context (Some (digest 5))).

Definition request : JoinRequestCommand :=
  {| jr_context := request_context; jr_request_digest := request_digest |}.
Definition approval : ApproveJoinCommand :=
  {| aj_context := approval_context; aj_authorization_digest := digest 5;
     aj_request_digest := approval_digest |}.
Definition commit : MembershipCommitReference :=
  {| ref_scope := scope; ref_command_id := approval_id; ref_request_digest := approval_digest;
     ref_committed_digest := digest 6 |}.

Definition op_request := OpRecord request NotMember.
Definition op_approve := OpApprove approval NotMember.
Definition op_unknown := OpObserve approval_id Unknown.
Definition op_commit := OpObserve approval_id (ResolutionCommitted commit).

Definition run_ops (ops : list BookOp) (b : MembershipCommandBook) : MembershipCommandBook :=
  foldl (λ b op, exec (run_op op) b) b ops.

Lemma run_ops_steps ops b :
  Forall (authored hyphenated sha256) ops → steps hyphenated sha256 b ops (run_ops ops b).
Proof.
  intros Hall. revert b. induction Hall as [|op ops Hop _ IH]; intros b; [constructor|].
  econstructor; [done|apply surjective_pairing|]. apply IH.
Qed.

Lemma authored_request : authored hyphenated sha256 op_request.
Proof. vm_compute. reflexivity. Qed.
Lemma authored_approve : authored hyphenated sha256 op_approve.
Proof. vm_compute. reflexivity. Qed.

Ltac script :=
  repeat first [apply Forall_nil_2 | apply Forall_cons; split];
  lazymatch goal with
  | |- authored _ _ op_request => exact authored_request
  | |- authored _ _ op_approve => exact authored_approve
  | |- authored _ _ _ => exact I
  end.

Definition approved : MembershipCommandBook :=
  run_ops [op_request; op_approve] MembershipCommandBook_new.
Definition uncertain : MembershipCommandBook := run_ops [op_unknown] approved.
Definition committed : MembershipCommandBook := run_ops [op_commit] uncertain.

Lemma script_authored :
  Forall (authored hyphenated sha256) [op_request; op_approve; op_unknown; op_commit].
Proof. script. Qed.

Lemma approved_reachable : reachable hyphenated sha256 approved.
Proof.
  exists [op_request; op_approve]. apply run_ops_steps.
  script.
Qed.

Lemma uncertain_reachable : reachable hyphenated sha256 uncertain.
Proof.
  exists [op_request; op_approve; op_unknown].
  apply (run_ops_steps [op_request; op_approve; op_unknown]).
  script.
Qed.

Lemma committed_steps :
  steps hyphenated sha256 MembershipCommandBook_new
    [op_request; op_approve; op_unknown; op_commit] committed.
Proof. apply (run_ops_steps [op_request; op_approve; op_unknown; op_commit]), script_authored. Qed.

Lemma committed_reachable : reachable hyphenated sha256 committed.
Proof. eexists. exact committed_steps. Qed.

(** ** The theorems at work *)

Lemma reachable_book_consistent_witness : wf hyphenated sha256 approved.
Proof. apply reachable_book_consistent. exact approved_reachable. Defined.

(** A second approval finds the intent in flight. *)
Definition rival_context := context 13 1.
Definition rival_digest : Sha256Digest := Eval vm_compute in
  default (digest 0) (command_digest hyphenated sha256 ApproveJoin rival_context (Some (digest 5))).
Definition rival : ApproveJoinCommand :=
  {| aj_context := rival_context; aj_authorization_digest := digest 5;
     aj_request_digest := rival_digest |}.

Lemma rival_fails : run_op (OpApprove rival NotMember) approved = (Err JoinCommitInFlight, approved).
Proof. vm_cast_no_check (eq_refl (Err JoinCommitInFlight : Res MembershipReceipt, approved)). Qed.

Lemma failed_operation_changes_nothing_witness :
  JoinCommitInFlight ≠ InvariantViolation.
Proof.
  apply (failed_operation_changes_nothing hyphenated sha256 approved
    (OpApprove rival NotMember) JoinCommitInFlight approved).
  - exact approved_reachable.
  - vm_compute. reflexivity.
  - exact rival_fails.
Defined.

Definition approval_receipt (p : MembershipCommandPhase) : MembershipReceipt :=
  {| rc_command_id := approval_id; rc_request_digest := approval_digest; rc_phase := p |}.

Lemma receipt_follows_protocol_witness :
  ∃ r', receipt uncertain approval_id = Ok r' ∧
    r'.(rc_request_digest) = approval_digest ∧
    phase_step op_unknown PendingCommit r'.(rc_phase).
Proof.
  apply (receipt_follows_protocol hyphenated sha256 approved op_unknown
    (run_op op_unknown approved).1 uncertain approval_id (approval_receipt PendingCommit)).
  - exact approved_reachable.
  - exact I.
  - apply surjective_pairing.
  - vm_compute. reflexivity.
Defined.

Lemma terminal_receipt_final_witness :
  receipt (run_ops [op_unknown] committed) approval_id =
  Ok (approval_receipt (Committed (Applied commit))).
Proof.
  apply (terminal_receipt_final hyphenated sha256 committed [op_unknown]).
  - exact committed_reachable.
  - vm_compute. reflexivity.
  - reflexivity.
  - apply run_ops_steps. script.
Defined.

Definition requested : MembershipCommandBook := run_ops [op_request] MembershipCommandBook_new.

Lemma approve_accepted :
  run_op op_approve requested = (Ok (approval_receipt PendingCommit), approved).
Proof.
  vm_cast_no_check (eq_refl (Ok (approval_receipt PendingCommit) : Res MembershipReceipt, approved)).
Qed.

Lemma accepted_command_replays_witness :
  ∃ r', run_op (OpApprove approval (CandidateAlreadyMember commit)) committed = (Ok r', committed) ∧
    receipt committed approval_id = Ok r' ∧ r'.(rc_request_digest) = approval_digest ∧
    (is_terminal PendingCommit = true → r' = approval_receipt PendingCommit).
Proof.
  apply (accepted_command_replays hyphenated sha256
    requested op_approve (approval_receipt PendingCommit)
    approved [op_unknown; op_commit] committed).
  - exists [op_request]. apply run_ops_steps. script.
  - exact authored_approve.
  - exact approve_accepted.
  - reflexivity.
  - apply (run_ops_steps [op_unknown; op_commit]). script.
  - reflexivity.
Defined.

Definition approval_query : SequencerQuery :=
  {| qry_scope := scope; qry_command_id := approval_id; qry_request_digest := approval_digest |}.

Lemma no_resubmit_before_absence_witness :
  next_sequencer_action (run_ops [op_unknown] uncertain) approval_id ≠
  Ok (Some (Submit (submit_of approval))).
Proof.
  apply (no_resubmit_before_absence hyphenated sha256 uncertain approval_id approval_query
    [op_unknown]).
  - exact uncertain_reachable.
  - vm_compute. reflexivity.
  - apply run_ops_steps. script.
  - apply Forall_singleton. discriminate.
Defined.

(** A verified absence re-arms the very same submit. *)
Definition rearmed : MembershipCommandBook := run_ops [OpObserve approval_id Absent] uncertain.

Definition rearmed_submit : option SequencerAction := Eval vm_compute in
  default None (result_ok (next_sequencer_action rearmed approval_id)).
Definition rearmed_payload : SequencerSubmit :=
  match rearmed_submit with Some (Submit s) => s | _ => submit_of rival end.

Lemma submit_is_the_approval_witness : rearmed_payload = submit_of approval.
Proof.
  refine (proj2 (submit_is_the_approval hyphenated sha256 approved approval_id
    (submit_of approval) approved_reachable _) [op_unknown; OpObserve approval_id Absent]
    rearmed rearmed_payload _ _).
  - vm_compute. reflexivity.
  - apply (run_ops_steps [op_unknown; OpObserve approval_id Absent]). script.
  - vm_compute. reflexivity.
Defined.

Lemma one_action_per_workflow_witness : approval_id = approval_id.
Proof.
  apply (one_action_per_workflow hyphenated sha256 approved approval_id approval_id
    (Submit (submit_of approval)) (Submit (submit_of approval))).
  - exact approved_reachable.
  - vm_compute. reflexivity.
  - vm_compute. reflexivity.
  - reflexivity.
Defined.

Lemma applied_commit_was_observed_witness :
  op_commit ∈ [op_request; op_approve; op_unknown; op_commit].
Proof.
  apply (applied_commit_was_observed hyphenated sha256
    [op_request; op_approve; op_unknown; op_commit] committed request_id_
    {| rc_command_id := request_id_; rc_request_digest := request_digest;
       rc_phase := Committed (Applied commit) |} commit).
  - exact committed_steps.
  - vm_compute. reflexivity.
  - reflexivity.
Defined.

Lemma book_snapshot_roundtrip_witness :
  ∃ s, snapshot uncertain = Ok s ∧ try_from_snapshot hyphenated sha256 s = Ok uncertain.
Proof. apply book_snapshot_roundtrip. exact uncertain_reachable. Defined.

Definition empty_image : MembershipCommandBookSnapshot :=
  {| snap_commands := []; snap_workflows := [] |}.
Definition image (b : MembershipCommandBook) : MembershipCommandBookSnapshot :=
  default empty_image (result_ok (snapshot b)).

Lemma image_loads : try_from_snapshot hyphenated sha256 (image uncertain) = Ok uncertain.
Proof. vm_cast_no_check (eq_refl (Ok uncertain : Res MembershipCommandBook)). Qed.

Lemma loaded_book_saves_same_rows_witness :
  ∃ s', snapshot uncertain = Ok s' ∧
    s'.(snap_commands) ≡ₚ (image uncertain).(snap_commands) ∧
    s'.(snap_workflows) ≡ₚ (image uncertain).(snap_workflows).
Proof.
  apply (loaded_book_saves_same_rows hyphenated sha256 (image uncertain) uncertain).
  exact image_loads.
Defined.

(** ** Request digests *)

Lemma demo_digest_ok n : 0 ≤ n < 256 → digest_valid (digest n).
Proof. intros Hn. split; [by apply Forall_replicate|apply length_replicate]. Qed.
Lemma demo_identity_ok n : 0 ≤ n < 256 → PublicIds.valid (identity n).
Proof. intros Hn. split; [by apply Forall_replicate|apply length_replicate]. Qed.

Lemma context_ok n actor : 0 ≤ n < 256 → 0 ≤ actor < 100 → context_valid (context n actor).
Proof.
  intros Hn Ha. unfold context.
  split; cbn; try (unfold id_valid, uuid_range; simpl; lia);
    try (apply demo_identity_ok; lia); try (apply demo_digest_ok; lia).
  unfold Revision.valid. rewrite Revision.MAX_value. lia.
Qed.

Lemma command_digest_never_panics_witness :
  ∃ b, encode_deterministic_cbor (Map (command_fields hyphenated ApproveJoin approval_context
         (Some (digest 5)))) = Ok b ∧ len b ≤ 1587 ∧
    command_digest hyphenated sha256 ApproveJoin approval_context (Some (digest 5)) =
      Some (hash_domain sha256 (command_domain approval_context) b).
Proof.
  apply (command_digest_never_panics hyphenated sha256).
  - apply context_ok; lia.
  - apply demo_digest_ok. lia.
Defined.

Lemma digest_binds_command_witness :
  ∃ x y,
    (∀ h, command_digest hyphenated h RequestJoin request_context None =
       Some (from_bytes (h x))) ∧
    (∀ h, command_digest hyphenated h ApproveJoin approval_context (Some (digest 5)) =
       Some (from_bytes (h y))) ∧
    (x = y → same_command RequestJoin ApproveJoin request_context approval_context
       None (Some (digest 5))).
Proof.
  apply (digest_binds_command hyphenated).
  - apply context_ok; lia.
  - apply context_ok; lia.
  - exact I.
  - apply demo_digest_ok. lia.
Defined.

(** ** Rows that no reachable book has *)

(** A second row for the join request, under another command and replay key. *)
Definition twin_id : MembershipCommandId := CommandId (UuidV7 21).
Definition twin_row : MembershipCommandPersistence :=
  command_row {| il_scope := scope; il_actor_identity_id := identity 2;
                 il_idempotency_key_hash := digest 21 |}
    twin_id (StoredCommand_workflow RequestJoin request_digest (UuidV7 7)).

Definition twin_image : MembershipCommandBookSnapshot :=
  {| snap_commands := twin_row :: (image requested).(snap_commands);
     snap_workflows := (image requested).(snap_workflows) |}.

Definition twin_book : MembershipCommandBook :=
  requested <| commands := <[twin_id := stored_command twin_row]> requested.(commands) |>
            <| idempotency := <[row_lookup twin_row := twin_id]> requested.(idempotency) |>.

Lemma twin_loads : try_from_snapshot hyphenated sha256 twin_image = Ok twin_book.
Proof. vm_cast_no_check (eq_refl (Ok twin_book : Res MembershipCommandBook)). Qed.

Definition op_reject : BookOp := OpReject request_id_ PolicyDenied.

(** The loader is weaker than its description: it accepts a durable image
    that no sequence of operations can produce (two join-request rows of one
    workflow), and on the resulting book a local rejection of one request
    removes the workflow under the other, whose receipt is then an
    inconsistency error. *)
Theorem loader_accepts_unreachable_book :
  ∃ s b c c' r b',
    try_from_snapshot hyphenated sha256 s = Ok b ∧ ¬ reachable hyphenated sha256 b ∧
    run_op (OpReject c PolicyDenied) b = (Ok r, b') ∧
    receipt b' c' = Err InvariantViolation.
Proof.
  exists twin_image, twin_book, request_id_, twin_id,
    {| rc_command_id := request_id_; rc_request_digest := request_digest;
       rc_phase := Rejected PolicyDenied |}, (exec (run_op op_reject) twin_book).
  split; [exact twin_loads|]. split; [|split].
  - intros Hwf%reachable_wf.
    enough (request_id_ = twin_id) as [=].
    rewrite <-(inv_one_request _ _ _ Hwf twin_id request_digest (UuidV7 7)
      (JoinWorkflow_pending request_context)); vm_compute; reflexivity.
  - apply pair_equal_spec. split; [vm_compute; reflexivity|reflexivity].
  - vm_compute. reflexivity.
Qed.
End MembershipDemo.
