(* ===== verification/IdentityLog.v ===== *)
(** * Identity log: certificates, events and their canonical bytes

    Models [constants_and_errors.rs], [certificates.rs], [events.rs] and
    [decoding.rs] of [crates/dtx-identity-log/src], with the signature inputs
    that [pages.rs] and [projection.rs] define.  An [expect] that fires is
    [Panicked]; everything else that can fail raises an [IdentityLogError]. *)

From S2P Require Import Prelude Domain CanonicalCbor WirePrimitives WireValues.

(** ** [constants_and_errors.rs] *)

Definition IDENTITY_LOG_V1_0_PROTOCOL_VERSION : ProtocolVersion := ProtocolVersion_new 1 0.
Definition IDENTITY_LOG_V1_0_WIRE_VERSION : WireVersion :=
  WireVersion_new IDENTITY_LOG_V1_0_PROTOCOL_VERSION IDENTITY_LOG_V1_0_PROTOCOL_VERSION.
Definition IDENTITY_LOG_PROTOCOL_VERSION : ProtocolVersion := ProtocolVersion_new 1 1.
Definition IDENTITY_LOG_WIRE_VERSION : WireVersion :=
  WireVersion_new IDENTITY_LOG_PROTOCOL_VERSION IDENTITY_LOG_PROTOCOL_VERSION.

Definition IDENTITY_LOG_EVENT_HASH_DOMAIN : bytes :=
  str "dirextalk.identity-log-event.v1" ++ [0].
Definition IDENTITY_LOG_SIGNATURE_DOMAIN : bytes :=
  str "dirextalk.identity-log-signature.v1" ++ [0].
Definition IDENTITY_LOG_ENTRY_HASH_DOMAIN : bytes :=
  str "dirextalk.identity-log-entry.v1" ++ [0].
Definition DEVICE_CERTIFICATE_HASH_DOMAIN : bytes :=
  str "dirextalk.device-certificate.v1" ++ [0].
Definition DEVICE_CERTIFICATE_SIGNATURE_DOMAIN : bytes :=
  str "dirextalk.device-certificate-signature.v1" ++ [0].
Definition GENESIS_RECOVERY_ACCEPTANCE_HASH_DOMAIN : bytes :=
  str "dirextalk.identity-log-genesis-recovery-acceptance.v1" ++ [0].
Definition GENESIS_RECOVERY_ACCEPTANCE_SIGNATURE_DOMAIN : bytes :=
  str "dirextalk.identity-log-genesis-recovery-acceptance-signature.v1" ++ [0].
Definition KEY_ROTATION_ACCEPTANCE_HASH_DOMAIN : bytes :=
  str "dirextalk.identity-log-key-acceptance.v1" ++ [0].
Definition KEY_ROTATION_ACCEPTANCE_SIGNATURE_DOMAIN : bytes :=
  str "dirextalk.identity-log-key-acceptance-signature.v1" ++ [0].
Definition RECOVERY_ROTATION_AUTHORIZATION_HASH_DOMAIN : bytes :=
  str "dirextalk.identity-log-recovery-rotation-authorization.v1" ++ [0].
Definition RECOVERY_ROTATION_AUTHORIZATION_SIGNATURE_DOMAIN : bytes :=
  str "dirextalk.identity-log-recovery-rotation-authorization-signature.v1" ++ [0].

Definition MAX_RELAY_URLS : Z := 8.
Definition MAX_RELAY_URL_BYTES : Z := 512.

Inductive IdentityLogWireLine : Type := FrozenV1_0 | CurrentV1_1.
Global Instance IdentityLogWireLine_eq_dec : EqDecision IdentityLogWireLine.
Proof. solve_decision. Defined.

Inductive IdentityLogError : Type :=
| InvalidWireVersion
| InvalidCanonical
| InvalidSignature
| InvalidGenesis
| InvalidEventShape
| IdentityMismatch
| SequenceMismatch
| PreviousHashMismatch
| Replay
| UnauthorizedSigner
| InvalidDeviceCertificate
| DeviceAlreadyExists
| DeviceNotFound
| DeviceAlreadyRevoked
| InvalidRotation
| InvalidRelayDescriptor.

(** A call that returns an error, or an [expect] that fires. *)
Inductive Fault (E : Type) : Type := Raised (e : E) | Panicked.
Arguments Raised {E} _.
Arguments Panicked {E}.

Definition raising {E A} (r : result E A) : result (Fault E) A := map_err Raised r.
Definition expect {E A} (o : option A) : result (Fault E) A := ok_or o Panicked.

(** ** Data *)

Record DeviceEncryptionPublicKey : Type := MkEncryptionKey { enc_bytes : bytes }.
Global Instance DeviceEncryptionPublicKey_eq_dec : EqDecision DeviceEncryptionPublicKey.
Proof. solve_decision. Defined.

Definition DeviceEncryptionPublicKey_try_from (value : bytes) :
    result unit DeviceEncryptionPublicKey :=
  if forallb (λ byte, bool_decide (byte = 0)) value then Err tt else Ok (MkEncryptionKey value).

Global Instance DeviceEncryptionPublicKey_encode : CanonicalEncode DeviceEncryptionPublicKey :=
  λ k, Bytes k.(enc_bytes).

Inductive KeyAcceptancePurposeV1 : Type :=
| PurposeRootRotate
| PurposeRecoveryRotate
| PurposeRecoveryRestoreRoot
| PurposeRecoveryRestoreRecovery.

Definition purpose_code (p : KeyAcceptancePurposeV1) : Z :=
  match p with
  | PurposeRootRotate => 1
  | PurposeRecoveryRotate => 2
  | PurposeRecoveryRestoreRoot => 3
  | PurposeRecoveryRestoreRecovery => 4
  end.

Record UnsignedDeviceCertificateV1 : Type := {
  uc_wire : WireVersion;
  uc_identity_id : IdentityId;
  uc_device_id : DeviceId;
  uc_device_signing_key : SigningPublicKey;
  uc_device_encryption_key : DeviceEncryptionPublicKey;
  uc_issuer_root_key : SigningPublicKey;
  uc_issued_at : UtcMillis
}.

Record DeviceCertificateV1 : Type := {
  cert_unsigned : UnsignedDeviceCertificateV1;
  cert_signature : Ed25519Signature
}.

Record RelayDescriptorV1 : Type := {
  rd_wire : WireVersion;
  rd_relay_urls : list bytes;
  rd_expires_at : UtcMillis
}.

Inductive IdentityLogEventPayloadV1 : Type :=
| Genesis (root_signing_key recovery_signing_key : SigningPublicKey)
    (recovery_acceptance_signature : Ed25519Signature)
| DeviceAdd (certificate : DeviceCertificateV1)
| DeviceRevoke (device_id : DeviceId)
| RootRotate (new_root_signing_key : SigningPublicKey) (acceptance_signature : Ed25519Signature)
| RecoveryRotate (new_recovery_signing_key : SigningPublicKey)
    (acceptance_signature : Ed25519Signature)
    (recovery_authorization_signature : option Ed25519Signature)
| RecoveryRestore (new_root_signing_key new_recovery_signing_key : SigningPublicKey)
    (root_acceptance_signature recovery_acceptance_signature : Ed25519Signature)
| RelayDescriptor (descriptor : RelayDescriptorV1).

Inductive IdentityLogEventKindV1 : Type :=
| KindGenesis | KindDeviceAdd | KindDeviceRevoke | KindRootRotate | KindRecoveryRotate
| KindRecoveryRestore | KindRelayDescriptor.

Definition payload_kind (p : IdentityLogEventPayloadV1) : IdentityLogEventKindV1 :=
  match p with
  | Genesis _ _ _ => KindGenesis
  | DeviceAdd _ => KindDeviceAdd
  | DeviceRevoke _ => KindDeviceRevoke
  | RootRotate _ _ => KindRootRotate
  | RecoveryRotate _ _ _ => KindRecoveryRotate
  | RecoveryRestore _ _ _ _ => KindRecoveryRestore
  | RelayDescriptor _ => KindRelayDescriptor
  end.

Definition kind_code (k : IdentityLogEventKindV1) : Z :=
  match k with
  | KindGenesis => 1
  | KindDeviceAdd => 2
  | KindDeviceRevoke => 3
  | KindRootRotate => 4
  | KindRecoveryRotate => 5
  | KindRecoveryRestore => 6
  | KindRelayDescriptor => 7
  end.

Definition kind_from_code (value : Z) : result IdentityLogError IdentityLogEventKindV1 :=
  match value with
  | 1 => Ok KindGenesis
  | 2 => Ok KindDeviceAdd
  | 3 => Ok KindDeviceRevoke
  | 4 => Ok KindRootRotate
  | 5 => Ok KindRecoveryRotate
  | 6 => Ok KindRecoveryRestore
  | 7 => Ok KindRelayDescriptor
  | _ => Err InvalidCanonical
  end.

Record UnsignedIdentityLogEventV1 : Type := {
  ue_wire : WireVersion;
  ue_identity_id : IdentityId;
  ue_sequence : SafeUint;
  ue_previous_event_hash : option Sha256Digest;
  ue_occurred_at : UtcMillis;
  ue_payload : IdentityLogEventPayloadV1;
  ue_signer : SigningPublicKey
}.

Record IdentityLogEventV1 : Type := {
  ev_unsigned : UnsignedIdentityLogEventV1;
  ev_signature : Ed25519Signature
}.

(** The accessors of a certificate and of an event. *)
Definition cert_wire (c : DeviceCertificateV1) := c.(cert_unsigned).(uc_wire).
Definition cert_identity_id (c : DeviceCertificateV1) := c.(cert_unsigned).(uc_identity_id).
Definition cert_device_id (c : DeviceCertificateV1) := c.(cert_unsigned).(uc_device_id).
Definition cert_signing_key (c : DeviceCertificateV1) := c.(cert_unsigned).(uc_device_signing_key).
Definition cert_encryption_key (c : DeviceCertificateV1) :=
  c.(cert_unsigned).(uc_device_encryption_key).
Definition cert_issuer_root_key (c : DeviceCertificateV1) := c.(cert_unsigned).(uc_issuer_root_key).
Definition cert_issued_at (c : DeviceCertificateV1) := c.(cert_unsigned).(uc_issued_at).

Definition ev_identity_id (e : IdentityLogEventV1) := e.(ev_unsigned).(ue_identity_id).
Definition ev_wire (e : IdentityLogEventV1) := e.(ev_unsigned).(ue_wire).
Definition ev_sequence (e : IdentityLogEventV1) := e.(ev_unsigned).(ue_sequence).
Definition ev_previous_event_hash (e : IdentityLogEventV1) :=
  e.(ev_unsigned).(ue_previous_event_hash).
Definition ev_occurred_at (e : IdentityLogEventV1) := e.(ev_unsigned).(ue_occurred_at).
Definition ev_signer (e : IdentityLogEventV1) := e.(ev_unsigned).(ue_signer).
Definition ev_payload (e : IdentityLogEventV1) := e.(ev_unsigned).(ue_payload).

(** ** Shared helpers of [decoding.rs] *)

Definition identity_log_wire_line (wire : WireVersion) :
    result IdentityLogError IdentityLogWireLine :=
  if decide (wire = IDENTITY_LOG_V1_0_WIRE_VERSION) then Ok FrozenV1_0
  else if decide (wire = IDENTITY_LOG_WIRE_VERSION) then Ok CurrentV1_1
  else Err InvalidWireVersion.

Definition validate_wire_version (wire : WireVersion) : result IdentityLogError unit :=
  (λ _, tt) <$> identity_log_wire_line wire.

Definition identity_value (identity_id : IdentityId) : CanonicalValue :=
  Text (PublicIds.to_string identity_id).

Definition signature_input (domain : bytes) (digest : Sha256Digest) : bytes :=
  domain ++ as_bytes digest.

(** [str::starts_with], [contains] over characters and [split_once('/')]. *)
Definition in_range (lo hi b : Z) : bool := bool_decide (lo ≤ b ≤ hi).
Definition is_ascii_lowercase (b : Z) : bool := in_range 97 122 b.
Definition is_ascii_uppercase (b : Z) : bool := in_range 65 90 b.
Definition is_ascii_alphanumeric (b : Z) : bool :=
  is_ascii_lowercase b || is_ascii_uppercase b || is_ascii_digit b.
Definition one_of (s : string) (b : Z) : bool := bool_decide (b ∈ str s).

Fixpoint before (c : Z) (s : bytes) : bytes :=
  match s with
  | [] => []
  | b :: s => if decide (b = c) then [] else b :: before c s
  end.

Definition valid_relay_url (value : bytes) : bool :=
  if decide (len value > MAX_RELAY_URL_BYTES
     ∨ forallb (in_range 0 127) value = false
     ∨ starts_with (str "https://") value = false
     ∨ existsb (one_of "@?#\") value = true
     ∨ forallb (in_range 0x21 0x7e) value = false)
  then false
  else
    let authority_and_path := drop 8 value in
    let authority := before 47 authority_and_path in
    negb (bool_decide (authority = [])) &&
    negb (bool_decide (last authority = Some 46)) &&
    forallb (λ byte, is_ascii_lowercase byte || is_ascii_digit byte || one_of ".-:[]" byte)
      authority &&
    existsb is_ascii_alphanumeric authority.

(** [windows(2).any(|pair| pair[0] >= pair[1])] *)
Fixpoint has_unordered_neighbours (l : list bytes) : bool :=
  match l with
  | x :: ((y :: _) as l) => bool_decide (ord_le y x) || has_unordered_neighbours l
  | _ => false
  end.

Definition validate_relay_urls (relay_urls : list bytes) : result IdentityLogError unit :=
  reject InvalidRelayDescriptor when (relay_urls = [] ∨ len relay_urls > MAX_RELAY_URLS);;
  reject InvalidRelayDescriptor when (has_unordered_neighbours relay_urls = true);;
  if forallb valid_relay_url relay_urls then Ok tt else Err InvalidRelayDescriptor.

(** ** Relay descriptors *)

Definition RelayDescriptorV1_new (wire : WireVersion) (relay_urls : list bytes)
    (expires_at : UtcMillis) : result IdentityLogError RelayDescriptorV1 :=
  validate_wire_version wire;;
  validate_relay_urls relay_urls;;
  Ok {| rd_wire := wire; rd_relay_urls := relay_urls; rd_expires_at := expires_at |}.

Definition validate_for_event (self : RelayDescriptorV1) (occurred_at : UtcMillis) :
    result IdentityLogError unit :=
  if decide (self.(rd_expires_at).(utc_get) ≤ occurred_at.(utc_get))
  then Err InvalidRelayDescriptor else Ok tt.

Global Instance RelayDescriptorV1_encode : CanonicalEncode RelayDescriptorV1 := λ d,
  Map [(Unsigned 1, to_canonical_value d.(rd_wire));
       (Unsigned 2, Array (Text <$> d.(rd_relay_urls)));
       (Unsigned 3, to_canonical_value d.(rd_expires_at))].

(** ** Hashing and signatures *)

Section identity_log.
Context `{UuidCrate, Ed25519, Sha256}.

Definition device_id_value (device_id : DeviceId) : CanonicalValue :=
  Text (UuidV7.to_string hyphenated device_id).

Definition canonical_hash (domain : bytes) (value : CanonicalValue) :
    result IdentityLogError Sha256Digest :=
  b ← map_err (λ _, InvalidCanonical) (encode_deterministic_cbor value);
  Ok (hash_domain sha256 domain b).

Definition verify_signature (signer : SigningPublicKey) (input : bytes)
    (signature : Ed25519Signature) : result IdentityLogError unit :=
  key ← ok_or (vk_from_bytes signer.(key_bytes)) InvalidSignature;
  if verify_strict key input signature.(sig_bytes) then Ok tt else Err InvalidSignature.

(** ** [certificates.rs] *)

Definition UnsignedDeviceCertificateV1_new (wire : WireVersion) (identity_id : IdentityId)
    (device_id : DeviceId) (device_signing_key : SigningPublicKey)
    (device_encryption_key : DeviceEncryptionPublicKey) (issuer_root_key : SigningPublicKey)
    (issued_at : UtcMillis) : result IdentityLogError UnsignedDeviceCertificateV1 :=
  validate_wire_version wire;;
  reject InvalidDeviceCertificate
    when (device_signing_key.(key_bytes) = device_encryption_key.(enc_bytes)
          ∨ device_signing_key = issuer_root_key);;
  Ok {| uc_wire := wire; uc_identity_id := identity_id; uc_device_id := device_id;
        uc_device_signing_key := device_signing_key;
        uc_device_encryption_key := device_encryption_key;
        uc_issuer_root_key := issuer_root_key; uc_issued_at := issued_at |}.

Definition unsigned_certificate_fields (c : UnsignedDeviceCertificateV1) :
    list (CanonicalValue * CanonicalValue) :=
  [ (Unsigned 1, to_canonical_value c.(uc_wire));
    (Unsigned 2, identity_value c.(uc_identity_id));
    (Unsigned 3, device_id_value c.(uc_device_id));
    (Unsigned 4, to_canonical_value c.(uc_device_signing_key));
    (Unsigned 5, to_canonical_value c.(uc_device_encryption_key));
    (Unsigned 6, to_canonical_value c.(uc_issuer_root_key));
    (Unsigned 7, to_canonical_value c.(uc_issued_at)) ].

Definition certificate_signing_digest (c : UnsignedDeviceCertificateV1) :
    result IdentityLogError Sha256Digest :=
  canonical_hash DEVICE_CERTIFICATE_HASH_DOMAIN (Map (unsigned_certificate_fields c)).

Definition device_certificate_signature_input (digest : Sha256Digest) : bytes :=
  signature_input DEVICE_CERTIFICATE_SIGNATURE_DOMAIN digest.

Definition certificate_verify (self : DeviceCertificateV1) : result IdentityLogError unit :=
  digest ← certificate_signing_digest self.(cert_unsigned);
  map_err (λ _, InvalidDeviceCertificate)
    (verify_signature (cert_issuer_root_key self) (device_certificate_signature_input digest)
       self.(cert_signature)).

Definition DeviceCertificateV1_signed (unsigned : UnsignedDeviceCertificateV1)
    (signature : Ed25519Signature) : result IdentityLogError DeviceCertificateV1 :=
  let certificate := {| cert_unsigned := unsigned; cert_signature := signature |} in
  certificate_verify certificate;;
  Ok certificate.

Definition certificate_value (c : DeviceCertificateV1) : CanonicalValue :=
  Map (unsigned_certificate_fields c.(cert_unsigned) ++
       [(Unsigned 8, to_canonical_value c.(cert_signature))]).

Definition certificate_to_deterministic_cbor (c : DeviceCertificateV1) :
    result IdentityLogError bytes :=
  map_err (λ _, InvalidCanonical) (encode_deterministic_cbor (certificate_value c)).

(** ** The inputs of the proofs of possession and of authorization *)

Definition optional_digest_value (d : option Sha256Digest) : CanonicalValue :=
  match d with Some d => to_canonical_value d | None => Null end.

Definition identity_log_signature_input (digest : Sha256Digest) : bytes :=
  signature_input IDENTITY_LOG_SIGNATURE_DOMAIN digest.

Definition genesis_recovery_acceptance_input (identity_id : IdentityId)
    (root_signing_key recovery_signing_key : SigningPublicKey) : result IdentityLogError bytes :=
  let value := Map [(Unsigned 1, identity_value identity_id);
                    (Unsigned 2, to_canonical_value root_signing_key);
                    (Unsigned 3, to_canonical_value recovery_signing_key)] in
  digest ← canonical_hash GENESIS_RECOVERY_ACCEPTANCE_HASH_DOMAIN value;
  Ok (signature_input GENESIS_RECOVERY_ACCEPTANCE_SIGNATURE_DOMAIN digest).

Definition key_rotation_acceptance_input (identity_id : IdentityId) (sequence : SafeUint)
    (previous_event_hash : option Sha256Digest) (purpose : KeyAcceptancePurposeV1)
    (successor_key : SigningPublicKey) : result IdentityLogError bytes :=
  reject InvalidRotation when (sequence.(uint_get) = 0);;
  let value := Map [(Unsigned 1, identity_value identity_id);
                    (Unsigned 2, to_canonical_value sequence);
                    (Unsigned 3, optional_digest_value previous_event_hash);
                    (Unsigned 4, Unsigned (purpose_code purpose));
                    (Unsigned 5, to_canonical_value successor_key)] in
  digest ← canonical_hash KEY_ROTATION_ACCEPTANCE_HASH_DOMAIN value;
  Ok (signature_input KEY_ROTATION_ACCEPTANCE_SIGNATURE_DOMAIN digest).

Definition recovery_rotation_authorization_input (wire : WireVersion) (identity_id : IdentityId)
    (sequence : SafeUint) (previous_event_hash : option Sha256Digest) (occurred_at : UtcMillis)
    (root_signer successor_key : SigningPublicKey)
    (successor_acceptance_signature : Ed25519Signature) : result IdentityLogError bytes :=
  line ← identity_log_wire_line wire;
  reject InvalidWireVersion when (line ≠ CurrentV1_1);;
  reject InvalidRotation when (sequence.(uint_get) = 0);;
  let value := Map [(Unsigned 1, to_canonical_value wire);
                    (Unsigned 2, identity_value identity_id);
                    (Unsigned 3, to_canonical_value sequence);
                    (Unsigned 4, optional_digest_value previous_event_hash);
                    (Unsigned 5, to_canonical_value occurred_at);
                    (Unsigned 6, to_canonical_value root_signer);
                    (Unsigned 7, to_canonical_value successor_key);
                    (Unsigned 8, to_canonical_value successor_acceptance_signature)] in
  digest ← canonical_hash RECOVERY_ROTATION_AUTHORIZATION_HASH_DOMAIN value;
  Ok (signature_input RECOVERY_ROTATION_AUTHORIZATION_SIGNATURE_DOMAIN digest).

(** ** [events.rs] *)

(** [None] is an [expect] that fires. *)
Definition to_canonical_value_for_wire (p : IdentityLogEventPayloadV1) (wire : WireVersion) :
    option CanonicalValue :=
  line ← result_ok (identity_log_wire_line wire);
  match p with
  | Genesis root_signing_key recovery_signing_key recovery_acceptance_signature =>
      Some (Map [(Unsigned 1, to_canonical_value root_signing_key);
                 (Unsigned 2, to_canonical_value recovery_signing_key);
                 (Unsigned 3, to_canonical_value recovery_acceptance_signature)])
  | DeviceAdd certificate => Some (Map [(Unsigned 1, certificate_value certificate)])
  | DeviceRevoke device_id => Some (Map [(Unsigned 1, device_id_value device_id)])
  | RootRotate new_root_signing_key acceptance_signature =>
      Some (Map [(Unsigned 1, to_canonical_value new_root_signing_key);
                 (Unsigned 2, to_canonical_value acceptance_signature)])
  | RecoveryRotate new_recovery_signing_key acceptance_signature
      recovery_authorization_signature =>
      let fields := [(Unsigned 1, to_canonical_value new_recovery_signing_key);
                     (Unsigned 2, to_canonical_value acceptance_signature)] in
      if decide (line = CurrentV1_1) then
        signature ← recovery_authorization_signature;
        Some (Map (fields ++ [(Unsigned 3, to_canonical_value signature)]))
      else Some (Map fields)
  | RecoveryRestore new_root_signing_key new_recovery_signing_key
      root_acceptance_signature recovery_acceptance_signature =>
      Some (Map [(Unsigned 1, to_canonical_value new_root_signing_key);
                 (Unsigned 2, to_canonical_value new_recovery_signing_key);
                 (Unsigned 3, to_canonical_value root_acceptance_signature);
                 (Unsigned 4, to_canonical_value recovery_acceptance_signature)])
  | RelayDescriptor descriptor => Some (Map [(Unsigned 1, to_canonical_value descriptor)])
  end.

Definition unsigned_event_fields (u : UnsignedIdentityLogEventV1) :
    option (list (CanonicalValue * CanonicalValue)) :=
  payload ← to_canonical_value_for_wire u.(ue_payload) u.(ue_wire);
  Some
    [ (Unsigned 1, to_canonical_value u.(ue_wire));
      (Unsigned 2, identity_value u.(ue_identity_id));
      (Unsigned 3, to_canonical_value u.(ue_sequence));
      (Unsigned 4, optional_digest_value u.(ue_previous_event_hash));
      (Unsigned 5, to_canonical_value u.(ue_occurred_at));
      (Unsigned 6, Unsigned (kind_code (payload_kind u.(ue_payload))));
      (Unsigned 7, payload);
      (Unsigned 8, to_canonical_value u.(ue_signer)) ].

Definition event_value (e : IdentityLogEventV1) : option CanonicalValue :=
  fields ← unsigned_event_fields e.(ev_unsigned);
  Some (Map (fields ++ [(Unsigned 9, to_canonical_value e.(ev_signature))])).

Definition signing_digest (u : UnsignedIdentityLogEventV1) :
    result (Fault IdentityLogError) Sha256Digest :=
  fields ← expect (unsigned_event_fields u);
  raising (canonical_hash IDENTITY_LOG_EVENT_HASH_DOMAIN (Map fields)).

(** [self.sequence.get() == 1 || self.previous_event_hash.is_none()] *)
Definition reject_first (u : UnsignedIdentityLogEventV1) : result IdentityLogError unit :=
  reject InvalidEventShape
    when (u.(ue_sequence).(uint_get) = 1 ∨ u.(ue_previous_event_hash) = None).

Definition validate_static (self : UnsignedIdentityLogEventV1) : result IdentityLogError unit :=
  wire_line ← identity_log_wire_line self.(ue_wire);
  reject InvalidEventShape when (self.(ue_sequence).(uint_get) = 0);;
  match self.(ue_payload) with
  | Genesis root_signing_key recovery_signing_key recovery_acceptance_signature =>
      reject InvalidGenesis
        when (self.(ue_sequence).(uint_get) ≠ 1
              ∨ self.(ue_previous_event_hash) ≠ None
              ∨ self.(ue_signer) ≠ root_signing_key
              ∨ root_signing_key = recovery_signing_key
              ∨ PublicIds.verify_subject_key sha256 self.(ue_identity_id)
                  root_signing_key.(key_bytes) = false);;
      input ← genesis_recovery_acceptance_input self.(ue_identity_id) root_signing_key
                recovery_signing_key;
      map_err (λ _, InvalidGenesis)
        (verify_signature recovery_signing_key input recovery_acceptance_signature)
  | RelayDescriptor descriptor =>
      reject_first self;;
      reject InvalidWireVersion when (descriptor.(rd_wire) ≠ self.(ue_wire));;
      validate_for_event descriptor self.(ue_occurred_at)
  | DeviceAdd certificate =>
      reject_first self;;
      reject InvalidWireVersion when (cert_wire certificate ≠ self.(ue_wire));;
      certificate_verify certificate
  | RecoveryRotate _ _ recovery_authorization_signature =>
      reject_first self;;
      match wire_line, recovery_authorization_signature with
      | FrozenV1_0, None | CurrentV1_1, Some _ => Ok tt
      | FrozenV1_0, Some _ => Err InvalidCanonical
      | CurrentV1_1, None => Err InvalidRotation
      end
  | DeviceRevoke _ | RootRotate _ _ | RecoveryRestore _ _ _ _ => reject_first self
  end.

Definition UnsignedIdentityLogEventV1_new (wire : WireVersion) (identity_id : IdentityId)
    (sequence : SafeUint) (previous_event_hash : option Sha256Digest) (occurred_at : UtcMillis)
    (payload : IdentityLogEventPayloadV1) (signer : SigningPublicKey) :
    result IdentityLogError UnsignedIdentityLogEventV1 :=
  let unsigned := {| ue_wire := wire; ue_identity_id := identity_id; ue_sequence := sequence;
                     ue_previous_event_hash := previous_event_hash;
                     ue_occurred_at := occurred_at; ue_payload := payload;
                     ue_signer := signer |} in
  validate_static unsigned;;
  Ok unsigned.

Definition verify (self : IdentityLogEventV1) : result (Fault IdentityLogError) unit :=
  raising (validate_static self.(ev_unsigned));;
  digest ← signing_digest self.(ev_unsigned);
  raising (verify_signature (ev_signer self) (identity_log_signature_input digest)
             self.(ev_signature)).

Definition IdentityLogEventV1_signed (unsigned : UnsignedIdentityLogEventV1)
    (signature : Ed25519Signature) : result (Fault IdentityLogError) IdentityLogEventV1 :=
  let event := {| ev_unsigned := unsigned; ev_signature := signature |} in
  verify event;;
  Ok event.

Definition to_deterministic_cbor (self : IdentityLogEventV1) :
    result (Fault IdentityLogError) bytes :=
  value ← expect (event_value self);
  raising (map_err (λ _, InvalidCanonical) (encode_deterministic_cbor value)).

Definition entry_hash (self : IdentityLogEventV1) : result (Fault IdentityLogError) Sha256Digest :=
  value ← expect (event_value self);
  raising (canonical_hash IDENTITY_LOG_ENTRY_HASH_DOMAIN value).
End identity_log.

(** ** [decoding.rs]: maps with exactly the keys 1 to [count] *)

Fixpoint keys_numbered (index : Z) (fields : list (CanonicalValue * CanonicalValue)) : bool :=
  match fields with
  | [] => true
  | (Unsigned key, _) :: fields => bool_decide (key = index + 1) && keys_numbered (index + 1) fields
  | _ => false
  end.

Definition exact_fields_or {E} (err : E) (value : CanonicalValue) (count : nat) :
    result E (list (CanonicalValue * CanonicalValue)) :=
  match value with
  | Map fields =>
      if decide (length fields ≠ count ∨ keys_numbered 0 fields = false)
      then Err err else Ok fields
  | _ => Err err
  end.

Definition field_or {E} (err : E) (fields : list (CanonicalValue * CanonicalValue)) (key : nat) :
    result E CanonicalValue :=
  match key with
  | O => Err err
  | S index => ok_or (snd <$> fields !! index) err
  end.

Definition unsigned_or {E} (err : E) (value : CanonicalValue) : result E Z :=
  match value with Unsigned value => Ok value | _ => Err err end.

(** [<[u8; N]>::try_from(slice)] *)
Definition exact_bytes_or {E} (err : E) (n : nat) (value : CanonicalValue) : result E bytes :=
  match value with
  | Bytes b => if decide (length b = n) then Ok b else Err err
  | _ => Err err
  end.

Definition exact_fields := exact_fields_or InvalidCanonical.
Definition field := field_or InvalidCanonical.
Definition decode_unsigned := unsigned_or InvalidCanonical.
Definition decode_exact_bytes := exact_bytes_or InvalidCanonical.

Definition decode_u16 (value : CanonicalValue) : result IdentityLogError Z :=
  n ← decode_unsigned value;
  ok_or (checked 0 u16_max n) InvalidCanonical.

Definition decode_protocol_version (value : CanonicalValue) :
    result IdentityLogError ProtocolVersion :=
  fields ← exact_fields value 2;
  major ← (v ← field fields 1; decode_u16 v);
  minor ← (v ← field fields 2; decode_u16 v);
  Ok (ProtocolVersion_new major minor).

Definition decode_wire_version (value : CanonicalValue) : result IdentityLogError WireVersion :=
  fields ← exact_fields value 2;
  protocol ← (v ← field fields 1; decode_protocol_version v);
  minimum_reader ← (v ← field fields 2; decode_protocol_version v);
  let wire := WireVersion_new protocol minimum_reader in
  validate_wire_version wire;;
  Ok wire.

Definition decode_safe_uint (value : CanonicalValue) : result IdentityLogError SafeUint :=
  n ← decode_unsigned value;
  map_err (λ _, InvalidCanonical) (SafeUint_new n).

Definition decode_digest (value : CanonicalValue) : result IdentityLogError Sha256Digest :=
  b ← decode_exact_bytes 32 value;
  Ok (from_bytes b).

Definition decode_optional_digest (value : CanonicalValue) :
    result IdentityLogError (option Sha256Digest) :=
  match value with
  | Null => Ok None
  | _ => Some <$> decode_digest value
  end.

Definition decode_utc_millis (value : CanonicalValue) : result IdentityLogError UtcMillis :=
  raw ← match value with
        | Unsigned value => ok_or (checked i64_min i64_max value) InvalidCanonical
        | Negative value => Ok value
        | _ => Err InvalidCanonical
        end;
  map_err (λ _, InvalidCanonical) (UtcMillis_new raw).

Definition decode_identity_id (value : CanonicalValue) : result IdentityLogError IdentityId :=
  match value with
  | Text value => map_err (λ _, InvalidCanonical) (PublicIds.from_str KIdentity value)
  | _ => Err InvalidCanonical
  end.

Definition decode_encryption_key (value : CanonicalValue) :
    result IdentityLogError DeviceEncryptionPublicKey :=
  b ← decode_exact_bytes 32 value;
  map_err (λ _, InvalidCanonical) (DeviceEncryptionPublicKey_try_from b).

Definition decode_signature (value : CanonicalValue) : result IdentityLogError Ed25519Signature :=
  b ← decode_exact_bytes 64 value;
  Ok (MkSignature b).

Definition decode_relay_url (url : CanonicalValue) : result IdentityLogError bytes :=
  match url with Text value => Ok value | _ => Err InvalidRelayDescriptor end.

(** [iter().map(f).collect::<Result<Vec<_>, _>>()] *)
Fixpoint collect {E A B} (f : A → result E B) (l : list A) : result E (list B) :=
  match l with
  | [] => Ok []
  | x :: l => y ← f x; ys ← collect f l; Ok (y :: ys)
  end.

Definition decode_relay_descriptor (value : CanonicalValue) :
    result IdentityLogError RelayDescriptorV1 :=
  fields ← exact_fields value 3;
  wire ← (v ← field fields 1; decode_wire_version v);
  urls ← (v ← field fields 2;
          match v with Array urls => Ok urls | _ => Err InvalidRelayDescriptor end);
  relay_urls ← collect decode_relay_url urls;
  expires_at ← (v ← field fields 3; decode_utc_millis v);
  RelayDescriptorV1_new wire relay_urls expires_at.

Section decoding.
Context `{UuidCrate, Ed25519, Sha256}.

Definition decode_device_id (value : CanonicalValue) : result IdentityLogError DeviceId :=
  match value with
  | Text value => map_err (λ _, InvalidCanonical) (uuid_from_str value)
  | _ => Err InvalidCanonical
  end.

Definition decode_signing_key (value : CanonicalValue) : result IdentityLogError SigningPublicKey :=
  b ← decode_exact_bytes 32 value;
  map_err (λ _, InvalidCanonical) (SigningPublicKey_try_from b).

Definition decode_device_certificate (value : CanonicalValue) :
    result IdentityLogError DeviceCertificateV1 :=
  fields ← exact_fields value 8;
  wire ← (v ← field fields 1; decode_wire_version v);
  identity_id ← (v ← field fields 2; decode_identity_id v);
  device_id ← (v ← field fields 3; decode_device_id v);
  device_signing_key ← (v ← field fields 4; decode_signing_key v);
  device_encryption_key ← (v ← field fields 5; decode_encryption_key v);
  issuer_root_key ← (v ← field fields 6; decode_signing_key v);
  issued_at ← (v ← field fields 7; decode_utc_millis v);
  signature ← (v ← field fields 8; decode_signature v);
  unsigned ← UnsignedDeviceCertificateV1_new wire identity_id device_id device_signing_key
               device_encryption_key issuer_root_key issued_at;
  DeviceCertificateV1_signed unsigned signature.

Definition decode_payload (kind : IdentityLogEventKindV1) (value : CanonicalValue)
    (wire : WireVersion) : result IdentityLogError IdentityLogEventPayloadV1 :=
  match kind with
  | KindGenesis =>
      fields ← exact_fields value 3;
      root_signing_key ← (v ← field fields 1; decode_signing_key v);
      recovery_signing_key ← (v ← field fields 2; decode_signing_key v);
      recovery_acceptance_signature ← (v ← field fields 3; decode_signature v);
      Ok (Genesis root_signing_key recovery_signing_key recovery_acceptance_signature)
  | KindDeviceAdd =>
      fields ← exact_fields value 1;
      certificate ← (v ← field fields 1; decode_device_certificate v);
      Ok (DeviceAdd certificate)
  | KindDeviceRevoke =>
      fields ← exact_fields value 1;
      device_id ← (v ← field fields 1; decode_device_id v);
      Ok (DeviceRevoke device_id)
  | KindRootRotate =>
      fields ← exact_fields value 2;
      new_root_signing_key ← (v ← field fields 1; decode_signing_key v);
      acceptance_signature ← (v ← field fields 2; decode_signature v);
      Ok (RootRotate new_root_signing_key acceptance_signature)
  | KindRecoveryRotate =>
      wire_line ← identity_log_wire_line wire;
      fields ← exact_fields value (match wire_line with FrozenV1_0 => 2 | CurrentV1_1 => 3 end);
      new_recovery_signing_key ← (v ← field fields 1; decode_signing_key v);
      acceptance_signature ← (v ← field fields 2; decode_signature v);
      recovery_authorization_signature ←
        match wire_line with
        | FrozenV1_0 => Ok None
        | CurrentV1_1 => v ← field fields 3; Some <$> decode_signature v
        end;
      Ok (RecoveryRotate new_recovery_signing_key acceptance_signature
            recovery_authorization_signature)
  | KindRecoveryRestore =>
      fields ← exact_fields value 4;
      new_root_signing_key ← (v ← field fields 1; decode_signing_key v);
      new_recovery_signing_key ← (v ← field fields 2; decode_signing_key v);
      root_acceptance_signature ← (v ← field fields 3; decode_signature v);
      recovery_acceptance_signature ← (v ← field fields 4; decode_signature v);
      Ok (RecoveryRestore new_root_signing_key new_recovery_signing_key
            root_acceptance_signature recovery_acceptance_signature)
  | KindRelayDescriptor =>
      fields ← exact_fields value 1;
      descriptor ← (v ← field fields 1; decode_relay_descriptor v);
      Ok (RelayDescriptor descriptor)
  end.

(** The fields of an event, before it is constructed. *)
Definition decode_fields (bytes : bytes) :
    result IdentityLogError (UnsignedIdentityLogEventV1 * Ed25519Signature) :=
  value ← map_err (λ _, InvalidCanonical) (decode_deterministic_cbor bytes);
  fields ← exact_fields value 9;
  wire ← (v ← field fields 1; decode_wire_version v);
  identity_id ← (v ← field fields 2; decode_identity_id v);
  sequence ← (v ← field fields 3; decode_safe_uint v);
  previous_event_hash ← (v ← field fields 4; decode_optional_digest v);
  occurred_at ← (v ← field fields 5; decode_utc_millis v);
  kind ← (v ← field fields 6; n ← decode_unsigned v; kind_from_code n);
  payload ← (v ← field fields 7; decode_payload kind v wire);
  signer ← (v ← field fields 8; decode_signing_key v);
  signature ← (v ← field fields 9; decode_signature v);
  unsigned ← UnsignedIdentityLogEventV1_new wire identity_id sequence previous_event_hash
               occurred_at payload signer;
  Ok (unsigned, signature).

(** [IdentityLogEventV1::decode_and_verify] *)
Definition decode_and_verify (bytes : bytes) :
    result (Fault IdentityLogError) IdentityLogEventV1 :=
  '(unsigned, signature) ← raising (decode_fields bytes);
  event ← IdentityLogEventV1_signed unsigned signature;
  encoded ← to_deterministic_cbor event;
  reject (Raised InvalidCanonical) when (encoded ≠ bytes);;
  Ok event.
End decoding.
