(* ===== verification/IdentityLogProjection.v ===== *)
(** * Identity log: the authorization projection

    Models [projection.rs] of [crates/dtx-identity-log/src]: the state that a
    verified log determines, the admission of the next event, and the import of
    a frozen history. *)

From S2P Require Import Prelude Domain CanonicalCbor WirePrimitives WireValues IdentityLog.

Inductive DeviceStatusV1 : Type := Active | Revoked.
Global Instance DeviceStatusV1_eq_dec : EqDecision DeviceStatusV1.
Proof. solve_decision. Defined.

Record DeviceRecordV1 : Type := { dr_certificate : DeviceCertificateV1; dr_status : DeviceStatusV1 }.

Record IdentityLogV1 : Type := {
  log_wire : WireVersion;
  log_identity_id : IdentityId;
  current_root_key : SigningPublicKey;
  current_recovery_key : SigningPublicKey;
  initial_device_id : option DeviceId;
  devices : gmap DeviceId DeviceRecordV1;
  relay_descriptor : option RelayDescriptorV1;
  head_sequence : SafeUint;
  head_hash : Sha256Digest;
  seen_entry_hashes : gset Sha256Digest
}.

Global Instance dr_status_field : Field dr_status := λ f r,
  {| dr_certificate := r.(dr_certificate); dr_status := f r.(dr_status) |}.

Definition set_log (l : IdentityLogV1) root recovery initial ds relay sequence hash seen :=
  {| log_wire := l.(log_wire); log_identity_id := l.(log_identity_id);
     current_root_key := root; current_recovery_key := recovery; initial_device_id := initial;
     devices := ds; relay_descriptor := relay; head_sequence := sequence; head_hash := hash;
     seen_entry_hashes := seen |}.

Global Instance current_root_key_field : Field current_root_key := λ f l,
  set_log l (f l.(current_root_key)) l.(current_recovery_key) l.(initial_device_id) l.(devices)
    l.(relay_descriptor) l.(head_sequence) l.(head_hash) l.(seen_entry_hashes).
Global Instance current_recovery_key_field : Field current_recovery_key := λ f l,
  set_log l l.(current_root_key) (f l.(current_recovery_key)) l.(initial_device_id) l.(devices)
    l.(relay_descriptor) l.(head_sequence) l.(head_hash) l.(seen_entry_hashes).
Global Instance initial_device_id_field : Field initial_device_id := λ f l,
  set_log l l.(current_root_key) l.(current_recovery_key) (f l.(initial_device_id)) l.(devices)
    l.(relay_descriptor) l.(head_sequence) l.(head_hash) l.(seen_entry_hashes).
Global Instance devices_field : Field devices := λ f l,
  set_log l l.(current_root_key) l.(current_recovery_key) l.(initial_device_id) (f l.(devices))
    l.(relay_descriptor) l.(head_sequence) l.(head_hash) l.(seen_entry_hashes).
Global Instance relay_descriptor_field : Field relay_descriptor := λ f l,
  set_log l l.(current_root_key) l.(current_recovery_key) l.(initial_device_id) l.(devices)
    (f l.(relay_descriptor)) l.(head_sequence) l.(head_hash) l.(seen_entry_hashes).
Global Instance head_sequence_field : Field head_sequence := λ f l,
  set_log l l.(current_root_key) l.(current_recovery_key) l.(initial_device_id) l.(devices)
    l.(relay_descriptor) (f l.(head_sequence)) l.(head_hash) l.(seen_entry_hashes).
Global Instance head_hash_field : Field head_hash := λ f l,
  set_log l l.(current_root_key) l.(current_recovery_key) l.(initial_device_id) l.(devices)
    l.(relay_descriptor) l.(head_sequence) (f l.(head_hash)) l.(seen_entry_hashes).
Global Instance seen_entry_hashes_field : Field seen_entry_hashes := λ f l,
  set_log l l.(current_root_key) l.(current_recovery_key) l.(initial_device_id) l.(devices)
    l.(relay_descriptor) l.(head_sequence) l.(head_hash) (f l.(seen_entry_hashes)).

(** ** Queries *)

Definition device_status (self : IdentityLogV1) (device_id : DeviceId) : option DeviceStatusV1 :=
  dr_status <$> self.(devices) !! device_id.

Definition device_certificate (self : IdentityLogV1) (device_id : DeviceId) :
    option DeviceCertificateV1 :=
  dr_certificate <$> self.(devices) !! device_id.

Definition active_relay_descriptor (self : IdentityLogV1) (now : UtcMillis) :
    option RelayDescriptorV1 :=
  descriptor ← self.(relay_descriptor);
  if decide (descriptor.(rd_expires_at).(utc_get) > now.(utc_get)) then Some descriptor else None.

(** [self.devices.values().any(..)] *)
Definition any_device (self : IdentityLogV1) (f : DeviceRecordV1 → bool) : bool :=
  existsb f (btree_values self.(devices)).

Definition device_signing_key_is_used (self : IdentityLogV1) (key : SigningPublicKey) : bool :=
  any_device self (λ record, bool_decide (cert_signing_key record.(dr_certificate) = key)).

Section projection.
Context `{UuidCrate, Ed25519, Sha256}.

Notation Log := (ST IdentityLogV1 IdentityLogError).

(** ** The transitions *)

Definition verify_rotation_acceptance (self : IdentityLogV1) (event : IdentityLogEventV1)
    (purpose : KeyAcceptancePurposeV1) (successor : SigningPublicKey)
    (signature : Ed25519Signature) : result IdentityLogError unit :=
  input ← key_rotation_acceptance_input self.(log_identity_id) (ev_sequence event)
            (ev_previous_event_hash event) purpose successor;
  map_err (λ _, InvalidRotation) (verify_signature successor input signature).

Definition apply_device_add (event : IdentityLogEventV1) (certificate : DeviceCertificateV1) :
    Log unit :=
  self ← get;
  let signer_is_active_device :=
    any_device self (λ record, bool_decide (record.(dr_status) = Active
      ∧ cert_signing_key record.(dr_certificate) = ev_signer event)) in
  lift (reject UnauthorizedSigner
    when (ev_signer event ≠ self.(current_root_key) ∧ signer_is_active_device = false));;
  lift (certificate_verify certificate);;
  lift (reject InvalidDeviceCertificate
    when (cert_identity_id certificate ≠ self.(log_identity_id)
          ∨ cert_issuer_root_key certificate ≠ self.(current_root_key)
          ∨ (cert_issued_at certificate).(utc_get) > (ev_occurred_at event).(utc_get)
          ∨ cert_signing_key certificate = self.(current_root_key)
          ∨ cert_signing_key certificate = self.(current_recovery_key)));;
  lift (reject DeviceAlreadyExists
    when (is_Some (self.(devices) !! cert_device_id certificate)
          ∨ any_device self (λ record,
              bool_decide (cert_signing_key record.(dr_certificate) = cert_signing_key certificate
                ∨ cert_encryption_key record.(dr_certificate) = cert_encryption_key certificate))
            = true));;
  modify (λ self,
    if decide (self.(head_sequence).(uint_get) = 1)
    then self <| initial_device_id := Some (cert_device_id certificate) |> else self);;
  modify (λ self, self <| devices :=
    <[ cert_device_id certificate :=
         {| dr_certificate := certificate; dr_status := Active |} ]> self.(devices) |>).

Definition apply_device_revoke (event : IdentityLogEventV1) (device_id : DeviceId) : Log unit :=
  self ← get;
  lift (reject UnauthorizedSigner when (ev_signer event ≠ self.(current_root_key)));;
  record ← lift (ok_or (self.(devices) !! device_id) DeviceNotFound);
  lift (reject DeviceAlreadyRevoked when (record.(dr_status) = Revoked));;
  modify (λ self, self <| devices :=
    <[ device_id := record <| dr_status := Revoked |> ]> self.(devices) |>).

Definition apply_root_rotation (event : IdentityLogEventV1) (successor : SigningPublicKey)
    (acceptance_signature : Ed25519Signature) : Log unit :=
  self ← get;
  lift (reject UnauthorizedSigner when (ev_signer event ≠ self.(current_root_key)));;
  lift (reject InvalidRotation
    when (successor = self.(current_root_key) ∨ successor = self.(current_recovery_key)
          ∨ device_signing_key_is_used self successor = true));;
  lift (verify_rotation_acceptance self event PurposeRootRotate successor acceptance_signature);;
  modify (λ self, self <| current_root_key := successor |>).

Definition apply_recovery_rotation (event : IdentityLogEventV1) (successor : SigningPublicKey)
    (acceptance_signature : Ed25519Signature)
    (recovery_authorization_signature : option Ed25519Signature) : Log unit :=
  self ← get;
  lift (reject UnauthorizedSigner when (ev_signer event ≠ self.(current_root_key)));;
  lift (reject InvalidRotation
    when (successor = self.(current_root_key) ∨ successor = self.(current_recovery_key)
          ∨ device_signing_key_is_used self successor = true));;
  lift (verify_rotation_acceptance self event PurposeRecoveryRotate successor
          acceptance_signature);;
  line ← lift (identity_log_wire_line (ev_wire event));
  lift (match line, recovery_authorization_signature with
        | FrozenV1_0, None => Ok tt
        | CurrentV1_1, Some signature =>
            authorization_input ←
              recovery_rotation_authorization_input (ev_wire event) self.(log_identity_id)
                (ev_sequence event) (ev_previous_event_hash event) (ev_occurred_at event)
                (ev_signer event) successor acceptance_signature;
            map_err (λ _, InvalidRotation)
              (verify_signature self.(current_recovery_key) authorization_input signature)
        | FrozenV1_0, Some _ => Err InvalidCanonical
        | CurrentV1_1, None => Err InvalidRotation
        end);;
  modify (λ self, self <| current_recovery_key := successor |>).

Definition apply_recovery_restore (event : IdentityLogEventV1)
    (new_root new_recovery : SigningPublicKey)
    (root_acceptance_signature recovery_acceptance_signature : Ed25519Signature) : Log unit :=
  self ← get;
  lift (reject UnauthorizedSigner when (ev_signer event ≠ self.(current_recovery_key)));;
  lift (reject InvalidRotation
    when (new_root = new_recovery
          ∨ new_root = self.(current_root_key) ∨ new_root = self.(current_recovery_key)
          ∨ new_recovery = self.(current_root_key) ∨ new_recovery = self.(current_recovery_key)
          ∨ device_signing_key_is_used self new_root = true
          ∨ device_signing_key_is_used self new_recovery = true));;
  lift (verify_rotation_acceptance self event PurposeRecoveryRestoreRoot new_root
          root_acceptance_signature);;
  lift (verify_rotation_acceptance self event PurposeRecoveryRestoreRecovery new_recovery
          recovery_acceptance_signature);;
  modify (λ self, self <| current_root_key := new_root |>);;
  modify (λ self, self <| current_recovery_key := new_recovery |>);;
  modify (λ self, self <| devices :=
    (λ record, record <| dr_status := Revoked |>) <$> self.(devices) |>).

Definition apply_relay_descriptor (event : IdentityLogEventV1) (descriptor : RelayDescriptorV1) :
    Log unit :=
  self ← get;
  lift (reject UnauthorizedSigner when (ev_signer event ≠ self.(current_root_key)));;
  lift (validate_for_event descriptor (ev_occurred_at event));;
  modify (λ self, self <| relay_descriptor := Some descriptor |>).

Definition apply_authorized (event : IdentityLogEventV1) : Log unit :=
  match ev_payload event with
  | Genesis _ _ _ => throw InvalidGenesis
  | DeviceAdd certificate => apply_device_add event certificate
  | DeviceRevoke device_id => apply_device_revoke event device_id
  | RootRotate new_root_signing_key acceptance_signature =>
      apply_root_rotation event new_root_signing_key acceptance_signature
  | RecoveryRotate new_recovery_signing_key acceptance_signature
      recovery_authorization_signature =>
      apply_recovery_rotation event new_recovery_signing_key acceptance_signature
        recovery_authorization_signature
  | RecoveryRestore new_root_signing_key new_recovery_signing_key root_acceptance_signature
      recovery_acceptance_signature =>
      apply_recovery_restore event new_root_signing_key new_recovery_signing_key
        root_acceptance_signature recovery_acceptance_signature
  | RelayDescriptor descriptor => apply_relay_descriptor event descriptor
  end.

(** ** Bootstrap and append *)

Definition bootstrap_projection (genesis : IdentityLogEventV1) :
    result (Fault IdentityLogError) IdentityLogV1 :=
  verify genesis;;
  match ev_payload genesis with
  | Genesis root_signing_key recovery_signing_key _ =>
      entry_hash ← entry_hash genesis;
      Ok {| log_wire := ev_wire genesis;
            log_identity_id := ev_identity_id genesis;
            current_root_key := root_signing_key;
            current_recovery_key := recovery_signing_key;
            initial_device_id := None;
            devices := ∅;
            relay_descriptor := None;
            head_sequence := ev_sequence genesis;
            head_hash := entry_hash;
            seen_entry_hashes := {[ entry_hash ]} |}
  | _ => Err (Raised InvalidGenesis)
  end.

Definition bootstrap (genesis : IdentityLogEventV1) :
    result (Fault IdentityLogError) IdentityLogV1 :=
  reject (Raised InvalidWireVersion) when (ev_wire genesis ≠ IDENTITY_LOG_WIRE_VERSION);;
  bootstrap_projection genesis.

Definition next_sequence (self : IdentityLogV1) : option SafeUint :=
  value ← u64_checked_add self.(head_sequence).(uint_get) 1;
  result_ok (SafeUint_new value).

(** [let mut next = self.clone(); next.apply_authorized(event)?] *)
Definition apply_to_copy (event : IdentityLogEventV1) (self : IdentityLogV1) :
    result IdentityLogError IdentityLogV1 :=
  let '(r, next) := apply_authorized event self in
  r;;
  Ok next.

Definition append_projection (event : IdentityLogEventV1) :
    ST IdentityLogV1 (Fault IdentityLogError) unit :=
  self ← get;
  lift (verify event);;
  lift (reject (Raised IdentityMismatch) when (ev_identity_id event ≠ self.(log_identity_id)));;
  lift (reject (Raised InvalidWireVersion) when (ev_wire event ≠ self.(log_wire)));;
  entry_hash ← lift (entry_hash event);
  lift (reject (Raised Replay) when (entry_hash ∈ self.(seen_entry_hashes)));;
  next_sequence ← lift (ok_or (next_sequence self) (Raised SequenceMismatch));
  lift (reject (Raised SequenceMismatch) when (ev_sequence event ≠ next_sequence));;
  lift (reject (Raised PreviousHashMismatch)
    when (ev_previous_event_hash event ≠ Some self.(head_hash)));;
  next ← lift (raising (apply_to_copy event self));
  modify (λ _, next
    <| head_sequence := ev_sequence event |>
    <| head_hash := entry_hash |>
    <| seen_entry_hashes := {[ entry_hash ]} ∪ next.(seen_entry_hashes) |>).

Definition append (event : IdentityLogEventV1) : ST IdentityLogV1 (Fault IdentityLogError) unit :=
  self ← get;
  lift (reject (Raised InvalidWireVersion)
    when (self.(log_wire) ≠ IDENTITY_LOG_WIRE_VERSION
          ∨ ev_wire event ≠ IDENTITY_LOG_WIRE_VERSION));;
  append_projection event.

(** ** [HistoricalIdentityLogV1] *)

Record HistoricalIdentityLogV1 : Type := { projection : IdentityLogV1 }.

Definition import_event (projection : IdentityLogV1) (event : IdentityLogEventV1) :
    result (Fault IdentityLogError) IdentityLogV1 :=
  reject (Raised InvalidWireVersion) when (ev_wire event ≠ IDENTITY_LOG_V1_0_WIRE_VERSION);;
  let '(r, projection) := append_projection event projection in
  r;;
  Ok projection.

Definition import_v1_0 (events : list IdentityLogEventV1) :
    result (Fault IdentityLogError) HistoricalIdentityLogV1 :=
  match events with
  | [] => Err (Raised InvalidGenesis)
  | genesis :: rest =>
      reject (Raised InvalidWireVersion) when (ev_wire genesis ≠ IDENTITY_LOG_V1_0_WIRE_VERSION);;
      projection ← bootstrap_projection genesis;
      projection ← try_fold import_event rest projection;
      Ok {| projection := projection |}
  end.
End projection.
