(* ===== verification/IdentityLogCodec.v ===== *)
(** * Identity log: the bytes of an event

    Every decoder of [decoding.rs] inverts the encoder of its type and accepts
    nothing else; a well-formed event always encodes within the limits of the
    profile; and the complete event decoder accepts exactly the encodings of
    verified events. *)

From S2P Require Import Prelude Domain CanonicalCbor CborSpec CborEncode CborDecode CborFields.
From S2P Require Import WirePrimitives WireValues IdentityLog.

#[local] Opaque encode_deterministic_cbor decode_deterministic_cbor.

(** ** Numbered maps *)

(** [dec] accepts exactly the encodings [enc x] of the values [x] with [ok x]. *)
Definition decodes {E A} (dec : CanonicalValue → result E A) (enc : A → CanonicalValue)
    (ok : A → Prop) : Prop :=
  ∀ v x, parsed_ok v → dec v = Ok x ↔ ok x ∧ v = enc x.

Lemma keys_numbered_spec k fields :
  keys_numbered k fields = true ↔ ∃ vs, fields = number_from (k + 1) vs.
Proof.
  revert k. induction fields as [|[key v] fields IH]; intros k; cbn.
  { split; [|done]. intros _. by exists []. }
  split.
  - destruct key; try done. intros [Hk%bool_decide_eq_true Hr]%andb_true_iff. subst.
    apply IH in Hr as [vs ->]. by exists (v :: vs).
  - intros [[|v' vs] Heq]; [done|]. cbn in Heq. simplify_eq. cbn.
    rewrite bool_decide_true by done. apply IH. by exists vs.
Qed.

Lemma length_number_from k vs : length (number_from k vs) = length vs.
Proof. revert k. induction vs as [|v vs IH]; intros k; cbn; [done|]. by rewrite IH. Qed.

Lemma exact_fields_Ok {E} (err : E) v n fields :
  exact_fields_or err v n = Ok fields ↔
  ∃ vs, length vs = n ∧ fields = number_from 1 vs ∧ v = Map (number_from 1 vs).
Proof.
  split.
  - destruct v; try done. cbn. case_decide as Hc; [done|]. intros [= <-].
    apply Decidable.not_or in Hc as [Hl%dec_stable Hk%not_false_is_true].
    apply keys_numbered_spec in Hk as [vs ->]. exists vs. by rewrite length_number_from in Hl.
  - intros (vs & <- & -> & ->). cbn. rewrite decide_False; [done|].
    rewrite length_number_from. intros [?|Hk]; [done|].
    by rewrite (proj2 (keys_numbered_spec 0 _)) in Hk by (by exists vs).
Qed.

Lemma parsed_ok_numbered k vs : parsed_ok (Map (number_from k vs)) → Forall parsed_ok vs.
Proof.
  inversion_clear 1 as [| | | | |es Hall| |]. revert k Hall.
  induction vs as [|v vs IH]; intros k Hall; cbn in *; [constructor|].
  apply Forall_cons in Hall as [[_ Hv] Hall]. constructor; [done|]. by eapply IH.
Qed.

Lemma bind_exact_fields {E B} (err : E) vs n (f : _ → result E B) r :
  length vs = n → f (number_from 1 vs) = r →
  (exact_fields_or err (Map (number_from 1 vs)) n ≫= f) = r.
Proof.
  intros Hl <-. rewrite (proj2 (exact_fields_Ok err _ n (number_from 1 vs))); [done|].
  by exists vs.
Qed.

(** Runs a decoder on the map with the fields [vs]. *)
Ltac run_binds := cbn [field_or lookup list_lookup number_from fmap option_fmap option_map
  snd ok_or mbind result_bind].
Ltac run_fields vs := apply (bind_exact_fields _ vs); [reflexivity|]; unfold field; run_binds.

(** Takes a decoder of a numbered map apart: [vs] are the values of its fields. *)
Ltac split_fields Hf Hv :=
  let vs := fresh "vs" in
  let Hl := fresh "Hl" in
  apply exact_fields_Ok in Hf as (vs & Hl & -> & ->);
  repeat match type of Hl with
    | length ?l = S _ => destruct l as [|? l]; [discriminate Hl|]; apply (f_equal Nat.pred) in Hl; cbn [length Nat.pred] in Hl
    | length ?l = O => destruct l; [clear Hl|discriminate Hl]
    end;
  apply parsed_ok_numbered in Hv; rewrite ?Forall_cons in Hv; destruct_and? Hv.

(** A decoder that succeeded, field by field. *)
Ltac open_fields H :=
  res_inv H;
  repeat match goal with
    | Hf : field_or _ _ _ = Ok ?v |- _ =>
        cbn [field_or lookup list_lookup number_from fmap option_fmap option_map snd ok_or] in Hf;
        injection Hf as Hf; subst v
    | Hf : field _ _ = Ok ?v |- _ => unfold field in Hf
    end.

(** ** Leaves *)

Lemma exact_bytes_Ok {E} (err : E) n v b :
  parsed_ok v → exact_bytes_or err n v = Ok b ↔ (digits 256 b ∧ length b = n) ∧ v = Bytes b.
Proof.
  intros Hv. split.
  - destruct v; try done. cbn. case_decide; [|done]. intros [= <-]. inversion Hv. by split_and!.
  - intros [[_ Hl] ->]. cbn. by rewrite decide_True.
Qed.

Lemma unsigned_Ok {E} (err : E) v n :
  parsed_ok v → unsigned_or err v = Ok n ↔ 0 ≤ n ≤ u64_max ∧ v = Unsigned n.
Proof.
  intros Hv. split; [|by intros [_ ->]]. destruct v; try done. intros [= <-]. by inversion Hv.
Qed.

Lemma decode_digest_iff : decodes decode_digest to_canonical_value digest_valid.
Proof.
  intros v d Hv. unfold decode_digest, decode_exact_bytes. split.
  - intros (b & Hb & [= <-])%result_bind_Ok. by apply exact_bytes_Ok in Hb as [? ->].
  - intros [[Hd Hl] ->]. destruct d as [b]. apply result_bind_Ok. exists b.
    by rewrite exact_bytes_Ok.
Qed.

Lemma decode_signature_iff : decodes decode_signature to_canonical_value signature_valid.
Proof.
  intros v d Hv. unfold decode_signature, decode_exact_bytes. split.
  - intros (b & Hb & [= <-])%result_bind_Ok. by apply exact_bytes_Ok in Hb as [? ->].
  - intros [[Hd Hl] ->]. destruct d as [b]. apply result_bind_Ok. exists b.
    by rewrite exact_bytes_Ok.
Qed.

Definition optional_digest_valid (d : option Sha256Digest) : Prop :=
  match d with Some d => digest_valid d | None => True end.

Lemma decode_optional_digest_iff :
  decodes decode_optional_digest optional_digest_value optional_digest_valid.
Proof.
  intros v d Hv. pose proof (decode_digest_iff v) as Hdec. unfold decode_optional_digest. split.
  - destruct v; try done;
      try (intros Hd; destruct (decode_digest _) as [d'|] eqn:Hd'; [|done];
           injection Hd as <-; by apply Hdec).
    intros [= <-]. done.
  - intros [Hd ->]. destruct d as [d|]; [|done]. cbn in *.
    by rewrite (proj2 (Hdec d Hv)).
Qed.

Definition enc_valid (k : DeviceEncryptionPublicKey) : Prop :=
  (digits 256 k.(enc_bytes) ∧ length k.(enc_bytes) = 32%nat) ∧
  forallb (λ byte, bool_decide (byte = 0)) k.(enc_bytes) = false.

Lemma decode_encryption_key_iff : decodes decode_encryption_key to_canonical_value enc_valid.
Proof.
  intros v d Hv. unfold decode_encryption_key, decode_exact_bytes, DeviceEncryptionPublicKey_try_from.
  split.
  - intros (b & Hb & Hk)%result_bind_Ok. apply exact_bytes_Ok in Hb as [? ->]; [|done].
    destruct (forallb _ b) eqn:Hz; [done|]. by injection Hk as <-.
  - intros [[Hl Hz] ->]. destruct d as [b]. apply result_bind_Ok. exists b.
    rewrite exact_bytes_Ok by done. cbn in *. by rewrite Hz.
Qed.

Lemma decode_safe_uint_iff : decodes decode_safe_uint to_canonical_value uint_valid.
Proof.
  intros v d Hv. unfold decode_safe_uint, decode_unsigned. split.
  - intros (n & Hn & Hd)%result_bind_Ok. apply unsigned_Ok in Hn as [Hn ->]; [|done].
    apply map_err_Ok, SafeUint_new_Ok in Hd as [Hd <-]; [|lia]. done.
  - intros [Hd ->]. apply result_bind_Ok. exists d.(uint_get). split; [done|].
    apply map_err_Ok, SafeUint_new_Ok; [apply Hd|done].
Qed.

Lemma decode_utc_millis_iff : decodes decode_utc_millis to_canonical_value utc_valid.
Proof.
  intros v t Hv. unfold decode_utc_millis. split.
  - intros (n & Hn & Ht)%result_bind_Ok. apply map_err_Ok, UtcMillis_new_Ok in Ht as [Ht <-].
    split; [done|]. unfold to_canonical_value, UtcMillis_encode.
    destruct v as [m|m| | | | | |]; try done; inversion Hv; subst.
    + apply ok_or_Ok, checked_Some in Hn as [-> ?]. by rewrite decide_True by lia.
    + injection Hn as <-. by rewrite decide_False by lia.
  - intros [Ht ->]. apply result_bind_Ok. exists t.(utc_get).
    split; [|by apply map_err_Ok, UtcMillis_new_Ok].
    unfold to_canonical_value, UtcMillis_encode. case_decide; [|done]. apply ok_or_Ok, checked_Some.
    unfold utc_valid, MIN_UTC_MILLIS, MAX_UTC_MILLIS, i64_min, i64_max in *. lia.
Qed.

Lemma decode_identity_id_iff : decodes decode_identity_id identity_value PublicIds.valid.
Proof.
  intros v id Hv. unfold decode_identity_id. split.
  - destruct v; try done. intros Hs%map_err_Ok. apply PublicIds.from_str_Ok in Hs as [? <-]. done.
  - intros [Hid ->]. apply map_err_Ok. by apply PublicIds.from_str_to_string.
Qed.

(** ** Versions *)

Definition supported (w : WireVersion) : Prop :=
  w = IDENTITY_LOG_V1_0_WIRE_VERSION ∨ w = IDENTITY_LOG_WIRE_VERSION.

Lemma wire_line_Ok w line :
  identity_log_wire_line w = Ok line ↔
  (w = IDENTITY_LOG_V1_0_WIRE_VERSION ∧ line = FrozenV1_0) ∨
  (w = IDENTITY_LOG_WIRE_VERSION ∧ line = CurrentV1_1).
Proof.
  unfold identity_log_wire_line.
  assert (IDENTITY_LOG_V1_0_WIRE_VERSION ≠ IDENTITY_LOG_WIRE_VERSION) by done.
  repeat case_decide; naive_solver.
Qed.

Lemma validate_wire_Ok w u : validate_wire_version w = Ok u ↔ supported w.
Proof.
  destruct u. unfold validate_wire_version, supported, identity_log_wire_line.
  repeat case_decide; cbn; naive_solver.
Qed.

Lemma supported_valid w : supported w → wire_valid w.
Proof. intros [->| ->]; repeat split; done. Qed.

Lemma decode_u16_Ok v n :
  parsed_ok v → decode_u16 v = Ok n ↔ 0 ≤ n ≤ u16_max ∧ v = Unsigned n.
Proof.
  intros Hv. unfold decode_u16, decode_unsigned. split.
  - intros (m & Hm & Hn)%result_bind_Ok. apply unsigned_Ok in Hm as [_ ->]; [|done].
    by apply ok_or_Ok, checked_Some in Hn as [-> ?].
  - intros [Hn ->]. apply result_bind_Ok. exists n. split; [done|]. by apply ok_or_Ok, checked_Some.
Qed.

(** ** The decoders invert the encoders of the leaves *)

Lemma decodes_encode {E A} (dec : CanonicalValue → result E A) enc ok x :
  decodes dec enc ok → parsed_ok (enc x) → ok x → dec (enc x) = Ok x.
Proof. intros Hd Hp Hx. by apply Hd. Qed.

Lemma decode_encode_u16 n : 0 ≤ n ≤ u16_max → decode_u16 (Unsigned n) = Ok n.
Proof.
  intros Hn. apply decode_u16_Ok; [|done]. constructor. unfold u16_max, u64_max in *. lia.
Qed.

Lemma decode_encode_utc t : utc_valid t → decode_utc_millis (to_canonical_value t) = Ok t.
Proof.
  intros Ht. eapply decodes_encode; [apply decode_utc_millis_iff| |done].
  by eapply compact_parsed_ok, utc_compact.
Qed.

Lemma decode_encode_uint n : uint_valid n → decode_safe_uint (to_canonical_value n) = Ok n.
Proof.
  intros Hn. eapply decodes_encode; [apply decode_safe_uint_iff| |done].
  by eapply compact_parsed_ok, uint_compact.
Qed.

Lemma decode_encode_signature s :
  signature_valid s → decode_signature (to_canonical_value s) = Ok s.
Proof.
  intros Hs. eapply decodes_encode; [apply decode_signature_iff| |done].
  by eapply compact_parsed_ok, signature_compact.
Qed.

Lemma enc_compact k : enc_valid k → compact 1 73 1 (to_canonical_value k).
Proof.
  intros [[Hd Hl] _]. eapply compact_weaken, (compact_bytes _ 32); [lia|lia|lia|done|].
  unfold len. by rewrite Hl.
Qed.

Lemma decode_encode_enc k : enc_valid k → decode_encryption_key (to_canonical_value k) = Ok k.
Proof.
  intros Hk. eapply decodes_encode; [apply decode_encryption_key_iff| |done].
  by eapply compact_parsed_ok, enc_compact.
Qed.

Lemma decode_encode_identity id :
  PublicIds.valid id → decode_identity_id (identity_value id) = Ok id.
Proof.
  intros Hid. eapply decodes_encode; [apply decode_identity_id_iff| |done].
  by eapply compact_parsed_ok, public_text_compact.
Qed.

Lemma optional_digest_compact d :
  optional_digest_valid d → compact 1 73 1 (optional_digest_value d).
Proof.
  destruct d as [d|]; cbn; [apply digest_compact|]. intros _.
  eapply compact_weaken, compact_null; lia.
Qed.

Lemma decode_encode_optional_digest d :
  optional_digest_valid d → decode_optional_digest (optional_digest_value d) = Ok d.
Proof.
  intros Hd. eapply decodes_encode; [apply decode_optional_digest_iff| |done].
  by eapply compact_parsed_ok, optional_digest_compact.
Qed.

Lemma decode_protocol_version_iff :
  decodes decode_protocol_version to_canonical_value version_valid.
Proof.
  intros v x Hv. unfold decode_protocol_version. split.
  - intros (fields & Hf & H)%result_bind_Ok. split_fields Hf Hv. open_fields H.
    repeat match goal with
      | Hd : decode_u16 _ = Ok _ |- _ => apply decode_u16_Ok in Hd as [? ->]; [|assumption] end.
    done.
  - intros [[H1 H2] ->]. destruct x as [a b]. run_fields [Unsigned a; Unsigned b].
    rewrite decode_encode_u16 by done. run_binds. by rewrite decode_encode_u16.
Qed.

Lemma decode_wire_version_iff : decodes decode_wire_version to_canonical_value supported.
Proof.
  intros v x Hv. unfold decode_wire_version. split.
  - intros (fields & Hf & H)%result_bind_Ok. split_fields Hf Hv. open_fields H.
    match goal with Hw : validate_wire_version _ = Ok _ |- _ => apply validate_wire_Ok in Hw end.
    repeat match goal with Hd : decode_protocol_version _ = Ok _ |- _ =>
      apply decode_protocol_version_iff in Hd as [? ->]; [|assumption] end.
    done.
  - intros [[->| ->] ->]; reflexivity.
Qed.

Lemma decode_encode_wire w : supported w → decode_wire_version (to_canonical_value w) = Ok w.
Proof.
  intros Hw. eapply decodes_encode; [apply decode_wire_version_iff| |done].
  by eapply compact_parsed_ok, wire_compact, supported_valid.
Qed.

(** Replaces every decoded field by the encoding of what it was decoded to. *)
Ltac decoded_leaf :=
  match goal with
  | Hd : decode_u16 _ = Ok _ |- _ => apply decode_u16_Ok in Hd as [? ->]; [|assumption]
  | Hd : decode_wire_version _ = Ok _ |- _ =>
      apply decode_wire_version_iff in Hd as [? ->]; [|assumption]
  | Hd : decode_utc_millis _ = Ok _ |- _ =>
      apply decode_utc_millis_iff in Hd as [? ->]; [|assumption]
  | Hd : decode_identity_id _ = Ok _ |- _ =>
      apply decode_identity_id_iff in Hd as [? ->]; [|assumption]
  | Hd : decode_encryption_key _ = Ok _ |- _ =>
      apply decode_encryption_key_iff in Hd as [? ->]; [|assumption]
  | Hd : decode_signature _ = Ok _ |- _ =>
      apply decode_signature_iff in Hd as [? ->]; [|assumption]
  | Hd : decode_safe_uint _ = Ok _ |- _ =>
      apply decode_safe_uint_iff in Hd as [? ->]; [|assumption]
  | Hd : decode_optional_digest _ = Ok _ |- _ =>
      apply decode_optional_digest_iff in Hd as [? ->]; [|assumption]
  end.

(** ** Relay descriptors *)

Definition descriptor_valid (d : RelayDescriptorV1) : Prop :=
  supported d.(rd_wire) ∧ validate_relay_urls d.(rd_relay_urls) = Ok tt ∧ utc_valid d.(rd_expires_at).

Lemma collect_urls vs urls : collect decode_relay_url vs = Ok urls ↔ vs = Text <$> urls.
Proof.
  split.
  - revert urls. induction vs as [|v vs IH]; intros urls; cbn; [by intros [= <-]|].
    intros H. res_inv H. destruct v; try done. injection Hres as <-. cbn. by rewrite (IH _ Hres0).
  - intros ->. induction urls as [|u urls IH]; cbn in *; [done|]. by rewrite IH.
Qed.

Lemma decode_relay_descriptor_iff :
  decodes decode_relay_descriptor to_canonical_value descriptor_valid.
Proof.
  intros v x Hv. unfold decode_relay_descriptor. split.
  - intros (fields & Hf & H)%result_bind_Ok. split_fields Hf Hv. open_fields H.
    match goal with H : match ?w with _ => _ end = Ok _ |- _ =>
      destruct w; try done; injection H as -> end.
    unfold RelayDescriptorV1_new in *. res_inv H. repeat decoded_leaf.
    match goal with Hu : collect _ _ = Ok _ |- _ => apply collect_urls in Hu as -> end.
    match goal with Hu : validate_relay_urls _ = Ok ?u |- _ => destruct u end. done.
  - intros [(Hw & Hu & Ht) ->].
    run_fields [to_canonical_value x.(rd_wire); Array (Text <$> x.(rd_relay_urls));
                to_canonical_value x.(rd_expires_at)].
    rewrite decode_encode_wire by done. run_binds.
    rewrite (proj2 (collect_urls _ x.(rd_relay_urls))) by done. run_binds.
    rewrite decode_encode_utc by done. run_binds.
    unfold RelayDescriptorV1_new. rewrite (proj2 (validate_wire_Ok _ tt)) by done. run_binds.
    rewrite Hu. by destruct x.
Qed.

(** ** Sizes *)

Create HintDb compact discriminated.
#[export] Hint Resolve digest_compact key_compact signature_compact uint_compact utc_compact
  wire_compact public_text_compact uuid_text_compact enc_compact optional_digest_compact
  supported_valid : compact.

(** Every field of a numbered map has one common bound. *)
Ltac compact_fields :=
  repeat apply Forall_cons_2; try apply Forall_nil_2;
  (eapply compact_weaken; [ | | |solve [eauto with compact]]); lia.

(** Every field has its own bound. *)
Ltac sized_fields :=
  repeat apply Forall2_cons_2; try apply Forall2_nil_2; cbn [fst snd];
  (eapply compact_weaken; [ | | |solve [eauto with compact]]); lia.

Lemma valid_relay_url_shape u :
  valid_relay_url u = true → ascii_text u ∧ len u ≤ MAX_RELAY_URL_BYTES.
Proof.
  unfold valid_relay_url. case_decide as Hc; [done|]. intros _.
  apply Decidable.not_or in Hc as [Hl Hc]. apply Decidable.not_or in Hc as [Ha _].
  apply not_false_is_true in Ha. split; [|lia].
  apply Forall_forall. intros c Hin. rewrite forallb_forall in Ha.
  specialize (Ha c ltac:(by apply list_elem_of_In)). unfold in_range in Ha.
  apply bool_decide_eq_true in Ha. lia.
Qed.

Lemma validate_relay_urls_Ok urls u :
  validate_relay_urls urls = Ok u ↔
  urls ≠ [] ∧ len urls ≤ MAX_RELAY_URLS ∧ has_unordered_neighbours urls = false ∧
  Forall (λ url, valid_relay_url url = true) urls.
Proof.
  assert (forallb valid_relay_url urls = true ↔ Forall (λ url, valid_relay_url url = true) urls)
    as Hall.
  { rewrite forallb_forall, Forall_forall. by setoid_rewrite list_elem_of_In. }
  rewrite <-Hall. destruct u. unfold validate_relay_urls. split.
  - intros H. res_inv H. destruct (forallb _ urls); [|done].
    split_and!; [naive_solver|lia|by apply not_true_is_false|done].
  - intros (Hn & Hl & Ho & Hv). repeat ok_step.
    + intros [?|?]; [done|lia].
    + by rewrite Ho.
    + by rewrite Hv.
Qed.

Lemma relay_urls_compact urls :
  validate_relay_urls urls = Ok tt → compact 2 4177 9 (Array (Text <$> urls)).
Proof.
  intros (_ & Hl & _ & Hall)%validate_relay_urls_Ok. unfold MAX_RELAY_URLS in Hl.
  apply (compact_array 1 521 1 8); [lia|lia| |unfold MAX_CONTAINER_ENTRIES; lia|].
  - unfold len in *. by rewrite length_fmap.
  - apply Forall_fmap. eapply Forall_impl; [done|]. intros u [Ha Hu]%valid_relay_url_shape.
    by apply (compact_text u 512).
Qed.
#[export] Hint Resolve relay_urls_compact : compact.

Lemma descriptor_compact d : descriptor_valid d → compact 4 4299 27 (to_canonical_value d).
Proof.
  intros (Hw & Hu & Ht). apply (compact_sized 2 [(45, 13); (4177, 9); (73, 1)]
    [to_canonical_value d.(rd_wire); Array (Text <$> d.(rd_relay_urls));
     to_canonical_value d.(rd_expires_at)]); [done|]. sized_fields.
Qed.
#[export] Hint Resolve descriptor_compact : compact.

Section codec.
Context `{Uuid : UuidCrate, Ed : Ed25519, Sha : Sha256} {UL : UuidLaws}.

(** ** Identifiers and keys *)

Lemma decode_device_id_iff : decodes decode_device_id device_id_value uuid_valid.
Proof using All.
  intros v id Hv. unfold decode_device_id. split.
  - destruct v; try done. intros Hs%map_err_Ok. apply uuid_from_str_iff in Hs as [? <-]. done.
  - intros [Hid ->]. apply map_err_Ok. by apply uuid_from_str_iff.
Qed.

Lemma decode_signing_key_iff : decodes decode_signing_key to_canonical_value key_valid.
Proof.
  intros v k Hv. unfold decode_signing_key, decode_exact_bytes. split.
  - intros (b & Hb & Hk)%result_bind_Ok. apply exact_bytes_Ok in Hb as [[Hd Hl] ->]; [|done].
    by apply map_err_Ok, try_from_valid in Hk as [Hk <-].
  - intros [Hk ->]. pose proof Hk as (Hd & Hl & _). apply result_bind_Ok. exists k.(key_bytes).
    rewrite exact_bytes_Ok by done. split; [done|]. apply map_err_Ok. by apply try_from_valid.
Qed.

Lemma device_id_compact (id : DeviceId) : uuid_valid id → compact 1 73 1 (device_id_value id).
Proof using All. intros [Hid _]. by apply uuid_text_compact. Qed.

Lemma decode_encode_device id : uuid_valid id → decode_device_id (device_id_value id) = Ok id.
Proof using All.
  intros Hid. eapply decodes_encode; [apply decode_device_id_iff| |done].
  by eapply compact_parsed_ok, device_id_compact.
Qed.

Lemma decode_encode_key k : key_valid k → decode_signing_key (to_canonical_value k) = Ok k.
Proof.
  intros Hk. eapply decodes_encode; [apply decode_signing_key_iff| |done].
  by eapply compact_parsed_ok, key_compact.
Qed.

Ltac decoded_key :=
  match goal with
  | Hd : decode_device_id _ = Ok _ |- _ =>
      apply decode_device_id_iff in Hd as [? ->]; [|assumption]
  | Hd : decode_signing_key _ = Ok _ |- _ =>
      apply decode_signing_key_iff in Hd as [? ->]; [|assumption]
  end.

(** ** Certificates *)

(** The values of the Rust type: built by [new] and [signed]. *)
Record certificate_valid (c : DeviceCertificateV1) : Prop := {
  cv_wire : supported (cert_wire c);
  cv_identity : PublicIds.valid (cert_identity_id c);
  cv_device : uuid_valid (cert_device_id c);
  cv_signing : key_valid (cert_signing_key c);
  cv_encryption : enc_valid (cert_encryption_key c);
  cv_issuer : key_valid (cert_issuer_root_key c);
  cv_issued : utc_valid (cert_issued_at c);
  cv_signature : signature_valid c.(cert_signature);
  cv_roles : (cert_signing_key c).(key_bytes) ≠ (cert_encryption_key c).(enc_bytes) ∧
    cert_signing_key c ≠ cert_issuer_root_key c;
  cv_verified : certificate_verify c = Ok tt
}.

Definition certificate_parts (c : DeviceCertificateV1) : list CanonicalValue :=
  [ to_canonical_value (cert_wire c); identity_value (cert_identity_id c);
    device_id_value (cert_device_id c); to_canonical_value (cert_signing_key c);
    to_canonical_value (cert_encryption_key c); to_canonical_value (cert_issuer_root_key c);
    to_canonical_value (cert_issued_at c); to_canonical_value c.(cert_signature) ].

Lemma certificate_value_parts c : certificate_value c = Map (number_from 1 (certificate_parts c)).
Proof. done. Qed.

Lemma certificate_compact c : certificate_valid c → compact 4 593 113 (certificate_value c).
Proof using All.
  intros []. rewrite certificate_value_parts.
  apply (compact_numbered 2 73 13 8); try done.
  pose proof device_id_compact. unfold certificate_parts, identity_value. compact_fields.
Qed.

Lemma decode_certificate_sound v c :
  parsed_ok v → decode_device_certificate v = Ok c → certificate_valid c ∧ v = certificate_value c.
Proof using All.
  intros Hv. unfold decode_device_certificate.
  intros (fields & Hf & H)%result_bind_Ok. split_fields Hf Hv. open_fields H.
  match goal with Hn : UnsignedDeviceCertificateV1_new _ _ _ _ _ _ _ = Ok _ |- _ =>
    unfold UnsignedDeviceCertificateV1_new in Hn; res_inv Hn end.
  unfold DeviceCertificateV1_signed in H. res_inv H.
  repeat first [decoded_leaf | decoded_key].
  match goal with Hn : ¬ (_ ∨ _) |- _ => apply Decidable.not_or in Hn end.
  match goal with Hc : certificate_verify _ = Ok ?u |- _ => destruct u end.
  split; [by split|reflexivity].
Qed.

Lemma decode_certificate_complete c :
  certificate_valid c → decode_device_certificate (certificate_value c) = Ok c.
Proof using All.
  intros []. unfold decode_device_certificate.
  run_fields (certificate_parts c). unfold certificate_parts. run_binds.
  rewrite decode_encode_wire by done. run_binds. rewrite decode_encode_identity by done. run_binds.
  rewrite decode_encode_device by done. run_binds. rewrite decode_encode_key by done. run_binds.
  rewrite decode_encode_enc by done. run_binds. rewrite decode_encode_key by done. run_binds.
  rewrite decode_encode_utc by done. run_binds. rewrite decode_encode_signature by done. run_binds.
  unfold UnsignedDeviceCertificateV1_new. rewrite (proj2 (validate_wire_Ok _ tt)) by done.
  run_binds. unfold reject_if. rewrite decide_False by tauto. run_binds.
  unfold DeviceCertificateV1_signed.
  match goal with |- (certificate_verify ?c' ;; _) = _ =>
    replace c' with c by (by destruct c as [[] ?]) end.
  by rewrite cv_verified0.
Qed.

Lemma decode_device_certificate_iff :
  decodes decode_device_certificate certificate_value certificate_valid.
Proof using All.
  intros v c Hv. split; [by apply decode_certificate_sound|].
  intros [? ->]. by apply decode_certificate_complete.
Qed.

(** ** Payloads *)

Definition authorization_valid (line : IdentityLogWireLine) (s : option Ed25519Signature) : Prop :=
  match line, s with
  | FrozenV1_0, None => True
  | CurrentV1_1, Some s => signature_valid s
  | _, _ => False
  end.

(** A payload of well-formed parts, with the recovery authorization that its
    wire line asks for. *)
Definition payload_valid (line : IdentityLogWireLine) (p : IdentityLogEventPayloadV1) : Prop :=
  match p with
  | Genesis root recovery s => key_valid root ∧ key_valid recovery ∧ signature_valid s
  | DeviceAdd c => certificate_valid c
  | DeviceRevoke id => uuid_valid id
  | RootRotate k s => key_valid k ∧ signature_valid s
  | RecoveryRotate k s a => key_valid k ∧ signature_valid s ∧ authorization_valid line a
  | RecoveryRestore k k' s s' =>
      key_valid k ∧ key_valid k' ∧ signature_valid s ∧ signature_valid s'
  | RelayDescriptor d => descriptor_valid d
  end.

Definition payload_parts (p : IdentityLogEventPayloadV1) : list CanonicalValue :=
  match p with
  | Genesis root recovery s =>
      [to_canonical_value root; to_canonical_value recovery; to_canonical_value s]
  | DeviceAdd c => [certificate_value c]
  | DeviceRevoke id => [device_id_value id]
  | RootRotate k s => [to_canonical_value k; to_canonical_value s]
  | RecoveryRotate k s None => [to_canonical_value k; to_canonical_value s]
  | RecoveryRotate k s (Some a) =>
      [to_canonical_value k; to_canonical_value s; to_canonical_value a]
  | RecoveryRestore k k' s s' =>
      [to_canonical_value k; to_canonical_value k'; to_canonical_value s; to_canonical_value s']
  | RelayDescriptor d => [to_canonical_value d]
  end.

Lemma payload_value_parts wire line p :
  identity_log_wire_line wire = Ok line → payload_valid line p →
  to_canonical_value_for_wire p wire = Some (Map (number_from 1 (payload_parts p))).
Proof.
  intros Hl Hp. unfold to_canonical_value_for_wire. rewrite Hl. cbn [result_ok mbind option_bind].
  destruct p as [| | | |k s a| |]; try reflexivity. destruct Hp as (_ & _ & Ha).
  destruct line, a; try done.
Qed.

Definition payload_sizes (p : IdentityLogEventPayloadV1) : list (Z * Z) :=
  match p with
  | DeviceAdd _ => [(593, 113)]
  | RelayDescriptor _ => [(4299, 27)]
  | _ => (λ _, (73, 1)) <$> payload_parts p
  end.

Lemma payload_compact line p :
  payload_valid line p → compact 5 4301 115 (Map (number_from 1 (payload_parts p))).
Proof using All.
  pose proof device_id_compact. pose proof certificate_compact.
  intros Hp. eapply compact_weaken, (compact_sized 3 (payload_sizes p)).
  all: destruct p as [| | | |k s [a|]| |]; cbn in Hp; destruct_and? Hp.
  all: unfold payload_parts, payload_sizes; cbn [fmap list_fmap]; try (cbn; lia); try done.
  all: destruct line; try done; sized_fields.
Qed.

Lemma decode_descriptor_complete d :
  descriptor_valid d → decode_relay_descriptor (to_canonical_value d) = Ok d.
Proof.
  intros Hd. eapply decodes_encode; [apply decode_relay_descriptor_iff| |done].
  by eapply compact_parsed_ok, descriptor_compact.
Qed.

Lemma decode_payload_complete wire line p :
  identity_log_wire_line wire = Ok line → payload_valid line p →
  decode_payload (payload_kind p) (Map (number_from 1 (payload_parts p))) wire = Ok p.
Proof using All.
  intros Hl Hp. destruct p as [root rec s|c|id|k s|k s a|k k' s s'|d]; cbn in Hp;
    unfold payload_kind, decode_payload.
  - destruct_and! Hp. run_fields [to_canonical_value root; to_canonical_value rec; to_canonical_value s].
    do 2 (rewrite decode_encode_key by done; run_binds). by rewrite decode_encode_signature.
  - run_fields [certificate_value c]. by rewrite decode_certificate_complete.
  - run_fields [device_id_value id]. by rewrite decode_encode_device.
  - destruct_and! Hp. run_fields [to_canonical_value k; to_canonical_value s].
    rewrite decode_encode_key by done. run_binds. by rewrite decode_encode_signature.
  - destruct Hp as (Hk & Hs & Ha). rewrite Hl. run_binds. destruct line, a as [a|]; try done.
    + run_fields [to_canonical_value k; to_canonical_value s].
      rewrite decode_encode_key by done. run_binds. by rewrite decode_encode_signature.
    + run_fields [to_canonical_value k; to_canonical_value s; to_canonical_value a].
      rewrite decode_encode_key by done. run_binds.
      rewrite decode_encode_signature by done. run_binds. by rewrite decode_encode_signature.
  - destruct_and! Hp. run_fields [to_canonical_value k; to_canonical_value k';
      to_canonical_value s; to_canonical_value s'].
    do 2 (rewrite decode_encode_key by done; run_binds).
    do 2 (rewrite decode_encode_signature by done; run_binds). done.
  - run_fields [to_canonical_value d]. by rewrite decode_descriptor_complete.
Qed.

Lemma decode_payload_sound wire line kind v p :
  identity_log_wire_line wire = Ok line → parsed_ok v → decode_payload kind v wire = Ok p →
  payload_valid line p.
Proof using All.
  intros Hl Hv H. unfold decode_payload in H. rewrite Hl in H.
  destruct kind; cbn [mbind result_bind] in H; apply result_bind_Ok in H as (fields & Hf & H).
  5: destruct line.
  all: unfold exact_fields in Hf; split_fields Hf Hv; open_fields H.
  all: try match goal with Hd : decode_device_certificate _ = Ok _ |- _ =>
    apply decode_device_certificate_iff in Hd as [? ->]; [|assumption] end.
  all: try match goal with Hd : decode_relay_descriptor _ = Ok _ |- _ =>
    apply decode_relay_descriptor_iff in Hd as [? ->]; [|assumption] end.
  all: try match goal with Hd : _ <$> decode_signature ?w = Ok _ |- _ =>
    destruct (decode_signature w) eqn:?; [|discriminate Hd]; injection Hd as <- end.
  all: repeat first [decoded_leaf | decoded_key].
  all: done.
Qed.

(** ** Events *)

(** The values of the Rust type, built by [new] and [signed]. *)
Definition event_valid (e : IdentityLogEventV1) : Prop :=
  ∃ line, identity_log_wire_line (ev_wire e) = Ok line ∧ payload_valid line (ev_payload e) ∧
    PublicIds.valid (ev_identity_id e) ∧ uint_valid (ev_sequence e) ∧
    optional_digest_valid (ev_previous_event_hash e) ∧ utc_valid (ev_occurred_at e) ∧
    key_valid (ev_signer e) ∧ signature_valid e.(ev_signature).

Definition event_parts (e : IdentityLogEventV1) : list CanonicalValue :=
  [ to_canonical_value (ev_wire e); identity_value (ev_identity_id e);
    to_canonical_value (ev_sequence e); optional_digest_value (ev_previous_event_hash e);
    to_canonical_value (ev_occurred_at e); Unsigned (kind_code (payload_kind (ev_payload e)));
    Map (number_from 1 (payload_parts (ev_payload e))); to_canonical_value (ev_signer e);
    to_canonical_value e.(ev_signature) ].

Lemma wire_line_supported wire line : identity_log_wire_line wire = Ok line → supported wire.
Proof. intros [[-> _]|[-> _]]%wire_line_Ok; [by left|by right]. Qed.

Lemma event_value_parts e :
  event_valid e → event_value e = Some (Map (number_from 1 (event_parts e))).
Proof.
  intros (line & Hl & Hp & _). unfold event_value, unsigned_event_fields.
  pose proof (payload_value_parts _ _ _ Hl Hp) as Hv. unfold ev_payload, ev_wire in Hv.
  by rewrite Hv.
Qed.

(** An event takes at most 4867 bytes. *)
Lemma event_compact e :
  event_valid e → compact 6 4867 145 (Map (number_from 1 (event_parts e))).
Proof using All.
  intros (line & Hl & Hp & Hid & Hs & Hh & Ht & Hk & Hsig).
  apply wire_line_supported in Hl. apply payload_compact in Hp.
  assert (compact 1 73 1 (Unsigned (kind_code (payload_kind (ev_payload e))))) as Hc.
  { eapply compact_weaken, compact_unsigned; [lia|lia|lia|].
    destruct (payload_kind _); unfold u64_max; cbn; lia. }
  apply (compact_sized 4 [(45, 13); (73, 1); (73, 1); (73, 1); (73, 1); (73, 1); (4301, 115);
    (73, 1); (73, 1)]); [done|].
  unfold event_parts, identity_value. sized_fields.
Qed.

Lemma event_encodes e :
  event_valid e →
  ∃ b, to_deterministic_cbor e = Ok b ∧ len b ≤ 4867 ∧
    decode_deterministic_cbor b = Ok (Map (number_from 1 (event_parts e))) ∧
    entry_hash e = Ok (hash_domain sha256 IDENTITY_LOG_ENTRY_HASH_DOMAIN b).
Proof using All.
  intros He. destruct (compact_encodes _ _ _ _ (event_compact e He)) as (b & Hb & Hlen & Hd).
  1-3: unfold MAX_DEPTH, MAX_ENCODED_BYTES, MAX_TOTAL_ITEMS; lia.
  exists b. unfold to_deterministic_cbor, entry_hash, canonical_hash.
  rewrite (event_value_parts e He). cbn [expect ok_or mbind result_bind]. rewrite Hb.
  split; [reflexivity|]. split; [exact Hlen|]. split; [exact Hd|reflexivity].
Qed.

Lemma kind_from_code_iff n k : kind_from_code n = Ok k ↔ n = kind_code k.
Proof.
  split; [|by intros ->; destruct k].
  unfold kind_from_code. intros H. repeat case_match; simplify_eq; done.
Qed.

Lemma decode_fields_complete e b :
  event_valid e → validate_static e.(ev_unsigned) = Ok tt →
  decode_deterministic_cbor b = Ok (Map (number_from 1 (event_parts e))) →
  decode_fields b = Ok (e.(ev_unsigned), e.(ev_signature)).
Proof using All.
  intros (line & Hl & Hp & Hid & Hs & Hh & Ht & Hk & Hsig) Hst Hd.
  pose proof (wire_line_supported _ _ Hl) as Hw.
  unfold decode_fields. rewrite Hd. cbn [map_err mbind result_bind].
  run_fields (event_parts e). unfold event_parts. run_binds.
  rewrite decode_encode_wire by done. run_binds. rewrite decode_encode_identity by done. run_binds.
  rewrite decode_encode_uint by done. run_binds.
  rewrite decode_encode_optional_digest by done. run_binds.
  rewrite decode_encode_utc by done. run_binds. unfold decode_unsigned, unsigned_or. run_binds.
  rewrite (proj2 (kind_from_code_iff _ _) eq_refl). run_binds.
  rewrite (decode_payload_complete _ line) by done. run_binds.
  rewrite decode_encode_key by done. run_binds. rewrite decode_encode_signature by done. run_binds.
  unfold UnsignedIdentityLogEventV1_new. cbv zeta.
  match goal with |- context [validate_static ?u'] =>
    replace u' with e.(ev_unsigned) by (by destruct e as [[] ?]) end.
  rewrite Hst. reflexivity.
Qed.

Lemma decode_fields_sound b u s :
  Forall is_byte b → decode_fields b = Ok (u, s) →
  event_valid {| ev_unsigned := u; ev_signature := s |}.
Proof using All.
  intros Hb H. unfold decode_fields in H. apply result_bind_Ok in H as (v & Hv & H).
  apply map_err_Ok in Hv. apply decoded_parsed_ok in Hv; [|done].
  apply result_bind_Ok in H as (fields & Hf & H). unfold exact_fields in Hf.
  split_fields Hf Hv. open_fields H.
  match goal with Hd : decode_payload _ _ ?w = Ok _, Hw : decode_wire_version _ = Ok ?w |- _ =>
    apply decode_wire_version_iff in Hw as [Hw ->]; [|assumption];
    destruct (identity_log_wire_line w) as [line|] eqn:Hl;
      [eapply decode_payload_sound in Hd; [|done|done]|exfalso]
  end.
  2: { match goal with Hs : supported _ |- _ => destruct Hs as [->| ->]; discriminate Hl end. }
  repeat first [decoded_leaf | decoded_key].
  match goal with Hn : UnsignedIdentityLogEventV1_new _ _ _ _ _ _ _ = Ok _ |- _ =>
    unfold UnsignedIdentityLogEventV1_new in Hn; apply result_bind_Ok in Hn as (? & _ & Hn);
    injection Hn as <- end.
  exists line. by split_and!.
Qed.

Lemma raising_Ok {E A} (r : result E A) a : raising r = Ok a → r = Ok a.
Proof. apply map_err_Ok. Qed.

Lemma verify_static e : verify e = Ok tt → validate_static e.(ev_unsigned) = Ok tt.
Proof. unfold verify. intros (u & Hu & _)%result_bind_Ok. apply raising_Ok in Hu. destruct u. exact Hu. Qed.

Lemma decode_and_verify_complete e b :
  event_valid e → verify e = Ok tt → to_deterministic_cbor e = Ok b → decode_and_verify b = Ok e.
Proof using All.
  unfold decode_and_verify, IdentityLogEventV1_signed.
  intros Hv Hver Henc. destruct (event_encodes e Hv) as (b' & Hb' & _ & Hd & _).
  rewrite Henc in Hb'. injection Hb' as <-.
  rewrite (decode_fields_complete e b Hv (verify_static e Hver) Hd).
  cbn [raising map_err mbind result_bind].
  replace {| ev_unsigned := _; ev_signature := _ |} with e by (by destruct e).
  rewrite Hver. cbn [mbind result_bind]. rewrite Henc. cbn [mbind result_bind]. unfold reject_if.
  by rewrite decide_False by naive_solver.
Qed.

Lemma decode_and_verify_iff b e :
  Forall is_byte b →
  decode_and_verify b = Ok e ↔ event_valid e ∧ verify e = Ok tt ∧ to_deterministic_cbor e = Ok b.
Proof using All.
  intros Hb. unfold decode_and_verify, IdentityLogEventV1_signed. split.
  - intros ([u s] & Hf & H)%result_bind_Ok. apply raising_Ok in Hf.
    pose proof (decode_fields_sound _ _ _ Hb Hf) as Hv.
    apply result_bind_Ok in H as (e' & He & H). apply result_bind_Ok in He as (w & Hver & He).
    injection He as <-. apply result_bind_Ok in H as (b' & Henc & H).
    apply result_bind_Ok in H as (u' & Heq & H). apply reject_if_Ok, dec_stable in Heq as ->.
    injection H as <-. by destruct w.
  - intros (Hv & Hver & Henc). by apply decode_and_verify_complete.
Qed.

Lemma event_is_bytes e b :
  event_valid e → to_deterministic_cbor e = Ok b → Forall is_byte b.
Proof using All.
  intros Hv Hb. unfold to_deterministic_cbor in Hb. rewrite (event_value_parts e Hv) in Hb.
  apply raising_Ok, map_err_Ok in Hb. eapply encoded_is_bytes; [|done]. apply event_compact, Hv.
Qed.

(** Two events with the same bytes are the same event. *)
Lemma event_bytes_inj e e' b :
  event_valid e → event_valid e' → verify e = Ok tt → verify e' = Ok tt →
  to_deterministic_cbor e = Ok b → to_deterministic_cbor e' = Ok b → e = e'.
Proof using All.
  intros Hv Hv' Hver Hver' Hb Hb'.
  destruct (event_encodes e Hv) as (c & Hc & _ & Hd & _).
  destruct (event_encodes e' Hv') as (c' & Hc' & _ & Hd' & _).
  rewrite Hb in Hc. rewrite Hb' in Hc'. injection Hc as <-. injection Hc' as <-.
  apply decode_fields_complete in Hd, Hd'; [|by auto using verify_static..].
  rewrite Hd in Hd'. destruct e, e'. cbn in Hd'. congruence.
Qed.
End codec.
