(* ===== verification/IdentityLogInv.v ===== *)
(** * Identity log: which events are admitted, and what every log satisfies

    The admission rules of [projection.rs] as an inductive relation, with a proof
    that [apply_authorized] implements exactly these rules; the invariant of
    every log that [bootstrap], [append] and [import_v1_0] can build. *)

From S2P Require Import Prelude Domain CanonicalCbor WirePrimitives WireValues IdentityLog.
From S2P Require Import CborFields IdentityLogCodec IdentityLogProjection.

#[local] Opaque encode_deterministic_cbor decode_deterministic_cbor.

Implicit Types (l : IdentityLogV1) (e : IdentityLogEventV1) (k : SigningPublicKey).

Lemma any_device_true l f :
  any_device l f = true ↔ ∃ id r, l.(devices) !! id = Some r ∧ f r = true.
Proof.
  unfold any_device. rewrite existsb_exists. setoid_rewrite <-list_elem_of_In.
  setoid_rewrite elem_of_btree_values. naive_solver.
Qed.

Lemma any_device_false l f :
  any_device l f = false ↔ ∀ id r, l.(devices) !! id = Some r → f r = false.
Proof.
  rewrite <-not_true_iff_false, any_device_true. split.
  - intros Hn id r Hr. apply not_true_is_false. naive_solver.
  - intros Hall (id & r & Hr & Hf). by rewrite (Hall id r Hr) in Hf.
Qed.

(** ** The admission rules *)

(** [k] signs for a device that is enrolled and not revoked. *)
Definition active_key l k : Prop :=
  ∃ id r, l.(devices) !! id = Some r ∧ r.(dr_status) = Active ∧
    cert_signing_key r.(dr_certificate) = k.

(** [k] was the signing key of a device of this log. *)
Definition device_key l k : Prop :=
  ∃ id r, l.(devices) !! id = Some r ∧ cert_signing_key r.(dr_certificate) = k.

(** [k] has no role yet. *)
Definition fresh_key l k : Prop :=
  k ≠ l.(current_root_key) ∧ k ≠ l.(current_recovery_key) ∧ ¬ device_key l k.

Definition revoke (r : DeviceRecordV1) : DeviceRecordV1 := r <| dr_status := Revoked |>.
Definition enrolled (c : DeviceCertificateV1) : DeviceRecordV1 :=
  {| dr_certificate := c; dr_status := Active |}.

Section rules.
Context `{Uuid : UuidCrate, Ed : Ed25519, Sha : Sha256}.

(** The successor key signed for this very position of this log. *)
Definition possession_proved l e purpose k s : Prop :=
  verify_rotation_acceptance l e purpose k s = Ok tt.

(** The current recovery key authorized the rotation (not asked for in 1.0). *)
Definition rotation_authorized l e k s (a : option Ed25519Signature) : Prop :=
  (ev_wire e = IDENTITY_LOG_V1_0_WIRE_VERSION ∧ a = None) ∨
  (ev_wire e = IDENTITY_LOG_WIRE_VERSION ∧ ∃ sig input, a = Some sig ∧
     recovery_rotation_authorization_input (ev_wire e) l.(log_identity_id) (ev_sequence e)
       (ev_previous_event_hash e) (ev_occurred_at e) (ev_signer e) k s = Ok input ∧
     verify_signature l.(current_recovery_key) input sig = Ok tt).

Record enrollable l e (c : DeviceCertificateV1) : Prop := {
  en_signer : ev_signer e = l.(current_root_key) ∨ active_key l (ev_signer e);
  en_verified : certificate_verify c = Ok tt;
  en_identity : cert_identity_id c = l.(log_identity_id);
  en_issuer : cert_issuer_root_key c = l.(current_root_key);
  en_time : (cert_issued_at c).(utc_get) ≤ (ev_occurred_at e).(utc_get);
  en_key : fresh_key l (cert_signing_key c);
  en_id : l.(devices) !! cert_device_id c = None;
  en_encryption : ∀ id r, l.(devices) !! id = Some r →
    cert_encryption_key r.(dr_certificate) ≠ cert_encryption_key c
}.

Inductive effect l e : IdentityLogV1 → Prop :=
| effect_device_add c :
    ev_payload e = DeviceAdd c → enrollable l e c →
    effect l e
      ((if decide (l.(head_sequence).(uint_get) = 1)
        then l <| initial_device_id := Some (cert_device_id c) |> else l)
       <| devices := <[ cert_device_id c := enrolled c ]> l.(devices) |>)
| effect_device_revoke id r :
    ev_payload e = DeviceRevoke id → ev_signer e = l.(current_root_key) →
    l.(devices) !! id = Some r → r.(dr_status) = Active →
    effect l e (l <| devices := <[ id := revoke r ]> l.(devices) |>)
| effect_root_rotate k s :
    ev_payload e = RootRotate k s → ev_signer e = l.(current_root_key) → fresh_key l k →
    possession_proved l e PurposeRootRotate k s →
    effect l e (l <| current_root_key := k |>)
| effect_recovery_rotate k s a :
    ev_payload e = RecoveryRotate k s a → ev_signer e = l.(current_root_key) → fresh_key l k →
    possession_proved l e PurposeRecoveryRotate k s → rotation_authorized l e k s a →
    effect l e (l <| current_recovery_key := k |>)
| effect_recovery_restore k k' s s' :
    ev_payload e = RecoveryRestore k k' s s' → ev_signer e = l.(current_recovery_key) →
    k ≠ k' → fresh_key l k → fresh_key l k' →
    possession_proved l e PurposeRecoveryRestoreRoot k s →
    possession_proved l e PurposeRecoveryRestoreRecovery k' s' →
    effect l e (l <| current_root_key := k |> <| current_recovery_key := k' |>
                  <| devices := revoke <$> l.(devices) |>)
| effect_relay d :
    ev_payload e = RelayDescriptor d → ev_signer e = l.(current_root_key) →
    (ev_occurred_at e).(utc_get) < d.(rd_expires_at).(utc_get) →
    effect l e (l <| relay_descriptor := Some d |>).

(** ** The code implements the rules *)

Lemma device_signing_key_is_used_true l k : device_signing_key_is_used l k = true ↔ device_key l k.
Proof.
  unfold device_signing_key_is_used. rewrite any_device_true. unfold device_key.
  by setoid_rewrite bool_decide_eq_true.
Qed.

Lemma signer_is_active l e :
  any_device l (λ record, bool_decide (record.(dr_status) = Active
    ∧ cert_signing_key record.(dr_certificate) = ev_signer e)) = true ↔ active_key l (ev_signer e).
Proof. rewrite any_device_true. by setoid_rewrite bool_decide_eq_true. Qed.

Lemma device_exists l c :
  any_device l (λ record,
    bool_decide (cert_signing_key record.(dr_certificate) = cert_signing_key c
      ∨ cert_encryption_key record.(dr_certificate) = cert_encryption_key c)) ≠ true ↔
  ¬ device_key l (cert_signing_key c) ∧
  ∀ id r, l.(devices) !! id = Some r →
    cert_encryption_key r.(dr_certificate) ≠ cert_encryption_key c.
Proof.
  rewrite any_device_true. setoid_rewrite bool_decide_eq_true. unfold device_key.
  split; [|naive_solver]. intros Hn. split; [naive_solver|]. intros id r Hr Heq. apply Hn. eauto.
Qed.

Lemma validate_for_event_Ok d t u :
  validate_for_event d t = Ok u ↔ t.(utc_get) < d.(rd_expires_at).(utc_get).
Proof. destruct u. unfold validate_for_event. case_decide; split; intros; try done; lia. Qed.

Lemma rotation_guard l k :
  ¬ (k = l.(current_root_key) ∨ k = l.(current_recovery_key)
     ∨ device_signing_key_is_used l k = true) ↔ fresh_key l k.
Proof. rewrite device_signing_key_is_used_true. unfold fresh_key. tauto. Qed.

Lemma rotation_authorized_iff l e k s a :
  (∃ line, identity_log_wire_line (ev_wire e) = Ok line ∧
     (match line, a with
      | FrozenV1_0, None => Ok tt
      | CurrentV1_1, Some signature =>
          authorization_input ←
            recovery_rotation_authorization_input (ev_wire e) l.(log_identity_id)
              (ev_sequence e) (ev_previous_event_hash e) (ev_occurred_at e)
              (ev_signer e) k s;
          map_err (λ _, InvalidRotation)
            (verify_signature l.(current_recovery_key) authorization_input signature)
      | FrozenV1_0, Some _ => Err InvalidCanonical
      | CurrentV1_1, None => Err InvalidRotation
      end) = Ok tt) ↔ rotation_authorized l e k s a.
Proof.
  unfold rotation_authorized. split.
  - intros (line & [[-> ->]|[-> ->]]%wire_line_Ok & H); destruct a as [sig|]; try done.
    + by left.
    + right. split; [done|]. apply result_bind_Ok in H as (input & Hi & Hv%map_err_Ok).
      by exists sig, input.
  - intros [[Hw ->]|[Hw (sig & input & -> & Hi & Hv)]].
    + exists FrozenV1_0. split; [|done]. apply wire_line_Ok. by left.
    + exists CurrentV1_1. split; [apply wire_line_Ok; by right|].
      apply result_bind_Ok. exists input. split; [done|]. by apply map_err_Ok.
Qed.

Lemma apply_device_add_iff l e c l' :
  apply_device_add e c l = (Ok tt, l') ↔
  enrollable l e c ∧
  l' = (if decide (l.(head_sequence).(uint_get) = 1)
        then l <| initial_device_id := Some (cert_device_id c) |> else l)
       <| devices := <[ cert_device_id c := enrolled c ]> l.(devices) |>.
Proof.
  assert (Hlet : (if decide (l.(head_sequence).(uint_get) = 1)
    then l <| initial_device_id := Some (cert_device_id c) |> else l).(devices) = l.(devices))
    by (by case_decide).
  unfold apply_device_add. split.
  - intros H. st_inv H.
    match goal with Hv : certificate_verify c = Ok ?u |- _ => destruct u end.
    apply Decidable.not_or in Hrun2 as [Hid Hex%device_exists].
    split; [|by rewrite Hlet]. split; try tauto || lia.
    + apply not_and_l in Hrun as [Hs|Hs]; [left; by apply dec_stable|right].
      by apply signer_is_active, not_false_is_true.
    + apply dec_stable. tauto.
    + apply dec_stable. tauto.
    + unfold fresh_key. tauto.
    + by apply eq_None_not_Some.
  - intros [[Hs Hv Hi Hr Ht (Hk1 & Hk2 & Hk3) Hd He] ->].
    st_step. st_step.
    { intros [H1 H2]. destruct Hs as [Hs|Hs]; [contradiction|]. apply signer_is_active in Hs. congruence. }
    st_step; [by apply lift_Ok|]. st_step.
    { rewrite Hi, Hr. intros [?|[?|[?|[?|?]]]]; first [contradiction|lia]. }
    st_step.
    { intros [[r Hr']|Hex]; [by rewrite Hd in Hr'|]. revert Hex. by apply device_exists. }
    st_step. unfold modify. by rewrite Hlet.
Qed.

Lemma apply_device_revoke_iff l e id l' :
  apply_device_revoke e id l = (Ok tt, l') ↔
  ev_signer e = l.(current_root_key) ∧
  ∃ r, l.(devices) !! id = Some r ∧ r.(dr_status) = Active ∧
    l' = l <| devices := <[ id := revoke r ]> l.(devices) |>.
Proof.
  unfold apply_device_revoke. split.
  - intros H. st_inv H. split; [by apply dec_stable|]. eexists. split_and!; [done| |done].
    by destruct (dr_status _).
  - intros (Hs & r & Hr & Ha & ->). st_step. st_step; [by intros []|]. st_step; [done|].
    st_step; [by rewrite Ha|]. done.
Qed.

Lemma apply_root_rotation_iff l e k s l' :
  apply_root_rotation e k s l = (Ok tt, l') ↔
  ev_signer e = l.(current_root_key) ∧ fresh_key l k ∧
  possession_proved l e PurposeRootRotate k s ∧ l' = l <| current_root_key := k |>.
Proof.
  unfold apply_root_rotation. split.
  - intros H. st_inv H. apply rotation_guard in Hrun0.
    match goal with Hv : verify_rotation_acceptance _ _ _ _ _ = Ok ?u |- _ => destruct u end.
    split_and!; try done. by apply dec_stable.
  - intros (Hs & Hk & Hp & ->). st_step. st_step; [by intros []|].
    st_step; [by apply rotation_guard|]. st_step; [by apply lift_Ok|]. done.
Qed.

Lemma apply_recovery_rotation_iff l e k s a l' :
  apply_recovery_rotation e k s a l = (Ok tt, l') ↔
  ev_signer e = l.(current_root_key) ∧ fresh_key l k ∧
  possession_proved l e PurposeRecoveryRotate k s ∧ rotation_authorized l e k s a ∧
  l' = l <| current_recovery_key := k |>.
Proof.
  unfold apply_recovery_rotation. split.
  - intros H. st_inv H. apply rotation_guard in Hrun0.
    match goal with Hv : verify_rotation_acceptance _ _ _ _ _ = Ok ?u |- _ => destruct u end.
    split_and!; try done; [by apply dec_stable|]. apply rotation_authorized_iff.
    eexists. split; [done|]. match goal with Hm : match _ with _ => _ end = Ok ?u |- _ => by destruct u end.
  - intros (Hs & Hk & Hp & (line & Hl & Ha)%rotation_authorized_iff & ->).
    st_step. st_step; [by intros []|]. st_step; [by apply rotation_guard|].
    st_step; [by apply lift_Ok|]. st_step; [by apply lift_Ok|]. st_step; [by apply lift_Ok|]. done.
Qed.

Lemma apply_recovery_restore_iff l e k k' s s' l' :
  apply_recovery_restore e k k' s s' l = (Ok tt, l') ↔
  ev_signer e = l.(current_recovery_key) ∧ k ≠ k' ∧ fresh_key l k ∧ fresh_key l k' ∧
  possession_proved l e PurposeRecoveryRestoreRoot k s ∧
  possession_proved l e PurposeRecoveryRestoreRecovery k' s' ∧
  l' = l <| current_root_key := k |> <| current_recovery_key := k' |>
         <| devices := revoke <$> l.(devices) |>.
Proof.
  unfold apply_recovery_restore. split.
  - intros H. st_inv H. rewrite !device_signing_key_is_used_true in Hrun0.
    repeat match goal with Hv : verify_rotation_acceptance _ _ _ _ _ = Ok ?u |- _ =>
      is_var u; destruct u end.
    unfold fresh_key. split_and!; try done; try tauto. by apply dec_stable.
  - intros (Hs & Hn & (? & ? & ?) & (? & ? & ?) & Hp & Hp' & ->). st_step. st_step; [by intros []|].
    st_step; [rewrite !device_signing_key_is_used_true; tauto|].
    st_step; [by apply lift_Ok|]. st_step; [by apply lift_Ok|]. st_step. st_step. done.
Qed.

Lemma apply_relay_descriptor_iff l e d l' :
  apply_relay_descriptor e d l = (Ok tt, l') ↔
  ev_signer e = l.(current_root_key) ∧
  (ev_occurred_at e).(utc_get) < d.(rd_expires_at).(utc_get) ∧
  l' = l <| relay_descriptor := Some d |>.
Proof.
  unfold apply_relay_descriptor. split.
  - intros H. st_inv H.
    match goal with Hv : validate_for_event _ _ = Ok _ |- _ => apply validate_for_event_Ok in Hv end.
    split_and!; try done. by apply dec_stable.
  - intros (Hs & Ht & ->). st_step. st_step; [by intros []|].
    st_step; [by apply lift_Ok; split; [apply (validate_for_event_Ok d _ tt)|]|]. done.
Qed.

Lemma apply_authorized_iff l e l' : apply_authorized e l = (Ok tt, l') ↔ effect l e l'.
Proof.
  unfold apply_authorized. split.
  - destruct (ev_payload e) as [| | | | | |] eqn:Hp; intros H.
    + done.
    + apply apply_device_add_iff in H as [? ->]. by constructor.
    + apply apply_device_revoke_iff in H as (? & r & ? & ? & ->). by econstructor.
    + apply apply_root_rotation_iff in H as (? & ? & ? & ->). by econstructor.
    + apply apply_recovery_rotation_iff in H as (? & ? & ? & ? & ->). by econstructor.
    + apply apply_recovery_restore_iff in H as (? & ? & ? & ? & ? & ? & ->). by econstructor.
    + apply apply_relay_descriptor_iff in H as (? & ? & ->). by econstructor.
  - intros [c Hp|id r Hp|k s Hp|k s a Hp|k k' s s' Hp|d Hp]; rewrite Hp.
    + by apply apply_device_add_iff.
    + apply apply_device_revoke_iff. eauto.
    + by apply apply_root_rotation_iff.
    + by apply apply_recovery_rotation_iff.
    + by apply apply_recovery_restore_iff.
    + by apply apply_relay_descriptor_iff.
Qed.

(** ** Appending *)

(** [e], whose entry hash is [h], is the next event of the chain. *)
Record follows l e (h : Sha256Digest) : Prop := {
  fo_verified : verify e = Ok tt;
  fo_identity : ev_identity_id e = l.(log_identity_id);
  fo_wire : ev_wire e = l.(log_wire);
  fo_hash : entry_hash e = Ok h;
  fo_new : h ∉ l.(seen_entry_hashes);
  fo_sequence : (ev_sequence e).(uint_get) = l.(head_sequence).(uint_get) + 1;
  fo_range : 0 ≤ (ev_sequence e).(uint_get) ≤ MAX_SAFE_UINT;
  fo_previous : ev_previous_event_hash e = Some l.(head_hash)
}.

Definition advance e (h : Sha256Digest) (next : IdentityLogV1) : IdentityLogV1 :=
  next <| head_sequence := ev_sequence e |> <| head_hash := h |>
    <| seen_entry_hashes := {[ h ]} ∪ next.(seen_entry_hashes) |>.

Lemma next_sequence_Some l n :
  next_sequence l = Some n ↔
  n.(uint_get) = l.(head_sequence).(uint_get) + 1 ∧ 0 ≤ n.(uint_get) ≤ MAX_SAFE_UINT.
Proof.
  unfold next_sequence, u64_checked_add, SafeUint_new. set (m := uint_get (head_sequence l) + 1).
  change MAX_SAFE_UINT with (2 ^ 53 - 1). split.
  - intros (v & (-> & Hv)%checked_Some & Hn)%bind_Some. case_decide; [done|]. injection Hn as <-.
    cbn. lia.
  - intros [Hn Hr]. apply bind_Some. exists m.
    split; [apply checked_Some; unfold u64_max; lia|].
    rewrite decide_False by lia. cbn. f_equal. destruct n. cbn in *. by subst.
Qed.

Lemma apply_to_copy_Ok l e next : apply_to_copy e l = Ok next ↔ effect l e next.
Proof.
  rewrite <-apply_authorized_iff. unfold apply_to_copy.
  destruct (apply_authorized e l) as [[[]|x] l']; cbn; split; congruence.
Qed.

Lemma append_projection_iff l e l' :
  append_projection e l = (Ok tt, l') ↔
  ∃ h next, follows l e h ∧ effect l e next ∧ l' = advance e h next.
Proof.
  unfold append_projection. split.
  - intros H. st_inv H.
    match goal with Hv : verify e = Ok ?u |- _ => destruct u end.
    match goal with Hn : raising (apply_to_copy _ _) = Ok _ |- _ =>
      apply raising_Ok, apply_to_copy_Ok in Hn end.
    repeat match goal with Hd : ¬ (_ ≠ _) |- _ => apply dec_stable in Hd end. subst.
    match goal with Hn : next_sequence _ = Some _ |- _ =>
      apply next_sequence_Some in Hn as [Hseq Hrange] end.
    eexists _, _. split; [split|]; done.
  - intros (h & next & [] & He & ->). st_step. st_step; [by apply lift_Ok|].
    st_step; [by intros []|]. st_step; [by intros []|]. st_step; [by apply lift_Ok|].
    st_step; [done|]. st_step; [by apply next_sequence_Some|]. st_step; [by intros []|].
    st_step; [by intros []|]. st_step.
    { apply lift_Ok. split; [|done]. apply map_err_Ok. by apply apply_to_copy_Ok. }
    done.
Qed.

Lemma append_iff l e l' :
  append e l = (Ok tt, l') ↔
  l.(log_wire) = IDENTITY_LOG_WIRE_VERSION ∧ append_projection e l = (Ok tt, l').
Proof.
  unfold append. split.
  - intros H. apply st_bind_Ok in H as (s & s' & [-> ->]%get_Ok & H).
    apply st_bind_Ok in H as (u & s & [Hg%reject_if_Ok ->]%lift_Ok & H).
    split; [apply dec_stable; tauto|done].
  - intros [Hw H]. st_step. st_step; [|done].
    apply append_projection_iff in H as (h & next & [] & _). intros [Hn|Hn]; congruence.
Qed.

(** What a transition leaves alone. *)
Lemma effect_frame l e l' :
  effect l e l' →
  l'.(log_wire) = l.(log_wire) ∧ l'.(log_identity_id) = l.(log_identity_id) ∧
  l'.(head_sequence) = l.(head_sequence) ∧ l'.(head_hash) = l.(head_hash) ∧
  l'.(seen_entry_hashes) = l.(seen_entry_hashes).
Proof. intros []; try done. by case_decide. Qed.

(** A failed append changes nothing. *)
Lemma append_projection_atomic e : atomic (append_projection e).
Proof. unfold append_projection. solve_atomic. Qed.

Lemma append_atomic e : atomic (append e).
Proof. unfold append. solve_atomic. Qed.

(** ** No [expect] fires *)

Lemma static_fields u : validate_static u = Ok tt → is_Some (unsigned_event_fields u).
Proof.
  unfold validate_static, unsigned_event_fields, to_canonical_value_for_wire.
  intros (line & -> & H)%result_bind_Ok. apply result_bind_Ok in H as (? & _ & H).
  cbn [result_ok mbind option_bind].
  destruct (ue_payload u) as [| | | |k s a| |]; try by eexists.
  apply result_bind_Ok in H as (? & _ & H). destruct line, a; try done; by eexists.
Qed.

Lemma verified_value e : verify e = Ok tt → is_Some (event_value e).
Proof.
  intros [fields Hf]%verify_static%static_fields. unfold event_value. rewrite Hf. by eexists.
Qed.

Lemma raising_not_panicked {E A} (r : result E A) : raising r ≠ Err Panicked.
Proof. by destruct r. Qed.

Lemma bind_not_panicked {E A B} (m : result (Fault E) A) (f : A → result (Fault E) B) :
  m ≠ Err Panicked → (∀ a, m = Ok a → f a ≠ Err Panicked) → m ≫= f ≠ Err Panicked.
Proof. destruct m as [a|x]; cbn; [auto|]. intros Hm _. congruence. Qed.

Lemma verify_not_panicked e : verify e ≠ Err Panicked.
Proof.
  unfold verify. apply bind_not_panicked; [apply raising_not_panicked|].
  intros [] [fields Hf]%raising_Ok%static_fields.
  apply bind_not_panicked; [|intros; apply raising_not_panicked].
  unfold signing_digest. rewrite Hf. apply raising_not_panicked.
Qed.

Lemma entry_hash_not_panicked e : verify e = Ok tt → entry_hash e ≠ Err Panicked.
Proof. intros [v Hv]%verified_value. unfold entry_hash. rewrite Hv. apply raising_not_panicked. Qed.

Lemma to_cbor_not_panicked e : verify e = Ok tt → to_deterministic_cbor e ≠ Err Panicked.
Proof.
  intros [v Hv]%verified_value. unfold to_deterministic_cbor. rewrite Hv. apply raising_not_panicked.
Qed.

Lemma reject_not_panicked {E} (P : Prop) `{!Decision P} (x : E) :
  reject_if P (Raised x) ≠ Err Panicked.
Proof. unfold reject_if. by case_decide. Qed.

Lemma decode_not_panicked b : decode_and_verify b ≠ Err Panicked.
Proof.
  unfold decode_and_verify. apply bind_not_panicked; [apply raising_not_panicked|].
  intros [u s] _. apply bind_not_panicked.
  { unfold IdentityLogEventV1_signed. apply bind_not_panicked; [apply verify_not_panicked|done]. }
  intros e He. unfold IdentityLogEventV1_signed in He.
  apply result_bind_Ok in He as ([] & Hv & He). injection He as <-.
  apply bind_not_panicked; [by apply to_cbor_not_panicked|]. intros b' _.
  apply bind_not_panicked; [apply reject_not_panicked|done].
Qed.

Lemma bootstrap_not_panicked e : bootstrap_projection e ≠ Err Panicked.
Proof.
  unfold bootstrap_projection. apply bind_not_panicked; [apply verify_not_panicked|].
  intros [] Hv. destruct (ev_payload e); try done.
  apply bind_not_panicked; [by apply entry_hash_not_panicked|done].
Qed.

(** The state monad version. *)
Lemma lift_not_panicked {A B} (r : result (Fault IdentityLogError) A)
    (f : A → ST IdentityLogV1 (Fault IdentityLogError) B) l :
  r ≠ Err Panicked → (∀ a, r = Ok a → (f a l).1 ≠ Err Panicked) →
  ((lift r ≫= f) l).1 ≠ Err Panicked.
Proof. unfold mbind, ST_bind, lift. destruct r; cbn; [auto|]. intros Hr _. congruence. Qed.

Lemma append_not_panicked e l : (append_projection e l).1 ≠ Err Panicked.
Proof.
  unfold append_projection. change ((get ≫= ?f) l) with (f l l).
  apply lift_not_panicked; [apply verify_not_panicked|]. intros [] Hv.
  apply lift_not_panicked; [apply reject_not_panicked|]. intros _ _.
  apply lift_not_panicked; [apply reject_not_panicked|]. intros _ _.
  apply lift_not_panicked; [by apply entry_hash_not_panicked|]. intros h _.
  apply lift_not_panicked; [apply reject_not_panicked|]. intros _ _.
  apply lift_not_panicked; [by destruct (next_sequence l)|]. intros n _.
  apply lift_not_panicked; [apply reject_not_panicked|]. intros _ _.
  apply lift_not_panicked; [apply reject_not_panicked|]. intros _ _.
  apply lift_not_panicked; [apply raising_not_panicked|]. done.
Qed.

(** ** Logs *)

(** The projections that the two private functions can build, with the events
    that were admitted; every public entry point goes through them. *)
Inductive admitted : list IdentityLogEventV1 → IdentityLogV1 → Prop :=
| admitted_genesis g l : bootstrap_projection g = Ok l → admitted [g] l
| admitted_append es l e l' :
    admitted es l → append_projection e l = (Ok tt, l') → admitted (es ++ [e]) l'.

(** The writable logs: [bootstrap], then any calls of [append], failing ones
    included. *)
Inductive reached : list IdentityLogEventV1 → IdentityLogV1 → Prop :=
| reached_bootstrap g l : bootstrap g = Ok l → reached [g] l
| reached_append es l e l' : reached es l → append e l = (Ok tt, l') → reached (es ++ [e]) l'
| reached_failed es l e x l' : reached es l → append e l = (Err x, l') → reached es l'.

Lemma bootstrap_projection_Ok g l :
  bootstrap_projection g = Ok l ↔
  verify g = Ok tt ∧ ∃ root recovery s h,
    ev_payload g = Genesis root recovery s ∧ entry_hash g = Ok h ∧
    l = {| log_wire := ev_wire g; log_identity_id := ev_identity_id g;
           current_root_key := root; current_recovery_key := recovery;
           initial_device_id := None; devices := ∅; relay_descriptor := None;
           head_sequence := ev_sequence g; head_hash := h; seen_entry_hashes := {[ h ]} |}.
Proof.
  unfold bootstrap_projection. split.
  - intros ([] & Hv & H)%result_bind_Ok. split; [done|].
    destruct (ev_payload g) as [root recovery s| | | | | |]; try done.
    apply result_bind_Ok in H as (h & Hh & H). injection H as <-.
    exists root, recovery, s, h. done.
  - intros (Hv & root & recovery & s & h & Hp & Hh & ->).
    apply result_bind_Ok. exists tt. split; [done|]. rewrite Hp. apply result_bind_Ok. eauto.
Qed.

Lemma reached_admitted es l :
  reached es l → admitted es l ∧ l.(log_wire) = IDENTITY_LOG_WIRE_VERSION.
Proof.
  induction 1 as [g l Hg|es l e l' _ [IH Hw] Ha|es l e x l' _ IH Ha].
  - unfold bootstrap in Hg. apply result_bind_Ok in Hg as ([] & Hw & Hg).
    apply reject_if_Ok, dec_stable in Hw. split; [by constructor|].
    by apply bootstrap_projection_Ok in Hg as (_ & ? & ? & ? & ? & _ & _ & ->).
  - apply append_iff in Ha as [_ Ha]. split; [by econstructor|].
    apply append_projection_iff in Ha as (h & next & _ & He & ->).
    apply effect_frame in He as (He & _). by rewrite <-Hw, <-He.
  - apply append_atomic in Ha as ->. done.
Qed.

Lemma imported_admitted es h :
  import_v1_0 es = Ok h →
  admitted es h.(projection) ∧ h.(projection).(log_wire) = IDENTITY_LOG_V1_0_WIRE_VERSION.
Proof.
  unfold import_v1_0. destruct es as [|g es]; [done|].
  intros ([] & Hw & H)%result_bind_Ok. apply reject_if_Ok, dec_stable in Hw.
  apply result_bind_Ok in H as (l0 & H0 & H). apply result_bind_Ok in H as (l & Hf & H).
  injection H as <-. cbn [projection]. change (g :: es) with ([g] ++ es).
  eapply (try_fold_inv _ (λ l pre, admitted ([g] ++ pre) l ∧ log_wire l = _)); [| |exact Hf].
  - split; [by constructor|].
    by apply bootstrap_projection_Ok in H0 as (_ & ? & ? & ? & ? & _ & _ & ->).
  - intros pre e post l1 l2 _ [Ha Hw1] Hi. unfold import_event in Hi.
    apply result_bind_Ok in Hi as ([] & Hwe & Hi).
    destruct (append_projection e l1) as [[[]|x] l3] eqn:Happ; [|done].
    injection Hi as <-. rewrite (assoc_L (++)). split; [by econstructor|].
    apply append_projection_iff in Happ as (hh & next & _ & He & ->).
    apply effect_frame in He as (He & _). by rewrite <-Hw1, <-He.
Qed.

(** ** The invariant *)

(** Event [i] has sequence [i + 1] and names the entry hash of event [i - 1]. *)
Definition chained (es : list IdentityLogEventV1) : Prop :=
  ∀ i e, es !! i = Some e →
    (ev_sequence e).(uint_get) = Z.of_nat i + 1 ∧
    match i with
    | O => ev_previous_event_hash e = None
    | S j => ∃ e' h, es !! j = Some e' ∧ entry_hash e' = Ok h ∧ ev_previous_event_hash e = Some h
    end.

Definition initial_device (es : list IdentityLogEventV1) : option DeviceId :=
  e ← es !! 1%nat;
  match ev_payload e with DeviceAdd c => Some (cert_device_id c) | _ => None end.

Definition descriptor_of e : option RelayDescriptorV1 :=
  match ev_payload e with RelayDescriptor d => Some d | _ => None end.

Record log_ok (es : list IdentityLogEventV1) l : Prop := {
  lo_length : l.(head_sequence).(uint_get) = len es;
  lo_head : ∃ e, last es = Some e ∧ entry_hash e = Ok l.(head_hash);
  lo_chain : chained es;
  lo_events : ∀ e, e ∈ es → verify e = Ok tt ∧ ev_identity_id e = l.(log_identity_id) ∧
    ev_wire e = l.(log_wire);
  lo_seen : ∀ h, h ∈ l.(seen_entry_hashes) ↔ ∃ e, e ∈ es ∧ entry_hash e = Ok h;
  lo_genesis : ∃ g root recovery s, es !! 0%nat = Some g ∧ ev_payload g = Genesis root recovery s ∧
    l.(log_identity_id) = PublicIds.derive sha256 KIdentity root.(key_bytes);
  lo_authority : l.(current_root_key) ≠ l.(current_recovery_key) ∧
    ¬ device_key l l.(current_root_key) ∧ ¬ device_key l l.(current_recovery_key);
  lo_certified : ∀ id r, l.(devices) !! id = Some r →
    cert_device_id r.(dr_certificate) = id ∧
    cert_identity_id r.(dr_certificate) = l.(log_identity_id) ∧
    certificate_verify r.(dr_certificate) = Ok tt ∧
    ∃ e, e ∈ es ∧ ev_payload e = DeviceAdd r.(dr_certificate);
  lo_keys : ∀ id id' r r', l.(devices) !! id = Some r → l.(devices) !! id' = Some r' →
    cert_signing_key r.(dr_certificate) = cert_signing_key r'.(dr_certificate) ∨
    cert_encryption_key r.(dr_certificate) = cert_encryption_key r'.(dr_certificate) → id = id';
  lo_initial : l.(initial_device_id) = initial_device es;
  lo_relay : l.(relay_descriptor) = last (omap descriptor_of es)
}.

Lemma genesis_static u root recovery s :
  ue_payload u = Genesis root recovery s → validate_static u = Ok tt →
  (ue_sequence u).(uint_get) = 1 ∧ ue_previous_event_hash u = None ∧ ue_signer u = root ∧
  root ≠ recovery ∧ ue_identity_id u = PublicIds.derive sha256 KIdentity root.(key_bytes).
Proof.
  intros Hp H. unfold validate_static in H. rewrite Hp in H.
  apply result_bind_Ok in H as (line & _ & H). apply result_bind_Ok in H as (? & _ & H).
  apply result_bind_Ok in H as (? & Hg%reject_if_Ok & _).
  unfold PublicIds.verify_subject_key in Hg. rewrite bool_decide_eq_false in Hg.
  split_and!; try (apply dec_stable; tauto); tauto.
Qed.

Lemma bootstrap_log_ok g l : bootstrap_projection g = Ok l → log_ok [g] l.
Proof.
  intros (Hv & root & recovery & s & h & Hp & Hh & ->)%bootstrap_projection_Ok.
  destruct (genesis_static _ _ _ _ Hp (verify_static g Hv)) as (Hs & Hn & Hr & Hne & Hid).
  assert (∀ k, ¬ device_key {| log_wire := ev_wire g; log_identity_id := ev_identity_id g;
           current_root_key := root; current_recovery_key := recovery;
           initial_device_id := None; devices := ∅; relay_descriptor := None;
           head_sequence := ev_sequence g; head_hash := h; seen_entry_hashes := {[ h ]} |} k) as Hd.
  { intros k (id & r & Hr' & _). cbn in Hr'. by rewrite lookup_empty in Hr'. }
  split; cbn; try done.
  - by exists g.
  - intros i e Hi. destruct i; [|by destruct i]. injection Hi as <-. split; [done|]. done.
  - intros e ->%list_elem_of_singleton. done.
  - intros h'. rewrite elem_of_singleton. setoid_rewrite list_elem_of_singleton. split.
    + intros ->. eauto.
    + intros (e & -> & He). congruence.
  - by exists g, root, recovery, s.
  - unfold descriptor_of. by rewrite Hp.
Qed.

(** A transition enrols at most one device, keeps every certificate and never
    reactivates a device. *)
Lemma effect_device_origin l e l' id r :
  effect l e l' → l'.(devices) !! id = Some r →
  (∃ c, ev_payload e = DeviceAdd c ∧ enrollable l e c ∧ id = cert_device_id c ∧ r = enrolled c) ∨
  (∃ r0, l.(devices) !! id = Some r0 ∧ r.(dr_certificate) = r0.(dr_certificate)).
Proof.
  intros [c Hp Hen|id' r' _ _ Hr' _| | |k k' s s' _ _ _ _ _ _ _|] Hr; cbn in Hr; eauto.
  - apply lookup_insert_Some in Hr as [[<- <-]|[_ Hr]]; eauto. left. eauto.
  - apply lookup_insert_Some in Hr as [[<- <-]|[_ Hr]]; eauto.
  - apply lookup_fmap_Some in Hr as (r0 & <- & Hr0). eauto.
Qed.

Lemma effect_device_kept l e l' id r :
  effect l e l' → l.(devices) !! id = Some r →
  ∃ r', l'.(devices) !! id = Some r' ∧ r'.(dr_certificate) = r.(dr_certificate) ∧
    (r.(dr_status) = Revoked → r'.(dr_status) = Revoked).
Proof.
  intros [c Hp Hen|id' r' _ _ Hr' _| | |k k' s s' _ _ _ _ _ _ _|] Hr; cbn; eauto.
  - exists r. split; [|done].
    rewrite lookup_insert_ne; [done|]. intros <-. by rewrite (en_id _ _ _ Hen) in Hr.
  - destruct (decide (id' = id)) as [->|Hne].
    + rewrite lookup_insert_eq. exists (revoke r'). split; [done|]. rewrite Hr in Hr'.
      by injection Hr' as ->.
    + rewrite lookup_insert_ne by done. eauto.
  - rewrite lookup_fmap, Hr. by exists (revoke r).
Qed.

Lemma effect_device_key l e l' k :
  effect l e l' → device_key l' k →
  device_key l k ∨
  ∃ c, ev_payload e = DeviceAdd c ∧ k = cert_signing_key c ∧ fresh_key l k ∧
    l'.(current_root_key) = l.(current_root_key) ∧
    l'.(current_recovery_key) = l.(current_recovery_key).
Proof.
  intros He (id & r & Hr & <-).
  destruct (effect_device_origin _ _ _ _ _ He Hr) as [(c & Hp & Hen & -> & ->)|(r0 & Hr0 & Heq)].
  - right. exists c. split_and!; try done; [by destruct Hen|destruct He; congruence || by case_decide..].
  - left. exists id, r0. by rewrite Heq.
Qed.

Definition authority_ok l : Prop :=
  l.(current_root_key) ≠ l.(current_recovery_key) ∧
  ¬ device_key l l.(current_root_key) ∧ ¬ device_key l l.(current_recovery_key).

Lemma effect_authority l e l' : effect l e l' → authority_ok l → authority_ok l'.
Proof.
  intros He (Hne & Hroot & Hrec).
  assert (∀ k, (k = l'.(current_root_key) ∨ k = l'.(current_recovery_key)) →
    ¬ device_key l k → ¬ device_key l' k) as Hkeep.
  { intros k Hk Hn [?|(c & _ & _ & (H1 & H2 & _) & Hr1 & Hr2)]%(effect_device_key _ _ _ _ He); [done|].
    rewrite Hr1, Hr2 in Hk. naive_solver. }
  unfold authority_ok. split_and!.
  - destruct He as [c| |k s _ _ (?&?&?)|k s a _ _ (?&?&?)|k k' s s' _ _ Hn|]; cbn; try done.
    by case_decide.
  - apply Hkeep; [by left|].
    destruct He as [c| |k s _ _ (?&?&?)| |k k' s s' _ _ _ (?&?&?)|]; cbn; try done. by case_decide.
  - apply Hkeep; [by right|].
    destruct He as [c| | |k s a _ _ (?&?&?)|k k' s s' _ _ _ _ (?&?&?)|]; cbn; try done.
    by case_decide.
Qed.

Definition keys_ok l : Prop :=
  ∀ id id' r r', l.(devices) !! id = Some r → l.(devices) !! id' = Some r' →
    cert_signing_key r.(dr_certificate) = cert_signing_key r'.(dr_certificate) ∨
    cert_encryption_key r.(dr_certificate) = cert_encryption_key r'.(dr_certificate) → id = id'.

Lemma enrollable_distinct l e c id r :
  enrollable l e c → l.(devices) !! id = Some r →
  ¬ (cert_signing_key r.(dr_certificate) = cert_signing_key c ∨
     cert_encryption_key r.(dr_certificate) = cert_encryption_key c).
Proof.
  intros [_ _ _ _ _ (_ & _ & Hk) _ Henc] Hr [Heq|Heq]; [|by eapply Henc].
  apply Hk. by exists id, r.
Qed.

Lemma effect_keys_ok l e l' : effect l e l' → keys_ok l → keys_ok l'.
Proof.
  intros He Hk id id' r r' Hr Hr' Heq.
  destruct (effect_device_origin _ _ _ _ _ He Hr) as [(c & Hp & Hen & -> & ->)|(r0 & Hr0 & Hc)],
    (effect_device_origin _ _ _ _ _ He Hr') as [(c' & Hp' & Hen' & -> & ->)|(r0' & Hr0' & Hc')].
  - congruence.
  - destruct (enrollable_distinct _ _ _ _ _ Hen Hr0'). rewrite Hc' in Heq. naive_solver.
  - destruct (enrollable_distinct _ _ _ _ _ Hen' Hr0). by rewrite Hc in Heq.
  - apply (Hk id id' r0 r0'); [done..|]. by rewrite <-Hc, <-Hc'.
Qed.

Lemma effect_relay_descriptor l e l' :
  effect l e l' →
  l'.(relay_descriptor) = match descriptor_of e with Some d => Some d | None => l.(relay_descriptor) end.
Proof.
  unfold descriptor_of. intros [c Hp|id r Hp|k s Hp|k s a Hp|k k' s s' Hp|d Hp]; rewrite Hp; try done.
  by case_decide.
Qed.

Lemma effect_initial l e l' :
  effect l e l' →
  l'.(initial_device_id) =
    if decide (l.(head_sequence).(uint_get) = 1)
    then match ev_payload e with DeviceAdd c => Some (cert_device_id c) | _ => l.(initial_device_id) end
    else l.(initial_device_id).
Proof.
  intros [c Hp|id r Hp|k s Hp|k s a Hp|k k' s s' Hp|d Hp]; rewrite Hp; by case_decide.
Qed.

Lemma chained_snoc es e e' h :
  chained es → last es = Some e' → entry_hash e' = Ok h →
  (ev_sequence e).(uint_get) = len es + 1 → ev_previous_event_hash e = Some h → chained (es ++ [e]).
Proof.
  intros Hc Hlast Hh Hs Hp i e0 [Hi|[Hge Hi]]%lookup_app_Some.
  - destruct (Hc i e0 Hi) as [Hs0 Hp0]. split; [done|]. destruct i as [|j]; [done|].
    destruct Hp0 as (e1 & h1 & Hj & Hh1 & Hp1). exists e1, h1. split_and!; try done.
    by apply lookup_app_l_Some.
  - apply list_lookup_singleton_Some in Hi as [Hi <-].
    assert (i = length es) as -> by lia. split; [done|].
    rewrite last_lookup in Hlast. destruct (length es) as [|j] eqn:Hl.
    { by rewrite (nil_length_inv _ Hl) in Hlast. }
    exists e', h. split_and!; try done. apply lookup_app_l_Some. done.
Qed.

Lemma append_log_ok es l e l' :
  log_ok es l → append_projection e l = (Ok tt, l') → log_ok (es ++ [e]) l'.
Proof.
  intros [Hlen (e0 & Hlast & Hh0) Hch Hev Hseen Hgen Hauth Hcert Hkeys Hini Hrel]
    (h & next & [Hv Hid Hw Hh Hnew Hs Hr Hp] & He & ->)%append_projection_iff.
  pose proof (effect_frame _ _ _ He) as (Fw & Fi & Fs & Fh & Fseen).
  assert (es ≠ []) as Hne by (by intros ->).
  split; cbn [advance upd head_sequence head_hash seen_entry_hashes log_wire log_identity_id
    current_root_key current_recovery_key devices initial_device_id relay_descriptor].
  - unfold len in *. rewrite length_app. cbn. rewrite Hs, Hlen. lia.
  - exists e. by rewrite last_snoc.
  - eapply chained_snoc; try done. by rewrite Hs, Hlen.
  - cbn. intros e1. rewrite Fw, Fi. rewrite elem_of_app, list_elem_of_singleton.
    intros [Hin| ->]; [by apply Hev|done].
  - cbn. intros h'. rewrite elem_of_union, elem_of_singleton, Fseen, Hseen.
    setoid_rewrite elem_of_app. setoid_rewrite list_elem_of_singleton. split.
    + intros [->|(e1 & He1 & Hh1)]; [exists e; by split; [right|]|exists e1; by split; [left|]].
    + intros (e1 & [He1| ->] & Hh1); [right; by exists e1|left].
      rewrite Hh in Hh1. by injection Hh1 as ->.
  - destruct Hgen as (g & root & recovery & s & Hg & Hpg & Hd). cbn. rewrite Fi.
    exists g, root, recovery, s. split_and!; try done. by apply lookup_app_l_Some.
  - apply (effect_authority _ _ _ He Hauth).
  - cbn. rewrite Fi. intros id r Hr'.
    destruct (effect_device_origin _ _ _ _ _ He Hr') as [(c & Hpc & Hen & -> & ->)|(r0 & Hr0 & Heq)].
    + destruct Hen. split_and!; try done. exists e. split; [|done].
      apply elem_of_app. right. by apply list_elem_of_singleton.
    + destruct (Hcert _ _ Hr0) as (H1 & H2 & H3 & e1 & He1 & H4). rewrite Heq.
      split_and!; try done. exists e1. split; [|done]. apply elem_of_app. by left.
  - apply (effect_keys_ok _ _ _ He Hkeys).
  - cbn. rewrite (effect_initial _ _ _ He), Hini, Hlen. unfold initial_device, len.
    destruct es as [|e1 [|e2 es]]; [done| |]; cbn [length app].
    + cbn. rewrite decide_True by done. by destruct (ev_payload e).
    + rewrite decide_False by lia. done.
  - cbn. rewrite (effect_relay_descriptor _ _ _ He), Hrel, omap_app. cbn.
    destruct (descriptor_of e); cbn; [by rewrite last_snoc|by rewrite app_nil_r].
Qed.

Lemma admitted_log_ok es l : admitted es l → log_ok es l.
Proof.
  induction 1 as [g l Hg|es l e l' _ IH Ha]; [by apply bootstrap_log_ok|].
  exact (append_log_ok _ _ _ _ IH Ha).
Qed.
End rules.
