(* ===== verification/IdentityLogProps.v ===== *)
(** * Identity log: what a log guarantees

    Authority, revocation, recovery, integrity of the history and exactness of
    the event bytes, for every log that the crate can build. *)

From S2P Require Import Prelude Domain CanonicalCbor WirePrimitives WireValues IdentityLog.
From S2P Require Import CborFields IdentityLogCodec IdentityLogProjection IdentityLogInv.

#[local] Opaque encode_deterministic_cbor decode_deterministic_cbor.

Implicit Types (l : IdentityLogV1) (e : IdentityLogEventV1) (k : SigningPublicKey).

Section props.
Context `{Uuid : UuidCrate, Ed : Ed25519, Sha : Sha256}.

(** C34. Admission implements the rules: [append] accepts an event exactly when
    the log is on the current wire line, the event is the verified next link of
    the chain and one of the six rules of [effect] allows the transition for its
    signer; and the new state is the one the rule gives. *)
Theorem append_admits_exactly l e l' :
  append e l = (Ok tt, l') ↔
  l.(log_wire) = IDENTITY_LOG_WIRE_VERSION ∧
  ∃ h next, follows l e h ∧ effect l e next ∧ l' = advance e h next.
Proof. by rewrite append_iff, append_projection_iff. Qed.

(** ** Panics *)

Lemma append_call_not_panicked e l : (append e l).1 ≠ Err Panicked.
Proof.
  unfold append. change ((get ≫= ?f) l) with (f l l).
  apply lift_not_panicked; [apply reject_not_panicked|]. intros _ _. apply append_not_panicked.
Qed.

Lemma bootstrap_call_not_panicked e : bootstrap e ≠ Err Panicked.
Proof.
  unfold bootstrap. apply bind_not_panicked; [apply reject_not_panicked|].
  intros _ _. apply bootstrap_not_panicked.
Qed.

Lemma import_not_panicked es : import_v1_0 es ≠ Err Panicked.
Proof.
  unfold import_v1_0. destruct es as [|g es]; [done|].
  apply bind_not_panicked; [apply reject_not_panicked|]. intros _ _.
  apply bind_not_panicked; [apply bootstrap_not_panicked|]. intros l0 _.
  apply bind_not_panicked; [|done]. revert l0. induction es as [|e1 es IH]; intros l0; cbn; [done|].
  assert (import_event l0 e1 ≠ Err Panicked) as Hi.
  { unfold import_event. apply bind_not_panicked; [apply reject_not_panicked|]. intros _ _.
    pose proof (append_not_panicked e1 l0) as Hn.
    destruct (append_projection e1 l0) as [[u|x] l1]; cbn in *; [done|]. congruence. }
  destruct (import_event l0 e1); [apply IH|]. congruence.
Qed.

(** The values that the public constructors return; the fields of both types are private. *)
Definition unsigned_built (u : UnsignedIdentityLogEventV1) : Prop :=
  ∃ wire id sequence previous at_ payload signer,
    UnsignedIdentityLogEventV1_new wire id sequence previous at_ payload signer = Ok u.
Definition event_built (e : IdentityLogEventV1) : Prop :=
  (∃ u s, IdentityLogEventV1_signed u s = Ok e) ∨ ∃ b, decode_and_verify b = Ok e.

Lemma signed_verified u s e : IdentityLogEventV1_signed u s = Ok e → verify e = Ok tt.
Proof.
  unfold IdentityLogEventV1_signed. intros ([] & Hv & He)%result_bind_Ok. by injection He as <-.
Qed.

Lemma event_built_verified e : event_built e → verify e = Ok tt.
Proof.
  intros [(u & s & H)|[b H]]; [by eapply signed_verified|]. unfold decode_and_verify in H.
  apply result_bind_Ok in H as ([u s] & _ & H). apply result_bind_Ok in H as (e0 & He & H).
  apply result_bind_Ok in H as (? & _ & H). apply result_bind_Ok in H as (? & _ & H). injection H as <-.
  by eapply signed_verified.
Qed.

Lemma signing_digest_not_panicked u : unsigned_built u → signing_digest u ≠ Err Panicked.
Proof.
  intros (w & i & q & p & t & y & g & H). unfold UnsignedIdentityLogEventV1_new in H.
  apply result_bind_Ok in H as ([] & [fields Hf]%static_fields & H). injection H as <-.
  unfold signing_digest. rewrite Hf. apply raising_not_panicked.
Qed.

(** Every log is consistent: after [bootstrap] and any calls of [append],
    and after [import_v1_0], the head sequence counts the admitted events, they
    form one hash chain from a genesis that derives the identity, all belong to
    the identity and wire line of the log, root, recovery and device keys are
    pairwise distinct, every device was enrolled by an admitted certificate under
    its own identifier, and the bootstrap device and relay descriptor are those
    of the events. *)
Theorem log_always_consistent es l :
  reached es l ∨ (∃ h, import_v1_0 es = Ok h ∧ h.(projection) = l) → log_ok es l.
Proof.
  intros [[Ha _]%reached_admitted|(h & [Ha _]%imported_admitted & <-)]; by apply admitted_log_ok.
Qed.

(** ** Authority *)

(** A signature of the current recovery key over this very transition. *)
Definition recovery_signed l e : Prop :=
  ev_signer e = l.(current_recovery_key) ∨
  ∃ k s a input, ev_payload e = RecoveryRotate k s (Some a) ∧
    recovery_rotation_authorization_input (ev_wire e) l.(log_identity_id) (ev_sequence e)
      (ev_previous_event_hash e) (ev_occurred_at e) (ev_signer e) k s = Ok input ∧
    verify_signature l.(current_recovery_key) input a = Ok tt.

(** The event's own signature, under the key it names as signer. *)
Definition event_signed e : Prop :=
  ∃ digest, signing_digest e.(ev_unsigned) = Ok digest ∧
    verify_signature (ev_signer e) (identity_log_signature_input digest) e.(ev_signature) = Ok tt.

(** Somebody who holds [k] signed for taking it over at this position. *)
Definition accepted_by_holder l e k : Prop :=
  ∃ purpose s, possession_proved l e purpose k s.

Lemma verify_signed e : verify e = Ok tt → event_signed e.
Proof.
  unfold verify. intros (? & _ & H)%result_bind_Ok. apply result_bind_Ok in H as (d & Hd & H).
  exists d. split; [done|]. by apply raising_Ok.
Qed.

(** C35. Control changes hands only with the keys that hold it.  When [append]
    admits an event: the event is signed by the key it names; the root key
    changes only with the signature of the old root or recovery key and a proof
    of possession of the new one; the recovery key changes only with a signature
    of the old recovery key over this transition and a proof of possession; a
    device is enrolled only under a certificate that verifies under the current
    root key; and a device is revoked only by the root or the recovery key. *)
Theorem control_change_authorized l e l' :
  append e l = (Ok tt, l') →
  event_signed e ∧
  (l'.(current_root_key) ≠ l.(current_root_key) →
     (ev_signer e = l.(current_root_key) ∨ ev_signer e = l.(current_recovery_key)) ∧
     accepted_by_holder l e l'.(current_root_key)) ∧
  (l'.(current_recovery_key) ≠ l.(current_recovery_key) →
     recovery_signed l e ∧ accepted_by_holder l e l'.(current_recovery_key)) ∧
  (∀ id c, device_certificate l' id = Some c → device_certificate l id = None →
     cert_issuer_root_key c = l.(current_root_key) ∧ certificate_verify c = Ok tt ∧
     (ev_signer e = l.(current_root_key) ∨ active_key l (ev_signer e))) ∧
  (∀ id, device_status l' id = Some Revoked → device_status l id = Some Active →
     ev_signer e = l.(current_root_key) ∨ ev_signer e = l.(current_recovery_key)).
Proof.
  intros [Hw (h & next & Hfo & He & ->)%append_projection_iff]%append_iff. cbn.
  split; [by eapply verify_signed, fo_verified|].
  assert (ev_wire e = IDENTITY_LOG_WIRE_VERSION) as Hwe by (rewrite (fo_wire _ _ _ Hfo); exact Hw).
  split_and!.
  - unfold accepted_by_holder.
    destruct He as [c _ _| |k s _ Hs _ Hp| |k k' s s' _ Hs _ _ _ Hp _|]; cbn; intros Hne;
      try contradiction; eauto. revert Hne. case_decide; intros []; reflexivity.
  - unfold accepted_by_holder, recovery_signed.
    destruct He as [c _ _| | |k s a Hp Hs _ Hpos Hauth|k k' s s' _ Hs _ _ _ _ Hp|]; cbn; intros Hne;
      try contradiction; eauto.
    + revert Hne. case_decide; intros []; reflexivity.
    + split; [|eauto]. right. destruct Hauth as [[Hw0 _]|[_ (sig & input & -> & Hi & Hv)]].
      { rewrite Hwe in Hw0. discriminate Hw0. }
      exists k, s, sig, input. split; [exact Hp|]. split; [exact Hi|exact Hv].
  - intros id c Hc Hn. unfold device_certificate in *. cbn in Hc.
    apply fmap_Some in Hc as (r & Hr & ->). apply fmap_None in Hn.
    destruct (effect_device_origin _ _ _ _ _ He Hr) as [(c & Hp & Hen & -> & ->)|(r0 & Hr0 & _)].
    + destruct Hen as [Hsig Hver _ Hiss _ _ _ _]. split; [exact Hiss|]. by split; [exact Hver|].
    + by rewrite Hr0 in Hn.
  - intros id Hr Ha. unfold device_status in *. cbn in Hr.
    destruct He as [c Hp Hen|id' r' Hp Hs| | |k k' s s' _ Hs|]; cbn in Hr; try (left; exact Hs);
      try (right; exact Hs); try congruence.
    exfalso. apply fmap_Some in Hr as (r & Hr & Heq). apply fmap_Some in Ha as (r0 & Hr0 & Heq0).
    apply lookup_insert_Some in Hr as [[<- <-]|[_ Hr]]; [done|]. congruence.
Qed.

(** ** History *)

Lemma admitted_nonempty es l : admitted es l → es ≠ [].
Proof. intros [|es' l0 e l' _ _]; [done|]. by destruct es'. Qed.

Lemma admitted_snoc es e l' :
  es ≠ [] → admitted (es ++ [e]) l' →
  ∃ l, admitted es l ∧ append_projection e l = (Ok tt, l').
Proof.
  intros Hne H. inversion H as [g l Hg Heq|es0 l0 e0 l1 H0 Ha Heq]; subst.
  - destruct es as [|? [|]]; done.
  - apply app_inj_tail in Heq as [-> ->]. by exists l0.
Qed.

(** The admitted events determine the projection. *)
Lemma admitted_det es l l' : admitted es l → admitted es l' → l = l'.
Proof.
  intros H. revert l'. induction H as [g l Hg|es l e l1 H IH Ha]; intros l' H'.
  - inversion H' as [g' l2 Hg'|es0 l0 e0 l2 H0 _ Heq]; subst; [congruence|].
    apply admitted_nonempty in H0. destruct es0 as [|? [|]]; done.
  - apply admitted_snoc in H' as (l0 & H0 & Ha0); [|by eapply admitted_nonempty].
    rewrite (IH _ H0) in Ha. congruence.
Qed.

Lemma effect_signer l e l' :
  effect l e l' →
  ev_signer e = l.(current_root_key) ∨ ev_signer e = l.(current_recovery_key) ∨
  active_key l (ev_signer e).
Proof. intros [c _ Hen| | | | |]; try tauto. destruct (en_signer _ _ _ Hen); tauto. Qed.

(** A revoked device has no part in any transition. *)
Lemma revoked_step es l e next id r :
  log_ok es l → l.(devices) !! id = Some r → r.(dr_status) = Revoked → effect l e next →
  ev_signer e ≠ cert_signing_key r.(dr_certificate) ∧
  ∀ c, ev_payload e = DeviceAdd c →
    cert_device_id c ≠ id ∧ cert_signing_key c ≠ cert_signing_key r.(dr_certificate) ∧
    cert_encryption_key c ≠ cert_encryption_key r.(dr_certificate).
Proof.
  intros [_ _ _ _ _ _ (_ & Hroot & Hrec) _ Hkeys _ _] Hr Hst He.
  assert (device_key l (cert_signing_key r.(dr_certificate))) as Hk by (by exists id, r).
  assert (∀ k, k = l.(current_root_key) ∨ k = l.(current_recovery_key) ∨ active_key l k →
    k ≠ cert_signing_key r.(dr_certificate)) as Hsign.
  { intros k [->|[->|(id' & r' & Hr' & Ha & Heq)]] Hks.
    - by rewrite <-Hks in Hk.
    - by rewrite <-Hks in Hk.
    - assert (id' = id) as -> by (apply (Hkeys id' id r' r); [done|done|left; congruence]).
      rewrite Hr in Hr'. injection Hr' as ->. congruence. }
  split.
  - apply Hsign. by eapply effect_signer.
  - intros c Hp. destruct He as [c' Hp' Hen| | | | |]; try congruence.
    rewrite Hp in Hp'. injection Hp' as <-.
    pose proof (enrollable_distinct _ _ _ _ _ Hen Hr) as Hd. split_and!; try (intros Heq; naive_solver).
    intros <-. by rewrite (en_id _ _ _ Hen) in Hr.
Qed.

(** C36. Revocation is for ever: once a device is revoked, no continuation of the
    log reactivates it, admits an event signed by its key, or enrols a device
    that reuses its identifier, its signing key or its encryption key, not even
    after the authority keys were rotated or restored. *)
Theorem revoked_device_is_dead es es' l l' id r :
  reached es l → reached (es ++ es') l' →
  l.(devices) !! id = Some r → r.(dr_status) = Revoked →
  device_status l' id = Some Revoked ∧ device_certificate l' id = Some r.(dr_certificate) ∧
  ∀ e, e ∈ es' →
    ev_signer e ≠ cert_signing_key r.(dr_certificate) ∧
    ∀ c, ev_payload e = DeviceAdd c →
      cert_device_id c ≠ id ∧ cert_signing_key c ≠ cert_signing_key r.(dr_certificate) ∧
      cert_encryption_key c ≠ cert_encryption_key r.(dr_certificate).
Proof.
  intros [H0 _]%reached_admitted [H1 _]%reached_admitted Hr Hst.
  cut (∃ r', l'.(devices) !! id = Some r' ∧ r'.(dr_certificate) = r.(dr_certificate) ∧
    r'.(dr_status) = Revoked ∧ ∀ e, e ∈ es' →
    ev_signer e ≠ cert_signing_key r.(dr_certificate) ∧
    ∀ c, ev_payload e = DeviceAdd c →
      cert_device_id c ≠ id ∧ cert_signing_key c ≠ cert_signing_key r.(dr_certificate) ∧
      cert_encryption_key c ≠ cert_encryption_key r.(dr_certificate)).
  { intros (r' & Hr' & Hc & Hs & Hall). unfold device_status, device_certificate.
    rewrite Hr'. cbn. rewrite Hc, Hs. done. }
  revert l' H1. induction es' as [|e es' IH] using rev_ind; intros l' H1.
  - rewrite app_nil_r in H1. rewrite <-(admitted_det _ _ _ H0 H1). exists r. split_and!; try done.
    by intros e ?%not_elem_of_nil.
  - rewrite (assoc_L (++)) in H1. apply admitted_snoc in H1 as (l1 & H1 & Ha).
    2: { pose proof (admitted_nonempty _ _ H0). by destruct es. }
    destruct (IH _ H1) as (r1 & Hr1 & Hc1 & Hs1 & Hall).
    apply append_projection_iff in Ha as (h & next & _ & He & ->). cbn.
    destruct (effect_device_kept _ _ _ _ _ He Hr1) as (r2 & Hr2 & Hc2 & Hs2).
    exists r2. split_and!; [done|congruence|auto|].
    intros e0 [Hin|He0]%elem_of_app; [by apply Hall|]. apply list_elem_of_singleton in He0 as ->.
    rewrite <-Hc1. by eapply revoked_step; [by apply admitted_log_ok| | |].
Qed.

(** Recovery takes control back: after an admitted [RecoveryRestore] every
    device is revoked and both authority keys are new, and the next admitted
    event can only be signed by one of the two new keys. *)
Theorem recovery_restore_takes_over l e l' k k' s s' e2 l2 :
  append e l = (Ok tt, l') → ev_payload e = RecoveryRestore k k' s s' →
  append e2 l' = (Ok tt, l2) →
  ev_signer e = l.(current_recovery_key) ∧
  l'.(current_root_key) = k ∧ l'.(current_recovery_key) = k' ∧
  (∀ id st, device_status l' id = Some st → st = Revoked) ∧
  (ev_signer e2 = k ∨ ev_signer e2 = k') ∧
  ev_signer e2 ≠ l.(current_root_key) ∧ ev_signer e2 ≠ l.(current_recovery_key).
Proof.
  intros [_ (h & next & _ & He & ->)%append_projection_iff]%append_iff Hp
    [_ (h2 & next2 & _ & He2 & ->)%append_projection_iff]%append_iff.
  destruct He as [| | | |k0 k0' s0 s0' Hp0 Hs Hne (? & ? & ?) (? & ? & ?) _ _|]; try congruence.
  rewrite Hp in Hp0. injection Hp0 as <- <- <- <-.
  assert (ev_signer e2 = k ∨ ev_signer e2 = k') as Hs2.
  { apply effect_signer in He2 as [?|[?|(id & r & Hr & Ha & _)]]; [by left|by right|].
    cbn in Hr. rewrite lookup_fmap in Hr. apply fmap_Some in Hr as (r0 & _ & ->). done. }
  cbn in *. split_and!; try done.
  - intros id st Hst. unfold device_status in Hst. cbn in Hst. rewrite lookup_fmap in Hst.
    destruct (devices l !! id); cbn in Hst; by simplify_eq.
  - destruct Hs2 as [->| ->]; done.
  - destruct Hs2 as [->| ->]; done.
Qed.

(** ** Integrity *)

Context {UL : UuidLaws}.

(** Two events of the logs whose bytes differ and hash to the same digest. *)
Definition entry_collision (es es' : list IdentityLogEventV1) : Prop :=
  ∃ e e' b b', e ∈ es ∧ e' ∈ es' ∧
    to_deterministic_cbor e = Ok b ∧ to_deterministic_cbor e' = Ok b' ∧ b ≠ b' ∧
    sha256 (IDENTITY_LOG_ENTRY_HASH_DOMAIN ++ b) = sha256 (IDENTITY_LOG_ENTRY_HASH_DOMAIN ++ b').

Lemma entry_collision_mono es es' fs fs' :
  entry_collision es es' → es ⊆ fs → es' ⊆ fs' → entry_collision fs fs'.
Proof. intros (e & e' & b & b' & He & He' & H) Hs Hs'. exists e, e', b, b'. auto. Qed.

Definition sound_event e : Prop := event_valid e ∧ verify e = Ok tt.

Lemma same_entry_hash e e' h :
  sound_event e → sound_event e' → entry_hash e = Ok h → entry_hash e' = Ok h →
  e = e' ∨ entry_collision [e] [e'].
Proof using UL.
  intros [Hv Hok] [Hv' Hok'] Hh Hh'.
  destruct (event_encodes e Hv) as (b & Hb & _ & _ & Hhb).
  destruct (event_encodes e' Hv') as (b' & Hb' & _ & _ & Hhb').
  destruct (decide (b = b')) as [->|Hne].
  - left. by eapply event_bytes_inj.
  - right. exists e, e', b, b'. rewrite !list_elem_of_singleton. split_and!; try done.
    rewrite Hh in Hhb. rewrite Hh' in Hhb'. unfold hash_domain in *. congruence.
Qed.

Lemma chained_init es e : chained (es ++ [e]) → chained es.
Proof.
  intros H i e0 Hi. destruct (H i e0) as [Hs Hp]; [by apply lookup_app_l_Some|].
  split; [done|]. destruct i as [|j]; [done|]. destruct Hp as (e1 & h & Hj & Hp).
  exists e1, h. split; [|done]. rewrite lookup_app_l in Hj; [done|].
  apply lookup_lt_Some in Hi. lia.
Qed.

Lemma chained_last es e :
  chained (es ++ [e]) →
  match ev_previous_event_hash e with
  | None => es = []
  | Some h => ∃ e', last es = Some e' ∧ entry_hash e' = Ok h
  end.
Proof.
  intros H. destruct (H (length es) e) as [_ Hp]; [by rewrite lookup_app_r, Nat.sub_diag by lia|].
  destruct (length es) as [|j] eqn:Hl.
  - rewrite Hp. by apply nil_length_inv.
  - destruct Hp as (e' & h & Hj & Hh & ->). exists e'. split; [|done].
    rewrite last_lookup, Hl. rewrite lookup_app_l in Hj by lia. done.
Qed.

Lemma chain_bound_by_last es es' e e' h :
  chained (es ++ [e]) → chained (es' ++ [e']) →
  Forall sound_event (es ++ [e]) → Forall sound_event (es' ++ [e']) →
  entry_hash e = Ok h → entry_hash e' = Ok h →
  es ++ [e] = es' ++ [e'] ∨ entry_collision (es ++ [e]) (es' ++ [e']).
Proof using UL.
  revert es' e e' h. induction es as [|x es IH] using rev_ind; intros es' e e' h Hc Hc' Hs Hs' Hh Hh'.
  - pose proof Hs as [_ He]%Forall_app. pose proof Hs' as [_ He']%Forall_app.
    rewrite Forall_singleton in He, He'.
    destruct (same_entry_hash e e' h) as [->|Hcol]; [done..| |].
    + apply chained_last in Hc, Hc'. left. destruct (ev_previous_event_hash e').
      * by destruct Hc as (? & ? & _).
      * by rewrite Hc'.
    + right. eapply entry_collision_mono; [done|set_solver..].
  - pose proof Hs as [Hs0 He]%Forall_app. pose proof Hs' as [Hs0' He']%Forall_app.
    rewrite Forall_singleton in He, He'.
    destruct (same_entry_hash e e' h) as [->|Hcol]; [done..| |].
    2: { right. eapply entry_collision_mono; [done|set_solver..]. }
    pose proof (chained_last _ _ Hc) as Hl. pose proof (chained_last _ _ Hc') as Hl'.
    destruct (ev_previous_event_hash e') as [h0|]; [|by destruct es].
    destruct Hl as (y & Hy & Hhy), Hl' as (y' & Hy' & Hhy').
    rewrite last_snoc in Hy. injection Hy as <-.
    apply last_Some in Hy' as [es0 ->].
    apply chained_init in Hc, Hc'.
    destruct (IH es0 x y' h0) as [->|Hcol]; [done..|by left|].
    right. eapply entry_collision_mono; [done|set_solver..].
Qed.

(** C37. The head hash commits to the whole history: two logs with the same head
    hash admitted the same events in the same order and are in the same state,
    or two of their events exhibit a collision of SHA-256. *)
Theorem head_hash_binds_history es es' l l' :
  reached es l → reached es' l' → Forall event_valid es → Forall event_valid es' →
  l.(head_hash) = l'.(head_hash) →
  (es = es' ∧ l = l') ∨ entry_collision es es'.
Proof using UL.
  intros [Ha _]%reached_admitted [Ha' _]%reached_admitted Hv Hv' Hh.
  pose proof (admitted_log_ok _ _ Ha) as [_ (e & Hl & He) Hc Hev _ _ _ _ _ _ _].
  pose proof (admitted_log_ok _ _ Ha') as [_ (e' & Hl' & He') Hc' Hev' _ _ _ _ _ _ _].
  apply last_Some in Hl as [es0 ->]. apply last_Some in Hl' as [es0' ->].
  rewrite <-Hh in He'.
  assert (∀ fs (f : IdentityLogV1), Forall event_valid fs →
    (∀ e, e ∈ fs → verify e = Ok tt ∧ ev_identity_id e = f.(log_identity_id) ∧
      ev_wire e = f.(log_wire)) → Forall sound_event fs) as Hsound.
  { intros fs f Hfs Hf. apply Forall_forall. intros e0 Hin. split.
    - by eapply Forall_forall in Hfs.
    - by apply Hf. }
  destruct (chain_bound_by_last es0 es0' e e' (head_hash l)) as [Heq|Hcol]; eauto.
  left. split; [done|]. rewrite <-Heq in Ha'. by eapply admitted_det.
Qed.

(** C38. The bytes of an event are exact: [decode_and_verify] accepts a byte string
    exactly when it is the deterministic encoding of a well-formed event that
    verifies, and returns that event.  In particular no signed event has two
    encodings, and every event that verifies survives the wire. *)
Theorem event_bytes_exact b e :
  Forall is_byte b →
  decode_and_verify b = Ok e ↔ event_valid e ∧ verify e = Ok tt ∧ to_deterministic_cbor e = Ok b.
Proof using UL. apply decode_and_verify_iff. Qed.
End props.
