(* ===== verification/IdentityLogPages.v ===== *)
(** * Identity log: read-only pages

    Models [IdentityLogPageV1] of [pages.rs] and the page decoders of
    [decoding.rs] in [crates/dtx-identity-log/src]: a bounded, canonical run of
    exact signed events between two cursors, with the head that its source
    advertises. *)

From S2P Require Import Prelude Domain CanonicalCbor CborSpec CborEncode CborDecode CborFields.
From S2P Require Import WirePrimitives WireValues IdentityLog IdentityLogCodec IdentityLogProjection.
From S2P Require Import IdentityLogInv.

#[local] Opaque encode_deterministic_cbor decode_deterministic_cbor.

Module Page.
Definition IDENTITY_LOG_PAGE_WIRE_MAJOR : Z := 1.
Definition IDENTITY_LOG_PAGE_WIRE_MINOR : Z := 1.
Definition MAX_IDENTITY_LOG_PAGE_EVENTS : Z := 64.
Definition MAX_IDENTITY_LOG_PAGE_BYTES : Z := 2 * 1024 * 1024.
Definition MAX_IDENTITY_LOG_PAGE_EVENT_BYTES : Z := 1024 * 1024.

Inductive IdentityLogPageError : Type :=
| InvalidCanonical
| EventLimitExceeded
| PageTooLarge
| InvalidCursor
| NextCursorMismatch
| PaginationMismatch
| InvalidEvent (e : IdentityLogError)
| IdentityMismatch
| SequenceMismatch
| PreviousHashMismatch
| AdvertisedHeadMismatch.

Record IdentityLogPageV1 : Type := {
  identity_id : IdentityId;
  advertised_head_sequence : SafeUint;
  advertised_head_hash : Sha256Digest;
  requested_after_sequence : Z;
  exact_events : list bytes;
  next_after_sequence : Z;
  has_more : bool
}.

(** [map_err(IdentityLogPageError::InvalidEvent)] *)
Definition event_error {A} (r : result (Fault IdentityLogError) A) :
    result (Fault IdentityLogPageError) A :=
  map_err (λ x, match x with Raised e => Raised (InvalidEvent e) | Panicked => Panicked end) r.

Global Instance IdentityLogPageV1_encode : CanonicalEncode IdentityLogPageV1 := λ p,
  Map [ (Unsigned 1, Map [ (Unsigned 1, Unsigned IDENTITY_LOG_PAGE_WIRE_MAJOR);
                           (Unsigned 2, Unsigned IDENTITY_LOG_PAGE_WIRE_MINOR) ]);
        (Unsigned 2, identity_value p.(identity_id));
        (Unsigned 3, to_canonical_value p.(advertised_head_sequence));
        (Unsigned 4, to_canonical_value p.(advertised_head_hash));
        (Unsigned 5, Unsigned p.(requested_after_sequence));
        (Unsigned 6, Array (Bytes <$> p.(exact_events)));
        (Unsigned 7, Unsigned p.(next_after_sequence));
        (Unsigned 8, Bool p.(has_more)) ].

Definition to_deterministic_cbor (self : IdentityLogPageV1) : result IdentityLogPageError bytes :=
  map_err (λ _, InvalidCanonical) (encode_deterministic_cbor (to_canonical_value self)).

(** [SafeUint::new(value).is_err()] *)
Definition unsafe_uint (value : Z) : bool :=
  match SafeUint_new value with Ok _ => false | Err _ => true end.

Section page.
Context `{UuidCrate, Ed25519, Sha256}.

(** The body of the loop over [exact_events]; the state is [previous_hash]. *)
Definition check_event (page_identity : IdentityId) (requested_after : Z)
    (previous_hash : option Sha256Digest) (indexed : nat * bytes) :
    result (Fault IdentityLogPageError) (option Sha256Digest) :=
  let '(index, exact_bytes) := indexed in
  reject (Raised PageTooLarge)
    when (exact_bytes = [] ∨ len exact_bytes > MAX_IDENTITY_LOG_PAGE_EVENT_BYTES);;
  event ← event_error (decode_and_verify exact_bytes);
  reject (Raised IdentityMismatch)
    when (ev_identity_id event ≠ page_identity ∨ ev_wire event ≠ IDENTITY_LOG_WIRE_VERSION);;
  event_offset ← ok_or (checked 0 u64_max (Z.of_nat index)) (Raised SequenceMismatch);
  expected_sequence ← ok_or (value ← u64_checked_add requested_after event_offset;
                             u64_checked_add value 1) (Raised SequenceMismatch);
  reject (Raised SequenceMismatch) when ((ev_sequence event).(uint_get) ≠ expected_sequence);;
  match previous_hash with
  | Some previous_hash =>
      reject (Raised PreviousHashMismatch)
        when (ev_previous_event_hash event ≠ Some previous_hash)
  | None =>
      reject (Raised PreviousHashMismatch)
        when (expected_sequence = 1 ∧ ev_previous_event_hash event ≠ None)
  end;;
  Some <$> event_error (entry_hash event).

(** [exact_events.iter().enumerate()] *)
Definition enumerate {A} (l : list A) : list (nat * A) := zip (seq 0 (length l)) l.

Definition new (page_identity : IdentityId) (head_sequence : SafeUint) (head_hash : Sha256Digest)
    (requested_after : Z) (events : list bytes) (next_after : Z) (more : bool) :
    result (Fault IdentityLogPageError) IdentityLogPageV1 :=
  reject (Raised InvalidCursor)
    when (unsafe_uint requested_after = true ∨ unsafe_uint next_after = true
          ∨ head_sequence.(uint_get) = 0 ∨ requested_after > head_sequence.(uint_get)
          ∨ next_after > head_sequence.(uint_get));;
  reject (Raised EventLimitExceeded) when (len events > MAX_IDENTITY_LOG_PAGE_EVENTS);;
  previous_hash ← try_fold (check_event page_identity requested_after) (enumerate events) None;
  expected_next ← ok_or (count ← checked 0 u64_max (len events);
                         u64_checked_add requested_after count) (Raised NextCursorMismatch);
  reject (Raised NextCursorMismatch) when (next_after ≠ expected_next);;
  let terminal := bool_decide (next_after = head_sequence.(uint_get)) in
  reject (Raised PaginationMismatch) when (more = terminal ∨ (more = true ∧ events = []));;
  reject (Raised AdvertisedHeadMismatch)
    when (terminal = true ∧ events ≠ [] ∧ previous_hash ≠ Some head_hash);;
  let page := {| identity_id := page_identity; advertised_head_sequence := head_sequence;
                 advertised_head_hash := head_hash; requested_after_sequence := requested_after;
                 exact_events := events; next_after_sequence := next_after;
                 has_more := more |} in
  encoded ← raising (to_deterministic_cbor page);
  reject (Raised PageTooLarge) when (len encoded > MAX_IDENTITY_LOG_PAGE_BYTES);;
  Ok page.

(** ** The page decoders of [decoding.rs] *)

Definition page_exact_fields := exact_fields_or InvalidCanonical.
Definition page_field := field_or InvalidCanonical.
Definition page_decode_unsigned := unsigned_or InvalidCanonical.

Definition decode_page_wire (value : CanonicalValue) : result IdentityLogPageError unit :=
  fields ← page_exact_fields value 2;
  major ← (v ← page_field fields 1; page_decode_unsigned v);
  reject InvalidCanonical when (major ≠ IDENTITY_LOG_PAGE_WIRE_MAJOR);;
  minor ← (v ← page_field fields 2; page_decode_unsigned v);
  reject InvalidCanonical when (minor ≠ IDENTITY_LOG_PAGE_WIRE_MINOR).

Definition page_decode_safe_uint (value : CanonicalValue) : result IdentityLogPageError SafeUint :=
  n ← page_decode_unsigned value;
  map_err (λ _, InvalidCanonical) (SafeUint_new n).

Definition page_decode_digest (value : CanonicalValue) : result IdentityLogPageError Sha256Digest :=
  b ← exact_bytes_or InvalidCanonical 32 value;
  Ok (from_bytes b).

Definition page_decode_identity_id (value : CanonicalValue) :
    result IdentityLogPageError IdentityId :=
  match value with
  | Text value => map_err (λ _, InvalidCanonical) (PublicIds.from_str KIdentity value)
  | _ => Err InvalidCanonical
  end.

Definition page_decode_event_bytes (value : CanonicalValue) : result IdentityLogPageError bytes :=
  match value with
  | Bytes value =>
      reject PageTooLarge
        when (value = [] ∨ len value > MAX_IDENTITY_LOG_PAGE_EVENT_BYTES);;
      Ok value
  | _ => Err InvalidCanonical
  end.

(** The arguments that [decode_and_verify] hands to [new]. *)
Definition decode_page_fields (bytes : bytes) : result IdentityLogPageError IdentityLogPageV1 :=
  reject PageTooLarge when (bytes = [] ∨ len bytes > MAX_IDENTITY_LOG_PAGE_BYTES);;
  value ← map_err (λ _, InvalidCanonical) (decode_deterministic_cbor bytes);
  fields ← page_exact_fields value 8;
  (v ← page_field fields 1; decode_page_wire v);;
  page_identity ← (v ← page_field fields 2; page_decode_identity_id v);
  head_sequence ← (v ← page_field fields 3; page_decode_safe_uint v);
  head_hash ← (v ← page_field fields 4; page_decode_digest v);
  requested_after ← (v ← page_field fields 5; page_decode_safe_uint v);
  events ← (v ← page_field fields 6;
            match v with Array events => Ok events | _ => Err InvalidCanonical end);
  exact ← collect page_decode_event_bytes events;
  next_after ← (v ← page_field fields 7; page_decode_safe_uint v);
  more ← (v ← page_field fields 8;
          match v with Bool more => Ok more | _ => Err InvalidCanonical end);
  Ok {| identity_id := page_identity; advertised_head_sequence := head_sequence;
        advertised_head_hash := head_hash;
        requested_after_sequence := requested_after.(uint_get); exact_events := exact;
        next_after_sequence := next_after.(uint_get); has_more := more |}.

Definition decode_and_verify (bytes : bytes) :
    result (Fault IdentityLogPageError) IdentityLogPageV1 :=
  f ← raising (decode_page_fields bytes);
  page ← new f.(identity_id) f.(advertised_head_sequence) f.(advertised_head_hash)
           f.(requested_after_sequence) f.(exact_events) f.(next_after_sequence) f.(has_more);
  encoded ← raising (to_deterministic_cbor page);
  reject (Raised InvalidCanonical) when (encoded ≠ bytes);;
  Ok page.
End page.
End Page.
