(* ===== verification/IdentityLogPageProps.v ===== *)
(** * Identity log: what a page guarantees

    The validator of a page accepts exactly the contiguous runs of events that
    link to each other and, on the last page, to the advertised head; a page
    survives the wire; and a reader that replays an accepted page ends at the
    cursor and head that the page announces. *)

From S2P Require Import Prelude Domain CanonicalCbor CborSpec CborEncode CborDecode CborFields.
From S2P Require Import WirePrimitives WireValues IdentityLog IdentityLogCodec IdentityLogProjection.
From S2P Require Import IdentityLogInv IdentityLogProps IdentityLogPages.

Import Page.

(** The general CBOR limit is below the page limit: input between the two is
    reported as not canonical, never as too large. *)
Lemma page_limited_by_cbor `{UuidCrate, Ed25519, Sha256} b :
  MAX_ENCODED_BYTES < len b ≤ MAX_IDENTITY_LOG_PAGE_BYTES →
  decode_and_verify b = Err (Raised InvalidCanonical).
Proof.
  intros [Hlo Hhi]. unfold decode_and_verify, decode_page_fields, reject_if.
  rewrite decide_False. 2: { intros [->|?]; [by cbv in Hlo|lia]. }
  unfold decode_deterministic_cbor, decode_deterministic_cbor_with_limit, reject_if.
  rewrite decide_True by (right; lia). done.
Qed.

#[local] Opaque encode_deterministic_cbor decode_deterministic_cbor.

Section page_props.
Context `{Uuid : UuidCrate, Ed : Ed25519, Sha : Sha256}.

(** ** The loop over the events *)

Definition links (sequence : Z) (previous_hash : option Sha256Digest) (e : IdentityLogEventV1) :
    Prop :=
  match previous_hash with
  | Some h => ev_previous_event_hash e = Some h
  | None => sequence = 1 → ev_previous_event_hash e = None
  end.

(** [b] is the exact event at position [n] after the cursor [after]. *)
Record event_at (id : IdentityId) (after : Z) (n : nat) (prev : option Sha256Digest) (b : bytes)
    (e : IdentityLogEventV1) (h : Sha256Digest) : Prop := {
  at_size : b ≠ [] ∧ len b ≤ MAX_IDENTITY_LOG_PAGE_EVENT_BYTES;
  at_decoded : IdentityLog.decode_and_verify b = Ok e;
  at_identity : ev_identity_id e = id;
  at_wire : ev_wire e = IDENTITY_LOG_WIRE_VERSION;
  at_sequence : (ev_sequence e).(uint_get) = after + Z.of_nat n + 1;
  at_link : links (after + Z.of_nat n + 1) prev e;
  at_hash : entry_hash e = Ok h
}.

(** A run of events from position [n] on, ending with entry hash [last]. *)
Inductive run (id : IdentityId) (after : Z) :
    nat → option Sha256Digest → list bytes → list IdentityLogEventV1 → option Sha256Digest → Prop :=
| run_nil n prev : run id after n prev [] [] prev
| run_cons n prev b e h bs es last :
    event_at id after n prev b e h → run id after (S n) (Some h) bs es last →
    run id after n prev (b :: bs) (e :: es) last.

Lemma event_error_Ok {A} (r : result (Fault IdentityLogError) A) a :
  event_error r = Ok a ↔ r = Ok a.
Proof. apply map_err_Ok. Qed.

Lemma expected_sequence_Some after n m :
  0 ≤ after ≤ MAX_SAFE_UINT → Z.of_nat n ≤ 64 →
  (value ← u64_checked_add after (Z.of_nat n); u64_checked_add value 1) = Some m ↔
  m = after + Z.of_nat n + 1.
Proof.
  change MAX_SAFE_UINT with (2 ^ 53 - 1). intros Ha Hn. unfold u64_checked_add.
  rewrite bind_Some. setoid_rewrite checked_Some. unfold u64_max. split.
  - by intros (v & [-> _] & -> & _).
  - intros ->. exists (after + Z.of_nat n). lia.
Qed.

Lemma check_event_iff id after n prev b last :
  0 ≤ after ≤ MAX_SAFE_UINT → Z.of_nat n ≤ 64 →
  check_event id after prev (n, b) = Ok last ↔
  ∃ e h, event_at id after n prev b e h ∧ last = Some h.
Proof.
  intros Ha Hn. unfold check_event. split.
  - intros H. res_inv H. apply event_error_Ok in Hres0. apply checked_Some in Hres2 as [-> _].
    apply expected_sequence_Some in Hres3 as ->; [|done..]. apply dec_stable in Hres4.
    destruct (entry_hash _) as [h|] eqn:Hh; [|done]. injection H as <-.
    eexists _, h. split; [|done]. split; try done.
    + apply Decidable.not_or in Hres as [? ?]. split; [done|lia].
    + apply dec_stable. tauto.
    + apply dec_stable. tauto.
    + unfold links. destruct prev as [p|].
      * by apply reject_if_Ok, dec_stable in Hres5.
      * apply reject_if_Ok in Hres5. intros ?. apply dec_stable. tauto.
  - intros (e & h & [[Hne Hl] Hd Hi Hw Hs Hk Hh] & ->).
    ok_step; [intros [?|?]; [done|lia]|]. ok_step; [by apply event_error_Ok|].
    ok_step; [intros [?|?]; done|]. ok_step; [apply checked_Some; split; [reflexivity|unfold u64_max; lia]|].
    ok_step; [by apply expected_sequence_Some|]. ok_step; [by intros []|].
    apply result_bind_Ok. exists tt. split.
    { unfold links in Hk. destruct prev; apply reject_if_Ok; [by intros []|].
      intros [H1 H2]. apply H2, Hk. lia. }
    by rewrite Hh.
Qed.

Lemma check_events_iff id after bs n prev last :
  0 ≤ after ≤ MAX_SAFE_UINT → Z.of_nat n + len bs ≤ 64 →
  try_fold (check_event id after) (zip (seq n (length bs)) bs) prev = Ok last ↔
  ∃ es, run id after n prev bs es last.
Proof.
  intros Ha. revert n prev. induction bs as [|b bs IH]; intros n prev Hn; cbn [length seq zip zip_with try_fold].
  { split; [intros [= <-]; exists []; constructor|]. intros [es H]. by inversion H. }
  unfold len in *. cbn [length] in Hn.
  pose proof (λ last', check_event_iff id after n prev b last' Ha ltac:(lia)) as Hc.
  destruct (check_event id after prev (n, b)) as [p|x] eqn:Hce.
  - destruct (proj1 (Hc p) eq_refl) as (e & h & He & ->).
    rewrite IH by lia. split.
    + intros [es H]. exists (e :: es). by econstructor.
    + intros [es H]. inversion H as [|? ? ? e' h' ? es' ? He' Hr]; subst.
      assert (h' = h) as ->. { destruct He, He'. congruence. }
      by exists es'.
  - split; [done|]. intros [es H]. inversion H as [|? ? ? e' h' ? es' ? He' Hr]; subst.
    specialize (Hc (Some h')). destruct Hc as [_ Hc]. discriminate Hc. eauto.
Qed.

(** ** Acceptance *)

(** What a page claims. *)
Record page_ok (p : IdentityLogPageV1) (es : list IdentityLogEventV1)
    (last : option Sha256Digest) : Prop := {
  po_head : 1 ≤ p.(advertised_head_sequence).(uint_get);
  po_after : 0 ≤ p.(requested_after_sequence) ≤ MAX_SAFE_UINT;
  po_count : len p.(exact_events) ≤ MAX_IDENTITY_LOG_PAGE_EVENTS;
  po_run : run p.(identity_id) p.(requested_after_sequence) 0 None p.(exact_events) es last;
  po_next : p.(next_after_sequence) = p.(requested_after_sequence) + len p.(exact_events);
  po_within : p.(next_after_sequence) ≤ p.(advertised_head_sequence).(uint_get) ∧
    p.(next_after_sequence) ≤ MAX_SAFE_UINT;
  po_more : p.(has_more) = bool_decide (p.(next_after_sequence) < p.(advertised_head_sequence).(uint_get));
  po_progress : p.(has_more) = true → p.(exact_events) ≠ [];
  po_bound : p.(has_more) = false → p.(exact_events) ≠ [] → last = Some p.(advertised_head_hash)
}.

Lemma unsafe_uint_false n : unsafe_uint n = false ↔ n ≤ MAX_SAFE_UINT.
Proof. unfold unsafe_uint, SafeUint_new. case_decide; split; try done; lia. Qed.

Lemma pagination_iff (more : bool) (next head : Z) (none : Prop) :
  next ≤ head →
  ¬ (more = bool_decide (next = head) ∨ (more = true ∧ none)) ↔
  more = bool_decide (next < head) ∧ (more = true → ¬ none).
Proof. intros Hle. destruct more; repeat case_bool_decide; try lia; naive_solver. Qed.

Lemma page_new_iff p p' :
  0 ≤ p.(requested_after_sequence) → 0 ≤ p.(next_after_sequence) →
  0 ≤ p.(advertised_head_sequence).(uint_get) →
  new p.(identity_id) p.(advertised_head_sequence) p.(advertised_head_hash)
    p.(requested_after_sequence) p.(exact_events) p.(next_after_sequence) p.(has_more) = Ok p' ↔
  p' = p ∧ (∃ es last, page_ok p es last) ∧
  ∃ b, to_deterministic_cbor p = Ok b ∧ len b ≤ MAX_IDENTITY_LOG_PAGE_BYTES.
Proof.
  intros H0 H1 H2. destruct p as [id hs hh after bs next more]. cbn in *. unfold new.
  assert (∀ c, (count ← checked 0 u64_max (len bs); u64_checked_add after count) = Some c →
    c = after + len bs) as Hc.
  { intros c (n & [-> _]%checked_Some & [-> _]%checked_Some)%bind_Some. done. }
  split.
  - intros H. res_inv H. apply Hc in Hres2 as ->. apply dec_stable in Hres3 as ->.
    apply raising_Ok in Hres6.
    assert (unsafe_uint after ≠ true ∧ unsafe_uint (after + len bs) ≠ true ∧ hs.(uint_get) ≠ 0 ∧
      ¬ after > hs.(uint_get) ∧ ¬ after + len bs > hs.(uint_get))
      as (Hu1 & Hu2 & Hz & Hle1 & Hle2) by tauto.
    apply not_true_is_false, unsafe_uint_false in Hu1, Hu2.
    apply check_events_iff in Hres1 as [es Hrun]; [|done|unfold MAX_IDENTITY_LOG_PAGE_EVENTS in *; lia].
    apply pagination_iff in Hres4 as [Hm Hp]; [|lia].
    split; [done|]. split; [|eexists; split; [done|lia]]. exists es, x1. split; cbn; try done; try lia.
    intros Hf Hne. rewrite Hm in Hf. apply bool_decide_eq_false in Hf. apply dec_stable.
    rewrite bool_decide_true in Hres5 by lia. tauto.
  - intros (-> & (es & last & [Hh Ha Hn Hr Hx [Hw1 Hw2] Hm Hp Hb]) & b & Henc & Hlb). cbn in *.
    pose proof (len_nonneg bs). ok_step.
    { intros [Hu|[Hu|[Hu|[Hu|Hu]]]]; try lia.
      - by rewrite (proj2 (unsafe_uint_false after)) in Hu by lia.
      - by rewrite (proj2 (unsafe_uint_false next)) in Hu by lia. }
    ok_step; [lia|]. apply result_bind_Ok. exists last. split.
    { apply check_events_iff; [done|unfold MAX_IDENTITY_LOG_PAGE_EVENTS in *; lia|by exists es]. }
    change MAX_SAFE_UINT with (2 ^ 53 - 1) in *.
    ok_step.
    { apply bind_Some. exists (len bs). split; apply checked_Some; (split; [reflexivity|]);
        unfold u64_max, MAX_IDENTITY_LOG_PAGE_EVENTS in *; lia. }
    ok_step; [intros []; lia|]. ok_step; [by apply pagination_iff|].
    ok_step.
    { intros (Ht%bool_decide_eq_true & Hne & Hl). apply Hl, Hb; [|done]. rewrite Hm.
      apply bool_decide_false. lia. }
    ok_step; [apply map_err_Ok; exact Henc|]. ok_step; [lia|]. done.
Qed.

(** ** The bytes of a page *)

(** The values of the Rust type. *)
Record page_valid (p : IdentityLogPageV1) : Prop := {
  pv_identity : PublicIds.valid p.(identity_id);
  pv_head : uint_valid p.(advertised_head_sequence);
  pv_hash : digest_valid p.(advertised_head_hash);
  pv_after : 0 ≤ p.(requested_after_sequence) ≤ MAX_SAFE_UINT;
  pv_next : 0 ≤ p.(next_after_sequence) ≤ MAX_SAFE_UINT;
  pv_events : Forall (Forall is_byte) p.(exact_events)
}.

Definition page_parts (p : IdentityLogPageV1) : list CanonicalValue :=
  [ Map [(Unsigned 1, Unsigned 1); (Unsigned 2, Unsigned 1)]; identity_value p.(identity_id);
    to_canonical_value p.(advertised_head_sequence); to_canonical_value p.(advertised_head_hash);
    Unsigned p.(requested_after_sequence); Array (Bytes <$> p.(exact_events));
    Unsigned p.(next_after_sequence); Bool p.(has_more) ].

Lemma page_value_parts p : to_canonical_value p = Map (number_from 1 (page_parts p)).
Proof. done. Qed.

Lemma safe_uint_range n : 0 ≤ n ≤ MAX_SAFE_UINT → 0 ≤ n ≤ u64_max.
Proof. change MAX_SAFE_UINT with (2 ^ 53 - 1). unfold u64_max. lia. Qed.

Lemma page_value_ok p : page_valid p → value_ok (to_canonical_value p).
Proof.
  intros [Hi Hh Hd Ha Hn He]. rewrite page_value_parts. constructor.
  pose proof (public_text_compact _ Hi) as [Hi' _]. pose proof (uint_compact _ Hh) as [Hh' _].
  pose proof (digest_compact _ Hd) as [Hd' _].
  assert (∀ n, 0 ≤ n ≤ u64_max → value_ok (Unsigned n)) as Hu by (by constructor).
  assert (∀ n, 0 ≤ n ≤ 8 → value_ok (Unsigned n)) as Hsmall
    by (intros n ?; apply Hu; unfold u64_max; lia).
  cbn [page_parts number_from].
  repeat apply Forall_cons_2; try apply Forall_nil_2; (split; [apply Hsmall; lia|]); cbn [snd].
  - constructor. repeat apply Forall_cons_2; try apply Forall_nil_2; split; apply Hsmall; cbn; lia.
  - exact Hi'.
  - exact Hh'.
  - exact Hd'.
  - by apply Hu, safe_uint_range.
  - constructor. apply Forall_fmap. eapply Forall_impl; [exact He|]. intros b Hb. by constructor.
  - by apply Hu, safe_uint_range.
  - constructor.
Qed.

Lemma page_stable p : stable (to_canonical_value p).
Proof.
  rewrite page_value_parts. apply stable_numbered; [done|]. unfold page_parts.
  repeat apply Forall_cons_2; try apply Forall_nil_2;
    try apply stable_unsigned; try apply stable_bytes; try apply stable_text; try apply stable_bool.
  - apply (stable_numbered [Unsigned 1; Unsigned 1]); [done|].
    repeat apply Forall_cons_2; try apply Forall_nil_2; apply stable_unsigned.
  - apply stable_array, Forall_fmap, Forall_forall. intros b _. apply stable_bytes.
Qed.

Definition event_sized (b : bytes) : Prop := b ≠ [] ∧ len b ≤ MAX_IDENTITY_LOG_PAGE_EVENT_BYTES.

Lemma page_events_Ok vs bs :
  Forall parsed_ok vs →
  collect page_decode_event_bytes vs = Ok bs ↔
  vs = Bytes <$> bs ∧ Forall event_sized bs ∧ Forall (Forall is_byte) bs.
Proof.
  intros Hvs. split.
  - revert bs. induction Hvs as [|v vs Hv _ IH]; intros bs; cbn [collect].
    { intros [= <-]. split_and!; [done|constructor|constructor]. }
    intros H. res_inv H. destruct v; try done. cbn in Hres. res_inv Hres. inversion Hv; subst.
    destruct (IH _ Hres0) as (-> & H1 & H2). cbn. split_and!; [done| |by constructor].
    constructor; [|done]. unfold event_sized. apply Decidable.not_or in Hres1 as [? ?].
    split; [done|lia].
  - intros (-> & H1 & _). induction H1 as [|b bs [Hne Hl] _ IH]; [done|]. cbn [fmap list_fmap collect].
    cbn [page_decode_event_bytes]. inversion_clear Hvs. unfold reject_if.
    rewrite decide_False by (intros [?|?]; [done|lia]). cbn [mbind result_bind]. by rewrite IH.
Qed.

Lemma page_decode_digest_iff : decodes page_decode_digest to_canonical_value digest_valid.
Proof.
  intros v d Hv. unfold page_decode_digest. split.
  - intros (b & Hb & [= <-])%result_bind_Ok. by apply exact_bytes_Ok in Hb as [? ->].
  - intros [[Hd Hl] ->]. destruct d as [b]. apply result_bind_Ok. exists b.
    by rewrite exact_bytes_Ok.
Qed.

Lemma page_decode_safe_uint_iff : decodes page_decode_safe_uint to_canonical_value uint_valid.
Proof.
  intros v d Hv. unfold page_decode_safe_uint, page_decode_unsigned. split.
  - intros (n & Hn & Hd)%result_bind_Ok. apply unsigned_Ok in Hn as [Hn ->]; [|done].
    apply map_err_Ok, SafeUint_new_Ok in Hd as [Hd <-]; [|lia]. done.
  - intros [Hd ->]. apply result_bind_Ok. exists d.(uint_get). split; [done|].
    apply map_err_Ok, SafeUint_new_Ok; [apply Hd|done].
Qed.

Lemma page_decode_identity_id_iff :
  decodes page_decode_identity_id identity_value PublicIds.valid.
Proof.
  intros v id Hv. unfold page_decode_identity_id. split.
  - destruct v; try done. intros Hs%map_err_Ok. apply PublicIds.from_str_Ok in Hs as [? <-]. done.
  - intros [Hid ->]. apply map_err_Ok. by apply PublicIds.from_str_to_string.
Qed.

Definition page_wire_value : CanonicalValue :=
  Map [(Unsigned 1, Unsigned 1); (Unsigned 2, Unsigned 1)].

Lemma decode_page_wire_iff v u : decode_page_wire v = Ok u ↔ v = page_wire_value.
Proof.
  destruct u. split; [|by intros ->].
  unfold decode_page_wire, page_exact_fields, page_field, page_decode_unsigned.
  intros (fields & Hf & H)%result_bind_Ok. apply exact_fields_Ok in Hf as (vs & Hl & -> & ->).
  destruct vs as [|v1 [|v2 [|]]]; try done. res_inv H. cbn in Hres0, Hres3.
  injection Hres0 as <-. injection Hres3 as <-. destruct v1, v2; try done.
  injection Hres as ->. injection Hres2 as ->. apply dec_stable in Hres1, H. by subst.
Qed.

Lemma decode_page_fields_sound b p :
  Forall is_byte b → decode_page_fields b = Ok p → page_valid p ∧ Forall event_sized p.(exact_events).
Proof.
  intros Hb H. unfold decode_page_fields in H.
  apply result_bind_Ok in H as (? & _ & H). apply result_bind_Ok in H as (v & Hv & H).
  apply map_err_Ok in Hv. apply decoded_parsed_ok in Hv; [|done].
  apply result_bind_Ok in H as (fields & Hf & H). unfold page_exact_fields in Hf.
  unfold page_field in H. split_fields Hf Hv. open_fields H.
  repeat match goal with
    | Hd : page_decode_identity_id _ = Ok _ |- _ =>
        apply page_decode_identity_id_iff in Hd as [? ->]; [|assumption]
    | Hd : page_decode_safe_uint _ = Ok _ |- _ =>
        apply page_decode_safe_uint_iff in Hd as [? ->]; [|assumption]
    | Hd : page_decode_digest _ = Ok _ |- _ =>
        apply page_decode_digest_iff in Hd as [? ->]; [|assumption]
    | Hd : match ?w with Array _ => _ | _ => _ end = Ok _ |- _ =>
        destruct w as [| | | |es| | |]; try discriminate Hd; injection Hd as <-
    end.
  match goal with Ha : parsed_ok (Array _) |- _ => inversion Ha as [| | | |? Hall| | |]; subst end.
  match goal with Hc : collect _ _ = Ok _ |- _ => apply page_events_Ok in Hc as (_ & Hs & Hby); [|done] end.
  by split; [split|].
Qed.

Lemma decode_page_fields_complete b p :
  page_valid p → Forall event_sized p.(exact_events) → b ≠ [] →
  len b ≤ MAX_IDENTITY_LOG_PAGE_BYTES → decode_deterministic_cbor b = Ok (to_canonical_value p) →
  decode_page_fields b = Ok p.
Proof.
  intros [Hi Hh Hd Ha Hn He] Hs Hne Hl Hdec. unfold decode_page_fields, page_field, page_exact_fields.
  ok_step; [intros [?|?]; [done|lia]|]. rewrite Hdec. cbn [map_err mbind result_bind].
  apply (bind_exact_fields _ (page_parts p)); [reflexivity|]. unfold page_parts. run_binds.
  rewrite (proj2 (decode_page_wire_iff _ tt)) by done. run_binds.
  assert (∀ n, uint_valid n → page_decode_safe_uint (to_canonical_value n) = Ok n) as Hu.
  { intros n Hn'. eapply decodes_encode; [apply page_decode_safe_uint_iff| |done].
    by eapply compact_parsed_ok, uint_compact. }
  rewrite (decodes_encode _ _ _ _ page_decode_identity_id_iff); [|by eapply compact_parsed_ok, public_text_compact|done].
  run_binds. rewrite Hu by done. run_binds.
  rewrite (decodes_encode _ _ _ _ page_decode_digest_iff); [|by eapply compact_parsed_ok, digest_compact|done].
  run_binds.
  change (Unsigned p.(requested_after_sequence)) with
    (to_canonical_value (MkSafeUint p.(requested_after_sequence))).
  rewrite Hu by done. run_binds.
  rewrite (proj2 (page_events_Ok (Bytes <$> p.(exact_events)) p.(exact_events) ltac:(
    apply Forall_fmap; eapply Forall_impl; [exact He|]; intros x Hx; by constructor))) by done.
  run_binds.
  change (Unsigned p.(next_after_sequence)) with
    (to_canonical_value (MkSafeUint p.(next_after_sequence))).
  rewrite Hu by done. run_binds. by destruct p.
Qed.

Lemma run_event_sized id after n prev bs es last :
  run id after n prev bs es last → Forall event_sized bs.
Proof. induction 1 as [|? ? ? ? ? ? ? ? [] _ IH]; by constructor. Qed.

Lemma page_bytes_iff b p :
  Forall is_byte b →
  decode_and_verify b = Ok p ↔
  page_valid p ∧ (∃ es last, page_ok p es last) ∧ to_deterministic_cbor p = Ok b.
Proof.
  intros Hb. unfold decode_and_verify. split.
  - intros (f & Hf & H)%result_bind_Ok. apply raising_Ok in Hf.
    destruct (decode_page_fields_sound _ _ Hb Hf) as [[Hi Hh Hd Ha Hn He] Hs].
    apply result_bind_Ok in H as (p' & Hp & H). apply page_new_iff in Hp as (-> & Hok & _); [|apply Ha|apply Hn|apply Hh].
    apply result_bind_Ok in H as (b' & Henc & H). apply raising_Ok in Henc.
    apply result_bind_Ok in H as (? & Heq & H). apply reject_if_Ok, dec_stable in Heq as ->.
    injection H as <-. by split.
  - intros (Hv & Hok & Henc). pose proof Hok as (es & last & Hpo).
    unfold to_deterministic_cbor in Henc. apply map_err_Ok in Henc.
    destruct (stable_roundtrip _ _ (page_value_ok p Hv) (page_stable p) Henc) as (Hdec & Hne & Hl).
    assert (len b ≤ MAX_IDENTITY_LOG_PAGE_BYTES) as Hl'.
    { unfold MAX_IDENTITY_LOG_PAGE_BYTES, MAX_ENCODED_BYTES in *. lia. }
    apply result_bind_Ok. exists p. split.
    { apply map_err_Ok. apply decode_page_fields_complete; [done| |done|done|done].
      by eapply run_event_sized, po_run. }
    apply result_bind_Ok. exists p. split.
    { apply page_new_iff; [apply Hv..|]. split; [done|]. split; [done|]. exists b.
      split; [|done]. unfold to_deterministic_cbor. by apply map_err_Ok. }
    apply result_bind_Ok. exists b. split.
    { apply map_err_Ok. by apply map_err_Ok. }
    unfold reject_if. by rewrite decide_False by (by intros []).
Qed.

(** Pages survive the wire exactly: [IdentityLogPageV1::decode_and_verify]
    accepts a byte string exactly when it is the deterministic encoding of a page
    whose events are a contiguous, linked run from its cursor, whose pagination
    fields say where the run ends, and whose advertised head is the last event
    when the page is final. *)
Theorem page_bytes_exact b p :
  Forall is_byte b →
  decode_and_verify b = Ok p ↔
  page_valid p ∧ (∃ es last, page_ok p es last) ∧ to_deterministic_cbor p = Ok b.
Proof. apply page_bytes_iff. Qed.

(** ** Panics *)

Lemma event_error_not_panicked {A} (r : result (Fault IdentityLogError) A) :
  r ≠ Err Panicked → event_error r ≠ Err Panicked.
Proof. destruct r as [|[]]; cbn; congruence. Qed.

Lemma check_event_not_panicked id after prev x : check_event id after prev x ≠ Err Panicked.
Proof.
  destruct x as [n b]. unfold check_event. apply bind_not_panicked; [apply reject_not_panicked|]. intros _ _.
  apply bind_not_panicked; [apply event_error_not_panicked, decode_not_panicked|].
  intros e He%event_error_Ok. assert (verify e = Ok tt) as Hv by (apply event_built_verified; right; eauto).
  apply bind_not_panicked; [apply reject_not_panicked|]. intros _ _.
  apply bind_not_panicked; [by destruct (checked _ _ _)|]. intros n' _.
  apply bind_not_panicked; [by destruct (u64_checked_add after n' ≫= _)|]. intros q _.
  apply bind_not_panicked; [apply reject_not_panicked|]. intros _ _.
  apply bind_not_panicked; [by destruct prev; apply reject_not_panicked|]. intros _ _.
  pose proof (event_error_not_panicked _ (entry_hash_not_panicked e Hv)) as Hh.
  destruct (event_error (entry_hash e)) as [|[]]; cbn; congruence.
Qed.

Lemma page_new_not_panicked id hs hh after bs next more : new id hs hh after bs next more ≠ Err Panicked.
Proof.
  unfold new. apply bind_not_panicked; [apply reject_not_panicked|]. intros _ _.
  apply bind_not_panicked; [apply reject_not_panicked|]. intros _ _.
  apply bind_not_panicked.
  { generalize (enumerate bs) (None : option Sha256Digest). intros l. induction l as [|x l IH]; intros prev; [done|].
    cbn [try_fold]. pose proof (check_event_not_panicked id after prev x) as Hc.
    destruct (check_event id after prev x) as [|[]]; [apply IH|done|congruence]. }
  intros last _. apply bind_not_panicked; [by destruct (checked 0 u64_max (len bs) ≫= _)|]. intros c _.
  apply bind_not_panicked; [apply reject_not_panicked|]. intros _ _. cbn zeta.
  apply bind_not_panicked; [apply reject_not_panicked|]. intros _ _.
  apply bind_not_panicked; [apply reject_not_panicked|]. intros _ _.
  apply bind_not_panicked; [apply raising_not_panicked|]. intros b _.
  apply bind_not_panicked; [apply reject_not_panicked|done].
Qed.

Lemma page_decode_not_panicked b : decode_and_verify b ≠ Err Panicked.
Proof.
  unfold decode_and_verify. apply bind_not_panicked; [apply raising_not_panicked|]. intros f _.
  apply bind_not_panicked; [apply page_new_not_panicked|]. intros p _.
  apply bind_not_panicked; [apply raising_not_panicked|]. intros b' _.
  apply bind_not_panicked; [apply reject_not_panicked|done].
Qed.

(** C40. The identity log does not panic, and admission is atomic.  The event encoding
    contains two [expect] calls.  Neither fires in the signing digest of an unsigned
    event that its constructor returned, in signing it, in the verification, the
    encoding and the entry hash of an event that was signed or decoded, in the decoder
    of events on any bytes, in [bootstrap], [import_v1_0] and [append] on any events and
    log, and in the constructor and the decoder of pages on any arguments; and an
    [append] that fails leaves the log as it was. *)
Theorem operations_never_panic u e :
  unsigned_built u → event_built e →
  signing_digest u ≠ Err Panicked ∧ (∀ s, IdentityLogEventV1_signed u s ≠ Err Panicked) ∧
  verify e ≠ Err Panicked ∧ IdentityLog.to_deterministic_cbor e ≠ Err Panicked ∧ entry_hash e ≠ Err Panicked ∧
  (∀ b, IdentityLog.decode_and_verify b ≠ Err Panicked) ∧
  (∀ e', bootstrap e' ≠ Err Panicked) ∧ (∀ es, import_v1_0 es ≠ Err Panicked) ∧
  (∀ e' l, (append e' l).1 ≠ Err Panicked ∧ ∀ x l', append e' l = (Err x, l') → l' = l) ∧
  (∀ id hs hh after bs next more, new id hs hh after bs next more ≠ Err Panicked) ∧
  (∀ b, decode_and_verify b ≠ Err Panicked).
Proof.
  intros Hu Hv%event_built_verified.
  split; [by apply signing_digest_not_panicked|]. split.
  { intros s. unfold IdentityLogEventV1_signed. apply bind_not_panicked; [apply verify_not_panicked|done]. }
  split; [apply verify_not_panicked|]. split; [by apply to_cbor_not_panicked|]. split; [by apply entry_hash_not_panicked|].
  split; [apply decode_not_panicked|]. split; [apply bootstrap_call_not_panicked|]. split; [apply import_not_panicked|].
  split; [intros e' l; split; [apply append_call_not_panicked|]; intros x l' Hx; exact (append_atomic _ _ _ _ Hx)|].
  split; [apply page_new_not_panicked|apply page_decode_not_panicked].
Qed.

(** ** Readers and servers *)

(** A reader that appends the events of a page to its own log. *)
Definition replay (l : IdentityLogV1) (es : list IdentityLogEventV1) :
    result (Fault IdentityLogError) IdentityLogV1 :=
  try_fold (λ l e, let '(r, l') := append e l in r;; Ok l') es l.

Lemma replay_cons l e es l' :
  replay l (e :: es) = Ok l' ↔ ∃ l1, append e l = (Ok tt, l1) ∧ replay l1 es = Ok l'.
Proof.
  unfold replay. cbn [try_fold]. destruct (append e l) as [[[]|x] l1]; cbn [mbind result_bind].
  - split; [eauto|]. by intros (l2 & [= <-] & H).
  - split; [done|]. by intros (l2 & [=] & _).
Qed.

Lemma replay_reached es0 l es l' :
  reached es0 l → replay l es = Ok l' → reached (es0 ++ es) l'.
Proof.
  revert es0 l. induction es as [|e es IH]; intros es0 l Hr H.
  - injection H as <-. by rewrite app_nil_r.
  - apply replay_cons in H as (l1 & Ha & H).
    rewrite (assoc_L (++) es0 [e] es : es0 ++ e :: es = _). eapply IH; [|done]. by econstructor.
Qed.

Lemma replay_run id after n prev bs es last l l' :
  run id after n prev bs es last → replay l es = Ok l' →
  l.(head_sequence).(uint_get) = after + Z.of_nat n →
  l'.(head_sequence).(uint_get) = after + Z.of_nat n + len bs ∧
  (bs ≠ [] → last = Some l'.(head_hash)).
Proof.
  intros Hrun. revert l. induction Hrun as [n prev|n prev b e h bs es last He Hrun IH]; intros l H Hs.
  - injection H as <-. unfold len. cbn. split; [lia|done].
  - apply replay_cons in H as (l1 & Ha & H).
    apply append_iff in Ha as [_ (h1 & next & [_ _ _ Hh1 _ _ _ _] & _ & ->)%append_projection_iff].
    destruct He as [_ _ _ _ Hseq _ Hh]. rewrite Hh in Hh1. injection Hh1 as <-.
    destruct (IH _ H) as [Hl Hlast].
    { cbn. rewrite Hseq. lia. }
    unfold len in *. cbn [length]. split; [lia|]. intros _.
    destruct bs as [|b' bs]; [|by apply Hlast]. inversion Hrun; subst. by injection H as <-.
Qed.

(** Replaying an accepted page leads where the page says: a reader whose log
    stands at the requested cursor and that can append the events of the page
    ends at the page's next cursor; and if the page is final and not empty, the
    reader's head is exactly the advertised head. *)
Theorem page_replay_reaches_head b p es0 l es l' :
  Forall is_byte b → decode_and_verify b = Ok p →
  reached es0 l → l.(head_sequence).(uint_get) = p.(requested_after_sequence) →
  Forall2 (λ b e, IdentityLog.decode_and_verify b = Ok e) p.(exact_events) es →
  replay l es = Ok l' →
  reached (es0 ++ es) l' ∧ l'.(head_sequence).(uint_get) = p.(next_after_sequence) ∧
  (p.(has_more) = false → p.(exact_events) ≠ [] →
     l'.(head_sequence).(uint_get) = p.(advertised_head_sequence).(uint_get) ∧
     l'.(head_hash) = p.(advertised_head_hash)).
Proof.
  intros Hb (_ & (es' & last & [_ _ _ Hrun Hn [Hw _] Hm _ Hbd]) & _)%page_bytes_iff Hr Hs Hd Hrep; [|done].
  assert (es = es') as <-.
  { clear -Hrun Hd. revert es Hd. induction Hrun as [|n prev b e h bs es' last [] _ IH]; intros es Hd;
      inversion Hd as [|? e0 ? es1 He0 Hd']; subst; [done|].
    f_equal; [congruence|]. by apply IH. }
  split; [by eapply replay_reached|].
  destruct (replay_run _ _ _ _ _ _ _ _ _ Hrun Hrep) as [Hl Hlast]; [by rewrite Hs, Z.add_0_r|].
  split; [rewrite Hl, Hn; lia|]. intros Hmf Hne. split.
  - rewrite Hm in Hmf. apply bool_decide_eq_false in Hmf. rewrite Hl, Z.add_0_r, <-Hn. lia.
  - specialize (Hbd Hmf Hne). rewrite (Hlast Hne) in Hbd. by injection Hbd as ->.
Qed.

(** ** Serving a log *)

Lemma decode_empty : decode_deterministic_cbor [] = Err UnexpectedEnd.
Proof. vm_compute. reflexivity. Qed.

Section serving.
Context {UL : UuidLaws} {SL : Sha256Laws}.
Context (es : list IdentityLogEventV1) (l : IdentityLogV1) (bs : list bytes).
Context (Hreached : reached es l) (Hvalid : Forall event_valid es).
Context (Hbytes : Forall2 (λ e b, IdentityLog.to_deterministic_cbor e = Ok b) es bs).

(** The page of at most [n] events after the cursor [a]. *)
Definition page_of (a n : nat) : IdentityLogPageV1 :=
  let next := Nat.min (a + n) (length es) in
  {| identity_id := l.(log_identity_id);
     advertised_head_sequence := l.(head_sequence);
     advertised_head_hash := l.(head_hash);
     requested_after_sequence := Z.of_nat a;
     exact_events := take n (drop a bs);
     next_after_sequence := Z.of_nat next;
     has_more := bool_decide (next < length es)%nat |}.

Lemma served_ok : log_ok es l.
Proof using Hreached. apply admitted_log_ok. by apply reached_admitted. Qed.

Lemma served_wire : l.(log_wire) = IDENTITY_LOG_WIRE_VERSION.
Proof using Hreached. by apply reached_admitted in Hreached as [_ ?]. Qed.

(** What [prev] must be before position [n] of the page. *)
Definition before_is (a n : nat) (prev : option Sha256Digest) : Prop :=
  match n with
  | O => prev = None
  | S m => ∃ e h, es !! (a + m)%nat = Some e ∧ entry_hash e = Ok h ∧ prev = Some h
  end.

Lemma served_event_at a n prev e b :
  es !! (a + n)%nat = Some e → bs !! (a + n)%nat = Some b → before_is a n prev →
  ∃ h, event_at l.(log_identity_id) (Z.of_nat a) n prev b e h.
Proof using All.
  intros He Hb Hprev. pose proof served_ok as [_ _ Hc Hev _ _ _ _ _ _ _].
  destruct (Hev e) as (Hver & Hid & Hw); [by apply list_elem_of_lookup; eexists|].
  destruct (Hc _ _ He) as [Hs Hp].
  pose proof (Forall_lookup_1 _ _ _ _ Hvalid He) as Hv.
  pose proof (Forall2_lookup_lr _ _ _ _ _ _ Hbytes He Hb) as Henc.
  destruct (event_encodes e Hv) as (b' & Hb' & Hl & Hdec & Hh).
  rewrite Henc in Hb'. injection Hb' as <-. eexists. split.
  - split; [|unfold MAX_IDENTITY_LOG_PAGE_EVENT_BYTES; lia]. intros ->. rewrite decode_empty in Hdec. discriminate Hdec.
  - by apply decode_and_verify_complete.
  - done.
  - rewrite Hw. apply served_wire.
  - rewrite Hs. lia.
  - unfold links. destruct n as [|m]; cbn in Hprev.
    + subst. intros Ha. replace (a + 0)%nat with 0%nat in Hp by lia. done.
    + destruct Hprev as (e1 & h & He1 & Hh1 & ->). rewrite Nat.add_succ_r in Hp.
      destruct Hp as (e2 & h2 & He2 & Hh2 & ->). congruence.
  - exact Hh.
Qed.

Lemma served_run a m n prev :
  before_is a n prev →
  ∃ last, run l.(log_identity_id) (Z.of_nat a) n prev (take m (drop (a + n) bs))
            (take m (drop (a + n) es)) last ∧
    (take m (drop (a + n) bs) ≠ [] →
     ∃ e h, es !! (Nat.min (a + n + m) (length es) - 1)%nat = Some e ∧ entry_hash e = Ok h ∧
       last = Some h).
Proof using All.
  pose proof (Forall2_length _ _ _ Hbytes) as Hlen.
  revert n prev. induction m as [|m IH]; intros n prev Hprev.
  { exists prev. rewrite !take_0. split; [constructor|done]. }
  destruct (decide (a + n < length es)%nat) as [Hlt|Hge].
  2: { exists prev. rewrite !drop_ge by lia. split; [constructor|done]. }
  destruct (lookup_lt_is_Some_2 es (a + n) Hlt) as [e He].
  destruct (lookup_lt_is_Some_2 bs (a + n) ltac:(lia)) as [b Hb].
  destruct (served_event_at a n prev e b He Hb Hprev) as [h Hat].
  destruct (IH (S n) (Some h)) as (last & Hrun & Hlast).
  { cbn. exists e, h. by destruct Hat. }
  exists last. rewrite (drop_S es e (a + n) He), (drop_S bs b (a + n) Hb). cbn [take].
  rewrite Nat.add_succ_r in Hrun, Hlast. split; [by econstructor|]. intros _.
  replace (a + n + S m)%nat with (S (a + n) + m)%nat by lia.
  destruct (decide (take m (drop (S (a + n)) bs) = [])) as [Hnil|Hne]; [|by apply Hlast].
  rewrite Hnil in Hrun. inversion Hrun as [? ? Hes|]; subst.
  exists e, h. split; [|by destruct Hat].
  assert (m = 0 ∨ length es = S (a + n))%nat as Hcase.
  { apply (f_equal length) in Hnil. rewrite length_take, length_drop in Hnil. cbn in Hnil. lia. }
  rewrite <-He. f_equal. lia.
Qed.

Lemma served_head : digest_valid l.(head_hash) ∧ uint_valid l.(head_sequence) ∧
  PublicIds.valid l.(log_identity_id).
Proof using All.
  pose proof served_ok as [Hlen (e & Hlast & Hh) Hc Hev _ _ _ _ _ _ _].
  assert (e ∈ es) as Hin by (by apply last_Some_elem_of).
  destruct (Hev e Hin) as (_ & Hid & _).
  rewrite Forall_forall in Hvalid. pose proof (Hvalid e Hin) as Hv.
  destruct (event_encodes e Hv) as (b & _ & _ & _ & Hhb). rewrite Hh in Hhb. injection Hhb as ->.
  destruct Hv as (line & _ & _ & Hpid & Hs & _). split_and!.
  - split; [apply sha256_bytes|apply sha256_length].
  - rewrite last_lookup in Hlast. destruct (Hc _ _ Hlast) as [Hseq _].
    unfold uint_valid in *. rewrite Hlen. unfold len.
    apply lookup_lt_Some in Hlast. lia.
  - by rewrite <-Hid.
Qed.

Lemma served_slice_bytes a n :
  Forall (Forall is_byte) (take n (drop a bs)) ∧ Forall (λ b, len b ≤ 4867) (take n (drop a bs)).
Proof using All.
  assert (∀ b, b ∈ bs → Forall is_byte b ∧ len b ≤ 4867) as Hall.
  { intros b [i Hi]%list_elem_of_lookup. destruct (Forall2_lookup_r _ _ _ _ _ Hbytes Hi) as (e & He & Henc).
    pose proof (Forall_lookup_1 _ _ _ _ Hvalid He) as Hv. split; [by eapply event_is_bytes|].
    destruct (event_encodes e Hv) as (b' & Hb' & Hl & _). rewrite Henc in Hb'. by injection Hb' as <-. }
  split; apply Forall_take, Forall_drop, Forall_forall; intros b Hb; by apply Hall.
Qed.

Lemma served_page_encodes a n :
  (n ≤ 64)%nat → (a ≤ length es)%nat →
  page_valid (page_of a n) ∧ ∃ b, to_deterministic_cbor (page_of a n) = Ok b.
Proof using All.
  intros Hn Ha. destruct served_head as (Hd & Hu & Hi). destruct (served_slice_bytes a n) as [Hby Hsz].
  pose proof (lo_length _ _ served_ok) as Hlen.
  assert (∀ m, (m ≤ length es)%nat → 0 ≤ Z.of_nat m ≤ MAX_SAFE_UINT) as Hm.
  { unfold uint_valid, len in *. lia. }
  assert (page_valid (page_of a n)) as Hv.
  { split; cbn [page_of identity_id advertised_head_sequence advertised_head_hash
      requested_after_sequence next_after_sequence exact_events]; try done; apply Hm; lia. }
  split; [done|]. assert (∀ m, (m ≤ length es)%nat → compact 1 73 1 (Unsigned (Z.of_nat m))) as Hc.
  { intros m Hml. eapply compact_weaken, compact_unsigned; [lia|lia|lia|]. by apply safe_uint_range, Hm. }
  assert (compact 2 312073 65 (Array (Bytes <$> take n (drop a bs)))) as Harr.
  { apply (compact_array 1 4876 1 64); [lia|lia| |by vm_compute|].
    - unfold len. rewrite length_fmap, length_take. lia.
    - apply Forall_fmap, Forall_forall. intros b Hb. rewrite Forall_forall in Hby, Hsz.
      apply (compact_bytes b 4867); [by apply Hby|by apply Hsz]. }
  destruct (compact_encodes 3 312625 100 (to_canonical_value (page_of a n))) as (b & Hb & _).
  - rewrite page_value_parts. eapply compact_weaken, (compact_sized 1
      [(21, 5); (73, 1); (73, 1); (73, 1); (73, 1); (312073, 65); (73, 1); (73, 1)]);
      [lia|cbn; lia|cbn; lia|done|].
    pose proof (version_compact (ProtocolVersion_new 1 1) ltac:(by repeat split)).
    assert (∀ x, compact 1 73 1 (Bool x)) as Hbool.
    { intros x. apply compact_leaf; [constructor|]. intros levels. destruct x; by eexists. }
    unfold page_parts, identity_value. cbn [page_of identity_id advertised_head_sequence
      advertised_head_hash requested_after_sequence next_after_sequence exact_events has_more].
    repeat apply Forall2_cons_2; try apply Forall2_nil_2; cbn [fst snd].
    1: eapply compact_weaken; [ | | |exact H]; lia.
    all: eapply compact_weaken; [ | | |solve [eauto with compact | apply Hc; lia | apply Hbool]]; lia.
  - unfold MAX_DEPTH. lia.
  - unfold MAX_ENCODED_BYTES. lia.
  - unfold MAX_TOTAL_ITEMS. lia.
  - exists b. unfold to_deterministic_cbor. by apply map_err_Ok.
Qed.

Lemma page_of_ok a n :
  (1 ≤ n ≤ 64)%nat → (a ≤ length es)%nat →
  ∃ last, page_ok (page_of a n) (take n (drop a es)) last.
Proof using All.
  intros Hn Ha. destruct served_head as (_ & Hu & _). pose proof served_ok as Hok.
  pose proof (lo_length _ _ Hok) as Hl. pose proof (Forall2_length _ _ _ Hbytes) as Hlen.
  destruct (served_run a n 0 None eq_refl) as (last & Hrun & Hlast). rewrite Nat.add_0_r in *.
  assert (len (take n (drop a bs)) = Z.of_nat (Nat.min (a + n) (length es)) - Z.of_nat a) as Hcount.
  { unfold len. rewrite length_take, length_drop. lia. }
  unfold uint_valid, len in *.
  assert (1 ≤ length es)%nat as Hpos.
  { destruct (lo_head _ _ Hok) as (e & He & _). destruct es; [done|]. cbn. lia. }
  exists last. split; cbn [page_of identity_id advertised_head_sequence advertised_head_hash
    requested_after_sequence next_after_sequence exact_events has_more]; try lia.
  - unfold len, MAX_IDENTITY_LOG_PAGE_EVENTS. rewrite length_take. lia.
  - exact Hrun.
  - unfold len. lia.
  - rewrite Hl. apply bool_decide_ext. lia.
  - intros Hm%bool_decide_eq_true Hnil. apply (f_equal length) in Hnil. cbn in Hnil. lia.
  - intros Hm%bool_decide_eq_false Hne. destruct (Hlast Hne) as (e & h & He & Hh & ->).
    destruct (lo_head _ _ Hok) as (e' & He' & Hh'). rewrite last_lookup in He'.
    replace (Nat.min (a + n) (length es) - 1)%nat with (Nat.pred (length es)) in He by lia.
    congruence.
Qed.

Lemma replay_app l0 xs ys l1 :
  replay l0 (xs ++ ys) = Ok l1 → ∃ m, replay l0 xs = Ok m ∧ replay m ys = Ok l1.
Proof.
  unfold replay. rewrite try_fold_app. destruct (try_fold _ xs l0) as [m|]; [|done]. eauto.
Qed.

(** A log at a prefix of the history reaches every later log of that history. *)
Lemma prefix_replay fs f a la :
  reached fs f → (1 ≤ a)%nat → reached (take a fs) la → replay la (drop a fs) = Ok f.
Proof using UL.
  intros Hf Ha. induction Hf as [g f Hg|fs f e f' Hf IH He|fs f e x f' Hf IH He]; intros Hp.
  - rewrite take_ge in Hp by done. rewrite drop_ge by done. unfold replay; cbn. f_equal.
    apply reached_admitted in Hp as [Hp _]. eapply admitted_det; [done|].
    apply reached_admitted. by constructor.
  - destruct (decide (a ≤ length fs)%nat) as [Hle|Hgt].
    + rewrite take_app_le in Hp by done. rewrite drop_app_le by done. specialize (IH Hp).
      unfold replay in *. rewrite try_fold_app, IH. cbn. by rewrite He.
    + rewrite take_ge in Hp by (rewrite length_app; cbn; lia).
      rewrite drop_ge by (rewrite length_app; cbn; lia). unfold replay; cbn. f_equal.
      apply reached_admitted in Hp as [Hp _]. eapply admitted_det; [done|].
      apply reached_admitted. by econstructor.
  - apply append_atomic in He as ->. by apply IH.
Qed.

(** The page is one that the constructor returns and the decoder accepts. *)
Lemma served_page_new a n :
  (1 ≤ n ≤ 64)%nat → (a ≤ length es)%nat →
  let p := page_of a n in
  new p.(identity_id) p.(advertised_head_sequence) p.(advertised_head_hash) p.(requested_after_sequence)
    p.(exact_events) p.(next_after_sequence) p.(has_more) = Ok p ∧
  ∃ b, to_deterministic_cbor p = Ok b ∧ decode_and_verify b = Ok p.
Proof using All.
  intros Hn Ha p. destruct (served_page_encodes a n) as [Hv [b Hb]]; [lia|lia|].
  destruct (page_of_ok a n) as [last Hok]; [done|lia|]. fold p in Hv, Hb, Hok.
  pose proof Hb as Henc. unfold to_deterministic_cbor in Henc. apply map_err_Ok in Henc.
  destruct (stable_roundtrip _ _ (page_value_ok p Hv) (page_stable p) Henc) as (_ & _ & Hl). split.
  - apply page_new_iff; [apply Hv..|]. split; [done|]. split; [eauto|]. exists b. split; [done|].
    unfold MAX_IDENTITY_LOG_PAGE_BYTES, MAX_ENCODED_BYTES in *. lia.
  - exists b. split; [done|]. apply page_bytes_iff; [|eauto].
    eapply encoded_is_bytes; [|done]. by apply page_value_ok.
Qed.

Lemma served_page_decodes a n :
  (a ≤ length es)%nat →
  Forall2 (λ b e, IdentityLog.decode_and_verify b = Ok e) (exact_events (page_of a n)) (take n (drop a es)).
Proof using All.
  intros Ha. destruct (served_run a n 0 None eq_refl) as (last & Hrun & _). rewrite Nat.add_0_r in Hrun.
  cbn [page_of exact_events]. clear -Hrun. induction Hrun as [|? ? ? ? ? ? ? ? [] _ IH]; by constructor.
Qed.
End serving.
End page_props.
