(* ===== verification/IdentityLogRead.v ===== *)
(** * Identity log: reading a page from the store

    Models [IdentityLogRepository::read_page] of
    [crates/dtx-identity-persistence/src/repository_impl.rs] and the row decoders of
    [repository_reads.rs]: the stored head and the rows around the cursor are decoded
    and verified again before a page is built from them.

    The two tables are what one transaction sees of them, indexed by their primary keys;
    a query of the source is the corresponding lookup.  Errors of the database itself
    are not modelled.

    The second part shows that a log whose rows are in the tables is served page by page
    from any cursor, and that a reader that follows the pages holds the same history. *)

From S2P Require Import Prelude Domain CanonicalCbor CborSpec CborEncode CborDecode CborFields WirePrimitives WireValues.
From S2P Require Import IdentityLog IdentityLogCodec IdentityLogProjection IdentityLogInv IdentityLogProps.
From S2P Require Import IdentityLogPages IdentityLogPageProps.

Module PageRead.
(** The errors that this code returns. *)
Inductive IdentityPersistenceError : Type :=
| InvalidCommand (what : string)
| IdentityLogFailed (e : IdentityLogError)
| CorruptData (what : string).

Local Notation Res := (result (Fault IdentityPersistenceError)).
Definition corrupt (what : string) : Fault IdentityPersistenceError := Raised (CorruptData what).

(** [?] on a result of the identity log *)
Definition from_log {A} (r : result (Fault IdentityLogError) A) : Res A :=
  map_err (λ x, match x with Raised e => Raised (IdentityLogFailed e) | Panicked => Panicked end) r.

(** ** Tables *)

Inductive LogState : Type := Active | Tombstoned | Forked.
Global Instance LogState_eq_dec : EqDecision LogState.
Proof. solve_decision. Defined.

Definition LogState_parse (value : bytes) : Res LogState :=
  if decide (value = str "active") then Ok Active
  else if decide (value = str "tombstoned") then Ok Tombstoned
  else if decide (value = str "forked") then Ok Forked
  else Err (corrupt "identity log state").

(** The four nullable [smallint] columns of a wire version. *)
Record WireColumns : Type := {
  protocol_major : option Z;
  protocol_minor : option Z;
  minimum_reader_major : option Z;
  minimum_reader_minor : option Z
}.
Record HeadRow : Type := {
  hr_wire : WireColumns;
  hr_head_sequence : Z;
  hr_head_hash : bytes;
  hr_state : bytes
}.
(** A row without its key. *)
Record EntryRow : Type := {
  er_entry_hash : bytes;
  er_previous_hash : option bytes;
  er_wire : WireColumns;
  er_event_bytes : bytes
}.
Record Tables : Type := {
  log_heads : IdentityId → option HeadRow;
  log_entries : IdentityId → Z → option EntryRow
}.

Record IdentityLogHead : Type := {
  lh_identity_id : IdentityId;
  lh_wire : WireVersion;
  lh_sequence : SafeUint;
  lh_hash : Sha256Digest
}.
Record StoredHead : Type := { head : IdentityLogHead; state : LogState }.
Record DecodedEntry : Type := { de_event : IdentityLogEventV1; de_exact_bytes : bytes; de_entry_hash : Sha256Digest }.

Inductive IdentityLogPageReadOutcome : Type :=
| PageOutcome (page : Page.IdentityLogPageV1)
| NotFound
| Inactive
| CursorAhead.

(** ** Columns *)

Definition safe_uint (value : Z) (label : string) : Res SafeUint :=
  value ← ok_or (checked 0 u64_max value) (corrupt label);
  map_err (λ _, corrupt label) (SafeUint_new value).

Definition digest (value : bytes) (label : string) : Res Sha256Digest :=
  reject (corrupt label) when (length value ≠ 32%nat);;
  Ok (from_bytes value).

Definition to_i64 (value : SafeUint) : Res Z :=
  ok_or (checked i64_min i64_max value.(uint_get)) (corrupt "identity safe sequence").

Definition parse_column (value : option Z) (label : string) : Res Z :=
  value ← ok_or value (corrupt label);
  ok_or (checked 0 u16_max value) (corrupt label).

Definition parse_wire (w : WireColumns) : Res WireVersion :=
  protocol_major ← parse_column w.(protocol_major) "identity wire protocol major";
  protocol_minor ← parse_column w.(protocol_minor) "identity wire protocol minor";
  minimum_reader_major ← parse_column w.(minimum_reader_major) "identity wire minimum reader major";
  minimum_reader_minor ← parse_column w.(minimum_reader_minor) "identity wire minimum reader minor";
  let wire := WireVersion_new (ProtocolVersion_new protocol_major protocol_minor)
                (ProtocolVersion_new minimum_reader_major minimum_reader_minor) in
  reject (corrupt "identity wire version") when (wire ≠ IDENTITY_LOG_WIRE_VERSION);;
  Ok wire.

(** [i16::try_from(..).expect(..)] for the four columns *)
Definition wire_columns (wire : WireVersion) : Res WireColumns :=
  let column z := expect (checked (-2 ^ 15) (2 ^ 15 - 1) z) in
  protocol_major ← column wire.(protocol).(major);
  protocol_minor ← column wire.(protocol).(minor);
  minimum_reader_major ← column wire.(minimum_reader).(major);
  minimum_reader_minor ← column wire.(minimum_reader).(minor);
  Ok {| protocol_major := Some protocol_major; protocol_minor := Some protocol_minor;
        minimum_reader_major := Some minimum_reader_major; minimum_reader_minor := Some minimum_reader_minor |}.

Section read.
Context `{UuidCrate, Ed25519, Sha256}.

(** ** The rows that are written *)

(** [insert_head]; [append_event] later updates the sequence and the hash. *)
Definition head_row (h : IdentityLogHead) : Res HeadRow :=
  wire ← wire_columns h.(lh_wire);
  sequence ← to_i64 h.(lh_sequence);
  Ok {| hr_wire := wire; hr_head_sequence := sequence; hr_head_hash := as_bytes h.(lh_hash); hr_state := str "active" |}.

(** [insert_entry]: the key and the other columns *)
Definition entry_row (event : IdentityLogEventV1) (exact_event_bytes : bytes) : Res (Z * EntryRow) :=
  entry_hash ← from_log (entry_hash event);
  sequence ← to_i64 (ev_sequence event);
  wire ← wire_columns (ev_wire event);
  Ok (sequence, {| er_entry_hash := as_bytes entry_hash; er_previous_hash := as_bytes <$> ev_previous_event_hash event;
                   er_wire := wire; er_event_bytes := exact_event_bytes |}).

(** [head_from_projection] *)
Definition head_from_projection (l : IdentityLogV1) : IdentityLogHead :=
  {| lh_identity_id := l.(log_identity_id); lh_wire := l.(log_wire); lh_sequence := l.(head_sequence);
     lh_hash := l.(head_hash) |}.

(** ** The rows that are read *)

Definition load_stored_head (t : Tables) (id : IdentityId) : Res (option StoredHead) :=
  match t.(log_heads) id with
  | None => Ok None
  | Some row =>
      wire ← parse_wire row.(hr_wire);
      sequence ← safe_uint row.(hr_head_sequence) "head sequence";
      hash ← digest row.(hr_head_hash) "head hash";
      state ← LogState_parse row.(hr_state);
      Ok (Some {| head := {| lh_identity_id := id; lh_wire := wire; lh_sequence := sequence; lh_hash := hash |};
                  state := state |})
  end.

Definition decode_entry_row (row : Z * EntryRow) (expected_identity_id : IdentityId) : Res DecodedEntry :=
  sequence ← safe_uint row.1 "entry sequence";
  stored_hash ← digest row.2.(er_entry_hash) "entry hash";
  stored_previous ← match row.2.(er_previous_hash) with
                    | Some value => Some <$> digest value "entry previous hash"
                    | None => Ok None
                    end;
  wire ← parse_wire row.2.(er_wire);
  event ← from_log (decode_and_verify row.2.(er_event_bytes));
  reject (corrupt "identity log entry projection")
    when (ev_identity_id event ≠ expected_identity_id ∨ ev_wire event ≠ wire ∨ ev_sequence event ≠ sequence
          ∨ ev_previous_event_hash event ≠ stored_previous);;
  hash ← from_log (entry_hash event);
  reject (corrupt "identity log entry projection") when (hash ≠ stored_hash);;
  encoded ← from_log (to_deterministic_cbor event);
  reject (corrupt "identity log entry projection") when (encoded ≠ row.2.(er_event_bytes));;
  Ok {| de_event := event; de_exact_bytes := row.2.(er_event_bytes); de_entry_hash := stored_hash |}.

Definition load_entry_by_sequence (t : Tables) (id : IdentityId) (sequence : SafeUint) : Res (option DecodedEntry) :=
  key ← to_i64 sequence;
  match t.(log_entries) id key with
  | Some row => Some <$> decode_entry_row (key, row) id
  | None => Ok None
  end.

(** [SELECT .. WHERE sequence > after AND sequence <= head ORDER BY sequence LIMIT limit] *)
Definition select_range (t : Tables) (id : IdentityId) (after head limit : Z) : list (Z * EntryRow) :=
  take (Z.to_nat limit) (omap (λ key, (λ row, (key, row)) <$> t.(log_entries) id key) (seqZ (after + 1) (head - after))).

(** The loop over the rows: the hash of the entry before, the exact events so far and the
    last page that could be built from them. *)
Fixpoint read_rows (id : IdentityId) (stored : IdentityLogHead) (after : Z) (rows : list (Z * EntryRow))
    (previous_entry_hash : option Sha256Digest) (exact_events : list bytes) (page : option Page.IdentityLogPageV1) :
    Res (option Page.IdentityLogPageV1) :=
  match rows with
  | [] => Ok page
  | row :: rows =>
      entry ← decode_entry_row row id;
      match previous_entry_hash with
      | Some expected =>
          reject (corrupt "identity log page predecessor link")
            when (ev_previous_event_hash entry.(de_event) ≠ Some expected)
      | None => Ok tt
      end;;
      let exact_events := exact_events ++ [entry.(de_exact_bytes)] in
      count ← ok_or (checked 0 u64_max (len exact_events)) (corrupt "identity log page event count");
      next_after_sequence ← ok_or (u64_checked_add after count) (corrupt "identity log page next cursor");
      let has_more := bool_decide (next_after_sequence < stored.(lh_sequence).(uint_get)) in
      match Page.new id stored.(lh_sequence) stored.(lh_hash) after exact_events next_after_sequence has_more with
      | Ok candidate => read_rows id stored after rows (Some entry.(de_entry_hash)) exact_events (Some candidate)
      | Err (Raised Page.PageTooLarge) => Ok page
      | Err (Raised _) => Err (corrupt "identity log page projection")
      | Err Panicked => Err Panicked
      end
  end.

(** the body of the transaction, once the head is known to be active *)
Definition read_active_page (t : Tables) (id : IdentityId) (after limit : Z) (stored : IdentityLogHead) :
    Res IdentityLogPageReadOutcome :=
  found ← load_entry_by_sequence t id stored.(lh_sequence);
  stored_head_entry ← ok_or found (corrupt "identity log page head entry");
  reject (corrupt "identity log page head hash") when (stored_head_entry.(de_entry_hash) ≠ stored.(lh_hash));;
  previous_entry_hash ←
    (if decide (after = 0) then Ok None
     else if decide (after = stored.(lh_sequence).(uint_get)) then Ok (Some stored_head_entry.(de_entry_hash))
     else
       cursor ← map_err (λ _, Raised (InvalidCommand "identity log page cursor")) (SafeUint_new after);
       found ← load_entry_by_sequence t id cursor;
       predecessor ← ok_or found (corrupt "identity log page predecessor entry");
       Ok (Some predecessor.(de_entry_hash)));
  cursor ← map_err (λ _, Raised (InvalidCommand "identity log page cursor")) (SafeUint_new after);
  low ← to_i64 cursor;
  high ← to_i64 stored.(lh_sequence);
  bound ← ok_or (checked i64_min i64_max limit) (Raised (InvalidCommand "identity log page limit"));
  let rows := select_range t id low high bound in
  reject (corrupt "identity log page entries") when (rows = [] ∧ after < stored.(lh_sequence).(uint_get));;
  page ← read_rows id stored after rows previous_entry_hash [] None;
  page ← match page with
         | Some page => Ok page
         | None =>
             if decide (after = stored.(lh_sequence).(uint_get)) then
               match Page.new id stored.(lh_sequence) stored.(lh_hash) after [] after false with
               | Ok page => Ok page
               | Err (Raised _) => Err (corrupt "identity log empty page")
               | Err Panicked => Err Panicked
               end
             else Err (corrupt "identity log page size")
         end;
  Ok (PageOutcome page).

Definition read_page (t : Tables) (id : IdentityId) (after limit : Z) : Res IdentityLogPageReadOutcome :=
  reject (Raised (InvalidCommand "identity log page range"))
    when (Page.unsafe_uint after = true ∨ limit = 0 ∨ limit > Page.MAX_IDENTITY_LOG_PAGE_EVENTS);;
  found ← load_stored_head t id;
  match found with
  | None => Ok NotFound
  | Some stored =>
      if decide (stored.(state) ≠ Active) then Ok Inactive
      else if decide (after > stored.(head).(lh_sequence).(uint_get)) then Ok CursorAhead
      else read_active_page t id after limit stored.(head)
  end.
End read.
End PageRead.

Import PageRead.

#[local] Opaque encode_deterministic_cbor decode_deterministic_cbor.

Section read_props.
Context `{Uuid : UuidCrate, Ed : Ed25519, Sha : Sha256}.
Context {UL : UuidLaws} {SL : Sha256Laws}.

(** ** Columns survive the tables *)

Lemma safe_uint_Ok n label : uint_valid n → safe_uint n.(uint_get) label = Ok n.
Proof.
  intros Hn. pose proof (safe_uint_range _ Hn). unfold safe_uint. ok_step; [apply checked_Some; split; [reflexivity|lia]|].
  apply map_err_Ok, SafeUint_new_Ok; [apply Hn|done].
Qed.

Lemma digest_Ok d label : digest_valid d → digest (as_bytes d) label = Ok d.
Proof. intros [_ Hl]. unfold digest. ok_step; [by intros []|]. by destruct d. Qed.

Lemma to_i64_Ok n : uint_valid n → to_i64 n = Ok n.(uint_get).
Proof.
  intros Hn. unfold to_i64. apply ok_or_Ok, checked_Some. split; [done|].
  unfold uint_valid in Hn. change MAX_SAFE_UINT with (2 ^ 53 - 1) in Hn. unfold i64_min, i64_max. lia.
Qed.

Lemma current_wire_columns :
  ∃ c, wire_columns IDENTITY_LOG_WIRE_VERSION = Ok c ∧ parse_wire c = Ok IDENTITY_LOG_WIRE_VERSION.
Proof. eexists. split; [by vm_compute|by vm_compute]. Qed.

(** ** A stored log *)

(** The tables hold the rows that the writers produce for the head of the log and for
    each of its events with its exact bytes. *)
Definition stored (t : Tables) (es : list IdentityLogEventV1) (l : IdentityLogV1) (bs : list bytes) : Prop :=
  (∃ row, head_row (head_from_projection l) = Ok row ∧ t.(log_heads) l.(log_identity_id) = Some row) ∧
  Forall2 (λ e b, ∃ key row, entry_row e b = Ok (key, row) ∧ t.(log_entries) l.(log_identity_id) key = Some row) es bs.

Section serving.
Context (es : list IdentityLogEventV1) (l : IdentityLogV1) (bs : list bytes) (t : Tables).
Context (Hreached : reached es l) (Hvalid : Forall event_valid es).
Context (Hbytes : Forall2 (λ e b, to_deterministic_cbor e = Ok b) es bs).
Context (Hstored : stored t es l bs).

Local Notation id := l.(log_identity_id).
Local Notation page_of := (page_of es l bs).

Lemma stored_head :
  load_stored_head t id = Ok (Some {| PageRead.head := head_from_projection l; state := Active |}).
Proof using All.
  destruct Hstored as [(row & Hrow & Ht) _]. pose proof (served_wire es l Hreached) as Hw.
  destruct (served_head es l bs Hreached Hvalid Hbytes) as (Hd & Hu & _).
  destruct current_wire_columns as (c & Hc & Hp). unfold head_row, head_from_projection in Hrow.
  cbn [lh_wire lh_sequence lh_hash] in Hrow. rewrite Hw, Hc in Hrow.
  cbn [mbind result_bind] in Hrow. rewrite to_i64_Ok in Hrow by done. injection Hrow as <-.
  unfold load_stored_head. rewrite Ht. cbn [hr_wire hr_head_sequence hr_head_hash hr_state]. rewrite Hp. cbn [mbind result_bind].
  rewrite safe_uint_Ok by done. cbn [mbind result_bind]. rewrite digest_Ok by done. cbn [mbind result_bind].
  unfold LogState_parse. rewrite decide_True by done. unfold head_from_projection. by rewrite Hw.
Qed.

Lemma entry_decodes i e b :
  es !! i = Some e → bs !! i = Some b →
  ∃ row h, t.(log_entries) id (Z.of_nat i + 1) = Some row ∧ entry_hash e = Ok h ∧
    decode_entry_row (Z.of_nat i + 1, row) id = Ok {| de_event := e; de_exact_bytes := b; de_entry_hash := h |}.
Proof using All.
  intros He Hb. pose proof (served_ok es l Hreached) as Hok.
  destruct (lo_events _ _ Hok e) as (Hver & Hid & Hw); [by eapply list_elem_of_lookup_2|].
  destruct (lo_chain _ _ Hok _ _ He) as [Hs _].
  pose proof (Forall_lookup_1 _ _ _ _ Hvalid He) as Hv.
  pose proof (Forall2_lookup_lr _ _ _ _ _ _ Hbytes He Hb) as Henc.
  destruct (event_encodes e Hv) as (b' & Hb' & _ & _ & Hh).
  pose proof Hv as (_ & _ & _ & _ & Hu & Hprev & _).
  destruct (Forall2_lookup_lr _ _ _ _ _ _ (proj2 Hstored) He Hb) as (key & row & Hrow & Ht).
  destruct current_wire_columns as (c & Hc & Hp). pose proof (served_wire es l Hreached) as Hwl.
  unfold entry_row in Hrow. rewrite Hh in Hrow. cbn [from_log map_err mbind result_bind] in Hrow.
  rewrite to_i64_Ok in Hrow by done. cbn [mbind result_bind] in Hrow. rewrite Hw, Hwl, Hc in Hrow. injection Hrow as <- <-.
  rewrite Hs in Ht. exists {| er_entry_hash := as_bytes (hash_domain sha256 IDENTITY_LOG_ENTRY_HASH_DOMAIN b');
    er_previous_hash := as_bytes <$> ev_previous_event_hash e; er_wire := c; er_event_bytes := b |},
    (hash_domain sha256 IDENTITY_LOG_ENTRY_HASH_DOMAIN b').
  split; [exact Ht|]. split; [exact Hh|].
  unfold decode_entry_row. cbn [fst snd er_entry_hash er_previous_hash er_wire er_event_bytes].
  rewrite <-Hs at 1. rewrite safe_uint_Ok by exact Hu. cbn [mbind result_bind].
  rewrite digest_Ok by (split; [apply sha256_bytes|apply sha256_length]). cbn [mbind result_bind].
  assert (match as_bytes <$> ev_previous_event_hash e with
          | Some value => Some <$> digest value "entry previous hash" | None => Ok None end
          = Ok (ev_previous_event_hash e)) as ->.
  { destruct (ev_previous_event_hash e) as [d|]; [|reflexivity]. cbn [fmap option_fmap option_map].
    by rewrite digest_Ok by exact Hprev. }
  cbn [mbind result_bind]. rewrite Hp. cbn [mbind result_bind].
  rewrite (decode_and_verify_complete e b Hv Hver Henc). cbn [from_log map_err mbind result_bind].
  ok_step; [rewrite Hw, Hwl; intros [?|[?|[?|?]]]; contradiction|]. rewrite Hh. cbn [from_log map_err mbind result_bind].
  ok_step; [intros []; reflexivity|]. rewrite Henc. cbn [from_log map_err mbind result_bind].
  ok_step; [intros []; reflexivity|]. reflexivity.
Qed.

(** ** The rows of a page *)

Definition decodes_to (x : IdentityLogEventV1 * bytes) (row : Z * EntryRow) : Prop :=
  ∃ h, entry_hash x.1 = Ok h ∧
    decode_entry_row row id = Ok {| de_event := x.1; de_exact_bytes := x.2; de_entry_hash := h |}.

Lemma served_lengths : length bs = length es ∧ l.(head_sequence).(uint_get) = Z.of_nat (length es) ∧ (1 ≤ length es)%nat
  ∧ Z.of_nat (length es) ≤ MAX_SAFE_UINT.
Proof using All.
  pose proof (served_ok es l Hreached) as Hok. pose proof (lo_length _ _ Hok) as Hl.
  destruct (served_head es l bs Hreached Hvalid Hbytes) as (_ & Hu & _). unfold uint_valid in Hu. rewrite Hl in *. unfold len in *.
  split; [symmetry; by eapply Forall2_length|]. split; [done|]. split; [|lia].
  destruct (lo_head _ _ Hok) as (e & He & _). destruct es; [done|]. cbn. lia.
Qed.

Lemma rows_decode m a :
  (a + m = length es)%nat →
  Forall2 decodes_to (drop a (zip es bs))
    (omap (λ key, (λ row, (key, row)) <$> t.(log_entries) id key) (seqZ (Z.of_nat a + 1) (Z.of_nat m))).
Proof using All.
  destruct served_lengths as (Hlen & _). revert a. induction m as [|m IH]; intros a Ha.
  { rewrite drop_ge by (rewrite length_zip_with; lia). constructor. }
  destruct (lookup_lt_is_Some_2 es a ltac:(lia)) as [e He]. destruct (lookup_lt_is_Some_2 bs a ltac:(lia)) as [b Hb].
  destruct (entry_decodes a e b He Hb) as (row & h & Ht & Hh & Hd).
  rewrite seqZ_cons by lia. cbn [omap list_omap]. rewrite Ht. cbn [fmap option_fmap option_map].
  rewrite (drop_S (zip es bs) (e, b) a).
  2: { rewrite lookup_zip_with, He, Hb. reflexivity. }
  constructor; [exists h; split; [exact Hh|exact Hd]|].
  replace (Z.succ (Z.of_nat a + 1)) with (Z.of_nat (S a) + 1) by lia.
  replace (Z.pred (Z.of_nat (S m))) with (Z.of_nat m) by lia. apply IH. lia.
Qed.

Lemma selected a n :
  (a ≤ length es)%nat →
  Forall2 decodes_to (take n (drop a (zip es bs)))
    (select_range t id (Z.of_nat a) (Z.of_nat (length es)) (Z.of_nat n)).
Proof using All.
  intros Ha. unfold select_range. rewrite Nat2Z.id. apply Forall2_take.
  replace (Z.of_nat (length es) - Z.of_nat a) with (Z.of_nat (length es - a)) by lia. apply rows_decode. lia.
Qed.

(** The hash kept by the loop is that of the entry before position [j]. *)
Definition linked_at (j : nat) (prev : option Sha256Digest) : Prop :=
  ∀ h, prev = Some h → ∃ m e, j = S m ∧ es !! m = Some e ∧ entry_hash e = Ok h.

Lemma linked_event j prev e h :
  linked_at j prev → es !! j = Some e → prev = Some h → ev_previous_event_hash e = Some h.
Proof using All.
  intros Hl He ->. destruct (Hl h eq_refl) as (m & e0 & -> & He0 & Hh).
  destruct (lo_chain _ _ (served_ok es l Hreached) _ _ He) as [_ (e1 & h1 & He1 & Hh1 & Hp)].
  rewrite He0 in He1. injection He1 as <-. rewrite Hh in Hh1. injection Hh1 as <-. exact Hp.
Qed.

Definition page_so_far (a k : nat) : option Page.IdentityLogPageV1 :=
  match k with O => None | S _ => Some (page_of a k) end.

Lemma read_rows_serve a xs rows :
  Forall2 decodes_to xs rows → ∀ k prev,
  xs `prefix_of` drop (a + k) (zip es bs) → (k + length xs ≤ 64)%nat → linked_at (a + k) prev →
  read_rows id (head_from_projection l) (Z.of_nat a) rows prev (take k (drop a bs)) (page_so_far a k)
  = Ok (page_so_far a (k + length xs)).
Proof using All.
  destruct served_lengths as (Hlen & Hhead & _ & Hmax). intros Hall.
  induction Hall as [|[e b] row xs rows (h & Hh & Hd) _ IH]; intros k prev Hpre Hk Hlink.
  { by rewrite Nat.add_0_r. }
  assert (es !! (a + k)%nat = Some e ∧ bs !! (a + k)%nat = Some b) as [He Hb].
  { destruct Hpre as [ys Hys]. assert (zip es bs !! (a + k)%nat = Some (e, b)) as Hz.
    { rewrite <-(Nat.add_0_r (a + k)), <-lookup_drop, Hys. reflexivity. }
    rewrite lookup_zip_with in Hz. destruct (es !! _), (bs !! _); cbn in Hz; simplify_eq; done. }
  pose proof (lookup_lt_Some _ _ _ He) as Hlt. cbn [length] in Hk. cbn [fst snd] in Hh, Hd.
  assert (take k (drop a bs) ++ [b] = take (S k) (drop a bs)) as Hex.
  { symmetry. apply take_S_r. by rewrite lookup_drop. }
  cbn [read_rows]. rewrite Hd. cbn [mbind result_bind de_event de_exact_bytes de_entry_hash].
  assert (match prev with
          | Some expected => reject_if (ev_previous_event_hash e ≠ Some expected) (corrupt "identity log page predecessor link")
          | None => Ok tt end = Ok tt) as ->.
  { destruct prev as [h0|]; [|reflexivity]. apply reject_if_Ok. rewrite (linked_event _ _ e h0 Hlink He eq_refl). by intros []. }
  cbn [mbind result_bind]. rewrite Hex. cbn zeta.
  assert (len (take (S k) (drop a bs)) = Z.of_nat (S k)) as Hcount.
  { unfold len. rewrite length_take, length_drop. lia. }
  change MAX_SAFE_UINT with (2 ^ 53 - 1) in Hmax. rewrite Hcount.
  rewrite (proj2 (checked_Some 0 u64_max (Z.of_nat (S k)) (Z.of_nat (S k)))) by (unfold u64_max; lia).
  cbn [ok_or mbind result_bind]. unfold u64_checked_add.
  rewrite (proj2 (checked_Some 0 u64_max (Z.of_nat a + Z.of_nat (S k)) (Z.of_nat (a + S k)))) by (unfold u64_max; lia).
  cbn [ok_or mbind result_bind head_from_projection lh_sequence lh_hash].
  destruct (served_page_new es l bs Hreached Hvalid Hbytes a (S k)) as [Hnew _]; [lia|lia|].
  cbn [IdentityLogPageProps.page_of Page.identity_id Page.advertised_head_sequence Page.advertised_head_hash
    Page.requested_after_sequence Page.exact_events Page.next_after_sequence Page.has_more] in Hnew.
  rewrite Nat.min_l in Hnew by lia.
  rewrite (bool_decide_ext (Z.of_nat (a + S k) < uint_get (head_sequence l)) (a + S k < length es)%nat) by lia.
  rewrite Hnew. change (Some (page_of a (S k))) with (page_so_far a (S k)).
  rewrite (IH (S k) (Some h)).
  - f_equal. f_equal. cbn [length]. lia.
  - destruct Hpre as [ys Hys]. exists ys. rewrite Nat.add_succ_r.
    rewrite (drop_S (zip es bs) (e, b) (a + k)) in Hys; [by injection Hys|].
    rewrite lookup_zip_with, He, Hb. reflexivity.
  - lia.
  - intros h' [= <-]. exists (a + k)%nat, e. split; [lia|]. split; [exact He|exact Hh].
Qed.

(** ** The page *)

Lemma entry_loads i e b :
  es !! i = Some e → bs !! i = Some b →
  ∃ h, entry_hash e = Ok h ∧
    load_entry_by_sequence t id (MkSafeUint (Z.of_nat i + 1))
    = Ok (Some {| de_event := e; de_exact_bytes := b; de_entry_hash := h |}).
Proof using All.
  intros He Hb. destruct (entry_decodes i e b He Hb) as (row & h & Ht & Hh & Hd). exists h. split; [exact Hh|].
  destruct served_lengths as (_ & _ & _ & Hmax). pose proof (lookup_lt_Some _ _ _ He) as Hlt.
  unfold load_entry_by_sequence. rewrite to_i64_Ok by (unfold uint_valid; cbn [uint_get]; lia).
  cbn [mbind result_bind uint_get]. rewrite Ht, Hd. reflexivity.
Qed.

Lemma head_entry_loads :
  ∃ e b, load_entry_by_sequence t id l.(head_sequence)
    = Ok (Some {| de_event := e; de_exact_bytes := b; de_entry_hash := l.(head_hash) |}).
Proof using All.
  destruct served_lengths as (Hlen & Hhead & Hpos & _).
  destruct (lo_head _ _ (served_ok es l Hreached)) as (e & He & Hh). rewrite last_lookup in He.
  destruct (lookup_lt_is_Some_2 bs (Nat.pred (length es)) ltac:(lia)) as [b Hb].
  destruct (entry_loads _ _ _ He Hb) as (h & Hh' & Hl). rewrite Hh in Hh'. injection Hh' as <-.
  exists e, b. rewrite <-Hl. f_equal. destruct (head_sequence l) as [q]. cbn [uint_get] in Hhead. f_equal. lia.
Qed.

Lemma page_of_available a n : page_of a n = page_of a (Nat.min n (length es - a)).
Proof using All.
  destruct served_lengths as (Hlen & _). unfold IdentityLogPageProps.page_of.
  rewrite <-(take_take (drop a bs) n (length es - a)), (take_ge (drop a bs) (length es - a)) by (rewrite length_drop; lia).
  destruct (decide (a ≤ length es)%nat) as [Ha|Ha].
  - replace (Nat.min (a + Nat.min n (length es - a)) (length es)) with (Nat.min (a + n) (length es)) by lia. reflexivity.
  - replace (Nat.min (a + Nat.min n (length es - a)) (length es)) with (Nat.min (a + n) (length es)) by lia. reflexivity.
Qed.

(** The hash of the entry at the cursor. *)
Lemma cursor_links a e b :
  (a ≤ length es)%nat →
  ∃ prev, linked_at a prev ∧
    (if decide (Z.of_nat a = 0) then Ok None
     else if decide (Z.of_nat a = l.(head_sequence).(uint_get))
          then Ok (Some (de_entry_hash {| de_event := e; de_exact_bytes := b; de_entry_hash := l.(head_hash) |}))
     else
       cursor ← map_err (λ _, Raised (InvalidCommand "identity log page cursor")) (SafeUint_new (Z.of_nat a));
       found ← load_entry_by_sequence t id cursor;
       predecessor ← ok_or found (corrupt "identity log page predecessor entry");
       Ok (Some predecessor.(de_entry_hash))) = Ok prev.
Proof using All.
  intros Ha. destruct served_lengths as (Hlen & Hhead & Hpos & Hmax). case_decide as H0.
  { exists None. split; [by intros h [=]|reflexivity]. }
  destruct a as [|m]; [lia|]. case_decide as H1.
  { exists (Some l.(head_hash)). split; [|reflexivity]. intros h [= <-].
    destruct (lo_head _ _ (served_ok es l Hreached)) as (e0 & He0 & Hh). rewrite last_lookup in He0.
    exists m, e0. split; [reflexivity|]. split; [|exact Hh]. rewrite <-He0. f_equal. lia. }
  destruct (lookup_lt_is_Some_2 es m ltac:(lia)) as [e0 He0]. destruct (lookup_lt_is_Some_2 bs m ltac:(lia)) as [b0 Hb0].
  destruct (entry_loads m e0 b0 He0 Hb0) as (h & Hh & Hl). exists (Some h). split.
  { intros h' [= <-]. exists m, e0. split; [reflexivity|]. split; [exact He0|exact Hh]. }
  unfold SafeUint_new. rewrite decide_False by lia. cbn [map_err mbind result_bind].
  replace (Z.of_nat (S m)) with (Z.of_nat m + 1) by lia. rewrite Hl. reflexivity.
Qed.

Lemma read_page_serves a n :
  (1 ≤ n ≤ 64)%nat → (a ≤ length es)%nat →
  read_page t id (Z.of_nat a) (Z.of_nat n) = Ok (PageOutcome (page_of a n)).
Proof using All.
  intros Hn Ha. destruct served_lengths as (Hlen & Hhead & Hpos & Hmax). unfold read_page.
  ok_step.
  { unfold Page.MAX_IDENTITY_LOG_PAGE_EVENTS. intros [Hx|[Hx|Hx]]; [|lia|lia].
    rewrite (proj2 (unsafe_uint_false _)) in Hx by lia. done. }
  rewrite stored_head. cbn [mbind result_bind state PageRead.head]. rewrite decide_False by (by intros []).
  rewrite decide_False by (cbn; lia). destruct head_entry_loads as (e & b & Hload).
  unfold read_active_page. cbn [head_from_projection lh_sequence lh_hash]. rewrite Hload.
  cbn [ok_or mbind result_bind]. ok_step; [by intros []|].
  destruct (cursor_links a e b Ha) as (prev & Hlink & ->). cbn [mbind result_bind].
  assert (SafeUint_new (Z.of_nat a) = Ok (MkSafeUint (Z.of_nat a))) as ->
    by (unfold SafeUint_new; by rewrite decide_False by lia).
  cbn [map_err mbind result_bind].
  rewrite (to_i64_Ok (MkSafeUint (Z.of_nat a))) by (unfold uint_valid; cbn [uint_get]; lia). cbn [mbind result_bind uint_get].
  rewrite (to_i64_Ok (head_sequence l)) by (unfold uint_valid; rewrite Hhead; lia). cbn [mbind result_bind].
  ok_step; [apply checked_Some; split; [reflexivity|unfold i64_min, i64_max; lia]|].
  rewrite Hhead. pose proof (selected a n Ha) as Hsel.
  assert (length (take n (drop a (zip es bs))) = Nat.min n (length es - a)) as Hcount.
  { rewrite length_take, length_drop, length_zip_with. lia. }
  ok_step.
  { intros [Hnil Hlt]. rewrite Hnil in Hsel. apply Forall2_length in Hsel. cbn in Hsel. lia. }
  assert (linked_at (a + 0) prev) as Hlink0 by (by rewrite Nat.add_0_r).
  pose proof (read_rows_serve a _ _ Hsel 0 prev) as Hread. rewrite Hcount in Hread.
  rewrite take_0 in Hread. cbn [page_so_far] in Hread. rewrite Hread; [|rewrite Nat.add_0_r; apply prefix_take|lia|done].
  cbn [mbind result_bind Nat.add]. rewrite (page_of_available a n).
  destruct (Nat.min n (length es - a)) as [|k] eqn:Hk; cbn [page_so_far mbind result_bind]; [|reflexivity].
  rewrite decide_True by lia.
  destruct (served_page_new es l bs Hreached Hvalid Hbytes a n Hn Ha) as [Hnew _]. rewrite page_of_available, Hk in Hnew.
  cbn [IdentityLogPageProps.page_of Page.identity_id Page.advertised_head_sequence Page.advertised_head_hash
    Page.requested_after_sequence Page.exact_events Page.next_after_sequence Page.has_more take] in Hnew.
  rewrite Nat.add_0_r, Nat.min_l, (bool_decide_false (a < length es)%nat) in Hnew by lia.
  rewrite take_0 in Hnew. rewrite Hnew. reflexivity.
Qed.

Lemma read_page_ahead a n :
  (1 ≤ n ≤ 64)%nat → (length es < a)%nat → Z.of_nat a ≤ MAX_SAFE_UINT →
  read_page t id (Z.of_nat a) (Z.of_nat n) = Ok CursorAhead.
Proof using All.
  intros Hn Ha Hsafe. destruct served_lengths as (Hlen & Hhead & Hpos & Hmax). unfold read_page.
  ok_step.
  { unfold Page.MAX_IDENTITY_LOG_PAGE_EVENTS. intros [Hx|[Hx|Hx]]; [|lia|lia].
    rewrite (proj2 (unsafe_uint_false _)) in Hx by lia. done. }
  rewrite stored_head. cbn [mbind result_bind state PageRead.head]. rewrite decide_False by (by intros []).
  by rewrite decide_True by (cbn; lia).
Qed.

(** ** The reader *)

(** A reader at the cursor [a]: nothing yet, or the log of the first [a] events. *)
Definition at_cursor (a : nat) (reader : option IdentityLogV1) : Prop :=
  match reader with None => a = 0%nat | Some la => (1 ≤ a)%nat ∧ reached (take a es) la end.

(** It bootstraps from the first event it ever gets and appends the others. *)
Definition catch_up (reader : option IdentityLogV1) (events : list IdentityLogEventV1) :
    result (Fault IdentityLogError) (option IdentityLogV1) :=
  match reader, events with
  | Some la, _ => Some <$> replay la events
  | None, [] => Ok None
  | None, e :: events => la ← bootstrap e; Some <$> replay la events
  end.

Lemma reached_first fs f : reached fs f → ∃ g rest f0, fs = g :: rest ∧ bootstrap g = Ok f0 ∧ reached [g] f0.
Proof using All.
  induction 1 as [g f Hg|fs f e f' _ (g & rest & f0 & -> & Hg & Hr) _|fs f e x f' _ IH _].
  - exists g, [], f. split; [reflexivity|]. split; [exact Hg|by constructor].
  - exists g, (rest ++ [e]), f0. split; [reflexivity|]. split; [exact Hg|exact Hr].
  - exact IH.
Qed.

(** Any reader at a cursor of the log can replay the next events. *)
Lemma follower_replays a n la :
  (1 ≤ a)%nat → reached (take a es) la →
  ∃ la', replay la (take n (drop a es)) = Ok la' ∧ reached (take (a + n) es) la'.
Proof using All.
  intros Ha Hla. pose proof (prefix_replay es l a la Hreached Ha Hla) as Hrep.
  rewrite <-(take_drop n (drop a es)) in Hrep. apply replay_app in Hrep as (la' & Hrep & _).
  exists la'. split; [exact Hrep|]. rewrite <-(take_take_drop es a n). by eapply replay_reached.
Qed.

Lemma reader_catches_up a n reader :
  (1 ≤ n)%nat → at_cursor a reader →
  ∃ la', catch_up reader (take n (drop a es)) = Ok (Some la') ∧ at_cursor (a + n) (Some la').
Proof using All.
  intros Hn Hr. destruct reader as [la|]; cbn in Hr.
  - destruct Hr as [Ha Hla]. destruct (follower_replays a n la Ha Hla) as (la' & Hrep & Hla').
    exists la'. cbn [catch_up]. rewrite Hrep. split; [reflexivity|]. split; [lia|exact Hla'].
  - subst a. destruct (reached_first es l Hreached) as (g & rest & f0 & Hes & Hg & Hf0).
    destruct n as [|n]; [lia|]. destruct (follower_replays 1 n f0) as (la' & Hrep & Hla'); [lia|rewrite Hes; exact Hf0|].
    exists la'. rewrite drop_0. rewrite Hes in Hrep |- *. cbn [take drop catch_up] in Hrep |- *. rewrite drop_0 in Hrep. rewrite Hg.
    cbn [mbind result_bind]. rewrite Hrep. split; [reflexivity|]. split; [lia|]. exact Hla'.
Qed.

(** C39. Every stored log is served and can be followed.  Let the tables hold a log.  For
    every cursor from 0, where a new reader starts, to the head and every page size from
    1 to 64, [read_page] returns a page; its cursors and its head are those asked for and
    stored; it encodes within every limit and the decoder accepts the bytes; it moves the
    cursor unless the reader is at the head; and any reader at the cursor, a new one that
    bootstraps included, replays the decoded events without error and is then at the next
    cursor.  A cursor beyond the head is answered as such. *)
Theorem every_log_is_served a n :
  (1 ≤ n ≤ 64)%nat → Z.of_nat a ≤ MAX_SAFE_UINT →
  if decide (length es < a)%nat then read_page t id (Z.of_nat a) (Z.of_nat n) = Ok CursorAhead
  else ∃ p b,
    read_page t id (Z.of_nat a) (Z.of_nat n) = Ok (PageOutcome p) ∧
    Page.to_deterministic_cbor p = Ok b ∧ Page.decode_and_verify b = Ok p ∧
    p.(Page.advertised_head_sequence) = l.(head_sequence) ∧ p.(Page.advertised_head_hash) = l.(head_hash) ∧
    p.(Page.requested_after_sequence) = Z.of_nat a ∧
    p.(Page.next_after_sequence) = Z.of_nat (Nat.min (a + n) (length es)) ∧
    Forall2 (λ b e, decode_and_verify b = Ok e) p.(Page.exact_events) (take n (drop a es)) ∧
    ((a < length es)%nat → p.(Page.requested_after_sequence) < p.(Page.next_after_sequence)) ∧
    ∀ reader, at_cursor a reader →
      ∃ la, catch_up reader (take n (drop a es)) = Ok (Some la) ∧ at_cursor (a + n) (Some la).
Proof using All.
  intros Hn Hsafe. case_decide as Ha; [by apply read_page_ahead|].
  destruct (served_page_new es l bs Hreached Hvalid Hbytes a n Hn ltac:(lia)) as [_ (b & Hb & Hd)].
  exists (page_of a n), b. split; [apply read_page_serves; lia|]. split; [exact Hb|]. split; [exact Hd|].
  split_and!; try reflexivity.
  - apply served_page_decodes; try assumption. lia.
  - cbn. lia.
  - intros reader Hr. apply reader_catches_up; [lia|exact Hr].
Qed.
End serving.
End read_props.
