(* ===== verification/IdentityLogDemo.v ===== *)
(** * Identity log: worked examples

    A log with a genesis, an enrolled device, its revocation, a recovery and the
    use of the restored root key, with concrete functions in place of the [uuid]
    crate, of SHA-256 and of Ed25519.  The examples instantiate the theorems of
    the other files. *)

From S2P Require Import Prelude Domain CanonicalCbor CborSpec CborFields WirePrimitives WireValues.
From S2P Require Import IdentityLog IdentityLogCodec IdentityLogProjection IdentityLogInv.
From S2P Require Import IdentityLogProps IdentityLogPages IdentityLogPageProps IdentityLogRead MembershipDemo.

Module IdentityLogDemo.

(** ** Concrete libraries *)

Notation print_uuid := MembershipDemo.hyphenated.
Notation unhyphenate := MembershipDemo.unhyphenate.
Definition read_uuid (b : bytes) : option Z :=
  match parse_hex_pairs 16 (unhyphenate b) with
  | Ok bs =>
      let u := from_be_bytes bs in
      if decide (0 ≤ u < 2 ^ 128 ∧ print_uuid u = b) then Some u else None
  | Err _ => None
  end.

Global Instance uuid_crate : UuidCrate := {|
  parse_str := read_uuid;
  hyphenated := print_uuid;
  get_variant u := u / 2 ^ 62 mod 4;
  get_version_num u := u / 2 ^ 76 mod 16;
  RFC4122 := 2
|}.

Lemma read_print u : uuid_range u → read_uuid (print_uuid u) = Some u.
Proof.
  intros Hu. unfold read_uuid. unfold MembershipDemo.hyphenated at 1.
  rewrite (proj1 (MembershipDemo.hyphenate_32 _ (MembershipDemo.hex_digits_length u))).
  destruct (parse_hex_pairs_Ok 16 (to_be_bytes 16 u ≫= hex_byte)) as (bs & -> & Hd & _ & Heq).
  { apply MembershipDemo.hex_digits_length. }
  { apply hex_text_lower, to_be_bytes_digits. }
  apply hex_text_inj in Heq as ->; [|done|apply to_be_bytes_digits]. cbv zeta.
  unfold uuid_range in Hu. rewrite from_to_be_bytes by (change (256 ^ Z.of_nat 16) with (2 ^ 128); lia).
  by rewrite decide_True.
Qed.

Global Instance uuid_laws : UuidLaws.
Proof.
  split.
  - apply MembershipDemo.hyphenated_text.
  - intros b u. cbn. unfold read_uuid. destruct (parse_hex_pairs _ _); [|done].
    case_decide as Hc; [|done]. intros [= <-]. apply Hc.
  - apply read_print.
Qed.

(** The checksum of the input. *)
Definition digest_of : bytes → bytes := MembershipDemo.sha256.
Global Instance sha256_demo : Sha256 := digest_of.
Global Instance sha256_laws : Sha256Laws.
Proof. split; [intros b; apply to_be_bytes_digits|intros b; apply length_to_be_bytes]. Qed.

(** Signatures that anybody can check and compute. *)
Definition sign (key input : bytes) : bytes :=
  to_be_bytes 64 (MembershipDemo.checksum (key ++ input)).
Global Instance ed25519_demo : Ed25519 := {|
  VerifyingKey := bytes;
  vk_from_bytes := Some;
  vk_compress k := k;
  vk_is_weak k := forallb (λ b, bool_decide (b = 0)) k;
  verify_strict k input s := bool_decide (s = sign k input)
|}.

(** ** The cast *)

Definition key (n : Z) : SigningPublicKey := MkSigningKey (replicate 32 n).
Definition device (n : Z) : DeviceId := UuidV7 (7 * 2 ^ 76 + 2 * 2 ^ 62 + n).
Definition signature_of (k : SigningPublicKey) (input : bytes) : Ed25519Signature :=
  MkSignature (sign k.(key_bytes) input).
Definition or_empty {E} (r : result E bytes) : bytes :=
  match r with Ok b => b | Err _ => [] end.
Definition or_zero {E} (r : result E Sha256Digest) : Sha256Digest :=
  match r with Ok d => d | Err _ => from_bytes [] end.

Definition root := key 1.
Definition recovery := key 2.
Definition new_root := key 5.
Definition new_recovery := key 6.
Definition identity : IdentityId := Eval vm_compute in
  PublicIds.derive digest_of KIdentity (replicate 32 1).

Definition event (sequence : Z) (previous : option Sha256Digest)
    (payload : IdentityLogEventPayloadV1) (signer : SigningPublicKey) : IdentityLogEventV1 :=
  let u := {| ue_wire := IDENTITY_LOG_WIRE_VERSION; ue_identity_id := identity;
              ue_sequence := MkSafeUint sequence; ue_previous_event_hash := previous;
              ue_occurred_at := MkUtcMillis (1000 * sequence); ue_payload := payload;
              ue_signer := signer |} in
  {| ev_unsigned := u;
     ev_signature := signature_of signer (identity_log_signature_input (or_zero (signing_digest u))) |}.

Definition genesis : IdentityLogEventV1 := Eval vm_compute in
  event 1 None (Genesis root recovery
    (signature_of recovery (or_empty (genesis_recovery_acceptance_input identity root recovery)))) root.
Definition hash1 : Sha256Digest := Eval vm_compute in or_zero (entry_hash genesis).

Definition unsigned_certificate : UnsignedDeviceCertificateV1 :=
  {| uc_wire := IDENTITY_LOG_WIRE_VERSION; uc_identity_id := identity; uc_device_id := device 9;
     uc_device_signing_key := key 3; uc_device_encryption_key := MkEncryptionKey (replicate 32 4);
     uc_issuer_root_key := root; uc_issued_at := MkUtcMillis 1500 |}.
Definition certificate : DeviceCertificateV1 := Eval vm_compute in
  {| cert_unsigned := unsigned_certificate;
     cert_signature := signature_of root
       (device_certificate_signature_input (or_zero (certificate_signing_digest unsigned_certificate))) |}.

Definition enrol : IdentityLogEventV1 := Eval vm_compute in
  event 2 (Some hash1) (DeviceAdd certificate) root.
Definition hash2 : Sha256Digest := Eval vm_compute in or_zero (entry_hash enrol).
Definition revocation : IdentityLogEventV1 := Eval vm_compute in
  event 3 (Some hash2) (DeviceRevoke (device 9)) root.
Definition hash3 : Sha256Digest := Eval vm_compute in or_zero (entry_hash revocation).

Definition accept_key (sequence : Z) (previous : Sha256Digest) (purpose : KeyAcceptancePurposeV1)
    (k : SigningPublicKey) : Ed25519Signature :=
  signature_of k (or_empty (key_rotation_acceptance_input identity (MkSafeUint sequence)
    (Some previous) purpose k)).

Definition restore : IdentityLogEventV1 := Eval vm_compute in
  event 4 (Some hash3) (RecoveryRestore new_root new_recovery
    (accept_key 4 hash3 PurposeRecoveryRestoreRoot new_root)
    (accept_key 4 hash3 PurposeRecoveryRestoreRecovery new_recovery)) recovery.
Definition hash4 : Sha256Digest := Eval vm_compute in or_zero (entry_hash restore).
Definition publish : IdentityLogEventV1 := Eval vm_compute in
  event 5 (Some hash4) (RelayDescriptor
    {| rd_wire := IDENTITY_LOG_WIRE_VERSION; rd_relay_urls := [str "https://relay.example/a"];
       rd_expires_at := MkUtcMillis 9000 |}) new_root.

Definition events : list IdentityLogEventV1 := [genesis; enrol; revocation; restore; publish].
Definition encoding (e : IdentityLogEventV1) : bytes :=
  or_empty (IdentityLog.to_deterministic_cbor e).

Lemma events_decode :
  (λ b, IdentityLog.decode_and_verify b) <$> (encoding <$> events) = Ok <$> events.
Proof. vm_compute. reflexivity. Qed.

(** ** The logs *)

Definition blank : IdentityLogV1 :=
  {| log_wire := IDENTITY_LOG_WIRE_VERSION; log_identity_id := identity;
     head_sequence := MkSafeUint 0; head_hash := hash1; current_root_key := root;
     current_recovery_key := recovery; initial_device_id := None; relay_descriptor := None;
     devices := ∅; seen_entry_hashes := ∅ |}.
Definition log1 : IdentityLogV1 := match bootstrap genesis with Ok l => l | Err _ => blank end.
Definition after (l : IdentityLogV1) (e : IdentityLogEventV1) : IdentityLogV1 := (append e l).2.
Definition log2 := after log1 enrol.
Definition log3 := after log2 revocation.
Definition log4 := after log3 restore.
Definition log5 := after log4 publish.

Lemma append_ok e l : (append e l).1 = Ok tt → append e l = (Ok tt, after l e).
Proof. intros H. unfold after. rewrite <-H. apply surjective_pairing. Qed.

Lemma boot1 : bootstrap genesis = Ok log1.
Proof. vm_compute. reflexivity. Qed.
Lemma step2 : append enrol log1 = (Ok tt, log2).
Proof. apply append_ok. vm_compute. reflexivity. Qed.
Lemma step3 : append revocation log2 = (Ok tt, log3).
Proof. apply append_ok. vm_compute. reflexivity. Qed.
Lemma step4 : append restore log3 = (Ok tt, log4).
Proof. apply append_ok. vm_compute. reflexivity. Qed.
Lemma step5 : append publish log4 = (Ok tt, log5).
Proof. apply append_ok. vm_compute. reflexivity. Qed.

#[local] Opaque append bootstrap.

Lemma reached2 : reached [genesis; enrol] log2.
Proof. apply (reached_append [_] log1); [apply reached_bootstrap, boot1|apply step2]. Qed.
Lemma reached3 : reached [genesis; enrol; revocation] log3.
Proof. apply (reached_append [_; _] log2); [apply reached2|apply step3]. Qed.
Lemma reached5 : reached events log5.
Proof.
  apply (reached_append [_; _; _; _] log4); [|apply step5].
  apply (reached_append [_; _; _] log3); [apply reached3|apply step4].
Qed.

#[local] Instance is_byte_dec x : Decision (is_byte x) := decide (0 ≤ x < 256).

Lemma events_valid : Forall event_valid events.
Proof.
  apply Forall_forall. intros e [i He]%list_elem_of_lookup.
  pose proof (f_equal (λ r, r !! i) events_decode) as H. cbv beta in H.
  rewrite !list_lookup_fmap, He in H. cbn [fmap option_fmap option_map] in H. injection H as H.
  assert (Forall (λ e, Forall is_byte (encoding e)) events) as Hb.
  { apply (bool_decide_unpack _). vm_compute. constructor. }
  apply decode_and_verify_iff in H as [Hv _]; [exact Hv|]. by eapply Forall_lookup_1 in Hb.
Qed.

(** ** The theorems at work *)

Lemma log_always_consistent_witness : log_ok events log5.
Proof. apply log_always_consistent. left. exact reached5. Defined.

(** The recovery changes both keys: they were handed over. *)
Lemma control_change_authorized_witness :
  recovery_signed log3 restore ∧ accepted_by_holder log3 restore new_root.
Proof.
  destruct (control_change_authorized log3 restore log4 step4) as (_ & Hroot & Hrec & _).
  assert (current_root_key log4 = new_root) as Heq by (vm_compute; reflexivity).
  split.
  - apply Hrec. vm_compute. intros [=].
  - rewrite <-Heq. apply Hroot. vm_compute. intros [=].
Defined.

Definition lost_device : DeviceRecordV1 := {| dr_certificate := certificate; dr_status := Revoked |}.

(** The revoked device is still revoked after the recovery. *)
Lemma revoked_device_is_dead_witness : device_status log5 (device 9) = Some Revoked.
Proof.
  destruct (revoked_device_is_dead [genesis; enrol; revocation] [restore; publish] log3 log5 (device 9)
    lost_device reached3 reached5) as [H _]; [vm_compute; reflexivity..|]. exact H.
Defined.

Definition root_acceptance := accept_key 4 hash3 PurposeRecoveryRestoreRoot new_root.
Definition recovery_acceptance := accept_key 4 hash3 PurposeRecoveryRestoreRecovery new_recovery.
Lemma restore_payload :
  ev_payload restore = RecoveryRestore new_root new_recovery root_acceptance recovery_acceptance.
Proof. vm_compute. reflexivity. Qed.

Lemma recovery_restore_takes_over_witness : ev_signer publish ≠ current_root_key log3.
Proof.
  pose proof (recovery_restore_takes_over log3 restore log4 new_root new_recovery root_acceptance
    recovery_acceptance publish log5 step4 restore_payload step5) as (_ & _ & _ & _ & _ & H & _).
  exact H.
Defined.

Lemma head_hash_binds_history_witness :
  (events = events ∧ log5 = log5) ∨ entry_collision events events.
Proof.
  apply (head_hash_binds_history events events log5 log5 reached5 reached5 events_valid events_valid).
  reflexivity.
Defined.

Lemma event_bytes_exact_witness :
  event_valid restore ∧ verify restore = Ok tt ∧
  IdentityLog.to_deterministic_cbor restore = Ok (encoding restore).
Proof.
  apply event_bytes_exact; [apply (bool_decide_unpack _); vm_compute; constructor|].
  vm_compute. reflexivity.
Defined.

Definition page (a n : nat) : Page.IdentityLogPageV1 :=
  page_of events log5 (encoding <$> events) a n.
Definition page_encoding (p : Page.IdentityLogPageV1) : bytes :=
  or_empty (Page.to_deterministic_cbor p).

Lemma page_decodes : Page.decode_and_verify (page_encoding (page 2 64)) = Ok (page 2 64).
Proof. vm_compute. reflexivity. Qed.
Lemma page_encoding_bytes : Forall is_byte (page_encoding (page 2 64)).
Proof. apply (bool_decide_unpack _). vm_compute. constructor. Qed.

Lemma page_bytes_exact_witness :
  page_valid (page 2 64) ∧ Page.to_deterministic_cbor (page 2 64) = Ok (page_encoding (page 2 64)).
Proof.
  destruct (proj1 (page_bytes_exact _ (page 2 64) page_encoding_bytes) page_decodes) as (? & _ & ?).
  split; assumption.
Defined.

Lemma replay_demo : replay log2 [revocation; restore; publish] = Ok log5.
Proof.
  apply replay_cons. exists log3. split; [exact step3|]. apply replay_cons. exists log4.
  split; [exact step4|]. apply replay_cons. exists log5. split; [exact step5|reflexivity].
Qed.

Lemma tail_decodes :
  Forall2 (λ b e, IdentityLog.decode_and_verify b = Ok e)
    (Page.exact_events (page 2 64)) [revocation; restore; publish].
Proof. repeat apply Forall2_cons_2; [vm_compute; reflexivity..|constructor]. Qed.

(** A reader at the enrolment catches up with one page. *)
Lemma page_replay_reaches_head_witness :
  head_hash log5 = Page.advertised_head_hash (page 2 64).
Proof.
  destruct (page_replay_reaches_head (page_encoding (page 2 64)) (page 2 64) [genesis; enrol] log2
    [revocation; restore; publish] log5 page_encoding_bytes page_decodes reached2) as (_ & _ & H).
  - vm_compute. reflexivity.
  - exact tail_decodes.
  - exact replay_demo.
  - apply H; vm_compute; [reflexivity|intros [=]].
Defined.

Lemma bytes_encode :
  Forall2 (λ e b, IdentityLog.to_deterministic_cbor e = Ok b) events (encoding <$> events).
Proof. repeat apply Forall2_cons_2; [vm_compute; reflexivity..|constructor]. Qed.

(** The tables after the events were written. *)
Definition rows : list (Z * PageRead.EntryRow) :=
  omap (λ e, result_ok (PageRead.entry_row e (encoding e))) events.
Definition tables : PageRead.Tables := {|
  PageRead.log_heads id :=
    if decide (id = log_identity_id log5) then result_ok (PageRead.head_row (PageRead.head_from_projection log5)) else None;
  PageRead.log_entries id key :=
    if decide (id = log_identity_id log5) then (λ x, x.2.2) <$> list_find (λ row, row.1 = key) rows else None
|}.

Lemma tables_stored : stored tables events log5 (encoding <$> events).
Proof.
  split; [eexists; split; vm_compute; reflexivity|].
  repeat apply Forall2_cons_2; [eexists _, _; split; vm_compute; reflexivity..|constructor].
Qed.

(** A new reader gets the first two events, one at the second event the rest, and a
    cursor beyond the head is refused. *)
Lemma every_log_is_served_witness :
  (∃ p la, PageRead.read_page tables (log_identity_id log5) 0 2 = Ok (PageRead.PageOutcome p) ∧
     catch_up None (take 2 events) = Ok (Some la) ∧ at_cursor events 2 (Some la)) ∧
  (∃ p, PageRead.read_page tables (log_identity_id log5) 2 64 = Ok (PageRead.PageOutcome p) ∧
     p.(Page.next_after_sequence) = 5) ∧
  PageRead.read_page tables (log_identity_id log5) 6 64 = Ok PageRead.CursorAhead.
Proof.
  split; [|split].
  - destruct (every_log_is_served events log5 (encoding <$> events) tables reached5 events_valid bytes_encode tables_stored
      0 2) as (p & b & Hp & _ & _ & _ & _ & _ & _ & _ & _ & Hr); [lia|vm_compute; discriminate|].
    destruct (Hr None eq_refl) as (la & Hla & Hat). exists p, la. split; [exact Hp|]. split; [exact Hla|exact Hat].
  - destruct (every_log_is_served events log5 (encoding <$> events) tables reached5 events_valid bytes_encode tables_stored
      2 64) as (p & b & Hp & _ & _ & _ & _ & _ & Hn & _); [lia|vm_compute; discriminate|].
    exists p. split; [exact Hp|exact Hn].
  - apply (every_log_is_served events log5 (encoding <$> events) tables reached5 events_valid bytes_encode tables_stored
      6 64); [lia|vm_compute; discriminate].
Defined.

Lemma operations_never_panic_witness :
  signing_digest genesis.(ev_unsigned) ≠ Err Panicked ∧ entry_hash genesis ≠ Err Panicked.
Proof.
  destruct (operations_never_panic genesis.(ev_unsigned) genesis) as (Hs & _ & _ & _ & Hh & _).
  - exists (ev_wire genesis), (ev_identity_id genesis), (ev_sequence genesis), (ev_previous_event_hash genesis),
      (ev_occurred_at genesis), (ev_payload genesis), (ev_signer genesis).
    vm_compute. reflexivity.
  - right. exists (encoding genesis). vm_compute. reflexivity.
  - split; [exact Hs|exact Hh].
Defined.

End IdentityLogDemo.
