(* ===== verification/AgentHost.v ===== *)
(** * Agent hosts

    Models [crates/dtx-agent-host/src/host.rs]: the lifecycle of one registered
    machine, its credential, and the liveness that the server derives from its
    heartbeats. *)

From S2P Require Import Prelude Domain.

Module Host.
Notation HostCredentialId := (UuidV7Id KHostCredential).

Inductive HostLifecycle : Type := AwaitingEnrollment | Active | Quarantined | Revoked.
Inductive ReportedHealth : Type := Healthy | Degraded.
Inductive EffectiveHostState : Type :=
| IsAwaitingEnrollment | IsOnline | IsDegraded | IsOffline | IsQuarantined | IsRevoked.

Global Instance HostLifecycle_eq_dec : EqDecision HostLifecycle.
Proof. solve_decision. Defined.

Record HostObservation : Type := {
  health : ReportedHealth;
  observed_at_millis : Z;
  heartbeat_expires_at_millis : Z
}.

Record HostObservationSnapshot : Type := {
  s_health : ReportedHealth;
  s_observed_at_millis : Z;
  s_heartbeat_expires_at_millis : Z
}.

Record AgentHost : Type := {
  tenant_id : TenantId;
  host_id : HostId;
  owner_id : IdentityId;
  lifecycle : HostLifecycle;
  credential_id : option HostCredentialId;
  retired_credentials : gset HostCredentialId;
  desired_revision : Revision;
  observed_revision : option Revision;
  observation : option HostObservation;
  revision : Revision
}.

Record AgentHostSnapshot : Type := {
  s_tenant_id : TenantId;
  s_host_id : HostId;
  s_owner_id : IdentityId;
  s_lifecycle : HostLifecycle;
  s_credential_id : option HostCredentialId;
  s_retired_credentials : gset HostCredentialId;
  s_desired_revision : Revision;
  s_observed_revision : option Revision;
  s_observation : option HostObservationSnapshot;
  s_revision : Revision
}.

Definition AgentHost_eta (h : AgentHost) : AgentHost :=
  {| tenant_id := h.(tenant_id); host_id := h.(host_id); owner_id := h.(owner_id);
     lifecycle := h.(lifecycle); credential_id := h.(credential_id);
     retired_credentials := h.(retired_credentials); desired_revision := h.(desired_revision);
     observed_revision := h.(observed_revision); observation := h.(observation);
     revision := h.(revision) |}.

Global Instance lifecycle_field : Field lifecycle := ltac:(field_of AgentHost_eta lifecycle).
Global Instance credential_id_field : Field credential_id :=
  ltac:(field_of AgentHost_eta credential_id).
Global Instance retired_credentials_field : Field retired_credentials :=
  ltac:(field_of AgentHost_eta retired_credentials).
Global Instance desired_revision_field : Field desired_revision :=
  ltac:(field_of AgentHost_eta desired_revision).
Global Instance observed_revision_field : Field observed_revision :=
  ltac:(field_of AgentHost_eta observed_revision).
Global Instance observation_field : Field observation := ltac:(field_of AgentHost_eta observation).
Global Instance revision_field : Field revision := ltac:(field_of AgentHost_eta revision).

Inductive HostError : Type :=
| RevisionConflict (current : Revision)
| AlreadyEnrolled
| NotEnrolled
| CredentialMismatch
| CredentialUnchanged
| CredentialReused
| ObservedRevisionAhead (desired : Revision)
| ObservedRevisionRegressed (current : Revision)
| HeartbeatTimeRegressed
| InvalidHeartbeatWindow
| AlreadyQuarantined
| NotQuarantined
| HostRevoked
| CounterExhausted.

Inductive AgentHostSnapshotError : Type :=
| CredentialLifecycleMismatch
| CurrentCredentialRetired
| SnapshotObservedRevisionAhead
| ObservationLifecycleMismatch
| SnapshotInvalidHeartbeatWindow
| UnreachableInitialState.

(** ** Operations *)

Notation Op := (ST AgentHost HostError).

Definition register (tenant_id : TenantId) (host_id : HostId) (owner_id : IdentityId) :
    AgentHost :=
  {| tenant_id := tenant_id; host_id := host_id; owner_id := owner_id;
     lifecycle := AwaitingEnrollment; credential_id := None; retired_credentials := ∅;
     desired_revision := Revision.INITIAL; observed_revision := None; observation := None;
     revision := Revision.INITIAL |}.

Definition checked_next (r : Revision) : result HostError Revision :=
  map_err (λ _, CounterExhausted) (Revision.checked_next r).

Definition checked_mutation_revision (self : AgentHost) (expected_revision : Revision) :
    result HostError Revision :=
  reject (RevisionConflict self.(revision)) when (expected_revision ≠ self.(revision));;
  checked_next self.(revision).

Definition ensure_enrolled_and_mutable (self : AgentHost) : result HostError unit :=
  match self.(lifecycle) with
  | Active | Quarantined => Ok tt
  | AwaitingEnrollment => Err NotEnrolled
  | Revoked => Err HostRevoked
  end.

Definition enroll (expected_revision : Revision) (credential : HostCredentialId) : Op unit :=
  self ← get;
  next_revision ← lift (checked_mutation_revision self expected_revision);
  lift (match self.(lifecycle) with
        | AwaitingEnrollment => Ok tt
        | Active | Quarantined => Err AlreadyEnrolled
        | Revoked => Err HostRevoked
        end);;
  modify (λ self, self <| lifecycle := Active |>);;
  modify (λ self, self <| credential_id := Some credential |>);;
  modify (λ self, self <| observation := None |>);;
  modify (λ self, self <| revision := next_revision |>).

Definition rotate_credential (expected_revision : Revision) (replacement : HostCredentialId) :
    Op HostCredentialId :=
  self ← get;
  next_revision ← lift (checked_mutation_revision self expected_revision);
  lift (ensure_enrolled_and_mutable self);;
  current ← lift (ok_or self.(credential_id) NotEnrolled);
  lift (reject CredentialUnchanged when (current = replacement));;
  lift (reject CredentialReused when (replacement ∈ self.(retired_credentials)));;
  modify (λ self, self <| retired_credentials := {[ current ]} ∪ self.(retired_credentials) |>);;
  modify (λ self, self <| credential_id := Some replacement |>);;
  modify (λ self, self <| observation := None |>);;
  modify (λ self, self <| revision := next_revision |>);;
  mret current.

Definition advance_desired_revision (expected_revision : Revision) : Op Revision :=
  self ← get;
  next_aggregate_revision ← lift (checked_mutation_revision self expected_revision);
  lift (reject HostRevoked when (self.(lifecycle) = Revoked));;
  next_desired ← lift (checked_next self.(desired_revision));
  modify (λ self, self <| desired_revision := next_desired |>);;
  modify (λ self, self <| revision := next_aggregate_revision |>);;
  mret next_desired.

Definition record_heartbeat (expected_revision : Revision) (credential : HostCredentialId)
    (acknowledged_desired_revision : Revision) (reported : ReportedHealth)
    (server_received_at_millis server_heartbeat_ttl_millis : Z) : Op Z :=
  self ← get;
  next_revision ← lift (checked_mutation_revision self expected_revision);
  lift (ensure_enrolled_and_mutable self);;
  lift (reject CredentialMismatch when (self.(credential_id) ≠ Some credential));;
  lift (reject (ObservedRevisionAhead self.(desired_revision))
    when (acknowledged_desired_revision > self.(desired_revision)));;
  lift (match self.(observed_revision) with
        | Some current =>
            reject (ObservedRevisionRegressed current) when (acknowledged_desired_revision < current)
        | None => Ok tt
        end);;
  lift (match self.(observation) with
        | Some current =>
            reject HeartbeatTimeRegressed
              when (server_received_at_millis < current.(observed_at_millis))
        | None => Ok tt
        end);;
  lift (reject InvalidHeartbeatWindow when (server_heartbeat_ttl_millis ≤ 0));;
  expires ← lift (ok_or (i64_checked_add server_received_at_millis server_heartbeat_ttl_millis)
                    InvalidHeartbeatWindow);
  modify (λ self, self <| observed_revision := Some acknowledged_desired_revision |>);;
  modify (λ self, self <| observation := Some
    {| health := reported; observed_at_millis := server_received_at_millis;
       heartbeat_expires_at_millis := expires |} |>);;
  modify (λ self, self <| revision := next_revision |>);;
  mret expires.

Definition quarantine (expected_revision : Revision) : Op unit :=
  self ← get;
  next_revision ← lift (checked_mutation_revision self expected_revision);
  lift (match self.(lifecycle) with
        | Active => Ok tt
        | AwaitingEnrollment => Err NotEnrolled
        | Quarantined => Err AlreadyQuarantined
        | Revoked => Err HostRevoked
        end);;
  modify (λ self, self <| lifecycle := Quarantined |>);;
  modify (λ self, self <| observation := None |>);;
  modify (λ self, self <| revision := next_revision |>).

Definition clear_quarantine (expected_revision : Revision) : Op unit :=
  self ← get;
  next_revision ← lift (checked_mutation_revision self expected_revision);
  lift (match self.(lifecycle) with
        | Quarantined => Ok tt
        | Revoked => Err HostRevoked
        | AwaitingEnrollment | Active => Err NotQuarantined
        end);;
  modify (λ self, self <| lifecycle := Active |>);;
  modify (λ self, self <| observation := None |>);;
  modify (λ self, self <| revision := next_revision |>).

Definition revoke (expected_revision : Revision) : Op unit :=
  self ← get;
  next_revision ← lift (checked_mutation_revision self expected_revision);
  lift (reject HostRevoked when (self.(lifecycle) = Revoked));;
  modify (λ self, self <| lifecycle := Revoked |>);;
  modify (λ self, match self.(credential_id) with
                  | Some current =>
                      self <| retired_credentials := {[ current ]} ∪ self.(retired_credentials) |>
                  | None => self
                  end);;
  modify (λ self, self <| credential_id := None |>);;
  modify (λ self, self <| observation := None |>);;
  modify (λ self, self <| revision := next_revision |>).

Definition effective_state (self : AgentHost) (now_millis : Z) : EffectiveHostState :=
  match self.(lifecycle) with
  | AwaitingEnrollment => IsAwaitingEnrollment
  | Quarantined => IsQuarantined
  | Revoked => IsRevoked
  | Active =>
      match self.(observation) with
      | None => IsOffline
      | Some observation =>
          if decide (now_millis >= observation.(heartbeat_expires_at_millis)) then IsOffline
          else match observation.(health) with Healthy => IsOnline | Degraded => IsDegraded end
      end
  end.

(** ** Persistence *)

Definition observation_image (o : HostObservation) : HostObservationSnapshot :=
  {| s_health := o.(health); s_observed_at_millis := o.(observed_at_millis);
     s_heartbeat_expires_at_millis := o.(heartbeat_expires_at_millis) |}.
Definition observation_of_image (o : HostObservationSnapshot) : HostObservation :=
  {| health := o.(s_health); observed_at_millis := o.(s_observed_at_millis);
     heartbeat_expires_at_millis := o.(s_heartbeat_expires_at_millis) |}.

Definition snapshot (self : AgentHost) : AgentHostSnapshot :=
  {| s_tenant_id := self.(tenant_id); s_host_id := self.(host_id); s_owner_id := self.(owner_id);
     s_lifecycle := self.(lifecycle); s_credential_id := self.(credential_id);
     s_retired_credentials := self.(retired_credentials);
     s_desired_revision := self.(desired_revision);
     s_observed_revision := self.(observed_revision);
     s_observation := observation_image <$> self.(observation); s_revision := self.(revision) |}.

(** [matches!(lifecycle, Active | Quarantined)] *)
Definition enrolled (l : HostLifecycle) : bool :=
  match l with Active | Quarantined => true | _ => false end.

Definition try_from_snapshot (s : AgentHostSnapshot) : result AgentHostSnapshotError AgentHost :=
  reject CredentialLifecycleMismatch
    when (enrolled s.(s_lifecycle) ≠ bool_decide (is_Some s.(s_credential_id)));;
  reject CurrentCredentialRetired
    when (match s.(s_credential_id) with
          | Some current => bool_decide (current ∈ s.(s_retired_credentials))
          | None => false
          end = true);;
  reject SnapshotObservedRevisionAhead
    when (match s.(s_observed_revision) with
          | Some observed => bool_decide (observed > s.(s_desired_revision))
          | None => false
          end = true);;
  reject ObservationLifecycleMismatch
    when (is_Some s.(s_observation)
          ∧ (enrolled s.(s_lifecycle) = false ∨ s.(s_observed_revision) = None));;
  reject ObservationLifecycleMismatch
    when (s.(s_lifecycle) = AwaitingEnrollment
          ∧ (s.(s_retired_credentials) ≠ ∅ ∨ is_Some s.(s_observed_revision)
             ∨ is_Some s.(s_observation)));;
  reject SnapshotInvalidHeartbeatWindow
    when (match s.(s_observation) with
          | Some o => bool_decide (o.(s_heartbeat_expires_at_millis) ≤ o.(s_observed_at_millis))
          | None => false
          end = true);;
  reject UnreachableInitialState
    when (s.(s_revision) = Revision.INITIAL
          ∧ (s.(s_lifecycle) ≠ AwaitingEnrollment ∨ is_Some s.(s_credential_id)
             ∨ s.(s_retired_credentials) ≠ ∅ ∨ s.(s_desired_revision) ≠ Revision.INITIAL
             ∨ is_Some s.(s_observed_revision) ∨ is_Some s.(s_observation)));;
  Ok {| tenant_id := s.(s_tenant_id); host_id := s.(s_host_id); owner_id := s.(s_owner_id);
        lifecycle := s.(s_lifecycle); credential_id := s.(s_credential_id);
        retired_credentials := s.(s_retired_credentials);
        desired_revision := s.(s_desired_revision);
        observed_revision := s.(s_observed_revision);
        observation := observation_of_image <$> s.(s_observation);
        revision := s.(s_revision) |}.

(** ** Sequences of operations *)

Inductive HostOp : Type :=
| OpEnroll (expected : Revision) (credential : HostCredentialId)
| OpRotate (expected : Revision) (replacement : HostCredentialId)
| OpAdvanceDesired (expected : Revision)
| OpHeartbeat (expected : Revision) (credential : HostCredentialId) (acknowledged : Revision)
    (reported : ReportedHealth) (received_at ttl : Z)
| OpQuarantine (expected : Revision)
| OpClearQuarantine (expected : Revision)
| OpRevoke (expected : Revision).

Definition step (o : HostOp) : AgentHost → AgentHost :=
  match o with
  | OpEnroll r c => exec (enroll r c)
  | OpRotate r c => exec (rotate_credential r c)
  | OpAdvanceDesired r => exec (advance_desired_revision r)
  | OpHeartbeat r c a h t ttl => exec (record_heartbeat r c a h t ttl)
  | OpQuarantine r => exec (quarantine r)
  | OpClearQuarantine r => exec (clear_quarantine r)
  | OpRevoke r => exec (revoke r)
  end.

Lemma host_ops_atomic r c a h t ttl :
  atomic (enroll r c) ∧ atomic (rotate_credential r c) ∧ atomic (advance_desired_revision r) ∧
  atomic (record_heartbeat r c a h t ttl) ∧ atomic (quarantine r) ∧ atomic (clear_quarantine r) ∧
  atomic (revoke r).
Proof. split_and!; solve_atomic. Qed.

(** What every reachable host satisfies. *)
Record host_ok (h : AgentHost) : Prop := {
  ho_credential : enrolled h.(lifecycle) = bool_decide (is_Some h.(credential_id));
  ho_live : ∀ c, h.(credential_id) = Some c → c ∉ h.(retired_credentials);
  ho_observed : ∀ r, h.(observed_revision) = Some r → r ≤ h.(desired_revision);
  ho_observation : ∀ o, h.(observation) = Some o →
    enrolled h.(lifecycle) = true ∧ is_Some h.(observed_revision) ∧
    o.(observed_at_millis) < o.(heartbeat_expires_at_millis);
  ho_awaiting : h.(lifecycle) = AwaitingEnrollment →
    h.(retired_credentials) = ∅ ∧ h.(observed_revision) = None;
  ho_revision : Revision.INITIAL ≤ h.(revision);
  ho_initial : h.(revision) = Revision.INITIAL →
    h.(lifecycle) = AwaitingEnrollment ∧ h.(desired_revision) = Revision.INITIAL
}.

Lemma host_register_ok t h o : host_ok (register t h o).
Proof. split; cbn; done. Qed.

Lemma checked_mutation_revision_Ok self r r' :
  checked_mutation_revision self r = Ok r' → r = self.(revision) ∧ r' = self.(revision) + 1.
Proof.
  intros H. unfold checked_mutation_revision, checked_next in H. res_inv H.
  apply Revision.checked_next_Ok in H as [_ ->]. split; [by apply dec_stable|done].
Qed.

(** [host_cases o h] leaves one goal per operation that succeeds. *)
Ltac host_cases o h :=
  destruct o as [r c|r c|r|r c a hl t ttl|r|r|r]; cbn [step];
  lazymatch goal with
  | |- context [exec ?m h] =>
      let Hrun := fresh "Hrun" in
      let Hat := fresh "Hat" in
      assert (atomic m) as Hat by solve_atomic;
      destruct (exec_atomic m h Hat) as [->|[? Hrun]]; clear Hat; [eauto; fail|];
      remember (exec m h) as h' eqn:Heq; clear Heq;
      unfold enroll, rotate_credential, advance_desired_revision, record_heartbeat, quarantine,
        clear_quarantine, revoke in Hrun; st_inv Hrun
  end;
  match goal with H : checked_mutation_revision _ _ = Ok _ |- _ =>
    apply checked_mutation_revision_Ok in H as [-> ->] end.

Lemma host_step_ok o h : host_ok h → host_ok (step o h).
Proof.
  intros Hok. pose proof Hok as [Hc Hl Hobs Ho Ha Hr Hi]. change Revision.INITIAL with 1 in *.
  host_cases o h; destruct h as [ti hi ow lc cr rt dr ob os rv]; cbn in *; destruct lc, cr as [cr|];
    try discriminate.
  all: split; cbn in *; change Revision.INITIAL with 1 in *; intros; simplify_eq; cbn in *;
    try done; try lia; eauto; try (split; eauto; fail).
  1: destruct (Ha eq_refl) as [-> _].
  1-3: set_solver.
  all: repeat match goal with
    | H : checked_next _ = Ok _ |- _ =>
        unfold checked_next in H; res_inv H; apply Revision.checked_next_Ok in H as [_ ->]
    | Hle : ∀ r0, Some ?r = Some r0 → _ |- _ => specialize (Hle _ eq_refl)
    | H : i64_checked_add _ _ = Some _ |- _ => apply checked_Some in H as [-> _]
    end; try (split_and!; [done|done|]); lia.
Qed.

Lemma reachable_host_ok ops t h o : host_ok (run_all step ops (register t h o)).
Proof. apply run_all_inv; [intros; by apply host_step_ok|apply host_register_ok]. Qed.

(** Every reachable host is restored exactly from its image. *)
Lemma host_ok_loads h : host_ok h → try_from_snapshot (snapshot h) = Ok h.
Proof.
  intros [Hc Hl Hobs Ho Ha Hr Hi]. destruct h as [ti hi ow lc cr rt dr ob os rv]. cbn in *.
  unfold try_from_snapshot, snapshot; cbn.
  ok_step; [by intros []|]. ok_step.
  { destruct cr as [c|]; [|done]. rewrite bool_decide_eq_true. auto. }
  ok_step; [destruct ob as [r|]; [|done]; rewrite bool_decide_eq_true; specialize (Hobs _ eq_refl); lia|].
  ok_step.
  { intros [[x Hx] H]. destruct os as [os|]; [|done]. destruct (Ho _ eq_refl) as (? & [? ?] & _).
    destruct H; congruence. }
  ok_step.
  { intros [-> H]. destruct (Ha eq_refl) as [-> ->].
    destruct H as [?|[[? ?]|[? Hx]]]; [done..|]. destruct os as [os|]; [|done].
    destruct (Ho _ eq_refl) as (? & _). done. }
  ok_step.
  { destruct os as [os|]; [|done]. cbn. rewrite bool_decide_eq_true.
    destruct (Ho _ eq_refl) as (_ & _ & ?). lia. }
  ok_step.
  { intros [-> H]. destruct (Hi eq_refl) as [-> ->]. destruct (Ha eq_refl) as [-> ->].
    destruct H as [H|[[? H]|[H|[H|[[? H]|[x H]]]]]]; try done.
    - rewrite H in Hc. done.
    - destruct os as [os|]; [|done]. destruct (Ho _ eq_refl) as (? & _). done. }
  by destruct os as [[]|].
Qed.

Lemma step_retired o h : h.(retired_credentials) ⊆ (step o h).(retired_credentials).
Proof.
  host_cases o h; cbn in *; try done; try set_solver.
  destruct (credential_id h); cbn; set_solver.
Qed.

(** A credential that was rotated out or revoked never comes back: after any
    further operations it is still retired and not the current one, a rotation to
    it is refused, and a heartbeat that presents it is refused and does not
    change the host. *)
Theorem retired_credential_is_dead t h o ops ops' c r a hl now ttl :
  let before := run_all step ops (register t h o) in
  let after := run_all step ops' before in
  c ∈ before.(retired_credentials) →
  c ∈ after.(retired_credentials) ∧ after.(credential_id) ≠ Some c ∧
  (∃ e, rotate_credential r c after = (Err e, after)) ∧
  (∃ e, record_heartbeat r c a hl now ttl after = (Err e, after)).
Proof.
  intros before after Hc.
  assert (c ∈ after.(retired_credentials)) as Hafter.
  { unfold after. apply (run_all_inv step (λ h, c ∈ h.(retired_credentials))); [|done].
    intros x s _ Hs. by apply step_retired. }
  assert (host_ok after) as Hok.
  { unfold after, before. rewrite <-run_all_app. apply reachable_host_ok. }
  assert (after.(credential_id) ≠ Some c) as Hne.
  { intros Hx. by apply (ho_live _ Hok) in Hx. }
  split_and!; [done|done| |].
  - destruct (host_ops_atomic r c a hl now ttl) as (_ & Hat & _).
    destruct (rotate_credential r c after) as [[x|e] s'] eqn:Hrun; [|by exists e; f_equal; apply Hat in Hrun].
    exfalso. unfold rotate_credential in Hrun. st_inv Hrun. done.
  - destruct (host_ops_atomic r c a hl now ttl) as (_ & _ & _ & Hat & _).
    destruct (record_heartbeat r c a hl now ttl after) as [[x|e] s'] eqn:Hrun;
      [|by exists e; f_equal; apply Hat in Hrun].
    exfalso. unfold record_heartbeat in Hrun. st_inv Hrun. tauto.
Qed.
End Host.
