(* ===== verification/AgentRegistry.v ===== *)
(** * Agent installations and agent devices

    Models [crates/dtx-agent-registry/src/installation.rs] and [device.rs]: the
    owner-controlled lifecycle of one installed agent and the credentials that
    may act for it. *)

From S2P Require Import Prelude Domain.

Notation AgentDeviceId := (UuidV7Id KAgentDevice).

(** [DescriptorDigest] of [definition.rs] and [DeviceCredentialFingerprint]:
    exact digest bytes. *)
Record DescriptorDigest : Type := MkDescriptorDigest { descriptor_bytes : bytes }.
Record DeviceCredentialFingerprint : Type := MkFingerprint { fingerprint_bytes : bytes }.
Global Instance DescriptorDigest_eq_dec : EqDecision DescriptorDigest.
Proof. solve_decision. Defined.
Global Instance DeviceCredentialFingerprint_eq_dec : EqDecision DeviceCredentialFingerprint.
Proof. solve_decision. Defined.

Module Installation.
Inductive ExecutionMode : Type := ConnectorManaged | ServerManaged.
Inductive InstallationDesiredState : Type := Enabled | Disabled | Revoked.
Inductive InstallationObservedState : Type := Installing | Ready | Degraded | UpgradeRequired.

Global Instance ExecutionMode_eq_dec : EqDecision ExecutionMode.
Proof. solve_decision. Defined.
Global Instance InstallationDesiredState_eq_dec : EqDecision InstallationDesiredState.
Proof. solve_decision. Defined.
Global Instance InstallationObservedState_eq_dec : EqDecision InstallationObservedState.
Proof. solve_decision. Defined.

Inductive InstallationCommand : Type :=
| BindAgentIdentity (identity_id : IdentityId)
| ConfirmAgentIdentity (identity_id : IdentityId)
| MarkReady
| MarkDegraded
| RequireUpgrade
| Disable
| Enable
| UpgradeDescriptor (version : Revision) (hash : DescriptorDigest)
| AdvancePolicy (revision : Revision)
| Revoke.

Record AgentInstallation : Type := {
  tenant_id : TenantId;
  installation_id : InstallationId;
  agent_id : AgentId;
  owner_id : IdentityId;
  agent_identity_id : option IdentityId;
  execution_mode : ExecutionMode;
  descriptor_version : Revision;
  descriptor_hash : DescriptorDigest;
  policy_revision : Revision;
  desired_state : InstallationDesiredState;
  observed_state : InstallationObservedState;
  revision : Revision
}.

Record AgentInstallationSnapshot : Type := {
  s_tenant_id : TenantId;
  s_installation_id : InstallationId;
  s_agent_id : AgentId;
  s_owner_id : IdentityId;
  s_agent_identity_id : option IdentityId;
  s_execution_mode : ExecutionMode;
  s_descriptor_version : Revision;
  s_descriptor_hash : DescriptorDigest;
  s_policy_revision : Revision;
  s_desired_state : InstallationDesiredState;
  s_observed_state : InstallationObservedState;
  s_revision : Revision
}.

Inductive InstallationError : Type :=
| AgentIdentityRequired
| AgentIdentityAlreadyBound
| RevisionConflict (actual expected : Revision)
| InvalidTransition
| InstallationRevoked
| DescriptorVersionRegressed
| DescriptorVersionConflict
| PolicyRevisionRegressed
| NoChange
| RevisionExhausted.

Inductive AgentInstallationSnapshotError : Type := UnreachableInitialState.

Definition new (tenant_id : TenantId) (installation_id : InstallationId) (agent_id : AgentId)
    (owner_id : IdentityId) (execution_mode : ExecutionMode) (descriptor_version : Revision)
    (descriptor_hash : DescriptorDigest) : AgentInstallation :=
  {| tenant_id := tenant_id; installation_id := installation_id; agent_id := agent_id;
     owner_id := owner_id; agent_identity_id := None; execution_mode := execution_mode;
     descriptor_version := descriptor_version; descriptor_hash := descriptor_hash;
     policy_revision := Revision.INITIAL; desired_state := Enabled;
     observed_state := Installing; revision := Revision.INITIAL |}.

Definition snapshot (self : AgentInstallation) : AgentInstallationSnapshot :=
  {| s_tenant_id := self.(tenant_id); s_installation_id := self.(installation_id);
     s_agent_id := self.(agent_id); s_owner_id := self.(owner_id);
     s_agent_identity_id := self.(agent_identity_id);
     s_execution_mode := self.(execution_mode);
     s_descriptor_version := self.(descriptor_version);
     s_descriptor_hash := self.(descriptor_hash); s_policy_revision := self.(policy_revision);
     s_desired_state := self.(desired_state); s_observed_state := self.(observed_state);
     s_revision := self.(revision) |}.

Definition try_from_snapshot (s : AgentInstallationSnapshot) :
    result AgentInstallationSnapshotError AgentInstallation :=
  reject UnreachableInitialState
    when (s.(s_revision) = Revision.INITIAL
          ∧ (is_Some s.(s_agent_identity_id) ∨ s.(s_policy_revision) ≠ Revision.INITIAL
             ∨ s.(s_desired_state) ≠ Enabled ∨ s.(s_observed_state) ≠ Installing));;
  Ok {| tenant_id := s.(s_tenant_id); installation_id := s.(s_installation_id);
        agent_id := s.(s_agent_id); owner_id := s.(s_owner_id);
        agent_identity_id := s.(s_agent_identity_id); execution_mode := s.(s_execution_mode);
        descriptor_version := s.(s_descriptor_version);
        descriptor_hash := s.(s_descriptor_hash); policy_revision := s.(s_policy_revision);
        desired_state := s.(s_desired_state); observed_state := s.(s_observed_state);
        revision := s.(s_revision) |}.

(** The local variables of [apply] that its [match] assigns. *)
Record Draft : Type := MkDraft {
  desired : InstallationDesiredState;
  observed : InstallationObservedState;
  d_descriptor_version : Revision;
  d_descriptor_hash : DescriptorDigest;
  d_policy_revision : Revision;
  d_agent_identity_id : option IdentityId
}.

Definition draft_of (self : AgentInstallation) : Draft :=
  MkDraft self.(desired_state) self.(observed_state) self.(descriptor_version)
    self.(descriptor_hash) self.(policy_revision) self.(agent_identity_id).

Definition Draft_eta (d : Draft) : Draft :=
  MkDraft d.(desired) d.(observed) d.(d_descriptor_version) d.(d_descriptor_hash)
    d.(d_policy_revision) d.(d_agent_identity_id).
Global Instance desired_field : Field desired := ltac:(field_of Draft_eta desired).
Global Instance observed_field : Field observed := ltac:(field_of Draft_eta observed).
Global Instance d_descriptor_version_field : Field d_descriptor_version :=
  ltac:(field_of Draft_eta d_descriptor_version).
Global Instance d_descriptor_hash_field : Field d_descriptor_hash :=
  ltac:(field_of Draft_eta d_descriptor_hash).
Global Instance d_policy_revision_field : Field d_policy_revision :=
  ltac:(field_of Draft_eta d_policy_revision).
Global Instance d_agent_identity_id_field : Field d_agent_identity_id :=
  ltac:(field_of Draft_eta d_agent_identity_id).

(** The [match command] of [apply], arm by arm. *)
Definition draft_command (command : InstallationCommand) (d : Draft) :
    result InstallationError Draft :=
  match command with
  | BindAgentIdentity identity_id =>
      reject AgentIdentityAlreadyBound when (d.(d_agent_identity_id) ≠ None);;
      Ok (d <| d_agent_identity_id := Some identity_id |>)
  | ConfirmAgentIdentity identity_id =>
      reject AgentIdentityAlreadyBound when (d.(d_agent_identity_id) ≠ Some identity_id);;
      Ok d
  | MarkReady =>
      if decide (d.(desired) = Enabled ∧ is_Some d.(d_agent_identity_id)
                 ∧ (d.(observed) = Installing ∨ d.(observed) = Degraded))
      then Ok (d <| observed := Ready |>)
      else if decide (d.(d_agent_identity_id) = None) then Err AgentIdentityRequired
      else Err InvalidTransition
  | MarkDegraded =>
      reject InvalidTransition
        when (¬ (d.(desired) = Enabled ∧ (d.(observed) = Installing ∨ d.(observed) = Ready)));;
      Ok (d <| observed := Degraded |>)
  | RequireUpgrade =>
      reject InvalidTransition when (d.(observed) = UpgradeRequired);;
      Ok (d <| observed := UpgradeRequired |>)
  | Disable =>
      reject InvalidTransition when (d.(desired) ≠ Enabled);;
      Ok (d <| desired := Disabled |>)
  | Enable =>
      reject InvalidTransition when (d.(desired) ≠ Disabled);;
      Ok (d <| desired := Enabled |> <| observed := Installing |>)
  | UpgradeDescriptor version hash =>
      reject DescriptorVersionRegressed when (version < d.(d_descriptor_version));;
      (if decide (version = d.(d_descriptor_version)) then
         if decide (hash = d.(d_descriptor_hash)) then Err NoChange
         else Err DescriptorVersionConflict
       else Ok tt);;
      Ok (d <| d_descriptor_version := version |> <| d_descriptor_hash := hash |>
            <| observed := Installing |>)
  | AdvancePolicy revision =>
      reject PolicyRevisionRegressed when (revision < d.(d_policy_revision));;
      reject NoChange when (revision = d.(d_policy_revision));;
      Ok (d <| d_policy_revision := revision |>)
  | Revoke => Ok (d <| desired := Revoked |>)
  end.

(** The assignments at the end of [apply]. *)
Definition assign (d : Draft) (next_revision : Revision) (self : AgentInstallation) :
    AgentInstallation :=
  {| tenant_id := self.(tenant_id); installation_id := self.(installation_id);
     agent_id := self.(agent_id); owner_id := self.(owner_id);
     agent_identity_id := d.(d_agent_identity_id); execution_mode := self.(execution_mode);
     descriptor_version := d.(d_descriptor_version); descriptor_hash := d.(d_descriptor_hash);
     policy_revision := d.(d_policy_revision); desired_state := d.(desired);
     observed_state := d.(observed); revision := next_revision |}.

Definition apply (expected_revision : Revision) (command : InstallationCommand) :
    ST AgentInstallation InstallationError Revision :=
  self ← get;
  lift (reject (RevisionConflict self.(revision) expected_revision)
    when (self.(revision) ≠ expected_revision));;
  lift (reject InstallationRevoked when (self.(desired_state) = Revoked));;
  d ← lift (draft_command command (draft_of self));
  next_revision ← lift (map_err (λ _, RevisionExhausted) (Revision.checked_next self.(revision)));
  modify (assign d next_revision);;
  mret next_revision.

(** ** What the history of an installation guarantees *)

Definition step (c : Revision * InstallationCommand) : AgentInstallation → AgentInstallation :=
  exec (apply c.1 c.2).

Lemma installation_apply_atomic r c : atomic (apply r c).
Proof. solve_atomic. Qed.

(** [later a b]: the facts that never move back between two states. *)
Record later (a b : AgentInstallation) : Prop := {
  lt_scope : tenant_id b = tenant_id a ∧ installation_id b = installation_id a ∧
    agent_id b = agent_id a ∧ owner_id b = owner_id a ∧ execution_mode b = execution_mode a;
  lt_identity : ∀ i, agent_identity_id a = Some i → agent_identity_id b = Some i;
  lt_descriptor : descriptor_version a ≤ descriptor_version b;
  lt_equivocation : descriptor_version b = descriptor_version a →
    descriptor_hash b = descriptor_hash a;
  lt_policy : policy_revision a ≤ policy_revision b;
  lt_revision : revision a ≤ revision b;
  lt_same : revision b = revision a → b = a;
  lt_revoked : desired_state a = Revoked → b = a
}.

Global Instance later_preorder : PreOrder later.
Proof.
  split.
  - intros a. by split.
  - intros a b c [S1 I1 D1 E1 P1 R1 N1 V1] [S2 I2 D2 E2 P2 R2 N2 V2]. split; try lia; eauto.
    + destruct S1 as (-> & -> & -> & -> & ->) in S2. done.
    + intros H. rewrite E2 by lia. apply E1. lia.
    + intros H. assert (b = a) as -> by (apply N1; lia). apply N2. lia.
    + intros H. pose proof (V1 H) as ->. auto.
Qed.

Lemma draft_later c d d' :
  draft_command c d = Ok d' →
  (∀ i, d.(d_agent_identity_id) = Some i → d'.(d_agent_identity_id) = Some i) ∧
  d.(d_descriptor_version) ≤ d'.(d_descriptor_version) ∧
  (d'.(d_descriptor_version) = d.(d_descriptor_version) →
    d'.(d_descriptor_hash) = d.(d_descriptor_hash)) ∧
  d.(d_policy_revision) ≤ d'.(d_policy_revision).
Proof.
  destruct c; cbn; intros H; res_inv H; repeat case_decide; simplify_eq; cbn;
    split_and!; try done; try lia; intros; try congruence; try tauto; try lia.
  apply dec_stable in Hres. congruence.
Qed.

Lemma installation_apply_Ok r c a r' b :
  apply r c a = (Ok r', b) →
  later a b ∧ r = revision a ∧ revision b = revision a + 1 ∧ desired_state a ≠ Revoked.
Proof.
  intros H. unfold apply in H. st_inv H. apply dec_stable in Hrun as <-.
  apply Revision.checked_next_Ok in Hrun2 as [_ ->].
  apply draft_later in Hrun1 as (H1 & H2 & H3 & H4). cbn in *.
  split; [|done]. split; cbn; try done; lia.
Qed.

Lemma step_later c a : later a (step c a).
Proof.
  unfold step. destruct (apply c.1 c.2 a) as [[r|e] b] eqn:H; unfold exec; rewrite H; cbn.
  - by apply installation_apply_Ok in H as [? _].
  - by apply installation_apply_atomic in H as ->.
Qed.

(** An installation only moves forward, whatever commands it receives: the
    bound agent identity, tenant, owner and execution mode never change, the
    pinned descriptor version and the policy revision never decrease, one
    descriptor version never stands for two digests, the aggregate revision
    identifies the state, and a revoked installation never changes again. *)
Theorem installation_moves_forward a cs cs' :
  later (run_all step cs a) (run_all step (cs ++ cs') a).
Proof.
  rewrite run_all_app. apply (run_all_inv step (later _)); [|done].
  intros c s _ H. etrans; [done|apply step_later].
Qed.

(** An installation made by [new] and changed by [apply] loads from its image. *)
Lemma installation_loads t i g o m v h cs :
  let a := run_all step cs (new t i g o m v h) in try_from_snapshot (snapshot a) = Ok a.
Proof.
  intros a. assert (Revision.INITIAL ≤ revision a ∧ (revision a = Revision.INITIAL → a = new t i g o m v h))
    as [_ Hi].
  { pose proof (installation_moves_forward (new t i g o m v h) [] cs) as [_ _ _ _ _ Hr Hs _].
    split; [apply Hr|apply Hs]. }
  unfold try_from_snapshot. ok_step; [|by destruct a].
  intros [Hr H]. cbn in *. rewrite (Hi Hr) in H. cbn in H.
  destruct H as [[? ?]|[?|[?|?]]]; done.
Qed.

(** A command whose guard holds takes effect at the current revision. *)
Lemma step_takes_effect r c a d :
  r = revision a → draft_command c (draft_of a) = Ok d → desired_state a ≠ Revoked →
  revision a ≠ Revision.MAX → step (r, c) a = assign d (revision a + 1) a.
Proof.
  intros -> Hd Hr Hm. eapply exec_Ok. unfold apply. cbn [fst snd].
  st_step. st_step; [tauto|]. st_step; [done|].
  st_step; [by apply lift_Ok|]. st_step.
  { apply lift_Ok. split; [|done]. apply map_err_Ok. by apply Revision.checked_next_Ok. }
  st_step. done.
Qed.

(** Disabling and enabling again clears a pending upgrade requirement: the
    installation becomes ready on the descriptor that was to be replaced. *)
Lemma upgrade_requirement_cleared a i :
  desired_state a = Enabled → agent_identity_id a = Some i → observed_state a = UpgradeRequired →
  revision a + 3 < Revision.MAX →
  let r := revision a in
  let b := run_all step [(r, Disable); (r + 1, Enable); (r + 2, MarkReady)] a in
  observed_state b = Ready ∧ descriptor_version b = descriptor_version a ∧
  descriptor_hash b = descriptor_hash a.
Proof.
  intros H1 H2 H3 H4. unfold run_all; cbn [foldl].
  erewrite (step_takes_effect _ Disable);
    [|done|unfold draft_command; ok_step; [cbn; tauto|reflexivity]|congruence|lia].
  erewrite (step_takes_effect _ Enable);
    [|done|unfold draft_command; ok_step; [cbn; tauto|reflexivity]|done|cbn; lia].
  erewrite (step_takes_effect _ MarkReady);
    [|cbn; lia|unfold draft_command; rewrite decide_True; [reflexivity|]|done|cbn; lia].
  - done.
  - cbn. rewrite H2. split_and!; [done|by eexists|by left].
Qed.
End Installation.

Module Device.
Import Installation.

Inductive AgentDeviceState : Type := Provisioning | Active | DeviceRevoked.
Inductive AgentDeviceCommand : Type := Activate | RevokeDevice.
Global Instance AgentDeviceState_eq_dec : EqDecision AgentDeviceState.
Proof. solve_decision. Defined.

Record AgentDevice : Type := {
  tenant_id : TenantId;
  installation_id : InstallationId;
  device_id : AgentDeviceId;
  identity_device_id : DeviceId;
  credential_fingerprint : DeviceCredentialFingerprint;
  state : AgentDeviceState;
  revision : Revision
}.

Record AgentDeviceSnapshot : Type := {
  s_tenant_id : TenantId;
  s_installation_id : InstallationId;
  s_agent_device_id : AgentDeviceId;
  s_identity_device_id : DeviceId;
  s_credential_fingerprint : DeviceCredentialFingerprint;
  s_state : AgentDeviceState;
  s_revision : Revision
}.

Definition AgentDevice_eta (d : AgentDevice) : AgentDevice :=
  {| tenant_id := d.(tenant_id); installation_id := d.(installation_id);
     device_id := d.(device_id); identity_device_id := d.(identity_device_id);
     credential_fingerprint := d.(credential_fingerprint); state := d.(state);
     revision := d.(revision) |}.
Global Instance state_field : Field state := ltac:(field_of AgentDevice_eta state).
Global Instance revision_field : Field revision := ltac:(field_of AgentDevice_eta revision).

Inductive AgentDeviceError : Type :=
| ScopeMismatch
| RevisionConflict (actual expected : Revision)
| InstallationNotUsable
| InvalidTransition
| Revoked
| RevisionExhausted.

Inductive AgentDeviceSnapshotError : Type := UnreachableInitialState.

Definition enroll (installation : AgentInstallation) (agent_device_id : AgentDeviceId)
    (identity_device_id : DeviceId) (credential_fingerprint : DeviceCredentialFingerprint) :
    result AgentDeviceError AgentDevice :=
  reject InstallationNotUsable when (installation.(desired_state) ≠ Enabled);;
  Ok {| tenant_id := installation.(Installation.tenant_id);
        installation_id := installation.(Installation.installation_id);
        device_id := agent_device_id; identity_device_id := identity_device_id;
        credential_fingerprint := credential_fingerprint; state := Provisioning;
        revision := Revision.INITIAL |}.

Definition snapshot (self : AgentDevice) : AgentDeviceSnapshot :=
  {| s_tenant_id := self.(tenant_id); s_installation_id := self.(installation_id);
     s_agent_device_id := self.(device_id); s_identity_device_id := self.(identity_device_id);
     s_credential_fingerprint := self.(credential_fingerprint); s_state := self.(state);
     s_revision := self.(revision) |}.

Definition try_from_snapshot (s : AgentDeviceSnapshot) :
    result AgentDeviceSnapshotError AgentDevice :=
  let reachable :=
    match s.(s_state) with
    | Provisioning => bool_decide (s.(s_revision) = 1)
    | Active => bool_decide (s.(s_revision) = 2)
    | DeviceRevoked => bool_decide (s.(s_revision) = 2 ∨ s.(s_revision) = 3)
    end in
  reject UnreachableInitialState when (reachable = false);;
  Ok {| tenant_id := s.(s_tenant_id); installation_id := s.(s_installation_id);
        device_id := s.(s_agent_device_id); identity_device_id := s.(s_identity_device_id);
        credential_fingerprint := s.(s_credential_fingerprint); state := s.(s_state);
        revision := s.(s_revision) |}.

Definition credential_matches (self : AgentDevice) (candidate : DeviceCredentialFingerprint) :
    bool :=
  bool_decide (self.(credential_fingerprint) = candidate).

Definition apply (installation : AgentInstallation) (expected_revision : Revision)
    (command : AgentDeviceCommand) : ST AgentDevice AgentDeviceError Revision :=
  self ← get;
  lift (reject ScopeMismatch
    when (self.(tenant_id) ≠ installation.(Installation.tenant_id)
          ∨ self.(installation_id) ≠ installation.(Installation.installation_id)));;
  lift (reject (RevisionConflict self.(revision) expected_revision)
    when (self.(revision) ≠ expected_revision));;
  lift (reject Revoked when (self.(state) = DeviceRevoked));;
  next_state ← lift (
    match command with
    | Activate =>
        if decide (self.(state) = Provisioning ∧ installation.(desired_state) = Enabled)
        then Ok Active
        else if decide (installation.(desired_state) ≠ Enabled) then Err InstallationNotUsable
        else Err InvalidTransition
    | RevokeDevice => Ok DeviceRevoked
    end);
  next_revision ← lift (map_err (λ _, RevisionExhausted) (Revision.checked_next self.(revision)));
  modify (λ self, self <| state := next_state |>);;
  modify (λ self, self <| revision := next_revision |>);;
  mret next_revision.

(** ** Reachable devices *)

Inductive reachable : AgentDevice → Prop :=
| reachable_enroll i a d f dev : enroll i a d f = Ok dev → reachable dev
| reachable_apply dev i r c : reachable dev → reachable (exec (apply i r c) dev).

Lemma device_apply_atomic i r c : atomic (apply i r c).
Proof. solve_atomic. Qed.

Definition device_ok (d : AgentDevice) : Prop :=
  match d.(state) with
  | Provisioning => d.(revision) = 1
  | Active => d.(revision) = 2
  | DeviceRevoked => d.(revision) = 2 ∨ d.(revision) = 3
  end.

Lemma device_apply_Ok i r c a r' b :
  apply i r c a = (Ok r', b) →
  a.(state) ≠ DeviceRevoked ∧ b.(revision) = a.(revision) + 1 ∧
  match c with
  | Activate => a.(state) = Provisioning ∧ i.(desired_state) = Enabled ∧ b.(state) = Active
  | RevokeDevice => b.(state) = DeviceRevoked
  end.
Proof.
  intros H. unfold apply in H. st_inv H. apply Revision.checked_next_Ok in Hrun3 as [_ ->].
  split; [done|]. split; [done|]. cbn. destruct c; [|by injection Hrun2 as <-].
  revert Hrun2. repeat case_decide; intros [=]; subst. tauto.
Qed.

Lemma reachable_device_ok d : reachable d → device_ok d.
Proof.
  induction 1 as [i a d f dev H|dev i r c _ IH].
  - unfold enroll in H. res_inv H. done.
  - unfold exec. destruct (apply i r c dev) as [[r'|e] b] eqn:H; cbn; [|by apply device_apply_atomic in H as ->].
    apply device_apply_Ok in H as (Hr & Hrev & Hc). unfold device_ok in *. destruct c.
    + destruct Hc as (Hp & _ & ->). rewrite Hp in IH. lia.
    + rewrite Hc. destruct (state dev); [lia|lia|done].
Qed.

(** An enabled installation with the scope of a device. *)
Definition scope_of (d : AgentDevice) : AgentInstallation :=
  Installation.new d.(tenant_id) d.(installation_id) (MkPublicId (replicate 32 0))
    (MkPublicId (replicate 32 0)) ConnectorManaged Revision.INITIAL
    (MkDescriptorDigest (replicate 32 0)).

Lemma apply_run i r c a st :
  a.(tenant_id) = i.(Installation.tenant_id) → a.(installation_id) = i.(Installation.installation_id) →
  r = a.(revision) → a.(revision) ≠ Revision.MAX → a.(state) ≠ DeviceRevoked →
  match c with
  | Activate => a.(state) = Provisioning ∧ i.(desired_state) = Enabled ∧ st = Active
  | RevokeDevice => st = DeviceRevoked
  end →
  exec (apply i r c) a = a <| state := st |> <| revision := a.(revision) + 1 |>.
Proof.
  intros Ht Hi -> Hm Hs Hc. eapply exec_Ok. unfold apply.
  st_step. st_step; [intros [?|?]; done|]. st_step; [tauto|]. st_step; [done|].
  st_step.
  { apply lift_Ok. split; [|done]. instantiate (1 := st). destruct c; [|by subst].
    destruct Hc as (? & ? & ->). by rewrite decide_True. }
  st_step.
  { apply lift_Ok. split; [|done]. apply map_err_Ok. by apply Revision.checked_next_Ok. }
  st_step. st_step. done.
Qed.

(** The loader of agent devices accepts exactly the images of devices that
    enrolment and lifecycle commands can produce, and returns that device. *)
Theorem device_loader_exact s d :
  try_from_snapshot s = Ok d ↔ s = snapshot d ∧ reachable d.
Proof.
  split.
  - intros H. unfold try_from_snapshot in H. res_inv H. split; [by destruct s|].
    apply not_false_is_true in Hres. destruct s as [t i a id f st r]; cbn in *.
    set (d := {| tenant_id := t; installation_id := i; device_id := a; identity_device_id := id;
      credential_fingerprint := f; state := Provisioning; revision := 1 |}).
    assert (reachable d) as Hd.
    { apply (reachable_enroll (scope_of d) a id f). done. }
    assert (∀ d', device_ok d' → d'.(state) ≠ DeviceRevoked → d'.(tenant_id) = t →
      d'.(installation_id) = i → reachable d' →
      reachable (d' <| state := DeviceRevoked |> <| revision := d'.(revision) + 1 |>)) as Hrev.
    { intros d' Hok Hs Ht Hi Hr.
      rewrite <-(apply_run (scope_of d') d'.(revision) RevokeDevice d'); try done.
      - by constructor.
      - unfold device_ok in Hok. change Revision.MAX with (2 ^ 53 - 1). destruct (state d'); lia. }
    assert (reachable (d <| state := Active |> <| revision := 2 |>)) as Ha.
    { change 2 with (d.(revision) + 1).
      rewrite <-(apply_run (scope_of d) 1 Activate d); try done. by constructor. }
    destruct st; apply bool_decide_eq_true in Hres.
    + by subst.
    + by subst.
    + destruct Hres as [->| ->]; [exact (Hrev d eq_refl ltac:(done) eq_refl eq_refl Hd)|].
      exact (Hrev _ (eq_refl : device_ok (d <| state := Active |> <| revision := 2 |>))
        ltac:(done) eq_refl eq_refl Ha).
  - intros [-> Hr%reachable_device_ok]. unfold try_from_snapshot, device_ok in *. cbn.
    ok_step; [|by destruct d]. destruct (state d); rewrite bool_decide_true by done; done.
Qed.
End Device.
