(* ===== verification/Connector.v ===== *)
(** * Connectors

    Models the aggregate of [crates/dtx-connect-registry/src/connector.rs]: one
    connector process with its specification revisions, boots, fenced leases and
    heartbeats, and the validation of its durable image. *)

From S2P Require Import Prelude Domain AgentHost.

Definition MAX_LEASE_TTL_MILLIS : Z := 86400000.

Inductive AdapterKind : Type :=
| Codex | OpenClawAcp | Eino | Rig | ClaudeCode | CustomAcp | HermesAcp.
Inductive ConnectorDesiredState : Type := Running | Draining | Stopped | Revoked.
Inductive ConnectorObservedState : Type :=
| ObsEnrolling | ObsStarting | ObsReady | ObsBusy | ObsDegraded | ObsDraining | ObsOffline
| ObsFailed | ObsQuarantined | ObsRevoked.
Inductive LeaseStatus : Type := LeaseActive | LeaseExpiredStatus | LeaseRevokedStatus | LeaseSuperseded.

Global Instance AdapterKind_eq_dec : EqDecision AdapterKind.
Proof. solve_decision. Defined.
Global Instance ConnectorDesiredState_eq_dec : EqDecision ConnectorDesiredState.
Proof. solve_decision. Defined.
Global Instance ConnectorObservedState_eq_dec : EqDecision ConnectorObservedState.
Proof. solve_decision. Defined.
Global Instance LeaseStatus_eq_dec : EqDecision LeaseStatus.
Proof. solve_decision. Defined.

(** [ConnectorGeneration] and [LeaseEpoch]: positive counters in a [u64]. *)
Notation ConnectorGeneration := Z (only parsing).
Notation LeaseEpoch := Z (only parsing).

Inductive ConnectorError : Type :=
| InvalidCapacity
| HostNotActive
| ServerTimeRegressed
| InvalidLeaseWindow
| LeaseTimeRegressed
| StaleBoot
| BootConflict
| BootTimeRegressed
| StaleLease
| LeaseExpired
| LeaseRevoked
| LeaseConflict
| LeaseNotExpired
| StaleHeartbeat
| InvalidHeartbeatSequence
| HeartbeatConflict
| HeartbeatTooFrequent
| InvalidHeartbeatTime
| InvalidObservedState
| WrongConnector
| WrongTenant
| ConnectorRevoked
| ConnectorNotRunning
| InvalidDesiredTransition
| RevisionConflict
| CounterExhausted.

Inductive ConnectorSnapshotError : Type :=
| InvalidGeneration
| SnapshotInvalidCapacity
| InvalidRevisionHistory
| InvalidBootHistory
| InvalidCurrentBoot
| InvalidLeaseHistory
| InvalidActiveLease
| InvalidHeartbeat
| InvalidTerminalState
| InvalidServerTimeHighWater.

Module Generation.
Definition INITIAL : ConnectorGeneration := 1.
Definition checked_next (self : ConnectorGeneration) : result ConnectorError ConnectorGeneration :=
  if decide (self = Revision.MAX) then Err CounterExhausted else Ok (self + 1).
End Generation.

Module Epoch.
(** [saturating_add] on [u64] *)
Definition checked_next (current : option LeaseEpoch) : result ConnectorError LeaseEpoch :=
  let next := match current with None => 1 | Some value => Z.min u64_max (value + 1) end in
  if decide (next = 0 ∨ next > Revision.MAX) then Err CounterExhausted else Ok next.
End Epoch.

Record ConnectorFence : Type := {
  fence_tenant_id : TenantId;
  fence_connector_id : ConnectorId;
  fence_generation : ConnectorGeneration;
  fence_boot_id : BootId;
  fence_lease_id : LeaseId;
  fence_lease_epoch : LeaseEpoch
}.

Record HeartbeatAck : Type := {
  ack_sequence : Z;
  ack_lease_expires_at_millis : Z
}.

Record HeartbeatRecord : Type := {
  hb_sequence : Z;
  hb_state : ConnectorObservedState;
  hb_capacity_available : Z;
  hb_ack : HeartbeatAck
}.

Record ConnectorLease : Type := {
  lease_fence : ConnectorFence;
  issued_at_millis : Z;
  expires_at_millis : Z;
  ttl_millis : Z;
  status : LeaseStatus;
  last_heartbeat : option HeartbeatRecord;
  last_heartbeat_at_millis : option Z
}.

Record ConnectorBoot : Type := {
  boot_tenant_id : TenantId;
  boot_parent_id : ConnectorId;
  boot_id : BootId;
  boot_generation : ConnectorGeneration;
  started_at_millis : Z;
  ended_at_millis : option Z
}.

Record ConnectorRevision : Type := {
  rev_tenant_id : TenantId;
  rev_connector_id : ConnectorId;
  rev_revision : Revision;
  rev_generation : ConnectorGeneration;
  rev_adapter_kind : AdapterKind;
  rev_desired_state : ConnectorDesiredState;
  rev_max_concurrency : Z
}.

Record Connector : Type := {
  tenant_id : TenantId;
  connector_id : ConnectorId;
  host_id : HostId;
  adapter_kind : AdapterKind;
  generation : ConnectorGeneration;
  desired_state : ConnectorDesiredState;
  observed_state : ConnectorObservedState;
  max_concurrency : Z;
  boots : list ConnectorBoot;
  current_boot_id : option BootId;
  leases : list ConnectorLease;
  active_lease_index : option nat;
  highest_lease_epoch : option LeaseEpoch;
  server_time_high_water_millis : option Z;
  spec_revision : Revision;
  revisions : list ConnectorRevision
}.

Global Instance ConnectorFence_eq_dec : EqDecision ConnectorFence.
Proof. solve_decision. Defined.

Definition ConnectorLease_eta (l : ConnectorLease) : ConnectorLease :=
  {| lease_fence := l.(lease_fence); issued_at_millis := l.(issued_at_millis);
     expires_at_millis := l.(expires_at_millis); ttl_millis := l.(ttl_millis);
     status := l.(status); last_heartbeat := l.(last_heartbeat);
     last_heartbeat_at_millis := l.(last_heartbeat_at_millis) |}.
Global Instance expires_at_millis_field : Field expires_at_millis :=
  ltac:(field_of ConnectorLease_eta expires_at_millis).
Global Instance status_field : Field status := ltac:(field_of ConnectorLease_eta status).
Global Instance last_heartbeat_field : Field last_heartbeat :=
  ltac:(field_of ConnectorLease_eta last_heartbeat).
Global Instance last_heartbeat_at_millis_field : Field last_heartbeat_at_millis :=
  ltac:(field_of ConnectorLease_eta last_heartbeat_at_millis).

Definition ConnectorBoot_eta (b : ConnectorBoot) : ConnectorBoot :=
  {| boot_tenant_id := b.(boot_tenant_id); boot_parent_id := b.(boot_parent_id);
     boot_id := b.(boot_id); boot_generation := b.(boot_generation);
     started_at_millis := b.(started_at_millis); ended_at_millis := b.(ended_at_millis) |}.
Global Instance ended_at_millis_field : Field ended_at_millis :=
  ltac:(field_of ConnectorBoot_eta ended_at_millis).

Definition Connector_eta (c : Connector) : Connector :=
  {| tenant_id := c.(tenant_id); connector_id := c.(connector_id); host_id := c.(host_id);
     adapter_kind := c.(adapter_kind); generation := c.(generation);
     desired_state := c.(desired_state); observed_state := c.(observed_state);
     max_concurrency := c.(max_concurrency); boots := c.(boots);
     current_boot_id := c.(current_boot_id); leases := c.(leases);
     active_lease_index := c.(active_lease_index);
     highest_lease_epoch := c.(highest_lease_epoch);
     server_time_high_water_millis := c.(server_time_high_water_millis);
     spec_revision := c.(spec_revision); revisions := c.(revisions) |}.
Global Instance generation_field : Field generation := ltac:(field_of Connector_eta generation).
Global Instance desired_state_field : Field desired_state :=
  ltac:(field_of Connector_eta desired_state).
Global Instance observed_state_field : Field observed_state :=
  ltac:(field_of Connector_eta observed_state).
Global Instance boots_field : Field boots := ltac:(field_of Connector_eta boots).
Global Instance current_boot_id_field : Field current_boot_id :=
  ltac:(field_of Connector_eta current_boot_id).
Global Instance leases_field : Field leases := ltac:(field_of Connector_eta leases).
Global Instance active_lease_index_field : Field active_lease_index :=
  ltac:(field_of Connector_eta active_lease_index).
Global Instance highest_lease_epoch_field : Field highest_lease_epoch :=
  ltac:(field_of Connector_eta highest_lease_epoch).
Global Instance server_time_high_water_millis_field : Field server_time_high_water_millis :=
  ltac:(field_of Connector_eta server_time_high_water_millis).
Global Instance spec_revision_field : Field spec_revision :=
  ltac:(field_of Connector_eta spec_revision).
Global Instance revisions_field : Field revisions := ltac:(field_of Connector_eta revisions).

(** ** Heartbeats *)

Inductive HeartbeatDisposition : Type := Replay (ack : HeartbeatAck) | Advance (ack : HeartbeatAck).

(** [matches!(state, Offline | Revoked)]: states that only the server derives *)
Definition server_derived (state : ConnectorObservedState) : bool :=
  match state with ObsOffline | ObsRevoked => true | _ => false end.

(** [is_some_and] on a condition that is a decidable proposition *)
Definition some_and {A} (o : option A) (P : A → Prop) : Prop :=
  match o with Some a => P a | None => False end.
Global Instance some_and_dec {A} (o : option A) (P : A → Prop) `{∀ a, Decision (P a)} :
  Decision (some_and o P).
Proof. destruct o; cbn; apply _. Defined.
Definition none_or {A} (o : option A) (P : A → Prop) : Prop :=
  match o with Some a => P a | None => True end.
Global Instance none_or_dec {A} (o : option A) (P : A → Prop) `{∀ a, Decision (P a)} :
  Decision (none_or o P).
Proof. destruct o; cbn; apply _. Defined.

Definition evaluate_heartbeat (current : ConnectorLease) (sequence observed_at : Z)
    (state : ConnectorObservedState) (capacity_available max_concurrency minimum_interval : Z)
    (high_water : option Z) : result ConnectorError HeartbeatDisposition :=
  reject InvalidHeartbeatTime
    when (observed_at < current.(issued_at_millis) ∨ minimum_interval ≤ 0);;
  reject InvalidHeartbeatSequence when (sequence = 0 ∨ sequence > Revision.MAX);;
  reject InvalidObservedState when (server_derived state = true);;
  reject InvalidCapacity when (capacity_available > max_concurrency);;
  let advance :=
    reject ServerTimeRegressed when (some_and high_water (λ high, observed_at < high));;
    reject LeaseExpired when (observed_at >= current.(expires_at_millis));;
    expires ← ok_or (i64_checked_add observed_at current.(ttl_millis)) InvalidHeartbeatTime;
    Ok (Advance {| ack_sequence := sequence; ack_lease_expires_at_millis := expires |}) in
  match current.(last_heartbeat) with
  | Some previous =>
      reject StaleHeartbeat when (sequence < previous.(hb_sequence));;
      if decide (sequence = previous.(hb_sequence)) then
        if decide (previous.(hb_state) = state
                   ∧ previous.(hb_capacity_available) = capacity_available)
        then Ok (Replay previous.(hb_ack)) else Err HeartbeatConflict
      else
        reject InvalidHeartbeatTime
          when (some_and current.(last_heartbeat_at_millis) (λ last_seen, observed_at < last_seen));;
        reject HeartbeatTooFrequent
          when (some_and current.(last_heartbeat_at_millis) (λ last_seen,
                  none_or (i64_checked_sub observed_at last_seen) (λ elapsed,
                    elapsed < minimum_interval)));;
        advance
  | None => advance
  end.

Definition valid_desired_transition (previous current : ConnectorDesiredState) : bool :=
  match previous, current with
  | Running, (Draining | Stopped | Revoked)
  | Draining, (Running | Stopped | Revoked)
  | Stopped, (Running | Revoked) => true
  | _, _ => false
  end.

(** ** The aggregate *)

Definition register (host : Host.AgentHost) (connector_id : ConnectorId)
    (adapter_kind : AdapterKind) (max_concurrency : Z) : result ConnectorError Connector :=
  reject HostNotActive when (host.(Host.lifecycle) ≠ Host.Active);;
  reject InvalidCapacity when (max_concurrency = 0);;
  let initial_revision :=
    {| rev_tenant_id := host.(Host.tenant_id); rev_connector_id := connector_id;
       rev_revision := Revision.INITIAL; rev_generation := Generation.INITIAL;
       rev_adapter_kind := adapter_kind; rev_desired_state := Running;
       rev_max_concurrency := max_concurrency |} in
  Ok {| tenant_id := host.(Host.tenant_id); connector_id := connector_id;
        host_id := host.(Host.host_id); adapter_kind := adapter_kind;
        generation := Generation.INITIAL; desired_state := Running;
        observed_state := ObsEnrolling; max_concurrency := max_concurrency; boots := [];
        current_boot_id := None; leases := []; active_lease_index := None;
        highest_lease_epoch := None; server_time_high_water_millis := None;
        spec_revision := Revision.INITIAL; revisions := [initial_revision] |}.

Notation Op := (ST Connector ConnectorError).

Definition ensure_server_time_not_regressed (self : Connector) (candidate_millis : Z) :
    result ConnectorError unit :=
  reject ServerTimeRegressed
    when (some_and self.(server_time_high_water_millis) (λ high, candidate_millis < high)).

Definition raise_high_water (high_water : option Z) (candidate_millis : Z) : option Z :=
  Some (match high_water with None => candidate_millis | Some high => Z.max high candidate_millis end).

Definition advance_server_time_high_water (candidate_millis : Z) : Op unit :=
  modify (λ self, self <| server_time_high_water_millis :=
    raise_high_water self.(server_time_high_water_millis) candidate_millis |>).

Definition ensure_may_run (state : ConnectorDesiredState) : result ConnectorError unit :=
  reject ConnectorRevoked when (state = Revoked);;
  reject ConnectorNotRunning when (state = Stopped).

(** [if let Some(lease) = leases.get_mut(index) && lease.status == Active] *)
Definition close_lease (st : LeaseStatus) (lease : ConnectorLease) : ConnectorLease :=
  if decide (lease.(status) = LeaseActive) then lease <| status := st |> else lease.

Definition terminalize_active_lease (st : LeaseStatus) : Op unit :=
  modify (λ self,
    match self.(active_lease_index) with
    | Some index =>
        self <| leases := alter (close_lease st) index self.(leases) |>
             <| active_lease_index := None |>
    | None => self
    end).

(** [boots.last_mut()] with its end recorded unless it has one *)
Definition close_boot (ended_at : Z) (boot : ConnectorBoot) : ConnectorBoot :=
  match boot.(ended_at_millis) with
  | None => boot <| ended_at_millis := Some ended_at |>
  | Some _ => boot
  end.

Definition close_current_boot (ended_at : Z) : Op unit :=
  modify (λ self, self <| boots :=
    alter (close_boot ended_at) (pred (length self.(boots))) self.(boots) |>).

Definition validate_boot_close_time (self : Connector) (ended_at : Z) :
    result ConnectorError unit :=
  reject BootTimeRegressed
    when (some_and (last self.(boots)) (λ boot,
            boot.(ended_at_millis) = None ∧ ended_at < boot.(started_at_millis))).

Definition append_current_revision : Op unit :=
  modify (λ self, self <| revisions := self.(revisions) ++
    [ {| rev_tenant_id := self.(tenant_id); rev_connector_id := self.(connector_id);
         rev_revision := self.(spec_revision); rev_generation := self.(generation);
         rev_adapter_kind := self.(adapter_kind); rev_desired_state := self.(desired_state);
         rev_max_concurrency := self.(max_concurrency) |} ] |>).

Definition begin_boot (new_boot_id : BootId) (started_at : Z) : Op unit :=
  self ← get;
  lift (ensure_may_run self.(desired_state));;
  match list_find (λ boot, boot.(boot_id) = new_boot_id) self.(boots) with
  | Some (_, existing) =>
      lift (reject BootConflict
        when (¬ (existing.(ended_at_millis) = None
                 ∧ existing.(boot_generation) = self.(generation)
                 ∧ existing.(started_at_millis) = started_at
                 ∧ self.(current_boot_id) = Some new_boot_id)))
  | None =>
      lift (reject BootTimeRegressed
        when (some_and (last self.(boots)) (λ current,
                started_at < default current.(started_at_millis) current.(ended_at_millis))));;
      lift (ensure_server_time_not_regressed self started_at);;
      close_current_boot started_at;;
      modify (λ self, self <| boots := self.(boots) ++
        [ {| boot_tenant_id := self.(tenant_id); boot_parent_id := self.(connector_id);
             boot_id := new_boot_id; boot_generation := self.(generation);
             started_at_millis := started_at; ended_at_millis := None |} ] |>);;
      modify (λ self, self <| current_boot_id := Some new_boot_id |>);;
      terminalize_active_lease LeaseSuperseded;;
      modify (λ self, self <| observed_state := ObsStarting |>);;
      advance_server_time_high_water started_at
  end.

(** The time window that both lease issuers check. *)
Definition lease_window (issued_at expires_at : Z) : result ConnectorError Z :=
  reject InvalidLeaseWindow when (expires_at ≤ issued_at);;
  ttl ← ok_or (i64_checked_sub expires_at issued_at) InvalidLeaseWindow;
  reject InvalidLeaseWindow when (ttl > MAX_LEASE_TTL_MILLIS);;
  Ok ttl.

Definition issue_lease (lease_id : LeaseId) (on_boot : BootId) (issued_at expires_at : Z) :
    Op ConnectorFence :=
  self ← get;
  lift (ensure_may_run self.(desired_state));;
  lift (reject StaleBoot when (self.(current_boot_id) ≠ Some on_boot));;
  ttl ← lift (lease_window issued_at expires_at);
  match list_find (λ lease, lease.(lease_fence).(fence_lease_id) = lease_id) self.(leases) with
  | Some (_, current) =>
      lift (reject LeaseConflict
        when (¬ (current.(lease_fence).(fence_boot_id) = on_boot
                 ∧ current.(issued_at_millis) = issued_at ∧ current.(ttl_millis) = ttl)));;
      mret current.(lease_fence)
  | None =>
      boot_started_at ← lift (ok_or
        (boot ← last self.(boots);
         if decide (boot.(boot_id) = on_boot) then Some boot.(started_at_millis) else None)
        StaleBoot);
      let last_issued_at :=
        match last self.(leases) with
        | Some lease => lease.(issued_at_millis) | None => boot_started_at
        end in
      let not_before :=
        Z.max (Z.max (default last_issued_at
                        (lease ← last self.(leases); lease.(last_heartbeat_at_millis)))
                 last_issued_at) boot_started_at in
      lift (reject LeaseTimeRegressed when (issued_at < not_before));;
      lift (ensure_server_time_not_regressed self issued_at);;
      lease_epoch ← lift (Epoch.checked_next self.(highest_lease_epoch));
      let fence :=
        {| fence_tenant_id := self.(tenant_id); fence_connector_id := self.(connector_id);
           fence_generation := self.(generation); fence_boot_id := on_boot;
           fence_lease_id := lease_id; fence_lease_epoch := lease_epoch |} in
      terminalize_active_lease LeaseSuperseded;;
      modify (λ self, self <| highest_lease_epoch := Some lease_epoch |>);;
      modify (λ self, self <| leases := self.(leases) ++
        [ {| lease_fence := fence; issued_at_millis := issued_at; expires_at_millis := expires_at;
             ttl_millis := ttl; status := LeaseActive; last_heartbeat := None;
             last_heartbeat_at_millis := None |} ] |>);;
      modify (λ self, self <| active_lease_index := Some (length self.(leases) - 1)%nat |>);;
      modify (λ self, self <| observed_state := ObsStarting |>);;
      advance_server_time_high_water issued_at;;
      mret fence
  end.

Definition validate_fence_coordinates (self : Connector) (fence : ConnectorFence) :
    result ConnectorError ConnectorLease :=
  reject WrongTenant when (fence.(fence_tenant_id) ≠ self.(tenant_id));;
  reject WrongConnector when (fence.(fence_connector_id) ≠ self.(connector_id));;
  reject StaleLease
    when (fence.(fence_generation) ≠ self.(generation)
          ∨ self.(current_boot_id) ≠ Some fence.(fence_boot_id));;
  '(index, current) ← ok_or (list_find (λ lease, lease.(lease_fence) = fence) self.(leases))
                        StaleLease;
  match current.(status) with
  | LeaseActive =>
      if decide (self.(active_lease_index) = Some index) then Ok current else Err StaleLease
  | LeaseExpiredStatus => Err LeaseExpired
  | LeaseRevokedStatus => Err LeaseRevoked
  | LeaseSuperseded => Err StaleLease
  end.

Definition validate_fence (self : Connector) (fence : ConnectorFence) (now_millis : Z) :
    result ConnectorError unit :=
  current ← validate_fence_coordinates self fence;
  reject LeaseExpired when (now_millis >= current.(expires_at_millis)).

Definition beat (ack : HeartbeatAck) (sequence : Z) (state : ConnectorObservedState)
    (capacity_available observed_at : Z) (lease : ConnectorLease) : ConnectorLease :=
  lease <| expires_at_millis := ack.(ack_lease_expires_at_millis) |>
        <| last_heartbeat := Some
             {| hb_sequence := sequence; hb_state := state;
                hb_capacity_available := capacity_available; hb_ack := ack |} |>
        <| last_heartbeat_at_millis := Some observed_at |>.

Definition record_heartbeat (fence : ConnectorFence) (sequence observed_at : Z)
    (state : ConnectorObservedState) (capacity_available minimum_interval : Z) :
    Op HeartbeatAck :=
  self ← get;
  current ← lift (validate_fence_coordinates self fence);
  disposition ← lift (evaluate_heartbeat current sequence observed_at state capacity_available
                        self.(max_concurrency) minimum_interval
                        self.(server_time_high_water_millis));
  match disposition with
  | Replay ack => mret ack
  | Advance ack =>
      index ← lift (ok_or (index ← self.(active_lease_index);
                           _ ← self.(leases) !! index; Some index) StaleLease);
      modify (λ self, self <| leases :=
        alter (beat ack sequence state capacity_available observed_at) index self.(leases) |>);;
      modify (λ self, self <| observed_state := state |>);;
      advance_server_time_high_water observed_at;;
      mret ack
  end.

Definition effective_observed_state (self : Connector) (now_millis : Z) : ConnectorObservedState :=
  if decide (self.(desired_state) = Revoked) then ObsRevoked
  else if decide (some_and (index ← self.(active_lease_index); self.(leases) !! index) (λ lease,
                    lease.(status) = LeaseActive ∧ now_millis < lease.(expires_at_millis)))
  then self.(observed_state) else ObsOffline.

(** [self.leases[index]] cannot be out of range: [validate_fence_coordinates] has
    just found the active lease at that index ([fence_coordinates_Ok]). *)
Definition expire_lease (fence : ConnectorFence) (expected_expires_at now_millis : Z) : Op unit :=
  self ← get;
  lift (validate_fence_coordinates self fence);;
  index ← lift (ok_or self.(active_lease_index) StaleLease);
  lease ← lift (ok_or (self.(leases) !! index) StaleLease);
  lift (reject LeaseConflict when (lease.(expires_at_millis) ≠ expected_expires_at));;
  lift (reject LeaseNotExpired when (now_millis < lease.(expires_at_millis)));;
  lift (ensure_server_time_not_regressed self now_millis);;
  modify (λ self, self <| leases :=
    alter (λ lease, lease <| status := LeaseExpiredStatus |>) index self.(leases) |>);;
  modify (λ self, self <| active_lease_index := None |>);;
  modify (λ self, self <| observed_state := ObsOffline |>);;
  advance_server_time_high_water now_millis.

Definition revoke_lease (fence : ConnectorFence) : Op unit :=
  self ← get;
  lift (validate_fence_coordinates self fence);;
  index ← lift (ok_or self.(active_lease_index) StaleLease);
  modify (λ self, self <| leases :=
    alter (λ lease, lease <| status := LeaseRevokedStatus |>) index self.(leases) |>);;
  modify (λ self, self <| active_lease_index := None |>);;
  modify (λ self, self <| observed_state := ObsOffline |>).

Definition next_revision (self : Connector) : result ConnectorError Revision :=
  map_err (λ _, CounterExhausted) (Revision.checked_next self.(spec_revision)).

Definition advance_generation (expected_revision : Revision) (changed_at : Z) :
    Op ConnectorGeneration :=
  self ← get;
  lift (reject RevisionConflict when (self.(spec_revision) ≠ expected_revision));;
  lift (reject ConnectorRevoked when (self.(desired_state) = Revoked));;
  lift (ensure_server_time_not_regressed self changed_at);;
  lift (validate_boot_close_time self changed_at);;
  next_generation ← lift (Generation.checked_next self.(generation));
  next ← lift (next_revision self);
  close_current_boot changed_at;;
  modify (λ self, self <| generation := next_generation |>);;
  modify (λ self, self <| spec_revision := next |>);;
  modify (λ self, self <| current_boot_id := None |>);;
  terminalize_active_lease LeaseSuperseded;;
  modify (λ self, self <| observed_state := ObsOffline |>);;
  advance_server_time_high_water changed_at;;
  append_current_revision;;
  mret next_generation.

(** [matches!(state, Running | Draining)] *)
Definition is_live (state : ConnectorDesiredState) : bool :=
  match state with Running | Draining => true | _ => false end.

Definition revise_live_configuration (expected_revision : Revision)
    (target : ConnectorDesiredState) (changed_at : Z) : Op Revision :=
  self ← get;
  lift (reject RevisionConflict when (self.(spec_revision) ≠ expected_revision));;
  lift (reject ConnectorRevoked when (self.(desired_state) = Revoked));;
  lift (reject InvalidDesiredTransition
    when (is_live target = false
          ∨ (self.(desired_state) ≠ target
             ∧ valid_desired_transition self.(desired_state) target = false)));;
  lift (ensure_server_time_not_regressed self changed_at);;
  next ← lift (next_revision self);
  modify (λ self, self <| spec_revision := next |>);;
  modify (λ self, self <| desired_state := target |>);;
  modify (λ self,
    if decide (target = Draining) then self <| observed_state := ObsDraining |> else self);;
  advance_server_time_high_water changed_at;;
  append_current_revision;;
  mret next.

(** The [match desired_state] of [set_desired_state]. *)
Definition enter_desired_state (target : ConnectorDesiredState) (changed_at : Z) : Op unit :=
  match target with
  | Draining => modify (λ self, self <| observed_state := ObsDraining |>)
  | Stopped =>
      close_current_boot changed_at;;
      modify (λ self, self <| current_boot_id := None |>);;
      terminalize_active_lease LeaseRevokedStatus;;
      modify (λ self, self <| observed_state := ObsOffline |>)
  | Revoked =>
      close_current_boot changed_at;;
      modify (λ self, self <| current_boot_id := None |>);;
      terminalize_active_lease LeaseRevokedStatus;;
      modify (λ self, self <| observed_state := ObsRevoked |>)
  | Running => mret tt
  end.

Definition set_desired_state (expected_revision : Revision) (target : ConnectorDesiredState)
    (changed_at : Z) : Op Revision :=
  self ← get;
  lift (reject RevisionConflict when (self.(spec_revision) ≠ expected_revision));;
  lift (reject ConnectorRevoked when (self.(desired_state) = Revoked));;
  if decide (self.(desired_state) = target) then mret self.(spec_revision)
  else
    lift (ensure_server_time_not_regressed self changed_at);;
    let allowed :=
      match self.(desired_state), target with
      | Running, (Draining | Stopped | Revoked)
      | Draining, (Running | Stopped | Revoked)
      | Stopped, (Running | Revoked) => true
      | _, _ => false
      end in
    lift (reject InvalidDesiredTransition when (allowed = false));;
    lift (if decide (target = Stopped ∨ target = Revoked)
          then validate_boot_close_time self changed_at else Ok tt);;
    next ← lift (next_revision self);
    modify (λ self, self <| spec_revision := next |>);;
    modify (λ self, self <| desired_state := target |>);;
    enter_desired_state target changed_at;;
    advance_server_time_high_water changed_at;;
    append_current_revision;;
    mret next.

(** ** The durable image *)

Record HeartbeatAckSnapshot : Type := {
  sa_sequence : Z;
  sa_lease_expires_at_millis : Z
}.

Record HeartbeatRecordSnapshot : Type := {
  sh_sequence : Z;
  sh_state : ConnectorObservedState;
  sh_capacity_available : Z;
  sh_ack : HeartbeatAckSnapshot
}.

Record ConnectorBootSnapshot : Type := {
  sb_tenant_id : TenantId;
  sb_connector_id : ConnectorId;
  sb_boot_id : BootId;
  sb_generation : Z;
  sb_started_at_millis : Z;
  sb_ended_at_millis : option Z
}.

Record ConnectorLeaseSnapshot : Type := {
  sl_tenant_id : TenantId;
  sl_connector_id : ConnectorId;
  sl_generation : Z;
  sl_boot_id : BootId;
  sl_lease_id : LeaseId;
  sl_lease_epoch : Z;
  sl_issued_at_millis : Z;
  sl_expires_at_millis : Z;
  sl_ttl_millis : Z;
  sl_status : LeaseStatus;
  sl_last_heartbeat : option HeartbeatRecordSnapshot;
  sl_last_heartbeat_at_millis : option Z
}.

Record ConnectorRevisionSnapshot : Type := {
  sr_tenant_id : TenantId;
  sr_connector_id : ConnectorId;
  sr_revision : Revision;
  sr_generation : Z;
  sr_adapter_kind : AdapterKind;
  sr_desired_state : ConnectorDesiredState;
  sr_max_concurrency : Z
}.

Record ConnectorSnapshot : Type := {
  s_tenant_id : TenantId;
  s_connector_id : ConnectorId;
  s_host_id : HostId;
  s_adapter_kind : AdapterKind;
  s_generation : Z;
  s_desired_state : ConnectorDesiredState;
  s_observed_state : ConnectorObservedState;
  s_max_concurrency : Z;
  s_boots : list ConnectorBootSnapshot;
  s_current_boot_id : option BootId;
  s_leases : list ConnectorLeaseSnapshot;
  s_active_lease_index : option nat;
  s_highest_lease_epoch : option Z;
  s_server_time_high_water_millis : option Z;
  s_spec_revision : Revision;
  s_revisions : list ConnectorRevisionSnapshot
}.

Definition ack_image (a : HeartbeatAck) : HeartbeatAckSnapshot :=
  {| sa_sequence := a.(ack_sequence);
     sa_lease_expires_at_millis := a.(ack_lease_expires_at_millis) |}.
Definition heartbeat_image (h : HeartbeatRecord) : HeartbeatRecordSnapshot :=
  {| sh_sequence := h.(hb_sequence); sh_state := h.(hb_state);
     sh_capacity_available := h.(hb_capacity_available); sh_ack := ack_image h.(hb_ack) |}.
Definition boot_image (b : ConnectorBoot) : ConnectorBootSnapshot :=
  {| sb_tenant_id := b.(boot_tenant_id); sb_connector_id := b.(boot_parent_id);
     sb_boot_id := b.(boot_id); sb_generation := b.(boot_generation);
     sb_started_at_millis := b.(started_at_millis); sb_ended_at_millis := b.(ended_at_millis) |}.
Definition lease_image (l : ConnectorLease) : ConnectorLeaseSnapshot :=
  {| sl_tenant_id := l.(lease_fence).(fence_tenant_id);
     sl_connector_id := l.(lease_fence).(fence_connector_id);
     sl_generation := l.(lease_fence).(fence_generation);
     sl_boot_id := l.(lease_fence).(fence_boot_id);
     sl_lease_id := l.(lease_fence).(fence_lease_id);
     sl_lease_epoch := l.(lease_fence).(fence_lease_epoch);
     sl_issued_at_millis := l.(issued_at_millis); sl_expires_at_millis := l.(expires_at_millis);
     sl_ttl_millis := l.(ttl_millis); sl_status := l.(status);
     sl_last_heartbeat := heartbeat_image <$> l.(last_heartbeat);
     sl_last_heartbeat_at_millis := l.(last_heartbeat_at_millis) |}.
Definition revision_image (r : ConnectorRevision) : ConnectorRevisionSnapshot :=
  {| sr_tenant_id := r.(rev_tenant_id); sr_connector_id := r.(rev_connector_id);
     sr_revision := r.(rev_revision); sr_generation := r.(rev_generation);
     sr_adapter_kind := r.(rev_adapter_kind); sr_desired_state := r.(rev_desired_state);
     sr_max_concurrency := r.(rev_max_concurrency) |}.

Definition snapshot (self : Connector) : ConnectorSnapshot :=
  {| s_tenant_id := self.(tenant_id); s_connector_id := self.(connector_id);
     s_host_id := self.(host_id); s_adapter_kind := self.(adapter_kind);
     s_generation := self.(generation); s_desired_state := self.(desired_state);
     s_observed_state := self.(observed_state); s_max_concurrency := self.(max_concurrency);
     s_boots := boot_image <$> self.(boots); s_current_boot_id := self.(current_boot_id);
     s_leases := lease_image <$> self.(leases);
     s_active_lease_index := self.(active_lease_index);
     s_highest_lease_epoch := self.(highest_lease_epoch);
     s_server_time_high_water_millis := self.(server_time_high_water_millis);
     s_spec_revision := self.(spec_revision); s_revisions := revision_image <$> self.(revisions) |}.

Definition snapshot_generation (value : Z) : result ConnectorSnapshotError ConnectorGeneration :=
  if decide (value = 0 ∨ value > Revision.MAX) then Err InvalidGeneration else Ok value.
Definition snapshot_epoch (value : Z) : result ConnectorSnapshotError LeaseEpoch :=
  if decide (value = 0 ∨ value > Revision.MAX) then Err InvalidLeaseHistory else Ok value.

Definition snapshot_heartbeat (lease : ConnectorLeaseSnapshot) (max_concurrency : Z) :
    result ConnectorSnapshotError (option HeartbeatRecord) :=
  match lease.(sl_last_heartbeat), lease.(sl_last_heartbeat_at_millis) with
  | None, None =>
      reject InvalidHeartbeat
        when (none_or (i64_checked_add lease.(sl_issued_at_millis) lease.(sl_ttl_millis))
                (λ initial_expiry, initial_expiry ≠ lease.(sl_expires_at_millis)));;
      Ok None
  | Some heartbeat, Some observed_at =>
      reject InvalidHeartbeat
        when (heartbeat.(sh_sequence) = 0 ∨ heartbeat.(sh_sequence) > Revision.MAX
              ∨ heartbeat.(sh_capacity_available) > max_concurrency
              ∨ server_derived heartbeat.(sh_state) = true
              ∨ observed_at < lease.(sl_issued_at_millis)
              ∨ heartbeat.(sh_ack).(sa_sequence) ≠ heartbeat.(sh_sequence)
              ∨ heartbeat.(sh_ack).(sa_lease_expires_at_millis) ≠ lease.(sl_expires_at_millis)
              ∨ none_or (i64_checked_add observed_at lease.(sl_ttl_millis))
                  (λ expected, expected ≠ lease.(sl_expires_at_millis)));;
      Ok (Some {| hb_sequence := heartbeat.(sh_sequence); hb_state := heartbeat.(sh_state);
                  hb_capacity_available := heartbeat.(sh_capacity_available);
                  hb_ack := {| ack_sequence := heartbeat.(sh_ack).(sa_sequence);
                               ack_lease_expires_at_millis :=
                                 heartbeat.(sh_ack).(sa_lease_expires_at_millis) |} |})
  | _, _ => Err InvalidHeartbeat
  end.

(** The loops of [try_from_snapshot], each over [iter().enumerate()]. *)

Definition valid_revision_step (previous revision : ConnectorRevisionSnapshot) : Prop :=
  if decide (revision.(sr_generation) = previous.(sr_generation)) then
    (previous.(sr_desired_state) = revision.(sr_desired_state)
     ∧ is_live revision.(sr_desired_state) = true)
    ∨ valid_desired_transition previous.(sr_desired_state) revision.(sr_desired_state) = true
  else
    some_and (u64_checked_add previous.(sr_generation) 1) (λ next,
      revision.(sr_generation) = next)
    ∧ revision.(sr_desired_state) = previous.(sr_desired_state).
Global Instance valid_revision_step_dec p r : Decision (valid_revision_step p r).
Proof. unfold valid_revision_step. case_decide; apply _. Defined.

Definition check_revision (s : ConnectorSnapshot) (acc : list ConnectorRevision)
    (entry : nat * ConnectorRevisionSnapshot) :
    result ConnectorSnapshotError (list ConnectorRevision) :=
  let '(index, revision) := entry in
  reject InvalidRevisionHistory
    when (revision.(sr_tenant_id) ≠ s.(s_tenant_id)
          ∨ revision.(sr_connector_id) ≠ s.(s_connector_id)
          ∨ revision.(sr_revision) ≠ Z.of_nat index + 1
          ∨ revision.(sr_adapter_kind) ≠ s.(s_adapter_kind)
          ∨ revision.(sr_max_concurrency) ≠ s.(s_max_concurrency)
          ∨ revision.(sr_generation) = 0
          ∨ revision.(sr_generation) > s.(s_generation));;
  reject InvalidRevisionHistory
    when (index = 0%nat ∧ (revision.(sr_generation) ≠ Generation.INITIAL
                           ∨ revision.(sr_desired_state) ≠ Running));;
  reject InvalidRevisionHistory
    when ((0 < index)%nat ∧ some_and (s.(s_revisions) !! pred index) (λ previous,
            ¬ valid_revision_step previous revision));;
  generation ← snapshot_generation revision.(sr_generation);
  Ok (acc ++ [ {| rev_tenant_id := revision.(sr_tenant_id);
                  rev_connector_id := revision.(sr_connector_id);
                  rev_revision := revision.(sr_revision); rev_generation := generation;
                  rev_adapter_kind := revision.(sr_adapter_kind);
                  rev_desired_state := revision.(sr_desired_state);
                  rev_max_concurrency := revision.(sr_max_concurrency) |} ]).

Definition check_boot (s : ConnectorSnapshot) (acc : gset BootId * list ConnectorBoot)
    (entry : nat * ConnectorBootSnapshot) :
    result ConnectorSnapshotError (gset BootId * list ConnectorBoot) :=
  let '(index, boot) := entry in
  let '(seen_boot_ids, boots) := acc in
  reject InvalidBootHistory
    when (boot.(sb_tenant_id) ≠ s.(s_tenant_id) ∨ boot.(sb_connector_id) ≠ s.(s_connector_id)
          ∨ boot.(sb_generation) = 0 ∨ boot.(sb_generation) > s.(s_generation)
          ∨ boot.(sb_boot_id) ∈ seen_boot_ids
          ∨ some_and boot.(sb_ended_at_millis) (λ ended, ended < boot.(sb_started_at_millis))
          ∨ ((index + 1 < length s.(s_boots))%nat ∧ boot.(sb_ended_at_millis) = None));;
  reject InvalidBootHistory
    when ((0 < index)%nat ∧ some_and (s.(s_boots) !! pred index) (λ previous,
            boot.(sb_generation) < previous.(sb_generation)
            ∨ boot.(sb_started_at_millis)
                < default previous.(sb_started_at_millis) previous.(sb_ended_at_millis)));;
  generation ← snapshot_generation boot.(sb_generation);
  Ok ({[ boot.(sb_boot_id) ]} ∪ seen_boot_ids,
      boots ++ [ {| boot_tenant_id := boot.(sb_tenant_id);
                    boot_parent_id := boot.(sb_connector_id); boot_id := boot.(sb_boot_id);
                    boot_generation := generation;
                    started_at_millis := boot.(sb_started_at_millis);
                    ended_at_millis := boot.(sb_ended_at_millis) |} ]).

Record LeaseScan : Type := MkLeaseScan {
  seen_lease_ids : gset LeaseId;
  scanned_leases : list ConnectorLease;
  active_index : option nat
}.

Definition check_lease (s : ConnectorSnapshot) (acc : LeaseScan)
    (entry : nat * ConnectorLeaseSnapshot) : result ConnectorSnapshotError LeaseScan :=
  let '(index, lease) := entry in
  let matching_boot := snd <$> list_find (λ boot, boot.(sb_boot_id) = lease.(sl_boot_id)
      ∧ boot.(sb_generation) = lease.(sl_generation)) s.(s_boots) in
  reject InvalidLeaseHistory
    when (lease.(sl_tenant_id) ≠ s.(s_tenant_id) ∨ lease.(sl_connector_id) ≠ s.(s_connector_id)
          ∨ lease.(sl_generation) = 0 ∨ lease.(sl_generation) > s.(s_generation)
          ∨ lease.(sl_lease_epoch) ≠ Z.of_nat index + 1
          ∨ ¬ (1 ≤ lease.(sl_ttl_millis) ≤ MAX_LEASE_TTL_MILLIS)
          ∨ none_or (i64_checked_add lease.(sl_issued_at_millis) lease.(sl_ttl_millis))
              (λ first_expiry, lease.(sl_expires_at_millis) < first_expiry)
          ∨ lease.(sl_lease_id) ∈ acc.(seen_lease_ids)
          ∨ matching_boot = None
          ∨ some_and matching_boot (λ boot,
              lease.(sl_issued_at_millis) < boot.(sb_started_at_millis))
          ∨ some_and matching_boot (λ boot,
              some_and boot.(sb_ended_at_millis) (λ ended, lease.(sl_issued_at_millis) > ended))
          ∨ ((0 < index)%nat ∧ some_and (s.(s_leases) !! pred index) (λ previous,
               lease.(sl_issued_at_millis) < previous.(sl_issued_at_millis))));;
  reject InvalidActiveLease
    when (lease.(sl_status) = LeaseActive ∧ is_Some acc.(active_index));;
  generation ← snapshot_generation lease.(sl_generation);
  epoch ← snapshot_epoch lease.(sl_lease_epoch);
  heartbeat ← snapshot_heartbeat lease s.(s_max_concurrency);
  Ok (MkLeaseScan
        ({[ lease.(sl_lease_id) ]} ∪ acc.(seen_lease_ids))
        (acc.(scanned_leases) ++
          [ {| lease_fence :=
                 {| fence_tenant_id := lease.(sl_tenant_id);
                    fence_connector_id := lease.(sl_connector_id);
                    fence_generation := generation; fence_boot_id := lease.(sl_boot_id);
                    fence_lease_id := lease.(sl_lease_id); fence_lease_epoch := epoch |};
               issued_at_millis := lease.(sl_issued_at_millis);
               expires_at_millis := lease.(sl_expires_at_millis);
               ttl_millis := lease.(sl_ttl_millis); status := lease.(sl_status);
               last_heartbeat := heartbeat;
               last_heartbeat_at_millis := lease.(sl_last_heartbeat_at_millis) |} ])
        (if decide (lease.(sl_status) = LeaseActive) then Some index else acc.(active_index))).

Definition enumerate {A} (l : list A) : list (nat * A) := zip (seq 0 (length l)) l.

(** Every instant of the histories, in the order of the iterator chain. *)
Definition recorded_times (s : ConnectorSnapshot) : list Z :=
  (s.(s_boots) ≫= λ boot, boot.(sb_started_at_millis) :: option_list boot.(sb_ended_at_millis)) ++
  (sl_issued_at_millis <$> s.(s_leases)) ++
  (s.(s_leases) ≫= λ lease, option_list lease.(sl_last_heartbeat_at_millis)).

Definition try_from_snapshot (s : ConnectorSnapshot) : result ConnectorSnapshotError Connector :=
  generation ← snapshot_generation s.(s_generation);
  reject SnapshotInvalidCapacity when (s.(s_max_concurrency) = 0);;
  reject InvalidRevisionHistory
    when (Z.of_nat (length s.(s_revisions)) ≠ s.(s_spec_revision) ∨ s.(s_revisions) = []);;
  revisions ← try_fold (check_revision s) (enumerate s.(s_revisions)) [];
  current_revision ← ok_or (last s.(s_revisions)) InvalidRevisionHistory;
  reject InvalidRevisionHistory
    when (current_revision.(sr_generation) ≠ s.(s_generation)
          ∨ current_revision.(sr_desired_state) ≠ s.(s_desired_state));;
  '(_, boots) ← try_fold (check_boot s) (enumerate s.(s_boots)) (∅, []);
  let open_boot := boot ← last s.(s_boots);
                   if decide (boot.(sb_ended_at_millis) = None) then Some boot else None in
  reject InvalidCurrentBoot
    when (s.(s_current_boot_id) ≠ sb_boot_id <$> open_boot
          ∨ some_and open_boot (λ _, is_live s.(s_desired_state) = false
              ∨ none_or (last s.(s_boots)) (λ boot, boot.(sb_generation) ≠ s.(s_generation))));;
  scan ← try_fold (check_lease s) (enumerate s.(s_leases)) (MkLeaseScan ∅ [] None);
  reject InvalidActiveLease
    when (s.(s_active_lease_index) ≠ scan.(active_index)
          ∨ s.(s_highest_lease_epoch)
            ≠ (if decide (s.(s_leases) = []) then None
               else Some (Z.of_nat (length s.(s_leases)))));;
  reject InvalidActiveLease
    when (some_and scan.(active_index) (λ index, (index + 1)%nat ≠ length s.(s_leases)));;
  reject InvalidActiveLease
    when (some_and (index ← scan.(active_index); s.(s_leases) !! index) (λ lease,
            s.(s_current_boot_id) ≠ Some lease.(sl_boot_id)
            ∨ lease.(sl_generation) ≠ s.(s_generation)));;
  reject InvalidTerminalState
    when ((s.(s_desired_state) = Stopped ∨ s.(s_desired_state) = Revoked)
          ∧ (is_Some s.(s_current_boot_id) ∨ is_Some scan.(active_index)));;
  reject InvalidTerminalState
    when (s.(s_desired_state) = Revoked ∧ s.(s_observed_state) ≠ ObsRevoked);;
  reject InvalidTerminalState
    when (s.(s_desired_state) = Stopped ∧ s.(s_observed_state) ≠ ObsOffline);;
  reject InvalidServerTimeHighWater
    when (Exists (λ time, none_or s.(s_server_time_high_water_millis) (λ high, time > high))
            (recorded_times s));;
  reject InvalidServerTimeHighWater
    when (Exists (λ lease, lease.(sl_status) = LeaseExpiredStatus
            ∧ none_or s.(s_server_time_high_water_millis) (λ high,
                high < lease.(sl_expires_at_millis))) s.(s_leases));;
  highest ← (match s.(s_highest_lease_epoch) with
             | Some epoch => Some <$> snapshot_epoch epoch | None => Ok None
             end);
  Ok {| tenant_id := s.(s_tenant_id); connector_id := s.(s_connector_id);
        host_id := s.(s_host_id); adapter_kind := s.(s_adapter_kind); generation := generation;
        desired_state := s.(s_desired_state); observed_state := s.(s_observed_state);
        max_concurrency := s.(s_max_concurrency); boots := boots;
        current_boot_id := s.(s_current_boot_id); leases := scan.(scanned_leases);
        active_lease_index := s.(s_active_lease_index); highest_lease_epoch := highest;
        server_time_high_water_millis := s.(s_server_time_high_water_millis);
        spec_revision := s.(s_spec_revision); revisions := revisions |}.
