(* ===== verification/ConnectorHead.v ===== *)
(** * Connector heads: the constant-size projections of a connector

    Models [ConnectorHeartbeatHead] and [ConnectorControlHead] of
    [crates/dtx-connect-registry/src/connector.rs], the states that online
    control operations use in place of the whole aggregate. *)

From S2P Require Import Prelude Domain Connector.

(** ** The heartbeat head *)

Record ConnectorHeartbeatHeadSnapshot : Type := {
  shh_tenant_id : TenantId;
  shh_connector_id : ConnectorId;
  shh_generation : Z;
  shh_adapter_kind : AdapterKind;
  shh_spec_revision : Revision;
  shh_desired_state : ConnectorDesiredState;
  shh_observed_state : ConnectorObservedState;
  shh_max_concurrency : Z;
  shh_current_boot_id : BootId;
  shh_highest_lease_epoch : Z;
  shh_server_time_high_water_millis : option Z;
  shh_active_lease : ConnectorLeaseSnapshot
}.

Record ConnectorHeartbeatHead : Type := {
  hh_tenant_id : TenantId;
  hh_connector_id : ConnectorId;
  hh_generation : ConnectorGeneration;
  hh_adapter_kind : AdapterKind;
  hh_spec_revision : Revision;
  hh_desired_state : ConnectorDesiredState;
  hh_observed_state : ConnectorObservedState;
  hh_max_concurrency : Z;
  hh_current_boot_id : BootId;
  hh_highest_lease_epoch : LeaseEpoch;
  hh_server_time_high_water_millis : option Z;
  hh_active_lease : ConnectorLease
}.

Definition ConnectorHeartbeatHead_eta (h : ConnectorHeartbeatHead) : ConnectorHeartbeatHead :=
  {| hh_tenant_id := h.(hh_tenant_id); hh_connector_id := h.(hh_connector_id);
     hh_generation := h.(hh_generation); hh_adapter_kind := h.(hh_adapter_kind);
     hh_spec_revision := h.(hh_spec_revision); hh_desired_state := h.(hh_desired_state);
     hh_observed_state := h.(hh_observed_state); hh_max_concurrency := h.(hh_max_concurrency);
     hh_current_boot_id := h.(hh_current_boot_id);
     hh_highest_lease_epoch := h.(hh_highest_lease_epoch);
     hh_server_time_high_water_millis := h.(hh_server_time_high_water_millis);
     hh_active_lease := h.(hh_active_lease) |}.
Global Instance hh_observed_state_field : Field hh_observed_state :=
  ltac:(field_of ConnectorHeartbeatHead_eta hh_observed_state).
Global Instance hh_server_time_field : Field hh_server_time_high_water_millis :=
  ltac:(field_of ConnectorHeartbeatHead_eta hh_server_time_high_water_millis).
Global Instance hh_active_lease_field : Field hh_active_lease :=
  ltac:(field_of ConnectorHeartbeatHead_eta hh_active_lease).

Module HeartbeatHead.
Definition try_from_snapshot (s : ConnectorHeartbeatHeadSnapshot) :
    result ConnectorSnapshotError ConnectorHeartbeatHead :=
  generation ← snapshot_generation s.(shh_generation);
  highest ← snapshot_epoch s.(shh_highest_lease_epoch);
  let lease := s.(shh_active_lease) in
  reject SnapshotInvalidCapacity when (s.(shh_max_concurrency) = 0);;
  reject InvalidActiveLease
    when (is_live s.(shh_desired_state) = false ∨ lease.(sl_status) ≠ LeaseActive
          ∨ lease.(sl_tenant_id) ≠ s.(shh_tenant_id)
          ∨ lease.(sl_connector_id) ≠ s.(shh_connector_id)
          ∨ lease.(sl_generation) ≠ s.(shh_generation)
          ∨ lease.(sl_boot_id) ≠ s.(shh_current_boot_id)
          ∨ lease.(sl_lease_epoch) ≠ s.(shh_highest_lease_epoch)
          ∨ ¬ (1 ≤ lease.(sl_ttl_millis) ≤ MAX_LEASE_TTL_MILLIS));;
  heartbeat ← snapshot_heartbeat lease s.(shh_max_concurrency);
  let owner_draining_overlay :=
    bool_decide (s.(shh_desired_state) = Draining ∧ s.(shh_observed_state) = ObsDraining) in
  reject InvalidHeartbeat
    when (owner_draining_overlay = false
          ∧ (some_and heartbeat (λ h, h.(hb_state) ≠ s.(shh_observed_state))
             ∨ (heartbeat = None ∧ s.(shh_observed_state) ≠ ObsStarting)));;
  reject InvalidServerTimeHighWater
    when (none_or s.(shh_server_time_high_water_millis) (λ high,
            high < lease.(sl_issued_at_millis)
            ∨ some_and lease.(sl_last_heartbeat_at_millis) (λ observed_at, high < observed_at)));;
  Ok {| hh_tenant_id := s.(shh_tenant_id); hh_connector_id := s.(shh_connector_id);
        hh_generation := generation; hh_adapter_kind := s.(shh_adapter_kind);
        hh_spec_revision := s.(shh_spec_revision); hh_desired_state := s.(shh_desired_state);
        hh_observed_state := s.(shh_observed_state);
        hh_max_concurrency := s.(shh_max_concurrency);
        hh_current_boot_id := s.(shh_current_boot_id); hh_highest_lease_epoch := highest;
        hh_server_time_high_water_millis := s.(shh_server_time_high_water_millis);
        hh_active_lease :=
          {| lease_fence :=
               {| fence_tenant_id := lease.(sl_tenant_id);
                  fence_connector_id := lease.(sl_connector_id); fence_generation := generation;
                  fence_boot_id := lease.(sl_boot_id); fence_lease_id := lease.(sl_lease_id);
                  fence_lease_epoch := highest |};
             issued_at_millis := lease.(sl_issued_at_millis);
             expires_at_millis := lease.(sl_expires_at_millis);
             ttl_millis := lease.(sl_ttl_millis); status := lease.(sl_status);
             last_heartbeat := heartbeat;
             last_heartbeat_at_millis := lease.(sl_last_heartbeat_at_millis) |} |}.

Definition snapshot (self : ConnectorHeartbeatHead) : ConnectorHeartbeatHeadSnapshot :=
  {| shh_tenant_id := self.(hh_tenant_id); shh_connector_id := self.(hh_connector_id);
     shh_generation := self.(hh_generation); shh_adapter_kind := self.(hh_adapter_kind);
     shh_spec_revision := self.(hh_spec_revision); shh_desired_state := self.(hh_desired_state);
     shh_observed_state := self.(hh_observed_state);
     shh_max_concurrency := self.(hh_max_concurrency);
     shh_current_boot_id := self.(hh_current_boot_id);
     shh_highest_lease_epoch := self.(hh_highest_lease_epoch);
     shh_server_time_high_water_millis := self.(hh_server_time_high_water_millis);
     shh_active_lease := lease_image self.(hh_active_lease) |}.

Definition validate_fence_coordinates (self : ConnectorHeartbeatHead) (fence : ConnectorFence) :
    result ConnectorError unit :=
  reject WrongTenant when (fence.(fence_tenant_id) ≠ self.(hh_tenant_id));;
  reject WrongConnector when (fence.(fence_connector_id) ≠ self.(hh_connector_id));;
  reject StaleLease
    when (fence.(fence_generation) ≠ self.(hh_generation)
          ∨ fence.(fence_boot_id) ≠ self.(hh_current_boot_id)
          ∨ fence ≠ self.(hh_active_lease).(lease_fence)).

Definition validate_fence (self : ConnectorHeartbeatHead) (fence : ConnectorFence)
    (now_millis : Z) : result ConnectorError unit :=
  validate_fence_coordinates self fence;;
  reject LeaseExpired when (now_millis >= self.(hh_active_lease).(expires_at_millis)).

Definition record_heartbeat (fence : ConnectorFence) (sequence observed_at : Z)
    (state : ConnectorObservedState) (capacity_available minimum_interval : Z) :
    ST ConnectorHeartbeatHead ConnectorError HeartbeatAck :=
  self ← get;
  lift (validate_fence_coordinates self fence);;
  disposition ← lift (evaluate_heartbeat self.(hh_active_lease) sequence observed_at state
                        capacity_available self.(hh_max_concurrency) minimum_interval
                        self.(hh_server_time_high_water_millis));
  match disposition with
  | Replay ack => mret ack
  | Advance ack =>
      modify (λ self, self <| hh_active_lease :=
        beat ack sequence state capacity_available observed_at self.(hh_active_lease) |>);;
      modify (λ self, self <| hh_observed_state := state |>);;
      modify (λ self, self <| hh_server_time_high_water_millis := Some observed_at |>);;
      mret ack
  end.
End HeartbeatHead.

(** ** The control head: a validated snapshot *)

Record ConnectorControlHead : Type := {
  ch_tenant_id : TenantId;
  ch_connector_id : ConnectorId;
  ch_host_id : HostId;
  ch_adapter_kind : AdapterKind;
  ch_generation : Z;
  ch_desired_state : ConnectorDesiredState;
  ch_observed_state : ConnectorObservedState;
  ch_max_concurrency : Z;
  ch_spec_revision : Revision;
  ch_latest_revision : ConnectorRevisionSnapshot;
  ch_current_boot : option ConnectorBootSnapshot;
  ch_active_lease : option ConnectorLeaseSnapshot;
  ch_highest_lease_epoch : option Z;
  ch_server_time_high_water_millis : option Z
}.

Definition ConnectorControlHead_eta (h : ConnectorControlHead) : ConnectorControlHead :=
  {| ch_tenant_id := h.(ch_tenant_id); ch_connector_id := h.(ch_connector_id);
     ch_host_id := h.(ch_host_id); ch_adapter_kind := h.(ch_adapter_kind);
     ch_generation := h.(ch_generation); ch_desired_state := h.(ch_desired_state);
     ch_observed_state := h.(ch_observed_state); ch_max_concurrency := h.(ch_max_concurrency);
     ch_spec_revision := h.(ch_spec_revision); ch_latest_revision := h.(ch_latest_revision);
     ch_current_boot := h.(ch_current_boot); ch_active_lease := h.(ch_active_lease);
     ch_highest_lease_epoch := h.(ch_highest_lease_epoch);
     ch_server_time_high_water_millis := h.(ch_server_time_high_water_millis) |}.
Global Instance ch_generation_field : Field ch_generation :=
  ltac:(field_of ConnectorControlHead_eta ch_generation).
Global Instance ch_desired_state_field : Field ch_desired_state :=
  ltac:(field_of ConnectorControlHead_eta ch_desired_state).
Global Instance ch_observed_state_field : Field ch_observed_state :=
  ltac:(field_of ConnectorControlHead_eta ch_observed_state).
Global Instance ch_spec_revision_field : Field ch_spec_revision :=
  ltac:(field_of ConnectorControlHead_eta ch_spec_revision).
Global Instance ch_latest_revision_field : Field ch_latest_revision :=
  ltac:(field_of ConnectorControlHead_eta ch_latest_revision).
Global Instance ch_current_boot_field : Field ch_current_boot :=
  ltac:(field_of ConnectorControlHead_eta ch_current_boot).
Global Instance ch_active_lease_field : Field ch_active_lease :=
  ltac:(field_of ConnectorControlHead_eta ch_active_lease).
Global Instance ch_highest_lease_epoch_field : Field ch_highest_lease_epoch :=
  ltac:(field_of ConnectorControlHead_eta ch_highest_lease_epoch).
Global Instance ch_server_time_field : Field ch_server_time_high_water_millis :=
  ltac:(field_of ConnectorControlHead_eta ch_server_time_high_water_millis).

Module ControlHead.
Notation Op := (ST ConnectorControlHead ConnectorError).

Definition try_from_snapshot (s : ConnectorControlHead) :
    result ConnectorSnapshotError ConnectorControlHead :=
  snapshot_generation s.(ch_generation);;
  reject SnapshotInvalidCapacity when (s.(ch_max_concurrency) = 0);;
  let revision := s.(ch_latest_revision) in
  reject InvalidRevisionHistory
    when (revision.(sr_tenant_id) ≠ s.(ch_tenant_id)
          ∨ revision.(sr_connector_id) ≠ s.(ch_connector_id)
          ∨ revision.(sr_revision) ≠ s.(ch_spec_revision)
          ∨ revision.(sr_generation) ≠ s.(ch_generation)
          ∨ revision.(sr_adapter_kind) ≠ s.(ch_adapter_kind)
          ∨ revision.(sr_desired_state) ≠ s.(ch_desired_state)
          ∨ revision.(sr_max_concurrency) ≠ s.(ch_max_concurrency));;
  reject InvalidCurrentBoot
    when (some_and s.(ch_current_boot) (λ boot,
            boot.(sb_tenant_id) ≠ s.(ch_tenant_id) ∨ boot.(sb_connector_id) ≠ s.(ch_connector_id)
            ∨ boot.(sb_generation) ≠ s.(ch_generation) ∨ is_Some boot.(sb_ended_at_millis)));;
  match s.(ch_active_lease) with
  | Some lease =>
      highest ← ok_or s.(ch_highest_lease_epoch) InvalidActiveLease;
      snapshot_epoch highest;;
      reject InvalidActiveLease
        when (lease.(sl_tenant_id) ≠ s.(ch_tenant_id)
              ∨ lease.(sl_connector_id) ≠ s.(ch_connector_id)
              ∨ lease.(sl_generation) ≠ s.(ch_generation) ∨ lease.(sl_status) ≠ LeaseActive
              ∨ lease.(sl_lease_epoch) ≠ highest
              ∨ sb_boot_id <$> s.(ch_current_boot) ≠ Some lease.(sl_boot_id)
              ∨ ¬ (1 ≤ lease.(sl_ttl_millis) ≤ MAX_LEASE_TTL_MILLIS));;
      snapshot_heartbeat lease s.(ch_max_concurrency);;
      Ok tt
  | None => Ok tt
  end;;
  reject InvalidActiveLease
    when (some_and s.(ch_highest_lease_epoch) (λ epoch, epoch = 0 ∨ epoch > Revision.MAX));;
  reject InvalidTerminalState
    when ((s.(ch_desired_state) = Stopped ∨ s.(ch_desired_state) = Revoked)
          ∧ (is_Some s.(ch_current_boot) ∨ is_Some s.(ch_active_lease)));;
  reject InvalidTerminalState
    when ((s.(ch_desired_state) = Revoked ∧ s.(ch_observed_state) ≠ ObsRevoked)
          ∨ (s.(ch_desired_state) = Stopped ∧ s.(ch_observed_state) ≠ ObsOffline));;
  reject InvalidActiveLease when (is_Some s.(ch_active_lease) ∧ s.(ch_current_boot) = None);;
  reject InvalidServerTimeHighWater
    when (some_and s.(ch_current_boot) (λ boot,
            none_or s.(ch_server_time_high_water_millis) (λ high,
              boot.(sb_started_at_millis) > high))
          ∨ some_and s.(ch_active_lease) (λ lease,
              none_or s.(ch_server_time_high_water_millis) (λ high,
                lease.(sl_issued_at_millis) > high
                ∨ some_and lease.(sl_last_heartbeat_at_millis) (λ observed, observed > high))));;
  Ok s.

Definition current_boot_id (self : ConnectorControlHead) : option BootId :=
  sb_boot_id <$> self.(ch_current_boot).

Definition heartbeat_head (self : ConnectorControlHead) :
    result ConnectorSnapshotError ConnectorHeartbeatHead :=
  current_boot_id ← ok_or (current_boot_id self) InvalidCurrentBoot;
  active_lease ← ok_or self.(ch_active_lease) InvalidActiveLease;
  highest ← ok_or self.(ch_highest_lease_epoch) InvalidActiveLease;
  HeartbeatHead.try_from_snapshot
    {| shh_tenant_id := self.(ch_tenant_id); shh_connector_id := self.(ch_connector_id);
       shh_generation := self.(ch_generation); shh_adapter_kind := self.(ch_adapter_kind);
       shh_spec_revision := self.(ch_spec_revision);
       shh_desired_state := self.(ch_desired_state);
       shh_observed_state := self.(ch_observed_state);
       shh_max_concurrency := self.(ch_max_concurrency);
       shh_current_boot_id := current_boot_id; shh_highest_lease_epoch := highest;
       shh_server_time_high_water_millis := self.(ch_server_time_high_water_millis);
       shh_active_lease := active_lease |}.

Definition active_fence (self : ConnectorControlHead) : option ConnectorFence :=
  (λ h, h.(hh_active_lease).(lease_fence)) <$> result_ok (heartbeat_head self).

Definition active_lease (self : ConnectorControlHead) : option ConnectorLease :=
  hh_active_lease <$> result_ok (heartbeat_head self).

Definition validate_fence (self : ConnectorControlHead) (fence : ConnectorFence)
    (now_millis : Z) : result ConnectorError unit :=
  head ← map_err (λ _, StaleLease) (heartbeat_head self);
  HeartbeatHead.validate_fence head fence now_millis.

Definition ensure_server_time_not_regressed (self : ConnectorControlHead)
    (candidate_millis : Z) : result ConnectorError unit :=
  reject ServerTimeRegressed
    when (some_and self.(ch_server_time_high_water_millis) (λ high, candidate_millis < high)).

Definition advance_server_time_high_water (candidate_millis : Z) : Op unit :=
  modify (λ self, self <| ch_server_time_high_water_millis :=
    raise_high_water self.(ch_server_time_high_water_millis) candidate_millis |>).

Definition refresh_latest_revision : Op unit :=
  modify (λ self, self <| ch_latest_revision :=
    {| sr_tenant_id := self.(ch_tenant_id); sr_connector_id := self.(ch_connector_id);
       sr_revision := self.(ch_spec_revision); sr_generation := self.(ch_generation);
       sr_adapter_kind := self.(ch_adapter_kind); sr_desired_state := self.(ch_desired_state);
       sr_max_concurrency := self.(ch_max_concurrency) |} |>).

Definition begin_boot (boot_id : BootId) (started_at : Z) : Op unit :=
  self ← get;
  lift (ensure_may_run self.(ch_desired_state));;
  let proceed :=
    lift (ensure_server_time_not_regressed self started_at);;
    modify (λ self, self <| ch_current_boot := Some
      {| sb_tenant_id := self.(ch_tenant_id); sb_connector_id := self.(ch_connector_id);
         sb_boot_id := boot_id; sb_generation := self.(ch_generation);
         sb_started_at_millis := started_at; sb_ended_at_millis := None |} |>);;
    modify (λ self, self <| ch_active_lease := None |>);;
    modify (λ self, self <| ch_observed_state := ObsStarting |>);;
    advance_server_time_high_water started_at in
  match self.(ch_current_boot) with
  | Some current =>
      if decide (current.(sb_boot_id) = boot_id) then
        lift (reject BootConflict when (current.(sb_started_at_millis) ≠ started_at))
      else
        lift (reject BootTimeRegressed when (started_at < current.(sb_started_at_millis)));;
        proceed
  | None => proceed
  end.

Definition issue_lease (lease_id : LeaseId) (boot_id : BootId) (issued_at expires_at : Z) :
    Op ConnectorFence :=
  self ← get;
  lift (ensure_may_run self.(ch_desired_state));;
  lift (reject StaleBoot when (current_boot_id self ≠ Some boot_id));;
  ttl ← lift (lease_window issued_at expires_at);
  let proceed :=
    lift (ensure_server_time_not_regressed self issued_at);;
    highest ← lift (match self.(ch_highest_lease_epoch) with
                    | Some epoch => map_err (λ _, CounterExhausted) (Some <$> snapshot_epoch epoch)
                    | None => Ok None
                    end);
    lease_epoch ← lift (Epoch.checked_next highest);
    generation ← lift (map_err (λ _, CounterExhausted) (snapshot_generation self.(ch_generation)));
    let fence :=
      {| fence_tenant_id := self.(ch_tenant_id); fence_connector_id := self.(ch_connector_id);
         fence_generation := generation; fence_boot_id := boot_id; fence_lease_id := lease_id;
         fence_lease_epoch := lease_epoch |} in
    modify (λ self, self <| ch_highest_lease_epoch := Some lease_epoch |>);;
    modify (λ self, self <| ch_active_lease := Some
      {| sl_tenant_id := self.(ch_tenant_id); sl_connector_id := self.(ch_connector_id);
         sl_generation := self.(ch_generation); sl_boot_id := boot_id; sl_lease_id := lease_id;
         sl_lease_epoch := lease_epoch; sl_issued_at_millis := issued_at;
         sl_expires_at_millis := expires_at; sl_ttl_millis := ttl; sl_status := LeaseActive;
         sl_last_heartbeat := None; sl_last_heartbeat_at_millis := None |} |>);;
    modify (λ self, self <| ch_observed_state := ObsStarting |>);;
    advance_server_time_high_water issued_at;;
    mret fence in
  match self.(ch_active_lease) with
  | Some current =>
      if decide (current.(sl_lease_id) = lease_id) then
        if decide (current.(sl_boot_id) = boot_id ∧ current.(sl_issued_at_millis) = issued_at
                   ∧ current.(sl_ttl_millis) = ttl)
        then lift (ok_or (active_fence self) StaleLease)
        else lift (Err LeaseConflict)
      else proceed
  | None => proceed
  end.

Definition next_revision (self : ConnectorControlHead) : result ConnectorError Revision :=
  map_err (λ _, CounterExhausted) (Revision.checked_next self.(ch_spec_revision)).

Definition before_boot (self : ConnectorControlHead) (changed_at : Z) : Prop :=
  some_and self.(ch_current_boot) (λ boot, changed_at < boot.(sb_started_at_millis)).
Global Instance before_boot_dec self t : Decision (before_boot self t).
Proof. unfold before_boot. apply _. Defined.

Definition advance_generation (expected_revision : Revision) (changed_at : Z) : Op Z :=
  self ← get;
  lift (reject RevisionConflict when (self.(ch_spec_revision) ≠ expected_revision));;
  lift (reject ConnectorRevoked when (self.(ch_desired_state) = Revoked));;
  lift (ensure_server_time_not_regressed self changed_at);;
  lift (reject BootTimeRegressed when (before_boot self changed_at));;
  generation ← lift (ok_or (value ← u64_checked_add self.(ch_generation) 1;
                            if decide (value ≤ Revision.MAX) then Some value else None)
                       CounterExhausted);
  revision ← lift (next_revision self);
  modify (λ self, self <| ch_generation := generation |>);;
  modify (λ self, self <| ch_spec_revision := revision |>);;
  modify (λ self, self <| ch_current_boot := None |>);;
  modify (λ self, self <| ch_active_lease := None |>);;
  modify (λ self, self <| ch_observed_state := ObsOffline |>);;
  advance_server_time_high_water changed_at;;
  refresh_latest_revision;;
  mret generation.

Definition revise_live_configuration (expected_revision : Revision)
    (target : ConnectorDesiredState) (changed_at : Z) : Op Revision :=
  self ← get;
  lift (reject RevisionConflict when (self.(ch_spec_revision) ≠ expected_revision));;
  lift (reject ConnectorRevoked when (self.(ch_desired_state) = Revoked));;
  lift (reject InvalidDesiredTransition
    when (is_live target = false
          ∨ (self.(ch_desired_state) ≠ target
             ∧ valid_desired_transition self.(ch_desired_state) target = false)));;
  lift (ensure_server_time_not_regressed self changed_at);;
  revision ← lift (next_revision self);
  modify (λ self, self <| ch_spec_revision := revision |>);;
  modify (λ self, self <| ch_desired_state := target |>);;
  modify (λ self,
    if decide (target = Draining) then self <| ch_observed_state := ObsDraining |> else self);;
  advance_server_time_high_water changed_at;;
  refresh_latest_revision;;
  mret revision.

Definition enter_desired_state (target : ConnectorDesiredState) (self : ConnectorControlHead) :
    ConnectorControlHead :=
  match target with
  | Draining => self <| ch_observed_state := ObsDraining |>
  | Stopped => self <| ch_current_boot := None |> <| ch_active_lease := None |>
                    <| ch_observed_state := ObsOffline |>
  | Revoked => self <| ch_current_boot := None |> <| ch_active_lease := None |>
                    <| ch_observed_state := ObsRevoked |>
  | Running => self
  end.

Definition set_desired_state (expected_revision : Revision) (target : ConnectorDesiredState)
    (changed_at : Z) : Op Revision :=
  self ← get;
  lift (reject RevisionConflict when (self.(ch_spec_revision) ≠ expected_revision));;
  lift (reject ConnectorRevoked when (self.(ch_desired_state) = Revoked));;
  if decide (self.(ch_desired_state) = target) then mret self.(ch_spec_revision)
  else
    lift (reject InvalidDesiredTransition
      when (valid_desired_transition self.(ch_desired_state) target = false));;
    lift (ensure_server_time_not_regressed self changed_at);;
    lift (reject BootTimeRegressed
      when ((target = Stopped ∨ target = Revoked) ∧ before_boot self changed_at));;
    revision ← lift (next_revision self);
    modify (λ self, self <| ch_spec_revision := revision |>);;
    modify (λ self, self <| ch_desired_state := target |>);;
    modify (enter_desired_state target);;
    advance_server_time_high_water changed_at;;
    refresh_latest_revision;;
    mret revision.
End ControlHead.
