(* ===== verification/ConnectorInv.v ===== *)
(** * Connectors: the invariant of the aggregate

    What every connector built by [register] and changed by the operations of
    the aggregate satisfies: its three append-only histories are consistent with
    each other, with the current pointers and with the server clock. *)

From S2P Require Import Prelude Domain AgentHost Connector.

(** ** Lists in which neighbours are related *)

Definition linked {A} (R : A → A → Prop) (l : list A) : Prop :=
  ∀ i x y, l !! i = Some x → l !! S i = Some y → R x y.

Lemma linked_nil {A} (R : A → A → Prop) : linked R [].
Proof. by intros i x y Hx. Qed.

Lemma linked_singleton {A} (R : A → A → Prop) a : linked R [a].
Proof. by intros [|i] x y Hx. Qed.

Lemma linked_snoc {A} (R : A → A → Prop) l x :
  linked R (l ++ [x]) ↔ linked R l ∧ ∀ y, last l = Some y → R y x.
Proof.
  split.
  - intros H. split.
    + intros i a b Ha Hb. apply (H i); by apply lookup_app_l_Some.
    + intros y Hy. rewrite last_lookup in Hy. apply (H (pred (length l))).
      * by apply lookup_app_l_Some.
      * assert (length l ≠ 0%nat) by (intros Hl; by apply nil_length_inv in Hl as ->).
        replace (S (pred (length l))) with (length l) by lia. by apply list_lookup_middle.
  - intros [H Hl] i a b Ha Hb. destruct (decide (S i < length l)%nat) as [Hlt|Hge].
    + rewrite lookup_app_l in Ha, Hb by lia. by eapply H.
    + apply lookup_lt_Some in Hb as Hlen. rewrite length_app in Hlen. cbn in Hlen.
      rewrite lookup_app_l in Ha by lia. rewrite lookup_app_r in Hb by lia.
      replace (S i - length l)%nat with 0%nat in Hb by lia. injection Hb as <-.
      apply Hl. rewrite last_lookup. by replace (pred (length l)) with i by lia.
Qed.

Lemma alter_last {A} (f : A → A) l x : alter f (pred (length (l ++ [x]))) (l ++ [x]) = l ++ [f x].
Proof.
  rewrite length_app, Nat.add_1_r. cbn. rewrite alter_app_r_alt by lia. by rewrite Nat.sub_diag.
Qed.

Lemma alter_snoc {A} (f : A → A) l x : alter f (length l) (l ++ [x]) = l ++ [f x].
Proof. rewrite alter_app_r_alt by lia. by rewrite Nat.sub_diag. Qed.

(** ** The invariant *)

(** The server clock has reached [t]. *)
Definition covers (high_water : option Z) (t : Z) : Prop :=
  some_and high_water (λ high, t ≤ high).

Definition current_revision (c : Connector) : ConnectorRevision :=
  {| rev_tenant_id := c.(tenant_id); rev_connector_id := c.(connector_id);
     rev_revision := c.(spec_revision); rev_generation := c.(generation);
     rev_adapter_kind := c.(adapter_kind); rev_desired_state := c.(desired_state);
     rev_max_concurrency := c.(max_concurrency) |}.

Record revision_ok (c : Connector) (i : nat) (r : ConnectorRevision) : Prop := {
  ro_scope : r.(rev_tenant_id) = c.(tenant_id) ∧ r.(rev_connector_id) = c.(connector_id);
  ro_number : r.(rev_revision) = Z.of_nat i + 1;
  ro_spec : r.(rev_adapter_kind) = c.(adapter_kind) ∧ r.(rev_max_concurrency) = c.(max_concurrency);
  ro_generation : 1 ≤ r.(rev_generation) ≤ c.(generation)
}.

Definition revision_step (r r' : ConnectorRevision) : Prop :=
  valid_revision_step (revision_image r) (revision_image r').

Record revisions_ok (c : Connector) : Prop := {
  rv_generation : 1 ≤ c.(generation) ≤ Revision.MAX;
  rv_capacity : c.(max_concurrency) ≠ 0;
  rv_count : Z.of_nat (length c.(revisions)) = c.(spec_revision);
  rv_bound : c.(spec_revision) ≤ Revision.MAX;
  rv_all : ∀ i r, c.(revisions) !! i = Some r → revision_ok c i r;
  rv_first : ∀ r, c.(revisions) !! 0%nat = Some r →
    r.(rev_generation) = 1 ∧ r.(rev_desired_state) = Running;
  rv_linked : linked revision_step c.(revisions);
  rv_last : last c.(revisions) = Some (current_revision c)
}.

Record boot_ok (c : Connector) (b : ConnectorBoot) : Prop := {
  bo_scope : b.(boot_tenant_id) = c.(tenant_id) ∧ b.(boot_parent_id) = c.(connector_id);
  bo_generation : 1 ≤ b.(boot_generation) ≤ c.(generation);
  bo_started : covers c.(server_time_high_water_millis) b.(started_at_millis);
  bo_ended : ∀ e, b.(ended_at_millis) = Some e →
    b.(started_at_millis) ≤ e ∧ covers c.(server_time_high_water_millis) e
}.

Definition boot_order (b b' : ConnectorBoot) : Prop :=
  is_Some b.(ended_at_millis) ∧ b.(boot_generation) ≤ b'.(boot_generation) ∧
  default b.(started_at_millis) b.(ended_at_millis) ≤ b'.(started_at_millis).

(** The process that is running, by the histories. *)
Definition open_boot (c : Connector) : option ConnectorBoot :=
  b ← last c.(boots); if decide (b.(ended_at_millis) = None) then Some b else None.

Record boots_ok (c : Connector) : Prop := {
  bs_all : Forall (boot_ok c) c.(boots);
  bs_ids : NoDup (boot_id <$> c.(boots));
  bs_linked : linked boot_order c.(boots);
  bs_current : c.(current_boot_id) = boot_id <$> open_boot c;
  bs_live : ∀ b, open_boot c = Some b →
    is_live c.(desired_state) = true ∧ b.(boot_generation) = c.(generation)
}.

Definition beat_ok (c : Connector) (l : ConnectorLease) : Prop :=
  match l.(last_heartbeat), l.(last_heartbeat_at_millis) with
  | None, None => l.(expires_at_millis) = l.(issued_at_millis) + l.(ttl_millis)
  | Some h, Some at_ =>
      h.(hb_sequence) ≠ 0 ∧ h.(hb_sequence) ≤ Revision.MAX ∧
      h.(hb_capacity_available) ≤ c.(max_concurrency) ∧ server_derived h.(hb_state) = false ∧
      l.(issued_at_millis) ≤ at_ ∧ h.(hb_ack).(ack_sequence) = h.(hb_sequence) ∧
      h.(hb_ack).(ack_lease_expires_at_millis) = l.(expires_at_millis) ∧
      i64_checked_add at_ l.(ttl_millis) = Some l.(expires_at_millis) ∧
      covers c.(server_time_high_water_millis) at_
  | _, _ => False
  end.

(** The boot on which a lease was issued, while it ran. *)
Definition issued_on (l : ConnectorLease) (b : ConnectorBoot) : Prop :=
  b.(boot_id) = l.(lease_fence).(fence_boot_id) ∧
  b.(boot_generation) = l.(lease_fence).(fence_generation) ∧
  b.(started_at_millis) ≤ l.(issued_at_millis) ∧
  ∀ e, b.(ended_at_millis) = Some e → l.(issued_at_millis) ≤ e.

Record lease_ok (c : Connector) (l : ConnectorLease) : Prop := {
  lo_scope : l.(lease_fence).(fence_tenant_id) = c.(tenant_id) ∧
    l.(lease_fence).(fence_connector_id) = c.(connector_id);
  lo_generation : 1 ≤ l.(lease_fence).(fence_generation) ≤ c.(generation);
  lo_ttl : 1 ≤ l.(ttl_millis) ≤ MAX_LEASE_TTL_MILLIS;
  lo_window : i64_checked_add l.(issued_at_millis) l.(ttl_millis)
    = Some (l.(issued_at_millis) + l.(ttl_millis));
  lo_beat : beat_ok c l;
  lo_boot : ∃ b, b ∈ c.(boots) ∧ issued_on l b;
  lo_issued : covers c.(server_time_high_water_millis) l.(issued_at_millis);
  lo_expired : l.(status) = LeaseExpiredStatus →
    covers c.(server_time_high_water_millis) l.(expires_at_millis)
}.

Record leases_ok (c : Connector) : Prop := {
  ls_all : Forall (lease_ok c) c.(leases);
  ls_ids : NoDup ((λ l, l.(lease_fence).(fence_lease_id)) <$> c.(leases));
  ls_epochs : ∀ i l, c.(leases) !! i = Some l →
    l.(lease_fence).(fence_lease_epoch) = Z.of_nat i + 1;
  ls_linked : linked (λ l l', l.(issued_at_millis) ≤ l'.(issued_at_millis)) c.(leases);
  ls_active : ∀ i, c.(active_lease_index) = Some i → ∃ ls l,
    c.(leases) = ls ++ [l] ∧ i = length ls ∧ l.(status) = LeaseActive ∧
    c.(current_boot_id) = Some l.(lease_fence).(fence_boot_id) ∧
    l.(lease_fence).(fence_generation) = c.(generation);
  ls_inactive : ∀ i l, c.(leases) !! i = Some l → l.(status) = LeaseActive →
    c.(active_lease_index) = Some i;
  ls_highest : c.(highest_lease_epoch)
    = if decide (c.(leases) = []) then None else Some (Z.of_nat (length c.(leases)));
  ls_bound : Z.of_nat (length c.(leases)) ≤ Revision.MAX
}.

Record connector_ok (c : Connector) : Prop := {
  co_revisions : revisions_ok c;
  co_boots : boots_ok c;
  co_leases : leases_ok c;
  co_revoked : c.(desired_state) = Revoked → c.(observed_state) = ObsRevoked;
  co_stopped : c.(desired_state) = Stopped → c.(observed_state) = ObsOffline
}.

(** ** Preservation, history by history *)

Lemma raise_covers hw t x : covers hw x ∨ x ≤ t → covers (raise_high_water hw t) x.
Proof. destruct hw; cbn; lia. Qed.

Lemma not_regressed_covers c t x :
  ensure_server_time_not_regressed c t = Ok tt → covers c.(server_time_high_water_millis) x → x ≤ t.
Proof.
  unfold ensure_server_time_not_regressed. rewrite reject_if_Ok.
  destruct (server_time_high_water_millis c); cbn; lia.
Qed.

(** The later states of a connector, as far as a recorded lease can tell. *)
Record evolves (c c' : Connector) : Prop := {
  ev_scope : c'.(tenant_id) = c.(tenant_id) ∧ c'.(connector_id) = c.(connector_id) ∧
    c'.(max_concurrency) = c.(max_concurrency);
  ev_generation : c.(generation) ≤ c'.(generation);
  ev_time : ∀ t, covers c.(server_time_high_water_millis) t →
    covers c'.(server_time_high_water_millis) t;
  ev_boots : ∀ l b, b ∈ c.(boots) → issued_on l b →
    covers c.(server_time_high_water_millis) l.(issued_at_millis) →
    ∃ b', b' ∈ c'.(boots) ∧ issued_on l b'
}.

Lemma lease_ok_evolves c c' l : evolves c c' → lease_ok c l → lease_ok c' l.
Proof.
  intros [(Ht & Hc & Hm) Hg Hhw Hb] [Hs Hlg Httl Hw Hbeat (b & Hin & Hon) Hiss Hexp].
  split; rewrite ?Ht, ?Hc; try done; [lia| |by eauto|by auto|by auto].
  unfold beat_ok in *. rewrite Hm.
  destruct (last_heartbeat l), (last_heartbeat_at_millis l); try done.
  destruct Hbeat as (? & ? & ? & ? & ? & ? & ? & ? & ?). split_and!; auto.
Qed.

Lemma revisions_ok_same c c' :
  revisions_ok c → current_revision c' = current_revision c → c'.(revisions) = c.(revisions) →
  revisions_ok c'.
Proof.
  intros [Hg Hcap Hn Hb Hall Hf Hl Hlast] Hcur Hr.
  assert (Hcur' := Hcur). unfold current_revision in Hcur. injection Hcur as H1 H2 H3 H4 H5 H6 H7.
  split; rewrite ?Hr, ?Hcur', ?H3, ?H4, ?H7; try done.
  intros i r Hi. destruct (Hall i r Hi). split; rewrite ?H1, ?H2, ?H4, ?H5, ?H7; done.
Qed.

(** A configuration change appends the new revision. *)
Lemma revisions_ok_append c c' :
  revisions_ok c → c'.(revisions) = c.(revisions) ++ [current_revision c'] →
  next_revision c = Ok c'.(spec_revision) →
  c'.(tenant_id) = c.(tenant_id) ∧ c'.(connector_id) = c.(connector_id) ∧
    c'.(max_concurrency) = c.(max_concurrency) ∧ c'.(adapter_kind) = c.(adapter_kind) →
  c.(generation) ≤ c'.(generation) ≤ Revision.MAX →
  revision_step (current_revision c) (current_revision c') → revisions_ok c'.
Proof.
  intros [Hg Hcap Hn Hb Hall Hf Hl Hlast] Hr Hnext (Ht & Hc & Hm & Ha) Hg' Hstep.
  unfold next_revision in Hnext. res_inv Hnext. apply Revision.checked_next_Ok in Hnext as [Hlt Hs].
  split; rewrite ?Hr, ?Hm; try done; try lia.
  - rewrite length_app. cbn. lia.
  - intros i r Hi. apply lookup_app_Some in Hi as [Hi|[Hle Hi]].
    + destruct (Hall i r Hi) as [[] ? [] ?].
      split; rewrite ?Ht, ?Hc, ?Ha, ?Hm; try done. lia.
    + apply list_lookup_singleton_Some in Hi as [Hi <-].
      split; cbn; try done; lia.
  - destruct (revisions c) as [|r0 rs]; [done|]. cbn. apply Hf.
  - apply linked_snoc. split; [done|]. rewrite Hlast. by intros y [= <-].
  - by rewrite last_snoc.
Qed.

(** [boots_ok] after the clock moved and the desired state changed. *)
Lemma boots_ok_same c c' :
  boots_ok c → evolves c c' → c'.(boots) = c.(boots) → c'.(current_boot_id) = c.(current_boot_id) →
  c'.(generation) = c.(generation) →
  (is_live c.(desired_state) = true → is_live c'.(desired_state) = true) → boots_ok c'.
Proof.
  intros [Hall Hids Hl Hcur Hlive] [(Ht & Hc & _) _ Hhw _] Hb Hcb Hg Hd.
  assert (Ho : open_boot c' = open_boot c) by (unfold open_boot; by rewrite Hb).
  split; rewrite ?Hb, ?Hcb, ?Ho, ?Hg; try done.
  - eapply Forall_impl; [exact Hall|]. intros b [? ? ? He].
    split; rewrite ?Ht, ?Hc, ?Hg; try done; [by apply Hhw|]. intros e Hee. destruct (He e Hee); auto.
  - intros b Hob. destruct (Hlive b Hob); auto.
Qed.

(** The boots once the running one, if any, has been closed at [t]. *)
Definition closed_boots (t : Z) (bs : list ConnectorBoot) : list ConnectorBoot :=
  alter (close_boot t) (pred (length bs)) bs.

Lemma closed_boots_snoc t bs b : closed_boots t (bs ++ [b]) = bs ++ [close_boot t b].
Proof. apply alter_last. Qed.

Lemma close_boot_same t b :
  (close_boot t b).(boot_id) = b.(boot_id) ∧ (close_boot t b).(boot_generation) = b.(boot_generation) ∧
  (close_boot t b).(started_at_millis) = b.(started_at_millis) ∧
  (close_boot t b).(boot_tenant_id) = b.(boot_tenant_id) ∧
  (close_boot t b).(boot_parent_id) = b.(boot_parent_id) ∧
  (close_boot t b).(ended_at_millis) = Some (default t b.(ended_at_millis)).
Proof. unfold close_boot. destruct b as [? ? ? ? ? []]; done. Qed.

Lemma closed_boots_ids t bs : boot_id <$> closed_boots t bs = boot_id <$> bs.
Proof.
  destruct bs as [|b bs _] using rev_ind; [done|].
  rewrite closed_boots_snoc, !fmap_app. cbn. by destruct (close_boot_same t b) as [-> _].
Qed.

Record closed_ok (c : Connector) (bs : list ConnectorBoot) : Prop := {
  cl_all : Forall (boot_ok c) bs;
  cl_ids : NoDup (boot_id <$> bs);
  cl_linked : linked boot_order bs;
  cl_ended : ∀ b, last bs = Some b → is_Some b.(ended_at_millis)
}.

Lemma closed_boots_ok c c' t :
  boots_ok c → evolves c c' → covers c'.(server_time_high_water_millis) t →
  (∀ b, open_boot c = Some b → b.(started_at_millis) ≤ t) →
  closed_ok c' (closed_boots t c.(boots)).
Proof.
  intros [Hall Hids Hl Hcur Hlive] [(Ht & Hc & _) Hg Hhw _] Hcov Hopen.
  assert (Hmono : ∀ b, boot_ok c b → boot_ok c' b).
  { intros b [? ? ? He]. split; rewrite ?Ht, ?Hc; try done; [lia|by apply Hhw|].
    intros e Hee. destruct (He e Hee). auto. }
  split.
  - destruct (boots c) as [|b bs _] eqn:Hbs using rev_ind; [done|]. rewrite closed_boots_snoc.
    apply Forall_app in Hall as [Hall Hb]. rewrite Forall_singleton in Hb.
    apply Forall_app. split; [by eapply Forall_impl|]. apply Forall_singleton.
    assert (b.(ended_at_millis) = None → b.(started_at_millis) ≤ t) as Hst.
    { intros He. apply Hopen. unfold open_boot. rewrite Hbs, last_snoc. cbn. by rewrite decide_True. }
    destruct (Hmono b Hb) as [? ? ? He].
    destruct (close_boot_same t b) as (H1 & H2 & H3 & H4 & H5 & H6).
    split; rewrite ?H1, ?H2, ?H3, ?H4, ?H5, ?H6; try done.
    intros e [= <-]. destruct (ended_at_millis b) as [e|]; cbn; eauto.
  - by rewrite closed_boots_ids.
  - destruct (boots c) as [|b bs _] using rev_ind; [apply linked_nil|]. rewrite closed_boots_snoc.
    apply linked_snoc in Hl as [Hl Hlast]. apply linked_snoc. split; [done|].
    intros y Hy. destruct (Hlast y Hy) as (? & ? & ?).
    destruct (close_boot_same t b) as (_ & H2 & H3 & _). unfold boot_order. by rewrite H2, H3.
  - intros b Hb. destruct (boots c) as [|b' bs _] using rev_ind; [done|].
    rewrite closed_boots_snoc, last_snoc in Hb. injection Hb as <-.
    destruct (close_boot_same t b') as (_ & _ & _ & _ & _ & ->). eauto.
Qed.

Lemma closed_boots_issued c t l b :
  (∀ x, covers c.(server_time_high_water_millis) x → x ≤ t) →
  b ∈ c.(boots) → issued_on l b → covers c.(server_time_high_water_millis) l.(issued_at_millis) →
  ∃ b', b' ∈ closed_boots t c.(boots) ∧ issued_on l b'.
Proof.
  intros Ht Hin (H1 & H2 & H3 & H4) Hcov. apply Ht in Hcov.
  destruct (boots c) as [|x bs _] using rev_ind; [by apply not_elem_of_nil in Hin|].
  rewrite closed_boots_snoc. apply elem_of_app in Hin as [Hin|Hin%list_elem_of_singleton].
  - exists b. split; [set_solver|by repeat split].
  - subst x. exists (close_boot t b). split; [set_solver|].
    destruct (close_boot_same t b) as (E1 & E2 & E3 & _ & _ & E6).
    unfold issued_on. rewrite E1, E2, E3, E6. split_and!; try done.
    intros e [= <-]. destruct (ended_at_millis b); cbn; auto.
Qed.

(** No process runs after the current boot was closed. *)
Lemma boots_ok_closed c' :
  closed_ok c' c'.(boots) → c'.(current_boot_id) = None → boots_ok c'.
Proof.
  intros [Hall Hids Hl He] Hcur.
  assert (open_boot c' = None) as Ho.
  { unfold open_boot. destruct (last (boots c')) as [b|]; [|done]. cbn.
    destruct (He b eq_refl) as [e Hb]. by rewrite decide_False by (by rewrite Hb). }
  split; rewrite ?Ho; done.
Qed.

(** A new process takes over. *)
Lemma boots_ok_begun c' bs b :
  closed_ok c' bs → c'.(boots) = bs ++ [b] → boot_ok c' b → b.(boot_id) ∉ boot_id <$> bs →
  b.(ended_at_millis) = None → b.(boot_generation) = c'.(generation) →
  is_live c'.(desired_state) = true → c'.(current_boot_id) = Some b.(boot_id) →
  (∀ y, last bs = Some y → default y.(started_at_millis) y.(ended_at_millis) ≤ b.(started_at_millis)) →
  boots_ok c'.
Proof.
  intros [Hall Hids Hl He] Hbs Hb Hfresh Hopen Hgen Hlive Hcur Hlast.
  assert (open_boot c' = Some b) as Ho.
  { unfold open_boot. rewrite Hbs, last_snoc. cbn. by rewrite decide_True. }
  split; rewrite ?Ho, ?Hbs; try done.
  - apply Forall_app. split; [done|]. by apply Forall_singleton.
  - rewrite fmap_app. apply NoDup_app. split_and!; [done| |apply NoDup_singleton]. set_solver.
  - apply linked_snoc. split; [done|]. intros y Hy. split_and!; [by apply He| |by apply Hlast].
    rewrite Hgen. apply last_Some in Hy as [bs' ->].
    apply Forall_app in Hall as [_ Hy]. rewrite Forall_singleton in Hy. apply Hy.
  - by intros b' [= <-].
Qed.

Lemma leases_ok_same c c' :
  leases_ok c → evolves c c' → c'.(leases) = c.(leases) →
  c'.(active_lease_index) = c.(active_lease_index) →
  c'.(highest_lease_epoch) = c.(highest_lease_epoch) →
  (is_Some c.(active_lease_index) →
   c'.(current_boot_id) = c.(current_boot_id) ∧ c'.(generation) = c.(generation)) →
  leases_ok c'.
Proof.
  intros [Hall Hids Hep Hl Hact Hinact Hhi Hb] Hev Hls Hai Hhe Hcur.
  split; rewrite ?Hls, ?Hai, ?Hhe; try done.
  - eapply Forall_impl; [exact Hall|]. intros l. by apply lease_ok_evolves.
  - intros i Hi. destruct Hcur as [-> ->]; [by eauto|]. by apply Hact.
Qed.

(** The leases once the active one, if any, has been closed with status [st]. *)
Definition closed_leases (st : LeaseStatus) (c : Connector) : list ConnectorLease :=
  match c.(active_lease_index) with
  | Some i => alter (close_lease st) i c.(leases) | None => c.(leases)
  end.

Notation lease_id l := (l.(lease_fence).(fence_lease_id)).

Record settled (c : Connector) (ls : list ConnectorLease) : Prop := {
  se_all : Forall (lease_ok c) ls;
  se_ids : NoDup ((λ l, lease_id l) <$> ls);
  se_epochs : ∀ i l, ls !! i = Some l → l.(lease_fence).(fence_lease_epoch) = Z.of_nat i + 1;
  se_linked : linked (λ l l', l.(issued_at_millis) ≤ l'.(issued_at_millis)) ls;
  se_inactive : ∀ l, l ∈ ls → l.(status) ≠ LeaseActive
}.

(** The active lease is the last one. *)
Lemma active_lease_last c i l :
  leases_ok c → c.(active_lease_index) = Some i → c.(leases) !! i = Some l →
  ∃ ls, c.(leases) = ls ++ [l] ∧ i = length ls ∧ l.(status) = LeaseActive ∧
    c.(current_boot_id) = Some l.(lease_fence).(fence_boot_id) ∧
    l.(lease_fence).(fence_generation) = c.(generation).
Proof.
  intros Hok Hi Hl. destruct (ls_active _ Hok i Hi) as (ls & l' & Hls & -> & Hst & Hc & Hg).
  rewrite Hls, list_lookup_middle in Hl by done. injection Hl as <-. by exists ls.
Qed.

Lemma active_lookup c i :
  leases_ok c → c.(active_lease_index) = Some i → ∃ l, c.(leases) !! i = Some l.
Proof.
  intros Hok Hi. destruct (ls_active _ Hok i Hi) as (ls & l & -> & -> & _).
  exists l. by rewrite list_lookup_middle.
Qed.

Lemma leases_inactive c l :
  leases_ok c → c.(active_lease_index) = None → l ∈ c.(leases) → l.(status) ≠ LeaseActive.
Proof.
  intros Hok Hi [i Hl]%list_elem_of_lookup_1 Hst. apply (ls_inactive _ Hok i l Hl) in Hst. congruence.
Qed.

Lemma closed_leases_settled c c' st :
  leases_ok c → evolves c c' → st ≠ LeaseActive →
  (st = LeaseExpiredStatus → ∀ i l, c.(active_lease_index) = Some i → c.(leases) !! i = Some l →
    covers c'.(server_time_high_water_millis) l.(expires_at_millis)) →
  settled c' (closed_leases st c).
Proof.
  intros Hok Hev Hst Hexp. pose proof Hok as [Hall Hids Hep Hl Hact Hinact Hhi Hb].
  assert (Forall (lease_ok c') c.(leases)) as Hall'.
  { eapply Forall_impl; [exact Hall|]. intros l. by apply lease_ok_evolves. }
  unfold closed_leases. destruct (active_lease_index c) as [i|] eqn:Hi.
  - destruct (Hact i eq_refl) as (ls & l & Hls & -> & Hla & _).
    rewrite Hls in *. rewrite alter_snoc.
    assert (close_lease st l = l <| status := st |>) as ->
      by (unfold close_lease; by rewrite decide_True).
    apply Forall_app in Hall' as [Hall' Hl']. rewrite Forall_singleton in Hl'. split.
    + apply Forall_app. split; [done|]. rewrite Forall_singleton.
      destruct Hl' as [? ? ? ? Hbt ? ? He]. split; cbn; try done.
      intros ->. eapply Hexp; [done|done|]. by apply list_lookup_middle.
    + rewrite fmap_app in *. done.
    + intros i x [Hx|[Hge Hx]]%lookup_app_Some.
      * apply Hep. by apply lookup_app_l_Some.
      * apply list_lookup_singleton_Some in Hx as [Hx <-]. cbn. apply Hep.
        rewrite lookup_app_r by done. by rewrite Hx.
    + apply linked_snoc in Hl. by apply linked_snoc.
    + intros x [Hx|Hx%list_elem_of_singleton]%elem_of_app; [|by subst].
      intros Hxs. apply list_elem_of_lookup_1 in Hx as [j Hj].
      assert (Some (length ls) = Some j) as [= <-].
      { eapply Hinact; [|done]. by apply lookup_app_l_Some. }
      apply lookup_lt_Some in Hj. lia.
  - split; try done. intros l Hin Hs. by eapply leases_inactive.
Qed.

Lemma length_closed_leases st c : length (closed_leases st c) = length c.(leases).
Proof. unfold closed_leases. destruct (active_lease_index c); [apply length_alter|done]. Qed.

Lemma closed_leases_ids st c :
  (λ l, lease_id l) <$> closed_leases st c = (λ l, lease_id l) <$> c.(leases).
Proof.
  unfold closed_leases. destruct (active_lease_index c) as [i|]; [|done].
  apply list_eq. intros j. rewrite !list_lookup_fmap.
  destruct (decide (i = j)) as [<-|Hne]; [|by rewrite list_lookup_alter_ne].
  rewrite list_lookup_alter_eq. destruct (leases c !! i) as [l|]; [|done].
  cbn. unfold close_lease. by case_decide.
Qed.

(** No lease is active after the active one was closed. *)
Lemma leases_ok_closed c c' st :
  leases_ok c → settled c' c'.(leases) → c'.(leases) = closed_leases st c →
  c'.(active_lease_index) = None → c'.(highest_lease_epoch) = c.(highest_lease_epoch) →
  leases_ok c'.
Proof.
  intros [_ _ _ _ _ _ Hhi Hb] [Hall Hids Hep Hl Hin] Hls Hai Hhe.
  assert (length c'.(leases) = length c.(leases)) as Hlen by (by rewrite Hls, length_closed_leases).
  split; try done.
  - by rewrite Hai.
  - intros i l Hi Hs. exfalso. apply (Hin l); [by eapply list_elem_of_lookup_2|done].
  - rewrite Hhe, Hhi, Hlen.
    destruct (leases c), (leases c'); cbn in *; try lia; by rewrite ?decide_True, ?decide_False by done.
  - by rewrite Hlen.
Qed.

(** A new lease is issued on the current boot. *)
Lemma leases_ok_issued c' ls l :
  settled c' ls → c'.(leases) = ls ++ [l] → lease_ok c' l → lease_id l ∉ (λ l, lease_id l) <$> ls →
  (∀ y, last ls = Some y → y.(issued_at_millis) ≤ l.(issued_at_millis)) →
  l.(status) = LeaseActive → c'.(active_lease_index) = Some (length ls) →
  c'.(current_boot_id) = Some l.(lease_fence).(fence_boot_id) →
  l.(lease_fence).(fence_generation) = c'.(generation) →
  l.(lease_fence).(fence_lease_epoch) = Z.of_nat (length ls) + 1 →
  c'.(highest_lease_epoch) = Some (Z.of_nat (length ls) + 1) →
  Z.of_nat (length ls) + 1 ≤ Revision.MAX → leases_ok c'.
Proof.
  intros [Hall Hids Hep Hl Hin] Hls Hok Hfresh Hlast Hst Hai Hcur Hgen Hepoch Hhe Hb.
  split; rewrite ?Hls, ?Hai.
  - apply Forall_app. split; [done|]. by rewrite Forall_singleton.
  - rewrite fmap_app. apply NoDup_app. split_and!; [done| |apply NoDup_singleton]. set_solver.
  - intros i x [Hx|[Hge Hx]]%lookup_app_Some; [by apply Hep|].
    apply list_lookup_singleton_Some in Hx as [Hx <-]. rewrite Hepoch. lia.
  - by apply linked_snoc.
  - intros i [= <-]. by exists ls, l.
  - intros i x [Hx|[Hge Hx]]%lookup_app_Some Hs.
    + exfalso. apply (Hin x); [by eapply list_elem_of_lookup_2|done].
    + apply list_lookup_singleton_Some in Hx as [Hx <-]. f_equal. lia.
  - rewrite decide_False by (by destruct ls). rewrite Hhe, length_app. cbn. f_equal. lia.
  - rewrite length_app. cbn. lia.
Qed.

(** The active lease is renewed by a heartbeat. *)
Lemma leases_ok_beaten c c' ls l l' :
  leases_ok c → evolves c c' → c.(leases) = ls ++ [l] → c'.(leases) = ls ++ [l'] →
  c.(active_lease_index) = Some (length ls) →
  lease_ok c' l' → l'.(lease_fence) = l.(lease_fence) → l'.(status) = l.(status) →
  l'.(issued_at_millis) = l.(issued_at_millis) →
  c'.(active_lease_index) = c.(active_lease_index) →
  c'.(current_boot_id) = c.(current_boot_id) → c'.(generation) = c.(generation) →
  c'.(highest_lease_epoch) = c.(highest_lease_epoch) → leases_ok c'.
Proof.
  intros [Hall Hids Hep Hl Hact Hinact Hhi Hb] Hev Hls Hls' Hi Hok Hf Hst Hiss Hai Hcur Hg Hhe.
  rewrite Hls in *. destruct (Hact _ Hi) as (ls0 & l0 & [-> [= ->]]%app_inj_2 & _ & Hst0 & Hc0 & Hg0);
    [|done].
  split; rewrite ?Hls', ?Hai, ?Hhe.
  - apply Forall_app in Hall as [Hall _]. apply Forall_app.
    split; [|by rewrite Forall_singleton]. eapply Forall_impl; [exact Hall|].
    intros x. by apply lease_ok_evolves.
  - rewrite fmap_app in *. cbn in *. by rewrite Hf.
  - intros i x [Hx|[Hge Hx]]%lookup_app_Some.
    + apply Hep. by apply lookup_app_l_Some.
    + apply list_lookup_singleton_Some in Hx as [Hx <-]. rewrite Hf. apply Hep.
      rewrite lookup_app_r by done. by rewrite Hx.
  - apply linked_snoc in Hl as [Hl Hlast]. apply linked_snoc. by rewrite Hiss.
  - intros i Hi'. rewrite Hi in Hi'. injection Hi' as <-. exists ls0, l'.
    by rewrite Hst, Hcur, Hf, Hg.
  - intros i x [Hx|[Hge Hx]]%lookup_app_Some Hs.
    + eapply Hinact; [|exact Hs]. by apply lookup_app_l_Some.
    + apply list_lookup_singleton_Some in Hx as [Hx <-]. rewrite Hi. f_equal. lia.
  - rewrite Hhi, !length_app. by rewrite !decide_False by (by destruct ls0).
  - by rewrite length_app in *.
Qed.
