(* ===== verification/ConnectorSteps.v ===== *)
(** * Connectors: every operation preserves the invariant

    [step] runs one operation of the aggregate; [reachable_connector_ok] says
    that what [register] builds stays consistent under any sequence of them. *)

From S2P Require Import Prelude Domain AgentHost Connector ConnectorInv.

Inductive ConnectorOp : Type :=
| OpBeginBoot (boot : BootId) (started_at : Z)
| OpIssueLease (lease : LeaseId) (boot : BootId) (issued_at expires_at : Z)
| OpHeartbeat (fence : ConnectorFence) (sequence observed_at : Z)
    (state : ConnectorObservedState) (capacity_available minimum_interval : Z)
| OpExpireLease (fence : ConnectorFence) (expected_expires_at now : Z)
| OpRevokeLease (fence : ConnectorFence)
| OpAdvanceGeneration (expected : Revision) (changed_at : Z)
| OpReviseLive (expected : Revision) (target : ConnectorDesiredState) (changed_at : Z)
| OpSetDesired (expected : Revision) (target : ConnectorDesiredState) (changed_at : Z).

Definition step (o : ConnectorOp) : Connector → Connector :=
  match o with
  | OpBeginBoot b t => exec (begin_boot b t)
  | OpIssueLease l b i e => exec (issue_lease l b i e)
  | OpHeartbeat f s t st cap m => exec (record_heartbeat f s t st cap m)
  | OpExpireLease f e now => exec (expire_lease f e now)
  | OpRevokeLease f => exec (revoke_lease f)
  | OpAdvanceGeneration r t => exec (advance_generation r t)
  | OpReviseLive r d t => exec (revise_live_configuration r d t)
  | OpSetDesired r d t => exec (set_desired_state r d t)
  end.

(** The arguments of a lease are [i64] instants. *)
Definition typed_op (o : ConnectorOp) : Prop :=
  match o with
  | OpIssueLease _ _ issued expires => i64_min ≤ issued ∧ expires ≤ i64_max
  | _ => True
  end.

(** ** Atomicity *)

Lemma nofail_enter d t : nofail (enter_desired_state d t).
Proof. destruct d; cbn; solve_nofail. Qed.

Ltac solve_nofail_op :=
  repeat first [apply nofail_mret | apply nofail_modify | apply nofail_enter
               | apply nofail_bind; [|intros ?]].
Ltac solve_atomic_op :=
  repeat first
    [ apply atomic_nofail; solve [solve_nofail_op]
    | apply atomic_readonly; first [apply readonly_lift | apply readonly_get]
    | apply atomic_bind_read; [first [apply readonly_lift | apply readonly_get]|intros ?]
    | lazymatch goal with |- atomic (match ?x with _ => _ end) => destruct x end
    | progress cbv zeta ].

Lemma connector_ops_atomic :
  (∀ b t, atomic (begin_boot b t)) ∧ (∀ l b i e, atomic (issue_lease l b i e)) ∧
  (∀ f s t st cap m, atomic (record_heartbeat f s t st cap m)) ∧
  (∀ f e now, atomic (expire_lease f e now)) ∧ (∀ f, atomic (revoke_lease f)) ∧
  (∀ r t, atomic (advance_generation r t)) ∧ (∀ r d t, atomic (revise_live_configuration r d t)) ∧
  (∀ r d t, atomic (set_desired_state r d t)).
Proof. split_and!; intros; solve_atomic_op. Qed.

(** ** The assignments the operations share *)

Lemma terminalize_Ok st c u c' :
  terminalize_active_lease st c = (Ok u, c') ↔
  c' = c <| leases := closed_leases st c |> <| active_lease_index := None |>.
Proof.
  unfold terminalize_active_lease. rewrite modify_Ok. unfold closed_leases.
  by destruct c as [? ? ? ? ? ? ? ? ? ? ? [i|]]; cbn.
Qed.
Lemma close_current_boot_Ok t c u c' :
  close_current_boot t c = (Ok u, c') ↔ c' = c <| boots := closed_boots t c.(boots) |>.
Proof. unfold close_current_boot. by rewrite modify_Ok. Qed.
Lemma advance_time_Ok t c u c' :
  advance_server_time_high_water t c = (Ok u, c') ↔
  c' = c <| server_time_high_water_millis := raise_high_water c.(server_time_high_water_millis) t |>.
Proof. unfold advance_server_time_high_water. by rewrite modify_Ok. Qed.
Lemma append_revision_Ok c u c' :
  append_current_revision c = (Ok u, c') ↔ c' = c <| revisions := c.(revisions) ++ [current_revision c] |>.
Proof. unfold append_current_revision. by rewrite modify_Ok. Qed.

(** [conn_inv H] is [st_inv H] with the shared assignments written out. *)
Ltac conn_inv H :=
  st_inv H;
  repeat match goal with
  | H : terminalize_active_lease _ _ = (Ok _, _) |- _ => apply terminalize_Ok in H as ->
  | H : close_current_boot _ _ = (Ok _, _) |- _ => apply close_current_boot_Ok in H as ->
  | H : advance_server_time_high_water _ _ = (Ok _, _) |- _ => apply advance_time_Ok in H as ->
  | H : append_current_revision _ = (Ok _, _) |- _ => apply append_revision_Ok in H as ->
  | H : ensure_server_time_not_regressed _ _ = Ok ?u |- _ => is_var u; destruct u
  | H : validate_boot_close_time _ _ = Ok ?u |- _ => is_var u; destruct u
  end.

(** Names the state reached, its assignments performed. *)
Ltac flatten c' :=
  lazymatch goal with
  | |- connector_ok ?s => let s1 := eval hnf in s in let s' := eval cbn in s1 in change (connector_ok s'); set (c' := s')
  end.

Lemma ensure_may_run_Ok d u : ensure_may_run d = Ok u → is_live d = true.
Proof. unfold ensure_may_run. intros H. res_inv H. by destruct d. Qed.

Lemma open_boot_last c b : open_boot c = Some b ↔ last c.(boots) = Some b ∧ b.(ended_at_millis) = None.
Proof.
  unfold open_boot. destruct (last (boots c)) as [x|]; cbn; [|naive_solver].
  case_decide; naive_solver.
Qed.

(** The checks before a boot is closed at [t]. *)
Lemma close_time_Ok c t :
  validate_boot_close_time c t = Ok tt → ∀ b, open_boot c = Some b → b.(started_at_millis) ≤ t.
Proof.
  unfold validate_boot_close_time. rewrite reject_if_Ok.
  intros H b [Hl He]%open_boot_last. rewrite Hl in H. cbn in H.
  apply Z.nlt_ge. intros ?. by apply H.
Qed.

Lemma live_not_ended d : is_live d = true → d ≠ Revoked ∧ d ≠ Stopped.
Proof. by destruct d. Qed.

(** The state in which the running process was closed at [t], its lease with it. *)
Lemma closing_evolves c c' t :
  connector_ok c → ensure_server_time_not_regressed c t = Ok tt →
  c'.(tenant_id) = c.(tenant_id) ∧ c'.(connector_id) = c.(connector_id) ∧
    c'.(max_concurrency) = c.(max_concurrency) →
  c.(generation) ≤ c'.(generation) →
  c'.(server_time_high_water_millis) = raise_high_water c.(server_time_high_water_millis) t →
  (∃ new, c'.(boots) = closed_boots t c.(boots) ++ new) → evolves c c'.
Proof.
  intros Hok Ht Hs Hg Hhw (new & Hb). split; try done.
  - intros x Hx. rewrite Hhw. apply raise_covers. by left.
  - intros l b Hin Hon Hcov.
    destruct (closed_boots_issued c t l b) as (b' & Hb' & Hon'); [|done..|].
    { intros x. by apply not_regressed_covers. }
    exists b'. split; [rewrite Hb; set_solver|done].
Qed.

Lemma begin_boot_ok c b t u c' : begin_boot b t c = (Ok u, c') → connector_ok c → connector_ok c'.
Proof.
  intros Hrun Hok. unfold begin_boot in Hrun. apply st_bind_Ok in Hrun as (? & ? & Hg & Hrun).
  apply get_Ok in Hg as [-> ->].
  destruct (list_find _ (boots c)) as [[i e]|] eqn:Hfind; conn_inv Hrun; [done|].
  apply ensure_may_run_Ok in Hrun0 as Hlive. apply list_find_None in Hfind.
  flatten c'.
  pose proof Hok as [Hrev Hboots Hleases _ _].
  assert (evolves c c') as Hev by (eapply (closing_evolves c c' t); cbn; eauto; done).
  assert (Hcov : covers c'.(server_time_high_water_millis) t) by (apply raise_covers; by right).
  assert (Hclosed : closed_ok c' (closed_boots t c.(boots))).
  { apply closed_boots_ok; try done. intros y [Hx He]%open_boot_last.
    rewrite Hx in Hrun1. cbn in Hrun1. rewrite He in Hrun1. cbn in Hrun1. lia. }
  split.
  - by apply (revisions_ok_same c).
  - eapply boots_ok_begun; [exact Hclosed|cbn; reflexivity|..]; cbn; try done.
    + split; cbn; try done. destruct (rv_generation _ Hrev). lia.
    + rewrite closed_boots_ids, list_elem_of_fmap. intros (y & -> & Hx).
      rewrite Forall_forall in Hfind. by apply (Hfind y Hx).
    + intros y Hy. destruct (boots c) as [|z bs _] using rev_ind; [done|].
      rewrite closed_boots_snoc, last_snoc in Hy. injection Hy as <-.
      destruct (close_boot_same t z) as (_ & _ & _ & _ & _ & ->).
      rewrite last_snoc in Hrun1. cbn in *. destruct (ended_at_millis z); cbn in *; lia.
  - apply (leases_ok_closed c c' LeaseSuperseded); try done.
    by apply (closed_leases_settled c c' LeaseSuperseded).
  - intros He. cbn in He. by rewrite He in Hlive.
  - intros He. cbn in He. by rewrite He in Hlive.
Qed.

Lemma time_evolves c c' t :
  c'.(tenant_id) = c.(tenant_id) ∧ c'.(connector_id) = c.(connector_id) ∧
    c'.(max_concurrency) = c.(max_concurrency) →
  c'.(generation) = c.(generation) → c'.(boots) = c.(boots) →
  c'.(server_time_high_water_millis) = c.(server_time_high_water_millis) ∨
  c'.(server_time_high_water_millis) = raise_high_water c.(server_time_high_water_millis) t →
  evolves c c'.
Proof.
  intros Hs Hg Hb Ht. split; [done|lia| |].
  - intros x Hx. destruct Ht as [-> | ->]; [done|]. apply raise_covers. by left.
  - intros l b Hin Hon _. exists b. by rewrite Hb.
Qed.

Lemma lease_window_Ok i e ttl :
  lease_window i e = Ok ttl → ttl = e - i ∧ 1 ≤ ttl ≤ MAX_LEASE_TTL_MILLIS.
Proof.
  unfold lease_window. intros H. res_inv H. apply checked_Some in Hres0 as [-> _]. lia.
Qed.

Lemma next_epoch c e :
  leases_ok c → Epoch.checked_next c.(highest_lease_epoch) = Ok e →
  e = Z.of_nat (length c.(leases)) + 1 ∧ e ≤ Revision.MAX.
Proof.
  intros Hok. rewrite (ls_highest _ Hok). pose proof (ls_bound _ Hok) as Hb. unfold Epoch.checked_next.
  assert (Revision.MAX < u64_max) by done.
  destruct (decide (leases c = [])) as [->|Hne]; case_decide as Hd; try done; intros [= <-]; cbn in *; lia.
Qed.

Lemma current_boot_open c b :
  boots_ok c → c.(current_boot_id) = Some b → ∃ x, open_boot c = Some x ∧ x.(boot_id) = b.
Proof. intros Hok Hc. rewrite (bs_current _ Hok) in Hc. by apply fmap_Some_1 in Hc as (x & ? & ->); eauto. Qed.

Lemma issue_lease_ok c l b i e f c' :
  issue_lease l b i e c = (Ok f, c') → i64_min ≤ i ∧ e ≤ i64_max → connector_ok c → connector_ok c'.
Proof.
  intros Hrun Hty Hok. unfold issue_lease in Hrun.
  apply st_bind_Ok in Hrun as (? & ? & Hg & Hrun). apply get_Ok in Hg as [-> ->].
  destruct (list_find _ (leases c)) as [[j x]|] eqn:Hfind; conn_inv Hrun; [done|].
  apply ensure_may_run_Ok in Hrun0 as Hlive. apply list_find_None in Hfind.
  apply dec_stable in Hrun1. apply lease_window_Ok in Hrun2 as [-> Httl].
  pose proof Hok as [Hrev Hboots Hleases _ _].
  destruct (current_boot_open c b Hboots Hrun1) as (ob & [Hlast Hopen]%open_boot_last & Hid).
  rewrite Hlast in Hrun3. cbn in Hrun3. rewrite decide_True in Hrun3 by done. injection Hrun3 as <-.
  destruct (next_epoch c _ Hleases Hrun6) as [-> Hep].
  flatten c'.
  assert (evolves c c') as Hev by (by apply (time_evolves c c' i); [..|right]).
  assert (Hob : ob ∈ c.(boots)) by (apply last_Some in Hlast as [? ->]; set_solver).
  assert (boot_ok c ob) as Hobok by (by apply (proj1 (Forall_forall _ _) (bs_all _ Hboots))).
  destruct (bs_live _ Hboots ob (proj2 (open_boot_last _ _) (conj Hlast Hopen))) as [_ Hgen].
  split.
  - by apply (revisions_ok_same c).
  - by apply (boots_ok_same c).
  - eapply (leases_ok_issued c' (closed_leases LeaseSuperseded c)); cbn; try done.
    + by apply (closed_leases_settled c c' LeaseSuperseded).
    + split; cbn; try done; [destruct (rv_generation _ Hrev); lia| | | |].
      * apply checked_Some. unfold i64_min, i64_max in *. lia.
      * lia.
      * exists ob. split; [done|]. unfold issued_on. cbn. rewrite Hid, Hgen, Hopen. split_and!; try done. lia.
      * apply raise_covers. by right.
    + rewrite closed_leases_ids, list_elem_of_fmap. intros (y & Hy & Hin).
      rewrite Forall_forall in Hfind. by apply (Hfind y Hin).
    + intros y Hy. transitivity (default y (last c.(leases))).(issued_at_millis).
      * unfold closed_leases in Hy. destruct (active_lease_index c) as [k|] eqn:Hk; [|by rewrite Hy].
        destruct (ls_active _ Hleases k Hk) as (ls & z & Hls & -> & _). rewrite Hls in *.
        rewrite alter_snoc, last_snoc in Hy. rewrite last_snoc. injection Hy as <-. cbn.
        unfold close_lease. by case_decide.
      * destruct (last (leases c)) as [z|] eqn:Hz; cbn in *; [lia|].
        apply last_None in Hz. unfold closed_leases in Hy.
        destruct (active_lease_index c) as [k|]; rewrite Hz in Hy; done.
    + rewrite length_app, length_closed_leases. cbn. f_equal. lia.
    + by rewrite length_closed_leases.
    + by rewrite length_closed_leases.
    + by rewrite length_closed_leases.
  - intros He. cbn in He. by rewrite He in Hlive.
  - intros He. cbn in He. by rewrite He in Hlive.
Qed.

(** A fence that is accepted names the active lease. *)
Lemma fence_coordinates_Ok c f l :
  validate_fence_coordinates c f = Ok l →
  f.(fence_tenant_id) = c.(tenant_id) ∧ f.(fence_connector_id) = c.(connector_id) ∧
  f.(fence_generation) = c.(generation) ∧ c.(current_boot_id) = Some f.(fence_boot_id) ∧
  l.(lease_fence) = f ∧ l.(status) = LeaseActive ∧
  ∃ i, c.(active_lease_index) = Some i ∧ c.(leases) !! i = Some l.
Proof.
  unfold validate_fence_coordinates. intros H. apply result_bind_Ok in H as (? & H1 & H).
  apply result_bind_Ok in H as (? & H2 & H). apply result_bind_Ok in H as (? & H3 & H).
  apply result_bind_Ok in H as ([i cur] & H4 & H). res_inv H1. res_inv H2. res_inv H3. res_inv H4.
  apply list_find_Some in H4 as (Hi & Hf & _).
  destruct (status cur) eqn:Hst; try done. case_decide as Ha; [|done]. injection H as <-.
  split_and!; try tauto; [by apply dec_stable|by apply dec_stable| | |by eauto].
  - apply dec_stable. tauto.
  - apply dec_stable. tauto.
Qed.

Lemma evaluate_heartbeat_Advance l s t st cap mc mi hw ack :
  evaluate_heartbeat l s t st cap mc mi hw = Ok (Advance ack) →
  l.(issued_at_millis) ≤ t ∧ s ≠ 0 ∧ s ≤ Revision.MAX ∧ server_derived st = false ∧ cap ≤ mc ∧
  (∀ x, covers hw x → x ≤ t) ∧ t < l.(expires_at_millis) ∧
  i64_checked_add t l.(ttl_millis) = Some ack.(ack_lease_expires_at_millis) ∧
  ack.(ack_sequence) = s ∧ (∀ p, l.(last_heartbeat) = Some p → p.(hb_sequence) < s).
Proof.
  unfold evaluate_heartbeat. intros H. res_inv H.
  assert (∀ (m : result ConnectorError HeartbeatDisposition),
    m = (reject ServerTimeRegressed when (some_and hw (λ high, t < high));;
         reject LeaseExpired when (t >= l.(expires_at_millis));;
         expires ← ok_or (i64_checked_add t l.(ttl_millis)) InvalidHeartbeatTime;
         Ok (Advance {| ack_sequence := s; ack_lease_expires_at_millis := expires |})) →
    m = Ok (Advance ack) →
    (∀ x, covers hw x → x ≤ t) ∧ t < l.(expires_at_millis) ∧
    i64_checked_add t l.(ttl_millis) = Some ack.(ack_lease_expires_at_millis) ∧
    ack.(ack_sequence) = s) as Hadv.
  { intros m -> Hm. res_inv Hm. cbn. split_and!; try done; [|lia].
    intros y Hy. destruct hw; cbn in *; [lia|done]. }
  destruct (last_heartbeat l) as [p|] eqn:Hp.
  - apply result_bind_Ok in H as (? & Hst & H). res_inv Hst.
    case_decide as Hs; [by case_decide|].
    apply result_bind_Ok in H as (? & _ & H). apply result_bind_Ok in H as (? & _ & H).
    destruct (Hadv _ eq_refl H) as (? & ? & ? & ?).
    split_and!; try tauto; try lia; [by destruct (server_derived st)|].
    intros p' [= <-]. lia.
  - destruct (Hadv _ eq_refl H) as (? & ? & ? & ?).
    split_and!; try tauto; try lia; [by destruct (server_derived st)|]. done.
Qed.

Lemma running_live c b : boots_ok c → c.(current_boot_id) = Some b → is_live c.(desired_state) = true.
Proof. intros Hok Hc. destruct (current_boot_open c b Hok Hc) as (x & Hx & _). by apply (bs_live _ Hok x). Qed.

Lemma record_heartbeat_ok c f s t st cap mi ack c' :
  record_heartbeat f s t st cap mi c = (Ok ack, c') → connector_ok c → connector_ok c'.
Proof.
  intros Hrun Hok. unfold record_heartbeat in Hrun.
  apply st_bind_Ok in Hrun as (? & ? & Hg & Hrun). apply get_Ok in Hg as [-> ->].
  apply st_bind_Ok in Hrun as (l & ? & Hf & Hrun). apply lift_Ok in Hf as [Hf ->].
  apply st_bind_Ok in Hrun as ([a|a] & ? & Hev & Hrun); apply lift_Ok in Hev as [Hev ->]; conn_inv Hrun; [done|].
  apply fence_coordinates_Ok in Hf as (Hft & Hfc & Hfg & Hcur & Hlf & Hst & i & Hi & Hl).
  apply evaluate_heartbeat_Advance in Hev as (? & ? & ? & ? & ? & Ht & ? & Hexp & ? & _).
  rewrite Hi in Hrun0. cbn in Hrun0. rewrite Hl in Hrun0. cbn in Hrun0. injection Hrun0 as <-.
  pose proof Hok as [Hrev Hboots Hleases _ _].
  apply (running_live _ _ Hboots) in Hcur as Hlive.
  destruct (active_lease_last c i l Hleases Hi Hl) as (ls & Hls & -> & _ & Hlc & Hlg).
  assert (lease_ok c l) as Hlok.
  { apply (proj1 (Forall_forall _ _) (ls_all _ Hleases)). rewrite Hls. set_solver. }
  flatten c'.
  assert (evolves c c') as Hevo by (by apply (time_evolves c c' t); [..|right]).
  split.
  - by apply (revisions_ok_same c).
  - by apply (boots_ok_same c).
  - apply (leases_ok_beaten c c' ls l (beat a s st cap t l)); cbn; try done.
    + rewrite Hls. apply alter_snoc.
    + destruct (lease_ok_evolves c c' l Hevo Hlok) as [Hsc Hgn Httl Hw Hbt Hbo Hiss Hx].
      split; cbn; try done; [|by rewrite Hst].
      split_and!; try done. apply raise_covers. by right.
  - intros He. cbn in He. by rewrite He in Hlive.
  - intros He. cbn in He. by rewrite He in Hlive.
Qed.

(** The active lease ends by itself, without its boot. *)
Lemma end_active_lease c c' st i l :
  connector_ok c → c.(active_lease_index) = Some i → c.(leases) !! i = Some l →
  st ≠ LeaseActive → evolves c c' → current_revision c' = current_revision c →
  c'.(revisions) = c.(revisions) → c'.(boots) = c.(boots) → c'.(current_boot_id) = c.(current_boot_id) →
  c'.(leases) = alter (λ l, l <| status := st |>) i c.(leases) →
  c'.(active_lease_index) = None → c'.(highest_lease_epoch) = c.(highest_lease_epoch) →
  (st = LeaseExpiredStatus → covers c'.(server_time_high_water_millis) l.(expires_at_millis)) →
  connector_ok c'.
Proof.
  intros [Hrev Hboots Hleases _ _] Hi Hl Hst Hev Hcr Hr Hb Hcb Hls Hai Hhe Hexp.
  destruct (active_lease_last c i l Hleases Hi Hl) as (ls & Hls0 & Hlen & Hact & Hlc & Hlg).
  assert (c'.(generation) = c.(generation)) as Hgen by (by injection Hcr).
  assert (c'.(desired_state) = c.(desired_state)) as Hds by (by injection Hcr).
  assert (Hlive := running_live _ _ Hboots Hlc).
  assert (c'.(leases) = closed_leases st c) as Hls'.
  { unfold closed_leases. rewrite Hls, Hi, Hls0, Hlen, !alter_snoc. unfold close_lease.
    by rewrite decide_True. }
  split.
  - by apply (revisions_ok_same c).
  - apply (boots_ok_same c); try done. by rewrite Hds.
  - eapply (leases_ok_closed c); try done. rewrite Hls'. apply closed_leases_settled; try done.
    intros Hs j x Hj Hx. simplify_eq. by apply Hexp.
  - intros He. rewrite Hds in He. by rewrite He in Hlive.
  - intros He. rewrite Hds in He. by rewrite He in Hlive.
Qed.

Lemma expire_lease_ok c f e now u c' :
  expire_lease f e now c = (Ok u, c') → connector_ok c → connector_ok c'.
Proof.
  intros Hrun Hok. unfold expire_lease in Hrun. conn_inv Hrun.
  eapply (end_active_lease c _ LeaseExpiredStatus); try done.
  - by apply (time_evolves c _ now); [..|right].
  - intros _. apply raise_covers. right. lia.
Qed.

Lemma revoke_lease_ok c f u c' :
  revoke_lease f c = (Ok u, c') → connector_ok c → connector_ok c'.
Proof.
  intros Hrun Hok. unfold revoke_lease in Hrun. conn_inv Hrun.
  apply fence_coordinates_Ok in Hrun0 as (_ & _ & _ & _ & _ & _ & i & Hi & Hl).
  assert (i = x0) as -> by congruence.
  eapply (end_active_lease c _ LeaseRevokedStatus); try done.
  by apply (time_evolves c _ 0); [..|left].
Qed.

(** A configuration change under which the running process stops. *)
Lemma stop_ok c c' t st :
  connector_ok c → ensure_server_time_not_regressed c t = Ok tt →
  validate_boot_close_time c t = Ok tt → next_revision c = Ok c'.(spec_revision) →
  st ≠ LeaseActive → st ≠ LeaseExpiredStatus →
  c'.(tenant_id) = c.(tenant_id) ∧ c'.(connector_id) = c.(connector_id) ∧
    c'.(max_concurrency) = c.(max_concurrency) ∧ c'.(adapter_kind) = c.(adapter_kind) →
  c.(generation) ≤ c'.(generation) ≤ Revision.MAX →
  revision_step (current_revision c) (current_revision c') →
  c'.(revisions) = c.(revisions) ++ [current_revision c'] →
  c'.(server_time_high_water_millis) = raise_high_water c.(server_time_high_water_millis) t →
  c'.(boots) = closed_boots t c.(boots) → c'.(current_boot_id) = None →
  c'.(leases) = closed_leases st c → c'.(active_lease_index) = None →
  c'.(highest_lease_epoch) = c.(highest_lease_epoch) →
  revisions_ok c' ∧ boots_ok c' ∧ leases_ok c'.
Proof.
  intros Hok Ht Hct Hnext Hs1 Hs2 (? & ? & ? & ?) Hg Hstep Hr Hhw Hb Hcb Hls Hai Hhe.
  pose proof Hok as [Hrev Hboots Hleases _ _].
  assert (evolves c c') as Hev.
  { apply (closing_evolves c c' t); try done; [lia|]. exists []. by rewrite app_nil_r. }
  split_and!.
  - by apply (revisions_ok_append c).
  - apply boots_ok_closed; [|done]. rewrite Hb. apply closed_boots_ok; try done.
    + rewrite Hhw. apply raise_covers. by right.
    + by apply close_time_Ok.
  - eapply (leases_ok_closed c); try done. rewrite Hls. by apply closed_leases_settled.
Qed.

Lemma advance_generation_ok c r t g c' :
  advance_generation r t c = (Ok g, c') → connector_ok c → connector_ok c'.
Proof.
  intros Hrun Hok. unfold advance_generation in Hrun. conn_inv Hrun.
  unfold Generation.checked_next in Hrun4. case_decide as Hmax; [done|]. injection Hrun4 as <-.
  destruct (rv_generation _ (co_revisions _ Hok)) as [Hg1 Hg2].
  flatten c'.
  destruct (stop_ok c c' t LeaseSuperseded) as (? & ? & ?); cbn; try done; try lia.
  - unfold revision_step, valid_revision_step. cbn. rewrite decide_False by lia. split; [|done].
    assert (Revision.MAX < u64_max) by done.
    unfold u64_checked_add. destruct (checked 0 u64_max (generation c + 1)) eqn:Hch; cbn.
    + by apply checked_Some in Hch as [-> _].
    + apply checked_None in Hch. lia.
Qed.

Lemma live_revision_step c c' :
  c'.(generation) = c.(generation) →
  (c.(desired_state) = c'.(desired_state) ∧ is_live c'.(desired_state) = true) ∨
  valid_desired_transition c.(desired_state) c'.(desired_state) = true →
  revision_step (current_revision c) (current_revision c').
Proof. intros Hg H. unfold revision_step, valid_revision_step. cbn. by rewrite Hg, decide_True. Qed.

(** A configuration change under which a running process goes on. *)
Lemma configuration_change_ok c c' t :
  connector_ok c → next_revision c = Ok c'.(spec_revision) →
  c'.(tenant_id) = c.(tenant_id) ∧ c'.(connector_id) = c.(connector_id) ∧
    c'.(max_concurrency) = c.(max_concurrency) ∧ c'.(adapter_kind) = c.(adapter_kind) →
  c'.(generation) = c.(generation) →
  revision_step (current_revision c) (current_revision c') →
  c'.(revisions) = c.(revisions) ++ [current_revision c'] →
  c'.(server_time_high_water_millis) = raise_high_water c.(server_time_high_water_millis) t →
  is_live c'.(desired_state) = true →
  c'.(boots) = c.(boots) → c'.(current_boot_id) = c.(current_boot_id) →
  c'.(leases) = c.(leases) → c'.(active_lease_index) = c.(active_lease_index) →
  c'.(highest_lease_epoch) = c.(highest_lease_epoch) → connector_ok c'.
Proof.
  intros [Hrev Hboots Hleases _ _] Hnext (? & ? & ? & ?) Hg Hstep Hr Hhw Hlive Hb Hcb Hls Hai Hhe.
  assert (evolves c c') as Hev by (by apply (time_evolves c c' t); [..|right]).
  split.
  - apply (revisions_ok_append c); try done. rewrite Hg. split; [done|]. apply (rv_generation _ Hrev).
  - by apply (boots_ok_same c).
  - by apply (leases_ok_same c).
  - intros He. by rewrite He in Hlive.
  - intros He. by rewrite He in Hlive.
Qed.

Lemma revise_live_ok c r d t r' c' :
  revise_live_configuration r d t c = (Ok r', c') → connector_ok c → connector_ok c'.
Proof.
  intros Hrun Hok. unfold revise_live_configuration in Hrun. conn_inv Hrun.
  assert (is_live d = true) as Hlive by (destruct (is_live d) eqn:?; tauto).
  assert ((c.(desired_state) = d ∧ is_live d = true) ∨
          valid_desired_transition c.(desired_state) d = true) as Htr.
  { destruct (decide (c.(desired_state) = d)); [by left|].
    destruct (valid_desired_transition _ _) eqn:?; tauto. }
  flatten c'.
  destruct (decide (d = Draining)) as [Hd|Hd];
    apply (configuration_change_ok c c' t); cbn; try done; by apply live_revision_step.
Qed.

Lemma enter_desired_state_Ok d t c u c' :
  enter_desired_state d t c = (Ok u, c') →
  (is_live d = true ∧
   c' = if decide (d = Draining) then c <| observed_state := ObsDraining |> else c) ∨
  (is_live d = false ∧
   c' = c <| boots := closed_boots t c.(boots) |> <| current_boot_id := None |>
          <| leases := closed_leases LeaseRevokedStatus c |> <| active_lease_index := None |>
          <| observed_state := if decide (d = Revoked) then ObsRevoked else ObsOffline |>).
Proof. destruct d; cbn [enter_desired_state]; intros H; conn_inv H; [by left..|by right|by right]. Qed.

Lemma set_desired_state_ok c r d t r' c' :
  set_desired_state r d t c = (Ok r', c') → connector_ok c → connector_ok c'.
Proof.
  intros Hrun Hok. unfold set_desired_state in Hrun.
  do 3 apply st_bind_Ok in Hrun as (? & ? & ?Hg & Hrun). conn_inv Hg. conn_inv Hg0. conn_inv Hg1.
  case_decide as Hsame; conn_inv Hrun; [done|].
  assert (valid_desired_transition c.(desired_state) d = true) as Htr.
  { by destruct (desired_state c), d. }
  match goal with H : enter_desired_state _ _ _ = _ |- _ =>
    apply enter_desired_state_Ok in H as [[Hlive ->]|[Hlive ->]] end.
  - flatten c'.
    destruct (decide (d = Draining)) as [Hd|Hd];
      apply (configuration_change_ok c c' t); cbn; try done; apply live_revision_step; cbn; auto.
  - flatten c'.
    match goal with H : (if decide _ then _ else _) = Ok _ |- _ =>
      rewrite decide_True in H by (destruct d; try done; tauto); rename H into Hclose end.
    match type of Hclose with _ = Ok ?u => destruct u end.
    destruct (stop_ok c c' t LeaseRevokedStatus) as (? & ? & ?); cbn; try done.
    + split; [done|]. apply (rv_generation _ (co_revisions _ Hok)).
    + apply live_revision_step; auto.
    + split; try done; cbn; intros Hd; by subst d.
Qed.

(** ** Reachable connectors *)

Lemma connector_step_ok o c : typed_op o → connector_ok c → connector_ok (step o c).
Proof.
  destruct connector_ops_atomic as (A1 & A2 & A3 & A4 & A5 & A6 & A7 & A8).
  intros Hty Hok. destruct o; cbn [step];
    lazymatch goal with |- context [exec ?m c] =>
      destruct (exec_atomic m c ltac:(auto)) as [->|[? Hrun]]; [done|] end.
  - by eapply begin_boot_ok.
  - by eapply issue_lease_ok.
  - by eapply record_heartbeat_ok.
  - by eapply expire_lease_ok.
  - by eapply revoke_lease_ok.
  - by eapply advance_generation_ok.
  - by eapply revise_live_ok.
  - by eapply set_desired_state_ok.
Qed.

Lemma connector_register_ok h id k m c : register h id k m = Ok c → connector_ok c.
Proof.
  unfold register. intros H. res_inv H.
  split; [|split; cbn; try done..|done|done].
  - split; cbn; try done; [|by intros r [= <-]].
    intros i r [-> <-]%list_lookup_singleton_Some. by split; cbn.
  - constructor.
  - constructor.
Qed.

(** The connectors that operations make out of a registered one. *)
Definition reachable (c : Connector) : Prop :=
  ∃ h id k m c0 ops, register h id k m = Ok c0 ∧ Forall typed_op ops ∧ c = run_all step ops c0.

Lemma reachable_connector_ok c : reachable c → connector_ok c.
Proof.
  intros (h & id & k & m & c0 & ops & Hc0 & Hty & ->).
  apply run_all_inv; [|by eapply connector_register_ok]. intros o s Ho. apply connector_step_ok.
  by eapply Forall_forall in Hty.
Qed.
