(* ===== verification/ConnectorReload.v ===== *)
(** * Connectors: save and reload

    The image of every consistent connector passes the validation of
    [try_from_snapshot] and is restored exactly. *)

From S2P Require Import Prelude Domain AgentHost Connector ConnectorInv ConnectorSteps.

(** ** Loops over [iter().enumerate()] *)

Lemma try_fold_enumerate {E T A} (f : T → nat * A → result E T) (st : nat → T) l :
  (∀ i x, l !! i = Some x → f (st i) (i, x) = Ok (st (S i))) →
  try_fold f (enumerate l) (st 0%nat) = Ok (st (length l)).
Proof.
  intros Hf. unfold enumerate.
  cut (∀ l' k, (∀ i x, l' !! i = Some x → f (st (k + i)%nat) ((k + i)%nat, x) = Ok (st (S (k + i)))) →
    try_fold f (zip (seq k (length l')) l') (st k) = Ok (st (k + length l')%nat)).
  { intros H. by apply (H l 0%nat). }
  induction l' as [|x l' IH]; intros k Hk; cbn; [by rewrite Nat.add_0_r|].
  pose proof (Hk 0%nat x eq_refl) as H0. rewrite Nat.add_0_r in H0. rewrite H0. cbn.
  rewrite <-Nat.add_succ_comm. apply (IH (S k)). intros i y Hi.
  rewrite Nat.add_succ_comm. by apply (Hk (S i)).
Qed.

Lemma ids_take {A} {K} `{Countable K} (key : A → K) (l : list A) i x :
  l !! i = Some x →
  {[ key x ]} ∪ list_to_set (C := gset K) (key <$> take i l) = list_to_set (key <$> take (S i) l).
Proof. intros Hi. rewrite (take_S_r l i x Hi), fmap_app, list_to_set_app_L. cbn. set_solver. Qed.

Lemma id_fresh_take {A} {K} `{Countable K} (key : A → K) (l : list A) i x :
  NoDup (key <$> l) → l !! i = Some x → key x ∉ list_to_set (C := gset K) (key <$> take i l).
Proof.
  intros Hnd Hi. rewrite elem_of_list_to_set, list_elem_of_fmap. intros (y & Hy & Hin).
  apply list_elem_of_lookup_1 in Hin as [j Hj]. apply lookup_take_Some in Hj as [Hj Hlt].
  assert (i = j); [|lia].
  eapply (NoDup_lookup (key <$> l)); [done|by rewrite list_lookup_fmap, Hi|].
  rewrite list_lookup_fmap, Hj. cbn. by rewrite Hy.
Qed.

Lemma fmap_lookup_inv {A B} (f : A → B) (l : list A) i y : (f <$> l) !! i = Some y → ∃ x, y = f x ∧ l !! i = Some x.
Proof. rewrite list_lookup_fmap. intros (x & Hx & ->)%fmap_Some_1. eauto. Qed.

Lemma snapshot_generation_Ok g : 1 ≤ g ≤ Revision.MAX → snapshot_generation g = Ok g.
Proof. intros H. unfold snapshot_generation. rewrite decide_False by lia. done. Qed.
Lemma snapshot_epoch_Ok g : 1 ≤ g ≤ Revision.MAX → snapshot_epoch g = Ok g.
Proof. intros H. unfold snapshot_epoch. rewrite decide_False by lia. done. Qed.

Section reload.
Context (c : Connector) (Hok : connector_ok c).
Let s := snapshot c.

Lemma check_revisions_Ok : try_fold (check_revision s) (enumerate s.(s_revisions)) [] = Ok c.(revisions).
Proof using Hok.
  destruct Hok as [[Hg Hcap Hn Hb Hall Hf Hl Hlast] _ _ _ _].
  assert (Hlen : length (s_revisions s) = length (revisions c)) by apply length_fmap.
  rewrite <-(firstn_all (revisions c)), <-Hlen.
  apply (try_fold_enumerate (check_revision s) (λ i, take i (revisions c))).
  intros i x (r & -> & Hi)%fmap_lookup_inv. destruct (Hall i r Hi) as [[? ?] ? [? ?] ?].
  unfold check_revision. cbn [s snapshot revision_image s_revisions s_tenant_id s_connector_id
    s_adapter_kind s_max_concurrency s_generation sr_tenant_id sr_connector_id sr_revision
    sr_adapter_kind sr_max_concurrency sr_generation sr_desired_state].
  ok_step; [intros [?|[?|[?|[?|[?|[?|?]]]]]]; congruence || lia|].
  ok_step; [intros [-> [Hne|Hne]]; destruct (Hf r Hi); by apply Hne|].
  ok_step.
  { intros [Hpos Hprev]. rewrite list_lookup_fmap in Hprev.
    destruct (revisions c !! pred i) as [p|] eqn:Hp; [|done]. cbn in Hprev. apply Hprev.
    apply (Hl (pred i)); [done|]. by replace (S (pred i)) with i by lia. }
  ok_step; [apply snapshot_generation_Ok; lia|].
  rewrite (take_S_r _ i r Hi). by destruct r.
Qed.

Lemma check_boots_Ok :
  ∃ ids, try_fold (check_boot s) (enumerate s.(s_boots)) (∅, []) = Ok (ids, c.(boots)).
Proof using Hok.
  destruct Hok as [[Hg _ _ _ _ _ _ _] [Hall Hids Hl Hcur Hlive] _ _ _].
  set (st := λ i, (list_to_set (C := gset BootId) (boot_id <$> take i (boots c)), take i (boots c))).
  exists (st (length (boots c))).1.
  assert (Hlen : length (s_boots s) = length (boots c)) by apply length_fmap.
  transitivity (Ok (E := ConnectorSnapshotError) (st (length (s_boots s)))).
  - apply (try_fold_enumerate (check_boot s) st).
    intros i x (b & -> & Hi)%fmap_lookup_inv.
    assert (boot_ok c b) as [[? ?] ? Hst He] by (by eapply Forall_lookup).
    unfold check_boot, st. cbn [s snapshot boot_image s_boots s_tenant_id s_connector_id s_generation
      sb_tenant_id sb_connector_id sb_generation sb_boot_id sb_started_at_millis sb_ended_at_millis].
    ok_step.
    { intros [?|[?|[?|[?|[Hin|[Hend|[Hlt Hend]]]]]]]; try congruence || lia.
      - revert Hin. by apply id_fresh_take.
      - destruct (ended_at_millis b) as [e|]; [|done]. destruct (He e eq_refl). cbn in Hend. lia.
      - rewrite length_fmap in Hlt.
        destruct (lookup_lt_is_Some_2 (boots c) (S i)) as [y Hy]; [lia|].
        destruct (Hl i b y Hi Hy) as ([? ?] & _). congruence. }
    ok_step.
    { intros [Hpos Hprev]. rewrite list_lookup_fmap in Hprev.
      destruct (boots c !! pred i) as [p|] eqn:Hp; [|done]. cbn in Hprev.
      assert (boot_order p b) as (_ & ? & ?); [|lia].
      apply (Hl (pred i)); [done|]. by replace (S (pred i)) with i by lia. }
    ok_step; [apply snapshot_generation_Ok; lia|].
    rewrite (ids_take boot_id _ i b Hi), (take_S_r _ i b Hi). by destruct b.
  - unfold st. rewrite Hlen. cbn. by rewrite firstn_all.
Qed.

(** The boot that a lease names is the one it was issued on. *)
Lemma matching_boot l : lease_ok c l → ∃ b, b ∈ c.(boots) ∧ issued_on l b ∧
  snd <$> list_find (λ boot, boot.(sb_boot_id) = l.(lease_fence).(fence_boot_id)
    ∧ boot.(sb_generation) = l.(lease_fence).(fence_generation)) s.(s_boots) = Some (boot_image b).
Proof using Hok.
  intros Hl. destruct (lo_boot _ _ Hl) as (b & Hin & Hon). exists b. split_and!; [done..|].
  destruct Hon as (Hid & Hgen & _). apply list_elem_of_lookup_1 in Hin as [i Hi]. cbn.
  rewrite list_find_fmap. erewrite (proj2 (list_find_Some _ _ i b)); [done|].
  split_and!; [done|done|]. intros j y Hj Hlt [Hy _]. cbn in Hy.
  assert (i = j); [|lia].
  eapply (NoDup_lookup _ _ _ _ (bs_ids _ (co_boots _ Hok))); rewrite list_lookup_fmap.
  - by rewrite Hi.
  - rewrite Hj. cbn. by rewrite Hy, Hid.
Qed.

Lemma snapshot_heartbeat_Ok l :
  lease_ok c l → snapshot_heartbeat (lease_image l) c.(max_concurrency) = Ok l.(last_heartbeat).
Proof.
  intros [_ _ Httl Hw Hb _ _ _]. unfold snapshot_heartbeat, beat_ok in *. cbn.
  destruct (last_heartbeat l) as [h|], (last_heartbeat_at_millis l) as [a|]; try done; cbn.
  - destruct Hb as (? & ? & ? & Hsd & ? & ? & ? & Hadd & ?). rewrite Hadd. cbn.
    ok_step; [intros [?|[?|[?|[?|[?|[?|[?|?]]]]]]]; congruence || lia|].
    by destruct h as [? ? ? []].
  - rewrite Hw. cbn. ok_step; [congruence|done].
Qed.

Lemma expiry_after_window l :
  lease_ok c l → l.(issued_at_millis) + l.(ttl_millis) ≤ l.(expires_at_millis).
Proof.
  intros [_ _ _ _ Hb _ _ _]. unfold beat_ok in Hb.
  destruct (last_heartbeat l), (last_heartbeat_at_millis l); try done; [|lia].
  destruct Hb as (_ & _ & _ & _ & ? & _ & _ & Hadd & _). apply checked_Some in Hadd as [-> _]. lia.
Qed.

(** The scan after [i] leases. *)
Definition lease_scan (i : nat) : LeaseScan :=
  MkLeaseScan (list_to_set ((λ l, l.(lease_fence).(fence_lease_id)) <$> take i c.(leases)))
    (take i c.(leases))
    (k ← c.(active_lease_index); if decide (k < i)%nat then Some k else None).

Lemma active_scan i l :
  c.(leases) !! i = Some l →
  (if decide (l.(status) = LeaseActive) then Some i
   else k ← c.(active_lease_index); if decide (k < i)%nat then Some k else None)
  = (k ← c.(active_lease_index); if decide (k < S i)%nat then Some k else None).
Proof using Hok.
  intros Hi. destruct Hok as [_ _ Hls _ _]. case_decide as Hst.
  - rewrite (ls_inactive _ Hls i l Hi Hst). cbn. by rewrite decide_True by lia.
  - destruct (active_lease_index c) as [k|] eqn:Hk; [|done]. cbn.
    assert (k ≠ i).
    { intros ->. destruct (active_lease_last c i l Hls Hk Hi) as (_ & _ & _ & ? & _). done. }
    repeat case_decide; try done; lia.
Qed.

Lemma check_leases_Ok :
  try_fold (check_lease s) (enumerate s.(s_leases)) (MkLeaseScan ∅ [] None)
  = Ok (lease_scan (length c.(leases))).
Proof using Hok.
  pose proof Hok as [[Hg _ _ _ _ _ _ _] _ Hls _ _]. pose proof Hls as [Hall Hids Hep Hl Hact Hin Hhi Hb].
  assert (Hlen : length (s_leases s) = length (leases c)) by apply length_fmap.
  rewrite <-Hlen. transitivity (try_fold (check_lease s) (enumerate (s_leases s)) (lease_scan 0)).
  { unfold lease_scan. by destruct (active_lease_index c). }
  apply (try_fold_enumerate (check_lease s) lease_scan).
  intros i x (l & -> & Hi)%fmap_lookup_inv.
  assert (lease_ok c l) as Hlok by (by eapply Forall_lookup).
  destruct (matching_boot l Hlok) as (b & _ & (_ & _ & Hst & Hend) & Hmb).
  pose proof Hlok as [[? ?] ? Httl Hw _ _ _ _].
  pose proof (expiry_after_window l Hlok) as Hexp. pose proof (Hep i l Hi) as Hepoch.
  unfold check_lease, lease_scan. cbn [sl_boot_id sl_generation lease_image]. rewrite Hmb.
  cbn [s snapshot lease_image s_leases s_tenant_id s_connector_id s_generation sl_tenant_id
    sl_connector_id sl_generation sl_lease_epoch sl_ttl_millis sl_issued_at_millis
    sl_expires_at_millis sl_lease_id sl_status sl_boot_id seen_lease_ids scanned_leases active_index
    sl_last_heartbeat_at_millis s_max_concurrency].
  rewrite Hw. ok_step.
  { cbn [some_and none_or boot_image sb_started_at_millis sb_ended_at_millis].
    intros [?|[?|[?|[?|[?|[?|[?|[Hdup|[?|[?|[Hen|[Hpos Hprev]]]]]]]]]]]]; try congruence || lia.
    - revert Hdup. by apply (id_fresh_take (λ l, l.(lease_fence).(fence_lease_id))).
    - destruct (ended_at_millis b) as [e|]; [|done]. specialize (Hend e eq_refl). cbn in Hen. lia.
    - rewrite list_lookup_fmap in Hprev.
      destruct (leases c !! pred i) as [p|] eqn:Hp; [|done]. cbn in Hprev.
      assert (p.(issued_at_millis) ≤ l.(issued_at_millis)); [|lia].
      apply (Hl (pred i)); [done|]. by replace (S (pred i)) with i by lia. }
  ok_step.
  { intros [Ha [k Hk]]. apply (Hin i l Hi) in Ha. rewrite Ha in Hk. cbn in Hk.
    case_decide; [lia|done]. }
  apply lookup_lt_Some in Hi as Hlt.
  ok_step; [apply snapshot_generation_Ok; lia|]. ok_step; [apply snapshot_epoch_Ok; lia|].
  ok_step; [by apply snapshot_heartbeat_Ok|].
  rewrite (ids_take (λ l, l.(lease_fence).(fence_lease_id)) _ i l Hi), (active_scan i l Hi).
  rewrite (take_S_r _ i l Hi). by destruct l as [[] ? ? ? ? ? ?].
Qed.

Lemma recorded_times_covered t : t ∈ recorded_times s → covers c.(server_time_high_water_millis) t.
Proof using Hok.
  destruct Hok as [_ [Hball _ _ _ _] [Hlall _ _ _ _ _ _ _] _ _]. rewrite Forall_forall in Hball. rewrite Forall_forall in Hlall.
  unfold recorded_times. cbn. rewrite !elem_of_app, !list_elem_of_bind, !list_elem_of_fmap.
  intros [(x & Ht & (b & -> & Hb)%list_elem_of_fmap)|[(x & -> & (l & -> & Hl)%list_elem_of_fmap)|(x & Ht & (l & -> & Hl)%list_elem_of_fmap)]].
  - destruct (Hball b Hb) as [_ _ Hst He]. cbn in Ht. apply elem_of_cons in Ht as [->|Ht]; [done|].
    destruct (ended_at_millis b) as [e|]; cbn in Ht; [|by apply not_elem_of_nil in Ht].
    apply list_elem_of_singleton in Ht as ->. by apply He.
  - by destruct (Hlall l Hl).
  - destruct (Hlall l Hl) as [_ _ _ _ Hbt _ _ _]. unfold beat_ok in Hbt. cbn in Ht.
    destruct (last_heartbeat l), (last_heartbeat_at_millis l) as [a|]; cbn in Ht;
      try (by apply not_elem_of_nil in Ht); [|done].
    apply list_elem_of_singleton in Ht as ->. by destruct Hbt as (_ & _ & _ & _ & _ & _ & _ & _ & ?).
Qed.

Lemma open_boot_image :
  (boot ← last s.(s_boots); if decide (boot.(sb_ended_at_millis) = None) then Some boot else None)
  = boot_image <$> open_boot c.
Proof. cbn. unfold open_boot. rewrite fmap_last. destruct (last (boots c)); [|done]. cbn. by case_decide. Qed.

Lemma scan_active : (lease_scan (length (leases c))).(active_index) = c.(active_lease_index).
Proof using Hok.
  unfold lease_scan. cbn. destruct (active_lease_index c) as [k|] eqn:Hk; [|done]. cbn.
  destruct (active_lookup c k (co_leases _ Hok) Hk) as [l Hl%lookup_lt_Some]. by rewrite decide_True.
Qed.

Lemma highest_image :
  (match s.(s_highest_lease_epoch) with
   | Some epoch => Some <$> snapshot_epoch epoch | None => Ok None
   end) = Ok c.(highest_lease_epoch).
Proof using Hok.
  change (s_highest_lease_epoch s) with (highest_lease_epoch c).
  pose proof (co_leases _ Hok) as Hls. rewrite (ls_highest _ Hls).
  pose proof (ls_bound _ Hls). destruct (decide (leases c = [])) as [|Hne]; [done|].
  rewrite snapshot_epoch_Ok; [done|]. destruct (leases c); [done|]. cbn in *. lia.
Qed.

Lemma connector_ok_loads : try_from_snapshot (snapshot c) = Ok c.
Proof using Hok.
  destruct check_boots_Ok as [ids Hboots]. pose proof check_leases_Ok as Hleases.
  pose proof check_revisions_Ok as Hrevs. fold s.
  pose proof Hok as [[Hg Hcap Hn Hb _ _ _ Hlast] Hbs Hls Hrk Hst].
  unfold try_from_snapshot. ok_step; [by apply snapshot_generation_Ok|]. ok_step; [done|]. ok_step.
  { cbn. rewrite length_fmap. intros [?|He]; [done|]. apply fmap_nil_inv in He. by rewrite He in Hlast. }
  ok_step; [exact Hrevs|]. ok_step; [cbn; by rewrite fmap_last, Hlast|].
  ok_step; [cbn; by intros [?|?]|]. ok_step; [exact Hboots|]. cbv beta iota zeta.
  rewrite open_boot_image. ok_step.
  { intros [Hc|Hlive].
    - apply Hc. cbn. rewrite (bs_current _ Hbs). by destruct (open_boot c).
    - destruct (open_boot c) as [b|] eqn:Ho; [|done]. cbn in Hlive.
      destruct (bs_live _ Hbs b Ho) as [? ?]. apply open_boot_last in Ho as [Hl _].
      rewrite fmap_last, Hl in Hlive. cbn in Hlive. destruct Hlive; congruence. }
  ok_step; [exact Hleases|].
  rewrite scan_active. ok_step.
  { cbn. intros [?|Hne]; [done|]. apply Hne. rewrite (ls_highest _ Hls), length_fmap.
    by destruct (leases c). }
  ok_step.
  { cbn. destruct (active_lease_index c) as [k|] eqn:Hk; [|by intros []]. cbn.
    destruct (ls_active _ Hls k Hk) as (ls & l & -> & -> & _). rewrite length_fmap, length_app. cbn. lia. }
  ok_step.
  { cbn. destruct (active_lease_index c) as [k|] eqn:Hk; [|by intros []]. cbn.
    destruct (ls_active _ Hls k Hk) as (ls & l & -> & -> & _ & -> & Hgen).
    rewrite list_lookup_fmap, list_lookup_middle by done. cbn. intros [?|?]; congruence. }
  assert (c.(desired_state) = Stopped ∨ c.(desired_state) = Revoked → c.(current_boot_id) = None) as Hterm.
  { intros Hd. destruct (current_boot_id c) as [b|] eqn:Hc; [|done].
    apply (running_live c b Hbs) in Hc. destruct Hd as [Hd|Hd]; by rewrite Hd in Hc. }
  ok_step.
  { cbn. intros [Hd [Hc|[k Hk]]]; apply Hterm in Hd; rewrite Hd in *; [by destruct Hc|].
    destruct (ls_active _ Hls k Hk) as (? & ? & _ & _ & _ & ? & _). congruence. }
  ok_step; [cbn; intros [? ?]; auto|]. ok_step; [cbn; intros [? ?]; auto|].
  ok_step.
  { rewrite Exists_exists. intros (t & Ht & Hno). apply recorded_times_covered in Ht.
    cbn in Hno. destruct (server_time_high_water_millis c); cbn in *; [lia|done]. }
  ok_step.
  { rewrite Exists_exists. intros (x & (l & -> & Hl)%list_elem_of_fmap & Hexp & Hno).
    apply (proj1 (Forall_forall _ _) (ls_all _ Hls)) in Hl. apply (lo_expired _ _ Hl) in Hexp.
    cbn in Hno. destruct (server_time_high_water_millis c); cbn in *; [lia|done]. }
  ok_step; [exact highest_image|]. cbn. rewrite firstn_all. by destruct c.
Qed.
End reload.

(** Every connector that a sequence of operations makes out of a registered
    one, whichever of them failed, is accepted by the validation of its durable
    image and restored exactly: all revisions, boots, leases, heartbeats and the
    server clock. *)
Theorem reachable_connector_loads c : reachable c → try_from_snapshot (snapshot c) = Ok c.
Proof. intros Hc. by apply connector_ok_loads, reachable_connector_ok. Qed.
