(* ===== verification/ConnectorFencing.v ===== *)
(** * Connectors: fencing

    The fence of a lease works as a fencing token: the history of fences only
    grows, the accepted fence is always the last one, so that a fence that was
    replaced is refused for ever. *)

From S2P Require Import Prelude Domain AgentHost Connector ConnectorInv ConnectorSteps.

Definition fences (c : Connector) : list ConnectorFence := lease_fence <$> c.(leases).

Lemma fences_alter (f : ConnectorLease → ConnectorLease) (i : nat) (ls : list ConnectorLease) :
  (∀ l, lease_fence (f l) = lease_fence l) → lease_fence <$> alter f i ls = lease_fence <$> ls.
Proof.
  intros Hf. apply list_eq. intros j. rewrite !list_lookup_fmap.
  destruct (decide (i = j)) as [<-|Hne]; [|by rewrite list_lookup_alter_ne].
  rewrite list_lookup_alter_eq. destruct (ls !! i) as [l|]; [|done]. cbn. by rewrite Hf.
Qed.

Lemma fences_closed st c : lease_fence <$> closed_leases st c = fences c.
Proof.
  unfold closed_leases. destruct (active_lease_index c); [|done]. apply fences_alter.
  intros l. unfold close_lease. by case_decide.
Qed.

(** What an operation does to the history of fences. *)
Definition grows (c c' : Connector) : Prop := fences c `prefix_of` fences c'.

Lemma grows_refl c : grows c c.
Proof. unfold grows. done. Qed.

Lemma grows_eq c c' : fences c' = fences c → grows c c'.
Proof. unfold grows. by intros ->. Qed.

(** The fences after a program that reads, checks and assigns. *)
Lemma begin_boot_fences b t c u c' : begin_boot b t c = (Ok u, c') → grows c c'.
Proof.
  unfold begin_boot. intros Hrun. apply st_bind_Ok in Hrun as (? & ? & Hg & Hrun).
  apply get_Ok in Hg as [-> ->].
  destruct (list_find _ (boots c)) as [[i e]|]; conn_inv Hrun; [apply grows_refl|].
  apply grows_eq, (fences_closed LeaseSuperseded c).
Qed.

Lemma issue_lease_fences l b i e c f c' : issue_lease l b i e c = (Ok f, c') → grows c c'.
Proof.
  unfold issue_lease. intros Hrun. apply st_bind_Ok in Hrun as (? & ? & Hg & Hrun).
  apply get_Ok in Hg as [-> ->].
  destruct (list_find _ (leases c)) as [[j x]|]; conn_inv Hrun; [apply grows_refl|].
  unfold grows. rewrite <-(fences_closed LeaseSuperseded c).
  eexists. unfold fences. cbn. rewrite fmap_app. reflexivity.
Qed.

Lemma record_heartbeat_fences f s t st cap mi c ack c' :
  record_heartbeat f s t st cap mi c = (Ok ack, c') → grows c c'.
Proof.
  unfold record_heartbeat. intros Hrun. apply st_bind_Ok in Hrun as (? & ? & Hg & Hrun).
  apply get_Ok in Hg as [-> ->]. apply st_bind_Ok in Hrun as (l & ? & Hf & Hrun).
  apply lift_Ok in Hf as [Hf ->].
  apply st_bind_Ok in Hrun as ([a|a] & ? & Hev & Hrun); apply lift_Ok in Hev as [Hev ->];
    conn_inv Hrun; [apply grows_refl|].
  apply grows_eq. unfold fences. cbn. by apply fences_alter.
Qed.

Lemma expire_lease_fences f e now c u c' : expire_lease f e now c = (Ok u, c') → grows c c'.
Proof.
  unfold expire_lease. intros Hrun. conn_inv Hrun. apply grows_eq. unfold fences. cbn. by apply fences_alter.
Qed.

Lemma revoke_lease_fences f c u c' : revoke_lease f c = (Ok u, c') → grows c c'.
Proof.
  unfold revoke_lease. intros Hrun. conn_inv Hrun. apply grows_eq. unfold fences. cbn. by apply fences_alter.
Qed.

Lemma advance_generation_fences r t c g c' : advance_generation r t c = (Ok g, c') → grows c c'.
Proof.
  unfold advance_generation. intros Hrun. conn_inv Hrun. apply grows_eq, (fences_closed LeaseSuperseded c).
Qed.

Lemma revise_live_fences r d t c r' c' : revise_live_configuration r d t c = (Ok r', c') → grows c c'.
Proof.
  unfold revise_live_configuration. intros Hrun. conn_inv Hrun. apply grows_eq. unfold fences.
  cbn. by case_decide.
Qed.

Lemma set_desired_fences r d t c r' c' : set_desired_state r d t c = (Ok r', c') → grows c c'.
Proof.
  unfold set_desired_state. intros Hrun.
  do 3 apply st_bind_Ok in Hrun as (? & ? & ?Hg & Hrun). conn_inv Hg. conn_inv Hg0. conn_inv Hg1.
  case_decide; conn_inv Hrun; [apply grows_refl|].
  match goal with H : enter_desired_state _ _ _ = _ |- _ =>
    apply enter_desired_state_Ok in H as [[_ ->]|[_ ->]] end; apply grows_eq.
  - unfold fences. cbn. by destruct (decide (d = Draining)).
  - apply (fences_closed LeaseRevokedStatus c).
Qed.

Lemma step_grows o c : grows c (step o c).
Proof.
  destruct connector_ops_atomic as (A1 & A2 & A3 & A4 & A5 & A6 & A7 & A8).
  destruct o; cbn [step];
    lazymatch goal with |- context [exec ?m c] =>
      destruct (exec_atomic m c ltac:(auto)) as [->|[? Hrun]]; [apply grows_refl|] end.
  - by eapply begin_boot_fences.
  - by eapply issue_lease_fences.
  - by eapply record_heartbeat_fences.
  - by eapply expire_lease_fences.
  - by eapply revoke_lease_fences.
  - by eapply advance_generation_fences.
  - by eapply revise_live_fences.
  - by eapply set_desired_fences.
Qed.

Lemma run_grows ops c : grows c (run_all step ops c).
Proof.
  apply (run_all_inv step (grows c)); [|apply grows_refl].
  intros o s _ Hs. unfold grows in *. etransitivity; [exact Hs|apply step_grows].
Qed.

(** The fence accepted by a consistent connector is the last of its history, and
    its epoch says which one it is. *)
Lemma accepted_fence_last c f now u :
  connector_ok c → validate_fence c f now = Ok u →
  last (fences c) = Some f ∧ f.(fence_lease_epoch) = Z.of_nat (length (fences c)).
Proof.
  intros [_ _ Hls _ _] H. unfold validate_fence in H. res_inv H.
  apply fence_coordinates_Ok in Hres as (_ & _ & _ & _ & Hf & _ & i & Hi & Hl).
  destruct (active_lease_last c i _ Hls Hi Hl) as (ls & Hc & -> & _).
  pose proof (ls_epochs _ Hls _ _ Hl) as He. unfold fences. rewrite Hc, fmap_app. cbn.
  rewrite last_snoc, Hf. split; [done|]. rewrite <-Hf, He, length_app, length_fmap. cbn. lia.
Qed.

Lemma accepted_fences_ordered c c' f g now now' u u' :
  connector_ok c → connector_ok c' → grows c c' →
  validate_fence c f now = Ok u → validate_fence c' g now' = Ok u' →
  f = g ∨ f.(fence_lease_epoch) < g.(fence_lease_epoch).
Proof.
  intros Hc Hc' [k Hk] Hf Hg.
  destruct (accepted_fence_last _ _ _ _ Hc Hf) as [Hl ->], (accepted_fence_last _ _ _ _ Hc' Hg) as [Hl' ->].
  rewrite Hk in *. destruct k as [|x k]; [left; rewrite app_nil_r in Hl'; congruence|].
  right. rewrite length_app. cbn. lia.
Qed.

Lemma reachable_run c ops : reachable c → Forall typed_op ops → reachable (run_all step ops c).
Proof.
  intros (h & id & k & m & c0 & ops0 & H0 & Hty & ->) Hops.
  exists h, id, k, m, c0, (ops0 ++ ops). split_and!; [done|by apply Forall_app|]. by rewrite run_all_app.
Qed.

(** C17. Lease fences are fencing tokens.  If a fence [f] is accepted at some
    point and a fence [g] at a later one, then they are equal or the epoch of [g]
    is larger; and once a different fence was accepted, [f] is refused in every
    later state and at any instant, whatever operations follow. *)
Theorem stale_fence_stays_refused c ops ops' f g now now' now'' :
  reachable c → Forall typed_op ops → Forall typed_op ops' →
  let later := run_all step ops c in
  validate_fence c f now = Ok tt → validate_fence later g now' = Ok tt →
  (f = g ∨ f.(fence_lease_epoch) < g.(fence_lease_epoch)) ∧
  (f ≠ g → ∃ e, validate_fence (run_all step ops' later) f now'' = Err e).
Proof.
  intros Hc Hops Hops' later Hf Hg.
  assert (reachable later) as Hl by (by apply reachable_run).
  apply reachable_connector_ok in Hc as Hcok. apply reachable_connector_ok in Hl as Hlok.
  assert (f = g ∨ f.(fence_lease_epoch) < g.(fence_lease_epoch)) as Hfg.
  { eapply (accepted_fences_ordered c later); try done. apply run_grows. }
  split; [done|]. intros Hne. destruct Hfg as [|Hlt]; [done|].
  destruct (validate_fence (run_all step ops' later) f now'') as [u|e] eqn:Hv; [|eauto]. exfalso.
  destruct (accepted_fences_ordered later (run_all step ops' later) g f now' now'' tt u); try done.
  - by apply reachable_connector_ok, reachable_run.
  - apply run_grows.
  - lia.
Qed.
