(* ===== verification/ConnectorRefine.v ===== *)
(** * Connectors: the control head refines the aggregate

    [head_of] projects a connector to the constant-size head that online control
    operations use.  Every operation of the head succeeds exactly when the
    aggregate's does, with the same result and the projected state. *)

From S2P Require Import Prelude Domain AgentHost Connector ConnectorHead ConnectorInv ConnectorSteps ConnectorReload.

Definition active (c : Connector) : option ConnectorLease :=
  i ← c.(active_lease_index); c.(leases) !! i.

Definition head_of (c : Connector) : ConnectorControlHead :=
  {| ch_tenant_id := c.(tenant_id); ch_connector_id := c.(connector_id); ch_host_id := c.(host_id);
     ch_adapter_kind := c.(adapter_kind); ch_generation := c.(generation);
     ch_desired_state := c.(desired_state); ch_observed_state := c.(observed_state);
     ch_max_concurrency := c.(max_concurrency); ch_spec_revision := c.(spec_revision);
     ch_latest_revision := revision_image (current_revision c);
     ch_current_boot := boot_image <$> open_boot c;
     ch_active_lease := lease_image <$> active c;
     ch_highest_lease_epoch := c.(highest_lease_epoch);
     ch_server_time_high_water_millis := c.(server_time_high_water_millis) |}.

(** What the head must do when the aggregate does [run]. *)
Definition simulates {A} (run : result ConnectorError A * Connector) (h0 : ConnectorControlHead)
    (head_run : result ConnectorError A * ConnectorControlHead) : Prop :=
  match run with
  | (Ok a, c') => head_run = (Ok a, head_of c')
  | (Err _, _) => ∃ e, head_run = (Err e, h0)
  end.

(** A run that does not fail. *)
Definition succeeds {S E A} (m : ST S E A) (s : S) : Prop := ∃ a s', m s = (Ok a, s').

Section succeeds.
Context {S E B : Type}.
Lemma succeeds_get (f : S → ST S E B) s : succeeds (f s) s → succeeds (get ≫= f) s.
Proof. done. Qed.
Lemma succeeds_lift {A} (r : result E A) (f : A → ST S E B) s a :
  r = Ok a → succeeds (f a) s → succeeds (lift r ≫= f) s.
Proof. by intros ->. Qed.
Lemma succeeds_reject (P : Prop) `{!Decision P} e (f : unit → ST S E B) s :
  ¬ P → succeeds (f tt) s → succeeds (lift (reject_if P e) ≫= f) s.
Proof. intros HP. apply (succeeds_lift _ f s tt). by apply reject_if_Ok. Qed.
Lemma succeeds_nofail (m : ST S E B) s : nofail m → succeeds m s.
Proof.
  intros Hm. destruct (Hm s) as [a Ha]. exists a, (m s).2. rewrite <-Ha. by destruct (m s).
Qed.
End succeeds.

Lemma simulates_intro {A} (m : ST Connector ConnectorError A)
    (n : ST ConnectorControlHead ConnectorError A) c :
  atomic n →
  (∀ a c', m c = (Ok a, c') → n (head_of c) = (Ok a, head_of c')) →
  (∀ a h', n (head_of c) = (Ok a, h') → succeeds m c) →
  simulates (m c) (head_of c) (n (head_of c)).
Proof.
  intros Hat Hfwd Hbwd. unfold simulates. destruct (m c) as [[a|e] c'] eqn:Hm; [by apply Hfwd|].
  destruct (n (head_of c)) as [[a|e'] h'] eqn:Hn.
  - destruct (Hbwd _ _ eq_refl) as (? & ? & Hs). rewrite Hm in Hs. done.
  - exists e'. by rewrite (Hat _ _ _ Hn).
Qed.

(** ** The projections of the histories *)

Lemma open_boot_snoc c bs b :
  c.(boots) = bs ++ [b] → b.(ended_at_millis) = None → open_boot c = Some b.
Proof. intros Hb He. apply open_boot_last. by rewrite Hb, last_snoc. Qed.

Lemma open_boot_closed c t bs : c.(boots) = closed_boots t bs → open_boot c = None.
Proof.
  intros Hb. unfold open_boot. rewrite Hb. destruct bs as [|b bs _] using rev_ind; [done|].
  rewrite closed_boots_snoc, last_snoc. cbn. destruct (close_boot_same t b) as (_ & _ & _ & _ & _ & ->). done.
Qed.

Lemma active_None c : c.(active_lease_index) = None → active c = None.
Proof. unfold active. by intros ->. Qed.

Lemma active_Some c i l : c.(active_lease_index) = Some i → c.(leases) !! i = Some l → active c = Some l.
Proof. unfold active. by intros ->. Qed.

Lemma active_lease_id c l l' :
  leases_ok c → active c = Some l → l' ∈ c.(leases) →
  l'.(lease_fence).(fence_lease_id) = l.(lease_fence).(fence_lease_id) → l' = l.
Proof.
  unfold active. intros Hls Ha [j Hj]%list_elem_of_lookup_1 Hid.
  destruct (active_lease_index c) as [i|] eqn:Hi; [|done]. cbn in Ha.
  assert (i = j); [|congruence].
  eapply (NoDup_lookup _ _ _ _ (ls_ids _ Hls)); rewrite list_lookup_fmap; [by rewrite Ha|].
  rewrite Hj. cbn. by rewrite Hid.
Qed.

Lemma head_boot_id c : boots_ok c → ControlHead.current_boot_id (head_of c) = c.(current_boot_id).
Proof.
  intros Hb. unfold ControlHead.current_boot_id. cbn. rewrite (bs_current _ Hb). by destruct (open_boot c).
Qed.

Lemma head_eq c h :
  h.(ch_tenant_id) = c.(tenant_id) → h.(ch_connector_id) = c.(connector_id) →
  h.(ch_host_id) = c.(host_id) → h.(ch_adapter_kind) = c.(adapter_kind) →
  h.(ch_generation) = c.(generation) → h.(ch_desired_state) = c.(desired_state) →
  h.(ch_observed_state) = c.(observed_state) → h.(ch_max_concurrency) = c.(max_concurrency) →
  h.(ch_spec_revision) = c.(spec_revision) →
  h.(ch_highest_lease_epoch) = c.(highest_lease_epoch) →
  h.(ch_server_time_high_water_millis) = c.(server_time_high_water_millis) →
  h.(ch_latest_revision) = revision_image (current_revision c) →
  h.(ch_current_boot) = boot_image <$> open_boot c →
  h.(ch_active_lease) = lease_image <$> active c → head_of c = h.
Proof. destruct h. cbn. intros. subst. done. Qed.

(** ** Running a program whose checks hold *)

Ltac solve_atomic_head := repeat first
    [ apply atomic_nofail; solve [solve_nofail]
    | apply atomic_readonly; first [apply readonly_lift | apply readonly_get]
    | apply atomic_bind_read; [first [apply readonly_lift | apply readonly_get]|intros ?]
    | lazymatch goal with |- atomic (match ?x with _ => _ end) => destruct x end
    | progress cbv zeta ].

Lemma head_ops_atomic :
  (∀ b t, atomic (ControlHead.begin_boot b t)) ∧
  (∀ l b i e, atomic (ControlHead.issue_lease l b i e)) ∧
  (∀ r t, atomic (ControlHead.advance_generation r t)) ∧
  (∀ r d t, atomic (ControlHead.revise_live_configuration r d t)) ∧
  (∀ r d t, atomic (ControlHead.set_desired_state r d t)).
Proof. split_and!; intros; solve_atomic_head. Qed.

Ltac st_lift H :=
  apply st_bind_Ok; eexists _, _; split; [apply lift_Ok; split; [exact H|reflexivity]|].
(** The assignments at the end of a program. *)
Ltac st_writes := repeat (st_step; []); first [apply mret_Ok; split; [reflexivity|] | apply modify_Ok].

(** A new boot id, or the current one. *)
Definition boot_id_usable (c : Connector) (b : BootId) : Prop :=
  (∀ x, x ∈ c.(boots) → x.(boot_id) ≠ b) ∨ c.(current_boot_id) = Some b.

Lemma find_usable_boot c b :
  boots_ok c → boot_id_usable c b →
  (list_find (λ x, x.(boot_id) = b) c.(boots) = None ∧ (∀ x, open_boot c = Some x → x.(boot_id) ≠ b)) ∨
  ∃ i x, list_find (λ x, x.(boot_id) = b) c.(boots) = Some (i, x) ∧ open_boot c = Some x ∧
    x.(boot_id) = b ∧ c.(current_boot_id) = Some b ∧ x.(ended_at_millis) = None ∧
    x.(boot_generation) = c.(generation).
Proof.
  intros Hok [Hnew|Hcur].
  - left. split; [apply list_find_None, Forall_forall, Hnew|].
    intros x [Hl _]%open_boot_last. apply Hnew. apply last_Some in Hl as [? ->]. set_solver.
  - right. destruct (current_boot_open c b Hok Hcur) as (x & Hx & Hid).
    apply open_boot_last in Hx as Hx'. destruct Hx' as [Hl He].
    destruct (bs_live _ Hok x Hx) as [_ Hg].
    destruct (list_find (λ x, x.(boot_id) = b) c.(boots)) as [[i y]|] eqn:Hf.
    + apply list_find_Some in Hf as Hf'. destruct Hf' as (Hi & Hy & _).
      apply last_Some in Hl as [bs Hbs].
      assert (y = x) as ->; [|by exists i, x].
      assert (c.(boots) !! length bs = Some x) as Hj by (by rewrite Hbs, list_lookup_middle).
      assert (i = length bs); [|congruence].
      eapply (NoDup_lookup _ _ _ _ (bs_ids _ Hok)); rewrite list_lookup_fmap; [by rewrite Hi|].
      rewrite Hj. cbn. by rewrite Hy, Hid.
    + apply list_find_None in Hf. rewrite Forall_forall in Hf. exfalso. apply (Hf x); [|done].
      apply last_Some in Hl as [? ->]. set_solver.
Qed.

Lemma boot_times_covered c b :
  boots_ok c → last c.(boots) = Some b →
  covers c.(server_time_high_water_millis) (default b.(started_at_millis) b.(ended_at_millis)).
Proof.
  intros Hok Hl. assert (boot_ok c b) as [_ _ Hs He].
  { apply (proj1 (Forall_forall _ _) (bs_all _ Hok)). apply last_Some in Hl as [? ->]. set_solver. }
  destruct (ended_at_millis b) as [e|]; cbn; [by apply He|done].
Qed.

Lemma begin_boot_simulated c b t :
  connector_ok c → boot_id_usable c b →
  simulates (begin_boot b t c) (head_of c) (ControlHead.begin_boot b t (head_of c)).
Proof.
  intros Hok Hb. pose proof (co_boots _ Hok) as Hbs. apply simulates_intro; [apply head_ops_atomic| |].
  - intros u c' Hrun. unfold begin_boot in Hrun. apply st_bind_Ok in Hrun as (? & ? & Hg & Hrun).
    apply get_Ok in Hg as [-> ->]. unfold ControlHead.begin_boot. st_step.
    destruct (find_usable_boot c b Hbs Hb) as [[Hf Hne]|(i & x & Hf & Ho & Hid & _)];
      rewrite Hf in Hrun; conn_inv Hrun; st_lift Hrun0.
    + assert ((lift (ControlHead.ensure_server_time_not_regressed (head_of c) t)
        : ST ConnectorControlHead _ _) (head_of c) = (Ok tt, head_of c)) as Ht by (by apply lift_Ok).
      cbn [head_of ch_current_boot]. destruct (open_boot c) as [ob|] eqn:Ho; cbn [fmap option_fmap option_map].
      * rewrite decide_False by (by apply Hne). st_step.
        { cbn. apply open_boot_last in Ho as [Hl He]. rewrite Hl in Hrun1. cbn in Hrun1.
          rewrite He in Hrun1. exact Hrun1. }
        apply st_bind_Ok. exists tt, (head_of c). split; [exact Ht|]. st_writes.
        apply head_eq; try reflexivity.
        match goal with |- context [open_boot ?s] =>
          rewrite (open_boot_snoc s _ _ eq_refl eq_refl) end; reflexivity.
      * apply st_bind_Ok. exists tt, (head_of c). split; [exact Ht|]. st_writes.
        apply head_eq; try reflexivity.
        match goal with |- context [open_boot ?s] =>
          rewrite (open_boot_snoc s _ _ eq_refl eq_refl) end; reflexivity.
    + cbn [head_of ch_current_boot]. rewrite Ho. cbn [fmap option_fmap option_map].
      rewrite decide_True by done. apply lift_Ok. split; [|done]. apply reject_if_Ok. cbn. tauto.
  - intros u h' Hrun. unfold ControlHead.begin_boot in Hrun.
    apply st_bind_Ok in Hrun as (? & ? & Hg & Hrun). apply get_Ok in Hg as [-> ->].
    unfold begin_boot. apply succeeds_get.
    apply st_bind_Ok in Hrun as (? & ? & Hg & Hrun). apply lift_Ok in Hg as [Hg ->].
    apply (succeeds_lift _ _ _ _ Hg).
    destruct (find_usable_boot c b Hbs Hb) as [[Hf Hne]|(i & ob & Hf & Ho & Hid & Hc & He & Hgen)]; rewrite Hf.
    + assert (ensure_server_time_not_regressed c t = Ok tt) as Ht.
      { cbn [head_of ch_current_boot] in Hrun. destruct (open_boot c) as [ob|] eqn:Ho;
          cbn [fmap option_fmap option_map] in Hrun;
          [rewrite decide_False in Hrun by (by apply Hne)|]; st_inv Hrun;
          match goal with H : ControlHead.ensure_server_time_not_regressed _ _ = Ok ?u |- _ =>
            destruct u; exact H end. }
      apply succeeds_reject.
      { destruct (last (boots c)) as [lb|] eqn:Hl; cbn; [|by intros []].
        apply (boot_times_covered c lb Hbs) in Hl. apply (not_regressed_covers c t _ Ht) in Hl. lia. }
      apply (succeeds_lift _ _ _ _ Ht), succeeds_nofail. solve_nofail.
    + exists tt, c. apply lift_Ok. split; [|done]. apply reject_if_Ok. intros Hno. apply Hno.
      cbn [head_of ch_current_boot] in Hrun. rewrite Ho in Hrun. cbn [fmap option_fmap option_map] in Hrun.
      rewrite decide_True in Hrun by done. st_inv Hrun. cbn in Hrun. split_and!; try done.
      by apply dec_stable.
Qed.

(** ** The heartbeat head of a connector *)

(** The observed state is the one reported by the active lease, or the overlay
    that draining puts on it. *)
Definition in_sync (c : Connector) : Prop :=
  ∀ l, active c = Some l →
    (c.(desired_state) = Draining ∧ c.(observed_state) = ObsDraining) ∨
    match l.(last_heartbeat) with
    | Some h => h.(hb_state) = c.(observed_state)
    | None => c.(observed_state) = ObsStarting
    end.

Definition heartbeat_head_of (c : Connector) (l : ConnectorLease) : ConnectorHeartbeatHead :=
  {| hh_tenant_id := c.(tenant_id); hh_connector_id := c.(connector_id);
     hh_generation := c.(generation); hh_adapter_kind := c.(adapter_kind);
     hh_spec_revision := c.(spec_revision); hh_desired_state := c.(desired_state);
     hh_observed_state := c.(observed_state); hh_max_concurrency := c.(max_concurrency);
     hh_current_boot_id := l.(lease_fence).(fence_boot_id);
     hh_highest_lease_epoch := l.(lease_fence).(fence_lease_epoch);
     hh_server_time_high_water_millis := c.(server_time_high_water_millis);
     hh_active_lease := l |}.

(** What is known of the active lease. *)
Record active_facts (c : Connector) (l : ConnectorLease) : Prop := {
  af_ok : lease_ok c l;
  af_status : l.(status) = LeaseActive;
  af_boot : c.(current_boot_id) = Some l.(lease_fence).(fence_boot_id);
  af_generation : l.(lease_fence).(fence_generation) = c.(generation);
  af_highest : c.(highest_lease_epoch) = Some l.(lease_fence).(fence_lease_epoch);
  af_epoch : 1 ≤ l.(lease_fence).(fence_lease_epoch) ≤ Revision.MAX;
  af_live : is_live c.(desired_state) = true
}.

Lemma active_lease_facts c l : connector_ok c → active c = Some l → active_facts c l.
Proof.
  intros [_ Hbs Hls _ _] Ha. unfold active in Ha.
  destruct (active_lease_index c) as [i|] eqn:Hi; [|done]. cbn in Ha.
  destruct (active_lease_last c i l Hls Hi Ha) as (ls & Hl & -> & Hst & Hb & Hg).
  pose proof (ls_epochs _ Hls _ _ Ha) as He. pose proof (ls_bound _ Hls) as Hbd.
  assert (length c.(leases) = S (length ls)) as Hlen by (rewrite Hl, length_app; cbn; lia).
  split; try done.
  - apply (proj1 (Forall_forall _ _) (ls_all _ Hls)). rewrite Hl. set_solver.
  - rewrite (ls_highest _ Hls), Hlen, decide_False by (rewrite Hl; by destruct ls). f_equal. lia.
  - lia.
  - by eapply running_live.
Qed.

Lemma heartbeat_head_Ok c l :
  connector_ok c → in_sync c → active c = Some l →
  ControlHead.heartbeat_head (head_of c) = Ok (heartbeat_head_of c l).
Proof.
  intros Hok Hsync Ha. destruct (active_lease_facts c l Hok Ha) as [Hl Hst Hb Hg Hhi Hep Hlive].
  pose proof Hl as [[Ht Hc] Hgen Httl _ Hbeat _ Hiss _].
  unfold ControlHead.heartbeat_head. rewrite (head_boot_id c (co_boots _ Hok)).
  ok_step; [exact Hb|]. ok_step; [cbn; by rewrite Ha|]. ok_step; [exact Hhi|].
  unfold HeartbeatHead.try_from_snapshot. cbn -[snapshot_heartbeat Z.le].
  ok_step; [apply snapshot_generation_Ok, (rv_generation _ (co_revisions _ Hok))|].
  ok_step; [by apply snapshot_epoch_Ok|]. ok_step; [apply (rv_capacity _ (co_revisions _ Hok))|].
  ok_step; [rewrite Hlive; intros [?|[?|[?|[?|[?|[?|[?|?]]]]]]]; congruence || done|].
  ok_step; [by apply snapshot_heartbeat_Ok|]. ok_step.
  { intros [Hno Hx]. apply bool_decide_eq_false in Hno. destruct (Hsync l Ha) as [?|Hm]; [done|].
    destruct (last_heartbeat l) as [h|]; cbn in Hx; destruct Hx as [Hx|Hx]; try done; by destruct Hx. }
  ok_step.
  { intros Hx. unfold beat_ok in Hbeat.
    destruct (server_time_high_water_millis c) as [hw|]; cbn in *; [|done].
    destruct Hx as [?|Hx]; [lia|]. destruct (last_heartbeat l), (last_heartbeat_at_millis l); cbn in *; try done.
    destruct Hbeat as (_ & _ & _ & _ & _ & _ & _ & _ & ?). lia. }
  unfold heartbeat_head_of. rewrite <-Hg at 2. by destruct l as [[] ? ? ? ? ? ?].
Qed.

Lemma heartbeat_head_inv c hh :
  connector_ok c → ControlHead.heartbeat_head (head_of c) = Ok hh →
  ∃ l, active c = Some l ∧ in_sync c ∧ hh = heartbeat_head_of c l.
Proof.
  intros Hok H. assert (∃ l, active c = Some l ∧ in_sync c) as (l & Ha & Hs).
  { unfold ControlHead.heartbeat_head in H. res_inv H. cbn in Hres0.
    apply fmap_Some_1 in Hres0 as (l & Ha & ->). exists l. split; [done|].
    unfold HeartbeatHead.try_from_snapshot in H. res_inv H. cbn -[snapshot_heartbeat] in *.
    match goal with H : snapshot_heartbeat _ _ = Ok _ |- _ => rename H into Hbeat end.
    match goal with H : ¬ (bool_decide _ = false ∧ _) |- _ => rename H into Hguard end.
    rewrite snapshot_heartbeat_Ok in Hbeat by (by apply (af_ok _ _ (active_lease_facts c l Hok Ha))).
    intros l' Hl'. assert (l' = l) as -> by congruence. injection Hbeat as <-.
    destruct (decide (c.(desired_state) = Draining ∧ c.(observed_state) = ObsDraining)); [by left|right].
    destruct (last_heartbeat l) as [h|]; apply dec_stable; intros Hne; apply Hguard;
      (split; [by apply bool_decide_eq_false|]); [by left|by right]. }
  exists l. rewrite (heartbeat_head_Ok c l Hok Hs Ha) in H. by injection H as <-.
Qed.

(** The fences that the head accepts. *)
Lemma head_fence_coordinates c l f :
  connector_ok c → active c = Some l →
  (HeartbeatHead.validate_fence_coordinates (heartbeat_head_of c l) f = Ok tt ↔
   validate_fence_coordinates c f = Ok l).
Proof.
  intros Hok Ha. destruct (active_lease_facts c l Hok Ha) as [Hl Hst Hb Hg _ _ _].
  pose proof (lo_scope _ _ Hl) as [Ht Hc]. split.
  - intros H. unfold HeartbeatHead.validate_fence_coordinates in H. res_inv H. cbn in H.
    assert (f = lease_fence l) as -> by (apply dec_stable; tauto).
    unfold validate_fence_coordinates. ok_step; [intros Hn; by apply Hn|]. ok_step; [intros Hn; by apply Hn|].
    ok_step; [intros [Hn|Hn]; apply Hn; [done|by rewrite Hb]|].
    unfold active in Ha. destruct (active_lease_index c) as [i|] eqn:Hi; [|done]. cbn in Ha.
    apply result_bind_Ok. exists (i, l). split; [|cbv beta iota; by rewrite Hst, decide_True].
    apply ok_or_Ok, list_find_Some. split_and!; [done..|]. intros j y Hj Hlt Hy.
    pose proof (ls_epochs _ (co_leases _ Hok) _ _ Hj) as H1.
    pose proof (ls_epochs _ (co_leases _ Hok) _ _ Ha) as H2. rewrite Hy in H1. lia.
  - intros (_ & _ & _ & _ & Hf & _)%fence_coordinates_Ok. subst f.
    unfold HeartbeatHead.validate_fence_coordinates. cbn. ok_step; [intros Hn; by apply Hn|].
    ok_step; [intros Hn; by apply Hn|]. apply reject_if_Ok. intros [Hn|[Hn|Hn]]; by apply Hn.
Qed.

Lemma head_validate_fence c f now :
  connector_ok c →
  ControlHead.validate_fence (head_of c) f now = Ok tt ↔ in_sync c ∧ validate_fence c f now = Ok tt.
Proof.
  intros Hok. unfold ControlHead.validate_fence, HeartbeatHead.validate_fence, validate_fence. split.
  - intros H. apply result_bind_Ok in H as (hh & Hhh & H). apply map_err_Ok in Hhh.
    apply (heartbeat_head_inv c _ Hok) in Hhh as (l & Ha & Hs & ->). split; [done|].
    apply result_bind_Ok in H as ([] & Hf & H). apply result_bind_Ok. exists l. split; [|exact H].
    by apply head_fence_coordinates.
  - intros [Hs H]. apply result_bind_Ok in H as (l & Hf & H).
    apply fence_coordinates_Ok in Hf as Hx. destruct Hx as (_ & _ & _ & _ & _ & _ & i & Hi & Hl).
    pose proof (active_Some _ _ _ Hi Hl) as Ha. rewrite (heartbeat_head_Ok c _ Hok Hs Ha).
    apply (head_fence_coordinates c l f Hok Ha) in Hf. cbn. by rewrite Hf.
Qed.

(** ** The other operations *)

Lemma head_time c t :
  ControlHead.ensure_server_time_not_regressed (head_of c) t = ensure_server_time_not_regressed c t.
Proof. done. Qed.

Lemma head_next_revision c : ControlHead.next_revision (head_of c) = next_revision c.
Proof. done. Qed.

(** The lease id that is active. *)
Definition active_id (c : Connector) (id : LeaseId) : Prop :=
  ∃ l, active c = Some l ∧ l.(lease_fence).(fence_lease_id) = id.

(** A new lease id, or the active one. *)
Definition lease_id_known (c : Connector) (id : LeaseId) : Prop :=
  (∀ l, l ∈ c.(leases) → l.(lease_fence).(fence_lease_id) ≠ id) ∨ active_id c id.

(** A new lease id, or the active one while the observed state is in sync. *)
Definition lease_id_usable (c : Connector) (id : LeaseId) : Prop :=
  (∀ l, l ∈ c.(leases) → l.(lease_fence).(fence_lease_id) ≠ id) ∨
  (∃ l, active c = Some l ∧ l.(lease_fence).(fence_lease_id) = id ∧ in_sync c).

Lemma active_in_leases c l : active c = Some l → l ∈ c.(leases).
Proof.
  unfold active. destruct (active_lease_index c) as [i|]; [|done]. cbn. apply list_elem_of_lookup_2.
Qed.

Lemma find_usable_lease c id :
  connector_ok c → lease_id_usable c id →
  (list_find (λ l, l.(lease_fence).(fence_lease_id) = id) c.(leases) = None ∧
   (∀ l, active c = Some l → l.(lease_fence).(fence_lease_id) ≠ id)) ∨
  ∃ i l, list_find (λ l, l.(lease_fence).(fence_lease_id) = id) c.(leases) = Some (i, l) ∧
    active c = Some l ∧ l.(lease_fence).(fence_lease_id) = id ∧
    ControlHead.active_fence (head_of c) = Some l.(lease_fence).
Proof.
  intros Hok [Hnew|(l & Ha & Hid & Hs)].
  - left. split; [apply list_find_None, Forall_forall, Hnew|]. intros l Hl. by apply Hnew, active_in_leases.
  - right. destruct (list_find _ _) as [[i y]|] eqn:Hf.
    + apply list_find_Some in Hf as (Hi & Hy & _).
      assert (y = l) as ->.
      { eapply active_lease_id; [by apply co_leases|done|by eapply list_elem_of_lookup_2|by rewrite Hy]. }
      exists i, l. split_and!; try done. unfold ControlHead.active_fence.
      by rewrite (heartbeat_head_Ok c l Hok Hs Ha).
    + apply list_find_None in Hf. rewrite Forall_forall in Hf. exfalso. apply (Hf l); [|done].
      by apply active_in_leases.
Qed.

(** No instant of the last lease lies after the server clock. *)
Lemma lease_times_covered c l :
  leases_ok c → last c.(leases) = Some l →
  covers c.(server_time_high_water_millis) l.(issued_at_millis) ∧
  ∀ a, l.(last_heartbeat_at_millis) = Some a → covers c.(server_time_high_water_millis) a.
Proof.
  intros Hok Hl. assert (lease_ok c l) as [_ _ _ _ Hb _ Hi _].
  { apply (proj1 (Forall_forall _ _) (ls_all _ Hok)). apply last_Some in Hl as [? ->]. set_solver. }
  split; [done|]. intros a Ha. unfold beat_ok in Hb. rewrite Ha in Hb.
  destruct (last_heartbeat l); [|done]. by destruct Hb as (_ & _ & _ & _ & _ & _ & _ & _ & ?).
Qed.

Lemma head_epoch c :
  leases_ok c →
  (match (head_of c).(ch_highest_lease_epoch) with
   | Some epoch => map_err (λ _, CounterExhausted) (Some <$> snapshot_epoch epoch)
   | None => Ok None
   end) = Ok c.(highest_lease_epoch).
Proof.
  intros Hls. cbn. rewrite (ls_highest _ Hls). pose proof (ls_bound _ Hls).
  destruct (decide (leases c = [])) as [|Hne]; [done|].
  rewrite snapshot_epoch_Ok; [done|]. destruct (leases c); [done|]. cbn in *. lia.
Qed.

Lemma head_generation c :
  revisions_ok c →
  map_err (λ _, CounterExhausted) (snapshot_generation (head_of c).(ch_generation)) = Ok c.(generation).
Proof. intros Hr. cbn [head_of ch_generation]. by rewrite snapshot_generation_Ok by apply (rv_generation _ Hr). Qed.

Lemma active_snoc c ls l :
  c.(leases) = ls ++ [l] → c.(active_lease_index) = Some (length (ls ++ [l]) - 1)%nat → active c = Some l.
Proof.
  intros Hl Hi. apply (active_Some _ _ _ Hi). rewrite Hl, length_app, Nat.add_sub. by apply list_lookup_middle.
Qed.

(** The earliest instant at which the aggregate issues the next lease. *)
Lemma not_before_covered c i ob :
  boots_ok c → leases_ok c → ensure_server_time_not_regressed c i = Ok tt →
  last c.(boots) = Some ob → ob.(ended_at_millis) = None →
  let last_issued_at :=
    match last c.(leases) with Some l => l.(issued_at_millis) | None => ob.(started_at_millis) end in
  ¬ (i < Z.max (Z.max (default last_issued_at (l ← last c.(leases); l.(last_heartbeat_at_millis)))
                  last_issued_at) ob.(started_at_millis)).
Proof.
  intros Hbs Hls Ht Hlast Hopen. apply (boot_times_covered c ob Hbs) in Hlast as Hob.
  rewrite Hopen in Hob. apply (not_regressed_covers c i _ Ht) in Hob. cbn in Hob.
  destruct (last (leases c)) as [l|] eqn:Hl; cbn; [|lia].
  destruct (lease_times_covered c l Hls Hl) as [Hi Ha]. apply (not_regressed_covers c i _ Ht) in Hi.
  destruct (last_heartbeat_at_millis l) as [a|]; cbn; [|lia].
  specialize (not_regressed_covers c i a Ht (Ha a eq_refl)). lia.
Qed.

Lemma issue_lease_simulated c id b i e :
  connector_ok c → lease_id_usable c id →
  simulates (issue_lease id b i e c) (head_of c) (ControlHead.issue_lease id b i e (head_of c)).
Proof.
  intros Hok Hid. pose proof Hok as [Hrev Hbs Hls _ _].
  apply simulates_intro; [apply head_ops_atomic| |].
  - intros f c' Hrun. unfold issue_lease in Hrun. apply st_bind_Ok in Hrun as (? & ? & Hg & Hrun).
    apply get_Ok in Hg as [-> ->]. unfold ControlHead.issue_lease. st_step.
    destruct (find_usable_lease c id Hok Hid) as [[Hf Hne]|(j & l & Hf & Ha & Hl & Hfen)];
      rewrite Hf in Hrun; conn_inv Hrun; st_lift Hrun0;
      (st_step; [rewrite head_boot_id by done; done|]); st_lift Hrun2.
    + match goal with H : Epoch.checked_next _ = _ |- _ => rename H into Hepoch end.
      match goal with H : ensure_server_time_not_regressed _ _ = _ |- _ => rename H into Ht end.
      cbn [ch_active_lease head_of]. destruct (active c) as [al|] eqn:Ha; cbn [fmap option_fmap option_map];
        [rewrite decide_False by (by apply Hne)|]; fold (head_of c);
        (st_lift Ht; st_lift (head_epoch c Hls); st_lift Hepoch; st_lift (head_generation c Hrev); st_writes;
         apply head_eq; try reflexivity;
         match goal with |- context [active ?s] => rewrite (active_snoc s _ _ eq_refl eq_refl) end; reflexivity).
    + cbn [head_of ch_active_lease]. rewrite Ha. cbn [fmap option_fmap option_map].
      rewrite decide_True by done. rewrite decide_True by (cbn; apply dec_stable in Hrun3; tauto).
      apply lift_Ok. fold (head_of c). by rewrite Hfen.
  - intros f h' Hrun. unfold ControlHead.issue_lease in Hrun.
    apply st_bind_Ok in Hrun as (? & ? & Hg & Hrun). apply get_Ok in Hg as [-> ->].
    apply st_bind_Ok in Hrun as (? & ? & Hg & Hrun). apply lift_Ok in Hg as [Hg ->].
    apply st_bind_Ok in Hrun as (? & ? & Hb & Hrun). apply lift_Ok in Hb as [Hb ->]. res_inv Hb.
    apply st_bind_Ok in Hrun as (ttl & ? & Hw & Hrun). apply lift_Ok in Hw as [Hw ->].
    rewrite head_boot_id in Hb by done. apply dec_stable in Hb.
    unfold issue_lease. apply succeeds_get, (succeeds_lift _ _ _ _ Hg), succeeds_reject; [tauto|].
    apply (succeeds_lift _ _ _ _ Hw).
    destruct (find_usable_lease c id Hok Hid) as [[Hf Hne]|(j & l & Hf & Ha & Hl & Hfen)]; rewrite Hf.
    + assert (ensure_server_time_not_regressed c i = Ok tt ∧
        ∃ ep, Epoch.checked_next c.(highest_lease_epoch) = Ok ep) as [Ht [ep Hep]].
      { cbn [ch_active_lease head_of] in Hrun. destruct (active c) as [al|] eqn:Ha;
          cbn [fmap option_fmap option_map] in Hrun; [rewrite decide_False in Hrun by (by apply Hne)|];
          fold (head_of c) in Hrun;
          (apply st_bind_Ok in Hrun as ([] & ? & Ht & Hrun); apply lift_Ok in Ht as [Ht ->];
           split; [exact Ht|];
           apply st_bind_Ok in Hrun as (hi & ? & Hhi & Hrun); apply lift_Ok in Hhi as [Hhi ->];
           rewrite head_epoch in Hhi by done; injection Hhi as <-;
           apply st_bind_Ok in Hrun as (ep & ? & Hep & Hrun); apply lift_Ok in Hep as [Hep ->]; eauto). }
      destruct (current_boot_open c b Hbs Hb) as (ob & [Hlast Hopen]%open_boot_last & Hob).
      apply (succeeds_lift _ _ _ ob.(started_at_millis)).
      { apply ok_or_Ok. rewrite Hlast. cbn. by rewrite decide_True. }
      apply succeeds_reject; [by apply not_before_covered|].
      apply (succeeds_lift _ _ _ _ Ht), (succeeds_lift _ _ _ _ Hep), succeeds_nofail. solve_nofail.
    + cbn [ch_active_lease head_of] in Hrun. rewrite Ha in Hrun. cbn [fmap option_fmap option_map] in Hrun.
      rewrite decide_True in Hrun by done. case_decide as Hm; [|by st_inv Hrun].
      apply succeeds_reject; [|by exists l.(lease_fence), c]. intros Hn. by apply Hn.
Qed.

Lemma before_boot_iff c t :
  ControlHead.before_boot (head_of c) t ↔ ∃ b, open_boot c = Some b ∧ t < b.(started_at_millis).
Proof. unfold ControlHead.before_boot. cbn. destruct (open_boot c); naive_solver. Qed.

Lemma head_close_time c t :
  validate_boot_close_time c t = Ok tt ↔ ¬ ControlHead.before_boot (head_of c) t.
Proof.
  rewrite before_boot_iff. split.
  - intros H (b & Hb & Hlt). apply (close_time_Ok c t H) in Hb. lia.
  - intros H. unfold validate_boot_close_time. apply reject_if_Ok. intros Hs. apply H.
    destruct (last (boots c)) as [b|] eqn:Hl; [|done]. destruct Hs as [He Hlt].
    exists b. by rewrite open_boot_last.
Qed.

Lemma head_checked_generation c :
  revisions_ok c →
  ok_or (value ← u64_checked_add (head_of c).(ch_generation) 1;
         if decide (value ≤ Revision.MAX) then Some value else None) CounterExhausted
  = Generation.checked_next c.(generation).
Proof.
  intros Hr. destruct (rv_generation _ Hr) as [H1 H2]. cbn [head_of ch_generation].
  assert (Revision.MAX < u64_max) by done.
  assert (u64_checked_add c.(generation) 1 = Some (c.(generation) + 1)) as ->.
  { apply checked_Some. lia. }
  unfold Generation.checked_next. cbn. repeat case_decide; try done; lia.
Qed.

(** One bind at a time: a check that was passed, an assignment. *)
Ltac peel H Hg :=
  apply st_bind_Ok in H as (? & ? & Hg & H); apply lift_Ok in Hg as [Hg ->].

Lemma advance_generation_simulated c r t :
  connector_ok c →
  simulates (advance_generation r t c) (head_of c) (ControlHead.advance_generation r t (head_of c)).
Proof.
  intros Hok. pose proof (co_revisions _ Hok) as Hrev. destruct head_ops_atomic as (_ & _ & Hat & _).
  apply simulates_intro; [apply Hat| |].
  - intros g c' Hrun. unfold advance_generation in Hrun. conn_inv Hrun.
    unfold ControlHead.advance_generation. st_step. st_step; [done|]. st_step; [done|]. st_lift Hrun2.
    st_step; [by apply head_close_time|]. rewrite (head_checked_generation c Hrev).
    st_lift Hrun4. st_lift Hrun5. st_writes.
    apply head_eq; try reflexivity. match goal with |- context [open_boot ?s] =>
      rewrite (open_boot_closed s t c.(boots) eq_refl) end. reflexivity.
  - intros g h' Hrun. unfold ControlHead.advance_generation in Hrun.
    apply st_bind_Ok in Hrun as (? & ? & Hg & Hrun). apply get_Ok in Hg as [-> ->].
    peel Hrun H1. peel Hrun H2. peel Hrun H3. peel Hrun H4. peel Hrun H5. peel Hrun H6.
    rewrite (head_checked_generation c Hrev) in H5.
    res_inv H1. res_inv H2. res_inv H4. apply head_close_time in H4.
    unfold advance_generation. apply succeeds_get, succeeds_reject; [done|]. apply succeeds_reject; [done|].
    apply (succeeds_lift _ _ _ _ H3), (succeeds_lift _ _ _ _ H4), (succeeds_lift _ _ _ _ H5),
      (succeeds_lift _ _ _ _ H6), succeeds_nofail. solve_nofail.
Qed.

Lemma revise_live_simulated c r d t :
  simulates (revise_live_configuration r d t c) (head_of c)
    (ControlHead.revise_live_configuration r d t (head_of c)).
Proof.
  destruct head_ops_atomic as (_ & _ & _ & Hat & _). apply simulates_intro; [apply Hat| |].
  - intros r' c' Hrun. unfold revise_live_configuration in Hrun. conn_inv Hrun.
    unfold ControlHead.revise_live_configuration. st_step. st_step; [done|]. st_step; [done|].
    st_step; [done|]. st_lift Hrun3. st_lift Hrun4. st_writes.
    destruct (decide (d = Draining)); by apply head_eq.
  - intros r' h' Hrun. unfold ControlHead.revise_live_configuration in Hrun.
    apply st_bind_Ok in Hrun as (? & ? & Hg & Hrun). apply get_Ok in Hg as [-> ->].
    peel Hrun H1. peel Hrun H2. peel Hrun H3. peel Hrun H4. peel Hrun H5.
    res_inv H1. res_inv H2. res_inv H3.
    unfold revise_live_configuration. apply succeeds_get, succeeds_reject; [done|].
    apply succeeds_reject; [done|]. apply succeeds_reject; [done|].
    apply (succeeds_lift _ _ _ _ H4), (succeeds_lift _ _ _ _ H5), succeeds_nofail. solve_nofail.
Qed.

Lemma allowed_transition d d' :
  match d, d' with
  | Running, (Draining | Stopped | Revoked)
  | Draining, (Running | Stopped | Revoked)
  | Stopped, (Running | Revoked) => true
  | _, _ => false
  end = valid_desired_transition d d'.
Proof. by destruct d, d'. Qed.

Lemma head_stop_time c d t :
  (∃ u, (if decide (d = Stopped ∨ d = Revoked) then validate_boot_close_time c t else Ok tt) = Ok u) ↔
  ¬ ((d = Stopped ∨ d = Revoked) ∧ ControlHead.before_boot (head_of c) t).
Proof.
  case_decide as Hd.
  - split.
    + intros [[] H]. apply head_close_time in H. tauto.
    + intros H. exists tt. apply head_close_time. tauto.
  - split; [tauto|]. by exists tt.
Qed.

Lemma set_desired_state_simulated c r d t :
  connector_ok c →
  simulates (set_desired_state r d t c) (head_of c) (ControlHead.set_desired_state r d t (head_of c)).
Proof.
  intros Hok. destruct head_ops_atomic as (_ & _ & _ & _ & Hat). apply simulates_intro; [apply Hat| |].
  - intros r' c' Hrun. unfold set_desired_state in Hrun.
    do 3 apply st_bind_Ok in Hrun as (? & ? & ?Hg & Hrun). conn_inv Hg. conn_inv Hg0. conn_inv Hg1.
    unfold ControlHead.set_desired_state. st_step. st_step; [done|]. st_step; [done|].
    cbn [head_of ch_desired_state]. fold (head_of c).
    case_decide as Hsame; [by conn_inv Hrun|]. rewrite allowed_transition in Hrun. conn_inv Hrun.
    st_step; [done|]. st_lift Hrun0. st_step; [by apply head_stop_time; eauto|]. st_lift Hrun3.
    match goal with H : enter_desired_state _ _ _ = _ |- _ =>
      apply enter_desired_state_Ok in H as [[Hlive ->]|[Hlive ->]] end; st_writes.
    + destruct d; try done; by apply head_eq.
    + destruct d; try done; apply head_eq; try reflexivity; match goal with |- context [open_boot ?s] =>
        rewrite (open_boot_closed s t c.(boots) eq_refl) end; reflexivity.
  - intros r' h' Hrun. unfold ControlHead.set_desired_state in Hrun.
    apply st_bind_Ok in Hrun as (? & ? & Hg & Hrun). apply get_Ok in Hg as [-> ->].
    peel Hrun H1. peel Hrun H2. res_inv H1. res_inv H2. cbn [head_of ch_desired_state] in Hrun. fold (head_of c) in Hrun.
    unfold set_desired_state. apply succeeds_get, succeeds_reject; [done|]. apply succeeds_reject; [done|].
    case_decide as Hsame; [by exists c.(spec_revision), c|]. rewrite allowed_transition.
    peel Hrun H3. peel Hrun H4. peel Hrun H5. peel Hrun H6. res_inv H3. res_inv H5.
    apply head_stop_time in H5 as [u H5].
    apply (succeeds_lift _ _ _ _ H4), succeeds_reject; [done|].
    apply (succeeds_lift _ _ _ _ H5), (succeeds_lift _ _ _ _ H6), succeeds_nofail. solve_nofail_op.
Qed.

(** ** The refinement *)

(** The operations that the head offers. *)
Inductive ControlOp : Type :=
| CtlBeginBoot (boot : BootId) (started_at : Z)
| CtlIssueLease (lease : LeaseId) (boot : BootId) (issued_at expires_at : Z)
| CtlAdvanceGeneration (expected : Revision) (changed_at : Z)
| CtlReviseLive (expected : Revision) (target : ConnectorDesiredState) (changed_at : Z)
| CtlSetDesired (expected : Revision) (target : ConnectorDesiredState) (changed_at : Z).

(** What an operation returns. *)
Inductive Reply : Type :=
| Done | Fenced (fence : ConnectorFence) | Numbered (n : Z).

Definition reply {S A} (f : A → Reply) (m : ST S ConnectorError A) : ST S ConnectorError Reply :=
  a ← m; mret (f a).

Definition control (o : ControlOp) : ST Connector ConnectorError Reply :=
  match o with
  | CtlBeginBoot b t => reply (λ _, Done) (begin_boot b t)
  | CtlIssueLease l b i e => reply Fenced (issue_lease l b i e)
  | CtlAdvanceGeneration r t => reply Numbered (advance_generation r t)
  | CtlReviseLive r d t => reply Numbered (revise_live_configuration r d t)
  | CtlSetDesired r d t => reply Numbered (set_desired_state r d t)
  end.

Definition head_control (o : ControlOp) : ST ConnectorControlHead ConnectorError Reply :=
  match o with
  | CtlBeginBoot b t => reply (λ _, Done) (ControlHead.begin_boot b t)
  | CtlIssueLease l b i e => reply Fenced (ControlHead.issue_lease l b i e)
  | CtlAdvanceGeneration r t => reply Numbered (ControlHead.advance_generation r t)
  | CtlReviseLive r d t => reply Numbered (ControlHead.revise_live_configuration r d t)
  | CtlSetDesired r d t => reply Numbered (ControlHead.set_desired_state r d t)
  end.

(** The active lease is issued again although its head cannot be read. *)
Lemma reissue_out_of_sync c id b i e :
  connector_ok c → active_id c id → ¬ in_sync c →
  (∃ err, ControlHead.issue_lease id b i e (head_of c) = (Err err, head_of c)) ∧
  ∃ r, issue_lease id b i e c = (r, c).
Proof.
  intros Hok (l & Ha & Hid) Hs. split.
  - unfold ControlHead.issue_lease, mbind, ST_bind, get, lift.
    destruct (ensure_may_run _) as [[]|]; [|by eexists]. destruct (reject_if _ _) as [[]|]; [|by eexists].
    destruct (lease_window i e) as [ttl|]; [|by eexists]. cbn [head_of ch_active_lease]. rewrite Ha.
    cbn [fmap option_fmap option_map]. rewrite decide_True by done. case_decide; [|by eexists].
    fold (head_of c). unfold ControlHead.active_fence.
    destruct (ControlHead.heartbeat_head (head_of c)) as [hh|] eqn:Hh; [|by eexists].
    by apply heartbeat_head_inv in Hh as (? & _ & ? & _).
  - unfold issue_lease, mbind, ST_bind, get, lift.
    destruct (ensure_may_run _) as [[]|]; [|by eexists]. destruct (reject_if _ _) as [[]|]; [|by eexists].
    destruct (lease_window i e) as [ttl|]; [|by eexists]. destruct (list_find _ _) as [[k y]|] eqn:Hf.
    + destruct (reject_if _ _) as [[]|]; by eexists.
    + apply list_find_None in Hf. rewrite Forall_forall in Hf. by destruct (Hf l (active_in_leases _ _ Ha)).
Qed.

(** The operation issues the active lease again. *)
Definition reissues (c : Connector) (o : ControlOp) : Prop :=
  match o with CtlIssueLease l _ _ _ => active_id c l | _ => False end.

(** Identifiers are new or name the current boot and the active lease: what the
    unique indexes of the store leave to the head, which has no history. *)
Definition ids_usable (c : Connector) (o : ControlOp) : Prop :=
  match o with
  | CtlBeginBoot b _ => boot_id_usable c b
  | CtlIssueLease l _ _ _ => lease_id_known c l
  | _ => True
  end.

Lemma simulates_reply {A} (f : A → Reply) m n c :
  simulates (m c) (head_of c) (n (head_of c)) →
  simulates (reply f m c) (head_of c) (reply f n (head_of c)).
Proof.
  unfold simulates, reply, mbind, ST_bind. destruct (m c) as [[a|e] c']; cbn.
  - by intros ->.
  - intros [e' ->]. by exists e'.
Qed.

(** C16. The control head refines the aggregate, but for one retry.  For every
    reachable connector and every control operation whose identifiers are new or
    current: unless the operation issues the active lease again while the observed
    state is not the one that lease reported, it succeeds on the projected head
    exactly when it succeeds on the whole aggregate, with the same reply, and leaves
    the projection of the new aggregate, and a failure leaves the head as it was.  In
    the excepted case the head always refuses and keeps its state, where the aggregate
    may answer with the fence of the lease, and the aggregate does not change either. *)
Theorem control_head_refines c o :
  reachable c → ids_usable c o →
  (¬ reissues c o ∨ in_sync c → simulates (control o c) (head_of c) (head_control o (head_of c))) ∧
  (reissues c o → ¬ in_sync c →
   (∃ e, head_control o (head_of c) = (Err e, head_of c)) ∧ ∃ r, control o c = (r, c)).
Proof.
  intros Hok%reachable_connector_ok Hids. split.
  - intros Hre. destruct o; cbn [control head_control]; apply simulates_reply.
    + by apply begin_boot_simulated.
    + apply issue_lease_simulated; [done|]. destruct Hids as [Hnew|Hact]; [by left|right].
      destruct Hre as [[]|Hs]; [done|]. destruct Hact as (l & Ha & Hl). eauto.
    + by apply advance_generation_simulated.
    + apply revise_live_simulated.
    + by apply set_desired_state_simulated.
  - destruct o as [|id b i e| | |]; try done. intros Hre Hs. cbn [control head_control].
    destruct (reissue_out_of_sync c id b i e Hok Hre Hs) as [[err He] [r Hr]].
    unfold reply, mbind, ST_bind. rewrite He, Hr. split; [by eexists|]. destruct r; by eexists.
Qed.

(** The head of a reachable connector accepts a fence exactly when the
    aggregate accepts it and the observed state is the one its active lease
    reported (or the draining overlay): no fence is accepted by the head alone. *)
Theorem control_head_fences c f now :
  reachable c →
  ControlHead.validate_fence (head_of c) f now = Ok tt ↔ in_sync c ∧ validate_fence c f now = Ok tt.
Proof. intros Hok%reachable_connector_ok. by apply head_validate_fence. Qed.

(** ** Heartbeats through the heartbeat head *)

Lemma atomic_head_heartbeat f s t st cap mi : atomic (HeartbeatHead.record_heartbeat f s t st cap mi).
Proof. solve_atomic_head. Qed.

Lemma raise_not_regressed hw t : (∀ x, covers hw x → x ≤ t) → raise_high_water hw t = Some t.
Proof. intros H. unfold raise_high_water. destruct hw as [h|]; [|done]. f_equal. specialize (H h). cbn in H. lia. Qed.

Lemma active_beaten c i l f :
  c.(active_lease_index) = Some i → c.(leases) !! i = Some l →
  ∀ c', c'.(active_lease_index) = Some i → c'.(leases) = alter f i c.(leases) → active c' = Some (f l).
Proof.
  intros Hi Hl c' Hi' Hl'. apply (active_Some _ _ _ Hi'). by rewrite Hl', list_lookup_alter_eq, Hl.
Qed.

(** A heartbeat through the heartbeat head does what it does to the
    aggregate: on a reachable connector with an active lease it is accepted
    exactly when the aggregate accepts it, with the same acknowledgement, and
    leaves the head of the new aggregate and of its renewed lease; a refused
    heartbeat leaves the head as it was. *)
Theorem heartbeat_head_refines c l f s t st cap mi :
  reachable c → active c = Some l →
  match record_heartbeat f s t st cap mi c with
  | (Ok ack, c') => ∃ l', active c' = Some l' ∧
      HeartbeatHead.record_heartbeat f s t st cap mi (heartbeat_head_of c l)
      = (Ok ack, heartbeat_head_of c' l')
  | (Err _, _) => ∃ e,
      HeartbeatHead.record_heartbeat f s t st cap mi (heartbeat_head_of c l)
      = (Err e, heartbeat_head_of c l)
  end.
Proof.
  intros Hok%reachable_connector_ok Ha. destruct (record_heartbeat f s t st cap mi c) as [[ack|e] c'] eqn:Hrun.
  - unfold record_heartbeat in Hrun. apply st_bind_Ok in Hrun as (? & ? & Hg & Hrun). apply get_Ok in Hg as [-> ->].
    peel Hrun Hf. peel Hrun Hd. apply fence_coordinates_Ok in Hf as Hx.
    destruct Hx as (_ & _ & _ & _ & _ & _ & i & Hi & Hl).
    assert (l = x) as <- by (pose proof (active_Some _ _ _ Hi Hl); congruence).
    apply (head_fence_coordinates c l f Hok Ha) in Hf. unfold HeartbeatHead.record_heartbeat.
    destruct x0 as [a|a]; conn_inv Hrun.
    + exists l. split; [done|]. st_step. st_lift Hf. st_lift Hd. done.
    + apply evaluate_heartbeat_Advance in Hd as Hadv. destruct Hadv as (_ & _ & _ & _ & _ & Hhw & _).
      match goal with H : _ = Some ?i' |- _ => is_var i'; assert (i' = i) as -> by
        (rewrite Hi in H; cbn in H; rewrite Hl in H; by injection H) end.
      eexists. split; [by apply (active_beaten c i l (beat a s st cap t) Hi Hl)|].
      st_step. st_lift Hf. st_lift Hd. st_writes. unfold heartbeat_head_of. cbn. by rewrite raise_not_regressed.
  - destruct (HeartbeatHead.record_heartbeat f s t st cap mi (heartbeat_head_of c l)) as [[a|e'] h'] eqn:Hh;
      [exfalso|by exists e'; rewrite (atomic_head_heartbeat _ _ _ _ _ _ _ _ _ Hh)].
    cut (succeeds (record_heartbeat f s t st cap mi) c); [intros (? & ? & ?); congruence|].
    unfold HeartbeatHead.record_heartbeat in Hh. apply st_bind_Ok in Hh as (? & ? & Hg & Hh).
    apply get_Ok in Hg as [-> ->]. peel Hh Hf. peel Hh Hd. destruct x.
    apply (head_fence_coordinates c l f Hok Ha) in Hf.
    unfold record_heartbeat. apply succeeds_get, (succeeds_lift _ _ _ _ Hf), (succeeds_lift _ _ _ _ Hd).
    destruct x0 as [a'|a']; [by exists a', c|].
    apply fence_coordinates_Ok in Hf as (_ & _ & _ & _ & _ & _ & i & Hi & Hl).
    apply (succeeds_lift _ _ _ i); [by apply ok_or_Ok; rewrite Hi; cbn; rewrite Hl|].
    apply succeeds_nofail. solve_nofail.
Qed.

(** The head of a reachable connector passes its own validation. *)
Lemma head_loads c : connector_ok c → ControlHead.try_from_snapshot (head_of c) = Ok (head_of c).
Proof.
  intros Hok. pose proof Hok as [Hrev Hbs Hls Hrk Hst].
  assert (∀ b, open_boot c = Some b → boot_ok c b) as Hob.
  { intros b [Hl _]%open_boot_last. apply (proj1 (Forall_forall _ _) (bs_all _ Hbs)).
    apply last_Some in Hl as [? ->]. set_solver. }
  unfold ControlHead.try_from_snapshot. cbn -[snapshot_heartbeat snapshot_generation snapshot_epoch Z.le].
  ok_step; [apply snapshot_generation_Ok, (rv_generation _ Hrev)|]. ok_step; [apply (rv_capacity _ Hrev)|].
  ok_step; [intros [?|[?|[?|[?|[?|[?|?]]]]]]; done|].
  ok_step.
  { intros Hx. destruct (open_boot c) as [b|] eqn:Ho; [|done]. cbn in Hx.
    destruct (Hob b eq_refl) as [[] _ _ _]. destruct (bs_live _ Hbs b Ho) as [_ ?].
    apply open_boot_last in Ho as [_ He]. rewrite He in Hx.
    destruct Hx as [?|[?|[?|[? ?]]]]; congruence. }
  apply result_bind_Ok. exists tt. split.
  { destruct (active c) as [l|] eqn:Ha; cbn -[snapshot_heartbeat snapshot_epoch Z.le]; [|done].
    destruct (active_lease_facts c l Hok Ha) as [[[] _ Httl _ _ _ _ _] Hact Hb Hg Hhi Hep _].
    ok_step; [exact Hhi|]. ok_step; [by apply snapshot_epoch_Ok|]. ok_step.
    { pose proof (head_boot_id c Hbs) as Hid. unfold ControlHead.current_boot_id in Hid.
      cbn in Hid. rewrite Hid. intros [?|[?|[?|[?|[?|[?|?]]]]]]; congruence || done. }
    ok_step; [|done]. apply snapshot_heartbeat_Ok, (active_lease_facts c l Hok Ha). }
  ok_step.
  { rewrite (ls_highest _ Hls). pose proof (ls_bound _ Hls).
    destruct (decide (leases c = [])) as [|Hne]; cbn; [by intros []|].
    destruct (leases c); [done|]. cbn in *. lia. }
  assert (c.(desired_state) = Stopped ∨ c.(desired_state) = Revoked → open_boot c = None ∧ active c = None) as Hterm.
  { intros Hd. assert (is_live c.(desired_state) = false) as Hnl by (by destruct Hd as [-> | ->]). split.
    - destruct (open_boot c) as [b|] eqn:Ho; [|done]. apply (bs_live _ Hbs) in Ho as [? _]. congruence.
    - destruct (active c) as [l|] eqn:Ha; [|done]. apply (active_lease_facts c l Hok), af_live in Ha. congruence. }
  ok_step; [intros [Hd [[? H]|[? H]]]; destruct (Hterm Hd) as [Ho Ha]; rewrite ?Ho, ?Ha in H; done|].
  ok_step; [intros [[? ?]|[? ?]]; auto|].
  ok_step.
  { intros [[x Ha] Ho]. destruct (active c) as [l|] eqn:Hac; [|done].
    pose proof (af_boot _ _ (active_lease_facts c l Hok Hac)) as Hb. rewrite (bs_current _ Hbs) in Hb.
    by destruct (open_boot c). }
  ok_step; [|done].
  intros [Hx|Hx].
  - destruct (open_boot c) as [b|]; [|done]. destruct (Hob b eq_refl) as [_ _ Hs _]. cbn in *.
    destruct (server_time_high_water_millis c); cbn in *; [lia|done].
  - destruct (active c) as [l|] eqn:Ha; [|done].
    destruct (active_lease_facts c l Hok Ha) as [[_ _ _ _ Hbeat _ Hi _] _ _ _ _ _ _].
    unfold beat_ok in Hbeat. cbn in Hx.
    destruct (server_time_high_water_millis c) as [hw|]; cbn in *; [|done].
    destruct Hx as [?|Hx]; [lia|]. destruct (last_heartbeat l), (last_heartbeat_at_millis l); cbn in *; try done.
    destruct Hbeat as (_ & _ & _ & _ & _ & _ & _ & _ & ?). lia.
Qed.
