(* ===== verification/ConnectorDemo.v ===== *)
(** * Hosts and connectors: worked examples

    A host that rotates its credential, and a connector that boots, is leased,
    reports, is drained and set running again.  The theorems about hosts and
    connectors are applied to them; the last section shows where the heads and
    the aggregate part. *)

From S2P Require Import Prelude Domain AgentHost Connector ConnectorHead ConnectorInv ConnectorSteps ConnectorReload ConnectorFencing ConnectorRefine.

Module ConnectorDemo.
Definition tenant : TenantId := UuidV7 1.
Definition host_id_ : HostId := UuidV7 2.
Definition owner : IdentityId := MkPublicId (replicate 32 7).
Definition credential (n : Z) : Host.HostCredentialId := UuidV7 n.

(** ** A host *)

Definition awaiting : Host.AgentHost := Host.register tenant host_id_ owner.
Definition enrolment : list Host.HostOp :=
  [Host.OpEnroll 1 (credential 10); Host.OpRotate 2 (credential 11)].
Definition host : Host.AgentHost := run_all Host.step enrolment awaiting.

Lemma retired_credential_is_dead_witness :
  credential 10 ∈ host.(Host.retired_credentials) ∧
  ∃ e, Host.rotate_credential 4 (credential 10) (run_all Host.step [Host.OpQuarantine 3] host)
       = (Err e, run_all Host.step [Host.OpQuarantine 3] host).
Proof.
  assert (credential 10 ∈ host.(Host.retired_credentials)) as Hc by (apply (bool_decide_unpack _); exact I).
  split; [exact Hc|].
  apply (Host.retired_credential_is_dead tenant host_id_ owner enrolment [Host.OpQuarantine 3] (credential 10) 4 1
           Host.Healthy 0 0 Hc).
Defined.

(** ** A connector *)

Definition connector : ConnectorId := UuidV7 3.
Definition boot (n : Z) : BootId := UuidV7 n.
Definition lease (n : Z) : LeaseId := UuidV7 n.

Definition registered : Connector :=
  ltac:(let r := eval vm_compute in (register host connector Codex 4) in
        match r with Ok ?c => exact c end).

Definition fence_of (lease_id : LeaseId) (epoch : Z) : ConnectorFence :=
  {| fence_tenant_id := tenant; fence_connector_id := connector; fence_generation := 1;
     fence_boot_id := boot 20; fence_lease_id := lease_id; fence_lease_epoch := epoch |}.

Definition first_fence : ConnectorFence := fence_of (lease 30) 1.
Definition second_fence : ConnectorFence := fence_of (lease 31) 2.

Definition start : list ConnectorOp :=
  [OpBeginBoot (boot 20) 100; OpIssueLease (lease 30) (boot 20) 110 1110;
   OpHeartbeat first_fence 1 120 ObsReady 4 5].

Definition running : Connector := run_all step start registered.

Lemma start_typed : Forall typed_op start.
Proof. repeat constructor; done. Qed.

Lemma running_reachable : reachable running.
Proof. exists host, connector, Codex, 4, registered, start. split_and!; [reflexivity|apply start_typed|reflexivity]. Qed.

Lemma reachable_connector_loads_witness :
  reachable running ∧ try_from_snapshot (snapshot running) = Ok running.
Proof. split; [exact running_reachable|]. apply (reachable_connector_loads running), running_reachable. Defined.

(** The lease is reissued: the first fence is dead, also after it would be
    replayed. *)
Definition reissue : list ConnectorOp := [OpIssueLease (lease 31) (boot 20) 200 1200].
Definition replay : list ConnectorOp := [OpIssueLease (lease 30) (boot 20) 110 1110].

Lemma stale_fence_stays_refused_witness :
  validate_fence running first_fence 130 = Ok tt ∧
  validate_fence (run_all step reissue running) second_fence 210 = Ok tt ∧
  ∃ e, validate_fence (run_all step replay (run_all step reissue running)) first_fence 220 = Err e.
Proof.
  assert (validate_fence running first_fence 130 = Ok tt) as Hf by (vm_compute; reflexivity).
  assert (validate_fence (run_all step reissue running) second_fence 210 = Ok tt) as Hg by (vm_compute; reflexivity).
  split_and!; [exact Hf|exact Hg|].
  refine (proj2 (stale_fence_stays_refused running reissue replay first_fence second_fence 130 210 220
    running_reachable _ _ Hf Hg) _); [repeat constructor; done|repeat constructor; done|discriminate].
Defined.

Lemma control_head_fences_witness :
  reachable running ∧
  (ControlHead.validate_fence (head_of running) first_fence 130 = Ok tt ↔
   in_sync running ∧ validate_fence running first_fence 130 = Ok tt).
Proof.
  split; [exact running_reachable|]. apply (control_head_fences running first_fence 130 running_reachable).
Defined.

Definition running_lease : ConnectorLease :=
  ltac:(let r := eval vm_compute in (active running) in match r with Some ?l => exact l end).

Lemma heartbeat_head_refines_witness :
  active running = Some running_lease ∧
  ∃ ack c' l', record_heartbeat first_fence 2 130 ObsBusy 3 5 running = (Ok ack, c') ∧
    HeartbeatHead.record_heartbeat first_fence 2 130 ObsBusy 3 5 (heartbeat_head_of running running_lease)
    = (Ok ack, heartbeat_head_of c' l').
Proof.
  assert (active running = Some running_lease) as Ha by (vm_compute; reflexivity).
  split; [exact Ha|].
  pose proof (heartbeat_head_refines running running_lease first_fence 2 130 ObsBusy 3 5 running_reachable Ha) as H.
  destruct (record_heartbeat first_fence 2 130 ObsBusy 3 5 running) as [[ack|e] c'] eqn:Hr.
  - destruct H as (l' & _ & H). exists ack, c', l'. split; [reflexivity|exact H].
  - vm_compute in Hr. discriminate Hr.
Defined.

(** ** Draining and back

    The owner drains the connector and sets it running again between two
    heartbeats.  The lease is still active and its fence valid for the
    aggregate, yet the observed state remains [Draining]. *)

Definition toggled : Connector :=
  run_all step [OpSetDesired 1 Draining 140; OpSetDesired 2 Running 150] running.

(** A live lease can be locked out of the online path.  There is a reachable
    connector whose aggregate accepts the fence of its active lease and records
    the next heartbeat, while the control head of the same connector refuses the
    fence as stale and cannot even be turned into a heartbeat head, so that no
    heartbeat of the lease is recorded through it. *)
Theorem live_lease_locked_out : ∃ c f now,
  reachable c ∧ validate_fence c f now = Ok tt ∧
  (∃ ack c', record_heartbeat f 2 now ObsReady 4 5 c = (Ok ack, c')) ∧
  ControlHead.validate_fence (head_of c) f now = Err StaleLease ∧
  ControlHead.heartbeat_head (head_of c) = Err InvalidHeartbeat.
Proof.
  exists toggled, first_fence, 160. split_and!.
  - apply reachable_run; [apply running_reachable|]. repeat constructor.
  - vm_compute. reflexivity.
  - eexists _, _. vm_compute. reflexivity.
  - vm_compute. reflexivity.
  - vm_compute. reflexivity.
Qed.

(** A new lease is issued alike by the aggregate and by the head.  After draining and
    back, a retry of the request that issued the active lease is answered by the
    aggregate and refused by the head, and changes neither. *)
Definition renewal : ControlOp := CtlIssueLease (lease 31) (boot 20) 200 1200.
Definition retry : ControlOp := CtlIssueLease (lease 30) (boot 20) 110 1110.

Lemma toggled_reachable : reachable toggled.
Proof. apply reachable_run; [apply running_reachable|]. repeat constructor. Qed.

Lemma control_head_refines_witness :
  (simulates (control renewal running) (head_of running) (head_control renewal (head_of running)) ∧
   ∃ f c', control renewal running = (Ok f, c')) ∧
  ((∃ e, head_control retry (head_of toggled) = (Err e, head_of toggled)) ∧ ∃ r, control retry toggled = (r, toggled)) ∧
  control retry toggled = (Ok (Fenced first_fence), toggled).
Proof.
  assert (∀ l, l ∈ running.(leases) → l.(lease_fence).(fence_lease_id) ≠ lease 31) as Hnew.
  { intros l Hl. vm_compute in Hl. apply list_elem_of_singleton in Hl as ->. vm_compute. discriminate. }
  assert (active_id toggled (lease 30)) as Hact.
  { assert (is_Some (active toggled)) as [l Hl] by (by vm_compute; eexists). exists l. split; [exact Hl|].
    vm_compute in Hl. injection Hl as <-. reflexivity. }
  split; [split; [|eexists _, _; vm_compute; reflexivity]|split; [|vm_compute; reflexivity]].
  - apply (control_head_refines running renewal running_reachable); [left; exact Hnew|].
    left. intros (l & Ha & Hid). by apply (Hnew l (active_in_leases _ _ Ha)).
  - apply (control_head_refines toggled retry toggled_reachable); [right; exact Hact|exact Hact|].
    intros Hs. destruct Hact as (l & Ha & _). pose proof (Hs l Ha) as Hl. vm_compute in Ha. injection Ha as <-.
    vm_compute in Hl. destruct Hl as [[? _]|?]; discriminate.
Defined.
End ConnectorDemo.
