(* ===== verification/BindingSet.v ===== *)
(** * Connector bindings

    Models [crates/dtx-connect-registry/src/binding.rs]: the tenant-wide registry
    of which installation may run on which connector, its routing policies and
    the validation of its durable image. *)

From S2P Require Import Prelude Domain AgentHost AgentRegistry Connector.

(** [for x in xs { body }] with [?] in the body of a [&mut self] method *)
Fixpoint st_for {S E A} (l : list A) (body : A → ST S E unit) : ST S E unit :=
  match l with
  | [] => mret tt
  | x :: l => body x;; st_for l body
  end.

(** [iter.any(|x| !set.insert(x))] *)
Fixpoint repeats {A} `{Countable A} (seen : gset A) (l : list A) : bool :=
  match l with
  | [] => false
  | x :: l => if decide (x ∈ seen) then true else repeats ({[x]} ∪ seen) l
  end.

Module Binding.
Record TenantRef (T : Type) : Type := MkRef { ref_tenant_id : TenantId; ref_id : T }.
Arguments MkRef {T} _ _.
Arguments ref_tenant_id {T} _.
Arguments ref_id {T} _.

Inductive SessionCardinality : Type := Single | Multi.
Record AdapterConformance : Type := {
  conf_adapter_kind : AdapterKind;
  registry_revision : Revision;
  cardinality : SessionCardinality
}.
Definition trusted_single_session (kind : AdapterKind) (revision : Revision) : AdapterConformance :=
  {| conf_adapter_kind := kind; registry_revision := revision; cardinality := Single |}.
Definition trusted_multi_session (kind : AdapterKind) (revision : Revision) : AdapterConformance :=
  {| conf_adapter_kind := kind; registry_revision := revision; cardinality := Multi |}.
Definition supports_multi_session (c : AdapterConformance) : bool :=
  match c.(cardinality) with Multi => true | Single => false end.

Inductive BindingState : Type := Disabled | Enabled | BindingRevoked.
Inductive RoutingPolicy : Type := Exclusive | OrderedFailover.

Global Instance SessionCardinality_eq_dec : EqDecision SessionCardinality.
Proof. solve_decision. Defined.
Global Instance AdapterConformance_eq_dec : EqDecision AdapterConformance.
Proof. solve_decision. Defined.
Global Instance BindingState_eq_dec : EqDecision BindingState.
Proof. solve_decision. Defined.
Global Instance RoutingPolicy_eq_dec : EqDecision RoutingPolicy.
Proof. solve_decision. Defined.

Inductive BindingError : Type :=
| WrongTenant
| MissingConnectorConformance
| ConformanceConflict
| ConformanceAdapterMismatch
| BindingIdConflict
| DuplicateInstallationConnector
| AgentDeviceReused
| AgentDeviceScopeMismatch
| AgentDeviceNotActive
| AgentDeviceNotResolved
| InstallationNotActive
| InvalidBindingCapacity
| RoutingPolicyConflict
| RoutingPolicyNotFound
| ExclusivePriorityMustBeZero
| ExclusiveAlreadyEnabled
| PriorityConflict
| PriorityUpdateConflict
| BindingInstallationMismatch
| ConnectorSingleSession
| BindingNotFound
| InvalidTransition
| RevisionConflict (current : Revision)
| CounterExhausted.

Inductive BindingSetSnapshotError : Type :=
| InvalidCapacity
| DuplicateConnector
| DuplicateRoutingPolicy
| DuplicateBinding
| MissingConnector
| MissingRoutingPolicy
| OrphanRoutingPolicy
| SnapshotDuplicateInstallationConnector
| SnapshotAgentDeviceReused
| UnreachableBindingState
| RoutingPolicyViolation
| ConnectorCardinalityViolation.

Record BindingSpec : Type := {
  binding_ref : TenantRef BindingId;
  installation_ref : TenantRef InstallationId;
  connector_ref : TenantRef ConnectorId;
  connector_adapter_kind : AdapterKind;
  agent_device_ref : TenantRef AgentDeviceId;
  spec_priority : Z;
  spec_max_concurrency : Z
}.

Definition for_entities (binding_ref : TenantRef BindingId)
    (installation : Installation.AgentInstallation) (agent_device : Device.AgentDevice)
    (connector : Connector) (priority max_concurrency : Z) : result BindingError BindingSpec :=
  let tenant_id := installation.(Installation.tenant_id) in
  reject WrongTenant
    when (binding_ref.(ref_tenant_id) ≠ tenant_id ∨ connector.(Connector.tenant_id) ≠ tenant_id);;
  reject AgentDeviceScopeMismatch
    when (agent_device.(Device.tenant_id) ≠ tenant_id
          ∨ agent_device.(Device.installation_id) ≠ installation.(Installation.installation_id));;
  reject AgentDeviceNotActive
    when (installation.(Installation.desired_state) ≠ Installation.Enabled
          ∨ agent_device.(Device.state) ≠ Device.Active);;
  reject InvalidBindingCapacity
    when (max_concurrency = 0 ∨ max_concurrency > connector.(Connector.max_concurrency));;
  Ok {| binding_ref := binding_ref;
        installation_ref := MkRef tenant_id installation.(Installation.installation_id);
        connector_ref := MkRef tenant_id connector.(Connector.connector_id);
        connector_adapter_kind := connector.(Connector.adapter_kind);
        agent_device_ref := MkRef tenant_id agent_device.(Device.device_id);
        spec_priority := priority; spec_max_concurrency := max_concurrency |}.

Record Binding : Type := {
  id : BindingId;
  installation_id : InstallationId;
  connector_id : ConnectorId;
  agent_device_id : AgentDeviceId;
  priority : Z;
  max_concurrency : Z;
  state : BindingState;
  revision : Revision
}.

Record RoutingPolicyRecord : Type := { policy : RoutingPolicy; policy_revision : Revision }.

Record ConnectorConformanceRecord : Type := {
  conformance : AdapterConformance;
  conf_max_concurrency : Z
}.

Record BindingSet : Type := {
  tenant_id : TenantId;
  connector_conformance : gmap ConnectorId ConnectorConformanceRecord;
  routing_policies : gmap InstallationId RoutingPolicyRecord;
  bindings : gmap BindingId Binding
}.

Global Instance ConnectorConformanceRecord_eq_dec : EqDecision ConnectorConformanceRecord.
Proof. solve_decision. Defined.

Definition Binding_eta (b : Binding) : Binding :=
  {| id := b.(id); installation_id := b.(installation_id); connector_id := b.(connector_id);
     agent_device_id := b.(agent_device_id); priority := b.(priority);
     max_concurrency := b.(max_concurrency); state := b.(state); revision := b.(revision) |}.
Global Instance priority_field : Field priority := ltac:(field_of Binding_eta priority).
Global Instance state_field : Field state := ltac:(field_of Binding_eta state).
Global Instance revision_field : Field revision := ltac:(field_of Binding_eta revision).

Definition BindingSet_eta (s : BindingSet) : BindingSet :=
  {| tenant_id := s.(tenant_id); connector_conformance := s.(connector_conformance);
     routing_policies := s.(routing_policies); bindings := s.(bindings) |}.
Global Instance connector_conformance_field : Field connector_conformance :=
  ltac:(field_of BindingSet_eta connector_conformance).
Global Instance routing_policies_field : Field routing_policies :=
  ltac:(field_of BindingSet_eta routing_policies).
Global Instance bindings_field : Field bindings := ltac:(field_of BindingSet_eta bindings).

Definition new (tenant_id : TenantId) : BindingSet :=
  {| tenant_id := tenant_id; connector_conformance := ∅; routing_policies := ∅; bindings := ∅ |}.

Notation Op := (ST BindingSet BindingError).

(** ** Checks *)

Definition ensure_tenant (self : BindingSet) (t : TenantId) : result BindingError unit :=
  if decide (self.(tenant_id) = t) then Ok tt else Err WrongTenant.

Definition binding (self : BindingSet) (ref : TenantRef BindingId) : result BindingError Binding :=
  ensure_tenant self ref.(ref_tenant_id);;
  ok_or (self.(bindings) !! ref.(ref_id)) BindingNotFound.

Definition binding_snapshot (self : BindingSet) (ref : TenantRef BindingId) :
    result BindingError Binding := binding self ref.

Definition routing_policy (self : BindingSet) (ref : TenantRef InstallationId) :
    result BindingError RoutingPolicyRecord :=
  ensure_tenant self ref.(ref_tenant_id);;
  ok_or (self.(routing_policies) !! ref.(ref_id)) RoutingPolicyNotFound.

Definition ensure_revision (actual expected : Revision) : result BindingError unit :=
  if decide (actual = expected) then Ok tt else Err (RevisionConflict actual).

Definition next_revision (current : Revision) : result BindingError Revision :=
  map_err (λ _, CounterExhausted) (Revision.checked_next current).

Definition validate_priority_for_policy (p : RoutingPolicy) (priority : Z) :
    result BindingError unit :=
  if decide (p = Exclusive ∧ priority ≠ 0) then Err ExclusivePriorityMustBeZero else Ok tt.

Definition validate_spec_tenants (self : BindingSet) (spec : BindingSpec) :
    result BindingError unit :=
  try_fold (λ _ t, ensure_tenant self t)
    [spec.(binding_ref).(ref_tenant_id); spec.(installation_ref).(ref_tenant_id);
     spec.(connector_ref).(ref_tenant_id); spec.(agent_device_ref).(ref_tenant_id)] tt.

Definition validate_current_entities (b : Binding) (installation : Installation.AgentInstallation)
    (agent_device : Device.AgentDevice) : result BindingError unit :=
  reject AgentDeviceScopeMismatch
    when (installation.(Installation.tenant_id) ≠ agent_device.(Device.tenant_id)
          ∨ installation.(Installation.installation_id) ≠ b.(installation_id)
          ∨ agent_device.(Device.installation_id) ≠ b.(installation_id)
          ∨ agent_device.(Device.device_id) ≠ b.(agent_device_id));;
  reject InstallationNotActive
    when (installation.(Installation.desired_state) ≠ Installation.Enabled);;
  reject AgentDeviceNotActive when (agent_device.(Device.state) ≠ Device.Active).

(** ** Commands *)

Definition register_connector_conformance (connector : Connector) (conf : AdapterConformance) :
    Op unit :=
  self ← get;
  lift (ensure_tenant self connector.(Connector.tenant_id));;
  lift (reject ConformanceAdapterMismatch
    when (connector.(Connector.adapter_kind) ≠ conf.(conf_adapter_kind)));;
  let record := {| conformance := conf;
                   conf_max_concurrency := connector.(Connector.max_concurrency) |} in
  match self.(connector_conformance) !! connector.(Connector.connector_id) with
  | None =>
      modify (λ self, self <| connector_conformance :=
        <[connector.(Connector.connector_id) := record]> self.(connector_conformance) |>)
  | Some existing => if decide (existing = record) then mret tt else throw ConformanceConflict
  end.

(** [self.bindings.values().any(P)] *)
Definition any_binding (self : BindingSet) (P : Binding → Prop) : Prop :=
  Exists P (btree_values self.(bindings)).
Global Instance any_binding_dec self P `{∀ b, Decision (P b)} : Decision (any_binding self P).
Proof. unfold any_binding. apply _. Defined.

Definition create_binding (spec : BindingSpec) (p : RoutingPolicy) : Op Revision :=
  self ← get;
  lift (validate_spec_tenants self spec);;
  connector_record ← lift (ok_or
    (self.(connector_conformance) !! spec.(connector_ref).(ref_id)) MissingConnectorConformance);
  lift (reject InvalidBindingCapacity
    when (spec.(spec_max_concurrency) > connector_record.(conf_max_concurrency)));;
  lift (reject ConformanceAdapterMismatch
    when (spec.(connector_adapter_kind)
          ≠ connector_record.(conformance).(conf_adapter_kind)));;
  lift (reject BindingIdConflict when (is_Some (self.(bindings) !! spec.(binding_ref).(ref_id))));;
  lift (reject DuplicateInstallationConnector
    when (any_binding self (λ b, b.(installation_id) = spec.(installation_ref).(ref_id)
                                 ∧ b.(connector_id) = spec.(connector_ref).(ref_id))));;
  lift (reject AgentDeviceReused
    when (any_binding self (λ b, b.(agent_device_id) = spec.(agent_device_ref).(ref_id))));;
  lift (reject RoutingPolicyConflict
    when (some_and (self.(routing_policies) !! spec.(installation_ref).(ref_id)) (λ existing,
            existing.(policy) ≠ p)));;
  lift (validate_priority_for_policy p spec.(spec_priority));;
  lift (reject PriorityConflict
    when (p = OrderedFailover
          ∧ any_binding self (λ b, b.(installation_id) = spec.(installation_ref).(ref_id)
              ∧ b.(state) ≠ BindingRevoked ∧ b.(priority) = spec.(spec_priority))));;
  let b := {| id := spec.(binding_ref).(ref_id);
              installation_id := spec.(installation_ref).(ref_id);
              connector_id := spec.(connector_ref).(ref_id);
              agent_device_id := spec.(agent_device_ref).(ref_id);
              priority := spec.(spec_priority); max_concurrency := spec.(spec_max_concurrency);
              state := Disabled; revision := Revision.INITIAL |} in
  modify (λ self, self <| routing_policies :=
    match self.(routing_policies) !! spec.(installation_ref).(ref_id) with
    | Some _ => self.(routing_policies)
    | None => <[spec.(installation_ref).(ref_id) :=
                  {| policy := p; policy_revision := Revision.INITIAL |}]> self.(routing_policies)
    end |>);;
  modify (λ self, self <| bindings := <[spec.(binding_ref).(ref_id) := b]> self.(bindings) |>);;
  mret Revision.INITIAL.

(** [let target = self.bindings.get_mut(&id).ok_or(BindingNotFound)?; f(target)] *)
Definition update_binding (binding_id : BindingId) (f : Binding → Binding) : Op unit :=
  self ← get;
  target ← lift (ok_or (self.(bindings) !! binding_id) BindingNotFound);
  modify (λ self, self <| bindings := <[binding_id := f target]> self.(bindings) |>).

Definition enable (ref : TenantRef BindingId) (expected_revision : Revision)
    (installation : Installation.AgentInstallation) (agent_device : Device.AgentDevice) :
    Op Revision :=
  self ← get;
  b ← lift (binding_snapshot self ref);
  lift (ensure_revision b.(revision) expected_revision);;
  lift (ensure_tenant self installation.(Installation.tenant_id));;
  lift (validate_current_entities b installation agent_device);;
  match b.(state) with
  | Enabled => mret b.(revision)
  | BindingRevoked => throw InvalidTransition
  | Disabled =>
      record ← lift (ok_or (self.(routing_policies) !! b.(installation_id)) RoutingPolicyNotFound);
      lift (validate_priority_for_policy record.(policy) b.(priority));;
      lift (match record.(policy) with
            | Exclusive =>
                reject ExclusiveAlreadyEnabled
                  when (any_binding self (λ candidate, candidate.(id) ≠ b.(id)
                          ∧ candidate.(installation_id) = b.(installation_id)
                          ∧ candidate.(state) = Enabled))
            | OrderedFailover =>
                reject PriorityConflict
                  when (any_binding self (λ candidate, candidate.(id) ≠ b.(id)
                          ∧ candidate.(installation_id) = b.(installation_id)
                          ∧ candidate.(state) = Enabled ∧ candidate.(priority) = b.(priority)))
            end);;
      conf ← lift (ok_or (self.(connector_conformance) !! b.(connector_id))
                     MissingConnectorConformance);
      lift (reject ConnectorSingleSession
        when (supports_multi_session conf.(conformance) = false
              ∧ any_binding self (λ candidate, candidate.(id) ≠ b.(id)
                  ∧ candidate.(connector_id) = b.(connector_id) ∧ candidate.(state) = Enabled)));;
      next ← lift (next_revision b.(revision));
      update_binding b.(id) (λ target, target <| state := Enabled |> <| revision := next |>);;
      mret next
  end.

Definition transition_state (ref : TenantRef BindingId) (expected_revision : Revision)
    (target_state : BindingState) : Op Revision :=
  self ← get;
  b ← lift (binding_snapshot self ref);
  lift (ensure_revision b.(revision) expected_revision);;
  if decide (b.(state) = target_state) then mret b.(revision)
  else
    lift (reject InvalidTransition when (b.(state) = BindingRevoked));;
    next ← lift (next_revision b.(revision));
    update_binding b.(id) (λ target, target <| state := target_state |> <| revision := next |>);;
    mret next.

Definition disable (ref : TenantRef BindingId) (expected_revision : Revision) : Op Revision :=
  transition_state ref expected_revision Disabled.

Definition revoke (ref : TenantRef BindingId) (expected_revision : Revision) : Op Revision :=
  transition_state ref expected_revision BindingRevoked.

Definition set_priority (ref : TenantRef BindingId) (expected_revision : Revision)
    (new_priority : Z) : Op Revision :=
  self ← get;
  b ← lift (binding_snapshot self ref);
  lift (ensure_revision b.(revision) expected_revision);;
  lift (reject InvalidTransition when (b.(state) = BindingRevoked));;
  record ← lift (ok_or (self.(routing_policies) !! b.(installation_id)) RoutingPolicyNotFound);
  lift (validate_priority_for_policy record.(policy) new_priority);;
  lift (reject PriorityConflict
    when (record.(policy) = OrderedFailover
          ∧ any_binding self (λ candidate, candidate.(id) ≠ b.(id)
              ∧ candidate.(installation_id) = b.(installation_id)
              ∧ candidate.(state) ≠ BindingRevoked ∧ candidate.(priority) = new_priority)));;
  if decide (b.(priority) = new_priority) then mret b.(revision)
  else
    next ← lift (next_revision b.(revision));
    update_binding b.(id) (λ target, target <| priority := new_priority |> <| revision := next |>);;
    mret next.

(** *** [reconfigure_routing_policy] *)

Notation PriorityUpdate := (TenantRef BindingId * Revision * Z)%type.
Notation Updates := (gmap BindingId (Revision * Z)).

(** The loop over [priority_updates]. *)
Definition collect_update (self : BindingSet) (installation_id_ : InstallationId) (updates : Updates)
    (update : PriorityUpdate) : result BindingError Updates :=
  let '(ref, expected_binding_revision, new_priority) := update in
  ensure_tenant self ref.(ref_tenant_id);;
  reject PriorityUpdateConflict when (is_Some (updates !! ref.(ref_id)));;
  b ← binding_snapshot self ref;
  reject BindingInstallationMismatch when (b.(installation_id) ≠ installation_id_);;
  reject InvalidTransition when (b.(state) = BindingRevoked);;
  ensure_revision b.(revision) expected_binding_revision;;
  Ok (<[ref.(ref_id) := (expected_binding_revision, new_priority)]> updates).

(** The members of the installation with their target priorities. *)
Definition retarget (updates : Updates) (b : Binding) : Binding :=
  match updates !! b.(id) with
  | Some (_, new_priority) => b <| priority := new_priority |>
  | None => b
  end.

Definition members_of (self : BindingSet) (i : InstallationId) : list Binding :=
  filter (λ b, b.(installation_id) = i) (btree_values self.(bindings)).

Definition live (members : list Binding) : list Binding :=
  filter (λ b, b.(state) ≠ BindingRevoked) members.
Definition enabled (members : list Binding) : list Binding :=
  filter (λ b, b.(state) = Enabled) members.

Definition check_members (p : RoutingPolicy) (members : list Binding) : result BindingError unit :=
  match p with
  | Exclusive =>
      reject ExclusiveAlreadyEnabled when (1 < length (enabled members))%nat;;
      reject ExclusivePriorityMustBeZero when (Exists (λ b, b.(priority) ≠ 0) (live members))
  | OrderedFailover =>
      reject PriorityConflict when (repeats ∅ (priority <$> live members) = true)
  end.

(** The loop that computes [binding_changes]. *)
Definition plan_change (self : BindingSet) (changes : list (BindingId * Z * Revision))
    (update : BindingId * (Revision * Z)) : result BindingError (list (BindingId * Z * Revision)) :=
  let '(binding_id, (_, new_priority)) := update in
  b ← ok_or (self.(bindings) !! binding_id) BindingNotFound;
  if decide (b.(priority) ≠ new_priority) then
    next ← next_revision b.(revision);
    Ok (changes ++ [(binding_id, new_priority, next)])
  else Ok changes.

Definition reconfigure_routing_policy (ref : TenantRef InstallationId)
    (expected_revision : Revision) (p : RoutingPolicy) (priority_updates : list PriorityUpdate) :
    Op Revision :=
  self ← get;
  lift (ensure_tenant self ref.(ref_tenant_id));;
  current ← lift (ok_or (self.(routing_policies) !! ref.(ref_id)) RoutingPolicyNotFound);
  lift (ensure_revision current.(policy_revision) expected_revision);;
  updates ← lift (try_fold (collect_update self ref.(ref_id)) priority_updates ∅);
  let members := retarget updates <$> members_of self ref.(ref_id) in
  lift (check_members p members);;
  next_policy_revision ← lift (if decide (current.(policy) = p) then Ok current.(policy_revision)
                               else next_revision current.(policy_revision));
  binding_changes ← lift (try_fold (plan_change self) (btree_iter updates) []);
  st_for binding_changes (λ change,
    let '(binding_id, new_priority, next) := change in
    update_binding binding_id (λ b, b <| priority := new_priority |> <| revision := next |>));;
  (if decide (current.(policy) ≠ p) then
     self ← get;
     _ ← lift (ok_or (self.(routing_policies) !! ref.(ref_id)) RoutingPolicyNotFound);
     modify (λ self, self <| routing_policies :=
       <[ref.(ref_id) := {| policy := p; policy_revision := next_policy_revision |}]>
         self.(routing_policies) |>)
   else mret tt);;
  mret next_policy_revision.

Definition set_routing_policy (ref : TenantRef InstallationId) (expected_revision : Revision)
    (p : RoutingPolicy) : Op Revision :=
  reconfigure_routing_policy ref expected_revision p [].

(** ** Queries *)

Definition route_key (b : Binding) : Z * BindingId := (b.(priority), b.(id)).
Definition route_le (b b' : Binding) : Prop := ord_le (route_key b) (route_key b').
Global Instance route_le_dec : RelDecision route_le.
Proof. intros b b'. unfold route_le. apply _. Defined.

(** [sort_unstable_by_key]; the keys are distinct, so every sort agrees. *)
Definition route_sort (l : list Binding) : list Binding := merge_sort route_le l.

Definition configured_route_order (self : BindingSet) (ref : TenantRef InstallationId) :
    result BindingError (list BindingId) :=
  ensure_tenant self ref.(ref_tenant_id);;
  reject RoutingPolicyNotFound when (self.(routing_policies) !! ref.(ref_id) = None);;
  let enabled := filter (λ b, b.(installation_id) = ref.(ref_id) ∧ b.(state) = Enabled)
                   (btree_values self.(bindings)) in
  Ok (id <$> route_sort enabled).

Definition eligible_route_order (self : BindingSet) (installation : Installation.AgentInstallation)
    (agent_devices : list Device.AgentDevice) : result BindingError (list BindingId) :=
  ensure_tenant self installation.(Installation.tenant_id);;
  reject InstallationNotActive
    when (installation.(Installation.desired_state) ≠ Installation.Enabled);;
  reject RoutingPolicyNotFound
    when (self.(routing_policies) !! installation.(Installation.installation_id) = None);;
  let enabled := filter (λ b, b.(installation_id) = installation.(Installation.installation_id)
                              ∧ b.(state) = Enabled) (btree_values self.(bindings)) in
  try_fold (λ _ b,
    agent_device ← ok_or (snd <$> list_find (λ device,
                            device.(Device.device_id) = b.(agent_device_id)) agent_devices)
                     AgentDeviceNotResolved;
    validate_current_entities b installation agent_device) enabled tt;;
  Ok (id <$> route_sort enabled).

Definition enabled_count_for_connector (self : BindingSet) (ref : TenantRef ConnectorId) :
    result BindingError nat :=
  ensure_tenant self ref.(ref_tenant_id);;
  reject MissingConnectorConformance when (self.(connector_conformance) !! ref.(ref_id) = None);;
  Ok (length (filter (λ b, b.(connector_id) = ref.(ref_id) ∧ b.(state) = Enabled)
                (btree_values self.(bindings)))).

(** ** The durable image *)

Record ConnectorConformanceSnapshot : Type := {
  sc_connector_id : ConnectorId;
  sc_adapter_kind : AdapterKind;
  sc_registry_revision : Revision;
  sc_supports_multi_session : bool;
  sc_max_concurrency : Z
}.

Record RoutingPolicySnapshot : Type := {
  sp_installation_id : InstallationId;
  sp_policy : RoutingPolicy;
  sp_revision : Revision
}.

Record BindingSetSnapshot : Type := {
  s_tenant_id : TenantId;
  s_connector_conformance : list ConnectorConformanceSnapshot;
  s_routing_policies : list RoutingPolicySnapshot;
  s_bindings : list Binding
}.

Definition conformance_image (e : ConnectorId * ConnectorConformanceRecord) :
    ConnectorConformanceSnapshot :=
  {| sc_connector_id := e.1; sc_adapter_kind := e.2.(conformance).(conf_adapter_kind);
     sc_registry_revision := e.2.(conformance).(registry_revision);
     sc_supports_multi_session := supports_multi_session e.2.(conformance);
     sc_max_concurrency := e.2.(conf_max_concurrency) |}.
Definition policy_image (e : InstallationId * RoutingPolicyRecord) : RoutingPolicySnapshot :=
  {| sp_installation_id := e.1; sp_policy := e.2.(policy); sp_revision := e.2.(policy_revision) |}.

(** [BindingRecordSnapshot] has the fields of [Binding]. *)
Definition snapshot (self : BindingSet) : BindingSetSnapshot :=
  {| s_tenant_id := self.(tenant_id);
     s_connector_conformance := conformance_image <$> btree_iter self.(connector_conformance);
     s_routing_policies := policy_image <$> btree_iter self.(routing_policies);
     s_bindings := Binding_eta <$> btree_values self.(bindings) |}.

Definition conformance_of_image (c : ConnectorConformanceSnapshot) : ConnectorConformanceRecord :=
  {| conformance := if c.(sc_supports_multi_session)
       then trusted_multi_session c.(sc_adapter_kind) c.(sc_registry_revision)
       else trusted_single_session c.(sc_adapter_kind) c.(sc_registry_revision);
     conf_max_concurrency := c.(sc_max_concurrency) |}.

Definition load_connector (acc : gmap ConnectorId ConnectorConformanceRecord)
    (c : ConnectorConformanceSnapshot) :
    result BindingSetSnapshotError (gmap ConnectorId ConnectorConformanceRecord) :=
  reject InvalidCapacity when (c.(sc_max_concurrency) = 0);;
  reject DuplicateConnector when (is_Some (acc !! c.(sc_connector_id)));;
  Ok (<[c.(sc_connector_id) := conformance_of_image c]> acc).

Definition load_policy (acc : gmap InstallationId RoutingPolicyRecord) (p : RoutingPolicySnapshot) :
    result BindingSetSnapshotError (gmap InstallationId RoutingPolicyRecord) :=
  reject DuplicateRoutingPolicy when (is_Some (acc !! p.(sp_installation_id)));;
  Ok (<[p.(sp_installation_id) :=
          {| policy := p.(sp_policy); policy_revision := p.(sp_revision) |}]> acc).

Record BindingScan : Type := MkScan {
  scanned : gmap BindingId Binding;
  installation_connectors : gset (InstallationId * ConnectorId);
  agent_devices : gset AgentDeviceId
}.

Definition load_binding (conf : gmap ConnectorId ConnectorConformanceRecord)
    (policies : gmap InstallationId RoutingPolicyRecord) (acc : BindingScan) (r : Binding) :
    result BindingSetSnapshotError BindingScan :=
  connector ← ok_or (conf !! r.(connector_id)) MissingConnector;
  p ← ok_or (policies !! r.(installation_id)) MissingRoutingPolicy;
  reject InvalidCapacity
    when (r.(max_concurrency) = 0 ∨ r.(max_concurrency) > connector.(conf_max_concurrency));;
  reject SnapshotDuplicateInstallationConnector
    when ((r.(installation_id), r.(connector_id)) ∈ acc.(installation_connectors));;
  reject SnapshotAgentDeviceReused when (r.(agent_device_id) ∈ acc.(agent_devices));;
  reject UnreachableBindingState
    when ((r.(state) = Enabled ∨ r.(state) = BindingRevoked) ∧ ¬ 2 ≤ r.(revision));;
  reject RoutingPolicyViolation
    when (p.(policy) = Exclusive ∧ r.(state) ≠ BindingRevoked ∧ r.(priority) ≠ 0);;
  reject DuplicateBinding when (is_Some (acc.(scanned) !! r.(id)));;
  Ok (MkScan (<[r.(id) := Binding_eta r]> acc.(scanned))
        ({[(r.(installation_id), r.(connector_id))]} ∪ acc.(installation_connectors))
        ({[r.(agent_device_id)]} ∪ acc.(agent_devices))).

Definition check_policy (loaded : list Binding) (_ : unit)
    (e : InstallationId * RoutingPolicyRecord) : result BindingSetSnapshotError unit :=
  let members := filter (λ b, b.(installation_id) = e.1) loaded in
  match e.2.(policy) with
  | Exclusive => reject RoutingPolicyViolation when (1 < length (enabled members))%nat
  | OrderedFailover =>
      reject RoutingPolicyViolation when (repeats ∅ (priority <$> live members) = true)
  end.

Definition check_connector (loaded : list Binding) (_ : unit)
    (e : ConnectorId * ConnectorConformanceRecord) : result BindingSetSnapshotError unit :=
  reject ConnectorCardinalityViolation
    when (supports_multi_session e.2.(conformance) = false
          ∧ (1 < length (filter (λ b, b.(connector_id) = e.1 ∧ b.(state) = Enabled) loaded))%nat).

Definition try_from_snapshot (s : BindingSetSnapshot) : result BindingSetSnapshotError BindingSet :=
  conf ← try_fold load_connector s.(s_connector_conformance) ∅;
  policies ← try_fold load_policy s.(s_routing_policies) ∅;
  scan ← try_fold (load_binding conf policies) s.(s_bindings) (MkScan ∅ ∅ ∅);
  let loaded := btree_values scan.(scanned) in
  reject OrphanRoutingPolicy
    when (Exists (λ i, ¬ Exists (λ b, b.(installation_id) = i) loaded) (btree_iter policies).*1);;
  try_fold (check_policy loaded) (btree_iter policies) tt;;
  try_fold (check_connector loaded) (btree_iter conf) tt;;
  Ok {| tenant_id := s.(s_tenant_id); connector_conformance := conf;
        routing_policies := policies; bindings := scan.(scanned) |}.
End Binding.
