(* ===== verification/BindingInv.v ===== *)
(** * Connector bindings: the invariant

    What every registry built by the commands of [BindingSet.v] satisfies, and
    that a command that fails changes nothing. *)

From S2P Require Import Prelude Domain AgentHost AgentRegistry Connector ConnectorInv ConnectorSteps BindingSet.

Lemma repeats_NoDup {A} `{Countable A} (seen : gset A) (l : list A) :
  repeats seen l = false ↔ NoDup l ∧ ∀ x, x ∈ l → x ∉ seen.
Proof.
  revert seen. induction l as [|x l IH]; intros seen; cbn; [split; [split; [constructor|set_solver]|done]|].
  case_decide as Hx; [split; [done|set_solver]|]. rewrite IH, NoDup_cons. set_solver.
Qed.

Lemma repeats_nil_NoDup {A} `{Countable A} (l : list A) : repeats ∅ l = true ↔ ¬ NoDup l.
Proof.
  pose proof (repeats_NoDup ∅ l) as Hr. destruct (repeats ∅ l); [|set_solver].
  split; [|done]. intros _ Hnd. destruct Hr as [_ Hr]. discriminate Hr. set_solver.
Qed.

(** A filtered list has at most one element when its elements agree on a key
    without repetition. *)
Lemma length_le_1 {A} (l : list A) : NoDup l → (∀ x y, x ∈ l → y ∈ l → x = y) → (length l ≤ 1)%nat.
Proof.
  intros Hnd Heq. destruct l as [|x [|y l]]; cbn; [lia|lia|]. exfalso.
  apply NoDup_cons in Hnd as [Hx _]. apply Hx. rewrite (Heq x y) by set_solver. set_solver.
Qed.

Lemma length_le_1_eq {A} (l : list A) x y : (length l ≤ 1)%nat → x ∈ l → y ∈ l → x = y.
Proof.
  destruct l as [|z [|]]; cbn; [set_solver| |lia]. intros _ Hx Hy. set_solver.
Qed.

(** Elements with distinct keys. *)
Lemma NoDup_fmap_inj {A B} (f : A → B) (l : list A) :
  NoDup l → (∀ x y, x ∈ l → y ∈ l → f x = f y → x = y) → NoDup (f <$> l).
Proof.
  intros Hnd Hinj. induction Hnd as [|x l Hx Hnd IH]; [constructor|].
  cbn. apply NoDup_cons. split; [|apply IH; set_solver].
  rewrite list_elem_of_fmap. intros (y & Hy & Hin). apply Hx. rewrite (Hinj x y); set_solver.
Qed.

Module BindingInv.
Import Binding.

(** [b] is recorded in [s]. *)
Definition recorded (s : BindingSet) (b : Binding) : Prop := s.(bindings) !! b.(id) = Some b.

Record set_ok (s : BindingSet) : Prop := {
  so_ids : ∀ k b, s.(bindings) !! k = Some b → b.(id) = k;
  so_capacity : ∀ c r, s.(connector_conformance) !! c = Some r → r.(conf_max_concurrency) ≠ 0;
  so_connector : ∀ b, recorded s b → ∃ r,
    s.(connector_conformance) !! b.(connector_id) = Some r ∧
    b.(max_concurrency) ≠ 0 ∧ b.(max_concurrency) ≤ r.(conf_max_concurrency);
  so_policy : ∀ b, recorded s b → ∃ p,
    s.(routing_policies) !! b.(installation_id) = Some p ∧
    (p.(policy) = Exclusive → b.(state) ≠ BindingRevoked → b.(priority) = 0);
  so_used : ∀ i p, s.(routing_policies) !! i = Some p → ∃ b, recorded s b ∧ b.(installation_id) = i;
  so_pairs : ∀ b b', recorded s b → recorded s b' → b.(installation_id) = b'.(installation_id) →
    b.(connector_id) = b'.(connector_id) → b = b';
  so_devices : ∀ b b', recorded s b → recorded s b' → b.(agent_device_id) = b'.(agent_device_id) → b = b';
  so_revision : ∀ b, recorded s b →
    1 ≤ b.(revision) ∧ (b.(state) = Enabled ∨ b.(state) = BindingRevoked → 2 ≤ b.(revision));
  so_exclusive : ∀ b b' p, recorded s b → recorded s b' → b.(installation_id) = b'.(installation_id) →
    s.(routing_policies) !! b.(installation_id) = Some p → p.(policy) = Exclusive →
    b.(state) = Enabled → b'.(state) = Enabled → b = b';
  so_failover : ∀ b b' p, recorded s b → recorded s b' → b.(installation_id) = b'.(installation_id) →
    s.(routing_policies) !! b.(installation_id) = Some p → p.(policy) = OrderedFailover →
    b.(state) ≠ BindingRevoked → b'.(state) ≠ BindingRevoked → b.(priority) = b'.(priority) → b = b';
  so_single : ∀ b b' r, recorded s b → recorded s b' → b.(connector_id) = b'.(connector_id) →
    s.(connector_conformance) !! b.(connector_id) = Some r → supports_multi_session r.(conformance) = false →
    b.(state) = Enabled → b'.(state) = Enabled → b = b'
}.

Lemma new_ok t : set_ok (new t).
Proof. split; unfold recorded; cbn; intros; by simplify_map_eq. Qed.

Lemma lookup_recorded s k b : set_ok s → s.(bindings) !! k = Some b → recorded s b.
Proof. intros Hok Hk. unfold recorded. by rewrite (so_ids _ Hok _ _ Hk). Qed.

Lemma elem_of_bindings s b : set_ok s → b ∈ btree_values s.(bindings) ↔ recorded s b.
Proof.
  intros Hok. rewrite elem_of_btree_values. split; [|by eauto]. intros [k Hk]. by eapply lookup_recorded.
Qed.

Lemma any_binding_iff s (P : Binding → Prop) :
  set_ok s → any_binding s P ↔ ∃ b, recorded s b ∧ P b.
Proof.
  intros Hok. unfold any_binding. rewrite Exists_exists. by setoid_rewrite elem_of_bindings.
Qed.

Lemma recorded_insert s s' b x :
  s'.(bindings) = <[b.(id) := b]> s.(bindings) →
  recorded s' x ↔ x = b ∨ (x.(id) ≠ b.(id) ∧ recorded s x).
Proof.
  intros Hs. unfold recorded. rewrite Hs. destruct (decide (x.(id) = b.(id))) as [He|Hne].
  - rewrite He, lookup_insert_eq. split; [intros [= ->]; by left|]. by intros [->|[? _]].
  - rewrite lookup_insert_ne by done. split; [by right|]. intros [->|[_ ?]]; done.
Qed.

(** ** Commands on one binding *)

(** A binding keeps its identity when its state or priority changes. *)
Definition same_identity (b b' : Binding) : Prop :=
  b'.(id) = b.(id) ∧ b'.(installation_id) = b.(installation_id) ∧
  b'.(connector_id) = b.(connector_id) ∧ b'.(agent_device_id) = b.(agent_device_id) ∧
  b'.(max_concurrency) = b.(max_concurrency).

Lemma update_ok s s' b b' p r :
  set_ok s → recorded s b → same_identity b b' → b'.(revision) = b.(revision) + 1 →
  s'.(connector_conformance) = s.(connector_conformance) →
  s'.(routing_policies) = s.(routing_policies) → s'.(bindings) = <[b'.(id) := b']> s.(bindings) →
  s.(routing_policies) !! b.(installation_id) = Some p →
  s.(connector_conformance) !! b.(connector_id) = Some r →
  (p.(policy) = Exclusive → b'.(state) ≠ BindingRevoked → b'.(priority) = 0) →
  (p.(policy) = Exclusive → b'.(state) = Enabled → ∀ c, recorded s c → c.(id) ≠ b.(id) →
    c.(installation_id) = b.(installation_id) → c.(state) ≠ Enabled) →
  (p.(policy) = OrderedFailover → b'.(state) ≠ BindingRevoked → ∀ c, recorded s c → c.(id) ≠ b.(id) →
    c.(installation_id) = b.(installation_id) → c.(state) ≠ BindingRevoked → c.(priority) ≠ b'.(priority)) →
  (supports_multi_session r.(conformance) = false → b'.(state) = Enabled → ∀ c, recorded s c →
    c.(id) ≠ b.(id) → c.(connector_id) = b.(connector_id) → c.(state) ≠ Enabled) →
  set_ok s'.
Proof.
  intros Hok Hb (Hid & Hi & Hc & Hd & Hm) Hr Hsc Hsp Hsb Hp Hcr Hzero Hex Hfo Hsi.
  assert (Hrec : ∀ x, recorded s' x ↔ x = b' ∨ (x.(id) ≠ b.(id) ∧ recorded s x)).
  { intros x. rewrite <-Hid. by apply recorded_insert. }
  pose proof Hok as [K1 K2 K3 K4 K5 K6 K7 K8 K9 K10 K11].
  split; rewrite ?Hsc, ?Hsp; try setoid_rewrite Hrec; try done.
  - intros k x. rewrite Hsb, lookup_insert_Some. intros [[<- <-]|[_ Hx]]; [done|by apply K1].
  - intros x [->|[_ Hx]]; [rewrite Hc, Hm|]; by apply K3.
  - intros x [->|[_ Hx]]; [|by apply K4]. exists p. by rewrite Hi.
  - intros i q Hq. destruct (K5 i q Hq) as (x & Hx & <-).
    destruct (decide (x.(id) = b.(id))) as [He|Hne]; [|by exists x; auto].
    exists b'. split; [by left|]. rewrite Hi. unfold recorded in *. congruence.
  - intros x y [->|[Hx1 Hx]] [->|[Hy1 Hy]]; rewrite ?Hi, ?Hc; intros E1 E2; [done| | |by apply K6].
    + exfalso. apply Hy1. by rewrite (K6 b y).
    + exfalso. apply Hx1. by rewrite (K6 x b).
  - intros x y [->|[Hx1 Hx]] [->|[Hy1 Hy]]; rewrite ?Hd; intros E1; [done| | |by apply K7].
    + exfalso. apply Hy1. by rewrite (K7 b y).
    + exfalso. apply Hx1. by rewrite (K7 x b).
  - intros x [->|[_ Hx]]; [|by apply K8]. destruct (K8 b Hb). rewrite Hr. lia.
  - intros x y q [->|[Hx1 Hx]] [->|[Hy1 Hy]]; rewrite ?Hi; intros E1 Hq Hqp S1 S2; [done| | |by eapply K9].
    + exfalso. assert (q = p) as -> by congruence. by apply (Hex Hqp S1 y).
    + exfalso. rewrite E1 in Hq. assert (q = p) as -> by congruence. by apply (Hex Hqp S2 x).
  - intros x y q [->|[Hx1 Hx]] [->|[Hy1 Hy]]; rewrite ?Hi; intros E1 Hq Hqp S1 S2 E2; [done| | |by eapply K10].
    + exfalso. assert (q = p) as -> by congruence. by apply (Hfo Hqp S1 y).
    + exfalso. rewrite E1 in Hq. assert (q = p) as -> by congruence. by apply (Hfo Hqp S2 x).
  - intros x y q [->|[Hx1 Hx]] [->|[Hy1 Hy]]; rewrite ?Hc; intros E1 Hq Hqp S1 S2; [done| | |by eapply K11].
    + exfalso. assert (q = r) as -> by congruence. by apply (Hsi Hqp S1 y).
    + exfalso. rewrite E1 in Hq. assert (q = r) as -> by congruence. by apply (Hsi Hqp S2 x).
Qed.

Lemma update_binding_Ok k f s u s' :
  update_binding k f s = (Ok u, s') →
  ∃ b, s.(bindings) !! k = Some b ∧ s' = s <| bindings := <[k := f b]> s.(bindings) |>.
Proof. unfold update_binding. intros H. st_inv H. eauto. Qed.

Lemma atomic_update_binding k f : atomic (update_binding k f).
Proof. solve_atomic. Qed.

Ltac solve_atomic_binding :=
  repeat first
    [ apply atomic_nofail; solve [solve_nofail]
    | apply atomic_readonly; first [apply readonly_lift | apply readonly_get | done]
    | apply atomic_bind_read; [first [apply readonly_lift | apply readonly_get]|intros ?]
    | apply atomic_bind_nofail; [apply atomic_update_binding|intros ?; solve_nofail]
    | lazymatch goal with |- atomic (match ?x with _ => _ end) => destruct x end
    | progress cbv zeta ].

Lemma ensure_tenant_Ok s t u : ensure_tenant s t = Ok u → s.(tenant_id) = t.
Proof. unfold ensure_tenant. by case_decide. Qed.

Lemma ensure_revision_Ok a b u : ensure_revision a b = Ok u → a = b.
Proof. unfold ensure_revision. by case_decide. Qed.

Lemma next_revision_Ok r r' : next_revision r = Ok r' → r' = r + 1.
Proof. unfold next_revision. intros H. res_inv H. by apply Revision.checked_next_Ok in H as [_ ->]. Qed.

Lemma binding_snapshot_Ok s ref b :
  set_ok s → binding_snapshot s ref = Ok b → recorded s b ∧ b.(id) = ref.(ref_id).
Proof.
  intros Hok H. unfold binding_snapshot, binding in H. res_inv H.
  split; [by eapply lookup_recorded|by apply (so_ids _ Hok)].
Qed.

(** The records that a recorded binding refers to. *)
Lemma recorded_refs s b :
  set_ok s → recorded s b →
  ∃ p r, s.(routing_policies) !! b.(installation_id) = Some p ∧
    s.(connector_conformance) !! b.(connector_id) = Some r ∧
    (p.(policy) = Exclusive → b.(state) ≠ BindingRevoked → b.(priority) = 0).
Proof.
  intros Hok Hb. destruct (so_policy _ Hok b Hb) as (p & Hp & Hz).
  destruct (so_connector _ Hok b Hb) as (r & Hr & _). eauto 6.
Qed.

(** Which bindings share the installation or connector of [b]. *)
Lemma others_exclusive s b c p :
  set_ok s → recorded s b → recorded s c → c.(id) ≠ b.(id) → c.(installation_id) = b.(installation_id) →
  s.(routing_policies) !! b.(installation_id) = Some p → p.(policy) = Exclusive → b.(state) = Enabled →
  c.(state) ≠ Enabled.
Proof. intros Hok Hb Hc Hne Hi Hp He Hs Hs'. apply Hne. by rewrite (so_exclusive _ Hok b c p). Qed.

Lemma others_failover s b c p :
  set_ok s → recorded s b → recorded s c → c.(id) ≠ b.(id) → c.(installation_id) = b.(installation_id) →
  s.(routing_policies) !! b.(installation_id) = Some p → p.(policy) = OrderedFailover →
  b.(state) ≠ BindingRevoked → c.(state) ≠ BindingRevoked → c.(priority) ≠ b.(priority).
Proof. intros Hok Hb Hc Hne Hi Hp He Hs Hs' Hpr. apply Hne. by rewrite (so_failover _ Hok b c p). Qed.

Lemma others_single s b c r :
  set_ok s → recorded s b → recorded s c → c.(id) ≠ b.(id) → c.(connector_id) = b.(connector_id) →
  s.(connector_conformance) !! b.(connector_id) = Some r → supports_multi_session r.(conformance) = false →
  b.(state) = Enabled → c.(state) ≠ Enabled.
Proof. intros Hok Hb Hc Hne Hi Hp He Hs Hs'. apply Hne. by rewrite (so_single _ Hok b c r). Qed.

Lemma transition_ok ref r t s r' s' :
  transition_state ref r t s = (Ok r', s') → t = Disabled ∨ t = BindingRevoked → set_ok s → set_ok s'.
Proof.
  intros Hrun Ht Hok. unfold transition_state in Hrun.
  do 3 apply st_bind_Ok in Hrun as (? & ? & ?Hg & Hrun). st_inv Hg. st_inv Hg0. st_inv Hg1.
  case_decide as Hs; st_inv Hrun; [done|].
  apply (binding_snapshot_Ok _ _ _ Hok) in Hg0 as [Hb _].
  match goal with H : next_revision _ = _ |- _ => apply next_revision_Ok in H as -> end.
  match goal with H : update_binding _ _ _ = _ |- _ => apply update_binding_Ok in H as (b & Hl & ->) end.
  unfold recorded in Hb. rewrite Hb in Hl. injection Hl as <-.
  destruct (recorded_refs _ _ Hok Hb) as (p & cr & Hp & Hcr & Hz).
  match goal with |- set_ok (upd bindings (λ _, <[_ := ?b']> _) _) =>
    apply (update_ok s _ _ b' p cr Hok Hb); cbn; try done end.
  - intros He Hn. by apply Hz.
  - intros _ ->. by destruct Ht.
  - intros. by eapply others_failover.
  - intros _ ->. by destruct Ht.
Qed.

Lemma enable_ok ref r i d s r' s' : enable ref r i d s = (Ok r', s') → set_ok s → set_ok s'.
Proof.
  intros Hrun Hok. unfold enable in Hrun.
  apply st_bind_Ok in Hrun as (? & ? & Hg & Hrun). st_inv Hg.
  apply st_bind_Ok in Hrun as (x & ? & Hg0 & Hrun). st_inv Hg0.
  do 3 apply st_bind_Ok in Hrun as (? & ? & ?Hg & Hrun). st_inv Hg. st_inv Hg1. st_inv Hg2.
  apply (binding_snapshot_Ok _ _ _ Hok) in Hg0 as [Hb _].
  destruct (state x) eqn:Hst; [|st_inv Hrun; done|done]. st_inv Hrun.
  match goal with H : next_revision _ = _ |- _ => apply next_revision_Ok in H as -> end.
  match goal with H : update_binding _ _ _ = _ |- _ => apply update_binding_Ok in H as (b & Hl & ->) end.
  unfold recorded in Hb. rewrite Hb in Hl. injection Hl as <-.
  destruct (recorded_refs _ _ Hok Hb) as (p & cr & Hp & Hcr & Hz).
  rewrite any_binding_iff in * by done. simplify_eq.
  match goal with |- set_ok (upd bindings (λ _, <[_ := ?b']> _) _) =>
    eapply (update_ok s _ x b' _ _ Hok Hb); cbn; try done end.
  - intros He _. apply Hz; [done|congruence].
  - intros He _ c Hc Hne Hi Hs. rewrite He in *.
    match goal with H : reject_if _ _ = Ok _ |- _ => apply reject_if_Ok in H; apply H end.
    rewrite any_binding_iff by done. by exists c.
  - intros He _ c Hc Hne Hi Hs. eapply others_failover; try done. congruence.
  - intros Hm _ c Hc Hne Hi Hs.
    match goal with H : ¬ (_ ∧ _) |- _ => apply H end. split; [done|]. by exists c.
Qed.

Lemma set_priority_ok ref r n s r' s' : set_priority ref r n s = (Ok r', s') → set_ok s → set_ok s'.
Proof.
  intros Hrun Hok. unfold set_priority in Hrun.
  apply st_bind_Ok in Hrun as (? & ? & Hg & Hrun). st_inv Hg.
  apply st_bind_Ok in Hrun as (x & ? & Hg0 & Hrun). st_inv Hg0.
  do 5 apply st_bind_Ok in Hrun as (? & ? & ?Hg & Hrun).
  st_inv Hg. st_inv Hg1. st_inv Hg2. st_inv Hg3. st_inv Hg4.
  case_decide as Hs; st_inv Hrun; [done|].
  apply (binding_snapshot_Ok _ _ _ Hok) in Hg0 as [Hb _].
  match goal with H : next_revision _ = _ |- _ => apply next_revision_Ok in H as -> end.
  match goal with H : update_binding _ _ _ = _ |- _ => apply update_binding_Ok in H as (b & Hl & ->) end.
  unfold recorded in Hb. rewrite Hb in Hl. injection Hl as <-.
  destruct (recorded_refs _ _ Hok Hb) as (p & cr & Hp & Hcr & Hz). simplify_eq.
  rewrite any_binding_iff in Hg4 by done.
  match goal with |- set_ok (upd bindings (λ _, <[_ := ?b']> _) _) =>
    eapply (update_ok s _ x b' _ _ Hok Hb); cbn; try done end.
  - intros He Hn. unfold validate_priority_for_policy in Hg3. case_decide as Hc; [done|].
    apply dec_stable. tauto.
  - intros. by eapply (others_exclusive s x).
  - intros He _ c Hc Hne Hi Hl Hpr. apply Hg4. split; [done|]. by exists c.
  - intros. by eapply (others_single s x).
Qed.

(** ** Registration and creation *)

Lemma register_conformance_ok c f s u s' :
  register_connector_conformance c f s = (Ok u, s') → c.(Connector.max_concurrency) ≠ 0 →
  set_ok s → set_ok s'.
Proof.
  intros Hrun Hc Hok. unfold register_connector_conformance in Hrun.
  do 3 apply st_bind_Ok in Hrun as (? & ? & ?Hg & Hrun). st_inv Hg. st_inv Hg0. st_inv Hg1.
  destruct (connector_conformance s !! Connector.connector_id c) as [e|] eqn:He.
  { case_decide; [|done]. by st_inv Hrun. }
  st_inv Hrun. destruct Hok as [K1 K2 K3 K4 K5 K6 K7 K8 K9 K10 K11].
  split; unfold recorded in *; cbn; try done.
  - intros k r. rewrite lookup_insert_Some. intros [[<- <-]|[_ Hr]]; [done|by eapply K2].
  - intros b Hb. destruct (K3 b Hb) as (r & Hr & ?). exists r. split; [|done].
    rewrite lookup_insert_ne; [done|]. intros Heq. congruence.
  - intros b b' r Hb Hb' Hbb. rewrite lookup_insert_Some. intros [[Heq _]|[_ Hr]] Hm S1 S2; [|by eapply K11].
    destruct (K3 b Hb) as (r' & Hr' & _). congruence.
Qed.

(** The policies once an installation has one. *)
Definition with_policy (i : InstallationId) (p : RoutingPolicy) (m : gmap InstallationId RoutingPolicyRecord) :
    gmap InstallationId RoutingPolicyRecord :=
  match m !! i with
  | Some _ => m
  | None => <[i := {| policy := p; policy_revision := Revision.INITIAL |}]> m
  end.

Lemma with_policy_lookup i p m j q :
  (∀ e, m !! i = Some e → e.(policy) = p) → with_policy i p m !! j = Some q →
  (j = i ∧ q.(policy) = p) ∨ (j ≠ i ∧ m !! j = Some q).
Proof.
  intros Hp Hq. unfold with_policy in Hq. destruct (m !! i) as [e|] eqn:He.
  - destruct (decide (j = i)) as [->|Hne]; [left|by right]. split; [done|]. apply Hp. congruence.
  - apply lookup_insert_Some in Hq as [[<- <-]|[? Hq]]; [by left|by right].
Qed.

Lemma with_policy_old i p m j q : m !! j = Some q → with_policy i p m !! j = Some q.
Proof.
  intros Hq. unfold with_policy. destruct (m !! i) as [e|] eqn:He; [done|].
  rewrite lookup_insert_ne; [done|congruence].
Qed.

Lemma with_policy_new i p m :
  (∀ e, m !! i = Some e → e.(policy) = p) → ∃ q, with_policy i p m !! i = Some q ∧ q.(policy) = p.
Proof.
  intros Hp. unfold with_policy. destruct (m !! i) as [e|] eqn:He; [by eauto|].
  eexists. by rewrite lookup_insert_eq.
Qed.

Lemma insert_ok s s' b p r :
  set_ok s → s.(bindings) !! b.(id) = None → b.(state) = Disabled → b.(revision) = Revision.INITIAL →
  s'.(connector_conformance) = s.(connector_conformance) →
  s'.(routing_policies) = with_policy b.(installation_id) p s.(routing_policies) →
  s'.(bindings) = <[b.(id) := b]> s.(bindings) →
  s.(connector_conformance) !! b.(connector_id) = Some r → b.(max_concurrency) ≠ 0 →
  b.(max_concurrency) ≤ r.(conf_max_concurrency) →
  (∀ e, s.(routing_policies) !! b.(installation_id) = Some e → e.(policy) = p) →
  (p = Exclusive → b.(priority) = 0) →
  (∀ c, recorded s c → c.(installation_id) = b.(installation_id) → c.(connector_id) ≠ b.(connector_id)) →
  (∀ c, recorded s c → c.(agent_device_id) ≠ b.(agent_device_id)) →
  (p = OrderedFailover → ∀ c, recorded s c → c.(installation_id) = b.(installation_id) →
    c.(state) ≠ BindingRevoked → c.(priority) ≠ b.(priority)) → set_ok s'.
Proof.
  intros Hok Hnew Hst Hrv Hsc Hsp Hsb Hr Hm Hcap Hpol Hz Hpair Hdev Hfo.
  assert (Hrec : ∀ x, recorded s' x ↔ x = b ∨ (x.(id) ≠ b.(id) ∧ recorded s x)) by (intros; by apply recorded_insert).
  assert (b.(state) ≠ Enabled) as Hne by (by rewrite Hst).
  pose proof Hok as [K1 K2 K3 K4 K5 K6 K7 K8 K9 K10 K11].
  split; rewrite ?Hsc, ?Hsp; try setoid_rewrite Hrec; try done.
  - intros k x. rewrite Hsb, lookup_insert_Some. intros [[<- <-]|[_ Hx]]; [done|by apply K1].
  - intros x [->|[_ Hx]]; [by exists r|by apply K3].
  - intros x [->|[_ Hx]].
    + destruct (with_policy_new _ p _ Hpol) as (q & Hq & Hqp). exists q. split; [done|]. rewrite Hqp. auto.
    + destruct (K4 x Hx) as (q & Hq & ?). exists q. split; [by apply with_policy_old|done].
  - intros i q [[-> _]|[_ Hq]]%with_policy_lookup; [by exists b; auto| |done].
    destruct (K5 i q Hq) as (x & Hx & <-). exists x. split; [|done]. right. split; [|done].
    intros He. unfold recorded in Hx. congruence.
  - intros x y [->|[Hx1 Hx]] [->|[Hy1 Hy]] E1 E2; [done| | |by apply K6].
    + by destruct (Hpair y Hy).
    + by destruct (Hpair x Hx).
  - intros x y [->|[Hx1 Hx]] [->|[Hy1 Hy]] E1; [done| | |by apply K7].
    + by destruct (Hdev y Hy).
    + by destruct (Hdev x Hx).
  - intros x [->|[_ Hx]]; [|by apply K8]. rewrite Hrv, Hst. split; [done|]. by intros [?|?].
  - intros x y q [->|[Hx1 Hx]] [->|[Hy1 Hy]] E1 Hq Hqp S1 S2; try done.
    apply with_policy_lookup in Hq as [[Hi Hqp']|[_ Hq]]; [|by eapply K9|done].
    destruct (K4 x Hx) as (q' & Hq' & _). eapply (K9 x y q'); try done.
    rewrite (Hpol q'); [congruence|]. by rewrite <-Hi.
  - intros x y q [->|[Hx1 Hx]] [->|[Hy1 Hy]] E1 Hq Hqp S1 S2 E2; [done| | |].
    + exfalso. apply with_policy_lookup in Hq as [[_ Hqp']|[? _]]; [|done|done].
      rewrite Hqp in Hqp'. by apply (Hfo (eq_sym Hqp') y).
    + exfalso. rewrite E1 in Hq. apply with_policy_lookup in Hq as [[_ Hqp']|[? _]]; [|done|done].
      rewrite Hqp in Hqp'. by apply (Hfo (eq_sym Hqp') x).
    + apply with_policy_lookup in Hq as [[Hi Hqp']|[_ Hq]]; [|by eapply K10|done].
      destruct (K4 x Hx) as (q' & Hq' & _). eapply (K10 x y q'); try done.
      rewrite (Hpol q'); [congruence|]. by rewrite <-Hi.
  - intros x y q [->|[Hx1 Hx]] [->|[Hy1 Hy]] E1 Hq Hqp S1 S2; try done. by eapply K11.
Qed.

Lemma binding_create_ok spec p s r s' :
  create_binding spec p s = (Ok r, s') → spec.(spec_max_concurrency) ≠ 0 → set_ok s → set_ok s'.
Proof.
  intros Hrun Hm Hok. unfold create_binding in Hrun. st_inv Hrun. rewrite any_binding_iff in * by done.
  match goal with H : ¬ is_Some _ |- _ => rename H into Hnew end.
  match goal with |- set_ok (upd bindings (λ _, <[_ := ?b]> _) _) =>
    eapply (insert_ok s _ b p); cbn; try done end.
  - by apply eq_None_not_Some.
  - intros e He. rewrite He in Hrun7. by apply dec_stable.
  - intros ->. unfold validate_priority_for_policy in Hrun8. case_decide as Hc; [done|]. apply dec_stable. tauto.
  - intros c Hc Hi Hcc. apply Hrun5. by exists c.
  - intros c Hc Hd. apply Hrun6. by exists c.
  - intros -> c Hc Hi Hl Hpr. apply Hrun9. split; [done|]. by exists c.
Qed.
End BindingInv.
