(* ===== verification/BindingReconfigure.v ===== *)
(** * Connector bindings: atomic reconfiguration

    [reconfigure_routing_policy] writes in a loop whose steps could each fail.
    Here it is shown to have one effect, [revise] on every binding, or none. *)

From S2P Require Import Prelude Domain AgentHost AgentRegistry Connector BindingSet BindingInv.

Lemma alter_insert_lookup {A} (f : A → A) (m : gmap BindingId A) k a :
  m !! k = Some a → alter f k m = <[k := f a]> m.
Proof.
  intros Hk. apply map_eq. intros j. destruct (decide (j = k)) as [->|Hne].
  - by rewrite lookup_alter_eq, Hk, lookup_insert_eq.
  - by rewrite lookup_alter_ne, lookup_insert_ne.
Qed.

Module BindingReconfigure.
Import Binding BindingInv.

(** ** The loop that writes the changes *)

Notation Change := (BindingId * Z * Revision)%type.

Definition write_change (m : gmap BindingId Binding) (c : Change) : gmap BindingId Binding :=
  alter (λ b, b <| priority := c.1.2 |> <| revision := c.2 |>) c.1.1 m.

Definition write_loop (changes : list Change) : ST BindingSet BindingError unit :=
  st_for changes (λ change,
    let '(binding_id, new_priority, next) := change in
    update_binding binding_id (λ b, b <| priority := new_priority |> <| revision := next |>)).

Lemma write_change_dom m c k : is_Some (write_change m c !! k) ↔ is_Some (m !! k).
Proof. unfold write_change. rewrite lookup_alter_is_Some. done. Qed.

Lemma write_loop_run changes s :
  (∀ c, c ∈ changes → is_Some (s.(bindings) !! c.1.1)) →
  write_loop changes s = (Ok tt, s <| bindings := foldl write_change s.(bindings) changes |>).
Proof.
  unfold write_loop. revert s. induction changes as [|[[k pr] rv] changes IH]; intros s Hex; cbn [st_for foldl].
  { by destruct s. }
  destruct (Hex (k, pr, rv)) as [b Hb]; [set_solver|]. cbn in Hb.
  apply st_bind_Ok. exists tt, (s <| bindings := write_change s.(bindings) (k, pr, rv) |>). split.
  - unfold update_binding, mbind, ST_bind, get, lift. rewrite Hb. unfold write_change.
    by rewrite (alter_insert_lookup _ _ _ b Hb).
  - rewrite IH; [done|]. intros c Hc. apply (write_change_dom _ (k, pr, rv)), Hex. set_solver.
Qed.

Lemma write_keep changes m k : k ∉ (λ c : Change, c.1.1) <$> changes → foldl write_change m changes !! k = m !! k.
Proof.
  revert m. induction changes as [|c changes IH]; intros m Hk; [done|]. cbn in *.
  rewrite IH by set_solver. unfold write_change. rewrite lookup_alter_ne; [done|set_solver].
Qed.

Lemma write_change_lookup changes m k pr rv :
  NoDup ((λ c : Change, c.1.1) <$> changes) → (k, pr, rv) ∈ changes →
  foldl write_change m changes !! k = (λ b, b <| priority := pr |> <| revision := rv |>) <$> m !! k.
Proof.
  revert m. induction changes as [|c changes IH]; intros m Hnd Hin; [set_solver|]. cbn in *.
  apply NoDup_cons in Hnd as [Hc Hnd]. apply elem_of_cons in Hin as [<-|Hin].
  - rewrite write_keep by done. unfold write_change. by rewrite lookup_alter_eq.
  - rewrite IH by done. f_equal. unfold write_change. apply lookup_alter_ne. intros Heq. apply Hc.
    rewrite Heq. apply list_elem_of_fmap. by exists (k, pr, rv).
Qed.

(** ** The loops that check and plan *)

Lemma collect_updates_Ok s i ups updates :
  try_fold (collect_update s i) ups ∅ = Ok updates →
  ∀ k rv pr, updates !! k = Some (rv, pr) → ∃ b,
    s.(bindings) !! k = Some b ∧ b.(installation_id) = i ∧ b.(state) ≠ BindingRevoked.
Proof.
  apply (try_fold_inv (collect_update s i) (λ u _, ∀ k rv pr, u !! k = Some (rv, pr) → ∃ b,
    s.(bindings) !! k = Some b ∧ b.(installation_id) = i ∧ b.(state) ≠ BindingRevoked)); [done|].
  intros _ [[ref e] pr0] _ u u1 _ IH Hf k rv pr Hk. unfold collect_update in Hf. res_inv Hf.
  apply lookup_insert_Some in Hk as [[<- [= <- <-]]|[_ Hk]]; [|by eapply IH].
  match goal with H : binding_snapshot _ _ = Ok ?b |- _ => exists b; unfold binding_snapshot, binding in H; res_inv H end.
  split_and!; try done. by apply dec_stable.
Qed.

Definition planned (s : BindingSet) (e : BindingId * (Revision * Z)) : option Change :=
  b ← s.(bindings) !! e.1;
  if decide (b.(priority) ≠ e.2.2) then Some (e.1, e.2.2, b.(revision) + 1) else None.

Lemma plan_Ok s l acc changes :
  try_fold (plan_change s) l acc = Ok changes → changes = acc ++ omap (planned s) l.
Proof.
  revert acc. induction l as [|[k [rv pr]] l IH]; intros acc; cbn [try_fold].
  { intros [= ->]. by rewrite app_nil_r. }
  destruct (plan_change s acc (k, (rv, pr))) as [acc'|] eqn:Hp; [|done]. intros H. rewrite (IH _ H).
  unfold plan_change in Hp. apply result_bind_Ok in Hp as (b & Hb & Hp). apply ok_or_Ok in Hb.
  cbn [omap list_omap]. unfold planned at 2. cbn [fst snd]. rewrite Hb. cbn [mbind option_bind].
  case_decide; [|by injection Hp as <-]. res_inv Hp. rename Hres into Hnext.
  apply next_revision_Ok in Hnext as ->. by rewrite <-(assoc_L (++)).
Qed.

Lemma elem_of_plan s updates k pr rv :
  (k, pr, rv) ∈ omap (planned s) (btree_iter updates) ↔
  ∃ rv0 b, updates !! k = Some (rv0, pr) ∧ s.(bindings) !! k = Some b ∧ b.(priority) ≠ pr ∧
    rv = b.(revision) + 1.
Proof.
  rewrite list_elem_of_omap. split.
  - intros ([k' [rv0 pr']] & Hin & Hp). apply elem_of_btree_iter in Hin. unfold planned in Hp.
    cbn [fst snd] in Hp. destruct (bindings s !! k') as [b|] eqn:Hb; [|done]. cbn in Hp.
    case_decide; [|done]. injection Hp as <- <- <-. eauto 8.
  - intros (rv0 & b & Hu & Hb & Hne & ->). exists (k, (rv0, pr)). rewrite elem_of_btree_iter.
    split; [done|]. unfold planned. cbn. rewrite Hb. cbn. by rewrite decide_True.
Qed.

Lemma plan_keys s (l : list (BindingId * (Revision * Z))) :
  NoDup l.*1 → NoDup ((λ c : Change, c.1.1) <$> omap (planned s) l) ∧
  ∀ k, k ∈ (λ c : Change, c.1.1) <$> omap (planned s) l → k ∈ l.*1 ∧ is_Some (s.(bindings) !! k).
Proof.
  induction l as [|[k [rv pr]] l IH]; cbn; intros Hnd; [split; [constructor|set_solver]|].
  apply NoDup_cons in Hnd as [Hk Hnd]. destruct (IH Hnd) as [IH1 IH2].
  destruct (planned s (k, (rv, pr))) as [c|] eqn:Hp; cbn.
  - assert (c.1.1 = k ∧ is_Some (bindings s !! k)) as [-> Hex].
    { unfold planned in Hp. cbn in Hp. destruct (bindings s !! k) as [b|]; [|done]. cbn in Hp.
      case_decide; [|done]. injection Hp as <-. eauto. }
    split; [apply NoDup_cons; split; [|done]; intros Hin; by apply IH2 in Hin as [? _]|].
    intros j [->|Hj]%elem_of_cons; [split; [set_solver|done]|]. destruct (IH2 j Hj). set_solver.
  - split; [done|]. intros j Hj. destruct (IH2 j Hj). set_solver.
Qed.

(** ** The effect *)

(** The binding after the updates: retargeted, its revision advanced when that
    changed something. *)
Definition revise (updates : Updates) (b : Binding) : Binding :=
  match updates !! b.(id) with
  | Some (_, pr) =>
      if decide (b.(priority) ≠ pr)
      then b <| priority := pr |> <| revision := b.(revision) + 1 |> else b
  | None => b
  end.

Definition reconfigured (s : BindingSet) (i : InstallationId) (updates : Updates)
    (current : RoutingPolicyRecord) (p : RoutingPolicy) : BindingSet :=
  {| tenant_id := s.(tenant_id); connector_conformance := s.(connector_conformance);
     routing_policies := if decide (current.(policy) ≠ p)
       then <[i := {| policy := p; policy_revision := current.(policy_revision) + 1 |}]> s.(routing_policies)
       else s.(routing_policies);
     bindings := revise updates <$> s.(bindings) |}.

Lemma written_is_revised s updates :
  (∀ k b, s.(bindings) !! k = Some b → b.(id) = k) →
  foldl write_change s.(bindings) (omap (planned s) (btree_iter updates)) = revise updates <$> s.(bindings).
Proof.
  intros Hids. destruct (plan_keys s (btree_iter updates) (btree_iter_NoDup_keys _)) as [Hnd _].
  apply map_eq. intros k. rewrite lookup_fmap.
  destruct (s.(bindings) !! k) as [b|] eqn:Hb.
  - cbn. unfold revise. rewrite (Hids _ _ Hb). destruct (updates !! k) as [[rv pr]|] eqn:Hu; [case_decide as Hd|].
    + rewrite (write_change_lookup _ _ k pr (b.(revision) + 1) Hnd), Hb; [done|].
      apply elem_of_plan. eauto 8.
    + rewrite write_keep; [done|]. intros ([[k' pr'] rv'] & -> & Hin)%list_elem_of_fmap.
      apply elem_of_plan in Hin as (? & ? & ? & ? & ? & ?). cbn in *. congruence.
    + rewrite write_keep; [done|]. intros ([[k' pr'] rv'] & -> & Hin)%list_elem_of_fmap.
      apply elem_of_plan in Hin as (? & ? & ? & ? & ? & ?). cbn in *. congruence.
  - rewrite write_keep; [done|]. intros ([[k' pr'] rv'] & -> & Hin)%list_elem_of_fmap.
    apply elem_of_plan in Hin as (? & ? & ? & ? & ? & ?). cbn in *. congruence.
Qed.

(** What the checks of [reconfigure_routing_policy] establish. *)
Record reconfigurable (s : BindingSet) (ref : TenantRef InstallationId) (r : Revision) (p : RoutingPolicy)
    (ups : list PriorityUpdate) (current : RoutingPolicyRecord) (updates : Updates) (next : Revision) : Prop := {
  rc_tenant : s.(tenant_id) = ref.(ref_tenant_id);
  rc_current : s.(routing_policies) !! ref.(ref_id) = Some current;
  rc_revision : current.(policy_revision) = r;
  rc_updates : try_fold (collect_update s ref.(ref_id)) ups ∅ = Ok updates;
  rc_members : check_members p (retarget updates <$> members_of s ref.(ref_id)) = Ok tt;
  rc_next : (if decide (current.(policy) = p) then Ok current.(policy_revision)
             else next_revision current.(policy_revision)) = Ok next;
  rc_plan : ∃ changes, try_fold (plan_change s) (btree_iter updates) [] = Ok changes
}.

(** Success or failure is decided before the first write. *)
Lemma reconfigure_cases ref r p ups s :
  (∃ e, reconfigure_routing_policy ref r p ups s = (Err e, s)) ∨
  ∃ current updates next, reconfigurable s ref r p ups current updates next ∧
    reconfigure_routing_policy ref r p ups s
    = (Ok next, {| tenant_id := s.(tenant_id); connector_conformance := s.(connector_conformance);
         routing_policies := if decide (current.(policy) ≠ p)
           then <[ref.(ref_id) := {| policy := p; policy_revision := next |}]> s.(routing_policies)
           else s.(routing_policies);
         bindings := foldl write_change s.(bindings) (omap (planned s) (btree_iter updates)) |}).
Proof.
  unfold reconfigure_routing_policy, mbind, ST_bind, get, lift at 1.
  destruct (ensure_tenant s (ref_tenant_id ref)) as [[]|e] eqn:Ht; [|by left; exists e].
  destruct (ok_or _ RoutingPolicyNotFound) as [current|e] eqn:Hc; [|by left; exists e]. cbn [lift].
  destruct (ensure_revision _ r) as [[]|e] eqn:Hr; [|by left; exists e]. cbn [lift].
  destruct (try_fold (collect_update _ _) ups ∅) as [updates|e] eqn:Hu; [|by left; exists e]. cbn [lift].
  destruct (check_members _ _) as [[]|e] eqn:Hm; [|by left; exists e]. cbn [lift].
  destruct (if decide (policy current = p) then _ else _) as [next|e] eqn:Hn; [|by left; exists e]. cbn [lift].
  destruct (try_fold (plan_change _) _ []) as [changes|e] eqn:Hp; [|by left; exists e]. cbn [lift].
  right. exists current, updates, next. apply ok_or_Ok in Hc. split.
  { split; try done; [by apply ensure_tenant_Ok in Ht|by apply ensure_revision_Ok in Hr|by eauto]. }
  apply plan_Ok in Hp as ->. rewrite app_nil_l.
  pose proof (write_loop_run (omap (planned s) (btree_iter updates)) s) as Hw. unfold write_loop in Hw.
  rewrite Hw; clear Hw.
  - destruct (decide (policy current ≠ p)) as [Hd|Hd]; cbn; [|done]. unfold lift. by rewrite Hc.
  - intros [[k pr] rv] (rv0 & b & _ & Hb & _)%elem_of_plan. by eauto.
Qed.

Lemma atomic_reconfigure ref r p ups : atomic (reconfigure_routing_policy ref r p ups).
Proof.
  intros s e s' Hrun. destruct (reconfigure_cases ref r p ups s) as [[e' He]|(c & u & n & _ & He)];
    rewrite Hrun in He; congruence.
Qed.

(** Reconfiguration is atomic: whatever the registry, the policy and the
    priority updates, a failing [reconfigure_routing_policy] leaves the registry
    as it was, although it writes the bindings one by one. *)
Theorem reconfigure_atomic ref r p ups s e s' :
  reconfigure_routing_policy ref r p ups s = (Err e, s') → s' = s.
Proof. apply atomic_reconfigure. Qed.

Lemma revise_same updates b :
  same_identity b (revise updates b) ∧ (revise updates b).(state) = b.(state) ∧
  (revise updates b).(priority) = (retarget updates b).(priority) ∧
  b.(revision) ≤ (revise updates b).(revision).
Proof.
  unfold revise, retarget, same_identity. destruct (updates !! id b) as [[rv pr]|]; [|repeat split; lia].
  case_decide as Hd; cbn; [repeat split; lia|]. repeat split; done || lia.
Qed.

Lemma retarget_same updates b :
  (retarget updates b).(id) = b.(id) ∧ (retarget updates b).(installation_id) = b.(installation_id) ∧
  (retarget updates b).(state) = b.(state).
Proof. unfold retarget. by destruct (updates !! id b) as [[rv pr]|]. Qed.

Lemma revise_other s i ups updates b :
  try_fold (collect_update s i) ups ∅ = Ok updates → recorded s b → b.(installation_id) ≠ i →
  revise updates b = b.
Proof.
  intros Hu Hb Hi. unfold revise. destruct (updates !! id b) as [[rv pr]|] eqn:Hk; [|done].
  destruct (collect_updates_Ok _ _ _ _ Hu _ _ _ Hk) as (b' & Hb' & ? & _). unfold recorded in Hb. congruence.
Qed.

Lemma recorded_revised s s' updates x :
  set_ok s → s'.(bindings) = revise updates <$> s.(bindings) →
  recorded s' x ↔ ∃ b, recorded s b ∧ x = revise updates b.
Proof.
  intros Hok Hs. unfold recorded. rewrite Hs, lookup_fmap. split.
  - intros (b & Hb & ->)%fmap_Some_1. exists b. split; [|done].
    by rewrite (so_ids _ Hok _ _ Hb).
  - intros (b & Hb & ->). destruct (revise_same updates b) as [[-> _] _]. by rewrite Hb.
Qed.

(** The members of the installation satisfy its policy after the updates. *)
Lemma members_exclusive s i updates b b' :
  set_ok s → check_members Exclusive (retarget updates <$> members_of s i) = Ok tt →
  recorded s b → recorded s b' → b.(installation_id) = i → b'.(installation_id) = i →
  b.(state) = Enabled → b'.(state) = Enabled → b = b'.
Proof.
  intros Hok H Hb Hb' Hi Hi' Hs Hs'. unfold check_members in H. res_inv H.
  assert (∀ x, recorded s x → x.(installation_id) = i → x.(state) = Enabled →
    retarget updates x ∈ enabled (retarget updates <$> members_of s i)) as Hin.
  { intros y Hx Hxi Hxs. unfold enabled, members_of. apply list_elem_of_filter.
    destruct (retarget_same updates y) as (_ & _ & ->). split; [done|]. apply list_elem_of_fmap_2.
    apply list_elem_of_filter. by rewrite elem_of_bindings. }
  assert (retarget updates b = retarget updates b') as Heq.
  { eapply length_le_1_eq; [|apply Hin..]; try done. lia. }
  destruct (retarget_same updates b) as [E1 _], (retarget_same updates b') as [E2 _].
  unfold recorded in *. congruence.
Qed.

Lemma live_members s i updates x :
  set_ok s → recorded s x → x.(installation_id) = i → x.(state) ≠ BindingRevoked →
  retarget updates x ∈ live (retarget updates <$> members_of s i).
Proof.
  intros Hok Hx Hxi Hxs. unfold live, members_of. apply list_elem_of_filter.
  destruct (retarget_same updates x) as (_ & _ & ->). split; [done|]. apply list_elem_of_fmap_2.
  apply list_elem_of_filter. by rewrite elem_of_bindings.
Qed.

Lemma members_zero s i updates b :
  set_ok s → check_members Exclusive (retarget updates <$> members_of s i) = Ok tt →
  recorded s b → b.(installation_id) = i → b.(state) ≠ BindingRevoked → (retarget updates b).(priority) = 0.
Proof.
  intros Hok H Hb Hi Hs. unfold check_members in H. res_inv H.
  apply dec_stable. intros Hne. apply H. apply Exists_exists. exists (retarget updates b).
  split; [by apply live_members|done].
Qed.

Lemma members_failover s i updates b b' :
  set_ok s → check_members OrderedFailover (retarget updates <$> members_of s i) = Ok tt →
  recorded s b → recorded s b' → b.(installation_id) = i → b'.(installation_id) = i →
  b.(state) ≠ BindingRevoked → b'.(state) ≠ BindingRevoked →
  (retarget updates b).(priority) = (retarget updates b').(priority) → b = b'.
Proof.
  intros Hok H Hb Hb' Hi Hi' Hs Hs' Hp. unfold check_members in H. res_inv H.
  rewrite repeats_nil_NoDup in H. apply dec_stable in H.
  assert (retarget updates b = retarget updates b') as Heq.
  { eapply (NoDup_fmap_eq priority); [exact H|by apply live_members..|done]. }
  destruct (retarget_same updates b) as [E1 _], (retarget_same updates b') as [E2 _].
  unfold recorded in *. congruence.
Qed.

Lemma reconfigured_ok s s' i ups updates p current next :
  set_ok s → try_fold (collect_update s i) ups ∅ = Ok updates →
  check_members p (retarget updates <$> members_of s i) = Ok tt →
  s.(routing_policies) !! i = Some current →
  s'.(connector_conformance) = s.(connector_conformance) →
  s'.(routing_policies) = (if decide (current.(policy) ≠ p)
    then <[i := {| policy := p; policy_revision := next |}]> s.(routing_policies)
    else s.(routing_policies)) →
  s'.(bindings) = revise updates <$> s.(bindings) → set_ok s'.
Proof.
  intros Hok Hu Hm Hcur Hsc Hsp Hsb.
  assert (Hpol : ∀ j q, s'.(routing_policies) !! j = Some q →
    (j = i ∧ q.(policy) = p) ∨ (j ≠ i ∧ s.(routing_policies) !! j = Some q)).
  { intros j q. rewrite Hsp. case_decide as Hd.
    - rewrite lookup_insert_Some. intros [[<- <-]|[? ?]]; [by left|by right].
    - intros Hq. destruct (decide (j = i)) as [->|?]; [left|by right]. split; congruence. }
  assert (Hold : ∀ j, is_Some (s.(routing_policies) !! j) ↔ is_Some (s'.(routing_policies) !! j)).
  { intros j. rewrite Hsp. case_decide; [|done]. rewrite lookup_insert_is_Some.
    destruct (decide (i = j)) as [<-|?]; [|naive_solver]. rewrite Hcur. naive_solver. }
  assert (Hrec := λ x, recorded_revised s s' updates x Hok Hsb).
  pose proof Hok as [K1 K2 K3 K4 K5 K6 K7 K8 K9 K10 K11].
  assert (Hsame := revise_same updates).
  split; rewrite ?Hsc; try setoid_rewrite Hrec; try done.
  - intros k x. rewrite Hsb, lookup_fmap. intros (b & Hb & ->)%fmap_Some_1.
    destruct (Hsame b) as [[-> _] _]. by apply K1.
  - intros x (b & Hb & ->). destruct (Hsame b) as [(_ & _ & -> & _ & ->) _]. by apply K3.
  - intros x (b & Hb & ->). destruct (Hsame b) as [(_ & Hi & _) (Hst & Hpr & _)]. rewrite Hi, Hst, Hpr.
    destruct (K4 b Hb) as (q & Hq & Hz). destruct (proj1 (Hold b.(installation_id))) as [q' Hq']; [by eauto|].
    exists q'. split; [done|]. intros He Hs. destruct (Hpol _ _ Hq') as [[Hbi Hqp]|[Hbi Hqq]].
    + rewrite He in Hqp. rewrite <-Hqp in Hm. by apply (members_zero s i).
    + rewrite <-Hpr, (revise_other s i ups) by done. apply Hz; [congruence|done].
  - intros j q Hq. destruct (proj2 (Hold j)) as [q' Hq']; [by eauto|].
    destruct (K5 j q' Hq') as (b & Hb & <-). exists (revise updates b).
    split; [by exists b|]. by destruct (Hsame b) as [(_ & -> & _) _].
  - intros x y (b & Hb & ->) (b' & Hb' & ->).
    destruct (Hsame b) as [(_ & -> & -> & _) _], (Hsame b') as [(_ & -> & -> & _) _]. intros. f_equal. by apply K6.
  - intros x y (b & Hb & ->) (b' & Hb' & ->).
    destruct (Hsame b) as [(_ & _ & _ & -> & _) _], (Hsame b') as [(_ & _ & _ & -> & _) _]. intros. f_equal. by apply K7.
  - intros x (b & Hb & ->). destruct (Hsame b) as [_ (-> & _ & Hle)]. destruct (K8 b Hb). split; [lia|].
    intros Hs. etransitivity; [|exact Hle]. auto.
  - intros x y q (b & Hb & ->) (b' & Hb' & ->).
    destruct (Hsame b) as [(_ & -> & _) (-> & _)], (Hsame b') as [(_ & -> & _) (-> & _)].
    intros E1 Hq He S1 S2. f_equal. destruct (Hpol _ _ Hq) as [[Hbi Hqp]|[Hbi Hqq]]; [|by eapply K9].
    rewrite He in Hqp. rewrite <-Hqp in Hm. apply (members_exclusive s i updates); congruence.
  - intros x y q (b & Hb & ->) (b' & Hb' & ->).
    destruct (Hsame b) as [(_ & -> & _) (-> & Hp1 & _)], (Hsame b') as [(_ & -> & _) (-> & Hp2 & _)].
    intros E1 Hq He S1 S2 E2. f_equal. destruct (Hpol _ _ Hq) as [[Hbi Hqp]|[Hbi Hqq]].
    + rewrite He in Hqp. rewrite <-Hqp in Hm. rewrite Hp1, Hp2 in E2.
      apply (members_failover s i updates); congruence.
    + rewrite !(revise_other s i ups) in E2 by (done || congruence). by eapply K10.
  - intros x y q (b & Hb & ->) (b' & Hb' & ->).
    destruct (Hsame b) as [(_ & _ & -> & _) (-> & _)], (Hsame b') as [(_ & _ & -> & _) (-> & _)].
    intros. f_equal. by eapply K11.
Qed.

Lemma policy_reconfigure_ok ref r p ups s r' s' :
  reconfigure_routing_policy ref r p ups s = (Ok r', s') → set_ok s → set_ok s'.
Proof.
  intros Hrun Hok. destruct (reconfigure_cases ref r p ups s) as [[e He]|(c & u & n & [_ Hc _ Hu Hm _ _] & He)];
    rewrite Hrun in He; [done|]. injection He as -> ->.
  eapply (reconfigured_ok s); [done|exact Hu|exact Hm|exact Hc|done..|]. cbn. apply written_is_revised, Hok.
Qed.
End BindingReconfigure.
