(* ===== verification/BindingReload.v ===== *)
(** * Connector bindings: reachable registries

    Sequences of commands, the reload of what they build, and the routes that it
    offers. *)

From S2P Require Import Prelude Domain AgentHost AgentRegistry Connector ConnectorInv ConnectorSteps BindingSet BindingInv BindingReconfigure.

(** ** Loops that rebuild a map *)

Lemma load_map {K V X E} `{Countable K, Ord K} (f : gmap K V → X → result E (gmap K V))
    (img : K * V → X) (m : gmap K V) :
  (∀ acc k v, m !! k = Some v → acc !! k = None → f acc (img (k, v)) = Ok (<[k := v]> acc)) →
  try_fold f (img <$> btree_iter m) ∅ = Ok m.
Proof.
  intros Hf. assert (∀ l acc, NoDup l.*1 → (∀ k v, (k, v) ∈ l → m !! k = Some v) →
    (∀ k, k ∈ l.*1 → acc !! k = None) →
    try_fold f (img <$> l) acc = Ok (foldl (λ m e, <[e.1 := e.2]> m) acc l)) as Hl.
  { induction l as [|[k v] l IH]; intros acc Hnd Hm Hacc; [done|]. cbn in *.
    apply NoDup_cons in Hnd as [Hk Hnd]. rewrite Hf by (apply Hm || apply Hacc; set_solver).
    apply IH; [done|set_solver|]. intros j Hj. rewrite lookup_insert_ne; set_solver. }
  rewrite Hl; [|apply btree_iter_NoDup_keys|intros k v; by apply elem_of_btree_iter|done].
  f_equal. symmetry. by apply (list_to_map_iff (btree_iter m) m).
Qed.

Lemma try_fold_unit {E A} (f : unit → A → result E unit) l :
  (∀ x, x ∈ l → f tt x = Ok tt) → try_fold f l tt = Ok tt.
Proof.
  induction l as [|x l IH]; intros Hf; [done|]. cbn. rewrite Hf by set_solver. apply IH. set_solver.
Qed.

Lemma try_fold_unit_inv {E A} (f : unit → A → result E unit) l u :
  try_fold f l tt = Ok u → ∀ x, x ∈ l → f tt x = Ok tt.
Proof.
  induction l as [|y l IH]; cbn; [set_solver|]. destruct (f tt y) as [[]|] eqn:Hy; [|done].
  intros Hl x [->|Hx]%elem_of_cons; [done|by apply IH].
Qed.

Module BindingReload.
Import Binding BindingInv BindingReconfigure.

Inductive BindingOp : Type :=
| OpRegister (connector : Connector) (conf : AdapterConformance)
| OpCreate (ref : TenantRef BindingId) (installation : Installation.AgentInstallation)
    (agent_device : Device.AgentDevice) (connector : Connector) (priority max_concurrency : Z)
    (p : RoutingPolicy)
| OpEnable (ref : TenantRef BindingId) (expected : Revision)
    (installation : Installation.AgentInstallation) (agent_device : Device.AgentDevice)
| OpDisable (ref : TenantRef BindingId) (expected : Revision)
| OpRevoke (ref : TenantRef BindingId) (expected : Revision)
| OpSetPriority (ref : TenantRef BindingId) (expected : Revision) (new_priority : Z)
| OpReconfigure (ref : TenantRef InstallationId) (expected : Revision) (p : RoutingPolicy)
    (updates : list PriorityUpdate).

Definition step (o : BindingOp) (s : BindingSet) : BindingSet :=
  match o with
  | OpRegister c f => exec (register_connector_conformance c f) s
  | OpCreate ref i d c pr m p =>
      match for_entities ref i d c pr m with
      | Ok spec => exec (create_binding spec p) s
      | Err _ => s
      end
  | OpEnable ref r i d => exec (enable ref r i d) s
  | OpDisable ref r => exec (disable ref r) s
  | OpRevoke ref r => exec (revoke ref r) s
  | OpSetPriority ref r n => exec (set_priority ref r n) s
  | OpReconfigure ref r p ups => exec (reconfigure_routing_policy ref r p ups) s
  end.

(** Conformance is registered for connectors that exist. *)
Definition genuine (o : BindingOp) : Prop :=
  match o with OpRegister c _ => ConnectorSteps.reachable c | _ => True end.

Lemma binding_ops_atomic :
  (∀ c f, atomic (register_connector_conformance c f)) ∧ (∀ sp p, atomic (create_binding sp p)) ∧
  (∀ ref r i d, atomic (enable ref r i d)) ∧ (∀ ref r t, atomic (transition_state ref r t)) ∧
  (∀ ref r n, atomic (set_priority ref r n)) ∧
  (∀ ref r p ups, atomic (reconfigure_routing_policy ref r p ups)).
Proof.
  split_and!; intros; [solve_atomic_binding..|]. apply atomic_reconfigure.
Qed.

Lemma binding_step_ok o s : genuine o → set_ok s → set_ok (step o s).
Proof.
  destruct binding_ops_atomic as (A1 & A2 & A3 & A4 & A5 & A6). intros Hg Hok. destruct o; cbn [step]; unfold disable, revoke.
  - destruct (exec_atomic _ s (A1 connector conf)) as [->|[? Hrun]]; [done|].
    eapply register_conformance_ok; [done| |done].
    apply (rv_capacity _ (co_revisions _ (reachable_connector_ok _ Hg))).
  - destruct (for_entities _ _ _ _ _ _) as [spec|] eqn:Hs; [|done].
    destruct (exec_atomic _ s (A2 spec p)) as [->|[? Hrun]]; [done|].
    eapply binding_create_ok; [done| |done]. unfold for_entities in Hs. res_inv Hs. cbn. tauto.
  - destruct (exec_atomic _ s (A3 ref expected installation agent_device)) as [->|[? Hrun]]; [done|].
    by eapply enable_ok.
  - destruct (exec_atomic _ s (A4 ref expected Disabled)) as [->|[? Hrun]]; [done|].
    eapply transition_ok; [done|by left|done].
  - destruct (exec_atomic _ s (A4 ref expected BindingRevoked)) as [->|[? Hrun]]; [done|].
    eapply transition_ok; [done|by right|done].
  - destruct (exec_atomic _ s (A5 ref expected new_priority)) as [->|[? Hrun]]; [done|]. by eapply set_priority_ok.
  - destruct (exec_atomic _ s (A6 ref expected p updates)) as [->|[? Hrun]]; [done|]. by eapply policy_reconfigure_ok.
Qed.

Definition reachable (s : BindingSet) : Prop :=
  ∃ t ops, Forall genuine ops ∧ s = run_all step ops (new t).

Lemma reachable_set_ok s : reachable s → set_ok s.
Proof.
  intros (t & ops & Hg & ->). apply run_all_inv; [|apply new_ok].
  intros o s Ho. apply binding_step_ok. by eapply Forall_forall in Hg.
Qed.

(** ** Reload *)

Section load.
Context (s : BindingSet) (Hok : set_ok s).

Lemma load_connectors_Ok :
  try_fold load_connector (conformance_image <$> btree_iter s.(connector_conformance)) ∅
  = Ok s.(connector_conformance).
Proof using Hok.
  apply load_map. intros acc k v Hk Hacc. unfold load_connector. cbn.
  ok_step; [by eapply (so_capacity _ Hok)|]. ok_step; [by rewrite Hacc; intros []|].
  do 3 f_equal. unfold conformance_of_image, conformance_image. cbn. by destruct v as [[? ? []] ?].
Qed.

Lemma load_policies_Ok :
  try_fold load_policy (policy_image <$> btree_iter s.(routing_policies)) ∅ = Ok s.(routing_policies).
Proof.
  apply load_map. intros acc k v _ Hacc. unfold load_policy. cbn.
  ok_step; [by rewrite Hacc; intros []|]. by destruct v.
Qed.

Lemma bindings_NoDup : NoDup (btree_values s.(bindings)).
Proof using Hok. eapply NoDup_fmap_1, (btree_values_keyed_NoDup id), (so_ids _ Hok). Qed.

Lemma load_bindings_Ok :
  ∃ ics ads, try_fold (load_binding s.(connector_conformance) s.(routing_policies))
    (Binding_eta <$> btree_values s.(bindings)) (MkScan ∅ ∅ ∅) = Ok (MkScan s.(bindings) ics ads).
Proof using Hok.
  pose proof bindings_NoDup as Hnd.
  rewrite (list_fmap_self Binding_eta) by (by intros []).
  set (pair := λ b : Binding, (b.(installation_id), b.(connector_id))).
  destruct (try_fold_total (load_binding s.(connector_conformance) s.(routing_policies))
    (λ scan pre, scan.(scanned) = index_by id ∅ pre ∧
       scan.(installation_connectors) = list_to_set (pair <$> pre) ∧
       scan.(agent_devices) = list_to_set (agent_device_id <$> pre))
    (btree_values s.(bindings)) (MkScan ∅ ∅ ∅)) as ([m ics ads] & Hrun & Hm & _).
  - done.
  - intros pre b post [m ics ads] Hl (Hm & Hics & Hads). cbn in *.
    assert (∀ x, x ∈ btree_values s.(bindings) → recorded s x) as Hrec by (intros x; by apply elem_of_bindings).
    rewrite Hl in *. assert (recorded s b) as Hb by (apply Hrec; set_solver).
    assert (∀ x, x ∈ pre → x ≠ b ∧ recorded s x) as Hpre.
    { intros x Hx. split; [|apply Hrec; set_solver]. intros ->.
      apply NoDup_app in Hnd as (_ & Hd & _). apply (Hd b Hx). set_solver. }
    destruct (so_connector _ Hok b Hb) as (r & Hr & Hcap & Hle).
    destruct (so_policy _ Hok b Hb) as (p & Hp & Hz). destruct (so_revision _ Hok b Hb) as [_ Hrev].
    eexists. split.
    + unfold load_binding. ok_step; [exact Hr|]. ok_step; [exact Hp|]. ok_step; [lia|].
      ok_step.
      { cbn. rewrite Hics, elem_of_list_to_set, list_elem_of_fmap. intros (x & Hx & Hin).
        destruct (Hpre x Hin) as [Hne Hxr]. apply Hne. injection Hx as E1 E2. by apply (so_pairs _ Hok). }
      ok_step.
      { cbn. rewrite Hads, elem_of_list_to_set, list_elem_of_fmap. intros (x & Hx & Hin).
        destruct (Hpre x Hin) as [Hne Hxr]. apply Hne. by apply (so_devices _ Hok). }
      ok_step; [tauto|]. ok_step; [intros (? & ? & ?); auto|].
      ok_step; [|done]. cbn. rewrite Hm, <-eq_None_not_Some, index_by_None, list_elem_of_fmap.
      intros (x & Hx & Hin). destruct (Hpre x Hin) as [Hne Hxr]. unfold recorded in *. congruence.
    + cbn. unfold index_by. rewrite foldl_app, !fmap_app, !list_to_set_app_L. cbn.
      rewrite Hm, Hics, Hads. split_and!; [by destruct b|set_solver|set_solver].
  - exists ics, ads. rewrite Hrun. cbn in Hm. rewrite Hm, index_by_btree_values; [done|apply (so_ids _ Hok)].
Qed.

Lemma NoDup_members (P : Binding → Prop) `{∀ b, Decision (P b)} : NoDup (filter P (btree_values s.(bindings))).
Proof using Hok. apply NoDup_filter, bindings_NoDup. Qed.

Lemma set_ok_loads : try_from_snapshot (snapshot s) = Ok s.
Proof using Hok.
  destruct load_bindings_Ok as (ics & ads & Hb). unfold try_from_snapshot. cbn [snapshot s_connector_conformance
    s_routing_policies s_bindings s_tenant_id].
  ok_step; [exact load_connectors_Ok|]. ok_step; [exact load_policies_Ok|]. ok_step; [exact Hb|]. cbn [scanned].
  ok_step.
  { rewrite Exists_exists. intros (i & Hi & Hno). apply Hno, Exists_exists.
    apply list_elem_of_fmap in Hi as ([i' p] & -> & Hp%elem_of_btree_iter).
    destruct (so_used _ Hok _ _ Hp) as (b & Hr & Hbi). exists b. by rewrite elem_of_bindings. }
  ok_step.
  { apply try_fold_unit. intros [i p] Hp%elem_of_btree_iter. unfold check_policy. cbn.
    destruct (policy p) eqn:Hpp; apply reject_if_Ok.
    - apply Nat.le_ngt, length_le_1; [apply NoDup_filter, NoDup_filter, bindings_NoDup|].
      intros x y [Hx [<- Hxb]%list_elem_of_filter]%list_elem_of_filter
        [Hy [Hyi Hyb]%list_elem_of_filter]%list_elem_of_filter.
      apply elem_of_bindings in Hxb; [|done]. apply elem_of_bindings in Hyb; [|done].
      by eapply (so_exclusive _ Hok).
    - rewrite repeats_nil_NoDup. intros Hn. apply Hn, NoDup_fmap_inj; [apply NoDup_filter, NoDup_filter, bindings_NoDup|].
      intros x y [Hx [<- Hxb]%list_elem_of_filter]%list_elem_of_filter
        [Hy [Hyi Hyb]%list_elem_of_filter]%list_elem_of_filter Hpr.
      apply elem_of_bindings in Hxb; [|done]. apply elem_of_bindings in Hyb; [|done].
      by eapply (so_failover _ Hok). }
  ok_step.
  { apply try_fold_unit. intros [c r] Hr%elem_of_btree_iter. unfold check_connector. cbn. apply reject_if_Ok.
    intros [Hm Hlt]. apply Nat.lt_nge in Hlt. apply Hlt, length_le_1; [apply NoDup_members|].
    intros x y [[<- Hx] Hxb]%list_elem_of_filter [[Hyc Hy] Hyb]%list_elem_of_filter.
    apply elem_of_bindings in Hxb; [|done]. apply elem_of_bindings in Hyb; [|done].
    by eapply (so_single _ Hok). }
  by destruct s.
Qed.
End load.

(** Every binding registry that the commands build out of an empty one,
    whichever of them failed, passes the validation of its durable image and is
    restored exactly; the connectors it was told about have to exist. *)
Theorem reachable_bindings_load s : reachable s → try_from_snapshot (snapshot s) = Ok s.
Proof. intros Hs. by apply set_ok_loads, reachable_set_ok. Qed.
End BindingReload.
