(* ===== verification/AgentRouter.v ===== *)
(** * Agent run routing

    Models [crates/dtx-agent-router/src/lib.rs]: the candidate plan resolved from
    a binding registry, and the state machine of one run that is offered to a
    connector, leased to it, and settled. *)

From S2P Require Import Prelude Domain AgentHost AgentRegistry Connector BindingSet.

Notation RequestId := (UuidV7Id KRequest).
Notation EventId := (UuidV7Id KEvent).

Module Router.
Definition MAX_ROUTE_CANDIDATES : nat := 64.
Definition MAX_REQUIRED_CAPABILITIES : nat := 64.
Definition MAX_ROUTING_LEASE_TTL_MILLIS : Z := 300000.

Inductive DispatchMode : Type := SingleDispatch | Failover.
Inductive RunRoutingState : Type := Queued | Offered | Leased | ReconcileRequired | Expired.
Global Instance DispatchMode_eq_dec : EqDecision DispatchMode.
Proof. solve_decision. Defined.
Global Instance RunRoutingState_eq_dec : EqDecision RunRoutingState.
Proof. solve_decision. Defined.

Inductive RouterError : Type :=
| InvalidRequest
| InvalidCandidate
| InvalidConnectorFence
| InvalidTransition
| PolicyMismatch
| StaleOffer
| StaleRunLease
| ServerTimeRollback
| CounterExhausted
| InvalidSnapshot.

Record ConnectorLeaseFence : Type := {
  clf_tenant_id : TenantId;
  clf_connector_id : ConnectorId;
  clf_boot_id : BootId;
  clf_connector_generation : Z;
  clf_connector_lease_id : LeaseId;
  clf_connector_lease_epoch : Z
}.
Global Instance ConnectorLeaseFence_eq_dec : EqDecision ConnectorLeaseFence.
Proof. solve_decision. Defined.

Definition new_fence (tenant_id : TenantId) (connector_id : ConnectorId) (boot_id : BootId)
    (connector_generation : Z) (connector_lease_id : LeaseId) (connector_lease_epoch : Z) :
    result RouterError ConnectorLeaseFence :=
  reject InvalidConnectorFence
    when (connector_generation = 0 ∨ connector_generation > Revision.MAX
          ∨ connector_lease_epoch = 0 ∨ connector_lease_epoch > Revision.MAX);;
  Ok {| clf_tenant_id := tenant_id; clf_connector_id := connector_id; clf_boot_id := boot_id;
        clf_connector_generation := connector_generation;
        clf_connector_lease_id := connector_lease_id;
        clf_connector_lease_epoch := connector_lease_epoch |}.

(** [From<ConnectorFence>] *)
Definition from_connector_fence (f : ConnectorFence) : ConnectorLeaseFence :=
  {| clf_tenant_id := f.(fence_tenant_id); clf_connector_id := f.(fence_connector_id);
     clf_boot_id := f.(fence_boot_id); clf_connector_generation := f.(fence_generation);
     clf_connector_lease_id := f.(fence_lease_id);
     clf_connector_lease_epoch := f.(fence_lease_epoch) |}.

(** ** The plan *)

Record RouteCandidate : Type := {
  cand_binding_id : BindingId;
  cand_connector_id : ConnectorId;
  cand_priority : Z;
  cand_max_concurrency : Z
}.

Definition new_candidate (binding_id : BindingId) (connector_id : ConnectorId)
    (priority max_concurrency : Z) : result RouterError RouteCandidate :=
  reject InvalidCandidate when (max_concurrency = 0);;
  Ok {| cand_binding_id := binding_id; cand_connector_id := connector_id;
        cand_priority := priority; cand_max_concurrency := max_concurrency |}.

Record RoutePlan : Type := {
  plan_routing_policy : Binding.RoutingPolicy;
  plan_routing_policy_revision : Revision;
  plan_candidates : list RouteCandidate
}.

Definition cand_key (c : RouteCandidate) : Z * BindingId := (c.(cand_priority), c.(cand_binding_id)).
Definition cand_le (c c' : RouteCandidate) : Prop := ord_le (cand_key c) (cand_key c').
Global Instance cand_le_dec : RelDecision cand_le.
Proof. intros c c'. unfold cand_le. apply _. Defined.

(** [map(RouteCandidate::new).collect::<Result<Vec<_>, _>>()] *)
Definition collect_candidate (acc : list RouteCandidate) (b : Binding.Binding) :
    result RouterError (list RouteCandidate) :=
  c ← new_candidate b.(Binding.id) b.(Binding.connector_id) b.(Binding.priority)
        b.(Binding.max_concurrency);
  Ok (acc ++ [c]).

Definition resolve_route_plan (binding_set : Binding.BindingSet) (tenant_id : TenantId)
    (installation_id : InstallationId) (preferred_connector_id : option ConnectorId)
    (dispatch_mode : DispatchMode) : result RouterError RoutePlan :=
  let snapshot := Binding.snapshot binding_set in
  reject InvalidCandidate when (snapshot.(Binding.s_tenant_id) ≠ tenant_id);;
  '(_, policy) ← ok_or (list_find (λ p, p.(Binding.sp_installation_id) = installation_id)
                          snapshot.(Binding.s_routing_policies)) InvalidCandidate;
  reject PolicyMismatch
    when (dispatch_mode = Failover ∧ policy.(Binding.sp_policy) ≠ Binding.OrderedFailover);;
  candidates ← try_fold collect_candidate
    (filter (λ b, b.(Binding.installation_id) = installation_id
                  ∧ b.(Binding.state) = Binding.Enabled) snapshot.(Binding.s_bindings)) [];
  let candidates := merge_sort cand_le candidates in
  reject InvalidCandidate
    when (candidates = [] ∨ (MAX_ROUTE_CANDIDATES < length candidates)%nat);;
  preferred_index ← (match preferred_connector_id with
    | Some preferred =>
        Some <$> ok_or (fst <$> list_find (λ c, c.(cand_connector_id) = preferred) candidates)
                   InvalidCandidate
    | None => Ok None
    end);
  let from := default 0%nat preferred_index in
  (** [candidates[from]] and [split_off(from)]: [from] is the position of an
      element, or 0 in a list that is not empty. *)
  let candidates :=
    match dispatch_mode with
    | SingleDispatch => option_list (candidates !! from)
    | Failover => drop from candidates
    end in
  Ok {| plan_routing_policy := policy.(Binding.sp_policy);
        plan_routing_policy_revision := policy.(Binding.sp_revision);
        plan_candidates := candidates |}.

(** ** Requests *)

(** [valid_time]: non-negative and portable *)
Definition valid_time (value : Z) : Prop := 0 ≤ value ≤ Revision.MAX.
Global Instance valid_time_dec v : Decision (valid_time v).
Proof. unfold valid_time. apply _. Defined.

Definition is_ascii_lowercase (b : Z) : Prop := 97 ≤ b ≤ 122.
Definition is_ascii_digit (b : Z) : Prop := 48 ≤ b ≤ 57.
(** [b'.' | b'_' | b'-' | b'/' | b':'] *)
Definition is_name_mark (b : Z) : Prop := b = 46 ∨ b = 95 ∨ b = 45 ∨ b = 47 ∨ b = 58.

Definition valid_stable_name (value : bytes) : Prop :=
  value ≠ [] ∧ (length value ≤ 128)%nat
  ∧ some_and (head value) (λ b, is_ascii_lowercase b ∨ is_ascii_digit b)
  ∧ Forall (λ b, is_ascii_lowercase b ∨ is_ascii_digit b ∨ is_name_mark b) value.
Global Instance valid_stable_name_dec v : Decision (valid_stable_name v).
Proof. unfold valid_stable_name, is_ascii_lowercase, is_ascii_digit, is_name_mark. apply _. Defined.

Record RunRequest : Type := {
  tenant_id : TenantId;
  run_id : RunId;
  request_id : RequestId;
  idempotency_digest : bytes;
  request_digest : bytes;
  installation_id : InstallationId;
  conversation_id : ConversationId;
  request_event_id : EventId;
  preferred_connector_id : option ConnectorId;
  required_capabilities : list bytes;
  dispatch_mode : DispatchMode;
  routing_policy : Binding.RoutingPolicy;
  routing_policy_revision : Revision;
  grant_version : Z;
  queue_deadline_millis : Z;
  created_at_millis : Z
}.

(** [windows(2).any(|pair| pair[0] == pair[1])] *)
Fixpoint has_equal_neighbours {A} `{EqDecision A} (l : list A) : bool :=
  match l with
  | x :: ((y :: _) as l') => if decide (x = y) then true else has_equal_neighbours l'
  | _ => false
  end.

Definition new_request (tenant_id : TenantId) (run_id : RunId) (request_id : RequestId)
    (idempotency_digest request_digest : bytes) (installation_id : InstallationId)
    (conversation_id : ConversationId) (request_event_id : EventId)
    (preferred_connector_id : option ConnectorId) (required_capabilities : list bytes)
    (dispatch_mode : DispatchMode) (routing_policy : Binding.RoutingPolicy)
    (routing_policy_revision : Revision)
    (grant_version queue_deadline_millis created_at_millis : Z) : result RouterError RunRequest :=
  reject InvalidRequest
    when (¬ valid_time created_at_millis ∨ ¬ valid_time queue_deadline_millis
          ∨ queue_deadline_millis ≤ created_at_millis
          ∨ grant_version = 0 ∨ grant_version > Revision.MAX
          ∨ (MAX_REQUIRED_CAPABILITIES < length required_capabilities)%nat
          ∨ Exists (λ capability, ¬ valid_stable_name capability) required_capabilities);;
  let required_capabilities := merge_sort ord_le required_capabilities in
  reject InvalidRequest when (has_equal_neighbours required_capabilities = true);;
  Ok {| tenant_id := tenant_id; run_id := run_id; request_id := request_id;
        idempotency_digest := idempotency_digest; request_digest := request_digest;
        installation_id := installation_id; conversation_id := conversation_id;
        request_event_id := request_event_id; preferred_connector_id := preferred_connector_id;
        required_capabilities := required_capabilities; dispatch_mode := dispatch_mode;
        routing_policy := routing_policy; routing_policy_revision := routing_policy_revision;
        grant_version := grant_version; queue_deadline_millis := queue_deadline_millis;
        created_at_millis := created_at_millis |}.

(** ** Offers and leases *)

Record RunOffer : Type := {
  offer_id : RunOfferId;
  attempt : Z;
  offer_candidate_index : nat;
  offer_fence : ConnectorLeaseFence;
  offered_at_millis : Z;
  offer_expires_at_millis : Z
}.

Record RunLease : Type := {
  lease_run_id : RunLeaseId;
  epoch : Z;
  lease_offer_id : RunOfferId;
  offer_attempt : Z;
  lease_candidate_index : nat;
  lease_fence : ConnectorLeaseFence;
  issued_at_millis : Z;
  lease_expires_at_millis : Z
}.

(** [RunOfferSnapshot] and [RunLeaseSnapshot] have the fields of [RunOffer] and
    [RunLease]; [try_from_snapshot] checks them one by one. *)
Definition load_offer (s : RunOffer) : result RouterError RunOffer :=
  reject InvalidSnapshot
    when (s.(attempt) = 0 ∨ s.(attempt) > Revision.MAX
          ∨ ¬ valid_time s.(offered_at_millis) ∨ ¬ valid_time s.(offer_expires_at_millis)
          ∨ s.(offer_expires_at_millis) ≤ s.(offered_at_millis)
          ∨ s.(offer_expires_at_millis) - s.(offered_at_millis) > MAX_ROUTING_LEASE_TTL_MILLIS);;
  Ok {| offer_id := s.(offer_id); attempt := s.(attempt);
        offer_candidate_index := s.(offer_candidate_index); offer_fence := s.(offer_fence);
        offered_at_millis := s.(offered_at_millis);
        offer_expires_at_millis := s.(offer_expires_at_millis) |}.

Definition load_lease (s : RunLease) : result RouterError RunLease :=
  reject InvalidSnapshot
    when (s.(epoch) = 0 ∨ s.(epoch) > Revision.MAX
          ∨ s.(offer_attempt) = 0 ∨ s.(offer_attempt) > Revision.MAX
          ∨ ¬ valid_time s.(issued_at_millis) ∨ ¬ valid_time s.(lease_expires_at_millis)
          ∨ s.(lease_expires_at_millis) ≤ s.(issued_at_millis)
          ∨ s.(lease_expires_at_millis) - s.(issued_at_millis) > MAX_ROUTING_LEASE_TTL_MILLIS);;
  Ok {| lease_run_id := s.(lease_run_id); epoch := s.(epoch); lease_offer_id := s.(lease_offer_id);
        offer_attempt := s.(offer_attempt); lease_candidate_index := s.(lease_candidate_index);
        lease_fence := s.(lease_fence); issued_at_millis := s.(issued_at_millis);
        lease_expires_at_millis := s.(lease_expires_at_millis) |}.

Inductive WriteDisposition (T : Type) : Type := Inserted (value : T) | Existing (value : T).
Arguments Inserted {T} _.
Arguments Existing {T} _.

(** ** The run *)

Record AgentRun : Type := {
  request : RunRequest;
  candidates : list RouteCandidate;
  state : RunRoutingState;
  candidate_cursor : nat;
  current_offer : option RunOffer;
  current_lease : option RunLease;
  highest_offer_attempt : Z;
  highest_run_lease_epoch : Z;
  revision : Revision;
  updated_at_millis : Z;
  server_time_high_water_millis : Z
}.

Definition AgentRun_eta (r : AgentRun) : AgentRun :=
  {| request := r.(request); candidates := r.(candidates); state := r.(state);
     candidate_cursor := r.(candidate_cursor); current_offer := r.(current_offer);
     current_lease := r.(current_lease); highest_offer_attempt := r.(highest_offer_attempt);
     highest_run_lease_epoch := r.(highest_run_lease_epoch); revision := r.(revision);
     updated_at_millis := r.(updated_at_millis);
     server_time_high_water_millis := r.(server_time_high_water_millis) |}.
Global Instance state_field : Field state := ltac:(field_of AgentRun_eta state).
Global Instance candidate_cursor_field : Field candidate_cursor :=
  ltac:(field_of AgentRun_eta candidate_cursor).
Global Instance current_offer_field : Field current_offer :=
  ltac:(field_of AgentRun_eta current_offer).
Global Instance current_lease_field : Field current_lease :=
  ltac:(field_of AgentRun_eta current_lease).
Global Instance highest_offer_attempt_field : Field highest_offer_attempt :=
  ltac:(field_of AgentRun_eta highest_offer_attempt).
Global Instance highest_run_lease_epoch_field : Field highest_run_lease_epoch :=
  ltac:(field_of AgentRun_eta highest_run_lease_epoch).
Global Instance revision_field : Field revision := ltac:(field_of AgentRun_eta revision).
Global Instance updated_at_millis_field : Field updated_at_millis :=
  ltac:(field_of AgentRun_eta updated_at_millis).
Global Instance server_time_field : Field server_time_high_water_millis :=
  ltac:(field_of AgentRun_eta server_time_high_water_millis).

(** The loop of [validate_candidates]. *)
Record CandidateScan : Type := MkCandidateScan {
  seen_bindings : gset BindingId;
  seen_connectors : gset ConnectorId;
  previous_priority : option Z
}.

Definition check_candidate (mode : DispatchMode) (acc : CandidateScan) (c : RouteCandidate) :
    result RouterError CandidateScan :=
  reject InvalidCandidate
    when (c.(cand_max_concurrency) = 0 ∨ c.(cand_binding_id) ∈ acc.(seen_bindings)
          ∨ c.(cand_connector_id) ∈ acc.(seen_connectors)
          ∨ (mode = Failover ∧ some_and acc.(previous_priority) (λ previous,
               c.(cand_priority) ≤ previous)));;
  Ok (MkCandidateScan ({[c.(cand_binding_id)]} ∪ acc.(seen_bindings))
        ({[c.(cand_connector_id)]} ∪ acc.(seen_connectors)) (Some c.(cand_priority))).

Definition validate_candidates (r : RunRequest) (cs : list RouteCandidate) :
    result RouterError unit :=
  reject InvalidCandidate when (cs = [] ∨ (MAX_ROUTE_CANDIDATES < length cs)%nat);;
  (match r.(dispatch_mode), r.(routing_policy) with
   | SingleDispatch, _ => reject PolicyMismatch when (length cs ≠ 1%nat)
   | Failover, Binding.OrderedFailover => Ok tt
   | _, _ => Err PolicyMismatch
   end);;
  reject InvalidCandidate
    when (some_and r.(preferred_connector_id) (λ preferred,
            some_and (head cs) (λ first, first.(cand_connector_id) ≠ preferred)));;
  try_fold (check_candidate r.(dispatch_mode)) cs (MkCandidateScan ∅ ∅ None);;
  Ok tt.

Definition create (r : RunRequest) (cs : list RouteCandidate) : result RouterError AgentRun :=
  validate_candidates r cs;;
  Ok {| request := r; candidates := cs; state := Queued; candidate_cursor := 0;
        current_offer := None; current_lease := None; highest_offer_attempt := 0;
        highest_run_lease_epoch := 0; revision := Revision.INITIAL;
        updated_at_millis := r.(created_at_millis);
        server_time_high_water_millis := r.(created_at_millis) |}.

Notation Op := (ST AgentRun RouterError).

Definition checked_counter (current : Z) : result RouterError Z :=
  ok_or (value ← u64_checked_add current 1;
         if decide (value ≤ Revision.MAX) then Some value else None) CounterExhausted.

Definition ensure_time (self : AgentRun) (now_millis : Z) : result RouterError unit :=
  if decide (valid_time now_millis ∧ now_millis >= self.(server_time_high_water_millis))
  then Ok tt else Err ServerTimeRollback.

Definition advance (now_millis : Z) : Op unit :=
  self ← get;
  next ← lift (map_err (λ _, CounterExhausted) (Revision.checked_next self.(revision)));
  modify (λ self, self <| revision := next |>);;
  modify (λ self, self <| updated_at_millis := now_millis |>);;
  modify (λ self, self <| server_time_high_water_millis := now_millis |>).

(** [self.candidates[self.candidate_cursor]]; in range by [current_candidate_exists]. *)
Definition current_candidate (self : AgentRun) : option RouteCandidate :=
  self.(candidates) !! self.(candidate_cursor).

(** [checked_add(1)] on [u16], filtered by the number of candidates, or 0 *)
Definition next_cursor (self : AgentRun) : nat :=
  let cursor := S self.(candidate_cursor) in
  if decide (Z.of_nat cursor ≤ u16_max ∧ (cursor < length self.(candidates))%nat)
  then cursor else 0%nat.

Definition skip_ineligible_candidate (now_millis : Z) : Op unit :=
  self ← get;
  lift (ensure_time self now_millis);;
  lift (reject InvalidTransition
    when (self.(state) ≠ Queued ∨ self.(request).(dispatch_mode) ≠ Failover));;
  modify (λ self, self <| candidate_cursor := next_cursor self |>);;
  advance now_millis.

Definition defer_unavailable (now_millis : Z) : Op unit :=
  self ← get;
  lift (ensure_time self now_millis);;
  lift (reject InvalidTransition when (self.(state) ≠ Queued));;
  advance now_millis.

Definition replayed_offer (self : AgentRun) (id : RunOfferId) (fence : ConnectorLeaseFence)
    (expires_at : Z) : option RunOffer :=
  existing ← self.(current_offer);
  if decide (self.(state) = Offered ∧ existing.(offer_id) = id ∧ existing.(offer_fence) = fence
             ∧ existing.(offer_expires_at_millis) = expires_at)
  then Some existing else None.

Definition offer (id : RunOfferId) (fence : ConnectorLeaseFence) (offered_at expires_at : Z) :
    Op (WriteDisposition RunOffer) :=
  self ← get;
  match replayed_offer self id fence expires_at with
  | Some existing => mret (Existing existing)
  | None =>
      lift (ensure_time self offered_at);;
      lift (reject InvalidTransition
        when (self.(state) ≠ Queued
              ∨ fence.(clf_tenant_id) ≠ self.(request).(tenant_id)
              ∨ none_or (current_candidate self) (λ c,
                  fence.(clf_connector_id) ≠ c.(cand_connector_id))
              ∨ expires_at ≤ offered_at
              ∨ expires_at > self.(request).(queue_deadline_millis)
              ∨ expires_at - offered_at > MAX_ROUTING_LEASE_TTL_MILLIS));;
      next_attempt ← lift (checked_counter self.(highest_offer_attempt));
      let new_offer :=
        {| offer_id := id; attempt := next_attempt;
           offer_candidate_index := self.(candidate_cursor); offer_fence := fence;
           offered_at_millis := offered_at; offer_expires_at_millis := expires_at |} in
      modify (λ self, self <| highest_offer_attempt := next_attempt |>);;
      modify (λ self, self <| current_offer := Some new_offer |>);;
      modify (λ self, self <| current_lease := None |>);;
      modify (λ self, self <| state := Offered |>);;
      advance offered_at;;
      mret (Inserted new_offer)
  end.

Definition replayed_claim (self : AgentRun) (id : RunOfferId) (claimed_attempt : Z)
    (fence : ConnectorLeaseFence) : option RunLease :=
  existing ← self.(current_lease);
  if decide (self.(state) = Leased ∧ existing.(lease_offer_id) = id
             ∧ existing.(offer_attempt) = claimed_attempt ∧ existing.(lease_fence) = fence)
  then Some existing else None.

Definition claim (id : RunOfferId) (claimed_attempt : Z) (fence : ConnectorLeaseFence)
    (run_lease_id : RunLeaseId) (claimed_at lease_expires_at : Z) :
    Op (WriteDisposition RunLease) :=
  self ← get;
  lift (ensure_time self claimed_at);;
  match replayed_claim self id claimed_attempt fence with
  | Some existing =>
      if decide (claimed_at < existing.(lease_expires_at_millis))
      then mret (Existing existing) else throw StaleRunLease
  | None =>
      current ← lift (ok_or self.(current_offer) StaleOffer);
      lift (reject StaleOffer
        when (self.(state) ≠ Offered ∨ current.(offer_id) ≠ id
              ∨ current.(attempt) ≠ claimed_attempt ∨ current.(offer_fence) ≠ fence
              ∨ claimed_at >= current.(offer_expires_at_millis)
              ∨ lease_expires_at ≤ claimed_at
              ∨ lease_expires_at - claimed_at > MAX_ROUTING_LEASE_TTL_MILLIS));;
      next_epoch ← lift (checked_counter self.(highest_run_lease_epoch));
      let new_lease :=
        {| lease_run_id := run_lease_id; epoch := next_epoch; lease_offer_id := id;
           offer_attempt := claimed_attempt;
           lease_candidate_index := current.(offer_candidate_index); lease_fence := fence;
           issued_at_millis := claimed_at; lease_expires_at_millis := lease_expires_at |} in
      modify (λ self, self <| highest_run_lease_epoch := next_epoch |>);;
      modify (λ self, self <| current_lease := Some new_lease |>);;
      modify (λ self, self <| state := Leased |>);;
      advance claimed_at;;
      mret (Inserted new_lease)
  end.

Definition expire_offer (now_millis : Z) : Op RunRoutingState :=
  self ← get;
  lift (ensure_time self now_millis);;
  current ← lift (ok_or self.(current_offer) InvalidTransition);
  lift (reject InvalidTransition
    when (self.(state) ≠ Offered ∨ now_millis < current.(offer_expires_at_millis)));;
  modify (λ self, self <| current_offer := None |>);;
  (if decide (now_millis >= self.(request).(queue_deadline_millis))
   then modify (λ self, self <| state := Expired |>)
   else
     modify (λ self, if decide (self.(request).(dispatch_mode) = Failover)
                     then self <| candidate_cursor := next_cursor self |> else self);;
     modify (λ self, self <| state := Queued |>));;
  advance now_millis;;
  self ← get;
  mret self.(state).

Definition expire_queue (now_millis : Z) : Op unit :=
  self ← get;
  lift (ensure_time self now_millis);;
  lift (reject InvalidTransition
    when (self.(state) ≠ Queued ∨ now_millis < self.(request).(queue_deadline_millis)));;
  modify (λ self, self <| state := Expired |>);;
  advance now_millis.

Definition expire_lease (now_millis : Z) : Op unit :=
  self ← get;
  lift (ensure_time self now_millis);;
  lease ← lift (ok_or self.(current_lease) StaleRunLease);
  lift (reject InvalidTransition
    when (self.(state) ≠ Leased ∨ now_millis < lease.(lease_expires_at_millis)));;
  modify (λ self, self <| state := ReconcileRequired |>);;
  advance now_millis.

Definition validate_active_lease (self : AgentRun) (run_lease_id : RunLeaseId)
    (run_lease_epoch : Z) (fence : ConnectorLeaseFence) : result RouterError RunLease :=
  lease ← ok_or self.(current_lease) StaleRunLease;
  if decide (self.(state) = Leased ∧ lease.(lease_run_id) = run_lease_id
             ∧ lease.(epoch) = run_lease_epoch ∧ lease.(lease_fence) = fence)
  then Ok lease else Err StaleRunLease.

Definition release (run_lease_id : RunLeaseId) (run_lease_epoch : Z) (fence : ConnectorLeaseFence)
    (released_at : Z) : Op unit :=
  self ← get;
  lift (ensure_time self released_at);;
  lift (validate_active_lease self run_lease_id run_lease_epoch fence);;
  modify (λ self, self <| state := ReconcileRequired |>);;
  advance released_at.

Definition finish (run_lease_id : RunLeaseId) (run_lease_epoch : Z) (fence : ConnectorLeaseFence)
    (finished_at : Z) : Op unit :=
  self ← get;
  lift (ensure_time self finished_at);;
  lease ← lift (validate_active_lease self run_lease_id run_lease_epoch fence);
  lift (reject StaleRunLease when (finished_at >= lease.(lease_expires_at_millis)));;
  modify (λ self, self <| state := ReconcileRequired |>);;
  advance finished_at.

(** ** The durable image

    [AgentRunSnapshot] has the fields of [AgentRun]. *)

Definition offer_valid (s : AgentRun) (o : RunOffer) : Prop :=
  (o.(offer_candidate_index) < length s.(candidates))%nat
  ∧ o.(offer_candidate_index) = s.(candidate_cursor)
  ∧ o.(offer_fence).(clf_tenant_id) = s.(request).(tenant_id)
  ∧ some_and (s.(candidates) !! o.(offer_candidate_index)) (λ c,
      o.(offer_fence).(clf_connector_id) = c.(cand_connector_id))
  ∧ o.(attempt) > 0 ∧ o.(attempt) ≤ s.(highest_offer_attempt)
  ∧ o.(offer_expires_at_millis) > o.(offered_at_millis)
  ∧ o.(offer_expires_at_millis) ≤ s.(request).(queue_deadline_millis).
Global Instance offer_valid_dec s o : Decision (offer_valid s o).
Proof. unfold offer_valid. apply _. Defined.

Definition lease_valid (s : AgentRun) (l : RunLease) : Prop :=
  (l.(lease_candidate_index) < length s.(candidates))%nat
  ∧ l.(lease_candidate_index) = s.(candidate_cursor)
  ∧ l.(lease_fence).(clf_tenant_id) = s.(request).(tenant_id)
  ∧ some_and (s.(candidates) !! l.(lease_candidate_index)) (λ c,
      l.(lease_fence).(clf_connector_id) = c.(cand_connector_id))
  ∧ l.(epoch) > 0 ∧ l.(epoch) ≤ s.(highest_run_lease_epoch)
  ∧ l.(offer_attempt) > 0 ∧ l.(offer_attempt) ≤ s.(highest_offer_attempt)
  ∧ l.(lease_expires_at_millis) > l.(issued_at_millis)
  ∧ some_and s.(current_offer) (λ o,
      o.(offer_id) = l.(lease_offer_id) ∧ o.(attempt) = l.(offer_attempt)
      ∧ o.(offer_fence) = l.(lease_fence)).
Global Instance lease_valid_dec s l : Decision (lease_valid s l).
Proof. unfold lease_valid. apply _. Defined.

Definition state_valid (s : AgentRun) : Prop :=
  match s.(state) with
  | Queued | Expired => s.(current_offer) = None ∧ s.(current_lease) = None
  | Offered => is_Some s.(current_offer) ∧ s.(current_lease) = None
  | Leased | ReconcileRequired => is_Some s.(current_offer) ∧ is_Some s.(current_lease)
  end.
Global Instance state_valid_dec s : Decision (state_valid s).
Proof. unfold state_valid. destruct (state s); apply _. Defined.

Definition validate_state_image (s : AgentRun) : result RouterError unit :=
  if decide (none_or s.(current_offer) (offer_valid s) ∧ none_or s.(current_lease) (lease_valid s)
             ∧ state_valid s)
  then Ok tt else Err InvalidSnapshot.

Definition try_from_snapshot (s : AgentRun) : result RouterError AgentRun :=
  validate_candidates s.(request) s.(candidates);;
  reject InvalidSnapshot
    when ((length s.(candidates) ≤ s.(candidate_cursor))%nat ∨ s.(revision) = 0
          ∨ s.(updated_at_millis) < s.(request).(created_at_millis)
          ∨ s.(server_time_high_water_millis) < s.(updated_at_millis)
          ∨ ¬ valid_time s.(server_time_high_water_millis));;
  validate_state_image s;;
  Ok (AgentRun_eta s).

Definition snapshot (self : AgentRun) : AgentRun := AgentRun_eta self.
End Router.
