(* ===== verification/AgentRunInv.v ===== *)
(** * Agent runs: transitions and invariant

    The operations of a run as a step relation, and what every reachable run
    satisfies.  An operation writes its fields before it advances the revision,
    so at the last revision it can fail and still have moved the run; the
    relation covers that too. *)

From S2P Require Import Prelude Domain AgentHost AgentRegistry Connector BindingSet AgentRouter.

(** ** The state after a program *)

Section exec.
Context {S E B : Type}.
Lemma exec_get (f : S → ST S E B) s : exec (get ≫= f) s = exec (f s) s.
Proof. done. Qed.
Lemma exec_lift {A} (r : result E A) (f : A → ST S E B) s :
  exec (lift r ≫= f) s = match r with Ok a => exec (f a) s | Err _ => s end.
Proof. by destruct r. Qed.
Lemma exec_modify g (f : unit → ST S E B) s : exec (modify g ≫= f) s = exec (f tt) (g s).
Proof. done. Qed.
Lemma exec_readonly_tail {A} (m : ST S E A) (f : A → ST S E B) s :
  (∀ a, readonly (f a)) → exec (m ≫= f) s = exec m s.
Proof.
  intros Hf. unfold exec, mbind, ST_bind. destruct (m s) as [[a|e] s']; [apply Hf|done].
Qed.
Lemma exec_assoc {A C} (m : ST S E A) (f : A → ST S E C) (g : C → ST S E B) s :
  exec ((m ≫= f) ≫= g) s = exec (m ≫= λ a, f a ≫= g) s.
Proof. unfold exec, mbind, ST_bind. by destruct (m s) as [[a|e] s']. Qed.
End exec.

Module RunInv.
Import Router.

Inductive RunOp : Type :=
| OpSkip (now : Z)
| OpDefer (now : Z)
| OpOffer (id : RunOfferId) (fence : ConnectorLeaseFence) (offered_at expires_at : Z)
| OpClaim (id : RunOfferId) (claimed_attempt : Z) (fence : ConnectorLeaseFence)
    (run_lease_id : RunLeaseId) (claimed_at lease_expires_at : Z)
| OpExpireOffer (now : Z)
| OpExpireQueue (now : Z)
| OpExpireLease (now : Z)
| OpRelease (run_lease_id : RunLeaseId) (run_lease_epoch : Z) (fence : ConnectorLeaseFence) (released_at : Z)
| OpFinish (run_lease_id : RunLeaseId) (run_lease_epoch : Z) (fence : ConnectorLeaseFence) (finished_at : Z).

Definition step (o : RunOp) : AgentRun → AgentRun :=
  match o with
  | OpSkip now => exec (skip_ineligible_candidate now)
  | OpDefer now => exec (defer_unavailable now)
  | OpOffer id f t e => exec (offer id f t e)
  | OpClaim id a f l t e => exec (claim id a f l t e)
  | OpExpireOffer now => exec (expire_offer now)
  | OpExpireQueue now => exec (expire_queue now)
  | OpExpireLease now => exec (expire_lease now)
  | OpRelease l e f t => exec (release l e f t)
  | OpFinish l e f t => exec (finish l e f t)
  end.

(** ** The step relation *)

Definition clock_at (r : AgentRun) (now : Z) : Prop :=
  valid_time now ∧ r.(server_time_high_water_millis) ≤ now.

(** The state after the final [advance]. *)
Definition stamped (now : Z) (r r' : AgentRun) : Prop :=
  (r.(revision) = Revision.MAX ∧ r' = r) ∨
  (r.(revision) ≠ Revision.MAX ∧
   r' = r <| revision := r.(revision) + 1 |> <| updated_at_millis := now |>
          <| server_time_high_water_millis := now |>).

Inductive trans (r : AgentRun) : AgentRun → Prop :=
| TSkip now r' :
    clock_at r now → r.(state) = Queued → r.(request).(dispatch_mode) = Failover →
    stamped now (r <| candidate_cursor := next_cursor r |>) r' → trans r r'
| TDefer now r' :
    clock_at r now → r.(state) = Queued → stamped now r r' → trans r r'
| TOffer now o r' :
    clock_at r now → r.(state) = Queued → o.(offered_at_millis) = now →
    o.(offer_candidate_index) = r.(candidate_cursor) →
    o.(offer_fence).(clf_tenant_id) = r.(request).(tenant_id) →
    some_and (current_candidate r) (λ c, o.(offer_fence).(clf_connector_id) = c.(cand_connector_id)) →
    now < o.(offer_expires_at_millis) ≤ r.(request).(queue_deadline_millis) →
    checked_counter r.(highest_offer_attempt) = Ok o.(attempt) →
    stamped now (r <| highest_offer_attempt := o.(attempt) |> <| current_offer := Some o |>
                   <| current_lease := None |> <| state := Offered |>) r' → trans r r'
| TClaim now o l r' :
    clock_at r now → r.(state) = Offered → r.(current_offer) = Some o → l.(issued_at_millis) = now →
    now < o.(offer_expires_at_millis) → now < l.(lease_expires_at_millis) →
    l.(lease_offer_id) = o.(offer_id) → l.(offer_attempt) = o.(attempt) →
    l.(lease_fence) = o.(offer_fence) → l.(lease_candidate_index) = o.(offer_candidate_index) →
    checked_counter r.(highest_run_lease_epoch) = Ok l.(epoch) →
    stamped now (r <| highest_run_lease_epoch := l.(epoch) |> <| current_lease := Some l |>
                   <| state := Leased |>) r' → trans r r'
| TRequeue now o r' :
    clock_at r now → r.(state) = Offered → r.(current_offer) = Some o →
    o.(offer_expires_at_millis) ≤ now < r.(request).(queue_deadline_millis) →
    stamped now (r <| current_offer := None |>
                   <| candidate_cursor := if decide (r.(request).(dispatch_mode) = Failover)
                        then next_cursor r else r.(candidate_cursor) |>
                   <| state := Queued |>) r' → trans r r'
| TExpireOffer now r' :
    clock_at r now → r.(state) = Offered → r.(request).(queue_deadline_millis) ≤ now →
    stamped now (r <| current_offer := None |> <| state := Expired |>) r' → trans r r'
| TExpireQueue now r' :
    clock_at r now → r.(state) = Queued → r.(request).(queue_deadline_millis) ≤ now →
    stamped now (r <| state := Expired |>) r' → trans r r'
| TSettle now l r' :
    clock_at r now → r.(state) = Leased → r.(current_lease) = Some l →
    stamped now (r <| state := ReconcileRequired |>) r' → trans r r'.

Lemma advance_stamped now r : stamped now r (exec (advance now) r).
Proof.
  unfold advance. rewrite exec_get, exec_lift. unfold stamped, Revision.checked_next, reject_if.
  case_decide as Hd; cbn; [left; done|]. right. done.
Qed.

Lemma ensure_time_cases {B} r now (k : unit → ST AgentRun RouterError B) :
  exec (lift (ensure_time r now) ≫= k) r = r ∨
  clock_at r now ∧ exec (lift (ensure_time r now) ≫= k) r = exec (k tt) r.
Proof.
  unfold ensure_time, clock_at. rewrite exec_lift. case_decide as Hd; [right|by left].
  destruct Hd as [? ?]. split; [split; [done|lia]|done].
Qed.

Lemma reject_cases {B} (P : Prop) `{!Decision P} e r (k : unit → ST AgentRun RouterError B) :
  exec (lift (reject_if P e) ≫= k) r = r ∨ ¬ P ∧ exec (lift (reject_if P e) ≫= k) r = exec (k tt) r.
Proof. unfold reject_if. rewrite exec_lift. case_decide; [by left|by right]. Qed.

(** Takes the checks of an operation one by one; each either ends the operation
    with the run unchanged or is known from then on. *)
Ltac run_guards :=
  repeat first
    [ rewrite exec_get; cbv beta
    | lazymatch goal with |- context [exec (lift (ensure_time ?r ?t) ≫= ?k) ?r] =>
        destruct (ensure_time_cases r t k) as [->|[? ->]]; [by left|]; cbv beta end
    | lazymatch goal with |- context [exec (lift (reject_if ?P ?e) ≫= ?k) ?r] =>
        destruct (reject_cases P e r k) as [->|[? ->]]; [by left|]; cbv beta end
    | rewrite exec_modify; cbv beta
    | rewrite exec_assoc ].

Lemma validate_active_Ok r id e f l :
  validate_active_lease r id e f = Ok l →
  r.(state) = Leased ∧ r.(current_lease) = Some l ∧ l.(lease_run_id) = id ∧ l.(epoch) = e ∧ l.(lease_fence) = f.
Proof.
  unfold validate_active_lease. intros H. apply result_bind_Ok in H as (l' & Hl & H). apply ok_or_Ok in Hl.
  case_decide; [|done]. injection H as <-. naive_solver.
Qed.

Lemma step_trans o r : step o r = r ∨ trans r (step o r).
Proof.
  destruct o; cbn [step].
  - unfold skip_ineligible_candidate. run_guards. right. eapply (TSkip r now); [done|apply dec_stable; tauto..|].
    apply advance_stamped.
  - unfold defer_unavailable. run_guards. right. eapply (TDefer r now); [done|by apply dec_stable|apply advance_stamped].
  - unfold offer. rewrite exec_get. destruct (replayed_offer _ _ _ _); [by left|]. run_guards.
    rewrite exec_lift. destruct (checked_counter _) as [a|] eqn:Ha; [|by left]. run_guards.
    rewrite exec_readonly_tail by (intros ? ?; reflexivity). right.
    match goal with |- context [upd current_offer (λ _, Some ?x) _] => set (o := x) end.
    eapply (TOffer r offered_at o); cbn; try done; try (apply dec_stable; tauto); [|lia|apply advance_stamped].
    destruct (current_candidate r); cbn in *; [|tauto]. apply dec_stable. tauto.
  - unfold claim. run_guards. destruct (replayed_claim _ _ _ _); [case_decide; by left|].
    rewrite exec_lift. destruct (current_offer r) as [o|] eqn:Ho; cbn [ok_or]; [|by left]. run_guards.
    rewrite exec_lift. destruct (checked_counter _) as [e|] eqn:He; [|by left]. run_guards.
    rewrite exec_readonly_tail by (intros ? ?; reflexivity). right.
    match goal with |- context [upd current_lease (λ _, Some ?x) _] => set (l := x) end.
    eapply (TClaim r claimed_at o l); cbn; try done; try (symmetry; apply dec_stable; tauto);
      [apply dec_stable; tauto|lia|lia|apply advance_stamped].
  - unfold expire_offer. run_guards. rewrite exec_lift. destruct (current_offer r) as [o|] eqn:Ho; cbn [ok_or]; [|by left].
    run_guards. right. case_decide as Hd; run_guards; rewrite exec_readonly_tail by (intros ? ?; reflexivity).
    + eapply (TExpireOffer r now); [done|apply dec_stable; tauto|lia|apply advance_stamped].
    + eapply (TRequeue r now o); [done|apply dec_stable; tauto|done|lia|].
      match goal with |- stamped _ ?s _ => match goal with |- context [exec (advance now) ?s'] =>
        replace s' with s; [apply advance_stamped|] end end.
      destruct r. cbn. by case_decide.
  - unfold expire_queue. run_guards. right.
    eapply (TExpireQueue r now); [done|apply dec_stable; tauto|lia|apply advance_stamped].
  - unfold expire_lease. run_guards. rewrite exec_lift.
    destruct (current_lease r) as [l|] eqn:Hl; cbn [ok_or]; [|by left]. run_guards. right.
    eapply (TSettle r now l); [done|apply dec_stable; tauto|done|apply advance_stamped].
  - unfold release. run_guards. rewrite exec_lift. destruct (validate_active_lease _ _ _ _) as [l|] eqn:Hl; [|by left].
    apply validate_active_Ok in Hl as (Hs & Hl & _). run_guards. right.
    eapply (TSettle r released_at l); [done..|apply advance_stamped].
  - unfold finish. run_guards. rewrite exec_lift. destruct (validate_active_lease _ _ _ _) as [l|] eqn:Hl; [|by left].
    apply validate_active_Ok in Hl as (Hs & Hl & _). run_guards. right.
    eapply (TSettle r finished_at l); [done..|apply advance_stamped].
Qed.
End RunInv.
