(* ===== verification/AgentRunProps.v ===== *)
(** * Agent runs: what the router guarantees

    Every reachable run is consistent and reloads; a run is leased at most once
    and never offered again after that; settled runs stay settled, and every run
    can be settled; plans resolved from a binding registry are accepted. *)

From S2P Require Import Prelude Domain AgentHost AgentRegistry Connector BindingSet BindingInv BindingReload AgentRouter AgentRunInv.

Module RunProps.
Import Router RunInv.

(** ** The invariant *)

Record run_ok (r : AgentRun) : Prop := {
  ru_candidates : validate_candidates r.(request) r.(candidates) = Ok tt;
  ru_cursor : (r.(candidate_cursor) < length r.(candidates))%nat;
  ru_revision : 1 ≤ r.(revision);
  ru_time : r.(request).(created_at_millis) ≤ r.(updated_at_millis) ≤ r.(server_time_high_water_millis);
  ru_clock : valid_time r.(server_time_high_water_millis);
  ru_offer : ∀ o, r.(current_offer) = Some o → offer_valid r o;
  ru_lease : ∀ l, r.(current_lease) = Some l → lease_valid r l;
  ru_state : state_valid r;
  ru_epoch : r.(highest_run_lease_epoch) = if decide (r.(current_lease) = None) then 0 else 1;
  ru_attempt : 0 ≤ r.(highest_offer_attempt)
}.

Lemma checked_counter_Ok n m : 0 ≤ n → checked_counter n = Ok m → m = n + 1.
Proof.
  intros Hn. unfold checked_counter, u64_checked_add, checked. case_decide; cbn; [|done].
  case_decide; cbn; [|done]. by intros [= <-].
Qed.

Lemma next_cursor_lt r : (r.(candidate_cursor) < length r.(candidates))%nat → (next_cursor r < length r.(candidates))%nat.
Proof. unfold next_cursor. case_decide; lia. Qed.

(** The fields that only [advance] writes. *)
Lemma stamped_ok now r1 r' :
  stamped now r1 r' → valid_time now → r1.(server_time_high_water_millis) ≤ now → run_ok r1 → run_ok r'.
Proof.
  intros [[_ ->]|[_ ->]] Hv Hle Hok; [done|]. destruct Hok as [K1 K2 K3 K4 K5 K6 K7 K8 K9 K10].
  split; cbn; try done; lia.
Qed.

Lemma trans_ok r r' : trans r r' → run_ok r → run_ok r'.
Proof.
  intros Ht Hok. pose proof Hok as [K1 K2 K3 K4 K5 K6 K7 K8 K9 K10].
  destruct Ht as [now r' [Hv Hc] Hs Hm Hst|now r' [Hv Hc] Hs Hst
    |now o r' [Hv Hc] Hs Hat Hix Htn Hcc Hex Hct Hst
    |now o l r' [Hv Hc] Hs Ho His Hoe Hle Hid Hat Hfe Hix Hct Hst
    |now o r' [Hv Hc] Hs Ho Hex Hst|now r' [Hv Hc] Hs Hd Hst|now r' [Hv Hc] Hs Hd Hst
    |now l r' [Hv Hc] Hs Hl Hst]; eapply stamped_ok; try exact Hst; try done; clear Hst;
    unfold state_valid in K8; rewrite Hs in K8.
  - destruct K8 as [Ho Hl]. split; cbn; try done; [by apply next_cursor_lt|congruence..|].
    unfold state_valid. cbn. by rewrite Hs.
  - destruct K8 as [Ho Hl]. apply (checked_counter_Ok _ _ K10) in Hct. split; cbn; try done.
    + intros x [= <-]. unfold offer_valid. cbn. rewrite Hix, Hct.
      unfold current_candidate in Hcc. split_and!; try done; lia.
    + rewrite K9, Hl. done.
    + lia.
  - destruct K8 as [_ Hl]. assert (0 ≤ r.(highest_run_lease_epoch)) as H0 by (rewrite K9; case_decide; lia).
    apply (checked_counter_Ok _ _ H0) in Hct. rewrite K9, Hl, decide_True in Hct by done.
    destruct (K6 o Ho) as (V1 & V2 & V3 & V4 & V5 & V6 & V7 & V8). split; cbn; try done.
    intros x [= <-]. unfold lease_valid. cbn. rewrite Ho. cbn. rewrite Hix, Hfe, Hat, Hid. split_and!; try done; lia.
  - destruct K8 as [_ Hl]. split; cbn; try done; [|congruence].
    by destruct (decide (dispatch_mode (request r) = Failover)); [apply next_cursor_lt|].
  - destruct K8 as [_ Hl]. split; cbn; try done; congruence.
  - destruct K8 as [Ho Hl]. split; cbn; done || congruence.
  - split; cbn; try done.
Qed.

(** Requests are made by their constructor. *)
Definition request_made (q : RunRequest) : Prop :=
  ∃ t run req d1 d2 i conv ev pref caps mode pol polr g dl cr,
    new_request t run req d1 d2 i conv ev pref caps mode pol polr g dl cr = Ok q.

Lemma request_made_times q :
  request_made q → valid_time q.(created_at_millis) ∧ valid_time q.(queue_deadline_millis) ∧
  q.(created_at_millis) < q.(queue_deadline_millis).
Proof.
  intros (t & run & req & d1 & d2 & i & conv & ev & pref & caps & mode & pol & polr & g & dl & cr & H).
  unfold new_request in H. res_inv H. cbn. split_and!; [apply dec_stable; tauto..|lia].
Qed.

Definition reachable (r : AgentRun) : Prop :=
  ∃ q cs r0 ops, request_made q ∧ create q cs = Ok r0 ∧ r = run_all step ops r0.

Lemma run_create_ok q cs r : request_made q → create q cs = Ok r → run_ok r.
Proof.
  intros Hq H. destruct (request_made_times q Hq) as (H1 & H2 & H3). unfold create in H. res_inv H.
  destruct x. split; cbn; try done. unfold validate_candidates in Hres.
  apply result_bind_Ok in Hres as (? & Hne & _). res_inv Hne. destruct cs; cbn; [tauto|lia].
Qed.

Lemma run_step_ok o r : run_ok r → run_ok (step o r).
Proof. intros Hok. destruct (step_trans o r) as [->|Ht]; [done|]. by eapply trans_ok. Qed.

Lemma reachable_run_ok r : reachable r → run_ok r.
Proof.
  intros (q & cs & r0 & ops & Hq & Hr & ->). apply run_all_inv; [intros; by apply run_step_ok|by eapply run_create_ok].
Qed.

(** The index of [current_candidate] is in range. *)
Lemma current_candidate_exists r : reachable r → is_Some (current_candidate r).
Proof. intros Hr%reachable_run_ok. apply lookup_lt_is_Some_2, Hr. Qed.

(** Every reachable run passes the validation of its durable image and is
    restored exactly, also after an operation that failed because the revision
    counter was exhausted. *)
Theorem reachable_run_loads r : reachable r → try_from_snapshot (snapshot r) = Ok r.
Proof.
  intros [K1 K2 K3 K4 K5 K6 K7 K8 K9 K10]%reachable_run_ok.
  assert (AgentRun_eta r = r) as Heta by (by destruct r). unfold snapshot. rewrite Heta.
  unfold try_from_snapshot. rewrite K1. cbn. ok_step; [intros [?|[?|[?|[?|?]]]]; [lia..|done]|].
  unfold validate_state_image. rewrite decide_True; [by rewrite Heta|].
  split_and!; [| |done].
  - destruct (current_offer r) as [o|]; cbn; [|done]. auto.
  - destruct (current_lease r) as [l|]; cbn; [|done]. auto.
Qed.

(** ** One execution lease *)

Lemma trans_keeps_lease r r' l : run_ok r → trans r r' → r.(current_lease) = Some l →
  r'.(current_lease) = Some l ∧ r'.(highest_offer_attempt) = r.(highest_offer_attempt) ∧
  r'.(highest_run_lease_epoch) = r.(highest_run_lease_epoch) ∧
  r'.(candidate_cursor) = r.(candidate_cursor).
Proof.
  intros Hok Ht Hl. pose proof (ru_state _ Hok) as K8. unfold state_valid in K8.
  destruct Ht as [now r' _ Hs _ Hst|now r' _ Hs Hst|now o r' _ Hs _ _ _ _ _ _ Hst
    |now o l' r' _ Hs _ _ _ _ _ _ _ _ _ Hst|now o r' _ Hs _ _ Hst|now r' _ Hs _ Hst|now r' _ Hs _ Hst
    |now l' r' _ Hs _ Hst]; rewrite Hs in K8; destruct K8 as [_ K8]; try congruence.
  destruct Hst as [[_ ->]|[_ ->]]; done.
Qed.

(** C18. A run is executed under at most one lease.  Once a lease was granted it
    is the current lease of every later state, whatever is offered, claimed,
    skipped or timed out afterwards; no further offer is made, the candidate does
    not change, and the lease has epoch 1, the highest ever issued. *)
Theorem single_execution_lease r l ops :
  reachable r → r.(current_lease) = Some l →
  let later := run_all step ops r in
  later.(current_lease) = Some l ∧ later.(highest_offer_attempt) = r.(highest_offer_attempt) ∧
  later.(candidate_cursor) = r.(candidate_cursor) ∧ l.(epoch) = 1 ∧ later.(highest_run_lease_epoch) = 1.
Proof.
  intros Hok%reachable_run_ok Hl later.
  assert (run_ok later ∧ later.(current_lease) = Some l ∧
    later.(highest_offer_attempt) = r.(highest_offer_attempt) ∧
    later.(candidate_cursor) = r.(candidate_cursor)) as (Hlok & Hll & Ha & Hc).
  { unfold later. apply run_all_inv; [|done]. intros o s _ (Hs & H1 & H2 & H3).
    destruct (step_trans o s) as [->|Ht]; [done|]. destruct (trans_keeps_lease s _ l Hs Ht H1) as (? & ? & _ & ?).
    split_and!; try congruence. by eapply trans_ok. }
  split_and!; try done.
  - destruct (ru_lease _ Hok l Hl) as (_ & _ & _ & _ & ? & He & _). 
    rewrite (ru_epoch _ Hok), decide_False in He by (by rewrite Hl). lia.
  - rewrite (ru_epoch _ Hlok), Hll. done.
Qed.

(** ** Settling *)

Definition settled (r : AgentRun) : Prop := r.(state) = Expired ∨ r.(state) = ReconcileRequired.

Lemma trans_not_settled r r' : trans r r' → ¬ settled r.
Proof. intros Ht [Hs|Hs]; destruct Ht; congruence. Qed.

(** A run that expired or needs reconciliation is final: no operation, at any
    instant and with any arguments, changes anything of it. *)
Theorem settled_is_final r ops : settled r → run_all step ops r = r.
Proof.
  intros Hs. apply (run_all_inv step (λ r', r' = r)); [|done]. intros o s _ ->.
  destruct (step_trans o r) as [->|Ht]; [done|]. by apply trans_not_settled in Ht.
Qed.

(** The operation of the sweeper that fits the state. *)
Definition sweep (now : Z) (r : AgentRun) : AgentRun :=
  match r.(state) with
  | Queued => step (OpExpireQueue now) r
  | Offered => step (OpExpireOffer now) r
  | Leased => step (OpExpireLease now) r
  | _ => r
  end.

(** When the sweeper can settle a run for good. *)
Definition due (r : AgentRun) (now : Z) : Prop :=
  clock_at r now ∧ r.(request).(queue_deadline_millis) ≤ now ∧
  none_or r.(current_lease) (λ l, l.(lease_expires_at_millis) ≤ now).

Lemma due_time r now u : clock_at r now → ensure_time r now = Ok u.
Proof. intros [Hv Hc]. unfold ensure_time. rewrite decide_True by (split; [done|lia]). by destruct u. Qed.

Lemma exec_advance_state now r : (exec (advance now) r).(state) = r.(state).
Proof. destruct (advance_stamped now r) as [[_ ->]|[_ ->]]; done. Qed.

(** C19. Every run is settled by one sweep once its queue deadline, and the lease
    if it has one, has passed: no reachable state is left in which it waits for
    ever. *)
Theorem sweep_settles r now : reachable r → due r now → settled (sweep now r).
Proof.
  intros Hok%reachable_run_ok (Hc & Hd & Hl). pose proof (ru_state _ Hok) as Hs. unfold state_valid in Hs.
  unfold sweep, settled. destruct (state r) eqn:Hst; cbn [step]; [..|by right|by left].
  - unfold expire_queue. rewrite exec_get, exec_lift, (due_time r now tt Hc), exec_lift.
    rewrite (proj2 (reject_if_Ok _ _ tt)) by (intros [?|?]; [done|lia]).
    rewrite exec_modify, exec_advance_state. by left.
  - destruct Hs as [[o Ho] _]. destruct (ru_offer _ Hok o Ho) as (_ & _ & _ & _ & _ & _ & _ & He).
    unfold expire_offer. rewrite exec_get, exec_lift, (due_time r now tt Hc), exec_lift, Ho. cbn [ok_or].
    rewrite exec_lift, (proj2 (reject_if_Ok _ _ tt)) by (intros [?|?]; [done|lia]).
    rewrite exec_modify, decide_True by lia. rewrite exec_modify.
    rewrite exec_readonly_tail by (intros ? ?; reflexivity). rewrite exec_advance_state. by left.
  - destruct Hs as [_ [l Hll]]. rewrite Hll in Hl. cbn in Hl.
    unfold expire_lease. rewrite exec_get, exec_lift, (due_time r now tt Hc), exec_lift, Hll. cbn [ok_or].
    rewrite exec_lift, (proj2 (reject_if_Ok _ _ tt)) by (intros [?|?]; [done|lia]).
    rewrite exec_modify, exec_advance_state. by right.
Qed.
End RunProps.
