(* ===== verification/AgentRoutes.v ===== *)
(** * Routes: from the binding registry to a run

    The routes that a reachable registry offers are in strict priority order and
    belong to active devices; the plan the router resolves from it is accepted
    by [AgentRun::create]. *)

From S2P Require Import Prelude Domain AgentHost AgentRegistry Connector BindingSet BindingInv BindingReconfigure BindingReload AgentRouter AgentRunInv AgentRunProps.

(** ** Sorted lists *)

Lemma StronglySorted_strict {A} (le lt : A → A → Prop) l :
  StronglySorted le l → NoDup l → (∀ x y, x ∈ l → y ∈ l → le x y → x ≠ y → lt x y) → StronglySorted lt l.
Proof.
  intros Hs Hnd Hlt. induction Hs as [|x l Hs IH Hx]; [constructor|].
  apply NoDup_cons in Hnd as [Hn Hnd]. constructor; [apply IH; set_solver|].
  rewrite Forall_forall in Hx |- *. intros y Hy. apply Hlt; [set_solver|set_solver|by apply Hx|]. by intros ->.
Qed.

Lemma StronglySorted_drop {A} (R : A → A → Prop) n l : StronglySorted R l → StronglySorted R (drop n l).
Proof.
  revert n. induction l as [|x l IH]; intros n Hs; [by destruct n|]. destruct n as [|n]; [done|].
  cbn. apply IH. by inversion Hs.
Qed.

Lemma fmap_lookup_inv_pair {A B} (f : A → B) (l : list A) i y :
  (f <$> l) !! i = Some y → ∃ x, y = f x ∧ x ∈ l.
Proof.
  rewrite list_lookup_fmap. intros (x & Hx & ->)%fmap_Some_1. exists x. split; [done|].
  by eapply list_elem_of_lookup_2.
Qed.

Module Routes.
Import Binding BindingInv BindingReload.

Definition enabled_of (s : BindingSet) (i : InstallationId) : list Binding :=
  filter (λ b, b.(installation_id) = i ∧ b.(state) = Enabled) (btree_values s.(bindings)).

Lemma elem_of_enabled s i b :
  set_ok s → b ∈ enabled_of s i ↔ recorded s b ∧ b.(installation_id) = i ∧ b.(state) = Enabled.
Proof. intros Hok. unfold enabled_of. rewrite list_elem_of_filter, elem_of_bindings by done. tauto. Qed.

Lemma enabled_distinct s i b b' :
  set_ok s → is_Some (s.(routing_policies) !! i) → b ∈ enabled_of s i → b' ∈ enabled_of s i →
  b.(priority) = b'.(priority) → b = b'.
Proof.
  intros Hok [p Hp] (Hb & Hi & Hs)%elem_of_enabled (Hb' & Hi' & Hs')%elem_of_enabled Hpr; [|done..].
  destruct (policy p) eqn:Hpp.
  - eapply (so_exclusive _ Hok); try done; congruence.
  - eapply (so_failover _ Hok); try done; congruence.
Qed.

Global Instance route_le_total : Total route_le.
Proof. intros b b'. apply (total ord_le). Qed.
Global Instance route_le_trans : Transitive route_le.
Proof. intros x y z. apply (transitivity (R := ord_le)). Qed.

Lemma key_le_priority (p p' : Z) (k k' : BindingId) : ord_le (p, k) (p', k') → p ≤ p'.
Proof.
  unfold ord_le. cbn. destruct (Z.compare_spec p p'); cbn; [lia..|]. done.
Qed.

(** The enabled bindings of an installation, sorted, are strictly sorted. *)
Lemma routes_sorted s i :
  set_ok s → is_Some (s.(routing_policies) !! i) →
  StronglySorted (λ b b', b.(priority) < b'.(priority)) (route_sort (enabled_of s i)).
Proof.
  intros Hok Hp. assert (Hperm : route_sort (enabled_of s i) ≡ₚ enabled_of s i) by apply merge_sort_Permutation.
  apply (StronglySorted_strict route_le).
  - apply StronglySorted_merge_sort; apply _.
  - rewrite Hperm. by apply NoDup_members.
  - intros b b'. rewrite Hperm. intros Hb Hb' Hle%key_le_priority Hne.
    assert (b.(priority) ≠ b'.(priority)); [|lia]. intros Heq. apply Hne. by eapply enabled_distinct.
Qed.

(** The routes of [eligible_route_order] on a reachable registry are exactly
    the enabled bindings of the installation, in strictly increasing priority,
    each with an active agent device of that installation; under the exclusive
    policy there is at most one. *)
Theorem eligible_routes s installation devices routes :
  BindingReload.reachable s → eligible_route_order s installation devices = Ok routes →
  installation.(Installation.desired_state) = Installation.Enabled ∧
  ∃ bs, routes = id <$> bs ∧ StronglySorted (λ b b', b.(priority) < b'.(priority)) bs ∧
    (∀ b, b ∈ bs ↔ recorded s b ∧ b.(installation_id) = installation.(Installation.installation_id) ∧
                   b.(state) = Enabled) ∧
    (∀ b, b ∈ bs → ∃ d, d ∈ devices ∧ d.(Device.device_id) = b.(agent_device_id) ∧
       d.(Device.installation_id) = b.(installation_id) ∧ d.(Device.state) = Device.Active) ∧
    (∀ p, s.(routing_policies) !! installation.(Installation.installation_id) = Some p →
       p.(policy) = Exclusive → (length bs ≤ 1)%nat).
Proof.
  intros Hok%reachable_set_ok H. unfold eligible_route_order in H. res_inv H.
  set (i := installation.(Installation.installation_id)) in *.
  assert (is_Some (s.(routing_policies) !! i)) as Hp by (by apply not_eq_None_Some).
  split; [by apply dec_stable|]. exists (route_sort (enabled_of s i)).
  assert (Hperm : route_sort (enabled_of s i) ≡ₚ enabled_of s i) by apply merge_sort_Permutation.
  split_and!; [done|by apply routes_sorted| | |].
  - intros b. rewrite Hperm. by apply elem_of_enabled.
  - intros b. rewrite Hperm. intros Hb.
    match goal with H : try_fold _ _ tt = Ok _ |- _ => pose proof (try_fold_unit_inv _ _ _ H b Hb) as Hd end.
    cbn in Hd. apply result_bind_Ok in Hd as (d & Hd & Hv). apply ok_or_Ok, fmap_Some_1 in Hd as ([k d'] & Hf & ->).
    apply list_find_Some in Hf as (Hk & Hid & _). exists d'. split; [by eapply list_elem_of_lookup_2|].
    unfold validate_current_entities in Hv. res_inv Hv. cbn in *.
    split_and!; [done|apply dec_stable; tauto|by apply dec_stable].
  - intros p Hpi Hex. rewrite Hperm. apply length_le_1; [by apply NoDup_members|].
    intros b b' (Hx & Hxi & Hxs)%elem_of_enabled (Hy & Hyi & Hys)%elem_of_enabled; [|done..].
    eapply (so_exclusive _ Hok); try done; congruence.
Qed.

(** ** The plan *)

Definition candidate_of (b : Binding) : Router.RouteCandidate :=
  {| Router.cand_binding_id := b.(id); Router.cand_connector_id := b.(connector_id);
     Router.cand_priority := b.(priority); Router.cand_max_concurrency := b.(max_concurrency) |}.

Lemma collect_candidates_Ok bs acc cs :
  try_fold Router.collect_candidate bs acc = Ok cs →
  cs = acc ++ (candidate_of <$> bs) ∧ ∀ b, b ∈ bs → b.(max_concurrency) ≠ 0.
Proof.
  revert acc. induction bs as [|b bs IH]; intros acc; cbn.
  { intros [= <-]. by rewrite app_nil_r; set_solver. }
  destruct (Router.collect_candidate acc b) as [acc'|] eqn:Hc; [|done]. intros H.
  apply IH in H as [-> Hall]. unfold Router.collect_candidate, Router.new_candidate in Hc. res_inv Hc.
  rewrite <-(assoc_L (++)). split; [done|]. set_solver.
Qed.

Global Instance cand_le_total : Total Router.cand_le.
Proof. intros c c'. apply (total ord_le). Qed.
Global Instance cand_le_trans : Transitive Router.cand_le.
Proof. intros x y z. apply (transitivity (R := ord_le)). Qed.

(** What makes a candidate list acceptable. *)
Record candidates_fit (mode : Router.DispatchMode) (cs : list Router.RouteCandidate) : Prop := {
  cf_bindings : NoDup (Router.cand_binding_id <$> cs);
  cf_connectors : NoDup (Router.cand_connector_id <$> cs);
  cf_capacity : ∀ c, c ∈ cs → c.(Router.cand_max_concurrency) ≠ 0;
  cf_sorted : mode = Router.Failover →
    StronglySorted (λ c c', c.(Router.cand_priority) < c'.(Router.cand_priority)) cs
}.

Lemma StronglySorted_last {A} (R : A → A → Prop) l x y :
  StronglySorted R (l ++ x :: y) → ∀ z, z ∈ l → R z x.
Proof. intros Hs z Hz. apply StronglySorted_app in Hs as (H & _). apply H; set_solver. Qed.

Lemma check_candidates_Ok mode cs :
  candidates_fit mode cs →
  ∃ scan, try_fold (Router.check_candidate mode) cs (Router.MkCandidateScan ∅ ∅ None) = Ok scan.
Proof.
  intros [Hb Hc Hm Hs].
  destruct (try_fold_total (Router.check_candidate mode) (λ scan pre,
    scan.(Router.seen_bindings) = list_to_set (Router.cand_binding_id <$> pre) ∧
    scan.(Router.seen_connectors) = list_to_set (Router.cand_connector_id <$> pre) ∧
    scan.(Router.previous_priority) = Router.cand_priority <$> last pre)
    cs (Router.MkCandidateScan ∅ ∅ None)) as (scan & Hrun & _); [done| |by eauto].
  intros pre c post [sb sc pp] -> (H1 & H2 & H3). cbn in *. subst. eexists. split.
  - unfold Router.check_candidate. ok_step; [|reflexivity]. cbn [Router.seen_bindings Router.seen_connectors Router.previous_priority].
    rewrite !elem_of_list_to_set. rewrite !fmap_app in *. apply NoDup_app in Hb as (_ & Hb & _), Hc as (_ & Hc & _).
    intros [Hz|[Hin|[Hin|[Hmode Hle]]]].
    + revert Hz. apply Hm. set_solver.
    + apply (Hb _ Hin). set_solver.
    + apply (Hc _ Hin). set_solver.
    + destruct (last pre) as [z|] eqn:Hl; [|done]. cbn in Hle.
      assert (z.(Router.cand_priority) < c.(Router.cand_priority)); [|lia].
      apply (StronglySorted_last _ pre c post (Hs Hmode)). apply last_Some in Hl as [? ->]. set_solver.
  - cbn. rewrite !fmap_app, !list_to_set_app_L, last_snoc. cbn. split_and!; [set_solver|set_solver|done].
Qed.

(** The sorted candidates of an installation. *)
Lemma planned_candidates_fit s i mode :
  set_ok s → is_Some (s.(routing_policies) !! i) →
  (∀ b, b ∈ enabled_of s i → b.(max_concurrency) ≠ 0) →
  candidates_fit mode (merge_sort Router.cand_le (candidate_of <$> enabled_of s i)).
Proof.
  intros Hok Hp Hm. set (cs := candidate_of <$> enabled_of s i).
  assert (Hperm : merge_sort Router.cand_le cs ≡ₚ cs) by apply merge_sort_Permutation.
  assert (Hnd : NoDup (enabled_of s i)) by (by apply NoDup_members).
  assert (Hcb : NoDup (Router.cand_binding_id <$> cs)).
  { unfold cs. rewrite <-list_fmap_compose. apply NoDup_fmap_inj; [done|].
    intros x y (Hx & _)%elem_of_enabled (Hy & _)%elem_of_enabled Hxy; [|done..]. unfold recorded in *. cbn in Hxy. congruence. }
  split.
  - by rewrite Hperm.
  - rewrite Hperm. unfold cs. rewrite <-list_fmap_compose. apply NoDup_fmap_inj; [done|].
    intros x y (Hx & Hxi & _)%elem_of_enabled (Hy & Hyi & _)%elem_of_enabled Hxy; [|done..].
    apply (so_pairs _ Hok); [done|done|congruence|done].
  - intros c. rewrite Hperm. unfold cs. intros (b & -> & Hb)%list_elem_of_fmap. by apply Hm.
  - intros _. apply (StronglySorted_strict Router.cand_le).
    + apply StronglySorted_merge_sort; apply _.
    + rewrite Hperm. by eapply NoDup_fmap_1.
    + intros c c'. rewrite Hperm. unfold cs.
      intros (b & -> & Hb)%list_elem_of_fmap (b' & -> & Hb')%list_elem_of_fmap Hle%key_le_priority Hne.
      cbn in *. assert (b.(priority) ≠ b'.(priority)); [|lia]. intros Heq. apply Hne. f_equal. by eapply enabled_distinct.
Qed.

Lemma elem_of_drop_list {A} n (l : list A) x : x ∈ drop n l → x ∈ l.
Proof. intros Hx. rewrite <-(take_drop n l). set_solver. Qed.

Lemma candidates_fit_drop mode n cs : candidates_fit mode cs → candidates_fit mode (drop n cs).
Proof.
  intros [Hb Hc Hm Hs]. split.
  - rewrite fmap_drop. eapply sublist_NoDup; [done|apply sublist_drop].
  - rewrite fmap_drop. eapply sublist_NoDup; [done|apply sublist_drop].
  - intros c Hin. by apply Hm, (elem_of_drop_list n).
  - intros He. by apply StronglySorted_drop, Hs.
Qed.

Lemma candidates_fit_one mode cs c : candidates_fit mode cs → c ∈ cs → candidates_fit mode [c].
Proof.
  intros [_ _ Hm _] Hc. split; [apply NoDup_singleton..| |].
  - intros x ->%list_elem_of_singleton. by apply Hm.
  - intros _. repeat constructor.
Qed.

(** The candidates that remain after the preference was applied. *)
Lemma chosen_candidates mode sorted from c (cs : list Router.RouteCandidate) :
  candidates_fit mode sorted → sorted !! from = Some c → (length sorted ≤ Router.MAX_ROUTE_CANDIDATES)%nat →
  cs = match mode with
       | Router.SingleDispatch => option_list (sorted !! from)
       | Router.Failover => drop from sorted
       end →
  candidates_fit mode cs ∧ head cs = Some c ∧ (∀ x, x ∈ cs → x ∈ sorted) ∧
  (length cs ≤ Router.MAX_ROUTE_CANDIDATES)%nat ∧ (mode = Router.SingleDispatch → length cs = 1%nat).
Proof.
  intros Hfit Hc Hlen ->. destruct mode.
  - rewrite Hc. cbn. assert (c ∈ sorted) as Hin by (by eapply list_elem_of_lookup_2).
    split_and!; [by eapply candidates_fit_one|done| |unfold Router.MAX_ROUTE_CANDIDATES; lia|done].
    by intros x ->%list_elem_of_singleton.
  - split_and!; [by apply candidates_fit_drop| |apply elem_of_drop_list| |done].
    + by rewrite head_lookup, lookup_drop, Nat.add_0_r.
    + rewrite length_drop. lia.
Qed.

Lemma create_fits q cs c :
  candidates_fit q.(Router.dispatch_mode) cs → head cs = Some c →
  (length cs ≤ Router.MAX_ROUTE_CANDIDATES)%nat →
  (q.(Router.dispatch_mode) = Router.SingleDispatch → length cs = 1%nat) →
  (q.(Router.dispatch_mode) = Router.Failover → q.(Router.routing_policy) = OrderedFailover) →
  (∀ p, q.(Router.preferred_connector_id) = Some p → c.(Router.cand_connector_id) = p) →
  ∃ r, Router.create q cs = Ok r.
Proof.
  intros Hfit Hhd Hlen Hone Hpol Hpref. destruct (check_candidates_Ok _ _ Hfit) as [scan Hscan].
  assert (Router.validate_candidates q cs = Ok tt) as Hv.
  { unfold Router.validate_candidates. ok_step; [intros [->|?]; [done|lia]|].
    apply result_bind_Ok. exists tt. split.
    { destruct (Router.dispatch_mode q); [apply reject_if_Ok; rewrite Hone; auto|]. by rewrite Hpol. }
    ok_step; [|by rewrite Hscan].
    rewrite Hhd. destruct (Router.preferred_connector_id q) as [p|]; cbn; [|by intros []].
    intros Hne. by apply Hne, Hpref. }
  unfold Router.create. rewrite Hv. cbn. eauto.
Qed.

(** The plan that the router resolves from a reachable binding registry is
    accepted by [AgentRun::create] for every request with the same dispatch mode
    and preference and the policy of the plan.  Its candidates are enabled
    bindings of the installation with distinct connectors, in strictly increasing
    priority for failover, exactly one for single dispatch, and start with the
    preferred connector if there is one. *)
Theorem resolved_plan_is_accepted s tenant i pref mode plan q :
  BindingReload.reachable s → Router.resolve_route_plan s tenant i pref mode = Ok plan →
  q.(Router.dispatch_mode) = mode → q.(Router.preferred_connector_id) = pref →
  q.(Router.routing_policy) = plan.(Router.plan_routing_policy) →
  (∃ r, Router.create q plan.(Router.plan_candidates) = Ok r) ∧
  candidates_fit mode plan.(Router.plan_candidates) ∧
  (∀ c, c ∈ plan.(Router.plan_candidates) → ∃ b, recorded s b ∧ b.(installation_id) = i ∧
     b.(state) = Enabled ∧ c = candidate_of b) ∧
  (∀ p, pref = Some p → Router.cand_connector_id <$> head plan.(Router.plan_candidates) = Some p).
Proof.
  intros Hok%reachable_set_ok H Hmode Hpref Hpol. unfold Router.resolve_route_plan in H.
  apply result_bind_Ok in H as (? & _ & H). apply result_bind_Ok in H as ([k pol] & Hfind & H).
  apply ok_or_Ok, list_find_Some in Hfind as (Hk & Hinst & _).
  apply fmap_lookup_inv_pair in Hk as (p & -> & Hp). cbn in Hinst. destruct p as [i' p].
  cbn in *. subst i'. apply elem_of_btree_iter in Hp.
  apply result_bind_Ok in H as (? & Hmm & H). res_inv Hmm. cbn in Hmm.
  rewrite (list_fmap_self Binding_eta) in H by (by intros []). fold (enabled_of s i) in H.
  apply result_bind_Ok in H as (cands & Hcs & H). apply collect_candidates_Ok in Hcs as [-> Hcap]. rewrite app_nil_l in H.
  pose proof (planned_candidates_fit s i mode Hok (mk_is_Some _ _ Hp) Hcap) as Hfit.
  set (sorted := merge_sort Router.cand_le (candidate_of <$> enabled_of s i)) in *.
  apply result_bind_Ok in H as (? & Hlen & H). res_inv Hlen.
  apply result_bind_Ok in H as (pi & Hpi & H). injection H as <-. cbn [Router.plan_candidates Router.plan_routing_policy] in *.
  assert (∃ c, sorted !! default 0%nat pi = Some c ∧
    ∀ p, pref = Some p → c.(Router.cand_connector_id) = p) as (c & Hc & Hcp).
  { destruct pref as [pr|].
    - destruct (ok_or _ _) as [j|] eqn:Hj in Hpi; [|done]. injection Hpi as <-.
      apply ok_or_Ok, fmap_Some_1 in Hj as ([j' c] & Hf & ->). apply list_find_Some in Hf as (Hj & Hcc & _).
      exists c. cbn. split; [done|]. by intros ? [= <-].
    - injection Hpi as <-. destruct sorted as [|c ?]; [tauto|]. exists c. split; [done|]. discriminate. }
  destruct (chosen_candidates mode sorted (default 0%nat pi) c _ Hfit Hc ltac:(lia) eq_refl) as (F1 & F2 & F3 & F4 & F5).
  split_and!.
  - eapply create_fits; rewrite ?Hmode; try done.
    + intros ->. rewrite Hpol. apply dec_stable. tauto.
    + rewrite Hpref. done.
  - done.
  - intros y Hy%F3. unfold sorted in Hy. rewrite merge_sort_Permutation in Hy.
    apply list_elem_of_fmap in Hy as (b & -> & Hb). apply elem_of_enabled in Hb; [|done]. naive_solver.
  - intros pr Hpr. rewrite F2. cbn. by rewrite (Hcp pr Hpr).
Qed.
End Routes.
