(* ===== verification/RouterDemo.v ===== *)
(** * Bindings, routes and runs: worked examples

    An installation bound to two connectors in failover order, the plan resolved
    from its registry, and the run created from the plan: offered to the first
    connector, timed out, offered to the second and leased there.  The theorems
    on registries, routes and runs are applied to them. *)

From S2P Require Import Prelude Domain AgentHost AgentRegistry Connector ConnectorInv ConnectorSteps ConnectorDemo BindingSet BindingInv BindingReconfigure BindingReload AgentRouter AgentRunInv AgentRunProps AgentRoutes.

Module RouterDemo.
Import ConnectorDemo.

(** ** A registry *)

Definition installation : Installation.AgentInstallation :=
  Installation.new tenant (UuidV7 40) (MkPublicId (replicate 32 8)) owner
    Installation.ConnectorManaged Revision.INITIAL (MkDescriptorDigest (replicate 32 9)).

Definition active_device (n : Z) : Device.AgentDevice :=
  {| Device.tenant_id := tenant; Device.installation_id := UuidV7 40; Device.device_id := UuidV7 n;
     Device.identity_device_id := UuidV7 (n + 10); Device.credential_fingerprint := MkFingerprint (replicate 32 n);
     Device.state := Device.Active; Device.revision := 2 |}.

(** The device is what enrolment and activation give. *)
Lemma active_device_reachable n : Device.reachable (active_device n).
Proof.
  assert (exec (Device.apply installation 1 Device.Activate)
    {| Device.tenant_id := tenant; Device.installation_id := UuidV7 40; Device.device_id := UuidV7 n;
       Device.identity_device_id := UuidV7 (n + 10); Device.credential_fingerprint := MkFingerprint (replicate 32 n);
       Device.state := Device.Provisioning; Device.revision := 1 |} = active_device n) as <- by reflexivity.
  apply Device.reachable_apply, (Device.reachable_enroll installation (UuidV7 n) (UuidV7 (n + 10))
    (MkFingerprint (replicate 32 n))). reflexivity.
Qed.

Definition second_connector : Connector :=
  ltac:(let r := eval vm_compute in (register host (UuidV7 4) Codex 2) in
        match r with Ok ?c => exact c end).

Lemma second_reachable : reachable second_connector.
Proof. exists host, (UuidV7 4), Codex, 2, second_connector, []. split_and!; [reflexivity|constructor|reflexivity]. Qed.

Definition binding_ref (n : Z) : Binding.TenantRef BindingId := Binding.MkRef tenant (UuidV7 n).
Definition installation_ref : Binding.TenantRef InstallationId := Binding.MkRef tenant (UuidV7 40).
Definition multi : Binding.AdapterConformance := Binding.trusted_multi_session Codex 1.

Definition setup : list BindingReload.BindingOp :=
  [BindingReload.OpRegister running multi; BindingReload.OpRegister second_connector multi;
   BindingReload.OpCreate (binding_ref 60) installation (active_device 50) running 1 3 Binding.OrderedFailover;
   BindingReload.OpCreate (binding_ref 61) installation (active_device 51) second_connector 2 2 Binding.OrderedFailover;
   BindingReload.OpEnable (binding_ref 60) 1 installation (active_device 50);
   BindingReload.OpEnable (binding_ref 61) 1 installation (active_device 51)].

Definition registry : Binding.BindingSet := run_all BindingReload.step setup (Binding.new tenant).

Lemma registry_reachable : BindingReload.reachable registry.
Proof.
  exists tenant, setup. split; [|reflexivity].
  repeat constructor; [exact running_reachable|exact second_reachable].
Qed.

Lemma reachable_bindings_load_witness :
  BindingReload.reachable registry ∧ Binding.try_from_snapshot (Binding.snapshot registry) = Ok registry.
Proof.
  split; [exact registry_reachable|].
  apply (BindingReload.reachable_bindings_load registry), registry_reachable.
Defined.

(** Both bindings with the same priority: the conflict is found after the updates
    were collected. *)
Definition clash : list Binding.PriorityUpdate := [(binding_ref 60, 2, 7); (binding_ref 61, 2, 7)].

Lemma reconfigure_atomic_witness :
  ∃ s', Binding.reconfigure_routing_policy installation_ref 1 Binding.OrderedFailover clash registry
        = (Err Binding.PriorityConflict, s') ∧ s' = registry.
Proof.
  destruct (Binding.reconfigure_routing_policy installation_ref 1 Binding.OrderedFailover clash registry)
    as [r s'] eqn:Hrun.
  assert (r = Err Binding.PriorityConflict) as ->.
  { change r with (r, s').1. rewrite <-Hrun. vm_compute. reflexivity. }
  exists s'. split; [reflexivity|].
  apply (BindingReconfigure.reconfigure_atomic _ _ _ _ _ _ _ Hrun).
Defined.

Definition devices : list Device.AgentDevice := [active_device 51; active_device 50].

Lemma eligible_routes_witness :
  ∃ bs, [UuidV7 60; UuidV7 61] = Binding.id <$> bs ∧
    StronglySorted (λ b b', b.(Binding.priority) < b'.(Binding.priority)) bs.
Proof.
  assert (Binding.eligible_route_order registry installation devices = Ok [UuidV7 60; UuidV7 61]) as H
    by (vm_compute; reflexivity).
  destruct (Routes.eligible_routes registry installation devices _ registry_reachable H)
    as (_ & bs & Hbs & Hsorted & _).
  exists bs. split; [exact Hbs|exact Hsorted].
Defined.

(** ** A plan and its run *)

Definition request : Router.RunRequest :=
  ltac:(let r := eval vm_compute in
          (Router.new_request tenant (UuidV7 70) (UuidV7 71) (replicate 32 1) (replicate 32 2) (UuidV7 40)
             (UuidV7 72) (UuidV7 73) None [] Router.Failover Binding.OrderedFailover 1 1 5000 1000) in
        match r with Ok ?q => exact q end).

Lemma request_is_made : RunProps.request_made request.
Proof.
  exists tenant, (UuidV7 70), (UuidV7 71), (replicate 32 1), (replicate 32 2), (UuidV7 40), (UuidV7 72), (UuidV7 73).
  exists None, [], Router.Failover, Binding.OrderedFailover, 1, 1, 5000, 1000. reflexivity.
Qed.

Definition plan : Router.RoutePlan :=
  ltac:(let r := eval vm_compute in
          (Router.resolve_route_plan registry tenant (UuidV7 40) None Router.Failover) in
        match r with Ok ?p => exact p end).

Lemma resolved_plan_is_accepted_witness :
  Router.resolve_route_plan registry tenant (UuidV7 40) None Router.Failover = Ok plan ∧
  ∃ r, Router.create request plan.(Router.plan_candidates) = Ok r.
Proof.
  assert (Router.resolve_route_plan registry tenant (UuidV7 40) None Router.Failover = Ok plan) as H
    by (vm_compute; reflexivity).
  split; [exact H|].
  refine (proj1 (Routes.resolved_plan_is_accepted registry tenant (UuidV7 40) None Router.Failover plan request
    registry_reachable H _ _ _)); reflexivity.
Defined.

Definition queued : Router.AgentRun :=
  ltac:(let r := eval vm_compute in (Router.create request plan.(Router.plan_candidates)) in
        match r with Ok ?p => exact p end).

Definition run_fence (c : ConnectorId) : Router.ConnectorLeaseFence :=
  {| Router.clf_tenant_id := tenant; Router.clf_connector_id := c; Router.clf_boot_id := boot 20;
     Router.clf_connector_generation := 1; Router.clf_connector_lease_id := lease 30;
     Router.clf_connector_lease_epoch := 1 |}.

(** The first connector lets its offer pass, the second claims. *)
Definition dispatch : list RunInv.RunOp :=
  [RunInv.OpOffer (UuidV7 80) (run_fence (UuidV7 3)) 1100 1200; RunInv.OpExpireOffer 1300;
   RunInv.OpOffer (UuidV7 81) (run_fence (UuidV7 4)) 1400 2000;
   RunInv.OpClaim (UuidV7 81) 2 (run_fence (UuidV7 4)) (UuidV7 90) 1500 6000].

Definition leased : Router.AgentRun := run_all RunInv.step dispatch queued.

Lemma leased_reachable : RunProps.reachable leased.
Proof.
  exists request, plan.(Router.plan_candidates), queued, dispatch.
  split_and!; [exact request_is_made|reflexivity|reflexivity].
Qed.

Lemma reachable_run_loads_witness :
  RunProps.reachable leased ∧ Router.try_from_snapshot (Router.snapshot leased) = Ok leased.
Proof.
  split; [exact leased_reachable|]. apply (RunProps.reachable_run_loads leased), leased_reachable.
Defined.

Definition granted : Router.RunLease :=
  ltac:(let r := eval vm_compute in leased.(Router.current_lease) in match r with Some ?l => exact l end).

(** Another offer and another claim are refused. *)
Definition intruder : list RunInv.RunOp :=
  [RunInv.OpOffer (UuidV7 82) (run_fence (UuidV7 3)) 1600 2000;
   RunInv.OpClaim (UuidV7 82) 3 (run_fence (UuidV7 3)) (UuidV7 91) 1700 6000].

Lemma single_execution_lease_witness :
  leased.(Router.current_lease) = Some granted ∧
  (run_all RunInv.step intruder leased).(Router.current_lease) = Some granted ∧ granted.(Router.epoch) = 1.
Proof.
  assert (leased.(Router.current_lease) = Some granted) as Hl by (vm_compute; reflexivity).
  split; [exact Hl|].
  destruct (RunProps.single_execution_lease leased granted intruder leased_reachable Hl) as (H1 & _ & _ & H2 & _).
  split; [exact H1|exact H2].
Defined.

Lemma sweep_settles_witness : RunProps.due leased 7000 ∧ RunProps.settled (RunProps.sweep 7000 leased).
Proof.
  assert (RunProps.due leased 7000) as Hd.
  { split; [|split]; [|vm_compute; discriminate|vm_compute; discriminate].
    split; [|vm_compute; discriminate]. apply (bool_decide_unpack _). vm_compute. exact I. }
  split; [exact Hd|]. apply (RunProps.sweep_settles leased 7000 leased_reachable Hd).
Defined.

Definition reconciled : Router.AgentRun := RunProps.sweep 7000 leased.

Lemma settled_is_final_witness :
  RunProps.settled reconciled ∧ run_all RunInv.step (dispatch ++ intruder) reconciled = reconciled.
Proof.
  assert (RunProps.settled reconciled) as Hs by (right; vm_compute; reflexivity).
  split; [exact Hs|]. apply (RunProps.settled_is_final reconciled (dispatch ++ intruder) Hs).
Defined.

(** ** What the loader lets through *)

(** A queued run that claims to have issued a lease before. *)
Definition image : Router.AgentRun := queued <| Router.highest_run_lease_epoch := 5 |>.

(** The loader of a run accepts an image that no sequence of operations
    produces: a run that is queued, and so was never leased, with a positive
    highest lease epoch.  The next lease then gets an epoch above 1. *)
Theorem loader_accepts_unreachable_run :
  ∃ s r, Router.try_from_snapshot s = Ok r ∧ ¬ RunProps.reachable r ∧
    ∃ l, (run_all RunInv.step dispatch r).(Router.current_lease) = Some l ∧ l.(Router.epoch) > 1.
Proof.
  exists image, image. split_and!.
  - vm_compute. reflexivity.
  - intros Hr%RunProps.reachable_run_ok%RunProps.ru_epoch. vm_compute in Hr. discriminate Hr.
  - eexists. split; vm_compute; reflexivity.
Qed.
End RouterDemo.
