(* ===== verification/AgentGrants.v ===== *)
(** * Agent definitions and conversation grants

    Models [crates/dtx-agent-registry/src/definition.rs], the registry of
    immutable descriptor versions, and [grant.rs], the authority that an
    installation has in one conversation. *)

From S2P Require Import Prelude Domain AgentRegistry Connector.

Notation GrantId := (UuidV7Id KGrant).
Notation CloudConnectionId := (UuidV7Id KCloudConnection).

(** ** Definitions *)

Module Definitions.
Record VerifiedAgentDefinition : Type := {
  agent_id : AgentId;
  publisher_id : IdentityId;
  version : Revision;
  descriptor_hash : DescriptorDigest;
  expires_at_ms : Z
}.
Global Instance VerifiedAgentDefinition_eq_dec : EqDecision VerifiedAgentDefinition.
Proof. solve_decision. Defined.

Record AgentDefinitionRegistry : Type := {
  heads : gmap AgentId Revision;
  versions : gmap (AgentId * Revision) VerifiedAgentDefinition
}.

Definition AgentDefinitionRegistry_eta (r : AgentDefinitionRegistry) : AgentDefinitionRegistry :=
  {| heads := r.(heads); versions := r.(versions) |}.
Global Instance heads_field : Field heads := ltac:(field_of AgentDefinitionRegistry_eta heads).
Global Instance versions_field : Field versions :=
  ltac:(field_of AgentDefinitionRegistry_eta versions).

Inductive AgentDefinitionAdmission : Type :=
| Advanced (previous_version : option Revision) (current : VerifiedAgentDefinition)
| Duplicate (current : VerifiedAgentDefinition).

Inductive AgentDefinitionError : Type :=
| DescriptorExpired
| PublisherChanged
| VersionRegressed (current proposed : Revision)
| VersionContentConflict.

Inductive AgentDefinitionSnapshotError : Type :=
| DuplicateVersion
| SnapshotPublisherChanged
| MissingHead.

Definition new : AgentDefinitionRegistry := {| heads := ∅; versions := ∅ |}.

(** The snapshot is the list of the definitions, in key order. *)
Definition snapshot (self : AgentDefinitionRegistry) : list VerifiedAgentDefinition :=
  btree_values self.(versions).

Definition head (self : AgentDefinitionRegistry) (a : AgentId) : option VerifiedAgentDefinition :=
  v ← self.(heads) !! a; self.(versions) !! (a, v).

Definition version_count (self : AgentDefinitionRegistry) (a : AgentId) : nat :=
  length (filter (λ k, k.1 = a) (btree_iter self.(versions)).*1).

(** The body of the first loop of [try_from_snapshot]. *)
Definition load_definition (registry : AgentDefinitionRegistry) (d : VerifiedAgentDefinition) :
    result AgentDefinitionSnapshotError AgentDefinitionRegistry :=
  let key := (d.(agent_id), d.(version)) in
  reject DuplicateVersion when (is_Some (registry.(versions) !! key));;
  let registry := registry <| versions := <[key := d]> registry.(versions) |> in
  match head registry d.(agent_id) with
  | Some h =>
      if decide (h.(publisher_id) ≠ d.(publisher_id)) then Err SnapshotPublisherChanged
      else if decide (h.(version) > d.(version)) then Ok registry
      else Ok (registry <| heads := <[d.(agent_id) := d.(version)]> registry.(heads) |>)
  | None => Ok (registry <| heads := <[d.(agent_id) := d.(version)]> registry.(heads) |>)
  end.

(** The second loop: one publisher per agent. *)
Definition check_head (registry : AgentDefinitionRegistry) (_ : unit) (h : AgentId * Revision) :
    result AgentDefinitionSnapshotError unit :=
  top ← ok_or (registry.(versions) !! h) MissingHead;
  reject SnapshotPublisherChanged
    when (Exists (λ e, e.1.1 = h.1 ∧ e.2.(publisher_id) ≠ top.(publisher_id))
            (btree_iter registry.(versions))).

Definition try_from_snapshot (s : list VerifiedAgentDefinition) :
    result AgentDefinitionSnapshotError AgentDefinitionRegistry :=
  registry ← try_fold load_definition s new;
  try_fold (check_head registry) (btree_iter registry.(heads)) tt;;
  Ok registry.

Definition admit_definition (d : VerifiedAgentDefinition) (now_ms : Z) :
    ST AgentDefinitionRegistry AgentDefinitionError AgentDefinitionAdmission :=
  self ← get;
  match self.(versions) !! (d.(agent_id), d.(version)) with
  | Some existing =>
      if decide (existing = d) then mret (Duplicate existing) else throw VersionContentConflict
  | None =>
      lift (reject DescriptorExpired when (d.(expires_at_ms) ≤ now_ms));;
      let previous := head self d.(agent_id) in
      lift (match previous with
            | Some p =>
                reject PublisherChanged when (p.(publisher_id) ≠ d.(publisher_id));;
                reject (VersionRegressed p.(version) d.(version))
                  when (d.(version) < p.(version))
            | None => Ok tt
            end);;
      modify (λ self, self <| heads := <[d.(agent_id) := d.(version)]> self.(heads) |>);;
      modify (λ self, self <| versions :=
        <[(d.(agent_id), d.(version)) := d]> self.(versions) |>);;
      mret (Advanced (version <$> previous) d)
  end.

(** *** The invariant: heads are the latest versions, one publisher per agent *)

Record registry_ok (r : AgentDefinitionRegistry) : Prop := {
  ro_keys : ∀ k d, r.(versions) !! k = Some d → k = (d.(agent_id), d.(version));
  ro_head : ∀ a v, r.(heads) !! a = Some v → is_Some (r.(versions) !! (a, v));
  ro_top : ∀ d, r.(versions) !! (d.(agent_id), d.(version)) = Some d →
    ∃ v, r.(heads) !! d.(agent_id) = Some v ∧ d.(version) ≤ v;
  ro_publisher : ∀ d d', r.(versions) !! (d.(agent_id), d.(version)) = Some d →
    r.(versions) !! (d'.(agent_id), d'.(version)) = Some d' →
    d.(agent_id) = d'.(agent_id) → d.(publisher_id) = d'.(publisher_id)
}.

Lemma new_registry_ok : registry_ok new.
Proof. split; intros; rewrite ?lookup_empty in *; done. Qed.

Lemma head_Some r a h :
  registry_ok r → head r a = Some h ↔
  ∃ v, r.(heads) !! a = Some v ∧ r.(versions) !! (a, v) = Some h ∧ h.(agent_id) = a ∧ h.(version) = v.
Proof.
  intros Hok. unfold head. split.
  - intros (v & Hv & Hh)%bind_Some. exists v. apply (ro_keys _ Hok) in Hh as Hk. naive_solver.
  - intros (v & -> & Hh & _). exact Hh.
Qed.

Lemma no_head_no_version r d :
  registry_ok r → head r d.(agent_id) = None → r.(versions) !! (d.(agent_id), d.(version)) ≠ Some d.
Proof.
  intros Hok Hn Hd. destruct (ro_top _ Hok d Hd) as (v & Hv & _).
  destruct (ro_head _ Hok _ _ Hv) as [h Hh]. unfold head in Hn. rewrite Hv in Hn. cbn in Hn. congruence.
Qed.

(** Adding a version of the publisher of the head keeps the invariant. *)
Lemma extend_ok r d top :
  registry_ok r → r.(versions) !! (d.(agent_id), d.(version)) = None →
  (∀ h, head r d.(agent_id) = Some h → h.(publisher_id) = d.(publisher_id)) →
  top = match head r d.(agent_id) with Some h => Z.max h.(version) d.(version) | None => d.(version) end →
  registry_ok {| heads := <[d.(agent_id) := top]> r.(heads);
                 versions := <[(d.(agent_id), d.(version)) := d]> r.(versions) |}.
Proof.
  intros Hok Hnew Hpub Htop. pose proof Hok as [K1 K2 K3 K4].
  assert (Hsame : ∀ d', r.(versions) !! (d'.(agent_id), d'.(version)) = Some d' →
    d'.(agent_id) = d.(agent_id) → d'.(publisher_id) = d.(publisher_id) ∧
    ∃ h, head r d.(agent_id) = Some h ∧ d'.(version) ≤ h.(version)).
  { intros d' Hd' Ha. destruct (K3 d' Hd') as (v & Hv & Hle). rewrite Ha in Hv.
    destruct (K2 _ _ Hv) as [h Hh]. apply K1 in Hh as Hk. injection Hk as Hda ->.
    assert (head r d.(agent_id) = Some h) as Hhd.
    { apply head_Some; [done|]. exists (version h). by rewrite Hda in *. }
    split; [|eauto]. rewrite <-(Hpub h Hhd). apply K4; congruence. }
  split; cbn.
  - intros k e. rewrite lookup_insert_Some. intros [[<- <-]|[_ He]]; [done|by apply K1].
  - intros a v. rewrite lookup_insert_Some. intros [[<- <-]|[Hne Hv]].
    + destruct (head r (agent_id d)) as [h|] eqn:Hh; subst top; [|by rewrite lookup_insert_eq].
      apply head_Some in Hh as (v & Hv & Hh & Hha & <-); [|done].
      destruct (decide (version h ≤ version d)) as [?|?].
      * rewrite Z.max_r, lookup_insert_eq by done. done.
      * rewrite Z.max_l, lookup_insert_is_Some by lia. rewrite Hh. destruct (decide (version h = version d)); [lia|].
        right. split; [congruence|done].
    + rewrite lookup_insert_ne by congruence. by apply K2.
  - intros e. rewrite lookup_insert_Some. intros [[Hk <-]|[Hne He]].
    + rewrite lookup_insert_eq. exists top. split; [done|]. subst top. destruct (head _ _); lia.
    + destruct (decide (e.(agent_id) = d.(agent_id))) as [Ha|Ha].
      * rewrite Ha, lookup_insert_eq. exists top. split; [done|].
        destruct (Hsame e He Ha) as (_ & h & Hh & Hle). rewrite Hh in Htop. lia.
      * rewrite lookup_insert_ne by congruence. by apply K3.
  - intros e e'. rewrite !lookup_insert_Some. intros [[_ <-]|[_ He]] [[_ <-]|[_ He']] Haa; [done| | |by apply K4].
    + symmetry. by apply Hsame.
    + by apply Hsame.
Qed.

Lemma admit_atomic d now : atomic (admit_definition d now).
Proof.
  unfold admit_definition. apply atomic_bind_read; [apply readonly_get|]. intros r.
  destruct (versions r !! _); [case_decide; apply atomic_readonly; done|]. solve_atomic.
Qed.

Lemma admit_Ok d now r x r' :
  registry_ok r → admit_definition d now r = (Ok x, r') →
  r' = r ∨ registry_ok r' ∧ r.(versions) !! (d.(agent_id), d.(version)) = None ∧
    r'.(versions) = <[(d.(agent_id), d.(version)) := d]> r.(versions) ∧
    r'.(heads) = <[d.(agent_id) := d.(version)]> r.(heads) ∧
    (∀ h, head r d.(agent_id) = Some h → h.(version) < d.(version)).
Proof.
  intros Hok H. unfold admit_definition in H. apply st_bind_Ok in H as (? & ? & [-> ->]%get_Ok & H).
  destruct (versions r !! _) as [e|] eqn:Hk; [left; case_decide; [by apply mret_Ok in H as [_ ->]|done]|].
  right. st_inv H. cbn.
  assert (∀ h, head r d.(agent_id) = Some h → h.(publisher_id) = d.(publisher_id) ∧ h.(version) < d.(version)) as Hh.
  { intros h Hh. rewrite Hh in Hrun0. res_inv Hrun0. split; [by apply dec_stable|].
    apply head_Some in Hh as (v & _ & Hv & Ha & Hhv); [|done].
    destruct (decide (h.(version) = d.(version))) as [He|?]; [|lia]. rewrite <-Hhv, He in Hv. congruence. }
  split; [|naive_solver]. apply extend_ok; [done|done|naive_solver|].
  destruct (head r (agent_id d)) as [h|]; [|done]. destruct (Hh h eq_refl). lia.
Qed.

(** *** The loader *)

Lemma load_definition_spec r d r' :
  registry_ok r →
  load_definition r d = Ok r' ↔
  (r.(versions) !! (d.(agent_id), d.(version)) = None ∧
   ∀ h, head r d.(agent_id) = Some h → h.(publisher_id) = d.(publisher_id)) ∧
  r' = {| heads := <[d.(agent_id) := match head r d.(agent_id) with
                      | Some h => Z.max h.(version) d.(version) | None => d.(version) end]> r.(heads);
          versions := <[(d.(agent_id), d.(version)) := d]> r.(versions) |}.
Proof.
  intros Hok. unfold load_definition.
  assert (r.(versions) !! (d.(agent_id), d.(version)) = None →
    head (r <| versions := <[(d.(agent_id), d.(version)) := d]> r.(versions) |>) d.(agent_id) =
    head r d.(agent_id)) as Hhead.
  { intros Hn. unfold head. cbn. destruct (heads r !! agent_id d) as [v|] eqn:Hv; cbn; [|done].
    apply lookup_insert_ne. intros [=]. destruct (ro_head _ Hok _ _ Hv). congruence. }
  unfold reject_if. case_decide as Hd; cbn [mbind result_bind].
  { split; [done|]. intros [[Hn _] _]. rewrite Hn in Hd. by destruct Hd. }
  apply eq_None_not_Some in Hd. rewrite (Hhead Hd).
  destruct (head r (agent_id d)) as [h|] eqn:Hh.
  - apply head_Some in Hh as Hhs; [|done]. destruct Hhs as (v & Hv & _ & Ha & <-).
    case_decide as Hp; [naive_solver|]. split.
    + intros Hr. split; [naive_solver|]. case_decide; injection Hr as <-; cbn.
      * rewrite Z.max_l, (insert_id (heads r)) by (lia || done). by destruct r.
      * by rewrite Z.max_r by lia.
    + intros [_ ->]. case_decide; cbn.
      * rewrite Z.max_l, (insert_id (heads r)) by (lia || done). by destruct r.
      * by rewrite Z.max_r by lia.
  - split; [intros [= <-]|intros [_ ->]]; [|done]. split; [|done]. split; [done|]. intros ? [=].
Qed.

Lemma elem_of_snapshot r d :
  registry_ok r → d ∈ snapshot r ↔ r.(versions) !! (d.(agent_id), d.(version)) = Some d.
Proof.
  intros Hok. unfold snapshot. rewrite elem_of_btree_values. split; [|by eauto].
  intros [k Hk]. apply (ro_keys _ Hok) in Hk as Hkd. by subst.
Qed.

Lemma heads_determined r r' :
  registry_ok r → registry_ok r' → r.(versions) = r'.(versions) → r = r'.
Proof.
  intros Hok Hok' Hv.
  assert (∀ r r', registry_ok r → registry_ok r' → r.(versions) = r'.(versions) → ∀ a v,
    r.(heads) !! a = Some v → r'.(heads) !! a = Some v) as Hsub.
  { clear. intros r r' Hok Hok' Hvs a v Hv. destruct (ro_head _ Hok _ _ Hv) as [d Hd].
    apply (ro_keys _ Hok) in Hd as Hk. injection Hk as -> ->.
    rewrite Hvs in Hd. destruct (ro_top _ Hok' d Hd) as (v' & Hv' & Hle).
    destruct (ro_head _ Hok' _ _ Hv') as [d' Hd']. rewrite <-Hvs in Hd'.
    apply (ro_keys _ Hok) in Hd' as Hk. injection Hk as Ha ->. rewrite Ha in Hd'.
    destruct (ro_top _ Hok d' Hd') as (v & Hv2 & Hle'). rewrite <-Ha, Hv in Hv2. injection Hv2 as <-.
    rewrite Hv'. f_equal. lia. }
  destruct r as [h vs], r' as [h' vs']; cbn in *. subst vs'. f_equal. apply map_eq. intros a. apply option_eq.
  intros v. split; [apply (Hsub {| heads := h; versions := vs |} {| heads := h'; versions := vs |})
                   |apply (Hsub {| heads := h'; versions := vs |} {| heads := h; versions := vs |})]; done.
Qed.

Lemma check_heads_Ok r : registry_ok r → try_fold (check_head r) (btree_iter r.(heads)) tt = Ok tt.
Proof.
  intros Hok. assert (∀ l, (∀ a v, (a, v) ∈ l → r.(heads) !! a = Some v) → try_fold (check_head r) l tt = Ok tt) as Hl.
  { induction l as [|[a v] l IH]; intros Hin; [done|]. cbn [try_fold].
    destruct (ro_head _ Hok a v) as [h Hh]; [apply Hin; set_solver|].
    replace (check_head r tt (a, v)) with (Ok (E := AgentDefinitionSnapshotError) tt); [apply IH; set_solver|].
    unfold check_head. rewrite Hh. cbn. symmetry. apply reject_if_Ok. rewrite Exists_exists.
    intros ([[a' v'] e] & He%elem_of_btree_iter & Ha & Hp). cbn in *. subst a'.
    apply Hp. apply (ro_keys _ Hok) in Hh as Hk. injection Hk as -> ->.
    apply (ro_keys _ Hok) in He as Hk. injection Hk as Ha ->. rewrite Ha in He.
    by apply (ro_publisher _ Hok). }
  apply Hl. intros a v. apply elem_of_btree_iter.
Qed.

Lemma load_grows r d r' :
  registry_ok r → load_definition r d = Ok r' → registry_ok r' ∧ snapshot r' ≡ₚ d :: snapshot r.
Proof.
  intros Hok [[Hn Hh] ->]%load_definition_spec; [|done]. split; [by apply extend_ok|].
  unfold snapshot. cbn. by rewrite btree_values_insert.
Qed.

Lemma snapshot_keys_NoDup r : registry_ok r → NoDup ((λ d, (agent_id d, version d)) <$> snapshot r).
Proof. intros Hok. apply btree_values_keyed_NoDup. intros k d Hd. symmetry. by apply (ro_keys _ Hok). Qed.

(** A part of a consistent registry takes a further definition of it. *)
Lemma load_part r r0 pre d post :
  registry_ok r → registry_ok r0 → pre ++ d :: post ≡ₚ snapshot r → pre ≡ₚ snapshot r0 →
  ∃ r1, load_definition r0 d = Ok r1.
Proof.
  intros Hok Hok0 Hp Hp0.
  assert (NoDup ((λ d, (agent_id d, version d)) <$> (pre ++ d :: post))) as Hnd.
  { rewrite Hp. by apply snapshot_keys_NoDup. }
  assert (∀ e, e ∈ pre ++ d :: post → r.(versions) !! (e.(agent_id), e.(version)) = Some e) as Hin.
  { intros e. rewrite Hp. by apply elem_of_snapshot. }
  assert (∀ k e, r0.(versions) !! k = Some e → e ∈ pre) as Hin0.
  { intros k e He. apply (ro_keys _ Hok0) in He as Hk. subst k. rewrite Hp0. by apply elem_of_snapshot. }
  eexists. apply load_definition_spec; [done|]. split; [|reflexivity]. split.
  - apply eq_None_not_Some. intros [e He]. apply (ro_keys _ Hok0) in He as Hk. apply Hin0 in He.
    rewrite fmap_app in Hnd. apply NoDup_app in Hnd as (_ & Hd & _).
    apply (Hd (agent_id e, version e)); [by apply (list_elem_of_fmap_2 (λ d, (agent_id d, version d)))|]. rewrite <-Hk. left.
  - intros h (v & _ & Hv & Ha & <-)%head_Some; [|done]. apply Hin0 in Hv.
    apply (ro_publisher _ Hok); [apply Hin; set_solver..|done].
Qed.

(** The definition loader accepts exactly the consistent registries: it
    succeeds with [r] if and only if [r] has one publisher per agent and the
    latest version of each agent as its head, and the rows are the versions of
    [r] in any order. *)
Theorem definition_loader_exact s r : try_from_snapshot s = Ok r ↔ registry_ok r ∧ s ≡ₚ snapshot r.
Proof.
  unfold try_from_snapshot.
  assert (registry_ok new ∧ [] ≡ₚ snapshot new) as Hnew.
  { split; [apply new_registry_ok|]. unfold snapshot, new. cbn [versions]. by rewrite btree_values_empty. }
  assert (∀ pre d r0 r1, registry_ok r0 ∧ pre ≡ₚ snapshot r0 → load_definition r0 d = Ok r1 →
    registry_ok r1 ∧ pre ++ [d] ≡ₚ snapshot r1) as Hstep.
  { intros pre d r0 r1 [Hok Hp] [Hok1 ->]%load_grows; [|done]. split; [done|]. by rewrite Hp, Permutation_app_comm. }
  split.
  - intros H. apply result_bind_Ok in H as (r0 & Hf & H). apply result_bind_Ok in H as ([] & _ & [= ->]).
    apply (try_fold_inv load_definition (λ r pre, registry_ok r ∧ pre ≡ₚ snapshot r)) in Hf; eauto.
  - intros [Hok Hp].
    destruct (try_fold_total load_definition (λ r pre, registry_ok r ∧ pre ≡ₚ snapshot r) s new)
      as (r0 & Hf & Hok0 & Hp0); [done| |].
    { intros pre d post r0 -> [Hok0 Hp0]. destruct (load_part r r0 pre d post) as [r1 Hr1]; eauto. }
    rewrite Hf. cbn. rewrite check_heads_Ok by done. cbn. f_equal. apply heads_determined; [done..|].
    apply map_eq. intros k. apply option_eq. intros d.
    assert (∀ r r' d, registry_ok r → registry_ok r' → snapshot r ≡ₚ snapshot r' →
      r.(versions) !! k = Some d → r'.(versions) !! k = Some d) as Hsub.
    { clear. intros r r' d Hok Hok' Hp Hd. apply (ro_keys _ Hok) in Hd as Hk. subst k.
      apply elem_of_snapshot; [done|]. rewrite <-Hp. by apply elem_of_snapshot. }
    split; apply Hsub; try done; by rewrite <-Hp0, Hp || by rewrite <-Hp, Hp0.
Qed.
End Definitions.

(** ** Grants *)

Module Grant.
Inductive AgentConversationPermission : Type :=
| ReadFutureMessages
| ReadSharedHistory
| ReadAttachments
| SendMessages
| CreateChannelComments
| InvokeTools
| StartServerJobs.
Global Instance permission_eq_dec : EqDecision AgentConversationPermission.
Proof. solve_decision. Defined.

(** The declaration order, which [#[derive(Ord)]] uses. *)
Definition permission_index (p : AgentConversationPermission) : Z :=
  match p with
  | ReadFutureMessages => 0 | ReadSharedHistory => 1 | ReadAttachments => 2 | SendMessages => 3
  | CreateChannelComments => 4 | InvokeTools => 5 | StartServerJobs => 6
  end.
Definition permission_of (z : Z) : AgentConversationPermission :=
  match z with
  | 0 => ReadFutureMessages | 1 => ReadSharedHistory | 2 => ReadAttachments | 3 => SendMessages
  | 4 => CreateChannelComments | 5 => InvokeTools | _ => StartServerJobs
  end.
Global Instance permission_index_inj : Inj (=) (=) permission_index.
Proof. by intros [] []. Qed.
Global Program Instance permission_countable : Countable AgentConversationPermission :=
  inj_countable' permission_index permission_of _.
Next Obligation. by intros []. Qed.
Global Instance permission_ord : Ord AgentConversationPermission := ord_by permission_index.

Record AgentConversationPermissions : Type := {
  permissions : gset AgentConversationPermission;
  cloud_connections : gset CloudConnectionId
}.
Global Instance permissions_eq_dec : EqDecision AgentConversationPermissions.
Proof. solve_decision. Defined.

Definition none : AgentConversationPermissions := {| permissions := ∅; cloud_connections := ∅ |}.
Definition with_permission (s : AgentConversationPermissions) (p : AgentConversationPermission) :
    AgentConversationPermissions :=
  {| permissions := {[p]} ∪ s.(permissions); cloud_connections := s.(cloud_connections) |}.
Definition with_cloud_connection (s : AgentConversationPermissions) (c : CloudConnectionId) :
    AgentConversationPermissions :=
  {| permissions := s.(permissions); cloud_connections := {[c]} ∪ s.(cloud_connections) |}.
Definition contains (s : AgentConversationPermissions) (p : AgentConversationPermission) : bool :=
  bool_decide (p ∈ s.(permissions)).
Definition contains_cloud_connection (s : AgentConversationPermissions) (c : CloudConnectionId) : bool :=
  bool_decide (c ∈ s.(cloud_connections)).
Definition permission_kinds (s : AgentConversationPermissions) : list AgentConversationPermission :=
  bset_iter s.(permissions).
Definition cloud_connection_ids (s : AgentConversationPermissions) : list CloudConnectionId :=
  bset_iter s.(cloud_connections).
Definition is_empty (s : AgentConversationPermissions) : bool :=
  bool_decide (s.(permissions) = ∅) && bool_decide (s.(cloud_connections) = ∅).
Definition is_subset_of (s other : AgentConversationPermissions) : bool :=
  bool_decide (s.(permissions) ⊆ other.(permissions))
  && bool_decide (s.(cloud_connections) ⊆ other.(cloud_connections)).

Inductive TriggerPolicy : Type := MentionOnly | ExplicitCommand | ManualOnly | AllMessages.
Global Instance TriggerPolicy_eq_dec : EqDecision TriggerPolicy.
Proof. solve_decision. Defined.
Record PrivacyPolicyDigest : Type := MkPrivacyDigest { privacy_bytes : bytes }.
Global Instance PrivacyPolicyDigest_eq_dec : EqDecision PrivacyPolicyDigest.
Proof. solve_decision. Defined.

(** Evidence markers: an optional one is present or not. *)
Inductive PermissionExpansionConfirmation : Type := ExpansionConfirmed.
Inductive AllMessagesConfirmation : Type := AllMessagesConfirmed.

Record ConversationGrantUpdate : Type := {
  up_permissions : AgentConversationPermissions;
  up_trigger_policy : TriggerPolicy;
  up_privacy_policy_hash : PrivacyPolicyDigest;
  up_approved_by_device : DeviceId;
  up_approved_at_ms : Z;
  up_expires_at_ms : option Z
}.

Inductive ConversationGrantCommand : Type :=
| Update (update : ConversationGrantUpdate)
    (permission_expansion : option PermissionExpansionConfirmation)
    (all_messages : option AllMessagesConfirmation)
| Revoke (revoked_at_ms : Z)
| Regrant (grant_id : GrantId) (update : ConversationGrantUpdate)
    (permission_expansion : PermissionExpansionConfirmation)
    (all_messages : option AllMessagesConfirmation).

(** [ConversationGrantSnapshot] has the fields of [ConversationGrant]. *)
Record ConversationGrant : Type := {
  tenant_id : TenantId;
  grant_id : GrantId;
  conversation_id : ConversationId;
  installation_id : InstallationId;
  granted : AgentConversationPermissions;
  trigger_policy : TriggerPolicy;
  privacy_policy_hash : PrivacyPolicyDigest;
  grant_version : Revision;
  approved_by_device : DeviceId;
  approved_at_ms : Z;
  expires_at_ms : option Z;
  revoked_at_ms : option Z;
  used_grant_ids : gset GrantId
}.

Definition ConversationGrant_eta (g : ConversationGrant) : ConversationGrant :=
  {| tenant_id := g.(tenant_id); grant_id := g.(grant_id); conversation_id := g.(conversation_id);
     installation_id := g.(installation_id); granted := g.(granted);
     trigger_policy := g.(trigger_policy); privacy_policy_hash := g.(privacy_policy_hash);
     grant_version := g.(grant_version); approved_by_device := g.(approved_by_device);
     approved_at_ms := g.(approved_at_ms); expires_at_ms := g.(expires_at_ms);
     revoked_at_ms := g.(revoked_at_ms); used_grant_ids := g.(used_grant_ids) |}.
Global Instance grant_id_field : Field grant_id := ltac:(field_of ConversationGrant_eta grant_id).
Global Instance granted_field : Field granted := ltac:(field_of ConversationGrant_eta granted).
Global Instance trigger_field : Field trigger_policy :=
  ltac:(field_of ConversationGrant_eta trigger_policy).
Global Instance privacy_field : Field privacy_policy_hash :=
  ltac:(field_of ConversationGrant_eta privacy_policy_hash).
Global Instance version_field : Field grant_version :=
  ltac:(field_of ConversationGrant_eta grant_version).
Global Instance device_field : Field approved_by_device :=
  ltac:(field_of ConversationGrant_eta approved_by_device).
Global Instance approved_field : Field approved_at_ms :=
  ltac:(field_of ConversationGrant_eta approved_at_ms).
Global Instance expires_field : Field expires_at_ms :=
  ltac:(field_of ConversationGrant_eta expires_at_ms).
Global Instance revoked_field : Field revoked_at_ms :=
  ltac:(field_of ConversationGrant_eta revoked_at_ms).
Global Instance used_field : Field used_grant_ids :=
  ltac:(field_of ConversationGrant_eta used_grant_ids).

Inductive ConversationGrantError : Type :=
| ScopeMismatch
| VersionConflict (actual expected : Revision)
| InstallationNotUsable
| EmptyPermissions
| InvalidExpiry
| InvalidRevocationTime
| InvalidApprovalTime
| PermissionExpansionConfirmationRequired
| AllMessagesConfirmationRequired
| Revoked
| InvalidTransition
| GrantIdReused
| NoChange
| VersionExhausted.

Inductive ConversationGrantSnapshotError : Type :=
| SnapshotEmptyPermissions
| SnapshotInvalidExpiry
| SnapshotInvalidRevocationTime
| CurrentGrantIdMissing
| ImpossibleVersionHistory
| UnreachableInitialState.

Definition ensure_installation_usable (i : Installation.AgentInstallation) :
    result ConversationGrantError unit :=
  if decide (i.(Installation.desired_state) = Installation.Enabled) then Ok tt
  else Err InstallationNotUsable.

Definition validate_grant_facts (p : AgentConversationPermissions) (_ : TriggerPolicy)
    (approved_at : Z) (expires_at : option Z) : result ConversationGrantError unit :=
  reject EmptyPermissions when (is_empty p = true);;
  reject InvalidExpiry when (some_and expires_at (λ e, e ≤ approved_at)).

Definition issue (installation : Installation.AgentInstallation) (grant_id : GrantId)
    (conversation_id : ConversationId) (p : AgentConversationPermissions) (trigger : TriggerPolicy)
    (privacy : PrivacyPolicyDigest) (device : DeviceId) (approved_at : Z) (expires_at : option Z)
    (all_messages : option AllMessagesConfirmation) :
    result ConversationGrantError ConversationGrant :=
  ensure_installation_usable installation;;
  validate_grant_facts p trigger approved_at expires_at;;
  reject AllMessagesConfirmationRequired when (trigger = AllMessages ∧ ¬ is_Some all_messages);;
  Ok {| tenant_id := installation.(Installation.tenant_id); grant_id := grant_id;
        conversation_id := conversation_id;
        installation_id := installation.(Installation.installation_id); granted := p;
        trigger_policy := trigger; privacy_policy_hash := privacy;
        grant_version := Revision.INITIAL; approved_by_device := device;
        approved_at_ms := approved_at; expires_at_ms := expires_at; revoked_at_ms := None;
        used_grant_ids := {[grant_id]} |}.

Definition snapshot (self : ConversationGrant) : ConversationGrant := ConversationGrant_eta self.

Definition u64_checked_mul (x y : Z) : option Z := checked 0 u64_max (x * y).
Definition u64_checked_sub (x y : Z) : option Z := checked 0 u64_max (x - y).

Definition minimum_version (s : ConversationGrant) : option Z :=
  doubled ← u64_checked_mul (Z.of_nat (size s.(used_grant_ids))) 2;
  value ← u64_checked_sub doubled 1;
  u64_checked_add value (if decide (is_Some s.(revoked_at_ms)) then 1 else 0).

Definition try_from_snapshot (s : ConversationGrant) :
    result ConversationGrantSnapshotError ConversationGrant :=
  reject SnapshotEmptyPermissions when (is_empty s.(granted) = true);;
  reject SnapshotInvalidExpiry when (some_and s.(expires_at_ms) (λ e, e ≤ s.(approved_at_ms)));;
  reject SnapshotInvalidRevocationTime
    when (some_and s.(revoked_at_ms) (λ r, r < s.(approved_at_ms)));;
  reject CurrentGrantIdMissing when (s.(grant_id) ∉ s.(used_grant_ids));;
  minimum ← ok_or (minimum_version s) ImpossibleVersionHistory;
  reject ImpossibleVersionHistory when (s.(grant_version) < minimum);;
  reject UnreachableInitialState
    when (s.(grant_version) = Revision.INITIAL
          ∧ (size s.(used_grant_ids) ≠ 1%nat ∨ is_Some s.(revoked_at_ms)));;
  Ok (ConversationGrant_eta s).

Definition scope_matches (self : ConversationGrant) (i : Installation.AgentInstallation) : bool :=
  bool_decide (self.(tenant_id) = i.(Installation.tenant_id)
               ∧ self.(installation_id) = i.(Installation.installation_id)).

Definition is_active_for (self : ConversationGrant) (i : Installation.AgentInstallation)
    (now_ms : Z) : bool :=
  bool_decide (scope_matches self i = true ∧ i.(Installation.desired_state) = Installation.Enabled
               ∧ self.(revoked_at_ms) = None ∧ now_ms >= self.(approved_at_ms)
               ∧ none_or self.(expires_at_ms) (λ e, now_ms < e)).

Definition authorizes_version_for (self : ConversationGrant) (i : Installation.AgentInstallation)
    (now_ms : Z) (captured_version : Revision) : bool :=
  bool_decide (self.(grant_version) = captured_version) && is_active_for self i now_ms.

Definition matches_update (self : ConversationGrant) (u : ConversationGrantUpdate) : bool :=
  bool_decide (self.(granted) = u.(up_permissions) ∧ self.(trigger_policy) = u.(up_trigger_policy)
    ∧ self.(privacy_policy_hash) = u.(up_privacy_policy_hash)
    ∧ self.(approved_by_device) = u.(up_approved_by_device)
    ∧ self.(approved_at_ms) = u.(up_approved_at_ms)
    ∧ self.(expires_at_ms) = u.(up_expires_at_ms)).

Notation Op := (ST ConversationGrant ConversationGrantError).

Definition replace_facts (u : ConversationGrantUpdate) : Op unit :=
  modify (λ self, self <| granted := u.(up_permissions) |>);;
  modify (λ self, self <| trigger_policy := u.(up_trigger_policy) |>);;
  modify (λ self, self <| privacy_policy_hash := u.(up_privacy_policy_hash) |>);;
  modify (λ self, self <| approved_by_device := u.(up_approved_by_device) |>);;
  modify (λ self, self <| approved_at_ms := u.(up_approved_at_ms) |>);;
  modify (λ self, self <| expires_at_ms := u.(up_expires_at_ms) |>);;
  modify (λ self, self <| revoked_at_ms := None |>).

Definition apply_update (installation : Installation.AgentInstallation)
    (u : ConversationGrantUpdate) (expansion : option PermissionExpansionConfirmation)
    (all_messages : option AllMessagesConfirmation) : Op unit :=
  self ← get;
  lift (ensure_installation_usable installation);;
  lift (reject Revoked when (is_Some self.(revoked_at_ms)));;
  lift (validate_grant_facts u.(up_permissions) u.(up_trigger_policy) u.(up_approved_at_ms)
          u.(up_expires_at_ms));;
  lift (reject InvalidApprovalTime when (u.(up_approved_at_ms) ≤ self.(approved_at_ms)));;
  lift (reject PermissionExpansionConfirmationRequired
    when (is_subset_of u.(up_permissions) self.(granted) = false ∧ ¬ is_Some expansion));;
  lift (reject AllMessagesConfirmationRequired
    when (u.(up_trigger_policy) = AllMessages ∧ self.(trigger_policy) ≠ AllMessages
          ∧ ¬ is_Some all_messages));;
  lift (reject NoChange when (matches_update self u = true));;
  replace_facts u.

Definition apply_revoke (revoked_at : Z) : Op unit :=
  self ← get;
  lift (reject Revoked when (is_Some self.(revoked_at_ms)));;
  lift (reject InvalidRevocationTime when (revoked_at < self.(approved_at_ms)));;
  modify (λ self, self <| revoked_at_ms := Some revoked_at |>).

Definition apply_regrant (installation : Installation.AgentInstallation) (new_id : GrantId)
    (u : ConversationGrantUpdate) (all_messages : option AllMessagesConfirmation) : Op unit :=
  self ← get;
  lift (ensure_installation_usable installation);;
  revoked_at ← lift (ok_or self.(revoked_at_ms) InvalidTransition);
  lift (reject GrantIdReused when (new_id ∈ self.(used_grant_ids)));;
  lift (validate_grant_facts u.(up_permissions) u.(up_trigger_policy) u.(up_approved_at_ms)
          u.(up_expires_at_ms));;
  lift (reject InvalidApprovalTime when (u.(up_approved_at_ms) ≤ revoked_at));;
  lift (reject AllMessagesConfirmationRequired
    when (u.(up_trigger_policy) = AllMessages ∧ ¬ is_Some all_messages));;
  modify (λ self, self <| used_grant_ids := {[new_id]} ∪ self.(used_grant_ids) |>);;
  modify (λ self, self <| grant_id := new_id |>);;
  replace_facts u.

Definition apply (installation : Installation.AgentInstallation) (expected_version : Revision)
    (command : ConversationGrantCommand) : Op Revision :=
  self ← get;
  lift (reject ScopeMismatch when (scope_matches self installation = false));;
  lift (reject (VersionConflict self.(grant_version) expected_version)
    when (self.(grant_version) ≠ expected_version));;
  next ← lift (map_err (λ _, VersionExhausted) (Revision.checked_next self.(grant_version)));
  (match command with
   | Update u expansion all_messages => apply_update installation u expansion all_messages
   | Revoke revoked_at => apply_revoke revoked_at
   | Regrant new_id u _ all_messages => apply_regrant installation new_id u all_messages
   end);;
  modify (λ self, self <| grant_version := next |>);;
  mret next.
End Grant.
