(* ===== verification/AgentGrantProps.v ===== *)
(** * Conversation grants: histories

    What a sequence of commands can make of a grant: it always reloads, its
    version fences the runs that captured it, and authority grows only with the
    confirmation that the code asks for. *)

From S2P Require Import Prelude Domain AgentRegistry Connector AgentGrants.

Module GrantProps.
Import Grant.

Notation GrantOp := (Installation.AgentInstallation * Revision * ConversationGrantCommand)%type.
Definition step (o : GrantOp) : ConversationGrant → ConversationGrant := exec (apply o.1.1 o.1.2 o.2).

Lemma atomic_apply i v c : atomic (apply i v c).
Proof.
  unfold apply. do 4 (apply atomic_bind_read; [apply readonly_get || apply readonly_lift|]; intros ?).
  apply atomic_bind_nofail; [|intros []; solve_nofail].
  destruct c; unfold apply_update, apply_revoke, apply_regrant, replace_facts; solve_atomic.
Qed.

(** The facts of an update in force. *)
Definition with_facts (u : ConversationGrantUpdate) (g : ConversationGrant) : ConversationGrant :=
  g <| granted := u.(up_permissions) |> <| trigger_policy := u.(up_trigger_policy) |>
    <| privacy_policy_hash := u.(up_privacy_policy_hash) |>
    <| approved_by_device := u.(up_approved_by_device) |>
    <| approved_at_ms := u.(up_approved_at_ms) |> <| expires_at_ms := u.(up_expires_at_ms) |>
    <| revoked_at_ms := None |>.

Definition facts_ok (u : ConversationGrantUpdate) : Prop :=
  is_empty u.(up_permissions) = false ∧ none_or u.(up_expires_at_ms) (λ e, u.(up_approved_at_ms) < e).

(** What a command does when it takes effect. *)
Definition effect (c : ConversationGrantCommand) (g g' : ConversationGrant) : Prop :=
  match c with
  | Update u e a =>
      g.(revoked_at_ms) = None ∧ facts_ok u ∧ g.(approved_at_ms) < u.(up_approved_at_ms) ∧
      (is_subset_of u.(up_permissions) g.(granted) = true ∨ is_Some e) ∧
      (u.(up_trigger_policy) = AllMessages → g.(trigger_policy) = AllMessages ∨ is_Some a) ∧
      g' = with_facts u g
  | Revoke t => g.(revoked_at_ms) = None ∧ g.(approved_at_ms) ≤ t ∧ g' = g <| revoked_at_ms := Some t |>
  | Regrant n u _ a =>
      ∃ t, g.(revoked_at_ms) = Some t ∧ n ∉ g.(used_grant_ids) ∧ facts_ok u ∧ t < u.(up_approved_at_ms) ∧
      (u.(up_trigger_policy) = AllMessages → is_Some a) ∧
      g' = with_facts u (g <| used_grant_ids := {[n]} ∪ g.(used_grant_ids) |> <| grant_id := n |>)
  end.

Lemma validate_facts_Ok u x :
  validate_grant_facts u.(up_permissions) u.(up_trigger_policy) u.(up_approved_at_ms) u.(up_expires_at_ms) = Ok x →
  facts_ok u.
Proof.
  intros H. unfold validate_grant_facts in H. res_inv H. split; [by destruct (is_empty _)|].
  destruct (up_expires_at_ms u); cbn in *; [lia|done].
Qed.

Lemma is_Some_dec_not {A} (o : option A) : ¬ is_Some o → o = None.
Proof. by rewrite <-eq_None_not_Some. Qed.

Lemma grant_apply_Ok i v c g r g' :
  apply i v c g = (Ok r, g') →
  g.(grant_version) = v ∧ r = v + 1 ∧ v ≠ Revision.MAX ∧
  ∃ m, effect c g m ∧ g' = m <| grant_version := r |>.
Proof.
  intros H. unfold apply in H. st_inv H. apply Revision.checked_next_Ok in Hrun1 as [Hmax ->].
  apply dec_stable in Hrun0. split; [done|]. split; [by rewrite Hrun0|]. split; [by rewrite <-Hrun0|].
  eexists. split; [|reflexivity]. unfold effect. destruct c.
  - unfold apply_update, replace_facts in Hrun2. st_inv Hrun2.
    match goal with H : validate_grant_facts _ _ _ _ = Ok _ |- _ => apply validate_facts_Ok in H end. split_and!; [by apply is_Some_dec_not|done|lia| | |done].
    + destruct (is_subset_of _ _); [by left|right]. apply dec_stable. tauto.
    + intros Ha. destruct (decide (trigger_policy g = AllMessages)); [by left|right]. apply dec_stable. tauto.
  - unfold apply_revoke in Hrun2. st_inv Hrun2. split_and!; [by apply is_Some_dec_not|lia|done].
  - unfold apply_regrant, replace_facts in Hrun2. st_inv Hrun2.
    match goal with H : validate_grant_facts _ _ _ _ = Ok _ |- _ => apply validate_facts_Ok in H end. eexists. split_and!; [done|done|done|lia| |done].
    intros Ha. apply dec_stable. tauto.
Qed.

Lemma grant_step_cases o g :
  step o g = g ∨
  g.(grant_version) = o.1.2 ∧ g.(grant_version) ≠ Revision.MAX ∧
  ∃ m, effect o.2 g m ∧ step o g = m <| grant_version := g.(grant_version) + 1 |>.
Proof.
  destruct (exec_atomic _ g (atomic_apply o.1.1 o.1.2 o.2)) as [?|[r Hr]]; [by left|right].
  apply grant_apply_Ok in Hr as (Hv & -> & Hm & m & He & Hg). rewrite Hv. unfold step. eauto.
Qed.

Lemma effect_version c g m : effect c g m → m.(grant_version) = g.(grant_version).
Proof. destruct c; cbn; [intros (_ & _ & _ & _ & _ & ->)|intros (_ & _ & ->)|intros (t & _ & _ & _ & _ & _ & ->)]; done. Qed.

(** ** Reload *)

Definition history_length (g : ConversationGrant) : Z :=
  2 * Z.of_nat (size g.(used_grant_ids)) - 1 + (if decide (is_Some g.(revoked_at_ms)) then 1 else 0).

Record grant_ok (g : ConversationGrant) : Prop := {
  go_authority : is_empty g.(granted) = false;
  go_expiry : none_or g.(expires_at_ms) (λ e, g.(approved_at_ms) < e);
  go_revocation : none_or g.(revoked_at_ms) (λ t, g.(approved_at_ms) ≤ t);
  go_id : g.(grant_id) ∈ g.(used_grant_ids);
  go_history : history_length g ≤ g.(grant_version) ≤ Revision.MAX
}.

Lemma grant_step_ok o g : grant_ok g → grant_ok (step o g).
Proof.
  intros Hok. destruct (grant_step_cases o g) as [->|(_ & Hmax & m & He & ->)]; [done|].
  destruct Hok as [K1 K2 K3 K4 K5]. unfold history_length in K5.
  destruct (o.2) as [u e a|t|n u e a]; cbn in He.
  - destruct He as (Hr & [Hf1 Hf2] & Hlt & _ & _ & ->). rewrite Hr in K5. rewrite decide_False in K5 by (by intros []).
    split; cbn; try done. unfold history_length. cbn. rewrite decide_False by (by intros []). lia.
  - destruct He as (Hr & Hlt & ->). rewrite Hr in K5. rewrite decide_False in K5 by (by intros []).
    split; cbn; try done. unfold history_length. cbn. rewrite decide_True by eauto. lia.
  - destruct He as (t & Hr & Hn & [Hf1 Hf2] & Hlt & _ & ->). rewrite Hr in K5. rewrite decide_True in K5 by eauto.
    split; cbn; try done; [set_solver|]. unfold history_length. cbn. rewrite decide_False by (by intros []).
    rewrite size_union, size_singleton by set_solver. lia.
Qed.

Definition reachable (g : ConversationGrant) : Prop :=
  ∃ i id c p tr pr d t e a g0 ops, issue i id c p tr pr d t e a = Ok g0 ∧ g = run_all step ops g0.

Lemma issue_ok i id c p tr pr d t e a g : issue i id c p tr pr d t e a = Ok g → grant_ok g.
Proof.
  intros H. unfold issue in H. apply result_bind_Ok in H as (? & _ & H).
  apply result_bind_Ok in H as (? & Hf & H). unfold validate_grant_facts in Hf. res_inv Hf. res_inv H.
  split; cbn; [by destruct (is_empty p)| |done|set_solver|].
  - destruct e; cbn in *; [lia|done].
  - unfold history_length. cbn. rewrite decide_False, size_singleton by (by intros []).
    change Revision.INITIAL with 1. change Revision.MAX with (2 ^ 53 - 1). lia.
Qed.

Lemma reachable_grant_ok g : reachable g → grant_ok g.
Proof.
  intros (i & id & c & p & tr & pr & d & t & e & a & g0 & ops & H & ->).
  apply run_all_inv; [intros; by apply grant_step_ok|by eapply issue_ok].
Qed.

Lemma minimum_version_ok g : grant_ok g → minimum_version g = Some (history_length g).
Proof.
  intros [_ _ _ Hid [Hh Hm]]. unfold minimum_version, u64_checked_mul, u64_checked_sub, u64_checked_add.
  assert (1 ≤ Z.of_nat (size (used_grant_ids g))) as Hs.
  { destruct (size (used_grant_ids g)) as [|n] eqn:He; [|lia].
    apply size_empty_inv in He. set_solver. }
  revert Hm. change Revision.MAX with (2 ^ 53 - 1). unfold history_length in *. intros Hm.
  assert (u64_max = 2 ^ 64 - 1) as Hu by done.
  destruct (decide (is_Some (revoked_at_ms g))); cbn in *.
  all: unfold checked; rewrite (decide_True (P := 0 ≤ _ * 2 ≤ _)) by lia; cbn;
    rewrite (decide_True (P := 0 ≤ _ - 1 ≤ _)) by lia; cbn; rewrite decide_True by lia; f_equal; lia.
Qed.

(** Every grant that issuing and any later commands produce passes the
    validation of its durable image and is restored exactly. *)
Theorem reachable_grant_loads g : reachable g → try_from_snapshot (snapshot g) = Ok g.
Proof.
  intros Hok%reachable_grant_ok. assert (ConversationGrant_eta g = g) as Heta by (by destruct g).
  unfold snapshot. rewrite Heta. pose proof Hok as [K1 K2 K3 K4 [K5 K6]]. unfold try_from_snapshot.
  ok_step; [by rewrite K1|]. ok_step; [destruct (expires_at_ms g); cbn in *; [lia|tauto]|].
  ok_step; [destruct (revoked_at_ms g); cbn in *; [lia|tauto]|]. ok_step; [tauto|].
  ok_step; [by apply minimum_version_ok|]. ok_step; [lia|]. ok_step; [|by rewrite Heta].
  intros [Hv Hbad]. unfold history_length in K5. rewrite Hv in K5. change Revision.INITIAL with 1 in K5.
  assert (size (used_grant_ids g) ≠ 0%nat). { intros He%size_empty_inv. set_solver. }
  destruct (decide (is_Some (revoked_at_ms g))); [lia|]. destruct Hbad; [lia|done].
Qed.

(** ** Fencing *)

Lemma later_version ops g :
  g.(grant_version) ≤ (run_all step ops g).(grant_version) ∧
  ((run_all step ops g).(grant_version) = g.(grant_version) → run_all step ops g = g).
Proof.
  apply (run_all_inv step (λ s, g.(grant_version) ≤ s.(grant_version) ∧ (s.(grant_version) = g.(grant_version) → s = g))).
  - intros o s _ [Hle Heq]. destruct (grant_step_cases o s) as [->|(_ & _ & m & _ & ->)]; [done|]. cbn.
    split; [lia|]. intros ?. lia.
  - done.
Qed.

(** The grant version fences runs.  A run that captured the version of a
    grant is authorized later only if no command took effect in between: the
    grant is still the one it captured, not revoked and not expired. *)
Theorem grant_version_fences g ops i now :
  authorizes_version_for (run_all step ops g) i now g.(grant_version) = true →
  run_all step ops g = g ∧ g.(revoked_at_ms) = None ∧ g.(approved_at_ms) ≤ now ∧
  none_or g.(expires_at_ms) (λ e, now < e).
Proof.
  unfold authorizes_version_for. intros [Hv Ha]%andb_true_iff. apply bool_decide_eq_true in Hv.
  pose proof (proj2 (later_version ops g) Hv) as He. rewrite He in *. split; [done|].
  unfold is_active_for in Ha. apply bool_decide_eq_true in Ha as (_ & _ & ? & ? & ?). split_and!; [done|lia|done].
Qed.

(** ** Authority *)

(** The commands that carry the confirmation for new permissions, or for the
    all-messages trigger. *)
Definition confirms (P : ConversationGrantUpdate → Prop) (o : GrantOp) : Prop :=
  match o.2 with
  | Update u e _ => is_Some e ∧ P u
  | Regrant _ u _ _ => P u
  | Revoke _ => False
  end.
Definition confirms_all_messages (o : GrantOp) : Prop :=
  match o.2 with
  | Update u _ a | Regrant _ u _ a => is_Some a ∧ u.(up_trigger_policy) = AllMessages
  | Revoke _ => False
  end.

(** C21. Authority grows only with confirmation.  Whatever commands a grant
    receives, a permission or cloud connection that it has at the end was there
    at the beginning, or one of the commands asked for it with the expansion
    confirmation; and the all-messages trigger was there or was confirmed
    separately. *)
Theorem authority_needs_confirmation g ops :
  let g' := run_all step ops g in
  (∀ p, p ∈ g'.(granted).(permissions) → p ∈ g.(granted).(permissions) ∨
     ∃ o, o ∈ ops ∧ confirms (λ u, p ∈ u.(up_permissions).(permissions)) o) ∧
  (∀ c, c ∈ g'.(granted).(cloud_connections) → c ∈ g.(granted).(cloud_connections) ∨
     ∃ o, o ∈ ops ∧ confirms (λ u, c ∈ u.(up_permissions).(cloud_connections)) o) ∧
  (g'.(trigger_policy) = AllMessages → g.(trigger_policy) = AllMessages ∨
     ∃ o, o ∈ ops ∧ confirms_all_messages o).
Proof.
  cbn zeta. apply (run_all_inv step (λ g', (∀ p, p ∈ g'.(granted).(permissions) → _) ∧
    (∀ c, c ∈ g'.(granted).(cloud_connections) → _) ∧ (g'.(trigger_policy) = AllMessages → _))); [|by auto].
  intros o s Ho (H1 & H2 & H3). destruct (grant_step_cases o s) as [->|(_ & _ & m & He & ->)]; [done|].
  unfold confirms, confirms_all_messages in *. destruct (o.2) as [u e a|t|n u e a] eqn:Hc; cbn in He.
  - destruct He as (_ & _ & _ & Hsub & Hall & ->). cbn. split_and!.
    + intros p Hp. destruct Hsub as [[Hs _]%andb_true_iff|Hs]; [apply bool_decide_eq_true in Hs; auto|].
      right. exists o. rewrite Hc. auto.
    + intros p Hp. destruct Hsub as [[_ Hs]%andb_true_iff|Hs]; [apply bool_decide_eq_true in Hs; auto|].
      right. exists o. rewrite Hc. auto.
    + intros Ht. destruct (Hall Ht); [auto|]. right. exists o. rewrite Hc. auto.
  - destruct He as (_ & _ & ->). done.
  - destruct He as (t & _ & _ & _ & _ & Hall & ->). cbn. split_and!.
    + intros p Hp. right. exists o. by rewrite Hc.
    + intros p Hp. right. exists o. by rewrite Hc.
    + intros Ht. right. exists o. rewrite Hc. auto.
Qed.
End GrantProps.
