(* ===== verification/GrantDemo.v ===== *)
(** * Grants: a worked example

    A grant that is issued, widened with a confirmation, revoked and granted anew. *)

From S2P Require Import Prelude Domain AgentHost AgentRegistry Connector ConnectorDemo AgentGrants AgentGrantProps RouterDemo.

Module GrantDemo.
Import Grant GrantProps.

Definition facts (p : list AgentConversationPermission) (t : Z) : ConversationGrantUpdate :=
  {| up_permissions := foldl with_permission none p; up_trigger_policy := MentionOnly;
     up_privacy_policy_hash := MkPrivacyDigest (replicate 32 3); up_approved_by_device := UuidV7 71;
     up_approved_at_ms := t; up_expires_at_ms := Some (t + 1000) |}.

Definition issued : ConversationGrant :=
  ltac:(let r := eval vm_compute in
          (issue RouterDemo.installation (UuidV7 70) (UuidV7 72) (foldl with_permission none [SendMessages])
             MentionOnly (MkPrivacyDigest (replicate 32 3)) (UuidV7 71) 100 (Some 1100) None) in
        match r with Ok ?g => exact g end).

Definition commands : list GrantOp :=
  [(RouterDemo.installation, 1, Update (facts [SendMessages; InvokeTools] 200) None None);
   (RouterDemo.installation, 1,
     Update (facts [SendMessages; InvokeTools] 200) (Some ExpansionConfirmed) None);
   (RouterDemo.installation, 2, Revoke 300);
   (RouterDemo.installation, 3, Regrant (UuidV7 73) (facts [InvokeTools] 400) ExpansionConfirmed None)].

Definition regranted : ConversationGrant := run_all step commands issued.

Lemma regranted_reachable : reachable regranted.
Proof.
  exists RouterDemo.installation, (UuidV7 70), (UuidV7 72), (foldl with_permission none [SendMessages]), MentionOnly,
    (MkPrivacyDigest (replicate 32 3)), (UuidV7 71), 100, (Some 1100), None, issued, commands.
  split; [by vm_compute|done].
Qed.

(** The first widening is refused, the other three commands take effect. *)
Lemma reachable_grant_loads_witness :
  regranted.(grant_version) = 4 ∧ try_from_snapshot (snapshot regranted) = Ok regranted.
Proof.
  split; [by vm_compute|]. apply (reachable_grant_loads regranted), regranted_reachable.
Defined.

(** The unconfirmed widening does not end the authority of a run. *)
Lemma grant_version_fences_witness :
  run_all step (take 1 commands) issued = issued.
Proof. apply (grant_version_fences issued (take 1 commands) RouterDemo.installation 500). by vm_compute. Defined.
End GrantDemo.
