(* ===== verification/ResponseCache.v ===== *)
(** * The response cache

    Models [crates/dtx-http-cache/src/lib.rs]: a bounded cache of response bodies
    that coalesces concurrent misses of one key and is invalidated by writers.
    The critical sections under the inner lock are functions on the cache state;
    the requests, which may be suspended or dropped between them, are steps of a
    transition system. *)

From S2P Require Import Prelude WirePrimitives Connector.

Module Cache.
Record CachedBody : Type := { body_bytes : bytes; etag : bytes }.
Inductive CachedLookup : Type := Found (body : CachedBody) | NotFound.

Record CacheEntry : Type := { value : CachedLookup; expires : Z; touched : Z }.

(** A gate, [Arc<Mutex<()>>], is named by a number; [Arc::ptr_eq] compares them. *)
Record CacheState : Type := {
  entries : gmap bytes CacheEntry;
  flights : gmap bytes nat;
  clock : Z;
  used : Z
}.

Definition CacheEntry_eta (e : CacheEntry) : CacheEntry :=
  {| value := e.(value); expires := e.(expires); touched := e.(touched) |}.
Global Instance touched_field : Field touched := ltac:(field_of CacheEntry_eta touched).
Definition CacheState_eta (s : CacheState) : CacheState :=
  {| entries := s.(entries); flights := s.(flights); clock := s.(clock); used := s.(used) |}.
Global Instance entries_field : Field entries := ltac:(field_of CacheState_eta entries).
Global Instance flights_field : Field flights := ltac:(field_of CacheState_eta flights).
Global Instance clock_field : Field clock := ltac:(field_of CacheState_eta clock).
Global Instance used_field : Field used := ltac:(field_of CacheState_eta used).

Definition byte_len (v : CachedLookup) : Z :=
  match v with Found body => Z.of_nat (length body.(body_bytes)) | NotFound => 0 end.

(** [usize] is 64 bits wide. *)
Definition saturating_add (x y : Z) : Z := Z.min u64_max (x + y).
Definition saturating_sub (x y : Z) : Z := Z.max 0 (x - y).
Definition wrapping_add (x y : Z) : Z := (x + y) mod 2 ^ 64.

(** [Iterator::min_by_key]: the first of the smallest elements. *)
Fixpoint min_by_key {A} (f : A → Z) (l : list A) : option A :=
  match l with
  | [] => None
  | x :: l =>
      match min_by_key f l with
      | Some y => if decide (f y < f x) then Some y else Some x
      | None => Some x
      end
  end.

Definition ends_with_kind (key kind : bytes) : bytes := key ++ 0 :: kind.

Section cache.
(** SHA-256, the iteration order of the hash map, and the two limits. *)
Context (sha256 : bytes → bytes).
Context (hash_iter : gmap bytes CacheEntry → list (bytes * CacheEntry)).
Context (capacity : nat) (max_bytes : Z).

Definition strong_etag (bs : bytes) : bytes :=
  34 :: str "dtx-" ++ (sha256 bs ≫= hex_byte) ++ [34].
Definition cached_body (bs : bytes) : CachedBody := {| body_bytes := bs; etag := strong_etag bs |}.
Definition cached_lookup (bs : option bytes) : CachedLookup :=
  match bs with Some bs => Found (cached_body bs) | None => NotFound end.

Definition new : CacheState := {| entries := ∅; flights := ∅; clock := 0; used := 0 |}.

(** ** The critical sections *)

Definition fresh (now : Z) (key : bytes) (s : CacheState) : option CachedLookup * CacheState :=
  match s.(entries) !! key with
  | Some e =>
      if decide (e.(expires) > now) then
        let c := wrapping_add s.(clock) 1 in
        (Some e.(value),
         s <| clock := c |> <| entries := alter (λ e, e <| touched := c |>) key s.(entries) |>)
      else (None, s <| entries := delete key s.(entries) |>
                    <| used := saturating_sub s.(used) (byte_len e.(value)) |>)
  | None => (None, s)
  end.

Definition join_flight (new_gate : nat) (key : bytes) (s : CacheState) : option nat * CacheState :=
  match s.(flights) !! key with
  | Some gate => (Some gate, s)
  | None =>
      if decide (size s.(flights) < capacity)%nat
      then (Some new_gate, s <| flights := <[key := new_gate]> s.(flights) |>)
      else (None, s)
  end.

Definition remove_matching_flight (key : bytes) (gate : nat) (s : CacheState) : CacheState :=
  if decide (s.(flights) !! key = Some gate) then s <| flights := delete key s.(flights) |> else s.

(** [while] of the insertion; one entry goes per iteration, so the number of
    entries is enough fuel. *)
Fixpoint evict (fuel : nat) (need : Z) (s : CacheState) : CacheState :=
  match fuel with
  | O => s
  | S fuel =>
      if decide ((capacity ≤ size s.(entries))%nat ∨ saturating_add s.(used) need > max_bytes) then
        match min_by_key (λ e, e.2.(touched)) (hash_iter s.(entries)) with
        | Some (oldest, removed) =>
            evict fuel need (s <| entries := delete oldest s.(entries) |>
                               <| used := saturating_sub s.(used) (byte_len removed.(value)) |>)
        | None => s
        end
      else s
  end.

Definition store (now ttl : Z) (key : bytes) (gate : nat) (v : CachedLookup) (s : CacheState) :
    CacheState :=
  if decide (s.(flights) !! key ≠ Some gate) then s
  else if decide (ttl = 0 ∨ byte_len v > max_bytes) then remove_matching_flight key gate s
  else
    let s := s <| clock := wrapping_add s.(clock) 1 |> in
    let c := s.(clock) in
    let s := evict (size s.(entries)) (byte_len v) s in
    let s := s <| used := saturating_add s.(used) (byte_len v) |> in
    let s := s <| entries :=
      <[key := {| value := v; expires := now + ttl; touched := c |}]> s.(entries) |> in
    remove_matching_flight key gate s.

Definition sum_bytes (m : gmap bytes CacheEntry) : Z :=
  map_fold (λ _ e acc, byte_len e.(value) + acc) 0 m.

Definition invalidate_prefix (prefix : bytes) (s : CacheState) : CacheState :=
  let removed := filter (λ e, prefix `prefix_of` e.1) s.(entries) in
  s <| entries := filter (λ e, ¬ prefix `prefix_of` e.1) s.(entries) |>
    <| flights := filter (λ e, ¬ prefix `prefix_of` e.1) s.(flights) |>
    <| used := saturating_sub s.(used) (sum_bytes removed) |>.

Definition invalidate (key : bytes) (s : CacheState) : CacheState :=
  invalidate_prefix (key ++ [0]) s.

(** ** Requests

    [load] and [load_optional] scope the logical key and run
    [load_lookup_inner]. *)

Inductive Kind : Type := Body | Optional.
Record Request : Type := { key : bytes; kind : Kind; found_ttl : Z; not_found_ttl : Z }.

Definition scoped (r : Request) : bytes :=
  ends_with_kind r.(key) (match r.(kind) with Body => str "body" | Optional => str "optional" end).

Definition ttl_of (r : Request) (v : CachedLookup) : Z :=
  match v with
  | Found _ => r.(found_ttl)
  | NotFound => match r.(kind) with Body => 0 | Optional => r.(not_found_ttl) end
  end.

(** Where a request is suspended. *)
Inductive Pc : Type :=
| Init
| Missed                                  (** after the first look-up *)
| Direct                                  (** no gate left: calls the loader itself *)
| Waiting (gate : nat)                    (** in [gate.lock()] *)
| Held (gate : nat)                       (** has the gate, cleanup armed *)
| Loading (gate : nat)                    (** in the loader *)
| Loaded (gate : nat) (v : CachedLookup)  (** the loader has read [v] *)
| Finishing (gate : nat) (r : option CachedLookup)
                                          (** in [cleanup.finish()], key taken *)
| Finished (r : option CachedLookup).     (** returned [Ok] or [Err] *)

Record Config : Type := MkConfig {
  state : CacheState;
  now : Z;
  next_gate : nat;
  tasks : gmap nat (Request * Pc);
  orphans : list (bytes * nat);           (** removals spawned by [Drop] *)
  source : bytes → option bytes;          (** what the loaders read *)
  dirty : gset bytes                      (** written, not yet invalidated *)
}.

Definition initial (src : bytes → option bytes) : Config := MkConfig new 0 0 ∅ [] src ∅.

Definition holds (pc : Pc) : option nat :=
  match pc with Held g | Loading g | Loaded g _ | Finishing g _ => Some g | _ => None end.

(** The keys that an invalidation frees of their write. *)
Definition covers (prefix k : bytes) : Prop :=
  prefix `prefix_of` ends_with_kind k (str "body") ∧ prefix `prefix_of` ends_with_kind k (str "optional").
Global Instance covers_dec p k : Decision (covers p k).
Proof. unfold covers. apply _. Defined.

(** [Drop] of the cleanup: armed between the gate and the final section. *)
Definition dropped (r : Request) (pc : Pc) : list (bytes * nat) :=
  match pc with Held g | Loading g | Loaded g _ => [(scoped r, g)] | _ => [] end.

Definition set_pc (t : nat) (r : Request) (pc : Pc) (s : CacheState) (c : Config) : Config :=
  MkConfig s c.(now) c.(next_gate) (<[t := (r, pc)]> c.(tasks)) c.(orphans) c.(source) c.(dirty).

Inductive step (c : Config) : Config → Prop :=
| SSpawn t r :
    c.(tasks) !! t = None → step c (set_pc t r Init c.(state) c)
| STick d :
    0 ≤ d → step c (MkConfig c.(state) (c.(now) + d) c.(next_gate) c.(tasks) c.(orphans) c.(source) c.(dirty))
| SFresh t r v s' :
    c.(tasks) !! t = Some (r, Init) → fresh c.(now) (scoped r) c.(state) = (v, s') →
    step c (set_pc t r (match v with Some v => Finished (Some v) | None => Missed end) s' c)
| SJoin t r g s' :
    c.(tasks) !! t = Some (r, Missed) → join_flight c.(next_gate) (scoped r) c.(state) = (g, s') →
    step c (MkConfig s' c.(now) (S c.(next_gate))
              (<[t := (r, match g with Some g => Waiting g | None => Direct end)]> c.(tasks))
              c.(orphans) c.(source) c.(dirty))
| SDirect t r res :
    c.(tasks) !! t = Some (r, Direct) →
    (res = None ∨ res = Some (cached_lookup (c.(source) r.(key))) ∧ (r.(kind) = Body → is_Some (c.(source) r.(key)))) →
    step c (set_pc t r (Finished res) c.(state) c)
| SAcquire t r g :
    c.(tasks) !! t = Some (r, Waiting g) →
    (∀ t' r' pc, c.(tasks) !! t' = Some (r', pc) → holds pc ≠ Some g) →
    step c (set_pc t r (Held g) c.(state) c)
| SRecheck t r g v s' :
    c.(tasks) !! t = Some (r, Held g) → fresh c.(now) (scoped r) c.(state) = (v, s') →
    step c (set_pc t r (match v with Some v => Finishing g (Some v) | None => Loading g end) s' c)
| SLoad t r g :
    c.(tasks) !! t = Some (r, Loading g) → (r.(kind) = Body → is_Some (c.(source) r.(key))) →
    step c (set_pc t r (Loaded g (cached_lookup (c.(source) r.(key)))) c.(state) c)
| SLoadErr t r g :
    c.(tasks) !! t = Some (r, Loading g) → step c (set_pc t r (Finishing g None) c.(state) c)
| SStore t r g v :
    c.(tasks) !! t = Some (r, Loaded g v) →
    step c (set_pc t r (Finished (Some v)) (store c.(now) (ttl_of r v) (scoped r) g v c.(state)) c)
| SFinish t r g res :
    c.(tasks) !! t = Some (r, Finishing g res) →
    step c (set_pc t r (Finished res) (remove_matching_flight (scoped r) g c.(state)) c)
| SCancel t r pc spawned :
    c.(tasks) !! t = Some (r, pc) → spawned = dropped r pc ∨ spawned = [] →
    step c (MkConfig c.(state) c.(now) c.(next_gate) (delete t c.(tasks)) (c.(orphans) ++ spawned)
              c.(source) c.(dirty))
| SOrphan pre k g post :
    c.(orphans) = pre ++ (k, g) :: post →
    step c (MkConfig (remove_matching_flight k g c.(state)) c.(now) c.(next_gate) c.(tasks) (pre ++ post)
              c.(source) c.(dirty))
| SWrite k v :
    step c (MkConfig c.(state) c.(now) c.(next_gate) c.(tasks) c.(orphans)
              (λ k', if decide (k' = k) then v else c.(source) k') ({[k]} ∪ c.(dirty)))
| SInvalidate prefix :
    step c (MkConfig (invalidate_prefix prefix c.(state)) c.(now) c.(next_gate) c.(tasks) c.(orphans)
              c.(source) (filter (λ k, ¬ covers prefix k) c.(dirty))).

Definition reachable (c : Config) : Prop := ∃ src, rtc step (initial src) c.
End cache.
End Cache.
