(* ===== verification/ResponseCacheProps.v ===== *)
(** * The response cache: bounds, coalescing and coherence

    Invariants of every interleaving of requests, cancellations, writes and
    invalidations. *)

From S2P Require Import Prelude WirePrimitives Connector ResponseCache.

Module CacheProps.
Import Cache.

(** ** Sizes *)

Lemma sum_bytes_insert m k e :
  m !! k = None → sum_bytes (<[k := e]> m) = byte_len e.(value) + sum_bytes m.
Proof. intros Hk. unfold sum_bytes. rewrite map_fold_insert_L; [done| |done]. intros. lia. Qed.

Lemma sum_bytes_delete m k e :
  m !! k = Some e → sum_bytes (delete k m) = sum_bytes m - byte_len e.(value).
Proof.
  intros Hk. rewrite <-(insert_delete_id m k e) at 2 by done.
  rewrite sum_bytes_insert by apply lookup_delete_eq. lia.
Qed.

Lemma byte_len_nonneg v : 0 ≤ byte_len v.
Proof. destruct v; cbn; lia. Qed.

Lemma sum_bytes_nonneg m : 0 ≤ sum_bytes m.
Proof.
  induction m as [|k e m Hk IH] using map_ind; [done|].
  rewrite sum_bytes_insert by done. pose proof (byte_len_nonneg e.(value)). lia.
Qed.

Lemma sum_bytes_alter m k c :
  sum_bytes (alter (λ e, e <| touched := c |>) k m) = sum_bytes m.
Proof.
  destruct (m !! k) as [e|] eqn:Hk; [|by rewrite alter_id by congruence].
  rewrite <-(insert_delete_id m k e) at 1 by done. rewrite alter_insert_eq.
  rewrite sum_bytes_insert by apply lookup_delete_eq. cbn. rewrite (sum_bytes_delete m k e) by done. lia.
Qed.

Lemma sum_bytes_filter (P : bytes * CacheEntry → Prop) `{∀ e, Decision (P e)} m :
  sum_bytes (filter P m) + sum_bytes (filter (λ e, ¬ P e) m) = sum_bytes m.
Proof.
  induction m as [|k e m Hk IH] using map_ind; [by rewrite !map_filter_empty|].
  rewrite sum_bytes_insert by done. destruct (decide (P (k, e))) as [HP|HP].
  - rewrite map_filter_insert_True, map_filter_insert_False by (done || tauto).
    rewrite (delete_id m k) by done. rewrite sum_bytes_insert by (apply map_lookup_filter_None; auto). lia.
  - rewrite map_filter_insert_False, map_filter_insert_True by (done || tauto).
    rewrite (delete_id m k) by done. rewrite sum_bytes_insert by (apply map_lookup_filter_None; auto). lia.
Qed.

Lemma min_by_key_elem {A} (f : A → Z) l x : min_by_key f l = Some x → x ∈ l.
Proof.
  revert x. induction l as [|y l IH]; intros x; cbn; [done|].
  destruct (min_by_key f l) as [z|]; [case_decide|]; intros [= <-]; set_solver.
Qed.

Lemma min_by_key_None {A} (f : A → Z) l : min_by_key f l = None → l = [].
Proof. destruct l as [|x l]; [done|]. cbn. destruct (min_by_key f l); [case_decide|]; done. Qed.

Section props.
Context (sha256 : bytes → bytes) (hash_iter : gmap bytes CacheEntry → list (bytes * CacheEntry)).
Context (capacity : nat) (max_bytes : Z).
(** A hash map is iterated once over, in some order; the constructor makes both
    limits positive, and the byte limit is below the largest machine word. *)
Context (Hiter : ∀ m, hash_iter m ≡ₚ map_to_list m).
Context (Hcap : (1 ≤ capacity)%nat) (Hmax : 1 ≤ max_bytes < u64_max).

Record cache_ok (s : CacheState) : Prop := {
  ca_used : s.(used) = sum_bytes s.(entries);
  ca_bytes : s.(used) ≤ max_bytes;
  ca_entries : (size s.(entries) ≤ capacity)%nat;
  ca_flights : (size s.(flights) ≤ capacity)%nat
}.

Lemma delete_entry_ok s k e :
  cache_ok s → s.(entries) !! k = Some e →
  cache_ok (s <| entries := delete k s.(entries) |> <| used := saturating_sub s.(used) (byte_len e.(value)) |>).
Proof.
  intros [K1 K2 K3 K4] Hk. pose proof (sum_bytes_delete _ _ _ Hk) as Hs.
  pose proof (sum_bytes_nonneg (delete k s.(entries))). pose proof (byte_len_nonneg e.(value)).
  unfold saturating_sub. split; cbn; [lia|lia| |done].
  rewrite map_size_delete_Some by eauto. lia.
Qed.

Lemma fresh_ok now k s v s' : cache_ok s → fresh now k s = (v, s') → cache_ok s'.
Proof.
  intros Hok. unfold fresh. destruct (entries s !! k) as [e|] eqn:Hk; [|by intros [= _ <-]].
  case_decide; intros [= _ <-]; [|by apply delete_entry_ok].
  destruct Hok as [K1 K2 K3 K4]. split; cbn; [by rewrite sum_bytes_alter|done| |done].
  by rewrite <-!(size_dom (D := gset bytes)), dom_alter_L in *.
Qed.

Lemma join_flight_ok g k s v s' : cache_ok s → join_flight capacity g k s = (v, s') → cache_ok s'.
Proof.
  intros [K1 K2 K3 K4]. unfold join_flight. destruct (flights s !! k) eqn:Hk; [by intros [= _ <-]|].
  case_decide; intros [= _ <-]; [|done]. split; cbn; try done. rewrite map_size_insert_None by done. lia.
Qed.

Lemma remove_flight_ok k g s : cache_ok s → cache_ok (remove_matching_flight k g s).
Proof.
  intros [K1 K2 K3 K4]. unfold remove_matching_flight. case_decide; [|done]. split; cbn; try done.
  etrans; [|exact K4]. apply map_subseteq_size, delete_subseteq.
Qed.

Lemma evict_ok fuel need s :
  0 ≤ need ≤ max_bytes → cache_ok s → (size s.(entries) ≤ fuel)%nat →
  let s' := evict hash_iter capacity max_bytes fuel need s in
  cache_ok s' ∧ (size s'.(entries) < capacity)%nat ∧ s'.(used) + need ≤ max_bytes ∧
  s'.(entries) ⊆ s.(entries) ∧ s'.(flights) = s.(flights).
Proof.
  intros Hneed. revert s. induction fuel as [|fuel IH]; intros s Hok Hf; cbn zeta.
  - assert (entries s = ∅) as He by (apply map_size_empty_inv; lia). cbn.
    pose proof Hok as [K1 K2 K3 K4]. rewrite He in K1. split_and!; [done| | |done|done].
    + rewrite He, map_size_empty. lia.
    + rewrite K1. cbn. change (sum_bytes ∅) with 0. lia.
  - cbn [evict]. case_decide as Hc.
    + destruct (min_by_key _ _) as [[k e]|] eqn:Hmin.
      * apply min_by_key_elem in Hmin. rewrite Hiter in Hmin. apply elem_of_map_to_list in Hmin.
        destruct (IH _ (delete_entry_ok s k e Hok Hmin)) as (H1 & H2 & H3 & H4 & H5).
        { cbn. rewrite map_size_delete_Some by eauto. lia. }
        split_and!; try done. cbn in H4. etrans; [exact H4|]. apply delete_subseteq.
      * apply min_by_key_None in Hmin. pose proof (Hiter (entries s)) as Hp. rewrite Hmin in Hp.
        apply Permutation_nil_l in Hp. symmetry in Hp. apply map_to_list_empty_iff in Hp.
        pose proof Hok as [K1 K2 K3 K4]. rewrite Hp in K1. change (sum_bytes ∅) with 0 in K1.
        split_and!; [done| | |done|done]; [rewrite Hp, map_size_empty; lia|lia].
    + pose proof Hok as [K1 K2 K3 K4]. unfold saturating_add in Hc. split_and!; [done|lia| |done|done].
      destruct (decide (used s + need ≤ u64_max)); lia.
Qed.

(** What a section leaves of the entries: the same values, or fewer. *)
Definition keeps (s s' : CacheState) : Prop :=
  (∀ k e', s'.(entries) !! k = Some e' → ∃ e, s.(entries) !! k = Some e ∧ e.(value) = e'.(value)) ∧
  s'.(flights) ⊆ s.(flights).

Lemma keeps_refl s : keeps s s.
Proof. split; [by eauto|done]. Qed.

Lemma fresh_keeps now k s v s' : fresh now k s = (v, s') →
  keeps s s' ∧ s'.(flights) = s.(flights) ∧
  match v with
  | Some v => ∃ e, s.(entries) !! k = Some e ∧ e.(value) = v ∧ now < e.(expires)
  | None => s'.(entries) !! k = None
  end.
Proof.
  unfold fresh. destruct (entries s !! k) as [e|] eqn:Hk; [|intros [= <- <-]; split; [apply keeps_refl|done]].
  case_decide as He; intros [= <- <-]; cbn.
  - split; [|split; [done|exists e; split_and!; [done..|lia]]]. split; [|done]. cbn. intros j e'.
    rewrite lookup_alter_Some. intros [(<- & e0 & Hj & ->)|[_ Hj]]; eauto.
  - split; [|split; [done|apply lookup_delete_eq]]. split; [|done]. cbn. intros j e' [_ Hj]%lookup_delete_Some. eauto.
Qed.

Lemma remove_keeps k g s : keeps s (remove_matching_flight k g s).
Proof.
  unfold remove_matching_flight. case_decide; [|apply keeps_refl]. split; cbn; [by eauto|apply delete_subseteq].
Qed.

Lemma remove_entries k g s : (remove_matching_flight k g s).(entries) = s.(entries).
Proof. unfold remove_matching_flight. by case_decide. Qed.

Lemma invalidate_ok p s : cache_ok s → cache_ok (invalidate_prefix p s).
Proof.
  intros [K1 K2 K3 K4]. set (removed := sum_bytes (filter (λ e : bytes * CacheEntry, p `prefix_of` e.1) s.(entries))).
  assert (removed + sum_bytes (invalidate_prefix p s).(entries) = sum_bytes s.(entries)) as Hs
    by exact (sum_bytes_filter (λ e, p `prefix_of` e.1) s.(entries)).
  assert ((invalidate_prefix p s).(used) = Z.max 0 (s.(used) - removed)) as Hu by done.
  assert (0 ≤ removed) by apply sum_bytes_nonneg.
  pose proof (sum_bytes_nonneg (invalidate_prefix p s).(entries)). split; [lia|lia|..].
  - etrans; [|exact K3]. apply map_subseteq_size, map_filter_subseteq.
  - etrans; [|exact K4]. apply map_subseteq_size, map_filter_subseteq.
Qed.

Lemma invalidate_keeps p s : keeps s (invalidate_prefix p s).
Proof.
  split; cbn; [|apply map_filter_subseteq]. intros k e [He _]%map_lookup_filter_Some. eauto.
Qed.

Lemma store_cases now ttl k g v s :
  cache_ok s → s.(entries) !! k = None ∨ s.(flights) !! k ≠ Some g →
  let s' := store hash_iter capacity max_bytes now ttl k g v s in
  cache_ok s' ∧ s'.(flights) ⊆ s.(flights) ∧
  (s.(flights) !! k = Some g → s'.(flights) !! k = None) ∧
  (∀ j e', s'.(entries) !! j = Some e' →
     (j = k ∧ e'.(value) = v ∧ s.(flights) !! k = Some g ∧ ttl ≠ 0) ∨
     (j ≠ k ∨ s.(flights) !! k ≠ Some g) ∧ s.(entries) !! j = Some e').
Proof.
  intros Hok Habs. cbn zeta. unfold store. case_decide as Hg.
  { split_and!; [done|done|done|]. intros j e' He. right. eauto. }
  assert (entries s !! k = None) as Hk by (by destruct Habs).
  assert (∀ s, s.(flights) !! k = Some g → (remove_matching_flight k g s).(flights) = delete k s.(flights)) as Hrm.
  { intros s0 H0. unfold remove_matching_flight. by rewrite decide_True. }
  case_decide as Ht.
  { rewrite remove_entries, Hrm by done. split_and!; [by apply remove_flight_ok|apply delete_subseteq| |].
    - intros _. apply lookup_delete_eq.
    - intros j e' He. right. split; [|done]. left. congruence. }
  set (s1 := s <| clock := _ |>). assert (cache_ok s1) as Hok1 by (by destruct Hok; split).
  destruct (evict_ok (size s1.(entries)) (byte_len v) s1) as ([H1 H2 H3 H4] & Hsz & Hb & Hsub & Hfl); [|done|done|].
  { pose proof (byte_len_nonneg v). lia. }
  set (s2 := evict _ _ _ _ _ s1) in *. cbn in Hsub, Hfl.
  assert (entries s2 !! k = None) as Hk2.
  { destruct (entries s2 !! k) as [e|] eqn:He; [|done]. eapply lookup_weaken in He; [|exact Hsub]. congruence. }
  pose proof (sum_bytes_nonneg (entries s2)). pose proof (byte_len_nonneg v).
  assert (saturating_add (used s2) (byte_len v) = used s2 + byte_len v) as Hsat by (unfold saturating_add; lia).
  rewrite remove_entries. cbn. split_and!.
  - apply remove_flight_ok. split; cbn.
    + rewrite sum_bytes_insert by done. cbn. lia.
    + lia.
    + rewrite map_size_insert_None by done. lia.
    + done.
  - rewrite Hrm by (cbn; by rewrite Hfl). cbn. rewrite Hfl. apply delete_subseteq.
  - intros _. rewrite Hrm by (cbn; by rewrite Hfl). apply lookup_delete_eq.
  - intros j e' [[<- <-]|[Hne He]]%lookup_insert_Some; [left; cbn; split_and!; tauto|].
    right. split; [by left|]. by eapply lookup_weaken.
Qed.

(** ** The invariant of the interleavings *)

Notation step := (step sha256 hash_iter capacity max_bytes).
Notation lookup_of := (cached_lookup sha256).

(** The gate a request waits for or holds, and the one it loads under. *)
Definition gate_of (pc : Pc) : option nat :=
  match pc with Waiting g => Some g | _ => holds pc end.
Definition loads (pc : Pc) : option nat :=
  match pc with Loading g | Loaded g _ => Some g | _ => None end.
Definition result (pc : Pc) : option CachedLookup :=
  match pc with Loaded _ v => Some v | Finishing _ v | Finished v => v | _ => None end.

Record task_ok (n : nat) (s : CacheState) (src : bytes → option bytes) (d : gset bytes)
    (r : Request) (pc : Pc) : Prop := {
  to_gate : ∀ g, gate_of pc = Some g → (g < n)%nat ∧ ∀ k, s.(flights) !! k = Some g → k = scoped r;
  to_absent : ∀ g, loads pc = Some g → s.(flights) !! scoped r = Some g → s.(entries) !! scoped r = None;
  to_loaded : ∀ g v, pc = Loaded g v → s.(flights) !! scoped r = Some g → r.(key) ∉ d →
    v = lookup_of (src r.(key));
  to_body : r.(kind) = Body → result pc ≠ Some NotFound
}.

Record entries_ok (s : CacheState) (src : bytes → option bytes) (d : gset bytes) : Prop := {
  eo_value : ∀ r e, s.(entries) !! scoped r = Some e → r.(key) ∉ d → e.(value) = lookup_of (src r.(key));
  eo_body : ∀ r e, s.(entries) !! scoped r = Some e → r.(kind) = Body → e.(value) ≠ NotFound
}.

Record flights_ok (n : nat) (s : CacheState) : Prop := {
  fo_next : ∀ k g, s.(flights) !! k = Some g → (g < n)%nat;
  fo_inj : ∀ k k' g, s.(flights) !! k = Some g → s.(flights) !! k' = Some g → k = k'
}.

Definition exclusive (ts : gmap nat (Request * Pc)) : Prop :=
  ∀ t t' r r' pc pc' g, ts !! t = Some (r, pc) → ts !! t' = Some (r', pc') →
    holds pc = Some g → holds pc' = Some g → t = t'.

Definition tasks_ok (n : nat) (s : CacheState) src d (ts : gmap nat (Request * Pc)) : Prop :=
  ∀ t r pc, ts !! t = Some (r, pc) → task_ok n s src d r pc.

Record Inv (c : Config) : Prop := {
  iv_cache : cache_ok c.(state);
  iv_flights : flights_ok c.(next_gate) c.(state);
  iv_entries : entries_ok c.(state) c.(source) c.(dirty);
  iv_tasks : tasks_ok c.(next_gate) c.(state) c.(source) c.(dirty) c.(tasks);
  iv_mutex : exclusive c.(tasks)
}.

Lemma keeps_None s s' k : keeps s s' → s.(entries) !! k = None → s'.(entries) !! k = None.
Proof.
  intros [He _] Hk. destruct (entries s' !! k) as [e'|] eqn:H; [|done].
  destruct (He _ _ H) as (e & ? & _). congruence.
Qed.

Lemma keeps_flight s s' k g : keeps s s' → s'.(flights) !! k = Some g → s.(flights) !! k = Some g.
Proof. intros [_ Hf] Hk. by eapply lookup_weaken. Qed.

Lemma task_ok_keeps n s s' src d r pc :
  keeps s s' → task_ok n s src d r pc → task_ok n s' src d r pc.
Proof.
  intros K [T1 T2 T3 T4]. split; [| | |done].
  - intros g Hg. destruct (T1 g Hg) as [? Hk]. split; [done|]. eauto using keeps_flight.
  - intros g Hg Hf. eauto using keeps_flight, keeps_None.
  - intros g v Hp Hf Hd. eauto using keeps_flight.
Qed.

Lemma tasks_ok_keeps n s s' src d ts :
  keeps s s' → tasks_ok n s src d ts → tasks_ok n s' src d ts.
Proof. intros K HT t r pc Ht. eauto using task_ok_keeps. Qed.

Lemma flights_ok_keeps n s s' : keeps s s' → flights_ok n s → flights_ok n s'.
Proof. intros K [F1 F2]. split; eauto using keeps_flight. Qed.

Lemma entries_ok_keeps s s' src d : keeps s s' → entries_ok s src d → entries_ok s' src d.
Proof.
  intros [K _] [E1 E2]. split; intros r e' He; destruct (K _ _ He) as (e & He0 & <-); eauto.
Qed.

Lemma tasks_ok_insert n s src d ts t r pc :
  tasks_ok n s src d ts → task_ok n s src d r pc → tasks_ok n s src d (<[t := (r, pc)]> ts).
Proof. intros HT H t' r' pc' [[_ [= <- <-]]|[_ ?]]%lookup_insert_Some; eauto. Qed.

Lemma exclusive_insert ts t r pc :
  exclusive ts →
  (∀ g t' r' pc', holds pc = Some g → ts !! t' = Some (r', pc') → holds pc' = Some g → t' = t) →
  exclusive (<[t := (r, pc)]> ts).
Proof.
  intros HX Hpc t1 t2 r1 r2 p1 p2 g [[<- [= <- <-]]|[? H1]]%lookup_insert_Some
    [[<- [= <- <-]]|[? H2]]%lookup_insert_Some Hh1 Hh2; [done|..].
  - symmetry. eauto.
  - eauto.
  - eauto.
Qed.

(** A request moves on and the cache loses entries and flights at most. *)
Lemma inv_move c t r pc pc' s' :
  Inv c → c.(tasks) !! t = Some (r, pc) → keeps c.(state) s' → cache_ok s' →
  (∀ g, holds pc' = Some g → holds pc = Some g) →
  task_ok c.(next_gate) s' c.(source) c.(dirty) r pc' →
  Inv (set_pc t r pc' s' c).
Proof.
  intros [I1 I2 I3 I4 I5] Ht K Hok Hh HT. split; cbn.
  - done.
  - by eapply flights_ok_keeps.
  - by eapply entries_ok_keeps.
  - apply tasks_ok_insert; [by eapply tasks_ok_keeps|done].
  - apply exclusive_insert; [done|]. eauto.
Qed.

Lemma scoped_inj r r' : scoped r = scoped r' → r.(key) = r'.(key) ∧ r.(kind) = r'.(kind).
Proof.
  unfold scoped, ends_with_kind. intros H.
  assert (∀ (x y : bytes), x ++ 0 :: str "body" ≠ y ++ 0 :: str "optional") as Hne.
  { intros x y E. apply (f_equal last) in E. rewrite !last_app in E. by vm_compute in E. }
  destruct (kind r), (kind r').
  - by apply app_inj_2 in H as [? _].
  - by apply Hne in H.
  - by apply eq_sym, Hne in H.
  - by apply app_inj_2 in H as [? _].
Qed.

Lemma fresh_hit n s src d now r v s' :
  entries_ok s src d → fresh now (scoped r) s = (Some v, s') →
  task_ok n s' src d r (Finished (Some v)).
Proof.
  intros [_ E2] Hf. apply fresh_keeps in Hf as (_ & _ & e & He & <- & _).
  split; [done|done|done|]. cbn. intros Hb [= E]. by eapply E2.
Qed.

Lemma inv_fresh c t r v s' :
  Inv c → c.(tasks) !! t = Some (r, Init) → fresh c.(now) (scoped r) c.(state) = (v, s') →
  Inv (set_pc t r (match v with Some v => Finished (Some v) | None => Missed end) s' c).
Proof.
  intros I Ht Hf. pose proof (fresh_keeps _ _ _ _ _ Hf) as (K & _).
  eapply inv_move; [done|done|done|eapply fresh_ok; [apply I|done]|by destruct v|].
  destruct v; [|by split]. eapply fresh_hit; [apply I|done].
Qed.

Lemma inv_recheck c t r g v s' :
  Inv c → c.(tasks) !! t = Some (r, Held g) → fresh c.(now) (scoped r) c.(state) = (v, s') →
  Inv (set_pc t r (match v with Some v => Finishing g (Some v) | None => Loading g end) s' c).
Proof.
  intros I Ht Hf. pose proof (fresh_keeps _ _ _ _ _ Hf) as (K & _ & Hv).
  eapply inv_move; [done|done|done|eapply fresh_ok; [apply I|done]|by destruct v|].
  pose proof (task_ok_keeps _ _ _ _ _ _ _ K (iv_tasks _ I _ _ _ Ht)) as [T1 _ _ _].
  destruct v as [v|]; split; try done.
  eapply (fresh_hit 0), Hf. apply I.
Qed.

Lemma inv_acquire c t r g :
  Inv c → c.(tasks) !! t = Some (r, Waiting g) →
  (∀ t' r' pc, c.(tasks) !! t' = Some (r', pc) → holds pc ≠ Some g) →
  Inv (set_pc t r (Held g) c.(state) c).
Proof.
  intros [I1 I2 I3 I4 I5] Ht Hfree. pose proof (I4 _ _ _ Ht) as [T1 _ _ _]. split; cbn; try done.
  - apply tasks_ok_insert; [done|]. by split.
  - apply exclusive_insert; [done|]. intros g' t' r' pc' [= <-] Ht' Hh. by destruct (Hfree _ _ _ Ht').
Qed.

Lemma inv_join c t r g s' :
  Inv c → c.(tasks) !! t = Some (r, Missed) →
  join_flight capacity c.(next_gate) (scoped r) c.(state) = (g, s') →
  Inv (MkConfig s' c.(now) (S c.(next_gate))
         (<[t := (r, match g with Some g => Waiting g | None => Direct end)]> c.(tasks))
         c.(orphans) c.(source) c.(dirty)).
Proof.
  intros [I1 [F1 F2] I3 I4 I5] Ht Hj. pose proof (join_flight_ok _ _ _ _ _ I1 Hj) as Hok.
  assert (exclusive (<[t := (r, match g with Some g => Waiting g | None => Direct end)]> (tasks c))) as HX
    by (apply exclusive_insert; [done|]; by destruct g).
  assert (∀ r pc, task_ok (next_gate c) (state c) (source c) (dirty c) r pc →
    task_ok (S (next_gate c)) (state c) (source c) (dirty c) r pc) as Hup.
  { intros r0 pc0 [T1 T2 T3 T4]. split; try done. intros g0 Hg. destruct (T1 _ Hg). split; [lia|done]. }
  unfold join_flight in Hj. destruct (flights (state c) !! scoped r) as [g0|] eqn:Hk.
  - injection Hj as <- <-. split; cbn; try done.
    + split; [intros k g Hg; apply F1 in Hg; lia|done].
    + apply tasks_ok_insert; [intros ????; eauto|]. split; try done. cbn. intros g [= <-].
      split; [apply F1 in Hk; lia|]. intros k Hk'. by eapply F2.
  - case_decide; injection Hj as <- <-; cycle 1.
    { split; cbn; try done.
      - split; [intros k g Hg; apply F1 in Hg; lia|done].
      - apply tasks_ok_insert; [intros ????; eauto|]. by split. }
    split; cbn; try done.
    + split; cbn.
      * intros k g [[_ <-]|[_ Hg]]%lookup_insert_Some; [lia|]. apply F1 in Hg. lia.
      * intros k k' g [[<- <-]|[? Hg]]%lookup_insert_Some [[<- Heq]|[? Hg']]%lookup_insert_Some; [done|..].
        -- apply F1 in Hg'. lia.
        -- subst. apply F1 in Hg. lia.
        -- by eapply F2.
    + destruct I3. by split.
    + apply tasks_ok_insert.
      * intros t0 r0 pc0 Ht0. destruct (I4 _ _ _ Ht0) as [T1 T2 T3 T4].
        assert (∀ g k, gate_of pc0 = Some g → <[scoped r := next_gate c]> (flights (state c)) !! k = Some g →
          flights (state c) !! k = Some g) as Hold.
        { intros g k Hg [[_ <-]|[_ ?]]%lookup_insert_Some; [|done]. destruct (T1 _ Hg). lia. }
        split; [| | |done]; cbn.
        -- intros g Hg. destruct (T1 _ Hg) as [? Hu]. split; [lia|]. eauto.
        -- intros g Hg Hf. apply (T2 g Hg), Hold; [|done]. by destruct pc0.
        -- intros g v -> Hf Hd. apply (T3 g v eq_refl); [|done]. by apply Hold.
      * split; try done. cbn. intros g [= <-]. split; [lia|].
        intros k [[<- _]|[_ Hg]]%lookup_insert_Some; [done|]. apply F1 in Hg. lia.
Qed.

Lemma inv_store c t r g v :
  Inv c → c.(tasks) !! t = Some (r, Loaded g v) →
  Inv (set_pc t r (Finished (Some v))
         (store hash_iter capacity max_bytes c.(now) (ttl_of r v) (scoped r) g v c.(state)) c).
Proof.
  intros [I1 I2 I3 I4 I5] Ht. pose proof (I4 _ _ _ Ht) as [T1 T2 T3 T4].
  destruct (store_cases c.(now) (ttl_of r v) (scoped r) g v c.(state)) as (Hok & Hfl & Hgone & Hent); [done| |].
  { destruct (decide (flights (state c) !! scoped r = Some g)); [left; by apply (T2 g)|by right]. }
  set (s' := store _ _ _ _ _ _ _ _ _) in *. split; cbn.
  - done.
  - destruct I2 as [F1 F2]. split; [intros k g' Hg'|intros k k' g' Hg' Hg'']; eauto using lookup_weaken.
  - destruct I3 as [E1 E2]. split; intros r' e He; destruct (Hent _ _ He) as [(Hs & Hv & Hf & _)|[_ He0]]; eauto.
    + apply scoped_inj in Hs as [-> _]. intros Hd. rewrite Hv. by apply (T3 g v).
    + apply scoped_inj in Hs as [_ ->]. intros Hb Hn. apply (T4 Hb). cbn. congruence.
  - apply tasks_ok_insert; [|by split]. intros t' r' pc' Ht'. destruct (I4 _ _ _ Ht') as [U1 U2 U3 U4].
    split; [| | |done].
    + intros g' Hg'. destruct (U1 _ Hg') as [? Hu]. split; [done|]. eauto using lookup_weaken.
    + intros g' Hg' Hf'. pose proof (lookup_weaken _ _ _ _ Hf' Hfl) as Hf0.
      destruct (entries s' !! scoped r') as [e|] eqn:He; [|done].
      destruct (Hent _ _ He) as [(Hs & _ & Hf & _)|[_ He0]].
      * rewrite Hs, Hgone in Hf' by done. done.
      * rewrite (U2 g' Hg' Hf0) in He0. done.
    + intros g' v' Hp Hf' Hd. apply (U3 g' v' Hp); [|done]. by eapply lookup_weaken.
  - apply exclusive_insert; done.
Qed.

Lemma inv_finish c t r g res :
  Inv c → c.(tasks) !! t = Some (r, Finishing g res) →
  Inv (set_pc t r (Finished res) (remove_matching_flight (scoped r) g c.(state)) c).
Proof.
  intros I Ht. eapply inv_move; [done|done|apply remove_keeps|apply remove_flight_ok, I|done|].
  pose proof (iv_tasks _ I _ _ _ Ht) as [_ _ _ T4]. by split.
Qed.

Lemma inv_write c k v :
  Inv c →
  Inv (MkConfig c.(state) c.(now) c.(next_gate) c.(tasks) c.(orphans)
         (λ k', if decide (k' = k) then v else c.(source) k') ({[k]} ∪ c.(dirty))).
Proof.
  intros [I1 I2 I3 I4 I5]. split; cbn; try done.
  - destruct I3 as [E1 E2]. split; [|done]. intros r e He Hd. rewrite decide_False by set_solver.
    apply E1; [done|set_solver].
  - intros t r pc Ht. destruct (I4 _ _ _ Ht) as [T1 T2 T3 T4]. split; try done.
    intros g v' Hp Hf Hd. rewrite decide_False by set_solver. apply (T3 g v'); [done|done|set_solver].
Qed.

(** After an invalidation a clean key was clean before, or has neither an entry
    nor a flight. *)
Lemma invalidate_clean (p : bytes) (s : CacheState) (d : gset bytes) r :
  r.(key) ∉ filter (λ k, ¬ covers p k) d →
  r.(key) ∉ d ∨ (invalidate_prefix p s).(entries) !! scoped r = None ∧
                (invalidate_prefix p s).(flights) !! scoped r = None.
Proof.
  intros Hd. destruct (decide (key r ∈ d)) as [Hin|]; [right|by left].
  assert (covers p (key r)) as [Hb Ho].
  { apply dec_stable. intros Hc. apply Hd, elem_of_filter. done. }
  assert (p `prefix_of` scoped r) as Hp by (unfold scoped; by destruct (kind r)).
  split; apply map_lookup_filter_None; right; intros ? _ []; done.
Qed.

Lemma inv_invalidate c p :
  Inv c →
  Inv (MkConfig (invalidate_prefix p c.(state)) c.(now) c.(next_gate) c.(tasks) c.(orphans)
         c.(source) (filter (λ k, ¬ covers p k) c.(dirty))).
Proof.
  intros [I1 I2 I3 I4 I5]. pose proof (invalidate_keeps p (state c)) as K. split; cbn.
  - by apply invalidate_ok.
  - by eapply flights_ok_keeps.
  - apply (entries_ok_keeps _ _ _ _ K) in I3 as [E1 E2]. split; [|done]. intros r e He Hd.
    destruct (invalidate_clean p (state c) _ r Hd) as [?|[? _]]; [eauto|congruence].
  - intros t r pc Ht. destruct (task_ok_keeps _ _ _ _ _ _ _ K (I4 _ _ _ Ht)) as [T1 T2 T3 T4].
    split; try done. intros g v Hp Hf Hd.
    destruct (invalidate_clean p (state c) _ r Hd) as [?|[_ ?]]; [eauto|congruence].
  - done.
Qed.

Lemma inv_cancel c t extra :
  Inv c →
  Inv (MkConfig c.(state) c.(now) c.(next_gate) (delete t c.(tasks)) (c.(orphans) ++ extra) c.(source) c.(dirty)).
Proof.
  intros [I1 I2 I3 I4 I5]. split; cbn; try done.
  - intros t' r pc [_ Ht]%lookup_delete_Some. eauto.
  - intros t1 t2 r1 r2 p1 p2 g [_ H1]%lookup_delete_Some [_ H2]%lookup_delete_Some. eauto.
Qed.

Lemma inv_orphan c k g rest :
  Inv c →
  Inv (MkConfig (remove_matching_flight k g c.(state)) c.(now) c.(next_gate) c.(tasks) rest c.(source) c.(dirty)).
Proof.
  intros [I1 I2 I3 I4 I5]. pose proof (remove_keeps k g (state c)) as K. split; cbn; try done.
  - by apply remove_flight_ok.
  - by eapply flights_ok_keeps.
  - by eapply entries_ok_keeps.
  - by eapply tasks_ok_keeps.
Qed.

Lemma inv_step c c' : Inv c → step c c' → Inv c'.
Proof.
  intros I Hs. destruct Hs as [t r Ht|d Hd|t r v s' Ht Hf|t r g s' Ht Hj|t r res Ht Hr|t r g Ht Hfree
    |t r g v s' Ht Hf|t r g Ht Hb|t r g Ht|t r g v Ht|t r g res Ht|t r pc sp Ht _|pre k g post _|k v|p].
  - destruct I as [I1 I2 I3 I4 I5]. split; cbn; try done; [|by apply exclusive_insert].
    apply tasks_ok_insert; [done|by split].
  - by destruct I; split.
  - by apply inv_fresh.
  - by apply inv_join.
  - eapply inv_move; [done|done|apply keeps_refl|apply I|done|]. split; try done. cbn.
    destruct Hr as [->|[-> Hsome]]; [done|]. intros Hb. by destruct (Hsome Hb) as [b ->].
  - by apply inv_acquire.
  - by eapply inv_recheck.
  - eapply inv_move; [done|done|apply keeps_refl|apply I|done|].
    pose proof (iv_tasks _ I _ _ _ Ht) as [T1 T2 T3 T4]. split; [exact T1|exact T2|by intros ?? [= <- <-]|].
    cbn. intros Hk. by destruct (Hb Hk) as [b ->].
  - eapply inv_move; [done|done|apply keeps_refl|apply I|done|].
    pose proof (iv_tasks _ I _ _ _ Ht) as [T1 _ _ _]. by split.
  - by apply inv_store.
  - by eapply inv_finish.
  - by apply inv_cancel.
  - by apply inv_orphan.
  - by apply inv_write.
  - by apply inv_invalidate.
Qed.

Lemma inv_initial src : Inv (initial src).
Proof.
  split; cbn; try done.
  - split; cbn; [done|lia|rewrite map_size_empty; lia|rewrite map_size_empty; lia].
Qed.

Lemma reachable_inv c : reachable sha256 hash_iter capacity max_bytes c → Inv c.
Proof.
  intros [src Hr]. pose proof (inv_initial src) as I. induction Hr as [|x y z Hs _ IH]; [done|].
  apply IH. by eapply inv_step.
Qed.

(** ** The properties *)

(** C20. Coherence: in every interleaving of requests, cancellations, source writes
    and invalidations, a look-up answered from the cache for a key whose writes
    have all been followed by an invalidation returns what the source holds now,
    even when the value was loaded by a request that began before the write. *)
Theorem cache_coherent c r v s' :
  reachable sha256 hash_iter capacity max_bytes c →
  fresh c.(now) (scoped r) c.(state) = (Some v, s') →
  r.(key) ∉ c.(dirty) →
  v = cached_lookup sha256 (c.(source) r.(key)).
Proof.
  intros I%reachable_inv Hf Hd. apply fresh_keeps in Hf as (_ & _ & e & He & <- & _).
  by apply (eo_value _ _ _ (iv_entries _ I)).
Qed.

(** Bounds: at every moment the byte counter is exactly the sum of the stored
    bodies, and neither it nor the numbers of entries and of flights exceed the
    configured limits. *)
Theorem cache_bounded c :
  reachable sha256 hash_iter capacity max_bytes c →
  c.(state).(used) = sum_bytes c.(state).(entries) ∧ c.(state).(used) ≤ max_bytes ∧
  (size c.(state).(entries) ≤ capacity)%nat ∧ (size c.(state).(flights) ≤ capacity)%nat.
Proof. intros I%reachable_inv. by destruct (iv_cache _ I). Qed.

(** Coalescing: at most one request is in the loader on behalf of the
    registered flight of a key, and while it is there the key has no entry. *)
Theorem misses_coalesce c t t' r r' pc pc' g :
  reachable sha256 hash_iter capacity max_bytes c →
  c.(tasks) !! t = Some (r, pc) → c.(tasks) !! t' = Some (r', pc') →
  scoped r' = scoped r → loads pc = Some g → loads pc' = Some g →
  c.(state).(flights) !! scoped r = Some g →
  t = t' ∧ c.(state).(entries) !! scoped r = None.
Proof.
  intros I%reachable_inv Ht Ht' Hs Hl Hl' Hf. split.
  - eapply (iv_mutex _ I); [exact Ht|exact Ht'| |].
    + destruct pc; done.
    + destruct pc'; done.
  - by eapply (to_absent _ _ _ _ _ _ (iv_tasks _ I _ _ _ Ht)).
Qed.

(** [load] never reaches its [unreachable!]: a body request that returns [Ok]
    returns a body, whether it came from the loader, from the cache or from the
    flight of another request. *)
Theorem body_load_found c t r v :
  reachable sha256 hash_iter capacity max_bytes c →
  c.(tasks) !! t = Some (r, Finished (Some v)) → r.(kind) = Body → ∃ body, v = Found body.
Proof.
  intros I%reachable_inv Ht Hb. destruct v as [b|]; [by eauto|].
  by destruct (to_body _ _ _ _ _ _ (iv_tasks _ I _ _ _ Ht) Hb).
Qed.

(** ** Flights and their owners

    A flight is removed by a request that holds its gate, or by the removal that
    a dropped request spawned. A request dropped while it waits for the gate, or
    in [finish] once the key is taken, spawns none. *)

Definition unguarded (pc : Pc) : Prop :=
  match pc with Waiting _ | Finishing _ _ => True | _ => False end.

Definition graceful (c c' : Config) : Prop :=
  step c c' ∧ ∀ t r pc, c.(tasks) !! t = Some (r, pc) → c'.(tasks) !! t = None →
    ¬ unguarded pc ∧ c'.(orphans) = c.(orphans) ++ dropped r pc.

Definition owned (c : Config) : Prop :=
  ∀ k g, c.(state).(flights) !! k = Some g →
    (∃ t r pc, c.(tasks) !! t = Some (r, pc) ∧ gate_of pc = Some g) ∨ (k, g) ∈ c.(orphans).

(** The owner of a flight stays it unless the flight goes. *)
Lemma owned_move c t r pc pc' s' :
  owned c → c.(tasks) !! t = Some (r, pc) → s'.(flights) ⊆ c.(state).(flights) →
  (∀ k g, gate_of pc = Some g → s'.(flights) !! k = Some g → gate_of pc' = Some g) →
  owned (set_pc t r pc' s' c).
Proof.
  intros HO Ht Hsub Hg k g Hf. destruct (HO k g) as [(t0 & r0 & pc0 & Ht0 & Hg0)|]; [by eapply lookup_weaken| |by right].
  left. destruct (decide (t0 = t)) as [->|Hne]; cbn.
  - rewrite Ht0 in Ht. injection Ht as -> ->. exists t, r, pc'. rewrite lookup_insert_eq. eauto.
  - exists t0, r0, pc0. by rewrite lookup_insert_ne.
Qed.

Lemma owned_shrink c s' ts n now src d :
  owned c → s'.(flights) ⊆ c.(state).(flights) → c.(tasks) ⊆ ts →
  owned (MkConfig s' now n ts c.(orphans) src d).
Proof.
  intros HO Hsub Hts k g Hf. destruct (HO k g) as [(t0 & r0 & pc0 & Ht0 & Hg0)|]; [by eapply lookup_weaken| |by right].
  left. exists t0, r0, pc0. split; [|done]. by eapply lookup_weaken.
Qed.

Lemma remove_gone k g s : (remove_matching_flight k g s).(flights) !! k ≠ Some g.
Proof.
  unfold remove_matching_flight. case_decide; [|done]. cbn. by rewrite lookup_delete_eq.
Qed.

Lemma owned_join c t r g s' :
  owned c → c.(tasks) !! t = Some (r, Missed) →
  join_flight capacity c.(next_gate) (scoped r) c.(state) = (g, s') →
  owned (MkConfig s' c.(now) (S c.(next_gate))
           (<[t := (r, match g with Some g => Waiting g | None => Direct end)]> c.(tasks))
           c.(orphans) c.(source) c.(dirty)).
Proof.
  intros HO Ht Hj k g' Hf. cbn in *.
  assert (flights (state c) !! k = Some g' ∨ g = Some g') as [Hf0| ->].
  { unfold join_flight in Hj. destruct (flights (state c) !! scoped r); [injection Hj as <- <-; by left|].
    case_decide; injection Hj as <- <-; [|by left]. cbn in Hf. apply lookup_insert_Some in Hf as [[_ <-]|[_ ?]]; auto. }
  - destruct (HO _ _ Hf0) as [(t0 & r0 & pc0 & Ht0 & Hg0)|]; [|by right]. left. exists t0, r0, pc0.
    rewrite lookup_insert_ne; [done|]. intros ->. rewrite Ht0 in Ht. by injection Ht as -> ->.
  - left. exists t, r, (Waiting g'). by rewrite lookup_insert_eq.
Qed.

Lemma owned_cancel c t r pc :
  Inv c → owned c → c.(tasks) !! t = Some (r, pc) → ¬ unguarded pc →
  owned (MkConfig c.(state) c.(now) c.(next_gate) (delete t c.(tasks)) (c.(orphans) ++ dropped r pc)
           c.(source) c.(dirty)).
Proof.
  intros I HO Ht Hu k g Hf. cbn in *. rewrite elem_of_app.
  destruct (HO k g Hf) as [(t0 & r0 & pc0 & Ht0 & Hg0)|]; [|auto].
  destruct (decide (t0 = t)) as [->|Hne].
  - rewrite Ht0 in Ht. injection Ht as -> ->. right. right.
    destruct (to_gate _ _ _ _ _ _ (iv_tasks _ I _ _ _ Ht0) _ Hg0) as [_ Hk]. rewrite (Hk _ Hf).
    destruct pc; cbn in Hg0, Hu |- *; try done; injection Hg0 as ->; set_solver.
  - left. exists t0, r0, pc0. by rewrite lookup_delete_ne.
Qed.

Lemma owned_step c c' : Inv c → owned c → graceful c c' → owned c'.
Proof.
  intros I HO [Hs Hd]. destruct Hs as [t r Ht|d _|t r v s' Ht Hf|t r g s' Ht Hj|t r res Ht Hr|t r g Ht Hfree
    |t r g v s' Ht Hf|t r g Ht Hb|t r g Ht|t r g v Ht|t r g res Ht|t r pc sp Ht _|pre k g post Ho|k v|p].
  - apply owned_shrink; [done|done|by apply insert_subseteq].
  - by apply owned_shrink.
  - apply fresh_keeps in Hf as (_ & Hfl & _). eapply owned_move; [done|done|by rewrite Hfl|done].
  - by apply owned_join.
  - by eapply owned_move.
  - by eapply owned_move.
  - apply fresh_keeps in Hf as (_ & Hfl & _). eapply owned_move; [done|done|by rewrite Hfl|by destruct v].
  - by eapply owned_move.
  - by eapply owned_move.
  - pose proof (iv_tasks _ I _ _ _ Ht) as [T1 T2 _ _].
    destruct (store_cases c.(now) (ttl_of r v) (scoped r) g v c.(state)) as (_ & Hfl & Hgone & _); [apply I| |].
    { destruct (decide (flights (state c) !! scoped r = Some g)); [left; by apply (T2 g)|by right]. }
    eapply owned_move; [done|done|done|]. intros k g' Hg' Hk. injection Hg' as <-.
    pose proof (lookup_weaken _ _ _ _ Hk Hfl) as Hk0. destruct (T1 g eq_refl) as [_ Hu].
    pose proof (Hu _ Hk0) as ->. rewrite (Hgone Hk0) in Hk. done.
  - pose proof (iv_tasks _ I _ _ _ Ht) as [T1 _ _ _]. pose proof (remove_keeps (scoped r) g (state c)) as [_ Hfl].
    eapply owned_move; [done|done|done|]. intros k g' Hg' Hk. injection Hg' as <-.
    destruct (T1 g eq_refl) as [_ Hu]. rewrite (Hu k) in Hk by (by eapply lookup_weaken). by destruct (remove_gone _ _ _ Hk).
  - destruct (Hd t r pc Ht) as [Hu Ho]; [apply lookup_delete_eq|]. cbn in Ho. apply app_inv_head in Ho as ->.
    by apply owned_cancel.
  - intros j g' Hj. cbn in *. destruct (HO j g') as [?|Hin]; [|by left|].
    { eapply lookup_weaken; [exact Hj|]. apply remove_keeps. }
    right. rewrite Ho in Hin. assert ((j, g') ≠ (k, g)) by (intros [= -> ->]; by destruct (remove_gone _ _ _ Hj)).
    set_solver.
  - by apply owned_shrink.
  - apply owned_shrink; [done| |done]. apply map_filter_subseteq.
Qed.

(** C22. Flights drain: when requests are only dropped while their clean-up is armed,
    every registered flight has a request at its gate or a pending removal, so
    once neither is left no flight is, and every key can be cached again. *)
Theorem flights_drain src c :
  rtc graceful (initial src) c →
  (∀ t r pc, c.(tasks) !! t = Some (r, pc) → gate_of pc = None) → c.(orphans) = [] →
  c.(state).(flights) = ∅.
Proof.
  intros Hr Hidle Horph. assert (Inv c ∧ owned c) as [_ HO].
  { assert (Inv (initial src) ∧ owned (initial src)) as H0 by (split; [apply inv_initial|done]).
    clear Hidle Horph. induction Hr as [|x y z Hs _ IH]; [done|]. destruct H0 as [I0 O0].
    apply IH. split; [by eapply inv_step; [|apply Hs]|by eapply owned_step]. }
  apply map_empty. intros k. destruct (flights (state c) !! k) as [g|] eqn:Hk; [|done].
  destruct (HO _ _ Hk) as [(t & r & pc & Ht & Hg)|Hin].
  - by rewrite (Hidle _ _ _ Ht) in Hg.
  - rewrite Horph in Hin. set_solver.
Qed.
End props.
End CacheProps.
