(* ===== verification/CacheDemo.v ===== *)
(** * Runs of the response cache

    A request that misses, loads and stores, the look-up it serves, and a request
    dropped in its clean-up. *)

From S2P Require Import Prelude WirePrimitives Connector ResponseCache ResponseCacheProps.

Module CacheDemo.
Import Cache CacheProps.

(** One entry, a kilobyte; the digest is a stand-in. *)
Definition demo_sha256 (bs : bytes) : bytes := firstn 32 bs.
Definition iter (m : gmap bytes CacheEntry) : list (bytes * CacheEntry) := map_to_list m.
Notation step := (step demo_sha256 iter 1 1024).
Notation reachable := (reachable demo_sha256 iter 1 1024).
Notation graceful := (graceful demo_sha256 iter 1 1024).

Definition src (k : bytes) : option bytes := if decide (k = str "a") then Some [1; 2; 3] else None.
Definition rq : Request := {| key := str "a"; kind := Body; found_ttl := 30; not_found_ttl := 0 |}.
Definition body : CachedLookup := cached_lookup demo_sha256 (Some [1; 2; 3]).

Definition c0 : Config := initial src.
Definition c1 : Config := set_pc 0 rq Init c0.(state) c0.
Definition c2 : Config := set_pc 0 rq Missed c1.(state) c1.
Definition s3 : CacheState := (join_flight 1 0 (scoped rq) c2.(state)).2.
Definition c3 : Config := MkConfig s3 0 1 (<[0%nat := (rq, Waiting 0)]> c2.(tasks)) [] src ∅.
Definition c4 : Config := set_pc 0 rq (Held 0) s3 c3.
Definition c5 : Config := set_pc 0 rq (Loading 0) s3 c4.
Definition c6 : Config := set_pc 0 rq (Loaded 0 body) s3 c5.
Definition c7 : Config :=
  set_pc 0 rq (Finished (Some body)) (store iter 1 1024 0 30 (scoped rq) 0 body s3) c6.
Definition failed : Config := set_pc 0 rq (Finishing 0 None) s3 c5.
Definition abandoned : Config := MkConfig s3 0 1 (delete 0%nat failed.(tasks)) [] src ∅.

Lemma only_task ts r pc t r' pc' :
  (ts : gmap nat (Request * Pc)) = {[0%nat := (r, pc)]} → ts !! t = Some (r', pc') → r' = r ∧ pc' = pc.
Proof. by intros -> [_ [= <- <-]]%lookup_singleton_Some. Qed.

Lemma graceful_keep c c' r pc :
  step c c' → c'.(tasks) = <[0%nat := (r, pc)]> c.(tasks) → graceful c c'.
Proof.
  intros Hs Ht. split; [done|]. intros t r0 pc0 H1 H2. rewrite Ht in H2.
  apply lookup_insert_None in H2 as [H2 _]. congruence.
Qed.
Lemma run_loading : rtc graceful c0 c5.
Proof.
  eapply rtc_l; [apply (graceful_keep c0 c1 rq Init); [by apply (SSpawn _ _ _ _ c0 0 rq)|done]|].
  eapply rtc_l; [apply (graceful_keep c1 c2 rq Missed); [by apply (SFresh _ _ _ _ c1 0 rq None)|done]|].
  eapply rtc_l; [apply (graceful_keep c2 c3 rq (Waiting 0)); [|done]|].
  { by apply (SJoin _ _ _ _ c2 0 rq (Some 0%nat) s3). }
  eapply rtc_l; [apply (graceful_keep c3 c4 rq (Held 0)); [|done]|].
  { apply (SAcquire _ _ _ _ c3 0 rq 0); [done|]. intros t r pc Ht.
    by destruct (only_task c3.(tasks) rq (Waiting 0) t r pc eq_refl Ht) as [-> ->]. }
  eapply rtc_l; [apply (graceful_keep c4 c5 rq (Loading 0)); [|done]|apply rtc_refl].
  by apply (SRecheck _ _ _ _ c4 0 rq 0 None s3).
Qed.

Lemma step_load : step c5 c6.
Proof. apply (SLoad _ _ _ _ c5 0 rq 0); [done|]. intros _. by exists [1; 2; 3]. Qed.

Lemma step_store : step c6 c7.
Proof. by apply (SStore _ _ _ _ c6 0 rq 0 body). Qed.

Lemma run_loaded : rtc graceful c0 c7.
Proof.
  etrans; [exact run_loading|].
  eapply rtc_l; [by eapply graceful_keep; [apply step_load|]|].
  eapply rtc_l; [by eapply graceful_keep; [apply step_store|]|apply rtc_refl].
Qed.

Lemma graceful_reachable c : rtc graceful c0 c → reachable c.
Proof. intros Hr. exists src. eapply rtc_subrel; [|exact Hr]. by intros x y [? _]. Qed.

Lemma iter_ok m : iter m ≡ₚ map_to_list m.
Proof. done. Qed.

Lemma cache_coherent_witness :
  reachable c7 ∧ (fresh 1 (scoped rq) c7.(state)).1 = Some body ∧
  body = cached_lookup demo_sha256 (c7.(source) rq.(key)).
Proof.
  split; [apply graceful_reachable, run_loaded|]. split; [by vm_compute|].
  apply (cache_coherent demo_sha256 iter 1 1024 iter_ok ltac:(lia) ltac:(by vm_compute) c7 rq body
           (fresh 0 (scoped rq) c7.(state)).2).
  - apply graceful_reachable, run_loaded.
  - by vm_compute.
  - by vm_compute.
Defined.

Lemma cache_bounded_witness : c7.(state).(used) = 3 ∧ c7.(state).(used) ≤ 1024.
Proof.
  split; [by vm_compute|].
  apply (cache_bounded demo_sha256 iter 1 1024 iter_ok ltac:(lia) ltac:(by vm_compute) c7).
  apply graceful_reachable, run_loaded.
Defined.

Lemma misses_coalesce_witness :
  c5.(state).(flights) !! scoped rq = Some 0%nat ∧ c5.(state).(entries) !! scoped rq = None.
Proof.
  split; [by vm_compute|].
  apply (misses_coalesce demo_sha256 iter 1 1024 iter_ok ltac:(lia) ltac:(by vm_compute) c5
           0 0 rq rq (Loading 0) (Loading 0) 0); try by vm_compute.
  apply graceful_reachable, run_loading.
Defined.

Lemma body_load_found_witness : ∃ b, body = Found b.
Proof.
  apply (body_load_found demo_sha256 iter 1 1024 iter_ok ltac:(lia) ltac:(by vm_compute) c7 0 rq body).
  - apply graceful_reachable, run_loaded.
  - by vm_compute.
  - done.
Defined.

Lemma flights_drain_witness : c7.(state).(flights) = ∅.
Proof.
  apply (flights_drain demo_sha256 iter 1 1024 iter_ok ltac:(lia) ltac:(by vm_compute) src c7).
  - exact run_loaded.
  - intros t r pc Ht.
    by destruct (only_task c7.(tasks) rq (Finished (Some body)) t r pc eq_refl Ht) as [-> ->].
  - done.
Defined.

(** A request dropped in [FlightCleanup::finish], after the key has been taken and
    before the lock is had, leaves its flight behind: no request and no removal is
    left, and a request for another key finds no room for a flight, so its result
    is never stored. *)
Theorem abandoned_flight_stays k :
  k ≠ scoped rq →
  reachable abandoned ∧ abandoned.(tasks) = ∅ ∧ abandoned.(orphans) = [] ∧
  (join_flight 1 abandoned.(next_gate) k abandoned.(state)).1 = None.
Proof.
  intros Hk. split_and!; [|by vm_compute|done|].
  - destruct (graceful_reachable c5 run_loading) as [sr Hr]. exists sr.
    etrans; [exact Hr|].
    eapply rtc_l; [by apply (SLoadErr _ _ _ _ c5 0 rq 0)|].
    eapply rtc_l; [|apply rtc_refl].
    by apply (SCancel _ _ _ _ failed 0 rq (Finishing 0 None) []); [|left].
  - unfold join_flight. replace (flights (state abandoned)) with ({[scoped rq := 0%nat]} : gmap bytes nat) by (by vm_compute).
    rewrite lookup_singleton_ne by done. by rewrite map_size_singleton.
Qed.

Lemma abandoned_flight_stays_witness :
  (join_flight 1 abandoned.(next_gate) (str "b") abandoned.(state)).1 = None.
Proof. apply (abandoned_flight_stays (str "b")). by vm_compute. Defined.
End CacheDemo.
