(* ===== verification/ControlProof.v ===== *)
(** * Agent control: commitments and proofs of possession

    Models [crates/dtx-agent-control/src/digest.rs] and [proof.rs]: digests over
    length-prefixed parts, and the statements that a connector signs to enrol, to
    rotate its credential and to have an expired one reissued.  SHA-256 and
    Ed25519 are the classes of [WireValues]. *)

From S2P Require Import Prelude Domain CanonicalCbor CborSpec CborFields WirePrimitives WireValues Connector.

(** Splits the guards that a successful check leaves behind. *)
Ltac not_ors :=
  repeat match goal with H : ¬ (_ ∨ _) |- _ => apply Decidable.not_or in H as [? ?] end;
  repeat match goal with
    | H : ¬ (_ ≠ _) |- _ => apply dec_stable in H
    | H : ¬ (_ = false) |- _ => apply not_false_is_true in H
    | H : _ ≠ false |- _ => apply not_false_is_true in H
    | H : bool_decide _ = true |- _ => apply bool_decide_eq_true in H
    end.

Notation EnrollmentIntentId := (UuidV7Id KEnrollmentIntent).
Notation ConnectorCredentialId := (UuidV7Id KConnectorCredential).
Notation RequestId := (UuidV7Id KRequest).

Module Control.

(** ** [digest.rs] *)

Record Sha256Digest : Type := from_bytes { as_bytes : bytes }.
Global Instance Sha256Digest_eq_dec : EqDecision Sha256Digest.
Proof. solve_decision. Defined.
Global Instance as_bytes_inj : Inj (=) (=) as_bytes.
Proof. intros [x] [y]; simpl; congruence. Qed.
Global Program Instance Sha256Digest_countable : Countable Sha256Digest :=
  inj_countable' as_bytes from_bytes _.
Next Obligation. by intros []. Qed.

(** The array type [[u8; 32]]. *)
Definition digest_ok (d : Sha256Digest) : Prop := length (as_bytes d) = 32%nat.

(** A comparison that reads every byte. *)
Definition ct_eq (self other : Sha256Digest) : bool :=
  bool_decide (foldl (λ difference p, Z.lor difference (Z.lxor p.1 p.2)) 0
                 (zip (as_bytes self) (as_bytes other)) = 0).

(** [update_part], [append_part] and the loop of [encode_parts]. *)
Definition part (value : bytes) : bytes := to_be_bytes 8 (Z.of_nat (length value)) ++ value.
Definition encode_parts (domain : bytes) (parts : list bytes) : bytes := (domain :: parts) ≫= part.

Definition uuid_bytes {k} (id : UuidV7Id k) : bytes := to_be_bytes 16 (as_uuid id).
Definition append_uuid {k} (output : bytes) (id : UuidV7Id k) : bytes := output ++ part (uuid_bytes id).
Definition append_u64 (output : bytes) (value : Z) : bytes := output ++ part (to_be_bytes 8 value).
Definition append_part (output value : bytes) : bytes := output ++ part value.

Definition RUN_FAILED_REPORT_DOMAIN : bytes := str "dirextalk.run-failed-report.v1".

Section digests.
Context `{Sha256}.
Definition domain_digest (domain : bytes) (parts : list bytes) : Sha256Digest :=
  from_bytes (sha256 (encode_parts domain parts)).
Definition raw_sha256_digest (bs : bytes) : Sha256Digest := from_bytes (sha256 bs).

Definition run_failed_report_digest (stable_error_code : bytes)
    (evidence : option (bytes * Sha256Digest)) : Sha256Digest :=
  match evidence with
  | Some (artifact_id, digest) =>
      domain_digest RUN_FAILED_REPORT_DOMAIN
        [stable_error_code; [1]; artifact_id; as_bytes digest]
  | None => domain_digest RUN_FAILED_REPORT_DOMAIN [stable_error_code; [0]]
  end.
End digests.

(** ** [proof.rs] *)

Definition ENROLLMENT_PROOF_DOMAIN : bytes := str "dirextalk.connector-enrollment-proof.v1".
Definition ENROLLMENT_REQUEST_DOMAIN : bytes := str "dirextalk.connector-enrollment-request.v1".
Definition ROTATION_PROOF_DOMAIN : bytes := str "dirextalk.connector-credential-rotation-proof.v1".
Definition ROTATION_REQUEST_DOMAIN : bytes :=
  str "dirextalk.connector-credential-rotation-request.v1".
Definition CREDENTIAL_REISSUE_PROOF_DOMAIN : bytes :=
  str "dirextalk.connector-credential-reissue.v1" ++ [0].
Definition CREDENTIAL_REISSUE_REQUEST_DOMAIN : bytes :=
  str "dirextalk.connector-credential-reissue-request.v1".

Inductive ProofError : Type := InvalidGeneration | InvalidSequence | KeyReuse | InvalidSignature.

Definition validate_generation (generation : Z) : result ProofError unit :=
  reject InvalidGeneration when (generation = 0 ∨ generation > Revision.MAX).

(** The bytes of an [Ed25519PublicKey]; its construction is [WireValues]'. *)
Notation Key := SigningPublicKey.

Record CredentialReissueRequest : Type := {
  ri_operation_id : RequestId;
  ri_intent_id : EnrollmentIntentId;
  ri_token_digest : Sha256Digest;
  ri_tenant_id : TenantId;
  ri_host_id : HostId;
  ri_connector_id : ConnectorId;
  ri_current_credential_id : ConnectorCredentialId;
  ri_current_fingerprint : Sha256Digest;
  ri_generation : Z;
  ri_spec_revision : Revision;
  ri_new_control_key : Key;
  ri_current_control_signature : bytes;
  ri_new_control_signature : bytes
}.

Record EnrollmentTranscript : Type := {
  en_tenant_id : TenantId;
  en_host_id : HostId;
  en_connector_id : ConnectorId;
  en_generation : Z;
  en_spec_revision : Revision;
  en_request_id : RequestId;
  en_token_digest : Sha256Digest;
  en_control_key : Key;
  en_refresh_key : Key
}.

Record EnrollmentRequest : Type := {
  er_transcript : EnrollmentTranscript;
  er_control_signature : bytes;
  er_refresh_signature : bytes
}.

Record CredentialRotationTranscript : Type := {
  ro_tenant_id : TenantId;
  ro_connector_id : ConnectorId;
  ro_request_id : RequestId;
  ro_current_credential_id : ConnectorCredentialId;
  ro_current_generation : Z;
  ro_successor_generation : Z;
  ro_command_sequence : Z;
  ro_command_payload_digest : Sha256Digest;
  ro_successor_revision : Revision;
  ro_nonce : bytes;
  ro_new_control_key : Key
}.

Record CredentialRotationRequest : Type := {
  rr_transcript : CredentialRotationTranscript;
  rr_refresh_signature : bytes;
  rr_new_control_signature : bytes
}.

Definition EnrollmentTranscript_new (tenant : TenantId) (host : HostId) (connector : ConnectorId)
    (generation : Z) (spec_revision : Revision) (request : RequestId) (token : Sha256Digest)
    (control_key refresh_key : Key) : result ProofError EnrollmentTranscript :=
  validate_generation generation;;
  reject KeyReuse when (control_key = refresh_key);;
  Ok {| en_tenant_id := tenant; en_host_id := host; en_connector_id := connector;
        en_generation := generation; en_spec_revision := spec_revision; en_request_id := request;
        en_token_digest := token; en_control_key := control_key; en_refresh_key := refresh_key |}.

Definition CredentialRotationTranscript_new (tenant : TenantId) (connector : ConnectorId)
    (request : RequestId) (credential : ConnectorCredentialId) (current_generation : Z)
    (command_sequence : Z) (payload_digest : Sha256Digest) (successor_revision : Revision)
    (nonce : bytes) (new_control_key : Key) : result ProofError CredentialRotationTranscript :=
  validate_generation current_generation;;
  reject InvalidSequence when (command_sequence = 0 ∨ command_sequence > Revision.MAX);;
  successor_generation ← ok_or (v ← u64_checked_add current_generation 1; checked 0 Revision.MAX v)
    InvalidGeneration;
  Ok {| ro_tenant_id := tenant; ro_connector_id := connector; ro_request_id := request;
        ro_current_credential_id := credential; ro_current_generation := current_generation;
        ro_successor_generation := successor_generation; ro_command_sequence := command_sequence;
        ro_command_payload_digest := payload_digest; ro_successor_revision := successor_revision;
        ro_nonce := nonce; ro_new_control_key := new_control_key |}.

Definition reissue_signing_bytes (r : CredentialReissueRequest) : bytes :=
  encode_parts CREDENTIAL_REISSUE_PROOF_DOMAIN
    [uuid_bytes r.(ri_operation_id); uuid_bytes r.(ri_intent_id); as_bytes r.(ri_token_digest);
     uuid_bytes r.(ri_tenant_id); uuid_bytes r.(ri_host_id); uuid_bytes r.(ri_connector_id);
     uuid_bytes r.(ri_current_credential_id); as_bytes r.(ri_current_fingerprint);
     to_be_bytes 8 r.(ri_generation); to_be_bytes 8 r.(ri_spec_revision);
     key_bytes r.(ri_new_control_key)].

Definition encode_enrollment_transcript (t : EnrollmentTranscript) : bytes :=
  let output := append_part [] ENROLLMENT_PROOF_DOMAIN in
  let output := append_uuid output t.(en_tenant_id) in
  let output := append_uuid output t.(en_host_id) in
  let output := append_uuid output t.(en_connector_id) in
  let output := append_u64 output t.(en_generation) in
  let output := append_u64 output t.(en_spec_revision) in
  let output := append_uuid output t.(en_request_id) in
  let output := append_part output (as_bytes t.(en_token_digest)) in
  let output := append_part output (key_bytes t.(en_control_key)) in
  append_part output (key_bytes t.(en_refresh_key)).

Definition encode_rotation_transcript (t : CredentialRotationTranscript) : bytes :=
  let output := append_part [] ROTATION_PROOF_DOMAIN in
  let output := append_uuid output t.(ro_tenant_id) in
  let output := append_uuid output t.(ro_connector_id) in
  let output := append_uuid output t.(ro_request_id) in
  let output := append_uuid output t.(ro_current_credential_id) in
  let output := append_u64 output t.(ro_current_generation) in
  let output := append_u64 output t.(ro_successor_generation) in
  let output := append_u64 output t.(ro_command_sequence) in
  let output := append_part output (as_bytes t.(ro_command_payload_digest)) in
  let output := append_u64 output t.(ro_successor_revision) in
  let output := append_part output t.(ro_nonce) in
  append_part output (key_bytes t.(ro_new_control_key)).

Section proofs.
Context `{Ed25519, Sha256}.

Definition verify_signature (key : Key) (message signature : bytes) : result ProofError unit :=
  vk ← ok_or (vk_from_bytes (key_bytes key)) InvalidSignature;
  if verify_strict vk message signature then Ok tt else Err InvalidSignature.

(** [CredentialReissueToken], held by the caller: only its digest is kept. *)
Definition reissue_token_digest (token : bytes) : Sha256Digest := raw_sha256_digest token.

Definition reissue_request_digest (r : CredentialReissueRequest) : Sha256Digest :=
  domain_digest CREDENTIAL_REISSUE_REQUEST_DOMAIN
    [reissue_signing_bytes r; r.(ri_current_control_signature); r.(ri_new_control_signature)].
Definition reissue_verify (current_control_key : Key) (r : CredentialReissueRequest) :
    result ProofError unit :=
  let bs := reissue_signing_bytes r in
  verify_signature current_control_key bs r.(ri_current_control_signature);;
  verify_signature r.(ri_new_control_key) bs r.(ri_new_control_signature).

Definition enrollment_request_digest (r : EnrollmentRequest) : Sha256Digest :=
  domain_digest ENROLLMENT_REQUEST_DOMAIN
    [encode_enrollment_transcript r.(er_transcript); r.(er_control_signature); r.(er_refresh_signature)].
Definition enrollment_verify (r : EnrollmentRequest) : result ProofError unit :=
  let bs := encode_enrollment_transcript r.(er_transcript) in
  verify_signature r.(er_transcript).(en_control_key) bs r.(er_control_signature);;
  verify_signature r.(er_transcript).(en_refresh_key) bs r.(er_refresh_signature).

Definition rotation_request_digest (r : CredentialRotationRequest) : Sha256Digest :=
  domain_digest ROTATION_REQUEST_DOMAIN
    [encode_rotation_transcript r.(rr_transcript); r.(rr_refresh_signature); r.(rr_new_control_signature)].
Definition rotation_verify (refresh_key : Key) (r : CredentialRotationRequest) :
    result ProofError unit :=
  let bs := encode_rotation_transcript r.(rr_transcript) in
  verify_signature refresh_key bs r.(rr_refresh_signature);;
  verify_signature r.(rr_transcript).(ro_new_control_key) bs r.(rr_new_control_signature).
End proofs.

(** ** Comparison and framing *)

Lemma lor_zero x y : Z.lor x y = 0 ↔ x = 0 ∧ y = 0.
Proof. apply Z.lor_eq_0_iff. Qed.

Lemma ct_eq_fold l k d :
  length l = length k →
  foldl (λ difference p, Z.lor difference (Z.lxor p.1 p.2)) d (zip l k) = 0 ↔ d = 0 ∧ l = k.
Proof.
  revert k d. induction l as [|x l IH]; intros [|y k] d Hl; simpl in *; try done.
  { naive_solver. }
  rewrite IH by lia. rewrite lor_zero, Z.lxor_eq_0_iff. naive_solver.
Qed.

(** On digests the comparison is equality. *)
Lemma ct_eq_iff a b : digest_ok a → digest_ok b → ct_eq a b = true ↔ a = b.
Proof.
  intros Ha Hb. unfold ct_eq. rewrite bool_decide_eq_true, ct_eq_fold by congruence.
  destruct a, b; naive_solver.
Qed.

Lemma ct_eq_refl a : ct_eq a a = true.
Proof. unfold ct_eq. by rewrite bool_decide_eq_true, ct_eq_fold. Qed.

(** A part that fits the length prefix, as every Rust slice does. *)
Definition part_ok (b : bytes) : Prop := Z.of_nat (length b) < 2 ^ 64.

Lemma part_inj b b' x y : part_ok b → part_ok b' → part b ++ x = part b' ++ y → b = b' ∧ x = y.
Proof.
  unfold part, part_ok. intros Hb Hb' Heq. rewrite <-!(assoc_L (++)) in Heq.
  apply app_inj_1 in Heq as [Hl Heq]; [|by rewrite !length_to_be_bytes].
  apply (f_equal from_be_bytes) in Hl. rewrite !from_to_be_bytes in Hl by (simpl; lia).
  apply app_inj_1 in Heq; [done|lia].
Qed.

Lemma part_nonempty b x : part b ++ x ≠ [].
Proof.
  intros Heq%(f_equal length). unfold part in Heq. rewrite !length_app, length_to_be_bytes in Heq.
  change (length (A := Z) []) with 0%nat in Heq. lia.
Qed.

Lemma parts_inj ps qs :
  Forall part_ok ps → Forall part_ok qs → ps ≫= part = qs ≫= part → ps = qs.
Proof.
  intros Hp. revert qs. induction Hp as [|p ps Hp _ IH]; intros qs Hq Heq.
  - destruct qs as [|q qs]; [done|]. rewrite bind_cons in Heq. by destruct (part_nonempty q (qs ≫= part)).
  - destruct Hq as [|q qs Hq Hqs]; rewrite bind_cons in Heq.
    { by destruct (part_nonempty _ _ Heq). }
    rewrite bind_cons in Heq. apply part_inj in Heq as [-> Heq]; [|done|done]. f_equal. by apply IH.
Qed.

Lemma u64_inj x y : 0 ≤ x < 2 ^ 64 → 0 ≤ y < 2 ^ 64 → to_be_bytes 8 x = to_be_bytes 8 y → x = y.
Proof.
  intros Hx Hy Heq%(f_equal from_be_bytes). by rewrite !from_to_be_bytes in Heq by (simpl; lia).
Qed.

Lemma uuid_bytes_inj {k} (x y : UuidV7Id k) : id_valid x → id_valid y → uuid_bytes x = uuid_bytes y → x = y.
Proof.
  unfold id_valid, uuid_range, uuid_bytes. intros Hx Hy Heq%(f_equal from_be_bytes).
  rewrite !from_to_be_bytes in Heq by (simpl; lia). destruct x, y; simpl in *. by subst.
Qed.

(** ** What is signed *)

Inductive Statement : Type :=
| Enroll (t : EnrollmentTranscript)
| Rotate (t : CredentialRotationTranscript)
| Reissue (r : CredentialReissueRequest).

Definition signing_bytes (s : Statement) : bytes :=
  match s with
  | Enroll t => encode_enrollment_transcript t
  | Rotate t => encode_rotation_transcript t
  | Reissue r => reissue_signing_bytes r
  end.

Definition statement_parts (s : Statement) : list bytes :=
  match s with
  | Enroll t =>
      [ENROLLMENT_PROOF_DOMAIN; uuid_bytes t.(en_tenant_id); uuid_bytes t.(en_host_id);
       uuid_bytes t.(en_connector_id); to_be_bytes 8 t.(en_generation); to_be_bytes 8 t.(en_spec_revision);
       uuid_bytes t.(en_request_id); as_bytes t.(en_token_digest); key_bytes t.(en_control_key);
       key_bytes t.(en_refresh_key)]
  | Rotate t =>
      [ROTATION_PROOF_DOMAIN; uuid_bytes t.(ro_tenant_id); uuid_bytes t.(ro_connector_id);
       uuid_bytes t.(ro_request_id); uuid_bytes t.(ro_current_credential_id);
       to_be_bytes 8 t.(ro_current_generation); to_be_bytes 8 t.(ro_successor_generation);
       to_be_bytes 8 t.(ro_command_sequence); as_bytes t.(ro_command_payload_digest);
       to_be_bytes 8 t.(ro_successor_revision); t.(ro_nonce); key_bytes t.(ro_new_control_key)]
  | Reissue r =>
      [CREDENTIAL_REISSUE_PROOF_DOMAIN; uuid_bytes r.(ri_operation_id); uuid_bytes r.(ri_intent_id);
       as_bytes r.(ri_token_digest); uuid_bytes r.(ri_tenant_id); uuid_bytes r.(ri_host_id);
       uuid_bytes r.(ri_connector_id); uuid_bytes r.(ri_current_credential_id);
       as_bytes r.(ri_current_fingerprint); to_be_bytes 8 r.(ri_generation);
       to_be_bytes 8 r.(ri_spec_revision); key_bytes r.(ri_new_control_key)]
  end.

Lemma signing_bytes_parts s : signing_bytes s = statement_parts s ≫= part.
Proof.
  destruct s; cbn; unfold encode_enrollment_transcript, encode_rotation_transcript, append_part, append_uuid, append_u64.
  all: rewrite ?app_nil_l, ?app_nil_r, <-?(assoc_L (++)); done.
Qed.

(** The values of the Rust types: identifiers of 128 bits, counters of 64 bits,
    arrays of 32 bytes. *)
Definition u64_ok (x : Z) : Prop := 0 ≤ x < 2 ^ 64.
Definition key_ok (k : Key) : Prop := length (key_bytes k) = 32%nat.
Definition statement_ok (s : Statement) : Prop :=
  match s with
  | Enroll t =>
      id_valid t.(en_tenant_id) ∧ id_valid t.(en_host_id) ∧ id_valid t.(en_connector_id) ∧
      u64_ok t.(en_generation) ∧ u64_ok t.(en_spec_revision) ∧ id_valid t.(en_request_id) ∧
      digest_ok t.(en_token_digest) ∧ key_ok t.(en_control_key) ∧ key_ok t.(en_refresh_key)
  | Rotate t =>
      id_valid t.(ro_tenant_id) ∧ id_valid t.(ro_connector_id) ∧ id_valid t.(ro_request_id) ∧
      id_valid t.(ro_current_credential_id) ∧ u64_ok t.(ro_current_generation) ∧
      u64_ok t.(ro_successor_generation) ∧ u64_ok t.(ro_command_sequence) ∧
      digest_ok t.(ro_command_payload_digest) ∧ u64_ok t.(ro_successor_revision) ∧
      length t.(ro_nonce) = 32%nat ∧ key_ok t.(ro_new_control_key)
  | Reissue r =>
      id_valid r.(ri_operation_id) ∧ id_valid r.(ri_intent_id) ∧ digest_ok r.(ri_token_digest) ∧
      id_valid r.(ri_tenant_id) ∧ id_valid r.(ri_host_id) ∧ id_valid r.(ri_connector_id) ∧
      id_valid r.(ri_current_credential_id) ∧ digest_ok r.(ri_current_fingerprint) ∧
      u64_ok r.(ri_generation) ∧ u64_ok r.(ri_spec_revision) ∧ key_ok r.(ri_new_control_key)
  end.

(** Reissue requests carry their signatures; the statement is the rest. *)
Definition same_statement (s s' : Statement) : Prop :=
  match s, s' with
  | Enroll t, Enroll t' => t = t'
  | Rotate t, Rotate t' => t = t'
  | Reissue r, Reissue r' =>
      r' = {| ri_operation_id := r.(ri_operation_id); ri_intent_id := r.(ri_intent_id);
              ri_token_digest := r.(ri_token_digest); ri_tenant_id := r.(ri_tenant_id);
              ri_host_id := r.(ri_host_id); ri_connector_id := r.(ri_connector_id);
              ri_current_credential_id := r.(ri_current_credential_id);
              ri_current_fingerprint := r.(ri_current_fingerprint); ri_generation := r.(ri_generation);
              ri_spec_revision := r.(ri_spec_revision); ri_new_control_key := r.(ri_new_control_key);
              ri_current_control_signature := r'.(ri_current_control_signature);
              ri_new_control_signature := r'.(ri_new_control_signature) |}
  | _, _ => False
  end.

Lemma list_cons_inj {A} (x y : A) l k : x :: l = y :: k → x = y ∧ l = k.
Proof. by intros [= -> ->]. Qed.

Lemma short_part_ok b n : length b = n → Z.of_nat n < 2 ^ 64 → part_ok b.
Proof. by intros <-. Qed.

Lemma statement_parts_ok s : statement_ok s → Forall part_ok (statement_parts s).
Proof.
  unfold statement_ok, digest_ok, key_ok, statement_parts.
  destruct s; intros Hs; destruct_and! Hs; rewrite !Forall_cons; split_and!; try apply Forall_nil; try done.
  all: lazymatch goal with
    | |- part_ok (uuid_bytes _) => eapply (short_part_ok _ 16); [apply length_to_be_bytes|done]
    | |- part_ok (to_be_bytes 8 _) => eapply (short_part_ok _ 8); [apply length_to_be_bytes|done]
    | |- part_ok (as_bytes _) => by eapply (short_part_ok _ 32)
    | |- part_ok (key_bytes _) => by eapply (short_part_ok _ 32)
    | |- part_ok (ro_nonce _) => by eapply (short_part_ok _ 32)
    | |- _ => by vm_compute
    end.
Qed.

Lemma key_bytes_inj (k k' : Key) : key_bytes k = key_bytes k' → k = k'.
Proof. destruct k, k'. simpl. congruence. Qed.

(** A signature covers one statement.  The bytes signed for an enrolment, a
    rotation or a reissue determine which of the three it is and every field of
    it, so that a proof of possession made for one statement never serves for
    another. *)
Theorem signed_statement_unique s s' :
  statement_ok s → statement_ok s' → signing_bytes s = signing_bytes s' → same_statement s s'.
Proof.
  intros Hs Hs' Heq. rewrite !signing_bytes_parts in Heq.
  apply parts_inj in Heq; [|by apply statement_parts_ok..].
  destruct s as [t|t|t], s' as [t'|t'|t'];
    try (apply (f_equal (λ l, l !! 0%nat)), (inj Some) in Heq; by vm_compute in Heq).
  all: unfold statement_ok in Hs, Hs'; destruct_and! Hs; destruct_and! Hs'.
  all: unfold statement_parts in Heq;
    repeat (apply list_cons_inj in Heq; destruct Heq as [? Heq]); clear Heq.
  all: repeat match goal with
    | H : uuid_bytes _ = uuid_bytes _ |- _ => apply uuid_bytes_inj in H; [|done|done]
    | H : to_be_bytes 8 _ = to_be_bytes 8 _ |- _ => apply u64_inj in H; [|done|done]
    | H : key_bytes _ = key_bytes _ |- _ => apply key_bytes_inj in H
    | H : as_bytes _ = as_bytes _ |- _ => apply (inj as_bytes) in H
    end; destruct t, t'; cbn in *; congruence.
Qed.
End Control.
