(* ===== verification/ControlCredential.v ===== *)
(** * Agent control: connector credentials

    Models [crates/dtx-agent-control/src/credential.rs]: the public facts of a
    connector certificate and the authorization aggregate that rotates, reissues,
    promotes and revokes them. *)

From S2P Require Import Prelude Domain CanonicalCbor CborSpec CborFields WirePrimitives WireValues Connector ControlProof.

Notation RouteHealthKeyId := (UuidV7Id KRouteHealthKey).

Module Credential.
Import Control.

Definition CREDENTIAL_RESULT_DOMAIN : bytes := str "dirextalk.connector-credential-result.v1".
Definition CREDENTIAL_RESULT_V2_DOMAIN : bytes := str "dirextalk.connector-credential-result.v2" ++ [0].
Definition CREDENTIAL_REISSUE_RESULT_DOMAIN : bytes :=
  str "dirextalk.connector-credential-reissue-result.v1".

Definition MAX_CONNECTOR_CERTIFICATE_CHAIN_ENTRIES : Z := 4.
Definition MAX_CONNECTOR_CERTIFICATE_DER_BYTES : Z := 16384.
Definition MAX_CONNECTOR_CERTIFICATE_CHAIN_BYTES : Z := 65536.
Definition MAX_CONNECTOR_CREDENTIAL_VALIDITY_MILLIS : Z := 86400000.

Record ConnectorCredential : Type := {
  credential_id : ConnectorCredentialId;
  tenant_id : TenantId;
  connector_id : ConnectorId;
  generation : Z;
  revision : Revision;
  control_key : Key;
  refresh_key : Key;
  certificate_fingerprint : Sha256Digest;
  certificate_chain : list bytes;
  not_before_millis : Z;
  not_after_millis : Z;
  route_health_receipt_pin : option (RouteHealthKeyId * bytes)
}.
Global Instance ConnectorCredential_eq_dec : EqDecision ConnectorCredential.
Proof. solve_decision. Defined.

Definition ConnectorCredential_eta (c : ConnectorCredential) : ConnectorCredential :=
  {| credential_id := c.(credential_id); tenant_id := c.(tenant_id);
     connector_id := c.(connector_id); generation := c.(generation); revision := c.(revision);
     control_key := c.(control_key); refresh_key := c.(refresh_key);
     certificate_fingerprint := c.(certificate_fingerprint);
     certificate_chain := c.(certificate_chain); not_before_millis := c.(not_before_millis);
     not_after_millis := c.(not_after_millis);
     route_health_receipt_pin := c.(route_health_receipt_pin) |}.
Global Instance pin_field : Field route_health_receipt_pin :=
  ltac:(field_of ConnectorCredential_eta route_health_receipt_pin).

Inductive ConnectorCredentialError : Type :=
| InvalidGeneration
| KeyReuse
| InvalidCertificateChain
| InvalidCertificateFingerprint
| InvalidValidityWindow
| EnrollmentMismatch.

Definition validate_generation (generation : Z) : result ConnectorCredentialError unit :=
  reject InvalidGeneration when (generation = 0 ∨ generation > Revision.MAX).

Definition valid_timestamp (value : Z) : bool := bool_decide (0 ≤ value ≤ Revision.MAX).

(** [usize] is 64 bits wide. *)
Definition total_bytes (chain : list bytes) : option Z :=
  foldl (λ total certificate, t ← total; u64_checked_add t (Z.of_nat (length certificate)))
    (Some 0) chain.

Section credentials.
Context `{Ed25519, Sha256}.

Definition new (credential_id : ConnectorCredentialId) (tenant_id : TenantId)
    (connector_id : ConnectorId) (generation : Z) (revision : Revision)
    (control_key refresh_key : Key) (fingerprint : Sha256Digest) (chain : list bytes)
    (not_before not_after : Z) : result ConnectorCredentialError ConnectorCredential :=
  validate_generation generation;;
  reject KeyReuse when (control_key = refresh_key);;
  total ← ok_or (total_bytes chain) InvalidCertificateChain;
  reject InvalidCertificateChain
    when (chain = [] ∨ Z.of_nat (length chain) > MAX_CONNECTOR_CERTIFICATE_CHAIN_ENTRIES
          ∨ Exists (λ c, c = [] ∨ Z.of_nat (length c) > MAX_CONNECTOR_CERTIFICATE_DER_BYTES) chain
          ∨ total > MAX_CONNECTOR_CERTIFICATE_CHAIN_BYTES);;
  reject InvalidCertificateFingerprint
    when (ct_eq fingerprint (raw_sha256_digest (default [] (chain !! 0%nat))) = false);;
  reject InvalidValidityWindow
    when (valid_timestamp not_before = false ∨ valid_timestamp not_after = false);;
  validity ← ok_or (i64_checked_sub not_after not_before) InvalidValidityWindow;
  reject InvalidValidityWindow
    when (¬ (1 ≤ validity ≤ MAX_CONNECTOR_CREDENTIAL_VALIDITY_MILLIS));;
  Ok {| credential_id := credential_id; tenant_id := tenant_id; connector_id := connector_id;
        generation := generation; revision := revision; control_key := control_key;
        refresh_key := refresh_key; certificate_fingerprint := fingerprint;
        certificate_chain := chain; not_before_millis := not_before; not_after_millis := not_after;
        route_health_receipt_pin := None |}.

Definition with_route_health_receipt_pin (key_id : RouteHealthKeyId) (public_key : bytes)
    (self : ConnectorCredential) : ConnectorCredential :=
  self <| route_health_receipt_pin := Some (key_id, public_key) |>.

(** The parts of the result digest. *)
Definition result_parts (c : ConnectorCredential) : list bytes :=
  [uuid_bytes c.(credential_id); uuid_bytes c.(tenant_id); uuid_bytes c.(connector_id);
   to_be_bytes 8 c.(generation); to_be_bytes 8 c.(revision); key_bytes c.(control_key);
   key_bytes c.(refresh_key); as_bytes c.(certificate_fingerprint);
   to_be_bytes 8 (Z.of_nat (length c.(certificate_chain)))]
  ++ c.(certificate_chain)
  ++ [to_be_bytes 8 c.(not_before_millis); to_be_bytes 8 c.(not_after_millis)].

Definition result_digest (c : ConnectorCredential) : Sha256Digest :=
  match c.(route_health_receipt_pin) with
  | Some (key_id, public_key) =>
      domain_digest CREDENTIAL_RESULT_V2_DOMAIN (result_parts c ++ [uuid_bytes key_id; public_key])
  | None => domain_digest CREDENTIAL_RESULT_DOMAIN (result_parts c)
  end.

Definition reissue_result_digest (c : ConnectorCredential) (r : CredentialReissueRequest) :
    Sha256Digest :=
  domain_digest CREDENTIAL_REISSUE_RESULT_DOMAIN
    ([uuid_bytes r.(ri_operation_id); uuid_bytes r.(ri_intent_id); uuid_bytes r.(ri_tenant_id);
      uuid_bytes r.(ri_host_id); uuid_bytes r.(ri_connector_id);
      uuid_bytes r.(ri_current_credential_id); as_bytes r.(ri_current_fingerprint);
      to_be_bytes 8 r.(ri_generation); to_be_bytes 8 r.(ri_spec_revision);
      uuid_bytes c.(credential_id); to_be_bytes 8 c.(generation); to_be_bytes 8 c.(revision);
      key_bytes c.(control_key); to_be_bytes 8 (Z.of_nat (length c.(certificate_chain)))]
     ++ c.(certificate_chain)
     ++ [as_bytes c.(certificate_fingerprint); to_be_bytes 8 c.(not_before_millis);
         to_be_bytes 8 c.(not_after_millis); as_bytes (reissue_request_digest r)]).

Definition is_valid_at (c : ConnectorCredential) (now : Z) : bool :=
  bool_decide (now >= c.(not_before_millis) ∧ now < c.(not_after_millis)).

Definition validate_enrollment_result (c : ConnectorCredential) (t : EnrollmentTranscript)
    (now : Z) : result ConnectorCredentialError unit :=
  reject EnrollmentMismatch
    when (c.(tenant_id) ≠ t.(en_tenant_id) ∨ c.(connector_id) ≠ t.(en_connector_id)
          ∨ c.(generation) ≠ t.(en_generation) ∨ c.(revision) ≠ t.(en_spec_revision)
          ∨ c.(control_key) ≠ t.(en_control_key) ∨ c.(refresh_key) ≠ t.(en_refresh_key)
          ∨ is_valid_at c now = false).

Definition matches_enrollment_binding (c : ConnectorCredential) (tenant : TenantId)
    (connector : ConnectorId) (gen : Z) : bool :=
  bool_decide (c.(tenant_id) = tenant ∧ c.(connector_id) = connector ∧ c.(generation) = gen).
End credentials.

(** ** The authorization aggregate *)

Inductive ConnectorCredentialStatus : Type := Current | Pending | Retired | RevokedCredential.
Inductive ConnectorCredentialAuthorizationState : Type := Active | Revoked.
Global Instance status_eq_dec : EqDecision ConnectorCredentialStatus.
Proof. solve_decision. Defined.
Global Instance state_eq_dec : EqDecision ConnectorCredentialAuthorizationState.
Proof. solve_decision. Defined.

Record CredentialEntry : Type := MkEntry { credential : ConnectorCredential; status : ConnectorCredentialStatus }.

Record AcceptedRotation : Type := {
  ar_request_id : RequestId;
  ar_request_digest : Sha256Digest;
  ar_result_digest : Sha256Digest;
  ar_current_credential_id : ConnectorCredentialId;
  ar_successor_credential_id : ConnectorCredentialId;
  ar_command_sequence : Z;
  ar_command_payload_digest : Sha256Digest;
  ar_nonce : bytes
}.

Record ConnectorCredentialAuthorization : Type := {
  a_tenant_id : TenantId;
  a_connector_id : ConnectorId;
  state : ConnectorCredentialAuthorizationState;
  history : list CredentialEntry;
  rotations : list AcceptedRotation
}.
Definition Authorization_eta (a : ConnectorCredentialAuthorization) : ConnectorCredentialAuthorization :=
  {| a_tenant_id := a.(a_tenant_id); a_connector_id := a.(a_connector_id); state := a.(state);
     history := a.(history); rotations := a.(rotations) |}.
Global Instance state_field : Field state := ltac:(field_of Authorization_eta state).
Global Instance history_field : Field history := ltac:(field_of Authorization_eta history).
Global Instance rotations_field : Field rotations := ltac:(field_of Authorization_eta rotations).
Definition CredentialEntry_eta (e : CredentialEntry) : CredentialEntry :=
  {| credential := e.(credential); status := e.(status) |}.
Global Instance status_field : Field status := ltac:(field_of CredentialEntry_eta status).

(** The entry and rotation images are the entries and rotations themselves. *)
Record ConnectorCredentialAuthorizationSnapshot : Type := {
  s_tenant_id : TenantId;
  s_connector_id : ConnectorId;
  s_state : ConnectorCredentialAuthorizationState;
  s_current_credential_id : option ConnectorCredentialId;
  s_pending_credential_id : option ConnectorCredentialId;
  s_history : list CredentialEntry;
  s_rotations : list AcceptedRotation
}.

Record ConnectorCredentialPresentation : Type := {
  p_tenant_id : TenantId;
  p_connector_id : ConnectorId;
  p_credential_id : ConnectorCredentialId;
  p_generation : Z;
  p_certificate_fingerprint : Sha256Digest
}.

Inductive CredentialHelloOutcome : Type :=
| HelloCurrent (id : ConnectorCredentialId) (generation : Z)
| HelloPromoted (retired id : ConnectorCredentialId) (generation : Z).

Inductive CredentialRotationDisposition : Type :=
| IssueSuccessor
| Replay (result : ConnectorCredential).

Inductive AuthorizationError : Type :=
| InvalidCredential | WrongTenant | WrongConnector | UnknownCredential | CredentialMismatch
| CredentialExpired | CredentialReuse | InvalidSuccessor | InvalidProof | PendingSuccessorExists
| NoPendingSuccessor | RetiredError | RevokedError | CounterExhausted | IdempotencyConflict
| InvalidSnapshot.

Section authorization.
Context `{Ed25519, Sha256}.
Notation Op := (ST ConnectorCredentialAuthorization AuthorizationError).

Definition new_authorization (current : ConnectorCredential) :
    result AuthorizationError ConnectorCredentialAuthorization :=
  map_err (λ _, InvalidCredential) (validate_generation current.(generation));;
  Ok {| a_tenant_id := current.(tenant_id); a_connector_id := current.(connector_id);
        state := Active; history := [MkEntry current Current]; rotations := [] |}.

(** [find] on the history. *)
Definition find_entry (P : CredentialEntry → Prop) `{∀ e, Decision (P e)}
    (h : list CredentialEntry) : option CredentialEntry := snd <$> list_find P h.

Definition current (a : ConnectorCredentialAuthorization) : option ConnectorCredential :=
  credential <$> find_entry (λ e, e.(status) = Current) a.(history).
Definition pending (a : ConnectorCredentialAuthorization) : option ConnectorCredential :=
  credential <$> find_entry (λ e, e.(status) = Pending) a.(history).
Definition credential_of (a : ConnectorCredentialAuthorization) (id : ConnectorCredentialId) :
    option ConnectorCredential :=
  credential <$> find_entry (λ e, e.(credential).(credential_id) = id) a.(history).
Definition status_of (a : ConnectorCredentialAuthorization) (id : ConnectorCredentialId) :
    option ConnectorCredentialStatus :=
  status <$> find_entry (λ e, e.(credential).(credential_id) = id) a.(history).

Definition evaluate_rotation_request (a : ConnectorCredentialAuthorization)
    (request : CredentialRotationRequest) : result AuthorizationError CredentialRotationDisposition :=
  reject RevokedError when (a.(state) = Revoked);;
  let t := request.(rr_transcript) in
  let request_digest := rotation_request_digest request in
  match list_find (λ r, r.(ar_request_id) = t.(ro_request_id)) a.(rotations) with
  | Some (_, accepted) =>
      reject IdempotencyConflict when (ct_eq accepted.(ar_request_digest) request_digest = false);;
      c ← ok_or (credential_of a accepted.(ar_successor_credential_id)) InvalidSnapshot;
      Ok (Replay c)
  | None =>
      reject PendingSuccessorExists when (is_Some (pending a));;
      current ← ok_or (current a) InvalidSnapshot;
      reject CredentialMismatch
        when (t.(ro_tenant_id) ≠ a.(a_tenant_id) ∨ t.(ro_connector_id) ≠ a.(a_connector_id)
              ∨ t.(ro_current_credential_id) ≠ current.(credential_id)
              ∨ t.(ro_current_generation) ≠ current.(generation));;
      expected_generation ← ok_or (v ← u64_checked_add current.(generation) 1; checked 0 Revision.MAX v)
        CounterExhausted;
      reject InvalidSuccessor
        when (t.(ro_successor_generation) ≠ expected_generation
              ∨ t.(ro_successor_revision) ≤ current.(revision)
              ∨ t.(ro_new_control_key) = current.(control_key)
              ∨ t.(ro_new_control_key) = current.(refresh_key));;
      reject CredentialReuse
        when (Exists (λ e, e.(credential).(control_key) = t.(ro_new_control_key)) a.(history));;
      map_err (λ _, InvalidProof) (rotation_verify current.(refresh_key) request);;
      Ok IssueSuccessor
  end.

Definition propose_successor (request : CredentialRotationRequest) (successor : ConnectorCredential) :
    Op ConnectorCredential :=
  self ← get;
  disposition ← lift (evaluate_rotation_request self request);
  match disposition with
  | Replay result => mret result
  | IssueSuccessor =>
      let t := request.(rr_transcript) in
      current ← lift (ok_or (current self) InvalidSnapshot);
      lift (reject InvalidSuccessor
        when (successor.(tenant_id) ≠ self.(a_tenant_id) ∨ successor.(connector_id) ≠ self.(a_connector_id)
              ∨ successor.(generation) ≠ t.(ro_successor_generation)
              ∨ successor.(revision) ≠ t.(ro_successor_revision)
              ∨ successor.(control_key) ≠ t.(ro_new_control_key)
              ∨ successor.(refresh_key) ≠ current.(refresh_key)));;
      lift (reject CredentialReuse
        when (Exists (λ e, e.(credential).(credential_id) = successor.(credential_id)
                ∨ e.(credential).(certificate_fingerprint) = successor.(certificate_fingerprint))
              self.(history)));;
      modify (λ self, self <| history := self.(history) ++ [MkEntry successor Pending] |>);;
      modify (λ self, self <| rotations := self.(rotations) ++
        [{| ar_request_id := t.(ro_request_id); ar_request_digest := rotation_request_digest request;
            ar_result_digest := result_digest successor;
            ar_current_credential_id := current.(credential_id);
            ar_successor_credential_id := successor.(credential_id);
            ar_command_sequence := t.(ro_command_sequence);
            ar_command_payload_digest := t.(ro_command_payload_digest); ar_nonce := t.(ro_nonce) |}] |>);;
      mret successor
  end.

Definition propose_reissue (successor : ConnectorCredential) : Op unit :=
  self ← get;
  lift (reject RevokedError when (self.(state) = Revoked));;
  lift (reject PendingSuccessorExists when (is_Some (pending self)));;
  current ← lift (ok_or (current self) InvalidSnapshot);
  lift (reject InvalidSuccessor
    when (successor.(tenant_id) ≠ self.(a_tenant_id) ∨ successor.(connector_id) ≠ self.(a_connector_id)
          ∨ successor.(generation) ≠ current.(generation) ∨ successor.(revision) ≠ current.(revision)
          ∨ successor.(refresh_key) ≠ current.(refresh_key)
          ∨ successor.(credential_id) = current.(credential_id)
          ∨ successor.(control_key) = current.(control_key)
          ∨ successor.(certificate_fingerprint) = current.(certificate_fingerprint)));;
  lift (reject CredentialReuse
    when (Exists (λ e, e.(credential).(credential_id) = successor.(credential_id)
            ∨ e.(credential).(control_key) = successor.(control_key)
            ∨ e.(credential).(certificate_fingerprint) = successor.(certificate_fingerprint))
          self.(history)));;
  modify (λ self, self <| history := self.(history) ++ [MkEntry successor Pending] |>).

Definition authorize_transport (self : ConnectorCredentialAuthorization)
    (p : ConnectorCredentialPresentation) (now : Z) :
    result AuthorizationError ConnectorCredentialStatus :=
  reject RevokedError when (self.(state) = Revoked);;
  reject WrongTenant when (p.(p_tenant_id) ≠ self.(a_tenant_id));;
  reject WrongConnector when (p.(p_connector_id) ≠ self.(a_connector_id));;
  entry ← ok_or (find_entry (λ e, e.(credential).(credential_id) = p.(p_credential_id)) self.(history))
    UnknownCredential;
  reject CredentialMismatch
    when (entry.(credential).(generation) ≠ p.(p_generation)
          ∨ entry.(credential).(certificate_fingerprint) ≠ p.(p_certificate_fingerprint));;
  reject CredentialExpired when (is_valid_at entry.(credential) now = false);;
  match entry.(status) with
  | Current | Pending => Ok entry.(status)
  | Retired => Err RetiredError
  | RevokedCredential => Err RevokedError
  end.

Definition promote_successor (id : ConnectorCredentialId) : Op unit :=
  self ← get;
  lift (reject RevokedError when (self.(state) = Revoked));;
  pending ← lift (ok_or (list_find (λ e, e.(status) = Pending) self.(history)) NoPendingSuccessor);
  lift (reject CredentialMismatch when (pending.2.(credential).(credential_id) ≠ id));;
  current ← lift (ok_or (list_find (λ e, e.(status) = Current) self.(history)) InvalidSnapshot);
  modify (λ self, self <| history := alter (λ e, e <| status := Retired |>) current.1 self.(history) |>);;
  modify (λ self, self <| history := alter (λ e, e <| status := Current |>) pending.1 self.(history) |>).

Definition accept_hello (p : ConnectorCredentialPresentation) (now : Z) : Op CredentialHelloOutcome :=
  self ← get;
  status ← lift (authorize_transport self p now);
  match status with
  | Current =>
      c ← lift (ok_or (current self) InvalidSnapshot);
      mret (HelloCurrent c.(credential_id) c.(generation))
  | Pending =>
      retired ← lift (ok_or (current self) InvalidSnapshot);
      promote_successor p.(p_credential_id);;
      self ← get;
      c ← lift (ok_or (current self) InvalidSnapshot);
      mret (HelloPromoted retired.(credential_id) c.(credential_id) c.(generation))
  | Retired | RevokedCredential => throw InvalidSnapshot
  end.

Definition revoke_entry (e : CredentialEntry) : CredentialEntry :=
  match e.(status) with
  | Current | Pending => e <| status := RevokedCredential |>
  | _ => e
  end.

Definition revoke : Op unit :=
  self ← get;
  if decide (self.(state) = Revoked) then mret tt
  else
    modify (λ self, self <| history := revoke_entry <$> self.(history) |>);;
    modify (λ self, self <| state := Revoked |>).

(** ** The durable image *)

Definition snapshot (a : ConnectorCredentialAuthorization) : ConnectorCredentialAuthorizationSnapshot :=
  {| s_tenant_id := a.(a_tenant_id); s_connector_id := a.(a_connector_id); s_state := a.(state);
     s_current_credential_id := credential_id <$> current a;
     s_pending_credential_id := credential_id <$> pending a;
     s_history := a.(history); s_rotations := a.(rotations) |}.

(** Loop state over the history: the identities seen and the previous entry. *)
Record HistoryScan : Type := {
  hs_ids : gset ConnectorCredentialId;
  hs_fingerprints : gset bytes;
  hs_control_keys : gset bytes;
  hs_previous : option ConnectorCredential
}.

Definition check_entry (s : ConnectorCredentialAuthorizationSnapshot) (refresh : Key)
    (scan : HistoryScan) (e : CredentialEntry) : result AuthorizationError HistoryScan :=
  let c := e.(credential) in
  reject InvalidSnapshot
    when (c.(tenant_id) ≠ s.(s_tenant_id) ∨ c.(connector_id) ≠ s.(s_connector_id)
          ∨ c.(refresh_key) ≠ refresh ∨ c.(credential_id) ∈ scan.(hs_ids)
          ∨ as_bytes c.(certificate_fingerprint) ∈ scan.(hs_fingerprints)
          ∨ key_bytes c.(control_key) ∈ scan.(hs_control_keys));;
  reject InvalidSnapshot
    when (some_and scan.(hs_previous) (λ previous,
      ¬ ((u64_checked_add previous.(generation) 1 = Some c.(generation)
          ∧ previous.(revision) < c.(revision))
         ∨ (previous.(generation) = c.(generation) ∧ previous.(revision) = c.(revision)))));;
  Ok {| hs_ids := {[c.(credential_id)]} ∪ scan.(hs_ids);
        hs_fingerprints := {[as_bytes c.(certificate_fingerprint)]} ∪ scan.(hs_fingerprints);
        hs_control_keys := {[key_bytes c.(control_key)]} ∪ scan.(hs_control_keys);
        hs_previous := Some c |}.

Definition check_rotation (s : ConnectorCredentialAuthorizationSnapshot) (seen : gset RequestId)
    (r : AcceptedRotation) : result AuthorizationError (gset RequestId) :=
  cur ← ok_or (find_entry (λ e, e.(credential).(credential_id) = r.(ar_current_credential_id)) s.(s_history))
    InvalidSnapshot;
  suc ← ok_or (find_entry (λ e, e.(credential).(credential_id) = r.(ar_successor_credential_id)) s.(s_history))
    InvalidSnapshot;
  next ← ok_or (u64_checked_add cur.(credential).(generation) 1) InvalidSnapshot;
  reject InvalidSnapshot
    when (suc.(credential).(generation) ≠ next
          ∨ suc.(credential).(revision) ≤ cur.(credential).(revision)
          ∨ ct_eq r.(ar_result_digest) (result_digest suc.(credential)) = false
          ∨ r.(ar_command_sequence) = 0 ∨ r.(ar_command_sequence) > Revision.MAX
          ∨ r.(ar_request_id) ∈ seen);;
  Ok ({[r.(ar_request_id)]} ∪ seen).

Definition with_status (st : ConnectorCredentialStatus) (h : list CredentialEntry) : list CredentialEntry :=
  filter (λ e, e.(status) = st) h.

(** The tests that index [current] come after the one on its length. *)
Definition validate_authorization_status (s : ConnectorCredentialAuthorizationSnapshot) :
    result AuthorizationError unit :=
  match s.(s_state) with
  | Active =>
      match with_status Current s.(s_history), with_status Pending s.(s_history) with
      | [cur], pending =>
          let cur_id := cur.(credential).(credential_id) in
          let id (e : CredentialEntry) := e.(credential).(credential_id) in
          reject InvalidSnapshot
            when ((1 < length pending)%nat
                  ∨ s.(s_current_credential_id) ≠ Some cur_id
                  ∨ s.(s_pending_credential_id) ≠ (id <$> pending !! 0%nat)
                  ∨ Some cur_id ≠
                      (id <$> s.(s_history) !! (length s.(s_history) - 1 - length pending)%nat)
                  ∨ some_and (pending !! 0%nat) (λ e, Some (id e) ≠ (id <$> last s.(s_history)))
                  ∨ Exists (λ e, e.(status) = RevokedCredential
                      ∨ (e.(status) = Retired
                         ∧ e.(credential).(generation) > cur.(credential).(generation))) s.(s_history))
      | _, _ => Err InvalidSnapshot
      end
  | Revoked =>
      reject InvalidSnapshot
        when (is_Some s.(s_current_credential_id) ∨ is_Some s.(s_pending_credential_id)
              ∨ Exists (λ e, ¬ (e.(status) = Retired ∨ e.(status) = RevokedCredential)) s.(s_history)
              ∨ (status <$> last s.(s_history)) ≠ Some RevokedCredential)
  end.

Definition validate_authorization_snapshot (s : ConnectorCredentialAuthorizationSnapshot) :
    result AuthorizationError unit :=
  match s.(s_history) with
  | [] => Err InvalidSnapshot
  | first :: _ =>
      reject InvalidSnapshot when (length s.(s_history) ≤ length s.(s_rotations))%nat;;
      try_fold (check_entry s first.(credential).(refresh_key)) s.(s_history)
        {| hs_ids := ∅; hs_fingerprints := ∅; hs_control_keys := ∅; hs_previous := None |};;
      try_fold (check_rotation s) s.(s_rotations) ∅;;
      validate_authorization_status s
  end.

Definition try_from_snapshot (s : ConnectorCredentialAuthorizationSnapshot) :
    result AuthorizationError ConnectorCredentialAuthorization :=
  validate_authorization_snapshot s;;
  Ok {| a_tenant_id := s.(s_tenant_id); a_connector_id := s.(s_connector_id); state := s.(s_state);
        history := s.(s_history); rotations := s.(s_rotations) |}.
End authorization.
End Credential.
