(* ===== verification/ControlCredentialProps.v ===== *)
(** * Agent control: histories of connector credentials

    The authorization aggregate after any sequence of rotations, reissues,
    promotions and revocations. *)

From S2P Require Import Prelude Domain CanonicalCbor CborSpec CborFields WirePrimitives WireValues Connector ControlProof ControlCredential.

Module CredentialProps.
Import Control Credential.

Ltac show_fields := unfold upd, history_field, rotations_field, state_field, status_field in *; cbn.

(** The guards of a disjunction that was not met. *)

(** ** The shape of a history *)

Definition id_of (e : CredentialEntry) : ConnectorCredentialId := e.(credential).(credential_id).

(** Retired credentials, the current one, at most one pending. *)
Definition active_shape (h : list CredentialEntry) : Prop :=
  ∃ rs c ps, h = rs ++ c :: ps ∧ Forall (λ e, e.(status) = Retired) rs ∧ c.(status) = Current ∧
    (ps = [] ∨ ∃ p, ps = [p] ∧ p.(status) = Pending).
Definition revoked_shape (h : list CredentialEntry) : Prop :=
  Forall (λ e, e.(status) = Retired ∨ e.(status) = RevokedCredential) h ∧
  (status <$> last h) = Some RevokedCredential.

(** Consecutive credentials: a rotation or a reissue. *)
Definition linked (p c : ConnectorCredential) : Prop :=
  (p.(generation) + 1 = c.(generation) ∧ p.(revision) < c.(revision)) ∨
  (p.(generation) = c.(generation) ∧ p.(revision) = c.(revision)).

Record creds_ok (tenant : TenantId) (connector : ConnectorId) (cs : list ConnectorCredential) : Prop := {
  co_scope : Forall (λ c, c.(tenant_id) = tenant ∧ c.(connector_id) = connector ∧
    1 ≤ c.(generation) ≤ Revision.MAX) cs;
  co_refresh : ∀ c c', c ∈ cs → c' ∈ cs → c.(refresh_key) = c'.(refresh_key);
  co_ids : NoDup (credential_id <$> cs);
  co_fingerprints : NoDup (certificate_fingerprint <$> cs);
  co_keys : NoDup (control_key <$> cs);
  co_linked : Sorted linked cs
}.

Section props.
Context `{Ed : Ed25519, Sha : Sha256}.

Definition rotation_ok (h : list CredentialEntry) (r : AcceptedRotation) : Prop :=
  ∃ cur suc, cur ∈ h ∧ suc ∈ h ∧ id_of cur = r.(ar_current_credential_id) ∧
    id_of suc = r.(ar_successor_credential_id) ∧
    suc.(credential).(generation) = cur.(credential).(generation) + 1 ∧
    cur.(credential).(revision) < suc.(credential).(revision) ∧
    r.(ar_result_digest) = result_digest suc.(credential) ∧
    1 ≤ r.(ar_command_sequence) ≤ Revision.MAX.

Record auth_ok (a : ConnectorCredentialAuthorization) : Prop := {
  ao_shape : match a.(state) with Active => active_shape a.(history) | Revoked => revoked_shape a.(history) end;
  ao_creds : creds_ok a.(a_tenant_id) a.(a_connector_id) (credential <$> a.(history));
  ao_rotations : Forall (rotation_ok a.(history)) a.(rotations);
  ao_requests : NoDup (ar_request_id <$> a.(rotations));
  ao_count : (length a.(rotations) < length a.(history))%nat
}.

(** ** Lookups *)

Lemma find_entry_Some (P : CredentialEntry → Prop) `{∀ e, Decision (P e)} h e :
  find_entry P h = Some e → e ∈ h ∧ P e.
Proof.
  unfold find_entry. destruct (list_find P h) as [[i e']|] eqn:Hf; cbn; [|done]. intros [= ->].
  apply list_find_Some in Hf as (Hi & HP & _). split; [by eapply list_elem_of_lookup_2|done].
Qed.

Lemma find_entry_None (P : CredentialEntry → Prop) `{∀ e, Decision (P e)} h :
  find_entry P h = None ↔ Forall (λ e, ¬ P e) h.
Proof. unfold find_entry. rewrite fmap_None. apply list_find_None. Qed.

Lemma list_find_middle (P : CredentialEntry → Prop) `{∀ e, Decision (P e)} rs e ps :
  Forall (λ e, ¬ P e) rs → P e → list_find P (rs ++ e :: ps) = Some (length rs, e).
Proof.
  intros Hrs He. apply list_find_Some. split_and!; [by apply list_lookup_middle|done|].
  intros j y Hj Hlt. rewrite lookup_app_l in Hj by done. rewrite Forall_lookup in Hrs. eauto.
Qed.

Lemma find_entry_middle (P : CredentialEntry → Prop) `{∀ e, Decision (P e)} rs e ps :
  Forall (λ e, ¬ P e) rs → P e → find_entry P (rs ++ e :: ps) = Some e.
Proof. intros ??. unfold find_entry. by rewrite list_find_middle. Qed.

Lemma Forall_retired_not rs st :
  Forall (λ e, e.(status) = Retired) rs → st ≠ Retired → Forall (λ e, ¬ e.(status) = st) rs.
Proof. intros Hrs Hst. eapply Forall_impl; [done|]. intros e He. cbn in *. congruence. Qed.

(** What an active history answers. *)
Lemma active_lookups h rs c ps :
  h = rs ++ c :: ps → Forall (λ e, e.(status) = Retired) rs → c.(status) = Current →
  (ps = [] ∨ ∃ p, ps = [p] ∧ p.(status) = Pending) →
  list_find (λ e, e.(status) = Current) h = Some (length rs, c) ∧
  list_find (λ e, e.(status) = Pending) h =
    match ps with [] => None | p :: _ => Some (S (length rs), p) end.
Proof.
  intros -> Hrs Hc Hps. split; [by apply list_find_middle; [eapply Forall_retired_not|]|].
  destruct Hps as [->|(p & -> & Hp)].
  - apply list_find_None, Forall_app. split; [by eapply Forall_retired_not|].
    apply Forall_singleton. congruence.
  - change (rs ++ [c; p]) with (rs ++ [c] ++ [p]). rewrite (assoc_L (++)).
    rewrite list_find_middle; [by rewrite length_app, Nat.add_comm| |done].
    apply Forall_app. split; [by eapply Forall_retired_not|]. apply Forall_singleton. congruence.
Qed.

Lemma pending_None a :
  a.(state) = Active → auth_ok a → pending a = None →
  ∃ rs c, a.(history) = rs ++ [c] ∧ Forall (λ e, e.(status) = Retired) rs ∧ c.(status) = Current ∧
    current a = Some c.(credential).
Proof.
  intros Hst [Hsh _ _ _ _] Hp. rewrite Hst in Hsh. destruct Hsh as (rs & c & ps & Hh & Hrs & Hc & Hps).
  destruct (active_lookups _ _ _ _ Hh Hrs Hc Hps) as [Hcur Hpend].
  unfold pending, find_entry in Hp. rewrite Hpend in Hp. destruct ps as [|p ps]; [|done].
  exists rs, c. split_and!; [done|done|done|]. unfold current, find_entry. by rewrite Hcur.
Qed.

(** ** What the operations do *)

Inductive change (a : ConnectorCredentialAuthorization) : ConnectorCredentialAuthorization → Prop :=
| ChangePropose rs c s extra :
    a.(state) = Active → a.(history) = rs ++ [c] → Forall (λ e, e.(status) = Retired) rs →
    c.(status) = Current → s.(tenant_id) = a.(a_tenant_id) → s.(connector_id) = a.(a_connector_id) →
    1 ≤ s.(generation) ≤ Revision.MAX → linked c.(credential) s →
    s.(refresh_key) = c.(credential).(refresh_key) →
    s.(credential_id) ∉ id_of <$> a.(history) →
    s.(certificate_fingerprint) ∉ (certificate_fingerprint ∘ credential) <$> a.(history) →
    s.(control_key) ∉ (control_key ∘ credential) <$> a.(history) →
    (extra = [] ∨ ∃ r, extra = [r] ∧ rotation_ok (a.(history) ++ [MkEntry s Pending]) r ∧
       r.(ar_request_id) ∉ ar_request_id <$> a.(rotations)) →
    change a {| a_tenant_id := a.(a_tenant_id); a_connector_id := a.(a_connector_id); state := Active;
                history := a.(history) ++ [MkEntry s Pending]; rotations := a.(rotations) ++ extra |}
| ChangePromote rs c p :
    a.(state) = Active → a.(history) = rs ++ [c; p] → Forall (λ e, e.(status) = Retired) rs →
    c.(status) = Current → p.(status) = Pending →
    change a {| a_tenant_id := a.(a_tenant_id); a_connector_id := a.(a_connector_id); state := Active;
                history := rs ++ [MkEntry c.(credential) Retired; MkEntry p.(credential) Current];
                rotations := a.(rotations) |}
| ChangeRevoke :
    a.(state) = Active →
    change a {| a_tenant_id := a.(a_tenant_id); a_connector_id := a.(a_connector_id); state := Revoked;
                history := revoke_entry <$> a.(history); rotations := a.(rotations) |}.

(** A rotation request built by the constructor. *)
Definition rotation_made (r : CredentialRotationRequest) : Prop :=
  ∃ t c q i g n d v x k, CredentialRotationTranscript_new t c q i g n d v x k = Ok r.(rr_transcript) ∧ 0 ≤ n.

Lemma rotation_made_bounds r :
  rotation_made r → 1 ≤ r.(rr_transcript).(ro_command_sequence) ≤ Revision.MAX.
Proof.
  intros (t & c & q & i & g & n & d & v & x & k & H & Hn). unfold CredentialRotationTranscript_new in H.
  res_inv H. match goal with H : _ = rr_transcript r |- _ => rewrite <-H end. cbn. lia.
Qed.

(** What a rotation that is not a replay has passed. *)
Lemma evaluate_issue a r :
  evaluate_rotation_request a r = Ok IssueSuccessor →
  let t := r.(rr_transcript) in
  a.(state) = Active ∧ t.(ro_request_id) ∉ ar_request_id <$> a.(rotations) ∧ pending a = None ∧
  ∃ cur, current a = Some cur ∧ t.(ro_tenant_id) = a.(a_tenant_id) ∧ t.(ro_connector_id) = a.(a_connector_id) ∧
    t.(ro_current_credential_id) = cur.(credential_id) ∧ t.(ro_current_generation) = cur.(generation) ∧
    t.(ro_successor_generation) = cur.(generation) + 1 ∧ t.(ro_successor_generation) ≤ Revision.MAX ∧
    cur.(revision) < t.(ro_successor_revision) ∧ t.(ro_new_control_key) ≠ cur.(refresh_key) ∧
    t.(ro_new_control_key) ∉ (control_key ∘ credential) <$> a.(history) ∧
    rotation_verify cur.(refresh_key) r = Ok tt.
Proof.
  intros H. unfold evaluate_rotation_request in H. cbn zeta in *.
  apply result_bind_Ok in H as (? & Hst%reject_if_Ok & H).
  destruct (list_find _ (rotations a)) as [[? ?]|] eqn:Hf; [res_inv H; done|].
  apply list_find_None in Hf.
  repeat (let Hg := fresh "Hg" in apply result_bind_Ok in H as (? & Hg & H); res_inv Hg). clear H.
  match goal with H : (_ ≫= _) = Some _ |- _ => apply bind_Some in H as (v & [-> ?]%checked_Some & [-> ?]%checked_Some) end.
  split; [by destruct (state a)|]. split.
  { rewrite list_elem_of_fmap. intros (rot & Hrot & Hin). rewrite Forall_forall in Hf. by apply (Hf rot). }
  split; [by apply eq_None_not_Some|]. eexists. split; [done|]. not_ors. split_and!; try done; try lia.
  - intros (e & Hk & Hin)%list_elem_of_fmap. match goal with H : ¬ Exists _ _ |- _ => apply H end.
    apply Exists_exists. exists e. split; [done|]. done.
  - match goal with H : rotation_verify _ _ = Ok ?u |- _ => by destruct u end.
Qed.

Lemma generation_of a c : auth_ok a → c ∈ credential <$> a.(history) → 1 ≤ c.(generation) ≤ Revision.MAX.
Proof. intros [_ [Hs _ _ _ _ _] _ _ _] Hc. rewrite Forall_forall in Hs. by apply Hs. Qed.

Lemma not_in_field {B} (f : ConnectorCredential → B) (P : CredentialEntry → Prop) s h :
  ¬ Exists P h → (∀ e, f e.(credential) = f s → P e) → f s ∉ (f ∘ credential) <$> h.
Proof. intros Hn HP (e & Hk & Hin)%list_elem_of_fmap. apply Hn, Exists_exists. exists e. eauto. Qed.

Lemma propose_change a r s x a' :
  auth_ok a → rotation_made r → propose_successor r s a = (Ok x, a') → a' = a ∨ change a a'.
Proof.
  intros Hok Hmade H. unfold propose_successor in H.
  apply st_bind_Ok in H as (? & ? & [-> ->]%get_Ok & H).
  apply st_bind_Ok in H as (disp & ? & [Hev ->]%lift_Ok & H). destruct disp as [|res]; [|st_inv H; by left].
  right. apply evaluate_issue in Hev as (Hst & Hreq & Hp & cur & Hcur & Ht & Hc & Hid & Hgen & Hsg & Hmax & Hrev & _ & Hkey & _).
  st_inv H. rewrite Hcur in Hrun. injection Hrun as <-.
  destruct (pending_None a Hst Hok Hp) as (rs & c & Hh & Hrs & Hcs & Hcur').
  rewrite Hcur in Hcur'. injection Hcur' as ->.
  assert (1 ≤ generation (credential c) ≤ Revision.MAX) as Hg1.
  { apply (generation_of a); [done|]. rewrite Hh. set_solver. }
  not_ors.
  show_fields. rewrite Hst. apply (ChangePropose a rs c s); [done|done|done|done|done|done|lia|left; lia|done|..].
  - eapply (not_in_field credential_id); [eassumption|]. cbn. auto.
  - eapply (not_in_field certificate_fingerprint); [eassumption|]. cbn. auto.
  - congruence.
  - right. eexists. split; [done|]. split; [|done]. exists c, (MkEntry s Pending). cbn.
    pose proof (rotation_made_bounds r Hmade). split_and!; try done; try lia.
    + rewrite Hh, !elem_of_app. left. right. by left.
    + rewrite elem_of_app. right. by left.
Qed.

Lemma reissue_change a s x a' :
  auth_ok a → propose_reissue s a = (Ok x, a') → change a a'.
Proof.
  intros Hok H. unfold propose_reissue in H. st_inv H. show_fields.
  assert (state a = Active) as Hst by (by destruct (state a)).
  destruct (pending_None a Hst Hok) as (rs & c & Hh & Hrs & Hcs & Hcur).
  { by apply eq_None_not_Some. }
  match goal with H : current a = Some _ |- _ => rewrite Hcur in H; injection H as <- end.
  assert (1 ≤ generation (credential c) ≤ Revision.MAX) as Hg1.
  { apply (generation_of a); [done|]. rewrite Hh. set_solver. }
  not_ors.
  match goal with H : ¬ Exists _ _ |- _ => rename H into Hnew end.
  rewrite Hst. rewrite <-(app_nil_r (rotations a)).
  apply (ChangePropose a rs c s []); [done|done|done|done|done|done|lia|right; lia|done|..].
  - eapply (not_in_field credential_id); [exact Hnew|]. cbn. auto.
  - eapply (not_in_field certificate_fingerprint); [exact Hnew|]. cbn. auto.
  - eapply (not_in_field control_key); [exact Hnew|]. cbn. auto.
  - by left.
Qed.

Lemma promote_change a i x a' :
  auth_ok a → promote_successor i a = (Ok x, a') → change a a'.
Proof.
  intros Hok H. unfold promote_successor in H. st_inv H. show_fields.
  assert (state a = Active) as Hst by (by destruct (state a)).
  pose proof (ao_shape _ Hok) as Hsh. rewrite Hst in Hsh. destruct Hsh as (rs & c & ps & Hh & Hrs & Hc & Hps).
  destruct (active_lookups _ _ _ _ Hh Hrs Hc Hps) as [Hcur Hpend].
  rewrite Hpend in *. rewrite Hcur in *. destruct Hps as [->|(p & -> & Hp)]; [done|]. simplify_eq/=.
  rewrite Hst, Hh. rewrite alter_app_r_alt by lia.
  replace (length rs - length rs)%nat with 0%nat by lia.
  rewrite alter_app_r_alt by lia. replace (S (length rs) - length rs)%nat with 1%nat by lia. cbn.
  by apply (ChangePromote a rs c p).
Qed.

Lemma auth_revoke_change a x a' : revoke a = (Ok x, a') → a' = a ∨ change a a'.
Proof.
  intros H. unfold revoke in H. apply st_bind_Ok in H as (? & ? & [-> ->]%get_Ok & H).
  case_decide as Hst; st_inv H; [by left|]. right. show_fields. apply ChangeRevoke. by destruct (state a).
Qed.

(** ** The invariant *)

Lemma auth_new_ok c a : new_authorization c = Ok a → 0 ≤ c.(generation) → auth_ok a.
Proof.
  intros H Hg. unfold new_authorization, validate_generation in H. res_inv H. apply reject_if_Ok in Hres. split; cbn.
  - exists [], (MkEntry c Current), []. split_and!; [done|constructor|done|by left].
  - split; cbn.
    + apply Forall_singleton. split_and!; [done|done|lia|lia].
    + intros ??. rewrite !list_elem_of_singleton. by intros -> ->.
    + apply NoDup_singleton.
    + apply NoDup_singleton.
    + apply NoDup_singleton.
    + by repeat constructor.
  - constructor.
  - constructor.
  - lia.
Qed.

Lemma creds_snoc t k cs c s :
  creds_ok t k (cs ++ [c]) → s.(tenant_id) = t → s.(connector_id) = k → 1 ≤ s.(generation) ≤ Revision.MAX →
  linked c s → s.(refresh_key) = c.(refresh_key) → s.(credential_id) ∉ credential_id <$> cs ++ [c] →
  s.(certificate_fingerprint) ∉ certificate_fingerprint <$> cs ++ [c] →
  s.(control_key) ∉ control_key <$> cs ++ [c] →
  creds_ok t k ((cs ++ [c]) ++ [s]).
Proof.
  intros [K1 K2 K3 K4 K5 K6] Ht Hk Hg Hl Hr H1 H2 H3.
  assert (∀ c', c' ∈ cs ++ [c] → c'.(refresh_key) = s.(refresh_key)) as Hsame.
  { intros c' Hc'. rewrite Hr. apply K2; [done|]. rewrite elem_of_app. right. by left. }
  split.
  - apply Forall_app. split; [done|]. by apply Forall_singleton.
  - intros c1 c2 [Hc1|Hc1]%elem_of_app [Hc2|Hc2]%elem_of_app;
      rewrite ?list_elem_of_singleton in *; subst; auto. symmetry. auto.
  - rewrite fmap_app. apply NoDup_app. split_and!; [done| |apply NoDup_singleton].
    intros x Hx. cbn. rewrite list_elem_of_singleton. by intros ->.
  - rewrite fmap_app. apply NoDup_app. split_and!; [done| |apply NoDup_singleton].
    intros x Hx. cbn. rewrite list_elem_of_singleton. by intros ->.
  - rewrite fmap_app. apply NoDup_app. split_and!; [done| |apply NoDup_singleton].
    intros x Hx. cbn. rewrite list_elem_of_singleton. by intros ->.
  - apply Sorted_snoc; [done|]. by constructor.
Qed.

Lemma fmap_credential_eq (h : list CredentialEntry) (f : CredentialEntry → CredentialEntry) :
  (∀ e, (f e).(credential) = e.(credential)) → credential <$> (f <$> h) = credential <$> h.
Proof. intros Hf. rewrite <-list_fmap_compose. apply list_fmap_ext. intros. apply Hf. Qed.

Lemma rotation_ok_creds h h' r :
  (∀ e, e ∈ h → ∃ e', e' ∈ h' ∧ e'.(credential) = e.(credential)) → rotation_ok h r → rotation_ok h' r.
Proof.
  intros Hsub (cur & suc & Hc & Hs & H1 & H2 & H3 & H4 & H5 & H6).
  destruct (Hsub _ Hc) as (cur' & Hc' & Ec), (Hsub _ Hs) as (suc' & Hs' & Es).
  exists cur', suc'. unfold id_of in *. rewrite Ec, Es. done.
Qed.

Lemma same_creds_sub (h h' : list CredentialEntry) :
  credential <$> h' = credential <$> h → ∀ e, e ∈ h → ∃ e', e' ∈ h' ∧ e'.(credential) = e.(credential).
Proof.
  intros Heq e He. assert (e.(credential) ∈ credential <$> h') as Hin.
  { rewrite Heq. by apply list_elem_of_fmap_2. }
  apply list_elem_of_fmap in Hin as (e' & ? & ?). eauto.
Qed.

Lemma change_same_creds a a' :
  auth_ok a → a'.(a_tenant_id) = a.(a_tenant_id) → a'.(a_connector_id) = a.(a_connector_id) →
  a'.(rotations) = a.(rotations) → credential <$> a'.(history) = credential <$> a.(history) →
  match a'.(state) with Active => active_shape a'.(history) | Revoked => revoked_shape a'.(history) end →
  auth_ok a'.
Proof.
  intros [K1 K2 K3 K4 K5] Ht Hc Hr Hh Hsh. split; [done|by rewrite Ht, Hc, Hh| |by rewrite Hr|].
  - rewrite Hr. eapply Forall_impl; [done|]. intros r. by apply rotation_ok_creds, same_creds_sub.
  - rewrite Hr. apply (f_equal length) in Hh. rewrite !length_fmap in Hh. lia.
Qed.

Lemma revoke_shape h : active_shape h → revoked_shape (revoke_entry <$> h).
Proof.
  intros (rs & c & ps & -> & Hrs & Hc & Hps). unfold revoked_shape. rewrite fmap_app. split.
  - apply Forall_app. split.
    + rewrite Forall_fmap. eapply Forall_impl; [done|]. intros e He. unfold revoke_entry. cbn. rewrite He. by left.
    + cbn. constructor; [unfold revoke_entry; rewrite Hc; by right|].
      destruct Hps as [->|(p & -> & Hp)]; cbn; [constructor|]. constructor; [unfold revoke_entry; rewrite Hp; by right|constructor].
  - destruct Hps as [->|(p & -> & Hp)]; cbn.
    + rewrite last_snoc. unfold revoke_entry. cbn. by rewrite Hc.
    + change [revoke_entry c; revoke_entry p] with ([revoke_entry c] ++ [revoke_entry p]).
      rewrite (assoc_L (++)), last_snoc. unfold revoke_entry at 1. cbn. by rewrite Hp.
Qed.

Lemma auth_change_ok a a' : auth_ok a → change a a' → auth_ok a'.
Proof.
  intros Hok Hch. pose proof Hok as [K1 K2 K3 K4 K5].
  destruct Hch as [rs c s extra Hst Hh Hrs Hc Ht Hk Hg Hl Hr H1 H2 H3 Hx|rs c p Hst Hh Hrs Hc Hp|Hst].
  - split; cbn.
    + exists rs, c, [MkEntry s Pending]. split_and!; [by rewrite Hh, <-(assoc_L (++))|done|done|right; by eauto].
    + rewrite fmap_app. cbn. rewrite Hh, fmap_app in *. cbn in *.
      apply creds_snoc; try done; rewrite ?fmap_app, <-?list_fmap_compose in *; done.
    + apply Forall_app. split.
      * eapply Forall_impl; [done|]. intros r. apply rotation_ok_creds. intros e He. exists e. set_solver.
      * destruct Hx as [->|(r & -> & Hr1 & _)]; [constructor|by apply Forall_singleton].
    + rewrite fmap_app. apply NoDup_app. split_and!; [done| |].
      * destruct Hx as [->|(r & -> & _ & Hr2)]; cbn; [set_solver|]. intros x Hx. rewrite list_elem_of_singleton. by intros ->.
      * destruct Hx as [->|(r & -> & _)]; cbn; [constructor|apply NoDup_singleton].
    + rewrite !length_app. destruct Hx as [->|(r & -> & _)]; cbn; lia.
  - apply (change_same_creds a); cbn; [done|done|done|done| |].
    + rewrite Hh, !fmap_app. done.
    + exists (rs ++ [MkEntry (credential c) Retired]), (MkEntry (credential p) Current), [].
      split_and!; [by rewrite <-(assoc_L (++))| |done|by left].
      apply Forall_app. split; [done|]. by apply Forall_singleton.
  - apply (change_same_creds a); cbn; [done|done|done|done| |].
    + apply fmap_credential_eq. intros e. unfold revoke_entry. by destruct (status e).
    + rewrite Hst in K1. by apply revoke_shape.
Qed.

(** ** Operations in sequence *)

Inductive AuthOp : Type :=
| OpRotate (r : CredentialRotationRequest) (s : ConnectorCredential)
| OpReissue (s : ConnectorCredential)
| OpPromote (id : ConnectorCredentialId)
| OpHello (p : ConnectorCredentialPresentation) (now : Z)
| OpRevoke.

Definition op_ok (o : AuthOp) : Prop := match o with OpRotate r _ => rotation_made r | _ => True end.

Definition step (o : AuthOp) : ConnectorCredentialAuthorization → ConnectorCredentialAuthorization :=
  match o with
  | OpRotate r s => exec (propose_successor r s)
  | OpReissue s => exec (propose_reissue s)
  | OpPromote id => exec (promote_successor id)
  | OpHello p now => exec (accept_hello p now)
  | OpRevoke => exec revoke
  end.

Lemma propose_atomic r s : atomic (propose_successor r s).
Proof.
  unfold propose_successor. do 2 (apply atomic_bind_read; [apply readonly_get || apply readonly_lift|]; intros ?).
  destruct a0; [solve_atomic|]. apply atomic_nofail, nofail_mret.
Qed.

Lemma reissue_atomic s : atomic (propose_reissue s).
Proof. unfold propose_reissue. solve_atomic. Qed.

Lemma promote_atomic i : atomic (promote_successor i).
Proof. unfold promote_successor. solve_atomic. Qed.

Lemma hello_exec a p now :
  exec (accept_hello p now) a = a ∨ exec (accept_hello p now) a = exec (promote_successor p.(p_credential_id)) a.
Proof.
  unfold exec, accept_hello, mbind, ST_bind, get, lift.
  destruct (authorize_transport a p now) as [[]|]; try (by left).
  - left. by destruct (current a).
  - destruct (current a); cbn; [|by left]. right. destruct (promote_successor _ a) as [[] a1]; cbn; [|done].
    by destruct (current a1).
Qed.

Lemma auth_step_cases o a : auth_ok a → op_ok o → step o a = a ∨ change a (step o a).
Proof.
  intros Hok Ho. destruct o as [r s|s|i|p now|]; cbn [step op_ok] in *.
  - destruct (exec_atomic _ a (propose_atomic r s)) as [?|[x Hx]]; [by left|by eapply propose_change].
  - destruct (exec_atomic _ a (reissue_atomic s)) as [?|[x Hx]]; [by left|right; by eapply reissue_change].
  - destruct (exec_atomic (promote_successor i) a (promote_atomic i)) as [?|[x Hx]]; [by left|right; by eapply promote_change].
  - destruct (hello_exec a p now) as [->|Heq]; [by left|]. rewrite Heq.
    destruct (exec_atomic _ a (promote_atomic p.(p_credential_id))) as [?|[x Hx]]; [by left|right; by eapply promote_change].
  - destruct (exec_atomic revoke a) as [?|[x Hx]]; [|by left|by eapply auth_revoke_change].
    unfold revoke. apply atomic_bind_read; [apply readonly_get|]. intros ?. case_decide; solve_atomic.
Qed.

Definition reachable (a : ConnectorCredentialAuthorization) : Prop :=
  ∃ c a0 ops, new_authorization c = Ok a0 ∧ 0 ≤ c.(generation) ∧ Forall op_ok ops ∧ a = run_all step ops a0.

Lemma auth_step_ok o a : auth_ok a → op_ok o → auth_ok (step o a).
Proof. intros Hok Ho. destruct (auth_step_cases o a Hok Ho) as [->|Hc]; [done|]. by eapply auth_change_ok. Qed.

Lemma auth_run_ok ops a : auth_ok a → Forall op_ok ops → auth_ok (run_all step ops a).
Proof. intros Hok Hops. rewrite Forall_forall in Hops. apply run_all_inv; [|done]. intros. apply auth_step_ok; auto. Qed.

Lemma auth_reachable_ok a : reachable a → auth_ok a.
Proof. intros (c & a0 & ops & Hn & Hg & Hops & ->). apply auth_run_ok; [by eapply auth_new_ok|done]. Qed.

(** ** Reload *)

Lemma Sorted_middle {A} (R : A → A → Prop) l x y k : Sorted R (l ++ x :: y :: k) → R x y.
Proof.
  induction l as [|z l IH]; cbn; intros Hs; inversion_clear Hs as [|?? Hs' Hhd]; [|by apply IH].
  by inversion_clear Hhd.
Qed.

Lemma Sorted_weaken {A} (R S : A → A → Prop) l : (∀ x y, R x y → S x y) → Sorted R l → Sorted S l.
Proof.
  intros Hi. induction 1 as [|x l _ IH Hhd]; constructor; [done|]. destruct Hhd; constructor. auto.
Qed.

Lemma find_by_id h e :
  NoDup (credential_id <$> (credential <$> h)) → e ∈ h →
  find_entry (λ e', e'.(credential).(credential_id) = id_of e) h = Some e.
Proof.
  intros Hnd (rs & ps & ->)%list_elem_of_split. apply find_entry_middle; [|done].
  rewrite !fmap_app in Hnd. cbn in Hnd. apply NoDup_app in Hnd as (_ & Hdis & _).
  apply Forall_forall. intros e' He' Heq. eapply (Hdis (credential_id (credential e'))).
  - apply list_elem_of_fmap_2, list_elem_of_fmap_2. done.
  - rewrite Heq. by left.
Qed.

Lemma fresh_in_prefix {B} `{Countable B} (f : ConnectorCredential → B) pre (x : CredentialEntry) post :
  NoDup (f <$> (credential <$> (pre ++ x :: post))) →
  f x.(credential) ∉ (list_to_set (f <$> (credential <$> pre)) : gset B).
Proof.
  rewrite !fmap_app. intros (_ & Hdis & _)%NoDup_app. rewrite elem_of_list_to_set. intros Hin.
  apply (Hdis _ Hin). cbn. by left.
Qed.

Definition scan_of (pre : list CredentialEntry) : HistoryScan :=
  let cs := credential <$> pre in
  {| hs_ids := list_to_set (credential_id <$> cs);
     hs_fingerprints := list_to_set ((as_bytes ∘ certificate_fingerprint) <$> cs);
     hs_control_keys := list_to_set ((key_bytes ∘ control_key) <$> cs);
     hs_previous := last cs |}.

Lemma list_to_set_snoc {B} `{Countable B} (l : list B) x :
  (list_to_set (l ++ [x]) : gset B) = {[x]} ∪ list_to_set l.
Proof. rewrite list_to_set_app_L. cbn. set_solver. Qed.

Lemma scan_history a k :
  auth_ok a → (∀ c, c ∈ credential <$> a.(history) → c.(refresh_key) = k) →
  ∃ s', try_fold (check_entry (snapshot a) k) a.(history) (scan_of []) = Ok s' ∧ s' = scan_of a.(history).
Proof.
  intros [_ [K1 K2 K3 K4 K5 K6] _ _ _] Hk. apply (try_fold_total _ (λ s pre, s = scan_of pre)); [done|].
  intros pre x post ? Hh ->. eexists. split; [|reflexivity].
  assert (x.(credential) ∈ credential <$> a.(history)) as Hin.
  { rewrite Hh. apply list_elem_of_fmap_2. set_solver. }
  rewrite Forall_forall in K1. destruct (K1 _ Hin) as (Ht & Hc & Hg). rewrite Hh in *.
  assert (NoDup ((as_bytes ∘ certificate_fingerprint) <$> (credential <$> pre ++ x :: post))) as K4'.
  { rewrite list_fmap_compose. by apply NoDup_fmap_2; [apply _|]. }
  assert (NoDup ((key_bytes ∘ control_key) <$> (credential <$> pre ++ x :: post))) as K5'.
  { rewrite list_fmap_compose. apply NoDup_fmap_2; [|done]. intros ??. apply key_bytes_inj. }
  unfold check_entry. ok_step.
  { cbn. pose proof (fresh_in_prefix _ _ _ _ K3). pose proof (fresh_in_prefix _ _ _ _ K4').
    pose proof (fresh_in_prefix _ _ _ _ K5'). pose proof (Hk _ Hin). cbn in *. tauto. }
  ok_step.
  { cbn. destruct (last (credential <$> pre)) as [p|] eqn:Hp; [|tauto]. cbn.
    apply last_Some in Hp as (cs & Hcs). rewrite fmap_app, Hcs, <-(assoc_L (++)) in K6.
    pose proof (Sorted_middle _ _ _ _ _ K6) as [[? ?]|[? ?]]; intros Hn; apply Hn; [left|right; done].
    split; [|done]. apply checked_Some. split; [lia|]. change Revision.MAX with (2 ^ 53 - 1) in *. unfold u64_max. lia. }
  f_equal. unfold scan_of. cbn. rewrite !fmap_app. cbn. by rewrite !list_to_set_snoc, last_snoc.
Qed.

Lemma scan_rotations a :
  auth_ok a → ∃ s', try_fold (check_rotation (snapshot a)) a.(rotations) ∅ = Ok s'.
Proof.
  intros Hok. pose proof Hok as [_ [K1 _ K3 _ _ _] K7 K8 _].
  destruct (try_fold_total (check_rotation (snapshot a)) (λ s pre, s = list_to_set (ar_request_id <$> pre))
    a.(rotations) ∅) as (s' & ? & _); [done| |by eauto].
  intros pre r post ? Hr ->. eexists. split; [|reflexivity].
  rewrite Forall_forall in K7. destruct (K7 r) as (cur & suc & Hc & Hs & H1 & H2 & H3 & H4 & H5 & H6); [rewrite Hr, elem_of_app; right; by left|].
  assert (1 ≤ generation (credential cur) ≤ Revision.MAX) as Hg by (apply (generation_of a); [done|by apply list_elem_of_fmap_2]).
  unfold check_rotation. cbn. rewrite <-H1, <-H2.
  ok_step; [by apply find_by_id|]. ok_step; [by apply find_by_id|].
  ok_step; [apply checked_Some; split; [reflexivity|change Revision.MAX with (2 ^ 53 - 1) in *; unfold u64_max; lia]|].
  ok_step.
  { rewrite H5, ct_eq_refl, elem_of_list_to_set. rewrite Hr, fmap_app in K8. apply NoDup_app in K8 as (_ & Hdis & _).
    intros [?|[?|[?|[?|[?|Hin]]]]]; [lia|lia|done|lia|lia|]. apply (Hdis _ Hin). by left. }
  f_equal. rewrite fmap_app. symmetry. apply list_to_set_snoc.
Qed.

Lemma with_status_none st rs : Forall (λ e, e.(status) = Retired) rs → st ≠ Retired → with_status st rs = [].
Proof.
  intros Hrs Hst. unfold with_status. induction Hrs as [|e rs He _ IH]; [done|].
  rewrite filter_cons_False by congruence. done.
Qed.

(** The generations of a history do not decrease. *)
Lemma generations_sorted a : auth_ok a →
  StronglySorted (λ c c', c.(generation) ≤ c'.(generation)) (credential <$> a.(history)).
Proof.
  intros [_ [_ _ _ _ _ K6] _ _ _]. apply Sorted_StronglySorted.
  - intros x y z ??. lia.
  - eapply Sorted_weaken; [|exact K6]. intros x y [[? _]|[? _]]; lia.
Qed.

Lemma status_active a :
  auth_ok a → a.(state) = Active → validate_authorization_status (snapshot a) = Ok tt.
Proof.
  intros Hok Hst. pose proof (generations_sorted a Hok) as Hgen.
  pose proof (ao_shape _ Hok) as Hsh. rewrite Hst in Hsh. destruct Hsh as (rs & c & ps & Hh & Hrs & Hc & Hps).
  destruct (active_lookups _ _ _ _ Hh Hrs Hc Hps) as [Hcur Hpend].
  unfold validate_authorization_status. cbn [s_state s_history s_current_credential_id s_pending_credential_id snapshot].
  unfold current, pending, find_entry. rewrite Hst, Hcur, Hpend, Hh.
  assert (with_status Current (rs ++ c :: ps) = [c]) as ->.
  { unfold with_status. rewrite filter_app, filter_cons_True by done. fold (with_status Current rs).
    rewrite with_status_none by done. cbn. f_equal. destruct Hps as [->|(p & -> & Hp)]; [done|].
    by rewrite filter_cons_False by congruence. }
  assert (with_status Pending (rs ++ c :: ps) = ps) as ->.
  { unfold with_status. rewrite filter_app, filter_cons_False by congruence. fold (with_status Pending rs).
    rewrite with_status_none by done. cbn. destruct Hps as [->|(p & -> & Hp)]; [done|]. by rewrite filter_cons_True. }
  apply reject_if_Ok.
  assert (length (rs ++ c :: ps) - 1 - length ps = length rs)%nat as Hidx by (rewrite length_app; cbn; lia).
  rewrite Hidx, list_lookup_middle by done.
  assert (¬ Exists (λ e, e.(status) = RevokedCredential
    ∨ (e.(status) = Retired ∧ e.(credential).(generation) > c.(credential).(generation))) (rs ++ c :: ps)) as Hex.
  { rewrite Exists_app, Exists_cons. rewrite Hh, fmap_app in Hgen. cbn in Hgen.
    intros [Hx|[Hx|Hx]].
    - apply Exists_exists in Hx as (e & He & Hx). rewrite Forall_forall in Hrs. rewrite (Hrs e He) in Hx.
      destruct Hx as [?|[_ Hgt]]; [done|].
      eapply StronglySorted_app_1_elem_of in Hgen; [|apply list_elem_of_fmap_2, He|by left]. lia.
    - rewrite Hc in Hx. naive_solver.
    - destruct Hps as [->|(p & -> & Hp)]; [by inversion Hx|]. apply Exists_cons in Hx as [Hx|Hx]; [|by inversion Hx].
      rewrite Hp in Hx. naive_solver. }
  destruct Hps as [->|(p & -> & Hp)]; cbn.
  - intros [?|[Hn|[Hn|[Hn|[Hn|Hn]]]]]; [lia|done..].
  - rewrite (last_app_cons rs [p] c). cbn. intros [?|[Hn|[Hn|[Hn|[Hn|Hn]]]]]; [lia|done..].
Qed.

Lemma status_revoked a :
  auth_ok a → a.(state) = Revoked → validate_authorization_status (snapshot a) = Ok tt.
Proof.
  intros Hok Hst. pose proof (ao_shape _ Hok) as Hsh. rewrite Hst in Hsh. destruct Hsh as [Hall Hlast].
  assert (∀ st, st = Current ∨ st = Pending → find_entry (λ e, e.(status) = st) a.(history) = None) as Hnone.
  { intros st Hs. apply find_entry_None. eapply Forall_impl; [exact Hall|]. intros e He Heq. destruct He, Hs; congruence. }
  unfold validate_authorization_status. cbn [s_state s_history s_current_credential_id s_pending_credential_id snapshot].
  rewrite Hst. unfold current, pending. rewrite !Hnone by auto. cbn. apply reject_if_Ok.
  intros [[]|[[]|[Hx|Hx]]]; try done. apply Exists_exists in Hx as (e & He & Hn). rewrite Forall_forall in Hall. auto.
Qed.

(** Every authorization aggregate that rotations, reissues, promotions, hellos
    and revocations produce, failing ones included, passes the validation of its
    durable image and is restored exactly. *)
Theorem reachable_authorization_loads a : reachable a → try_from_snapshot (snapshot a) = Ok a.
Proof.
  intros Hok%auth_reachable_ok. unfold try_from_snapshot. ok_step; [|by destruct a].
  assert (validate_authorization_status (snapshot a) = Ok tt) as Hstatus
    by (destruct (state a) eqn:Hst; [by apply status_active|by apply status_revoked]).
  unfold validate_authorization_snapshot. cbn [s_history s_rotations snapshot].
  destruct (history a) as [|e h] eqn:Hh.
  { pose proof (ao_count _ Hok) as Hc. rewrite Hh in Hc. cbn in Hc. lia. }
  rewrite <-Hh. pose proof (ao_creds _ Hok) as [_ K2 _ _ _ _].
  destruct (scan_history a (refresh_key (credential e)) Hok) as (s1 & Hs1 & _).
  { intros c Hc. apply K2; [done|]. rewrite Hh. by left. }
  destruct (scan_rotations a Hok) as (s2 & Hs2).
  ok_step; [pose proof (ao_count _ Hok); lia|]. unfold scan_of in Hs1. cbn in Hs1.
  ok_step; [exact Hs1|]. by ok_step; [exact Hs2|].
Qed.

(** ** Dead credentials *)

Definition closed (st : ConnectorCredentialStatus) : Prop := st = Retired ∨ st = RevokedCredential.

Lemma closed_entry_stays a a' i e :
  change a a' → a.(history) !! i = Some e → closed e.(status) → a'.(history) !! i = Some e.
Proof.
  intros Hch Hi Hcl. destruct Hch as [rs c s extra Hst Hh Hrs Hc|rs c p Hst Hh Hrs Hc Hp|Hst]; cbn.
  - by apply lookup_app_l_Some.
  - rewrite Hh in Hi. destruct (decide (i < length rs)%nat) as [Hlt|Hge].
    { rewrite lookup_app_l in Hi |- * by done. done. }
    rewrite lookup_app_r in Hi by lia. apply list_elem_of_lookup_2 in Hi. unfold closed in Hcl.
    apply elem_of_cons in Hi as [->|Hi]; [|apply list_elem_of_singleton in Hi as ->]; destruct Hcl; congruence.
  - rewrite list_lookup_fmap, Hi. cbn. f_equal. unfold revoke_entry. destruct Hcl as [-> | ->]; done.
Qed.

Lemma change_state a a' : change a a' → a.(state) = Active.
Proof. by intros []. Qed.

Lemma auth_run_closed ops a i e :
  auth_ok a → Forall op_ok ops → a.(history) !! i = Some e → closed e.(status) →
  (run_all step ops a).(history) !! i = Some e.
Proof.
  intros Hok Hops Hi Hcl. rewrite Forall_forall in Hops.
  apply (run_all_inv step (λ s, auth_ok s ∧ s.(history) !! i = Some e)); [|done].
  intros o s Ho [Hs He]. split; [apply auth_step_ok; auto|].
  destruct (auth_step_cases o s Hs (Hops o Ho)) as [->|Hch]; [done|]. by eapply closed_entry_stays.
Qed.

Lemma run_revoked ops a :
  auth_ok a → Forall op_ok ops → a.(state) = Revoked → run_all step ops a = a.
Proof.
  intros Hok Hops Hst. rewrite Forall_forall in Hops.
  apply (run_all_inv step (λ s, s = a)); [|done]. intros o s Ho ->.
  destruct (auth_step_cases o a Hok (Hops o Ho)) as [?|Hch]; [done|]. apply change_state in Hch. congruence.
Qed.

(** C26. A superseded credential stays dead: once a credential is retired, or the
    connector is revoked, no later operations make the transport accept a
    certificate presented under its identifier, at any time. *)
Theorem superseded_credential_is_dead a id ops p now st :
  reachable a → Forall op_ok ops →
  a.(state) = Revoked ∨ status_of a id = Some Retired ∨ status_of a id = Some RevokedCredential →
  p.(p_credential_id) = id →
  authorize_transport (run_all step ops a) p now ≠ Ok st.
Proof.
  intros Hok%auth_reachable_ok Hops Hdead Hp Hauth. pose proof (auth_run_ok ops a Hok Hops) as Hok'.
  destruct (decide (a.(state) = Revoked)) as [Hst|Hst].
  { rewrite run_revoked in Hauth by done. unfold authorize_transport in Hauth. by rewrite Hst in Hauth. }
  assert (∃ e, e ∈ a.(history) ∧ id_of e = id ∧ closed e.(status)) as (e & He & Hid & Hcl).
  { destruct Hdead as [?|Hs]; [done|]. unfold status_of in Hs.
    destruct (find_entry _ _) as [e|] eqn:Hf; [|by destruct Hs]. apply find_entry_Some in Hf as [He Hid].
    exists e. split_and!; [done|done|]. destruct Hs as [[= Hs]|[= Hs]]; [by left|by right]. }
  apply list_elem_of_lookup_1 in He as [i Hi].
  pose proof (auth_run_closed ops a i e Hok Hops Hi Hcl) as Hi'.
  unfold authorize_transport in Hauth. rewrite Hp, <-Hid in Hauth.
  rewrite (find_by_id (history (run_all step ops a)) e) in Hauth;
    [|apply Hok'|by eapply list_elem_of_lookup_2].
  res_inv Hauth. match goal with H : Some e = Some _ |- _ => injection H as <- end.
  destruct Hcl as [Hcl|Hcl]; by rewrite Hcl in Hauth.
Qed.

(** ** The origin of a pending credential *)

Definition unused (a : ConnectorCredentialAuthorization) (s : ConnectorCredential) : Prop :=
  s.(credential_id) ∉ id_of <$> a.(history) ∧
  s.(certificate_fingerprint) ∉ (certificate_fingerprint ∘ credential) <$> a.(history) ∧
  s.(control_key) ∉ (control_key ∘ credential) <$> a.(history).

(** [s] was added to [a] as the successor of the current credential [cur]. *)
Record added (a a' : ConnectorCredentialAuthorization) (cur s : ConnectorCredential) : Prop := {
  ad_current : current a = Some cur;
  ad_none : pending a = None;
  ad_kept : current a' = Some cur;
  ad_history : a'.(history) = a.(history) ++ [MkEntry s Pending];
  ad_refresh : s.(refresh_key) = cur.(refresh_key);
  ad_unused : unused a s
}.

Lemma change_adds a a' s :
  change a a' → pending a' = Some s → pending a ≠ Some s → ∃ cur, added a a' cur s.
Proof.
  intros Hch Hp Hn. destruct Hch as [rs c s0 extra Hst Hh Hrs Hc Ht Hcn Hg Hl Hr Hi Hf Hk _|rs c p Hst Hh Hrs Hc Hpp|Hst].
  - destruct (active_lookups (history a ++ [MkEntry s0 Pending]) rs c [MkEntry s0 Pending]) as [L1 L2]; try done.
    { by rewrite Hh, <-(assoc_L (++)). }
    { right. by eauto. }
    destruct (active_lookups (history a) rs c []) as [L3 L4]; try done; [by left|].
    unfold pending, find_entry in Hp. cbn in Hp. rewrite L2 in Hp. injection Hp as ->.
    exists c.(credential). split; try done; unfold current, pending, find_entry; cbn; by rewrite ?L1, ?L3, ?L4.
  - exfalso. destruct (active_lookups (rs ++ [MkEntry (credential c) Retired; MkEntry (credential p) Current])
      (rs ++ [MkEntry (credential c) Retired]) (MkEntry (credential p) Current) []) as [_ L]; try done.
    + by rewrite <-(assoc_L (++)).
    + apply Forall_app. by auto.
    + by left.
    + unfold pending, find_entry in Hp. cbn in Hp. by rewrite L in Hp.
  - exfalso. unfold pending, find_entry in Hp. cbn in Hp.
    destruct (list_find _ _) as [[k e]|] eqn:Hf; [|done]. apply list_find_Some in Hf as (Hk & He & _).
    apply list_elem_of_lookup_2, list_elem_of_fmap in Hk as (e0 & -> & _). unfold revoke_entry in He.
    destruct (status e0) eqn:E; cbn in He; congruence.
Qed.

(** Only the two proposals make the history longer. *)
Lemma propose_result r s x a a' :
  propose_successor r s a = (Ok x, a') → a' ≠ a →
  evaluate_rotation_request a r = Ok IssueSuccessor ∧ a'.(history) = a.(history) ++ [MkEntry s Pending] ∧
  ∃ cur, current a = Some cur ∧ s.(control_key) = r.(rr_transcript).(ro_new_control_key) ∧
    s.(generation) = r.(rr_transcript).(ro_successor_generation) ∧ s.(revision) = r.(rr_transcript).(ro_successor_revision).
Proof.
  intros H Hne. unfold propose_successor in H. apply st_bind_Ok in H as (? & ? & [-> ->]%get_Ok & H).
  apply st_bind_Ok in H as (disp & ? & [Hev ->]%lift_Ok & H). destruct disp as [|res]; [|st_inv H; done].
  st_inv H. not_ors. split; [done|]. show_fields. split; [done|]. eexists. split_and!; [done..].
Qed.

Lemma reissue_result s x a a' :
  propose_reissue s a = (Ok x, a') →
  a'.(history) = a.(history) ++ [MkEntry s Pending] ∧
  ∃ cur, current a = Some cur ∧ s.(generation) = cur.(generation) ∧ s.(revision) = cur.(revision).
Proof.
  intros H. unfold propose_reissue in H. st_inv H. not_ors. show_fields. split; [done|].
  eexists. split_and!; [done..].
Qed.

Lemma promote_length i a : length (exec (promote_successor i) a).(history) = length a.(history).
Proof.
  destruct (exec_atomic (promote_successor i) a (promote_atomic i)) as [->|[x Hx]]; [done|].
  destruct (exec _ a) as [] eqn:He. unfold promote_successor in Hx. st_inv Hx. show_fields. by rewrite !length_alter.
Qed.

(** C27. Where a pending credential comes from.  Whenever any operation, with a rotation
    request that its constructor returned, makes a credential pending, there was none
    pending, the current credential stays current, and the successor keeps its refresh
    key and has an identifier, a control key and a certificate fingerprint that no
    credential of the connector ever had.  Either the operation was a rotation request
    signed with the refresh key of the current credential and with the new control key,
    over a statement that names the current credential, the next generation, a later
    revision and the control key of the successor; or it was a reissue, without a
    request, and then the successor has the generation and the revision of the current
    credential. *)
Theorem pending_credential_origin a o s :
  reachable a → op_ok o → pending (step o a) = Some s → pending a ≠ Some s →
  ∃ cur, added a (step o a) cur s ∧
    ((∃ r, o = OpRotate r s ∧
       let t := r.(rr_transcript) in
       verify_signature cur.(refresh_key) (encode_rotation_transcript t) r.(rr_refresh_signature) = Ok tt ∧
       verify_signature s.(control_key) (encode_rotation_transcript t) r.(rr_new_control_signature) = Ok tt ∧
       t.(ro_current_credential_id) = cur.(credential_id) ∧ t.(ro_current_generation) = cur.(generation) ∧
       s.(control_key) = t.(ro_new_control_key) ∧ s.(generation) = cur.(generation) + 1 ∧
       s.(revision) = t.(ro_successor_revision) ∧ cur.(revision) < s.(revision)) ∨
     (o = OpReissue s ∧ s.(generation) = cur.(generation) ∧ s.(revision) = cur.(revision))).
Proof.
  intros Hok%auth_reachable_ok Ho Hp Hn. destruct (auth_step_cases o a Hok Ho) as [Heq|Hch]; [congruence|].
  destruct (change_adds _ _ _ Hch Hp Hn) as [cur Had]. exists cur. split; [done|].
  pose proof (ad_history _ _ _ _ Had) as Hh. pose proof (ad_current _ _ _ _ Had) as Hcur.
  assert (step o a ≠ a) as Hne by (intros Heq; by rewrite Heq in Hp).
  assert (length (step o a).(history) ≠ length a.(history)) as Hlen by (rewrite Hh, length_app; cbn; lia).
  destruct o as [r s'|s'|i|p now|]; cbn [step] in *.
  - destruct (exec_atomic (propose_successor r s') a (propose_atomic r s')) as [?|[x Hx]]; [done|].
    destruct (propose_result _ _ _ _ _ Hx Hne) as (Hev & Hh' & cur' & Hcur' & Hk & Hg & Hr).
    assert (s' = s) as -> by (rewrite Hh in Hh'; by apply app_inj_2 in Hh' as [_ [= ->]]).
    apply evaluate_issue in Hev as (_ & _ & _ & cur2 & Hcur2 & _ & _ & Hid & Hgen & Hsg & _ & Hrev & _ & _ & Hver).
    simplify_eq. left. exists r. split; [done|]. cbn zeta. unfold rotation_verify in Hver.
    apply result_bind_Ok in Hver as ([] & Hv1 & Hv2). rewrite Hk. split_and!; try done; congruence || lia.
  - destruct (exec_atomic (propose_reissue s') a (reissue_atomic s')) as [?|[x Hx]]; [done|].
    destruct (reissue_result _ _ _ _ Hx) as (Hh' & cur' & Hcur' & Hg & Hr).
    assert (s' = s) as -> by (rewrite Hh in Hh'; by apply app_inj_2 in Hh' as [_ [= ->]]).
    simplify_eq. by right.
  - by rewrite promote_length in Hlen.
  - destruct (hello_exec a p now) as [Heq|Heq]; rewrite Heq in Hlen; [done|by rewrite promote_length in Hlen].
  - unfold exec, revoke, mbind, ST_bind, get in Hlen. case_decide; cbn in Hlen; [done|]. by rewrite length_fmap in Hlen.
Qed.
End props.
End CredentialProps.
