(* ===== verification/Enrollment.v ===== *)
(** * Agent control: enrolment intents

    Models [crates/dtx-agent-control/src/enrollment.rs]: the one-time, expiring
    authorization with which a connector obtains its first credential. *)

From S2P Require Import Prelude Domain CanonicalCbor CborSpec CborFields WirePrimitives WireValues Connector ControlProof ControlCredential.

Module Enrollment.
Import Control.
Notation ConnectorCredential := Credential.ConnectorCredential.

Definition ENROLLMENT_TOKEN_DOMAIN : bytes := str "dirextalk.connector-enrollment-token.v1".
Definition DEFAULT_ENROLLMENT_TTL_MILLIS : Z := 300000.
Definition MAX_ENROLLMENT_TTL_MILLIS : Z := 600000.

(** The 32 bytes of the token. *)
Record EnrollmentToken : Type := MkToken { token_bytes : bytes }.

Inductive EnrollmentIntentState : Type := SOpen | SConsumed | SExpired | SRevoked.

(** [IntentOutcome]; its durable form [EnrollmentIntentSnapshotState] has the
    same constructors and fields. *)
Inductive IntentOutcome : Type :=
| Open
| Consumed (consumed_at_millis : Z) (request_digest result_digest : Sha256Digest)
    (result : ConnectorCredential)
| Expired (expired_at_millis : Z)
| Revoked (revoked_at_millis : Z).

Record EnrollmentIntent : Type := {
  intent_id : EnrollmentIntentId;
  tenant_id : TenantId;
  host_id : HostId;
  connector_id : ConnectorId;
  generation : Z;
  spec_revision : Revision;
  request_id : RequestId;
  token_digest : Sha256Digest;
  created_at_millis : Z;
  expires_at_millis : Z;
  outcome : IntentOutcome
}.
Definition EnrollmentIntent_eta (i : EnrollmentIntent) : EnrollmentIntent :=
  {| intent_id := i.(intent_id); tenant_id := i.(tenant_id); host_id := i.(host_id);
     connector_id := i.(connector_id); generation := i.(generation);
     spec_revision := i.(spec_revision); request_id := i.(request_id);
     token_digest := i.(token_digest); created_at_millis := i.(created_at_millis);
     expires_at_millis := i.(expires_at_millis); outcome := i.(outcome) |}.
Global Instance outcome_field : Field outcome := ltac:(field_of EnrollmentIntent_eta outcome).

Inductive EnrollmentRequestDisposition : Type :=
| IssueCredential
| Replay (result : ConnectorCredential).

Inductive EnrollmentError : Type :=
| InvalidGeneration | InvalidLifetime | InvalidTime | InvalidToken | ExpiredError | NotExpired
| RevokedError | AlreadyConsumed | IntentMismatch | InvalidProof | InvalidCredentialResult
| IdempotencyConflict | InvalidSnapshot.

Definition validate_generation (generation : Z) : result EnrollmentError unit :=
  reject InvalidGeneration when (generation = 0 ∨ generation > Revision.MAX).
Definition valid_timestamp (value : Z) : bool := bool_decide (0 ≤ value ≤ Revision.MAX).

Section enrollment.
Context `{Ed25519, Sha256}.
Notation Op := (ST EnrollmentIntent EnrollmentError).

Definition digest (token : EnrollmentToken) : Sha256Digest :=
  domain_digest ENROLLMENT_TOKEN_DOMAIN [token.(token_bytes)].

Definition new (id : EnrollmentIntentId) (tenant : TenantId) (host : HostId) (connector : ConnectorId)
    (gen : Z) (revision : Revision) (request : RequestId) (created_at ttl : Z)
    (token : EnrollmentToken) : result EnrollmentError EnrollmentIntent :=
  validate_generation gen;;
  reject InvalidTime when (valid_timestamp created_at = false);;
  reject InvalidLifetime when (¬ (1 ≤ ttl ≤ MAX_ENROLLMENT_TTL_MILLIS));;
  expires_at ← ok_or (i64_checked_add created_at ttl) InvalidLifetime;
  reject InvalidLifetime when (valid_timestamp expires_at = false);;
  Ok {| intent_id := id; tenant_id := tenant; host_id := host; connector_id := connector;
        generation := gen; spec_revision := revision; request_id := request;
        token_digest := digest token; created_at_millis := created_at;
        expires_at_millis := expires_at; outcome := Open |}.

Definition matches_creation_request (self : EnrollmentIntent) (tenant : TenantId)
    (connector : ConnectorId) (request : RequestId) (ttl : Z) (token : EnrollmentToken) : bool :=
  bool_decide (self.(tenant_id) = tenant ∧ self.(connector_id) = connector ∧ self.(request_id) = request
    ∧ i64_checked_sub self.(expires_at_millis) self.(created_at_millis) = Some ttl)
  && ct_eq self.(token_digest) (digest token).

Definition matches_creation_candidate (self candidate : EnrollmentIntent) : bool :=
  bool_decide (self.(tenant_id) = candidate.(tenant_id) ∧ self.(connector_id) = candidate.(connector_id)
    ∧ self.(request_id) = candidate.(request_id)
    ∧ i64_checked_sub self.(expires_at_millis) self.(created_at_millis)
      = i64_checked_sub candidate.(expires_at_millis) candidate.(created_at_millis))
  && ct_eq self.(token_digest) candidate.(token_digest).

Definition validate_request (self : EnrollmentIntent) (r : EnrollmentRequest) :
    result EnrollmentError unit :=
  let t := r.(er_transcript) in
  reject IntentMismatch
    when (t.(en_tenant_id) ≠ self.(tenant_id) ∨ t.(en_host_id) ≠ self.(host_id)
          ∨ t.(en_connector_id) ≠ self.(connector_id) ∨ t.(en_generation) ≠ self.(generation)
          ∨ t.(en_spec_revision) ≠ self.(spec_revision) ∨ t.(en_request_id) ≠ self.(request_id)
          ∨ ct_eq t.(en_token_digest) self.(token_digest) = false).

Definition evaluate_request (self : EnrollmentIntent) (token : EnrollmentToken)
    (r : EnrollmentRequest) (now : Z) : result EnrollmentError EnrollmentRequestDisposition :=
  reject InvalidTime when (valid_timestamp now = false);;
  reject InvalidToken when (ct_eq self.(token_digest) (digest token) = false);;
  let request_digest := enrollment_request_digest r in
  match self.(outcome) with
  | Consumed _ persisted _ res =>
      if ct_eq persisted request_digest then Ok (Replay res) else Err IdempotencyConflict
  | Revoked _ => Err RevokedError
  | Expired _ => Err ExpiredError
  | Open =>
      reject ExpiredError
        when (now < self.(created_at_millis) ∨ now >= self.(expires_at_millis));;
      validate_request self r;;
      map_err (λ _, InvalidProof) (enrollment_verify r);;
      Ok IssueCredential
  end.

Definition consume (token : EnrollmentToken) (r : EnrollmentRequest) (res : ConnectorCredential)
    (now : Z) : Op ConnectorCredential :=
  self ← get;
  disposition ← lift (evaluate_request self token r now);
  match disposition with
  | Replay res => mret res
  | IssueCredential =>
      let request_digest := enrollment_request_digest r in
      lift (map_err (λ _, InvalidCredentialResult)
              (Credential.validate_enrollment_result res r.(er_transcript) now));;
      let result_digest := Credential.result_digest res in
      modify (λ self, self <| outcome := Consumed now request_digest result_digest res |>);;
      mret res
  end.

Definition revoke (now : Z) : Op unit :=
  lift (reject InvalidTime when (valid_timestamp now = false));;
  self ← get;
  match self.(outcome) with
  | Consumed _ _ _ _ => throw AlreadyConsumed
  | Expired _ => throw ExpiredError
  | Revoked _ => mret tt
  | Open =>
      lift (reject InvalidTime when (now < self.(created_at_millis)));;
      lift (reject ExpiredError when (now >= self.(expires_at_millis)));;
      modify (λ self, self <| outcome := Revoked now |>)
  end.

Definition expire (now : Z) : Op unit :=
  lift (reject InvalidTime when (valid_timestamp now = false));;
  self ← get;
  match self.(outcome) with
  | Consumed _ _ _ _ => throw AlreadyConsumed
  | Revoked _ => throw RevokedError
  | Expired _ => mret tt
  | Open =>
      lift (reject NotExpired when (now < self.(expires_at_millis)));;
      modify (λ self, self <| outcome := Expired now |>)
  end.

Definition snapshot (self : EnrollmentIntent) : EnrollmentIntent := EnrollmentIntent_eta self.

(** The match on the durable state in [try_from_snapshot]. *)
Definition check_outcome (s : EnrollmentIntent) : result EnrollmentError IntentOutcome :=
  match s.(outcome) with
  | Open => Ok Open
  | Consumed at_ request_digest result_digest res =>
      reject InvalidSnapshot
        when (at_ < s.(created_at_millis) ∨ valid_timestamp at_ = false ∨ at_ >= s.(expires_at_millis)
              ∨ Credential.matches_enrollment_binding res s.(tenant_id) s.(connector_id) s.(generation) = false
              ∨ res.(Credential.revision) ≠ s.(spec_revision)
              ∨ Credential.is_valid_at res at_ = false
              ∨ ct_eq (Credential.result_digest res) result_digest = false);;
      Ok (Consumed at_ request_digest result_digest res)
  | Expired at_ =>
      reject InvalidSnapshot when (at_ < s.(expires_at_millis) ∨ valid_timestamp at_ = false);;
      Ok (Expired at_)
  | Revoked at_ =>
      reject InvalidSnapshot when (at_ < s.(created_at_millis) ∨ valid_timestamp at_ = false);;
      Ok (Revoked at_)
  end.

Definition try_from_snapshot (s : EnrollmentIntent) : result EnrollmentError EnrollmentIntent :=
  validate_generation s.(generation);;
  lifetime ← ok_or (i64_checked_sub s.(expires_at_millis) s.(created_at_millis)) InvalidSnapshot;
  reject InvalidSnapshot when (¬ (1 ≤ lifetime ≤ MAX_ENROLLMENT_TTL_MILLIS));;
  reject InvalidSnapshot
    when (valid_timestamp s.(created_at_millis) = false ∨ valid_timestamp s.(expires_at_millis) = false);;
  o ← check_outcome s;
  Ok (EnrollmentIntent_eta s <| outcome := o |>).

Definition state (self : EnrollmentIntent) : EnrollmentIntentState :=
  match self.(outcome) with
  | Open => SOpen | Consumed _ _ _ _ => SConsumed | Expired _ => SExpired | Revoked _ => SRevoked
  end.
Definition state_at (self : EnrollmentIntent) (now : Z) : EnrollmentIntentState :=
  match self.(outcome) with
  | Open => if decide (now >= self.(expires_at_millis)) then SExpired else state self
  | _ => state self
  end.
Definition consumed_result (self : EnrollmentIntent) : option ConnectorCredential :=
  match self.(outcome) with Consumed _ _ _ res => Some res | _ => None end.
Definition consumed_request_digest (self : EnrollmentIntent) : option Sha256Digest :=
  match self.(outcome) with Consumed _ d _ _ => Some d | _ => None end.
Definition consumed_result_digest (self : EnrollmentIntent) : option Sha256Digest :=
  match self.(outcome) with Consumed _ _ d _ => Some d | _ => None end.
End enrollment.

(** ** Histories of an intent *)

Section props.
Context `{Ed : Ed25519, Sha : Sha256} {SL : Sha256Laws}.

Inductive IntentOp : Type :=
| OpConsume (token : EnrollmentToken) (r : EnrollmentRequest) (res : ConnectorCredential) (now : Z)
| OpRevoke (now : Z)
| OpExpire (now : Z).

Definition step (o : IntentOp) : EnrollmentIntent → EnrollmentIntent :=
  match o with
  | OpConsume token r res now => exec (consume token r res now)
  | OpRevoke now => exec (revoke now)
  | OpExpire now => exec (expire now)
  end.

(** What a consumption has established. *)
Definition admitted (i : EnrollmentIntent) (token : EnrollmentToken) (r : EnrollmentRequest)
    (res : ConnectorCredential) (now : Z) : Prop :=
  let t := r.(er_transcript) in
  let b := encode_enrollment_transcript t in
  0 ≤ now ≤ Revision.MAX ∧ i.(created_at_millis) ≤ now < i.(expires_at_millis) ∧
  ct_eq i.(token_digest) (digest token) = true ∧
  ct_eq t.(en_token_digest) i.(token_digest) = true ∧
  t.(en_tenant_id) = i.(tenant_id) ∧ t.(en_host_id) = i.(host_id) ∧ t.(en_connector_id) = i.(connector_id) ∧
  t.(en_generation) = i.(generation) ∧ t.(en_spec_revision) = i.(spec_revision) ∧
  t.(en_request_id) = i.(request_id) ∧
  verify_signature t.(en_control_key) b r.(er_control_signature) = Ok tt ∧
  verify_signature t.(en_refresh_key) b r.(er_refresh_signature) = Ok tt ∧
  res.(Credential.tenant_id) = i.(tenant_id) ∧ res.(Credential.connector_id) = i.(connector_id) ∧
  res.(Credential.generation) = i.(generation) ∧ res.(Credential.revision) = i.(spec_revision) ∧
  res.(Credential.control_key) = t.(en_control_key) ∧ res.(Credential.refresh_key) = t.(en_refresh_key) ∧
  res.(Credential.not_before_millis) ≤ now < res.(Credential.not_after_millis).

Lemma consume_open i token r res now :
  i.(outcome) = Open →
  (∃ i', consume token r res now i = (Ok res, i') ∧
     i' = i <| outcome := Consumed now (enrollment_request_digest r) (Credential.result_digest res) res |>) ↔
  admitted i token r res now.
Proof.
  intros Hop. unfold admitted. cbn zeta. split.
  - intros (i' & H & _). unfold consume in H. apply st_bind_Ok in H as (? & ? & [-> ->]%get_Ok & H).
    apply st_bind_Ok in H as (disp & ? & [Hev ->]%lift_Ok & H).
    unfold evaluate_request in Hev. rewrite Hop in Hev. cbn zeta in Hev.
    repeat (let Hg := fresh "Hg" in apply result_bind_Ok in Hev as (? & Hg & Hev); res_inv Hg).
    injection Hev as <-. unfold validate_request in *. unfold enrollment_verify in *. cbn zeta in *.
    repeat match goal with
      | H : _ ≫= _ = Ok _ |- _ => apply result_bind_Ok in H as ([] & ? & H)
      | H : reject_if _ _ = Ok _ |- _ => apply reject_if_Ok in H end.
    apply st_bind_Ok in H as (? & ? & [Hres ->]%lift_Ok & H). apply map_err_Ok in Hres.
    unfold Credential.validate_enrollment_result in Hres. apply reject_if_Ok in Hres. clear H.
    unfold valid_timestamp, Credential.is_valid_at in *. not_ors.
    repeat match goal with u : unit |- _ => destruct u end.
    split_and!; try done; try lia; congruence.
  - intros (Hn & Hw & Htok & Htd & E1 & E2 & E3 & E4 & E5 & E6 & V1 & V2 & R1 & R2 & R3 & R4 & R5 & R6 & Hv).
    eexists. split; [|reflexivity]. unfold consume. apply st_bind_Ok. eexists i, i. split; [done|].
    apply st_bind_Ok. exists IssueCredential, i. split.
    { apply lift_Ok. split; [|done]. unfold evaluate_request. rewrite Hop. cbn zeta.
      ok_step; [unfold valid_timestamp; rewrite bool_decide_eq_false; tauto|]. ok_step; [congruence|].
      ok_step; [lia|]. apply result_bind_Ok. exists tt. split; [unfold validate_request; apply reject_if_Ok; rewrite Htd; naive_solver|].
      ok_step; [apply map_err_Ok; unfold enrollment_verify; cbn zeta; rewrite V1; exact V2|]. done. }
    cbn zeta. apply st_bind_Ok. exists tt, i. split.
    { apply lift_Ok. split; [|done]. apply map_err_Ok. unfold Credential.validate_enrollment_result.
      apply reject_if_Ok. unfold Credential.is_valid_at. rewrite bool_decide_eq_false. intros Hx.
      destruct Hx as [Hx|[Hx|[Hx|[Hx|[Hx|[Hx|Hx]]]]]]; try congruence. apply Hx. lia. }
    done.
Qed.

(** ** The invariant *)

Record intent_ok (i : EnrollmentIntent) : Prop := {
  io_generation : 1 ≤ i.(generation) ≤ Revision.MAX;
  io_times : 0 ≤ i.(created_at_millis) ∧ i.(expires_at_millis) ≤ Revision.MAX;
  io_lifetime : 1 ≤ i.(expires_at_millis) - i.(created_at_millis) ≤ MAX_ENROLLMENT_TTL_MILLIS;
  io_outcome : check_outcome i = Ok i.(outcome);
  io_digest : ∀ d, consumed_request_digest i = Some d → digest_ok d
}.

Lemma step_closed o i : i.(outcome) ≠ Open → step o i = i.
Proof.
  intros Hop. destruct o as [token r res now|now|now]; cbn [step]; unfold exec.
  - unfold consume, mbind, ST_bind, get, lift. cbn.
    destruct (evaluate_request i token r now) as [[]|] eqn:Hev; try done. unfold evaluate_request in Hev.
    cbn zeta in Hev. do 2 apply result_bind_Ok in Hev as (? & _ & Hev). destruct (outcome i); try done.
    by destruct (ct_eq _ _).
  - unfold revoke, mbind, ST_bind, get, lift, reject_if. case_decide; cbn; [done|]. by destruct (outcome i).
  - unfold expire, mbind, ST_bind, get, lift, reject_if. case_decide; cbn; [done|]. by destruct (outcome i).
Qed.

Lemma intent_run_closed ops i : i.(outcome) ≠ Open → run_all step ops i = i.
Proof.
  intros Hop. apply (run_all_inv step (λ s, s = i)); [|done]. intros o s _ ->. by apply step_closed.
Qed.

Lemma consume_atomic token r res now : atomic (consume token r res now).
Proof.
  unfold consume. do 2 (apply atomic_bind_read; [apply readonly_get || apply readonly_lift|]; intros ?).
  destruct a0; solve_atomic.
Qed.

Lemma consume_Open_Ok i token r res now x i' :
  i.(outcome) = Open → consume token r res now i = (Ok x, i') →
  x = res ∧ i' = i <| outcome := Consumed now (enrollment_request_digest r) (Credential.result_digest res) res |>.
Proof.
  intros Hop Hx. unfold consume in Hx. apply st_bind_Ok in Hx as (? & ? & [-> ->]%get_Ok & Hx).
  apply st_bind_Ok in Hx as (disp & ? & [Hev ->]%lift_Ok & Hx). destruct disp as [|res0].
  - cbn zeta in Hx. by st_inv Hx.
  - unfold evaluate_request in Hev. rewrite Hop in Hev. cbn zeta in Hev.
    repeat apply result_bind_Ok in Hev as (? & _ & Hev). done.
Qed.

(** What a step does to an open intent. *)
Lemma step_open o i :
  i.(outcome) = Open →
  step o i = i ∨
  (∃ token r res now, admitted i token r res now ∧
     step o i = i <| outcome := Consumed now (enrollment_request_digest r) (Credential.result_digest res) res |>) ∨
  (∃ now, 0 ≤ now ≤ Revision.MAX ∧ i.(created_at_millis) ≤ now ∧ step o i = i <| outcome := Revoked now |>) ∨
  (∃ now, 0 ≤ now ≤ Revision.MAX ∧ i.(expires_at_millis) ≤ now ∧ step o i = i <| outcome := Expired now |>).
Proof.
  intros Hop. destruct o as [token r res now|now|now]; cbn [step].
  - destruct (exec_atomic _ i (consume_atomic token r res now)) as [?|[x Hx]]; [by left|right; left].
    assert (∃ i', consume token r res now i = (Ok res, i') ∧
      i' = i <| outcome := Consumed now (enrollment_request_digest r) (Credential.result_digest res) res |>) as Hc.
    { destruct (consume_Open_Ok _ _ _ _ _ _ _ Hop Hx) as [-> Hi]. eauto. }
    pose proof Hc as Hadm. apply consume_open in Hadm; [|done]. exists token, r, res, now. split; [done|].
    destruct Hc as (i' & Hc & ->). unfold exec. by rewrite Hc.
  - unfold exec, revoke, mbind, ST_bind, get, lift, reject_if. case_decide as Ht; cbn; [by left|]. rewrite Hop.
    case_decide; cbn; [by left|]. case_decide; cbn; [by left|]. right. right. left. exists now.
    apply not_false_is_true, bool_decide_eq_true in Ht. split_and!; [lia|lia|lia|done].
  - unfold exec, expire, mbind, ST_bind, get, lift, reject_if. case_decide as Ht; cbn; [by left|]. rewrite Hop.
    case_decide; cbn; [by left|]. right. right. right. exists now.
    apply not_false_is_true, bool_decide_eq_true in Ht. split_and!; [lia|lia|lia|done].
Qed.

Lemma domain_digest_ok d ps : digest_ok (domain_digest d ps).
Proof. apply sha256_length. Qed.

Lemma intent_step_ok o i : intent_ok i → intent_ok (step o i).
Proof.
  intros Hok. destruct (outcome i) eqn:Hop; try (rewrite step_closed by congruence; done).
  pose proof Hok as [K1 K2 K3 K4 K5].
  destruct (step_open o i Hop) as [->|[(token & r & res & now & Ha & ->)|[(now & Hn & Hc & ->)|(now & Hn & Hc & ->)]]].
  - done.
  - destruct Ha as (Hn & Hw & _ & _ & _ & _ & _ & _ & _ & _ & _ & _ & R1 & R2 & R3 & R4 & _ & _ & Hv).
    split; cbn; try done; [|intros d [= <-]; apply domain_digest_ok].
    unfold check_outcome. cbn. ok_step; [|done].
    unfold valid_timestamp, Credential.is_valid_at, Credential.matches_enrollment_binding.
    rewrite ct_eq_refl, !bool_decide_eq_false. intros [?|[Hx|[?|[Hx|[?|[Hx|?]]]]]]; try done; try lia; apply Hx; try lia.
    by split_and!.
  - split; cbn; try done. unfold check_outcome. cbn. ok_step; [|done].
    unfold valid_timestamp. rewrite bool_decide_eq_false. lia.
  - split; cbn; try done. unfold check_outcome. cbn. ok_step; [|done].
    unfold valid_timestamp. rewrite bool_decide_eq_false. lia.
Qed.

Definition reachable (i : EnrollmentIntent) : Prop :=
  ∃ id t h c g v q at_ ttl token i0 ops, new id t h c g v q at_ ttl token = Ok i0 ∧ 0 ≤ g ∧
    i = run_all step ops i0.

Lemma intent_reachable_ok i : reachable i → intent_ok i.
Proof.
  intros (id & t & h & c & g & v & q & at_ & ttl & token & i0 & ops & Hn & Hg & ->).
  apply run_all_inv; [intros; by apply intent_step_ok|]. unfold new, validate_generation in Hn. res_inv Hn.
  apply checked_Some in Hres2 as [-> _]. unfold valid_timestamp in *. not_ors.
  split; cbn; try done; lia.
Qed.

(** Every enrolment intent that consumption, revocation and expiry produce,
    failing attempts included, passes the validation of its durable image and is
    restored exactly. *)
Theorem reachable_intent_loads i : reachable i → try_from_snapshot (snapshot i) = Ok i.
Proof.
  intros [K1 K2 K3 K4 _]%intent_reachable_ok. assert (EnrollmentIntent_eta i = i) as Heta by (by destruct i).
  unfold snapshot. rewrite Heta. unfold try_from_snapshot, validate_generation, valid_timestamp.
  ok_step; [lia|]. change MAX_ENROLLMENT_TTL_MILLIS with 600000 in *. change Revision.MAX with (2 ^ 53 - 1) in *.
  ok_step; [apply checked_Some; split; [done|unfold i64_min, i64_max; lia]|]. ok_step; [tauto|].
  ok_step; [rewrite !bool_decide_eq_false; lia|]. ok_step; [exact K4|]. by destruct i.
Qed.

(** C28. An enrolment intent is used once.  After a request has consumed it, or it
    has been revoked or has expired, no operations change it any more, failing or not,
    and a later request obtains a credential only by repeating the consuming request,
    and then obtains the credential that was issued to it: the one-time token never
    yields a second credential. *)
Theorem intent_single_use i ops :
  reachable i → i.(outcome) ≠ Open →
  run_all step ops i = i ∧
  ∀ token r res now x i', consume token r res now (run_all step ops i) = (Ok x, i') →
    i' = i ∧ consumed_result i = Some x ∧ consumed_request_digest i = Some (enrollment_request_digest r).
Proof.
  intros Hok%intent_reachable_ok Hop. rewrite intent_run_closed by done. split; [done|].
  intros token r res now x i' H. unfold consume in H.
  apply st_bind_Ok in H as (? & ? & [-> ->]%get_Ok & H).
  apply st_bind_Ok in H as (disp & ? & [Hev ->]%lift_Ok & H). unfold evaluate_request in Hev. cbn zeta in Hev.
  do 2 apply result_bind_Ok in Hev as (? & _ & Hev). pose proof (io_digest _ Hok) as Hd0.
  unfold consumed_result, consumed_request_digest in *.
  destruct (outcome i) as [|at_ d rd c|at_|at_]; try done. destruct (ct_eq d _) eqn:Hd; [|done].
  injection Hev as <-. apply mret_Ok in H as [-> ->]. split_and!; [done|done|].
  f_equal. apply ct_eq_iff; [by apply Hd0|apply domain_digest_ok|done].
Qed.

(** What enrolment demands.  An open intent issues a credential exactly when the
    request arrives inside the lifetime of the intent, presents the token, states
    the tenant, host, connector, generation, revision and request of the intent,
    is signed with both stated keys, and the credential is valid now and carries
    exactly that scope and those keys. *)
Theorem enrollment_admits_exactly i token r res now :
  i.(outcome) = Open →
  (∃ i', consume token r res now i = (Ok res, i') ∧ consumed_result i' = Some res) ↔
  admitted i token r res now.
Proof.
  intros Hop. rewrite <-(consume_open i token r res now Hop). split.
  - intros (i' & Hc & _). exists i'. split; [done|]. by destruct (consume_Open_Ok _ _ _ _ _ _ _ Hop Hc).
  - intros (i' & Hc & ->). eauto.
Qed.
End props.
End Enrollment.
