(* ===== verification/RuntimeClaims.v ===== *)
(** * Agent control: bounded text and runtime claims

    Models [crates/dtx-agent-control/src/claims.rs], the untrusted facts that a
    connector reports, and the text checks of [command.rs]. *)

From S2P Require Import Prelude Domain CanonicalCbor Connector ControlProof.

Module Text.

(** [u8::is_ascii_*] *)
Definition is_lowercase (b : Z) : bool := bool_decide (97 ≤ b ≤ 122).
Definition is_uppercase (b : Z) : bool := bool_decide (65 ≤ b ≤ 90).
Definition is_digit (b : Z) : bool := bool_decide (48 ≤ b ≤ 57).
Definition is_graphic (b : Z) : bool := bool_decide (33 ≤ b ≤ 126).
Definition is_mark (b : Z) : bool :=
  bool_decide (b = 46 ∨ b = 95 ∨ b = 45 ∨ b = 47 ∨ b = 58).

(** [str::chars]: the scalar values of a UTF-8 text. *)
Fixpoint chars (s : bytes) : list Z :=
  match s with
  | [] => []
  | b0 :: r0 =>
      if decide (b0 < 0x80) then b0 :: chars r0 else
      match r0 with
      | [] => []
      | b1 :: r1 =>
          if decide (b0 < 0xe0) then ((b0 - 0xc0) * 64 + (b1 - 0x80)) :: chars r1 else
          match r1 with
          | [] => []
          | b2 :: r2 =>
              if decide (b0 < 0xf0)
              then ((b0 - 0xe0) * 4096 + (b1 - 0x80) * 64 + (b2 - 0x80)) :: chars r2 else
              match r2 with
              | [] => []
              | b3 :: r3 =>
                  ((b0 - 0xf0) * 262144 + (b1 - 0x80) * 4096 + (b2 - 0x80) * 64 + (b3 - 0x80)) :: chars r3
              end
          end
      end
  end.

Definition is_control (scalar : Z) : bool :=
  bool_decide (scalar ≤ 0x1f ∨ 0x7f ≤ scalar ≤ 0x9f).
Definition contains_c0_c1_control (value : bytes) : bool := existsb is_control (chars value).

(** [str::split] at an ASCII character. *)
Fixpoint split_on (sep : Z) (s : bytes) : list bytes :=
  match s with
  | [] => [[]]
  | c :: s =>
      if decide (c = sep) then [] :: split_on sep s
      else match split_on sep s with p :: ps => (c :: p) :: ps | [] => [[c]] end
  end.

(** [str::parse::<u32>]: an optional plus sign and at least one digit. *)
Definition parse_u32 (s : bytes) : option Z :=
  let digits := match s with 43 :: (_ :: _) as rest => rest | _ => s end in
  match digits with
  | [] => None
  | _ => if forallb is_digit digits then checked 0 u32_max (be_value 10 ((λ c, c - 48) <$> digits)) else None
  end.

Definition valid_lower_stable_name (value : bytes) (maximum : Z) : bool :=
  bool_decide (value ≠ [])
  && bool_decide (len value ≤ maximum)
  && match value with [] => false | byte :: _ => is_lowercase byte || is_digit byte end
  && forallb (λ byte, is_lowercase byte || is_digit byte || is_mark byte) value.

Definition valid_upper_snake_code (value : bytes) (maximum : Z) : bool :=
  bool_decide (3 ≤ len value ≤ maximum)
  && match value with [] => false | byte :: _ => is_uppercase byte end
  && forallb (λ part, bool_decide (part ≠ []) && forallb (λ byte, is_uppercase byte || is_digit byte) part)
       (split_on 95 value).

(** [windows(2).all(|pair| pair[0] < pair[1])] *)
Fixpoint strictly_sorted {A} `{Ord A} (l : list A) : bool :=
  match l with
  | x :: ((y :: _) as l') => bool_decide (ord_lt x y) && strictly_sorted l'
  | _ => true
  end.

(** [values.iter().all(|value| unique.insert(value))] *)
Fixpoint all_unique {A} `{Countable A} (l : list A) (unique : gset A) : bool :=
  match l with
  | [] => true
  | x :: l => if decide (x ∈ unique) then false else all_unique l ({[x]} ∪ unique)
  end.

Lemma all_unique_true {A} `{Countable A} (l : list A) (s : gset A) :
  all_unique l s = true ↔ NoDup l ∧ ∀ x, x ∈ l → x ∉ s.
Proof.
  revert s. induction l as [|x l IH]; intros s; cbn.
  { split; [|done]. intros _. split; [constructor|]. set_solver. }
  case_decide as Hx.
  { split; [done|]. intros [_ Hd]. destruct (Hd x); [by left|done]. }
  rewrite IH, NoDup_cons. split.
  - intros [Hnd Hd]. split; [split; [|done]|].
    + intros Hin. apply (Hd x Hin). set_solver.
    + intros y [->|Hy]%elem_of_cons; [done|]. intros ?. apply (Hd y Hy). set_solver.
  - intros [[Hn Hnd] Hd]. split; [done|]. intros y Hy [->%elem_of_singleton|Hs]%elem_of_union; [done|].
    apply (Hd y); [by right|done].
Qed.

Lemma strictly_sorted_true {A} `{Ord A} (l : list A) : strictly_sorted l = true ↔ Sorted ord_lt l.
Proof.
  induction l as [|x l IH]; [split; [constructor|done]|]. destruct l as [|y l].
  { split; [by repeat constructor|done]. }
  change (strictly_sorted (x :: y :: l)) with (bool_decide (ord_lt x y) && strictly_sorted (y :: l)).
  rewrite andb_true_iff, bool_decide_eq_true, IH. split.
  - intros [? ?]. constructor; [done|]. by constructor.
  - intros Hs. inversion_clear Hs as [|?? Hs' Hhd]. inversion_clear Hhd. done.
Qed.

(** A sorted list without duplicates is strictly sorted, and sorting leaves it. *)
Lemma sort_strict {A} `{EqDecision A, Ord A} (l : list A) :
  NoDup l → strictly_sorted (merge_sort ord_le l) = true.
Proof.
  intros Hnd. apply strictly_sorted_true. rewrite <-(merge_sort_Permutation ord_le l) in Hnd.
  pose proof (Sorted_merge_sort ord_le l) as Hs. induction Hs as [|x k Hs IH Hhd]; [constructor|].
  apply NoDup_cons in Hnd as [Hx Hnd]. constructor; [by apply IH|]. destruct Hhd as [|y k Hxy]; [constructor|].
  constructor. apply ord_le_cases in Hxy as [?| ->]; [done|]. destruct Hx. by left.
Qed.

Lemma strict_sort {A} `{EqDecision A, Ord A} (l : list A) :
  strictly_sorted l = true → merge_sort ord_le l = l.
Proof.
  intros Hs%strictly_sorted_true. apply (Sorted_unique ord_le).
  - apply Sorted_merge_sort; apply _.
  - induction Hs as [|x k Hs IH Hhd]; constructor; [done|]. destruct Hhd; constructor. apply ord_le_cases. by left.
  - apply merge_sort_Permutation.
Qed.
End Text.

(** ** Runtime claims *)

Module Claims.
Import Control Text.

Definition MAX_RUNTIME_VERSION_BYTES : Z := 128.
Definition MAX_RUNTIME_ERROR_CODE_BYTES : Z := 64.
Definition MAX_CAPABILITY_NAME_BYTES : Z := 128.
Definition MAX_RUNTIME_CAPABILITIES : Z := 64.
Definition MAX_ACTIVE_RUN_IDS : Z := 1024.
Definition MAX_RUNTIME_QUEUE_DEPTH : Z := 1000000.

(** The aggregate and its snapshot have the same fields. *)
Record RuntimeClaims : Type := {
  adapter_kind : AdapterKind;
  runtime_version : bytes;
  adapter_build_digest : Sha256Digest;
  queue_depth : Z;
  active_run_ids : list RunId;
  stable_error_code : option bytes;
  capabilities : list bytes
}.

Inductive RuntimeClaimsError : Type :=
| InvalidRuntimeVersion | InvalidQueueDepth | TooManyActiveRuns | DuplicateActiveRun | InvalidErrorCode
| TooManyCapabilities | InvalidCapability | DuplicateCapability | NonCanonicalOrder.

Notation R := (result RuntimeClaimsError unit).

Definition validate_runtime_version (value : bytes) : R :=
  if bool_decide (value ≠ []) && bool_decide (len value ≤ MAX_RUNTIME_VERSION_BYTES)
     && forallb (λ c, negb (is_control c)) (chars value)
  then Ok tt else Err InvalidRuntimeVersion.

Definition validate_queue_depth (value : Z) : R :=
  if decide (value ≤ MAX_RUNTIME_QUEUE_DEPTH) then Ok tt else Err InvalidQueueDepth.

Definition valid_error_code (value : bytes) : bool :=
  bool_decide (3 ≤ len value ≤ MAX_RUNTIME_ERROR_CODE_BYTES)
  && forallb (λ part, bool_decide (part ≠ []) && forallb (λ byte, is_uppercase byte || is_digit byte) part)
       (split_on 95 value)
  && match value with [] => false | byte :: _ => is_uppercase byte end.

Definition validate_error_code (value : option bytes) : R :=
  if match value with None => true | Some v => valid_error_code v end then Ok tt else Err InvalidErrorCode.

Definition validate_active_runs (values : list RunId) : R :=
  reject TooManyActiveRuns when (len values > MAX_ACTIVE_RUN_IDS);;
  if all_unique values ∅ then Ok tt else Err DuplicateActiveRun.

Definition valid_bounded_visible_ascii (value : bytes) (maximum : Z) : bool :=
  bool_decide (value ≠ []) && bool_decide (len value ≤ maximum) && forallb is_graphic value.

Definition valid_capability_name (value : bytes) (maximum : Z) : bool :=
  valid_bounded_visible_ascii value maximum
  && match value with [] => false | byte :: _ => is_lowercase byte || is_digit byte end
  && forallb (λ byte, is_lowercase byte || is_digit byte || is_mark byte) value.

Definition validate_capabilities (values : list bytes) : R :=
  reject TooManyCapabilities when (len values > MAX_RUNTIME_CAPABILITIES);;
  reject InvalidCapability
    when (existsb (λ value, negb (valid_capability_name value MAX_CAPABILITY_NAME_BYTES)) values = true);;
  if all_unique values ∅ then Ok tt else Err DuplicateCapability.

Definition new (kind : AdapterKind) (version : bytes) (build : Sha256Digest) (depth : Z)
    (runs : list RunId) (error_code : option bytes) (caps : list bytes) :
    result RuntimeClaimsError RuntimeClaims :=
  validate_runtime_version version;;
  validate_queue_depth depth;;
  validate_error_code error_code;;
  validate_active_runs runs;;
  validate_capabilities caps;;
  Ok {| adapter_kind := kind; runtime_version := version; adapter_build_digest := build;
        queue_depth := depth; active_run_ids := merge_sort ord_le runs; stable_error_code := error_code;
        capabilities := merge_sort ord_le caps |}.

Definition RuntimeClaims_eta (c : RuntimeClaims) : RuntimeClaims :=
  {| adapter_kind := c.(adapter_kind); runtime_version := c.(runtime_version);
     adapter_build_digest := c.(adapter_build_digest); queue_depth := c.(queue_depth);
     active_run_ids := c.(active_run_ids); stable_error_code := c.(stable_error_code);
     capabilities := c.(capabilities) |}.
Definition snapshot (self : RuntimeClaims) : RuntimeClaims := RuntimeClaims_eta self.

Definition try_from_snapshot (s : RuntimeClaims) : result RuntimeClaimsError RuntimeClaims :=
  validate_runtime_version s.(runtime_version);;
  validate_queue_depth s.(queue_depth);;
  validate_error_code s.(stable_error_code);;
  validate_active_runs s.(active_run_ids);;
  validate_capabilities s.(capabilities);;
  reject NonCanonicalOrder
    when (strictly_sorted s.(active_run_ids) = false ∨ strictly_sorted s.(capabilities) = false);;
  Ok (RuntimeClaims_eta s).

Lemma validate_runs_perm l k : l ≡ₚ k → validate_active_runs l = Ok tt → validate_active_runs k = Ok tt.
Proof.
  unfold validate_active_runs, len. intros Hp. rewrite (Permutation_length Hp). intros H. apply result_bind_Ok in H as (? & H1 & H2).
  apply result_bind_Ok. eexists. split; [exact H1|]. destruct (all_unique l ∅) eqn:Hl; [|done].
  apply all_unique_true in Hl as [Hnd _]. rewrite Hp in Hnd.
  by replace (all_unique k ∅) with true by (symmetry; apply all_unique_true; set_solver).
Qed.

Lemma validate_capabilities_perm l k : l ≡ₚ k → validate_capabilities l = Ok tt → validate_capabilities k = Ok tt.
Proof.
  unfold validate_capabilities, len. intros Hp. rewrite (Permutation_length Hp). intros H. apply result_bind_Ok in H as (? & H1 & H).
  apply result_bind_Ok in H as (? & H2 & H3).
  apply result_bind_Ok. eexists. split; [exact H1|]. apply result_bind_Ok. exists tt. split.
  - apply reject_if_Ok. apply reject_if_Ok in H2. contradict H2. apply existsb_exists in H2 as (v & Hv & Hn).
    apply existsb_exists. exists v. split; [|done]. apply list_elem_of_In. rewrite Hp. by apply list_elem_of_In.
  - destruct (all_unique l ∅) eqn:Hl; [|done].
    apply all_unique_true in Hl as [Hnd _]. rewrite Hp in Hnd.
    by replace (all_unique k ∅) with true by (symmetry; apply all_unique_true; set_solver).
Qed.

Lemma runs_NoDup l : validate_active_runs l = Ok tt → NoDup l.
Proof.
  unfold validate_active_runs. intros (? & _ & H)%result_bind_Ok. destruct (all_unique l ∅) eqn:Hl; [|done].
  by apply all_unique_true in Hl as [? _].
Qed.

Lemma capabilities_NoDup l : validate_capabilities l = Ok tt → NoDup l.
Proof.
  unfold validate_capabilities. intros (? & _ & (? & _ & H)%result_bind_Ok)%result_bind_Ok.
  destruct (all_unique l ∅) eqn:Hl; [|done]. by apply all_unique_true in Hl as [? _].
Qed.

(** The loader of runtime claims accepts exactly the reports that the
    constructor produces: a durable image is restored if and only if it is what
    the constructor makes of some report, and then it is restored unchanged. *)
Theorem claims_loader_exact s c :
  try_from_snapshot s = Ok c ↔
  s = c ∧ ∃ runs caps, new c.(adapter_kind) c.(runtime_version) c.(adapter_build_digest) c.(queue_depth)
    runs c.(stable_error_code) caps = Ok c.
Proof.
  assert (∀ c, RuntimeClaims_eta c = c) as Heta by (by intros []). split.
  - unfold try_from_snapshot. intros H. do 5 (apply result_bind_Ok in H as ([] & ? & H)).
    apply result_bind_Ok in H as (? & Hs%reject_if_Ok & H). injection H as <-. rewrite Heta. split; [done|].
    apply Decidable.not_or in Hs as [Hr%not_false_is_true Hc%not_false_is_true].
    exists (active_run_ids s), (capabilities s). unfold new.
    do 5 (apply result_bind_Ok; exists tt; split; [assumption|]).
    rewrite !strict_sort by done. by destruct s.
  - intros [-> (runs & caps & H)]. unfold new in H. do 5 (apply result_bind_Ok in H as ([] & ? & H)).
    injection H as H. rewrite <-H. unfold try_from_snapshot. cbn.
    do 3 (apply result_bind_Ok; exists tt; split; [assumption|]).
    apply result_bind_Ok. exists tt. split; [eapply validate_runs_perm; [|done]; symmetry; apply merge_sort_Permutation|].
    apply result_bind_Ok. exists tt. split; [eapply validate_capabilities_perm; [|done]; symmetry; apply merge_sort_Permutation|].
    ok_step; [|done]. rewrite !sort_strict; [by intros []|by apply capabilities_NoDup|by apply runs_NoDup].
Qed.
End Claims.
