(* ===== verification/CommandLog.v ===== *)
(** * Agent control: the command log

    Models [crates/dtx-agent-control/src/command.rs] and the command bodies of
    [route_bootstrap.rs]: the closed set of server commands, and the append-only
    log of one connector with its acknowledgement cursor and its fence. *)

From S2P Require Import Prelude Domain AgentRegistry CanonicalCbor CborSpec CborFields WirePrimitives WireValues Connector ControlProof ControlCredential RuntimeClaims.

Notation ApprovalId := (UuidV7Id KApproval).
Notation ProvisioningDeliveryId := (UuidV7Id KProvisioningDelivery).
Notation ProvisioningRecipientKeyId := (UuidV7Id KProvisioningRecipientKey).
Notation AgentRouteBootstrapId := (UuidV7Id KAgentRouteBootstrap).
Notation AgentRouteDeliveryId := (UuidV7Id KAgentRouteDelivery).
Notation AgentRouteRecipientId := (UuidV7Id KAgentRouteRecipient).

Module Command.
Import Control Text.

Definition COMMAND_PAYLOAD_DOMAIN : bytes := str "dirextalk.connector-command-payload.v1".
Definition ENCODED_COMMAND_DOMAIN : bytes := str "dirextalk.connector-encoded-command.v1".
Definition MAX_COMMAND_BYTES : Z := 196608.
Definition MAX_COMMAND_BACKLOG : Z := 4096.
Definition MAX_CONFIG_ENTRIES_PER_SCOPE : Z := 64.
Definition MAX_CONFIG_KEY_BYTES : Z := 64.
Definition MAX_CONFIG_VALUE_BYTES : Z := 1024.
Definition MAX_CLOSE_STREAM_CODE_BYTES : Z := 64.
Definition MAX_CLOSE_STREAM_DETAIL_BYTES : Z := 512.
Definition MAX_PROVISIONING_CAPSULE_BYTES : Z := 196608.
Definition MAX_AGENT_ROUTE_CAPSULE_BYTES : Z := 196608.

Inductive CommandError : Type :=
| InvalidGeneration | InvalidSequence | InvalidCommandBytes | InvalidCommandPayloadBytes
| InvalidCommandPayload | InvalidConfigEntry | InvalidCloseStreamMetadata | StaleFence | StaleCursor
| CursorGap | AckGap | UnknownCommand | DigestMismatch | IdempotencyConflict | BacklogFull
| UnacknowledgedCommands | InvalidFenceTransition | MissingRevokeCommand | RevokedError
| CounterExhausted | InvalidSnapshot.

Global Instance CommandError_eq_dec : EqDecision CommandError.
Proof. solve_decision. Defined.
Global Instance RevisionError_eq_dec : EqDecision Revision.RevisionError.
Proof. solve_decision. Defined.

(** ** Payloads *)

Record ConfigEntry : Type := { key : bytes; value : bytes }.
Global Instance ConfigEntry_eq_dec : EqDecision ConfigEntry.
Proof. solve_decision. Defined.

Definition one_of (value : bytes) (names : list bytes) : bool := existsb (λ n, bool_decide (value = n)) names.

Definition registered_config_entry_is_valid (key value : bytes) : bool :=
  if decide (key = str "adapter") then
    one_of value (str <$> ["codex-app-server"; "openclaw-acp"; "eino"; "rig"; "claude-code"; "vendor-v1"; "hermes-acp"]%string)
  else if decide (key = str "endpoint") then one_of value (str <$> ["local"; "private"; "public"]%string)
  else if decide (key = str "endpoint-profile") then one_of value (str <$> ["local"; "private"; "public"]%string)
  else if decide (key = str "log-level") then
    one_of value (str <$> ["trace"; "debug"; "info"; "warn"; "error"]%string)
  else if decide (key = str "max-concurrent-runs") then
    match parse_u32 value with Some maximum => bool_decide (1 ≤ maximum ≤ 4096) | None => false end
  else if decide (key = str "model") then bool_decide (value = str "agent-v1")
  else if decide (key = str "offline-policy") then one_of value (str <$> ["queue"; "reject"]%string)
  else if decide (key = str "policy-id") then bool_decide (value = str "policy-v1")
  else if decide (key = str "profile") then one_of value (str <$> ["safe"; "default"]%string)
  else if decide (key = str "shutdown") then one_of value (str <$> ["graceful"; "immediate"]%string)
  else if decide (key = str "workspace-mode") then one_of value (str <$> ["read-only"; "workspace-write"]%string)
  else false.

Definition entry_valid (e : ConfigEntry) : bool :=
  valid_lower_stable_name e.(key) MAX_CONFIG_KEY_BYTES
  && bool_decide (len e.(value) ≤ MAX_CONFIG_VALUE_BYTES)
  && negb (contains_c0_c1_control e.(value))
  && registered_config_entry_is_valid e.(key) e.(value).

Definition ConfigEntry_new (k v : bytes) : result CommandError ConfigEntry :=
  reject InvalidConfigEntry
    when (valid_lower_stable_name k MAX_CONFIG_KEY_BYTES = false ∨ len v > MAX_CONFIG_VALUE_BYTES
          ∨ contains_c0_c1_control v = true ∨ registered_config_entry_is_valid k v = false);;
  Ok {| key := k; value := v |}.

(** [entries.windows(2).all(|pair| pair[0].key < pair[1].key)] *)
Definition canonical_config_is_valid (entries : list ConfigEntry) : bool :=
  bool_decide (len entries ≤ MAX_CONFIG_ENTRIES_PER_SCOPE) && forallb entry_valid entries
  && strictly_sorted (key <$> entries).

Definition key_le (x y : ConfigEntry) : Prop := ord_le x.(key) y.(key).
Global Instance key_le_dec : RelDecision key_le.
Proof. intros x y. unfold key_le. apply _. Defined.

Definition canonicalize_config (entries : list ConfigEntry) : result CommandError (list ConfigEntry) :=
  reject InvalidConfigEntry when (len entries > MAX_CONFIG_ENTRIES_PER_SCOPE);;
  let entries := merge_sort key_le entries in
  reject InvalidConfigEntry when (canonical_config_is_valid entries = false);;
  Ok entries.

Record ApplyConfigCommand : Type := {
  config_revision : Revision;
  desired_state : ConnectorDesiredState;
  adapter_config : list ConfigEntry;
  runtime_config : list ConfigEntry
}.
Global Instance ApplyConfigCommand_eq_dec : EqDecision ApplyConfigCommand.
Proof. solve_decision. Defined.
Definition ApplyConfigCommand_new (revision : Revision) (desired : ConnectorDesiredState)
    (adapter runtime : list ConfigEntry) : result CommandError ApplyConfigCommand :=
  reject InvalidCommandPayload when (desired = Revoked);;
  adapter ← canonicalize_config adapter;
  runtime ← canonicalize_config runtime;
  Ok {| config_revision := revision; desired_state := desired; adapter_config := adapter;
        runtime_config := runtime |}.

Record RotateCredentialCommand : Type := {
  rc_nonce : bytes;
  successor_revision : Revision;
  deadline_millis : Z
}.
Global Instance RotateCredentialCommand_eq_dec : EqDecision RotateCredentialCommand.
Proof. solve_decision. Defined.
Definition RotateCredentialCommand_new (nonce : bytes) (revision : Revision) (deadline : Z) :
    result CommandError RotateCredentialCommand :=
  reject InvalidCommandPayload when (¬ (1 ≤ deadline ≤ Revision.MAX));;
  Ok {| rc_nonce := nonce; successor_revision := revision; deadline_millis := deadline |}.

Inductive CloseStreamReason : Type := Reconnect | Drained | ReasonRevoked | ProtocolUpgrade.
Global Instance CloseStreamReason_eq_dec : EqDecision CloseStreamReason.
Proof. solve_decision. Defined.
Record CloseStreamCommand : Type := {
  reason : CloseStreamReason;
  stable_code : bytes;
  redacted_detail : bytes
}.
Global Instance CloseStreamCommand_eq_dec : EqDecision CloseStreamCommand.
Proof. solve_decision. Defined.
Definition CloseStreamCommand_new (r : CloseStreamReason) (code detail : bytes) :
    result CommandError CloseStreamCommand :=
  reject InvalidCloseStreamMetadata
    when (valid_upper_snake_code code MAX_CLOSE_STREAM_CODE_BYTES = false
          ∨ len detail > MAX_CLOSE_STREAM_DETAIL_BYTES ∨ contains_c0_c1_control detail = true);;
  Ok {| reason := r; stable_code := code; redacted_detail := detail |}.
Definition reconnect : CloseStreamCommand :=
  {| reason := Reconnect; stable_code := str "RECONNECT"; redacted_detail := [] |}.
Definition drained : CloseStreamCommand :=
  {| reason := Drained; stable_code := str "DRAINED"; redacted_detail := [] |}.
Definition revoked : CloseStreamCommand :=
  {| reason := ReasonRevoked; stable_code := str "REVOKED"; redacted_detail := [] |}.
Definition protocol_upgrade : CloseStreamCommand :=
  {| reason := ProtocolUpgrade; stable_code := str "PROTOCOL_UPGRADE"; redacted_detail := [] |}.

Record DeliverAgentProvisioningCommand : Type := {
  dp_delivery_id : ProvisioningDeliveryId;
  dp_approval_id : ApprovalId;
  dp_binding_id : BindingId;
  dp_installation_id : InstallationId;
  dp_agent_device_id : AgentDeviceId;
  dp_provisioning_revision : Revision;
  dp_recipient_key_id : ProvisioningRecipientKeyId;
  dp_recipient_descriptor_digest : Sha256Digest;
  dp_capsule_digest : Sha256Digest;
  dp_sealed_capsule : bytes;
  dp_expires_at_millis : Z
}.
Global Instance DeliverAgentProvisioningCommand_eq_dec : EqDecision DeliverAgentProvisioningCommand.
Proof. solve_decision. Defined.
Definition DeliverAgentProvisioningCommand_new (delivery : ProvisioningDeliveryId) (approval : ApprovalId)
    (binding : BindingId) (installation : InstallationId) (device : AgentDeviceId) (revision : Revision)
    (recipient : ProvisioningRecipientKeyId) (descriptor capsule : Sha256Digest) (sealed : bytes)
    (expires_at : Z) : result CommandError DeliverAgentProvisioningCommand :=
  reject InvalidCommandPayload
    when (sealed = [] ∨ len sealed > MAX_PROVISIONING_CAPSULE_BYTES ∨ expires_at ≤ 0);;
  Ok {| dp_delivery_id := delivery; dp_approval_id := approval; dp_binding_id := binding;
        dp_installation_id := installation; dp_agent_device_id := device;
        dp_provisioning_revision := revision; dp_recipient_key_id := recipient;
        dp_recipient_descriptor_digest := descriptor; dp_capsule_digest := capsule;
        dp_sealed_capsule := sealed; dp_expires_at_millis := expires_at |}.

Record RevokeAgentProvisioningCommand : Type := {
  rp_revocation_id : RequestId;
  rp_installation_id : InstallationId;
  rp_binding_id : BindingId;
  rp_agent_device_id : option AgentDeviceId;
  rp_revocation_revision : Revision;
  rp_requested_at_millis : Z
}.
Global Instance RevokeAgentProvisioningCommand_eq_dec : EqDecision RevokeAgentProvisioningCommand.
Proof. solve_decision. Defined.
Definition RevokeAgentProvisioningCommand_new (revocation : RequestId) (installation : InstallationId)
    (binding : BindingId) (device : option AgentDeviceId) (revision : Revision) (requested_at : Z) :
    result CommandError RevokeAgentProvisioningCommand :=
  reject InvalidCommandPayload when (requested_at ≤ 0);;
  Ok {| rp_revocation_id := revocation; rp_installation_id := installation; rp_binding_id := binding;
        rp_agent_device_id := device; rp_revocation_revision := revision;
        rp_requested_at_millis := requested_at |}.

(** *** [route_bootstrap.rs] *)

Record OpaqueAgentRouteBytes : Type := MkOpaque { opaque : bytes }.
Global Instance OpaqueAgentRouteBytes_eq_dec : EqDecision OpaqueAgentRouteBytes.
Proof. solve_decision. Defined.
Definition OpaqueAgentRouteBytes_new (bs : bytes) : result CommandError OpaqueAgentRouteBytes :=
  reject InvalidCommandPayload when (bs = [] ∨ len bs > MAX_AGENT_ROUTE_CAPSULE_BYTES);;
  Ok (MkOpaque bs).

Definition validate_opaque_command_payload (o : OpaqueAgentRouteBytes) (expires_at : Z) :
    result CommandError unit :=
  reject InvalidCommandPayload
    when (expires_at ≤ 0 ∨ o.(opaque) = [] ∨ len o.(opaque) > MAX_AGENT_ROUTE_CAPSULE_BYTES).

Record PrepareAgentRouteRecipient : Type := {
  pr_bootstrap_id : AgentRouteBootstrapId;
  pr_tenant_id : TenantId;
  pr_installation_id : InstallationId;
  pr_binding_id : BindingId;
  pr_agent_control_device_id : AgentDeviceId;
  pr_owner_identity_id : IdentityId;
  pr_owner_device_id : DeviceId;
  pr_owner_signed_intent : OpaqueAgentRouteBytes;
  pr_expires_at_millis : Z;
  pr_server_receipt_key_id : option RouteHealthKeyId;
  pr_server_receipt_public_key : option bytes
}.
Global Instance PrepareAgentRouteRecipient_eq_dec : EqDecision PrepareAgentRouteRecipient.
Proof. solve_decision. Defined.

Record DeliverAgentRouteBootstrap : Type := {
  db_bootstrap_id : AgentRouteBootstrapId;
  db_delivery_id : AgentRouteDeliveryId;
  db_route_id : ConversationId;
  db_recipient_id : AgentRouteRecipientId;
  db_capsule_digest : Sha256Digest;
  db_opaque_sealed_bootstrap : OpaqueAgentRouteBytes;
  db_expires_at_millis : Z;
  db_installation_id : InstallationId;
  db_binding_id : BindingId;
  db_agent_control_device_id : AgentDeviceId;
  db_route_health_key_id : option RouteHealthKeyId;
  db_route_health_public_key_digest : option Sha256Digest;
  db_server_receipt_key_id : option RouteHealthKeyId;
  db_server_receipt_public_key_digest : option Sha256Digest
}.
Global Instance DeliverAgentRouteBootstrap_eq_dec : EqDecision DeliverAgentRouteBootstrap.
Proof. solve_decision. Defined.

(** [is_some() != is_some()] *)
Definition unpaired {A B} (x : option A) (y : option B) : Prop :=
  bool_decide (is_Some x) ≠ bool_decide (is_Some y).
Global Instance unpaired_dec {A B} (x : option A) (y : option B) : Decision (unpaired x y).
Proof. unfold unpaired. apply _. Defined.

Definition validate_prepare (c : PrepareAgentRouteRecipient) : result CommandError unit :=
  validate_opaque_command_payload c.(pr_owner_signed_intent) c.(pr_expires_at_millis);;
  reject InvalidCommandPayload
    when (unpaired c.(pr_server_receipt_key_id) c.(pr_server_receipt_public_key)).

Definition validate_deliver (c : DeliverAgentRouteBootstrap) : result CommandError unit :=
  validate_opaque_command_payload c.(db_opaque_sealed_bootstrap) c.(db_expires_at_millis);;
  reject InvalidCommandPayload
    when (unpaired c.(db_route_health_key_id) c.(db_route_health_public_key_digest));;
  reject InvalidCommandPayload
    when (unpaired c.(db_server_receipt_key_id) c.(db_server_receipt_public_key_digest)).

Inductive ServerCommandPayload : Type :=
| ApplyConfig (c : ApplyConfigCommand)
| RotateCredential (c : RotateCredentialCommand)
| CloseStream (c : CloseStreamCommand)
| DeliverAgentProvisioning (c : DeliverAgentProvisioningCommand)
| RevokeAgentProvisioning (c : RevokeAgentProvisioningCommand)
| PrepareRecipient (c : PrepareAgentRouteRecipient)
| DeliverBootstrap (c : DeliverAgentRouteBootstrap).
Global Instance ServerCommandPayload_eq_dec : EqDecision ServerCommandPayload.
Proof. solve_decision. Defined.

Definition validate_payload (payload : ServerCommandPayload) (spec_revision : Revision) :
    result CommandError unit :=
  match payload with
  | ApplyConfig c =>
      reject InvalidCommandPayload
        when (Revision.checked_next spec_revision ≠ Ok c.(config_revision)
              ∨ c.(desired_state) = Revoked
              ∨ canonical_config_is_valid c.(adapter_config) = false
              ∨ canonical_config_is_valid c.(runtime_config) = false)
  | RotateCredential c =>
      reject InvalidCommandPayload
        when (Revision.checked_next spec_revision ≠ Ok c.(successor_revision)
              ∨ c.(deadline_millis) ≤ 0)
  | CloseStream c =>
      reject InvalidCommandPayload
        when (valid_upper_snake_code c.(stable_code) MAX_CLOSE_STREAM_CODE_BYTES = false
              ∨ len c.(redacted_detail) > MAX_CLOSE_STREAM_DETAIL_BYTES
              ∨ contains_c0_c1_control c.(redacted_detail) = true)
  | DeliverAgentProvisioning c =>
      reject InvalidCommandPayload
        when (c.(dp_sealed_capsule) = [] ∨ len c.(dp_sealed_capsule) > MAX_PROVISIONING_CAPSULE_BYTES
              ∨ c.(dp_expires_at_millis) ≤ 0)
  | RevokeAgentProvisioning c =>
      reject InvalidCommandPayload when (c.(rp_requested_at_millis) ≤ 0)
  | PrepareRecipient c => validate_prepare c
  | DeliverBootstrap c => validate_deliver c
  end.

(** ** The log *)

Record ExactCommandBytes : Type := MkExact { exact : bytes }.
Global Instance ExactCommandBytes_eq_dec : EqDecision ExactCommandBytes.
Proof. solve_decision. Defined.

Definition ExactCommandBytes_new (bs : bytes) : result CommandError ExactCommandBytes :=
  reject InvalidCommandBytes when (bs = [] ∨ len bs > MAX_COMMAND_BYTES);;
  Ok (MkExact bs).

(** [DurableServerCommand] and its snapshot have the same fields. *)
Record DurableServerCommand : Type := {
  sequence : Z;
  operation_id : RequestId;
  c_generation : Z;
  c_spec_revision : Revision;
  payload : ServerCommandPayload;
  payload_digest : Sha256Digest;
  encoded_command_digest : Sha256Digest;
  exact_bytes : ExactCommandBytes
}.

Record CommandAck : Type := {
  ack_sequence : Z;
  ack_payload_digest : Sha256Digest;
  ack_encoded_command_digest : Sha256Digest;
  ack_generation : Z;
  ack_spec_revision : Revision
}.

Inductive CommandLogState : Type := LogActive | LogRevoked.
Global Instance CommandLogState_eq_dec : EqDecision CommandLogState.
Proof. solve_decision. Defined.

(** [CommandLog] and its snapshot have the same fields. *)
Record CommandLog : Type := {
  tenant_id : TenantId;
  connector_id : ConnectorId;
  generation : Z;
  spec_revision : Revision;
  acknowledged_sequence : Z;
  state : CommandLogState;
  commands : list DurableServerCommand
}.
Definition CommandLog_eta (l : CommandLog) : CommandLog :=
  {| tenant_id := l.(tenant_id); connector_id := l.(connector_id); generation := l.(generation);
     spec_revision := l.(spec_revision); acknowledged_sequence := l.(acknowledged_sequence);
     state := l.(state); commands := l.(commands) |}.
Global Instance generation_field : Field generation := ltac:(field_of CommandLog_eta generation).
Global Instance spec_revision_field : Field spec_revision := ltac:(field_of CommandLog_eta spec_revision).
Global Instance acknowledged_field : Field acknowledged_sequence :=
  ltac:(field_of CommandLog_eta acknowledged_sequence).
Global Instance log_state_field : Field state := ltac:(field_of CommandLog_eta state).
Global Instance commands_field : Field commands := ltac:(field_of CommandLog_eta commands).

Definition is_terminal_payload (p : ServerCommandPayload) : bool :=
  match p with CloseStream c => bool_decide (c.(reason) = ReasonRevoked) | _ => false end.
Definition is_terminal_revoke (c : DurableServerCommand) : bool := is_terminal_payload c.(payload).
Definition is_fence_barrier (c : DurableServerCommand) : bool :=
  match c.(payload) with ApplyConfig _ | RotateCredential _ => true | _ => false end
  || is_terminal_revoke c.

Definition validate_generation (generation : Z) : result CommandError unit :=
  reject InvalidGeneration when (generation = 0 ∨ generation > Revision.MAX).

Definition validate_fence (self : CommandLog) (gen : Z) (revision : Revision) : result CommandError unit :=
  reject StaleFence when (gen ≠ self.(generation) ∨ revision ≠ self.(spec_revision)).

Definition command (self : CommandLog) (seq : Z) : option DurableServerCommand :=
  index ← checked 0 u64_max (seq - 1); self.(commands) !! Z.to_nat index.

Definition operation (self : CommandLog) (id : RequestId) : option DurableServerCommand :=
  snd <$> list_find (λ c, c.(operation_id) = id) self.(commands).

Definition next_sequence (self : CommandLog) : result CommandError Z :=
  ok_or (v ← u64_checked_add (len self.(commands)) 1; checked 0 Revision.MAX v) CounterExhausted.

(** [self.commands.get(n..)] *)
Definition suffix {A} (n : Z) (l : list A) : option (list A) :=
  if decide (n ≤ len l) then Some (drop (Z.to_nat n) l) else None.

Section log.
Context `{Sha256}.
Notation Op := (ST CommandLog CommandError).

Definition encoded_digest (b : ExactCommandBytes) : Sha256Digest :=
  domain_digest ENCODED_COMMAND_DOMAIN [b.(exact)].

Definition command_payload_digest (bs : bytes) : result CommandError Sha256Digest :=
  if decide (bs = [] ∨ len bs > MAX_COMMAND_BYTES) then Err InvalidCommandPayloadBytes
  else Ok (domain_digest COMMAND_PAYLOAD_DOMAIN [bs]).

Definition new (tenant : TenantId) (connector : ConnectorId) (gen : Z) (revision : Revision) :
    result CommandError CommandLog :=
  validate_generation gen;;
  Ok {| tenant_id := tenant; connector_id := connector; generation := gen; spec_revision := revision;
        acknowledged_sequence := 0; state := LogActive; commands := [] |}.

Definition append (gen : Z) (revision : Revision) (id : RequestId) (p : ServerCommandPayload)
    (digest : Sha256Digest) (bs : ExactCommandBytes) : Op DurableServerCommand :=
  self ← get;
  lift (validate_fence self gen revision);;
  lift (validate_payload p revision);;
  let encoded := encoded_digest bs in
  match list_find (λ c, c.(operation_id) = id) self.(commands) with
  | Some (_, existing) =>
      if decide (existing.(c_generation) = gen ∧ existing.(c_spec_revision) = revision
                 ∧ existing.(payload) = p ∧ ct_eq existing.(payload_digest) digest = true
                 ∧ ct_eq existing.(encoded_command_digest) encoded = true
                 ∧ existing.(exact_bytes) = bs)
      then mret existing else throw IdempotencyConflict
  | None =>
      lift (reject RevokedError when (self.(state) = LogRevoked));;
      pending ← lift (ok_or (suffix self.(acknowledged_sequence) self.(commands)) InvalidSnapshot);
      let pending_revoke := existsb is_terminal_revoke pending in
      let has_fence_barrier := existsb is_fence_barrier pending in
      let superseding_revoke := is_terminal_payload p in
      lift (reject UnacknowledgedCommands
        when (pending_revoke = true ∨ (has_fence_barrier = true ∧ superseding_revoke = false)));;
      lift (reject BacklogFull
        when (Z.max 0 (len self.(commands) - self.(acknowledged_sequence)) >= MAX_COMMAND_BACKLOG
              ∧ superseding_revoke = false));;
      seq ← lift (next_sequence self);
      let c := {| sequence := seq; operation_id := id; c_generation := gen; c_spec_revision := revision;
                  payload := p; payload_digest := digest; encoded_command_digest := encoded;
                  exact_bytes := bs |} in
      modify (λ self, self <| commands := self.(commands) ++ [c] |>);;
      self ← get;
      lift (ok_or (last self.(commands)) InvalidSnapshot)
  end.

Definition acknowledge (a : CommandAck) : Op unit :=
  self ← get;
  lift (validate_fence self a.(ack_generation) a.(ack_spec_revision));;
  lift (reject InvalidSequence when (a.(ack_sequence) = 0 ∨ a.(ack_sequence) > Revision.MAX));;
  if decide (a.(ack_sequence) = self.(acknowledged_sequence)) then
    c ← lift (ok_or (command self a.(ack_sequence)) InvalidSequence);
    lift (reject DigestMismatch
      when (¬ (ct_eq c.(payload_digest) a.(ack_payload_digest) = true
               ∧ ct_eq c.(encoded_command_digest) a.(ack_encoded_command_digest) = true)))
  else
    expected ← lift (ok_or (u64_checked_add self.(acknowledged_sequence) 1) CounterExhausted);
    lift (reject StaleCursor when (a.(ack_sequence) < expected));;
    lift (reject AckGap when (a.(ack_sequence) > expected));;
    c ← lift (ok_or (command self a.(ack_sequence)) UnknownCommand);
    lift (reject StaleFence
      when (c.(c_generation) ≠ a.(ack_generation) ∨ c.(c_spec_revision) ≠ a.(ack_spec_revision)));;
    lift (reject DigestMismatch
      when (ct_eq c.(payload_digest) a.(ack_payload_digest) = false
            ∨ ct_eq c.(encoded_command_digest) a.(ack_encoded_command_digest) = false));;
    modify (λ self, self <| acknowledged_sequence := a.(ack_sequence) |>).

Definition resume (self : CommandLog) (acknowledged gen : Z) (revision : Revision) :
    result CommandError (list DurableServerCommand) :=
  validate_fence self gen revision;;
  reject StaleCursor when (acknowledged < self.(acknowledged_sequence));;
  reject CursorGap when (acknowledged > len self.(commands));;
  ok_or (suffix self.(acknowledged_sequence) self.(commands)) InvalidSequence.

Definition advance_fence (expected_gen : Z) (expected_revision : Revision) (next_gen : Z)
    (next_revision : Revision) : Op unit :=
  self ← get;
  lift (validate_fence self expected_gen expected_revision);;
  lift (reject RevokedError when (self.(state) = LogRevoked));;
  lift (reject UnacknowledgedCommands when (self.(acknowledged_sequence) ≠ len self.(commands)));;
  revision ← lift (map_err (λ _, CounterExhausted) (Revision.checked_next self.(spec_revision)));
  let next_connector_generation := v ← u64_checked_add self.(generation) 1; checked 0 Revision.MAX v in
  lift (reject InvalidFenceTransition
    when (next_revision ≠ revision
          ∨ (next_gen ≠ self.(generation) ∧ Some next_gen ≠ next_connector_generation)));;
  modify (λ self, self <| generation := next_gen |>);;
  modify (λ self, self <| spec_revision := next_revision |>).

Definition revoke : Op unit :=
  self ← get;
  if decide (self.(state) = LogRevoked) then mret tt
  else
    lift (reject MissingRevokeCommand
      when ((is_terminal_revoke <$> last self.(commands)) ≠ Some true));;
    modify (λ self, self <| state := LogRevoked |>).

Definition finalize_revoke_fence (expected_gen : Z) (expected_revision : Revision) (next_gen : Z)
    (next_revision : Revision) : Op unit :=
  self ← get;
  if decide (self.(state) = LogRevoked) then
    if decide (self.(generation) = next_gen ∧ self.(spec_revision) = next_revision)
    then mret tt else throw RevokedError
  else
    lift (validate_fence self expected_gen expected_revision);;
    revision ← lift (map_err (λ _, CounterExhausted) (Revision.checked_next self.(spec_revision)));
    lift (reject InvalidFenceTransition
      when (next_gen ≠ self.(generation) ∨ next_revision ≠ revision));;
    lift (reject MissingRevokeCommand
      when ((is_terminal_revoke <$> last self.(commands)) ≠ Some true));;
    modify (λ self, self <| spec_revision := next_revision |>);;
    modify (λ self, self <| state := LogRevoked |>).

(** ** The durable image *)

Definition snapshot (self : CommandLog) : CommandLog := CommandLog_eta self.

Definition validate_durable_command_snapshot (c : DurableServerCommand) : result CommandError unit :=
  if decide (c.(sequence) = 0 ∨ c.(sequence) > Revision.MAX ∨ c.(c_generation) = 0
             ∨ c.(c_generation) > Revision.MAX
             ∨ ct_eq c.(encoded_command_digest) (encoded_digest c.(exact_bytes)) = false
             ∨ validate_payload c.(payload) c.(c_spec_revision) ≠ Ok tt)
  then Err InvalidSnapshot else Ok tt.

Definition DurableServerCommand_try_from_snapshot (c : DurableServerCommand) :
    result CommandError DurableServerCommand :=
  validate_durable_command_snapshot c;;
  Ok c.

(** Loop state over the commands: the index, the operations and the last fence. *)
Record CommandScan : Type := {
  cs_index : Z;
  cs_operations : gset RequestId;
  cs_previous : option (Z * Revision)
}.

Definition u64_saturating_add (x y : Z) : Z := Z.min u64_max (x + y).

Definition check_command (s : CommandLog) (scan : CommandScan) (c : DurableServerCommand) :
    result CommandError CommandScan :=
  reject InvalidSnapshot
    when (c.(sequence) ≠ scan.(cs_index) + 1
          ∨ validate_durable_command_snapshot c ≠ Ok tt
          ∨ c.(c_generation) > s.(generation) ∨ c.(c_spec_revision) > s.(spec_revision)
          ∨ c.(operation_id) ∈ scan.(cs_operations));;
  reject InvalidSnapshot
    when (some_and scan.(cs_previous) (λ p,
      c.(c_generation) < p.1 ∨ c.(c_spec_revision) < p.2
      ∨ (c.(c_generation) > p.1 ∧ c.(c_generation) ≠ u64_saturating_add p.1 1)));;
  Ok {| cs_index := scan.(cs_index) + 1; cs_operations := {[c.(operation_id)]} ∪ scan.(cs_operations);
        cs_previous := Some (c.(c_generation), c.(c_spec_revision)) |}.

(** Loop state over the pending commands: the index and [barrier_seen]. *)
Definition check_pending (total : Z) (scan : Z * bool) (c : DurableServerCommand) :
    result CommandError (Z * bool) :=
  reject InvalidSnapshot when (scan.2 = true ∧ is_terminal_revoke c = false);;
  reject InvalidSnapshot when (is_terminal_revoke c = true ∧ scan.1 + 1 ≠ total);;
  Ok (scan.1 + 1, scan.2 || is_fence_barrier c).

Definition validate_command_snapshot (s : CommandLog) : result CommandError unit :=
  validate_generation s.(generation);;
  let pending_count := Z.max 0 (len s.(commands) - s.(acknowledged_sequence)) in
  let terminal := bool_decide ((is_terminal_revoke <$> last s.(commands)) = Some true) in
  let terminal_overflow := bool_decide (pending_count = MAX_COMMAND_BACKLOG + 1) && terminal in
  reject InvalidSnapshot
    when (len s.(commands) > Revision.MAX ∨ s.(acknowledged_sequence) > len s.(commands)
          ∨ (pending_count > MAX_COMMAND_BACKLOG ∧ terminal_overflow = false));;
  try_fold (check_command s) s.(commands) {| cs_index := 0; cs_operations := ∅; cs_previous := None |};;
  pending ← ok_or (suffix s.(acknowledged_sequence) s.(commands)) InvalidSnapshot;
  try_fold (check_pending (len pending)) pending (0, false);;
  reject InvalidSnapshot
    when (some_and (last s.(commands)) (λ c,
      c.(c_generation) > s.(generation) ∨ c.(c_spec_revision) > s.(spec_revision)));;
  reject InvalidSnapshot when (s.(state) = LogRevoked ∧ terminal = false).

Definition try_from_snapshot (s : CommandLog) : result CommandError CommandLog :=
  validate_command_snapshot s;;
  Ok (CommandLog_eta s).
End log.
End Command.
