(* ===== verification/CommandLogProps.v ===== *)
(** * Agent control: histories of the command log

    The log after any sequence of appends, acknowledgements, fence advances and
    revocations. *)

From S2P Require Import Prelude Domain AgentRegistry CanonicalCbor CborSpec CborEncode CborFields WirePrimitives WireValues Connector ControlProof ControlCredential RuntimeClaims CommandLog.

Module CommandProps.
Import Control Text Command.

Ltac show_fields :=
  unfold upd, generation_field, spec_revision_field, acknowledged_field, log_state_field, commands_field in *; cbn.

Section props.
Context `{Sha : Sha256} {SL : Sha256Laws}.

Definition command_ok (l : CommandLog) (i : nat) (c : DurableServerCommand) : Prop :=
  c.(sequence) = Z.of_nat i + 1 ∧ 1 ≤ c.(c_generation) ≤ l.(generation) ∧
  c.(c_spec_revision) ≤ l.(spec_revision) ∧
  c.(encoded_command_digest) = encoded_digest c.(exact_bytes) ∧
  validate_payload c.(payload) c.(c_spec_revision) = Ok tt ∧ digest_ok c.(payload_digest).

(** Ordinary commands, then at most one configuration or rotation, then at most
    one terminal revocation. *)
Definition pending_shape (p : list DurableServerCommand) : Prop :=
  ∃ pre bs rs, p = pre ++ bs ++ rs ∧ Forall (λ c, is_fence_barrier c = false) pre ∧
    (bs = [] ∨ ∃ b, bs = [b] ∧ is_fence_barrier b = true ∧ is_terminal_revoke b = false) ∧
    (rs = [] ∨ ∃ r, rs = [r] ∧ is_terminal_revoke r = true).

Definition fence_le (c c' : DurableServerCommand) : Prop :=
  c.(c_generation) ≤ c'.(c_generation) ∧ c.(c_spec_revision) ≤ c'.(c_spec_revision).

Definition terminal_last (l : list DurableServerCommand) : Prop := (is_terminal_revoke <$> last l) = Some true.

Record log_ok (l : CommandLog) : Prop := {
  lo_generation : 1 ≤ l.(generation) ≤ Revision.MAX;
  lo_ack : 0 ≤ l.(acknowledged_sequence) ≤ len l.(commands);
  lo_length : len l.(commands) ≤ Revision.MAX;
  lo_commands : ∀ i c, l.(commands) !! i = Some c → command_ok l i c;
  lo_operations : NoDup (operation_id <$> l.(commands));
  lo_fences : Sorted fence_le l.(commands);
  lo_pending : pending_shape (drop (Z.to_nat l.(acknowledged_sequence)) l.(commands));
  lo_backlog : len l.(commands) - l.(acknowledged_sequence) ≤ MAX_COMMAND_BACKLOG ∨
    len l.(commands) - l.(acknowledged_sequence) = MAX_COMMAND_BACKLOG + 1 ∧ terminal_last l.(commands);
  lo_revoked : l.(state) = LogRevoked → terminal_last l.(commands)
}.

(** ** Pending commands *)

Lemma terminal_is_barrier c : is_terminal_revoke c = true → is_fence_barrier c = true.
Proof. unfold is_fence_barrier. intros ->. by rewrite orb_true_r. Qed.

Lemma pending_shape_drop p : pending_shape p → pending_shape (drop 1 p).
Proof.
  intros (pre & bs & rs & -> & Hpre & Hbs & Hrs). destruct pre as [|c pre]; cbn.
  - destruct Hbs as [->|(b & -> & Hb)]; cbn.
    + destruct Hrs as [->|(r & -> & Hr)]; cbn; exists [], [], []; auto.
    + exists [], [], rs. auto.
  - apply Forall_cons in Hpre as [_ Hpre]. exists pre, bs, rs. auto.
Qed.

(** What the guards of [append] leave room for. *)
Lemma pending_shape_snoc p c :
  pending_shape p → existsb is_terminal_revoke p = false →
  existsb is_fence_barrier p = false ∨ is_terminal_revoke c = true →
  pending_shape (p ++ [c]).
Proof.
  intros (pre & bs & rs & -> & Hpre & Hbs & Hrs) Hnt Hg.
  assert (rs = []) as ->.
  { destruct Hrs as [->|(r & -> & Hr)]; [done|]. rewrite !existsb_app in Hnt. cbn in Hnt.
    rewrite Hr in Hnt. by rewrite !orb_true_r in Hnt. }
  rewrite app_nil_r in *. destruct (is_terminal_revoke c) eqn:Hc.
  - exists pre, bs, [c]. split_and!; [by rewrite (assoc_L (++))|done|done|right; eauto].
  - destruct Hg as [Hg|]; [|done]. rewrite existsb_app in Hg. apply orb_false_iff in Hg as [_ Hg].
    assert (bs = []) as ->.
    { destruct Hbs as [->|(b & -> & Hb & _)]; [done|]. cbn in Hg. by rewrite Hb in Hg. }
    rewrite app_nil_r. destruct (is_fence_barrier c) eqn:Hb.
    + exists pre, [c], []. split_and!; [done|done|right; eauto|by left].
    + exists (pre ++ [c]), [], []. split_and!; [by rewrite app_nil_r| |by left|by left].
      apply Forall_app. split; [done|]. by apply Forall_singleton.
Qed.

Lemma drop_S_tail {A} (n : nat) (l : list A) : drop (S n) l = drop 1 (drop n l).
Proof. by rewrite drop_drop, Nat.add_1_r. Qed.

(** ** Operations *)

Inductive LogOp : Type :=
| OpAppend (gen : Z) (revision : Revision) (id : RequestId) (p : ServerCommandPayload)
    (digest : Sha256Digest) (bs : ExactCommandBytes)
| OpAck (a : CommandAck)
| OpAdvance (eg : Z) (er : Revision) (ng : Z) (nr : Revision)
| OpRevoke
| OpFinalize (eg : Z) (er : Revision) (ng : Z) (nr : Revision).

Definition op_ok (o : LogOp) : Prop :=
  match o with
  | OpAppend _ _ _ _ d _ => digest_ok d
  | OpAck a => digest_ok a.(ack_payload_digest) ∧ digest_ok a.(ack_encoded_command_digest) ∧ 0 ≤ a.(ack_sequence)
  | _ => True
  end.

Definition step (o : LogOp) : CommandLog → CommandLog :=
  match o with
  | OpAppend g r id p d bs => exec (append g r id p d bs)
  | OpAck a => exec (acknowledge a)
  | OpAdvance eg er ng nr => exec (advance_fence eg er ng nr)
  | OpRevoke => exec revoke
  | OpFinalize eg er ng nr => exec (finalize_revoke_fence eg er ng nr)
  end.

(** What an operation does when it takes effect. *)
Inductive change (l : CommandLog) : LogOp → CommandLog → Prop :=
| ChangeAppend id p d bs c :
    l.(state) = LogActive → id ∉ operation_id <$> l.(commands) →
    validate_payload p l.(spec_revision) = Ok tt →
    existsb is_terminal_revoke (drop (Z.to_nat l.(acknowledged_sequence)) l.(commands)) = false →
    existsb is_fence_barrier (drop (Z.to_nat l.(acknowledged_sequence)) l.(commands)) = false
      ∨ is_terminal_payload p = true →
    len l.(commands) - l.(acknowledged_sequence) < MAX_COMMAND_BACKLOG ∨ is_terminal_payload p = true →
    len l.(commands) + 1 ≤ Revision.MAX →
    c = {| sequence := len l.(commands) + 1; operation_id := id; c_generation := l.(generation);
           c_spec_revision := l.(spec_revision); payload := p; payload_digest := d;
           encoded_command_digest := encoded_digest bs; exact_bytes := bs |} →
    change l (OpAppend l.(generation) l.(spec_revision) id p d bs)
      (l <| commands := l.(commands) ++ [c] |>)
| ChangeAck a c :
    a.(ack_generation) = l.(generation) → a.(ack_spec_revision) = l.(spec_revision) →
    a.(ack_sequence) = l.(acknowledged_sequence) + 1 →
    l.(commands) !! Z.to_nat l.(acknowledged_sequence) = Some c →
    c.(c_generation) = l.(generation) → c.(c_spec_revision) = l.(spec_revision) →
    ct_eq c.(payload_digest) a.(ack_payload_digest) = true →
    ct_eq c.(encoded_command_digest) a.(ack_encoded_command_digest) = true →
    change l (OpAck a) (l <| acknowledged_sequence := l.(acknowledged_sequence) + 1 |>)
| ChangeAdvance ng :
    l.(state) = LogActive → l.(acknowledged_sequence) = len l.(commands) → l.(spec_revision) ≠ Revision.MAX →
    ng = l.(generation) ∨ ng = l.(generation) + 1 ∧ ng ≤ Revision.MAX →
    change l (OpAdvance l.(generation) l.(spec_revision) ng (l.(spec_revision) + 1))
      (l <| generation := ng |> <| spec_revision := l.(spec_revision) + 1 |>)
| ChangeRevoke :
    l.(state) = LogActive → terminal_last l.(commands) → change l OpRevoke (l <| state := LogRevoked |>)
| ChangeFinalize :
    l.(state) = LogActive → terminal_last l.(commands) → l.(spec_revision) ≠ Revision.MAX →
    change l (OpFinalize l.(generation) l.(spec_revision) l.(generation) (l.(spec_revision) + 1))
      (l <| spec_revision := l.(spec_revision) + 1 |> <| state := LogRevoked |>).

Lemma existsb_bool {A} (f : A → bool) l : existsb f l = true ∨ existsb f l = false.
Proof. destruct (existsb f l); auto. Qed.

Lemma suffix_Some {A} n (l p : list A) : suffix n l = Some p ↔ n ≤ len l ∧ p = drop (Z.to_nat n) l.
Proof. unfold suffix. case_decide; naive_solver. Qed.

Lemma append_change l g r id p d bs x l' :
  log_ok l → append g r id p d bs l = (Ok x, l') → l' = l ∨ change l (OpAppend g r id p d bs) l'.
Proof.
  intros Hok H. unfold append in H. apply st_bind_Ok in H as (? & ? & [-> ->]%get_Ok & H).
  apply st_bind_Ok in H as (u & ? & [Hf ->]%lift_Ok & H). apply reject_if_Ok in Hf.
  apply st_bind_Ok in H as (u' & ? & [Hp ->]%lift_Ok & H). cbn zeta in H. not_ors. subst g r.
  destruct (list_find _ _) as [[? c]|] eqn:Hfind.
  { left. case_decide; [by apply mret_Ok in H as [_ ->]|done]. }
  right. apply list_find_None in Hfind. st_inv H.
  match goal with H : suffix _ _ = Some _ |- _ => apply suffix_Some in H as [_ ->] end.
  unfold next_sequence in *.
  match goal with H : ok_or _ _ = Ok _ |- _ => apply ok_or_Ok, bind_Some in H as (v & [-> ?]%checked_Some & [-> ?]%checked_Some) end.
  destruct u'. pose proof (lo_ack _ Hok).
  eapply (ChangeAppend l id p d bs); try done.
  - by destruct (state l).
  - intros (c & -> & Hc)%list_elem_of_fmap. rewrite Forall_forall in Hfind. by apply (Hfind c).
  - destruct (existsb_bool is_terminal_revoke (drop (Z.to_nat (acknowledged_sequence l)) (commands l))); tauto.
  - destruct (existsb_bool is_fence_barrier (drop (Z.to_nat (acknowledged_sequence l)) (commands l)));
      [|by left]. destruct (is_terminal_payload p); [by right|tauto].
  - destruct (is_terminal_payload p); [by right|left]. lia.
  - lia.
Qed.

Lemma command_index l i c : 1 ≤ i → command l i = Some c → l.(commands) !! Z.to_nat (i - 1) = Some c.
Proof. unfold command. by intros _ (j & [-> _]%checked_Some & Hc)%bind_Some. Qed.

Lemma ack_change l a x l' :
  log_ok l → acknowledge a l = (Ok x, l') → l' = l ∨ change l (OpAck a) l'.
Proof.
  intros Hok H. unfold acknowledge in H. apply st_bind_Ok in H as (? & ? & [-> ->]%get_Ok & H).
  apply st_bind_Ok in H as (u & ? & [Hf ->]%lift_Ok & H). apply reject_if_Ok in Hf.
  apply st_bind_Ok in H as (u' & ? & [Hs ->]%lift_Ok & H). apply reject_if_Ok in Hs.
  case_decide as Heq; [left; by st_inv H|]. right. st_inv H. not_ors.
  match goal with H : u64_checked_add _ _ = Some _ |- _ => apply checked_Some in H as [-> _] end.
  assert (ack_sequence a = acknowledged_sequence l + 1) as Hseq by lia.
  pose proof (lo_ack _ Hok). match goal with H : command l _ = Some ?c |- _ =>
    apply command_index in H; [rewrite Hseq in H; rename H into Hc|lia] end.
  replace (acknowledged_sequence l + 1 - 1) with (acknowledged_sequence l) in Hc by lia.
  rewrite Hseq. eapply ChangeAck; try done.
  - congruence.
  - congruence.
Qed.

Lemma advance_change l eg er ng nr x l' :
  advance_fence eg er ng nr l = (Ok x, l') → change l (OpAdvance eg er ng nr) l'.
Proof.
  intros H. unfold advance_fence in H. st_inv H. apply reject_if_Ok in Hrun. not_ors. subst eg er.
  match goal with H : Revision.checked_next _ = Ok _ |- _ => apply Revision.checked_next_Ok in H as [? ->] end.
  subst nr. apply ChangeAdvance; [by destruct (state l)|done|done|].
  match goal with H : ¬ (ng ≠ _ ∧ _) |- _ => rename H into Hng end.
  destruct (decide (ng = generation l)) as [|Hne]; [by left|right].
  assert (Some ng = (v ← u64_checked_add (generation l) 1; checked 0 Revision.MAX v)) as Hg
    by (apply dec_stable; intros ?; by apply Hng).
  symmetry in Hg. apply bind_Some in Hg as (v & [-> _]%checked_Some & [-> ?]%checked_Some). lia.
Qed.

Lemma log_revoke_change l x l' : revoke l = (Ok x, l') → l' = l ∨ change l OpRevoke l'.
Proof.
  intros H. unfold revoke in H. apply st_bind_Ok in H as (? & ? & [-> ->]%get_Ok & H).
  case_decide as Hst; st_inv H; [by left|]. right. not_ors. apply ChangeRevoke; [by destruct (state l)|done].
Qed.

Lemma finalize_change l eg er ng nr x l' :
  finalize_revoke_fence eg er ng nr l = (Ok x, l') → l' = l ∨ change l (OpFinalize eg er ng nr) l'.
Proof.
  intros H. unfold finalize_revoke_fence in H. apply st_bind_Ok in H as (? & ? & [-> ->]%get_Ok & H).
  case_decide as Hst; [case_decide; [left; by st_inv H|done]|]. right. st_inv H. apply reject_if_Ok in Hrun. not_ors.
  match goal with H : Revision.checked_next _ = Ok _ |- _ => apply Revision.checked_next_Ok in H as [? ->] end.
  subst. apply ChangeFinalize; [by destruct (state l)|done|done].
Qed.

Lemma log_append_atomic g r id p d bs : atomic (append g r id p d bs).
Proof.
  unfold append. do 3 (apply atomic_bind_read; [apply readonly_get || apply readonly_lift|]; intros ?). cbn zeta.
  destruct (list_find _ _) as [[? ?]|]; [case_decide; apply atomic_readonly; done|].
  do 5 (apply atomic_bind_read; [apply readonly_lift|]; intros ?).
  intros s e s' H. unfold mbind, ST_bind, modify, get, lift in H. cbn in H. by rewrite last_snoc in H.
Qed.

Lemma log_step_cases o l : log_ok l → step o l = l ∨ change l o (step o l).
Proof.
  intros Hok. destruct o as [g r id p d bs|a|eg er ng nr| |eg er ng nr]; cbn [step].
  - destruct (exec_atomic _ l (log_append_atomic g r id p d bs)) as [?|[x Hx]]; [by left|by eapply append_change].
  - destruct (exec_atomic (acknowledge a) l) as [?|[x Hx]]; [|by left|by eapply ack_change].
    unfold acknowledge. do 3 (apply atomic_bind_read; [apply readonly_get || apply readonly_lift|]; intros ?).
    case_decide; solve_atomic.
  - destruct (exec_atomic (advance_fence eg er ng nr) l) as [?|[x Hx]]; [|by left|right; by eapply advance_change].
    unfold advance_fence. solve_atomic.
  - destruct (exec_atomic revoke l) as [?|[x Hx]]; [|by left|by eapply log_revoke_change].
    unfold revoke. apply atomic_bind_read; [apply readonly_get|]. intros ?. case_decide; solve_atomic.
  - destruct (exec_atomic (finalize_revoke_fence eg er ng nr) l) as [?|[x Hx]]; [|by left|by eapply finalize_change].
    unfold finalize_revoke_fence. apply atomic_bind_read; [apply readonly_get|]. intros ?.
    case_decide; [case_decide; [solve_atomic|by apply atomic_readonly]|solve_atomic].
Qed.

(** ** The invariant is kept *)

Lemma Sorted_fence_snoc cs c :
  Sorted fence_le cs → (∀ c', c' ∈ cs → fence_le c' c) → Sorted fence_le (cs ++ [c]).
Proof.
  intros Hs Hc. apply Sorted_snoc; [done|]. destruct (last cs) as [c'|] eqn:Hl.
  - apply last_Some in Hl as [k ->]. apply TlRel_cons_alt || constructor. apply Hc. set_solver.
  - apply last_None in Hl as ->. constructor.
Qed.

Lemma log_change_ok o l l' : log_ok l → op_ok o → change l o l' → log_ok l'.
Proof.
  intros Hok Ho Hch. pose proof Hok as [K1 K2 K3 K4 K5 K6 K7 K8 K9].
  destruct Hch as [id p d bs c Hst Hid Hp Hnt Hb Hbl Hmax ->|a c Hg Hr Hseq Hc Hcg Hcr Hd1 Hd2|ng Hst Hall Hm Hng|Hst Ht|Hst Ht Hm].
  - set (c := {| sequence := _ |}).
    assert (len [c] = 1) as H1 by done. split; cbn.
    + done.
    + rewrite len_app. lia.
    + rewrite len_app. lia.
    + intros i c0 [Hi|[Hge Hi]]%lookup_app_Some.
      * destruct (K4 i c0 Hi) as (? & ? & ? & ? & ? & ?). done.
      * apply list_lookup_singleton_Some in Hi as [Hi <-]. split_and!; cbn; try done; try lia. unfold len. lia.
    + rewrite fmap_app. apply NoDup_app. split_and!; [done| |apply NoDup_singleton].
      intros x Hx. cbn. rewrite list_elem_of_singleton. by intros ->.
    + apply Sorted_fence_snoc; [done|]. intros c' [i Hi]%list_elem_of_lookup_1.
      destruct (K4 i c' Hi) as (? & ? & ? & _). split; cbn; lia.
    + rewrite drop_app_le by (unfold len in *; lia). apply pending_shape_snoc; [done|done|]. cbn. tauto.
    + unfold terminal_last. rewrite len_app, last_snoc. cbn.
      destruct Hbl as [?|Ht]; [left; lia|]. destruct K8 as [?|[? Hlast]].
      * destruct (decide (len (commands l) - acknowledged_sequence l + 1 ≤ MAX_COMMAND_BACKLOG)); [left; lia|right].
        split; [lia|]. unfold is_terminal_revoke. cbn. by rewrite Ht.
      * exfalso. destruct (last (commands l)) as [t|] eqn:Hl; [|by unfold terminal_last in Hlast; rewrite Hl in Hlast].
        unfold terminal_last in Hlast. rewrite Hl in Hlast. cbn in Hlast. injection Hlast as Hlast.
        apply last_Some in Hl as [k Hk]. rewrite Hk in Hnt.
        rewrite Hk, len_app in *. change (len [t]) with 1 in *.
        rewrite drop_app_le, existsb_app in Hnt by (unfold len, MAX_COMMAND_BACKLOG in *; lia).
        cbn in Hnt. rewrite Hlast in Hnt. by rewrite orb_true_r in Hnt.
    + intros Hx. congruence.
  - assert (Z.to_nat (acknowledged_sequence l) < length (commands l))%nat as Hlt by (by eapply lookup_lt_Some).
    split; cbn; try done.
    + unfold len in *. lia.
    + replace (Z.to_nat (acknowledged_sequence l + 1)) with (S (Z.to_nat (acknowledged_sequence l))) by lia.
      rewrite drop_S_tail. by apply pending_shape_drop.
    + left. destruct K8; lia.
  - split; cbn; try done; [lia|..].
    + intros i c Hi. destruct (K4 i c Hi) as (? & ? & ? & ? & ? & ?). split_and!; cbn; try done; lia.
  - split; cbn; done.
  - split; cbn; try done.
    intros i c Hi. destruct (K4 i c Hi) as (? & ? & ? & ? & ? & ?). split_and!; cbn; try done; lia.
Qed.

Definition reachable (l : CommandLog) : Prop :=
  ∃ t c g r l0 ops, new t c g r = Ok l0 ∧ 0 ≤ g ∧ Forall op_ok ops ∧ l = run_all step ops l0.

Lemma log_step_ok o l : log_ok l → op_ok o → log_ok (step o l).
Proof. intros Hok Ho. destruct (log_step_cases o l Hok) as [->|Hc]; [done|]. by eapply log_change_ok. Qed.

Lemma log_run_ok ops l : log_ok l → Forall op_ok ops → log_ok (run_all step ops l).
Proof. intros Hok Hops. rewrite Forall_forall in Hops. apply run_all_inv; [|done]. intros. apply log_step_ok; auto. Qed.

Lemma log_reachable_ok l : reachable l → log_ok l.
Proof.
  intros (t & c & g & r & l0 & ops & Hn & Hg & Hops & ->). apply log_run_ok; [|done].
  unfold new, validate_generation in Hn. res_inv Hn. split; cbn; try done; try constructor; try lia.
  - exists [], [], []. split_and!; [done|constructor|by left|by left].
  - done.
Qed.

(** ** Reload *)

(** No generation is skipped between consecutive commands. *)
Definition contiguous (cs : list DurableServerCommand) : Prop :=
  ∀ pre c c' post, cs = pre ++ c :: c' :: post →
    c'.(c_generation) = c.(c_generation) ∨ c'.(c_generation) = c.(c_generation) + 1.

Definition scan_start : CommandScan := {| cs_index := 0; cs_operations := ∅; cs_previous := None |}.
Definition scan_next (scan : CommandScan) (c : DurableServerCommand) : CommandScan :=
  {| cs_index := scan.(cs_index) + 1; cs_operations := {[c.(operation_id)]} ∪ scan.(cs_operations);
     cs_previous := Some (c.(c_generation), c.(c_spec_revision)) |}.

Lemma scan_pre pre :
  foldl scan_next scan_start pre =
  {| cs_index := len pre; cs_operations := list_to_set (operation_id <$> pre);
     cs_previous := (λ c, (c.(c_generation), c.(c_spec_revision))) <$> last pre |}.
Proof.
  induction pre as [|c pre IH] using rev_ind; [done|]. rewrite foldl_snoc, IH. unfold scan_next. cbn.
  rewrite len_app, fmap_app, list_to_set_app_L, last_snoc. cbn. f_equal. set_solver.
Qed.

Definition command_guard (l : CommandLog) (scan : CommandScan) (c : DurableServerCommand) : Prop :=
  ¬ (c.(sequence) ≠ scan.(cs_index) + 1 ∨ validate_durable_command_snapshot c ≠ Ok tt
     ∨ c.(c_generation) > l.(generation) ∨ c.(c_spec_revision) > l.(spec_revision)
     ∨ c.(operation_id) ∈ scan.(cs_operations)) ∧
  ¬ some_and scan.(cs_previous) (λ p,
      c.(c_generation) < p.1 ∨ c.(c_spec_revision) < p.2
      ∨ (c.(c_generation) > p.1 ∧ c.(c_generation) ≠ u64_saturating_add p.1 1)).

Lemma log_check_command_Ok l scan c scan' :
  check_command l scan c = Ok scan' ↔ command_guard l scan c ∧ scan' = scan_next scan c.
Proof.
  unfold check_command, command_guard. split.
  - intros (? & H1%reject_if_Ok & (? & H2%reject_if_Ok & [= <-])%result_bind_Ok)%result_bind_Ok. done.
  - intros [[H1 H2] ->]. ok_step; [done|]. by ok_step.
Qed.

Lemma durable_ok l i c : log_ok l → l.(commands) !! i = Some c → validate_durable_command_snapshot c = Ok tt.
Proof.
  intros Hok Hi. destruct (lo_commands _ Hok i c Hi) as (Hs & Hg & _ & He & Hp & _).
  pose proof (lo_generation _ Hok). pose proof (lo_length _ Hok) as Hl. apply lookup_lt_Some in Hi.
  unfold validate_durable_command_snapshot. rewrite decide_False; [done|]. rewrite He, ct_eq_refl, Hp.
  unfold len in Hl. intros [?|[?|[?|[?|[?|?]]]]]; try done; lia.
Qed.

Lemma fence_sorted l pre c c' post :
  log_ok l → l.(commands) = pre ++ c :: c' :: post → fence_le c c'.
Proof.
  intros Hok Hc. pose proof (lo_fences _ Hok) as Hs. rewrite Hc in Hs. clear Hc.
  induction pre as [|x pre IH]; cbn in Hs; inversion_clear Hs as [|?? Hs' Hhd]; [by inversion_clear Hhd|by apply IH].
Qed.

Lemma fence_steps_ok l pre c post :
  log_ok l → l.(commands) = pre ++ c :: post →
  command_guard l (foldl scan_next scan_start pre) c ↔
  ∀ pre' p, pre = pre' ++ [p] → c.(c_generation) = p.(c_generation) ∨ c.(c_generation) = p.(c_generation) + 1.
Proof.
  intros Hok Hl. assert (l.(commands) !! length pre = Some c) as Hi by (rewrite Hl; by apply list_lookup_middle).
  destruct (lo_commands _ Hok _ _ Hi) as (Hs & Hg & Hr & _). pose proof (lo_generation _ Hok).
  unfold command_guard. rewrite scan_pre. cbn.
  assert (¬ (c.(sequence) ≠ len pre + 1 ∨ validate_durable_command_snapshot c ≠ Ok tt
     ∨ c.(c_generation) > l.(generation) ∨ c.(c_spec_revision) > l.(spec_revision)
     ∨ c.(operation_id) ∈ (list_to_set (operation_id <$> pre) : gset RequestId))) as H1.
  { rewrite (durable_ok l _ c Hok Hi), elem_of_list_to_set. pose proof (lo_operations _ Hok) as Hnd.
    rewrite Hl, fmap_app in Hnd. apply NoDup_app in Hnd as (_ & Hdis & _).
    intros [?|[?|[?|[?|Hin]]]]; [unfold len in *; lia|done|lia|lia|]. apply (Hdis _ Hin). cbn. by left. }
  split.
  - intros [_ H2] pre' p ->. rewrite last_snoc in H2. cbn in H2. rewrite <-(assoc_L (++)) in Hl.
    destruct (fence_sorted _ _ _ _ _ Hok Hl) as [? ?].
    destruct (decide (c_generation c = c_generation p)); [by left|right].
    apply Decidable.not_or in H2 as [_ H2]. apply Decidable.not_or in H2 as [_ H2].
    unfold u64_saturating_add in H2. change Revision.MAX with (2 ^ 53 - 1) in *. unfold u64_max in *. lia.
  - intros Hp. split; [done|]. destruct (last pre) as [p|] eqn:Hlast; cbn; [|tauto].
    apply last_Some in Hlast as [pre' ->]. specialize (Hp pre' p eq_refl). rewrite <-(assoc_L (++)) in Hl.
    destruct (fence_sorted _ _ _ _ _ Hok Hl) as [? ?].
    unfold u64_saturating_add. change Revision.MAX with (2 ^ 53 - 1) in *. unfold u64_max. lia.
Qed.

Lemma commands_scan l :
  log_ok l →
  (∃ s', try_fold (check_command l) l.(commands) scan_start = Ok s') ↔ contiguous l.(commands).
Proof.
  intros Hok. split.
  - intros [s' H]. apply (try_fold_guarded _ _ _ _ _ _ (log_check_command_Ok l)) in H as [HG _].
    intros pre c c' post Hl. assert (commands l = (pre ++ [c]) ++ c' :: post) as Hl' by (by rewrite <-(assoc_L (++))).
    pose proof (HG _ _ _ Hl') as Hc. rewrite (fence_steps_ok l _ _ _ Hok Hl') in Hc. by apply (Hc pre).
  - intros Hc. eexists. apply (try_fold_guarded _ _ _ _ _ _ (log_check_command_Ok l)). split; [|done].
    intros pre c post Hl. apply (fence_steps_ok l _ _ post Hok Hl). intros pre' p ->.
    rewrite <-(assoc_L (++)) in Hl. by apply (Hc pre' p c post).
Qed.

Lemma plain_scan t k pre :
  Forall (λ c, is_fence_barrier c = false) pre →
  try_fold (check_pending t) pre (k, false) = Ok (k + len pre, false).
Proof.
  intros Hpre. revert k. induction Hpre as [|c pre Hc _ IH]; intros k; [cbn; by rewrite Z.add_0_r|].
  assert (is_terminal_revoke c = false) as Ht.
  { destruct (is_terminal_revoke c) eqn:He; [|done]. apply terminal_is_barrier in He. congruence. }
  assert (check_pending t (k, false) c = Ok (k + 1, false)) as Hstep by (unfold check_pending; cbn; by rewrite Ht, Hc).
  cbn [try_fold]. rewrite Hstep, IH. unfold len. cbn [length]. f_equal. f_equal. lia.
Qed.

Lemma pending_scan p : pending_shape p → ∃ s', try_fold (check_pending (len p)) p (0, false) = Ok s'.
Proof.
  intros (pre & bs & rs & -> & Hpre & Hbs & Hrs). rewrite try_fold_app, plain_scan by done.
  rewrite !len_app. destruct Hbs as [->|(b & -> & Hb & Hbt)], Hrs as [->|(r & -> & Hr)];
    cbn [app try_fold]; unfold check_pending, reject_if, len; cbn [fst snd length];
    rewrite ?Hbt, ?Hb, ?Hr; repeat (rewrite decide_False by (intros [? ?]; (done || lia)); cbn [mbind result_bind fst snd]);
    eauto.
Qed.

(** C29. When a command log can be reloaded.  A log built by any sequence of
    operations passes the validation of its durable image, and is then restored
    exactly, if and only if no connector generation was skipped between two of its
    commands; everything else that the loader demands always holds. *)
Theorem log_loads_iff_contiguous l :
  reachable l → (try_from_snapshot (snapshot l) = Ok l ↔ contiguous l.(commands)).
Proof.
  intros Hok%log_reachable_ok. assert (CommandLog_eta l = l) as Heta by (by destruct l).
  pose proof Hok as [K1 K2 K3 K4 K5 K6 K7 K8 K9]. unfold snapshot. rewrite Heta, <-(commands_scan l Hok).
  unfold try_from_snapshot, validate_command_snapshot. split.
  - intros H. apply result_bind_Ok in H as (? & H & _). apply result_bind_Ok in H as (? & _ & H). cbn zeta in H.
    apply result_bind_Ok in H as (? & _ & H). apply result_bind_Ok in H as (s' & H & _). eauto.
  - intros [s' Hs']. apply result_bind_Ok. exists tt. split; [|by rewrite Heta].
    unfold validate_generation. ok_step; [lia|]. cbn zeta. ok_step.
    { unfold terminal_last in K8. destruct K8 as [?|[He Ht]]; [lia|].
      rewrite !bool_decide_true by (done || lia). intros [?|[?|[_ ?]]]; [lia|lia|done]. }
    ok_step; [exact Hs'|]. ok_step; [apply suffix_Some; split; [lia|reflexivity]|].
    destruct (pending_scan _ K7) as [s2 Hs2]. ok_step; [exact Hs2|]. ok_step.
    { destruct (last (commands l)) as [c|] eqn:Hl; cbn; [|tauto]. rewrite last_lookup in Hl.
      destruct (K4 _ _ Hl) as (_ & ? & ? & _). lia. }
    apply reject_if_Ok. rewrite bool_decide_eq_false. intros [Hst Hn]. by apply Hn, K9.
Qed.

(** ** Delivery *)

(** C30. Commands are delivered in order and never altered.  Later operations only
    add commands behind those the log has, and the acknowledgement cursor moves
    only by one, only for the acknowledgement of the next command, and only with
    both digests and the fence of that very command. *)
Theorem commands_delivered_in_order l o ops :
  reachable l → Forall op_ok ops → op_ok o →
  let m := run_all step ops l in
  l.(commands) `prefix_of` m.(commands) ∧ l.(acknowledged_sequence) ≤ m.(acknowledged_sequence) ∧
  ((step o m).(acknowledged_sequence) = m.(acknowledged_sequence) ∨
   ∃ a c, o = OpAck a ∧ m.(commands) !! Z.to_nat m.(acknowledged_sequence) = Some c ∧
     a.(ack_sequence) = c.(sequence) ∧ a.(ack_payload_digest) = c.(payload_digest) ∧
     a.(ack_encoded_command_digest) = c.(encoded_command_digest) ∧
     a.(ack_generation) = c.(c_generation) ∧ a.(ack_spec_revision) = c.(c_spec_revision) ∧
     (step o m).(acknowledged_sequence) = c.(sequence)).
Proof.
  intros Hok%log_reachable_ok Hops Ho. cbn zeta. pose proof (log_run_ok ops l Hok Hops) as Hm.
  assert (commands l `prefix_of` commands (run_all step ops l) ∧
    acknowledged_sequence l ≤ acknowledged_sequence (run_all step ops l)) as [H1 H2].
  { rewrite Forall_forall in Hops.
    apply (run_all_inv step (λ s, log_ok s ∧ commands l `prefix_of` commands s ∧
      acknowledged_sequence l ≤ acknowledged_sequence s)); [|done].
    intros o' s Hin (Hs & Hp & Ha). split; [apply log_step_ok; auto|].
    destruct (log_step_cases o' s Hs) as [->|Hch]; [done|]. destruct Hch; cbn; split; try done; try lia.
    by apply prefix_app_r. }
  split_and!; [done|done|]. set (m := run_all step ops l) in *. clearbody m.
  destruct (log_step_cases o m Hm) as [->|Hch]; [by left|].
  remember (step o m) as m' eqn:Hm'. destruct Hch as [| a c Hg Hr Hseq Hc Hcg Hcr Hd1 Hd2 | | | ]; try (by left).
  right. exists a, c. destruct (lo_commands _ Hm _ _ Hc) as (Hsq & _ & _ & He & _ & Hdok).
  pose proof (lo_ack _ Hm). destruct Ho as (Ho1 & Ho2 & _).
  apply ct_eq_iff in Hd1; [|done|done]. apply ct_eq_iff in Hd2; [|rewrite He; apply sha256_length|done].
  cbn. split_and!; try done; try congruence; lia.
Qed.

(** The backlog is bounded and a fence change is a barrier.  At most 4096
    commands are pending, plus a terminal revocation; after a pending configuration
    or rotation there is at most that revocation, and nothing follows a pending
    revocation. *)
Theorem backlog_bounded l :
  reachable l →
  let pending := drop (Z.to_nat l.(acknowledged_sequence)) l.(commands) in
  len pending ≤ MAX_COMMAND_BACKLOG + 1 ∧
  (len pending = MAX_COMMAND_BACKLOG + 1 → terminal_last l.(commands)) ∧
  ∀ pre c post, pending = pre ++ c :: post → is_fence_barrier c = true →
    post = [] ∨ is_terminal_revoke c = false ∧ ∃ r, post = [r] ∧ is_terminal_revoke r = true.
Proof.
  intros [K1 K2 K3 K4 K5 K6 K7 K8 K9]%log_reachable_ok. cbn zeta.
  assert (len (drop (Z.to_nat (acknowledged_sequence l)) (commands l)) = len (commands l) - acknowledged_sequence l) as Hlen
    by (unfold len in *; rewrite length_drop; lia).
  rewrite Hlen. split_and!; [lia|intros ?; destruct K8 as [?|[? ?]]; [lia|done]|].
  intros pre c post Hp Hc. destruct K7 as (qre & bs & rs & Hq & Hqre & Hbs & Hrs). rewrite Hp in Hq. clear Hp Hlen.
  revert qre Hq Hqre. induction pre as [|x pre IH]; intros qre Hq Hqre; cbn in Hq.
  - destruct qre as [|y qre]; cbn in Hq.
    + destruct Hbs as [->|(b & -> & Hb & Hbt)]; cbn in Hq.
      * destruct Hrs as [->|(r & -> & Hr)]; [done|]. injection Hq as -> ->. by left.
      * injection Hq as -> ->. destruct Hrs as [->|(r & -> & Hr)]; [by left|right; eauto].
    + injection Hq as -> ->. apply Forall_cons in Hqre as [? _]. congruence.
  - destruct qre as [|y qre]; cbn in Hq.
    + destruct Hbs as [->|(b & -> & Hb & Hbt)]; cbn in Hq.
      * destruct Hrs as [->|(r & -> & Hr)]; [done|]. injection Hq as _ Hq. by destruct pre.
      * injection Hq as _ Hq. destruct Hrs as [->|(r & -> & Hr)]; [by destruct pre|].
        destruct pre as [|z pre]; cbn in Hq; injection Hq as _ Hq; [by left|by destruct pre].
    + injection Hq as _ Hq. apply Forall_cons in Hqre as [_ Hqre]. by apply (IH qre).
Qed.
End props.
End CommandProps.
