(* ===== verification/ControlDemo.v ===== *)
(** * Agent control: a worked example

    A connector that enrols, rotates its credential and says hello with it, and
    the command log of a connector whose generation advances twice. *)

From S2P Require Import Prelude Domain CanonicalCbor CborSpec CborFields WirePrimitives WireValues Connector ControlProof ControlCredential ControlCredentialProps Enrollment RuntimeClaims CommandLog CommandLogProps IdentityLogDemo.

Module ControlDemo.
Import Control.
Existing Instance IdentityLogDemo.ed25519_demo.
Existing Instance IdentityLogDemo.sha256_demo.
Existing Instance IdentityLogDemo.sha256_laws.

Definition signing (n : Z) : SigningPublicKey := MkSigningKey (replicate 32 n).
Definition sign_with (n : Z) (message : bytes) : bytes := IdentityLogDemo.sign (replicate 32 n) message.
Definition tenant : TenantId := UuidV7 1.
Definition host : HostId := UuidV7 2.
Definition connector : ConnectorId := UuidV7 3.

(** ** Enrolment *)

Definition token : Enrollment.EnrollmentToken := Enrollment.MkToken (replicate 32 9).
Definition intent : Enrollment.EnrollmentIntent :=
  ltac:(let r := eval vm_compute in (Enrollment.new (UuidV7 4) tenant host connector 1 1 (UuidV7 5) 1000 300000 token) in
        match r with Ok ?i => exact i end).
Definition transcript : EnrollmentTranscript :=
  ltac:(let r := eval vm_compute in
          (EnrollmentTranscript_new tenant host connector 1 1 (UuidV7 5) (Enrollment.digest token) (signing 10) (signing 11)) in
        match r with Ok ?t => exact t end).
Definition enrolment : EnrollmentRequest :=
  {| er_transcript := transcript;
     er_control_signature := sign_with 10 (encode_enrollment_transcript transcript);
     er_refresh_signature := sign_with 11 (encode_enrollment_transcript transcript) |}.
Definition certificate (n : Z) : bytes := replicate 5 n.
Definition issued (n id gen rev key : Z) : Credential.ConnectorCredential :=
  {| Credential.credential_id := UuidV7 id; Credential.tenant_id := tenant;
     Credential.connector_id := connector; Credential.generation := gen; Credential.revision := rev;
     Credential.control_key := signing key; Credential.refresh_key := signing 11;
     Credential.certificate_fingerprint := raw_sha256_digest (certificate n);
     Credential.certificate_chain := [certificate n]; Credential.not_before_millis := 1000;
     Credential.not_after_millis := 86401000; Credential.route_health_receipt_pin := None |}.
Definition first : Credential.ConnectorCredential := issued 1 20 1 1 10.

(** It is what the constructor makes. *)
Lemma first_made :
  Credential.new (UuidV7 20) tenant connector 1 1 (signing 10) (signing 11) (raw_sha256_digest (certificate 1))
    [certificate 1] 1000 86401000 = Ok first.
Proof. by vm_compute. Qed.

Definition consumed : Enrollment.EnrollmentIntent :=
  Enrollment.step (Enrollment.OpConsume token enrolment first 2000) intent.

Lemma consumed_reachable : Enrollment.reachable consumed.
Proof.
  exists (UuidV7 4), tenant, host, connector, 1, 1, (UuidV7 5), 1000, 300000, token, intent,
    [Enrollment.OpConsume token enrolment first 2000]. split_and!; [by vm_compute|done|done].
Qed.

Lemma reachable_intent_loads_witness :
  Enrollment.consumed_result consumed = Some first ∧
  Enrollment.try_from_snapshot (Enrollment.snapshot consumed) = Ok consumed.
Proof.
  split; [by vm_compute|]. apply (Enrollment.reachable_intent_loads consumed), consumed_reachable.
Defined.

Lemma enrollment_admits_exactly_witness : Enrollment.admitted intent token enrolment first 2000.
Proof.
  apply (Enrollment.enrollment_admits_exactly intent token enrolment first 2000); [reflexivity|].
  exists consumed. split; by vm_compute.
Defined.

(** The retry at a later time, with another credential at hand, gets the first one. *)
Lemma intent_single_use_witness :
  run_all Enrollment.step [Enrollment.OpRevoke 5000; Enrollment.OpExpire 900000] consumed = consumed ∧
  Enrollment.consumed_result consumed = Some first.
Proof.
  destruct (Enrollment.intent_single_use consumed [Enrollment.OpRevoke 5000; Enrollment.OpExpire 900000])
    as [Hsame Hx]; [apply consumed_reachable|by vm_compute|]. split; [exact Hsame|].
  apply (Hx token enrolment (issued 2 21 1 1 10) 9000 first consumed). by vm_compute.
Defined.

Lemma signed_statement_unique_witness : same_statement (Enroll transcript) (Enroll transcript).
Proof.
  apply (signed_statement_unique (Enroll transcript) (Enroll transcript)); [by vm_compute..|reflexivity].
Defined.

(** ** Rotation *)

Import Credential CredentialProps.
Definition enrolled : ConnectorCredentialAuthorization :=
  ltac:(let r := eval vm_compute in (new_authorization first) in match r with Ok ?a => exact a end).
Definition rotation_transcript : CredentialRotationTranscript :=
  ltac:(let r := eval vm_compute in
          (CredentialRotationTranscript_new tenant connector (UuidV7 6) (UuidV7 20) 1 1
             (from_bytes (replicate 32 7)) 2 (replicate 32 8) (signing 12)) in
        match r with Ok ?t => exact t end).
Definition rotation : CredentialRotationRequest :=
  {| rr_transcript := rotation_transcript;
     rr_refresh_signature := sign_with 11 (encode_rotation_transcript rotation_transcript);
     rr_new_control_signature := sign_with 12 (encode_rotation_transcript rotation_transcript) |}.
Definition second : ConnectorCredential := issued 2 22 2 2 12.
Definition hello (c : ConnectorCredential) : ConnectorCredentialPresentation :=
  {| p_tenant_id := tenant; p_connector_id := connector; p_credential_id := c.(credential_id);
     p_generation := c.(generation); p_certificate_fingerprint := c.(certificate_fingerprint) |}.

Definition rotated : ConnectorCredentialAuthorization :=
  run_all step [OpRotate rotation second; OpHello (hello second) 3000] enrolled.

Lemma rotation_is_made : rotation_made rotation.
Proof.
  exists tenant, connector, (UuidV7 6), (UuidV7 20), 1, 1, (from_bytes (replicate 32 7)), 2, (replicate 32 8), (signing 12).
  split; [by vm_compute|lia].
Qed.

Lemma enrolled_reachable : reachable enrolled.
Proof. exists first, enrolled, []. split_and!; [by vm_compute|done|constructor|done]. Qed.

Lemma rotated_reachable : reachable rotated.
Proof.
  exists first, enrolled, [OpRotate rotation second; OpHello (hello second) 3000].
  split_and!; [by vm_compute|done| |done]. repeat constructor. apply rotation_is_made.
Qed.

Lemma reachable_authorization_loads_witness :
  status_of rotated (UuidV7 20) = Some Retired ∧ try_from_snapshot (snapshot rotated) = Ok rotated.
Proof. split; [by vm_compute|]. apply (reachable_authorization_loads rotated), rotated_reachable. Defined.

Lemma superseded_credential_is_dead_witness :
  authorize_transport rotated (hello first) 3000 ≠ Ok Current.
Proof.
  apply (superseded_credential_is_dead rotated (UuidV7 20) [] (hello first) 3000 Current).
  - apply rotated_reachable.
  - constructor.
  - right. left. by vm_compute.
  - reflexivity.
Defined.

(** A rotation and a reissue, each from the enrolled connector. *)
Definition reissued : ConnectorCredential := issued 2 22 1 1 12.

Lemma pending_credential_origin_witness :
  (∃ cur, added enrolled (step (OpRotate rotation second) enrolled) cur second) ∧
  verify_signature (signing 12) (encode_rotation_transcript rotation_transcript)
    rotation.(rr_new_control_signature) = Ok tt ∧
  ∃ cur, added enrolled (step (OpReissue reissued) enrolled) cur reissued ∧ reissued.(generation) = cur.(generation).
Proof.
  destruct (pending_credential_origin enrolled (OpRotate rotation second) second) as (cur & Had & Hr);
    [apply enrolled_reachable|apply rotation_is_made|by vm_compute|by vm_compute|].
  split; [by exists cur|]. split.
  { destruct Hr as [(r & [= <-] & _ & Hv & _)|[Hr _]]; [exact Hv|discriminate]. }
  destruct (pending_credential_origin enrolled (OpReissue reissued) reissued) as (cur' & Had' & Hr');
    [apply enrolled_reachable|done|by vm_compute|by vm_compute|].
  exists cur'. split; [exact Had'|]. destruct Hr' as [(r & Hr' & _)|(_ & Hg & _)]; [discriminate|exact Hg].
Defined.

(** ** The command log *)

Import Command CommandProps.
Definition empty_log : CommandLog :=
  ltac:(let r := eval vm_compute in (Command.new tenant connector 1 1) in match r with Ok ?l => exact l end).
Definition close (id : Z) (gen : Z) (rev : Revision) : LogOp :=
  OpAppend gen rev (UuidV7 id) (CloseStream reconnect) (from_bytes (replicate 32 id)) (MkExact [id]).
Definition ack (id seq gen : Z) (rev : Revision) : LogOp :=
  CommandProps.OpAck {| ack_sequence := seq; ack_payload_digest := from_bytes (replicate 32 id);
    ack_encoded_command_digest := encoded_digest (MkExact [id]); ack_generation := gen; ack_spec_revision := rev |}.

(** A command under generation 1, two advances of the generation, a command under
    generation 3. *)
Definition skipping : list LogOp :=
  [close 30 1 1; ack 30 1 1 1; OpAdvance 1 1 2 2; OpAdvance 2 2 3 3; close 31 3 3].
Definition skipped : CommandLog := run_all CommandProps.step skipping empty_log.
Definition acknowledged : CommandLog := run_all CommandProps.step (take 2 skipping) empty_log.

Lemma skipping_ok : Forall CommandProps.op_ok skipping.
Proof. repeat constructor; vm_compute; done. Qed.

Lemma skipped_reachable : CommandProps.reachable skipped.
Proof. exists tenant, connector, 1, 1, empty_log, skipping. split_and!; [by vm_compute|lia|apply skipping_ok|done]. Qed.

Lemma acknowledged_reachable : CommandProps.reachable acknowledged.
Proof.
  exists tenant, connector, 1, 1, empty_log, (take 2 skipping). split_and!; [by vm_compute|lia| |done].
  apply Forall_take, skipping_ok.
Qed.

(** The aggregate accepts every operation, and its durable image cannot be loaded. *)
Lemma log_loads_iff_contiguous_witness :
  Command.try_from_snapshot (Command.snapshot skipped) = Err Command.InvalidSnapshot ∧ ¬ contiguous skipped.(commands).
Proof.
  split; [by vm_compute|]. intros Hc.
  apply (log_loads_iff_contiguous skipped skipped_reachable) in Hc. by vm_compute in Hc.
Defined.

Lemma commands_delivered_in_order_witness :
  (run_all CommandProps.step [close 31 1 1; ack 31 2 1 1] acknowledged).(acknowledged_sequence) = 2.
Proof.
  destruct (commands_delivered_in_order acknowledged (ack 31 2 1 1) [close 31 1 1]) as (_ & _ & [H|H]).
  - apply acknowledged_reachable.
  - repeat constructor.
  - by vm_compute.
  - by vm_compute in H.
  - by vm_compute.
Defined.

Lemma backlog_bounded_witness :
  len (drop (Z.to_nat skipped.(acknowledged_sequence)) skipped.(commands)) ≤ MAX_COMMAND_BACKLOG + 1.
Proof. apply (backlog_bounded skipped), skipped_reachable. Defined.
End ControlDemo.
