(* ===== verification/TransportAdmission.v ===== *)
(** * Transport admission

    Models [crates/dtx-agent-control-server/src/transport_admission.rs]: the
    guards that bound how many requests are in flight and how fast they arrive,
    in total, per direct source address and per authenticated connector.  A
    [Duration] is its number of nanoseconds.  The two mutex-protected states are
    updated by whole critical sections, so a history is a sequence of
    acquisitions and of drops of outstanding permits. *)

From S2P Require Import Prelude Domain.

Module Admission.
Definition MAX_CONFIGURED_LIMIT : Z := 1000000.
Definition MAX_CONFIGURED_BURST : Z := 1000000.

(** ** [std::time::Duration] *)

Definition DURATION_MAX : Z := u64_max * 1000000000 + 999999999.
Definition duration_saturating_add (x y : Z) : Z := Z.min DURATION_MAX (x + y).
Definition duration_saturating_mul (x n : Z) : Z := Z.min DURATION_MAX (x * n).
Definition duration_checked_sub (x y : Z) : option Z := checked 0 DURATION_MAX (x - y).
Definition from_millis (n : Z) : Z := n * 1000000.
Definition from_secs (n : Z) : Z := n * 1000000000.
Definition from_mins (n : Z) : Z := from_secs (n * 60).
Definition usize_saturating_sub (x y : Z) : Z := Z.max 0 (x - y).

(** ** Policies *)

Record TransportAdmissionDimensionConfig : Type := {
  max_concurrent : Z;
  burst : Z;
  refill_interval : Z
}.

Inductive ConnectorTransportAdmissionConfigError : Type :=
| InvalidLimit | InvalidDuration | PerKeyConcurrencyExceedsGlobal | IdleTtlTooShort.

Definition Dimension_new (max burst_ refill_ : Z) :
    result ConnectorTransportAdmissionConfigError TransportAdmissionDimensionConfig :=
  reject InvalidLimit when (max = 0 ∨ max > MAX_CONFIGURED_LIMIT ∨ burst_ = 0 ∨ burst_ > MAX_CONFIGURED_BURST);;
  reject InvalidDuration when (refill_ = 0);;
  Ok {| max_concurrent := max; burst := burst_; refill_interval := refill_ |}.

Record SourceTransportAdmissionConfig : Type := {
  s_global : TransportAdmissionDimensionConfig;
  s_source : TransportAdmissionDimensionConfig;
  s_idle_entry_ttl : Z;
  s_max_source_entries : Z
}.

Definition SourceConfig_new (global source : TransportAdmissionDimensionConfig) (ttl max_entries : Z) :
    result ConnectorTransportAdmissionConfigError SourceTransportAdmissionConfig :=
  reject InvalidLimit when (max_entries = 0 ∨ max_entries > MAX_CONFIGURED_LIMIT);;
  reject PerKeyConcurrencyExceedsGlobal when (source.(max_concurrent) > global.(max_concurrent));;
  reject InvalidDuration when (ttl = 0);;
  reject IdleTtlTooShort when (ttl < source.(refill_interval));;
  Ok {| s_global := global; s_source := source; s_idle_entry_ttl := ttl; s_max_source_entries := max_entries |}.

Definition SourceConfig_default : SourceTransportAdmissionConfig :=
  {| s_global := {| max_concurrent := 128; burst := 256; refill_interval := from_millis 10 |};
     s_source := {| max_concurrent := 8; burst := 16; refill_interval := from_millis 100 |};
     s_idle_entry_ttl := from_mins 10; s_max_source_entries := 4096 |}.

Record ConnectorTransportAdmissionConfig : Type := {
  c_max_concurrent : Z;
  c_source : TransportAdmissionDimensionConfig;
  c_identity : TransportAdmissionDimensionConfig;
  c_idle_entry_ttl : Z;
  c_max_source_entries : Z;
  c_max_identity_entries : Z
}.

Definition ConnectorConfig_new (max : Z) (source identity : TransportAdmissionDimensionConfig)
    (ttl max_sources max_identities : Z) :
    result ConnectorTransportAdmissionConfigError ConnectorTransportAdmissionConfig :=
  reject InvalidLimit
    when (max = 0 ∨ max > MAX_CONFIGURED_LIMIT ∨ max_sources = 0 ∨ max_sources > MAX_CONFIGURED_LIMIT
          ∨ max_identities = 0 ∨ max_identities > MAX_CONFIGURED_LIMIT);;
  reject PerKeyConcurrencyExceedsGlobal
    when (source.(max_concurrent) > max ∨ identity.(max_concurrent) > max);;
  reject InvalidDuration when (ttl = 0);;
  reject IdleTtlTooShort when (ttl < source.(refill_interval) ∨ ttl < identity.(refill_interval));;
  Ok {| c_max_concurrent := max; c_source := source; c_identity := identity; c_idle_entry_ttl := ttl;
        c_max_source_entries := max_sources; c_max_identity_entries := max_identities |}.

Definition ConnectorConfig_default : ConnectorTransportAdmissionConfig :=
  {| c_max_concurrent := 256;
     c_source := {| max_concurrent := 32; burst := 64; refill_interval := from_millis 100 |};
     c_identity := {| max_concurrent := 2; burst := 4; refill_interval := from_secs 1 |};
     c_idle_entry_ttl := from_mins 10; c_max_source_entries := 4096; c_max_identity_entries := 32768 |}.

(** ** Keys *)

Inductive IpAddr : Type := V4 (address : Z) | V6 (address : Z).
Global Instance IpAddr_eq_dec : EqDecision IpAddr.
Proof. solve_decision. Defined.
Global Instance IpAddr_countable : Countable IpAddr.
Proof.
  refine (inj_countable' (λ ip, match ip with V4 a => inl a | V6 a => inr a end)
    (λ s, match s with inl a => V4 a | inr a => V6 a end) _).
  by intros [].
Defined.

(** [Ipv6Addr::to_ipv4_mapped]: the addresses [::ffff:a.b.c.d]. *)
Definition to_ipv4_mapped (address : Z) : option Z :=
  if decide (Z.shiftr address 32 = 0xffff) then Some (Z.land address 0xffffffff) else None.

Definition canonical_source_ip (ip : IpAddr) : IpAddr :=
  match ip with
  | V6 source => match to_ipv4_mapped source with Some v4 => V4 v4 | None => V6 source end
  | V4 source => V4 source
  end.

(** [ConnectorWorkloadIdentity]: a tenant and one of its connectors. *)
Notation ConnectorWorkloadIdentity := (TenantId * ConnectorId)%type.

(** ** Token buckets *)

Inductive ConnectorTransportAdmissionError : Type := Overloaded.
Notation Denied := ConnectorTransportAdmissionError.

Record AdmissionEntry : Type := {
  tokens : Z;
  last_refill : Z;
  last_seen : Z;
  in_flight : Z
}.

Definition AdmissionEntry_eta (e : AdmissionEntry) : AdmissionEntry :=
  {| tokens := e.(tokens); last_refill := e.(last_refill); last_seen := e.(last_seen);
     in_flight := e.(in_flight) |}.
Global Instance tokens_field : Field tokens := ltac:(field_of AdmissionEntry_eta tokens).
Global Instance last_refill_field : Field last_refill := ltac:(field_of AdmissionEntry_eta last_refill).
Global Instance last_seen_field : Field last_seen := ltac:(field_of AdmissionEntry_eta last_seen).
Global Instance in_flight_field : Field in_flight := ltac:(field_of AdmissionEntry_eta in_flight).

Definition Entry_new (policy : TransportAdmissionDimensionConfig) (now : Z) : AdmissionEntry :=
  {| tokens := policy.(burst); last_refill := now; last_seen := now; in_flight := 0 |}.

Definition refill (policy : TransportAdmissionDimensionConfig) (now : Z) (self : AdmissionEntry) :
    result Denied AdmissionEntry :=
  elapsed ← ok_or (duration_checked_sub now self.(last_refill)) Overloaded;
  let intervals := elapsed / policy.(refill_interval) in
  if decide (intervals = 0 ∨ self.(tokens) = policy.(burst)) then Ok self
  else
    let missing := policy.(burst) - self.(tokens) in
    added ← ok_or (checked 0 u32_max (Z.min intervals missing)) Overloaded;
    let self := self <| tokens := self.(tokens) + added |> in
    Ok (self <| last_refill :=
          if decide (self.(tokens) = policy.(burst)) then now
          else duration_saturating_add self.(last_refill)
                 (duration_saturating_mul policy.(refill_interval) added) |>).

Definition candidate (current : option AdmissionEntry) (policy : TransportAdmissionDimensionConfig)
    (now : Z) : result Denied AdmissionEntry :=
  let candidate := default (Entry_new policy now) current in
  candidate ← refill policy now candidate;
  reject Overloaded when (candidate.(in_flight) >= policy.(max_concurrent) ∨ candidate.(tokens) = 0);;
  let candidate :=
    if decide (candidate.(tokens) = policy.(burst)) then candidate <| last_refill := now |> else candidate in
  let candidate := candidate <| tokens := candidate.(tokens) - 1 |> in
  let candidate := candidate <| in_flight := candidate.(in_flight) + 1 |> in
  Ok (candidate <| last_seen := now |>).

Definition is_expired (self : AdmissionEntry) (now ttl : Z) : bool :=
  bool_decide (self.(in_flight) = 0) &&
  match duration_checked_sub now self.(last_seen) with
  | Some idle => bool_decide (idle >= ttl)
  | None => false
  end.

Section entries.
Context {K : Type} `{Countable K}.

Definition retain (m : gmap K AdmissionEntry) (now ttl : Z) : gmap K AdmissionEntry :=
  filter (λ e, is_expired e.2 now ttl = false) m.

(** [!map.contains_key(key) && map.len() >= limit] *)
Definition no_room (m : gmap K AdmissionEntry) (key : K) (limit : Z) : bool :=
  bool_decide (m !! key = None) && bool_decide (Z.of_nat (size m) >= limit).

(** [if let Some(entry) = map.get_mut(key) { entry.in_flight = .. }] *)
Definition release_entry (m : gmap K AdmissionEntry) (key : K) : gmap K AdmissionEntry :=
  alter (λ e, e <| in_flight := usize_saturating_sub e.(in_flight) 1 |>) key m.
End entries.

(** [Option::map(..).transpose()] *)
Definition transpose {E A} (o : option (result E A)) : result E (option A) :=
  match o with
  | Some (Ok a) => Ok (Some a)
  | Some (Err e) => Err e
  | None => Ok None
  end.

(** ** Anonymous transport work: global and per source *)

Record SourceAdmissionState : Type := {
  sa_global : AdmissionEntry;
  sa_sources : gmap IpAddr AdmissionEntry;
  sa_last_observed_now : Z;
  sa_next_cleanup : Z
}.
Definition SourceAdmissionState_eta (s : SourceAdmissionState) : SourceAdmissionState :=
  {| sa_global := s.(sa_global); sa_sources := s.(sa_sources);
     sa_last_observed_now := s.(sa_last_observed_now); sa_next_cleanup := s.(sa_next_cleanup) |}.
Global Instance sa_global_field : Field sa_global := ltac:(field_of SourceAdmissionState_eta sa_global).
Global Instance sa_sources_field : Field sa_sources := ltac:(field_of SourceAdmissionState_eta sa_sources).
Global Instance sa_now_field : Field sa_last_observed_now :=
  ltac:(field_of SourceAdmissionState_eta sa_last_observed_now).
Global Instance sa_cleanup_field : Field sa_next_cleanup :=
  ltac:(field_of SourceAdmissionState_eta sa_next_cleanup).

Definition Source_new (config : SourceTransportAdmissionConfig) : SourceAdmissionState :=
  {| sa_global := Entry_new config.(s_global) 0; sa_sources := ∅; sa_last_observed_now := 0;
     sa_next_cleanup := config.(s_idle_entry_ttl) |}.

Definition source_cleanup_if_due (now ttl : Z) (self : SourceAdmissionState) : SourceAdmissionState :=
  if decide (now < self.(sa_next_cleanup)) then self
  else self <| sa_sources := retain self.(sa_sources) now ttl |>
            <| sa_next_cleanup := duration_saturating_add now ttl |>.

Definition source_try_acquire (config : SourceTransportAdmissionConfig) (source_ip : option IpAddr)
    (now : Z) : ST SourceAdmissionState Denied unit :=
  self ← get;
  lift (reject Overloaded when (now < self.(sa_last_observed_now)));;
  modify (λ self, self <| sa_last_observed_now := now |>);;
  modify (source_cleanup_if_due now config.(s_idle_entry_ttl));;
  self ← get;
  lift (reject Overloaded
    when (match source_ip with
          | Some source => no_room self.(sa_sources) source config.(s_max_source_entries)
          | None => false
          end = true));;
  global_candidate ← lift (candidate (Some self.(sa_global)) config.(s_global) now);
  source_candidate ← lift (transpose ((λ source,
    candidate (self.(sa_sources) !! source) config.(s_source) now) <$> source_ip));
  modify (λ self, self <| sa_global := global_candidate |>);;
  match source_ip, source_candidate with
  | Some source, Some c => modify (λ self, self <| sa_sources := <[source := c]> self.(sa_sources) |>)
  | _, _ => mret tt
  end.

Definition source_release (source_ip : option IpAddr) (self : SourceAdmissionState) :
    SourceAdmissionState :=
  let self := self <| sa_global := self.(sa_global)
    <| in_flight := usize_saturating_sub self.(sa_global).(in_flight) 1 |> |> in
  match source_ip with
  | Some source => self <| sa_sources := release_entry self.(sa_sources) source |>
  | None => self
  end.

(** ** Authenticated first hellos: total, per source and per identity *)

Record AdmissionState : Type := {
  total_in_flight : Z;
  sources : gmap IpAddr AdmissionEntry;
  identities : gmap ConnectorWorkloadIdentity AdmissionEntry;
  last_observed_now : Z;
  next_cleanup : Z
}.
Definition AdmissionState_eta (s : AdmissionState) : AdmissionState :=
  {| total_in_flight := s.(total_in_flight); sources := s.(sources); identities := s.(identities);
     last_observed_now := s.(last_observed_now); next_cleanup := s.(next_cleanup) |}.
Global Instance total_field : Field total_in_flight := ltac:(field_of AdmissionState_eta total_in_flight).
Global Instance sources_field : Field sources := ltac:(field_of AdmissionState_eta sources).
Global Instance identities_field : Field identities := ltac:(field_of AdmissionState_eta identities).
Global Instance observed_field : Field last_observed_now := ltac:(field_of AdmissionState_eta last_observed_now).
Global Instance cleanup_field : Field next_cleanup := ltac:(field_of AdmissionState_eta next_cleanup).

Definition State_new (ttl : Z) : AdmissionState :=
  {| total_in_flight := 0; sources := ∅; identities := ∅; last_observed_now := 0; next_cleanup := ttl |}.

Definition cleanup_if_due (now ttl : Z) (self : AdmissionState) : AdmissionState :=
  if decide (now < self.(next_cleanup)) then self
  else self <| sources := retain self.(sources) now ttl |>
            <| identities := retain self.(identities) now ttl |>
            <| next_cleanup := duration_saturating_add now ttl |>.

Definition try_acquire (config : ConnectorTransportAdmissionConfig) (source_ip : option IpAddr)
    (identity : ConnectorWorkloadIdentity) (now : Z) : ST AdmissionState Denied unit :=
  self ← get;
  lift (reject Overloaded when (now < self.(last_observed_now)));;
  modify (λ self, self <| last_observed_now := now |>);;
  modify (cleanup_if_due now config.(c_idle_entry_ttl));;
  self ← get;
  lift (reject Overloaded
    when (self.(total_in_flight) >= config.(c_max_concurrent)
          ∨ match source_ip with
            | Some source => no_room self.(sources) source config.(c_max_source_entries)
            | None => false
            end = true
          ∨ no_room self.(identities) identity config.(c_max_identity_entries) = true));;
  source_candidate ← lift (transpose ((λ source,
    candidate (self.(sources) !! source) config.(c_source) now) <$> source_ip));
  identity_candidate ← lift (candidate (self.(identities) !! identity) config.(c_identity) now);
  match source_ip, source_candidate with
  | Some source, Some c => modify (λ self, self <| sources := <[source := c]> self.(sources) |>)
  | _, _ => mret tt
  end;;
  modify (λ self, self <| identities := <[identity := identity_candidate]> self.(identities) |>);;
  modify (λ self, self <| total_in_flight := self.(total_in_flight) + 1 |>).

Definition release (source_ip : option IpAddr) (identity : ConnectorWorkloadIdentity)
    (self : AdmissionState) : AdmissionState :=
  let self := self <| total_in_flight := usize_saturating_sub self.(total_in_flight) 1 |> in
  let self :=
    match source_ip with
    | Some source => self <| sources := release_entry self.(sources) source |>
    | None => self
    end in
  self <| identities := release_entry self.(identities) identity |>.

(** ** Permits

    A permit is the pair of keys it was acquired for; dropping it releases them. *)

Notation HelloPermit := (option IpAddr * ConnectorWorkloadIdentity)%type.
Notation SourcePermit := (option IpAddr).

(** [ConnectorTransportAdmission::try_acquire_control_stream] *)
Definition try_acquire_control_stream (config : ConnectorTransportAdmissionConfig)
    (source_ip : option IpAddr) (identity : ConnectorWorkloadIdentity) (now : Z) :
    ST AdmissionState Denied HelloPermit :=
  let source_ip := canonical_source_ip <$> source_ip in
  try_acquire config source_ip identity now;;
  mret (source_ip, identity).

(** [SourceTransportAdmission::try_acquire] *)
Definition try_acquire_source (config : SourceTransportAdmissionConfig) (source_ip : option IpAddr)
    (now : Z) : ST SourceAdmissionState Denied SourcePermit :=
  let source_ip := canonical_source_ip <$> source_ip in
  source_try_acquire config source_ip now;;
  mret source_ip.
End Admission.
