(* ===== verification/TransportAdmissionProps.v ===== *)
(** * Transport admission: accounting and rates

    The guards after any sequence of acquisitions and drops: the counters are the
    numbers of outstanding permits, and the token buckets enforce their rates. *)

From S2P Require Import Prelude Domain TransportAdmission.

Module AdmissionProps.
Import Admission.

(** ** One token bucket

    [credit] is the state of the ideal bucket in nanoseconds of refill: it grows
    with time up to [burst * refill_interval], and an admission costs
    [refill_interval]. *)

Record policy_ok (p : TransportAdmissionDimensionConfig) : Prop := {
  po_max : 0 < p.(max_concurrent);
  po_burst : 0 < p.(burst) ≤ MAX_CONFIGURED_BURST;
  po_refill : 0 < p.(refill_interval) ≤ DURATION_MAX
}.

Record entry_ok (p : TransportAdmissionDimensionConfig) (now : Z) (e : AdmissionEntry) : Prop := {
  eo_tokens : 0 ≤ e.(tokens) ≤ p.(burst);
  eo_refill : 0 ≤ e.(last_refill) ≤ e.(last_seen);
  eo_seen : e.(last_seen) ≤ now;
  eo_flight : 0 ≤ e.(in_flight) ≤ p.(max_concurrent)
}.

Definition full (p : TransportAdmissionDimensionConfig) : Z := p.(burst) * p.(refill_interval).
Definition credit (p : TransportAdmissionDimensionConfig) (now : Z) (e : AdmissionEntry) : Z :=
  Z.min (full p) (e.(tokens) * p.(refill_interval) + (now - e.(last_refill))).

Definition credit_of (p : TransportAdmissionDimensionConfig) (now : Z) (o : option AdmissionEntry) : Z :=
  match o with Some e => credit p now e | None => full p end.
Definition flight_of (o : option AdmissionEntry) : Z :=
  match o with Some e => e.(in_flight) | None => 0 end.

Ltac show := unfold upd, tokens_field, last_refill_field, last_seen_field, in_flight_field in *; cbn in *.

Lemma DURATION_MAX_u64 : u64_max < DURATION_MAX.
Proof. by vm_compute. Qed.

Lemma entry_ok_later p now now' e : entry_ok p now e → now ≤ now' → entry_ok p now' e.
Proof. intros [] ?. split; lia. Qed.

Lemma Entry_new_ok p now : policy_ok p → 0 ≤ now → entry_ok p now (Entry_new p now).
Proof. intros [] ?. split; cbn; lia. Qed.

Lemma credit_new p now : policy_ok p → credit p now (Entry_new p now) = full p.
Proof. intros []. unfold credit, full. cbn. lia. Qed.

Lemma credit_bounds p now e : policy_ok p → entry_ok p now e → 0 ≤ credit p now e ≤ full p.
Proof. intros [] []. unfold credit, full. nia. Qed.

Lemma credit_later p now now' e : now ≤ now' → credit p now e ≤ credit p now' e ≤ credit p now e + (now' - now).
Proof. unfold credit. lia. Qed.

Lemma idle_credit p now e :
  policy_ok p → entry_ok p now e → full p ≤ now - e.(last_seen) → credit p now e = full p.
Proof. intros [] [] ?. unfold credit. nia. Qed.

(** Refilling keeps the credit and leaves less than one interval unused. *)
Lemma refill_spec p now e :
  policy_ok p → entry_ok p now e → now ≤ DURATION_MAX →
  ∃ e', refill p now e = Ok e' ∧ entry_ok p now (e' <| last_seen := now |>) ∧
    e'.(in_flight) = e.(in_flight) ∧ credit p now e' = credit p now e ∧
    (e'.(tokens) = p.(burst) ∨ now - e'.(last_refill) < p.(refill_interval)).
Proof.
  intros [M B R] [T L S F] Hnow. unfold refill, duration_checked_sub.
  assert (checked 0 DURATION_MAX (now - last_refill e) = Some (now - last_refill e)) as ->
    by (apply checked_Some; lia). cbn [ok_or mbind result_bind].
  set (r := refill_interval p) in *. set (q := (now - last_refill e) / r).
  assert (now - last_refill e = r * q + (now - last_refill e) mod r) as Hdiv by (apply Z.div_mod; lia).
  pose proof (Z.mod_pos_bound (now - last_refill e) r ltac:(lia)) as Hmod.
  assert (0 ≤ q) as Hq by (apply Z.div_pos; lia).
  case_decide as Hc.
  { exists e. split; [done|]. split; [split; show; lia|]. split; [done|]. split; [done|].
    destruct Hc as [Hc|Hc]; [right; rewrite Hc in Hdiv; lia|by left]. }
  assert (checked 0 u32_max (q `min` (burst p - tokens e)) = Some (q `min` (burst p - tokens e))) as ->.
  { apply checked_Some. split; [done|]. change MAX_CONFIGURED_BURST with 1000000 in B.
    change u32_max with 4294967295. lia. }
  cbn [ok_or mbind result_bind]. set (a := q `min` (burst p - tokens e)). eexists. split; [done|].
  show. case_decide as Hf.
  - split; [split; cbn; lia|]. split; [done|]. split; [|by left]. unfold credit, full. cbn. fold r. nia.
  - assert (a = q) as Ha by lia.
    assert (duration_saturating_add (last_refill e) (duration_saturating_mul r a) = last_refill e + r * a) as ->.
    { unfold duration_saturating_add, duration_saturating_mul. rewrite Ha. nia. }
    split; [split; cbn; nia|]. split; [done|]. split; [|right; rewrite Ha; lia].
    unfold credit, full. cbn. fold r. f_equal. lia.
Qed.

(** What an entry grants, and what granting costs. *)
Lemma candidate_spec p now o :
  policy_ok p → 0 ≤ now ≤ DURATION_MAX → (∀ e, o = Some e → entry_ok p now e) →
  (∃ c, candidate o p now = Ok c) ↔ flight_of o < p.(max_concurrent) ∧ p.(refill_interval) ≤ credit_of p now o.
Proof.
  intros Hp Hnow Ho. unfold candidate. set (e := default (Entry_new p now) o).
  assert (entry_ok p now e ∧ in_flight e = flight_of o ∧ credit p now e = credit_of p now o) as (He & Hfl & Hcr).
  { destruct o as [e'|]; cbn; [by auto|]. split_and!; [apply Entry_new_ok; [done|lia]|done|by apply credit_new]. }
  destruct (refill_spec p now e Hp He ltac:(lia)) as (e' & -> & [T L S F] & Hf & Hc & Hr). cbn [mbind result_bind].
  rewrite <-Hfl, <-Hcr, <-Hf, <-Hc. destruct Hp as [M B R]. show.
  assert (refill_interval p ≤ credit p now e' ↔ tokens e' ≠ 0) as Htok
    by (unfold credit, full; split; [intros ? H0; rewrite H0 in *; lia|nia]).
  rewrite Htok. unfold reject_if. destruct (decide (in_flight e' >= max_concurrent p ∨ tokens e' = 0)) as [Hd|Hd]; cbn [mbind result_bind].
  - split; [by intros [? ?]|]. intros [? ?]. exfalso. lia.
  - split; [|eauto]. intros _. lia.
Qed.

Lemma candidate_effect p now o c :
  policy_ok p → 0 ≤ now ≤ DURATION_MAX → (∀ e, o = Some e → entry_ok p now e) → candidate o p now = Ok c →
  entry_ok p now c ∧ c.(in_flight) = flight_of o + 1 ∧
  credit p now c = credit_of p now o - p.(refill_interval).
Proof.
  intros Hp Hnow Ho. unfold candidate. set (e := default (Entry_new p now) o).
  assert (entry_ok p now e ∧ in_flight e = flight_of o ∧ credit p now e = credit_of p now o) as (He & Hfl & Hcr).
  { destruct o as [e'|]; cbn; [by auto|]. split_and!; [apply Entry_new_ok; [done|lia]|done|by apply credit_new]. }
  destruct (refill_spec p now e Hp He ltac:(lia)) as (e' & -> & [T L S F] & Hf & Hc & Hr). cbn [mbind result_bind].
  intros (? & Hd%reject_if_Ok & H)%result_bind_Ok. injection H as <-. destruct Hp as [M B R]. show.
  rewrite <-Hfl, <-Hcr, <-Hf, <-Hc. unfold credit, full. case_decide as Hfull; cbn.
  - split; [split; cbn; lia|]. split; [lia|]. nia.
  - split; [split; cbn; lia|]. split; [lia|]. destruct Hr as [?|Hr]; [done|]. nia.
Qed.

(** ** One map of buckets

    [ks] are the keys of the outstanding permits. *)

Section dimension.
Context {K : Type} `{Countable K} (p : TransportAdmissionDimensionConfig) (limit : Z).
Implicit Types (m : gmap K AdmissionEntry) (k : K) (ks : list K).

Definition outstanding k ks : Z := Z.of_nat (length (filter (λ k', k' = k) ks)).

Record map_ok (now : Z) m ks : Prop := {
  mo_entry : ∀ k e, m !! k = Some e → entry_ok p now e ∧ e.(in_flight) = outstanding k ks;
  mo_key : ∀ k, k ∈ ks → is_Some (m !! k);
  mo_size : Z.of_nat (size m) ≤ limit
}.

Lemma outstanding_cons k k' ks :
  outstanding k (k' :: ks) = outstanding k ks + if decide (k' = k) then 1 else 0.
Proof.
  unfold outstanding. case_decide; [rewrite filter_cons_True by done; cbn; lia|].
  rewrite filter_cons_False by done. lia.
Qed.

Lemma outstanding_app k ks ks' : outstanding k (ks ++ ks') = outstanding k ks + outstanding k ks'.
Proof. unfold outstanding. rewrite filter_app, length_app. lia. Qed.

Lemma outstanding_perm k ks ks' : ks ≡ₚ ks' → outstanding k ks = outstanding k ks'.
Proof. intros Hp. unfold outstanding. by rewrite Hp. Qed.

Lemma outstanding_elem k ks : 0 < outstanding k ks ↔ k ∈ ks.
Proof.
  induction ks as [|k' ks IH]; [split; [by cbn|by intros ?%not_elem_of_nil]|].
  rewrite outstanding_cons, elem_of_cons, <-IH. unfold outstanding. case_decide; naive_solver lia.
Qed.

Lemma map_ok_perm now m ks ks' : ks ≡ₚ ks' → map_ok now m ks → map_ok now m ks'.
Proof.
  intros Hp [E Ky S]. split; [|intros k Hk; apply Ky; by rewrite Hp|done].
  intros k e He. rewrite <-(outstanding_perm k ks ks') by done. auto.
Qed.

Lemma map_ok_later now now' m ks : now ≤ now' → map_ok now m ks → map_ok now' m ks.
Proof.
  intros Hle [E Ky S]. split; [|done..]. intros k e He. destruct (E k e He). split; [|done].
  by eapply entry_ok_later.
Qed.

Lemma map_ok_empty now : 0 ≤ limit → map_ok now ∅ [].
Proof. intros ?. split; [by intros ?? ?%lookup_empty_Some|by intros ? ?%not_elem_of_nil|by rewrite map_size_empty]. Qed.

(** [flight_of] of a key is its number of outstanding permits, in the map or not. *)
Lemma flight_outstanding now m ks k : map_ok now m ks → flight_of (m !! k) = outstanding k ks.
Proof.
  intros [E Ky S]. destruct (m !! k) as [e|] eqn:He; [by apply E in He as [_ ?]|]. cbn.
  assert (¬ 0 < outstanding k ks) by (rewrite outstanding_elem; intros [??]%Ky; congruence).
  unfold outstanding in *. lia.
Qed.

(** Cleaning up forgets only entries without permits, and, if the idle time is at
    least that of a full refill, only full buckets. *)
Lemma retain_ok now ttl m ks : map_ok now m ks → map_ok now (retain m now ttl) ks.
Proof.
  intros [E Ky S]. split.
  - intros k e [He _]%map_lookup_filter_Some. auto.
  - intros k Hk. destruct (Ky k Hk) as [e He]. exists e. apply map_lookup_filter_Some. split; [done|]. cbn.
    apply E in He as [_ Hf]. apply outstanding_elem in Hk. unfold is_expired. rewrite bool_decide_false by lia. done.
  - pose proof (map_size_filter (λ e, is_expired e.2 now ttl = false) m) as Hs. unfold retain in *. lia.
Qed.

Lemma retain_credit now ttl m ks k :
  policy_ok p → full p ≤ ttl → map_ok now m ks →
  credit_of p now (retain m now ttl !! k) = credit_of p now (m !! k).
Proof.
  intros Hp Httl [E Ky S]. unfold retain. destruct (m !! k) as [e|] eqn:He; cbn.
  - destruct (is_expired e now ttl) eqn:Hx.
    + rewrite (proj2 (map_lookup_filter_None _ _ _)); [|right; intros ? ?; simplify_eq; cbn; congruence].
      cbn. symmetry. apply idle_credit; [done|by apply (E k)|]. unfold is_expired in Hx.
      apply andb_true_iff in Hx as [_ Hx]. destruct (duration_checked_sub _ _) as [i|] eqn:Hi; [|done].
      apply checked_Some in Hi as [-> _]. apply bool_decide_eq_true in Hx. lia.
    + rewrite (proj2 (map_lookup_filter_Some _ _ _ _) (conj He Hx)). done.
  - by rewrite (proj2 (map_lookup_filter_None _ _ _) (or_introl He)).
Qed.

Lemma acquire_ok now m ks k c :
  policy_ok p → 0 ≤ now ≤ DURATION_MAX → map_ok now m ks → no_room m k limit = false →
  candidate (m !! k) p now = Ok c → map_ok now (<[k := c]> m) (k :: ks).
Proof.
  intros Hp Hnow Hok Hroom Hc. pose proof (flight_outstanding now m ks k Hok) as Hfl.
  destruct Hok as [E Ky S].
  apply candidate_effect in Hc as (Hce & Hf & _); [|done|done|intros e He; by apply E in He as [? _]].
  split.
  - intros k' e. rewrite outstanding_cons. destruct (decide (k = k')) as [<-|Hne].
    + rewrite lookup_insert, decide_True by done. intros [= <-]. split; [done|lia].
    + rewrite lookup_insert_ne by done. intros He. rewrite Z.add_0_r. auto.
  - intros k' [->|Hk]%elem_of_cons; [rewrite lookup_insert_eq; eauto|].
    rewrite lookup_insert_is_Some'. right. auto.
  - rewrite map_size_insert. unfold no_room in Hroom. destruct (m !! k); [done|].
    rewrite bool_decide_true in Hroom by done. cbn in Hroom. apply bool_decide_eq_false in Hroom. lia.
Qed.

Lemma release_ok now m ks k : map_ok now m (k :: ks) → map_ok now (release_entry m k) ks.
Proof.
  intros [E Ky S]. unfold release_entry. split.
  - intros k' e He. destruct (decide (k = k')) as [<-|Hne].
    + rewrite lookup_alter_eq in He. destruct (m !! k) as [e'|] eqn:He'; [|done]. injection He as <-.
      apply E in He' as [[] Hf]. rewrite outstanding_cons, decide_True in Hf by done.
      show. unfold usize_saturating_sub. unfold outstanding in *. split; [split; cbn; lia|lia].
    + rewrite lookup_alter_ne in He by done. apply E in He as [? Hf].
      by rewrite outstanding_cons, decide_False, Z.add_0_r in Hf by done.
  - intros k' Hk. rewrite lookup_alter_is_Some. apply Ky. by right.
  - by rewrite <-(size_dom (D := gset K)), dom_alter_L, size_dom.
Qed.

Lemma release_credit now m k k' : credit_of p now (release_entry m k !! k') = credit_of p now (m !! k').
Proof.
  unfold release_entry. destruct (decide (k = k')) as [<-|Hne]; [|by rewrite lookup_alter_ne].
  rewrite lookup_alter_eq. by destruct (m !! k) as [[]|].
Qed.

Lemma credit_of_later now now' o :
  now ≤ now' → credit_of p now' o ≤ credit_of p now o + (now' - now).
Proof. destruct o as [e|]; cbn; [|lia]. intros Hn. pose proof (credit_later p now now' e Hn). lia. Qed.

Lemma credit_of_bounds now m ks k :
  policy_ok p → map_ok now m ks → 0 ≤ credit_of p now (m !! k) ≤ full p.
Proof.
  intros Hp [E _ _]. destruct (m !! k) as [e|] eqn:He; cbn.
  - apply credit_bounds; [done|by apply (E k)].
  - destruct Hp. unfold full. nia.
Qed.
End dimension.

Arguments outstanding {K _} k ks.
Local Arguments release_entry : simpl never.

(** ** Histories of the guard of first hellos *)

Record config_ok (config : ConnectorTransportAdmissionConfig) : Prop := {
  co_max : 0 ≤ config.(c_max_concurrent);
  co_source : policy_ok config.(c_source);
  co_identity : policy_ok config.(c_identity);
  co_sources : 0 ≤ config.(c_max_source_entries);
  co_identities : 0 ≤ config.(c_max_identity_entries)
}.

Lemma Dimension_new_ok max b r d :
  0 ≤ max → 0 ≤ b → 0 ≤ r ≤ DURATION_MAX → Dimension_new max b r = Ok d → policy_ok d.
Proof. intros ? ? ? H. unfold Dimension_new in H. res_inv H. split; cbn; lia. Qed.

Lemma ConnectorConfig_new_ok max source identity ttl ms mi config :
  policy_ok source → policy_ok identity → 0 ≤ max → 0 ≤ ms → 0 ≤ mi →
  ConnectorConfig_new max source identity ttl ms mi = Ok config → config_ok config.
Proof. intros ? ? ? ? ? H. unfold ConnectorConfig_new in H. res_inv H. by split. Qed.

Record HelloSystem : Type := { guard : AdmissionState; permits : list HelloPermit }.

Inductive HelloOp : Type :=
| HelloAcquire (source : option IpAddr) (identity : ConnectorWorkloadIdentity) (now : Z)
| HelloDrop (i : nat).

Section hello.
Context (config : ConnectorTransportAdmissionConfig).
Implicit Types (sys : HelloSystem) (o : HelloOp).

Definition granted o sys : list HelloPermit :=
  match o with
  | HelloAcquire source identity now =>
      match (try_acquire_control_stream config source identity now sys.(guard)).1 with
      | Ok p => [p]
      | Err _ => []
      end
  | HelloDrop _ => []
  end.

Definition step o sys : HelloSystem :=
  match o with
  | HelloAcquire source identity now =>
      {| guard := (try_acquire_control_stream config source identity now sys.(guard)).2;
         permits := granted o sys ++ sys.(permits) |}
  | HelloDrop i =>
      match sys.(permits) !! i with
      | Some p => {| guard := release p.1 p.2 sys.(guard); permits := delete i sys.(permits) |}
      | None => sys
      end
  end.

Fixpoint grants (ops : list HelloOp) sys : list HelloPermit :=
  match ops with
  | [] => []
  | o :: ops => granted o sys ++ grants ops (step o sys)
  end.

Definition op_ok o : Prop :=
  match o with HelloAcquire _ _ now => 0 ≤ now ≤ DURATION_MAX | HelloDrop _ => True end.

Definition initial : HelloSystem := {| guard := State_new config.(c_idle_entry_ttl); permits := [] |}.
Definition reachable sys : Prop :=
  ∃ ops, Forall op_ok ops ∧ sys = run_all step ops initial.

Definition source_keys (ps : list HelloPermit) : list IpAddr := omap fst ps.
Definition identity_keys (ps : list HelloPermit) : list ConnectorWorkloadIdentity := ps.*2.

Record hello_ok sys : Prop := {
  ho_total : sys.(guard).(total_in_flight) = Z.of_nat (length sys.(permits));
  ho_max : sys.(guard).(total_in_flight) ≤ config.(c_max_concurrent);
  ho_sources : map_ok config.(c_source) config.(c_max_source_entries)
    sys.(guard).(last_observed_now) sys.(guard).(sources) (source_keys sys.(permits));
  ho_identities : map_ok config.(c_identity) config.(c_max_identity_entries)
    sys.(guard).(last_observed_now) sys.(guard).(identities) (identity_keys sys.(permits));
  ho_now : 0 ≤ sys.(guard).(last_observed_now) ≤ DURATION_MAX
}.

(** The state in which the limits are checked. *)
Definition observed (now : Z) (s : AdmissionState) : AdmissionState :=
  cleanup_if_due now config.(c_idle_entry_ttl) (s <| last_observed_now := now |>).

Definition source_room (s : AdmissionState) (source : option IpAddr) : bool :=
  match source with
  | Some ip => negb (no_room s.(sources) ip config.(c_max_source_entries))
  | None => true
  end.

Ltac show_state := unfold upd, total_field, sources_field, identities_field, observed_field, cleanup_field in *; cbn in *.

Lemma observed_ok now sys :
  hello_ok sys → sys.(guard).(last_observed_now) ≤ now ≤ DURATION_MAX →
  hello_ok {| guard := observed now sys.(guard); permits := sys.(permits) |} ∧
  (observed now sys.(guard)).(last_observed_now) = now.
Proof.
  intros [T M S I N] Hnow. pose proof (map_ok_later _ _ _ now _ _ (proj1 Hnow) S) as S'.
  pose proof (map_ok_later _ _ _ now _ _ (proj1 Hnow) I) as I'.
  unfold observed, cleanup_if_due. show_state. case_decide; cbn; (split; [|done]); split; cbn; try done; try lia.
  - by apply retain_ok.
  - by apply retain_ok.
Qed.

(** What a successful acquisition found and did. *)
Lemma try_acquire_Ok source identity now s s' u :
  try_acquire config source identity now s = (Ok u, s') ↔
  s.(last_observed_now) ≤ now ∧
  (let s1 := observed now s in
   s1.(total_in_flight) < config.(c_max_concurrent) ∧ source_room s1 source = true ∧
   no_room s1.(identities) identity config.(c_max_identity_entries) = false ∧
   ∃ sc ic, transpose ((λ ip, candidate (s1.(sources) !! ip) config.(c_source) now) <$> source) = Ok sc ∧
     candidate (s1.(identities) !! identity) config.(c_identity) now = Ok ic ∧
     s' = {| total_in_flight := s1.(total_in_flight) + 1;
             sources := match source, sc with
                        | Some ip, Some c => <[ip := c]> s1.(sources)
                        | _, _ => s1.(sources)
                        end;
             identities := <[identity := ic]> s1.(identities);
             last_observed_now := s1.(last_observed_now); next_cleanup := s1.(next_cleanup) |}).
Proof.
  unfold try_acquire, source_room. fold (observed now s). cbn zeta. split.
  - intros H. st_inv H. fold (observed now s) in *. set (s1 := observed now s) in *. clearbody s1.
    destruct (Decidable.not_or _ _ Hrun0) as [H1 H23]. apply Decidable.not_or in H23 as [H2 H3].
    apply not_true_is_false in H3. split; [lia|]. split; [lia|].
    split; [destruct source; [by apply negb_true_iff, not_true_is_false|done]|]. split; [done|].
    do 2 eexists. split; [done|]. split; [done|]. show_state.
    destruct source, x3; cbn in Hrun3; st_inv Hrun3; show_state; by destruct s1.
  - intros (Hn & Hm & Hr & Hi & sc & ic & Hs & Hc & ->).
    st_step. st_step; [lia|]. st_step. st_step. st_step. fold (observed now s). set (s1 := observed now s) in *. clearbody s1.
    st_step. { intros [?|[Hx|Hx]]; [lia| |congruence]. destruct source; [|done]. apply negb_true_iff in Hr. congruence. }
    st_step; [by apply lift_Ok|]. st_step; [by apply lift_Ok|].
    destruct source, sc; cbn; unfold mret, ST_ret, mbind, ST_bind, modify; show_state; destruct s1; by destruct u.
Qed.

Lemma try_acquire_Err source identity now s e s' :
  try_acquire config source identity now s = (Err e, s') →
  s' = s ∨ s.(last_observed_now) ≤ now ∧ s' = observed now s.
Proof.
  unfold try_acquire, mbind, ST_bind, get, lift, modify. cbn. fold (observed now s).
  unfold reject_if. case_decide as Hn; [intros [= _ <-]; by left|].
  case_decide; [intros [= _ <-]; right; split; [lia|done]|].
  destruct (transpose _) as [sc|]; [|intros [= _ <-]; right; split; [lia|done]].
  destruct (candidate _ _ _) as [ic|]; [|intros [= _ <-]; right; split; [lia|done]].
  destruct source, sc; cbn; intros [= ].
Qed.

Lemma transpose_Ok {A B E} (f : A → result E B) (o : option A) (r : option B) :
  transpose (f <$> o) = Ok r ↔
  match o, r with Some a, Some b => f a = Ok b | None, None => True | _, _ => False end.
Proof. destruct o as [a|]; cbn; [destruct (f a)|]; destruct r; naive_solver. Qed.

Context (Hconfig : config_ok config).

(** An acquisition is refused, or it is one of the admissions below. *)
Lemma acquire_cases source identity now sys :
  let ip := canonical_source_ip <$> source in
  let sys' := step (HelloAcquire source identity now) sys in
  (granted (HelloAcquire source identity now) sys = [] ∧ sys'.(permits) = sys.(permits) ∧
   (sys'.(guard) = sys.(guard) ∨
    sys.(guard).(last_observed_now) ≤ now ∧ sys'.(guard) = observed now sys.(guard))) ∨
  (granted (HelloAcquire source identity now) sys = [(ip, identity)] ∧
   sys'.(permits) = (ip, identity) :: sys.(permits) ∧
   try_acquire config ip identity now sys.(guard) = (Ok tt, sys'.(guard))).
Proof.
  cbn. unfold try_acquire_control_stream. set (ip := canonical_source_ip <$> source).
  unfold mbind, ST_bind. destruct (try_acquire config ip identity now (guard sys)) as [[[]|e] s'] eqn:H; cbn.
  - by right.
  - left. apply try_acquire_Err in H as [->|[? ->]]; auto.
Qed.

Lemma hello_step_ok o sys : hello_ok sys → op_ok o → hello_ok (step o sys).
Proof.
  intros Hok Ho. destruct o as [source identity now|i].
  - pose proof (acquire_cases source identity now sys) as Hcases. cbn zeta in Hcases.
    destruct Hcases as [(_ & Hp & Hg)|(_ & Hp & Hg)]; destruct (step _ sys) as [g ps]; cbn in Hp, Hg.
    + rewrite Hp. destruct Hg as [->|[Hn ->]]; [by destruct sys|]. apply observed_ok; [done|]. cbn in Ho. lia.
    + rewrite Hp. apply try_acquire_Ok in Hg as (Hn & Hm & Hroom & Hir & sc & ic & Hs & Hi & ->).
      destruct (observed_ok now sys Hok) as [[T M S I N] Hnow]; [cbn in Ho; lia|].
      set (s1 := observed now (guard sys)) in *. cbn in *. rewrite Hnow in *. destruct Hconfig.
      apply transpose_Ok in Hs. split; cbn; try lia.
      * destruct (canonical_source_ip <$> source) as [ip|], sc as [c|]; try done; cbn.
        apply acquire_ok; [done|done|done| |done]. by apply negb_true_iff.
      * by apply acquire_ok.
  - cbn. destruct (permits sys !! i) as [[ip identity]|] eqn:Hi; [|done].
    pose proof (delete_Permutation _ _ _ Hi) as Hperm. destruct Hok as [T M S I N]. cbn in *.
    assert (identity_keys (permits sys) ≡ₚ identity :: identity_keys (delete i (permits sys))) as HI
      by (unfold identity_keys; by rewrite Hperm at 1).
    apply (map_ok_perm _ _ _ _ _ _ HI), release_ok in I. apply Permutation_length in Hperm. cbn in Hperm.
    assert (map_ok (c_source config) (c_max_source_entries config) (last_observed_now (guard sys))
      (match ip with Some k => release_entry (sources (guard sys)) k | None => sources (guard sys) end)
      (source_keys (delete i (permits sys)))) as S'.
    { assert (source_keys (permits sys) ≡ₚ source_keys ((ip, identity) :: delete i (permits sys))) as HS
        by (unfold source_keys; by rewrite (delete_Permutation _ _ _ Hi) at 1).
      apply (map_ok_perm _ _ _ _ _ _ HS) in S. cbn in S. destruct ip; [by apply release_ok in S|done]. }
    unfold release, usize_saturating_sub. destruct ip; show_state; split; cbn; try done; lia.
Qed.

Lemma initial_ok : hello_ok initial.
Proof.
  destruct Hconfig. split; cbn; try lia; [apply map_ok_empty; lia|apply map_ok_empty; lia|by vm_compute].
Qed.

Lemma hello_run_ok ops sys : hello_ok sys → Forall op_ok ops → hello_ok (run_all step ops sys).
Proof.
  intros Hok Hops. rewrite Forall_forall in Hops. apply run_all_inv; [|done].
  intros o s Ho Hs. apply hello_step_ok; auto.
Qed.

Lemma hello_reachable_ok sys : reachable sys → hello_ok sys.
Proof. intros (ops & Hops & ->). apply hello_run_ok; [apply initial_ok|done]. Qed.

(** ** Rates *)

Definition identity_credit sys k : Z :=
  credit_of config.(c_identity) sys.(guard).(last_observed_now) (sys.(guard).(identities) !! k).
Definition source_credit sys k : Z :=
  credit_of config.(c_source) sys.(guard).(last_observed_now) (sys.(guard).(sources) !! k).
Definition time sys : Z := sys.(guard).(last_observed_now).

(** The idle time after which a bucket is forgotten is long enough to refill it. *)
Definition forgets_only_full : Prop :=
  full config.(c_identity) ≤ config.(c_idle_entry_ttl) ∧ full config.(c_source) ≤ config.(c_idle_entry_ttl).

Lemma observed_credit now sys k k' :
  hello_ok sys → forgets_only_full → time sys ≤ now →
  let s1 := observed now sys.(guard) in
  credit_of config.(c_identity) now (s1.(identities) !! k) ≤ identity_credit sys k + (now - time sys) ∧
  credit_of config.(c_source) now (s1.(sources) !! k') ≤ source_credit sys k' + (now - time sys).
Proof.
  intros [T M S I N] [HI HS] Hn. unfold identity_credit, source_credit, time in *. cbn zeta.
  pose proof (map_ok_later _ _ _ now _ _ Hn S) as S'. pose proof (map_ok_later _ _ _ now _ _ Hn I) as I'.
  unfold observed, cleanup_if_due. show_state. destruct Hconfig.
  case_decide; cbn; split.
  1,2: by apply credit_of_later.
  - rewrite (retain_credit (c_identity config) _ now (c_idle_entry_ttl config) _ _ k co_identity0 HI I'). by apply credit_of_later.
  - rewrite (retain_credit (c_source config) _ now (c_idle_entry_ttl config) _ _ k' co_source0 HS S'). by apply credit_of_later.
Qed.

Lemma step_credit o sys k k' :
  hello_ok sys → op_ok o → forgets_only_full →
  time sys ≤ time (step o sys) ∧
  identity_credit (step o sys) k + config.(c_identity).(refill_interval) * outstanding k (identity_keys (granted o sys))
    ≤ identity_credit sys k + (time (step o sys) - time sys) ∧
  source_credit (step o sys) k' + config.(c_source).(refill_interval) * outstanding k' (source_keys (granted o sys))
    ≤ source_credit sys k' + (time (step o sys) - time sys).
Proof.
  intros Hok Ho Hf. destruct o as [source identity now|i].
  - pose proof (acquire_cases source identity now sys) as Hcases. cbn zeta in Hcases.
    destruct Hcases as [(-> & _ & [Hg|[Hn Hg]])|(-> & _ & Hg)].
    + unfold identity_credit, source_credit, time, outstanding. rewrite Hg. cbn. lia.
    + pose proof (observed_credit now sys k k' Hok Hf Hn) as Hc. cbn zeta in Hc.
      destruct (observed_ok now sys Hok) as [_ Hnow]; [cbn in Ho; unfold time in Hn; lia|].
      unfold identity_credit at 1, source_credit at 1. unfold time in *. rewrite Hg, Hnow. unfold outstanding. cbn in *. lia.
    + apply try_acquire_Ok in Hg as (Hn & Hm & Hroom & Hir & sc & ic & Hs & Hi & Hg).
      pose proof (observed_credit now sys k k' Hok Hf Hn) as [HcI HcS]. cbn zeta in HcI, HcS.
      destruct (observed_ok now sys Hok) as [[T M S I N] Hnow]; [cbn in Ho; lia|].
      unfold identity_credit at 1, source_credit at 1. unfold time in *. rewrite Hg. cbn. cbn in S, I, N. rewrite Hnow in *.
      set (s1 := observed now (guard sys)) in *. apply transpose_Ok in Hs. destruct Hconfig.
      apply candidate_effect in Hi as (_ & _ & Hi); [|done|done|intros e He; by apply (mo_entry _ _ _ _ _ I) in He as [? _]].
      split; [exact Hn|]. split.
      * rewrite outstanding_cons. unfold outstanding at 1. cbn. destruct (decide (identity = k)) as [<-|Hne].
        -- rewrite lookup_insert_eq. cbn. unfold time in *. lia.
        -- rewrite lookup_insert_ne by done. unfold time in *. lia.
      * destruct (canonical_source_ip <$> source) as [ip|], sc as [c|]; try done; cbn.
        -- apply candidate_effect in Hs as (_ & _ & Hs); [|done|done|intros e He; by apply (mo_entry _ _ _ _ _ S) in He as [? _]].
           rewrite outstanding_cons. unfold outstanding at 1. cbn. destruct (decide (ip = k')) as [<-|Hne].
           ++ rewrite lookup_insert_eq. cbn. unfold time in *. lia.
           ++ rewrite lookup_insert_ne by done. unfold time in *. lia.
        -- unfold outstanding. cbn. unfold time in *. lia.
  - cbn. unfold identity_credit, source_credit, time, outstanding. cbn. destruct (permits sys !! i) as [[ip identity]|]; cbn; [|lia].
    unfold release. destruct ip; show_state; rewrite ?release_credit; lia.
Qed.

Lemma run_credit ops sys k k' :
  hello_ok sys → Forall op_ok ops → forgets_only_full →
  let sys' := run_all step ops sys in
  identity_credit sys' k + config.(c_identity).(refill_interval) * outstanding k (identity_keys (grants ops sys))
    ≤ identity_credit sys k + (time sys' - time sys) ∧
  source_credit sys' k' + config.(c_source).(refill_interval) * outstanding k' (source_keys (grants ops sys))
    ≤ source_credit sys k' + (time sys' - time sys).
Proof.
  intros Hok Hops Hf. revert sys Hok. induction Hops as [|o ops Ho Hops IH]; intros sys Hok; cbn [grants run_all foldl].
  { unfold outstanding. cbn. lia. }
  destruct (step_credit o sys k k' Hok Ho Hf) as (Ht & HI & HS).
  specialize (IH _ (hello_step_ok _ _ Hok Ho)) as [IHI IHS]. unfold run_all in IHI, IHS.
  unfold identity_keys, source_keys in *. rewrite fmap_app, omap_app, !outstanding_app. lia.
Qed.

(** Every permit is accounted for.  In every reachable state the counters of
    the guard are exactly the numbers of outstanding permits, in total, per
    identity and per source; they stay within the configured concurrency, and the
    two maps within their configured sizes.  A drop therefore never saturates, and
    cleaning up never forgets work in flight. *)
Theorem permits_accounted sys k ip :
  reachable sys →
  let n := Z.of_nat (length sys.(permits)) in
  sys.(guard).(total_in_flight) = n ∧ n ≤ config.(c_max_concurrent) ∧
  flight_of (sys.(guard).(identities) !! k) = outstanding k (identity_keys sys.(permits)) ∧
  outstanding k (identity_keys sys.(permits)) ≤ config.(c_identity).(max_concurrent) ∧
  flight_of (sys.(guard).(sources) !! ip) = outstanding ip (source_keys sys.(permits)) ∧
  outstanding ip (source_keys sys.(permits)) ≤ config.(c_source).(max_concurrent) ∧
  Z.of_nat (size sys.(guard).(identities)) ≤ config.(c_max_identity_entries) ∧
  Z.of_nat (size sys.(guard).(sources)) ≤ config.(c_max_source_entries).
Proof.
  intros [T M S I N]%hello_reachable_ok. cbn zeta.
  pose proof (flight_outstanding _ _ _ _ _ k I) as HI. pose proof (flight_outstanding _ _ _ _ _ ip S) as HS.
  destruct Hconfig as [_ [] [] _ _]. split_and!; [done|lia|done| |done| |apply I|apply S].
  - rewrite <-HI. destruct (identities _ !! k) as [e|] eqn:He; cbn; [|lia]. apply (mo_entry _ _ _ _ _ I) in He as [[] _]. lia.
  - rewrite <-HS. destruct (sources _ !! ip) as [e|] eqn:He; cbn; [|lia]. apply (mo_entry _ _ _ _ _ S) in He as [[] _]. lia.
Qed.

(** C23. The rates hold over every window.  If the idle time of the configuration
    covers a full refill, then from any reachable state on and for any further
    operations the hellos admitted for one identity, and those for one source,
    number at most the burst plus one per refill interval that has passed. *)
Theorem admission_rate_bounded sys ops k ip :
  reachable sys → Forall op_ok ops → forgets_only_full →
  let elapsed := time (run_all step ops sys) - time sys in
  outstanding k (identity_keys (grants ops sys))
    ≤ config.(c_identity).(burst) + elapsed / config.(c_identity).(refill_interval) ∧
  outstanding ip (source_keys (grants ops sys))
    ≤ config.(c_source).(burst) + elapsed / config.(c_source).(refill_interval).
Proof.
  intros Hok%hello_reachable_ok Hops Hf. cbn zeta. pose proof (hello_run_ok ops sys Hok Hops) as Hok'.
  destruct (run_credit ops sys k ip Hok Hops Hf) as [HI HS]. cbn zeta in HI, HS.
  pose proof Hconfig as [_ PS PI _ _].
  pose proof (credit_of_bounds _ _ _ _ _ k PI (ho_identities _ Hok)). pose proof (credit_of_bounds _ _ _ _ _ k PI (ho_identities _ Hok')).
  pose proof (credit_of_bounds _ _ _ _ _ ip PS (ho_sources _ Hok)). pose proof (credit_of_bounds _ _ _ _ _ ip PS (ho_sources _ Hok')).
  unfold identity_credit, source_credit in *. fold (time sys) (time (run_all step ops sys)) in *. unfold full in *.
  destruct PS as [_ _ RS], PI as [_ _ RI].
  split; apply Z.le_sub_le_add_l, Z.div_le_lower_bound; lia.
Qed.

(** An idle time that covers a full refill makes the clean-up invisible. *)
Lemma observed_same_credit now sys k k' :
  hello_ok sys → forgets_only_full → time sys ≤ now →
  let s1 := observed now sys.(guard) in
  credit_of config.(c_identity) now (s1.(identities) !! k) = credit_of config.(c_identity) now (sys.(guard).(identities) !! k) ∧
  credit_of config.(c_source) now (s1.(sources) !! k') = credit_of config.(c_source) now (sys.(guard).(sources) !! k').
Proof.
  intros [_ _ S I _] [HI HS] Hn. cbn zeta. pose proof Hconfig as [_ PS PI _ _].
  pose proof (map_ok_later _ _ _ now _ _ Hn S) as S'. pose proof (map_ok_later _ _ _ now _ _ Hn I) as I'.
  unfold observed, cleanup_if_due. show_state. case_decide; cbn; [done|]. split; by eapply retain_credit.
Qed.

(** C24. What the guard admits, for every configuration that the constructors accept.  A
    hello is admitted exactly when the clock does not run backwards, fewer permits than
    the limit are outstanding, there is room for the keys, neither the source nor the
    identity has reached its concurrency, and both buckets hold at least one interval of
    credit, read in the state after the clean-up that the hello itself triggers when it is
    due, where a key that was forgotten counts as full.  If the idle time of the
    configuration covers a full refill, that credit is the one before the clean-up. *)
Theorem hello_admitted_exactly sys source identity now :
  reachable sys → 0 ≤ now ≤ DURATION_MAX →
  let ip := canonical_source_ip <$> source in
  let s1 := observed now sys.(guard) in
  ((∃ p, (try_acquire_control_stream config source identity now sys.(guard)).1 = Ok p) ↔
   time sys ≤ now ∧ Z.of_nat (length sys.(permits)) < config.(c_max_concurrent) ∧
   source_room s1 ip = true ∧ no_room s1.(identities) identity config.(c_max_identity_entries) = false ∧
   outstanding identity (identity_keys sys.(permits)) < config.(c_identity).(max_concurrent) ∧
   config.(c_identity).(refill_interval) ≤ credit_of config.(c_identity) now (s1.(identities) !! identity) ∧
   (∀ a, ip = Some a →
     outstanding a (source_keys sys.(permits)) < config.(c_source).(max_concurrent) ∧
     config.(c_source).(refill_interval) ≤ credit_of config.(c_source) now (s1.(sources) !! a))) ∧
  (forgets_only_full → time sys ≤ now → ∀ k k',
   credit_of config.(c_identity) now (s1.(identities) !! k) = credit_of config.(c_identity) now (sys.(guard).(identities) !! k) ∧
   credit_of config.(c_source) now (s1.(sources) !! k') = credit_of config.(c_source) now (sys.(guard).(sources) !! k')).
Proof.
  intros Hok%hello_reachable_ok Hnow. cbn zeta. split; [|intros Hf Hn k k'; by apply observed_same_credit].
  set (ip := canonical_source_ip <$> source).
  transitivity (∃ s', try_acquire config ip identity now (guard sys) = (Ok tt, s')).
  { unfold try_acquire_control_stream, mbind, ST_bind. fold ip.
    destruct (try_acquire config ip identity now (guard sys)) as [[[]|e] s']; cbn; naive_solver. }
  destruct (decide (time sys ≤ now)) as [Hn|Hn]; [|split; [intros [s' [? _]%try_acquire_Ok]|intros [? _]]; done].
  destruct (observed_ok now sys Hok) as [[T M S I N] Ht]; [unfold time in Hn; lia|]. cbn in T, M, S, I, N. rewrite Ht in *.
  pose proof Hconfig as [_ PS PI _ _].
  assert (∀ k, (∃ c, candidate (identities (observed now (guard sys)) !! k) (c_identity config) now = Ok c) ↔
    outstanding k (identity_keys (permits sys)) < max_concurrent (c_identity config) ∧
    refill_interval (c_identity config) ≤ credit_of (c_identity config) now (identities (observed now (guard sys)) !! k)) as XI.
  { intros k. rewrite candidate_spec, (flight_outstanding _ _ _ _ _ k I);
      [done|done|done|intros e He; by apply (mo_entry _ _ _ _ _ I) in He as [? _]]. }
  assert (∀ k, (∃ c, candidate (sources (observed now (guard sys)) !! k) (c_source config) now = Ok c) ↔
    outstanding k (source_keys (permits sys)) < max_concurrent (c_source config) ∧
    refill_interval (c_source config) ≤ credit_of (c_source config) now (sources (observed now (guard sys)) !! k)) as XS.
  { intros k. rewrite candidate_spec, (flight_outstanding _ _ _ _ _ k S);
      [done|done|done|intros e He; by apply (mo_entry _ _ _ _ _ S) in He as [? _]]. }
  clear S I. split.
  - intros (s' & (_ & Hm & Hr & Hi & sc & ic & Hs & Hc & _)%try_acquire_Ok).
    split_and!; [done|lia|done|done|apply XI; eauto|apply XI; eauto|].
    intros a Ha. apply XS. rewrite Ha in Hs. apply transpose_Ok in Hs. destruct sc; [eauto|done].
  - intros (_ & Hm & Hr & Hi & H1 & H2 & H3).
    destruct (proj2 (XI identity) (conj H1 H2)) as [ic Hic].
    assert (∃ sc, transpose ((λ ip, candidate (sources (observed now (guard sys)) !! ip) (c_source config) now) <$> ip) = Ok sc)
      as [sc Hsc].
    { destruct ip as [a|]; [|by exists None]. destruct (proj2 (XS a) (H3 a eq_refl)) as [c Hc].
      exists (Some c). by apply transpose_Ok. }
    eexists. apply try_acquire_Ok. split; [done|]. split; [lia|]. split_and!; [done|done|]. eauto.
Qed.
End hello.

(** ** Histories of the guard of anonymous work *)

Record source_config_ok (config : SourceTransportAdmissionConfig) : Prop := {
  sc_global : policy_ok config.(s_global);
  sc_source : policy_ok config.(s_source);
  sc_sources : 0 ≤ config.(s_max_source_entries)
}.

Record SourceSystem : Type := { source_guard : SourceAdmissionState; source_permits : list SourcePermit }.

Inductive SourceOp : Type :=
| SourceAcquire (source : option IpAddr) (now : Z)
| SourceDrop (i : nat).

Section source.
Context (config : SourceTransportAdmissionConfig).
Implicit Types (sys : SourceSystem) (o : SourceOp).

Definition source_granted o sys : list SourcePermit :=
  match o with
  | SourceAcquire source now =>
      match (try_acquire_source config source now sys.(source_guard)).1 with
      | Ok p => [p]
      | Err _ => []
      end
  | SourceDrop _ => []
  end.

Definition source_step o sys : SourceSystem :=
  match o with
  | SourceAcquire source now =>
      {| source_guard := (try_acquire_source config source now sys.(source_guard)).2;
         source_permits := source_granted o sys ++ sys.(source_permits) |}
  | SourceDrop i =>
      match sys.(source_permits) !! i with
      | Some p => {| source_guard := source_release p sys.(source_guard);
                     source_permits := delete i sys.(source_permits) |}
      | None => sys
      end
  end.

Fixpoint source_grants (ops : list SourceOp) sys : list SourcePermit :=
  match ops with
  | [] => []
  | o :: ops => source_granted o sys ++ source_grants ops (source_step o sys)
  end.

Definition source_op_ok o : Prop :=
  match o with SourceAcquire _ now => 0 ≤ now ≤ DURATION_MAX | SourceDrop _ => True end.

Definition source_reachable sys : Prop :=
  ∃ ops, Forall source_op_ok ops ∧
    sys = run_all source_step ops {| source_guard := Source_new config; source_permits := [] |}.

Record source_ok sys : Prop := {
  so_global : entry_ok config.(s_global) sys.(source_guard).(sa_last_observed_now) sys.(source_guard).(sa_global);
  so_total : sys.(source_guard).(sa_global).(in_flight) = Z.of_nat (length sys.(source_permits));
  so_sources : map_ok config.(s_source) config.(s_max_source_entries)
    sys.(source_guard).(sa_last_observed_now) sys.(source_guard).(sa_sources) (omap id sys.(source_permits));
  so_now : 0 ≤ sys.(source_guard).(sa_last_observed_now) ≤ DURATION_MAX
}.

Definition source_observed (now : Z) (s : SourceAdmissionState) : SourceAdmissionState :=
  source_cleanup_if_due now config.(s_idle_entry_ttl) (s <| sa_last_observed_now := now |>).

Ltac show_source := unfold upd, sa_global_field, sa_sources_field, sa_now_field, sa_cleanup_field in *; cbn in *.

Lemma source_observed_ok now sys :
  source_ok sys → sys.(source_guard).(sa_last_observed_now) ≤ now ≤ DURATION_MAX →
  source_ok {| source_guard := source_observed now sys.(source_guard); source_permits := sys.(source_permits) |} ∧
  (source_observed now sys.(source_guard)).(sa_last_observed_now) = now ∧
  (source_observed now sys.(source_guard)).(sa_global) = sys.(source_guard).(sa_global).
Proof.
  intros [G T S N] Hnow. pose proof (map_ok_later _ _ _ now _ _ (proj1 Hnow) S) as S'.
  pose proof (entry_ok_later _ _ now _ G (proj1 Hnow)) as G'.
  unfold source_observed, source_cleanup_if_due. show_source.
  case_decide; cbn; (split; [|done]); split; cbn; try done; try lia. by apply retain_ok.
Qed.

(** An acquisition is refused, or it grants one token of each bucket. *)
Lemma source_acquire_cases source now sys :
  let ip := canonical_source_ip <$> source in
  let sys' := source_step (SourceAcquire source now) sys in
  let s1 := source_observed now sys.(source_guard) in
  (source_granted (SourceAcquire source now) sys = [] ∧ sys'.(source_permits) = sys.(source_permits) ∧
   (sys'.(source_guard) = sys.(source_guard) ∨
    sys.(source_guard).(sa_last_observed_now) ≤ now ∧ sys'.(source_guard) = s1)) ∨
  (source_granted (SourceAcquire source now) sys = [ip] ∧ sys'.(source_permits) = ip :: sys.(source_permits) ∧
   sys.(source_guard).(sa_last_observed_now) ≤ now ∧
   ∃ g sc, candidate (Some s1.(sa_global)) config.(s_global) now = Ok g ∧
     (∀ a, ip = Some a → no_room s1.(sa_sources) a config.(s_max_source_entries) = false) ∧
     match ip, sc with
     | Some a, Some c => candidate (s1.(sa_sources) !! a) config.(s_source) now = Ok c
     | None, None => True
     | _, _ => False
     end ∧
     sys'.(source_guard) = {| sa_global := g;
       sa_sources := match ip, sc with Some a, Some c => <[a := c]> s1.(sa_sources) | _, _ => s1.(sa_sources) end;
       sa_last_observed_now := s1.(sa_last_observed_now); sa_next_cleanup := s1.(sa_next_cleanup) |}).
Proof.
  cbn zeta. unfold source_step, source_granted, try_acquire_source. set (ip := canonical_source_ip <$> source).
  unfold source_try_acquire, mbind, ST_bind, get, lift, modify, mret, ST_ret, reject_if. cbn [fst snd].
  fold (source_observed now (source_guard sys)). set (s1 := source_observed now (source_guard sys)).
  destruct (decide (now < sa_last_observed_now (source_guard sys))) as [Hn|Hn]; cbn [fst snd]; [left; auto|].
  destruct (decide (match ip with Some a => _ | None => false end = true)) as [Hr|Hr]; cbn [fst snd].
  { left. split_and!; [done|done|]. right. split; [lia|done]. }
  destruct (candidate (Some (sa_global s1)) _ now) as [g|e] eqn:Hg; cbn [fst snd].
  2: { left. split_and!; [done|done|]. right. split; [lia|done]. }
  destruct (transpose _) as [sc|e] eqn:Hs; cbn [fst snd].
  2: { left. split_and!; [done|done|]. right. split; [lia|done]. }
  apply transpose_Ok in Hs. right.
  assert (∀ a, ip = Some a → no_room (sa_sources s1) a (s_max_source_entries config) = false) as Hroom
    by (intros a ->; by apply not_true_is_false).
  destruct ip as [a|], sc as [c|]; try done; cbn [fst snd]; show_source;
    (split_and!; [done|done|lia|]); exists g; [exists (Some c)|exists None]; (split_and!; [done|done|done|by destruct s1]).
Qed.

Context (Hconfig : source_config_ok config).

Lemma source_step_ok o sys : source_ok sys → source_op_ok o → source_ok (source_step o sys).
Proof.
  intros Hok Ho. pose proof Hconfig as [PG PS L]. destruct o as [source now|i].
  - pose proof (source_acquire_cases source now sys) as Hcases. cbn zeta in Hcases.
    destruct Hcases as [(_ & Hp & Hg)|(_ & Hp & Hn & g & sc & Hc & Hroom & Hs & Hg)];
      destruct (source_step _ sys) as [gd ps]; cbn in Hp, Hg; rewrite Hp.
    + destruct Hg as [->|[Hn ->]]; [by destruct sys|]. apply source_observed_ok; [done|]. cbn in Ho. lia.
    + destruct (source_observed_ok now sys Hok) as ([G T S N] & Ht & Hgl); [cbn in Ho; lia|].
      rewrite Hg. cbn in *. rewrite Ht in *.
      apply candidate_effect in Hc as (Hce & Hf & _); [|done|done|by intros ? [= <-]]. cbn in Hf.
      split; cbn; [done|lia| |lia].
      destruct (canonical_source_ip <$> source) as [ip|], sc as [c|]; try done. cbn. apply acquire_ok; auto.
  - cbn. destruct (source_permits sys !! i) as [ip|] eqn:Hi; [|done].
    pose proof (delete_Permutation _ _ _ Hi) as Hperm. destruct Hok as [G T S N]. cbn in *.
    assert (omap id (source_permits sys) ≡ₚ omap id (ip :: delete i (source_permits sys))) as HS by (by rewrite Hperm at 1).
    apply (map_ok_perm _ _ _ _ _ _ HS) in S. apply Permutation_length in Hperm. cbn in Hperm.
    assert (0 ≤ in_flight (sa_global (source_guard sys)) - 1) by lia. destruct G.
    unfold source_release, usize_saturating_sub. destruct ip as [a|]; show_source; show;
      (split; cbn; [split; cbn; lia|lia| |done]); [by apply release_ok in S|done].
Qed.

Lemma source_initial_ok : source_ok {| source_guard := Source_new config; source_permits := [] |}.
Proof.
  destruct Hconfig as [PG PS L]. split; cbn; [by apply Entry_new_ok|done|by apply map_ok_empty|by vm_compute].
Qed.

Lemma source_run_ok ops sys : source_ok sys → Forall source_op_ok ops → source_ok (run_all source_step ops sys).
Proof.
  intros Hok Hops. rewrite Forall_forall in Hops. apply run_all_inv; [|done].
  intros o s Ho Hs. apply source_step_ok; auto.
Qed.

Lemma source_reachable_ok sys : source_reachable sys → source_ok sys.
Proof. intros (ops & Hops & ->). apply source_run_ok; [apply source_initial_ok|done]. Qed.

Definition source_time sys : Z := sys.(source_guard).(sa_last_observed_now).
Definition global_credit sys : Z := credit config.(s_global) (source_time sys) sys.(source_guard).(sa_global).

Lemma source_step_credit o sys :
  source_ok sys → source_op_ok o →
  global_credit (source_step o sys) + config.(s_global).(refill_interval) * Z.of_nat (length (source_granted o sys))
    ≤ global_credit sys + (source_time (source_step o sys) - source_time sys).
Proof.
  intros Hok Ho. pose proof Hconfig as [PG PS L]. unfold global_credit, source_time. destruct o as [source now|i].
  - pose proof (source_acquire_cases source now sys) as Hcases. cbn zeta in Hcases.
    destruct Hcases as [(-> & _ & [Hg|[Hn Hg]])|(-> & _ & Hn & g & sc & Hc & _ & _ & Hg)]; rewrite Hg; cbn [length].
    + lia.
    + destruct (source_observed_ok now sys Hok) as (_ & Ht & Hgl); [cbn in Ho; lia|]. rewrite Ht, Hgl.
      pose proof (credit_later (s_global config) _ now (sa_global (source_guard sys)) Hn). lia.
    + destruct (source_observed_ok now sys Hok) as ([G T S N] & Ht & Hgl); [cbn in Ho; lia|]. cbn in *. rewrite Ht in *.
      apply candidate_effect in Hc as (_ & _ & Hc); [|done|done|by intros ? [= <-]]. cbn in Hc. rewrite Hgl in Hc.
      pose proof (credit_later (s_global config) _ now (sa_global (source_guard sys)) Hn). lia.
  - cbn. destruct (source_permits sys !! i) as [ip|]; cbn; [|lia].
    unfold source_release, credit. destruct ip; show_source; show; lia.
Qed.

(** The anonymous guard keeps the same two promises: permits are accounted for and
    bounded, and the number of requests admitted in a window is at most the global
    burst plus one per global refill interval. *)
Lemma source_permits_bounded sys :
  source_reachable sys →
  Z.of_nat (length sys.(source_permits)) ≤ config.(s_global).(max_concurrent) ∧
  ∀ ip, outstanding ip (omap id sys.(source_permits)) ≤ config.(s_source).(max_concurrent).
Proof.
  intros [[] T S N]%source_reachable_ok. destruct Hconfig as [_ [] _]. split; [lia|]. intros ip.
  rewrite <-(flight_outstanding _ _ _ _ _ ip S). destruct (sa_sources _ !! ip) as [e|] eqn:He; cbn; [|lia].
  apply (mo_entry _ _ _ _ _ S) in He as [[] _]. lia.
Qed.

Lemma source_rate_bounded sys ops :
  source_reachable sys → Forall source_op_ok ops →
  Z.of_nat (length (source_grants ops sys)) ≤ config.(s_global).(burst)
    + (source_time (run_all source_step ops sys) - source_time sys) / config.(s_global).(refill_interval).
Proof.
  intros Hok%source_reachable_ok Hops. pose proof Hconfig as [PG _ _].
  assert (global_credit (run_all source_step ops sys)
    + refill_interval (s_global config) * Z.of_nat (length (source_grants ops sys))
    ≤ global_credit sys + (source_time (run_all source_step ops sys) - source_time sys)) as Hc.
  { clear PG. revert sys Hok. induction Hops as [|o ops Ho Hops IH]; intros sys Hok; cbn [source_grants run_all foldl]; [cbn; lia|].
    pose proof (source_step_credit o sys Hok Ho). specialize (IH _ (source_step_ok _ _ Hok Ho)). unfold run_all in IH.
    rewrite length_app, Nat2Z.inj_add. lia. }
  pose proof (credit_bounds _ _ _ PG (so_global _ Hok)) as H1.
  pose proof (credit_bounds _ _ _ PG (so_global _ (source_run_ok ops sys Hok Hops))) as H2.
  unfold global_credit, source_time, full in *. destruct PG as [_ _ R].
  apply Z.le_sub_le_add_l, Z.div_le_lower_bound; lia.
Qed.
End source.
End AdmissionProps.
