(* ===== verification/AdmissionDemo.v ===== *)
(** * Transport admission: examples

    The default configuration at work, and one that the constructor accepts but
    whose idle time is too short for its rate. *)

From S2P Require Import Prelude Domain TransportAdmission TransportAdmissionProps.

Module AdmissionDemo.
Import Admission AdmissionProps.

Definition peer : ConnectorWorkloadIdentity := (UuidV7 1, UuidV7 2).
Definition address : IpAddr := V6 0xffff0a000001.
Definition hello (now : Z) : HelloOp := HelloAcquire (Some address) peer now.

Lemma default_config_ok : config_ok ConnectorConfig_default.
Proof. repeat split; vm_compute; congruence. Qed.

Lemma default_forgets_only_full : forgets_only_full ConnectorConfig_default.
Proof. split; vm_compute; congruence. Qed.

(** Two hellos are pending: the limit per identity. *)
Definition busy : HelloSystem :=
  run_all (step ConnectorConfig_default) [hello 5; hello 6; hello 7] (initial ConnectorConfig_default).

Lemma busy_reachable : reachable ConnectorConfig_default busy.
Proof. exists [hello 5; hello 6; hello 7]. split; [|done]. repeat constructor; vm_compute; congruence. Qed.

Lemma permits_accounted_witness :
  length busy.(permits) = 2%nat ∧ flight_of (busy.(guard).(identities) !! peer) = 2 ∧
  outstanding (V4 0x0a000001) (source_keys busy.(permits)) ≤ 32.
Proof.
  destruct (permits_accounted ConnectorConfig_default default_config_ok busy peer (V4 0x0a000001) busy_reachable)
    as (_ & _ & Hf & _ & _ & Hs & _).
  split; [by vm_compute|]. split; [rewrite Hf; by vm_compute|exact Hs].
Defined.

(** After both are dropped the bucket still holds two tokens, and none for a fifth
    hello. *)
Definition rush : list HelloOp := [HelloDrop 0; HelloDrop 0; hello 8; hello 9; HelloDrop 0; hello 10].

Lemma admission_rate_bounded_witness :
  outstanding peer (identity_keys (grants ConnectorConfig_default rush busy)) = 2 ∧
  outstanding peer (identity_keys (grants ConnectorConfig_default rush busy)) ≤ 4 + 4 / from_secs 1.
Proof.
  split; [by vm_compute|].
  apply (admission_rate_bounded ConnectorConfig_default default_config_ok busy rush peer address busy_reachable).
  - repeat constructor; vm_compute; congruence.
  - apply default_forgets_only_full.
Defined.

(** The constructor only asks that the idle time covers one interval.  With a burst
    of four, an identity that pauses for that interval is forgotten and gets a full
    bucket: eight hellos in a window in which the bucket allows five. *)
Definition short_ttl : ConnectorTransportAdmissionConfig :=
  ltac:(let r := eval vm_compute in
          (d ← Dimension_new 8 4 10; ConnectorConfig_new 8 d d 10 8 8) in
        match r with Ok ?c => exact c end).

Definition pause : list HelloOp :=
  replicate 4 (hello 0) ++ replicate 4 (HelloDrop 0) ++ replicate 4 (hello 10).

Lemma short_ttl_exceeds_rate :
  let final := run_all (step short_ttl) pause (initial short_ttl) in
  outstanding peer (identity_keys (grants short_ttl pause (initial short_ttl))) = 8 ∧
  short_ttl.(c_identity).(burst) + time final / short_ttl.(c_identity).(refill_interval) = 5.
Proof. by vm_compute. Qed.

(** A third pending hello is refused.  Under the short idle time an identity that
    pauses for one interval has earned one token, is forgotten, and is admitted with a
    full bucket. *)
Definition paused : HelloSystem :=
  run_all (step short_ttl) (replicate 4 (hello 0) ++ replicate 4 (HelloDrop 0)) (initial short_ttl).

Lemma short_ttl_ok : config_ok short_ttl.
Proof. repeat split; vm_compute; congruence. Qed.

Lemma paused_reachable : reachable short_ttl paused.
Proof. eexists. split; [|reflexivity]. repeat constructor; vm_compute; congruence. Qed.

Lemma hello_admitted_exactly_witness :
  (¬ ∃ p, (try_acquire_control_stream ConnectorConfig_default (Some address) peer 8 busy.(guard)).1 = Ok p) ∧
  (credit_of short_ttl.(c_identity) 10 (paused.(guard).(identities) !! peer) = 10 ∧
   credit_of short_ttl.(c_identity) 10 ((observed short_ttl 10 paused.(guard)).(identities) !! peer) = 40) ∧
  ∃ p, (try_acquire_control_stream short_ttl (Some address) peer 10 paused.(guard)).1 = Ok p.
Proof.
  split; [|split; [by vm_compute|]].
  - intros H. apply (hello_admitted_exactly ConnectorConfig_default default_config_ok) in H;
      [|apply busy_reachable|split; vm_compute; congruence].
    destruct H as (_ & _ & _ & _ & H & _). by vm_compute in H.
  - apply (hello_admitted_exactly short_ttl short_ttl_ok paused (Some address) peer 10 paused_reachable);
      [split; vm_compute; congruence|].
    split_and!; [by vm_compute..|]. intros a [= <-]. split; by vm_compute.
Defined.
End AdmissionDemo.
