(* ===== verification/AuthorizationIndex.v ===== *)
(** * The advisory credential index

    Models [crates/dtx-agent-control-server/src/authorization_index.rs]: an
    in-memory view of the credential histories of all connectors, replaced per
    connector after a transaction or as a whole at startup, and relates its
    answers to those of the authorization aggregate.  The lock is never poisoned:
    no critical section panics. *)

From S2P Require Import Prelude Domain WirePrimitives WireValues Connector ControlProof ControlCredential ControlCredentialProps.

Module Index.
Import Control Credential.

(** [ConnectorWorkloadIdentity] and the [ConnectorKey] made from it have the same
    two fields. *)
Notation ConnectorKey := (TenantId * ConnectorId)%type.

Record IndexedCredential : Type := {
  ix_identity : ConnectorKey;
  ix_fingerprint : Sha256Digest;
  ix_not_before_millis : Z;
  ix_not_after_millis : Z;
  ix_status : ConnectorCredentialStatus
}.

Record AuthorizationState : Type := {
  by_connector : gmap ConnectorKey (list IndexedCredential);
  by_fingerprint : gmap bytes ConnectorKey
}.
Definition empty_state : AuthorizationState := {| by_connector := ∅; by_fingerprint := ∅ |}.

Inductive ConnectorAuthorizationIndexError : Type := InvalidHead | DuplicateConnector | FingerprintReuse.
Inductive ConnectorAuthorizationError : Type :=
| UnknownIndexed | WrongIdentity | NotValidYet | IndexExpired | IndexRevoked | IndexRetired | StateUnavailable.
Inductive ConnectorCredentialAdmission : Type := Unresolved | AdmitCurrent | AdmitPendingSuccessor.

Notation Snapshot := ConnectorCredentialAuthorizationSnapshot.

Definition count_status (st : ConnectorCredentialStatus) (h : list CredentialEntry) : nat :=
  length (filter (λ e, e.(status) = st) h).
Definition any_with (st : ConnectorCredentialStatus) (id : ConnectorCredentialId) (h : list CredentialEntry) : bool :=
  bool_decide (Exists (λ e, e.(status) = st ∧ e.(credential).(credential_id) = id) h).

Definition validate_head (s : Snapshot) : result ConnectorAuthorizationIndexError unit :=
  let current_count := count_status Current s.(s_history) in
  let pending_count := count_status Pending s.(s_history) in
  let current_matches :=
    match s.(s_current_credential_id) with Some id => any_with Current id s.(s_history) | None => false end in
  let pending_matches :=
    match s.(s_pending_credential_id) with
    | Some id => any_with Pending id s.(s_history)
    | None => bool_decide (pending_count = 0%nat)
    end in
  let valid :=
    match s.(s_state) with
    | Active => bool_decide (current_count = 1%nat) && current_matches &&
                bool_decide (pending_count ≤ 1)%nat && pending_matches
    | Revoked => bool_decide (s.(s_current_credential_id) = None) &&
                 bool_decide (s.(s_pending_credential_id) = None) &&
                 bool_decide (current_count = 0%nat) && bool_decide (pending_count = 0%nat)
    end in
  if valid then Ok tt else Err InvalidHead.

Definition indexed (s : Snapshot) (e : CredentialEntry) : IndexedCredential :=
  {| ix_identity := (s.(s_tenant_id), s.(s_connector_id));
     ix_fingerprint := e.(credential).(certificate_fingerprint);
     ix_not_before_millis := e.(credential).(not_before_millis);
     ix_not_after_millis := e.(credential).(not_after_millis);
     ix_status := match s.(s_state) with Revoked => RevokedCredential | Active => e.(status) end |}.

(** One iteration of the loop of [replace]: the fingerprints seen and the map. *)
Definition bind_fingerprint (identity : ConnectorKey) (st : gset bytes * gmap bytes ConnectorKey)
    (c : IndexedCredential) : result ConnectorAuthorizationIndexError (gset bytes * gmap bytes ConnectorKey) :=
  let fingerprint := as_bytes c.(ix_fingerprint) in
  reject FingerprintReuse when (fingerprint ∈ st.1);;
  reject FingerprintReuse
    when (match st.2 !! fingerprint with Some bound => bool_decide (bound ≠ identity) | None => false end = true);;
  Ok ({[ fingerprint ]} ∪ st.1, <[fingerprint := identity]> st.2).

Definition replace (s : Snapshot) : ST AuthorizationState ConnectorAuthorizationIndexError unit :=
  let identity := (s.(s_tenant_id), s.(s_connector_id)) in
  lift (validate_head s);;
  let credentials := indexed s <$> s.(s_history) in
  state ← get;
  let previous := default [] (state.(by_connector) !! identity) in
  let unbound := foldl (λ m c, delete (as_bytes c.(ix_fingerprint)) m) state.(by_fingerprint) previous in
  bound ← lift (try_fold (bind_fingerprint identity) credentials (∅, unbound));
  modify (λ _, {| by_connector := <[identity := credentials]> (delete identity state.(by_connector));
                  by_fingerprint := bound.2 |}).

(** One entry of a snapshot in [hydrate], and one snapshot. *)
Definition hydrate_entry (s : Snapshot) (st : gmap bytes ConnectorKey * list IndexedCredential)
    (e : CredentialEntry) :
    result ConnectorAuthorizationIndexError (gmap bytes ConnectorKey * list IndexedCredential) :=
  let fingerprint := as_bytes e.(credential).(certificate_fingerprint) in
  reject FingerprintReuse when (is_Some (st.1 !! fingerprint));;
  Ok (<[fingerprint := (s.(s_tenant_id), s.(s_connector_id))]> st.1, st.2 ++ [indexed s e]).

Definition hydrate_snapshot (next : AuthorizationState) (s : Snapshot) :
    result ConnectorAuthorizationIndexError AuthorizationState :=
  validate_head s;;
  let key := (s.(s_tenant_id), s.(s_connector_id)) in
  reject DuplicateConnector when (is_Some (next.(by_connector) !! key));;
  bound ← try_fold (hydrate_entry s) s.(s_history) (next.(by_fingerprint), []);
  Ok {| by_connector := <[key := bound.2]> next.(by_connector); by_fingerprint := bound.1 |}.

Definition hydrate (snapshots : list Snapshot) : ST AuthorizationState ConnectorAuthorizationIndexError unit :=
  next ← lift (try_fold hydrate_snapshot snapshots empty_state);
  modify (λ _, next).

Definition u64_checked_mul (x y : Z) : option Z := checked 0 u64_max (x * y).

Definition authorize (state : AuthorizationState) (identity : ConnectorKey) (fingerprint : bytes)
    (now_unix_seconds : Z) : result ConnectorAuthorizationError ConnectorCredentialAdmission :=
  reject WrongIdentity
    when (match state.(by_fingerprint) !! fingerprint with
          | Some bound => bool_decide (bound ≠ identity)
          | None => false
          end = true);;
  credential ← ok_or (entries ← state.(by_connector) !! identity;
                      snd <$> list_find (λ c, as_bytes c.(ix_fingerprint) = fingerprint) entries) UnknownIndexed;
  now_millis ← ok_or (v ← u64_checked_mul now_unix_seconds 1000; checked i64_min i64_max v) StateUnavailable;
  reject NotValidYet when (now_millis < credential.(ix_not_before_millis));;
  reject IndexExpired when (now_millis >= credential.(ix_not_after_millis));;
  match credential.(ix_status) with
  | Current => Ok AdmitCurrent
  | Pending => Ok AdmitPendingSuccessor
  | Retired => Err IndexRetired
  | RevokedCredential => Err IndexRevoked
  end.

(** ** Consistency of the two maps *)

Definition fp (c : IndexedCredential) : bytes := as_bytes c.(ix_fingerprint).

Record index_ok (st : AuthorizationState) : Prop := {
  xo_bound : ∀ id cs c, st.(by_connector) !! id = Some cs → c ∈ cs → st.(by_fingerprint) !! fp c = Some id;
  xo_entry : ∀ f id, st.(by_fingerprint) !! f = Some id →
    ∃ cs, st.(by_connector) !! id = Some cs ∧ f ∈ fp <$> cs;
  xo_distinct : ∀ id cs, st.(by_connector) !! id = Some cs → NoDup (fp <$> cs)
}.

Lemma unbind_lookup (cs : list IndexedCredential) (m : gmap bytes ConnectorKey) (f : bytes) :
  foldl (λ m c, delete (fp c) m) m cs !! f = if decide (f ∈ fp <$> cs) then None else m !! f.
Proof.
  revert m. induction cs as [|c cs IH]; intros m; cbn [foldl fmap list_fmap].
  { by rewrite decide_False by apply not_elem_of_nil. }
  rewrite IH. destruct (decide (f ∈ fp <$> cs)) as [Hf|Hf]; [by rewrite decide_True by (by right)|].
  destruct (decide (f = fp c)) as [->|Hne]; [rewrite lookup_delete_eq; by rewrite decide_True by (by left)|].
  rewrite lookup_delete_ne by done. by rewrite decide_False by (by rewrite elem_of_cons; intros [?|?]).
Qed.

Lemma bind_lookup id cs seen m r :
  try_fold (bind_fingerprint id) cs (seen, m) = Ok r →
  NoDup (fp <$> cs) ∧ (∀ f, f ∈ fp <$> cs → f ∉ seen ∧ (m !! f = None ∨ m !! f = Some id)) ∧
  ∀ f, r.2 !! f = if decide (f ∈ fp <$> cs) then Some id else m !! f.
Proof.
  revert seen m. induction cs as [|c cs IH]; intros seen m; cbn [try_fold fmap list_fmap].
  { intros [= <-]. split; [constructor|]. split; [by intros ? ?%not_elem_of_nil|].
    intros f. by rewrite decide_False by apply not_elem_of_nil. }
  unfold bind_fingerprint at 1. fold (fp c). cbn [fst snd].
  destruct (_ ≫= _) as [s|] eqn:H; [|done]. cbn zeta in H.
  apply result_bind_Ok in H as (? & Hs%reject_if_Ok & H). apply result_bind_Ok in H as (? & Hb%reject_if_Ok & H).
  injection H as <-. intros (HN & Hall & Hlk)%IH.
  assert (fp c ∉ fp <$> cs) as Hnew by (intros Hin; apply Hall in Hin as [Hin _]; set_solver).
  split_and!.
  - by constructor.
  - intros f [->|Hf]%elem_of_cons; [split; [done|]|].
    + destruct (m !! fp c) as [b|]; [|by left]. right. f_equal. apply dec_stable. intros Hne. apply Hb. by apply bool_decide_eq_true.
    + destruct (Hall f Hf) as [H1 H2]. split; [set_solver|]. rewrite lookup_insert_ne in H2; [done|]. intros <-. done.
  - intros f. rewrite Hlk. destruct (decide (f ∈ fp <$> cs)) as [Hf|Hf]; [by rewrite decide_True by (by right)|].
    destruct (decide (f = fp c)) as [->|Hne]; [rewrite lookup_insert_eq; by rewrite decide_True by (by left)|].
    rewrite lookup_insert_ne by done. by rewrite decide_False by (by rewrite elem_of_cons; intros [?|?]).
Qed.

Lemma bind_succeeds id cs seen m :
  NoDup (fp <$> cs) → (∀ f, f ∈ fp <$> cs → f ∉ seen ∧ (m !! f = None ∨ m !! f = Some id)) →
  ∃ r, try_fold (bind_fingerprint id) cs (seen, m) = Ok r.
Proof.
  revert seen m. induction cs as [|c cs IH]; intros seen m HN Hall; cbn [try_fold]; [eauto|].
  apply NoDup_cons in HN as [Hc HN]. destruct (Hall (fp c)) as [Hs Hb]; [by left|].
  assert (bind_fingerprint id (seen, m) c = Ok ({[ fp c ]} ∪ seen, <[fp c := id]> m)) as ->.
  { unfold bind_fingerprint. fold (fp c). cbn zeta. ok_step; [done|]. ok_step; [|done].
    cbn [snd]. destruct Hb as [-> | ->]; [done|]. by rewrite bool_decide_false by (by intros ?). }
  apply IH; [done|]. intros f Hf. destruct (Hall f) as [H1 H2]; [by right|]. split; [set_solver|].
  rewrite lookup_insert_ne; [done|]. by intros <-.
Qed.

(** After a replacement the connector has exactly the snapshot's fingerprints, and
    every other fingerprint and connector is as before. *)
Lemma replace_Ok s st st' u :
  index_ok st → replace s st = (Ok u, st') →
  let id := (s.(s_tenant_id), s.(s_connector_id)) in
  let cs := indexed s <$> s.(s_history) in
  validate_head s = Ok tt ∧ NoDup (fp <$> cs) ∧
  (∀ f id', f ∈ fp <$> cs → st.(by_fingerprint) !! f = Some id' → id' = id) ∧
  st'.(by_connector) = <[id := cs]> st.(by_connector) ∧ index_ok st'.
Proof.
  intros [B E D] H. cbn zeta. unfold replace in H. st_inv H.
  set (id := (s_tenant_id s, s_connector_id s)) in *. set (cs := indexed s <$> s_history s) in *.
  set (m0 := foldl _ _ _) in Hrun0.
  assert (∀ f, m0 !! f = if decide (f ∈ fp <$> default [] (by_connector st !! id)) then None else by_fingerprint st !! f)
    as Hunbound by (intros f; apply unbind_lookup). clearbody m0.
  assert (∀ f id', m0 !! f = Some id' → by_fingerprint st !! f = Some id' ∧ id' ≠ id) as Hm0.
  { intros f id' Hf. rewrite Hunbound in Hf. case_decide as Hp; [done|]. split; [done|].
    intros ->. apply Hp. destruct (E f id Hf) as (cs' & Hcs' & Hin). by rewrite Hcs'. }
  apply bind_lookup in Hrun0 as (HN & Hall & Hlk). cbn [by_connector]. rewrite insert_delete_eq.
  destruct x. split_and!; [done|done| |done|].
  { intros f id' Hf Hb. destruct (Hall f Hf) as [_ [Hx|Hx]].
    - rewrite Hunbound in Hx. case_decide as Hp; [|congruence].
      destruct (by_connector st !! id) as [cs'|] eqn:Hc; cbn in Hp; [|by apply not_elem_of_nil in Hp].
      apply list_elem_of_fmap in Hp as (c & -> & Hin). rewrite (B id cs' c Hc Hin) in Hb. congruence.
    - by apply Hm0 in Hx as [_ ?]. }
  assert (∀ f, f ∉ fp <$> cs → x0.2 !! f = m0 !! f) as Hother by (intros f Hf; rewrite Hlk; by rewrite decide_False).
  split; cbn.
  - intros id' cs' c Hc Hin. destruct (decide (id = id')) as [<-|Hne].
    + rewrite lookup_insert_eq in Hc. injection Hc as <-. rewrite Hlk, decide_True; [done|]. by apply list_elem_of_fmap_2.
    + rewrite lookup_insert_ne in Hc by done. pose proof (B id' cs' c Hc Hin) as Hb.
      assert (m0 !! fp c = Some id') as Hm.
      { rewrite Hunbound, decide_False; [done|]. intros Hp.
        destruct (by_connector st !! id) as [cs''|] eqn:Hc2; cbn in Hp; [|by apply not_elem_of_nil in Hp].
        apply list_elem_of_fmap in Hp as (c' & Hcc & Hin'). rewrite Hcc, (B id cs'' c' Hc2 Hin') in Hb. congruence. }
      rewrite Hlk. case_decide as Hf; [|done]. destruct (Hall _ Hf) as [_ [?|?]]; congruence.
  - intros f id' Hf. rewrite Hlk in Hf. case_decide as Hin.
    + injection Hf as <-. exists cs. by rewrite lookup_insert_eq.
    + apply Hm0 in Hf as [Hf Hne]. destruct (E f id' Hf) as (cs' & Hcs' & ?). exists cs'. by rewrite lookup_insert_ne.
  - intros id' cs' Hc. destruct (decide (id = id')) as [<-|Hne].
    + rewrite lookup_insert_eq in Hc. by injection Hc as <-.
    + rewrite lookup_insert_ne in Hc by done. eauto.
Qed.

Lemma replace_atomic s : atomic (replace s).
Proof. unfold replace. solve_atomic. Qed.

(** Hydration builds a consistent index. *)
Lemma hydrate_entries s es m cs m' cs' :
  try_fold (hydrate_entry s) es (m, cs) = Ok (m', cs') →
  cs' = cs ++ (indexed s <$> es) ∧ NoDup (fp <$> (indexed s <$> es)) ∧
  (∀ f, f ∈ fp <$> (indexed s <$> es) → m !! f = None) ∧
  ∀ f, m' !! f = if decide (f ∈ fp <$> (indexed s <$> es)) then Some (s.(s_tenant_id), s.(s_connector_id)) else m !! f.
Proof.
  revert m cs. induction es as [|e es IH]; intros m cs; cbn [try_fold fmap list_fmap].
  { intros [= <- <-]. split; [by rewrite app_nil_r|]. split; [constructor|].
    split; [by intros ? ?%not_elem_of_nil|]. intros f. by rewrite decide_False by apply not_elem_of_nil. }
  destruct (hydrate_entry s (m, cs) e) as [st|] eqn:H; [|done]. unfold hydrate_entry in H. cbn zeta in H.
  apply result_bind_Ok in H as (? & Hn%reject_if_Ok & H). injection H as <-. cbn [fst snd].
  change (as_bytes (certificate_fingerprint (credential e))) with (fp (indexed s e)) in *. cbn [fst] in Hn.
  apply eq_None_not_Some in Hn. intros (-> & HN & Hall & Hlk)%IH.
  assert (fp (indexed s e) ∉ fp <$> (indexed s <$> es)) as Hnew
    by (intros Hin; apply Hall in Hin; by rewrite lookup_insert_eq in Hin).
  split_and!.
  - by rewrite <-(assoc_L (++)).
  - by constructor.
  - intros f [->|Hf]%elem_of_cons; [done|]. pose proof (Hall f Hf) as Hx. rewrite lookup_insert_ne in Hx; [done|]. by intros <-.
  - intros f. rewrite Hlk. destruct (decide (f ∈ fp <$> (indexed s <$> es))) as [Hf|Hf]; [by rewrite decide_True by (by right)|].
    destruct (decide (f = fp (indexed s e))) as [->|Hne]; [rewrite lookup_insert_eq; by rewrite decide_True by (by left)|].
    rewrite lookup_insert_ne by done. by rewrite decide_False by (by rewrite elem_of_cons; intros [?|?]).
Qed.

Lemma empty_index_ok : index_ok empty_state.
Proof. split; cbn; intros *; by rewrite lookup_empty. Qed.

Lemma hydrate_snapshot_ok st s st' : index_ok st → hydrate_snapshot st s = Ok st' → index_ok st'.
Proof.
  intros [B E D] H. unfold hydrate_snapshot in H. cbn zeta in H.
  apply result_bind_Ok in H as (? & _ & H). apply result_bind_Ok in H as (? & Hn%reject_if_Ok & H).
  apply result_bind_Ok in H as ([m cs] & H & [= <-]). apply eq_None_not_Some in Hn.
  apply hydrate_entries in H as (-> & HN & Hall & Hlk). cbn [app] in *.
  set (id := (s_tenant_id s, s_connector_id s)) in *. set (cs := indexed s <$> s_history s) in *. split; cbn.
  - intros id' cs' c Hc Hin. destruct (decide (id = id')) as [<-|Hne].
    + rewrite lookup_insert_eq in Hc. injection Hc as <-. rewrite Hlk, decide_True; [done|]. by apply list_elem_of_fmap_2.
    + rewrite lookup_insert_ne in Hc by done. pose proof (B id' cs' c Hc Hin) as Hb. rewrite Hlk. case_decide as Hf; [|done].
      rewrite (Hall _ Hf) in Hb. done.
  - intros f id' Hf. rewrite Hlk in Hf. case_decide as Hin.
    + injection Hf as <-. exists cs. by rewrite lookup_insert_eq.
    + destruct (E f id' Hf) as (cs' & Hcs' & ?). exists cs'. rewrite lookup_insert_ne; [done|]. intros <-. congruence.
  - intros id' cs' Hc. destruct (decide (id = id')) as [<-|Hne].
    + rewrite lookup_insert_eq in Hc. by injection Hc as <-.
    + rewrite lookup_insert_ne in Hc by done. eauto.
Qed.

Lemma hydrate_ok ss st st' u : hydrate ss st = (Ok u, st') → index_ok st'.
Proof.
  unfold hydrate. intros H. st_inv H. revert Hrun.
  apply (try_fold_inv hydrate_snapshot (λ st _, index_ok st)); [apply empty_index_ok|].
  intros pre sn post s s1 _ Hok Hs. by eapply hydrate_snapshot_ok.
Qed.

(** ** Histories of the index *)

Inductive IndexOp : Type := OpReplace (s : Snapshot) | OpHydrate (ss : list Snapshot).

Definition index_step (o : IndexOp) : AuthorizationState → AuthorizationState :=
  match o with OpReplace s => exec (replace s) | OpHydrate ss => exec (hydrate ss) end.
Definition index_reachable (st : AuthorizationState) : Prop := ∃ ops, st = run_all index_step ops empty_state.

Lemma index_step_ok o st : index_ok st → index_ok (index_step o st).
Proof.
  intros Hok. destruct o as [s|ss]; cbn.
  - destruct (exec_atomic (replace s) st (replace_atomic s)) as [->|[u H]]; [done|].
    by destruct (replace_Ok s st _ u Hok H) as (_ & _ & _ & _ & ?).
  - assert (atomic (hydrate ss)) as Ha by (unfold hydrate; solve_atomic).
    destruct (exec_atomic (hydrate ss) st Ha) as [->|[u H]]; [done|]. by eapply hydrate_ok.
Qed.

Lemma index_run_ok ops st : index_ok st → index_ok (run_all index_step ops st).
Proof. intros Hok. apply run_all_inv; [|done]. intros. by apply index_step_ok. Qed.

Lemma index_reachable_ok st : index_reachable st → index_ok st.
Proof. intros [ops ->]. apply index_run_ok, empty_index_ok. Qed.

(** Replacements of other connectors leave the entries of a connector alone. *)
Definition elsewhere (id : ConnectorKey) (o : IndexOp) : Prop :=
  match o with OpReplace s => (s.(s_tenant_id), s.(s_connector_id)) ≠ id | OpHydrate _ => False end.

Lemma elsewhere_keeps id ops st :
  index_ok st → Forall (elsewhere id) ops →
  index_ok (run_all index_step ops st) ∧ (run_all index_step ops st).(by_connector) !! id = st.(by_connector) !! id.
Proof.
  intros Hok Hops. rewrite Forall_forall in Hops.
  apply (run_all_inv index_step (λ s, index_ok s ∧ s.(by_connector) !! id = st.(by_connector) !! id)); [|done].
  intros o s Ho [Hs Hid]. split; [by apply index_step_ok|]. specialize (Hops o Ho). destruct o as [sn|]; [cbn|done].
  destruct (exec_atomic (replace sn) s (replace_atomic sn)) as [->|[u H]]; [done|].
  destruct (replace_Ok sn s _ u Hs H) as (_ & _ & _ & -> & _). by rewrite lookup_insert_ne.
Qed.

(** ** Agreement with the aggregate *)

Import CredentialProps.

Section agreement.
Context `{Ed : Ed25519, Sha : Sha256}.

Definition present (a : ConnectorCredentialAuthorization) (e : CredentialEntry) : ConnectorCredentialPresentation :=
  {| p_tenant_id := a.(a_tenant_id); p_connector_id := a.(a_connector_id);
     p_credential_id := e.(credential).(credential_id); p_generation := e.(credential).(generation);
     p_certificate_fingerprint := e.(credential).(certificate_fingerprint) |}.

Definition admission_of (st : ConnectorCredentialStatus) : ConnectorCredentialAdmission :=
  match st with Current => AdmitCurrent | Pending => AdmitPendingSuccessor | _ => Unresolved end.

Lemma authorize_transport_Ok a e now st :
  auth_ok a → e ∈ a.(history) →
  authorize_transport a (present a e) now = Ok st ↔
  a.(state) = Active ∧ is_valid_at e.(credential) now = true ∧ e.(status) = st ∧ (st = Current ∨ st = Pending).
Proof.
  intros Hok He. unfold authorize_transport. cbn [p_tenant_id p_connector_id p_credential_id p_generation p_certificate_fingerprint present].
  change (credential_id (credential e)) with (id_of e). rewrite find_by_id by (done || apply Hok). split.
  - intros H. res_inv H. match goal with H : Some e = Some _ |- _ => injection H as <- end.
    split; [by destruct (state a)|]. split; [by apply not_false_is_true|]. destruct (status e); naive_solver.
  - intros (Hs & Hv & <- & Hst). ok_step; [by rewrite Hs|]. ok_step; [naive_solver|]. ok_step; [naive_solver|].
    ok_step; [done|]. ok_step; [naive_solver|]. ok_step; [by rewrite Hv|]. destruct Hst as [-> | ->]; done.
Qed.

(** What the index answers for a connector whose entries it has. *)
Lemma authorize_Ok st id cs f secs adm :
  index_ok st → st.(by_connector) !! id = Some cs →
  authorize st id f secs = Ok adm ↔
  0 ≤ secs * 1000 ≤ i64_max ∧
  ∃ c, c ∈ cs ∧ fp c = f ∧ c.(ix_not_before_millis) ≤ secs * 1000 < c.(ix_not_after_millis) ∧
    (c.(ix_status) = Current ∨ c.(ix_status) = Pending) ∧ adm = admission_of c.(ix_status).
Proof.
  intros [B E D] Hcs. unfold authorize. rewrite Hcs. cbn [mbind option_bind]. split.
  - intros H. res_inv H. destruct (list_find _ cs) as [[i c]|] eqn:Hf; [|done]. injection Hres0 as <-.
    destruct (u64_checked_mul secs 1000) as [v|] eqn:Hv; [|done]. cbn in Hres1.
    apply checked_Some in Hv as [-> Hv], Hres1 as [-> Hv']. split; [lia|].
    apply list_find_Some in Hf as (Hi & Hfp & _). exists c. cbn [snd] in *.
    split_and!; [by eapply list_elem_of_lookup_2|done|lia|lia| |]; destruct (ix_status c); naive_solver.
  - intros (Hr & c & Hin & <- & Hw & Hst & ->).
    assert (list_find (λ c', as_bytes (ix_fingerprint c') = fp c) cs = Some (default 0%nat (fst <$> list_find (λ c', as_bytes (ix_fingerprint c') = fp c) cs), c)) as Hf.
    { destruct (list_find _ cs) as [[i c']|] eqn:Hf.
      - apply list_find_Some in Hf as (Hi & Hfp & _). cbn. do 2 f_equal.
        apply list_elem_of_lookup_1 in Hin as [j Hj].
        assert (i = j) as ->; [|congruence]. eapply (NoDup_lookup (fp <$> cs)); [by apply (D id)| |]; rewrite list_lookup_fmap.
        + rewrite Hi. cbn. unfold fp. by rewrite Hfp.
        + by rewrite Hj.
      - apply list_find_None in Hf. rewrite Forall_forall in Hf. by destruct (Hf c Hin). }
    ok_step. { rewrite (B id cs c Hcs Hin). by rewrite bool_decide_false by (by intros ?). }
    ok_step; [rewrite Hf; reflexivity|]. ok_step.
    { unfold u64_checked_mul. cbn [mbind option_bind].
      assert (checked 0 u64_max (secs * 1000) = Some (secs * 1000)) as ->
        by (apply checked_Some; change u64_max with (2 ^ 64 - 1); change i64_max with (2 ^ 63 - 1) in Hr; lia).
      apply checked_Some. split; [reflexivity|]. unfold i64_min. lia. }
    cbn [snd]. ok_step; [lia|]. ok_step; [lia|]. destruct Hst as [-> | ->]; done.
Qed.

(** C25. The index mirrors the aggregate.  Once the snapshot of an authorization
    aggregate has been indexed, and whatever happens to other connectors
    afterwards, the index admits a certificate of that connector exactly when the
    aggregate's own transport check admits it, and reports the same status; a
    fingerprint that is not in the history is never admitted. *)
Theorem index_mirrors_aggregate idx a idx1 ops f secs adm :
  index_reachable idx → CredentialProps.reachable a →
  replace (snapshot a) idx = (Ok tt, idx1) →
  Forall (elsewhere (a.(a_tenant_id), a.(a_connector_id))) ops →
  0 ≤ secs * 1000 ≤ i64_max →
  authorize (run_all index_step ops idx1) (a.(a_tenant_id), a.(a_connector_id)) f secs = Ok adm ↔
  ∃ e st, e ∈ a.(history) ∧ as_bytes e.(credential).(certificate_fingerprint) = f ∧
    authorize_transport a (present a e) (secs * 1000) = Ok st ∧ adm = admission_of st.
Proof.
  intros Hidx%index_reachable_ok Ha%auth_reachable_ok Hr Hops Hsecs.
  destruct (replace_Ok _ _ _ _ Hidx Hr) as (_ & _ & _ & Hc & Hidx1).
  destruct (elsewhere_keeps _ ops idx1 Hidx1 Hops) as [Hok Hlk]. rewrite Hc, lookup_insert_eq in Hlk.
  rewrite (authorize_Ok _ _ _ f secs adm Hok Hlk). cbn [s_history snapshot]. split.
  - intros (_ & c & (e & -> & He)%list_elem_of_fmap & <- & Hw & Hst & ->). exists e, (status e).
    cbn [ix_not_before_millis ix_not_after_millis ix_status indexed s_state snapshot] in *.
    destruct (state a) eqn:Hs; [|naive_solver]. split_and!; [done|done| |done].
    apply authorize_transport_Ok; [done|done|]. split_and!; [done| |done|done].
    unfold is_valid_at. apply bool_decide_eq_true. lia.
  - intros (e & st & He & <- & Ht & ->). apply authorize_transport_Ok in Ht as (Hs & Hv & <- & Hst); [|done|done].
    split; [done|]. exists (indexed (snapshot a) e). split; [by apply list_elem_of_fmap_2|].
    cbn. rewrite Hs. unfold is_valid_at in Hv. apply bool_decide_eq_true in Hv. split_and!; [done|lia|lia|done|done].
Qed.

(** The head of a reachable aggregate is always valid. *)
Lemma reachable_head_valid a : auth_ok a → validate_head (snapshot a) = Ok tt.
Proof.
  intros Hok. pose proof (ao_shape _ Hok) as Hsh. unfold validate_head, count_status, any_with.
  cbn [s_history s_state s_current_credential_id s_pending_credential_id snapshot].
  assert (∀ rs, Forall (λ e, status e = Retired) rs → filter (λ e, status e = Current) rs = [] ∧
    filter (λ e, status e = Pending) rs = []) as Hret.
  { intros rs Hrs. induction Hrs as [|e rs He Hrs [IH1 IH2]]; [done|]. by rewrite !filter_cons_False by (rewrite He; done). }
  destruct (state a) eqn:Hs.
  - destruct Hsh as (rs & c & ps & Hh & Hrs & Hc & Hps).
    destruct (active_lookups _ _ _ _ Hh Hrs Hc Hps) as [Hcur Hpend]. destruct (Hret rs Hrs) as [F1 F2].
    unfold current, pending, find_entry. rewrite Hcur, Hpend, Hh. cbn [fmap option_fmap option_map snd].
    rewrite !filter_app, F1, F2. cbn [app].
    rewrite filter_cons_True, (filter_cons_False _ c ps) by (rewrite Hc; done).
    destruct Hps as [->|(p & -> & Hp)]; cbn [fmap option_fmap option_map snd filter list_filter].
    + rewrite (bool_decide_true (Exists _ _)); [done|]. apply Exists_app. right. by left.
    + rewrite decide_False, decide_True by (rewrite Hp; done). cbn.
      rewrite !(bool_decide_true (Exists _ _)); [done|apply Exists_app; right; right; by left|apply Exists_app; right; by left].
  - destruct Hsh as [Hall _].
    assert (∀ st, st = Current ∨ st = Pending → filter (λ e, status e = st) (history a) = []) as Hnone.
    { intros st Hst. induction Hall as [|e h He Hall IH]; [done|].
      rewrite filter_cons_False; [done|]. destruct He, Hst; congruence. }
    assert (∀ st, st = Current ∨ st = Pending → find_entry (λ e, status e = st) (history a) = None) as Hf.
    { intros st Hst. apply find_entry_None. eapply Forall_impl; [exact Hall|]. intros e He Heq. destruct He, Hst; congruence. }
    unfold current, pending. rewrite !Hf, !Hnone by auto. done.
Qed.

(** A current view is refused only for a fingerprint that another connector has. *)
Lemma replace_accepted_exactly idx a :
  index_reachable idx → CredentialProps.reachable a →
  (∃ idx', replace (snapshot a) idx = (Ok tt, idx')) ↔
  ∀ e id, e ∈ a.(history) → idx.(by_fingerprint) !! as_bytes e.(credential).(certificate_fingerprint) = Some id →
    id = (a.(a_tenant_id), a.(a_connector_id)).
Proof.
  intros Hidx%index_reachable_ok Ha%auth_reachable_ok. split.
  - intros [idx' H]. destruct (replace_Ok _ _ _ _ Hidx H) as (_ & _ & Hf & _). intros e id He. apply Hf.
    apply list_elem_of_fmap. exists (indexed (snapshot a) e). split; [done|]. by apply list_elem_of_fmap_2.
  - intros Hfree. set (id := (a_tenant_id a, a_connector_id a)).
    set (m0 := foldl (λ m c, delete (fp c) m) (by_fingerprint idx) (default [] (by_connector idx !! id))).
    destruct (bind_succeeds id (indexed (snapshot a) <$> history a) ∅ m0) as [r Hr].
    + pose proof (co_fingerprints _ _ _ (ao_creds _ Ha)) as HN. apply (NoDup_fmap_2 as_bytes) in HN.
      rewrite <-!list_fmap_compose in HN. rewrite <-list_fmap_compose. exact HN.
    + intros f (c & -> & (e & -> & He)%list_elem_of_fmap)%list_elem_of_fmap. split; [set_solver|].
      unfold m0. rewrite unbind_lookup. case_decide; [by left|]. cbn.
      destruct (by_fingerprint idx !! _) as [id'|] eqn:Hb; [right|by left]. f_equal. by eapply Hfree.
    + eexists. unfold replace. st_step; [apply lift_Ok; split; [by apply reachable_head_valid|reflexivity]|].
      st_step. st_step; [apply lift_Ok; split; [exact Hr|reflexivity]|]. reflexivity.
Qed.
End agreement.
End Index.
