(* ===== verification/IndexDemo.v ===== *)
(** * The advisory credential index: an example

    The rotated connector of [ControlDemo] in the index: its new certificate is
    admitted, the retired one is not. *)

From S2P Require Import Prelude Domain WirePrimitives WireValues Connector ControlProof ControlCredential ControlCredentialProps ControlDemo AuthorizationIndex IdentityLogDemo.

Module IndexDemo.
Import Control Credential CredentialProps Index ControlDemo.
Existing Instance IdentityLogDemo.ed25519_demo.
Existing Instance IdentityLogDemo.sha256_demo.

Definition view : AuthorizationState := exec (replace (snapshot rotated)) empty_state.

Lemma index_mirrors_aggregate_witness :
  authorize view (tenant, connector) (as_bytes second.(certificate_fingerprint)) 3 = Ok AdmitCurrent ∧
  authorize view (tenant, connector) (as_bytes first.(certificate_fingerprint)) 3 = Err IndexRetired.
Proof.
  split; [|by vm_compute].
  apply (index_mirrors_aggregate empty_state rotated view [] (as_bytes second.(certificate_fingerprint)) 3 AdmitCurrent).
  - by exists [].
  - apply rotated_reachable.
  - by vm_compute.
  - constructor.
  - unfold i64_max. lia.
  - exists (MkEntry second Current), Current. split_and!; [|done|by vm_compute|done].
    assert (rotated.(history) = [MkEntry first Retired; MkEntry second Current]) as -> by (by vm_compute).
    right. left.
Defined.
End IndexDemo.
