(* ===== verification/HostTypes.v ===== *)
(** * Host supervisor: data

    Models [crates/dtx-agent-host-supervisor/src/types.rs] and the data of
    [ports.rs]: revision fences, commands and their digest, durable intents,
    receipts and snapshots. *)

From S2P Require Import Prelude Domain CanonicalCbor CborSpec CborFields WirePrimitives WireValues Connector ControlProof.

Module HostTypes.
Import Control.

(** ** Opaque 32-byte values, one type per use *)

Inductive OpaqueKind : Type :=
| KPlan | KHandoff | KMaterial | KConfig | KTrust | KPreparedReceipt | KFinalizedReceipt
| KRelease | KCredentialRef | KBearerRef | KCommandDigest.
Record Opaque32 (k : OpaqueKind) : Type := MkOpaque32 { opaque_bytes : bytes }.
Arguments MkOpaque32 {k} opaque_bytes.
Arguments opaque_bytes {k} o.
Global Instance Opaque32_eq_dec k : EqDecision (Opaque32 k).
Proof. solve_decision. Defined.

Notation PlanDigest := (Opaque32 KPlan).
Notation HandoffDigest := (Opaque32 KHandoff).
Notation MaterialDigest := (Opaque32 KMaterial).
Notation ConfigDigest := (Opaque32 KConfig).
Notation TrustDigest := (Opaque32 KTrust).
Notation PreparedReceiptDigest := (Opaque32 KPreparedReceipt).
Notation FinalizedReceiptDigest := (Opaque32 KFinalizedReceipt).
Notation ReleaseDigest := (Opaque32 KRelease).
Notation CredentialArtifactRef := (Opaque32 KCredentialRef).
Notation McpBearerRef := (Opaque32 KBearerRef).
Notation CommandDigest := (Opaque32 KCommandDigest).

(** Both operation identities wrap a request identifier. *)
Notation HostOperationId := RequestId.
Notation ConnectorLifecycleOperationId := RequestId.

Inductive ProcessMutationPhase : Type := RequestedEffect | PolicyCompensation.
Global Instance ProcessMutationPhase_eq_dec : EqDecision ProcessMutationPhase.
Proof. solve_decision. Defined.
Record ProcessMutationId : Type := { pm_operation_id : HostOperationId; pm_phase : ProcessMutationPhase }.
Definition requested (id : HostOperationId) : ProcessMutationId :=
  {| pm_operation_id := id; pm_phase := RequestedEffect |}.
Definition policy_compensation (id : HostOperationId) : ProcessMutationId :=
  {| pm_operation_id := id; pm_phase := PolicyCompensation |}.

Inductive PlatformTarget : Type := LinuxAmd64 | LinuxArm64.
Global Instance PlatformTarget_eq_dec : EqDecision PlatformTarget.
Proof. solve_decision. Defined.
Inductive ResourceProfile : Type := Standard | Compute | LowLatency.
Global Instance ResourceProfile_eq_dec : EqDecision ResourceProfile.
Proof. solve_decision. Defined.

Record ConnectorLifecycleFacts : Type := {
  lifecycle_operation_id : ConnectorLifecycleOperationId;
  platform_target : PlatformTarget;
  lf_adapter_kind : AdapterKind;
  lf_release_digest : ReleaseDigest;
  lf_tenant_id : TenantId;
  lf_host_id : HostId;
  lf_connector_id : ConnectorId;
  expiry_millis : Z;
  plan_digest : PlanDigest;
  handoff_digest : HandoffDigest;
  config_digest : ConfigDigest;
  trust_digest : TrustDigest;
  material_digest : MaterialDigest
}.
Global Instance ConnectorLifecycleFacts_eq_dec : EqDecision ConnectorLifecycleFacts.
Proof. solve_decision. Defined.

Record BootstrapCredentialFacts : Type := {
  bc_generation : Z;
  bc_revision : Revision;
  bc_credential_ref : CredentialArtifactRef;
  bc_mcp_bearer_ref : McpBearerRef
}.
Global Instance BootstrapCredentialFacts_eq_dec : EqDecision BootstrapCredentialFacts.
Proof. solve_decision. Defined.

Inductive ProcessObservation : Type := Absent | Starting | ObservedRunning | ObservedStopped | Failed.
Global Instance ProcessObservation_eq_dec : EqDecision ProcessObservation.
Proof. solve_decision. Defined.

Inductive InstallState : Type :=
| Prepared (facts : ConnectorLifecycleFacts) (prepared_receipt : PreparedReceiptDigest)
    (credentials : BootstrapCredentialFacts) (observation : ProcessObservation)
| Finalized (facts : ConnectorLifecycleFacts) (prepared_receipt : PreparedReceiptDigest)
    (finalized_receipt : FinalizedReceiptDigest) (credentials : BootstrapCredentialFacts)
    (observation : ProcessObservation).
Definition install_facts (s : InstallState) : ConnectorLifecycleFacts :=
  match s with Prepared facts _ _ _ | Finalized facts _ _ _ _ => facts end.
Definition install_credentials (s : InstallState) : BootstrapCredentialFacts :=
  match s with Prepared _ _ credentials _ | Finalized _ _ _ credentials _ => credentials end.
(** [InstallProof] has the same two shapes. *)
Notation InstallProof := InstallState.
Global Instance InstallState_eq_dec : EqDecision InstallState.
Proof. solve_decision. Defined.

Record CatalogRelease : Type := approved {
  cr_adapter_kind : AdapterKind;
  cr_digest : ReleaseDigest;
  cr_resource_profile : ResourceProfile;
  cr_catalog_revision : Revision
}.
Global Instance CatalogRelease_eq_dec : EqDecision CatalogRelease.
Proof. solve_decision. Defined.

(** ** Revision fences *)

Record HostRevisionFence : Type := { desired : Revision; observed : option Revision }.
Global Instance HostRevisionFence_eq_dec : EqDecision HostRevisionFence.
Proof. solve_decision. Defined.

Inductive HostRevisionError : Type := FenceOutOfRange | ObservedAheadOfDesired.

Definition from_revisions (d : Revision) (o : option Revision) : result HostRevisionError HostRevisionFence :=
  reject ObservedAheadOfDesired when (match o with Some o => bool_decide (o > d) | None => false end = true);;
  Ok {| desired := d; observed := o |}.

Definition Fence_new (d : Z) (o : option Z) : result HostRevisionError HostRevisionFence :=
  d ← map_err (λ _, FenceOutOfRange) (Revision.new d);
  o ← map_err (λ _, FenceOutOfRange)
        (match o with Some o => Some <$> Revision.new o | None => Ok None end);
  from_revisions d o.

Definition advance_and_acknowledge (f : HostRevisionFence) : option HostRevisionFence :=
  d ← result_ok (Revision.checked_next f.(desired));
  Some {| desired := d; observed := Some d |}.

(** ** Commands *)

Inductive RemovalPolicy : Type := RetainData.

Inductive HostCommand : Type :=
| HEnsure (connector_id : ConnectorId) (adapter_kind : AdapterKind) (release_digest : ReleaseDigest)
| HStart (connector_id : ConnectorId)
| HStop (connector_id : ConnectorId)
| HRestart (connector_id : ConnectorId)
| HRotateCredential (connector_id : ConnectorId) (credential_ref : CredentialArtifactRef)
| HRemove (connector_id : ConnectorId) (policy : RemovalPolicy)
| HPrepareConnectorMaterial (facts : ConnectorLifecycleFacts)
| HFinalizeConnectorMaterial (facts : ConnectorLifecycleFacts) (prepared_receipt : PreparedReceiptDigest).
Global Instance RemovalPolicy_eq_dec : EqDecision RemovalPolicy.
Proof. solve_decision. Defined.
Global Instance HostCommand_eq_dec : EqDecision HostCommand.
Proof. solve_decision. Defined.

Definition command_connector_id (c : HostCommand) : ConnectorId :=
  match c with
  | HEnsure id _ _ | HStart id | HStop id | HRestart id | HRotateCredential id _ | HRemove id _ => id
  | HPrepareConnectorMaterial facts | HFinalizeConnectorMaterial facts _ => facts.(lf_connector_id)
  end.

Definition command_tag (c : HostCommand) : Z :=
  match c with
  | HEnsure _ _ _ => 1 | HStart _ => 2 | HStop _ => 3 | HRestart _ => 4
  | HRotateCredential _ _ => 5 | HRemove _ _ => 6
  | HPrepareConnectorMaterial _ => 7 | HFinalizeConnectorMaterial _ _ => 8
  end.

Definition adapter_tag (a : AdapterKind) : Z :=
  match a with
  | Codex => 1 | OpenClawAcp => 2 | Eino => 3 | Rig => 4 | ClaudeCode => 5 | CustomAcp => 6 | HermesAcp => 7
  end.

Definition lifecycle_facts_bytes (f : ConnectorLifecycleFacts) : bytes :=
  uuid_bytes f.(lifecycle_operation_id)
  ++ [match f.(platform_target) with LinuxAmd64 => 1 | LinuxArm64 => 2 end]
  ++ [adapter_tag f.(lf_adapter_kind)]
  ++ opaque_bytes f.(lf_release_digest)
  ++ uuid_bytes f.(lf_tenant_id) ++ uuid_bytes f.(lf_host_id) ++ uuid_bytes f.(lf_connector_id)
  ++ to_be_bytes 8 f.(expiry_millis)
  ++ opaque_bytes f.(plan_digest) ++ opaque_bytes f.(handoff_digest) ++ opaque_bytes f.(config_digest)
  ++ opaque_bytes f.(trust_digest) ++ opaque_bytes f.(material_digest).

Definition command_bytes (c : HostCommand) : bytes :=
  match c with
  | HEnsure _ adapter release => adapter_tag adapter :: opaque_bytes release
  | HRotateCredential _ reference => opaque_bytes reference
  | HRemove _ RetainData => [1]
  | HPrepareConnectorMaterial facts => lifecycle_facts_bytes facts
  | HFinalizeConnectorMaterial facts receipt => lifecycle_facts_bytes facts ++ opaque_bytes receipt
  | HStart _ | HStop _ | HRestart _ => []
  end.

(** The bytes that [digest_command] hashes. *)
Definition digest_input (tenant : TenantId) (host : HostId) (expected : HostRevisionFence) (c : HostCommand) : bytes :=
  str "dirextalk.host-supervisor-command.v1" ++ [0]
  ++ uuid_bytes tenant ++ uuid_bytes host
  ++ to_be_bytes 8 expected.(desired)
  ++ to_be_bytes 8 (default 0 expected.(observed))
  ++ [command_tag c] ++ uuid_bytes (command_connector_id c) ++ command_bytes c.

Record HostCommandEnvelope : Type := {
  he_tenant_id : TenantId;
  he_host_id : HostId;
  he_operation_id : HostOperationId;
  he_expected : HostRevisionFence;
  he_command : HostCommand;
  he_command_digest : CommandDigest
}.

(** ** Durable commands, intents and receipts *)

Record ConnectorTarget : Type := {
  t_tenant_id : TenantId;
  t_host_id : HostId;
  t_connector_id : ConnectorId;
  t_adapter_kind : AdapterKind
}.
Global Instance ConnectorTarget_eq_dec : EqDecision ConnectorTarget.
Proof. solve_decision. Defined.

Inductive ManagedConnectorDesiredState : Type :=
| EnsuredStopped | DesiredRunning | DesiredStopped | RemovedRetainingData.
Global Instance ManagedConnectorDesiredState_eq_dec : EqDecision ManagedConnectorDesiredState.
Proof. solve_decision. Defined.

Record ManagedConnectorSnapshot : Type := {
  m_connector_id : ConnectorId;
  m_adapter_kind : AdapterKind;
  m_release : CatalogRelease;
  m_desired_state : ManagedConnectorDesiredState;
  m_observation : ProcessObservation;
  m_credential_generation : Z;
  m_credential_ref : option CredentialArtifactRef;
  m_credential_operation_id : option HostOperationId
}.
Global Instance ManagedConnectorSnapshot_eq_dec : EqDecision ManagedConnectorSnapshot.
Proof. solve_decision. Defined.

Record SupervisorSnapshot : Type := {
  ss_tenant_id : TenantId;
  ss_host_id : HostId;
  ss_desired_revision : Revision;
  ss_observed_revision : option Revision;
  ss_instances : list ManagedConnectorSnapshot
}.
Global Instance SupervisorSnapshot_eq_dec : EqDecision SupervisorSnapshot.
Proof. solve_decision. Defined.

Inductive DurableHostCommand : Type :=
| Ensure (target : ConnectorTarget) (release : CatalogRelease)
| Start (target : ConnectorTarget) (release : CatalogRelease) (credential_ref : CredentialArtifactRef)
    (credential_operation_id : HostOperationId)
| Stop (target : ConnectorTarget)
| Restart (target : ConnectorTarget) (release : CatalogRelease) (credential_ref : CredentialArtifactRef)
    (credential_operation_id : HostOperationId)
| RotateCredential (target : ConnectorTarget) (release : CatalogRelease)
    (credential_ref : CredentialArtifactRef) (resulting_generation : Z)
| RemoveRetaining (target : ConnectorTarget)
| PrepareConnectorMaterial (facts : ConnectorLifecycleFacts)
| FinalizeConnectorMaterial (facts : ConnectorLifecycleFacts) (prepared_receipt : PreparedReceiptDigest).
Global Instance DurableHostCommand_eq_dec : EqDecision DurableHostCommand.
Proof. solve_decision. Defined.

Definition facts_target (f : ConnectorLifecycleFacts) : ConnectorTarget :=
  {| t_tenant_id := f.(lf_tenant_id); t_host_id := f.(lf_host_id);
     t_connector_id := f.(lf_connector_id); t_adapter_kind := f.(lf_adapter_kind) |}.

Definition target (c : DurableHostCommand) : ConnectorTarget :=
  match c with
  | Ensure t _ | Start t _ _ _ | Stop t | Restart t _ _ _ | RotateCredential t _ _ _ | RemoveRetaining t => t
  | PrepareConnectorMaterial facts | FinalizeConnectorMaterial facts _ => facts_target facts
  end.

Record OperationIntent : Type := {
  oi_operation_id : HostOperationId;
  oi_tenant_id : TenantId;
  oi_host_id : HostId;
  oi_command_digest : CommandDigest;
  oi_expected : HostRevisionFence;
  oi_resulting : HostRevisionFence;
  oi_command : DurableHostCommand
}.
Global Instance OperationIntent_eq_dec : EqDecision OperationIntent.
Proof. solve_decision. Defined.

Definition OperationIntent_new (e : HostCommandEnvelope) (resulting : HostRevisionFence)
    (c : DurableHostCommand) : OperationIntent :=
  {| oi_operation_id := e.(he_operation_id); oi_tenant_id := e.(he_tenant_id); oi_host_id := e.(he_host_id);
     oi_command_digest := e.(he_command_digest); oi_expected := e.(he_expected); oi_resulting := resulting;
     oi_command := c |}.

Inductive CommandDisposition : Type := Applied | PolicyBlocked | ExpiredUnclaimed.
Global Instance CommandDisposition_eq_dec : EqDecision CommandDisposition.
Proof. solve_decision. Defined.

Record CommandOutcome : Type := {
  co_connector_id : ConnectorId;
  co_revisions : HostRevisionFence;
  co_disposition : CommandDisposition;
  co_desired_state : ManagedConnectorDesiredState;
  co_observation : ProcessObservation;
  co_credential_generation : Z
}.
Global Instance CommandOutcome_eq_dec : EqDecision CommandOutcome.
Proof. solve_decision. Defined.

Record OperationReceipt : Type := {
  or_operation_id : HostOperationId;
  or_command_digest : CommandDigest;
  or_outcome : CommandOutcome;
  or_install_proof : option InstallProof
}.
Global Instance OperationReceipt_eq_dec : EqDecision OperationReceipt.
Proof. solve_decision. Defined.

Inductive JournalRecord : Type :=
| RPending (intent : OperationIntent)
| RCompleted (intent : OperationIntent) (receipt : OperationReceipt).

Inductive CommandApplication : Type := ByApplying | ByReplay | ByReconciling.
Global Instance CommandApplication_eq_dec : EqDecision CommandApplication.
Proof. solve_decision. Defined.
Record CommandResult : Type := MkCommandResult { cr_application : CommandApplication; cr_outcome : CommandOutcome }.

(** ** Validity of durable data *)

(** [BTreeSet::insert] over all instances *)
Fixpoint distinct_ids (l : list ManagedConnectorSnapshot) (ids : gset ConnectorId) : bool :=
  match l with
  | [] => true
  | i :: l => if decide (i.(m_connector_id) ∈ ids) then false
              else distinct_ids l ({[ i.(m_connector_id) ]} ∪ ids)
  end.
Definition validate_snapshot_ids (l : list ManagedConnectorSnapshot) : bool := distinct_ids l ∅.

Definition snapshot_observation_is_valid (d : ManagedConnectorDesiredState) (o : ProcessObservation) : bool :=
  match d, o with
  | (EnsuredStopped | DesiredStopped), ObservedStopped => true
  | DesiredRunning, (ObservedRunning | Failed) => true
  | RemovedRetainingData, Absent => true
  | _, _ => false
  end.

Definition durable_command_shape_is_valid (c : DurableHostCommand) : bool :=
  match c with
  | Ensure t release | Start t release _ _ | Restart t release _ _ =>
      bool_decide (release.(cr_adapter_kind) = t.(t_adapter_kind))
  | RotateCredential t release _ generation =>
      bool_decide (release.(cr_adapter_kind) = t.(t_adapter_kind) ∧ generation > 0 ∧ generation ≤ Revision.MAX)
  | Stop _ | RemoveRetaining _ => true
  | PrepareConnectorMaterial facts | FinalizeConnectorMaterial facts _ => bool_decide (facts.(expiry_millis) > 0)
  end.

Definition durable_request_command (c : DurableHostCommand) : HostCommand :=
  match c with
  | Ensure t release => HEnsure t.(t_connector_id) t.(t_adapter_kind) release.(cr_digest)
  | Start t _ _ _ => HStart t.(t_connector_id)
  | Stop t => HStop t.(t_connector_id)
  | Restart t _ _ _ => HRestart t.(t_connector_id)
  | RotateCredential t _ reference _ => HRotateCredential t.(t_connector_id) reference
  | RemoveRetaining t => HRemove t.(t_connector_id) RetainData
  | PrepareConnectorMaterial facts => HPrepareConnectorMaterial facts
  | FinalizeConnectorMaterial facts receipt => HFinalizeConnectorMaterial facts receipt
  end.

Definition durable_outcome_is_valid (c : DurableHostCommand) (o : CommandOutcome) : bool :=
  let d := o.(co_desired_state) in
  let ob := o.(co_observation) in
  if decide (o.(co_disposition) = PolicyBlocked) then
    match c with Start _ _ _ _ | Restart _ _ _ _ => true | _ => false end &&
    bool_decide (d = DesiredStopped) && bool_decide (ob = ObservedStopped)
  else
  match c with
  | Ensure _ _ => bool_decide (d = EnsuredStopped ∧ ob = ObservedStopped)
  | Start _ _ _ _ | Restart _ _ _ _ => bool_decide (d = DesiredRunning ∧ (ob = ObservedRunning ∨ ob = Failed))
  | Stop _ => bool_decide (d = DesiredStopped ∧ ob = ObservedStopped)
  | RotateCredential _ _ _ generation =>
      bool_decide (o.(co_credential_generation) = generation) &&
      bool_decide (d = DesiredRunning ∧ (ob = ObservedRunning ∨ ob = Failed)
                   ∨ (d = EnsuredStopped ∨ d = DesiredStopped) ∧ ob = ObservedStopped)
  | RemoveRetaining _ => bool_decide (d = RemovedRetainingData ∧ ob = Absent)
  | PrepareConnectorMaterial _ =>
      bool_decide (d = EnsuredStopped ∧ ob = ObservedStopped) || bool_decide (o.(co_disposition) = ExpiredUnclaimed)
  | FinalizeConnectorMaterial _ _ => bool_decide (d = DesiredRunning ∧ ob = ObservedRunning)
  end.

Definition install_proof_is_valid (c : DurableHostCommand) (o : CommandOutcome) (p : option InstallProof) : bool :=
  match c, o.(co_disposition), p with
  | PrepareConnectorMaterial facts, Applied, Some (Prepared pf _ _ observation) =>
      bool_decide (pf = facts ∧ observation = ObservedStopped)
  | PrepareConnectorMaterial _, ExpiredUnclaimed, None => true
  | FinalizeConnectorMaterial facts receipt, Applied, Some (Finalized pf pr _ _ observation) =>
      bool_decide (pf = facts ∧ pr = receipt ∧ observation = ObservedRunning)
  | (Ensure _ _ | Start _ _ _ _ | Stop _ | Restart _ _ _ _ | RotateCredential _ _ _ _ | RemoveRetaining _), _, None => true
  | _, _, _ => false
  end.

(** [OperationReceipt::rehydrate]: its checks *)
Definition receipt_rehydrates (i : OperationIntent) (r : OperationReceipt) : bool :=
  let o := r.(or_outcome) in
  bool_decide (r.(or_operation_id) = i.(oi_operation_id)) &&
  bool_decide (r.(or_command_digest) = i.(oi_command_digest)) &&
  bool_decide (o.(co_revisions) = i.(oi_resulting)
               ∨ o.(co_disposition) = ExpiredUnclaimed ∧ o.(co_revisions) = i.(oi_expected)) &&
  bool_decide (o.(co_connector_id) = (target i.(oi_command)).(t_connector_id)) &&
  bool_decide (o.(co_credential_generation) ≤ Revision.MAX) &&
  durable_outcome_is_valid i.(oi_command) o && install_proof_is_valid i.(oi_command) o r.(or_install_proof).

Section digests.
Context `{Sha : Sha256}.

Definition digest_command (tenant : TenantId) (host : HostId) (expected : HostRevisionFence) (c : HostCommand) :
    CommandDigest := MkOpaque32 (sha256 (digest_input tenant host expected c)).

Definition Envelope_new (tenant : TenantId) (host : HostId) (id : HostOperationId) (expected : HostRevisionFence)
    (c : HostCommand) : HostCommandEnvelope :=
  {| he_tenant_id := tenant; he_host_id := host; he_operation_id := id; he_expected := expected;
     he_command := c; he_command_digest := digest_command tenant host expected c |}.

(** [OperationIntent::rehydrate]: its checks *)
Definition intent_rehydrates (i : OperationIntent) : bool :=
  let t := target i.(oi_command) in
  let canonical := Envelope_new i.(oi_tenant_id) i.(oi_host_id) i.(oi_operation_id) i.(oi_expected)
                     (durable_request_command i.(oi_command)) in
  bool_decide (t.(t_tenant_id) = i.(oi_tenant_id)) && bool_decide (t.(t_host_id) = i.(oi_host_id)) &&
  bool_decide (canonical.(he_command_digest) = i.(oi_command_digest)) &&
  bool_decide (advance_and_acknowledge i.(oi_expected) = Some i.(oi_resulting)) &&
  durable_command_shape_is_valid i.(oi_command).
End digests.
End HostTypes.
