(* ===== verification/HostSupervisor.v ===== *)
(** * Host supervisor: the coordinator

    Models [crates/dtx-agent-host-supervisor/src/supervisor.rs] over the port traits
    of [ports.rs].  A port is a class of operations on a world [W] that holds
    everything outside the supervisor: the journal, the release catalog, the
    credential and material providers, the processes.  Programs that only use
    ports are [ST W]; the [&mut self] methods are [ST (HostSupervisor * W)].  A
    port may fail after it has taken effect, so that a failing call also stands for
    a crash at that point. *)

From S2P Require Import Prelude Domain WirePrimitives WireValues Connector ControlProof AgentHost HostTypes.

Module Supervisor.
Import HostTypes.

(** ** Ports *)

Inductive PortErrorKind : Type := Unavailable | Conflict | NotApproved | InvalidArtifact.
Global Instance PortErrorKind_eq_dec : EqDecision PortErrorKind.
Proof. solve_decision. Defined.
Notation PortError := PortErrorKind.

Record PreparedMaterialProof : Type := {
  pp_facts : ConnectorLifecycleFacts;
  pp_prepared_receipt : PreparedReceiptDigest;
  pp_credentials : BootstrapCredentialFacts;
  pp_observation : ProcessObservation
}.
Inductive PrepareMaterialResult : Type :=
| MaterialPrepared (proof : PreparedMaterialProof)
| MaterialExpiredUnclaimed.
Record FinalizedMaterialProof : Type := {
  fp_facts : ConnectorLifecycleFacts;
  fp_prepared_receipt : PreparedReceiptDigest;
  fp_finalized_receipt : FinalizedReceiptDigest;
  fp_credentials : BootstrapCredentialFacts;
  fp_observation : ProcessObservation
}.

Class Journal (W : Type) : Type := {
  lookup_record : HostId → HostOperationId → ST W PortError (option JournalRecord);
  load_snapshot : HostId → ST W PortError (option SupervisorSnapshot);
  persist_intent : OperationIntent → SupervisorSnapshot → ST W PortError unit;
  complete : OperationReceipt → SupervisorSnapshot → ST W PortError unit;
  pending_intents : HostId → ST W PortError (list OperationIntent);
  load_install_state : HostId → ConnectorId → ST W PortError (option InstallState)
}.
Class ReleaseCatalog (W : Type) : Type := {
  resolve_known : AdapterKind → ReleaseDigest → ST W PortError CatalogRelease;
  resolve_runnable : AdapterKind → ReleaseDigest → ST W PortError CatalogRelease
}.
Class CredentialArtifactProvider (W Artifact : Type) : Type :=
  materialize : HostOperationId → ConnectorTarget → CredentialArtifactRef → ST W PortError Artifact.
Class BootstrapMaterialProvider (W : Type) : Type := {
  material_prepare : HostOperationId → ConnectorLifecycleFacts → CatalogRelease → ST W PortError PrepareMaterialResult;
  material_finalize : HostOperationId → ConnectorLifecycleFacts → PreparedReceiptDigest → CatalogRelease →
    ST W PortError FinalizedMaterialProof
}.
Class ProcessController (W Artifact : Type) : Type := {
  process_ensure : ProcessMutationId → ConnectorTarget → CatalogRelease → ST W PortError ProcessObservation;
  process_start : ProcessMutationId → ConnectorTarget → CatalogRelease → CredentialArtifactRef →
    ST W PortError ProcessObservation;
  process_stop : ProcessMutationId → ConnectorTarget → ST W PortError ProcessObservation;
  process_restart : ProcessMutationId → ConnectorTarget → CatalogRelease → CredentialArtifactRef →
    ST W PortError ProcessObservation;
  restore_installed_runtime : ProcessMutationId → ConnectorTarget → CredentialArtifactRef → McpBearerRef →
    ST W PortError unit;
  process_rotate_credential : ProcessMutationId → ConnectorTarget → CredentialArtifactRef → Artifact →
    ST W PortError ProcessObservation;
  process_remove_retaining_data : ProcessMutationId → ConnectorTarget → ST W PortError ProcessObservation;
  process_observe : ConnectorTarget → ST W PortError ProcessObservation
}.

(** ** State and errors *)

Record HostSupervisor : Type := {
  tenant_id : TenantId;
  host_id : HostId;
  revisions : HostRevisionFence;
  instances : gmap ConnectorId ManagedConnectorSnapshot;
  install_states : gmap ConnectorId InstallState
}.
Definition HostSupervisor_eta (s : HostSupervisor) : HostSupervisor :=
  {| tenant_id := s.(tenant_id); host_id := s.(host_id); revisions := s.(revisions);
     instances := s.(instances); install_states := s.(install_states) |}.
Global Instance revisions_field : Field revisions := ltac:(field_of HostSupervisor_eta revisions).
Global Instance instances_field : Field instances := ltac:(field_of HostSupervisor_eta instances).
Global Instance install_states_field : Field install_states := ltac:(field_of HostSupervisor_eta install_states).

Definition Managed_eta (m : ManagedConnectorSnapshot) : ManagedConnectorSnapshot :=
  {| m_connector_id := m.(m_connector_id); m_adapter_kind := m.(m_adapter_kind); m_release := m.(m_release);
     m_desired_state := m.(m_desired_state); m_observation := m.(m_observation);
     m_credential_generation := m.(m_credential_generation); m_credential_ref := m.(m_credential_ref);
     m_credential_operation_id := m.(m_credential_operation_id) |}.
Global Instance m_desired_field : Field m_desired_state := ltac:(field_of Managed_eta m_desired_state).
Global Instance m_observation_field : Field m_observation := ltac:(field_of Managed_eta m_observation).
Global Instance m_generation_field : Field m_credential_generation := ltac:(field_of Managed_eta m_credential_generation).
Global Instance m_ref_field : Field m_credential_ref := ltac:(field_of Managed_eta m_credential_ref).
Global Instance m_operation_field : Field m_credential_operation_id := ltac:(field_of Managed_eta m_credential_operation_id).

Inductive ReleaseValidation : Type := Known | Runnable.

Inductive SupervisorSnapshotError : Type :=
| HostNotActive | SnapshotHostMismatch | InvalidRevisionFence | DuplicateConnector | SnapshotAdapterMismatch
| InvalidInstanceState | ReleaseNotApproved.

Inductive SupervisorError : Type :=
| HostBoundaryMismatch | StaleRevision (current : HostRevisionFence) | OperationConflict | PendingOperation
| ConnectorNotFound | ConnectorRemoved | ConnectorMustBeStopped | AdapterMismatch | ReleaseCapabilityMismatch
| RevisionExhausted | CredentialGenerationExhausted | CredentialRequired | CredentialUnchanged
| SnapshotDiverged | InvalidProcessObservation
| JournalError (e : PortError) | CatalogError (e : PortError) | CredentialError (e : PortError)
| MaterialError (e : PortError) | ProcessError (e : PortError)
| InstallCommandRequired | InstallExpired | InstallLifecycleConflict | InstallNotPrepared | InstallDigestMismatch
| InstallNotRunning | InstallProofInvalid.

(** [validate_durable_command_precondition], with its errors converted by [From]. *)
Definition validate_durable_command_precondition (existing : option ManagedConnectorSnapshot)
    (c : DurableHostCommand) : result SupervisorError unit :=
  let t := target c in
  match c with
  | Ensure _ _ =>
      match existing with
      | None => Ok tt
      | Some existing =>
          reject ConnectorRemoved when (existing.(m_desired_state) = RemovedRetainingData);;
          reject AdapterMismatch when (existing.(m_adapter_kind) ≠ t.(t_adapter_kind));;
          reject ConnectorMustBeStopped when (existing.(m_desired_state) = DesiredRunning)
      end
  | _ =>
      existing ← ok_or existing ConnectorNotFound;
      reject ConnectorRemoved when (existing.(m_desired_state) = RemovedRetainingData);;
      reject AdapterMismatch when (existing.(m_adapter_kind) ≠ t.(t_adapter_kind));;
      match c with
      | RotateCredential _ _ reference _ =>
          reject CredentialUnchanged when (existing.(m_credential_ref) = Some reference)
      | _ => Ok tt
      end
  end.

Definition snapshot (s : HostSupervisor) : SupervisorSnapshot :=
  {| ss_tenant_id := s.(tenant_id); ss_host_id := s.(host_id);
     ss_desired_revision := s.(revisions).(desired); ss_observed_revision := s.(revisions).(observed);
     ss_instances := btree_values s.(instances) |}.

Definition new (host : Host.AgentHost) : result SupervisorSnapshotError HostSupervisor :=
  reject HostNotActive when (host.(Host.lifecycle) ≠ Host.Active);;
  revisions ← map_err (λ _, InvalidRevisionFence)
                (from_revisions host.(Host.desired_revision) host.(Host.observed_revision));
  Ok {| tenant_id := host.(Host.tenant_id); host_id := host.(Host.host_id); revisions := revisions;
        instances := ∅; install_states := ∅ |}.

(** [self.target(..)] *)
Definition self_target (self : HostSupervisor) (id : ConnectorId) (kind : AdapterKind) : ConnectorTarget :=
  {| t_tenant_id := self.(tenant_id); t_host_id := self.(host_id); t_connector_id := id; t_adapter_kind := kind |}.

Definition ensure_envelope_boundary (self : HostSupervisor) (e : HostCommandEnvelope) : result SupervisorError unit :=
  if decide (e.(he_tenant_id) = self.(tenant_id) ∧ e.(he_host_id) = self.(host_id)) then Ok tt
  else Err HostBoundaryMismatch.

Definition usable_instance (self : HostSupervisor) (id : ConnectorId) : result SupervisorError ManagedConnectorSnapshot :=
  instance ← ok_or (self.(instances) !! id) ConnectorNotFound;
  if decide (instance.(m_desired_state) = RemovedRetainingData) then Err ConnectorRemoved else Ok instance.

Definition durable_command_matches (c : DurableHostCommand) (requested : HostCommand) : bool :=
  match c, requested with
  | Ensure t release, HEnsure id kind digest =>
      bool_decide (t.(t_connector_id) = id ∧ t.(t_adapter_kind) = kind ∧ release.(cr_adapter_kind) = kind
                   ∧ opaque_bytes release.(cr_digest) = opaque_bytes digest)
  | Start t _ _ _, HStart id | Stop t, HStop id | Restart t _ _ _, HRestart id =>
      bool_decide (t.(t_connector_id) = id)
  | RotateCredential t _ durable_reference _, HRotateCredential id requested_reference =>
      bool_decide (t.(t_connector_id) = id ∧ opaque_bytes durable_reference = opaque_bytes requested_reference)
  | RemoveRetaining t, HRemove id RetainData => bool_decide (t.(t_connector_id) = id)
  | PrepareConnectorMaterial durable, HPrepareConnectorMaterial requested => bool_decide (durable = requested)
  | FinalizeConnectorMaterial durable durable_receipt, HFinalizeConnectorMaterial requested requested_receipt =>
      bool_decide (durable = requested ∧ durable_receipt = requested_receipt)
  | _, _ => false
  end.

Definition validate_intent_for_envelope (i : OperationIntent) (e : HostCommandEnvelope) : result SupervisorError unit :=
  reject OperationConflict
    when (i.(oi_operation_id) ≠ e.(he_operation_id) ∨ i.(oi_command_digest) ≠ e.(he_command_digest)
          ∨ i.(oi_expected) ≠ e.(he_expected) ∨ durable_command_matches i.(oi_command) e.(he_command) = false).

Definition running_or_failed (o : ProcessObservation) : bool :=
  match o with ObservedRunning | Failed => true | _ => false end.

Definition observation_is_valid (self : HostSupervisor) (c : DurableHostCommand) (o : ProcessObservation) : bool :=
  match c with
  | Ensure _ _ | Stop _ => bool_decide (o = ObservedStopped)
  | Start _ _ _ _ | Restart _ _ _ _ => running_or_failed o
  | RotateCredential t _ _ _ =>
      match self.(instances) !! t.(t_connector_id) with
      | Some instance =>
          match instance.(m_desired_state) with
          | DesiredRunning => running_or_failed o
          | EnsuredStopped | DesiredStopped => bool_decide (o = ObservedStopped)
          | RemovedRetainingData => false
          end
      | None => false
      end
  | RemoveRetaining _ => bool_decide (o = Absent)
  | PrepareConnectorMaterial _ => bool_decide (o = ObservedStopped)
  | FinalizeConnectorMaterial _ _ => bool_decide (o = ObservedRunning)
  end.

(** [let instance = self.instance_mut(id)?; ..] *)
Definition instance_mut (id : ConnectorId) (f : ManagedConnectorSnapshot → ManagedConnectorSnapshot)
    (self : HostSupervisor) : result SupervisorError HostSupervisor :=
  instance ← ok_or (self.(instances) !! id) SnapshotDiverged;
  Ok (self <| instances := <[id := f instance]> self.(instances) |>).

Definition apply_state (operation_id : HostOperationId) (c : DurableHostCommand) (o : ProcessObservation)
    (self : HostSupervisor) : result SupervisorError HostSupervisor :=
  reject InvalidProcessObservation when (observation_is_valid self c o = false);;
  match c with
  | Ensure t release =>
      let '(generation, reference, operation) :=
        match self.(instances) !! t.(t_connector_id) with
        | Some i => (i.(m_credential_generation), i.(m_credential_ref), i.(m_credential_operation_id))
        | None => (0, None, None)
        end in
      Ok (self <| instances := <[t.(t_connector_id) :=
        {| m_connector_id := t.(t_connector_id); m_adapter_kind := t.(t_adapter_kind); m_release := release;
           m_desired_state := EnsuredStopped; m_observation := o; m_credential_generation := generation;
           m_credential_ref := reference; m_credential_operation_id := operation |}]> self.(instances) |>)
  | Start t _ _ _ | Restart t _ _ _ =>
      instance_mut t.(t_connector_id) (λ i, i <| m_desired_state := DesiredRunning |> <| m_observation := o |>) self
  | Stop t =>
      instance_mut t.(t_connector_id) (λ i, i <| m_desired_state := DesiredStopped |> <| m_observation := o |>) self
  | RotateCredential t _ reference generation =>
      instance_mut t.(t_connector_id) (λ i, i <| m_credential_generation := generation |>
        <| m_credential_ref := Some reference |> <| m_credential_operation_id := Some operation_id |>
        <| m_observation := o |>) self
  | RemoveRetaining t =>
      instance_mut t.(t_connector_id)
        (λ i, i <| m_desired_state := RemovedRetainingData |> <| m_observation := o |>) self
  | PrepareConnectorMaterial _ | FinalizeConnectorMaterial _ _ => Err InstallCommandRequired
  end.

Definition apply_policy_blocked_state (c : DurableHostCommand) (self : HostSupervisor) :
    result SupervisorError HostSupervisor :=
  match c with
  | Start _ _ _ _ | Restart _ _ _ _ =>
      instance_mut (target c).(t_connector_id)
        (λ i, i <| m_desired_state := DesiredStopped |> <| m_observation := ObservedStopped |>) self
  | _ => Err SnapshotDiverged
  end.

Definition current_outcome_with_disposition (self : HostSupervisor) (id : ConnectorId) (d : CommandDisposition) :
    result SupervisorError CommandOutcome :=
  instance ← ok_or (self.(instances) !! id) SnapshotDiverged;
  Ok {| co_connector_id := id; co_revisions := self.(revisions); co_disposition := d;
        co_desired_state := instance.(m_desired_state); co_observation := instance.(m_observation);
        co_credential_generation := instance.(m_credential_generation) |}.
Definition current_outcome (self : HostSupervisor) (id : ConnectorId) : result SupervisorError CommandOutcome :=
  current_outcome_with_disposition self id Applied.

Definition command_outcome_is_valid (c : DurableHostCommand) (o : CommandOutcome) : bool :=
  let d := o.(co_desired_state) in
  let ob := o.(co_observation) in
  match o.(co_disposition) with
  | PolicyBlocked =>
      match c with Start _ _ _ _ | Restart _ _ _ _ => true | _ => false end &&
      bool_decide (d = DesiredStopped ∧ ob = ObservedStopped)
  | ExpiredUnclaimed => match c with PrepareConnectorMaterial _ => true | _ => false end
  | Applied =>
      match c with
      | Ensure _ _ => bool_decide (d = EnsuredStopped ∧ ob = ObservedStopped)
      | Start _ _ _ _ | Restart _ _ _ _ => bool_decide (d = DesiredRunning ∧ (ob = ObservedRunning ∨ ob = Failed))
      | Stop _ => bool_decide (d = DesiredStopped ∧ ob = ObservedStopped)
      | RotateCredential _ _ _ generation =>
          bool_decide (o.(co_credential_generation) = generation) &&
          bool_decide (d = DesiredRunning ∧ (ob = ObservedRunning ∨ ob = Failed)
                       ∨ (d = EnsuredStopped ∨ d = DesiredStopped) ∧ ob = ObservedStopped)
      | RemoveRetaining _ => bool_decide (d = RemovedRetainingData ∧ ob = Absent)
      | PrepareConnectorMaterial _ => true
      | FinalizeConnectorMaterial _ _ => bool_decide (d = DesiredRunning ∧ ob = ObservedRunning)
      end
  end.

Definition validate_installed_runtime_target (self : HostSupervisor) (t : ConnectorTarget)
    (release : CatalogRelease) (reference : CredentialArtifactRef) : result SupervisorError unit :=
  match self.(install_states) !! t.(t_connector_id) with
  | None => Ok tt
  | Some state =>
      let facts := install_facts state in
      reject InstallLifecycleConflict
        when (facts.(lf_tenant_id) ≠ self.(tenant_id) ∨ facts.(lf_host_id) ≠ self.(host_id)
              ∨ facts.(lf_connector_id) ≠ t.(t_connector_id) ∨ facts.(lf_adapter_kind) ≠ t.(t_adapter_kind)
              ∨ facts.(lf_release_digest) ≠ release.(cr_digest)
              ∨ (install_credentials state).(bc_credential_ref) ≠ reference)
  end.

Definition validate_prepared_proof (p : PreparedMaterialProof) (facts : ConnectorLifecycleFacts) (host : HostId) :
    result SupervisorError unit :=
  reject InstallProofInvalid
    when (p.(pp_facts) ≠ facts ∨ facts.(lf_host_id) ≠ host ∨ p.(pp_credentials).(bc_generation) = 0
          ∨ p.(pp_credentials).(bc_revision) = 0).

Definition validate_finalized_proof (p : FinalizedMaterialProof) (facts : ConnectorLifecycleFacts)
    (receipt : PreparedReceiptDigest) (expected : BootstrapCredentialFacts) : result SupervisorError unit :=
  reject InstallProofInvalid
    when (p.(fp_facts) ≠ facts ∨ p.(fp_prepared_receipt) ≠ receipt ∨ p.(fp_credentials).(bc_generation) = 0
          ∨ p.(fp_credentials).(bc_revision) = 0 ∨ p.(fp_credentials) ≠ expected).

(** ** Methods over the ports *)

Section methods.
Context {W Artifact : Type}.
Context `{J : !Journal W} `{R : !ReleaseCatalog W} `{C : !CredentialArtifactProvider W Artifact}.
Context `{M : !BootstrapMaterialProvider W} `{P : !ProcessController W Artifact}.

(** A program over the ports, and a [&mut self] method over them. *)
Notation IO := (ST W SupervisorError).
Notation Op := (ST (HostSupervisor * W) SupervisorError).

(** [port.operation(..).map_err(SupervisorError::Port)] *)
Definition port {E F A} (f : E → F) (m : ST W E A) : ST W F A := λ w,
  let '(r, w) := m w in (map_err f r, w).
(** The ports do not see the supervisor. *)
Definition io {A} (m : IO A) : Op A := λ s, let '(r, w) := m s.2 in (r, (s.1, w)).
Definition self : Op HostSupervisor := λ s, (Ok s.1, s).
Definition set_self (self : HostSupervisor) : Op unit := λ s, (Ok tt, (self, s.2)).

(** *** Reload *)

Definition instance_is_valid (i : ManagedConnectorSnapshot) : bool :=
  bool_decide (i.(m_credential_generation) ≤ Revision.MAX) &&
  bool_decide (i.(m_credential_generation) = 0 ↔ i.(m_credential_ref) = None) &&
  bool_decide (i.(m_credential_ref) = None ↔ i.(m_credential_operation_id) = None) &&
  snapshot_observation_is_valid i.(m_desired_state) i.(m_observation).

(** the loop over [snapshot.instances] *)
Fixpoint load_instances (l : list ManagedConnectorSnapshot) (acc : gmap ConnectorId ManagedConnectorSnapshot) :
    ST W SupervisorSnapshotError (gmap ConnectorId ManagedConnectorSnapshot) :=
  match l with
  | [] => mret acc
  | instance :: l =>
      lift (reject SnapshotAdapterMismatch when (instance.(m_release).(cr_adapter_kind) ≠ instance.(m_adapter_kind)));;
      lift (reject InvalidInstanceState when (instance_is_valid instance = false));;
      approved ← port (λ _, ReleaseNotApproved)
                   (resolve_known instance.(m_adapter_kind) instance.(m_release).(cr_digest));
      lift (reject ReleaseNotApproved when (approved ≠ instance.(m_release)));;
      load_instances l (<[instance.(m_connector_id) := instance]> acc)
  end.

Definition try_from_snapshot (host : Host.AgentHost) (s : SupervisorSnapshot) :
    ST W SupervisorSnapshotError HostSupervisor :=
  lift (reject HostNotActive when (host.(Host.lifecycle) ≠ Host.Active));;
  lift (reject SnapshotHostMismatch
    when (s.(ss_tenant_id) ≠ host.(Host.tenant_id) ∨ s.(ss_host_id) ≠ host.(Host.host_id)));;
  fence ← lift (map_err (λ _, InvalidRevisionFence)
                  (from_revisions s.(ss_desired_revision) s.(ss_observed_revision)));
  lift (reject DuplicateConnector when (validate_snapshot_ids s.(ss_instances) = false));;
  lift (reject InvalidInstanceState
    when (s.(ss_instances) ≠ [] ∧ (fence.(desired) = Revision.INITIAL ∨ fence.(observed) ≠ Some fence.(desired))));;
  instances ← load_instances s.(ss_instances) ∅;
  mret {| tenant_id := s.(ss_tenant_id); host_id := s.(ss_host_id); revisions := fence;
          instances := instances; install_states := ∅ |}.

Definition rehydrate_install_state (id : ConnectorId) : Op unit :=
  self ← self;
  state ← io (port JournalError (load_install_state self.(host_id) id));
  match state with
  | None => mret tt
  | Some state =>
      let facts := install_facts state in
      lift (reject SnapshotDiverged
        when (facts.(lf_host_id) ≠ self.(host_id) ∨ facts.(lf_tenant_id) ≠ self.(tenant_id)
              ∨ facts.(lf_connector_id) ≠ id));;
      set_self (self <| install_states := <[id := state]> self.(install_states) |>)
  end.

(** *** Releases *)

Definition ensure_release_runnable (release : CatalogRelease) : IO unit :=
  approved ← port CatalogError (resolve_runnable release.(cr_adapter_kind) release.(cr_digest));
  lift (reject ReleaseCapabilityMismatch when (approved ≠ release)).

Definition ensure_release_known (release : CatalogRelease) : IO unit :=
  known ← port CatalogError (resolve_known release.(cr_adapter_kind) release.(cr_digest));
  lift (reject ReleaseCapabilityMismatch when (known ≠ release)).

Definition validate_release (release : CatalogRelease) (v : ReleaseValidation) : IO unit :=
  match v with Known => ensure_release_known release | Runnable => ensure_release_runnable release end.

(** the [release] field of a command that has one *)
Definition command_release (c : DurableHostCommand) : option CatalogRelease :=
  match c with
  | Ensure _ release | Start _ release _ _ | Restart _ release _ _ | RotateCredential _ release _ _ => Some release
  | Stop _ | RemoveRetaining _ | PrepareConnectorMaterial _ | FinalizeConnectorMaterial _ _ => None
  end.

(** *** Resolving a request *)

Definition resolve_command (self : HostSupervisor) (c : HostCommand) : IO DurableHostCommand :=
  match c with
  | HEnsure id kind digest =>
      match self.(install_states) !! id with
      | Some state =>
          lift (reject InstallLifecycleConflict
            when ((install_facts state).(lf_adapter_kind) ≠ kind ∨ (install_facts state).(lf_release_digest) ≠ digest))
      | None => mret tt
      end;;
      match self.(instances) !! id with
      | Some existing =>
          lift (reject ConnectorRemoved when (existing.(m_desired_state) = RemovedRetainingData));;
          lift (reject AdapterMismatch when (existing.(m_adapter_kind) ≠ kind));;
          lift (reject ConnectorMustBeStopped when (existing.(m_desired_state) = DesiredRunning))
      | None => mret tt
      end;;
      release ← port CatalogError (resolve_runnable kind digest);
      lift (reject ReleaseCapabilityMismatch
        when (release.(cr_adapter_kind) ≠ kind ∨ release.(cr_digest) ≠ digest));;
      mret (Ensure (self_target self id kind) release)
  | HStart id =>
      instance ← lift (usable_instance self id);
      ensure_release_runnable instance.(m_release);;
      reference ← lift (ok_or instance.(m_credential_ref) CredentialRequired);
      operation ← lift (ok_or instance.(m_credential_operation_id) CredentialRequired);
      mret (Start (self_target self id instance.(m_adapter_kind)) instance.(m_release) reference operation)
  | HStop id =>
      instance ← lift (usable_instance self id);
      mret (Stop (self_target self id instance.(m_adapter_kind)))
  | HRestart id =>
      instance ← lift (usable_instance self id);
      ensure_release_runnable instance.(m_release);;
      reference ← lift (ok_or instance.(m_credential_ref) CredentialRequired);
      operation ← lift (ok_or instance.(m_credential_operation_id) CredentialRequired);
      mret (Restart (self_target self id instance.(m_adapter_kind)) instance.(m_release) reference operation)
  | HRotateCredential id reference =>
      lift (reject InstallLifecycleConflict when (is_Some (self.(install_states) !! id)));;
      instance ← lift (usable_instance self id);
      ensure_release_runnable instance.(m_release);;
      lift (reject CredentialUnchanged when (instance.(m_credential_ref) = Some reference));;
      generation ← lift (reject CredentialGenerationExhausted
                           when (instance.(m_credential_generation) + 1 > Revision.MAX);;
                         Ok (instance.(m_credential_generation) + 1));
      mret (RotateCredential (self_target self id instance.(m_adapter_kind)) instance.(m_release) reference generation)
  | HRemove id RetainData =>
      instance ← lift (usable_instance self id);
      mret (RemoveRetaining (self_target self id instance.(m_adapter_kind)))
  | HPrepareConnectorMaterial facts => mret (PrepareConnectorMaterial facts)
  | HFinalizeConnectorMaterial facts receipt => mret (FinalizeConnectorMaterial facts receipt)
  end.

(** *** Checking a durable intent against the supervisor *)

(** the last [match] of [validate_intent] *)
Definition validate_intent_state (self : HostSupervisor) (c : DurableHostCommand) (at_expected at_resulting : bool)
    (v : ReleaseValidation) : IO unit :=
  let t := target c in
  let instance := self.(instances) !! t.(t_connector_id) in
  match c with
  | Ensure _ release =>
      validate_release release v;;
      lift (reject ReleaseCapabilityMismatch when (release.(cr_adapter_kind) ≠ t.(t_adapter_kind)));;
      lift (match instance with
            | Some existing =>
                reject AdapterMismatch when (existing.(m_adapter_kind) ≠ t.(t_adapter_kind));;
                reject ConnectorRemoved when (at_expected = true ∧ existing.(m_desired_state) = RemovedRetainingData);;
                reject SnapshotDiverged when (at_resulting = true ∧ existing.(m_release) ≠ release)
            | None => reject SnapshotDiverged when (at_resulting = true)
            end)
  | Start _ release reference operation | Restart _ release reference operation =>
      validate_release release v;;
      lift (existing ← ok_or instance SnapshotDiverged;
            reject SnapshotDiverged
              when (existing.(m_adapter_kind) ≠ t.(t_adapter_kind) ∨ existing.(m_release) ≠ release);;
            reject ConnectorRemoved when (at_expected = true ∧ existing.(m_desired_state) = RemovedRetainingData);;
            reject SnapshotDiverged
              when (existing.(m_credential_ref) ≠ Some reference ∨ existing.(m_credential_operation_id) ≠ Some operation);;
            validate_installed_runtime_target self t release reference)
  | RotateCredential _ release reference generation =>
      validate_release release v;;
      lift (existing ← ok_or instance SnapshotDiverged;
            reject SnapshotDiverged
              when (existing.(m_adapter_kind) ≠ t.(t_adapter_kind) ∨ existing.(m_release) ≠ release);;
            reject ConnectorRemoved when (at_expected = true ∧ existing.(m_desired_state) = RemovedRetainingData);;
            let expected_generation :=
              if at_expected then existing.(m_credential_generation) + 1 else existing.(m_credential_generation) in
            reject SnapshotDiverged when (expected_generation ≠ generation ∨ generation > Revision.MAX))
  | Stop _ | RemoveRetaining _ =>
      lift (existing ← ok_or instance SnapshotDiverged;
            reject AdapterMismatch when (existing.(m_adapter_kind) ≠ t.(t_adapter_kind));;
            reject ConnectorRemoved when (at_expected = true ∧ existing.(m_desired_state) = RemovedRetainingData))
  | PrepareConnectorMaterial _ | FinalizeConnectorMaterial _ _ => mret tt
  end.

Definition validate_intent (self : HostSupervisor) (i : OperationIntent) (v : ReleaseValidation) : IO unit :=
  lift (reject HostBoundaryMismatch when (i.(oi_tenant_id) ≠ self.(tenant_id) ∨ i.(oi_host_id) ≠ self.(host_id)));;
  lift (reject SnapshotDiverged when (advance_and_acknowledge i.(oi_expected) ≠ Some i.(oi_resulting)));;
  let at_expected := bool_decide (self.(revisions) = i.(oi_expected)) in
  let at_resulting := bool_decide (self.(revisions) = i.(oi_resulting)) in
  let historical := bool_decide (self.(revisions).(desired) > i.(oi_resulting).(desired)) in
  lift (reject SnapshotDiverged when (at_expected || at_resulting || historical = false));;
  let c := i.(oi_command) in
  let t := target c in
  lift (reject HostBoundaryMismatch when (t.(t_tenant_id) ≠ self.(tenant_id) ∨ t.(t_host_id) ≠ self.(host_id)));;
  lift (match command_release c with
        | Some release => reject ReleaseCapabilityMismatch when (release.(cr_adapter_kind) ≠ t.(t_adapter_kind))
        | None => Ok tt
        end);;
  lift (match c with
        | RotateCredential _ _ _ generation =>
            reject SnapshotDiverged when (generation = 0 ∨ generation > Revision.MAX)
        | _ => Ok tt
        end);;
  if historical then
    match command_release c with Some release => validate_release release v | None => mret tt end
  else
    lift (match c with
          | RotateCredential _ _ _ _ =>
              reject InstallLifecycleConflict when (is_Some (self.(install_states) !! t.(t_connector_id)))
          | _ => Ok tt
          end);;
    lift (if at_expected then validate_durable_command_precondition (self.(instances) !! t.(t_connector_id)) c
          else Ok tt);;
    validate_intent_state self c at_expected at_resulting v.

(** *** Effects *)

Definition restore_installed_runtime_if_needed (self : HostSupervisor) (id : ProcessMutationId) (t : ConnectorTarget)
    (release : CatalogRelease) (reference : CredentialArtifactRef) : IO unit :=
  match self.(install_states) !! t.(t_connector_id) with
  | None => mret tt
  | Some state =>
      lift (validate_installed_runtime_target self t release reference);;
      port ProcessError (restore_installed_runtime id t reference (install_credentials state).(bc_mcp_bearer_ref))
  end.

Definition apply_process (self : HostSupervisor) (i : OperationIntent) : IO ProcessObservation :=
  let id := requested i.(oi_operation_id) in
  observation ←
    match i.(oi_command) with
    | Ensure t release => port ProcessError (process_ensure id t release)
    | Start t release reference _ =>
        restore_installed_runtime_if_needed self id t release reference;;
        port ProcessError (process_start id t release reference)
    | Stop t => port ProcessError (process_stop id t)
    | Restart t release reference _ =>
        restore_installed_runtime_if_needed self id t release reference;;
        port ProcessError (process_restart id t release reference)
    | RotateCredential t _ reference _ =>
        artifact ← port CredentialError (materialize i.(oi_operation_id) t reference);
        port ProcessError (process_rotate_credential id t reference artifact)
    | RemoveRetaining t => port ProcessError (process_remove_retaining_data id t)
    | PrepareConnectorMaterial _ | FinalizeConnectorMaterial _ _ => throw InstallCommandRequired
    end;
  lift (reject InvalidProcessObservation when (observation_is_valid self i.(oi_command) observation = false));;
  mret observation.

(** [OperationReceipt::new] and [with_install_proof] *)
Definition receipt_of (i : OperationIntent) (o : CommandOutcome) (p : option InstallProof) : OperationReceipt :=
  {| or_operation_id := i.(oi_operation_id); or_command_digest := i.(oi_command_digest);
     or_outcome := o; or_install_proof := p |}.

Definition apply_intent (i : OperationIntent) (application : CommandApplication) : Op CommandResult :=
  self ← self;
  let v := match application, i.(oi_command) with
           | ByReconciling, (Ensure _ _ | RotateCredential _ _ _ _) => Known
           | _, _ => Runnable
           end in
  io (validate_intent self i v);;
  lift (reject SnapshotDiverged when (self.(revisions) ≠ i.(oi_expected) ∧ self.(revisions) ≠ i.(oi_resulting)));;
  let id := (target i.(oi_command)).(t_connector_id) in
  if decide (self.(revisions) = i.(oi_resulting)) then
    outcome ← lift (current_outcome self id);
    lift (reject SnapshotDiverged when (command_outcome_is_valid i.(oi_command) outcome = false));;
    io (port JournalError (complete (receipt_of i outcome None) (snapshot self)));;
    mret (MkCommandResult application outcome)
  else
    observation ← io (apply_process self i);
    staged ← lift (apply_state i.(oi_operation_id) i.(oi_command) observation self);
    let staged := staged <| revisions := i.(oi_resulting) |> in
    outcome ← lift (current_outcome staged id);
    io (port JournalError (complete (receipt_of i outcome None) (snapshot staged)));;
    set_self staged;;
    mret (MkCommandResult application outcome).

Definition restore_completed (i : OperationIntent) (receipt : OperationReceipt) : Op CommandResult :=
  self ← self;
  let o := receipt.(or_outcome) in
  lift (reject SnapshotDiverged
    when (receipt.(or_operation_id) ≠ i.(oi_operation_id) ∨ receipt.(or_command_digest) ≠ i.(oi_command_digest)
          ∨ (o.(co_revisions) ≠ i.(oi_resulting)
             ∧ ¬ (o.(co_disposition) = ExpiredUnclaimed ∧ o.(co_revisions) = i.(oi_expected)))
          ∨ o.(co_connector_id) ≠ (target i.(oi_command)).(t_connector_id)
          ∨ command_outcome_is_valid i.(oi_command) o = false));;
  io (validate_intent self i Known);;
  if decide (o.(co_disposition) = ExpiredUnclaimed) then mret (MkCommandResult ByReplay o)
  else if decide (self.(revisions).(desired) > i.(oi_resulting).(desired)) then mret (MkCommandResult ByReplay o)
  else if decide (self.(revisions) = i.(oi_expected)) then
    staged ← lift (if decide (o.(co_disposition) = PolicyBlocked) then apply_policy_blocked_state i.(oi_command) self
                   else apply_state i.(oi_operation_id) i.(oi_command) o.(co_observation) self);
    let staged := staged <| revisions := i.(oi_resulting) |> in
    current ← lift (current_outcome_with_disposition staged o.(co_connector_id) o.(co_disposition));
    lift (reject SnapshotDiverged when (current ≠ o));;
    set_self staged;;
    mret (MkCommandResult ByReplay o)
  else
    current ← lift (current_outcome_with_disposition self o.(co_connector_id) o.(co_disposition));
    lift (reject SnapshotDiverged when (current ≠ o));;
    mret (MkCommandResult ByReplay o).

Definition pending_start_is_policy_blocked (i : OperationIntent) : IO bool :=
  match i.(oi_command) with
  | Start _ release _ _ | Restart _ release _ _ =>
      λ w, match resolve_runnable release.(cr_adapter_kind) release.(cr_digest) w with
           | (Ok current, w) => if decide (current = release) then (Ok false, w) else (Err ReleaseCapabilityMismatch, w)
           | (Err NotApproved, w) => (Ok true, w)
           | (Err e, w) => (Err (CatalogError e), w)
           end
  | _ => mret false
  end.

Definition reconcile_policy_blocked_start (i : OperationIntent) : Op CommandResult :=
  self ← self;
  io (validate_intent self i Known);;
  lift (reject SnapshotDiverged when (self.(revisions) ≠ i.(oi_expected)));;
  let t := target i.(oi_command) in
  observation ← io (port ProcessError (process_stop (policy_compensation i.(oi_operation_id)) t));
  lift (reject InvalidProcessObservation when (observation ≠ ObservedStopped));;
  staged ← lift (apply_policy_blocked_state i.(oi_command) self);
  let staged := staged <| revisions := i.(oi_resulting) |> in
  outcome ← lift (current_outcome_with_disposition staged t.(t_connector_id) PolicyBlocked);
  io (port JournalError (complete (receipt_of i outcome None) (snapshot staged)));;
  set_self staged;;
  mret (MkCommandResult ByReconciling outcome).

(** *** Entry points *)

Definition observe (id : ConnectorId) : Op ProcessObservation :=
  self ← self;
  instance ← lift (ok_or (self.(instances) !! id) ConnectorNotFound);
  io (port ProcessError (process_observe (self_target self id instance.(m_adapter_kind)))).

Definition execute (e : HostCommandEnvelope) : Op CommandResult :=
  self ← self;
  lift (ensure_envelope_boundary self e);;
  record ← io (port JournalError (lookup_record self.(host_id) e.(he_operation_id)));
  match record with
  | Some (RCompleted i receipt) =>
      lift (validate_intent_for_envelope i e);;
      restore_completed i receipt
  | Some (RPending i) =>
      lift (validate_intent_for_envelope i e);;
      blocked ← io (pending_start_is_policy_blocked i);
      if blocked : bool then reconcile_policy_blocked_start i else apply_intent i ByReconciling
  | None =>
      pending ← io (port JournalError (pending_intents self.(host_id)));
      lift (reject PendingOperation when (pending ≠ []));;
      lift (reject (StaleRevision self.(revisions)) when (e.(he_expected) ≠ self.(revisions)));;
      c ← io (resolve_command self e.(he_command));
      resulting ← lift (ok_or (advance_and_acknowledge self.(revisions)) RevisionExhausted);
      let i := OperationIntent_new e resulting c in
      io (port JournalError (persist_intent i (snapshot self)));;
      apply_intent i ByApplying
  end.

Definition reconcile : Op (list CommandResult) :=
  self ← self;
  pending ← io (port JournalError (pending_intents self.(host_id)));
  lift (reject SnapshotDiverged when (1 < length pending)%nat);;
  match pending with
  | [] => mret []
  | i :: _ =>
      blocked ← io (pending_start_is_policy_blocked i);
      result ← (if blocked : bool then reconcile_policy_blocked_start i else apply_intent i ByReconciling);
      mret [result]
  end.

(** *** Install material *)

Definition install_receipt_matches (c : DurableHostCommand) (d : CommandDisposition) (p : option InstallProof) : bool :=
  match c, d, p with
  | PrepareConnectorMaterial facts, Applied, Some (Prepared proof_facts _ _ _) => bool_decide (facts = proof_facts)
  | PrepareConnectorMaterial _, ExpiredUnclaimed, None => true
  | FinalizeConnectorMaterial facts receipt, Applied, Some (Finalized proof_facts proof_receipt _ _ _) =>
      bool_decide (facts = proof_facts ∧ receipt = proof_receipt)
  | _, _, _ => false
  end.

Definition restore_install_completed (i : OperationIntent) (receipt : OperationReceipt) : Op CommandResult :=
  self ← self;
  let o := receipt.(or_outcome) in
  lift (reject SnapshotDiverged
    when (receipt.(or_operation_id) ≠ i.(oi_operation_id) ∨ receipt.(or_command_digest) ≠ i.(oi_command_digest)
          ∨ command_outcome_is_valid i.(oi_command) o = false));;
  lift (reject SnapshotDiverged
    when (install_receipt_matches i.(oi_command) o.(co_disposition) receipt.(or_install_proof) = false));;
  match receipt.(or_install_proof) with
  | Some proof =>
      set_self (self <| install_states :=
                  <[(install_facts proof).(lf_connector_id) := proof]> self.(install_states) |>)
  | None => mret tt
  end;;
  mret (MkCommandResult ByReplay o).

(** [resolve_runnable(..).or_else(..)] *)
Definition resolve_for_prepare (retrying : bool) (facts : ConnectorLifecycleFacts) : IO CatalogRelease := λ w,
  let '(r, w) := resolve_runnable facts.(lf_adapter_kind) facts.(lf_release_digest) w in
  match r with
  | Err NotApproved =>
      if retrying then port CatalogError (resolve_known facts.(lf_adapter_kind) facts.(lf_release_digest)) w
      else (Err (CatalogError NotApproved), w)
  | r => (map_err CatalogError r, w)
  end.

(** what follows the journal lookup and is common to a first attempt and a retry *)
Definition prepare_material (e : HostCommandEnvelope) (facts : ConnectorLifecycleFacts) (retrying : bool) :
    Op CommandResult :=
  self ← self;
  lift (reject HostBoundaryMismatch when (facts.(lf_tenant_id) ≠ self.(tenant_id) ∨ facts.(lf_host_id) ≠ self.(host_id)));;
  let id := facts.(lf_connector_id) in
  let existing := self.(instances) !! id in
  lift (match existing with
        | Some existing =>
            reject InstallLifecycleConflict
              when (existing.(m_desired_state) = RemovedRetainingData ∨ existing.(m_desired_state) = DesiredRunning
                    ∨ existing.(m_adapter_kind) ≠ facts.(lf_adapter_kind)
                    ∨ existing.(m_release).(cr_digest) ≠ facts.(lf_release_digest))
        | None => Ok tt
        end);;
  lift (reject InstallLifecycleConflict when (is_Some (self.(install_states) !! id)));;
  release ← io (resolve_for_prepare retrying facts);
  lift (reject ReleaseCapabilityMismatch
    when (release.(cr_digest) ≠ facts.(lf_release_digest) ∨ release.(cr_adapter_kind) ≠ facts.(lf_adapter_kind)));;
  resulting ← lift (ok_or (advance_and_acknowledge self.(revisions)) RevisionExhausted);
  let i := OperationIntent_new e resulting (PrepareConnectorMaterial facts) in
  let predecessor := snapshot self in
  io (port JournalError (persist_intent i predecessor));;
  prepared ← io (port MaterialError (material_prepare i.(oi_operation_id) facts release));
  match prepared with
  | MaterialExpiredUnclaimed =>
      let outcome :=
        {| co_connector_id := id; co_revisions := i.(oi_expected); co_disposition := ExpiredUnclaimed;
           co_desired_state := from_option m_desired_state EnsuredStopped existing;
           co_observation := from_option m_observation Absent existing;
           co_credential_generation := from_option m_credential_generation 0 existing |} in
      io (port JournalError (complete (receipt_of i outcome None) predecessor));;
      mret (MkCommandResult ByApplying outcome)
  | MaterialPrepared proof =>
      lift (validate_prepared_proof proof facts self.(host_id));;
      let generation := from_option m_credential_generation 1 existing in
      lift (reject InstallProofInvalid
        when (proof.(pp_credentials).(bc_generation) ≠ generation ∨ (existing = None ∧ generation ≠ 1)));;
      lift (reject InvalidProcessObservation when (proof.(pp_observation) ≠ ObservedStopped));;
      let t := self_target self id facts.(lf_adapter_kind) in
      let instance :=
        {| m_connector_id := id; m_adapter_kind := t.(t_adapter_kind); m_release := release;
           m_desired_state := EnsuredStopped; m_observation := ObservedStopped; m_credential_generation := generation;
           m_credential_ref := Some proof.(pp_credentials).(bc_credential_ref);
           m_credential_operation_id := Some i.(oi_operation_id) |} in
      let state := Prepared facts proof.(pp_prepared_receipt) proof.(pp_credentials) proof.(pp_observation) in
      let staged := self <| instances := <[id := instance]> self.(instances) |>
                         <| install_states := <[id := state]> self.(install_states) |>
                         <| revisions := i.(oi_resulting) |> in
      outcome ← lift (current_outcome staged id);
      io (port JournalError (complete (receipt_of i outcome (Some state)) (snapshot staged)));;
      set_self staged;;
      mret (MkCommandResult ByApplying outcome)
  end.

Definition prepare_connector_material (e : HostCommandEnvelope) : Op CommandResult :=
  self ← self;
  lift (ensure_envelope_boundary self e);;
  match e.(he_command) with
  | HPrepareConnectorMaterial facts =>
      record ← io (port JournalError (lookup_record self.(host_id) e.(he_operation_id)));
      match record with
      | Some (RCompleted i receipt) =>
          lift (validate_intent_for_envelope i e);;
          restore_install_completed i receipt
      | Some (RPending i) => lift (validate_intent_for_envelope i e);; prepare_material e facts true
      | None => prepare_material e facts false
      end
  | _ => throw InstallCommandRequired
  end.

(** what follows the journal lookup *)
Definition finalize_material (e : HostCommandEnvelope) (facts : ConnectorLifecycleFacts)
    (receipt : PreparedReceiptDigest) : Op CommandResult :=
  self ← self;
  let id := facts.(lf_connector_id) in
  match self.(install_states) !! id with
  | Some (Prepared stored stored_receipt expected_credentials _) =>
      lift (reject InstallDigestMismatch when (stored ≠ facts ∨ stored_receipt ≠ receipt));;
      instance ← lift (ok_or (self.(instances) !! id) ConnectorNotFound);
      lift (reject InstallNotRunning when (instance.(m_desired_state) ≠ DesiredRunning));;
      let t := self_target self id facts.(lf_adapter_kind) in
      observation ← io (port ProcessError (process_observe t));
      lift (reject InstallNotRunning when (observation ≠ ObservedRunning));;
      release ← io (port CatalogError (resolve_known facts.(lf_adapter_kind) facts.(lf_release_digest)));
      lift (reject ReleaseCapabilityMismatch when (release.(cr_digest) ≠ facts.(lf_release_digest)));;
      resulting ← lift (ok_or (advance_and_acknowledge self.(revisions)) RevisionExhausted);
      let i := OperationIntent_new e resulting (FinalizeConnectorMaterial facts receipt) in
      io (port JournalError (persist_intent i (snapshot self)));;
      proof ← io (port MaterialError (material_finalize i.(oi_operation_id) facts receipt release));
      lift (validate_finalized_proof proof facts receipt expected_credentials);;
      lift (reject InvalidProcessObservation when (proof.(fp_observation) ≠ ObservedRunning));;
      let state := Finalized facts receipt proof.(fp_finalized_receipt) proof.(fp_credentials) proof.(fp_observation) in
      let staged := self <| revisions := resulting |>
                         <| install_states := <[id := state]> self.(install_states) |> in
      outcome ← lift (current_outcome staged id);
      io (port JournalError (complete (receipt_of i outcome (Some state)) (snapshot staged)));;
      set_self staged;;
      mret (MkCommandResult ByApplying outcome)
  | _ => throw InstallNotPrepared
  end.

Definition finalize_connector_material (e : HostCommandEnvelope) : Op CommandResult :=
  self ← self;
  lift (ensure_envelope_boundary self e);;
  match e.(he_command) with
  | HFinalizeConnectorMaterial facts receipt =>
      record ← io (port JournalError (lookup_record self.(host_id) e.(he_operation_id)));
      match record with
      | Some (RCompleted i completed) =>
          lift (validate_intent_for_envelope i e);;
          restore_install_completed i completed
      | Some (RPending i) => lift (validate_intent_for_envelope i e);; finalize_material e facts receipt
      | None => finalize_material e facts receipt
      end
  | _ => throw InstallCommandRequired
  end.
End methods.
End Supervisor.
