(* ===== verification/HostSupervisorProps.v ===== *)
(** * Host supervisor: what its methods do to its state

    For every implementation of the ports.  A method leaves the fence and the
    instances alone or makes one step of the connector lifecycle and advances the
    fence by one; the invariant this preserves is what a reload needs. *)

From S2P Require Import Prelude Domain WirePrimitives WireValues Connector ControlProof AgentHost HostTypes HostSupervisor.

Module SupervisorProps.
Import HostTypes Supervisor.

(** ** Postconditions of stateful programs, on success and on failure *)

Section wp.
Context {S E : Type}.
Implicit Types Q : ∀ A, result E A → S → Prop.

Definition wp {A} (m : ST S E A) (s : S) (Q : result E A → S → Prop) : Prop := Q (m s).1 (m s).2.

Lemma wp_bind {A B} (m : ST S E A) (f : A → ST S E B) s (Q : result E B → S → Prop) :
  wp m s (λ r s', match r with Ok a => wp (f a) s' Q | Err e => Q (Err e) s' end) → wp (m ≫= f) s Q.
Proof. unfold wp, mbind, ST_bind. by destruct (m s) as [[a|e] s']. Qed.

Lemma wp_mono {A} (m : ST S E A) s (Q Q' : result E A → S → Prop) :
  wp m s Q → (∀ r s', Q r s' → Q' r s') → wp m s Q'.
Proof. unfold wp. auto. Qed.

Lemma wp_lift {A} (r : result E A) s (Q : result E A → S → Prop) : Q r s → wp (lift r) s Q.
Proof. done. Qed.
Lemma wp_ret {A} (a : A) s (Q : result E A → S → Prop) : Q (Ok a) s → wp (mret a) s Q.
Proof. done. Qed.
Lemma wp_throw {A} e s (Q : result E A → S → Prop) : Q (Err e) s → wp (throw e) s Q.
Proof. done. Qed.

Lemma wp_reject (P : Prop) `{!Decision P} e s (Q : result E unit → S → Prop) :
  (P → Q (Err e) s) → (¬ P → Q (Ok tt) s) → wp (lift (reject_if P e)) s Q.
Proof. intros. apply wp_lift. unfold reject_if. case_decide; auto. Qed.

(** nothing is known of the program *)
Lemma wp_any {A} (m : ST S E A) s (Q : result E A → S → Prop) : (∀ r s', Q r s') → wp m s Q.
Proof. intros H. apply H. Qed.

Lemma wp_eq {A} (m : ST S E A) s r s' (Q : result E A → S → Prop) : wp m s Q → m s = (r, s') → Q r s'.
Proof. unfold wp. intros H Hm. by rewrite Hm in H. Qed.

Lemma wp_run {A} (m : ST S E A) s (Q : result E A → S → Prop) : (∀ r s', m s = (r, s') → Q r s') → wp m s Q.
Proof. unfold wp. intros H. apply H. by destruct (m s). Qed.
End wp.

Section wp_methods.
Context {W : Type}.

Lemma wp_port {E F A} (f : E → F) (m : ST W E A) w (Q : result F A → W → Prop) :
  wp m w (λ r w', Q (map_err f r) w') → wp (port f m) w Q.
Proof. unfold wp, port. by destruct (m w) as [[a|e] w']. Qed.
Lemma wp_io {A} (m : ST W SupervisorError A) s w (Q : result SupervisorError A → HostSupervisor * W → Prop) :
  wp m w (λ r w', Q r (s, w')) → wp (io m) (s, w) Q.
Proof. unfold wp, io. cbn. by destruct (m w) as [[a|e] w']. Qed.
Lemma wp_self s w (Q : result SupervisorError HostSupervisor → HostSupervisor * W → Prop) :
  Q (Ok s) (s, w) → wp self (s, w) Q.
Proof. done. Qed.
Lemma wp_set_self s' s w (Q : result SupervisorError unit → HostSupervisor * W → Prop) :
  Q (Ok tt) (s', w) → wp (set_self s') (s, w) Q.
Proof. done. Qed.
End wp_methods.

(** One statement of a program; a port call gives its result and the new world. *)
Ltac wp_step :=
  lazymatch goal with
  | |- wp (_ ≫= _) _ _ => apply wp_bind; cbv beta
  | |- wp (lift (reject_if _ _)) _ _ => apply wp_reject; intros ?; cbv beta iota
  | |- wp (lift _) _ _ => apply wp_lift; cbv beta iota
  | |- wp (mret _) _ _ => apply wp_ret; cbv beta iota
  | |- wp (throw _) _ _ => apply wp_throw; cbv beta iota
  | |- wp self _ _ => apply wp_self; cbv beta iota
  | |- wp (set_self _) _ _ => apply wp_set_self; cbv beta iota
  | |- wp (io _) _ _ => apply wp_io; cbv beta
  | |- wp (port _ _) _ _ => apply wp_port; cbv beta
  end.

(** ** The lifecycle of a connector *)

Definition stopped (d : ManagedConnectorDesiredState) : Prop := d = EnsuredStopped ∨ d = DesiredStopped.

(** One operation on the connector [id], from what the host manages for it before to
    what it manages after. *)
Inductive lifecycle_step (id : ConnectorId) : option ManagedConnectorSnapshot → ManagedConnectorSnapshot → Prop :=
| LEnsureNew kind release :
    release.(cr_adapter_kind) = kind →
    lifecycle_step id None
      {| m_connector_id := id; m_adapter_kind := kind; m_release := release; m_desired_state := EnsuredStopped;
         m_observation := ObservedStopped; m_credential_generation := 0; m_credential_ref := None;
         m_credential_operation_id := None |}
| LEnsure b release :
    stopped b.(m_desired_state) → release.(cr_adapter_kind) = b.(m_adapter_kind) →
    lifecycle_step id (Some b)
      {| m_connector_id := id; m_adapter_kind := b.(m_adapter_kind); m_release := release;
         m_desired_state := EnsuredStopped; m_observation := ObservedStopped;
         m_credential_generation := b.(m_credential_generation); m_credential_ref := b.(m_credential_ref);
         m_credential_operation_id := b.(m_credential_operation_id) |}
| LStart b o :
    b.(m_desired_state) ≠ RemovedRetainingData → is_Some b.(m_credential_ref) → running_or_failed o = true →
    lifecycle_step id (Some b) (b <| m_desired_state := DesiredRunning |> <| m_observation := o |>)
| LStop b :
    b.(m_desired_state) ≠ RemovedRetainingData →
    lifecycle_step id (Some b) (b <| m_desired_state := DesiredStopped |> <| m_observation := ObservedStopped |>)
| LRotate b reference operation o :
    b.(m_desired_state) ≠ RemovedRetainingData → b.(m_credential_ref) ≠ Some reference →
    b.(m_credential_generation) + 1 ≤ Revision.MAX → snapshot_observation_is_valid b.(m_desired_state) o = true →
    lifecycle_step id (Some b)
      (b <| m_credential_generation := b.(m_credential_generation) + 1 |> <| m_credential_ref := Some reference |>
         <| m_credential_operation_id := Some operation |> <| m_observation := o |>)
| LRemove b :
    b.(m_desired_state) ≠ RemovedRetainingData →
    lifecycle_step id (Some b) (b <| m_desired_state := RemovedRetainingData |> <| m_observation := Absent |>)
| LPrepareNew kind release reference operation :
    release.(cr_adapter_kind) = kind →
    lifecycle_step id None
      {| m_connector_id := id; m_adapter_kind := kind; m_release := release; m_desired_state := EnsuredStopped;
         m_observation := ObservedStopped; m_credential_generation := 1; m_credential_ref := Some reference;
         m_credential_operation_id := Some operation |}
| LPrepare b release reference operation :
    stopped b.(m_desired_state) → release.(cr_adapter_kind) = b.(m_adapter_kind) →
    release.(cr_digest) = b.(m_release).(cr_digest) → b.(m_credential_generation) ≠ 0 →
    lifecycle_step id (Some b)
      {| m_connector_id := id; m_adapter_kind := b.(m_adapter_kind); m_release := release;
         m_desired_state := EnsuredStopped; m_observation := ObservedStopped;
         m_credential_generation := b.(m_credential_generation); m_credential_ref := Some reference;
         m_credential_operation_id := Some operation |}
| LFinalize b : b.(m_desired_state) = DesiredRunning → lifecycle_step id (Some b) b.

(** What a method may do to fence and instances. *)
Inductive moved (s s' : HostSupervisor) : Prop :=
| moved_not :
    s'.(tenant_id) = s.(tenant_id) → s'.(host_id) = s.(host_id) → s'.(revisions) = s.(revisions) →
    s'.(instances) = s.(instances) → moved s s'
| moved_step id i :
    s'.(tenant_id) = s.(tenant_id) → s'.(host_id) = s.(host_id) →
    advance_and_acknowledge s.(revisions) = Some s'.(revisions) →
    lifecycle_step id (s.(instances) !! id) i → s'.(instances) = <[id := i]> s.(instances) → moved s s'.

Lemma moved_refl s : moved s s.
Proof. by apply moved_not. Qed.
Hint Resolve moved_refl : core.

Lemma advance_desired f f' :
  advance_and_acknowledge f = Some f' → f'.(desired) = f.(desired) + 1 ∧ f'.(observed) = Some (f.(desired) + 1)
    ∧ f.(desired) ≠ Revision.MAX.
Proof.
  unfold advance_and_acknowledge. intros (d & Hd & [= <-])%bind_Some. cbn.
  destruct (Revision.checked_next _) eqn:Hn; [|done]. injection Hd as <-.
  apply Revision.checked_next_Ok in Hn as [? ->]. done.
Qed.

Section methods.
Context {W Artifact : Type}.
Context `{J : !Journal W} `{R : !ReleaseCatalog W} `{C : !CredentialArtifactProvider W Artifact}.
Context `{M : !BootstrapMaterialProvider W} `{P : !ProcessController W Artifact}.

(** ** What a validated intent says *)

Record intent_fits (s : HostSupervisor) (i : OperationIntent) : Prop := {
  if_tenant : i.(oi_tenant_id) = s.(tenant_id);
  if_host : i.(oi_host_id) = s.(host_id);
  if_advance : advance_and_acknowledge i.(oi_expected) = Some i.(oi_resulting);
  if_target_tenant : (target i.(oi_command)).(t_tenant_id) = s.(tenant_id);
  if_target_host : (target i.(oi_command)).(t_host_id) = s.(host_id);
  if_release r : command_release i.(oi_command) = Some r →
    r.(cr_adapter_kind) = (target i.(oi_command)).(t_adapter_kind);
  if_precondition : s.(revisions) = i.(oi_expected) →
    validate_durable_command_precondition (s.(instances) !! (target i.(oi_command)).(t_connector_id)) i.(oi_command)
    = Ok tt;
  if_state : s.(revisions) = i.(oi_expected) →
    match i.(oi_command) with
    | Start t r reference operation | Restart t r reference operation =>
        ∃ b, s.(instances) !! t.(t_connector_id) = Some b ∧ b.(m_release) = r
             ∧ b.(m_credential_ref) = Some reference ∧ b.(m_credential_operation_id) = Some operation
             ∧ validate_installed_runtime_target s t r reference = Ok tt
    | RotateCredential t r reference generation =>
        ∃ b, s.(instances) !! t.(t_connector_id) = Some b ∧ b.(m_release) = r
             ∧ generation = b.(m_credential_generation) + 1 ∧ generation ≠ 0 ∧ generation ≤ Revision.MAX
             ∧ s.(install_states) !! t.(t_connector_id) = None
    | _ => True
    end
}.

Lemma validate_intent_state_fits s i v at_resulting w w' :
  validate_intent_state s i.(oi_command) true at_resulting v w = (Ok tt, w') →
  match i.(oi_command) with
  | Start t r reference operation | Restart t r reference operation =>
      ∃ b, s.(instances) !! t.(t_connector_id) = Some b ∧ b.(m_release) = r
           ∧ b.(m_credential_ref) = Some reference ∧ b.(m_credential_operation_id) = Some operation
           ∧ validate_installed_runtime_target s t r reference = Ok tt
  | RotateCredential t r reference generation =>
      ∃ b, s.(instances) !! t.(t_connector_id) = Some b ∧ b.(m_release) = r
           ∧ generation = b.(m_credential_generation) + 1 ∧ generation ≤ Revision.MAX
  | _ => True
  end.
Proof.
  unfold validate_intent_state. intros H. destruct (oi_command i); try done; st_inv H; not_ors;
    cbn [target] in *; eexists; split_and!; eauto; lia.
Qed.

Lemma validate_intent_fits s i v w w' : validate_intent s i v w = (Ok tt, w') → intent_fits s i.
Proof.
  unfold validate_intent. intros H.
  set (at_expected := bool_decide (s.(revisions) = i.(oi_expected))) in H.
  set (at_resulting := bool_decide (s.(revisions) = i.(oi_resulting))) in H.
  set (historical := bool_decide (s.(revisions).(desired) > i.(oi_resulting).(desired))) in H.
  st_inv H. not_ors.
  assert (advance_and_acknowledge i.(oi_expected) = Some i.(oi_resulting)) as Hadv by done.
  assert (s.(revisions) = i.(oi_expected) → historical = false) as Hhist.
  { intros Hs. unfold historical. rewrite bool_decide_eq_false, Hs. apply advance_desired in Hadv. lia. }
  split; try done.
  - intros r Hr. rewrite Hr in Hrun3. res_inv Hrun3. by apply dec_stable.
  - intros Hs. rewrite (Hhist Hs) in H. unfold at_expected in H.
    rewrite bool_decide_eq_true_2 in H by done. st_inv H. by destruct x6.
  - intros Hs. rewrite (Hhist Hs) in H. unfold at_expected in H.
    rewrite bool_decide_eq_true_2 in H by done. st_inv H. apply validate_intent_state_fits in H.
    destruct (oi_command i); try done. destruct H as (b & ? & ? & ? & ?). exists b.
    repeat match goal with H : reject_if _ _ = Ok _ |- _ => res_inv H end. not_ors. split_and!; try done. by apply eq_None_not_Some.
Qed.

(** ** The state part of an operation *)

Lemma observation_stopped s c o :
  observation_is_valid s c o = true →
  match c with Ensure _ _ | Stop _ => o = ObservedStopped | RemoveRetaining _ => o = Absent | _ => True end.
Proof. unfold observation_is_valid. destruct c; try done; apply bool_decide_eq_true. Qed.

Lemma precondition_live before c :
  validate_durable_command_precondition before c = Ok tt →
  match c with
  | Ensure t _ =>
      match before with
      | Some b => stopped b.(m_desired_state) ∧ b.(m_adapter_kind) = t.(t_adapter_kind)
      | None => True
      end
  | _ => ∃ b, before = Some b ∧ b.(m_desired_state) ≠ RemovedRetainingData
              ∧ b.(m_adapter_kind) = (target c).(t_adapter_kind)
              ∧ match c with RotateCredential _ _ reference _ => b.(m_credential_ref) ≠ Some reference | _ => True end
  end.
Proof.
  unfold validate_durable_command_precondition. intros H. unfold stopped.
  destruct c; [destruct before as [b|]; [|done]; res_inv H; not_ors; by destruct (m_desired_state b); auto|..];
    res_inv H; not_ors; eexists; split_and!; eauto.
Qed.

Lemma instance_mut_moved id f s staged fence b :
  s.(instances) !! id = Some b → advance_and_acknowledge s.(revisions) = Some fence →
  lifecycle_step id (Some b) (f b) → instance_mut id f s = Ok staged →
  moved s (staged <| revisions := fence |>).
Proof.
  intros Hb Hadv Hstep H. unfold instance_mut in H. rewrite Hb in H. injection H as <-.
  apply (moved_step _ _ id (f b)); try done. by rewrite Hb.
Qed.

(** Applying a validated intent is one lifecycle step on its target. *)
Lemma apply_state_moved s i o staged :
  intent_fits s i → s.(revisions) = i.(oi_expected) →
  apply_state i.(oi_operation_id) i.(oi_command) o s = Ok staged →
  moved s (staged <| revisions := i.(oi_resulting) |>).
Proof.
  intros Hfit Hs H. pose proof (precondition_live _ _ (if_precondition _ _ Hfit Hs)) as Hpre.
  pose proof (if_state _ _ Hfit Hs) as Hst.
  pose proof (if_advance _ _ Hfit) as Hadv. rewrite <-Hs in Hadv. pose proof (if_release _ _ Hfit) as Hrel.
  unfold apply_state in H. res_inv H. not_ors. pose proof (observation_stopped _ _ _ Hres) as Hob.
  destruct (oi_command i) as [t r|t r ref op|t|t r ref op|t r ref gen|t|facts|facts receipt] eqn:Hc; cbn [target] in *.
  - subst o. specialize (Hrel _ eq_refl). destruct (instances s !! t_connector_id t) as [b|] eqn:Hb; injection H as <-.
    + destruct Hpre as [? Hkind]. eapply moved_step; try done. rewrite Hb. rewrite <-Hkind in *. by apply LEnsure.
    + eapply moved_step; try done. rewrite Hb. by apply LEnsureNew.
  - destruct Hpre as (b & Hb & ? & ? & _), Hst as (b' & Hb' & ? & Href & _). simplify_eq.
    eapply instance_mut_moved; eauto. apply LStart; eauto.
  - destruct Hpre as (b & Hb & ? & ? & _). subst o. eapply instance_mut_moved; eauto. by apply LStop.
  - destruct Hpre as (b & Hb & ? & ? & _), Hst as (b' & Hb' & ? & Href & _). simplify_eq.
    eapply instance_mut_moved; eauto. apply LStart; eauto.
  - destruct Hpre as (b & Hb & ? & ? & ?), Hst as (b' & Hb' & ? & -> & ? & ? & _). simplify_eq.
    eapply instance_mut_moved; eauto. apply LRotate; try done.
    unfold observation_is_valid in Hres. rewrite Hb in Hres. by destruct (m_desired_state b), o.
  - destruct Hpre as (b & Hb & ? & ? & _). subst o. eapply instance_mut_moved; eauto. by apply LRemove.
  - done.
  - done.
Qed.

Lemma policy_blocked_moved s i staged :
  intent_fits s i → s.(revisions) = i.(oi_expected) → apply_policy_blocked_state i.(oi_command) s = Ok staged →
  moved s (staged <| revisions := i.(oi_resulting) |>).
Proof.
  intros Hfit Hs H. pose proof (precondition_live _ _ (if_precondition _ _ Hfit Hs)) as Hpre.
  pose proof (if_advance _ _ Hfit) as Hadv. rewrite <-Hs in Hadv. unfold apply_policy_blocked_state in H.
  destruct (oi_command i); try done; destruct Hpre as (b & Hb & ? & ? & _);
    eapply instance_mut_moved; eauto; by apply LStop.
Qed.

(** ** The methods *)

(** the postcondition of every method *)
Definition moves {A} (m : ST (HostSupervisor * W) SupervisorError A) : Prop :=
  ∀ s w, wp m (s, w) (λ r sw, match r with Ok _ => moved s sw.1 | Err _ => sw.1 = s end).

(** Goes through a method: a failure changes nothing, of a port call the result is
    kept, a check leaves its condition. *)
Ltac moves_step :=
  lazymatch goal with
  | |- moved ?s ?s => apply moved_refl
  | |- moved ?s (?s, _).1 => apply moved_refl
  | |- moved _ (_, _).1 => cbn [fst]
  | |- (?s, _).1 = ?s => reflexivity
  | |- wp (if ?b then _ else _) _ _ => destruct b eqn:?
  | |- wp (match ?x with _ => _ end) _ _ => destruct x eqn:?
  | |- match ?r with Ok _ => _ | Err _ => _ end => destruct r eqn:?
  | |- wp (validate_intent _ _ _) _ _ =>
      apply wp_run; intros [[]|] ? ?; [|reflexivity];
      match goal with H : validate_intent _ _ _ _ = _ |- _ => apply validate_intent_fits in H end
  | |- wp _ _ _ => first [wp_step | apply wp_any; intros ? ?; cbv beta]
  | |- _ => progress cbv beta iota
  end.
Ltac moves := repeat moves_step; not_ors; eauto using apply_state_moved, policy_blocked_moved.

Lemma apply_intent_moves i application : moves (apply_intent i application).
Proof.
  intros s w. unfold apply_intent. moves.
  eapply apply_state_moved; eauto. apply dec_stable. naive_solver.
Qed.

Lemma restore_completed_moves i receipt : moves (restore_completed i receipt).
Proof. intros s w. unfold restore_completed. moves.
  case_decide; eauto using apply_state_moved, policy_blocked_moved.
Qed.

Lemma reconcile_policy_blocked_moves i : moves (reconcile_policy_blocked_start i).
Proof. intros s w. unfold reconcile_policy_blocked_start. moves. Qed.

Lemma restore_install_moves i receipt : moves (restore_install_completed i receipt).
Proof. intros s w. unfold restore_install_completed. moves. all: by apply moved_not. Qed.

Lemma rehydrate_install_moves id : moves (rehydrate_install_state id).
Proof. intros s w. unfold rehydrate_install_state. moves. by apply moved_not. Qed.

Lemma execute_moves e : moves (execute e).
Proof.
  intros s w. unfold execute.
  repeat lazymatch goal with
  | |- wp (restore_completed _ _) _ _ => apply restore_completed_moves
  | |- wp (reconcile_policy_blocked_start _) _ _ => apply reconcile_policy_blocked_moves
  | |- wp (apply_intent _ _) _ _ => apply apply_intent_moves
  | |- _ => moves_step
  end.
Qed.

Lemma reconcile_moves : moves reconcile.
Proof.
  intros s w. unfold reconcile.
  repeat lazymatch goal with
  | |- wp (reconcile_policy_blocked_start _) _ _ => eapply wp_mono; [apply reconcile_policy_blocked_moves|by intros [|] ? ?]
  | |- wp (apply_intent _ _) _ _ => eapply wp_mono; [apply apply_intent_moves|by intros [|] ? ?]
  | |- _ => moves_step
  end.
Qed.

Lemma prepare_material_moves e facts retrying : moves (prepare_material e facts retrying).
Proof.
  intros s w. unfold prepare_material. repeat moves_step. unfold validate_prepared_proof in *.
  repeat match goal with H : reject_if _ _ = Ok _ |- _ => res_inv H | H : ok_or _ _ = Ok _ |- _ => res_inv H end.
  not_ors. destruct (instances s !! lf_connector_id facts) as [b|] eqn:Hb; cbn [from_option] in *.
  - res_inv Heqr. not_ors. eapply (moved_step _ _ facts.(lf_connector_id)); try done. rewrite Hb. cbn [self_target t_adapter_kind].
    replace (lf_adapter_kind facts) with (m_adapter_kind b) by done. apply LPrepare; try congruence.
    unfold stopped. by destruct (m_desired_state b); auto.
  - eapply (moved_step _ _ facts.(lf_connector_id)); try done. rewrite Hb. by apply LPrepareNew.
Qed.

Lemma prepare_moves e : moves (prepare_connector_material e).
Proof.
  intros s w. unfold prepare_connector_material.
  repeat lazymatch goal with
  | |- wp (restore_install_completed _ _) _ _ => apply restore_install_moves
  | |- wp (prepare_material _ _ _) _ _ => apply prepare_material_moves
  | |- _ => moves_step
  end.
Qed.

Lemma finalize_material_moves e facts receipt : moves (finalize_material e facts receipt).
Proof.
  intros s w. unfold finalize_material. repeat moves_step.
  repeat match goal with H : ok_or _ _ = Ok _ |- _ => res_inv H end. not_ors.
  match goal with H : instances s !! _ = Some ?b |- _ =>
    apply (moved_step _ _ facts.(lf_connector_id) b); try done; [by rewrite H; apply LFinalize|];
    cbn; by rewrite insert_id
  end.
Qed.

Lemma finalize_moves e : moves (finalize_connector_material e).
Proof.
  intros s w. unfold finalize_connector_material.
  repeat lazymatch goal with
  | |- wp (restore_install_completed _ _) _ _ => apply restore_install_moves
  | |- wp (finalize_material _ _ _) _ _ => apply finalize_material_moves
  | |- _ => moves_step
  end.
Qed.

Lemma observe_moves id : moves (observe id).
Proof. intros s w. unfold observe. repeat moves_step. Qed.

(** ** How a result was obtained *)

Definition tagged (a : CommandApplication) (r : result SupervisorError CommandResult) (_ : HostSupervisor * W) : Prop :=
  ∀ x, r = Ok x → x.(cr_application) = a.

Ltac tagged_step :=
  lazymatch goal with
  | |- tagged _ _ _ => intros ? [=]; by subst
  | |- wp (match ?x with _ => _ end) _ _ => destruct x
  | |- match ?r with Ok _ => _ | Err _ => _ end => destruct r
  | |- wp _ _ _ => first [wp_step | apply wp_any; intros ? ?; cbv beta]
  end.

Lemma apply_intent_tagged i application s w : wp (apply_intent i application) (s, w) (tagged application).
Proof. unfold apply_intent. repeat tagged_step. Qed.
Lemma restore_completed_tagged i receipt s w : wp (restore_completed i receipt) (s, w) (tagged ByReplay).
Proof. unfold restore_completed. repeat tagged_step. Qed.
Lemma policy_blocked_tagged i s w : wp (reconcile_policy_blocked_start i) (s, w) (tagged ByReconciling).
Proof. unfold reconcile_policy_blocked_start. repeat tagged_step. Qed.

Lemma tagged_run (m : ST (HostSupervisor * W) SupervisorError CommandResult) a sw x sw' :
  wp m sw (tagged a) → m sw = (Ok x, sw') → x.(cr_application) = a.
Proof. intros H Hm. by apply (wp_eq _ _ _ _ _ H Hm x). Qed.

(** ** Any sequence of calls *)

Inductive Request : Type :=
| QExecute (e : HostCommandEnvelope) | QReconcile | QPrepare (e : HostCommandEnvelope)
| QFinalize (e : HostCommandEnvelope) | QRehydrate (id : ConnectorId) | QObserve (id : ConnectorId).

Definition serve (q : Request) : ST (HostSupervisor * W) SupervisorError unit :=
  match q with
  | QExecute e => execute e;; mret tt
  | QReconcile => reconcile;; mret tt
  | QPrepare e => prepare_connector_material e;; mret tt
  | QFinalize e => finalize_connector_material e;; mret tt
  | QRehydrate id => rehydrate_install_state id
  | QObserve id => observe id;; mret tt
  end.

Lemma moves_drop {A} (m : ST (HostSupervisor * W) SupervisorError A) : moves m → moves (m;; mret tt).
Proof. intros Hm s w. apply wp_bind. eapply wp_mono; [apply Hm|]. by intros [a|e] sw. Qed.

Lemma serve_moves q : moves (serve q).
Proof.
  destruct q; cbn [serve]; auto using moves_drop, execute_moves, reconcile_moves, prepare_moves, finalize_moves,
    rehydrate_install_moves, observe_moves.
Qed.
End methods.

(** ** The invariant *)

Record sup_ok (s : HostSupervisor) : Prop := {
  so_desired : Revision.valid s.(revisions).(desired);
  so_observed o : s.(revisions).(observed) = Some o → 1 ≤ o ≤ s.(revisions).(desired);
  so_key id i : s.(instances) !! id = Some i → i.(m_connector_id) = id;
  so_generation id i : s.(instances) !! id = Some i → 0 ≤ i.(m_credential_generation);
  so_valid id i : s.(instances) !! id = Some i → instance_is_valid i = true;
  so_release id i : s.(instances) !! id = Some i → i.(m_release).(cr_adapter_kind) = i.(m_adapter_kind);
  so_acknowledged : s.(instances) ≠ ∅ →
    s.(revisions).(desired) ≠ Revision.INITIAL ∧ s.(revisions).(observed) = Some s.(revisions).(desired)
}.

Lemma instance_is_valid_spec i :
  instance_is_valid i = true ↔
  i.(m_credential_generation) ≤ Revision.MAX ∧ (i.(m_credential_generation) = 0 ↔ i.(m_credential_ref) = None) ∧
  (i.(m_credential_ref) = None ↔ i.(m_credential_operation_id) = None) ∧
  snapshot_observation_is_valid i.(m_desired_state) i.(m_observation) = true.
Proof. unfold instance_is_valid. rewrite !andb_true_iff, !bool_decide_eq_true. tauto. Qed.

(** A lifecycle step keeps an instance well formed. *)
Lemma lifecycle_step_ok id before after :
  lifecycle_step id before after →
  (∀ b, before = Some b → b.(m_connector_id) = id ∧ 0 ≤ b.(m_credential_generation) ∧ instance_is_valid b = true
                          ∧ b.(m_release).(cr_adapter_kind) = b.(m_adapter_kind)) →
  after.(m_connector_id) = id ∧ 0 ≤ after.(m_credential_generation) ∧ instance_is_valid after = true
  ∧ after.(m_release).(cr_adapter_kind) = after.(m_adapter_kind).
Proof.
  intros Hstep Hb. setoid_rewrite instance_is_valid_spec in Hb. rewrite instance_is_valid_spec.
  destruct Hstep; try (destruct (Hb _ eq_refl) as (? & ? & (? & ? & ? & ?) & ?)); cbn; split_and!; try done; try lia.
  split; [lia|done].
Qed.

Lemma moved_ok s s' : moved s s' → sup_ok s → sup_ok s'.
Proof.
  intros Hm Hs. destruct Hm as [_ _ Hr Hi|id i _ _ Hadv Hstep Hi].
  { destruct Hs. split; rewrite ?Hr, ?Hi; auto. }
  apply advance_desired in Hadv as (Hd & Ho & ?). pose proof (so_desired _ Hs) as [? ?].
  assert (∀ k j, s'.(instances) !! k = Some j →
    j.(m_connector_id) = k ∧ 0 ≤ j.(m_credential_generation) ∧ instance_is_valid j = true
    ∧ j.(m_release).(cr_adapter_kind) = j.(m_adapter_kind)) as Hall.
  { intros k j. rewrite Hi, lookup_insert_Some. intros [[<- <-]|[_ Hj]]; [|by destruct Hs; eauto 10].
    eapply lifecycle_step_ok; [done|]. intros b Hb. destruct Hs. eauto 10. }
  split; try (intros k j Hj; by apply Hall in Hj as (? & ? & ? & ?)).
  - rewrite Hd. split; lia.
  - intros o. rewrite Ho. intros [= <-]. rewrite Hd. lia.
  - intros _. rewrite Ho, Hd. split; [unfold Revision.INITIAL; lia|done].
Qed.

(** A removed connector never comes back, and the fence never goes back. *)
Lemma moved_removed s s' id b :
  moved s s' → s.(instances) !! id = Some b → b.(m_desired_state) = RemovedRetainingData →
  s'.(instances) !! id = Some b.
Proof.
  intros [_ _ _ ->|k i _ _ _ Hstep ->] Hb Hd; [done|]. rewrite lookup_insert_ne; [done|].
  intros ->. rewrite Hb in Hstep. inversion Hstep; subst; unfold stopped in *; intuition congruence.
Qed.

Lemma supervisor_new_ok host s : Host.host_ok host → Revision.valid host.(Host.desired_revision) →
  (∀ o, host.(Host.observed_revision) = Some o → 1 ≤ o) → new host = Ok s → sup_ok s ∧ s.(instances) = ∅.
Proof.
  unfold new, from_revisions. intros Hh Hd Ho H. res_inv H. res_inv Hres0. split; [|done]. split; cbn; try done.
  intros o Hob. split; [by apply Ho|]. by apply (Host.ho_observed _ Hh).
Qed.

(** ** Reloading *)

Lemma snapshot_ids s : sup_ok s → NoDup (m_connector_id <$> btree_values s.(instances)).
Proof. intros Hs. apply btree_values_keyed_NoDup. intros. by eapply (so_key _ Hs). Qed.

Lemma distinct_ids_spec l ids :
  distinct_ids l ids = true ↔ NoDup (m_connector_id <$> l) ∧ ∀ i, i ∈ l → i.(m_connector_id) ∉ ids.
Proof.
  revert ids. induction l as [|i l IH]; intros ids; cbn.
  { split; [split; [constructor|set_solver]|done]. }
  rewrite NoDup_cons. case_decide as Hi.
  { split; [done|]. intros [_ H]. destruct (H i); [set_solver|done]. }
  rewrite IH. split.
  - intros [Hnd H]. split_and!; [|done|].
    + intros (j & Hj & Hin)%list_elem_of_fmap. apply (H j Hin). set_solver.
    + intros j [->|Hj]%elem_of_cons; [done|]. specialize (H j Hj). set_solver.
  - intros [[Hn Hnd] H]. split; [done|]. intros j Hj. specialize (H j). rewrite elem_of_cons in H.
    rewrite not_elem_of_union, not_elem_of_singleton. split; [|auto].
    intros Heq. apply Hn. rewrite <-Heq. by apply list_elem_of_fmap_2.
Qed.

Section reload.
Context {W : Type} `{R : !ReleaseCatalog W}.

(** The catalog resolves every release of the supervisor to itself. *)
Definition catalog_knows (w : W) (s : HostSupervisor) : Prop := ∀ id i,
  s.(instances) !! id = Some i →
  resolve_known i.(m_adapter_kind) i.(m_release).(cr_digest) w = (Ok i.(m_release), w).

Lemma load_instances_Ok s w l acc :
  sup_ok s → catalog_knows w s → (∀ i, i ∈ l → s.(instances) !! i.(m_connector_id) = Some i) →
  load_instances l acc w = (Ok (index_by m_connector_id acc l), w).
Proof.
  intros Hs Hw. revert acc. induction l as [|i l IH]; intros acc Hl; [done|].
  assert (s.(instances) !! i.(m_connector_id) = Some i) as Hi by (apply Hl; set_solver).
  cbn [load_instances].
  st_step. { intros Hn. apply Hn. by eapply (so_release _ Hs). }
  st_step. { rewrite (so_valid _ Hs _ _ Hi). done. }
  st_step. { unfold port. by rewrite (Hw _ _ Hi). }
  st_step. { tauto. }
  rewrite IH; [done|]. intros j Hj. apply Hl. set_solver.
Qed.

Lemma reload_Ok host s w :
  sup_ok s → catalog_knows w s → host.(Host.lifecycle) = Host.Active →
  host.(Host.tenant_id) = s.(tenant_id) → host.(Host.host_id) = s.(host_id) →
  try_from_snapshot host (snapshot s) w = (Ok (s <| install_states := ∅ |>), w).
Proof.
  intros Hs Hw Hact Ht Hh. unfold try_from_snapshot, snapshot. cbn [ss_tenant_id ss_host_id ss_desired_revision
    ss_observed_revision ss_instances].
  st_step. { tauto. }
  st_step. { rewrite Ht, Hh. tauto. }
  st_step.
  { apply lift_Ok. split; [|done]. apply map_err_Ok. unfold from_revisions. apply result_bind_Ok. exists tt.
    split; [|done]. apply reject_if_Ok. destruct (observed _) as [o|] eqn:Ho; [|done].
    rewrite bool_decide_eq_true. apply (so_observed _ Hs) in Ho. lia. }
  st_step. { rewrite not_false_iff_true. apply distinct_ids_spec. split; [by apply snapshot_ids|set_solver]. }
  st_step.
  { cbn [desired observed]. intros [Hne H]. destruct (so_acknowledged _ Hs); [|tauto]. intros Hn. apply Hne.
    by rewrite Hn, btree_values_empty. }
  st_step.
  { eapply load_instances_Ok; [done..|]. intros i (id & Hi)%elem_of_btree_values. by rewrite (so_key _ Hs _ _ Hi). }
  unfold mret, ST_ret. f_equal. f_equal. rewrite index_by_btree_values by (intros; by eapply (so_key _ Hs)).
  by destruct s as [? ? [? ?] ? ?].
Qed.
End reload.

(** ** Theorems *)

Section theorems.
Context {W Artifact : Type}.
Context `{J : !Journal W} `{R : !ReleaseCatalog W} `{C : !CredentialArtifactProvider W Artifact}.
Context `{M : !BootstrapMaterialProvider W} `{P : !ProcessController W Artifact}.

(** C10. Whatever the journal, the catalog, the providers and the processes answer, a
    call that fails leaves the supervisor exactly as it was, and a call that succeeds
    changes neither fence nor instances or performs one step of the connector
    lifecycle ([lifecycle_step]) on a single connector together with exactly one
    advance of the revision fence, the siblings untouched. *)
Theorem lifecycle_refinement (q : Request) (s : HostSupervisor) (w : W) :
  match serve q (s, w) with
  | (Ok _, (s', _)) => moved s s'
  | (Err _, (s', _)) => s' = s
  end.
Proof. pose proof (serve_moves q s w) as H. unfold wp in H. by destruct (serve q (s, w)) as [[] [s' w']]. Qed.

Lemma serve_all_inv (I : HostSupervisor → Prop) qs s w :
  (∀ s s', moved s s' → I s → I s') → I s → I (run_all (λ q, exec (serve q)) qs (s, w)).1.
Proof.
  intros Hstep Hs. apply (run_all_inv (λ q, exec (serve q)) (λ sw, I sw.1)); [|done].
  intros q [s1 w1] _ H1. pose proof (serve_moves q s1 w1) as H. unfold wp, exec in *.
  destruct (serve q (s1, w1)) as [[] [s' w']]; cbn in *; [by eapply Hstep|by subst].
Qed.

(** C11. A connector that was removed stays removed, with the very same record, through
    any sequence of calls on any ports, and the revision fence of the host never goes
    back. *)
Theorem removed_connector_stays_removed (qs : list Request) (s : HostSupervisor) (w : W) id b :
  s.(instances) !! id = Some b → b.(m_desired_state) = RemovedRetainingData →
  let s' := (run_all (λ q, exec (serve q)) qs (s, w)).1 in
  s'.(instances) !! id = Some b ∧ s.(revisions).(desired) ≤ s'.(revisions).(desired).
Proof.
  intros Hb Hd.
  apply (serve_all_inv (λ s', s'.(instances) !! id = Some b ∧ s.(revisions).(desired) ≤ s'.(revisions).(desired))); [|done].
  intros s1 s2 Hm [Hi Hr]. split; [by eapply moved_removed|].
  destruct Hm as [_ _ -> _|? ? _ _ Hadv _ _]; [done|]. apply advance_desired in Hadv. lia.
Qed.

(** The snapshot of a supervisor that was created for a host and then served any
    sequence of calls on any ports reloads to that supervisor (install states are
    reloaded separately), as long as the catalog still resolves its releases. *)
Theorem snapshot_reload (host : Host.AgentHost) (s0 : HostSupervisor) (qs : list Request) (w0 w : W) :
  Host.host_ok host → Revision.valid host.(Host.desired_revision) →
  (∀ o, host.(Host.observed_revision) = Some o → 1 ≤ o) →
  new host = Ok s0 →
  let s := (run_all (λ q, exec (serve q)) qs (s0, w0)).1 in
  catalog_knows w s →
  try_from_snapshot host (snapshot s) w = (Ok (s <| install_states := ∅ |>), w).
Proof.
  intros Hh Hd Ho Hnew s Hw. destruct (supervisor_new_ok _ _ Hh Hd Ho Hnew) as [Hs0 _].
  assert (host.(Host.tenant_id) = s0.(tenant_id) ∧ host.(Host.host_id) = s0.(host_id)
          ∧ host.(Host.lifecycle) = Host.Active) as (Ht & Hid & Hact).
  { unfold new in Hnew. res_inv Hnew. not_ors. done. }
  assert (sup_ok s) by (apply serve_all_inv; eauto using moved_ok).
  assert (s.(tenant_id) = s0.(tenant_id) ∧ s.(host_id) = s0.(host_id)) as [? ?].
  { apply (serve_all_inv (λ s, s.(tenant_id) = s0.(tenant_id) ∧ s.(host_id) = s0.(host_id))); [|done].
    intros s1 s2 [-> ->|? ? -> ->]; done. }
  apply reload_Ok; try done; congruence.
Qed.
End theorems.
End SupervisorProps.
