(* ===== verification/HostEffects.v ===== *)
(** * Host supervisor: the order of its effects

    The ports of [HostSupervisor] with every call to the journal, the providers and
    the processes recorded.  The methods of [supervisor.rs] touch a process, a
    credential or the install material only for an operation whose intent is durable
    at that time, with the arguments of that intent, and do nothing after they have
    completed it. *)

From S2P Require Import Prelude Domain WirePrimitives WireValues Connector ControlProof HostTypes HostSupervisor HostSupervisorProps.

Module Effects.
Import HostTypes Supervisor SupervisorProps.

(** ** Calls *)

Inductive ProcessCall : Type :=
| PEnsure (id : ProcessMutationId) (t : ConnectorTarget) (r : CatalogRelease)
| PStart (id : ProcessMutationId) (t : ConnectorTarget) (r : CatalogRelease) (reference : CredentialArtifactRef)
| PStop (id : ProcessMutationId) (t : ConnectorTarget)
| PRestart (id : ProcessMutationId) (t : ConnectorTarget) (r : CatalogRelease) (reference : CredentialArtifactRef)
| PRestore (id : ProcessMutationId) (t : ConnectorTarget) (reference : CredentialArtifactRef) (bearer : McpBearerRef)
| PRotate (id : ProcessMutationId) (t : ConnectorTarget) (reference : CredentialArtifactRef)
| PRemove (id : ProcessMutationId) (t : ConnectorTarget)
| PObserve (t : ConnectorTarget).

Inductive Event : Type :=
| EvLookup (r : result PortError (option JournalRecord))
| EvPending (r : result PortError (list OperationIntent))
| EvPersist (i : OperationIntent) (s : SupervisorSnapshot) (r : result PortError unit)
| EvComplete (receipt : OperationReceipt) (s : SupervisorSnapshot) (r : result PortError unit)
| EvMaterialize (id : HostOperationId) (t : ConnectorTarget) (reference : CredentialArtifactRef)
| EvProcess (c : ProcessCall)
| EvPrepare (id : HostOperationId) (facts : ConnectorLifecycleFacts) (r : CatalogRelease)
| EvFinalize (id : HostOperationId) (facts : ConnectorLifecycleFacts) (receipt : PreparedReceiptDigest) (r : CatalogRelease).

Section trace.
Context {W : Type}.
Notation TW := (W * list Event)%type.

Definition logged {E A} (ev : result E A → Event) (m : ST W E A) : ST TW E A := λ wl,
  let '(r, w) := m wl.1 in (r, (w, wl.2 ++ [ev r])).
Definition silent {E A} (m : ST W E A) : ST TW E A := λ wl, let '(r, w) := m wl.1 in (r, (w, wl.2)).

Global Instance traced_journal `{J : !Journal W} : Journal TW := {|
  lookup_record h id := logged EvLookup (lookup_record h id);
  load_snapshot h := silent (load_snapshot h);
  persist_intent i s := logged (EvPersist i s) (persist_intent i s);
  complete r s := logged (EvComplete r s) (complete r s);
  pending_intents h := logged EvPending (pending_intents h);
  load_install_state h id := silent (load_install_state h id)
|}.
Global Instance traced_catalog `{R : !ReleaseCatalog W} : ReleaseCatalog TW := {|
  resolve_known k d := silent (resolve_known k d);
  resolve_runnable k d := silent (resolve_runnable k d)
|}.
Global Instance traced_credentials {Artifact} `{C : !CredentialArtifactProvider W Artifact} :
  CredentialArtifactProvider TW Artifact :=
  λ id t reference, logged (λ _, EvMaterialize id t reference) (C id t reference).
Global Instance traced_material `{M : !BootstrapMaterialProvider W} : BootstrapMaterialProvider TW := {|
  material_prepare id facts r := logged (λ _, EvPrepare id facts r) (material_prepare id facts r);
  material_finalize id facts receipt r :=
    logged (λ _, EvFinalize id facts receipt r) (material_finalize id facts receipt r)
|}.
Global Instance traced_process {Artifact} `{P : !ProcessController W Artifact} : ProcessController TW Artifact := {|
  process_ensure id t r := logged (λ _, EvProcess (PEnsure id t r)) (process_ensure id t r);
  process_start id t r reference := logged (λ _, EvProcess (PStart id t r reference)) (process_start id t r reference);
  process_stop id t := logged (λ _, EvProcess (PStop id t)) (process_stop id t);
  process_restart id t r reference :=
    logged (λ _, EvProcess (PRestart id t r reference)) (process_restart id t r reference);
  restore_installed_runtime id t reference bearer :=
    logged (λ _, EvProcess (PRestore id t reference bearer)) (restore_installed_runtime id t reference bearer);
  process_rotate_credential id t reference artifact :=
    logged (λ _, EvProcess (PRotate id t reference)) (process_rotate_credential id t reference artifact);
  process_remove_retaining_data id t :=
    logged (λ _, EvProcess (PRemove id t)) (process_remove_retaining_data id t);
  process_observe t := logged (λ _, EvProcess (PObserve t)) (process_observe t)
|}.

Lemma wp_logged {E A} (ev : result E A → Event) (m : ST W E A) w l (Q : result E A → TW → Prop) :
  (∀ r w', Q r (w', l ++ [ev r])) → wp (logged ev m) (w, l) Q.
Proof. unfold wp, logged. cbn. intros H. destruct (m w) as [r w']. apply H. Qed.
Lemma wp_silent {E A} (m : ST W E A) w l (Q : result E A → TW → Prop) :
  (∀ r w', Q r (w', l)) → wp (silent m) (w, l) Q.
Proof. unfold wp, silent. cbn. intros H. destruct (m w) as [r w']. apply H. Qed.
End trace.

(** ** What an intent permits *)

Definition permitted_call (i : OperationIntent) (c : ProcessCall) : Prop :=
  let requested := requested i.(oi_operation_id) in
  match c with
  | PEnsure id t r => id = requested ∧ i.(oi_command) = Ensure t r
  | PStart id t r reference => id = requested ∧ ∃ op, i.(oi_command) = Start t r reference op
  | PStop id t =>
      id = requested ∧ i.(oi_command) = Stop t
      ∨ id = policy_compensation i.(oi_operation_id)
        ∧ ∃ r reference op, i.(oi_command) = Start t r reference op ∨ i.(oi_command) = Restart t r reference op
  | PRestart id t r reference => id = requested ∧ ∃ op, i.(oi_command) = Restart t r reference op
  | PRestore id t reference _ =>
      id = requested ∧ ∃ r op, i.(oi_command) = Start t r reference op ∨ i.(oi_command) = Restart t r reference op
  | PRotate id t reference => id = requested ∧ ∃ r g, i.(oi_command) = RotateCredential t r reference g
  | PRemove id t => id = requested ∧ i.(oi_command) = RemoveRetaining t
  | PObserve _ => True
  end.

Definition permitted (i : OperationIntent) (ev : Event) : Prop :=
  match ev with
  | EvProcess c => permitted_call i c
  | EvMaterialize id t reference => id = i.(oi_operation_id) ∧ ∃ r g, i.(oi_command) = RotateCredential t r reference g
  | EvPrepare id facts r =>
      id = i.(oi_operation_id) ∧ i.(oi_command) = PrepareConnectorMaterial facts
      ∧ r.(cr_digest) = facts.(lf_release_digest) ∧ r.(cr_adapter_kind) = facts.(lf_adapter_kind)
  | EvFinalize id facts receipt r =>
      id = i.(oi_operation_id) ∧ i.(oi_command) = FinalizeConnectorMaterial facts receipt
      ∧ r.(cr_digest) = facts.(lf_release_digest)
  | EvComplete receipt _ _ =>
      receipt.(or_operation_id) = i.(oi_operation_id) ∧ receipt.(or_command_digest) = i.(oi_command_digest)
  | EvLookup _ | EvPending _ | EvPersist _ _ _ => True
  end.

(** reads of the journal and of the processes, and the intent itself *)
Definition needs_intent (ev : Event) : bool :=
  match ev with EvLookup _ | EvPending _ | EvPersist _ _ _ | EvProcess (PObserve _) => false | _ => true end.

(** The journal said that the intent is recorded and not completed. *)
Definition durable (i : OperationIntent) (l : list Event) : Prop :=
  (∃ s, EvPersist i s (Ok tt) ∈ l) ∨ EvLookup (Ok (Some (RPending i))) ∈ l ∨ ∃ pending, EvPending (Ok pending) ∈ l ∧ i ∈ pending.

(** A completion, or a failed attempt to record the intent. *)
Definition final (ev : Event) : bool :=
  match ev with EvComplete _ _ _ | EvPersist _ _ (Err _) => true | _ => false end.

Definition unsettled (l : list Event) : Prop := ∀ ev, ev ∈ l → final ev = false.

Definition justified (l : list Event) (ev : Event) : Prop :=
  unsettled l ∧ (needs_intent ev = true → ∃ i, durable i l ∧ permitted i ev).

Definition ahead (l : list Event) : Prop := ∀ l1 ev l2, l = l1 ++ ev :: l2 → justified l1 ev.

Lemma ahead_nil : ahead [].
Proof. intros [] ? ?; done. Qed.

Lemma ahead_snoc l ev : ahead l → justified l ev → ahead (l ++ [ev]).
Proof.
  intros Hl Hev l1 ev' l2. destruct l2 as [|x l2 _] using rev_ind.
  - by intros [-> [= ->]]%app_inj_tail.
  - change (l1 ++ ev' :: l2 ++ [x]) with (l1 ++ (ev' :: l2) ++ [x]). rewrite (assoc_L (++)).
    intros [Heq _]%app_inj_tail. by eapply Hl.
Qed.

Lemma unsettled_snoc l ev : unsettled l → final ev = false → unsettled (l ++ [ev]).
Proof. intros Hl Hev x. rewrite elem_of_app, list_elem_of_singleton. intros [?| ->]; auto. Qed.

Lemma durable_mono i l l' : durable i l → durable i (l ++ l').
Proof. unfold durable. setoid_rewrite elem_of_app. naive_solver. Qed.

(** The trace of a method that is still running. *)
Definition running (l : list Event) : Prop := ahead l ∧ unsettled l.

Lemma running_read l ev : running l → needs_intent ev = false → final ev = false → running (l ++ [ev]).
Proof. intros [] Hn Hf. split; [apply ahead_snoc; [done|]; split; [done|by rewrite Hn]|by apply unsettled_snoc]. Qed.

Lemma running_effect l i ev : running l → durable i l → permitted i ev → final ev = false → running (l ++ [ev]).
Proof. intros [] Hi Hp Hf. split; [apply ahead_snoc; [done|]; split; eauto|by apply unsettled_snoc]. Qed.

Lemma ahead_effect l i ev : running l → durable i l → permitted i ev → ahead (l ++ [ev]).
Proof. intros [] Hi Hp. apply ahead_snoc; [done|]. split; eauto. Qed.

Lemma ahead_persist l i s r : running l → ahead (l ++ [EvPersist i s r]).
Proof. intros []. apply ahead_snoc; [done|]. split; [done|discriminate]. Qed.

Lemma running_persist l i s u :
  running l → running (l ++ [EvPersist i s (Ok u)]) ∧ durable i (l ++ [EvPersist i s (Ok u)]).
Proof.
  intros Hl. destruct u. split; [by apply running_read|]. left. exists s. set_solver.
Qed.

Section methods.
Context {W Artifact : Type}.
Context `{J : !Journal W} `{R : !ReleaseCatalog W} `{C : !CredentialArtifactProvider W Artifact}.
Context `{M : !BootstrapMaterialProvider W} `{P : !ProcessController W Artifact}.
Notation TW := (W * list Event)%type.

(** ** Programs that record nothing *)

Definition quiet {A} (m : ST TW SupervisorError A) : Prop := ∀ w l Q, (∀ r w', Q r (w', l)) → wp m (w, l) Q.

Lemma quiet_bind {A B} (m : ST TW SupervisorError A) (f : A → ST TW SupervisorError B) :
  quiet m → (∀ a, quiet (f a)) → quiet (m ≫= f).
Proof. intros Hm Hf w l Q HQ. apply wp_bind, Hm. intros [a|e] w'; [by apply Hf|apply HQ]. Qed.
Lemma quiet_lift {A} (r : result SupervisorError A) : quiet (lift r).
Proof. intros w l Q HQ. apply HQ. Qed.
Lemma quiet_ret {A} (a : A) : quiet (mret a).
Proof. intros w l Q HQ. apply HQ. Qed.
Lemma quiet_port {E A} (f : E → SupervisorError) (m : ST W E A) : quiet (port f (silent m)).
Proof. intros w l Q HQ. apply wp_port, wp_silent. intros r w'. apply HQ. Qed.

Ltac quiet :=
  repeat first
    [ apply quiet_lift | apply quiet_ret | apply quiet_port | apply quiet_bind; [|intros ?]
    | match goal with |- quiet (match ?x with _ => _ end) => destruct x end ].

Lemma validate_release_quiet r v : quiet (validate_release r v).
Proof. destruct v; cbn; unfold ensure_release_known, ensure_release_runnable; quiet. Qed.

Lemma validate_intent_quiet s i v : quiet (validate_intent s i v).
Proof.
  unfold validate_intent, validate_intent_state.
  repeat first
    [ apply quiet_lift | apply quiet_ret | apply validate_release_quiet | apply quiet_bind; [|intros ?]
    | match goal with |- quiet (match ?x with _ => _ end) => destruct x end ].
Qed.

Lemma resolve_command_quiet s c : quiet (resolve_command s c).
Proof. unfold resolve_command, ensure_release_runnable. quiet. Qed.

Lemma resolve_for_prepare_quiet b facts : quiet (resolve_for_prepare b facts).
Proof.
  intros w l Q HQ. unfold wp, resolve_for_prepare. cbn. unfold silent. cbn.
  destruct (resolve_runnable _ _ w) as [[r|[| | |]] w']; try apply HQ.
  destruct b; [|apply HQ]. unfold port. cbn. unfold silent. cbn. destruct (resolve_known _ _ w') as [r w'']. apply HQ.
Qed.

Definition is_start (c : DurableHostCommand) : Prop :=
  ∃ r reference op, c = Start (target c) r reference op ∨ c = Restart (target c) r reference op.

Lemma pending_blocked_quiet i w l (Q : result SupervisorError bool → TW → Prop) :
  (∀ r w', (r = Ok true → is_start i.(oi_command)) → Q r (w', l)) →
  wp (pending_start_is_policy_blocked i) (w, l) Q.
Proof.
  intros HQ. unfold wp, pending_start_is_policy_blocked.
  destruct (oi_command i) eqn:Hc; try (by apply HQ);
    cbn; unfold silent; cbn; destruct (resolve_runnable _ _ w) as [[r|[| | |]] w']; try case_decide; apply HQ;
    try done; intros _; unfold is_start; cbn; eauto 10.
Qed.

(** ** The methods *)

Ltac trace_step :=
  lazymatch goal with
  | |- wp (match ?x with _ => _ end) _ _ => destruct x eqn:?
  | |- match map_err _ ?r with Ok _ => _ | Err _ => _ end => destruct r eqn:?; cbn [map_err]
  | |- match ?r with Ok _ => _ | Err _ => _ end => destruct r eqn:?
  | |- wp (validate_intent _ _ _) _ _ => apply validate_intent_quiet; intros ? ?; cbv beta
  | |- wp (resolve_command _ _) _ _ => apply resolve_command_quiet; intros ? ?; cbv beta
  | |- wp (resolve_for_prepare _ _) _ _ => apply resolve_for_prepare_quiet; intros ? ?; cbv beta
  | |- wp (persist_intent _ _) _ _ => apply wp_logged; intros ? ?; cbv beta
  | |- wp (complete _ _) _ _ => apply wp_logged; intros ? ?; cbv beta
  | |- wp (lookup_record _ _) _ _ => apply wp_logged; intros ? ?; cbv beta
  | |- wp (pending_intents _) _ _ => apply wp_logged; intros ? ?; cbv beta
  | |- wp (resolve_known _ _) _ _ => apply wp_silent; intros ? ?; cbv beta
  | |- wp (load_install_state _ _) _ _ => apply wp_silent; intros ? ?; cbv beta
  | |- wp (materialize _ _ _) _ _ => apply wp_logged; intros ? ?; cbv beta
  | |- wp (material_prepare _ _ _) _ _ => apply wp_logged; intros ? ?; cbv beta
  | |- wp (material_finalize _ _ _ _) _ _ => apply wp_logged; intros ? ?; cbv beta
  | |- wp (process_ensure _ _ _) _ _ => apply wp_logged; intros ? ?; cbv beta
  | |- wp (process_start _ _ _ _) _ _ => apply wp_logged; intros ? ?; cbv beta
  | |- wp (process_stop _ _) _ _ => apply wp_logged; intros ? ?; cbv beta
  | |- wp (process_restart _ _ _ _) _ _ => apply wp_logged; intros ? ?; cbv beta
  | |- wp (restore_installed_runtime _ _ _ _) _ _ => apply wp_logged; intros ? ?; cbv beta
  | |- wp (process_rotate_credential _ _ _ _) _ _ => apply wp_logged; intros ? ?; cbv beta
  | |- wp (process_remove_retaining_data _ _) _ _ => apply wp_logged; intros ? ?; cbv beta
  | |- wp (process_observe _) _ _ => apply wp_logged; intros ? ?; cbv beta
  | |- wp _ _ _ => wp_step
  | |- _ => progress cbn [fst snd]
  end.

(** the postcondition: what a method leaves behind is ordered *)
Definition ordered {A} (_ : result SupervisorError A) (sw : HostSupervisor * TW) : Prop := ahead sw.2.2.

Lemma restore_runtime_ordered s i t r reference w l (Q : result SupervisorError unit → TW → Prop) :
  running l → durable i l →
  (∃ op, i.(oi_command) = Start t r reference op ∨ i.(oi_command) = Restart t r reference op) →
  (∀ x w' l', running l' → durable i l' → Q x (w', l')) →
  wp (restore_installed_runtime_if_needed s (requested i.(oi_operation_id)) t r reference) (w, l) Q.
Proof.
  intros Hl Hi Hc HQ. unfold restore_installed_runtime_if_needed. repeat trace_step; auto.
  all: apply HQ; [|by apply durable_mono]; eapply running_effect; eauto; cbn; naive_solver.
Qed.

Lemma apply_process_ordered s i w l (Q : result SupervisorError ProcessObservation → TW → Prop) :
  running l → durable i l →
  (∀ x w' l', running l' → durable i l' → Q x (w', l')) →
  wp (apply_process s i) (w, l) Q.
Proof.
  intros Hl Hi HQ. unfold apply_process. apply wp_bind.
  assert (∀ x w' l', running l' → durable i l' →
    match x with
    | Ok a => wp (lift (reject InvalidProcessObservation when (observation_is_valid s (oi_command i) a = false));;
                  mret a) (w', l') Q
    | Err e => Q (Err e) (w', l')
    end) as Hend.
  { intros [a|e] w' l' Hl' Hi'; repeat trace_step; auto. }
  assert (∀ r w' l' ev, running l' → durable i l' → permitted i ev → final ev = false →
    match map_err ProcessError r with
    | Ok a => wp (lift (reject InvalidProcessObservation when (observation_is_valid s (oi_command i) a = false));;
                  mret a) (w', l' ++ [ev]) Q
    | Err e => Q (Err e) (w', l' ++ [ev])
    end) as Hcall.
  { intros r w' l' ev Hl' Hi' Hp Hf. apply Hend; [by eapply running_effect|by apply durable_mono]. }
  destruct (oi_command i) eqn:Hc;
    repeat lazymatch goal with
    | |- match map_err ProcessError _ with Ok _ => _ | Err _ => _ end => fail
    | |- wp (restore_installed_runtime_if_needed _ _ _ _ _) _ _ =>
        eapply restore_runtime_ordered; [done|done|by eauto|intros [] ? ? ? ?]
    | |- _ => trace_step
    end.
  all: lazymatch goal with
  | |- match map_err ProcessError _ with Ok _ => _ | Err _ => _ end => apply Hcall; try done; cbn
  | |- _ => apply HQ; try done
  end.
  all: rewrite ?Hc; first [by apply durable_mono|eapply running_effect; [done|done|cbn; rewrite Hc; by eauto|done]|by eauto 10].
Qed.

(** The trace so far is ordered also when the method stops here. *)
Lemma ordered_running l : running l → ahead l.
Proof. by intros []. Qed.

Ltac settle := repeat trace_step; unfold ordered; cbn [fst snd]; auto using ordered_running;
  try (eapply ahead_effect; [done|done|by split]).

Lemma apply_intent_ordered i application s w l :
  running l → durable i l → wp (apply_intent i application) (s, (w, l)) ordered.
Proof.
  intros Hl Hi. unfold apply_intent.
  repeat lazymatch goal with
  | |- wp (apply_process _ _) _ _ => apply apply_process_ordered; [done|done|intros [] ? ? ? ?]
  | |- _ => trace_step
  end; settle.
Qed.

Lemma restore_completed_ordered i receipt s w l :
  running l → wp (restore_completed i receipt) (s, (w, l)) ordered.
Proof. intros Hl. unfold restore_completed. settle. Qed.

Lemma restore_install_ordered i receipt s w l :
  running l → wp (restore_install_completed i receipt) (s, (w, l)) ordered.
Proof. intros Hl. unfold restore_install_completed. settle. Qed.

Lemma policy_blocked_ordered i s w l :
  running l → durable i l → is_start i.(oi_command) → wp (reconcile_policy_blocked_start i) (s, (w, l)) ordered.
Proof.
  intros Hl Hi Hc. unfold reconcile_policy_blocked_start.
  assert (permitted i (EvProcess (PStop (policy_compensation i.(oi_operation_id)) (target i.(oi_command))))) as Hp
    by (right; by split).
  pose proof (running_effect _ _ _ Hl Hi Hp eq_refl) as Hl'. pose proof (durable_mono _ _
    [EvProcess (PStop (policy_compensation i.(oi_operation_id)) (target i.(oi_command)))] Hi) as Hi'.
  settle.
Qed.

Lemma retry_ordered i s w l :
  running l → durable i l →
  wp (blocked ← io (pending_start_is_policy_blocked i);
      if blocked : bool then reconcile_policy_blocked_start i else apply_intent i ByReconciling) (s, (w, l)) ordered.
Proof.
  intros Hl Hi. apply wp_bind, wp_io. apply pending_blocked_quiet. intros [[|]|e] w' Hb.
  - by apply policy_blocked_ordered; auto.
  - by apply apply_intent_ordered.
  - by apply ordered_running.
Qed.

(** closes the goals where the method has so far read, or tried to persist *)
Ltac running :=
  first [assumption|apply running_read; [running|reflexivity|reflexivity]].
Ltac stops :=
  unfold ordered; cbn [fst snd];
  first [ apply ahead_persist; running | apply ordered_running; running
        | eapply ahead_effect; [eassumption|eassumption|by split] ].

(** the effect for which the intent was just recorded *)
Ltac effect :=
  lazymatch goal with
  | |- wp _ (_, ?l ++ [EvPersist ?i ?s (Ok ?u)]) _ =>
      let Hl := fresh "Hl" in let Hi := fresh "Hi" in
      destruct (running_persist l i s u) as [Hl Hi]; [running|];
      apply wp_logged; intros ? ?; cbv beta;
      lazymatch goal with
      | |- context [?k ++ [?ev]] =>
          assert (running (k ++ [ev])) by (eapply running_effect; [exact Hl|exact Hi|cbn; by not_ors|done]);
          pose proof (durable_mono _ _ [ev] Hi)
      end
  end.

Lemma execute_ordered e s w l : running l → wp (execute e) (s, (w, l)) ordered.
Proof.
  intros Hl. unfold execute.
  repeat lazymatch goal with
  | |- wp (restore_completed _ _) _ _ => apply restore_completed_ordered; running
  | |- wp (io (pending_start_is_policy_blocked _) ≫= _) _ _ =>
      apply retry_ordered; [running|subst; right; left; set_solver]
  | |- wp (apply_intent _ _) _ _ => apply apply_intent_ordered; apply running_persist; running
  | |- _ => trace_step
  end.
  all: stops.
Qed.

Lemma reconcile_ordered s w l : running l → wp reconcile (s, (w, l)) ordered.
Proof.
  intros Hl. unfold reconcile.
  repeat lazymatch goal with
  | |- wp (io (pending_start_is_policy_blocked ?i) ≫= _) _ _ => fail
  | |- _ => trace_step
  end; try stops.
  (* the retry of the only pending intent, whose result is wrapped in a list *)
  match goal with |- wp (io (pending_start_is_policy_blocked ?i) ≫= _) (_, (_, ?l')) _ =>
    assert (running l') as Hl' by running;
    assert (durable i l') as Hi by (subst; right; right; eexists; split;
      [apply elem_of_app; right; apply list_elem_of_singleton; reflexivity|set_solver])
  end.
  apply wp_bind, wp_io. apply pending_blocked_quiet. intros [[|]|e] ? Hb.
  - apply wp_bind. eapply wp_mono; [by apply policy_blocked_ordered; auto|]. by intros [|] ? ?.
  - apply wp_bind. eapply wp_mono; [by apply apply_intent_ordered|]. by intros [|] ? ?.
  - by apply ordered_running.
Qed.

Lemma prepare_material_ordered e facts retrying s w l :
  running l → wp (prepare_material e facts retrying) (s, (w, l)) ordered.
Proof.
  intros Hl. unfold prepare_material.
  repeat lazymatch goal with
  | |- wp (material_prepare _ _ _) _ _ => effect
  | |- _ => trace_step
  end; stops.
Qed.

Lemma prepare_ordered e s w l : running l → wp (prepare_connector_material e) (s, (w, l)) ordered.
Proof.
  intros Hl. unfold prepare_connector_material.
  repeat lazymatch goal with
  | |- wp (restore_install_completed _ _) _ _ => apply restore_install_ordered; running
  | |- wp (prepare_material _ _ _) _ _ => apply prepare_material_ordered; running
  | |- _ => trace_step
  end; stops.
Qed.

Lemma finalize_material_ordered e facts receipt s w l :
  running l → wp (finalize_material e facts receipt) (s, (w, l)) ordered.
Proof.
  intros Hl. unfold finalize_material.
  repeat lazymatch goal with
  | |- wp (material_finalize _ _ _ _) _ _ => effect
  | |- _ => trace_step
  end; stops.
Qed.

Lemma finalize_ordered e s w l : running l → wp (finalize_connector_material e) (s, (w, l)) ordered.
Proof.
  intros Hl. unfold finalize_connector_material.
  repeat lazymatch goal with
  | |- wp (restore_install_completed _ _) _ _ => apply restore_install_ordered; running
  | |- wp (finalize_material _ _ _) _ _ => apply finalize_material_ordered; running
  | |- _ => trace_step
  end; stops.
Qed.

Lemma ordered_drop {A} (m : ST (HostSupervisor * TW) SupervisorError A) sw : wp m sw ordered → wp (m;; mret tt) sw ordered.
Proof. intros Hm. apply wp_bind. eapply wp_mono; [apply Hm|]. by intros [|] ? ?. Qed.

Lemma serve_ordered q s w l : running l → wp (serve q) (s, (w, l)) ordered.
Proof.
  intros Hl. destruct q; cbn [serve]; try apply ordered_drop;
    auto using execute_ordered, reconcile_ordered, prepare_ordered, finalize_ordered.
  - unfold rehydrate_install_state. repeat trace_step; stops.
  - unfold observe. repeat trace_step; stops.
Qed.

(** ** Theorems *)

(** C9. Write-ahead.  In the record of what one call did to the outside, on any ports,
    every materialisation of a credential, every process mutation, every use of the
    install material and every completion comes after the journal confirmed that the
    intent of that operation is recorded and pending, it carries the operation
    identity and the arguments of that intent, and nothing at all follows a
    completion or a refused intent. *)
Theorem effects_follow_a_durable_intent (q : Request) (s : HostSupervisor) (w : W) l1 ev l2 :
  let '(_, (_, trace)) := (serve q (s, (w, []))).2 in
  trace = l1 ++ ev :: l2 →
  unsettled l1 ∧ (needs_intent ev = true → ∃ i, durable i l1 ∧ permitted i ev).
Proof.
  assert (running []) as Hnil by (split; [apply ahead_nil|intros ? []%not_elem_of_nil]).
  pose proof (serve_ordered q s w [] Hnil) as H. unfold wp, ordered in H.
  destruct (serve q (s, (w, []))) as [r [s' [w' trace]]]. intros Ht. by eapply H.
Qed.

(** The method that serves an envelope. *)
Definition submit {V} `{!Journal V, !ReleaseCatalog V, !CredentialArtifactProvider V Artifact,
    !BootstrapMaterialProvider V, !ProcessController V Artifact} (e : HostCommandEnvelope) :
    ST (HostSupervisor * V) SupervisorError CommandResult :=
  match e.(he_command) with
  | HPrepareConnectorMaterial _ => prepare_connector_material e
  | HFinalizeConnectorMaterial _ _ => finalize_connector_material e
  | _ => execute e
  end.

(** the postcondition of a replay whose trace so far is [l] *)
Definition replayed (o : CommandOutcome) (l : list Event) (r : result SupervisorError CommandResult)
    (sw : HostSupervisor * TW) : Prop :=
  sw.2.2 = l ∧ ∀ x, r = Ok x → x = MkCommandResult ByReplay o.

Ltac replays := repeat trace_step; unfold replayed; cbn [fst snd]; naive_solver.

Lemma restore_completed_replays i receipt s w l :
  wp (restore_completed i receipt) (s, (w, l)) (replayed receipt.(or_outcome) l).
Proof. unfold restore_completed. replays. Qed.

Lemma restore_install_replays i receipt s w l :
  wp (restore_install_completed i receipt) (s, (w, l)) (replayed receipt.(or_outcome) l).
Proof. unfold restore_install_completed. replays. Qed.

Lemma wp_lookup_known id w w1 s l record (Q : result SupervisorError _ → HostSupervisor * TW → Prop) :
  lookup_record s.(host_id) id w = (Ok record, w1) →
  Q (Ok record) (s, (w1, l ++ [EvLookup (Ok record)])) →
  wp (io (port JournalError (lookup_record s.(host_id) id))) (s, (w, l)) Q.
Proof. intros H HQ. unfold wp, io, port. cbn. unfold logged. cbn. by rewrite H. Qed.

(** Replay.  An envelope whose operation the journal records as completed is
    answered with the recorded outcome or refused, on any ports: the only outside
    effect of the call is the journal lookup, and an answer is given only when the
    recorded intent is that of the envelope. *)
Theorem completed_operation_is_replayed (e : HostCommandEnvelope) (s : HostSupervisor) (w w1 : W) i receipt :
  lookup_record s.(host_id) e.(he_operation_id) w = (Ok (Some (RCompleted i receipt)), w1) →
  let '(r, (_, (_, trace))) := submit e (s, (w, [])) in
  (trace = [] ∨ trace = [EvLookup (Ok (Some (RCompleted i receipt)))]) ∧
  ∀ x, r = Ok x → x = MkCommandResult ByReplay receipt.(or_outcome) ∧ validate_intent_for_envelope i e = Ok tt.
Proof.
  intros Hlook.
  assert (wp (submit e) (s, (w, [])) (λ r sw,
    (sw.2.2 = [] ∨ sw.2.2 = [EvLookup (Ok (Some (RCompleted i receipt)))]) ∧
    ∀ x, r = Ok x → x = MkCommandResult ByReplay receipt.(or_outcome) ∧ validate_intent_for_envelope i e = Ok tt)) as H.
  { unfold submit, execute, prepare_connector_material, finalize_connector_material.
    destruct (he_command e);
      repeat lazymatch goal with
      | |- wp (io (port JournalError (lookup_record _ _))) _ _ => eapply wp_lookup_known; [done|]; cbv beta iota
      | |- wp (restore_completed _ _) _ _ => eapply wp_mono; [apply restore_completed_replays|intros ? ? [? ?]]
      | |- wp (restore_install_completed _ _) _ _ => eapply wp_mono; [apply restore_install_replays|intros ? ? [? ?]]
      | |- wp _ _ _ => trace_step
      | |- match _ with Ok _ => _ | Err _ => _ end => trace_step
      end; repeat match goal with a : () |- _ => destruct a end; cbn; naive_solver. }
  unfold wp in H. by destruct (submit e (s, (w, []))) as [r [s' [w' trace]]].
Qed.
End methods.
End Effects.
