(* ===== verification/HostJournal.v ===== *)
(** * Host supervisor: the durable operation journal

    Models [crates/dtx-agent-host-supervisor/src/linux/journal.rs].  The [*Wire]
    structs of that file hold the fields of the domain values as plain integers and
    byte arrays; here they are the domain records themselves, and [rehydrate] is the
    check it makes on them.  [serde_json] is a parameter: the bytes of a record and
    of a snapshot, which are hashed, and the size of a file.  The disk holds the
    decoded file, and every access consumes one entry of a fault script that may
    make it fail, before or after it took effect. *)

From S2P Require Import Prelude Domain WirePrimitives WireValues Connector ControlProof HostTypes HostSupervisor.

Module FileJournal.
Import Control HostTypes Supervisor.

Notation check := (result unit unit).
(** [if condition { return Err(()) }] *)
Notation "'fail_when' P" := (reject_if P tt) (at level 70, P at level 69).

(** ** Wire values *)

Definition Release_rehydrate (r : CatalogRelease) : check :=
  _ ← map_err (λ _, tt) (Revision.new r.(cr_catalog_revision)); Ok tt.

Definition Fence_rehydrate (f : HostRevisionFence) : check :=
  _ ← map_err (λ _, tt) (Fence_new f.(desired) f.(observed)); Ok tt.

Definition Command_rehydrate (c : DurableHostCommand) : check :=
  match command_release c with Some release => Release_rehydrate release | None => Ok tt end.

Definition Credentials_rehydrate (c : BootstrapCredentialFacts) : check :=
  _ ← map_err (λ _, tt) (Revision.new c.(bc_revision)); Ok tt.

Definition InstallProof_rehydrate (p : InstallProof) : check := Credentials_rehydrate (install_credentials p).

Definition Outcome_rehydrate (o : CommandOutcome) : check := Fence_rehydrate o.(co_revisions).

Definition Instance_rehydrate (i : ManagedConnectorSnapshot) : check :=
  Release_rehydrate i.(m_release);;
  fail_when (i.(m_release).(cr_adapter_kind) ≠ i.(m_adapter_kind) ∨ instance_is_valid i = false).

Definition Snapshot_rehydrate (s : SupervisorSnapshot) : check :=
  fence ← map_err (λ _, tt) (Fence_new s.(ss_desired_revision) s.(ss_observed_revision));
  try_fold (λ _, Instance_rehydrate) s.(ss_instances) tt;;
  fail_when (distinct_ids s.(ss_instances) ∅ = false
             ∨ s.(ss_instances) ≠ [] ∧ (fence.(desired) = Revision.INITIAL ∨ fence.(observed) ≠ Some fence.(desired))).

Definition by_connector_id (x y : ManagedConnectorSnapshot) : Prop := ord_le x.(m_connector_id) y.(m_connector_id).
Global Instance by_connector_id_dec : RelDecision by_connector_id.
Proof. intros x y. unfold by_connector_id. apply _. Defined.

(** [SnapshotWire::from_snapshot] *)
Definition from_snapshot (s : SupervisorSnapshot) : SupervisorSnapshot :=
  {| ss_tenant_id := s.(ss_tenant_id); ss_host_id := s.(ss_host_id);
     ss_desired_revision := s.(ss_desired_revision); ss_observed_revision := s.(ss_observed_revision);
     ss_instances := merge_sort by_connector_id s.(ss_instances) |}.

(** ** Records and the file *)

Inductive Record_ : Type :=
| Pending (sequence : Z) (previous_record_digest : bytes) (intent : OperationIntent)
    (predecessor_snapshot : SupervisorSnapshot) (predecessor_snapshot_digest : bytes)
| Completed (sequence : Z) (previous_record_digest : bytes) (intent : OperationIntent) (receipt : OperationReceipt)
    (predecessor_snapshot : SupervisorSnapshot) (predecessor_snapshot_digest : bytes)
    (resulting_snapshot : SupervisorSnapshot) (resulting_snapshot_digest : bytes).
Global Instance Record_eq_dec : EqDecision Record_.
Proof. solve_decision. Defined.

Definition sequence (r : Record_) : Z := match r with Pending s _ _ _ _ | Completed s _ _ _ _ _ _ _ => s end.
Definition previous_record_digest (r : Record_) : bytes :=
  match r with Pending _ d _ _ _ | Completed _ d _ _ _ _ _ _ => d end.
Definition record_intent (r : Record_) : OperationIntent :=
  match r with Pending _ _ i _ _ | Completed _ _ i _ _ _ _ _ => i end.
Definition operation_id (r : Record_) : HostOperationId := (record_intent r).(oi_operation_id).
Definition is_pending (r : Record_) : bool := match r with Pending _ _ _ _ _ => true | _ => false end.
Definition predecessor_snapshot (r : Record_) : SupervisorSnapshot :=
  match r with Pending _ _ _ s _ | Completed _ _ _ _ s _ _ _ => s end.
Definition predecessor_snapshot_digest (r : Record_) : bytes :=
  match r with Pending _ _ _ _ d | Completed _ _ _ _ _ d _ _ => d end.

Record JournalFile : Type := {
  schema : bytes;
  version : Z;
  jf_host_id : HostId;
  generation : Z;
  genesis_anchor : bytes;
  chain_tip : bytes;
  jf_snapshot : option SupervisorSnapshot;
  records : list Record_
}.
Global Instance JournalFile_eq_dec : EqDecision JournalFile.
Proof. solve_decision. Defined.
Definition JournalFile_eta (j : JournalFile) : JournalFile :=
  {| schema := j.(schema); version := j.(version); jf_host_id := j.(jf_host_id); generation := j.(generation);
     genesis_anchor := j.(genesis_anchor); chain_tip := j.(chain_tip); jf_snapshot := j.(jf_snapshot);
     records := j.(records) |}.
Global Instance generation_field : Field generation := ltac:(field_of JournalFile_eta generation).
Global Instance chain_tip_field : Field chain_tip := ltac:(field_of JournalFile_eta chain_tip).
Global Instance jf_snapshot_field : Field jf_snapshot := ltac:(field_of JournalFile_eta jf_snapshot).
Global Instance records_field : Field records := ltac:(field_of JournalFile_eta records).

Definition SCHEMA : bytes := str "dirextalk.host-supervisor.operation-journal".
Definition VERSION : Z := 4.
Definition MAX_JOURNAL_BYTES : Z := 16 * 1024 * 1024.

(** ** Checks of one step *)

Definition snapshot_fence (s : SupervisorSnapshot) : option HostRevisionFence :=
  result_ok (from_revisions s.(ss_desired_revision) s.(ss_observed_revision)).

(** [snapshot.instances.iter().find(|i| i.connector_id == id)] *)
Definition find_instance (s : SupervisorSnapshot) (id : ConnectorId) : option ManagedConnectorSnapshot :=
  snd <$> list_find (λ i, i.(m_connector_id) = id) s.(ss_instances).

Definition validate_predecessor_command (predecessor : SupervisorSnapshot) (i : OperationIntent) : check :=
  match i.(oi_command) with
  | PrepareConnectorMaterial _ | FinalizeConnectorMaterial _ _ => Ok tt
  | c => map_err (λ _, tt)
           (validate_durable_command_precondition (find_instance predecessor (target c).(t_connector_id)) c)
  end.

Definition validate_lifecycle_transition (before : option ManagedConnectorSnapshot) (after : ManagedConnectorSnapshot)
    (c : DurableHostCommand) (d : CommandDisposition) : check :=
  map_err (λ _, tt) (validate_durable_command_precondition before c);;
  let expect s := fail_when (after.(m_desired_state) ≠ s) in
  match c, d with
  | (Start _ _ _ _ | Restart _ _ _ _), PolicyBlocked => expect DesiredStopped
  | _, PolicyBlocked => Err tt
  | Ensure _ _, Applied => expect EnsuredStopped
  | (Start _ _ _ _ | Restart _ _ _ _), Applied => expect DesiredRunning
  | Stop _, Applied => expect DesiredStopped
  | RotateCredential _ _ _ _, Applied => before ← ok_or before tt; expect before.(m_desired_state)
  | RemoveRetaining _, Applied => expect RemovedRetainingData
  | PrepareConnectorMaterial _, Applied => expect EnsuredStopped
  | FinalizeConnectorMaterial _ _, Applied => expect DesiredRunning
  | PrepareConnectorMaterial _, ExpiredUnclaimed => Ok tt
  | _, ExpiredUnclaimed => Err tt
  end.

Definition validate_unchanged_siblings (predecessor resulting : SupervisorSnapshot) (id : ConnectorId)
    (target_is_new : bool) : check :=
  try_fold (λ _ sibling, fail_when (find_instance resulting sibling.(m_connector_id) ≠ Some sibling))
    (filter (λ i, i.(m_connector_id) ≠ id) predecessor.(ss_instances)) tt;;
  fail_when (length resulting.(ss_instances) ≠
             (length predecessor.(ss_instances) + (if target_is_new then 1 else 0))%nat).

Definition validate_snapshot_outcome (s : SupervisorSnapshot) (r : OperationReceipt) : check :=
  let o := r.(or_outcome) in
  instance ← ok_or (find_instance s o.(co_connector_id)) tt;
  fail_when (snapshot_fence s ≠ Some o.(co_revisions) ∨ instance.(m_desired_state) ≠ o.(co_desired_state)
             ∨ instance.(m_observation) ≠ o.(co_observation)
             ∨ instance.(m_credential_generation) ≠ o.(co_credential_generation)).

Definition validate_completed_snapshot_projection (s : SupervisorSnapshot) (i : OperationIntent)
    (r : OperationReceipt) : check :=
  validate_snapshot_outcome s r;;
  let t := target i.(oi_command) in
  instance ← ok_or (find_instance s t.(t_connector_id)) tt;
  fail_when (instance.(m_adapter_kind) ≠ t.(t_adapter_kind));;
  match i.(oi_command) with
  | Ensure _ release => fail_when (instance.(m_release) ≠ release)
  | Start _ release reference operation | Restart _ release reference operation =>
      fail_when (instance.(m_release) ≠ release ∨ instance.(m_credential_ref) ≠ Some reference
                 ∨ instance.(m_credential_operation_id) ≠ Some operation)
  | RotateCredential _ release reference generation =>
      fail_when (instance.(m_release) ≠ release ∨ instance.(m_credential_ref) ≠ Some reference
                 ∨ instance.(m_credential_generation) ≠ generation
                 ∨ instance.(m_credential_operation_id) ≠ Some i.(oi_operation_id))
  | Stop _ | RemoveRetaining _ | PrepareConnectorMaterial _ | FinalizeConnectorMaterial _ _ => Ok tt
  end.

(** the last [match] of [validate_snapshot_transition] *)
Definition validate_instance_change (before : option ManagedConnectorSnapshot) (after : ManagedConnectorSnapshot)
    (i : OperationIntent) : check :=
  match i.(oi_command) with
  | Ensure _ release =>
      fail_when (after.(m_release) ≠ release
                 ∨ after.(m_credential_generation) ≠ from_option m_credential_generation 0 before
                 ∨ after.(m_credential_ref) ≠ before ≫= m_credential_ref
                 ∨ after.(m_credential_operation_id) ≠ before ≫= m_credential_operation_id)
  | Start _ release reference operation | Restart _ release reference operation =>
      before ← ok_or before tt;
      fail_when (before.(m_adapter_kind) ≠ after.(m_adapter_kind) ∨ before.(m_release) ≠ release
                 ∨ after.(m_release) ≠ release
                 ∨ before.(m_credential_generation) ≠ after.(m_credential_generation)
                 ∨ before.(m_credential_ref) ≠ Some reference ∨ after.(m_credential_ref) ≠ Some reference
                 ∨ before.(m_credential_operation_id) ≠ after.(m_credential_operation_id)
                 ∨ before.(m_credential_operation_id) ≠ Some operation)
  | Stop _ | RemoveRetaining _ =>
      before ← ok_or before tt;
      fail_when (before.(m_adapter_kind) ≠ after.(m_adapter_kind) ∨ before.(m_release) ≠ after.(m_release)
                 ∨ before.(m_credential_generation) ≠ after.(m_credential_generation)
                 ∨ before.(m_credential_ref) ≠ after.(m_credential_ref)
                 ∨ before.(m_credential_operation_id) ≠ after.(m_credential_operation_id))
  | RotateCredential _ release reference generation =>
      before ← ok_or before tt;
      fail_when (before.(m_adapter_kind) ≠ after.(m_adapter_kind) ∨ before.(m_release) ≠ release
                 ∨ after.(m_release) ≠ release
                 ∨ before.(m_credential_generation) + 1 ≠ generation
                 ∨ after.(m_credential_generation) ≠ generation
                 ∨ after.(m_credential_ref) ≠ Some reference
                 ∨ after.(m_credential_operation_id) ≠ Some i.(oi_operation_id))
  | PrepareConnectorMaterial _ | FinalizeConnectorMaterial _ _ => Ok tt
  end.

Definition validate_snapshot_transition (predecessor resulting : SupervisorSnapshot) (i : OperationIntent)
    (r : OperationReceipt) : check :=
  let o := r.(or_outcome) in
  fail_when (predecessor.(ss_tenant_id) ≠ resulting.(ss_tenant_id)
             ∨ predecessor.(ss_host_id) ≠ resulting.(ss_host_id)
             ∨ predecessor.(ss_tenant_id) ≠ i.(oi_tenant_id) ∨ predecessor.(ss_host_id) ≠ i.(oi_host_id)
             ∨ snapshot_fence predecessor ≠ Some i.(oi_expected)
             ∨ (o.(co_disposition) ≠ ExpiredUnclaimed ∧ snapshot_fence resulting ≠ Some i.(oi_resulting)));;
  let t := target i.(oi_command) in
  if decide (o.(co_disposition) = ExpiredUnclaimed) then
    match i.(oi_command) with PrepareConnectorMaterial _ => Ok tt | _ => Err tt end;;
    fail_when (o.(co_revisions) ≠ i.(oi_expected) ∨ predecessor ≠ resulting)
  else
    let before := find_instance predecessor t.(t_connector_id) in
    after ← ok_or (find_instance resulting t.(t_connector_id)) tt;
    fail_when (after.(m_adapter_kind) ≠ t.(t_adapter_kind));;
    validate_lifecycle_transition before after i.(oi_command) o.(co_disposition);;
    validate_completed_snapshot_projection resulting i r;;
    validate_unchanged_siblings predecessor resulting t.(t_connector_id) (bool_decide (before = None));;
    validate_instance_change before after i.

(** ** The disk *)

(** One access of the file system: it works, it fails without an effect, or it fails
    after its effect. *)
Inductive IoFault : Type := IoOk | IoError (e : PortError) | IoErrorAfter (e : PortError).
Record Disk : Type := { disk_file : option JournalFile; faults : list IoFault }.

Section journal.
Context `{Sha : Sha256}.
(** [serde_json::to_vec] of a record and of a snapshot, and the length of that of a file *)
Context (record_json : Record_ → bytes) (snapshot_json : SupervisorSnapshot → bytes) (json_size : JournalFile → Z).
(** [self.host_id] *)
Context (host : HostId).

Definition journal_genesis_anchor (h : HostId) : bytes :=
  sha256 (str "dirextalk.host-supervisor.operation-journal.v4.genesis" ++ [0] ++ uuid_bytes h).
Definition record_digest (r : Record_) : bytes :=
  sha256 (str "dirextalk.host-supervisor.operation-journal.v4.record" ++ [0] ++ record_json r).
Definition snapshot_wire_digest (s : SupervisorSnapshot) : bytes := sha256 (snapshot_json s).

Definition Intent_rehydrate (i : OperationIntent) : check :=
  Fence_rehydrate i.(oi_expected);;
  Fence_rehydrate i.(oi_resulting);;
  Command_rehydrate i.(oi_command);;
  fail_when (intent_rehydrates i = false).

Definition Receipt_rehydrate (i : OperationIntent) (r : OperationReceipt) : check :=
  Outcome_rehydrate r.(or_outcome);;
  match r.(or_install_proof) with Some p => InstallProof_rehydrate p | None => Ok tt end;;
  fail_when (receipt_rehydrates i r = false).

(** [Record::rehydrate] *)
Definition Record_rehydrate (r : Record_) : result unit JournalRecord :=
  match r with
  | Pending _ _ i _ _ => Intent_rehydrate i;; Ok (RPending i)
  | Completed _ _ i receipt _ _ _ _ =>
      Intent_rehydrate i;;
      Receipt_rehydrate i receipt;;
      Ok (RCompleted i receipt)
  end.

Definition JournalFile_empty : JournalFile :=
  let anchor := journal_genesis_anchor host in
  {| schema := SCHEMA; version := VERSION; jf_host_id := host; generation := 0; genesis_anchor := anchor;
     chain_tip := anchor; jf_snapshot := None; records := [] |}.

Definition next_record_sequence (j : JournalFile) : result unit Z :=
  let sequence := Z.of_nat (length j.(records)) + 1 in
  fail_when (sequence > Revision.MAX);;
  Ok sequence.

Definition computed_chain_tip (j : JournalFile) : bytes :=
  from_option record_digest j.(genesis_anchor) (last j.(records)).

(** *** [JournalFile::validate] *)

(** the local variables of the loop *)
Record Scan : Type := {
  sc_index : nat;
  sc_ids : gset HostOperationId;
  sc_tenant : option TenantId;
  sc_pending_seen : bool;
  sc_prior_resulting : option HostRevisionFence;
  sc_prior_snapshot : option SupervisorSnapshot;
  sc_prepared : gmap ConnectorId (ConnectorLifecycleFacts * PreparedReceiptDigest * BootstrapCredentialFacts);
  sc_previous_digest : bytes
}.

(** [match receipt.install_proof()] *)
Definition scan_proof (c : DurableHostCommand) (receipt : OperationReceipt)
    (prepared : gmap ConnectorId (ConnectorLifecycleFacts * PreparedReceiptDigest * BootstrapCredentialFacts)) :
    result unit (gmap ConnectorId (ConnectorLifecycleFacts * PreparedReceiptDigest * BootstrapCredentialFacts)) :=
  match receipt.(or_install_proof) with
  | Some (Prepared facts prepared_receipt credentials _) =>
      match c with PrepareConnectorMaterial _ => Ok tt | _ => Err tt end;;
      Ok (<[facts.(lf_connector_id) := (facts, prepared_receipt, credentials)]> prepared)
  | Some (Finalized facts prepared_receipt _ credentials _) =>
      before ← ok_or (prepared !! facts.(lf_connector_id)) tt;
      match c with FinalizeConnectorMaterial _ _ => Ok tt | _ => Err tt end;;
      fail_when (before ≠ (facts, prepared_receipt, credentials));;
      Ok prepared
  | None =>
      match c with
      | PrepareConnectorMaterial _ | FinalizeConnectorMaterial _ _ =>
          fail_when (receipt.(or_outcome).(co_disposition) ≠ ExpiredUnclaimed)
      | _ => Ok tt
      end;;
      Ok prepared
  end.

(** one iteration, for a file of [total] records *)
Definition scan_record (total : nat) (st : Scan) (r : Record_) : result unit Scan :=
  fail_when (sequence r ≠ Z.of_nat st.(sc_index) + 1 ∨ previous_record_digest r ≠ st.(sc_previous_digest));;
  rehydrated ← Record_rehydrate r;
  let i := record_intent r in
  fail_when (i.(oi_host_id) ≠ host ∨ i.(oi_operation_id) ∈ st.(sc_ids)
             ∨ match st.(sc_tenant) with Some t => t ≠ i.(oi_tenant_id) | None => False end
             ∨ match st.(sc_prior_resulting) with Some f => f ≠ i.(oi_expected) | None => False end);;
  let predecessor := predecessor_snapshot r in
  fail_when (snapshot_wire_digest predecessor ≠ predecessor_snapshot_digest r
             ∨ match st.(sc_prior_snapshot) with Some s => s ≠ predecessor | None => False end);;
  Snapshot_rehydrate predecessor;;
  fail_when (predecessor.(ss_host_id) ≠ host ∨ predecessor.(ss_tenant_id) ≠ i.(oi_tenant_id)
             ∨ snapshot_fence predecessor ≠ Some i.(oi_expected));;
  validate_predecessor_command predecessor i;;
  '(pending, snapshot, prepared, resulting) ←
    match r with
    | Pending _ _ _ _ _ =>
        fail_when (st.(sc_pending_seen) = true ∨ S st.(sc_index) ≠ total);;
        Ok (true, predecessor, st.(sc_prepared), i.(oi_resulting))
    | Completed _ _ _ receipt _ _ resulting digest =>
        fail_when (snapshot_wire_digest resulting ≠ digest);;
        Snapshot_rehydrate resulting;;
        validate_snapshot_transition predecessor resulting i receipt;;
        prepared ← scan_proof i.(oi_command) receipt st.(sc_prepared);
        Ok (st.(sc_pending_seen), resulting, prepared,
            if decide (receipt.(or_outcome).(co_disposition) = ExpiredUnclaimed)
            then receipt.(or_outcome).(co_revisions) else i.(oi_resulting))
    end;
  Ok {| sc_index := S st.(sc_index); sc_ids := {[ i.(oi_operation_id) ]} ∪ st.(sc_ids);
        sc_tenant := Some i.(oi_tenant_id); sc_pending_seen := pending; sc_prior_resulting := Some resulting;
        sc_prior_snapshot := Some snapshot; sc_prepared := prepared; sc_previous_digest := record_digest r |}.

Definition scan_start (j : JournalFile) : Scan :=
  {| sc_index := 0; sc_ids := ∅; sc_tenant := None; sc_pending_seen := false; sc_prior_resulting := None;
     sc_prior_snapshot := None; sc_prepared := ∅; sc_previous_digest := j.(genesis_anchor) |}.

Definition count_completed (l : list Record_) : nat := length (filter (λ r, is_pending r = false) l).

Definition validate (j : JournalFile) : check :=
  fail_when (j.(schema) ≠ SCHEMA ∨ j.(version) ≠ VERSION ∨ j.(jf_host_id) ≠ host ∨ j.(generation) > Revision.MAX
             ∨ j.(genesis_anchor) ≠ journal_genesis_anchor host);;
  match j.(jf_snapshot) with Some s => Snapshot_rehydrate s | None => Ok tt end;;
  fail_when (¬ (j.(records) = [] ↔ j.(jf_snapshot) = None));;
  fail_when (j.(generation) ≠ Z.of_nat (length j.(records) + count_completed j.(records)));;
  st ← try_fold (scan_record (length j.(records))) j.(records) (scan_start j);
  fail_when (j.(jf_snapshot) ≠ st.(sc_prior_snapshot) ∨ j.(chain_tip) ≠ st.(sc_previous_digest)
             ∨ match j.(jf_snapshot) with Some s => s.(ss_host_id) ≠ host | None => False end).

(** *** File access *)

Notation DiskIO := (ST Disk PortError).

(** an access with no effect on the file *)
Definition access : DiskIO unit := λ d,
  match d.(faults) with
  | [] => (Ok tt, d)
  | f :: fs => (match f with IoOk => Ok tt | IoError e | IoErrorAfter e => Err e end,
                {| disk_file := d.(disk_file); faults := fs |})
  end.

(** writing the temporary file, renaming it over the journal and syncing the directory *)
Definition replace_file (j : JournalFile) : DiskIO unit := λ d,
  let written := {| disk_file := Some j; faults := tail d.(faults) |} in
  match d.(faults) with
  | [] | IoOk :: _ => (Ok tt, written)
  | IoError e :: fs => (Err e, {| disk_file := d.(disk_file); faults := fs |})
  | IoErrorAfter e :: _ => (Err e, written)
  end.

Definition read : DiskIO JournalFile :=
  access;;
  d ← get;
  match d.(disk_file) with
  | None => mret JournalFile_empty
  | Some j =>
      lift (reject InvalidArtifact when (json_size j = 0 ∨ json_size j > MAX_JOURNAL_BYTES));;
      lift (map_err (λ _, InvalidArtifact) (validate j));;
      mret j
  end.

Definition write_cas (expected next : JournalFile) : DiskIO unit :=
  current ← read;
  lift (reject Conflict when (current ≠ expected));;
  lift (reject InvalidArtifact when (json_size next > MAX_JOURNAL_BYTES));;
  replace_file next.

(** The lock is released also when the operation failed, whose error wins. *)
Definition with_lock {A} (operation : JournalFile → DiskIO A) : DiskIO A := λ d,
  match (access;; read) d with
  | (Err e, d) => (Err e, d)
  | (Ok j, d) =>
      let '(r, d) := operation j d in
      let '(unlock, d) := access d in
      (match r, unlock with
       | Ok value, Ok _ => Ok value
       | Err e, _ | Ok _, Err e => Err e
       end, d)
  end.

(** The mutation returns [None] where the code returns [Ok(false)]. *)
Definition mutate (mutation : JournalFile → result PortError (option JournalFile)) : DiskIO unit :=
  with_lock (λ expected,
    changed ← lift (mutation expected);
    match changed with
    | None => mret tt
    | Some j =>
        lift (reject Conflict when (j.(generation) + 1 > Revision.MAX));;
        let j := j <| generation := j.(generation) + 1 |> in
        let j := j <| chain_tip := computed_chain_tip j |> in
        lift (map_err (λ _, InvalidArtifact) (validate j));;
        write_cas expected j
    end).

(** *** The journal port *)

Definition find_record (j : JournalFile) (id : HostOperationId) : option (nat * Record_) :=
  list_find (λ r, operation_id r = id) j.(records).

Definition file_load_snapshot (h : HostId) : DiskIO (option SupervisorSnapshot) :=
  lift (reject Conflict when (h ≠ host));;
  with_lock (λ j,
    match j.(jf_snapshot) with
    | Some s => lift (map_err (λ _, InvalidArtifact) (Snapshot_rehydrate s));; mret (Some s)
    | None => mret None
    end).

Definition file_lookup (h : HostId) (id : HostOperationId) : DiskIO (option JournalRecord) :=
  lift (reject Conflict when (h ≠ host));;
  with_lock (λ j,
    match find_record j id with
    | Some (_, r) => record ← lift (map_err (λ _, InvalidArtifact) (Record_rehydrate r)); mret (Some record)
    | None => mret None
    end).

(** the closure of [persist_intent] *)
Definition push_intent (i : OperationIntent) (predecessor : SupervisorSnapshot) (j : JournalFile) :
    result PortError (option JournalFile) :=
  match find_record j i.(oi_operation_id) with
  | Some (_, existing_record) =>
      record ← map_err (λ _, InvalidArtifact) (Record_rehydrate existing_record);
      let exact :=
        match record with
        | RPending existing => bool_decide (existing = i ∧ j.(jf_snapshot) = Some predecessor)
        | RCompleted existing _ => bool_decide (existing = i ∧ predecessor_snapshot existing_record = predecessor)
        end in
      reject Conflict when (exact = false);;
      Ok None
  | None =>
      reject Conflict when (Exists (λ r, is_pending r = true) j.(records));;
      reject Conflict
        when (match j.(jf_snapshot) with Some current => current ≠ predecessor | None => False end
              ∨ j.(records) ≠ [] ∧ j.(jf_snapshot) = None);;
      sequence ← map_err (λ _, InvalidArtifact) (next_record_sequence j);
      Ok (Some (j <| jf_snapshot := Some predecessor |>
                  <| records := j.(records) ++
                       [Pending sequence j.(chain_tip) i predecessor (snapshot_wire_digest predecessor)] |>))
  end.

Definition file_persist_intent (i : OperationIntent) (predecessor : SupervisorSnapshot) : DiskIO unit :=
  lift (reject Conflict when (i.(oi_host_id) ≠ host));;
  let predecessor := from_snapshot predecessor in
  lift (map_err (λ _, InvalidArtifact) (Snapshot_rehydrate predecessor));;
  lift (reject Conflict
    when (predecessor.(ss_host_id) ≠ host ∨ predecessor.(ss_tenant_id) ≠ i.(oi_tenant_id)
          ∨ snapshot_fence predecessor ≠ Some i.(oi_expected)));;
  lift (map_err (λ _, Conflict) (validate_predecessor_command predecessor i));;
  mutate (push_intent i predecessor).

(** the closure of [complete] *)
Definition settle (receipt : OperationReceipt) (resulting : SupervisorSnapshot) (j : JournalFile) :
    result PortError (option JournalFile) :=
  '(index, r) ← ok_or (find_record j receipt.(or_operation_id)) Conflict;
  record ← map_err (λ _, InvalidArtifact) (Record_rehydrate r);
  match record with
  | RPending i =>
      reject Conflict
        when (receipt.(or_command_digest) ≠ i.(oi_command_digest) ∨ receipt_rehydrates i receipt = false);;
      let predecessor := predecessor_snapshot r in
      reject InvalidArtifact when (j.(jf_snapshot) ≠ Some predecessor);;
      map_err (λ _, InvalidArtifact) (Snapshot_rehydrate predecessor);;
      map_err (λ _, Conflict) (validate_snapshot_transition predecessor resulting i receipt);;
      let completed :=
        Completed (sequence r) (previous_record_digest r) i receipt predecessor (predecessor_snapshot_digest r)
          resulting (snapshot_wire_digest resulting) in
      Ok (Some (j <| records := <[index := completed]> j.(records) |> <| jf_snapshot := Some resulting |>))
  | RCompleted _ existing =>
      reject Conflict when (¬ (existing = receipt ∧ j.(jf_snapshot) = Some resulting));;
      Ok None
  end.

Definition file_complete (receipt : OperationReceipt) (resulting : SupervisorSnapshot) : DiskIO unit :=
  let resulting := from_snapshot resulting in
  lift (map_err (λ _, InvalidArtifact) (Snapshot_rehydrate resulting));;
  lift (reject Conflict when (resulting.(ss_host_id) ≠ host));;
  mutate (settle receipt resulting).

Definition file_pending (h : HostId) : DiskIO (list OperationIntent) :=
  lift (reject Conflict when (h ≠ host));;
  with_lock (λ j,
    lift (try_fold (λ acc r,
      record ← map_err (λ _, InvalidArtifact) (Record_rehydrate r);
      match record with RPending i => Ok (acc ++ [i]) | RCompleted _ _ => Err InvalidArtifact end)
      (filter (λ r, is_pending r = true) j.(records)) [])).

Definition file_load_install_state (h : HostId) (id : ConnectorId) : DiskIO (option InstallState) :=
  lift (reject Conflict when (h ≠ host));;
  with_lock (λ j,
    lift (try_fold (λ state r,
      record ← map_err (λ _, InvalidArtifact) (Record_rehydrate r);
      match record with
      | RPending _ => Ok state
      | RCompleted _ receipt =>
          match receipt.(or_install_proof) with
          | Some proof => Ok (if decide ((install_facts proof).(lf_connector_id) = id) then Some proof else state)
          | None => Ok state
          end
      end) j.(records) None)).
End journal.
End FileJournal.
