(* ===== verification/HostJournalProps.v ===== *)
(** * Host supervisor: what the journal file guarantees

    Over any fault script: a journal operation leaves the file as it was or replaces
    it by the validated successor, an answer it gives does not depend on the faults,
    and what was recorded is what later operations read. *)

From S2P Require Import Prelude Domain WirePrimitives WireValues Connector ControlProof HostTypes HostSupervisor HostSupervisorProps HostJournal.

Module JournalProps.
Import HostTypes Supervisor SupervisorProps FileJournal.

Section journal.
Context `{Sha : Sha256}.
Context (record_json : Record_ → bytes) (snapshot_json : SupervisorSnapshot → bytes) (json_size : JournalFile → Z).
Context (host : HostId).
(** an encoded file is never empty *)
Hypothesis json_size_pos : ∀ j, 0 < json_size j.

Local Notation validate := (validate record_json snapshot_json host).
Local Notation read := (read record_json snapshot_json json_size host).
Local Notation with_lock := (with_lock record_json snapshot_json json_size host).
Local Notation mutate := (mutate record_json snapshot_json json_size host).
Local Notation scan_record := (scan_record record_json snapshot_json host).

(** ** The file behind an access *)

(** no fault is scripted *)
Definition clean (file : option JournalFile) : Disk := {| disk_file := file; faults := [] |}.

Definition opened (file : option JournalFile) : JournalFile := default (JournalFile_empty host) file.

Definition file_ok (file : option JournalFile) : Prop :=
  ∀ j, file = Some j → json_size j ≤ MAX_JOURNAL_BYTES ∧ validate j = Ok tt.

(** what [mutate] writes for the file [j] of its closure *)
Definition seal (j : JournalFile) : JournalFile :=
  let j := j <| generation := j.(generation) + 1 |> in
  j <| chain_tip := computed_chain_tip record_json j |>.

Lemma access_file d : (access d).2.(disk_file) = d.(disk_file).
Proof. unfold access. by destruct (faults d) as [|[]]. Qed.

Lemma read_inv d r d' :
  read d = (r, d') →
  d'.(disk_file) = d.(disk_file) ∧ ∀ j, r = Ok j → j = opened d.(disk_file) ∧ file_ok d.(disk_file).
Proof.
  unfold FileJournal.read. pose proof (access_file d) as Hf. intros H.
  unfold mbind, ST_bind in H.
  destruct (access d) as [[[]|e] d1]; cbn in *; [|injection H as <- <-; split; [done|discriminate]].
  rewrite Hf in H. destruct (disk_file d) as [j|] eqn:Hd; cbn in H.
  2: { injection H as <- <-. split; [done|]. intros ? [= <-]. split; [done|]. by intros ? [=]. }
  unfold lift, reject_if in H. case_decide; [injection H as <- <-; split; [done|discriminate]|].
  destruct (validate j) as [[]|[]] eqn:Hv; cbn in H; [|injection H as <- <-; split; [done|discriminate]].
  injection H as <- <-. split; [done|]. intros ? [= <-]. split; [done|]. intros ? [= <-]. split; [lia|done].
Qed.

Lemma read_clean file : file_ok file → read (clean file) = (Ok (opened file), clean file).
Proof.
  intros Hok. unfold FileJournal.read, access, mbind, ST_bind. cbn. destruct file as [j|]; [|done]. cbn.
  destruct (Hok j eq_refl) as [Hs Hv]. pose proof (json_size_pos j).
  unfold lift, reject_if. rewrite decide_False by lia. cbn. by rewrite Hv.
Qed.

Lemma with_lock_inv {A} (op : JournalFile → ST Disk PortError A) d r d' :
  with_lock op d = (r, d') →
  (d'.(disk_file) = d.(disk_file) ∧ ∃ e, r = Err e) ∨
  file_ok d.(disk_file) ∧ ∃ d1 r1 d2, d1.(disk_file) = d.(disk_file) ∧ op (opened d.(disk_file)) d1 = (r1, d2) ∧
    d'.(disk_file) = d2.(disk_file) ∧ ∀ a, r = Ok a → r1 = Ok a.
Proof.
  unfold FileJournal.with_lock. pose proof (access_file d) as Hf. unfold mbind, ST_bind.
  destruct (access d) as [[[]|e] d1]; cbn in *; [|intros [= <- <-]; left; eauto].
  destruct (read d1) as [[j|e] d2] eqn:Hr; apply read_inv in Hr as [Hf2 Hj];
    [|intros [= <- <-]; left; split; [congruence|eauto]].
  destruct (Hj j eq_refl) as [-> Hok]. rewrite Hf in *. destruct (op _ d2) as [r1 d3] eqn:Hop.
  pose proof (access_file d3) as Hf4. destruct (access d3) as [u d4]. cbn in Hf4. intros [= <- <-].
  right. split; [done|]. eexists d2, r1, d3. split_and!; try done. intros a Ha. by destruct r1, u; simplify_eq.
Qed.

(** *** Queries *)

(** The operation computes [f] and leaves the disk alone. *)
Definition queries {A} (op : JournalFile → ST Disk PortError A) (f : JournalFile → result PortError A) : Prop :=
  ∀ j d, op j d = (f j, d).

Lemma query_inv {A} op (f : JournalFile → result PortError A) d r d' :
  queries op f → with_lock op d = (r, d') →
  d'.(disk_file) = d.(disk_file) ∧ ∀ a, r = Ok a → file_ok d.(disk_file) ∧ f (opened d.(disk_file)) = Ok a.
Proof.
  intros Hq [[? [e ->]]|(Hok & d1 & r1 & d2 & Hd1 & Hop & Hd' & Ha)]%with_lock_inv; [done|].
  rewrite Hq in Hop. injection Hop as <- <-. split; [congruence|]. intros a Hr. auto.
Qed.

Lemma query_clean {A} op (f : JournalFile → result PortError A) file :
  queries op f → file_ok file → with_lock op (clean file) = (f (opened file), clean file).
Proof.
  intros Hq Hok. unfold FileJournal.with_lock, access, mbind, ST_bind. cbn.
  rewrite (read_clean _ Hok). rewrite Hq. cbn. by destruct (f (opened file)).
Qed.

(** *** Updates *)

(** The mutation [m] replaces the file by [j']. *)
Definition replaces (m : JournalFile → result PortError (option JournalFile)) (file : option JournalFile)
    (j' : JournalFile) : Prop :=
  file_ok file ∧ ∃ j, m (opened file) = Ok (Some j) ∧ j.(generation) + 1 ≤ Revision.MAX ∧ j' = seal j ∧
    validate j' = Ok tt ∧ json_size j' ≤ MAX_JOURNAL_BYTES.

Lemma replaces_ok m file j' : replaces m file j' → file_ok (Some j').
Proof. intros (_ & j & _ & _ & _ & Hv & Hs) ? [= <-]. done. Qed.

Lemma mutate_inv m d r d' :
  mutate m d = (r, d') →
  d'.(disk_file) = d.(disk_file) ∧ (r = Ok tt → file_ok d.(disk_file) ∧ m (opened d.(disk_file)) = Ok None) ∨
  ∃ j', replaces m d.(disk_file) j' ∧ d'.(disk_file) = Some j'.
Proof.
  intros [[? [e ->]]|(Hok & d1 & r1 & d2 & Hd1 & Hop & Hd' & Ha)]%with_lock_inv; [by left|].
  unfold mbind, ST_bind, lift in Hop. destruct (m (opened _)) as [[j|]|e] eqn:Hm.
  2,3: injection Hop as <- <-; left; split; [congruence|intros Hr; first [done|by apply Ha in Hr]].
  unfold reject_if in Hop. case_decide as Hg.
  { injection Hop as <- <-; left; split; [congruence|intros Hr; by apply Ha in Hr]. }
  fold (seal j) in Hop. destruct (validate (seal j)) as [[]|[]] eqn:Hv; cbn in Hop.
  2: { injection Hop as <- <-; left; split; [congruence|intros Hr; by apply Ha in Hr]. }
  unfold write_cas, mbind, ST_bind in Hop.
  destruct (read d1) as [[cur|e] d3] eqn:Hr; apply read_inv in Hr as [Hf3 _].
  2: { injection Hop as <- <-; left; split; [congruence|intros Hr; by apply Ha in Hr]. }
  unfold lift, reject_if in Hop. case_decide.
  { injection Hop as <- <-; left; split; [congruence|intros Hr; by apply Ha in Hr]. }
  case_decide as Hs.
  { injection Hop as <- <-; left; split; [congruence|intros Hr; by apply Ha in Hr]. }
  assert (replaces m d.(disk_file) (seal j)) as Hrep by (split; [done|]; exists j; split_and!; try done; lia).
  unfold replace_file in Hop.
  destruct (faults d3) as [|[|e|e] fs]; injection Hop as <- <-; cbn in Hd'; try (right; by eauto).
  left. split; [congruence|]. intros Hr. by apply Ha in Hr.
Qed.

Lemma mutate_clean m file j' : replaces m file j' → mutate m (clean file) = (Ok tt, clean (Some j')).
Proof.
  intros (Hok & j & Hm & Hg & -> & Hv & Hs). unfold FileJournal.mutate, FileJournal.with_lock, access, mbind, ST_bind.
  cbn [clean faults]. fold (clean file). cbv beta iota. rewrite (read_clean _ Hok). unfold lift. rewrite Hm. cbv beta iota.
  unfold reject_if. rewrite decide_False by lia. fold (seal j). rewrite Hv. cbn [map_err]. unfold write_cas, mbind, ST_bind. rewrite (read_clean _ Hok).
  unfold lift, reject_if. rewrite decide_False by tauto. rewrite decide_False by lia. done.
Qed.

Lemma mutate_noop_clean m file :
  file_ok file → m (opened file) = Ok None → mutate m (clean file) = (Ok tt, clean file).
Proof.
  intros Hok Hm. unfold FileJournal.mutate, FileJournal.with_lock, access, mbind, ST_bind. cbn.
  rewrite (read_clean _ Hok), Hm. done.
Qed.

(** ** Reading the records of a valid file *)

Definition to_record (r : Record_) : JournalRecord :=
  match r with
  | Pending _ _ i _ _ => RPending i
  | Completed _ _ i receipt _ _ _ _ => RCompleted i receipt
  end.

Lemma Record_rehydrate_Ok r x : Record_rehydrate r = Ok x → x = to_record r.
Proof. destruct r; cbn; intros H; res_inv H; done. Qed.

(** what one iteration of the check establishes *)
Lemma scan_record_inv total st r st' :
  scan_record total st r = Ok st' →
  Record_rehydrate r = Ok (to_record r) ∧ (record_intent r).(oi_host_id) = host ∧
  (∀ t, st.(sc_tenant) = Some t → t = (record_intent r).(oi_tenant_id)) ∧
  st'.(sc_tenant) = Some (record_intent r).(oi_tenant_id) ∧
  (∃ sn, st'.(sc_prior_snapshot) = Some sn ∧ sn.(ss_tenant_id) = (record_intent r).(oi_tenant_id)
         ∧ Snapshot_rehydrate sn = Ok tt) ∧
  (is_pending r = true → S st.(sc_index) = total) ∧ st'.(sc_index) = S st.(sc_index).
Proof.
  unfold FileJournal.scan_record. intros H.
  apply result_bind_Ok in H as ([] & _ & H). apply result_bind_Ok in H as (x & Hx & H).
  rewrite (Record_rehydrate_Ok _ _ Hx) in Hx. split; [done|].
  res_inv H. not_ors. split; [done|].
  split. { intros t Ht. rewrite Ht in *. by apply dec_stable. }
  repeat match goal with u : () |- _ => destruct u end.
  destruct r as [sq pd i pred dg|sq pd i receipt pred dg res rdg]; cbn [predecessor_snapshot record_intent] in *.
  - res_inv Hres4. injection H as <-. cbn. not_ors. split; [done|]. split; [|done]. eauto.
  - apply result_bind_Ok in Hres4 as (? & _ & Hres4). apply result_bind_Ok in Hres4 as ([] & Hsn & Hres4).
    apply result_bind_Ok in Hres4 as (? & Htr & Hres4). apply result_bind_Ok in Hres4 as (prep & _ & Hres4).
    injection Hres4 as <-. injection H as <-. cbn. split; [done|]. split; [|done].
    exists res. split_and!; [done| |done].
    unfold validate_snapshot_transition in Htr. apply result_bind_Ok in Htr as (? & Htr & _).
    apply reject_if_Ok in Htr. not_ors. congruence.
Qed.

Definition consistent (st : Scan) : Prop := ∀ sn,
  st.(sc_prior_snapshot) = Some sn → st.(sc_tenant) = Some sn.(ss_tenant_id) ∧ Snapshot_rehydrate sn = Ok tt.

Lemma scan_all total l st st' :
  try_fold (scan_record total) l st = Ok st' →
  (∀ t, st.(sc_tenant) = Some t → st'.(sc_tenant) = Some t) ∧
  (consistent st → consistent st') ∧
  (∀ r, r ∈ l → Record_rehydrate r = Ok (to_record r) ∧ (record_intent r).(oi_host_id) = host
                ∧ st'.(sc_tenant) = Some (record_intent r).(oi_tenant_id)) ∧
  (∀ k r, l !! k = Some r → is_pending r = true → S (st.(sc_index) + k) = total).
Proof.
  revert st. induction l as [|r l IH]; intros st; cbn.
  { intros [= <-]. split_and!; try done. set_solver. }
  destruct (scan_record total st r) as [st1|] eqn:Hr; [|done]. intros H.
  apply scan_record_inv in Hr as (Hre & Hh & Ht & Ht1 & (sn & Hsn & Hsnt & Hsnr) & Hp & Hi).
  apply IH in H as (IHt & IHc & IHr & IHp). split_and!.
  - intros t Hst. rewrite (Ht t Hst). auto.
  - intros _. apply IHc. intros sn' Hsn'. simplify_eq. rewrite Ht1. by rewrite Hsnt.
  - intros x [->|Hx]%elem_of_cons; [|auto]. split_and!; auto.
  - intros [|k] x Hk Hpend; cbn in Hk; [simplify_eq; rewrite Nat.add_0_r; auto|].
    rewrite <-(IHp _ _ Hk Hpend). rewrite Hi. lia.
Qed.

(** What the readers of a file rely on. *)
Record well (j : JournalFile) : Prop := {
  we_record r : r ∈ j.(records) → Record_rehydrate r = Ok (to_record r);
  we_host r : r ∈ j.(records) → (record_intent r).(oi_host_id) = host;
  we_tenant r sn : r ∈ j.(records) → j.(jf_snapshot) = Some sn → (record_intent r).(oi_tenant_id) = sn.(ss_tenant_id);
  we_pending k r : j.(records) !! k = Some r → is_pending r = true → S k = length j.(records);
  we_snapshot sn : j.(jf_snapshot) = Some sn → Snapshot_rehydrate sn = Ok tt;
  we_empty : j.(records) = [] ↔ j.(jf_snapshot) = None
}.

Lemma validate_well j : validate j = Ok tt → well j.
Proof.
  unfold FileJournal.validate. intros H. res_inv H. not_ors.
  match goal with Hf : try_fold _ _ _ = Ok ?st |- _ => apply scan_all in Hf as (_ & Hc & Hr & Hp) end.
  assert (consistent (scan_start j)) as Hc0 by (intros ? [=]). apply Hc in Hc0. split.
  - intros r Hin. by apply Hr in Hin as (? & ? & Ht).
  - intros r Hin. by apply Hr in Hin as (? & ? & Ht).
  - intros r sn Hin Hsn. apply Hr in Hin as (? & ? & Ht). destruct (Hc0 sn) as [Ht' _]; congruence.
  - intros k r Hk Hpend. by apply (Hp k r).
  - intros sn Hsn. destruct (Hc0 sn); [congruence|done].
  - apply dec_stable. done.
Qed.

Lemma opened_well file : file_ok file → well (opened file).
Proof.
  destruct file as [j|]; intros Hok; [by apply validate_well, Hok|].
  split; cbn; try done; try (intros; by destruct k); set_solver.
Qed.

(** The answer of a port operation is a function of the file. *)
Definition answers {A} (m : ST Disk PortError A) (g : JournalFile → A) : Prop :=
  (∀ file, file_ok file → m (clean file) = (Ok (g (opened file)), clean file)) ∧
  (∀ d r d', m d = (r, d') → d'.(disk_file) = d.(disk_file) ∧
     ∀ a, r = Ok a → file_ok d.(disk_file) ∧ a = g (opened d.(disk_file))).

Lemma query_answers {A} op (f : JournalFile → result PortError A) g :
  queries op f → (∀ j, well j → f j = Ok (g j)) →
  answers (lift (reject Conflict when (host ≠ host));; with_lock op) g.
Proof.
  intros Hq Hfg.
  assert (∀ d, (lift (reject Conflict when (host ≠ host));; with_lock op) d = with_lock op d) as Heq.
  { intros d. unfold mbind, ST_bind, lift, reject_if. by rewrite decide_False by tauto. }
  split.
  - intros file Hok. rewrite Heq, (query_clean _ _ _ Hq Hok). by rewrite Hfg by (by apply opened_well).
  - intros d r d'. rewrite Heq. intros [Hd Ha]%(query_inv _ _ _ _ _ Hq). split; [done|].
    intros a Hr. apply Ha in Hr as [Hok Hf]. split; [done|]. rewrite Hfg in Hf by (by apply opened_well). congruence.
Qed.

Lemma load_snapshot_answers :
  answers (file_load_snapshot record_json snapshot_json json_size host host) jf_snapshot.
Proof.
  apply (query_answers _ (λ j, match j.(jf_snapshot) with
    | Some s => map_err (λ _, InvalidArtifact) (Snapshot_rehydrate s);; Ok (Some s) | None => Ok None end)).
  - intros j d. destruct (jf_snapshot j) as [s|]; [|done]. unfold mbind, ST_bind, lift. cbn.
    by destruct (Snapshot_rehydrate s).
  - intros j Hj. destruct (jf_snapshot j) as [s|] eqn:Hs; [|done]. by rewrite (we_snapshot _ Hj _ Hs).
Qed.

Lemma find_record_elem j id k r :
  find_record j id = Some (k, r) → j.(records) !! k = Some r ∧ r ∈ j.(records) ∧ operation_id r = id.
Proof. intros (Hk & Hid & _)%list_find_Some. eauto using list_elem_of_lookup_2. Qed.

Lemma lookup_answers id :
  answers (file_lookup record_json snapshot_json json_size host host id)
    (λ j, to_record ∘ snd <$> find_record j id).
Proof.
  apply (query_answers _ (λ j, match find_record j id with
    | Some (_, r) => x ← map_err (λ _, InvalidArtifact) (Record_rehydrate r); Ok (Some x) | None => Ok None end)).
  - intros j d. destruct (find_record j id) as [[k r]|]; [|done]. unfold mbind, ST_bind, lift. cbn.
    by destruct (Record_rehydrate r).
  - intros j Hj. destruct (find_record j id) as [[k r]|] eqn:Hf; [|done].
    apply find_record_elem in Hf as (_ & Hin & _). by rewrite (we_record _ Hj _ Hin).
Qed.

Definition pending_of (l : list Record_) : list OperationIntent :=
  record_intent <$> filter (λ r, is_pending r = true) l.

Lemma pending_answers :
  answers (file_pending record_json snapshot_json json_size host host) (λ j, pending_of j.(records)).
Proof.
  eapply query_answers; [intros j d; reflexivity|]. intros j Hj. cbn beta.
  cut (∀ acc, try_fold (λ acc r,
      record ← map_err (λ _, InvalidArtifact) (Record_rehydrate r);
      match record with RPending i => Ok (acc ++ [i]) | RCompleted _ _ => Err InvalidArtifact end)
      (filter (λ r, is_pending r = true) j.(records)) acc = Ok (acc ++ pending_of j.(records))).
  { intros H. by rewrite H. }
  unfold pending_of. pose proof (we_record _ Hj) as Hr. induction (records j) as [|r l IH]; intros acc.
  { by rewrite app_nil_r. }
  rewrite filter_cons. case_decide as Hp; [|apply IH; set_solver].
  cbn [try_fold fmap list_fmap]. rewrite (Hr r) by set_solver. destruct r; [|done]. cbn.
  rewrite IH by set_solver. by rewrite <-(assoc_L (++)).
Qed.

(** [load_install_state]: the last install proof of the connector *)
Definition install_step (id : ConnectorId) (state : option InstallState) (r : Record_) : option InstallState :=
  match r with
  | Completed _ _ _ receipt _ _ _ _ =>
      match receipt.(or_install_proof) with
      | Some proof => if decide ((install_facts proof).(lf_connector_id) = id) then Some proof else state
      | None => state
      end
  | Pending _ _ _ _ _ => state
  end.
Definition install_of (l : list Record_) (id : ConnectorId) : option InstallState := foldl (install_step id) None l.

Lemma load_install_answers id :
  answers (file_load_install_state record_json snapshot_json json_size host host id)
    (λ j, install_of j.(records) id).
Proof.
  eapply query_answers; [intros j d; reflexivity|]. intros j Hj. cbn beta. unfold install_of.
  generalize (None (A := InstallState)). pose proof (we_record _ Hj) as Hr.
  induction (records j) as [|r l IH]; intros acc; [done|].
  cbn [try_fold foldl]. rewrite (Hr r) by set_solver. cbn. rewrite <-IH by set_solver.
  by destruct r as [|? ? ? receipt]; cbn; [|destruct (or_install_proof receipt)].
Qed.

(** ** Recording and completing an intent *)

Local Notation push_intent := (push_intent snapshot_json).
Local Notation settle := (settle snapshot_json).

Lemma replaces_unique m file j1 j2 : replaces m file j1 → replaces m file j2 → j1 = j2.
Proof. intros (_ & k1 & H1 & _ & -> & _) (_ & k2 & H2 & _ & -> & _). congruence. Qed.

(** The tail of the file while the operation [i] is pending. *)
Definition pending_tail (i : OperationIntent) (pred : SupervisorSnapshot) (l : list Record_) (j : JournalFile) : Prop :=
  (∃ sq pd dg, j.(records) = l ++ [Pending sq pd i pred dg]) ∧ j.(jf_snapshot) = Some pred ∧
  (∀ r, r ∈ l → operation_id r ≠ i.(oi_operation_id) ∧ is_pending r = false).

(** The tail of the file after it was completed. *)
Definition completed_tail (i : OperationIntent) (receipt : OperationReceipt) (res : SupervisorSnapshot)
    (l : list Record_) (j : JournalFile) : Prop :=
  (∃ sq pd pred dg rdg, j.(records) = l ++ [Completed sq pd i receipt pred dg res rdg]) ∧ j.(jf_snapshot) = Some res ∧
  (∀ r, r ∈ l → operation_id r ≠ i.(oi_operation_id) ∧ is_pending r = false).

Lemma push_replaces i pred file j' :
  replaces (push_intent i pred) file j' →
  pending_tail i pred (opened file).(records) j' ∧
  ((opened file).(jf_snapshot) = None ∨ (opened file).(jf_snapshot) = Some pred).
Proof.
  intros (_ & j & Hp & _ & -> & _). unfold FileJournal.push_intent in Hp.
  destruct (find_record _ _) as [[k r]|] eqn:Hf; [by res_inv Hp|]. res_inv Hp.
  apply list_find_None in Hf. rewrite Forall_forall in Hf.
  repeat match goal with H : ¬ (_ ∨ _) |- _ => apply Decidable.not_or in H as [? ?] end. split.
  - split; [by eauto|]. split; [done|]. intros r Hr. split; [by apply Hf|].
    destruct (is_pending r) eqn:Hpr; [|done]. match goal with H : ¬ Exists _ _ |- _ => destruct H end.
    apply Exists_exists. eauto.
  - destruct (jf_snapshot (opened file)) as [cur|]; [|by left]. right. f_equal. by apply dec_stable.
Qed.

Lemma find_tail l r j id :
  j.(records) = l ++ [r] → (∀ x, x ∈ l → operation_id x ≠ id) → operation_id r = id →
  find_record j id = Some (length l, r).
Proof.
  intros Hj Hl Hr. unfold find_record. rewrite Hj. apply list_find_Some. split; [|split; [done|]].
  - by rewrite list_lookup_middle.
  - intros k x Hk Hlt. apply Hl. rewrite lookup_app_l in Hk by lia. by eapply list_elem_of_lookup_2.
Qed.

Lemma pending_tail_find i pred l j :
  pending_tail i pred l j → ∃ r, find_record j i.(oi_operation_id) = Some (length l, r) ∧ to_record r = RPending i.
Proof.
  intros ((sq & pd & dg & Hj) & _ & Hl). eexists. split; [eapply find_tail; [done|by intros; apply Hl|done]|done].
Qed.

Lemma completed_tail_find i receipt res l j :
  completed_tail i receipt res l j →
  ∃ r, find_record j i.(oi_operation_id) = Some (length l, r) ∧ to_record r = RCompleted i receipt.
Proof.
  intros ((sq & pd & pred & dg & rdg & Hj) & _ & Hl). eexists.
  split; [eapply find_tail; [done|by intros; apply Hl|done]|done].
Qed.

Lemma settle_replaces i pred l j receipt res j' :
  file_ok (Some j) → pending_tail i pred l j → receipt.(or_operation_id) = i.(oi_operation_id) →
  replaces (settle receipt res) (Some j) j' →
  completed_tail i receipt res l j' ∧ validate_snapshot_transition pred res i receipt = Ok tt.
Proof.
  intros Hok Ht Hid (_ & k & Hs & _ & -> & _). pose proof (opened_well _ Hok) as Hw. cbn in Hw.
  destruct Ht as ((sq & pd & dg & Hj) & Hsn & Hl).
  assert (find_record j receipt.(or_operation_id) = Some (length l, Pending sq pd i pred dg)) as Hf.
  { rewrite Hid. eapply find_tail; [done|by intros; apply Hl|done]. }
  unfold FileJournal.settle in Hs. change (opened (Some j)) with j in Hs. rewrite Hf in Hs. cbn [ok_or] in Hs.
  apply result_bind_Ok in Hs as ([k' r'] & [= <- <-] & Hs).
  rewrite (we_record _ Hw (Pending sq pd i pred dg)) in Hs by (rewrite Hj; set_solver). cbn [map_err to_record] in Hs.
  apply result_bind_Ok in Hs as (? & [= <-] & Hs). cbn [predecessor_snapshot] in Hs. res_inv Hs.
  repeat match goal with u : () |- _ => destruct u end. split; [|done]. split; [|done].
  eexists _, _, _, _, _. cbn. rewrite Hj, insert_app_r_alt by lia. by rewrite Nat.sub_diag.
Qed.

Lemma install_of_snoc l r id : install_of (l ++ [r]) id = install_step id (install_of l id) r.
Proof. unfold install_of. by rewrite foldl_app. Qed.

Lemma install_of_pending i pred l j id : pending_tail i pred l j → install_of j.(records) id = install_of l id.
Proof. intros ((sq & pd & dg & ->) & _). by rewrite install_of_snoc. Qed.

Lemma install_of_completed i receipt res l j id :
  completed_tail i receipt res l j → receipt.(or_install_proof) = None → install_of j.(records) id = install_of l id.
Proof. intros ((sq & pd & pred & dg & rdg & ->) & _) Hn. rewrite install_of_snoc. cbn. by rewrite Hn. Qed.

(** A loaded install state belongs to the host and the connector. *)
Lemma install_of_facts j sn id state :
  well j → j.(jf_snapshot) = Some sn → install_of j.(records) id = Some state →
  (install_facts state).(lf_connector_id) = id ∧ (install_facts state).(lf_host_id) = host ∧
  (install_facts state).(lf_tenant_id) = sn.(ss_tenant_id).
Proof.
  intros Hj Hsn. pose proof (we_record _ Hj) as Hr. pose proof (we_host _ Hj) as Hh.
  assert (∀ r, r ∈ records j → oi_tenant_id (record_intent r) = ss_tenant_id sn) as Ht by eauto using we_tenant.
  induction (records j) as [|r l IH] using rev_ind; [done|]. rewrite install_of_snoc.
  assert (install_of l id = Some state → lf_connector_id (install_facts state) = id
    ∧ lf_host_id (install_facts state) = host ∧ lf_tenant_id (install_facts state) = ss_tenant_id sn) as IH'.
  { apply IH; intros x Hx; [apply Hr|apply Hh|apply Ht]; set_solver. }
  destruct r as [|sq pd i receipt pred dg res rdg]; cbn [install_step]; [done|].
  destruct (or_install_proof receipt) as [proof|] eqn:Hp; [|done]. case_decide as Hc; [|done]. intros [= ->].
  assert (Completed sq pd i receipt pred dg res rdg ∈ l ++ [Completed sq pd i receipt pred dg res rdg]) as Hin by set_solver.
  specialize (Hr _ Hin). specialize (Hh _ Hin). specialize (Ht _ Hin). cbn in Hr, Hh, Ht.
  unfold Intent_rehydrate, Receipt_rehydrate in Hr. res_inv Hr. not_ors. unfold intent_rehydrates, receipt_rehydrates in *.
  repeat match goal with H : _ && _ = true |- _ => apply andb_true_iff in H as [? ?] end. not_ors.
  rewrite Hp in *. unfold install_proof_is_valid in *.
  destruct (oi_command i), (co_disposition _), state; try done; not_ors; destruct_and?; subst; cbn in *;
    split_and!; congruence.
Qed.
End journal.
End JournalProps.
