(* ===== verification/HostRequest.v ===== *)
(** * Host supervisor: one operator request

    Models [bins/dtx-agent-host-supervisor/src/catalog.rs] and the request path of
    [production.rs]: every request builds the host, opens the journal, reloads the
    supervisor and its install states, and serves one frame.  The world is the disk
    of [HostJournal] next to an environment [Env] with the credential, material and
    process ports.  Reading and parsing the configuration files and the frames is
    not part of it: the request starts from their decoded values. *)

From S2P Require Import Prelude Domain WirePrimitives WireValues Connector ControlProof AgentHost HostTypes HostSupervisor HostJournal.

Module HostRequest.
Import HostTypes Supervisor FileJournal.

(** ** [StaticReleaseCatalog] *)

Definition MAX_RELEASES : nat := 128.
Record CatalogRecord : Type := { rec_release : CatalogRelease; rec_runnable : bool }.
Record StaticReleaseCatalog : Type := { releases : list CatalogRecord }.
Record CatalogFileWire : Type := { schema_version : Z; file_releases : list CatalogRecord }.

Record OperatorFailure : Type := { code : bytes; current_revision : option HostRevisionFence }.
Definition failure (code : bytes) : OperatorFailure := {| code := code; current_revision := None |}.
Definition at_revision (code : bytes) (f : HostRevisionFence) : OperatorFailure :=
  {| code := code; current_revision := Some f |}.

Definition same_identity (r : CatalogRecord) (kind : AdapterKind) (digest : ReleaseDigest) : Prop :=
  r.(rec_release).(cr_adapter_kind) = kind ∧ r.(rec_release).(cr_digest) = digest.
Global Instance same_identity_dec r kind digest : Decision (same_identity r kind digest).
Proof. unfold same_identity. apply _. Defined.

(** [from_slice], after the digests were decoded *)
Definition catalog_from_wire (wire : CatalogFileWire) : result OperatorFailure StaticReleaseCatalog :=
  let invalid := failure (str "INVALID_RELEASE_CATALOG") in
  reject invalid when (wire.(schema_version) ≠ 1 ∨ wire.(file_releases) = []
                       ∨ (MAX_RELEASES < length wire.(file_releases))%nat);;
  releases ← try_fold (λ releases entry,
    let r := entry.(rec_release) in
    _ ← map_err (λ _, invalid) (Revision.new r.(cr_catalog_revision));
    reject invalid when (Exists (λ existing, same_identity existing r.(cr_adapter_kind) r.(cr_digest)) releases);;
    Ok (releases ++ [entry])) wire.(file_releases) [];
  Ok {| releases := releases |}.

Definition find (c : StaticReleaseCatalog) (kind : AdapterKind) (digest : ReleaseDigest) : result PortError CatalogRecord :=
  ok_or (snd <$> list_find (λ r, same_identity r kind digest) c.(releases)) NotApproved.

Definition static_known (c : StaticReleaseCatalog) (kind : AdapterKind) (digest : ReleaseDigest) :
    result PortError CatalogRelease := rec_release <$> find c kind digest.
Definition static_runnable (c : StaticReleaseCatalog) (kind : AdapterKind) (digest : ReleaseDigest) :
    result PortError CatalogRelease :=
  record ← find c kind digest;
  if record.(rec_runnable) : bool then Ok record.(rec_release) else Err NotApproved.

(** ** Failure codes *)

Definition map_state_port (e : PortError) : OperatorFailure :=
  failure (match e with
           | Unavailable => str "STATE_UNAVAILABLE"
           | Conflict => str "STATE_CONFLICT"
           | NotApproved | InvalidArtifact => str "INVALID_SUPERVISOR_STATE"
           end).

Definition map_supervisor (e : SupervisorError) : OperatorFailure :=
  match e with
  | HostBoundaryMismatch => failure (str "HOST_BOUNDARY_MISMATCH")
  | StaleRevision current => at_revision (str "REVISION_CONFLICT") current
  | OperationConflict => failure (str "REQUEST_ID_CONFLICT")
  | PendingOperation => failure (str "OPERATION_PENDING")
  | ConnectorNotFound => failure (str "CONNECTOR_NOT_FOUND")
  | ConnectorRemoved => failure (str "CONNECTOR_REMOVED")
  | ConnectorMustBeStopped => failure (str "CONNECTOR_MUST_BE_STOPPED")
  | AdapterMismatch => failure (str "ADAPTER_MISMATCH")
  | ReleaseCapabilityMismatch => failure (str "RELEASE_CAPABILITY_MISMATCH")
  | RevisionExhausted => failure (str "REVISION_EXHAUSTED")
  | CredentialGenerationExhausted => failure (str "CREDENTIAL_GENERATION_EXHAUSTED")
  | CredentialRequired => failure (str "CREDENTIAL_REQUIRED")
  | CredentialUnchanged => failure (str "CREDENTIAL_UNCHANGED")
  | SnapshotDiverged | InvalidProcessObservation => failure (str "INVALID_SUPERVISOR_STATE")
  | JournalError e => map_state_port e
  | CatalogError e =>
      failure (match e with
               | NotApproved => str "RELEASE_NOT_APPROVED"
               | Unavailable => str "RELEASE_CATALOG_UNAVAILABLE"
               | Conflict | InvalidArtifact => str "INVALID_RELEASE_CATALOG"
               end)
  | CredentialError e =>
      failure (match e with
               | Unavailable => str "CREDENTIAL_UNAVAILABLE"
               | Conflict => str "CREDENTIAL_CONFLICT"
               | NotApproved | InvalidArtifact => str "INVALID_CREDENTIAL_ARTIFACT"
               end)
  | MaterialError e =>
      failure (match e with
               | Unavailable => str "BOOTSTRAP_MATERIAL_UNAVAILABLE"
               | Conflict => str "BOOTSTRAP_MATERIAL_CONFLICT"
               | NotApproved | InvalidArtifact => str "INVALID_BOOTSTRAP_MATERIAL"
               end)
  | ProcessError e =>
      failure (match e with
               | Unavailable => str "PROCESS_UNAVAILABLE"
               | Conflict => str "PROCESS_CONFLICT"
               | NotApproved | InvalidArtifact => str "INVALID_PROCESS_ARTIFACT"
               end)
  | InstallCommandRequired => failure (str "INSTALL_COMMAND_REQUIRED")
  | InstallExpired => failure (str "INSTALL_EXPIRED")
  | InstallLifecycleConflict => failure (str "INSTALL_LIFECYCLE_CONFLICT")
  | InstallNotPrepared => failure (str "INSTALL_NOT_PREPARED")
  | InstallDigestMismatch => failure (str "INSTALL_DIGEST_MISMATCH")
  | InstallNotRunning => failure (str "INSTALL_NOT_RUNNING")
  | InstallProofInvalid => failure (str "INVALID_INSTALL_PROOF")
  end.

(** ** Frames *)

Record HostConfigWire : Type := {
  hc_schema_version : Z;
  hc_tenant_id : TenantId;
  hc_host_id : HostId;
  hc_owner_id : IdentityId;
  hc_host_credential_id : Host.HostCredentialId
}.

(** [CommandWire], its digests decoded *)
Inductive CommandWire : Type :=
| WEnsure (connector_id : ConnectorId) (adapter_kind : AdapterKind) (release : ReleaseDigest)
| WStart (connector_id : ConnectorId)
| WStop (connector_id : ConnectorId)
| WRestart (connector_id : ConnectorId)
| WRotateCredential (connector_id : ConnectorId) (credential : CredentialArtifactRef)
| WRemove (connector_id : ConnectorId).

Definition command_to_domain (c : CommandWire) : HostCommand :=
  match c with
  | WEnsure id kind digest => HEnsure id kind digest
  | WStart id => HStart id
  | WStop id => HStop id
  | WRestart id => HRestart id
  | WRotateCredential id reference => HRotateCredential id reference
  | WRemove id => HRemove id RetainData
  end.
Definition wire_connector_id (c : CommandWire) : ConnectorId := command_connector_id (command_to_domain c).

Inductive RequestBody : Type :=
| BSnapshot
| BObserve (connector_id : ConnectorId)
| BExecute (operation_id : RequestId) (expected_desired_revision : Z) (expected_observed_revision : option Z)
    (command : CommandWire).
Record RequestFrame : Type := {
  rf_tenant_id : TenantId;
  rf_host_id : HostId;
  rf_request : RequestBody;
  rf_credential : bytes
}.

(** The projections of [project_host], [project_connector] and [project_revision]
    print the values given here. *)
Inductive OperatorResult : Type :=
| RSnapshot (host : SupervisorSnapshot)
| RObservation (revision : HostRevisionFence) (connector : ManagedConnectorSnapshot) (actual : ProcessObservation)
| RCommand (application : CommandApplication) (disposition : CommandDisposition) (revision : HostRevisionFence)
    (connector : ManagedConnectorSnapshot).

Section request.
Context `{Sha : Sha256}.
Context (record_json : Record_ → bytes) (snapshot_json : SupervisorSnapshot → bytes) (json_size : JournalFile → Z).
Context (catalog : StaticReleaseCatalog) (config : HostConfigWire).
Context {Env Artifact : Type}.
(** [PayloadCredentialProvider::new(frame.credential)] and [LinuxBootstrapProvider::new] are made per request *)
Context (payload : bytes → CredentialArtifactProvider Env Artifact).
Context `{M : !BootstrapMaterialProvider Env} `{P : !ProcessController Env Artifact}.

Notation World := (Disk * Env)%type.

Definition on_disk {E A} (m : ST Disk E A) : ST World E A := λ w, let '(r, d) := m w.1 in (r, (d, w.2)).
Definition on_env {E A} (m : ST Env E A) : ST World E A := λ w, let '(r, e) := m w.2 in (r, (w.1, e)).

Local Notation host := config.(hc_host_id).

Global Instance file_journal : Journal World := {|
  lookup_record h id := on_disk (file_lookup record_json snapshot_json json_size host h id);
  load_snapshot h := on_disk (file_load_snapshot record_json snapshot_json json_size host h);
  persist_intent i s := on_disk (file_persist_intent record_json snapshot_json json_size host i s);
  complete r s := on_disk (file_complete record_json snapshot_json json_size host r s);
  pending_intents h := on_disk (file_pending record_json snapshot_json json_size host h);
  load_install_state h id := on_disk (file_load_install_state record_json snapshot_json json_size host h id)
|}.
Global Instance static_catalog : ReleaseCatalog World := {|
  resolve_known kind digest := lift (static_known catalog kind digest);
  resolve_runnable kind digest := lift (static_runnable catalog kind digest)
|}.
Global Instance env_material : BootstrapMaterialProvider World := {|
  material_prepare id facts r := on_env (material_prepare id facts r);
  material_finalize id facts receipt r := on_env (material_finalize id facts receipt r)
|}.
Global Instance env_process : ProcessController World Artifact := {|
  process_ensure id t r := on_env (process_ensure id t r);
  process_start id t r reference := on_env (process_start id t r reference);
  process_stop id t := on_env (process_stop id t);
  process_restart id t r reference := on_env (process_restart id t r reference);
  restore_installed_runtime id t reference bearer := on_env (restore_installed_runtime id t reference bearer);
  process_rotate_credential id t reference artifact := on_env (process_rotate_credential id t reference artifact);
  process_remove_retaining_data id t := on_env (process_remove_retaining_data id t);
  process_observe t := on_env (process_observe t)
|}.
Definition env_credentials (credential : bytes) : CredentialArtifactProvider World Artifact :=
  λ id t reference, on_env (payload credential id t reference).

(** ** Reloading the supervisor *)

Notation Op := (ST (HostSupervisor * World) SupervisorError).

Definition rehydrate_all_install_states : Op unit :=
  s ← self;
  foldr (λ i rest, rehydrate_install_state i.(m_connector_id);; rest) (mret tt) (snapshot s).(ss_instances).

(** the [AgentHost] of the configuration *)
Definition config_host : result OperatorFailure Host.AgentHost :=
  let host := Host.register config.(hc_tenant_id) config.(hc_host_id) config.(hc_owner_id) in
  match Host.enroll Revision.INITIAL config.(hc_host_credential_id) host with
  | (Ok _, host) => Ok host
  | (Err _, _) => Err (failure (str "INVALID_HOST_CONFIG"))
  end.

Definition rehydrate_into (supervisor : HostSupervisor) : ST World OperatorFailure HostSupervisor := λ w,
  match rehydrate_all_install_states (supervisor, w) with
  | (Ok _, (supervisor, w)) => (Ok supervisor, w)
  | (Err _, (_, w)) => (Err (failure (str "INVALID_SUPERVISOR_STATE")), w)
  end.

Definition boot : ST World OperatorFailure HostSupervisor :=
  h ← lift config_host;
  s ← port map_state_port (load_snapshot config.(hc_host_id));
  supervisor ← match s with
               | Some s => port (λ _, failure (str "INVALID_SUPERVISOR_STATE")) (try_from_snapshot h s)
               | None => lift (map_err (λ _, failure (str "INVALID_SUPERVISOR_STATE")) (new h))
               end;
  rehydrate_into supervisor.

(** a method of the supervisor within a request *)
Definition method {A} (m : Op A) : ST (HostSupervisor * World) OperatorFailure A := λ sw,
  let '(r, sw) := m sw in (map_err map_supervisor r, sw).

Definition with_self {A} (f : HostSupervisor → result OperatorFailure A) : ST (HostSupervisor * World) OperatorFailure A :=
  λ sw, (f sw.1, sw).
Definition lookup_in (f : PortError → OperatorFailure) (h : HostId) (id : HostOperationId) :
    ST (HostSupervisor * World) OperatorFailure (option JournalRecord) := λ sw,
  let '(r, w) := port f (lookup_record h id) sw.2 in (r, (sw.1, w)).

Definition is_completed (r : option JournalRecord) : bool :=
  match r with Some (RCompleted _ _) => true | _ => false end.

(** ** [dispatch] *)

Definition dispatch (frame : RequestFrame) : ST (HostSupervisor * World) OperatorFailure OperatorResult :=
  match frame.(rf_request) with
  | BSnapshot => with_self (λ s, Ok (RSnapshot (snapshot s)))
  | BObserve id =>
      actual ← method (observe id);
      with_self (λ s, connector ← ok_or (s.(instances) !! id) (failure (str "CONNECTOR_NOT_FOUND"));
                      Ok (RObservation s.(revisions) connector actual))
  | BExecute id d o command =>
      fence ← lift (map_err (λ _, failure (str "INVALID_REVISION")) (Fence_new d o));
      let envelope := Envelope_new frame.(rf_tenant_id) frame.(rf_host_id) id fence (command_to_domain command) in
      match command with
      | WRotateCredential _ _ =>
          if decide (frame.(rf_credential) = []) then
            record ← lookup_in map_state_port frame.(rf_host_id) id;
            lift (reject (failure (str "CREDENTIAL_PAYLOAD_REQUIRED")) when (is_completed record = false))
          else mret tt
      | _ => mret tt
      end;;
      result ← method (execute (C := env_credentials frame.(rf_credential)) envelope);
      with_self (λ s,
        connector ← ok_or (s.(instances) !! wire_connector_id command) (failure (str "INVALID_SUPERVISOR_STATE"));
        Ok (RCommand result.(cr_application) result.(cr_outcome).(co_disposition)
              result.(cr_outcome).(co_revisions) connector))
  end.

Definition serve_frame (supervisor : HostSupervisor) (frame : RequestFrame) : ST World OperatorFailure OperatorResult :=
  λ w, let '(r, (_, w)) := dispatch frame (supervisor, w) in (r, w).

(** [handle_inner], for a parsed configuration and catalog *)
Definition handle (frame : RequestFrame) : ST World OperatorFailure OperatorResult :=
  lift (reject (failure (str "INVALID_HOST_CONFIG")) when (config.(hc_schema_version) ≠ 1));;
  lift (reject (failure (str "HOST_BOUNDARY_MISMATCH"))
    when (frame.(rf_tenant_id) ≠ config.(hc_tenant_id) ∨ frame.(rf_host_id) ≠ config.(hc_host_id)));;
  supervisor ← boot;
  serve_frame supervisor frame.

(** ** The lifecycle frames *)

Inductive V2Operation : Type := V2Prepare | V2Finalize (prepared_receipt : PreparedReceiptDigest).

Definition rejected {A} (m : Op A) : ST (HostSupervisor * World) OperatorFailure A := λ sw,
  let '(r, sw) := m sw in (map_err (λ _, failure (str "OPERATION_REJECTED")) r, sw).

(** [dispatch_v2_lifecycle], for the facts of a header; the result is not projected. *)
Definition dispatch_v2_lifecycle (operation : V2Operation) (facts : ConnectorLifecycleFacts) (id : HostOperationId)
    (expected_desired : Z) (expected_observed : option Z) (material_present : bool) :
    ST (HostSupervisor * World) OperatorFailure CommandResult :=
  s ← get;
  let tenant := s.1.(tenant_id) in
  let host := s.1.(host_id) in
  (if material_present : bool then mret tt
   else
     record ← lookup_in (λ _, failure (str "STATE_UNAVAILABLE")) host id;
     lift (reject (failure (str "MATERIAL_REQUIRED")) when (is_completed record = false)));;
  fence ← lift (map_err (λ _, failure (str "INVALID_REVISION")) (Fence_new expected_desired expected_observed));
  rejected (match operation with
            | V2Prepare =>
                prepare_connector_material (Envelope_new tenant host id fence (HPrepareConnectorMaterial facts))
            | V2Finalize receipt =>
                finalize_connector_material (Envelope_new tenant host id fence (HFinalizeConnectorMaterial facts receipt))
            end).
End request.
End HostRequest.
