(* ===== verification/HostRecovery.v ===== *)
(** * Host supervisor: interrupted requests

    A request of [HostRequest] that dies anywhere, because a port failed or the disk
    did, is sent again.  The retry finishes the operation as an undisturbed request
    would have, or reports what the first one had already completed. *)

From S2P Require Import Prelude Domain WirePrimitives WireValues Connector ControlProof AgentHost HostTypes HostSupervisor HostSupervisorProps HostJournal HostJournalProps HostRequest.

Module Recovery.
Import HostTypes Supervisor SupervisorProps FileJournal JournalProps HostRequest.

(** ** Snapshots are stored in order *)

Global Instance by_connector_id_total : Total by_connector_id.
Proof. intros x y. apply (total ord_le). Qed.
Global Instance by_connector_id_trans : Transitive by_connector_id.
Proof. intros x y z. apply (transitivity (R := ord_le)). Qed.

Lemma StronglySorted_map {A B} (RA : relation A) (RB : relation B) (f : A → B) l :
  (∀ x y, x ∈ l → y ∈ l → RA x y → RB (f x) (f y)) → StronglySorted RA l → StronglySorted RB (f <$> l).
Proof.
  induction l as [|x l IH]; intros HR Hl; [constructor|]. inversion Hl as [|? ? Hl' Hx]; subst. cbn. constructor.
  - apply IH; [|done]. intros y z Hy Hz. apply HR; set_solver.
  - apply Forall_fmap. rewrite Forall_forall in *. intros y Hy. apply HR; [set_solver..|]. by apply Hx.
Qed.

Lemma snapshot_sorted s : sup_ok s → from_snapshot (snapshot s) = snapshot s.
Proof.
  intros Hs. unfold from_snapshot, snapshot. cbn. f_equal.
  apply (StronglySorted_unique_strong by_connector_id).
  - intros x y Hx Hy Hxy Hyx. rewrite merge_sort_Permutation in Hx.
    apply elem_of_btree_values in Hx as [kx Hx], Hy as [ky Hy].
    assert (kx = ky) as <-; [|congruence].
    rewrite <-(so_key _ Hs _ _ Hx), <-(so_key _ Hs _ _ Hy). by apply (anti_symm ord_le).
  - apply StronglySorted_merge_sort; apply _.
  - unfold btree_values. eapply StronglySorted_map; [|apply btree_iter_sorted].
    intros [kx x] [ky y] Hx%elem_of_btree_iter Hy%elem_of_btree_iter. unfold entry_le, by_connector_id. cbn.
    by rewrite (so_key _ Hs _ _ Hx), (so_key _ Hs _ _ Hy).
  - apply merge_sort_Permutation.
Qed.

Section recovery.
Context `{Sha : Sha256}.
Context (record_json : Record_ → bytes) (snapshot_json : SupervisorSnapshot → bytes) (json_size : JournalFile → Z).
Hypothesis json_size_pos : ∀ j, 0 < json_size j.
Context (catalog : StaticReleaseCatalog) (config : HostConfigWire).
Context {Env Artifact : Type}.
Context (payload : bytes → CredentialArtifactProvider Env Artifact).
Context `{M : !BootstrapMaterialProvider Env} `{P : !ProcessController Env Artifact}.

Local Notation host := config.(hc_host_id).
Local Notation World := (Disk * Env)%type.
Local Notation file_ok := (file_ok record_json snapshot_json json_size host).
Local Notation opened := (opened host).
Local Notation boot := (boot record_json snapshot_json json_size catalog config (Env := Env)).

(** The ports of a request. *)
Local Instance J : Journal World := file_journal record_json snapshot_json json_size config.
Local Instance R : ReleaseCatalog World := static_catalog catalog.

(** ** Programs that only consult the catalog *)

Definition pure {E A} (m : ST World E A) : Prop := ∃ r, ∀ w, m w = (r, w).

Lemma pure_bind {E A B} (m : ST World E A) (f : A → ST World E B) : pure m → (∀ a, pure (f a)) → pure (m ≫= f).
Proof.
  intros [[a|e] Hm] Hf.
  - destruct (Hf a) as [r Hr]. exists r. intros w. unfold mbind, ST_bind. by rewrite Hm.
  - exists (Err e). intros w. unfold mbind, ST_bind. by rewrite Hm.
Qed.
Lemma pure_lift {E A} (r : result E A) : pure (lift r).
Proof. by exists r. Qed.
Lemma pure_ret {E A} (a : A) : pure (mret a : ST World E A).
Proof. by exists (Ok a). Qed.
Lemma pure_port {E F A} (f : E → F) (m : ST World E A) : pure m → pure (port f m).
Proof. intros [r Hm]. exists (map_err f r). intros w. unfold port. by rewrite Hm. Qed.

Lemma pure_run {E A} (m : ST World E A) r w w' : pure m → m w = (r, w') → w' = w ∧ ∀ w2, m w2 = (r, w2).
Proof. intros [r0 Hm] H. rewrite Hm in H. injection H as <- <-. done. Qed.

Ltac pure :=
  repeat first
    [ apply pure_lift | apply pure_ret | apply pure_port | apply pure_bind; [|intros ?]
    | match goal with |- pure (match ?x with _ => _ end) => destruct x end ].

Lemma resolve_command_pure s c : pure (resolve_command s c).
Proof. unfold resolve_command, ensure_release_runnable. pure. Qed.

Lemma validate_release_pure r v : pure (validate_release r v).
Proof. unfold validate_release, ensure_release_runnable, ensure_release_known. pure. Qed.

Lemma validate_intent_pure s i v : pure (validate_intent s i v).
Proof.
  unfold validate_intent, validate_intent_state.
  repeat first
    [ apply validate_release_pure | apply pure_lift | apply pure_ret | apply pure_bind; [|intros ?]
    | match goal with |- pure (match ?x with _ => _ end) => destruct x end ].
Qed.

Lemma load_instances_pure l acc : pure (load_instances l acc).
Proof. revert acc. induction l as [|i l IH]; intros acc; cbn [load_instances]; pure. apply IH. Qed.

Lemma try_from_snapshot_pure h sn : pure (try_from_snapshot h sn).
Proof.
  unfold try_from_snapshot.
  repeat first [ apply load_instances_pure | apply pure_lift | apply pure_ret | apply pure_bind; [|intros ?] ].
Qed.

(** ** What a reload accepts *)

(** the numbers of the stored snapshot are unsigned *)
Definition unsigned_snapshot (sn : SupervisorSnapshot) : Prop :=
  0 ≤ sn.(ss_desired_revision) ∧ (∀ o, sn.(ss_observed_revision) = Some o → 0 ≤ o) ∧
  ∀ i, i ∈ sn.(ss_instances) → 0 ≤ i.(m_credential_generation).

Lemma load_instances_inv l acc w m w' :
  load_instances l acc w = (Ok m, w') →
  m = index_by m_connector_id acc l ∧
  ∀ i, i ∈ l → i.(m_release).(cr_adapter_kind) = i.(m_adapter_kind) ∧ instance_is_valid i = true ∧
    static_known catalog i.(m_adapter_kind) i.(m_release).(cr_digest) = Ok i.(m_release).
Proof.
  revert acc w. induction l as [|i l IH]; intros acc w H; cbn [load_instances] in H.
  { st_inv H. split; [done|set_solver]. }
  apply st_bind_Ok in H as ([] & w1 & [H1 ->]%lift_Ok & H). apply st_bind_Ok in H as ([] & w2 & [H2 ->]%lift_Ok & H).
  apply st_bind_Ok in H as (r & w3 & H3 & H). apply st_bind_Ok in H as ([] & w4 & [H4 ->]%lift_Ok & H).
  res_inv H1. res_inv H2. res_inv H4. not_ors. apply IH in H as [-> Hl]. split; [done|].
  assert (static_known catalog (m_adapter_kind i) (cr_digest (m_release i)) = Ok r) as Hr.
  { unfold port in H3. cbn in H3. injection H3 as H3 _. by apply map_err_Ok in H3. }
  intros x [->|Hx]%elem_of_cons; [|auto]. split_and!; [done..|congruence].
Qed.

Definition config_agent_host : Host.AgentHost :=
  exec (Host.enroll Revision.INITIAL config.(hc_host_credential_id))
    (Host.register config.(hc_tenant_id) config.(hc_host_id) config.(hc_owner_id)).

Lemma config_host_Ok : config_host config = Ok config_agent_host.
Proof. reflexivity. Qed.

Local Notation h := config_agent_host.

(** The supervisor before its install states are loaded. *)
Definition base (j : JournalFile) (s0 : HostSupervisor) : Prop :=
  match j.(jf_snapshot) with
  | None => new h = Ok s0
  | Some sn => ∃ w : World, try_from_snapshot h sn w = (Ok s0, w)
  end.

(** The catalog resolves every release of the supervisor to itself. *)
Definition known (s : HostSupervisor) : Prop := ∀ id i,
  s.(instances) !! id = Some i → static_known catalog i.(m_adapter_kind) i.(m_release).(cr_digest) = Ok i.(m_release).

Lemma known_knows s w : known s → catalog_knows w s.
Proof. intros Hk id i Hi. cbn. unfold lift. by rewrite (Hk _ _ Hi). Qed.

Lemma base_host j s0 :
  base j s0 → s0.(tenant_id) = config.(hc_tenant_id) ∧ s0.(host_id) = host ∧ s0.(install_states) = ∅
  ∧ (j.(jf_snapshot) = None → s0.(instances) = ∅)
  ∧ ∀ sn, j.(jf_snapshot) = Some sn → sn.(ss_tenant_id) = config.(hc_tenant_id).
Proof.
  unfold base. destruct (jf_snapshot j) as [sn|].
  - intros [w H]. unfold try_from_snapshot in H. st_inv H. not_ors. split_and!; try done. by intros ? [= <-].
  - intros [= <-]. split_and!; done.
Qed.

Lemma Fence_new_valid d o f :
  Fence_new d o = Ok f → 0 ≤ d → (∀ x, o = Some x → 0 ≤ x) →
  Revision.valid d ∧ ∀ x, o = Some x → 1 ≤ x ≤ d.
Proof.
  intros H Hd Ho. unfold Fence_new, Revision.new in H.
  apply result_bind_Ok in H as (d' & Hd' & H). apply map_err_Ok in Hd'. res_inv Hd'. not_ors.
  apply result_bind_Ok in H as (o' & Ho' & H). unfold from_revisions in H. res_inv H. not_ors.
  split; [unfold Revision.valid; lia|]. intros v ->. specialize (Ho v eq_refl). unfold reject_if in Ho'.
  case_decide; [done|]. cbn in Ho'. injection Ho' as <-.
  match goal with H : bool_decide _ ≠ true |- _ => apply not_true_is_false, bool_decide_eq_false in H end. lia.
Qed.

Lemma base_ok j s0 :
  well host j → (∀ sn, j.(jf_snapshot) = Some sn → unsigned_snapshot sn) → base j s0 → sup_ok s0 ∧ known s0.
Proof.
  intros Hj Hu. unfold base. destruct (jf_snapshot j) as [sn|] eqn:Hsn.
  - intros [w H]. destruct (Hu sn eq_refl) as (Hd & Ho & Hg). pose proof (we_snapshot _ _ Hj _ Hsn) as Hre.
    unfold Snapshot_rehydrate in Hre. apply result_bind_Ok in Hre as (f & Hf & _). apply map_err_Ok in Hf.
    apply (Fence_new_valid _ _ _) in Hf as [Hvd Hvo]; [|done..].
    unfold try_from_snapshot in H. st_inv H. not_ors.
    match goal with H : from_revisions _ _ = Ok _ |- _ => unfold from_revisions in H; res_inv H end.
    match goal with H : validate_snapshot_ids _ = true |- _ => apply distinct_ids_spec in H as [Hnd _] end.
    match goal with H : load_instances _ _ _ = _ |- _ => apply load_instances_inv in H as [-> Hl] end.
    assert (∀ id i, index_by m_connector_id ∅ (ss_instances sn) !! id = Some i →
      i ∈ ss_instances sn ∧ m_connector_id i = id) as Hin by (intros id i; by rewrite lookup_index_by_empty).
    split; [|intros id i [Hi _]%Hin; by apply Hl]. split; cbn [revisions instances desired observed]; try done;
      try (intros id i [Hi Hid]%Hin; first [done|by apply Hg|by apply Hl]).
    intros Hne. cbn in *. match goal with H : ¬ (_ ∧ _) |- _ => apply not_and_l in H as [Hnil|Hack] end.
    + destruct Hne. by rewrite (dec_stable Hnil).
    + by not_ors.
  - intros Hnew. assert (Host.host_ok h) by (apply Host.host_step_ok with (o := Host.OpEnroll _ _); apply Host.host_register_ok).
    destruct (supervisor_new_ok h s0) as [Hok Hemp]; try done. split; [done|]. intros id i. by rewrite Hemp.
Qed.

(** ** Install states *)

Definition load_all (l : list Record_) (ids : list ConnectorId) (acc : gmap ConnectorId InstallState) :
    gmap ConnectorId InstallState :=
  foldl (λ acc id, match install_of l id with Some st => <[id := st]> acc | None => acc end) acc ids.

Lemma lookup_load_all l ids acc id :
  load_all l ids acc !! id =
  if decide (id ∈ ids) then match install_of l id with Some st => Some st | None => acc !! id end else acc !! id.
Proof.
  induction ids as [|k ids IH] using rev_ind; [done|]. unfold load_all in *. rewrite foldl_app. cbn.
  destruct (decide (id = k)) as [->|Hne].
  - rewrite (decide_True (P := k ∈ ids ++ [k])) by set_solver. destruct (install_of l k) as [st|].
    + by rewrite lookup_insert_eq.
    + rewrite IH. by case_decide.
  - rewrite (decide_ext (id ∈ ids ++ [k]) (id ∈ ids)) by set_solver.
    destruct (install_of l k) as [st|]; [rewrite lookup_insert_ne by done|]; apply IH.
Qed.

(** The supervisor that a request starts with. *)
Definition booted (j : JournalFile) (s : HostSupervisor) : Prop := ∃ s0,
  base j s0 ∧
  s = s0 <| install_states := load_all j.(records) (m_connector_id <$> btree_values s0.(instances)) ∅ |>.

Local Notation World_ops := (ST (HostSupervisor * World) SupervisorError).

Lemma load_install_disk d w id r d' w' :
  load_install_state host id (d, w) = (r, (d', w')) →
  d'.(disk_file) = d.(disk_file) ∧ w' = w ∧
  ∀ a, r = Ok a → file_ok d.(disk_file) ∧ a = install_of (opened d.(disk_file)).(records) id.
Proof.
  cbn. unfold on_disk. cbn. destruct (file_load_install_state _ _ _ _ _ _ d) as [r1 d1] eqn:H. intros [= <- <- <-].
  apply (load_install_answers record_json snapshot_json json_size host json_size_pos id) in H as [Hd Ha]. auto.
Qed.

Lemma load_install_clean file w id :
  file_ok file → load_install_state host id (clean file, w) = (Ok (install_of (opened file).(records) id), (clean file, w)).
Proof.
  intros Hok. cbn. unfold on_disk. cbn.
  destruct (load_install_answers record_json snapshot_json json_size host json_size_pos id) as [Hc _]. by rewrite Hc.
Qed.

Definition with_install (l : list Record_) (id : ConnectorId) (s : HostSupervisor) : HostSupervisor :=
  s <| install_states := load_all l [id] s.(install_states) |>.

Lemma with_install_None l id s : install_of l id = None → with_install l id s = s.
Proof. intros H. unfold with_install, load_all. cbn. rewrite H. by destruct s. Qed.
Lemma with_install_Some l id s st :
  install_of l id = Some st → with_install l id s = s <| install_states := <[id := st]> s.(install_states) |>.
Proof. intros H. unfold with_install, load_all. cbn. by rewrite H. Qed.

Lemma rehydrate_one_inv id s d w r s' d' w' :
  s.(host_id) = host →
  rehydrate_install_state id (s, (d, w)) = (r, (s', (d', w'))) →
  d'.(disk_file) = d.(disk_file) ∧ w' = w ∧
  ∀ u, r = Ok u → file_ok d.(disk_file) ∧ s' = with_install (opened d.(disk_file)).(records) id s.
Proof.
  intros Hs H. eapply (wp_eq _ _ _ (s', (d', w')) (λ r sw, sw.2.1.(disk_file) = d.(disk_file) ∧ sw.2.2 = w ∧
    ∀ u, r = Ok u → file_ok d.(disk_file) ∧ sw.1 = with_install (opened d.(disk_file)).(records) id s)) in H; [done|].
  unfold rehydrate_install_state. wp_step. wp_step. wp_step. wp_step. wp_step. apply wp_run.
  rewrite Hs. intros r1 [d1 w1] (Hd & -> & Ha)%load_install_disk.
  destruct r1 as [[st|]|e]; cbn [map_err]; [..|done].
  - destruct (Ha _ eq_refl) as [Hok Hst]. repeat wp_step; cbn; split_and!; try done.
    intros _ _. split; [done|]. by rewrite (with_install_Some _ _ _ st).
  - destruct (Ha _ eq_refl) as [Hok Hst]. repeat wp_step; cbn; split_and!; try done.
    intros _ _. split; [done|]. by rewrite with_install_None.
Qed.

Lemma rehydrate_one_clean id s file w :
  s.(host_id) = host → file_ok file →
  (∀ st, install_of (opened file).(records) id = Some st →
    (install_facts st).(lf_host_id) = host ∧ (install_facts st).(lf_tenant_id) = s.(tenant_id)
    ∧ (install_facts st).(lf_connector_id) = id) →
  rehydrate_install_state id (s, (clean file, w)) =
  (Ok tt, (with_install (opened file).(records) id s, (clean file, w))).
Proof.
  intros Hs Hok Hst. unfold rehydrate_install_state, mbind, ST_bind. cbn [self fst]. unfold io, port. cbn [snd fst].
  rewrite Hs, load_install_clean by done. cbn [map_err].
  destruct (install_of _ id) as [st|] eqn:Hi.
  - destruct (Hst st eq_refl) as (? & ? & ?). unfold lift, reject_if. rewrite decide_False by tauto.
    cbn. by rewrite (with_install_Some _ _ _ st).
  - cbn. by rewrite with_install_None.
Qed.

(** The loop over the instances, for a supervisor of this host. *)
Local Notation rehydrate_ids ids :=
  (foldr (λ i (rest : World_ops unit), rehydrate_install_state i.(m_connector_id);; rest) (mret tt) ids).
Definition with_installs (l : list Record_) (managed : list ManagedConnectorSnapshot) (s : HostSupervisor) : HostSupervisor :=
  s <| install_states := load_all l (m_connector_id <$> managed) s.(install_states) |>.

Lemma rehydrate_ids_inv l s d w r s' d' w' :
  s.(host_id) = host →
  rehydrate_ids l (s, (d, w)) = (r, (s', (d', w'))) →
  d'.(disk_file) = d.(disk_file) ∧ w' = w ∧
  (∀ u, r = Ok u → s' = with_installs (opened d.(disk_file)).(records) l s).
Proof.
  revert s d. induction l as [|i l IH]; intros s d Hs H; cbn in H.
  { unfold mret, ST_ret in H. injection H as <- <- <- <-. split_and!; try done. intros _ _. by destruct s. }
  unfold mbind, ST_bind in H. destruct (rehydrate_install_state _ _) as [r1 [s1 [d1 w1]]] eqn:H1.
  apply rehydrate_one_inv in H1 as (Hd1 & -> & H1); [|done]. destruct r1 as [[]|e]; [|by simplify_eq].
  destruct (H1 _ eq_refl) as [_ ->]. apply IH in H as (Hd & -> & H); [|done]. rewrite Hd1 in *.
  split_and!; [done..|]. intros u Hu. by rewrite (H u Hu).
Qed.

Lemma rehydrate_ids_clean l s file w :
  s.(host_id) = host → file_ok file →
  (∀ id st, install_of (opened file).(records) id = Some st →
    (install_facts st).(lf_host_id) = host ∧ (install_facts st).(lf_tenant_id) = s.(tenant_id)
    ∧ (install_facts st).(lf_connector_id) = id) →
  rehydrate_ids l (s, (clean file, w)) = (Ok tt, (with_installs (opened file).(records) l s, (clean file, w))).
Proof.
  intros Hs Hok Hst. revert s Hs Hst. induction l as [|i l IH]; intros s Hs Hst; cbn.
  { unfold mret, ST_ret. by destruct s. }
  unfold mbind, ST_bind. rewrite (rehydrate_one_clean _ _ _ _ Hs Hok) by auto. by apply IH.
Qed.

Lemma load_snapshot_disk d w r d' w' :
  load_snapshot host (d, w) = (r, (d', w')) →
  d'.(disk_file) = d.(disk_file) ∧ w' = w ∧
  ∀ a, r = Ok a → file_ok d.(disk_file) ∧ a = (opened d.(disk_file)).(jf_snapshot).
Proof.
  cbn. unfold on_disk. cbn. destruct (file_load_snapshot _ _ _ _ _ d) as [r1 d1] eqn:H. intros [= <- <- <-].
  apply (load_snapshot_answers record_json snapshot_json json_size host json_size_pos) in H as [Hd Ha]. auto.
Qed.

Lemma load_snapshot_clean file w :
  file_ok file → load_snapshot host (clean file, w) = (Ok (opened file).(jf_snapshot), (clean file, w)).
Proof.
  intros Hok. cbn. unfold on_disk. cbn.
  destruct (load_snapshot_answers record_json snapshot_json json_size host json_size_pos) as [Hc _]. by rewrite Hc.
Qed.

(** ** Booting *)

Lemma rehydrate_into_eq s w :
  rehydrate_into record_json snapshot_json json_size config s w =
  match rehydrate_ids (btree_values s.(instances)) (s, w) with
  | (Ok _, (s, w)) => (Ok s, w)
  | (Err _, (_, w)) => (Err (failure (str "INVALID_SUPERVISOR_STATE")), w)
  end.
Proof. reflexivity. Qed.

Lemma boot_inv d w r d' w' :
  boot (d, w) = (r, (d', w')) →
  d'.(disk_file) = d.(disk_file) ∧ w' = w ∧ ∀ s, r = Ok s → file_ok d.(disk_file) ∧ booted (opened d.(disk_file)) s.
Proof.
  intros H. unfold HostRequest.boot in H. rewrite config_host_Ok in H. unfold mbind, ST_bind, lift in H. unfold port at 1 in H.
  destruct (load_snapshot host (d, w)) as [r1 [d1 w1]] eqn:H1.
  apply load_snapshot_disk in H1 as (Hd1 & -> & H1). destruct r1 as [sn|e]; cbn [map_err] in H; [|by simplify_eq].
  destruct (H1 _ eq_refl) as [Hok ->]. clear H1.
  assert (∀ s0, base (opened d.(disk_file)) s0 →
    rehydrate_into record_json snapshot_json json_size config s0 (d1, w) = (r, (d', w')) →
    d'.(disk_file) = d.(disk_file) ∧ w' = w ∧ ∀ s, r = Ok s → file_ok d.(disk_file) ∧ booted (opened d.(disk_file)) s)
    as Hend.
  { intros s0 Hb Hr. destruct (base_host _ _ Hb) as (_ & Hhost & Hinst & _). rewrite rehydrate_into_eq in Hr.
    destruct (rehydrate_ids _ _) as [r2 [s2 [d2 w2]]] eqn:H2. apply rehydrate_ids_inv in H2 as (Hd2 & -> & H2); [|done].
    rewrite Hd1 in *. destruct r2 as [u|e]; simplify_eq; split_and!; try done. intros s [= <-]. split; [done|].
    exists s0. split; [done|]. rewrite (H2 u eq_refl). unfold with_installs. by rewrite Hinst. }
  destruct (jf_snapshot (opened _)) as [sn|] eqn:Hsn.
  - unfold port in H. destruct (try_from_snapshot h sn (d1, w)) as [r2 w2] eqn:H2.
    destruct (pure_run _ _ _ _ (try_from_snapshot_pure h sn) H2) as [-> H2'].
    destruct r2 as [s0|e]; cbn [map_err] in H; [|by simplify_eq]. apply (Hend s0); [|done].
    unfold base. rewrite Hsn. by exists (d1, w).
  - destruct (new h) as [s0|e] eqn:H2; cbn [map_err] in H; [|by simplify_eq]. apply (Hend s0); [|done].
    unfold base. by rewrite Hsn.
Qed.

Lemma boot_clean file s w :
  file_ok file → booted (opened file) s → boot (clean file, w) = (Ok s, (clean file, w)).
Proof.
  intros Hok (s0 & Hb & ->). destruct (base_host _ _ Hb) as (Ht & Hhost & Hinst & Hnone & Hten).
  assert (well host (opened file)) as Hw by (by eapply opened_well).
  assert (rehydrate_into record_json snapshot_json json_size config s0 (clean file, w) =
    (Ok (s0 <| install_states := load_all (opened file).(records) (m_connector_id <$> btree_values s0.(instances)) ∅ |>),
     (clean file, w))) as Hre.
  { rewrite rehydrate_into_eq. destruct (jf_snapshot (opened file)) as [sn|] eqn:Hsn.
    - rewrite rehydrate_ids_clean; [unfold with_installs; by rewrite Hinst|done..|].
      intros id st Hst. eapply install_of_facts in Hst as (? & ? & ?); [|done..].
      rewrite Ht, <-(Hten sn); done.
    - rewrite (Hnone eq_refl), btree_values_empty. cbn. unfold mret, ST_ret. destruct s0. cbn in *. by subst. }
  unfold HostRequest.boot. rewrite config_host_Ok. unfold mbind, ST_bind, lift. unfold port at 1.
  rewrite load_snapshot_clean by done. cbn [map_err]. unfold base in Hb.
  destruct (jf_snapshot (opened file)) as [sn|] eqn:Hsn.
  - destruct Hb as [w0 Hb]. destruct (pure_run _ _ _ _ (try_from_snapshot_pure h sn) Hb) as [_ Hb'].
    unfold port. rewrite Hb'. cbn [map_err]. done.
  - rewrite Hb. cbn [map_err]. done.
Qed.

Lemma sup_ok_install s x : sup_ok s → sup_ok (s <| install_states := x |>).
Proof. intros []. by split. Qed.

Definition unsigned_file (j : JournalFile) : Prop := ∀ sn, j.(jf_snapshot) = Some sn → unsigned_snapshot sn.

Record booted_facts (j : JournalFile) (s : HostSupervisor) : Prop := {
  bf_ok : sup_ok s;
  bf_known : known s;
  bf_tenant : s.(tenant_id) = config.(hc_tenant_id);
  bf_host : s.(host_id) = host;
  bf_install id b : s.(instances) !! id = Some b → s.(install_states) !! id = install_of j.(records) id
}.

Lemma booted_inv j s : well host j → unsigned_file j → booted j s → booted_facts j s.
Proof.
  intros Hj Hu (s0 & Hb & ->). destruct (base_ok _ _ Hj Hu Hb) as [Hok Hk]. destruct (base_host _ _ Hb) as (? & ? & ? & _).
  split; try done; [by apply sup_ok_install|]. intros id b Hi. cbn in Hi |- *. rewrite lookup_load_all.
  rewrite decide_True; [by destruct (install_of _ id)|]. apply list_elem_of_fmap. exists b.
  split; [by rewrite (so_key _ Hok _ _ Hi)|]. apply elem_of_btree_values. eauto.
Qed.

(** A file that stores the snapshot of a sound supervisor boots to it. *)
Lemma booted_of s j (w : World) :
  sup_ok s → known s → s.(tenant_id) = config.(hc_tenant_id) → s.(host_id) = host →
  j.(jf_snapshot) = Some (snapshot s) →
  booted j (s <| install_states := load_all j.(records) (m_connector_id <$> btree_values s.(instances)) ∅ |>).
Proof.
  intros Hs Hk Ht Hh Hj. exists (s <| install_states := ∅ |>). split; [|done]. unfold base. rewrite Hj. exists w.
  apply reload_Ok; try done. by apply known_knows.
Qed.

Lemma load_all_ext l l' ids acc : (∀ id, install_of l id = install_of l' id) → load_all l ids acc = load_all l' ids acc.
Proof.
  intros H. unfold load_all. revert acc. induction ids as [|id ids IH]; intros acc; [done|]. cbn. rewrite H. apply IH.
Qed.

Lemma booted_pending j s i j' (w : World) :
  well host j → unsigned_file j → booted j s → pending_tail i (snapshot s) j.(records) j' → booted j' s.
Proof.
  intros Hj Hu Hb Ht. destruct (booted_inv _ _ Hj Hu Hb) as [Hok Hk Hten Hhost _].
  pose proof (booted_of s j' w Hok Hk Hten Hhost) as H. destruct Hb as (s0 & Hb & ->). destruct Ht as (Hrec & Hsn & Hl).
  specialize (H Hsn). cbn in H. erewrite load_all_ext in H; [exact H|]. intros id.
  by eapply install_of_pending.
Qed.

(** ** Programs that only reach the environment *)

Definition env_only {E A} (m : ST World E A) : Prop :=
  ∃ n : Env → result E A * Env, ∀ d w, m (d, w) = ((n w).1, (d, (n w).2)).

Lemma env_bind {E A B} (m : ST World E A) (f : A → ST World E B) : env_only m → (∀ a, env_only (f a)) → env_only (m ≫= f).
Proof.
  intros [n Hm] Hf.
  exists (λ w, match (n w).1 with Ok a => let '(r, (_, w')) := f a (clean None, (n w).2) in (r, w') | Err e => (Err e, (n w).2) end).
  intros d w. unfold mbind, ST_bind. rewrite Hm. destruct (n w) as [[a|e] w']; [|done]. cbn.
  destruct (Hf a) as [n' Hn']. by rewrite !Hn'.
Qed.
Lemma env_lift {E A} (r : result E A) : env_only (lift r).
Proof. by exists (λ w, (r, w)). Qed.
Lemma env_ret {E A} (a : A) : env_only (mret a : ST World E A).
Proof. by exists (λ w, (Ok a, w)). Qed.
Lemma env_throw {E A} (e : E) : env_only (throw e : ST World E A).
Proof. by exists (λ w, (Err e, w)). Qed.
Lemma env_port {E F A} (f : E → F) (m : ST Env E A) : env_only (port f (on_env m)).
Proof.
  exists (λ w, let '(r, w') := m w in (map_err f r, w')). intros d w. unfold port, on_env. cbn. by destruct (m w).
Qed.

(** ** The journal within the world *)

Lemma lookup_disk d w id r d' w' :
  lookup_record host id (d, w) = (r, (d', w')) →
  d'.(disk_file) = d.(disk_file) ∧ w' = w ∧
  ∀ a, r = Ok a → file_ok d.(disk_file) ∧ a = to_record ∘ snd <$> find_record (opened d.(disk_file)) id.
Proof.
  cbn. unfold on_disk. cbn. destruct (file_lookup _ _ _ _ _ _ d) as [r1 d1] eqn:H. intros [= <- <- <-].
  apply (lookup_answers record_json snapshot_json json_size host json_size_pos) in H as [Hd Ha]. auto.
Qed.
Lemma lookup_clean file w id :
  file_ok file →
  lookup_record host id (clean file, w) = (Ok (to_record ∘ snd <$> find_record (opened file) id), (clean file, w)).
Proof.
  intros Hok. cbn. unfold on_disk. cbn.
  destruct (lookup_answers record_json snapshot_json json_size host json_size_pos id) as [Hc _]. by rewrite Hc.
Qed.
Lemma pending_disk d w r d' w' :
  pending_intents host (d, w) = (r, (d', w')) →
  d'.(disk_file) = d.(disk_file) ∧ w' = w ∧
  ∀ a, r = Ok a → file_ok d.(disk_file) ∧ a = pending_of (opened d.(disk_file)).(records).
Proof.
  cbn. unfold on_disk. cbn. destruct (file_pending _ _ _ _ _ d) as [r1 d1] eqn:H. intros [= <- <- <-].
  apply (pending_answers record_json snapshot_json json_size host json_size_pos) in H as [Hd Ha]. auto.
Qed.

Local Notation replaces := (replaces record_json snapshot_json json_size host).
Local Notation push := (push_intent snapshot_json).
Local Notation settle := (settle snapshot_json).

Lemma persist_disk i sn d w r d' w' :
  persist_intent i sn (d, w) = (r, (d', w')) →
  w' = w ∧
  (d'.(disk_file) = d.(disk_file) ∧ (r = Ok tt → push i (from_snapshot sn) (opened d.(disk_file)) = Ok None) ∨
   ∃ j', replaces (push i (from_snapshot sn)) d.(disk_file) j' ∧ d'.(disk_file) = Some j').
Proof.
  cbn. unfold on_disk. cbn. destruct (file_persist_intent _ _ _ _ _ _ d) as [r1 d1] eqn:H. intros [= <- <- <-].
  split; [done|]. unfold file_persist_intent, mbind, ST_bind, lift in H.
  repeat match type of H with
  | context [match ?r with Ok _ => _ | Err _ => _ end] =>
      lazymatch r with FileJournal.mutate _ _ _ _ _ _ => fail | _ => destruct r; [|by left; simplify_eq] end
  end.
  apply mutate_inv in H as [[? H]|(j' & ? & ?)]; [left|right; by eauto]. split; [done|]. by intros [_ ?]%H.
Qed.

Lemma complete_disk receipt sn d w r d' w' :
  complete receipt sn (d, w) = (r, (d', w')) →
  w' = w ∧
  (d'.(disk_file) = d.(disk_file) ∧ (r = Ok tt → settle receipt (from_snapshot sn) (opened d.(disk_file)) = Ok None) ∨
   ∃ j', replaces (settle receipt (from_snapshot sn)) d.(disk_file) j' ∧ d'.(disk_file) = Some j').
Proof.
  cbn. unfold on_disk. cbn. destruct (file_complete _ _ _ _ _ _ d) as [r1 d1] eqn:H. intros [= <- <- <-].
  split; [done|]. unfold file_complete, mbind, ST_bind, lift in H.
  repeat match type of H with
  | context [match ?r with Ok _ => _ | Err _ => _ end] =>
      lazymatch r with FileJournal.mutate _ _ _ _ _ _ => fail | _ => destruct r; [|by left; simplify_eq] end
  end.
  apply mutate_inv in H as [[? H]|(j' & ? & ?)]; [left|right; by eauto]. split; [done|]. by intros [_ ?]%H.
Qed.

(** A pending record is never taken for a completed one. *)
Lemma settle_pending i pred l j receipt res :
  file_ok (Some j) → pending_tail i pred l j → receipt.(or_operation_id) = i.(oi_operation_id) →
  settle receipt res j ≠ Ok None.
Proof.
  intros Hok Ht Hid H. assert (well host j) as Hw by (exact (opened_well _ _ _ _ json_size_pos (Some j) Hok)).
  destruct (pending_tail_find _ _ _ _ Ht) as (r & Hf & Hr). unfold FileJournal.settle in H. rewrite Hid, Hf in H.
  cbn [ok_or] in H. apply result_bind_Ok in H as ([k r'] & [= <- <-] & H).
  destruct (find_record_elem _ _ _ _ Hf) as (_ & Hin & _). rewrite (we_record _ _ Hw _ Hin), Hr in H.
  cbn [map_err] in H. apply result_bind_Ok in H as (? & [= <-] & H). res_inv H. done.
Qed.

(** ** Releases *)

Lemma runnable_known kind digest r : static_runnable catalog kind digest = Ok r → static_known catalog kind digest = Ok r.
Proof.
  unfold static_runnable, static_known. intros H. destruct (find catalog kind digest) as [rec|]; [|done]. cbn in *.
  destruct (rec_runnable rec); [by injection H as ->|done].
Qed.

Lemma release_runnable_Ok r (w : World) w' u :
  validate_release r Runnable w = (Ok u, w') → static_runnable catalog r.(cr_adapter_kind) r.(cr_digest) = Ok r.
Proof.
  unfold validate_release, ensure_release_runnable. intros (x & w1 & H1 & H)%st_bind_Ok.
  unfold port in H1. cbn in H1. injection H1 as H1 _. apply map_err_Ok in H1. st_inv H. not_ors. congruence.
Qed.

Lemma release_known_Ok r (w : World) :
  static_known catalog r.(cr_adapter_kind) r.(cr_digest) = Ok r → validate_release r Known w = (Ok tt, w).
Proof.
  intros H. unfold validate_release, ensure_release_known. apply st_bind_Ok. exists r, w. split.
  - unfold port. cbn. by rewrite H.
  - apply lift_Ok. split; [|done]. apply reject_if_Ok. tauto.
Qed.

(** Where the first program succeeds, so does the second. *)
Definition covers {A} (m m' : ST World SupervisorError A) : Prop := ∀ w a w', m w = (Ok a, w') → m' w = (Ok a, w').
Lemma covers_refl {A} (m : ST World SupervisorError A) : covers m m.
Proof. by intros w a w'. Qed.
Lemma covers_bind {A B} (m m' : ST World SupervisorError A) (f g : A → ST World SupervisorError B) :
  covers m m' → (∀ a, covers (f a) (g a)) → covers (m ≫= f) (m' ≫= g).
Proof. intros Hm Hf w b w' (a & w1 & H1 & H2)%st_bind_Ok. apply st_bind_Ok. exists a, w1. split; [by apply Hm|by apply Hf]. Qed.
Lemma covers_release r : covers (validate_release r Runnable) (validate_release r Known).
Proof.
  intros w [] w' H. destruct (pure_run _ _ _ _ (validate_release_pure r Runnable) H) as [-> _].
  apply release_known_Ok, runnable_known. by eapply release_runnable_Ok.
Qed.
Lemma covers_intent s i : covers (validate_intent s i Runnable) (validate_intent s i Known).
Proof.
  unfold validate_intent, validate_intent_state.
  repeat first
    [ apply covers_release | apply covers_bind; [|intros ?]
    | match goal with |- covers (match ?x with _ => _ end) _ => destruct x end | apply covers_refl ].
Qed.

(** A start that was validated as runnable is not blocked. *)
Lemma validated_not_blocked s i w w' :
  s.(revisions) = i.(oi_expected) → validate_intent s i Runnable w = (Ok tt, w') →
  pending_start_is_policy_blocked i w = (Ok false, w).
Proof.
  intros Hs H. pose proof (validate_intent_fits _ _ _ _ _ H) as Hfit. unfold validate_intent in H.
  rewrite (bool_decide_eq_false_2 (desired (revisions s) > desired (oi_resulting i))) in H.
  2: { rewrite Hs. destruct (advance_desired _ _ (if_advance _ _ Hfit)) as [-> _]. lia. }
  cbv zeta in H. st_inv H. unfold validate_intent_state in H. unfold pending_start_is_policy_blocked.
  destruct (oi_command i) as [|t r ref op| |t r ref op| | | |]; try done;
    apply st_bind_Ok in H as (u & w1 & H1 & _); apply release_runnable_Ok in H1; cbn; unfold lift; rewrite H1;
    by rewrite decide_True.
Qed.

Lemma validated_release s i v w w' r :
  s.(revisions) = i.(oi_expected) → validate_intent s i v w = (Ok tt, w') → command_release i.(oi_command) = Some r →
  static_known catalog r.(cr_adapter_kind) r.(cr_digest) = Ok r.
Proof.
  intros Hs H Hr. pose proof (validate_intent_fits _ _ _ _ _ H) as Hfit.
  assert (∃ w1 w2 u, validate_release r v w1 = (Ok u, w2)) as (w1 & w2 & u & Hv).
  { unfold validate_intent in H.
    rewrite (bool_decide_eq_false_2 (desired (revisions s) > desired (oi_resulting i))) in H.
    2: { rewrite Hs. destruct (advance_desired _ _ (if_advance _ _ Hfit)) as [-> _]. lia. }
    cbv zeta in H. st_inv H. unfold validate_intent_state in H.
    destruct (oi_command i); cbn in Hr; simplify_eq; apply st_bind_Ok in H as (u & w1 & H1 & _); eauto. }
  destruct v.
  - unfold validate_release, ensure_release_known in Hv. apply st_bind_Ok in Hv as (x & w3 & H1 & Hv).
    unfold port in H1. cbn in H1. injection H1 as H1 _. apply map_err_Ok in H1. st_inv Hv. not_ors. congruence.
  - by eapply runnable_known, release_runnable_Ok.
Qed.

Lemma resolve_matches s e c (w : World) w' :
  resolve_command s e w = (Ok c, w') → durable_command_matches c e = true.
Proof.
  unfold resolve_command. intros H. destruct e as [| | | | |id []| |]; st_inv H; not_ors; cbn; try (by apply bool_decide_eq_true_2).
  apply bool_decide_eq_true_2. split_and!; congruence.
Qed.

Section credential.
Context (cred : bytes).
Local Instance C : CredentialArtifactProvider World Artifact := env_credentials payload cred.

Lemma apply_process_env s i : env_only (apply_process s i).
Proof.
  unfold apply_process, restore_installed_runtime_if_needed.
  repeat first
    [ apply env_lift | apply env_ret | apply env_throw | apply env_port | apply env_bind; [|intros ?]
    | match goal with |- env_only (match ?x with _ => _ end) => destruct x end ].
Qed.

(** The state and the outcome of an operation that ran to its completion. *)
Record finished (s : HostSupervisor) (i : OperationIntent) (staged : HostSupervisor) (o : CommandOutcome) : Prop := {
  fi_fits : intent_fits s i;
  fi_release r : command_release i.(oi_command) = Some r →
    static_known catalog r.(cr_adapter_kind) r.(cr_digest) = Ok r;
  fi_state : ∃ obs st, apply_state i.(oi_operation_id) i.(oi_command) obs s = Ok st ∧
    staged = st <| revisions := i.(oi_resulting) |>;
  fi_outcome : current_outcome staged (target i.(oi_command)).(t_connector_id) = Ok o
}.

Lemma resulting_later s i : intent_fits s i → s.(revisions) = i.(oi_expected) → s.(revisions) ≠ i.(oi_resulting).
Proof. intros Hf -> Heq. destruct (advance_desired _ _ (if_advance _ _ Hf)) as [H _]. rewrite <-Heq in H. lia. Qed.

Lemma apply_intent_disk i application s j pred l d w :
  s.(revisions) = i.(oi_expected) → file_ok (Some j) → pending_tail i pred l j → d.(disk_file) = Some j →
  wp (apply_intent i application) (s, (d, w)) (λ r sw,
    (sw.2.1.(disk_file) = Some j ∧ ∀ x, r ≠ Ok x) ∨
    ∃ staged o j', finished s i staged o ∧
      replaces (settle (receipt_of i o None) (from_snapshot (snapshot staged))) (Some j) j' ∧
      sw.2.1.(disk_file) = Some j' ∧ ∀ x, r = Ok x → x = MkCommandResult application o ∧ sw.1 = staged).
Proof.
  intros Hs Hok Ht Hd. unfold apply_intent.
  wp_step. wp_step. wp_step. wp_step. apply wp_run. intros r1 w1 H1.
  destruct (pure_run _ _ _ _ (validate_intent_pure _ _ _) H1) as [-> _]. destruct r1 as [[]|e]; [|by left].
  pose proof (λ r, validated_release s i _ _ _ r Hs H1) as Hrel.
  apply validate_intent_fits in H1. wp_step. wp_step; [by left|]. rewrite decide_False by (by eapply resulting_later).
  wp_step. wp_step. apply wp_run. intros r2 w2 H2. destruct (apply_process_env s i) as [n Hn]. rewrite Hn in H2.
  injection H2 as <- <-. destruct ((n w).1) as [obs|e]; [|by left]. wp_step. wp_step.
  destruct (apply_state _ _ obs s) as [st|e] eqn:Hst; [|by left]. wp_step. wp_step.
  destruct (current_outcome _ _) as [o|e] eqn:Ho; [|by left]. wp_step. wp_step. wp_step. apply wp_run.
  intros r3 [d3 w3] [-> H3]%complete_disk. rewrite Hd in H3.
  assert (finished s i (st <| revisions := i.(oi_resulting) |>) o) as Hfin by (split; eauto).
  destruct H3 as [[Hd3 Hr3]|(j' & Hrep & Hd3)].
  - destruct r3 as [[]|e]; cbn [map_err]; [|by left].
    destruct (settle_pending i pred l j (receipt_of i o None) _ Hok Ht eq_refl (Hr3 eq_refl)).
  - destruct r3 as [[]|e]; cbn [map_err].
    + wp_step. wp_step. wp_step. right. eexists _, o, j'. split_and!; try done. by intros x [= <-].
    + right. eexists _, o, j'. by split_and!.
Qed.

(** The application mode matters only for the check of the release. *)
Lemma apply_intent_reconciled i s w o sw' :
  apply_intent i ByApplying (s, w) = (Ok (MkCommandResult ByApplying o), sw') →
  apply_intent i ByReconciling (s, w) = (Ok (MkCommandResult ByReconciling o), sw').
Proof.
  intros H. unfold apply_intent in *. apply st_bind_Ok in H as (s1 & sw1 & H1 & H). injection H1 as <- <-.
  apply st_bind_Ok. exists s, (s, w). split; [done|].
  apply st_bind_Ok in H as ([] & sw1 & H1 & H). apply st_bind_Ok. exists tt, sw1. split.
  { unfold io in *. cbn [fst snd] in *. destruct (validate_intent s i Runnable w) as [r1 w1] eqn:Hv. injection H1 as -> <-.
    destruct (oi_command i); cbn; first [by rewrite Hv | by rewrite (covers_intent _ _ _ _ _ Hv)]. }
  cbv zeta in H |- *. apply st_bind_Ok in H as ([] & sw2 & H2 & H). apply st_bind_Ok. exists tt, sw2. split; [done|].
  destruct (decide (revisions s = oi_resulting i)).
  - apply st_bind_Ok in H as (o' & sw3 & H3 & H). apply st_bind_Ok. exists o', sw3. split; [done|].
    apply st_bind_Ok in H as (u & sw4 & H4 & H). apply st_bind_Ok. exists u, sw4. split; [done|].
    apply st_bind_Ok in H as (u5 & sw5 & H5 & H). apply st_bind_Ok. exists u5, sw5. split; [done|].
    unfold mret, ST_ret in *. by injection H as -> ->.
  - apply st_bind_Ok in H as (o' & sw3 & H3 & H). apply st_bind_Ok. exists o', sw3. split; [done|].
    apply st_bind_Ok in H as (u & sw4 & H4 & H). apply st_bind_Ok. exists u, sw4. split; [done|].
    apply st_bind_Ok in H as (u5 & sw5 & H5 & H). apply st_bind_Ok. exists u5, sw5. split; [done|].
    apply st_bind_Ok in H as (u6 & sw6 & H6 & H). apply st_bind_Ok. exists u6, sw6. split; [done|].
    apply st_bind_Ok in H as (u7 & sw7 & H7 & H). apply st_bind_Ok. exists u7, sw7. split; [done|].
    unfold mret, ST_ret in *. by injection H as -> ->.
Qed.

(** *** The finished operation *)

Lemma apply_state_shape op c obs s st :
  apply_state op c obs s = Ok st →
  let id := (target c).(t_connector_id) in
  observation_is_valid s c obs = true ∧
  ∃ a, st = s <| instances := <[id := a]> s.(instances) |> ∧ a.(m_observation) = obs ∧
  match c with
  | Ensure t r => a.(m_release) = r ∧ a.(m_adapter_kind) = t.(t_adapter_kind) ∧ a.(m_desired_state) = EnsuredStopped
  | _ => ∃ b, s.(instances) !! id = Some b ∧ a.(m_release) = b.(m_release) ∧ a.(m_adapter_kind) = b.(m_adapter_kind) ∧
      match c with
      | Start _ _ _ _ | Restart _ _ _ _ =>
          a.(m_credential_ref) = b.(m_credential_ref) ∧ a.(m_credential_operation_id) = b.(m_credential_operation_id)
          ∧ a.(m_desired_state) = DesiredRunning
      | RotateCredential _ _ _ g => a.(m_credential_generation) = g ∧ a.(m_desired_state) = b.(m_desired_state)
      | Stop _ => a.(m_desired_state) = DesiredStopped
      | RemoveRetaining _ => a.(m_desired_state) = RemovedRetainingData
      | _ => False
      end
  end.
Proof.
  unfold apply_state. intros H. apply result_bind_Ok in H as (? & H0 & H). res_inv H0. not_ors. cbv zeta. split; [done|].
  destruct c; cbn [target] in *; [|unfold instance_mut in H; try (res_inv H; eexists; split_and!; [done..|]; cbn; eauto 10)..];
    try done.
  destruct (instances s !! _) as [b|]; injection H as <-; eexists; split_and!; try done.
Qed.

Lemma finished_valid s i staged o :
  finished s i staged o → s.(revisions) = i.(oi_expected) →
  command_outcome_is_valid i.(oi_command) o = true ∧ o.(co_disposition) = Applied ∧ o.(co_revisions) = i.(oi_resulting)
  ∧ o.(co_connector_id) = (target i.(oi_command)).(t_connector_id).
Proof.
  intros [Hfit Hrel (obs & st & Hst & ->) Ho] Hs. apply apply_state_shape in Hst as (Hob & a & -> & Ha & Hc).
  unfold current_outcome, current_outcome_with_disposition in Ho. cbn in Ho. rewrite lookup_insert_eq in Ho.
  injection Ho as <-. cbn. split_and!; try done. unfold command_outcome_is_valid, observation_is_valid in *. cbn.
  rewrite Ha. destruct (oi_command i) as [| | | |t r ref g| | |]; cbn [target] in *.
  5: { destruct Hc as (b & Hb & _ & _ & Hg & Hd). rewrite Hb in Hob. rewrite Hg, Hd, bool_decide_eq_true_2 by done.
       by destruct (m_desired_state b), obs. }
  all: destruct_and?; try (destruct Hc as (b & _ & _ & _ & Hc); destruct_and?);
    repeat match goal with H : m_desired_state ?x = _ |- _ => rewrite H; clear H end; try done; by destruct obs.
Qed.

(** What is stored for a finished operation is sound again. *)
Lemma finished_sound s i staged o :
  finished s i staged o → s.(revisions) = i.(oi_expected) → sup_ok s → known s → sup_ok staged ∧ known staged.
Proof.
  intros [Hfit Hrel (obs & st & Hst & ->) Ho] Hs Hok Hk. split.
  { eapply moved_ok; [|done]. by eapply apply_state_moved. }
  apply apply_state_shape in Hst as (_ & a & -> & _ & Hc). intros id x. cbn. rewrite lookup_insert_Some.
  intros [[<- <-]|[_ Hx]]; [|by eapply Hk]. pose proof (if_release _ _ Hfit) as Hkind.
  destruct (oi_command i); [|destruct Hc as (b & Hb & -> & -> & _); by eapply Hk..].
  destruct Hc as (-> & -> & _). cbn in *. rewrite <-(Hkind _ eq_refl). by apply Hrel.
Qed.

Lemma runtime_target_same s s2 t r reference :
  s.(tenant_id) = s2.(tenant_id) → s.(host_id) = s2.(host_id) →
  s2.(install_states) !! t.(t_connector_id) = s.(install_states) !! t.(t_connector_id) →
  validate_installed_runtime_target s2 t r reference = validate_installed_runtime_target s t r reference.
Proof. unfold validate_installed_runtime_target. by intros -> -> ->. Qed.

(** The state check of [validate_intent] for a finished operation. *)
Lemma finished_state_validates s i staged o s2 (w : World) :
  finished s i staged o → s.(revisions) = i.(oi_expected) → s.(tenant_id) = s2.(tenant_id) → s.(host_id) = s2.(host_id) →
  s2.(instances) = staged.(instances) →
  (∀ id b, s.(instances) !! id = Some b → s2.(install_states) !! id = s.(install_states) !! id) →
  validate_intent_state s2 i.(oi_command) false true Known w = (Ok tt, w).
Proof.
  intros [Hfit Hrel (obs & st & Hst & ->) Ho] Hs Ht Hh Hi Hinst.
  pose proof (if_state _ _ Hfit Hs) as Hstate. pose proof (precondition_live _ _ (if_precondition _ _ Hfit Hs)) as Hlive.
  pose proof (if_release _ _ Hfit) as Hkind. apply apply_state_shape in Hst as (_ & a & -> & _ & Hc). cbn in Hi.
  unfold validate_intent_state. rewrite Hi. clear Hi Ho.
  assert (∀ r, command_release i.(oi_command) = Some r → validate_release r Known w = (Ok tt, w)) as Hv
    by (intros r Hr; apply release_known_Ok; auto).
  destruct (oi_command i) as [t r|t r ref op|t|t r ref op|t r ref g|t|facts|facts receipt]; cbn [target] in *;
    rewrite ?lookup_insert_eq; try done.
  1: { st_step; [by apply Hv|]. st_step; [rewrite (Hkind r) by done; tauto|]. destruct Hc as (? & ? & ?).
       apply lift_Ok. split; [|done]. ok_step; [tauto|]. ok_step; [naive_solver|]. apply reject_if_Ok. naive_solver. }
  all: destruct Hc as (b & Hb & Hrl & Had & Hc), Hlive as (b' & Hb' & _ & Hk & _); simplify_eq.
  2,5: apply lift_Ok; split; [|done]; cbn; ok_step; [congruence|]; apply reject_if_Ok; naive_solver.
  all: st_step; [by apply Hv|]; apply lift_Ok; split; [|done]; cbn; ok_step;
    [destruct Hstate as (b2 & Hb2 & Hst); simplify_eq; naive_solver congruence|]; ok_step; [naive_solver|].
  1,2: destruct Hstate as (b2 & Hb2 & _ & Hr1 & Hr2 & Hrt); simplify_eq; destruct Hc as (Hc1 & Hc2 & _);
    ok_step; [rewrite Hc1, Hc2; naive_solver|]; rewrite (runtime_target_same s) by eauto; done.
  apply reject_if_Ok. destruct Hstate as (b2 & Hb2 & _ & ? & ? & ? & _). simplify_eq. lia.
Qed.

(** The intent of a finished operation is accepted at its result. *)
Lemma finished_validates s i staged o s2 (w : World) :
  finished s i staged o → s.(revisions) = i.(oi_expected) → s.(tenant_id) = s2.(tenant_id) → s.(host_id) = s2.(host_id) →
  s2.(revisions) = staged.(revisions) → s2.(instances) = staged.(instances) →
  (∀ id b, s.(instances) !! id = Some b → s2.(install_states) !! id = s.(install_states) !! id) →
  validate_intent s2 i Known w = (Ok tt, w).
Proof.
  intros Hfin Hs Ht Hh Hr Hi Hinst. pose proof (fi_fits _ _ _ _ Hfin) as Hfit.
  pose proof (resulting_later _ _ Hfit Hs) as Hlate. pose proof (if_state _ _ Hfit Hs) as Hstate.
  assert (s2.(revisions) = i.(oi_resulting)) as Hr2.
  { rewrite Hr. destruct (fi_state _ _ _ _ Hfin) as (? & ? & _ & ->). done. }
  destruct Hfit as [Hten Hhost Hadv Htt Hth Hkind Hpre _]. unfold validate_intent. rewrite Hr2.
  rewrite (bool_decide_eq_false_2 (oi_resulting i = oi_expected i)) by congruence.
  rewrite (bool_decide_eq_true_2 (oi_resulting i = oi_resulting i)) by done.
  rewrite (bool_decide_eq_false_2 (desired (oi_resulting i) > desired (oi_resulting i))) by lia.
  st_step. { rewrite <-Ht, <-Hh. tauto. }
  st_step. { tauto. }
  st_step. { done. }
  st_step. { rewrite <-Ht, <-Hh. tauto. }
  st_step.
  { apply lift_Ok. split; [|done]. destruct (command_release _) as [r|] eqn:Hcr; [|done].
    apply reject_if_Ok. rewrite (Hkind r); tauto. }
  st_step. { apply lift_Ok. split; [|done]. destruct (oi_command i); try done. apply reject_if_Ok. naive_solver lia. }
  st_step.
  { apply lift_Ok. split; [|done]. destruct (oi_command i); try done. apply reject_if_Ok.
    destruct Hstate as (b & Hb & _ & _ & _ & _ & Hn). cbn. rewrite (Hinst _ _ Hb), Hn. by intros []. }
  st_step. { by apply lift_Ok. }
  by eapply finished_state_validates.
Qed.

(** *** The first request *)

(** The operation [i] of the envelope is new to the file and was resolved; recording it
    gives the file [j1]. *)
Record fresh (file : option JournalFile) (s : HostSupervisor) (e : HostCommandEnvelope) (i : OperationIntent)
    (j1 : JournalFile) : Prop := {
  fr_boundary : ensure_envelope_boundary s e = Ok tt;
  fr_new : find_record (opened file) e.(he_operation_id) = None;
  fr_settled : pending_of (opened file).(records) = [];
  fr_expected : e.(he_expected) = s.(revisions);
  fr_intent : ∃ c f, (∀ w : World, resolve_command s e.(he_command) w = (Ok c, w)) ∧
    advance_and_acknowledge s.(revisions) = Some f ∧ i = OperationIntent_new e f c;
  fr_pushed : replaces (push i (from_snapshot (snapshot s))) file j1
}.

Lemma fresh_pending file s e i j1 :
  fresh file s e i j1 → pending_tail i (from_snapshot (snapshot s)) (opened file).(records) j1.
Proof. intros Hf. by eapply push_replaces, fr_pushed. Qed.

Lemma fresh_fields file s e i j1 :
  fresh file s e i j1 → i.(oi_operation_id) = e.(he_operation_id) ∧ i.(oi_expected) = s.(revisions).
Proof. intros [_ _ _ He (c & f & _ & _ & ->) _]. done. Qed.

Lemma fresh_matches file s e i j1 (w : World) : fresh file s e i j1 → validate_intent_for_envelope i e = Ok tt.
Proof.
  intros [_ _ _ He (c & f & Hc & _ & ->) _]. unfold validate_intent_for_envelope. apply reject_if_Ok. cbn.
  rewrite (resolve_matches _ _ _ _ _ (Hc w)). naive_solver.
Qed.

Lemma persist_clean i sn file w d' w' :
  persist_intent i sn (clean file, w) = (Ok tt, (d', w')) →
  w' = w ∧ (push i (from_snapshot sn) (opened file) = Ok None ∨
            ∃ j', replaces (push i (from_snapshot sn)) file j' ∧ d' = clean (Some j')).
Proof.
  intros H. destruct (persist_disk _ _ _ _ _ _ _ H) as [-> Hd]. split; [done|]. cbn [clean disk_file] in Hd.
  destruct Hd as [[_ Hd]|(j' & Hrep & Hd)]; [left; by apply Hd|right]. exists j'. split; [done|].
  cbn in H. unfold on_disk in H. cbn in H. unfold file_persist_intent, mbind, ST_bind, lift in H.
  repeat match type of H with
  | context [match ?r with Ok _ => _ | Err _ => _ end] =>
      lazymatch r with FileJournal.mutate _ _ _ _ _ _ => fail | _ => destruct r; [|by simplify_eq] end
  end.
  erewrite mutate_clean in H by done. by simplify_eq.
Qed.

(** An undisturbed request that applied its command. *)
Lemma execute_applied_inv file s e w o sw' :
  s.(host_id) = host → file_ok file →
  execute e (s, (clean file, w)) = (Ok (MkCommandResult ByApplying o), sw') →
  ∃ i j1, fresh file s e i j1 ∧
    apply_intent i ByApplying (s, (clean (Some j1), w)) = (Ok (MkCommandResult ByApplying o), sw').
Proof.
  intros Hh Hok H. unfold execute in H. apply st_bind_Ok in H as (s1 & sw1 & H1 & H). injection H1 as <- <-.
  apply st_bind_Ok in H as ([] & sw1 & [Hb ->]%lift_Ok & H).
  apply st_bind_Ok in H as (rec & sw1 & H1 & H). unfold io, port in H1. cbn [fst snd] in H1.
  rewrite Hh, lookup_clean in H1 by done. injection H1 as <- <-.
  destruct (find_record _ _) as [[k r]|] eqn:Hf; cbn [fmap option_fmap option_map] in H.
  { exfalso. destruct r as [? ? i ? ?|? ? i receipt ? ? ? ?]; cbn in H; apply st_bind_Ok in H as (u & sw1 & _ & H).
    - apply st_bind_Ok in H as (b & [s1 w1] & _ & H). destruct b.
      + by apply (tagged_run _ _ _ _ _ (policy_blocked_tagged _ _ _)) in H.
      + by apply (tagged_run _ _ _ _ _ (apply_intent_tagged _ _ _ _)) in H.
    - destruct sw1 as [s1 w1]. by apply (tagged_run _ _ _ _ _ (restore_completed_tagged _ _ _ _)) in H. }
  apply st_bind_Ok in H as (pend & sw1 & H1 & H). unfold io, port in H1. cbn [fst snd] in H1. rewrite Hh in H1.
  destruct (pending_intents host _) as [r1 [d1 w1]] eqn:Hp. injection H1 as H1 <-. apply map_err_Ok in H1 as ->.
  cbn in Hp. unfold on_disk in Hp. cbn in Hp.
  destruct (pending_answers record_json snapshot_json json_size host json_size_pos) as [Hpc _].
  rewrite (Hpc _ Hok) in Hp. injection Hp as <- <- <-.
  apply st_bind_Ok in H as ([] & sw1 & [H1 ->]%lift_Ok & H). apply st_bind_Ok in H as ([] & sw1 & [H2 ->]%lift_Ok & H).
  res_inv H1. res_inv H2. not_ors.
  apply st_bind_Ok in H as (c & sw1 & H3 & H). unfold io in H3. cbn [fst snd] in H3.
  destruct (resolve_command s (he_command e) (clean file, w)) as [r3 w3] eqn:Hc. injection H3 as -> <-.
  destruct (pure_run _ _ _ _ (resolve_command_pure _ _) Hc) as [-> Hc'].
  apply st_bind_Ok in H as (f & sw1 & [H4 ->]%lift_Ok & H). res_inv H4.
  apply st_bind_Ok in H as ([] & sw1 & H5 & H). unfold io, port in H5. cbn [fst snd] in H5.
  destruct (persist_intent _ _ (clean file, w)) as [r5 [d5 w5]] eqn:H6. injection H5 as H5 <-. apply map_err_Ok in H5 as ->.
  apply persist_clean in H6 as [-> [Hn|(j1 & Hrep & ->)]].
  { exfalso. unfold push_intent in Hn. cbn in Hn. rewrite Hf in Hn. by res_inv Hn. }
  exists (OperationIntent_new e f c), j1. split; [|done]. split; try done. eauto 10.
Qed.

(** Whatever happens to a new operation, the file ends in one of three states. *)
Lemma execute_disk file s e i j1 d w :
  s.(host_id) = host → fresh file s e i j1 → d.(disk_file) = file →
  wp (execute e) (s, (d, w)) (λ r sw,
    ((sw.2.1.(disk_file) = file ∨ sw.2.1.(disk_file) = Some j1) ∧ ∀ x, r ≠ Ok x) ∨
    ∃ staged o j2, finished s i staged o ∧
      replaces (settle (receipt_of i o None) (from_snapshot (snapshot staged))) (Some j1) j2 ∧
      sw.2.1.(disk_file) = Some j2 ∧ ∀ x, r = Ok x → x = MkCommandResult ByApplying o ∧ sw.1 = staged).
Proof.
  intros Hh Hf Hd. unfold execute. pose proof (fresh_fields _ _ _ _ _ Hf) as [Hid Hexp].
  wp_step. wp_step. wp_step. wp_step. rewrite (fr_boundary _ _ _ _ _ Hf).
  wp_step. wp_step. wp_step. apply wp_run. rewrite Hh. intros r1 [d1 w1] (Hd1 & -> & H1)%lookup_disk. rewrite Hd in *.
  destruct r1 as [rec|err]; cbn [map_err]; [|left; by auto]. destruct (H1 _ eq_refl) as [Hok ->].
  rewrite (fr_new _ _ _ _ _ Hf). cbn [fmap option_fmap option_map].
  wp_step. wp_step. wp_step. apply wp_run. intros r2 [d2 w2] (Hd2 & -> & H2)%pending_disk. rewrite Hd1 in *.
  destruct r2 as [pend|err]; cbn [map_err]; [|left; by auto]. destruct (H2 _ eq_refl) as [_ ->].
  wp_step. wp_step; [left; by auto|]. wp_step. wp_step; [left; by auto|].
  destruct (fr_intent _ _ _ _ _ Hf) as (c & f & Hc & Hadv & Hi).
  wp_step. wp_step. apply wp_run. intros r3 w3 H3. rewrite Hc in H3. injection H3 as <- <-.
  wp_step. wp_step. rewrite Hadv. cbn [ok_or]. wp_step. wp_step. wp_step. rewrite <-Hi. apply wp_run.
  intros r4 [d4 w4] [-> H4]%persist_disk. rewrite Hd2 in H4.
  destruct H4 as [[Hd4 Hn]|(j' & Hrep & Hd4)].
  - destruct r4 as [[]|err]; cbn [map_err]; [|left; by auto]. exfalso.
    specialize (Hn eq_refl). unfold push_intent in Hn. rewrite Hid, (fr_new _ _ _ _ _ Hf) in Hn. by res_inv Hn.
  - pose proof (replaces_unique _ _ _ _ _ _ _ _ Hrep (fr_pushed _ _ _ _ _ Hf)) as ->.
    destruct r4 as [[]|err]; cbn [map_err]; [|left; by auto].
    eapply wp_mono; [eapply apply_intent_disk; [done|by eapply replaces_ok|by eapply fresh_pending|done]|].
    intros r sw [[? ?]|?]; [left; by auto|by right].
Qed.

(** *** The retry *)

Lemma retry_pending file s e i j1 w o sw' :
  s.(host_id) = host → fresh file s e i j1 →
  apply_intent i ByApplying (s, (clean (Some j1), w)) = (Ok (MkCommandResult ByApplying o), sw') →
  execute e (s, (clean (Some j1), w)) = (Ok (MkCommandResult ByReconciling o), sw').
Proof.
  intros Hh Hf H. pose proof (fresh_fields _ _ _ _ _ Hf) as [Hid Hexp].
  assert (file_ok (Some j1)) as Hok by (eapply replaces_ok, fr_pushed, Hf).
  assert (validate_intent s i Runnable (clean (Some j1), w) = (Ok tt, (clean (Some j1), w))) as Hv.
  { unfold apply_intent in H. apply st_bind_Ok in H as (s1 & sw1 & H1 & H). injection H1 as <- <-.
    apply st_bind_Ok in H as ([] & sw1 & H1 & _). unfold io in H1. cbn [fst snd] in H1.
    destruct (validate_intent s i Runnable _) as [r1 w1] eqn:Hv. injection H1 as -> _.
    by destruct (pure_run _ _ _ _ (validate_intent_pure _ _ _) Hv) as [-> _]. }
  destruct (pending_tail_find _ _ _ _ (fresh_pending _ _ _ _ _ Hf)) as (r & Hfind & Hr).
  unfold execute. apply st_bind_Ok. exists s, (s, (clean (Some j1), w)). split; [done|].
  apply st_bind_Ok. eexists tt, _. split; [apply lift_Ok; split; [by eapply fr_boundary|done]|].
  apply st_bind_Ok. exists (Some (RPending i)), (s, (clean (Some j1), w)). split.
  { unfold io, port. cbn [fst snd]. rewrite Hh, lookup_clean by done. rewrite <-Hid.
    change (opened (Some j1)) with j1. rewrite Hfind. cbn. by rewrite Hr. }
  apply st_bind_Ok. eexists tt, _. split; [apply lift_Ok; split; [by eapply (fresh_matches _ _ _ _ _ (clean None, w))|done]|].
  apply st_bind_Ok. exists false, (s, (clean (Some j1), w)). split.
  { unfold io. cbn [fst snd]. by rewrite (validated_not_blocked s i _ _ (eq_sym Hexp) Hv). }
  by apply apply_intent_reconciled.
Qed.

Lemma retry_completed file s e i j1 staged o j2 (w : Env) :
  file_ok file → unsigned_file (opened file) → booted (opened file) s → fresh file s e i j1 →
  finished s i staged o →
  replaces (settle (receipt_of i o None) (from_snapshot (snapshot staged))) (Some j1) j2 →
  ∃ s2, booted j2 s2 ∧ s2.(instances) = staged.(instances) ∧
    execute e (s2, (clean (Some j2), w)) = (Ok (MkCommandResult ByReplay o), (s2, (clean (Some j2), w))).
Proof.
  intros Hok Hu Hb Hf Hfin Hrep. pose proof (fresh_fields _ _ _ _ _ Hf) as [Hid Hexp]. symmetry in Hexp.
  assert (well host (opened file)) as Hw by (by eapply opened_well).
  destruct (booted_inv _ _ Hw Hu Hb) as [Hsok Hk Hten Hhost Hinst].
  destruct (finished_sound _ _ _ _ Hfin Hexp Hsok Hk) as [Hsok2 Hk2].
  destruct (finished_valid _ _ _ _ Hfin Hexp) as (Hval & Hdisp & Hrev & Hcid).
  assert (file_ok (Some j1)) as Hok1 by (eapply replaces_ok, fr_pushed, Hf).
  assert (file_ok (Some j2)) as Hok2 by (by eapply replaces_ok).
  eapply settle_replaces in Hrep as [Htail _]; [|done..|by eapply fresh_pending|done].
  rewrite (snapshot_sorted _ Hsok2) in Htail.
  assert (staged.(tenant_id) = s.(tenant_id) ∧ staged.(host_id) = s.(host_id) ∧ staged.(revisions) = i.(oi_resulting)
    ∧ ∃ a, staged.(instances) = <[(target i.(oi_command)).(t_connector_id) := a]> s.(instances)) as (Ht2 & Hh2 & Hr2 & a & Hi2).
  { destruct (fi_state _ _ _ _ Hfin) as (obs & st & Hst & ->). apply apply_state_shape in Hst as (_ & a & -> & _). cbn. eauto. }
  assert (j2.(jf_snapshot) = Some (snapshot staged)) as Hsn by (by destruct Htail as (_ & ? & _)).
  assert (booted j2 (staged <| install_states := load_all j2.(records) (m_connector_id <$> btree_values staged.(instances)) ∅ |>))
    as Hb2 by (apply (booted_of _ _ (clean None, w)); try done; congruence).
  eexists. split; [exact Hb2|]. split; [done|].
  set (s2 := staged <| install_states := _ |>) in *.
  assert (s2.(host_id) = host ∧ s.(tenant_id) = s2.(tenant_id) ∧ s.(host_id) = s2.(host_id)
    ∧ s2.(revisions) = i.(oi_resulting) ∧ s2.(instances) = staged.(instances)) as (Hs2h & Hs2t & Hs2h' & Hs2r & Hs2i)
    by (unfold s2; cbn; split_and!; congruence).
  assert (∀ id b, s.(instances) !! id = Some b → s2.(install_states) !! id = s.(install_states) !! id) as Hinst2.
  { intros id b Hib. rewrite (Hinst _ _ Hib). cbn. rewrite lookup_load_all, lookup_empty.
    rewrite (install_of_completed _ _ _ _ _ id Htail eq_refl).
    assert (is_Some (staged.(instances) !! id)) as [x Hx].
    { rewrite Hi2. destruct (decide (id = (target (oi_command i)).(t_connector_id))) as [->|]; [by rewrite lookup_insert_eq|].
      rewrite lookup_insert_ne by done. eauto. }
    rewrite decide_True; [by destruct (install_of _ id)|]. apply list_elem_of_fmap. exists x.
    split; [by rewrite (so_key _ Hsok2 _ _ Hx)|]. apply elem_of_btree_values. eauto. }
  destruct (completed_tail_find _ _ _ _ _ Htail) as (r & Hfind & Hr).
  unfold execute. apply st_bind_Ok. exists s2, (s2, (clean (Some j2), w)). split; [done|].
  apply st_bind_Ok. eexists tt, _. split.
  { apply lift_Ok. split; [|done]. pose proof (fr_boundary _ _ _ _ _ Hf) as Hbd. unfold ensure_envelope_boundary in *.
    by rewrite <-Hs2t, <-Hs2h'. }
  apply st_bind_Ok. exists (Some (RCompleted i (receipt_of i o None))), (s2, (clean (Some j2), w)). split.
  { unfold io, port. cbn [fst snd]. rewrite Hs2h, lookup_clean by done.
    rewrite <-Hid. change (opened (Some j2)) with j2. rewrite Hfind. cbn. by rewrite Hr. }
  apply st_bind_Ok. eexists tt, _. split; [apply lift_Ok; split; [by eapply (fresh_matches _ _ _ _ _ (clean None, w))|done]|].
  unfold restore_completed. apply st_bind_Ok. exists s2, (s2, (clean (Some j2), w)). split; [done|].
  apply st_bind_Ok. eexists tt, _. split; [apply lift_Ok; split; [apply reject_if_Ok; cbn; naive_solver congruence|done]|].
  apply st_bind_Ok. exists tt, (s2, (clean (Some j2), w)). split.
  { unfold io. cbn [fst snd]. by rewrite (finished_validates s i staged o s2) by (done || congruence). }
  cbn [receipt_of or_outcome]. rewrite decide_False by congruence. rewrite decide_False by (rewrite Hs2r; lia).
  rewrite decide_False by (rewrite Hs2r; intros Heq; by apply (resulting_later s i (fi_fits _ _ _ _ Hfin) Hexp); congruence).
  assert (current_outcome_with_disposition s2 o.(co_connector_id) o.(co_disposition) = Ok o) as Hcur.
  { rewrite Hdisp, Hcid, <-(fi_outcome _ _ _ _ Hfin). unfold current_outcome, current_outcome_with_disposition.
    by rewrite Hs2i, Hs2r, Hr2. }
  apply st_bind_Ok. exists o, (s2, (clean (Some j2), w)). split; [apply lift_Ok; by rewrite Hcur|].
  apply st_bind_Ok. eexists tt, _. split; [apply lift_Ok; split; [apply reject_if_Ok; tauto|done]|]. done.
Qed.
End credential.

Lemma booted_unique j s s' : booted j s → booted j s' → s = s'.
Proof.
  intros (s0 & H & ->) (s0' & H' & ->). assert (s0 = s0') as ->; [|done]. unfold base in *.
  destruct (jf_snapshot j) as [sn|]; [|congruence]. destruct H as [w H], H' as [w' H'].
  destruct (pure_run _ _ _ _ (try_from_snapshot_pure h sn) H) as [_ Hp]. rewrite Hp in H'. congruence.
Qed.

(** ** The whole request *)

Local Notation handle := (handle record_json snapshot_json json_size catalog config payload (Artifact := Artifact)).
Local Notation dispatch := (dispatch record_json snapshot_json json_size catalog config payload (Artifact := Artifact)).

(** the answer to a command, projected from the supervisor after it *)
Definition respond (command : CommandWire) (res : CommandResult) (s : HostSupervisor) : result OperatorFailure OperatorResult :=
  connector ← ok_or (s.(instances) !! wire_connector_id command) (failure (str "INVALID_SUPERVISOR_STATE"));
  Ok (RCommand res.(cr_application) res.(cr_outcome).(co_disposition) res.(cr_outcome).(co_revisions) connector).

Section frame.
Context (frame : RequestFrame) (id : RequestId) (dd : Z) (oo : option Z) (command : CommandWire) (fence : HostRevisionFence).
Hypothesis Hframe : frame.(rf_request) = BExecute id dd oo command.
Hypothesis Hfence : Fence_new dd oo = Ok fence.
(** a rotation comes with its payload *)
Definition has_payload : Prop :=
  match command with WRotateCredential _ _ => frame.(rf_credential) ≠ [] | _ => True end.

Local Instance Cf : CredentialArtifactProvider World Artifact := env_credentials payload frame.(rf_credential).
Let e : HostCommandEnvelope :=
  Envelope_new frame.(rf_tenant_id) frame.(rf_host_id) id fence (command_to_domain command).

Lemma dispatch_execute sw :
  has_payload →
  dispatch frame sw =
  match execute e sw with
  | (Ok res, sw) => (respond command res sw.1, sw)
  | (Err err, sw) => (Err (map_supervisor err), sw)
  end.
Proof.
  intros Hp. unfold HostRequest.dispatch. rewrite Hframe. unfold mbind at 1, ST_bind at 1, lift at 1. rewrite Hfence.
  cbn [map_err]. unfold mbind at 1, ST_bind at 1.
  assert (∀ m : ST (HostSupervisor * World) OperatorFailure unit, m = mret tt →
    match m sw with
    | (Ok _, s') => (result ← method (execute e); with_self (respond command result)) s'
    | (Err e, s') => (Err e, s')
    end = match execute e sw with
    | (Ok res, sw) => (respond command res sw.1, sw)
    | (Err err, sw) => (Err (map_supervisor err), sw)
    end) as Hend.
  { intros m ->. cbn. unfold mbind, ST_bind, method. destruct (execute e sw) as [[res|err] sw']; done. }
  apply Hend. unfold has_payload in Hp. destruct command; try done. by rewrite decide_False.
Qed.

(** A rotation without payload never applies anything. *)
Lemma no_payload_not_applied s file w d r c sw' :
  file_ok file → frame.(rf_host_id) = host → s.(host_id) = host → ¬ has_payload →
  dispatch frame (s, (clean file, w)) ≠ (Ok (RCommand ByApplying d r c), sw').
Proof.
  intros Hok Hh Hs Hp H. unfold HostRequest.dispatch in H. rewrite Hframe in H.
  apply st_bind_Ok in H as (f & sw1 & [Hf ->]%lift_Ok & H). rewrite Hfence in Hf. injection Hf as <-.
  unfold has_payload in Hp. destruct command as [| | | |cid ref|]; try tauto. rewrite decide_True in H by (by apply dec_stable).
  apply st_bind_Ok in H as ([] & sw1 & H1 & H). apply st_bind_Ok in H1 as (rec & sw2 & H1 & H2).
  unfold lookup_in, port in H1. cbn [fst snd] in H1. rewrite Hh, lookup_clean in H1 by done. injection H1 as <- <-.
  apply lift_Ok in H2 as [H2 ->]. res_inv H2. apply st_bind_Ok in H as (res & [s' w'] & H3 & H).
  unfold method in H3. destruct (execute _ _) as [r3 sw3] eqn:Hx. injection H3 as H3 ->. apply map_err_Ok in H3 as ->.
  unfold with_self in H. injection H as H _. res_inv H. destruct res as [app o]. cbn in *. subst app.
  apply execute_applied_inv in Hx as (i & j1 & Hfresh & _); [|done..]. apply fr_new in Hfresh. cbn in Hfresh.
  rewrite Hfresh in H2. done.
Qed.
End frame.

Definition accepted (frame : RequestFrame) : Prop :=
  config.(hc_schema_version) = 1 ∧ frame.(rf_tenant_id) = config.(hc_tenant_id) ∧ frame.(rf_host_id) = host.

Lemma handle_accepted frame w :
  accepted frame →
  handle frame w =
  match boot w with
  | (Ok s, w) => let '(r, (_, w)) := dispatch frame (s, w) in (r, w)
  | (Err e, w) => (Err e, w)
  end.
Proof.
  intros (Hv & Ht & Hh). unfold HostRequest.handle, mbind, ST_bind, lift, reject_if.
  rewrite decide_False by tauto. rewrite decide_False by (rewrite Ht, Hh; tauto). done.
Qed.

Lemma handle_Ok frame w x w' : handle frame w = (Ok x, w') → accepted frame.
Proof.
  unfold HostRequest.handle. intros H. apply st_bind_Ok in H as ([] & w1 & [H1 ->]%lift_Ok & H).
  apply st_bind_Ok in H as ([] & w2 & [H2 ->]%lift_Ok & _). res_inv H1. res_inv H2. not_ors. done.
Qed.

(** An undisturbed request that applied its command, taken apart. *)
Lemma handle_applied_inv frame file w disp rev conn w' :
  handle frame (clean file, w) = (Ok (RCommand ByApplying disp rev conn), w') →
  ∃ s id dd oo command fence o s',
    file_ok file ∧ booted (opened file) s ∧ frame.(rf_request) = BExecute id dd oo command ∧ Fence_new dd oo = Ok fence ∧
    has_payload frame command ∧
    execute (C := env_credentials payload frame.(rf_credential))
      (Envelope_new frame.(rf_tenant_id) frame.(rf_host_id) id fence (command_to_domain command)) (s, (clean file, w))
    = (Ok (MkCommandResult ByApplying o), (s', w')) ∧
    disp = o.(co_disposition) ∧ rev = o.(co_revisions) ∧ s'.(instances) !! wire_connector_id command = Some conn.
Proof.
  intros H. pose proof (handle_Ok _ _ _ _ H) as Hacc. rewrite handle_accepted in H by done.
  destruct (boot (clean file, w)) as [[s|err] [d1 w1]] eqn:Hb; [|done].
  destruct (boot_inv _ _ _ _ _ Hb) as (_ & _ & Hs). destruct (Hs s eq_refl) as [Hok Hbooted]. cbn in Hok, Hbooted.
  rewrite (boot_clean _ _ _ Hok Hbooted) in Hb. injection Hb as <- <-.
  destruct (dispatch frame (s, (clean file, w))) as [r [s' w1]] eqn:Hd. injection H as -> <-.
  destruct (rf_request frame) as [|id|id dd oo command] eqn:Hframe.
  { unfold HostRequest.dispatch in Hd. rewrite Hframe in Hd. done. }
  { unfold HostRequest.dispatch in Hd. rewrite Hframe in Hd. apply st_bind_Ok in Hd as (? & ? & _ & Hd).
    unfold with_self in Hd. injection Hd as Hd _. by res_inv Hd. }
  assert (s.(host_id) = host) as Hs'.
  { destruct Hbooted as (s0 & Hbase & ->). by destruct (base_host _ _ Hbase) as (_ & ? & _). }
  assert (∃ fence, Fence_new dd oo = Ok fence) as [fence Hfence].
  { unfold HostRequest.dispatch in Hd. rewrite Hframe in Hd. apply st_bind_Ok in Hd as (f & ? & [Hf _]%lift_Ok & _).
    apply map_err_Ok in Hf. eauto. }
  assert (has_payload frame command) as Hp.
  { unfold has_payload. destruct command as [| | | |cid ref|]; try done. intros He.
    apply (no_payload_not_applied frame id dd oo (WRotateCredential cid ref) fence Hframe Hfence _ _ _ _ _ _ _ Hok
      (proj2 (proj2 Hacc)) Hs') in Hd; [done|]. intros Hp. by apply Hp. }
  rewrite (dispatch_execute frame id dd oo command fence) in Hd by done.
  destruct (execute _ _) as [[res|err] sw1] eqn:Hx; [|done]. injection Hd as Hd ->. cbn [fst] in Hd.
  unfold respond in Hd. res_inv Hd. destruct res as [app o]. cbn in *. subst app.
  exists s, id, dd, oo, command, fence, o, s'. split_and!; done.
Qed.

Lemma handle_execute frame id dd oo command fence file s w :
  accepted frame → frame.(rf_request) = BExecute id dd oo command → Fence_new dd oo = Ok fence →
  has_payload frame command → file_ok file → booted (opened file) s →
  handle frame (clean file, w) =
  let '(r, (_, w')) :=
    match execute (C := env_credentials payload frame.(rf_credential))
            (Envelope_new frame.(rf_tenant_id) frame.(rf_host_id) id fence (command_to_domain command)) (s, (clean file, w)) with
    | (Ok res, sw) => (respond command res sw.1, sw)
    | (Err err, sw) => (Err (map_supervisor err), sw)
    end in (r, w').
Proof.
  intros Hacc Hframe Hfence Hp Hok Hb. rewrite handle_accepted by done. rewrite (boot_clean _ _ _ Hok Hb).
  by rewrite (dispatch_execute frame id dd oo command fence).
Qed.

Lemma matches_connector c hc : durable_command_matches c hc = true → (target c).(t_connector_id) = command_connector_id hc.
Proof.
  unfold durable_command_matches. destruct c, hc as [| | | | |? []| |]; try done; intros H%bool_decide_eq_true; cbn;
    naive_solver.
Qed.

(** The file holds the completed record of the request's own operation: the intent is
    that of the command, the disposition and the revisions are those of the recorded
    receipt, and the connector is in the recorded snapshot. *)
Definition recorded_answer (frame : RequestFrame) (file : option JournalFile) (disp : CommandDisposition)
    (rev : HostRevisionFence) (conn : ManagedConnectorSnapshot) : Prop :=
  ∃ id dd oo command j sn k r i receipt,
    frame.(rf_request) = BExecute id dd oo command ∧
    file = Some j ∧ j.(jf_snapshot) = Some sn ∧
    find_record j id = Some (k, r) ∧ to_record r = RCompleted i receipt ∧
    i.(oi_operation_id) = id ∧ durable_command_matches i.(oi_command) (command_to_domain command) = true ∧
    receipt.(or_operation_id) = id ∧ receipt.(or_command_digest) = i.(oi_command_digest) ∧
    receipt.(or_outcome).(co_revisions) = i.(oi_resulting) ∧
    conn ∈ sn.(ss_instances) ∧ conn.(m_connector_id) = wire_connector_id command ∧
    disp = receipt.(or_outcome).(co_disposition) ∧ rev = receipt.(or_outcome).(co_revisions).

Lemma completed_recorded frame id dd oo command fence file s i j1 staged o j2 conn (w : Env) :
  frame.(rf_request) = BExecute id dd oo command →
  file_ok file → unsigned_file (opened file) → booted (opened file) s →
  fresh file s
    (Envelope_new frame.(rf_tenant_id) frame.(rf_host_id) id fence (command_to_domain command)) i j1 →
  finished s i staged o →
  replaces (settle (receipt_of i o None) (from_snapshot (snapshot staged))) (Some j1) j2 →
  staged.(instances) !! wire_connector_id command = Some conn →
  recorded_answer frame (Some j2) o.(co_disposition) o.(co_revisions) conn.
Proof.
  intros Hframe Hok Hu Hb Hf Hfin Hrep Hconn. pose proof (fresh_fields _ _ _ _ _ Hf) as [Hid Hexp]. symmetry in Hexp.
  assert (well host (opened file)) as Hw by (by eapply opened_well).
  destruct (booted_inv _ _ Hw Hu Hb) as [Hsok Hk _ _ _].
  destruct (finished_sound _ _ _ _ Hfin Hexp Hsok Hk) as [Hsok2 _].
  destruct (finished_valid _ _ _ _ Hfin Hexp) as (_ & _ & Hrev & _).
  assert (file_ok (Some j1)) as Hok1 by (eapply replaces_ok, fr_pushed, Hf).
  eapply settle_replaces in Hrep as [Htail _]; [|done..|by eapply fresh_pending|done].
  rewrite (snapshot_sorted _ Hsok2) in Htail.
  destruct (completed_tail_find _ _ _ _ _ Htail) as (r & Hfind & Hr).
  pose proof (fresh_matches frame.(rf_credential) _ _ _ _ _ (clean None, w) Hf) as Hm.
  unfold validate_intent_for_envelope in Hm. res_inv Hm. not_ors. cbn in Hid. rewrite Hid in Hfind.
  exists id, dd, oo, command, j2, (snapshot staged), (length (opened file).(records)), r, i, (receipt_of i o None).
  split_and!; try done.
  - by destruct Htail as (_ & ? & _).
  - by apply elem_of_btree_values; eauto.
  - by eapply so_key.
Qed.

(** C8. Recovery.  A command request is cut short anywhere, by any failure of the disk,
    of a provider or of a process, or it runs to its end but its answer is lost.  The
    hypothesis is that a request on the same well-typed file that nothing disturbs, in
    the environment of the retry, applies the command.  Then sending the request again
    succeeds.  Either the first request failed and the retry applies or reconciles the
    command with the very answer, disk and environment of the undisturbed request; or
    the file the first request left records its operation as completed, for that very
    command, and the retry changes nothing and answers from the recorded receipt and the
    recorded connector, which is the answer of the first request if it gave one. *)
Theorem interrupted_request_recovers (frame : RequestFrame) (file : option JournalFile) (fs : list IoFault) (w1 w2 : Env)
    r1 d1 w1' disp rev conn d2 w2' :
  unsigned_file (opened file) →
  handle frame ({| disk_file := file; faults := fs |}, w1) = (r1, (d1, w1')) →
  handle frame (clean file, w2) = (Ok (RCommand ByApplying disp rev conn), (d2, w2')) →
  let retry := handle frame (clean d1.(disk_file), w2) in
  ((retry = (Ok (RCommand ByApplying disp rev conn), (d2, w2')) ∨
    retry = (Ok (RCommand ByReconciling disp rev conn), (d2, w2'))) ∧ ∀ x, r1 ≠ Ok x) ∨
  ∃ disp1 rev1 conn1,
    recorded_answer frame d1.(disk_file) disp1 rev1 conn1 ∧
    retry = (Ok (RCommand ByReplay disp1 rev1 conn1), (clean d1.(disk_file), w2)) ∧
    ∀ x, r1 = Ok x → x = RCommand ByApplying disp1 rev1 conn1.
Proof.
  intros Hu H1 H2. pose proof (handle_Ok _ _ _ _ H2) as Hacc. pose proof H2 as Hclean.
  apply handle_applied_inv in H2 as (s & id & dd & oo & command & fence & o & s' & Hok & Hb & Hframe & Hfence & Hp & Hx & -> & -> & Hconn).
  assert (well host (opened file)) as Hw by (by eapply opened_well).
  destruct (booted_inv _ _ Hw Hu Hb) as [Hsok Hk Hten Hhost Hinst].
  apply execute_applied_inv in Hx as (i & j1 & Hf & Happ); [|done..].
  assert (file_ok (Some j1)) as Hok1 by (eapply replaces_ok, fr_pushed, Hf).
  rewrite handle_accepted in H1 by done.
  destruct (boot ({| disk_file := file; faults := fs |}, w1)) as [r0 [d0 w0]] eqn:Hboot.
  apply boot_inv in Hboot as (Hd0 & -> & Hs1). cbn in Hd0.
  destruct r0 as [s1|err]; [|injection H1 as <- <- <-; rewrite Hd0; left; split; [by left|done]].
  destruct (Hs1 s1 eq_refl) as [_ Hb1]. rewrite (booted_unique _ _ _ Hb1 Hb) in *. clear Hs1 Hb1.
  rewrite (dispatch_execute frame id dd oo command fence) in H1 by done.
  set (env := Envelope_new _ _ _ _ _) in *.
  pose proof (execute_disk (frame.(rf_credential)) file s env i j1 d0 w1 Hhost Hf Hd0) as Hdisk. unfold wp, C in Hdisk.
  destruct (execute env (s, (d0, w1))) as [r [s3 [d3 w3]]]. cbn [fst snd] in Hdisk.
  assert (d3 = d1 ∧ w3 = w1' ∧ r1 = match r with Ok res => respond command res s3 | Err err => Err (map_supervisor err) end)
    as (-> & -> & ->) by (destruct r; injection H1 as <- <- <-; done). clear H1.
  destruct Hdisk as [[Hfile Hr]|(staged & o1 & j2 & Hfin & Hrep & Hfile & Hr)].
  - left. split; [|destruct r as [x|]; [by destruct (Hr x)|done]]. destruct Hfile as [->| ->]; [by left|right].
    rewrite (handle_execute frame id dd oo command fence (Some j1) s); try done.
    + fold env. pose proof (retry_pending _ _ _ _ _ _ _ _ _ Hhost Hf Happ) as Hx. unfold C in Hx. rewrite Hx. unfold respond. cbn. by rewrite Hconn.
    + eapply booted_pending; [exact (clean None, w2)|done..|]. rewrite <-(snapshot_sorted _ Hsok). by eapply fresh_pending.
  - right. destruct (retry_completed (frame.(rf_credential)) _ _ _ _ _ _ _ _ w2 Hok Hu Hb Hf Hfin Hrep) as (s2 & Hb2 & Hi2 & Hx2).
    unfold C in Hx2.
    assert (file_ok (Some j2)) as Hok2 by (by eapply replaces_ok).
    assert (wire_connector_id command = (target i.(oi_command)).(t_connector_id)) as Hcid.
    { pose proof (fresh_matches frame.(rf_credential) _ _ _ _ _ (clean None, w2) Hf) as Hm. unfold validate_intent_for_envelope in Hm. res_inv Hm.
      not_ors. match goal with H : durable_command_matches _ _ = true |- _ => by rewrite (matches_connector _ _ H) end. }
    assert (∃ conn1, staged.(instances) !! wire_connector_id command = Some conn1) as [conn1 Hc1].
    { pose proof (fi_outcome _ _ _ _ Hfin) as Ho; unfold current_outcome, current_outcome_with_disposition in Ho.
      rewrite Hcid. res_inv Ho. eauto. }
    exists o1.(co_disposition), o1.(co_revisions), conn1. rewrite Hfile.
    split; [exact (completed_recorded frame id dd oo command fence _ _ _ _ _ _ _ _ w2 Hframe Hok Hu Hb Hf Hfin Hrep Hc1)|]. split.
    + rewrite (handle_execute frame id dd oo command fence (Some j2) s2); try done. fold env. rewrite Hx2. unfold respond. cbn.
      by rewrite Hi2, Hc1.
    + intros x. destruct r as [res|]; [|done]. destruct (Hr _ eq_refl) as [-> ->]. unfold respond. cbn. rewrite Hc1. by intros [= <-].
Qed.
End recovery.
End Recovery.
