(* ===== verification/HostInstall.v ===== *)
(** * Host supervisor: installing a connector

    What the lifecycle requests of [HostRequest] do on the journal of [HostJournal].
    The first install of a connector is never applied: the journal refuses the
    transition that the supervisor hands it.  Only the terminal answer that the material
    expired unclaimed is recorded. *)

From S2P Require Import Prelude Domain WirePrimitives WireValues Connector ControlProof AgentHost HostTypes HostSupervisor HostSupervisorProps HostJournal HostJournalProps HostRequest HostRecovery.

Module Install.
Import HostTypes Supervisor SupervisorProps FileJournal JournalProps HostRequest Recovery.

Section install.
Context `{Sha : Sha256}.
Context (record_json : Record_ → bytes) (snapshot_json : SupervisorSnapshot → bytes) (json_size : JournalFile → Z).
Hypothesis json_size_pos : ∀ j, 0 < json_size j.
Context (catalog : StaticReleaseCatalog) (config : HostConfigWire).
Context {Env Artifact : Type}.
Context (payload : bytes → CredentialArtifactProvider Env Artifact).
Context `{M : !BootstrapMaterialProvider Env} `{P : !ProcessController Env Artifact}.

Local Notation host := config.(hc_host_id).
Local Notation World := (Disk * Env)%type.
Local Notation file_ok := (file_ok record_json snapshot_json json_size host).
Local Notation opened := (opened host).
Local Notation replaces := (replaces record_json snapshot_json json_size host).
Local Notation push := (push_intent snapshot_json).
Local Notation settle := (settle snapshot_json).
Local Instance J : Journal World := file_journal record_json snapshot_json json_size config.
Local Instance R : ReleaseCatalog World := static_catalog catalog.

(** The journal does not complete the first prepare of a connector. *)
Lemma first_transition_refused pred res i receipt facts :
  i.(oi_command) = PrepareConnectorMaterial facts → receipt.(or_outcome).(co_disposition) = Applied →
  find_instance pred facts.(lf_connector_id) = None →
  validate_snapshot_transition pred res i receipt = Err tt.
Proof.
  intros Hc Hd Hn. destruct (validate_snapshot_transition _ _ _ _) as [u|[]] eqn:H; [|done]. exfalso.
  unfold validate_snapshot_transition in H. apply result_bind_Ok in H as (? & _ & H). rewrite decide_False in H by congruence.
  apply result_bind_Ok in H as (after & _ & H). apply result_bind_Ok in H as (? & _ & H).
  apply result_bind_Ok in H as (? & H & _). rewrite Hc in H. cbn [target facts_target t_connector_id] in H. rewrite Hn in H.
  unfold validate_lifecycle_transition in H. cbn in H. done.
Qed.

(** The operation [i] is recorded as pending on top of [pred]. *)
Definition recorded (i : OperationIntent) (pred : SupervisorSnapshot) (j : JournalFile) : Prop :=
  j.(jf_snapshot) = Some pred ∧ ∃ k r, find_record j i.(oi_operation_id) = Some (k, r) ∧ to_record r = RPending i.

Lemma first_settle_refused i pred j receipt res facts :
  well host j → recorded i pred j →
  i.(oi_command) = PrepareConnectorMaterial facts → receipt.(or_outcome).(co_disposition) = Applied →
  receipt.(or_operation_id) = i.(oi_operation_id) → find_instance pred facts.(lf_connector_id) = None →
  ∀ x, settle receipt res j ≠ Ok x.
Proof.
  intros Hw (Hsn & k & r & Hf & Hr) Hc Hd Hid Hn x H. unfold FileJournal.settle in H. rewrite Hid, Hf in H. cbn [ok_or] in H.
  apply result_bind_Ok in H as ([k' r'] & [= <- <-] & H). destruct (find_record_elem _ _ _ _ Hf) as (_ & Hin & _).
  rewrite (we_record _ _ Hw _ Hin), Hr in H. cbn [map_err] in H. apply result_bind_Ok in H as (? & [= <-] & H).
  apply result_bind_Ok in H as (? & _ & H). apply result_bind_Ok in H as (? & Hp & H). res_inv Hp. not_ors.
  apply result_bind_Ok in H as (? & _ & H). apply result_bind_Ok in H as (? & Ht & _). apply map_err_Ok in Ht.
  erewrite first_transition_refused in Ht; [done|done|done|]. congruence.
Qed.

Lemma recorded_pending i pred j : recorded i pred j → i ∈ pending_of j.(records).
Proof.
  intros (_ & k & r & Hf & Hr). destruct (find_record_elem _ _ _ _ Hf) as (_ & Hin & _). unfold pending_of.
  apply list_elem_of_fmap. exists r. destruct r; [|done]. injection Hr as ->. split; [done|]. by apply list_elem_of_filter.
Qed.

(** Persisting the intent records it, or fails and keeps the file. *)
Lemma persist_records i sn d w r d' w' :
  file_ok d.(disk_file) →
  (∀ k x, find_record (opened d.(disk_file)) i.(oi_operation_id) = Some (k, x) → is_pending x = true) →
  persist_intent i sn (d, w) = (r, (d', w')) →
  file_ok d'.(disk_file) ∧
  (recorded i (from_snapshot sn) (opened d'.(disk_file)) ∨ d'.(disk_file) = d.(disk_file) ∧ r ≠ Ok tt).
Proof.
  intros Hok Hnc Hd. apply persist_disk in Hd as [-> Hd].
  assert (well host (opened d.(disk_file))) as Hw by (by eapply opened_well).
  destruct Hd as [[Hd Hn]|(j' & Hrep & Hd)]; rewrite Hd.
  - split; [done|]. destruct (decide (r = Ok tt)) as [Hr|]; [left|by right]. specialize (Hn Hr). unfold push_intent in Hn.
    destruct (find_record _ _) as [[k x]|] eqn:Hf; [|by res_inv Hn].
    destruct (find_record_elem _ _ _ _ Hf) as (_ & Hin & _). rewrite (we_record _ _ Hw _ Hin) in Hn. cbn [map_err] in Hn.
    apply result_bind_Ok in Hn as (? & [= <-] & Hn). specialize (Hnc _ _ eq_refl). destruct x as [sq pd i' pr dg|]; [|done].
    cbn [to_record] in Hn. res_inv Hn.
    match goal with H : bool_decide _ ≠ false |- _ => apply not_false_is_true, bool_decide_eq_true in H as [-> ?] end.
    split; [done|]. eauto.
  - split; [by eapply replaces_ok|]. left. destruct (push_replaces _ _ _ _ _ _ _ _ Hrep) as [Ht _].
    destruct (pending_tail_find _ _ _ _ Ht) as (x & Hf & Hx). split; [by destruct Ht as (_ & ? & _)|eauto].
Qed.

Lemma snapshot_absent s id : sup_ok s → s.(instances) !! id = None → find_instance (from_snapshot (snapshot s)) id = None.
Proof.
  intros Hs Hn. rewrite (snapshot_sorted _ Hs). unfold find_instance.
  destruct (list_find _ _) as [[k b]|] eqn:Hf; [|done]. apply list_find_Some in Hf as (Hk & Hid & _).
  apply list_elem_of_lookup_2, elem_of_btree_values in Hk as [x Hx]. rewrite <-(so_key _ Hs _ _ Hx), Hid in Hx. congruence.
Qed.

(** The operation [id] is not completed in the file. *)
Definition open_operation (id : HostOperationId) (j : JournalFile) : Prop :=
  ∀ k x, find_record j id = Some (k, x) → is_pending x = true.

(** The outcome of a first prepare: nothing, or the intent recorded for good. *)
Definition stuck (facts : ConnectorLifecycleFacts) (id : HostOperationId) (file file' : option JournalFile) : Prop :=
  file' = file ∨ ∃ i, i ∈ pending_of (opened file').(records) ∧ i.(oi_operation_id) = id ∧
                      i.(oi_command) = PrepareConnectorMaterial facts.

(** The operation [id] is completed in the file, without any effect: its material had
    expired unclaimed, there is no install proof, and the connector is still unmanaged. *)
Definition expired_unclaimed (facts : ConnectorLifecycleFacts) (id : HostOperationId) (j : JournalFile) : Prop :=
  ∃ k r i receipt sn,
    find_record j id = Some (k, r) ∧ to_record r = RCompleted i receipt ∧
    i.(oi_command) = PrepareConnectorMaterial facts ∧
    receipt.(or_outcome).(co_disposition) = ExpiredUnclaimed ∧ receipt.(or_install_proof) = None ∧
    j.(jf_snapshot) = Some sn ∧ find_instance sn facts.(lf_connector_id) = None.

(** Settling a recorded operation replaces its record by the completed one. *)
Lemma settle_records i pred j receipt res x :
  well host j → recorded i pred j → receipt.(or_operation_id) = i.(oi_operation_id) →
  settle receipt res j = Ok x →
  ∃ j' k r', x = Some j' ∧ find_record j' i.(oi_operation_id) = Some (k, r') ∧ to_record r' = RCompleted i receipt ∧
    j'.(jf_snapshot) = Some res.
Proof.
  intros Hw (Hsn & k & r & Hf & Hr) Hid H. unfold FileJournal.settle in H. rewrite Hid, Hf in H. cbn [ok_or] in H.
  apply result_bind_Ok in H as ([k' r'] & [= <- <-] & H). destruct (find_record_elem _ _ _ _ Hf) as (_ & Hin & Hop).
  rewrite (we_record _ _ Hw _ Hin), Hr in H. cbn [map_err] in H. apply result_bind_Ok in H as (? & [= <-] & H).
  res_inv H. eexists _, k, _. split; [done|]. split; [|split; [|done]].
  - apply list_find_Some in Hf as (Hk & Ho & Hlt). apply list_find_Some. cbn. split; [|split].
    + apply list_lookup_insert_eq. by eapply lookup_lt_Some.
    + done.
    + intros n y Hn Hn'. rewrite list_lookup_insert_ne in Hn by lia. by eapply Hlt.
  - done.
Qed.

Section first_prepare.
Context (facts : ConnectorLifecycleFacts).

(** How a first prepare ends: it fails and is [stuck], or the provider reported that the
    material expired unclaimed and that is what the file says. *)
Definition not_applied (id : HostOperationId) (file : option JournalFile) (w : Env) (s : HostSupervisor) {E}
    (r : result E CommandResult) (s' : HostSupervisor) (file' : option JournalFile) (w' : Env) : Prop :=
  s' = s ∧
  ((∀ x, r ≠ Ok x) ∧ stuck facts id file file' ∨
   (∃ release, material_prepare id facts release w = (Ok MaterialExpiredUnclaimed, w')) ∧
   expired_unclaimed facts id (opened file') ∧
   ∀ x, r = Ok x → x.(cr_outcome).(co_disposition) = ExpiredUnclaimed).

Lemma not_applied_failed id file w s {E} (e : E) file' w' :
  stuck facts id file file' → not_applied id file w s (Err e) s file' w'.
Proof. intros Hst. split; [done|]. left. by split. Qed.

Lemma resolve_for_prepare_pure retrying : pure (resolve_for_prepare retrying facts).
Proof.
  unfold resolve_for_prepare. destruct (static_runnable catalog facts.(lf_adapter_kind) facts.(lf_release_digest)) as [r|x] eqn:Hr.
  - exists (Ok r). intros w. cbn. unfold lift. by rewrite Hr.
  - destruct x; try (eexists; intros w; cbn; unfold lift; rewrite Hr; reflexivity).
    destruct retrying; eexists; intros w; cbn; unfold port, lift; rewrite Hr; reflexivity.
Qed.

(** The branch of the provider's terminal answer. *)
Lemma expired_completes i o file s d w w' release :
  file_ok d.(disk_file) → recorded i (from_snapshot (snapshot s)) (opened d.(disk_file)) →
  i.(oi_command) = PrepareConnectorMaterial facts → o.(co_disposition) = ExpiredUnclaimed →
  find_instance (from_snapshot (snapshot s)) facts.(lf_connector_id) = None →
  stuck facts i.(oi_operation_id) file d.(disk_file) →
  material_prepare i.(oi_operation_id) facts release w = (Ok MaterialExpiredUnclaimed, w') →
  wp (io (port JournalError (complete (receipt_of i o None) (snapshot s)));; mret (MkCommandResult ByApplying o) : ST (HostSupervisor * World) SupervisorError CommandResult)
    (s, (d, w')) (λ r sw, not_applied i.(oi_operation_id) file w s r sw.1 sw.2.1.(disk_file) sw.2.2).
Proof.
  intros Hok Hrec Hc Ho Hn Hst Hm. assert (well host (opened d.(disk_file))) as Hw by (by eapply opened_well).
  wp_step. wp_step. wp_step. apply wp_run. intros r [d1 w1] [-> Hd]%complete_disk.
  destruct Hd as [[Hd Hr]|(j' & (_ & j & Hj & _ & -> & _) & Hd)].
  - destruct r as [[]|]; cbn [map_err].
    + by destruct (settle_records i _ _ (receipt_of i o None) _ _ Hw Hrec eq_refl (Hr eq_refl)) as (? & ? & ? & ? & _).
    + apply not_applied_failed. cbn. by rewrite Hd.
  - destruct (settle_records i _ _ (receipt_of i o None) _ _ Hw Hrec eq_refl Hj) as (j1 & k & x & [= <-] & Hf & Hx & Hsn).
    assert (expired_unclaimed facts i.(oi_operation_id) (opened d1.(disk_file))) as Hexp.
    { rewrite Hd. by eexists k, x, i, (receipt_of i o None), _. }
    destruct r as [[]|]; cbn [map_err]; [wp_step|]; (split; [done|right; split; [by eexists|split; [done|]]]); [|done].
    by intros res [= <-].
Qed.

Lemma prepare_material_stuck e retrying s d w :
  file_ok d.(disk_file) → sup_ok s → s.(instances) !! facts.(lf_connector_id) = None →
  open_operation e.(he_operation_id) (opened d.(disk_file)) →
  wp (prepare_material e facts retrying) (s, (d, w)) (λ r sw,
    not_applied e.(he_operation_id) d.(disk_file) w s r sw.1 sw.2.1.(disk_file) sw.2.2).
Proof.
  intros Hok Hs Hn Ho. assert (∀ x, stuck facts x d.(disk_file) d.(disk_file)) as Hsame by (by left).
  unfold prepare_material. wp_step. wp_step. wp_step. wp_step; [by apply not_applied_failed|].
  rewrite Hn. wp_step. wp_step. wp_step. wp_step; [by apply not_applied_failed|].
  wp_step. wp_step. apply wp_run. intros r1 w1 [-> _]%(pure_run _ _ _ _ (resolve_for_prepare_pure retrying)).
  destruct r1 as [release|]; [|by apply not_applied_failed]. wp_step. wp_step; [by apply not_applied_failed|].
  wp_step. wp_step. destruct (ok_or _ _) as [resulting|]; [|by apply not_applied_failed].
  wp_step. wp_step. wp_step. apply wp_run. intros r2 [d2 w2] H2.
  set (i := OperationIntent_new e resulting _) in *.
  assert (w2 = w) as -> by (by apply persist_disk in H2 as [-> _]).
  apply persist_records in H2 as [Hok2 H2]; [|done..].
  assert (stuck facts e.(he_operation_id) d.(disk_file) d2.(disk_file)) as Hst.
  { destruct H2 as [H2|[H2 _]]; [right|by left]. exists i. by split; [eapply recorded_pending|]. }
  destruct r2 as [[]|]; cbn [map_err]; [|by apply not_applied_failed]. destruct H2 as [H2|[_ []]]; [|done].
  assert (well host (opened d2.(disk_file))) as Hw2 by (by eapply opened_well).
  wp_step. wp_step. wp_step. apply wp_run. intros r3 [d3 w3] H3. cbn in H3. unfold on_env in H3. cbn in H3.
  destruct (material_prepare _ _ _ w) as [r3' w3'] eqn:Hm. injection H3 as <- <- <-.
  destruct r3' as [prepared|]; cbn [map_err]; [|by apply not_applied_failed].
  destruct prepared as [proof|]; [|by eapply (expired_completes i); [..|apply snapshot_absent| |]].
  wp_step. wp_step.
  destruct (validate_prepared_proof _ _ _) as [[]|]; [|by apply not_applied_failed].
  wp_step. wp_step; [by apply not_applied_failed|]. wp_step. wp_step; [by apply not_applied_failed|]. wp_step. wp_step.
  destruct (current_outcome _ _) as [o|] eqn:Hout; [|by apply not_applied_failed]. wp_step. wp_step. wp_step.
  apply wp_run. intros r4 [d4 w4] [-> Hc]%complete_disk.
  assert (∀ res x, settle (receipt_of i o (Some (Prepared facts proof.(pp_prepared_receipt) proof.(pp_credentials)
    proof.(pp_observation)))) res (opened d2.(disk_file)) ≠ Ok x) as Hno.
  { intros res. eapply first_settle_refused; [done..| |done|by apply snapshot_absent].
    unfold current_outcome, current_outcome_with_disposition in Hout. by res_inv Hout. }
  destruct Hc as [[Hd4 Hr]|(j' & (_ & j & Hj & _) & _)]; [|by destruct (Hno _ _ Hj)].
  destruct r4 as [[]|]; cbn [map_err]; [by destruct (Hno _ _ (Hr eq_refl))|]. apply not_applied_failed. cbn. by rewrite Hd4.
Qed.

Local Notation boot := (boot record_json snapshot_json json_size catalog config (Env := Env)).
Local Notation dispatch_v2 := (dispatch_v2_lifecycle record_json snapshot_json json_size catalog config (Env := Env)).

Lemma prepare_connector_stuck e s d w :
  file_ok d.(disk_file) → sup_ok s → s.(host_id) = host → e.(he_command) = HPrepareConnectorMaterial facts →
  s.(instances) !! facts.(lf_connector_id) = None → open_operation e.(he_operation_id) (opened d.(disk_file)) →
  wp (prepare_connector_material e) (s, (d, w)) (λ r sw,
    not_applied e.(he_operation_id) d.(disk_file) w s r sw.1 sw.2.1.(disk_file) sw.2.2).
Proof.
  intros Hok Hs Hh He Hn Ho. unfold prepare_connector_material. wp_step. wp_step. wp_step. wp_step.
  destruct (ensure_envelope_boundary _ _) as [[]|]; [|apply not_applied_failed; by left].
  rewrite He. wp_step. wp_step. wp_step. apply wp_run. rewrite Hh. intros r1 [d1 w1] (Hd1 & -> & H1)%lookup_disk.
  assert (stuck facts (he_operation_id e) (disk_file d) (disk_file d1)) as Hst by (by left).
  destruct r1 as [rec|]; cbn [map_err]; [|by apply not_applied_failed]. destruct (H1 _ eq_refl) as [_ ->].
  rewrite <-Hd1 in *.
  destruct (find_record _ _) as [[k x]|] eqn:Hf; cbn; [|by apply prepare_material_stuck].
  specialize (Ho _ _ Hf) as Hp. destruct x; [cbn|done].
  wp_step. wp_step. destruct (validate_intent_for_envelope _ _) as [[]|]; [|by apply not_applied_failed].
  by apply prepare_material_stuck.
  Unshelve. exact json_size_pos.
Qed.

(** C12. The first install of a connector is never applied.  On a host that was reloaded
    from a well-typed journal and does not manage the connector yet, a [PrepareConnectorMaterial]
    frame whose operation is not completed does not change the supervisor, whatever the
    faults of the disk and whatever the provider answers.  It fails, and either nothing
    was written or the intent of the operation stays pending; or the provider answered
    that the material expired unclaimed, and then the file records the operation as
    completed with that disposition, no install proof and the connector still unmanaged,
    and an answer, if there is one, has that disposition. *)
Theorem first_install_never_applies disk w s d operation_id dd oo present r s' d' w' :
  unsigned_file (opened disk.(disk_file)) →
  boot (disk, w) = (Ok s, (d, w)) →
  s.(instances) !! facts.(lf_connector_id) = None → open_operation operation_id (opened disk.(disk_file)) →
  dispatch_v2 V2Prepare facts operation_id dd oo present (s, (d, w)) = (r, (s', (d', w'))) →
  not_applied operation_id disk.(disk_file) w s r s' d'.(disk_file) w'.
Proof.
  intros Hu (Hd & _ & Hb)%boot_inv Hn Ho H; [|done]. destruct (Hb _ eq_refl) as [Hok Hbooted].
  assert (well host (opened disk.(disk_file))) as Hw by (by eapply opened_well).
  eapply booted_inv in Hbooted as [Hs _ _ Hh _]; [|done..]. rewrite <-Hd in *. clear Hu Hb Hw.
  cut (wp (dispatch_v2 V2Prepare facts operation_id dd oo present) (s, (d, w)) (λ r sw,
    not_applied operation_id d.(disk_file) w s r sw.1 sw.2.1.(disk_file) sw.2.2)).
  { intros Hwp. by apply (wp_eq _ _ _ _ _ Hwp) in H. }
  assert (stuck facts operation_id d.(disk_file) d.(disk_file)) as Hsame by (by left).
  clear H. unfold dispatch_v2_lifecycle. wp_step. apply wp_run. intros ? ? [= <- <-]. cbn [fst]. rewrite Hh.
  wp_step. apply wp_mono with (Q := λ _ sw, sw.1 = s ∧ sw.2.1.(disk_file) = d.(disk_file) ∧ sw.2.2 = w).
  - destruct present; wp_step; [done|]. unfold lookup_in. apply wp_run. intros r1 sw1 H1. cbn [fst snd] in H1.
    unfold port in H1. destruct (lookup_record host operation_id (d, w)) as [r2 [d2 w2]] eqn:H2. injection H1 as <- <-.
    eapply lookup_disk in H2 as (? & -> & _); [|done]. destruct (map_err _ r2); [|done]. by repeat wp_step.
  - intros r1 [s1 [d1 w1]] (Hs1 & Hd1 & Hw1). cbn in Hs1, Hd1, Hw1. subst s1 w1. rewrite <-Hd1 in *.
    destruct r1 as [[]|]; [|by apply not_applied_failed].
    wp_step. wp_step. destruct (map_err _ _) as [fence|]; [|by apply not_applied_failed].
    unfold rejected. apply wp_run. intros r2 sw2 H2.
    epose proof (prepare_connector_stuck (Envelope_new (tenant_id s) host operation_id fence (HPrepareConnectorMaterial facts))
       s d1 w Hok Hs Hh eq_refl Hn Ho) as Hp. unfold wp in Hp.
    destruct (prepare_connector_material _ _) as [r3 sw3]. injection H2 as <- <-.
    destruct Hp as [Hp [[Hr Hst]|(He & Hx & Hr)]]; (split; [done|]).
    + left. split; [|done]. destruct r3 as [x|]; [by destruct (Hr x)|done].
    + right. split; [done|]. split; [done|]. intros x. destruct r3; [|done]. intros [= <-]. by apply Hr.
Qed.
End first_prepare.
End install.
End Install.
