(* ===== verification/HostDemo.v ===== *)
(** * Host supervisor: a worked example

    A host with one approved release and a process controller that can be out of
    order.  A connector is ensured, given a credential, started and removed, an
    interrupted request is sent again, and a first install is tried. *)

From S2P Require Import Prelude Domain WirePrimitives WireValues Connector ControlProof AgentHost HostTypes HostSupervisor HostSupervisorProps HostEffects HostJournal HostJournalProps HostRequest HostRecovery HostInstall IdentityLogDemo.

Module HostDemo.
Import HostTypes Supervisor SupervisorProps Effects FileJournal JournalProps HostRequest Recovery Install.
Existing Instance IdentityLogDemo.sha256_demo.

(** ** The environment *)

Definition record_json (r : Record_) : bytes := [Z.of_nat (if is_pending r then 1 else 2)].
Definition snapshot_json (s : SupervisorSnapshot) : bytes := [s.(ss_desired_revision)].
Definition json_size (j : JournalFile) : Z := 1 + Z.of_nat (length j.(records)).
Lemma json_size_pos j : 0 < json_size j.
Proof. unfold json_size. lia. Qed.

Definition digest : ReleaseDigest := MkOpaque32 (replicate 32 7).
Definition release : CatalogRelease := approved Codex digest Standard 1.
Definition catalog : StaticReleaseCatalog := {| releases := [{| rec_release := release; rec_runnable := true |}] |}.
Definition config : HostConfigWire :=
  {| hc_schema_version := 1; hc_tenant_id := UuidV7 1; hc_host_id := UuidV7 2; hc_owner_id := MkPublicId (replicate 32 3);
     hc_host_credential_id := UuidV7 4 |}.
Definition connector : ConnectorId := UuidV7 5.

(** Whether the process controller works, and what the process does. *)
Definition Env : Type := bool * ProcessObservation.
Definition act (next : ProcessObservation) : ST Env PortError ProcessObservation := λ e,
  if e.1 then (Ok next, (true, next)) else (Err Unavailable, e).
Definition material (facts : ConnectorLifecycleFacts) : PreparedMaterialProof :=
  {| pp_facts := facts; pp_prepared_receipt := MkOpaque32 (replicate 32 8);
     pp_credentials := {| bc_generation := 1; bc_revision := 1; bc_credential_ref := MkOpaque32 (replicate 32 9);
                          bc_mcp_bearer_ref := MkOpaque32 (replicate 32 10) |};
     pp_observation := ObservedStopped |}.

Global Instance processes : ProcessController Env bytes := {|
  process_ensure _ _ _ := act ObservedStopped;
  process_start _ _ _ _ := act ObservedRunning;
  process_stop _ _ := act ObservedStopped;
  process_restart _ _ _ _ := act ObservedRunning;
  restore_installed_runtime _ _ _ _ := mret tt;
  process_rotate_credential _ _ _ _ := act ObservedStopped;
  process_remove_retaining_data _ _ := act Absent;
  process_observe _ e := (Ok e.2, e)
|}.
Global Instance materials : BootstrapMaterialProvider Env := {|
  material_prepare _ facts _ := mret (MaterialPrepared (material facts));
  material_finalize _ _ _ _ := throw Unavailable
|}.
Definition payload (credential : bytes) : CredentialArtifactProvider Env bytes := λ _ _ _, mret credential.

Definition working : Env := (true, Absent).
Definition broken : Env := (false, Absent).

Notation serve_request := (handle record_json snapshot_json json_size catalog config payload (Artifact := bytes)).

(** ** A request that is interrupted *)

Definition frame (id d : Z) (o : option Z) (command : CommandWire) : RequestFrame :=
  {| rf_tenant_id := UuidV7 1; rf_host_id := UuidV7 2; rf_request := BExecute (UuidV7 id) d o command;
     rf_credential := [1; 2; 3] |}.
Definition ensure_frame : RequestFrame := frame 100 1 None (WEnsure connector Codex digest).

(** the first attempt stores its intent and fails at the process *)
Definition attempt := Eval vm_compute in serve_request ensure_frame (clean None, broken).
Definition undisturbed := Eval vm_compute in serve_request ensure_frame (clean None, working).

(** The first attempt fails and the retry reconciles; where the first attempt had
    completed and only its answer was lost, the retry is answered from the file. *)
Lemma interrupted_request_recovers_witness :
  match undisturbed with
  | (Ok (RCommand ByApplying disp rev conn), w) =>
      let answered first retry :=
        (retry = undisturbed ∨ retry = (Ok (RCommand ByReconciling disp rev conn), w)) ∧ (∀ x, first.1 ≠ Ok x) ∨
        ∃ disp1 rev1 conn1, recorded_answer ensure_frame first.2.1.(disk_file) disp1 rev1 conn1 ∧
          retry = (Ok (RCommand ByReplay disp1 rev1 conn1), (clean first.2.1.(disk_file), working)) ∧
          ∀ x, first.1 = Ok x → x = RCommand ByApplying disp1 rev1 conn1 in
      (∃ e, attempt.1 = Err e) ∧
      answered attempt (serve_request ensure_frame (clean attempt.2.1.(disk_file), working)) ∧
      answered undisturbed (serve_request ensure_frame (clean undisturbed.2.1.(disk_file), working))
  | _ => False
  end.
Proof.
  split; [by eexists|]. split.
  - apply (interrupted_request_recovers record_json snapshot_json json_size json_size_pos catalog config payload
      ensure_frame None [] broken working attempt.1 attempt.2.1 attempt.2.2); [by intros sn|by vm_compute..].
  - apply (interrupted_request_recovers record_json snapshot_json json_size json_size_pos catalog config payload
      ensure_frame None [] working working undisturbed.1 undisturbed.2.1 undisturbed.2.2); [by intros sn|by vm_compute..].
Defined.

(** ** A connector from its first release to its removal *)

Global Instance world_journal : Journal (Disk * Env) := file_journal record_json snapshot_json json_size config.
Global Instance world_catalog : ReleaseCatalog (Disk * Env) := static_catalog catalog.
Global Instance world_credentials : CredentialArtifactProvider (Disk * Env) bytes := env_credentials payload [1; 2; 3].

Definition agent_host : Host.AgentHost := Eval vm_compute in config_agent_host config.
Definition supervisor : HostSupervisor := Eval vm_compute in
  match new agent_host with Ok s => s | Err _ => {| tenant_id := UuidV7 0; host_id := UuidV7 0;
    revisions := {| desired := 0; observed := None |}; instances := ∅; install_states := ∅ |} end.
Definition envelope (id d : Z) (o : option Z) (c : HostCommand) : HostCommandEnvelope :=
  Envelope_new (UuidV7 1) (UuidV7 2) (UuidV7 id) {| desired := d; observed := o |} c.
Definition ensure_envelope : HostCommandEnvelope := envelope 100 1 None (HEnsure connector Codex digest).
Definition life : list Request :=
  [QExecute ensure_envelope;
   QExecute (envelope 101 2 (Some 2) (HRotateCredential connector (MkOpaque32 (replicate 32 9))));
   QExecute (envelope 102 3 (Some 3) (HStart connector));
   QExecute (envelope 103 4 (Some 4) (HRemove connector RetainData))].
Definition world0 : Disk * Env := (clean None, working).
Notation after_life := (run_all (λ q, exec (serve q)) life (supervisor, world0)).
Definition removed : ManagedConnectorSnapshot :=
  {| m_connector_id := connector; m_adapter_kind := Codex; m_release := release; m_desired_state := RemovedRetainingData;
     m_observation := Absent; m_credential_generation := 1; m_credential_ref := Some (MkOpaque32 (replicate 32 9));
     m_credential_operation_id := Some (UuidV7 101) |}.
Lemma after_life_instances : after_life.1.(instances) = {[connector := removed]}.
Proof. by vm_compute. Qed.

(** It cannot be ensured again, a second connector can. *)
Definition later : list Request :=
  [QExecute (envelope 104 5 (Some 5) (HEnsure connector Codex digest)); QReconcile; QObserve connector;
   QExecute (envelope 105 5 (Some 5) (HEnsure (UuidV7 6) Codex digest))].

Definition retired : HostSupervisor := Eval vm_compute in after_life.1.
Definition retired_world : Disk * Env := Eval vm_compute in after_life.2.

Lemma removed_connector_stays_removed_witness :
  let s' := (run_all (λ q, exec (serve q)) later (retired, retired_world)).1 in
  (s'.(instances) !! connector = Some removed ∧ retired.(revisions).(desired) ≤ s'.(revisions).(desired)) ∧
  s'.(revisions).(desired) = 6 ∧ is_Some (s'.(instances) !! (UuidV7 6 : ConnectorId)).
Proof.
  split; [|by vm_compute; eauto].
  apply (removed_connector_stays_removed later retired retired_world connector removed); by vm_compute.
Defined.

Lemma after_life_known : catalog_knows world0 after_life.1.
Proof. intros id i. rewrite after_life_instances. intros [<- <-]%lookup_singleton_Some. by vm_compute. Qed.

Lemma snapshot_reload_witness :
  try_from_snapshot agent_host (snapshot after_life.1) world0 = (Ok (after_life.1 <| install_states := ∅ |>), world0).
Proof.
  apply (snapshot_reload agent_host supervisor life world0 world0).
  - by split.
  - by vm_compute.
  - done.
  - by vm_compute.
  - exact after_life_known.
Defined.

(** ** The effects of one call *)

Definition ensure_run := Eval vm_compute in serve (QExecute ensure_envelope) (supervisor, (world0, [])).
Definition ensure_trace : list Event := Eval vm_compute in ensure_run.2.2.2.
Lemma ensure_runs : serve (QExecute ensure_envelope) (supervisor, (world0, [])) = ensure_run.
Proof. by vm_compute. Qed.

(** The process is touched after the lookup, the check for pending operations and
    the durable intent. *)
Lemma effects_follow_a_durable_intent_witness :
  ∃ call, ensure_trace !! 3%nat = Some (EvProcess call) ∧ needs_intent (EvProcess call) = true ∧
    unsettled (take 3 ensure_trace) ∧ ∃ i, durable i (take 3 ensure_trace) ∧ permitted i (EvProcess call).
Proof.
  eexists. split; [reflexivity|]. split; [reflexivity|].
  pose proof (effects_follow_a_durable_intent (QExecute ensure_envelope) supervisor world0 (take 3 ensure_trace)
    (EvProcess (PEnsure (requested (UuidV7 100)) {| t_tenant_id := UuidV7 1; t_host_id := UuidV7 2;
       t_connector_id := connector; t_adapter_kind := Codex |} release)) (drop 4 ensure_trace)) as H.
  rewrite ensure_runs in H. destruct (H eq_refl) as [H1 H2]. split; [exact H1|]. apply H2. reflexivity.
Defined.

Definition ensured_world : Disk * Env := Eval vm_compute in (exec (serve (QExecute ensure_envelope)) (supervisor, world0)).2.
Definition ensured : HostSupervisor := Eval vm_compute in (exec (serve (QExecute ensure_envelope)) (supervisor, world0)).1.

(** The same envelope once more. *)
Definition replay := Eval vm_compute in submit ensure_envelope (ensured, (ensured_world, [])).
Lemma replay_runs : submit ensure_envelope (ensured, (ensured_world, [])) = replay.
Proof. by vm_compute. Qed.
Definition ensure_record := Eval vm_compute in
  match ensured_world.1.(disk_file) with
  | Some {| records := [Completed _ _ i receipt _ _ _ _] |} => Some (i, receipt)
  | _ => None
  end.

Lemma completed_operation_is_replayed_witness :
  match ensure_record with
  | Some (i, receipt) =>
      (replay.2.2.2 = [] ∨ replay.2.2.2 = [EvLookup (Ok (Some (RCompleted i receipt)))]) ∧
      ∀ x, replay.1 = Ok x → x = MkCommandResult ByReplay receipt.(or_outcome) ∧
                             validate_intent_for_envelope i ensure_envelope = Ok tt
  | None => False
  end.
Proof.
  unfold ensure_record. lazymatch goal with |- context [RCompleted ?i ?receipt] =>
    pose proof (completed_operation_is_replayed ensure_envelope ensured ensured_world ensured_world i receipt) as H end.
  rewrite replay_runs in H. apply H. by vm_compute.
Defined.

(** ** A first install *)

Definition facts : ConnectorLifecycleFacts :=
  {| lifecycle_operation_id := UuidV7 200; platform_target := LinuxAmd64; lf_adapter_kind := Codex;
     lf_release_digest := digest; lf_tenant_id := UuidV7 1; lf_host_id := UuidV7 2; lf_connector_id := connector;
     expiry_millis := 1000; plan_digest := MkOpaque32 (replicate 32 1); handoff_digest := MkOpaque32 (replicate 32 1);
     config_digest := MkOpaque32 (replicate 32 1); trust_digest := MkOpaque32 (replicate 32 1);
     material_digest := MkOpaque32 (replicate 32 1) |}.
Definition install := Eval vm_compute in
  dispatch_v2_lifecycle record_json snapshot_json json_size catalog config V2Prepare facts (UuidV7 200) 1 None true
    (supervisor, world0).

(** a provider whose material has expired *)
Definition expired_materials : BootstrapMaterialProvider Env := {|
  material_prepare _ _ _ := mret MaterialExpiredUnclaimed;
  material_finalize _ _ _ _ := throw Unavailable
|}.
Definition expired_install := Eval vm_compute in
  dispatch_v2_lifecycle record_json snapshot_json json_size catalog config (M := expired_materials)
    V2Prepare facts (UuidV7 200) 1 None true (supervisor, world0).

(** The install is refused and blocks an unrelated command; one whose material expired is
    answered and blocks nothing. *)
Lemma first_install_never_applies_witness :
  (not_applied config facts (UuidV7 200) None working supervisor install.1 install.2.1 install.2.2.1.(disk_file)
     install.2.2.2 ∧
   (∃ e, install.1 = Err e) ∧
   length (opened (UuidV7 2) install.2.2.1.(disk_file)).(records) = 1%nat ∧
   (serve_request (frame 201 1 None (WEnsure (UuidV7 6) Codex digest)) install.2.2).1 = Err (failure (str "OPERATION_PENDING"))) ∧
  not_applied config (M := expired_materials) facts (UuidV7 200) None working supervisor expired_install.1
    expired_install.2.1 expired_install.2.2.1.(disk_file) expired_install.2.2.2 ∧
  (∃ x, expired_install.1 = Ok x) ∧
  (∃ x, (serve_request (frame 201 1 None (WEnsure (UuidV7 6) Codex digest)) expired_install.2.2).1 = Ok x).
Proof.
  split; [split; [|by vm_compute; eauto]|split; [|by vm_compute; eauto]].
  - apply (first_install_never_applies record_json snapshot_json json_size json_size_pos catalog config (Env := Env)
      facts (clean None) working supervisor (clean None) (UuidV7 200) 1 None true
      install.1 install.2.1 install.2.2.1 install.2.2.2); [by intros sn|by vm_compute|done|by intros k x|by vm_compute].
  - apply (first_install_never_applies record_json snapshot_json json_size json_size_pos catalog config (Env := Env)
      (M := expired_materials) facts (clean None) working supervisor (clean None) (UuidV7 200) 1 None true
      expired_install.1 expired_install.2.1 expired_install.2.2.1 expired_install.2.2.2);
      [by intros sn|by vm_compute|done|by intros k x|by vm_compute].
Defined.
End HostDemo.
