(* ===== verification/PublicFeed.v ===== *)
(** * Public feeds

    Models [crates/dtx-public-feed/src/lib.rs]: the signed append-only feed of a
    public channel or agent, its codec, the head that the storage compares and
    swaps, and the cursor of a page.  SHA-256, Ed25519 and unpadded base64url are
    parameters; a [String] is the list of its bytes. *)

From S2P Require Import Prelude Domain CanonicalCbor CborSpec CborFields WirePrimitives WireValues.

Module Feed.
Import PublicIds.

Definition EVENT_DIGEST_DOMAIN : bytes := str "dirextalk.public-feed-event.v1" ++ [0].
Definition EVENT_SIGNATURE_DOMAIN : bytes := str "dirextalk.public-feed-signature.v1" ++ [0].
Definition EVENT_ENTRY_DOMAIN : bytes := str "dirextalk.public-feed-entry.v1" ++ [0].
Definition MAX_BODY_BYTES : Z := 32768.
Definition MAX_ATTACHMENTS : Z := 16.
Definition MAX_MEDIA_TYPE_BYTES : Z := 127.

Inductive PublicFeedError : Type :=
| InvalidCanonical | InvalidWireVersion | InvalidSubject | InvalidPublisher | InvalidSignature
| InvalidSequence | InvalidPayload | Replay | Equivocation | Gap | Tombstoned | InvalidCursor.

(** ** Events *)

Record PublicAttachmentRefV1 : Type := {
  at_digest : Sha256Digest;
  media_type : bytes;
  size_bytes : SafeUint
}.

Definition is_graphic (b : Z) : bool := bool_decide (0x21 ≤ b ≤ 0x7e).

Definition Attachment_new (digest : Sha256Digest) (media : bytes) (size : SafeUint) :
    result PublicFeedError PublicAttachmentRefV1 :=
  reject InvalidPayload
    when (media = [] ∨ len media > MAX_MEDIA_TYPE_BYTES ∨ forallb (λ b, bool_decide (0 ≤ b < 128)) media = false
          ∨ forallb is_graphic media = false ∨ 47 ∉ media ∨ size.(uint_get) = 0);;
  Ok {| at_digest := digest; media_type := media; size_bytes := size |}.

Global Instance Attachment_encode : CanonicalEncode PublicAttachmentRefV1 := λ a,
  Map [(Unsigned 1, to_canonical_value a.(at_digest));
       (Unsigned 2, Text a.(media_type));
       (Unsigned 3, to_canonical_value a.(size_bytes))].

Inductive PublicFeedPayloadV1 : Type :=
| Post (body : bytes) (attachments : list PublicAttachmentRefV1)
| Tombstone.

Definition code (p : PublicFeedPayloadV1) : Z := match p with Post _ _ => 1 | Tombstone => 2 end.
Definition is_tombstone (p : PublicFeedPayloadV1) : bool := match p with Tombstone => true | Post _ _ => false end.

Definition payload_validate (p : PublicFeedPayloadV1) : result PublicFeedError unit :=
  match p with
  | Post body attachments =>
      if decide (body ≠ [] ∧ len body ≤ MAX_BODY_BYTES ∧ len attachments ≤ MAX_ATTACHMENTS)
      then Ok tt else Err InvalidPayload
  | Tombstone => Ok tt
  end.

Definition canonical (p : PublicFeedPayloadV1) : CanonicalValue :=
  match p with
  | Post body attachments =>
      Map [(Unsigned 1, Text body); (Unsigned 2, Array (to_canonical_value <$> attachments))]
  | Tombstone => Map []
  end.

Record UnsignedPublicFeedEventV1 : Type := {
  u_subject_id : PublicSubjectId;
  u_publisher_identity_id : IdentityId;
  u_publisher_key : SigningPublicKey;
  u_sequence : SafeUint;
  u_previous_entry_hash : option Sha256Digest;
  u_published_at : UtcMillis;
  u_payload : PublicFeedPayloadV1
}.

Definition V1_0 : ProtocolVersion := ProtocolVersion_new 1 0.
Definition WIRE : WireVersion := WireVersion_new V1_0 V1_0.
Definition optional_hash_value (h : option Sha256Digest) : CanonicalValue :=
  match h with Some h => to_canonical_value h | None => Null end.

Definition unsigned_fields (u : UnsignedPublicFeedEventV1) : list (CanonicalValue * CanonicalValue) :=
  [ (Unsigned 1, to_canonical_value WIRE);
    (Unsigned 2, Text (subject_to_string u.(u_subject_id)));
    (Unsigned 3, Text (to_string u.(u_publisher_identity_id)));
    (Unsigned 4, to_canonical_value u.(u_publisher_key));
    (Unsigned 5, to_canonical_value u.(u_sequence));
    (Unsigned 6, optional_hash_value u.(u_previous_entry_hash));
    (Unsigned 7, to_canonical_value u.(u_published_at));
    (Unsigned 8, Unsigned (code u.(u_payload)));
    (Unsigned 9, canonical u.(u_payload)) ].
Global Instance Unsigned_encode : CanonicalEncode UnsignedPublicFeedEventV1 := λ u, Map (unsigned_fields u).

Record SignedPublicFeedEventV1 : Type := {
  ev_unsigned : UnsignedPublicFeedEventV1;
  ev_signature : Ed25519Signature
}.
Definition subject_id (e : SignedPublicFeedEventV1) := e.(ev_unsigned).(u_subject_id).
Definition publisher_identity_id (e : SignedPublicFeedEventV1) := e.(ev_unsigned).(u_publisher_identity_id).
Definition publisher_key (e : SignedPublicFeedEventV1) := e.(ev_unsigned).(u_publisher_key).
Definition sequence (e : SignedPublicFeedEventV1) := e.(ev_unsigned).(u_sequence).
Definition previous_entry_hash (e : SignedPublicFeedEventV1) := e.(ev_unsigned).(u_previous_entry_hash).
Definition payload (e : SignedPublicFeedEventV1) := e.(ev_unsigned).(u_payload).

Global Instance Signed_encode : CanonicalEncode SignedPublicFeedEventV1 := λ e,
  Map (unsigned_fields e.(ev_unsigned) ++ [(Unsigned 10, to_canonical_value e.(ev_signature))]).

Definition to_deterministic_cbor (e : SignedPublicFeedEventV1) : result PublicFeedError bytes :=
  map_err (λ _, InvalidCanonical) (encode_deterministic_cbor (to_canonical_value e)).

(** ** Decoders *)

Definition exact_map (value : CanonicalValue) (n : nat) :
    result PublicFeedError (list (CanonicalValue * CanonicalValue)) :=
  match value with
  | Map v => if decide (length v = n) then Ok v else Err InvalidCanonical
  | _ => Err InvalidCanonical
  end.

Fixpoint field (fields : list (CanonicalValue * CanonicalValue)) (key : Z) : result PublicFeedError CanonicalValue :=
  match fields with
  | [] => Err InvalidCanonical
  | (Unsigned k, v) :: fields => if decide (k = key) then Ok v else field fields key
  | _ :: fields => field fields key
  end.

Definition unsigned (v : CanonicalValue) : result PublicFeedError Z :=
  match v with Unsigned v => Ok v | _ => Err InvalidCanonical end.
Definition signed_int (v : CanonicalValue) : result PublicFeedError Z :=
  match v with
  | Unsigned v => ok_or (checked i64_min i64_max v) InvalidCanonical
  | Negative v => Ok v
  | _ => Err InvalidCanonical
  end.
Definition text (v : CanonicalValue) : result PublicFeedError bytes :=
  match v with Text v => Ok v | _ => Err InvalidCanonical end.
Definition bytes_of (n : nat) (v : CanonicalValue) : result PublicFeedError bytes :=
  match v with
  | Bytes v => if decide (length v = n) then Ok v else Err InvalidCanonical
  | _ => Err InvalidCanonical
  end.
Definition bytes32 : CanonicalValue → result PublicFeedError bytes := bytes_of 32.
Definition bytes64 : CanonicalValue → result PublicFeedError bytes := bytes_of 64.
Definition optional_digest (v : CanonicalValue) : result PublicFeedError (option Sha256Digest) :=
  match v with
  | Null => Ok None
  | _ => b ← bytes32 v; Ok (Some (from_bytes b))
  end.

Definition decode_wire (v : CanonicalValue) : result PublicFeedError unit :=
  f ← exact_map v 2;
  try_fold (λ _ k,
    value ← field f k;
    version ← exact_map value 2;
    major ← field version 1 ≫= unsigned;
    reject InvalidWireVersion when (major ≠ 1);;
    minor ← field version 2 ≫= unsigned;
    reject InvalidWireVersion when (minor ≠ 0)) [1; 2] tt.

Definition decode_attachment (value : CanonicalValue) : result PublicFeedError PublicAttachmentRefV1 :=
  f ← exact_map value 3;
  digest ← field f 1 ≫= bytes32;
  media ← field f 2 ≫= text;
  size ← field f 3 ≫= unsigned;
  size ← map_err (λ _, InvalidPayload) (SafeUint_new size);
  Attachment_new (from_bytes digest) media size.

Definition decode_payload (code : Z) (value : CanonicalValue) : result PublicFeedError PublicFeedPayloadV1 :=
  if decide (code = 1) then
    fields ← exact_map value 2;
    body ← field fields 1 ≫= text;
    attachments ← field fields 2;
    attachments ← match attachments with
                  | Array v =>
                      if decide (len v ≤ MAX_ATTACHMENTS)
                      then try_fold (λ acc v, a ← decode_attachment v; Ok (acc ++ [a])) v []
                      else Err InvalidPayload
                  | _ => Err InvalidPayload
                  end;
    let payload := Post body attachments in
    payload_validate payload;;
    Ok payload
  else if decide (code = 2) then
    match exact_map value 0 with Ok _ => Ok Tombstone | Err _ => Err InvalidPayload end
  else Err InvalidPayload.

(** ** The head *)

Record PublicFeedHeadV1 : Type := {
  h_subject_id : PublicSubjectId;
  h_publisher_id : IdentityId;
  h_publisher_key : SigningPublicKey;
  h_sequence : SafeUint;
  h_hash : Sha256Digest;
  h_tombstoned : bool
}.

(** ** The cursor *)

Record PublicFeedCursorV1 : Type := {
  c_subject_id : PublicSubjectId;
  c_after_sequence : SafeUint;
  c_snapshot_sequence : SafeUint;
  c_snapshot_hash : Sha256Digest
}.

Definition is_identity (s : PublicSubjectId) : bool := match s with Identity _ => true | _ => false end.

Definition Cursor_new (subject : PublicSubjectId) (after snapshot : SafeUint) (hash : Sha256Digest) :
    result PublicFeedError PublicFeedCursorV1 :=
  reject InvalidCursor when (after.(uint_get) > snapshot.(uint_get) ∨ is_identity subject = true);;
  Ok {| c_subject_id := subject; c_after_sequence := after; c_snapshot_sequence := snapshot; c_snapshot_hash := hash |}.

Global Instance Cursor_encode : CanonicalEncode PublicFeedCursorV1 := λ c,
  Map [(Unsigned 1, Text (subject_to_string c.(c_subject_id)));
       (Unsigned 2, to_canonical_value c.(c_after_sequence));
       (Unsigned 3, to_canonical_value c.(c_snapshot_sequence));
       (Unsigned 4, to_canonical_value c.(c_snapshot_hash))].

(** [Base64UrlUnpadded::encode_string] and [decode_vec] *)
Class Base64Url : Type := {
  b64_encode : bytes → bytes;
  b64_decode : bytes → option bytes
}.
(** Decoding inverts encoding and yields bytes. *)
Class Base64Laws `{Base64Url} : Prop := {
  b64_decode_encode b : Forall is_byte b → b64_decode (b64_encode b) = Some b;
  b64_decode_bytes s b : b64_decode s = Some b → Forall is_byte b
}.

Definition cursor_encode `{Base64Url} (c : PublicFeedCursorV1) : result PublicFeedError bytes :=
  b ← map_err (λ _, InvalidCursor) (encode_deterministic_cbor (to_canonical_value c));
  Ok (b64_encode b).

Definition cursor_decode `{Base64Url} (value : bytes) : result PublicFeedError PublicFeedCursorV1 :=
  b ← ok_or (b64_decode value) InvalidCursor;
  root ← map_err (λ _, InvalidCursor) (decode_deterministic_cbor b);
  fields ← exact_map root 4;
  subject ← field fields 1 ≫= text;
  subject ← map_err (λ _, InvalidCursor) (subject_from_str subject);
  after ← field fields 2 ≫= unsigned;
  after ← map_err (λ _, InvalidCursor) (SafeUint_new after);
  snapshot ← field fields 3 ≫= unsigned;
  snapshot ← map_err (λ _, InvalidCursor) (SafeUint_new snapshot);
  hash ← field fields 4 ≫= bytes32;
  Cursor_new subject after snapshot (from_bytes hash).

Section feed.
Context `{Ed : Ed25519} `{Sha : Sha256}.

Definition Unsigned_new (subject : PublicSubjectId) (publisher : IdentityId) (key : SigningPublicKey)
    (sequence : SafeUint) (previous : option Sha256Digest) (published_at : UtcMillis) (payload : PublicFeedPayloadV1) :
    result PublicFeedError UnsignedPublicFeedEventV1 :=
  reject InvalidSubject when (is_identity subject = true);;
  reject InvalidSequence
    when (sequence.(uint_get) = 0 ∨ ¬ (sequence.(uint_get) = 1 ↔ previous = None));;
  reject InvalidPublisher when (verify_subject_key sha256 publisher key.(key_bytes) = false);;
  payload_validate payload;;
  Ok {| u_subject_id := subject; u_publisher_identity_id := publisher; u_publisher_key := key;
        u_sequence := sequence; u_previous_entry_hash := previous; u_published_at := published_at;
        u_payload := payload |}.

Definition signature_input (u : UnsignedPublicFeedEventV1) : result PublicFeedError bytes :=
  b ← map_err (λ _, InvalidCanonical) (encode_deterministic_cbor (to_canonical_value u));
  Ok (EVENT_SIGNATURE_DOMAIN ++ as_bytes (hash_domain sha256 EVENT_DIGEST_DOMAIN b)).

Definition verify (e : SignedPublicFeedEventV1) : result PublicFeedError unit :=
  payload_validate (payload e);;
  key ← ok_or (vk_from_bytes (publisher_key e).(key_bytes)) InvalidSignature;
  input ← signature_input e.(ev_unsigned);
  if verify_strict key input e.(ev_signature).(sig_bytes) then Ok tt else Err InvalidSignature.

Definition signed (u : UnsignedPublicFeedEventV1) (signature : Ed25519Signature) :
    result PublicFeedError SignedPublicFeedEventV1 :=
  let value := {| ev_unsigned := u; ev_signature := signature |} in
  verify value;;
  Ok value.

Definition entry_hash (e : SignedPublicFeedEventV1) : result PublicFeedError Sha256Digest :=
  b ← to_deterministic_cbor e;
  Ok (hash_domain sha256 EVENT_ENTRY_DOMAIN b).

Definition decode_and_verify (b : bytes) : result PublicFeedError SignedPublicFeedEventV1 :=
  root ← map_err (λ _, InvalidCanonical) (decode_deterministic_cbor b);
  fields ← exact_map root 10;
  field fields 1 ≫= decode_wire;;
  subject ← field fields 2 ≫= text;
  subject ← map_err (λ _, InvalidSubject) (subject_from_str subject);
  publisher ← field fields 3 ≫= text;
  publisher ← map_err (λ _, InvalidPublisher) (from_str KIdentity publisher);
  key ← field fields 4 ≫= bytes32;
  key ← map_err (λ _, InvalidPublisher) (SigningPublicKey_try_from key);
  sequence ← field fields 5 ≫= unsigned;
  sequence ← map_err (λ _, InvalidSequence) (SafeUint_new sequence);
  previous ← field fields 6 ≫= optional_digest;
  published_at ← field fields 7 ≫= signed_int;
  published_at ← map_err (λ _, InvalidPayload) (UtcMillis_new published_at);
  code ← field fields 8 ≫= unsigned;
  payload ← field fields 9 ≫= decode_payload code;
  signature ← field fields 10 ≫= bytes64;
  u ← Unsigned_new subject publisher key sequence previous published_at payload;
  value ← signed u (MkSignature signature);
  encoded ← to_deterministic_cbor value;
  reject InvalidCanonical when (encoded ≠ b);;
  Ok value.

Definition bootstrap (e : SignedPublicFeedEventV1) : result PublicFeedError PublicFeedHeadV1 :=
  verify e;;
  reject InvalidSequence when ((sequence e).(uint_get) ≠ 1 ∨ is_Some (previous_entry_hash e));;
  hash ← entry_hash e;
  Ok {| h_subject_id := subject_id e; h_publisher_id := publisher_identity_id e; h_publisher_key := publisher_key e;
        h_sequence := sequence e; h_hash := hash; h_tombstoned := is_tombstone (payload e) |}.

Definition append (e : SignedPublicFeedEventV1) : ST PublicFeedHeadV1 PublicFeedError unit :=
  lift (verify e);;
  hash ← lift (entry_hash e);
  self ← get;
  lift (reject InvalidPublisher
    when (subject_id e ≠ self.(h_subject_id) ∨ publisher_identity_id e ≠ self.(h_publisher_id)
          ∨ publisher_key e ≠ self.(h_publisher_key)));;
  lift (if decide (sequence e = self.(h_sequence)) then Err (if decide (hash = self.(h_hash)) then Replay else Equivocation)
        else Ok tt);;
  lift (reject Tombstoned when (self.(h_tombstoned) = true));;
  lift (if decide ((sequence e).(uint_get) ≠ self.(h_sequence).(uint_get) + 1)
        then Err (if decide ((sequence e).(uint_get) < self.(h_sequence).(uint_get)) then Equivocation else Gap)
        else Ok tt);;
  lift (reject Equivocation when (previous_entry_hash e ≠ Some self.(h_hash)));;
  modify (λ self, {| h_subject_id := self.(h_subject_id); h_publisher_id := self.(h_publisher_id);
                     h_publisher_key := self.(h_publisher_key); h_sequence := sequence e; h_hash := hash;
                     h_tombstoned := is_tombstone (payload e) |}).
End feed.
End Feed.
