(* ===== verification/PublicFeedProps.v ===== *)
(** * Public feeds: codec and histories

    The event decoder accepts exactly the encodings of verified events, a cursor
    survives its text form, and the head of a feed stands for its whole history. *)

From S2P Require Import Prelude Domain CanonicalCbor CborSpec CborEncode CborDecode CborFields WirePrimitives WireValues IdentityLogCodec PublicFeed.

Module FeedProps.
Import PublicIds Feed.

#[local] Opaque encode_deterministic_cbor decode_deterministic_cbor.

(** ** Fields *)

Lemma field_eq k v fs : field ((Unsigned k, v) :: fs) k = Ok v.
Proof. cbn. by rewrite decide_True. Qed.
Lemma field_ne k k' v fs : k ≠ k' → field ((Unsigned k, v) :: fs) k' = field fs k'.
Proof. intros ?. cbn. by rewrite decide_False. Qed.

Lemma field_elem fs k v : field fs k = Ok v → (Unsigned k, v) ∈ fs.
Proof.
  induction fs as [|[key w] fs IH]; [done|]. intros H. destruct key; cbn in H; try (right; by apply IH).
  case_decide; [|right; by apply IH]. injection H as ->. subst. by left.
Qed.

Lemma field_parsed fs k v : parsed_ok (Map fs) → field fs k = Ok v → parsed_ok v.
Proof.
  intros Hm Hf%field_elem. inversion_clear Hm as [| | | | |? Hall| |]. rewrite Forall_forall in Hall. by apply (Hall _ Hf).
Qed.

Lemma exact_map_Ok v n fs : exact_map v n = Ok fs → v = Map fs ∧ length fs = n.
Proof. destruct v; try done. cbn. case_decide; [|done]. by intros [= ->]. Qed.
Lemma exact_map_numbered vs n : length vs = n → exact_map (Map (number_from 1 vs)) n = Ok (number_from 1 vs).
Proof. intros <-. cbn. by rewrite decide_True by apply length_number_from. Qed.

Lemma bytes_of_Ok n v b : parsed_ok v → bytes_of n v = Ok b → digits 256 b ∧ length b = n.
Proof. intros Hv H. destruct v; try done. cbn in H. case_decide; [|done]. injection H as ->. by inversion Hv. Qed.
Lemma unsigned_parsed v n : parsed_ok v → unsigned v = Ok n → 0 ≤ n.
Proof. intros Hv H. destruct v; try done. injection H as ->. inversion Hv. lia. Qed.
Lemma text_parsed v s : parsed_ok v → text v = Ok s → Forall is_byte s ∧ utf8_valid s = true.
Proof. intros Hv H. destruct v; try done. injection H as ->. by inversion Hv. Qed.

(** Reads the numbered fields of a concrete map. *)
Ltac read_fields :=
  repeat (cbn [number_from app];
          repeat first [rewrite field_eq | rewrite field_ne by done]; cbn [mbind result_bind]).

(** Opens a map that has the values [vs], and reads its fields. *)
Ltac open_map vs :=
  match goal with |- context [exact_map ?m ?n] =>
    change (exact_map m n) with (exact_map (Map (number_from 1 vs)) n); rewrite (exact_map_numbered vs n) by done
  end; read_fields.

(** Takes the reads of a decoder that succeeded apart. *)
Ltac open_reads H :=
  repeat match type of H with
  | (?m ≫= _) = Ok _ => let H' := fresh "Hr" in apply result_bind_Ok in H as (? & H' & H)
  end.

(** ** What the Rust types contain *)

Definition attachment_valid (a : PublicAttachmentRefV1) : Prop :=
  digest_valid a.(at_digest) ∧ uint_valid a.(size_bytes) ∧
  Attachment_new a.(at_digest) a.(media_type) a.(size_bytes) = Ok a.

Definition payload_valid (p : PublicFeedPayloadV1) : Prop :=
  payload_validate p = Ok tt ∧
  match p with
  | Post body attachments => (Forall is_byte body ∧ utf8_valid body = true) ∧ Forall attachment_valid attachments
  | Tombstone => True
  end.

Definition optional_valid (d : option Sha256Digest) : Prop := match d with Some d => digest_valid d | None => True end.

Lemma attachment_media a : attachment_valid a → ascii_text a.(media_type) ∧ len a.(media_type) ≤ 127.
Proof.
  intros (_ & _ & H). unfold Attachment_new in H. apply result_bind_Ok in H as (u & Hr & _). apply reject_if_Ok in Hr.
  apply Decidable.not_or in Hr as [_ Hr]. apply Decidable.not_or in Hr as [Hl Hr]. apply Decidable.not_or in Hr as [Ha _].
  unfold MAX_MEDIA_TYPE_BYTES in Hl. split; [|lia]. apply not_false_is_true in Ha. apply Forall_forall. intros c Hc.
  rewrite forallb_forall in Ha. specialize (Ha c ltac:(by apply list_elem_of_In)). by apply bool_decide_eq_true in Ha.
Qed.

Lemma compact_utf8 b n : Forall is_byte b → utf8_valid b = true → len b ≤ n → compact 1 (9 + n) 1 (Text b).
Proof.
  intros Hb Hu Hn. apply compact_leaf; [by constructor|]. intros levels.
  eexists. split; [done|]. simpl. split_and!; [done| |done].
  rewrite len_app. pose proof (head_width 3 (len b)). lia.
Qed.

Lemma attachment_compact a : attachment_valid a → compact 2 286 7 (to_canonical_value a).
Proof.
  intros Ha. destruct (attachment_media a Ha) as [Hm Hl]. destruct Ha as (Hd & Hs & _).
  apply (compact_sized 0 [(73, 1); (136, 1); (73, 1)]
    [to_canonical_value a.(at_digest); Text a.(media_type); to_canonical_value a.(size_bytes)]); [done|].
  repeat apply Forall2_cons_2; try apply Forall2_nil_2; cbn [fst snd].
  - by apply digest_compact.
  - by apply (compact_text _ 127).
  - by apply uint_compact.
Qed.

Lemma feed_payload_compact p : payload_valid p → compact 4 37366 117 (canonical p).
Proof.
  intros [Hv Hp]. destruct p as [body ats|]; cbn in Hv.
  - destruct Hp as [[Hb Hu] Ha]. case_decide as Hc; [|done]. destruct Hc as (_ & Hl & Hn). unfold MAX_BODY_BYTES, MAX_ATTACHMENTS in *.
    assert (compact 3 (9 + 16 * 286) (1 + 16 * 7) (Array (to_canonical_value <$> ats))) as Harr.
    { apply compact_array; [lia|lia|unfold len in *; by rewrite length_fmap|unfold MAX_CONTAINER_ENTRIES; lia|].
      apply Forall_fmap. eapply Forall_impl; [done|]. intros a. apply attachment_compact. }
    eapply compact_weaken; [| | |apply (compact_sized 2 [(9 + 32768, 1); (9 + 16 * 286, 113)]
      [Text body; Array (to_canonical_value <$> ats)]); [done|]]; [lia|cbn; lia|cbn; lia|].
    repeat apply Forall2_cons_2; try apply Forall2_nil_2; cbn [fst snd].
    + eapply compact_weaken; [| | |by apply compact_utf8]; lia.
    + done.
  - eapply compact_weaken; [| | |apply (compact_sized 0 [] [])]; cbn; try lia. done. constructor.
Qed.

(** ** Decoding what was encoded *)

Lemma decode_wire_complete : decode_wire (to_canonical_value WIRE) = Ok tt.
Proof. reflexivity. Qed.

Lemma bytes_of_encode n b : length b = n → bytes_of n (Bytes b) = Ok b.
Proof. intros <-. cbn. by rewrite decide_True. Qed.

Lemma signed_int_encode t : utc_valid t → signed_int (to_canonical_value t) = Ok t.(utc_get).
Proof.
  unfold utc_valid, MIN_UTC_MILLIS, MAX_UTC_MILLIS. intros Ht. unfold to_canonical_value, UtcMillis_encode.
  case_decide; cbn; [|done]. unfold checked, i64_min, i64_max. by rewrite decide_True by lia.
Qed.

Lemma optional_digest_encode d : optional_valid d → optional_digest (optional_hash_value d) = Ok d.
Proof.
  destruct d as [[b]|]; [|done]. intros [_ Hl]. cbn [optional_hash_value]. unfold to_canonical_value, Sha256Digest_encode.
  cbn [optional_digest as_bytes] in *. unfold bytes32. by rewrite bytes_of_encode.
Qed.

Lemma uint_encode {E} (err : E) n : uint_valid n → map_err (λ _, err) (SafeUint_new n.(uint_get)) = Ok n.
Proof. intros Hn. rewrite (proj2 (SafeUint_new_Ok n.(uint_get) n (proj1 Hn))); done. Qed.

Lemma decode_attachment_complete a : attachment_valid a → decode_attachment (to_canonical_value a) = Ok a.
Proof.
  intros ([_ Hl] & Hs & Hn). unfold decode_attachment, to_canonical_value, Attachment_encode.
  open_map [to_canonical_value a.(at_digest); Text a.(media_type); to_canonical_value a.(size_bytes)]. unfold to_canonical_value, Sha256Digest_encode, SafeUint_encode, bytes32.
  rewrite bytes_of_encode by done. cbn [mbind result_bind text unsigned]. rewrite uint_encode by done.
  cbn [mbind result_bind]. by destruct a as [[]].
Qed.

Lemma attachments_complete ats acc :
  Forall attachment_valid ats →
  try_fold (λ acc v, a ← decode_attachment v; Ok (acc ++ [a])) (to_canonical_value <$> ats) acc = Ok (acc ++ ats).
Proof.
  intros H. revert acc. induction H as [|a ats Ha _ IH]; intros acc; cbn [fmap list_fmap try_fold].
  - by rewrite app_nil_r.
  - rewrite decode_attachment_complete by done. cbn [mbind result_bind]. rewrite IH. by rewrite <-(assoc_L (++)).
Qed.

Lemma feed_payload_complete p : payload_valid p → decode_payload (code p) (canonical p) = Ok p.
Proof.
  intros [Hv Hp]. destruct p as [body ats|]; [|done]. destruct Hp as [_ Ha]. unfold decode_payload. cbn [code canonical].
  rewrite decide_True by done. open_map [Text body; Array (to_canonical_value <$> ats)]. cbn [text]. cbn [mbind result_bind]. rewrite decide_True.
  - rewrite attachments_complete by done. cbn [mbind result_bind app]. by rewrite Hv.
  - cbn in Hv. case_decide as Hc; [|done]. unfold len in *. rewrite length_fmap. lia.
Qed.

(** ** What a decoder returns is valid *)

Section reads.
Context fs (Hfs : parsed_ok (Map fs)).

Lemma read_ok {A} (f : CanonicalValue → result PublicFeedError A) k a (P : A → Prop) :
  (∀ v, parsed_ok v → f v = Ok a → P a) → field fs k ≫= f = Ok a → P a.
Proof using Hfs. intros HP (v & Hv & Ha)%result_bind_Ok. eauto using field_parsed. Qed.

Lemma read_digest k b : field fs k ≫= bytes32 = Ok b → digest_valid (from_bytes b).
Proof using Hfs. apply (read_ok _ _ _ (λ b, digest_valid (from_bytes b))). intros v. apply bytes_of_Ok. Qed.
Lemma read_text k s : field fs k ≫= text = Ok s → Forall is_byte s ∧ utf8_valid s = true.
Proof using Hfs. apply (read_ok _ _ _ (λ s, Forall is_byte s ∧ utf8_valid s = true)). intros v. apply text_parsed. Qed.
Lemma read_uint {E} (err : E) k n u :
  field fs k ≫= unsigned = Ok n → map_err (λ _, err) (SafeUint_new n) = Ok u → uint_valid u.
Proof using Hfs.
  intros Hn Hu%map_err_Ok. apply (read_ok unsigned k n (λ n, 0 ≤ n)) in Hn; [|intros v; apply unsigned_parsed].
  by apply SafeUint_new_Ok in Hu as [? _].
Qed.
Lemma read_optional k d : field fs k ≫= optional_digest = Ok d → optional_valid d.
Proof using Hfs.
  apply read_ok. intros v Hv H. destruct v; cbn [optional_digest] in H; try discriminate H; [|by injection H as <-].
  apply result_bind_Ok in H as (w & Hb & [= <-]). by eapply bytes_of_Ok.
Qed.
End reads.

Lemma Attachment_new_Ok d m n a : Attachment_new d m n = Ok a → a = {| at_digest := d; media_type := m; size_bytes := n |}.
Proof. unfold Attachment_new. intros (? & _ & H)%result_bind_Ok. by injection H. Qed.

Lemma decode_attachment_sound v a : parsed_ok v → decode_attachment v = Ok a → attachment_valid a.
Proof.
  intros Hv H. unfold decode_attachment in H. apply result_bind_Ok in H as (fs & Hf & H). apply exact_map_Ok in Hf as [-> _].
  open_reads H. pose proof (Attachment_new_Ok _ _ _ _ H) as ->. split_and!; cbn [at_digest size_bytes media_type]; [| |done].
  - by eapply read_digest.
  - by eapply read_uint.
Qed.

Lemma attachments_sound vs acc ats :
  Forall parsed_ok vs → Forall attachment_valid acc →
  try_fold (λ acc v, a ← decode_attachment v; Ok (acc ++ [a])) vs acc = Ok ats → Forall attachment_valid ats.
Proof.
  intros Hvs. revert acc. induction Hvs as [|v vs Hv _ IH]; intros acc Hacc H; cbn [try_fold] in H; [by injection H as <-|].
  destruct (decode_attachment v) as [a|] eqn:Ha; [|done]. cbn [mbind result_bind] in H. eapply IH; [|done].
  apply Forall_app. split; [done|]. apply Forall_singleton. by eapply decode_attachment_sound.
Qed.

Lemma feed_payload_sound n v p : parsed_ok v → decode_payload n v = Ok p → payload_valid p.
Proof.
  intros Hv H. unfold decode_payload in H. case_decide; [|case_decide; [|done]].
  2: { by destruct (exact_map v 0); [injection H as <-|]. }
  apply result_bind_Ok in H as (fs & Hf & H). apply exact_map_Ok in Hf as [-> _].
  apply result_bind_Ok in H as (body & Hb & H). apply result_bind_Ok in H as (w & Hw & H).
  apply result_bind_Ok in H as (ats & Ha & H). apply result_bind_Ok in H as ([] & Hval & [= <-]). split; [done|].
  split; [by eapply read_text|]. pose proof (field_parsed _ _ _ Hv Hw) as Hp. destruct w as [| | | |vs| | |]; try done.
  case_decide; [|done]. eapply attachments_sound; [by inversion Hp| |done]. constructor.
Qed.

(** ** Events *)

Section events.
Context `{Ed : Ed25519} `{Sha : Sha256}.

(** The values of the Rust type: its fields are of their types and [new] built it. *)
Record feed_event_valid (e : SignedPublicFeedEventV1) : Prop := {
  fv_subject : subject_valid (subject_id e);
  fv_publisher : valid (publisher_identity_id e);
  fv_key : key_valid (publisher_key e);
  fv_sequence : uint_valid (sequence e);
  fv_previous : optional_valid (previous_entry_hash e);
  fv_published : utc_valid e.(ev_unsigned).(u_published_at);
  fv_payload : payload_valid (payload e);
  fv_signature : signature_valid e.(ev_signature);
  fv_new : Unsigned_new (subject_id e) (publisher_identity_id e) (publisher_key e) (sequence e) (previous_entry_hash e)
    e.(ev_unsigned).(u_published_at) (payload e) = Ok e.(ev_unsigned)
}.

Definition feed_event_parts (e : SignedPublicFeedEventV1) : list CanonicalValue :=
  [ to_canonical_value WIRE; Text (subject_to_string (subject_id e)); Text (to_string (publisher_identity_id e));
    to_canonical_value (publisher_key e); to_canonical_value (sequence e); optional_hash_value (previous_entry_hash e);
    to_canonical_value e.(ev_unsigned).(u_published_at); Unsigned (code (payload e)); canonical (payload e);
    to_canonical_value e.(ev_signature) ].

Lemma feed_event_value e : to_canonical_value e = Map (number_from 1 (feed_event_parts e)).
Proof. reflexivity. Qed.

Lemma subject_compact s : subject_valid s → compact 1 73 1 (Text (subject_to_string s)).
Proof. destruct s; apply public_text_compact. Qed.

Lemma optional_compact d : optional_valid d → compact 1 73 1 (optional_hash_value d).
Proof. destruct d as [d|]; [apply digest_compact|]. intros _. eapply compact_weaken, compact_null; lia. Qed.

Lemma unsigned_fields_compact e :
  feed_event_valid e → Forall2 (λ si v, compact 4 si.1 si.2 v)
    [(45, 13); (73, 1); (73, 1); (73, 1); (73, 1); (73, 1); (73, 1); (73, 1); (37366, 117); (73, 1)] (feed_event_parts e).
Proof.
  intros [Hs Hp Hk Hn Hd Ht Hpl Hsig _]. unfold feed_event_parts.
  repeat apply Forall2_cons_2; try apply Forall2_nil_2; cbn [fst snd];
    (eapply compact_weaken; [| | |first [by apply feed_payload_compact | by apply subject_compact | by apply public_text_compact
      | by apply optional_compact | by apply key_compact | by apply uint_compact | by apply utc_compact | by apply signature_compact
      | apply wire_compact | apply compact_unsigned]]; try lia).
  - unfold wire_valid, version_valid, u16_max. cbn. lia.
  - destruct (payload e); unfold u64_max; cbn; lia.
Qed.

(** An event takes at most 38007 bytes. *)
Lemma feed_event_encodes e :
  feed_event_valid e →
  ∃ b, to_deterministic_cbor e = Ok b ∧ len b ≤ 38007 ∧ decode_deterministic_cbor b = Ok (to_canonical_value e) ∧
    entry_hash e = Ok (hash_domain sha256 EVENT_ENTRY_DOMAIN b).
Proof.
  intros Hv. pose proof (compact_sized 3 _ (feed_event_parts e) ltac:(by cbn) (unsigned_fields_compact e Hv)) as Hc.
  destruct (compact_encodes _ _ _ _ Hc) as (b & Hb & Hl & Hd).
  1-3: unfold MAX_DEPTH, MAX_ENCODED_BYTES, MAX_TOTAL_ITEMS; cbn; lia.
  exists b. unfold entry_hash, to_deterministic_cbor. rewrite feed_event_value, Hb. split_and!; [done| |done|done].
  cbn in Hl. lia.
Qed.

Lemma key_read (k : SigningPublicKey) : key_valid k → bytes32 (to_canonical_value k) = Ok k.(key_bytes).
Proof. intros (_ & Hl & _). by apply bytes_of_encode. Qed.
Lemma signature_read (s : Ed25519Signature) : signature_valid s → bytes64 (to_canonical_value s) = Ok s.(sig_bytes).
Proof. intros (_ & Hl). by apply bytes_of_encode. Qed.
Lemma uint_read (n : SafeUint) : unsigned (to_canonical_value n) = Ok n.(uint_get).
Proof. reflexivity. Qed.

Lemma feed_decode_complete e b :
  feed_event_valid e → verify e = Ok tt → to_deterministic_cbor e = Ok b → decode_and_verify b = Ok e.
Proof.
  intros Hv Hver Henc. destruct (feed_event_encodes e Hv) as (b' & Hb' & _ & Hd & _).
  rewrite Henc in Hb'. injection Hb' as <-. destruct Hv as [Hs Hp Hk Hn Hpr Ht Hpl Hsig Hnew].
  unfold decode_and_verify. rewrite Hd. cbn [map_err]. cbn [mbind result_bind]. open_map (feed_event_parts e).
  unfold feed_event_parts. read_fields. rewrite decode_wire_complete. read_fields. cbn [text]. cbn [mbind result_bind].
  rewrite (proj2 (public_subject_text_canonical _ _) (conj Hs eq_refl)). cbn [map_err]. read_fields.
  rewrite from_str_to_string by done. cbn [map_err]. read_fields.
  rewrite key_read by done. read_fields.
  rewrite (proj2 (try_from_valid _ _ (proj1 Hk) (proj1 (proj2 Hk))) (conj Hk eq_refl)). cbn [map_err]. read_fields.
  rewrite uint_read. read_fields. rewrite uint_encode by done. read_fields.
  rewrite optional_digest_encode by done. read_fields. rewrite signed_int_encode by done. read_fields.
  rewrite (proj2 (UtcMillis_new_Ok _ _) (conj Ht eq_refl)). cbn [map_err]. read_fields. cbn [unsigned]. read_fields.
  rewrite feed_payload_complete by done. read_fields.
  rewrite signature_read by done. read_fields.
  rewrite Hnew. cbn [mbind result_bind]. unfold signed.
  replace {| ev_unsigned := _; ev_signature := _ |} with e by (by destruct e as [? []]).
  rewrite Hver. cbn [mbind result_bind]. rewrite Henc. cbn [mbind result_bind]. unfold reject_if.
  by rewrite decide_False by naive_solver.
Qed.

Lemma Unsigned_new_fields s p k n h t pl u :
  Unsigned_new s p k n h t pl = Ok u →
  u = {| u_subject_id := s; u_publisher_identity_id := p; u_publisher_key := k; u_sequence := n;
         u_previous_entry_hash := h; u_published_at := t; u_payload := pl |}.
Proof. unfold Unsigned_new. intros H. open_reads H. by injection H. Qed.

Lemma feed_decode_sound b e :
  Forall is_byte b → decode_and_verify b = Ok e →
  feed_event_valid e ∧ verify e = Ok tt ∧ to_deterministic_cbor e = Ok b.
Proof.
  intros Hb H. unfold decode_and_verify in H.
  apply result_bind_Ok in H as (root & Hroot & H). apply map_err_Ok, decoded_parsed_ok in Hroot; [|done].
  apply result_bind_Ok in H as (fs & Hf & H). apply exact_map_Ok in Hf as [-> _]. open_reads H. injection H as <-.
  match goal with Hr : reject_if _ _ = Ok _ |- _ => apply reject_if_Ok, dec_stable in Hr as <- end.
  match goal with Hr : signed _ _ = Ok _ |- _ =>
    unfold signed in Hr; apply result_bind_Ok in Hr as ([] & Hver & Hr); injection Hr as <- end.
  split; [|split; [exact Hver|assumption]].
  match goal with Hr : Unsigned_new _ _ _ _ _ _ _ = Ok _ |- _ => pose proof (Unsigned_new_fields _ _ _ _ _ _ _ _ Hr) as ->; rename Hr into Hnew end.
  split; cbn [subject_id publisher_identity_id publisher_key sequence previous_entry_hash payload ev_unsigned ev_signature
    u_subject_id u_publisher_identity_id u_publisher_key u_sequence u_previous_entry_hash u_published_at u_payload].
  - match goal with Hs : map_err _ (subject_from_str _) = Ok _ |- _ => by apply map_err_Ok, public_subject_text_canonical in Hs as [? _] end.
  - match goal with Hs : map_err _ (from_str _ _) = Ok _ |- _ => by apply map_err_Ok, from_str_Ok in Hs as [? _] end.
  - match goal with Hk : map_err _ (SigningPublicKey_try_from _) = Ok _, Hs : field fs 4 ≫= _ = Ok _ |- _ =>
      apply (read_digest fs Hroot) in Hs as [? ?]; by apply map_err_Ok, try_from_valid in Hk as [? _] end.
  - match goal with Hn : field fs 5 ≫= _ = Ok _, Hu : map_err _ (SafeUint_new _) = Ok _ |- _ =>
      exact (read_uint fs Hroot _ _ _ _ Hn Hu) end.
  - match goal with Hp : field fs 6 ≫= _ = Ok _ |- _ => exact (read_optional fs Hroot _ _ Hp) end.
  - match goal with Ht : map_err _ (UtcMillis_new _) = Ok _ |- _ => by apply map_err_Ok, UtcMillis_new_Ok in Ht as [? _] end.
  - match goal with Hp : field fs 9 ≫= _ = Ok _ |- _ => revert Hp; apply (read_ok fs Hroot); intros v; apply feed_payload_sound end.
  - match goal with Hs : field fs 10 ≫= _ = Ok ?s |- _ =>
      revert Hs; apply (read_ok fs Hroot _ _ _ (λ s, signature_valid (MkSignature s))); intros v; apply bytes_of_Ok end.
  - exact Hnew.
Qed.

Lemma feed_bytes_inj e e' b :
  feed_event_valid e → feed_event_valid e' → verify e = Ok tt → verify e' = Ok tt →
  to_deterministic_cbor e = Ok b → to_deterministic_cbor e' = Ok b → e = e'.
Proof.
  intros Hv Hv' Hver Hver' Hb Hb'. pose proof (feed_decode_complete e b Hv Hver Hb) as H.
  pose proof (feed_decode_complete e' b Hv' Hver' Hb') as H'. congruence.
Qed.

(** ** Histories *)

(** The heads that [bootstrap] and [append] reach, with the events they took. *)
Inductive feed_reached : list SignedPublicFeedEventV1 → PublicFeedHeadV1 → Prop :=
| feed_bootstrapped e h : bootstrap e = Ok h → feed_reached [e] h
| feed_appended es h e h' : feed_reached es h → append e h = (Ok tt, h') → feed_reached (es ++ [e]) h'.

Definition same_authority (e e' : SignedPublicFeedEventV1) : Prop :=
  subject_id e = subject_id e' ∧ publisher_identity_id e = publisher_identity_id e' ∧ publisher_key e = publisher_key e'.

(** [e] continues the history that ends in [prev]. *)
Definition continues (prev : option SignedPublicFeedEventV1) (e : SignedPublicFeedEventV1) : Prop :=
  match prev with
  | None => (sequence e).(uint_get) = 1 ∧ previous_entry_hash e = None
  | Some p =>
      same_authority p e ∧ (sequence e).(uint_get) = (sequence p).(uint_get) + 1 ∧ is_tombstone (payload p) = false ∧
      ∃ h, entry_hash p = Ok h ∧ previous_entry_hash e = Some h
  end.

(** What a public feed is: one publisher's signed posts on one subject, each
    naming its predecessor, with nothing after a tombstone. *)
Definition feed_history (es : list SignedPublicFeedEventV1) : Prop :=
  ∀ pre e post, es = pre ++ e :: post → verify e = Ok tt ∧ (∃ h, entry_hash e = Ok h) ∧ continues (last pre) e.

Definition head_after (es : list SignedPublicFeedEventV1) : option PublicFeedHeadV1 :=
  e ← last es; hash ← result_ok (entry_hash e);
  Some {| h_subject_id := subject_id e; h_publisher_id := publisher_identity_id e; h_publisher_key := publisher_key e;
          h_sequence := sequence e; h_hash := hash; h_tombstoned := is_tombstone (payload e) |}.

#[local] Opaque verify entry_hash.

Definition step_head (e : SignedPublicFeedEventV1) (hash : Sha256Digest) : PublicFeedHeadV1 :=
  {| h_subject_id := subject_id e; h_publisher_id := publisher_identity_id e; h_publisher_key := publisher_key e;
     h_sequence := sequence e; h_hash := hash; h_tombstoned := is_tombstone (payload e) |}.

Lemma head_after_Some es h :
  head_after es = Some h ↔ ∃ e hash, last es = Some e ∧ entry_hash e = Ok hash ∧ h = step_head e hash.
Proof.
  unfold head_after. destruct (last es) as [e|]; cbn [mbind option_bind].
  2: { split; [discriminate|]. intros (? & ? & ? & _). discriminate. }
  split.
  - intros H. apply bind_Some in H as (hash & He & [= <-]). exists e, hash. split_and!; [reflexivity| |reflexivity].
    destruct (entry_hash e); [by injection He as ->|discriminate He].
  - intros (e' & hash & [= <-] & He & ->). rewrite He. reflexivity.
Qed.

Lemma feed_bootstrap_iff e h :
  bootstrap e = Ok h ↔ verify e = Ok tt ∧ continues None e ∧ ∃ hash, entry_hash e = Ok hash ∧ h = step_head e hash.
Proof.
  unfold bootstrap, continues. destruct (verify e) as [[]|]; cbn [mbind result_bind]; [|split; [|intros [? _]]; discriminate].
  unfold reject_if. case_decide as Hc; cbn [mbind result_bind].
  - split; [discriminate|]. intros (_ & [Hn Hp] & _). rewrite Hp in Hc. destruct Hc as [?|[? ?]]; [contradiction|discriminate].
  - apply Decidable.not_or in Hc as [Hn%dec_stable Hp%eq_None_not_Some]. split.
    + intros (hash & He & [= <-])%result_bind_Ok. split_and!; [reflexivity|fast_done|fast_done|]. exists hash. split; [exact He|reflexivity].
    + intros (_ & _ & hash & -> & ->). reflexivity.
Qed.

Lemma feed_append_iff e h h' :
  append e h = (Ok tt, h') ↔
  verify e = Ok tt ∧ (subject_id e = h.(h_subject_id) ∧ publisher_identity_id e = h.(h_publisher_id) ∧ publisher_key e = h.(h_publisher_key)) ∧
  (sequence e).(uint_get) = h.(h_sequence).(uint_get) + 1 ∧ h.(h_tombstoned) = false ∧
  previous_entry_hash e = Some h.(h_hash) ∧ ∃ hash, entry_hash e = Ok hash ∧ h' = step_head e hash.
Proof.
  unfold append, step_head. split.
  - intros H. st_inv H. apply Decidable.not_or in Hrun1 as [Hs%dec_stable Ha].
    apply Decidable.not_or in Ha as [Hp%dec_stable Hk%dec_stable]. apply dec_stable in Hrun5. apply not_true_is_false in Hrun3.
    destruct x. rewrite <-Hs, <-Hp, <-Hk.
    split_and!; [exact Hrun|reflexivity..| |exact Hrun3|exact Hrun5|exists x0; split; [exact Hrun0|reflexivity]].
    clear -Hrun4. case_decide as Hc; [discriminate|exact Hc].
  - intros (Hv & (Hs & Hp & Hk) & Hn & Ht & Hpr & hash & He & ->). unfold lift, get, modify, mbind, ST_bind, reject_if.
    rewrite Hv, He, <-Hs, <-Hp, <-Hk. rewrite decide_False by tauto. rewrite decide_False by (intros Heq; rewrite Heq in Hn; lia).
    rewrite Ht. rewrite decide_False by discriminate. rewrite decide_False by tauto. rewrite Hpr. rewrite decide_False by tauto. reflexivity.
Qed.

Lemma feed_append_atomic e h x h' : append e h = (Err x, h') → h' = h.
Proof. assert (atomic (append e)) as Ha by (unfold append; solve_atomic). apply Ha. Qed.

Lemma feed_history_snoc es e :
  feed_history (es ++ [e]) ↔ feed_history es ∧ verify e = Ok tt ∧ (∃ h, entry_hash e = Ok h) ∧ continues (last es) e.
Proof.
  unfold feed_history. split.
  - intros H. split; [|by apply (H es e [])]. intros pre e' post ->. apply (H pre e' (post ++ [e])). by rewrite <-(assoc_L (++)).
  - intros [H He] pre e' post Heq. destruct post as [|y post _] using rev_ind.
    + apply app_inj_tail in Heq as [-> ->]. exact He.
    + rewrite app_comm_cons, (assoc_L (++)) in Heq. apply app_inj_tail in Heq as [-> _]. by apply (H pre e' post).
Qed.

Lemma feed_history_nil : feed_history [].
Proof. intros pre e post H. by destruct pre. Qed.

(** A reached head is the head after its history, and every feed history is reached. *)
Lemma feed_reached_iff es h : feed_reached es h ↔ feed_history es ∧ head_after es = Some h.
Proof.
  split.
  - induction 1 as [e h Hb|es h e h' Hr [Hh Ha] Happ].
    + apply feed_bootstrap_iff in Hb as (Hv & Hc & hash & He & ->). split.
      * apply (feed_history_snoc []). split_and!; [apply feed_history_nil|exact Hv|by exists hash|exact Hc].
      * apply head_after_Some. exists e, hash. split_and!; [reflexivity|exact He|reflexivity].
    + apply head_after_Some in Ha as (p & hp & Hl & Hhp & ->).
      apply feed_append_iff in Happ as (Hv & (Hs & Hp & Hk) & Hn & Ht & Hpr & hash & He & ->). split.
      * apply feed_history_snoc. split_and!; [exact Hh|exact Hv|by exists hash|]. rewrite Hl.
        split; [by split_and!|]. split; [exact Hn|]. split; [exact Ht|]. exists hp. split; [exact Hhp|exact Hpr].
      * apply head_after_Some. exists e, hash. rewrite last_snoc. split_and!; [reflexivity|exact He|reflexivity].
  - revert h. induction es as [|e es IH] using rev_ind; intros h [Hh Ha]; [done|].
    apply feed_history_snoc in Hh as (Hh & Hv & _ & Hc). apply head_after_Some in Ha as (e' & hash & Hl & He & ->).
    rewrite last_snoc in Hl. injection Hl as <-. destruct (last es) as [p|] eqn:Hlast.
    + destruct Hc as ((Hs & Hp & Hk) & Hn & Ht & hp & Hhp & Hpr). apply (feed_appended es (step_head p hp)).
      * apply IH. split; [exact Hh|]. apply head_after_Some. exists p, hp. split_and!; [exact Hlast|exact Hhp|reflexivity].
      * apply feed_append_iff. cbn [step_head h_subject_id h_publisher_id h_publisher_key h_sequence h_tombstoned h_hash].
        split_and!; [exact Hv|by symmetry..|exact Hn|exact Ht|exact Hpr|]. exists hash. split; [exact He|reflexivity].
    + apply last_None in Hlast as ->. apply feed_bootstrapped, feed_bootstrap_iff.
      split; [exact Hv|]. split; [exact Hc|]. exists hash. split; [exact He|reflexivity].
Qed.

Lemma feed_history_appends es h e :
  feed_reached es h → feed_history (es ++ [e]) → ∃ h', append e h = (Ok tt, h').
Proof.
  intros (_ & (p & hp & Hl & Hhp & ->)%head_after_Some)%feed_reached_iff (_ & Hv & [hash He] & Hc)%feed_history_snoc.
  rewrite Hl in Hc. destruct Hc as ((Hs & Hp & Hk) & Hn & Ht & hp' & Hhp' & Hpr). assert (hp' = hp) as -> by congruence.
  exists (step_head e hash). apply feed_append_iff. cbn [step_head h_subject_id h_publisher_id h_publisher_key h_sequence h_tombstoned h_hash].
  split_and!; [exact Hv|by symmetry..|exact Hn|exact Ht|exact Hpr|]. exists hash. split; [exact He|reflexivity].
Qed.

(** ** What the head hash commits to *)

(** Two events of the feeds whose bytes differ and hash to the same digest. *)
Definition feed_collision (es es' : list SignedPublicFeedEventV1) : Prop :=
  ∃ e e' b b', e ∈ es ∧ e' ∈ es' ∧
    to_deterministic_cbor e = Ok b ∧ to_deterministic_cbor e' = Ok b' ∧ b ≠ b' ∧
    sha256 (EVENT_ENTRY_DOMAIN ++ b) = sha256 (EVENT_ENTRY_DOMAIN ++ b').

Lemma feed_collision_last es es' e e' : feed_collision [e] [e'] → feed_collision (es ++ [e]) (es' ++ [e']).
Proof.
  intros (f & f' & b & b' & Hf & Hf' & H). exists f, f', b, b'.
  split; [apply elem_of_app; right; exact Hf|]. split; [apply elem_of_app; right; exact Hf'|exact H].
Qed.
Lemma feed_collision_init es es' e e' : feed_collision es es' → feed_collision (es ++ [e]) (es' ++ [e']).
Proof.
  intros (f & f' & b & b' & Hf & Hf' & H). exists f, f', b, b'.
  split; [apply elem_of_app; left; exact Hf|]. split; [apply elem_of_app; left; exact Hf'|exact H].
Qed.

Lemma feed_same_hash e e' h :
  feed_event_valid e → feed_event_valid e' → verify e = Ok tt → verify e' = Ok tt →
  entry_hash e = Ok h → entry_hash e' = Ok h → e = e' ∨ feed_collision [e] [e'].
Proof.
  intros Hv Hv' Hok Hok' Hh Hh'.
  destruct (feed_event_encodes e Hv) as (b & Hb & _ & _ & Hhb).
  destruct (feed_event_encodes e' Hv') as (b' & Hb' & _ & _ & Hhb').
  rewrite Hh in Hhb. rewrite Hh' in Hhb'. destruct (decide (b = b')) as [->|Hne].
  - left. exact (feed_bytes_inj e e' b' Hv Hv' Hok Hok' Hb Hb').
  - right. exists e, e', b, b'. rewrite !list_elem_of_singleton.
    split_and!; [reflexivity|reflexivity|exact Hb|exact Hb'|exact Hne|].
    clear -Hhb Hhb'. unfold hash_domain in *. congruence.
Qed.

Lemma feed_bound_by_last es es' e e' h :
  feed_history (es ++ [e]) → feed_history (es' ++ [e']) →
  Forall feed_event_valid (es ++ [e]) → Forall feed_event_valid (es' ++ [e']) →
  entry_hash e = Ok h → entry_hash e' = Ok h →
  es ++ [e] = es' ++ [e'] ∨ feed_collision (es ++ [e]) (es' ++ [e']).
Proof.
  revert es' e e' h. induction es as [|x es IH] using rev_ind; intros es' e e' h Hf Hf' Hs Hs' Hh Hh';
    apply feed_history_snoc in Hf as (Hf & Hv & _ & Hc); apply feed_history_snoc in Hf' as (Hf' & Hv' & _ & Hc');
    pose proof Hs as [Hs0 He]%Forall_app; pose proof Hs' as [Hs0' He']%Forall_app; rewrite Forall_singleton in He, He';
    (destruct (feed_same_hash e e' h He He' Hv Hv' Hh Hh') as [Heq|Hcol];
      [subst e'|right; apply feed_collision_last; exact Hcol]).
  - destruct Hc as [_ Hc]. destruct (last es') as [p|] eqn:Hl.
    + destruct Hc' as (_ & _ & _ & ? & _ & Hc'). congruence.
    + apply last_None in Hl as ->. by left.
  - rewrite last_snoc in Hc. destruct Hc as (_ & _ & _ & h0 & Hx & Hp). destruct (last es') as [p|] eqn:Hl.
    2: { destruct Hc' as [_ Hc']. congruence. }
    destruct Hc' as (_ & _ & _ & h0' & Hx' & Hp'). assert (h0' = h0) as -> by congruence.
    apply last_Some in Hl as [es0 ->]. destruct (IH es0 x p h0 Hf Hf' Hs0 Hs0' Hx Hx') as [Hes|Hcol].
    + left. by rewrite Hes.
    + right. apply feed_collision_init. exact Hcol.
Qed.

(** ** Cursors *)

Definition cursor_valid (c : PublicFeedCursorV1) : Prop :=
  subject_valid c.(c_subject_id) ∧ uint_valid c.(c_after_sequence) ∧ uint_valid c.(c_snapshot_sequence) ∧
  digest_valid c.(c_snapshot_hash) ∧ Cursor_new c.(c_subject_id) c.(c_after_sequence) c.(c_snapshot_sequence) c.(c_snapshot_hash) = Ok c.

Lemma cursor_sized c : cursor_valid c → compact 2 297 9 (to_canonical_value c).
Proof.
  intros (Hs & Ha & Hn & Hd & _). apply (compact_sized 0 [(73, 1); (73, 1); (73, 1); (73, 1)]
    [Text (subject_to_string c.(c_subject_id)); to_canonical_value c.(c_after_sequence);
     to_canonical_value c.(c_snapshot_sequence); to_canonical_value c.(c_snapshot_hash)]); [done|].
  repeat apply Forall2_cons_2; try apply Forall2_nil_2; cbn [fst snd];
    [by apply subject_compact|by apply uint_compact|by apply uint_compact|by apply digest_compact].
Qed.

Context `{B64 : Base64Url} `{BL : !Base64Laws}.

Lemma cursor_sound s c : cursor_decode s = Ok c → cursor_valid c.
Proof using BL.
  intros H. unfold cursor_decode in H. apply result_bind_Ok in H as (b & Hb & H). apply ok_or_Ok, b64_decode_bytes in Hb.
  apply result_bind_Ok in H as (root & Hroot & H). apply map_err_Ok, decoded_parsed_ok in Hroot; [|done].
  apply result_bind_Ok in H as (fs & Hf & H). apply exact_map_Ok in Hf as [-> _].
  repeat match type of H with (_ ≫= _) = _ => let H' := fresh "Hr" in let x := fresh "x" in apply result_bind_Ok in H as (x & H' & H) end.
  assert (c = {| c_subject_id := x0; c_after_sequence := x2; c_snapshot_sequence := x4; c_snapshot_hash := from_bytes x5 |}) as ->.
  { unfold Cursor_new in H. by apply result_bind_Ok in H as (? & _ & [= <-]). }
  split_and!; cbn [c_subject_id c_after_sequence c_snapshot_sequence c_snapshot_hash].
  - by apply map_err_Ok, public_subject_text_canonical in Hr0 as [? _].
  - exact (read_uint fs Hroot _ _ _ _ Hr1 Hr2).
  - exact (read_uint fs Hroot _ _ _ _ Hr3 Hr4).
  - exact (read_digest fs Hroot _ _ Hr5).
  - exact H.
Qed.

Lemma cursor_complete c : cursor_valid c → ∃ s, cursor_encode c = Ok s ∧ cursor_decode s = Ok c.
Proof using BL.
  intros Hv. pose proof (cursor_sized c Hv) as Hc. destruct Hv as (Hs & Ha & Hn & [_ Hd] & Hnew).
  destruct (compact_encodes _ _ _ _ Hc) as (b & Hb & _ & Hdec); [unfold MAX_DEPTH, MAX_ENCODED_BYTES, MAX_TOTAL_ITEMS; lia..|].
  exists (b64_encode b). unfold cursor_encode, cursor_decode. rewrite Hb. split; [reflexivity|].
  rewrite b64_decode_encode by (eapply encoded_is_bytes; [apply Hc|exact Hb]).
  cbn [ok_or mbind result_bind]. rewrite Hdec. cbn [map_err]. cbn [mbind result_bind].
  open_map [Text (subject_to_string c.(c_subject_id)); to_canonical_value c.(c_after_sequence);
     to_canonical_value c.(c_snapshot_sequence); to_canonical_value c.(c_snapshot_hash)].
  cbn [text]. read_fields. rewrite (proj2 (public_subject_text_canonical _ _) (conj Hs eq_refl)). cbn [map_err]. read_fields.
  do 2 (rewrite uint_read; read_fields; rewrite uint_encode by done; read_fields).
  change (to_canonical_value c.(c_snapshot_hash)) with (Bytes (as_bytes c.(c_snapshot_hash))). unfold bytes32.
  rewrite bytes_of_encode by done. read_fields. destruct c as [? ? ? []]. exact Hnew.
Qed.

(** ** The properties *)

(** A cursor survives its text form: every cursor that [PublicFeedCursorV1::new]
    can build has an encoding that [decode] turns back into it, and [decode]
    returns nothing else, so a decoded cursor names a channel or an agent and does
    not start past its snapshot.  Base64url decoding is assumed to invert encoding. *)
Theorem feed_cursor_roundtrip c :
  cursor_valid c ↔ ∃ s, cursor_encode c = Ok s ∧ cursor_decode s = Ok c.
Proof using BL. split; [apply cursor_complete|]. intros (s & _ & Hd). by apply cursor_sound in Hd. Qed.
End events.

Section properties.
Context `{Ed : Ed25519} `{Sha : Sha256}.

(** C15. The bytes of a public feed event are exact: [decode_and_verify] accepts a byte
    string exactly when it is the deterministic encoding of an event that
    [UnsignedPublicFeedEventV1::new] can build and whose signature verifies, and
    returns that event.  No accepted event has a second encoding, and every
    event that verifies survives the wire. *)
Theorem feed_event_bytes_exact b e :
  Forall is_byte b →
  decode_and_verify b = Ok e ↔ feed_event_valid e ∧ verify e = Ok tt ∧ to_deterministic_cbor e = Ok b.
Proof. intros Hb. split; [by apply feed_decode_sound|]. intros (? & ? & ?). by apply feed_decode_complete. Qed.

(** C13. [PublicFeedHeadV1] implements the public feed: the heads that [bootstrap] and
    [append] reach are the heads after the well-formed histories (verified events of
    one publisher on one subject, numbered from one, each naming the entry hash of
    its predecessor, nothing after a tombstone), and on a reached head [append]
    takes an event exactly when the history stays well-formed and otherwise leaves
    the head as it was. *)
Theorem feed_admits_exactly es h :
  (feed_reached es h ↔ feed_history es ∧ head_after es = Some h) ∧
  (feed_reached es h → ∀ e,
    match append e h with
    | (Ok _, h') => feed_history (es ++ [e]) ∧ head_after (es ++ [e]) = Some h'
    | (Err _, h') => ¬ feed_history (es ++ [e]) ∧ h' = h
    end).
Proof.
  split; [apply feed_reached_iff|]. intros Hr e. destruct (append e h) as [[[]|x] h'] eqn:Happ.
  - apply feed_reached_iff. exact (feed_appended es h e h' Hr Happ).
  - split; [|exact (feed_append_atomic _ _ _ _ Happ)]. intros Hh.
    destruct (feed_history_appends es h e Hr Hh) as [h2 H2]. rewrite Happ in H2. discriminate H2.
Qed.

(** C14. The head hash of a public feed commits to its whole history: two feeds of valid
    events with the same head hash hold the same events in the same order and have
    the same head, or two of their events exhibit a collision of SHA-256. *)
Theorem feed_hash_binds_history es es' h h' :
  feed_reached es h → feed_reached es' h' → Forall feed_event_valid es → Forall feed_event_valid es' →
  h.(h_hash) = h'.(h_hash) →
  (es = es' ∧ h = h') ∨ feed_collision es es'.
Proof.
  intros [Hf Ha]%feed_reached_iff [Hf' Ha']%feed_reached_iff Hv Hv' Hh.
  pose proof Ha as (e & hash & Hl & He & Heq)%head_after_Some. pose proof Ha' as (e' & hash' & Hl' & He' & Heq')%head_after_Some.
  rewrite Heq, Heq' in Hh. cbn [step_head h_hash] in Hh. subst hash'.
  apply last_Some in Hl as [es0 ->]. apply last_Some in Hl' as [es0' ->].
  destruct (feed_bound_by_last es0 es0' e e' hash Hf Hf' Hv Hv' He He') as [Hes|Hcol]; [left|right; exact Hcol].
  split; [exact Hes|]. rewrite Hes in Ha. congruence.
Qed.
End properties.
End FeedProps.
