(* ===== verification/PublicFeedDemo.v ===== *)
(** * Public feeds: worked examples

    A channel's feed with two posts and a tombstone, on the concrete SHA-256 and
    Ed25519 of the identity log examples and with hexadecimal in place of base64url. *)

From S2P Require Import Prelude Domain CanonicalCbor CborSpec CborFields WirePrimitives WireValues.
From S2P Require Import IdentityLogDemo PublicFeed PublicFeedProps.

Module FeedDemo.
Import PublicIds Feed FeedProps.
Import IdentityLogDemo(sign, sha256_demo, ed25519_demo, or_empty, or_zero, digest_of).

#[local] Instance is_byte_dec x : Decision (is_byte x) := decide (0 ≤ x < 256).

Definition publisher_k : SigningPublicKey := MkSigningKey (replicate 32 1).
Definition publisher : IdentityId := Eval vm_compute in derive digest_of KIdentity (replicate 32 1).
Definition channel : PublicSubjectId := Eval vm_compute in Channel (derive digest_of KChannel (replicate 32 8)).

Definition feed_event (n : Z) (previous : option Sha256Digest) (p : PublicFeedPayloadV1) : SignedPublicFeedEventV1 :=
  let u := {| u_subject_id := channel; u_publisher_identity_id := publisher; u_publisher_key := publisher_k;
              u_sequence := MkSafeUint n; u_previous_entry_hash := previous; u_published_at := MkUtcMillis (1000 * n);
              u_payload := p |} in
  {| ev_unsigned := u; ev_signature := MkSignature (sign publisher_k.(key_bytes) (or_empty (signature_input u))) |}.

Definition picture : PublicAttachmentRefV1 :=
  {| at_digest := from_bytes (replicate 32 7); media_type := str "image/png"; size_bytes := MkSafeUint 512 |}.

Definition first_post : SignedPublicFeedEventV1 := Eval vm_compute in feed_event 1 None (Post (str "hello") [picture]).
Definition first_hash : Sha256Digest := Eval vm_compute in or_zero (entry_hash first_post).
Definition second_post : SignedPublicFeedEventV1 := Eval vm_compute in feed_event 2 (Some first_hash) (Post (str "again") []).
Definition second_hash : Sha256Digest := Eval vm_compute in or_zero (entry_hash second_post).
Definition closing : SignedPublicFeedEventV1 := Eval vm_compute in feed_event 3 (Some second_hash) Tombstone.
Definition closing_hash : Sha256Digest := Eval vm_compute in or_zero (entry_hash closing).
Definition late_post : SignedPublicFeedEventV1 := Eval vm_compute in feed_event 4 (Some closing_hash) (Post (str "late") []).

Definition first_bytes : bytes := Eval vm_compute in or_empty (to_deterministic_cbor first_post).
Definition second_bytes : bytes := Eval vm_compute in or_empty (to_deterministic_cbor second_post).
Definition closing_bytes : bytes := Eval vm_compute in or_empty (to_deterministic_cbor closing).

Lemma first_decodes : decode_and_verify first_bytes = Ok first_post.
Proof. vm_compute. reflexivity. Qed.
Lemma second_decodes : decode_and_verify second_bytes = Ok second_post.
Proof. vm_compute. reflexivity. Qed.
Lemma closing_decodes : decode_and_verify closing_bytes = Ok closing.
Proof. vm_compute. reflexivity. Qed.

Lemma bytes_ok b : bool_decide (Forall is_byte b) = true → Forall is_byte b.
Proof. apply bool_decide_eq_true. Qed.

Definition head1 : PublicFeedHeadV1 := step_head first_post first_hash.
Definition head2 : PublicFeedHeadV1 := step_head second_post second_hash.
Definition head3 : PublicFeedHeadV1 := step_head closing closing_hash.

Lemma boot_first : bootstrap first_post = Ok head1.
Proof. vm_compute. reflexivity. Qed.
Lemma append_second : append second_post head1 = (Ok tt, head2).
Proof. vm_compute. reflexivity. Qed.
Lemma append_closing : append closing head2 = (Ok tt, head3).
Proof. vm_compute. reflexivity. Qed.
(** After the tombstone nothing is taken, not even a correct successor. *)
Lemma append_late : append late_post head3 = (Err Tombstoned, head3).
Proof. vm_compute. reflexivity. Qed.
Lemma append_replay : append closing head3 = (Err Replay, head3).
Proof. vm_compute. reflexivity. Qed.

#[local] Opaque append bootstrap decode_and_verify to_deterministic_cbor verify entry_hash.

Lemma feed_reached_3 : feed_reached [first_post; second_post; closing] head3.
Proof.
  apply (feed_appended [_; _] head2); [|exact append_closing].
  apply (feed_appended [_] head1); [|exact append_second]. apply feed_bootstrapped. exact boot_first.
Qed.

Lemma feed_event_bytes_exact_witness :
  feed_event_valid first_post ∧ verify first_post = Ok tt ∧ to_deterministic_cbor first_post = Ok first_bytes.
Proof.
  apply (feed_event_bytes_exact first_bytes first_post); [|exact first_decodes].
  apply bytes_ok. vm_compute. reflexivity.
Defined.

Lemma feed_valid_3 : Forall feed_event_valid [first_post; second_post; closing].
Proof.
  repeat apply Forall_cons_2; try apply Forall_nil_2;
    [apply (feed_decode_sound first_bytes)|apply (feed_decode_sound second_bytes)|apply (feed_decode_sound closing_bytes)];
    try (apply bytes_ok; vm_compute; reflexivity); [exact first_decodes|exact second_decodes|exact closing_decodes].
Qed.

(** The closed feed refuses a correctly signed and linked successor. *)
Lemma feed_admits_exactly_witness :
  feed_history [first_post; second_post; closing] ∧ ¬ feed_history [first_post; second_post; closing; late_post].
Proof.
  destruct (feed_admits_exactly [first_post; second_post; closing] head3) as [H1 H2]. split; [apply H1, feed_reached_3|].
  specialize (H2 feed_reached_3 late_post). rewrite append_late in H2. apply H2.
Defined.

Lemma feed_hash_binds_history_witness :
  ([first_post; second_post; closing] = [first_post; second_post; closing] ∧ head3 = head3) ∨
  feed_collision [first_post; second_post; closing] [first_post; second_post; closing].
Proof.
  exact (feed_hash_binds_history _ _ head3 head3 feed_reached_3 feed_reached_3 feed_valid_3 feed_valid_3 eq_refl).
Defined.

(** ** Cursors *)

Definition hex_decode (s : bytes) : option bytes :=
  match parse_hex_pairs (length s / 2) s with
  | Ok b => if decide (Forall is_byte b ∧ b ≫= hex_byte = s) then Some b else None
  | Err _ => None
  end.
Global Instance base64_demo : Base64Url := {| b64_encode b := b ≫= hex_byte; b64_decode := hex_decode |}.
Global Instance base64_laws : Base64Laws.
Proof.
  split.
  - intros b Hb. cbn. unfold hex_decode.
    replace (length (b ≫= hex_byte) / 2)%nat with (length b) by (rewrite length_hex_text, Nat.mul_comm, Nat.div_mul; lia).
    destruct (parse_hex_pairs_Ok (length b) (b ≫= hex_byte)) as (bs & -> & Hd & _ & Heq).
    { apply length_hex_text. }
    { by apply hex_text_lower. }
    apply hex_text_inj in Heq as ->; [|done|done]. by rewrite decide_True.
  - intros s b. cbn. unfold hex_decode. destruct (parse_hex_pairs _ _); [|done]. case_decide as Hc; [|done].
    intros [= <-]. apply Hc.
Qed.

Definition cursor : PublicFeedCursorV1 :=
  {| c_subject_id := channel; c_after_sequence := MkSafeUint 1; c_snapshot_sequence := MkSafeUint 3; c_snapshot_hash := closing_hash |}.
Definition cursor_text : bytes := Eval vm_compute in or_empty (cursor_encode cursor).

Lemma feed_cursor_roundtrip_witness : cursor_valid cursor.
Proof. apply (feed_cursor_roundtrip cursor). exists cursor_text. split; vm_compute; reflexivity. Defined.

(** A cursor that is not a map fails with [InvalidCanonical] instead of [InvalidCursor]. *)
Lemma cursor_reports_canonical_error : cursor_decode (str "00") = Err InvalidCanonical.
Proof. vm_compute. reflexivity. Qed.
End FeedDemo.
